(* ===== verification/_CoqProject ===== *)
-Q . S2P
Prelude.v
UtxoTypes.v
MemStore.v
StoreContract.v
StoreProps.v
StoreReplay.v
StoreLifecycle.v
StoreSpend.v
Statuses.v
GoStrings.v
Satoshi.v
Primitives.v
Breaker.v
Float64.v
External.v
Fee.v
Collector.v
Funder.v
FunderProps.v
FunderMem.v
Config.v
Lease.v
KnownTx.v
KnownTxProps.v
Catalog.v
Requests.v
Ledger.v
StatusUpdates.v
StatusUpdatesProps.v
Events.v
EventsProps.v
SpendConflict.v
Abort.v
Reconciler.v
Process.v
Sweeps.v
ProviderLogic.v
OutboxProps.v
AbortProps.v
AbortRecovery.v
ReconcilerProps.v
TwoPass.v
ProcessProps.v
ProcessCommit.v
SweepProps.v
PollProps.v
Monitor.v
ProcessExample.v
Beef.v
Create.v
CreateProps.v
CreateCoins.v
CreateExample.v
Keeper.v
Validate.v
Queries.v
QueriesProps.v
Accounts.v
Internalize.v
Sync.v
SyncProps.v
InternalizeProps.v
TransferExample.v
SqlDb.v
SqlStore.v
SqlLogic.v
SqlAgree.v
SqlRefine.v
SqlRefineSpend.v
SqlRefineClaim.v
SqlRefineMint.v
SqlRaces.v
SqlRaceCalls.v
SqlVerdicts.v
SqlProps.v
AeroDb.v
AeroStore.v
AeroLogic.v
AeroRaces.v
AeroProps.v
