(* ===== verification/Prelude.v ===== *)
(** * go-arcade-toolbox: a verification library

    The program is a wallet storage server.  It funds transactions from an inventory
    of coins, hands signed transactions to the Arcade broadcast service, and follows
    the status events that come back.  The library is a shallow embedding of its
    core: every operation below is an executable function of this library, written
    after the Go source, with the theorems that make it correct.

    ** The program and where it is modelled

    - The coin store ([pkg/utxostore]) keeps one row per unspent output: owner,
      basket, tier, reservation token, pin, recorded spend, freeze.  [UtxoTypes]
      has its vocabulary, validation and errors; [MemStore] the in-memory backend,
      the reference the other backends are tested against.  [StoreContract] states
      the interface's documentation as an abstract lifecycle per coin and proves
      that every call refines it; [StoreProps], [StoreReplay], [StoreLifecycle] and
      [StoreSpend] hold the theorems; [StoreExample] a concrete store.
    - The SQL backend ([pkg/utxostore/sqlstore], [internal/sqlkit]): [SqlDb] is the
      table, a connection among other callers, the statements, transactions and
      retries; [SqlStore] the operations, statement by statement, for PostgreSQL and
      SQLite.  [SqlLogic], [SqlAgree] and the [SqlRefine] files show that a caller
      alone gets the in-memory store; [SqlRaces], [SqlRaceOps], [SqlRaceCalls] and
      [SqlVerdicts] what holds among others; [SqlProps] has the theorems.
    - The Aerospike backend ([pkg/utxostore/aerostore]): [AeroDb] is the set of records
      with bins, filter expressions and conditional writes, the commands on it among
      other processes, the keys, the record codec and the checks at the opening;
      [AeroStore] the operations, command by command, with the claim cache.  [AeroLogic]
      has the codec and the writes, [AeroRaces] and [AeroRaceOps] what every command and
      operation does among others, [AeroClaims], [AeroCalls], [AeroAlone] and
      [AeroReserve] the calls, [AeroProps] the theorems and concrete runs.
    - The funder ([pkg/storage/internal/funder]) selects coins for a transaction:
      [Funder] (selection, retries, the fast path of equal coins), [Collector] (fee
      and change accounting) and [Fee] (sizes and the float64 fee), over the
      floating point of [Float64] and the third-party helpers named in [External].
      The funder talks to the store through the class [FundingStore]; its theorems
      ([CollectorProps], [FunderProps]) are proved against [OwnedStore], and
      [FunderMem] shows that the in-memory store, with other callers working on it
      at the same time, is an instance.  [FunderExample] runs it.
    - [Satoshi] ([pkg/internal/satoshi]) is the checked arithmetic both use.
    - [Config] ([pkg/defs]) is the throughput configuration and its validation.
    - [Statuses] has the two status vocabularies ([pkg/wdk/tx_status.go],
      [pkg/arcade/wire.go]) and the lattice that orders Arcade's statuses.
    - [Breaker] ([pkg/arcade/circuit_breaker.go]) is the broadcast circuit breaker.
    - The metadata store ([pkg/storage/internal/metastore]): [KnownTx] is the table
      of raw transactions and its repository, [Ledger] the transactions and outputs
      tables, [Lease] the job lease of the monitor.  [KnownTxProps] has the arbiter
      between aborting and broadcasting.
    - [StatusUpdates] ([pkg/storage/status_updates.go]) applies status events to the
      metadata store and the coin store, one by one and in batches;
      [StatusUpdatesProps] and [StatusUpdatesExample] have its theorems.
    - [Outbox] is the crash-recovery queue of coin-store operations; [ReleaseOps]
      has the operations, their executor and the drain ([pkg/storage/reconciler.go]);
      [OutboxProps] relates an outbox row to the coin-store calls it stands for.
    - [Abort] ([pkg/storage/abort.go]) aborts an action that was not broadcast, with
      one database or two; [AbortProps], [AbortRecovery] and [AbortExample] have its
      theorems.  The outbox key is a hash: [Sha256].
    - [Reconciler] ([pkg/storage/reconciler.go]) decides what becomes of rejected
      transactions and releases the inputs of the dead ones, using the texts that
      [SpendConflict] ([pkg/storage/spend_conflict.go]) reads over the string
      functions of [GoStrings]; [ReconcilerProps], [TwoPass] and [ReconcilerExample]
      have its theorems.  [ProviderLogic] has the rules these proofs share.
    - [Process] ([pkg/storage/process.go], [verifiers.go], parts of [beef.go]) stores
      a signed transaction, claims it for broadcast, POSTs it to Arcade and commits
      the answer; [ProcessProps] and [ProcessCommit] have its theorems.
    - [Sweeps] (the periodic half of [pkg/storage/status_updates.go]) sends what
      waits, reclaims stale reservations, aborts abandoned actions, polls statuses,
      repairs transactions that were written off and takes back proofs after a
      reorganisation; [SweepProps] and [PollProps] have its theorems, and
      [ProcessExample] runs both.
    - [Create] ([pkg/storage/create.go], [create_inputs.go]) reserves the inputs a
      caller names, funds the rest, and stores the unsigned transaction with its
      outputs; it uses the randomizer ([Random], [pkg/storage/randomizer.go]) and the
      ancestry walk ([Beef], [pkg/storage/beef.go]).  [CreateProps] has what is stored,
      [CreateCoins] what is held and paid, proved against the class [CoinFunding];
      [CreateExample] runs it.
    - [Catalog] holds the users, baskets, certificates and sync states of the metadata
      store; [Queries] the listings, balances and spendability of [pkg/storage/actions.go]
      and [outputs.go]; [Accounts] onboarding, certificates and reports ([users.go],
      [certificates.go], [insights.go]).  [QueriesProps] has the theorems.
    - [Primitives] ([pkg/wdk/primitives]) has the bounded values of requests, [Requests]
      the request records and time labels ([pkg/wdk], [pkg/internal/brc114]), [Validate]
      the validators ([pkg/internal/validate]).
    - [Internalize] ([pkg/storage/internalize.go]) credits outputs of foreign
      transactions, [Sync] ([pkg/storage/sync.go]) moves a user between storages;
      [InternalizeProps] and [SyncProps] have the theorems, [TransferExample] runs them.
    - The monitor ([pkg/monitor]): [Monitor] is the daemon with its configuration and the
      sweeps its jobs run, [Events] the consumer of Arcade's event stream with its replay
      cursor; [EventsProps] has the theorems on the cursor.
    - [Keeper] ([pkg/wallet/fuelkeeper]) keeps the pool of equal coins filled, over the
      interface of the wallet it drives.

    Small modules share the file of the module they belong to: the examples with the
    theorems they witness, [CollectorProps] with [Collector], [Outbox] with [Ledger],
    [ReleaseOps] with [Abort], [Random] with [Beef], the text codecs ([Encoding]) and
    [Sha256] with [GoStrings], and the parts of the SQL proofs with one another.

    ** How code becomes definitions

    An operation that reads or changes state is a computation of the monad [M]: a
    function from the state to an outcome (a result, an error, or a Go panic) and
    the new state.  A method that holds the mutex for its whole body is one such
    function; where the code gives the lock up, or uses two SQL statements, the
    parts are separate steps of a step relation ([Breaker], [Lease]).  A machine
    integer is a [Z] with its wrap-around written out ([u64], [i64]); float64 is
    the IEEE arithmetic of [SpecFloat].  A Go map is a [gmap]; its unspecified
    iteration order is the class [MapRange], and theorems hold for every instance.
    The clock is a function from the number of the reading.  An SQL table is a
    finite map from its key, an UPDATE the change of the rows its WHERE selects, and
    a unit of work rolls back as the store mode says.  Third-party code and remote
    services are parameters: the classes [External], [Sdk], [TxSdk], [BeefSdk], [AtomicSdk],
    [ToLib] and [KeyLib], the entropy the randomizer reads, the record
    [Headers], the oracle and Arcade's answers to a POST (functions of the time of the
    call) and the store classes, with the documented behaviour the code relies on as
    laws and a concrete instance of each.  The state of a sender ([Wire]) has the list
    of the POSTs made so far, each with the metadata it found.

    ** What the theorems show

    - Store: refinement of the documented lifecycle, the row invariant in every
      reachable state, exclusivity of claims, finality of recorded spends, exact
      selection order of the three claims and their independence of map order,
      idempotent replay at any later time, all-or-nothing reservation, the pin against janitors, the
      stale listing, the Spend/Unspend round trip and the balance.
    - SQL store: for a caller alone, on calls whose values the schema can hold, call by
      call the answers and the coins of the in-memory store; with other callers
      committing between any two statements and the engine refusing any of them, every
      change of a coin is one the documentation allows, a failed call has changed
      nothing, a claimed coin was free, and an acknowledged spend is on record unless
      somebody undoes that spend meanwhile.
    - Aerospike store: with other processes writing and goroutines using the claim cache
      before any command, and commands that fail or whose reply is lost, a coin changes
      only by the documented steps (and the undoing of a partial reservation), and every
      record stays the encoding of a coin; a claimed coin was free and is held, an
      acknowledged spend is on record; named coins are all reserved or, if no command
      fails, none is.  A process alone finds a coin whenever there is one, whatever the
      cache remembers.
    - Funding: on success the store holds exactly the allocated coins and the sums
      and the change shape are right; on error nothing stays reserved; the fee
      covers the node's minimum; selection terminates.  All hold while other callers
      use the store.
    - Arithmetic and configuration: satoshi operations are exact or fail, the
      float64 fee is within one satoshi of the exact quotient, a validated
      configuration can be used by the funder.
    - Protocols: the breaker throttles its probes under every interleaving and blocks
      while it is open; the final confirmed status does not depend on the order of
      events; of an abort and a send of one transaction only the first happens; a
      job lease has one holder; an unverified merkle proof is never stored.
    - Giving coins back: an abort, interrupted anywhere, frees coins only of a
      transaction fenced against broadcast, and the outbox completes it after a
      crash; the reconciler frees an input only of a quarantined suspect that was
      rejected twice, a grace period apart, or that lost a conflict which is not
      known to have taken the input; the reclaiming sweeps free only the coins of
      transactions that are dead.
    - Sending: bytes leave the process only for a claimed row, and never for a
      transaction that is aborted, failed or past its broadcast; signed bytes are
      stored over pinned inputs; an accepted broadcast is recorded, and recording it
      again after a crash converges; the status poll reaches every waiting row.
    - Creating: an action is worth exactly its outputs plus a sufficient fee; it is
      stored as it is returned, with every requested output; it holds the coins it will
      spend; a failure leaves nothing behind, in either storage mode.
    - Listing, moving and receiving: pages tile the list they are cut from; a
      relinquished coin leaves the inventory unless it is held; sync brings every
      spendable coin of the source to an empty target and never mints a coin the source
      could not spend; an internalized output is credited once, with the value of the
      transaction, and counts as mined only on the word of the header source.
    - Background work: the replay cursor never leads an event that was not applied,
      unless a later event was delivered before it or a hold reached its bound, whatever
      fails or restarts; every enabled task runs under a lease longer than its
      interval; a top-up round never overshoots, never splits more chunks than there are,
      and rounds fill the pool.
    - A few theorems state where the code departs from what its comments say: the
      unchecked product of [Multiply], the fee that is one satoshi high, the
      refused sufficient coin, the lifted abort fence, the completion that a second
      BEEF takes back, the batch that differs from its records, the lost status count,
      the competitor the reconciler overlooks, the named coin that a funding retry spends
      a second time, the grouped spend that rules otherwise than the loop it stands for,
      the coin of value zero and the large output index that only some backends take, the
      event below the cursor that is not replayed, the chunk that does not cover its
      leaf.

    ** Bounds and fuel

    The funder's selection loop takes fuel, one unit per round, and [fund_terminates]
    gives the number of rounds that is always enough: each round but the last allocates
    a coin.  The keeper's search for chunks has a unit of fuel per missing chunk and 64
    halvings; running out would be a panic, which [leaf_per_chunk] excludes.  A claim of the
    Aerospike store has one round more per bucket than lost races it tolerates, or than
    coins it may take; running out would be a panic, which [aero_calls_interleave]
    excludes.  The number of
    funding attempts, the retries after a lock error and the rounds of a guarded SQL
    write are the source's constants.  The insertion counter of the store
    is 64 bits wide; reachability assumes it is not exhausted.

    ** What is not modelled

    Of the Aerospike server what the package says it relies on is part of [AeroDb]: a
    command on a record is atomic, a query sees each record at some moment of the query.
    An outpoint is minted with one owner, basket, value and size for good, and the claim
    that an empty answer is right takes amounts below 2^63.  The wait for an index build,
    the retries of info requests and the connection URL are not modelled.
    Of the SQL engine what the statements rely on is part of
    [SqlDb]: a statement is atomic, a row that a transaction wrote or locked stays as it
    is for the others, SQLite has one writer, a refused statement or commit has no
    effect, an output index, input size or amount outside its column is refused; a
    commit whose acknowledgement is lost, the range of timestamps, planning and indexes
    are not.
    Of the event stream the deliveries are part of [EventsProps], in any order; the
    connections of its client are not.
    HTTP, the parsing of event streams, logging and tracing; signing, key derivation and the other
    wallet-side code; test code.
    The automatic retries of a unit of work are left out: a retried transaction
    starts from the state it was rolled back to.  Cancellation of a request is left
    out, and the sweeps that start goroutines run their items one after another; what
    happens between the steps of two callers is covered where a theorem quantifies
    over call sequences ([StoreLifecycle], [FunderMem], [KnownTxProps]). *)
From stdpp Require Export ssreflect relations gmap strings list fin_maps sorting.
From Stdlib Require Export ZArith Lia.

#[export] Set Default Goal Selector "!".
#[export] Set Warnings "-rewrite-rw".

(** ** Machine integers

    Go's fixed-width integers are kept as [Z] with the wrap-around of the
    language written out: an unsigned w-bit result is taken modulo [2^w], a
    signed one is brought back into [-2^(w-1), 2^(w-1)). *)
Definition wrapU (w z : Z) : Z := (z mod 2 ^ w)%Z.
Definition wrapS (w z : Z) : Z := ((z + 2 ^ (w - 1)) mod 2 ^ w - 2 ^ (w - 1))%Z.

Abbreviation u64 := (wrapU 64).
Abbreviation u32 := (wrapU 32).
Abbreviation i64 := (wrapS 64).

(** ** Outcomes and the state-and-error monad

    A Go call ends in one of three ways: it returns a value, it returns an
    error, or it panics.  [M S E A] threads a mutable state of type [S] through
    such calls; the state survives an error, as it does in Go. *)
Inductive outcome (E A : Type) : Type :=
| Ret (a : A)
| Err (e : E)
| Panic.
Arguments Ret {E A} a.
Arguments Err {E A} e.
Arguments Panic {E A}.

Definition M (S E A : Type) : Type := S → outcome E A * S.

#[global] Instance outcome_ret {E} : MRet (outcome E) := λ A a, Ret a.
#[global] Instance outcome_bind {E} : MBind (outcome E) := λ A B k o,
  match o with Ret a => k a | Err e => Err e | Panic => Panic end.

#[global] Instance M_ret {S E} : MRet (M S E) := λ A a s, (Ret a, s).
#[global] Instance M_bind {S E} : MBind (M S E) := λ A B k c s,
  match c s with
  | (Ret a, s') => k a s'
  | (Err e, s') => (Err e, s')
  | (Panic, s') => (Panic, s')
  end.

Lemma outcome_bind_Ret {E A B} (o : outcome E A) (k : A → outcome E B) b :
  o ≫= k = Ret b ↔ ∃ a, o = Ret a ∧ k a = Ret b.
Proof. destruct o; naive_solver. Qed.

(** Changing the error type: [fmt.Errorf("...: %w", err)]. *)
Definition mapErr {E E' A} (f : E → E') (o : outcome E A) : outcome E' A :=
  match o with Ret a => Ret a | Err e => Err (f e) | Panic => Panic end.

Lemma mapErr_Ret {E E' A} (f : E → E') (o : outcome E A) a : mapErr f o = Ret a ↔ o = Ret a.
Proof. destruct o; naive_solver. Qed.

Definition throw {S E A} (e : E) : M S E A := λ s, (Err e, s).
Definition lift {S E A} (o : outcome E A) : M S E A := λ s, (o, s).
Definition gets {S E A} (f : S → A) : M S E A := λ s, (Ret (f s), s).
Definition modify {S E} (f : S → S) : M S E () := λ s, (Ret (), f s).

(** Running a computation on a component of the state ([get]/[put] is the lens)
    under an error injection. *)
Definition zoom {S T E E' A} (get : T → S) (put : S → T → T) (inj : E → E')
    (m : M S E A) : M T E' A := λ t,
  let '(o, s) := m (get t) in (mapErr inj o, put s t).

(** ** Weakest preconditions

    [wp m Q X W s]: running [m] from [s] ends in a value satisfying [Q], in an
    error satisfying [X], or in a panic satisfying [W]. *)
Definition wp {S E A} (m : M S E A) (Q : A → S → Prop) (X : E → S → Prop)
    (W : S → Prop) (s : S) : Prop :=
  match m s with
  | (Ret a, s') => Q a s'
  | (Err e, s') => X e s'
  | (Panic, s') => W s'
  end.

Section wp_rules.
Context {S E : Type}.

Lemma wp_ret {A} (a : A) Q X W (s : S) : Q a s → wp (E:=E) (mret a) Q X W s.
Proof. done. Qed.

Lemma wp_bind {A B} (m : M S E A) (k : A → M S E B) Q X W s :
  wp m (λ a, wp (k a) Q X W) X W s → wp (m ≫= k) Q X W s.
Proof. rewrite /wp /mbind /M_bind. by destruct (m s) as [[]?]. Qed.

Lemma wp_bind_inv {A B} (m : M S E A) (k : A → M S E B) Q X W s :
  wp (m ≫= k) Q X W s → wp m (λ a, wp (k a) Q X W) X W s.
Proof. rewrite /wp /mbind /M_bind. by destruct (m s) as [[]?]. Qed.

Lemma wp_mono {A} (m : M S E A) (Q Q' : A → S → Prop) (X X' : E → S → Prop)
    (W W' : S → Prop) s :
  wp m Q X W s →
  (∀ a s', Q a s' → Q' a s') → (∀ e s', X e s' → X' e s') → (∀ s', W s' → W' s') →
  wp m Q' X' W' s.
Proof. rewrite /wp. destruct (m s) as [[]?]; eauto. Qed.

Lemma wp_throw {A} (e : E) (Q : A → S → Prop) X W s : X e s → wp (throw e) Q X W s.
Proof. done. Qed.

Lemma wp_lift {A} (o : outcome E A) (Q : A → S → Prop) (X : E → S → Prop) (W : S → Prop) s :
  match o with Ret a => Q a s | Err e => X e s | Panic => W s end → wp (lift o) Q X W s.
Proof. rewrite /wp /lift. by destruct o. Qed.

Lemma wp_conj {A} (m : M S E A) Q Q' X X' W W' s :
  wp m Q X W s → wp m Q' X' W' s →
  wp m (λ a s', Q a s' ∧ Q' a s') (λ e s', X e s' ∧ X' e s') (λ s', W s' ∧ W' s') s.
Proof. rewrite /wp. destruct (m s) as [[]?]; eauto. Qed.
End wp_rules.

Lemma wp_zoom {S T E E' A} (get : T → S) (put : S → T → T) (inj : E → E')
    (m : M S E A) (Q : A → T → Prop) X W (t : T) :
  wp m (λ a s, Q a (put s t)) (λ e s, X (inj e) (put s t)) (λ s, W (put s t)) (get t) →
  wp (zoom get put inj m) Q X W t.
Proof. rewrite /wp /zoom. by destruct (m (get t)) as [[]?]. Qed.

(** ** Go's maps and slices

    [for k, v := range m] visits the entries of a map once each in an order the
    language leaves unspecified.  [range_map] is such an order; every operation
    that iterates over a map takes it from this class, so a theorem about the
    operation holds for every iteration order. *)
Class MapRange := {
  range_map : ∀ {K V : Type} `{Countable K}, gmap K V → list (K * V);
  range_map_perm : ∀ {K V : Type} `{Countable K} (m : gmap K V),
    range_map m ≡ₚ map_to_list m;
}.

(** One concrete order, for evaluation. *)
Definition range_canonical : MapRange := {|
  range_map := λ K V _ _ m, map_to_list m;
  range_map_perm := λ K V _ _ m, Permutation_refl (map_to_list m);
|}.

(** Another one, its reverse. *)
Definition range_reversed : MapRange := {|
  range_map := λ K V _ _ m, reverse (map_to_list m);
  range_map_perm := λ K V _ _ m, reverse_Permutation (map_to_list m);
|}.

(** [slices.SortFunc] for a comparator that returns the sign of the comparison.
    The relation it sorts by is [cmp a b <= 0]. *)
Definition cmp_le {A} (cmp : A → A → comparison) (a b : A) : Prop := cmp a b ≠ Gt.
#[global] Instance cmp_le_dec {A} (cmp : A → A → comparison) : RelDecision (cmp_le cmp).
Proof. intros a b. rewrite /cmp_le. destruct (cmp a b); [left|left|right]; naive_solver. Defined.
Definition SortFunc {A} (cmp : A → A → comparison) (l : list A) : list A :=
  merge_sort (cmp_le cmp) l.

(** [s[:n]] for an [n] already clamped to the length. *)
Definition slice_to {A} (n : Z) (l : list A) : list A :=
  take (Z.to_nat (n `min` Z.of_nat (length l))) l.

(** The loop [for _, v := range m { if P(v) { v = f(v); n++ } }]. *)
Definition update_where {K V} `{Countable K} (P : V → bool) (f : V → V) (m : gmap K V) :
    gmap K V * Z :=
  ((λ v, if P v then f v else v) <$> m,
   Z.of_nat (size (filter (λ kv, P kv.2 = true) m))).

(** The loop [for k, v := range m { if P(v) { delete(m, k); n++ } }]. *)
Definition delete_where {K V} `{Countable K} (P : V → bool) (m : gmap K V) : gmap K V * Z :=
  (filter (λ kv, P kv.2 = false) m,
   Z.of_nat (size (filter (λ kv, P kv.2 = true) m))).

(** ** Shared lemmas on maps and slices *)

Lemma SortFunc_perm {A} (cmp : A → A → comparison) l : SortFunc cmp l ≡ₚ l.
Proof. apply merge_sort_Permutation. Qed.

Lemma slice_to_sublist {A} n (l : list A) : slice_to n l `sublist_of` l.
Proof. apply sublist_take. Qed.

Lemma slice_to_subseteq {A} n (l : list A) x : x ∈ slice_to n l → x ∈ l.
Proof. intros Hx. eapply elem_of_sublist; [exact Hx|apply slice_to_sublist]. Qed.

Lemma range_map_elem `{MapRange} {K V} `{Countable K} (m : gmap K V) k v :
  (k, v) ∈ range_map m ↔ m !! k = Some v.
Proof. by rewrite range_map_perm elem_of_map_to_list. Qed.

Lemma range_map_NoDup_fst `{MapRange} {K V} `{Countable K} (m : gmap K V) :
  NoDup (range_map m).*1.
Proof. rewrite range_map_perm. apply NoDup_fst_map_to_list. Qed.

Lemma range_map_NoDup `{MapRange} {K V} `{Countable K} (m : gmap K V) :
  NoDup (range_map m).
Proof. rewrite range_map_perm. apply NoDup_map_to_list. Qed.

Lemma sublist_fmap_fst {A B} (l k : list (A * B)) : l `sublist_of` k → l.*1 `sublist_of` k.*1.
Proof. induction 1; simpl; by constructor. Qed.

(** What a selection (filter, sort, truncate) from a map's entries contains. *)
Lemma selection_spec `{MapRange} {K V} `{Countable K} (m : gmap K V)
    (P : K * V → Prop) `{!∀ x, Decision (P x)} cmp n :
  let sel := slice_to n (SortFunc cmp (filter P (range_map m))) in
  NoDup sel.*1 ∧ ∀ k v, (k, v) ∈ sel → m !! k = Some v ∧ P (k, v).
Proof.
  split.
  - eapply sublist_NoDup; [|apply sublist_fmap_fst, slice_to_sublist].
    rewrite SortFunc_perm.
    eapply sublist_NoDup; [apply (range_map_NoDup_fst m)|].
    apply sublist_fmap_fst, sublist_filter.
  - intros k v Hin%slice_to_subseteq. rewrite SortFunc_perm in Hin.
    apply list_elem_of_filter in Hin as [HP Hin]. by rewrite range_map_elem in Hin.
Qed.

Lemma lookup_update_where {K V} `{Countable K} (P : V → bool) f (m : gmap K V) k :
  (update_where P f m).1 !! k = (λ v, if P v then f v else v) <$> m !! k.
Proof. apply lookup_fmap. Qed.

Lemma lookup_delete_where {K V} `{Countable K} (P : V → bool) (m : gmap K V) k :
  (delete_where P m).1 !! k = (v ← m !! k; if P v then None else Some v).
Proof.
  rewrite /= map_lookup_filter. destruct (m !! k) as [v|]; [|done].
  cbn. case_guard; destruct (P v); naive_solver.
Qed.

(** A pointwise preorder on maps kept by every step of a loop is kept by the loop. *)
Lemma foldl_pointwise {A K V} `{Countable K} (R : K → option V → option V → Prop)
    `{!∀ k, PreOrder (R k)} (f : gmap K V → A → gmap K V) (l : list A) (m : gmap K V) :
  (∀ x m k, x ∈ l → R k (m !! k) (f m x !! k)) →
  ∀ k, R k (m !! k) (foldl f m l !! k).
Proof.
  revert m. induction l as [|x l IH]; intros m Hf k; simpl; [done|].
  etrans; [apply Hf; left|]. apply IH. intros. apply Hf. by right.
Qed.

(** Case analysis on the matches of the goal or of a hypothesis. *)
Ltac destruct_match_in H :=
  match type of H with
  | context [match ?x with _ => _ end] => destruct x eqn:?; simplify_eq/=
  end.

(** ** Sorting and truncating *)

Section sort_slice.
Context {A} (cmp : A → A → comparison) `{!Transitive (cmp_le cmp), !Total (cmp_le cmp)}.

(** A sorted slice is an initial segment of the sorted whole. *)
Lemma sort_slice_spec n (l : list A) :
  ∃ rest, let sel := slice_to n (SortFunc cmp l) in
    sel ++ rest ≡ₚ l ∧ StronglySorted (cmp_le cmp) (sel ++ rest) ∧
    length sel = Z.to_nat (n `min` Z.of_nat (length l)).
Proof.
  exists (drop (Z.to_nat (n `min` Z.of_nat (length (SortFunc cmp l)))) (SortFunc cmp l)).
  rewrite /slice_to /= take_drop. split_and!.
  - apply SortFunc_perm.
  - by apply StronglySorted_merge_sort.
  - rewrite length_take (Permutation_length (SortFunc_perm cmp l)). lia.
Qed.

(** Two inputs with the same elements sort to the same list when the comparator
    separates their elements. *)
Lemma SortFunc_unique (l k : list A) :
  l ≡ₚ k → (∀ x y, x ∈ l → y ∈ l → cmp_le cmp x y → cmp_le cmp y x → x = y) →
  SortFunc cmp l = SortFunc cmp k.
Proof.
  intros Hp Hsep. apply (StronglySorted_unique_strong (cmp_le cmp)).
  - intros x y. rewrite !SortFunc_perm -Hp. apply Hsep.
  - by apply StronglySorted_merge_sort.
  - by apply StronglySorted_merge_sort.
  - by rewrite !SortFunc_perm.
Qed.
End sort_slice.

(** ** Loops whose step touches one key

    [local_step key g] looks up the entry at [key x]; [g x] leaves it alone
    ([None]), deletes it ([Some None]) or replaces it ([Some (Some v)]).  Many of
    the store's batch methods are such loops. *)
Definition local_step {A K V} `{Countable K} (key : A → K) (g : A → V → option (option V))
    (m : gmap K V) (x : A) : gmap K V :=
  match m !! key x with
  | Some v =>
      match g x v with
      | Some (Some v') => <[key x := v']> m
      | Some None => delete (key x) m
      | None => m
      end
  | None => m
  end.

Section local_loop.
Context {A K V} `{Countable K} (key : A → K) (g : A → V → option (option V)).
Implicit Types m : gmap K V.

Definition settled m (x : A) : Prop := ∀ v, m !! key x = Some v → g x v = None.

Lemma local_step_settled m x : settled m x → local_step key g m x = m.
Proof.
  rewrite /settled /local_step. destruct (m !! key x) as [v|]; [|done].
  intros Hs. by rewrite (Hs v eq_refl).
Qed.

Lemma foldl_settled m l : (∀ x, x ∈ l → settled m x) → foldl (local_step key g) m l = m.
Proof.
  induction l as [|x l IH]; simpl; [done|]. intros Hs.
  rewrite local_step_settled; [|apply Hs; left]. apply IH. intros. apply Hs. by right.
Qed.

Context (l : list A) (Hstable : ∀ x y v v', x ∈ l → y ∈ l → key x = key y →
  g x v = Some (Some v') → g y v' = None).

Lemma local_step_keeps m x y :
  x ∈ l → y ∈ l → settled m y ∨ x = y → settled (local_step key g m x) y.
Proof.
  rewrite /settled /local_step => Hx Hy Hs v. destruct (m !! key x) as [v0|] eqn:Hm; last first.
  { destruct Hs as [Hs|<-]; [apply Hs|congruence]. }
  destruct (g x v0) as [[v1|]|] eqn:Hg.
  - destruct (decide (key x = key y)) as [He|Hne].
    + rewrite -He lookup_insert_eq. intros [= <-]. exact (Hstable x y v0 v1 Hx Hy He Hg).
    + rewrite lookup_insert_ne //. destruct Hs as [Hs|<-]; [apply Hs|done].
  - rewrite lookup_delete_Some. intros [Hne Hv]. destruct Hs as [Hs|<-]; [by apply Hs|done].
  - destruct Hs as [Hs|<-]; [apply Hs|congruence].
Qed.

(** Running the loop again changes nothing. *)
Lemma foldl_local_idem m :
  foldl (local_step key g) (foldl (local_step key g) m l) l = foldl (local_step key g) m l.
Proof.
  assert (∀ k m, (∀ x, x ∈ k → x ∈ l) → ∀ y, y ∈ l → settled m y ∨ y ∈ k →
    settled (foldl (local_step key g) m k) y) as Hk.
  { induction k as [|x k IH]; intros m0 Hsub y Hy Hor; simpl.
    { by destruct Hor as [?|[]%not_elem_of_nil]. }
    assert (x ∈ l) by (apply Hsub; left).
    apply IH; [intros; apply Hsub; by right|done|].
    destruct Hor as [Hs|[->|?]%elem_of_cons]; [left|left|by right];
      apply local_step_keeps; auto. }
  apply foldl_settled. intros x Hx. apply Hk; auto.
Qed.
End local_loop.
