(* ===== verification/UtxoTypes.v ===== *)
(** * UtxoTypes: the vocabulary of pkg/utxostore

    The row, request and report types of [pkg/utxostore/types.go], the shared
    input validation of [pkg/utxostore/validate.go] and the error taxonomy of
    [pkg/utxostore/errors.go].  Every backend, the funder and the storage
    provider speak in these terms.

    Conventions: a [chainhash.Hash] is a 256-bit number; [time.Time] is a number
    of nanoseconds since Go's zero time, so that [time.Time{}] is 0 and [Before]
    is [<]; a [*chainhash.Hash] that may be nil is an [option]; an [error] slot
    that may be nil is an [option error]. *)
From S2P Require Import Prelude.
Local Open Scope Z_scope.

Abbreviation Hash := Z (only parsing).
Abbreviation Time := Z (only parsing).
(** [t.Sub(u)]: a Duration is an int64 and the subtraction saturates. *)
Definition Sub (t u : Time) : Z := Z.max (- 2 ^ 63) (Z.min (2 ^ 63 - 1) (t - u)).
Definition zeroTime : Time := 0.

(** [DefaultP2PKHInputSize]: estimated unlocking-script size of a P2PKH input. *)
Definition DefaultP2PKHInputSize : Z := 107.

(** ** Tiers *)

(** [Tier] is a Go [uint8]; only three of its values are defined. *)
Abbreviation Tier := Z (only parsing).
Definition TierSending : Tier := 1.
Definition TierUnproven : Tier := 2.
Definition TierMined : Tier := 3.

Definition Tier_Valid (t : Tier) : bool := (TierSending <=? t) && (t <=? TierMined).

(** ** Rows, requests and reports *)

Record Outpoint := mkOutpoint { TxID : Hash; Vout : Z }.

#[global] Instance Outpoint_eq_dec : EqDecision Outpoint.
Proof. solve_decision. Defined.
#[global] Instance Outpoint_countable : Countable Outpoint.
Proof.
  refine (inj_countable' (λ o, (TxID o, Vout o)) (λ p, mkOutpoint p.1 p.2) _).
  by intros [].
Defined.

Record Scope := mkScope { sc_UserID : Z; sc_Basket : string; sc_Tier : Tier }.

Record UTXO := mkUTXO {
  u_Outpoint : Outpoint;
  u_UserID : Z;
  u_Basket : string;
  u_Satoshis : Z;
  u_InputSize : Z;
  u_Tier : Tier;
  u_ReservedBy : string;
  u_ReservedAt : Time;
  u_SpentBy : option Hash;
  u_Frozen : bool;
  u_Pinned : bool;
  u_CreatedAt : Time;
}.

#[global] Instance UTXO_eq_dec : EqDecision UTXO.
Proof. solve_decision. Defined.

(** One item of a Mint batch; its [Err] slot is returned beside the batch. *)
Record Mint := mkMint {
  m_Outpoint : Outpoint;
  m_UserID : Z;
  m_Basket : string;
  m_Satoshis : Z;
  m_InputSize : Z;
  m_Tier : Tier;
}.

(** One item of a Spend batch; its [Err] slot is returned beside the batch. *)
Record SpendOp := mkSpendOp {
  sp_Outpoint : Outpoint;
  sp_Reservation : string;
  sp_SpendingTxID : Hash;
}.

(** [Balance]: claimable satoshis and coins per tier (absent tier = zero),
    reserved satoshis and coins across tiers. *)
Record Balance := mkBalance {
  b_Claimable : gmap Tier Z;
  b_Reserved : Z;
  b_ClaimableCount : gmap Tier Z;
  b_ReservedCount : Z;
}.

Record ReservationRef := mkRef {
  ref_Reservation : string;
  ref_UserID : Z;
  ref_ReservedAt : Time;
  ref_Outpoints : list Outpoint;
}.

Record RemoveByMintReport := mkReport {
  rep_Removed : list Outpoint;
  rep_AlreadyReserved : list ReservationRef;
  rep_AlreadySpentBy : list Hash;
}.

(** ** Field updates *)

Definition set_reservation (tok : string) (at_ : Time) (u : UTXO) : UTXO :=
  mkUTXO (u_Outpoint u) (u_UserID u) (u_Basket u) (u_Satoshis u) (u_InputSize u)
    (u_Tier u) tok at_ (u_SpentBy u) (u_Frozen u) (u_Pinned u) (u_CreatedAt u).
Definition set_spentBy (w : option Hash) (u : UTXO) : UTXO :=
  mkUTXO (u_Outpoint u) (u_UserID u) (u_Basket u) (u_Satoshis u) (u_InputSize u)
    (u_Tier u) (u_ReservedBy u) (u_ReservedAt u) w (u_Frozen u) (u_Pinned u) (u_CreatedAt u).
Definition set_frozen (b : bool) (u : UTXO) : UTXO :=
  mkUTXO (u_Outpoint u) (u_UserID u) (u_Basket u) (u_Satoshis u) (u_InputSize u)
    (u_Tier u) (u_ReservedBy u) (u_ReservedAt u) (u_SpentBy u) b (u_Pinned u) (u_CreatedAt u).
Definition set_pinned (b : bool) (u : UTXO) : UTXO :=
  mkUTXO (u_Outpoint u) (u_UserID u) (u_Basket u) (u_Satoshis u) (u_InputSize u)
    (u_Tier u) (u_ReservedBy u) (u_ReservedAt u) (u_SpentBy u) (u_Frozen u) b (u_CreatedAt u).
Definition set_tier (t : Tier) (u : UTXO) : UTXO :=
  mkUTXO (u_Outpoint u) (u_UserID u) (u_Basket u) (u_Satoshis u) (u_InputSize u)
    t (u_ReservedBy u) (u_ReservedAt u) (u_SpentBy u) (u_Frozen u) (u_Pinned u) (u_CreatedAt u).

(** ** Errors

    The typed refusals and sentinels of errors.go.  [ErrInvalid] stands for the
    plain errors of validate.go (a programmer error, no row state involved);
    [ErrBatchJoin] and [ErrBatchCount] are the two shapes that match the
    [ErrBatch] sentinel; [ErrBackend] stands for what a database or its driver
    answers. *)
Inductive invalid :=
| ReservationEmpty
| ScopeUserNotPositive
| ScopeBasketEmpty
| ScopeTierInvalid (t : Tier)
| OpsEmpty
| MintUserNotPositive (op : Outpoint)
| MintBasketEmpty (op : Outpoint)
| MintTierInvalid (op : Outpoint) (t : Tier)
| SpendReservationEmpty (op : Outpoint)
| NotAnOutputOf (op : Outpoint) (mintTxID : Hash)
| TargetTierInvalid (t : Tier).

Inductive backend_error :=
| LockConflict (code : Z)
| CheckViolated
| NoRows
| OutOfRange
| BackendFailed (code : Z).

Inductive error :=
| NotFoundError (op : Outpoint)
| AlreadyExistsError (op : Outpoint)
| ReservedError (op : Outpoint) (heldBy : string)
| SpentError (op : Outpoint) (winner : Hash)
| FrozenError (op : Outpoint)
| ErrBatchJoin (itemErrs : list error)
| ErrBatchCount (failed total : Z)
| ErrContention
| ErrClosed
| ErrBackend (why : backend_error)
| ErrInvalid (why : invalid).

(** [errors.Is(err, ErrBatch)] and [errors.Is(err, ErrContention)]. *)
Definition is_ErrBatch (e : error) : bool :=
  match e with ErrBatchJoin _ | ErrBatchCount _ _ => true | _ => false end.
Definition is_ErrContention (e : error) : bool :=
  match e with ErrContention => true | _ => false end.

Definition JoinBatch (itemErrs : list error) : option error :=
  match itemErrs with [] => None | _ => Some (ErrBatchJoin itemErrs) end.

Definition BatchCountErr (failed total : Z) : option error :=
  if failed =? 0 then None else Some (ErrBatchCount failed total).

(** ** Validation (None = nil error) *)

Definition ValidateReservation (reservation : string) : option error :=
  if decide (reservation = "") then Some (ErrInvalid ReservationEmpty) else None.

Definition ValidateScope (sc : Scope) : option error :=
  if sc_UserID sc <=? 0 then Some (ErrInvalid ScopeUserNotPositive)
  else if decide (sc_Basket sc = "") then Some (ErrInvalid ScopeBasketEmpty)
  else if negb (Tier_Valid (sc_Tier sc)) then Some (ErrInvalid (ScopeTierInvalid (sc_Tier sc)))
  else None.

Definition ValidateClaim (sc : Scope) (reservation : string) : option error :=
  match ValidateReservation reservation with
  | Some e => Some e
  | None => ValidateScope sc
  end.

Definition ValidateReserveOutpoints (reservation : string) (ops : list Outpoint) : option error :=
  match ValidateReservation reservation with
  | Some e => Some e
  | None => if decide (length ops = 0%nat) then Some (ErrInvalid OpsEmpty) else None
  end.

Definition ValidateMint (m : Mint) : option error :=
  if m_UserID m <=? 0 then Some (ErrInvalid (MintUserNotPositive (m_Outpoint m)))
  else if decide (m_Basket m = "") then Some (ErrInvalid (MintBasketEmpty (m_Outpoint m)))
  else if negb (Tier_Valid (m_Tier m)) then Some (ErrInvalid (MintTierInvalid (m_Outpoint m) (m_Tier m)))
  else None.

Definition ValidateSpend (sp : SpendOp) : option error :=
  if decide (sp_Reservation sp = "") then Some (ErrInvalid (SpendReservationEmpty (sp_Outpoint sp)))
  else None.

Fixpoint ValidateMintOutpoints (mintTxID : Hash) (ops : list Outpoint) : option error :=
  match ops with
  | [] => None
  | op :: ops' =>
      if TxID op =? mintTxID then ValidateMintOutpoints mintTxID ops'
      else Some (ErrInvalid (NotAnOutputOf op mintTxID))
  end.

(** ** Lemmas *)

Lemma ValidateReservation_None r : ValidateReservation r = None ↔ r ≠ "".
Proof. rewrite /ValidateReservation. case_decide; naive_solver. Qed.

Lemma ValidateScope_None sc :
  ValidateScope sc = None ↔
  0 < sc_UserID sc ∧ sc_Basket sc ≠ "" ∧ Tier_Valid (sc_Tier sc) = true.
Proof.
  rewrite /ValidateScope. destruct (Z.leb_spec (sc_UserID sc) 0).
  { split; [done|lia]. }
  case_decide; [naive_solver|]. destruct (Tier_Valid (sc_Tier sc)); naive_solver.
Qed.

Lemma ValidateClaim_None sc r :
  ValidateClaim sc r = None ↔ r ≠ "" ∧ ValidateScope sc = None.
Proof.
  rewrite /ValidateClaim -ValidateReservation_None.
  destruct (ValidateReservation r); naive_solver.
Qed.

Lemma ValidateMint_None m :
  ValidateMint m = None ↔
  0 < m_UserID m ∧ m_Basket m ≠ "" ∧ Tier_Valid (m_Tier m) = true.
Proof.
  rewrite /ValidateMint. destruct (Z.leb_spec (m_UserID m) 0).
  { split; [done|lia]. }
  case_decide; [naive_solver|]. destruct (Tier_Valid (m_Tier m)); naive_solver.
Qed.

Lemma JoinBatch_None es : JoinBatch es = None ↔ es = [].
Proof. destruct es; naive_solver. Qed.
