(* ===== verification/MemStore.v ===== *)
(** * MemStore: the in-memory reference store

    [pkg/utxostore/memstore/memstore.go], operation by operation.  The state is
    the row map, the insertion counter and the closed flag; every method runs
    under one mutex, so an operation is one function on the state.

    [clk i] is the i-th reading of the store's clock ([s.now()]) made by one
    call.  Batch methods whose items carry an [Err] slot return the slots beside
    the top-level error. *)
From S2P Require Import Prelude UtxoTypes.
Local Open Scope Z_scope.

Module MemStore.

Record row := mkRow { r_utxo : UTXO; r_seq : Z }.

Record Store := mkStore {
  rows : gmap Outpoint row;
  nextSeq : Z;
  closed : bool;
}.

Definition with_rows (m : gmap Outpoint row) (s : Store) : Store :=
  mkStore m (nextSeq s) (closed s).

Definition map_utxo (f : UTXO → UTXO) (r : row) : row := mkRow (f (r_utxo r)) (r_seq r).

(** [New]: an empty, open store. *)
Definition New : Store := mkStore ∅ 0 false.

Definition Health (s : Store) : Z * string * option error :=
  if closed s then (503, "closed", Some ErrClosed) else (200, "OK", None).

(** [if s.closed { return errClosed }] and [if err := validate; err != nil]. *)
Definition guard_open {A} (k : M Store error A) : M Store error A := λ s,
  if closed s then (Err ErrClosed, s) else k s.
Definition guard_valid {A} (v : option error) (k : M Store error A) : M Store error A :=
  match v with Some e => throw e | None => k end.

(** ** Inventory *)

(** [mintOne]: [n] is the number of clock readings made so far by the batch. *)
Definition mintOne (clk : nat → Time) (m : Mint) (n : nat) (s : Store) :
    option error * (nat * Store) :=
  match ValidateMint m with
  | Some e => (Some e, (n, s))
  | None =>
      match rows s !! m_Outpoint m with
      | Some existing =>
          let u := r_utxo existing in
          if bool_decide (u_UserID u = m_UserID m ∧ u_Basket u = m_Basket m ∧
                          u_Satoshis u = m_Satoshis m ∧ u_InputSize u = m_InputSize m)
          then (None, (n, s))
          else (Some (AlreadyExistsError (m_Outpoint m)), (n, s))
      | None =>
          let q := u64 (nextSeq s + 1) in
          let u := mkUTXO (m_Outpoint m) (m_UserID m) (m_Basket m) (m_Satoshis m)
                     (m_InputSize m) (m_Tier m) "" zeroTime None false false (clk n) in
          (None, (S n, mkStore (<[m_Outpoint m := mkRow u q]> (rows s)) q (closed s)))
      end
  end.

Fixpoint mint_loop (clk : nat → Time) (ms : list Mint) (n : nat) (s : Store) :
    list (option error) * Store :=
  match ms with
  | [] => ([], s)
  | m :: ms' =>
      let '(e, (n', s')) := mintOne clk m n s in
      let '(es, s'') := mint_loop clk ms' n' s' in
      (e :: es, s'')
  end.

(** How many [Err] slots of a batch are set. *)
Definition count_failed (es : list (option error)) : Z :=
  Z.of_nat (length (filter is_Some es)).

Definition Mint (clk : nat → Time) (ms : list UtxoTypes.Mint) (s : Store) :
    (list (option error) * option error) * Store :=
  if closed s then (((λ _, None) <$> ms, Some ErrClosed), s)
  else
    let '(es, s') := mint_loop clk ms 0 s in
    ((es, BatchCountErr (count_failed es) (Z.of_nat (length ms))), s').

Definition Get (op : Outpoint) : M Store error UTXO :=
  guard_open (λ s,
    match rows s !! op with
    | None => (Err (NotFoundError op), s)
    | Some r => (Ret (r_utxo r), s)
    end).

(** The refusal of an un-forced Remove, in the switch's order. *)
Definition remove_refusal (op : Outpoint) (u : UTXO) : option error :=
  match u_SpentBy u with
  | Some w => Some (SpentError op w)
  | None =>
      if decide (u_ReservedBy u ≠ "") then Some (ReservedError op (u_ReservedBy u))
      else if u_Frozen u then Some (FrozenError op)
      else None
  end.

Fixpoint remove_loop (force : bool) (ops : list Outpoint) (m : gmap Outpoint row) :
    list error * gmap Outpoint row :=
  match ops with
  | [] => ([], m)
  | op :: ops' =>
      match m !! op with
      | None => remove_loop force ops' m
      | Some r =>
          match (if force then None else remove_refusal op (r_utxo r)) with
          | Some e => let '(es, m') := remove_loop force ops' m in (e :: es, m')
          | None => remove_loop force ops' (delete op m)
          end
      end
  end.

(** Turning the joined item errors into the call's result. *)
Definition batch_result (es : list error) : outcome error () :=
  match JoinBatch es with None => Ret () | Some e => Err e end.

Definition Remove (ops : list Outpoint) (force : bool) : M Store error () :=
  guard_open (λ s,
    let '(es, m) := remove_loop force ops (rows s) in
    (batch_result es, with_rows m s)).

(** ** Claims *)

Definition claimable (sc : Scope) (r : row) : bool :=
  let u := r_utxo r in
  bool_decide (u_UserID u = sc_UserID sc ∧ u_Basket u = sc_Basket sc ∧
    u_Tier u = sc_Tier sc ∧ u_ReservedBy u = "" ∧ u_SpentBy u = None ∧ u_Frozen u = false).

(** [reserve] on the row stored at [op]; the result is the returned copy. *)
Definition reserve (op : Outpoint) (r : row) (reservation : string) (now : Time)
    (m : gmap Outpoint row) : UTXO * gmap Outpoint row :=
  let u := set_reservation reservation now (r_utxo r) in
  (u, <[op := mkRow u (r_seq r)]> m).

Fixpoint reserve_all (clk : nat → Time) (n : nat) (reservation : string)
    (cands : list (Outpoint * row)) (m : gmap Outpoint row) :
    list UTXO * gmap Outpoint row :=
  match cands with
  | [] => ([], m)
  | (op, r) :: cands' =>
      let '(u, m1) := reserve op r reservation (clk n) m in
      let '(us, m2) := reserve_all clk (S n) reservation cands' m1 in
      (u :: us, m2)
  end.

Definition sats (kr : Outpoint * row) : Z := u_Satoshis (r_utxo kr.2).
Definition kseq (kr : Outpoint * row) : Z := r_seq kr.2.

(** One step of ClaimSmallestSufficient's scan. *)
Definition pick_smallest (sc : Scope) (minSats : Z) (best : option (Outpoint * row))
    (kr : Outpoint * row) : option (Outpoint * row) :=
  if negb (claimable sc kr.2) || (sats kr <? minSats) then best
  else match best with
       | None => Some kr
       | Some b =>
           if (sats kr <? sats b) || ((sats kr =? sats b) && (kseq kr <? kseq b))
           then Some kr else best
       end.

Definition cmp_largest (a b : Outpoint * row) : comparison :=
  match Z.compare (sats b) (sats a) with
  | Eq => Z.compare (kseq b) (kseq a)
  | c => c
  end.
Definition cmp_seq (a b : Outpoint * row) : comparison := Z.compare (kseq a) (kseq b).

Section claims.
Context `{MapRange}.

Definition ClaimSmallestSufficient (clk : nat → Time) (sc : Scope) (reservation : string)
    (minSats : Z) : M Store error (option UTXO) :=
  guard_open $ guard_valid (ValidateClaim sc reservation) (λ s,
    match foldl (pick_smallest sc minSats) None (range_map (rows s)) with
    | None => (Ret None, s)
    | Some (op, r) =>
        let '(u, m) := reserve op r reservation (clk 0%nat) (rows s) in
        (Ret (Some u), with_rows m s)
    end).

Definition ClaimLargestInsufficient (clk : nat → Time) (sc : Scope) (reservation : string)
    (capSats limit : Z) : M Store error (list UTXO) :=
  guard_open $ guard_valid (ValidateClaim sc reservation) (λ s,
    if limit <=? 0 then (Ret [], s)
    else
      let candidates :=
        filter (λ kr, claimable sc kr.2 = true ∧ sats kr < capSats) (range_map (rows s)) in
      let '(us, m) :=
        reserve_all clk 0 reservation (slice_to limit (SortFunc cmp_largest candidates)) (rows s) in
      (Ret us, with_rows m s)).

Definition ClaimExact (clk : nat → Time) (sc : Scope) (reservation : string)
    (denomination count : Z) : M Store error (list UTXO) :=
  guard_open $ guard_valid (ValidateClaim sc reservation) (λ s,
    if count <=? 0 then (Ret [], s)
    else
      let candidates :=
        filter (λ kr, claimable sc kr.2 = true ∧ sats kr = denomination) (range_map (rows s)) in
      let '(us, m) :=
        reserve_all clk 0 reservation (slice_to count (SortFunc cmp_seq candidates)) (rows s) in
      (Ret us, with_rows m s)).
End claims.

(** ** Naming outpoints *)

Fixpoint distinct_from (seen : gset Outpoint) (ops : list Outpoint) : list Outpoint :=
  match ops with
  | [] => []
  | op :: ops' =>
      if decide (op ∈ seen) then distinct_from seen ops'
      else op :: distinct_from ({[op]} ∪ seen) ops'
  end.
Definition distinctOutpoints (ops : list Outpoint) : list Outpoint := distinct_from ∅ ops.

(** The verdict of ReserveOutpoints on one outpoint. *)
Inductive verdict := Refuse (e : error) | Satisfied | Stamp.

Definition reserve_verdict (userID : Z) (reservation : string) (op : Outpoint)
    (m : gmap Outpoint row) : verdict :=
  match m !! op with
  | None => Refuse (NotFoundError op)
  | Some r =>
      let u := r_utxo r in
      if decide (u_UserID u ≠ userID) then Refuse (NotFoundError op)
      else match u_SpentBy u with
           | Some w => Refuse (SpentError op w)
           | None =>
               if decide (u_ReservedBy u ≠ "" ∧ u_ReservedBy u ≠ reservation)
               then Refuse (ReservedError op (u_ReservedBy u))
               else if u_Frozen u then Refuse (FrozenError op)
               else if decide (u_ReservedBy u = reservation) then Satisfied
               else Stamp
           end
  end.

Fixpoint classify (userID : Z) (reservation : string) (m : gmap Outpoint row)
    (ops : list Outpoint) : list error * list Outpoint :=
  match ops with
  | [] => ([], [])
  | op :: ops' =>
      let '(es, st) := classify userID reservation m ops' in
      match reserve_verdict userID reservation op m with
      | Refuse e => (e :: es, st)
      | Satisfied => (es, st)
      | Stamp => (es, op :: st)
      end
  end.

Definition stamp (reservation : string) (now : Time) (m : gmap Outpoint row) (op : Outpoint) :
    gmap Outpoint row :=
  alter (map_utxo (set_reservation reservation now)) op m.

Definition ReserveOutpoints (clk : nat → Time) (userID : Z) (reservation : string)
    (ops : list Outpoint) : M Store error () :=
  guard_open $ guard_valid (ValidateReserveOutpoints reservation ops) (λ s,
    let '(es, toStamp) := classify userID reservation (rows s) (distinctOutpoints ops) in
    match es with
    | _ :: _ => (batch_result es, s)
    | [] => (Ret (), with_rows (foldl (stamp reservation (clk 0%nat)) (rows s) toStamp) s)
    end).

(** ** Release and pin *)

Definition heldBy (userID : Z) (reservation : string) (r : row) : bool :=
  let u := r_utxo r in
  bool_decide (u_UserID u = userID ∧ u_ReservedBy u = reservation ∧ u_SpentBy u = None).

Definition unreserve (u : UTXO) : UTXO := set_reservation "" zeroTime u.

Definition ReleaseReservation (userID : Z) (reservation : string) : M Store error Z :=
  guard_open $ guard_valid (ValidateReservation reservation) (λ s,
    let '(m, released) :=
      update_where (λ r, heldBy userID reservation r && negb (u_Pinned (r_utxo r)))
        (map_utxo unreserve) (rows s) in
    (Ret released, with_rows m s)).

Definition setPinned (userID : Z) (reservation : string) (pinned : bool) : M Store error Z :=
  guard_open $ guard_valid (ValidateReservation reservation) (λ s,
    let '(m, changed) :=
      update_where (λ r, heldBy userID reservation r && negb (eqb (u_Pinned (r_utxo r)) pinned))
        (map_utxo (set_pinned pinned)) (rows s) in
    (Ret changed, with_rows m s)).

Definition Pin (userID : Z) (reservation : string) : M Store error Z :=
  setPinned userID reservation true.
Definition Unpin (userID : Z) (reservation : string) : M Store error Z :=
  setPinned userID reservation false.

Definition release_one (reservation : string) (m : gmap Outpoint row) (op : Outpoint) :
    gmap Outpoint row :=
  match m !! op with
  | None => m
  | Some r =>
      if decide (u_ReservedBy (r_utxo r) ≠ reservation ∨ u_SpentBy (r_utxo r) ≠ None) then m
      else <[op := map_utxo (set_pinned false ∘ unreserve) r]> m
  end.

Definition ReleaseOutpoints (reservation : string) (ops : list Outpoint) : M Store error () :=
  guard_open $ guard_valid (ValidateReservation reservation) (λ s,
    (Ret (), with_rows (foldl (release_one reservation) (rows s) ops) s)).

(** ** Spend lifecycle *)

Definition spendOne (force : bool) (sp : SpendOp) (m : gmap Outpoint row) :
    option error * gmap Outpoint row :=
  match ValidateSpend sp with
  | Some e => (Some e, m)
  | None =>
      match m !! sp_Outpoint sp with
      | None => (Some (NotFoundError (sp_Outpoint sp)), m)
      | Some r =>
          let u := r_utxo r in
          match u_SpentBy u with
          | Some w =>
              if w =? sp_SpendingTxID sp then (None, m)
              else (Some (SpentError (sp_Outpoint sp) w), m)
          | None =>
              if negb force && u_Frozen u then (Some (FrozenError (sp_Outpoint sp)), m)
              else if negb force && bool_decide (u_ReservedBy u ≠ sp_Reservation sp)
              then (Some (ReservedError (sp_Outpoint sp) (u_ReservedBy u)), m)
              else (None, <[sp_Outpoint sp :=
                     map_utxo (set_pinned false ∘ set_spentBy (Some (sp_SpendingTxID sp))) r]> m)
          end
      end
  end.

Fixpoint spend_loop (force : bool) (sps : list SpendOp) (m : gmap Outpoint row) :
    list (option error) * gmap Outpoint row :=
  match sps with
  | [] => ([], m)
  | sp :: sps' =>
      let '(e, m') := spendOne force sp m in
      let '(es, m'') := spend_loop force sps' m' in
      (e :: es, m'')
  end.

Definition Spend (spends : list SpendOp) (force : bool) (s : Store) :
    (list (option error) * option error) * Store :=
  if closed s then (((λ _, None) <$> spends, Some ErrClosed), s)
  else
    let '(es, m) := spend_loop force spends (rows s) in
    ((es, BatchCountErr (count_failed es) (Z.of_nat (length spends))), with_rows m s).

Definition unspend_one (spendingTxID : Hash) (nm : Z * gmap Outpoint row) (op : Outpoint) :
    Z * gmap Outpoint row :=
  let '(released, m) := nm in
  match m !! op with
  | None => (released, m)
  | Some r =>
      if decide (u_SpentBy (r_utxo r) = Some spendingTxID)
      then (released + 1,
            <[op := map_utxo (set_pinned false ∘ unreserve ∘ set_spentBy None) r]> m)
      else (released, m)
  end.

Definition Unspend (spendingTxID : Hash) (ops : list Outpoint) : M Store error Z :=
  guard_open (λ s,
    let '(released, m) := foldl (unspend_one spendingTxID) (0, rows s) ops in
    (Ret released, with_rows m s)).

Definition spentBy (spendingTxID : Hash) (r : row) : bool :=
  bool_decide (u_SpentBy (r_utxo r) = Some spendingTxID).

Definition RemoveSpentBy (spendingTxID : Hash) : M Store error Z :=
  guard_open (λ s,
    let '(m, removed) := delete_where (spentBy spendingTxID) (rows s) in
    (Ret removed, with_rows m s)).

Definition promote_one (to : Tier) (nm : Z * gmap Outpoint row) (op : Outpoint) :
    Z * gmap Outpoint row :=
  let '(changed, m) := nm in
  match m !! op with
  | None => (changed, m)
  | Some r =>
      if u_Tier (r_utxo r) =? to then (changed, m)
      else (changed + 1, <[op := map_utxo (set_tier to) r]> m)
  end.

Definition Promote (ops : list Outpoint) (to : Tier) : M Store error Z :=
  guard_open (λ s,
    if negb (Tier_Valid to) then (Err (ErrInvalid (TargetTierInvalid to)), s)
    else
      let '(changed, m) := foldl (promote_one to) (0, rows s) ops in
      (Ret changed, with_rows m s)).

(** ** RemoveByMintTx *)

(** The locals of the classification loop. *)
Record mint_scan := mkScan {
  scan_rows : gmap Outpoint row;
  scan_refs : gmap string ReservationRef;
  scan_refOrder : list string;
  scan_seenSpenders : gset Hash;
  scan_spenders : list Hash;
  scan_removed : list Outpoint;
}.

Definition extend_ref (op : Outpoint) (u : UTXO) (ref : ReservationRef) : ReservationRef :=
  mkRef (ref_Reservation ref) (ref_UserID ref)
    (if u_ReservedAt u <? ref_ReservedAt ref then u_ReservedAt u else ref_ReservedAt ref)
    (ref_Outpoints ref ++ [op]).

Definition scan_mint (st : mint_scan) (op : Outpoint) : mint_scan :=
  match scan_rows st !! op with
  | None => st
  | Some r =>
      let u := r_utxo r in
      match u_SpentBy u with
      | Some w =>
          if decide (w ∈ scan_seenSpenders st) then st
          else mkScan (scan_rows st) (scan_refs st) (scan_refOrder st)
                 ({[w]} ∪ scan_seenSpenders st) (scan_spenders st ++ [w]) (scan_removed st)
      | None =>
          if decide (u_ReservedBy u ≠ "") then
            match scan_refs st !! u_ReservedBy u with
            | Some ref =>
                mkScan (scan_rows st) (<[u_ReservedBy u := extend_ref op u ref]> (scan_refs st))
                  (scan_refOrder st) (scan_seenSpenders st) (scan_spenders st) (scan_removed st)
            | None =>
                let ref := mkRef (u_ReservedBy u) (u_UserID u) (u_ReservedAt u) [] in
                mkScan (scan_rows st) (<[u_ReservedBy u := extend_ref op u ref]> (scan_refs st))
                  (scan_refOrder st ++ [u_ReservedBy u]) (scan_seenSpenders st)
                  (scan_spenders st) (scan_removed st)
            end
          else
            mkScan (delete op (scan_rows st)) (scan_refs st) (scan_refOrder st)
              (scan_seenSpenders st) (scan_spenders st) (scan_removed st ++ [op])
      end
  end.

Definition RemoveByMintTx (mintTxID : Hash) (ops : list Outpoint) :
    M Store error RemoveByMintReport :=
  guard_open $ guard_valid (ValidateMintOutpoints mintTxID ops) (λ s,
    let st := foldl scan_mint (mkScan (rows s) ∅ [] ∅ [] []) ops in
    (Ret (mkReport (scan_removed st)
            (omap (λ token, scan_refs st !! token) (scan_refOrder st))
            (scan_spenders st)),
     with_rows (scan_rows st) s)).

(** ** Holds and queries *)

Fixpoint frozen_loop (frozen : bool) (ops : list Outpoint) (m : gmap Outpoint row) :
    list error * gmap Outpoint row :=
  match ops with
  | [] => ([], m)
  | op :: ops' =>
      match m !! op with
      | None => let '(es, m') := frozen_loop frozen ops' m in (NotFoundError op :: es, m')
      | Some r => frozen_loop frozen ops' (<[op := map_utxo (set_frozen frozen) r]> m)
      end
  end.

Definition setFrozen (ops : list Outpoint) (frozen : bool) : M Store error () :=
  guard_open (λ s,
    let '(es, m) := frozen_loop frozen ops (rows s) in
    (batch_result es, with_rows m s)).
Definition Freeze (ops : list Outpoint) : M Store error () := setFrozen ops true.
Definition Unfreeze (ops : list Outpoint) : M Store error () := setFrozen ops false.

(** [m[t] += x] on a map of unsigned sums, absent meaning zero. *)
Definition bump (t : Tier) (x : Z) (m : gmap Tier Z) : gmap Tier Z :=
  <[t := u64 (default 0 (m !! t) + x)]> m.
Definition bump_count (t : Tier) (m : gmap Tier Z) : gmap Tier Z :=
  <[t := default 0 (m !! t) + 1]> m.

Definition balance_step (userID : Z) (basket : string) (b : UtxoTypes.Balance)
    (kr : Outpoint * row) : UtxoTypes.Balance :=
  let u := r_utxo kr.2 in
  if decide (u_UserID u ≠ userID ∨ u_Basket u ≠ basket ∨ u_SpentBy u ≠ None) then b
  else if decide (u_ReservedBy u ≠ "") then
    mkBalance (b_Claimable b) (u64 (b_Reserved b + u_Satoshis u))
      (b_ClaimableCount b) (b_ReservedCount b + 1)
  else if negb (u_Frozen u) then
    mkBalance (bump (u_Tier u) (u_Satoshis u) (b_Claimable b)) (b_Reserved b)
      (bump_count (u_Tier u) (b_ClaimableCount b)) (b_ReservedCount b)
  else b.

(** One reservation being gathered by findStale, with its oldest row's seq. *)
Record group := mkGroup { g_ref : ReservationRef; g_minSeq : Z }.

Definition stale_step (includePinned : bool) (groups : gmap (Z * string) group)
    (kr : Outpoint * row) : gmap (Z * string) group :=
  let u := r_utxo kr.2 in
  if decide (u_ReservedBy u = "" ∨ u_SpentBy u ≠ None) then groups
  else if u_Pinned u && negb includePinned then groups
  else
    let k := (u_UserID u, u_ReservedBy u) in
    let g := default (mkGroup (mkRef (u_ReservedBy u) (u_UserID u) (u_ReservedAt u) [])
                        (kseq kr)) (groups !! k) in
    <[k := mkGroup (extend_ref (u_Outpoint u) u (g_ref g))
             (if kseq kr <? g_minSeq g then kseq kr else g_minSeq g)]> groups.

Definition cmp_group (a b : group) : comparison :=
  match Z.compare (ref_ReservedAt (g_ref a)) (ref_ReservedAt (g_ref b)) with
  | Eq => Z.compare (g_minSeq a) (g_minSeq b)
  | c => c
  end.

Section queries.
Context `{MapRange}.

Definition Balance (userID : Z) (basket : string) : M Store error UtxoTypes.Balance :=
  guard_open (λ s,
    (Ret (foldl (balance_step userID basket) (mkBalance ∅ 0 ∅ 0) (range_map (rows s))), s)).

Definition findStale (olderThan : Time) (limit : Z) (includePinned : bool) :
    M Store error (list ReservationRef) :=
  guard_open (λ s,
    if limit <=? 0 then (Ret [], s)
    else
      let groups := foldl (stale_step includePinned) ∅ (range_map (rows s)) in
      let stale := filter (λ g, ref_ReservedAt (g_ref g) < olderThan) (range_map groups).*2 in
      (Ret (g_ref <$> slice_to limit (SortFunc cmp_group stale)), s)).

Definition FindStaleReservations (olderThan : Time) (limit : Z) :
    M Store error (list ReservationRef) := findStale olderThan limit false.
Definition FindStaleReservationsIncludingPinned (olderThan : Time) (limit : Z) :
    M Store error (list ReservationRef) := findStale olderThan limit true.
End queries.

Definition Close : M Store error () := λ s, (Ret (), mkStore (rows s) (nextSeq s) true).

End MemStore.
