(* ===== verification/StoreContract.v ===== *)
(** * StoreContract: what the store promises, and that the memstore keeps it

    [call] is one mutating call of the [utxostore.Store] interface with its
    arguments, [exec] runs it on the memstore.  [lifecycle c op] is the abstract
    specification of the interface's documentation ([pkg/utxostore/store.go]):
    which change of the coin at [op] a call [c] may make.  The main theorems are
    that every call of the memstore refines it, that the row invariant holds in
    every reachable state, and that a claimed coin stays exclusive until a call
    entitled to free it runs. *)
From S2P Require Import Prelude UtxoTypes MemStore.
Import MemStore.
Local Open Scope Z_scope.

Module StoreContract.

Create HintDb store.

(** ** Calls *)

Inductive call :=
| CMint (clk : nat → Time) (ms : list UtxoTypes.Mint)
| CRemove (ops : list Outpoint) (force : bool)
| CClaimSmallestSufficient (clk : nat → Time) (sc : Scope) (tok : string) (minSats : Z)
| CClaimLargestInsufficient (clk : nat → Time) (sc : Scope) (tok : string) (capSats limit : Z)
| CClaimExact (clk : nat → Time) (sc : Scope) (tok : string) (denomination count : Z)
| CReserveOutpoints (clk : nat → Time) (userID : Z) (tok : string) (ops : list Outpoint)
| CReleaseReservation (userID : Z) (tok : string)
| CReleaseOutpoints (tok : string) (ops : list Outpoint)
| CPin (userID : Z) (tok : string)
| CUnpin (userID : Z) (tok : string)
| CSpend (sps : list SpendOp) (force : bool)
| CUnspend (w : Hash) (ops : list Outpoint)
| CRemoveSpentBy (w : Hash)
| CPromote (ops : list Outpoint) (to : Tier)
| CRemoveByMintTx (w : Hash) (ops : list Outpoint)
| CFreeze (ops : list Outpoint)
| CUnfreeze (ops : list Outpoint)
| CClose.

Section exec.
Context `{MapRange}.

Definition exec (c : call) (s : Store) : Store :=
  match c with
  | CMint clk ms => (Mint clk ms s).2
  | CRemove ops force => (Remove ops force s).2
  | CClaimSmallestSufficient clk sc tok x => (ClaimSmallestSufficient clk sc tok x s).2
  | CClaimLargestInsufficient clk sc tok x n => (ClaimLargestInsufficient clk sc tok x n s).2
  | CClaimExact clk sc tok x n => (ClaimExact clk sc tok x n s).2
  | CReserveOutpoints clk uid tok ops => (ReserveOutpoints clk uid tok ops s).2
  | CReleaseReservation uid tok => (ReleaseReservation uid tok s).2
  | CReleaseOutpoints tok ops => (ReleaseOutpoints tok ops s).2
  | CPin uid tok => (Pin uid tok s).2
  | CUnpin uid tok => (Unpin uid tok s).2
  | CSpend sps force => (Spend sps force s).2
  | CUnspend w ops => (Unspend w ops s).2
  | CRemoveSpentBy w => (RemoveSpentBy w s).2
  | CPromote ops to => (Promote ops to s).2
  | CRemoveByMintTx w ops => (RemoveByMintTx w ops s).2
  | CFreeze ops => (Freeze ops s).2
  | CUnfreeze ops => (Unfreeze ops s).2
  | CClose => (Close s).2
  end.
End exec.

(** ** The abstract lifecycle of one coin *)

(** A coin no reservation and no spend holds. *)
Definition free (u : UTXO) : Prop := u_ReservedBy u = "" ∧ u_SpentBy u = None.

(** A live member of the reservation [(uid, tok)]. *)
Definition held (uid : Z) (tok : string) (u : UTXO) : Prop :=
  u_UserID u = uid ∧ u_ReservedBy u = tok ∧ u_SpentBy u = None.

Definition in_scope (sc : Scope) (u : UTXO) : Prop :=
  u_UserID u = sc_UserID sc ∧ u_Basket u = sc_Basket sc ∧ u_Tier u = sc_Tier sc.

(** The scope, token and value predicate of the three claim shapes. *)
Definition claim_of (c : call) : option (Scope * string * (Z → Prop)) :=
  match c with
  | CClaimSmallestSufficient _ sc tok x => Some (sc, tok, λ v, x ≤ v)
  | CClaimLargestInsufficient _ sc tok x _ => Some (sc, tok, λ v, v < x)
  | CClaimExact _ sc tok x _ => Some (sc, tok, λ v, v = x)
  | _ => None
  end.

Definition minted (m : UtxoTypes.Mint) (now : Time) : UTXO :=
  mkUTXO (m_Outpoint m) (m_UserID m) (m_Basket m) (m_Satoshis m) (m_InputSize m)
    (m_Tier m) "" zeroTime None false false now.

Inductive lifecycle : call → Outpoint → option UTXO → option UTXO → Prop :=
| lc_mint clk ms m now :
    m ∈ ms → ValidateMint m = None →
    lifecycle (CMint clk ms) (m_Outpoint m) None (Some (minted m now))
| lc_claim c sc tok P op u now :
    claim_of c = Some (sc, tok, P) → tok ≠ "" → in_scope sc u → P (u_Satoshis u) →
    free u → u_Frozen u = false →
    lifecycle c op (Some u) (Some (set_reservation tok now u))
| lc_reserve clk uid tok ops op u now :
    op ∈ ops → tok ≠ "" → u_UserID u = uid → free u → u_Frozen u = false →
    lifecycle (CReserveOutpoints clk uid tok ops) op (Some u) (Some (set_reservation tok now u))
| lc_release uid tok op u :
    tok ≠ "" → held uid tok u → u_Pinned u = false →
    lifecycle (CReleaseReservation uid tok) op (Some u) (Some (unreserve u))
| lc_release_op tok ops op u :
    op ∈ ops → tok ≠ "" → u_ReservedBy u = tok → u_SpentBy u = None →
    lifecycle (CReleaseOutpoints tok ops) op (Some u) (Some (set_pinned false (unreserve u)))
| lc_pin uid tok op u :
    tok ≠ "" → held uid tok u →
    lifecycle (CPin uid tok) op (Some u) (Some (set_pinned true u))
| lc_unpin uid tok op u :
    tok ≠ "" → held uid tok u →
    lifecycle (CUnpin uid tok) op (Some u) (Some (set_pinned false u))
| lc_spend sps sp (force : bool) u :
    sp ∈ sps → u_SpentBy u = None →
    (force = true ∨ u_Frozen u = false ∧ u_ReservedBy u = sp_Reservation sp ∧ sp_Reservation sp ≠ "") →
    lifecycle (CSpend sps force) (sp_Outpoint sp) (Some u)
      (Some (set_pinned false (set_spentBy (Some (sp_SpendingTxID sp)) u)))
| lc_unspend w ops op u :
    op ∈ ops → u_SpentBy u = Some w →
    lifecycle (CUnspend w ops) op (Some u)
      (Some (set_pinned false (unreserve (set_spentBy None u))))
| lc_remove_spent w op u :
    u_SpentBy u = Some w → lifecycle (CRemoveSpentBy w) op (Some u) None
| lc_promote ops to op u :
    op ∈ ops → Tier_Valid to = true →
    lifecycle (CPromote ops to) op (Some u) (Some (set_tier to u))
| lc_remove_mint w ops op u :
    op ∈ ops → TxID op = w → free u → lifecycle (CRemoveByMintTx w ops) op (Some u) None
| lc_remove ops (force : bool) op u :
    op ∈ ops → (force = true ∨ free u ∧ u_Frozen u = false) →
    lifecycle (CRemove ops force) op (Some u) None
| lc_freeze ops op u :
    op ∈ ops → lifecycle (CFreeze ops) op (Some u) (Some (set_frozen true u))
| lc_unfreeze ops op u :
    op ∈ ops → lifecycle (CUnfreeze ops) op (Some u) (Some (set_frozen false u)).

(** The coin at [op], and the lifecycle closed under repetition (a batch may
    name one outpoint several times). *)
Definition coin (s : Store) (op : Outpoint) : option UTXO := r_utxo <$> rows s !! op.
Abbreviation evolves c op := (rtc (lifecycle c op)).

(** ** The row invariant *)

Definition coin_ok (op : Outpoint) (u : UTXO) : Prop :=
  u_Outpoint u = op ∧ 0 < u_UserID u ∧ u_Basket u ≠ "" ∧ Tier_Valid (u_Tier u) = true ∧
  (u_Pinned u = true → u_ReservedBy u ≠ "" ∧ u_SpentBy u = None) ∧
  (u_ReservedBy u = "" → u_ReservedAt u = zeroTime).

Definition coins_ok (s : Store) : Prop := ∀ op u, coin s op = Some u → coin_ok op u.

(** Insertion numbers are positive, bounded by the counter, and name one row. *)
Definition seqs_ok (s : Store) : Prop :=
  0 ≤ nextSeq s < 2 ^ 64 ∧
  (∀ op r, rows s !! op = Some r → 0 < r_seq r ≤ nextSeq s) ∧
  (∀ op1 op2 r1 r2, rows s !! op1 = Some r1 → rows s !! op2 = Some r2 →
     r_seq r1 = r_seq r2 → op1 = op2).

Definition wf (s : Store) : Prop := coins_ok s ∧ seqs_ok s.

(** Executions.  A mint batch must not exhaust the 64-bit insertion counter. *)
Definition fits (c : call) (s : Store) : Prop :=
  match c with CMint _ ms => nextSeq s + Z.of_nat (length ms) < 2 ^ 64 | _ => True end.

Inductive reachable `{MapRange} : Store → Prop :=
| reach_new : reachable New
| reach_step s c : reachable s → fits c s → reachable (exec c s).

(** ** Refinement: every call of the memstore is a lifecycle step per coin *)

Implicit Types (op k : Outpoint).

Lemma snd_guard_open {A} (k : M Store error A) s :
  (guard_open k s).2 = if closed s then s else (k s).2.
Proof. rewrite /guard_open. by destruct (closed s). Qed.

Lemma snd_guard_valid {A} v (k : M Store error A) s :
  (guard_valid v k s).2 = match v with Some _ => s | None => (k s).2 end.
Proof. by destruct v. Qed.

Lemma coin_with_rows m s op : coin (with_rows m s) op = r_utxo <$> m !! op.
Proof. done. Qed.

(** No call but Mint creates a row or renumbers one. *)
Definition seq_kept (o o' : option row) : Prop :=
  match o', o with
  | Some r', Some r => r_seq r' = r_seq r
  | Some _, None => False
  | None, _ => True
  end.
Definition mints (c : call) : bool := match c with CMint _ _ => true | _ => false end.

(** [coin_rel c]: what a loop over a row map owes for the call [c]. *)
Definition coin_rel (c : call) (op : Outpoint) (o o' : option row) : Prop :=
  evolves c op (r_utxo <$> o) (r_utxo <$> o') ∧ (mints c = false → seq_kept o o').

#[global] Instance coin_rel_preorder c op : PreOrder (coin_rel c op).
Proof.
  split.
  - intros o. split; [apply rtc_refl|]. by destruct o.
  - intros o1 o2 o3 [H1 S1] [H2 S2]. split; [by eapply rtc_trans|]. intros Hc.
    specialize (S1 Hc). specialize (S2 Hc). destruct o1, o2, o3; simpl in *; try done. congruence.
Qed.

Lemma coin_rel_once c op r u' :
  lifecycle c op (Some (r_utxo r)) (Some u') → coin_rel c op (Some r) (Some (mkRow u' (r_seq r))).
Proof. intros Hl. split; [by apply rtc_once|done]. Qed.

Lemma coin_rel_gone c op r : lifecycle c op (Some (r_utxo r)) None → coin_rel c op (Some r) None.
Proof. intros Hl. split; [by apply rtc_once|done]. Qed.

Lemma coin_rel_insert c op r f (m : gmap Outpoint row) k :
  m !! op = Some r → lifecycle c op (Some (r_utxo r)) (Some (f (r_utxo r))) →
  coin_rel c k (m !! k) (<[op := map_utxo f r]> m !! k).
Proof.
  intros Hr Hl. destruct (decide (k = op)) as [->|Hne].
  - rewrite lookup_insert_eq Hr. by apply coin_rel_once.
  - by rewrite lookup_insert_ne.
Qed.

Lemma coin_rel_delete c op r (m : gmap Outpoint row) k :
  m !! op = Some r → lifecycle c op (Some (r_utxo r)) None →
  coin_rel c k (m !! k) (delete op m !! k).
Proof.
  intros Hr Hl. destruct (decide (k = op)) as [->|Hne].
  - rewrite lookup_delete_eq Hr. by apply coin_rel_gone.
  - by rewrite lookup_delete_ne.
Qed.

Lemma coin_rel_update_where c (P : row → bool) f (m : gmap Outpoint row) k :
  (∀ r, m !! k = Some r → P r = true → lifecycle c k (Some (r_utxo r)) (Some (f (r_utxo r)))) →
  coin_rel c k (m !! k) ((update_where P (map_utxo f) m).1 !! k).
Proof.
  intros HP. rewrite lookup_update_where. destruct (m !! k) as [r|] eqn:Hr; simpl; [|done].
  destruct (P r) eqn:E; [|done]. by apply coin_rel_once, HP.
Qed.

Lemma mint_loop_coin_rel clk clk' all ms n s k :
  (∀ m, m ∈ ms → m ∈ all) →
  coin_rel (CMint clk' all) k (rows s !! k) (rows (mint_loop clk ms n s).2 !! k).
Proof.
  revert n s. induction ms as [|m ms IH]; intros n s Hall; simpl; [done|].
  destruct (mintOne clk m n s) as [e [n' s']] eqn:Hone.
  destruct (mint_loop clk ms n' s') as [es s''] eqn:Hloop; simpl.
  trans (rows s' !! k).
  - rewrite /mintOne in Hone. destruct (ValidateMint m) eqn:Hv; simplify_eq; [done|].
    destruct (rows s !! m_Outpoint m) eqn:Hr; [by case_bool_decide; simplify_eq|].
    simplify_eq/=. destruct (decide (k = m_Outpoint m)) as [->|Hne].
    + rewrite lookup_insert_eq Hr. split; [|done].
      apply rtc_once, lc_mint; [apply Hall; left|done].
    + by rewrite lookup_insert_ne.
  - specialize (IH n' s'). rewrite Hloop in IH. apply IH. intros. apply Hall. by right.
Qed.

Lemma remove_refusal_None op u : remove_refusal op u = None → free u ∧ u_Frozen u = false.
Proof.
  rewrite /remove_refusal /free. destruct (u_SpentBy u); [done|].
  case_decide as Hd; [done|]. by destruct (u_Frozen u).
Qed.

Lemma remove_loop_coin_rel force all ops (m : gmap Outpoint row) k :
  (∀ op, op ∈ ops → op ∈ all) →
  coin_rel (CRemove all force) k (m !! k) ((remove_loop force ops m).2 !! k).
Proof.
  revert m. induction ops as [|op ops IH]; intros m Hall; simpl; [done|].
  assert (∀ op', op' ∈ ops → op' ∈ all) as Hall' by (intros; apply Hall; by right).
  destruct (m !! op) as [r|] eqn:Hr; [|by apply IH].
  destruct (if force then None else remove_refusal op (r_utxo r)) eqn:E.
  - specialize (IH m Hall'). by destruct (remove_loop force ops m).
  - etrans; [|by apply IH]. eapply coin_rel_delete; [done|].
    apply lc_remove; [apply Hall; left|].
    destruct force; [by left|right]. by eapply remove_refusal_None.
Qed.

Lemma claimable_spec sc r :
  claimable sc r = true ↔ in_scope sc (r_utxo r) ∧ free (r_utxo r) ∧ u_Frozen (r_utxo r) = false.
Proof. rewrite /claimable bool_decide_eq_true /in_scope /free. naive_solver. Qed.

Lemma pick_smallest_in sc x l b kr :
  foldl (pick_smallest sc x) b l = Some kr →
  b = Some kr ∨ kr ∈ l ∧ claimable sc kr.2 = true ∧ x ≤ sats kr.
Proof.
  revert b. induction l as [|kr' l IH]; intros b; simpl; [by left|].
  intros [Hb|(?&?&?)]%IH; [|right; by split_and!; [right|..]].
  revert Hb. rewrite {1}/pick_smallest.
  destruct (claimable sc kr'.2) eqn:Hc; simpl; [|by left].
  destruct (Z.ltb_spec (sats kr') x); [by left|].
  destruct b as [b|]; [case_match|]; intros ?; simplify_eq; try (by left).
  all: right; split_and!; [left|done..].
Qed.

(** [reserve_all] stamps exactly the listed rows. *)
Lemma reserve_all_lookup clk n tok cands (m : gmap Outpoint row) :
  NoDup cands.*1 →
  (∀ op, op ∉ cands.*1 → (reserve_all clk n tok cands m).2 !! op = m !! op) ∧
  (∀ i op r, cands !! i = Some (op, r) →
     (reserve_all clk n tok cands m).2 !! op =
       Some (mkRow (set_reservation tok (clk (n + i)%nat) (r_utxo r)) (r_seq r))).
Proof.
  revert n m. induction cands as [|[op r] cands IH]; intros n m Hnd; simpl; [done|].
  apply NoDup_cons in Hnd as [Hop Hnd].
  destruct (IH (S n) (<[op:=mkRow (set_reservation tok (clk n) (r_utxo r)) (r_seq r)]> m) Hnd)
    as [IH1 IH2].
  destruct (reserve_all clk (S n) tok cands _) as [us m2]; simpl in *. split.
  - intros op' [Hne Hni]%not_elem_of_cons. rewrite IH1 //. by rewrite lookup_insert_ne.
  - intros [|i] op' r'; simpl; intros Hl; simplify_eq.
    + rewrite IH1 // lookup_insert_eq. by rewrite Nat.add_0_r.
    + rewrite (IH2 _ _ _ Hl). by rewrite Nat.add_succ_r.
Qed.

Lemma reserve_all_utxos clk n tok cands (m : gmap Outpoint row) :
  (reserve_all clk n tok cands m).1 =
  imap (λ i kr, set_reservation tok (clk (n + i)%nat) (r_utxo kr.2)) cands.
Proof.
  revert n m. induction cands as [|[op r] cands IH]; intros n m; simpl; [done|].
  specialize (IH (S n) (<[op:=mkRow (set_reservation tok (clk n) (r_utxo r)) (r_seq r)]> m)).
  destruct (reserve_all _ _ _ _ _) as [us m2]; simpl in *. rewrite Nat.add_0_r IH.
  f_equal. apply imap_ext. intros. simpl. by rewrite Nat.add_succ_r.
Qed.

Lemma reserve_all_coin_rel c sc tok P clk n cands (m : gmap Outpoint row) k :
  claim_of c = Some (sc, tok, P) → tok ≠ "" → NoDup cands.*1 →
  (∀ op r, (op, r) ∈ cands → m !! op = Some r ∧ claimable sc r = true ∧ P (u_Satoshis (r_utxo r))) →
  coin_rel c k (m !! k) ((reserve_all clk n tok cands m).2 !! k).
Proof.
  intros Hc Htok Hnd Hin. destruct (reserve_all_lookup clk n tok cands m Hnd) as [H1 H2].
  destruct (decide (k ∈ cands.*1)) as [Hk|Hk]; [|by rewrite H1].
  apply list_elem_of_fmap in Hk as ([op r]&->&Hk).
  destruct (Hin _ _ Hk) as (Hm&(?&?&?)%claimable_spec&?).
  apply list_elem_of_lookup in Hk as [i Hi]. simpl. rewrite (H2 _ _ _ Hi) Hm.
  apply coin_rel_once. eapply lc_claim; eauto.
Qed.

Lemma distinct_from_in seen ops op : op ∈ distinct_from seen ops → op ∈ ops.
Proof.
  revert seen. induction ops as [|o ops IH]; intros seen; simpl; [done|].
  case_decide; [intros ?%IH; by right|].
  intros [->|?%IH]%elem_of_cons; [by left|by right].
Qed.

Lemma classify_stamp uid tok m ops op :
  op ∈ (classify uid tok m ops).2 ↔ op ∈ ops ∧ reserve_verdict uid tok op m = Stamp.
Proof.
  induction ops as [|o ops IH]; simpl; [set_solver|].
  destruct (classify uid tok m ops) as [es st]; simpl in *.
  destruct (reserve_verdict uid tok o m) eqn:E; simpl; rewrite ?elem_of_cons IH;
    clear IH; intuition (subst; eauto; congruence).
Qed.

Lemma reserve_verdict_Stamp uid tok op m :
  reserve_verdict uid tok op m = Stamp →
  ∃ r, m !! op = Some r ∧ u_UserID (r_utxo r) = uid ∧ free (r_utxo r) ∧ u_Frozen (r_utxo r) = false.
Proof.
  rewrite /reserve_verdict /free. destruct (m !! op) as [r|]; [|done].
  case_decide; [done|]. destruct (u_SpentBy (r_utxo r)) eqn:?; [done|].
  case_decide; [done|]. destruct (u_Frozen (r_utxo r)) eqn:?; [done|].
  case_decide; [done|]. intros _. exists r. split_and!; try done.
  destruct (decide (u_ReservedBy (r_utxo r) = "")); naive_solver.
Qed.

Lemma foldl_stamp_lookup tok now ops (m : gmap Outpoint row) k :
  foldl (stamp tok now) m ops !! k =
  if decide (k ∈ ops) then map_utxo (set_reservation tok now) <$> m !! k else m !! k.
Proof.
  revert m. induction ops as [|op ops IH]; intros m; simpl; [done|].
  rewrite IH /stamp lookup_alter.
  repeat case_decide; set_unfold; simplify_eq; try naive_solver.
  destruct (m !! k) as [[]|]; done.
Qed.

Lemma ReserveOutpoints_coin_rel clk uid tok ops m now k :
  tok ≠ "" →
  coin_rel (CReserveOutpoints clk uid tok ops) k (m !! k)
    (foldl (stamp tok now) m (classify uid tok m (distinctOutpoints ops)).2 !! k).
Proof.
  intros Htok. rewrite foldl_stamp_lookup. case_decide as Hk; [|done].
  apply classify_stamp in Hk as [Hk%distinct_from_in (r&->&?&?&?)%reserve_verdict_Stamp].
  simpl. apply coin_rel_once. by eapply lc_reserve.
Qed.

Lemma release_one_coin_rel tok all ops (m : gmap Outpoint row) k :
  tok ≠ "" → (∀ op, op ∈ ops → op ∈ all) →
  coin_rel (CReleaseOutpoints tok all) k (m !! k) (foldl (release_one tok) m ops !! k).
Proof.
  intros Htok Hall. apply foldl_pointwise; [apply _|]. intros op m' k' Hop.
  rewrite /release_one. destruct (m' !! op) as [r|] eqn:Hr; [|done].
  case_decide as Hd; [done|]. eapply coin_rel_insert; [done|].
  apply Decidable.not_or in Hd as [Ht%dec_stable Hs%dec_stable].
  by apply lc_release_op; [apply Hall|..].
Qed.

Lemma spendOne_coin_rel force all sp (m : gmap Outpoint row) k :
  sp ∈ all → coin_rel (CSpend all force) k (m !! k) ((spendOne force sp m).2 !! k).
Proof.
  intros Hall. rewrite /spendOne. destruct (ValidateSpend sp) eqn:Hv; [done|].
  destruct (m !! sp_Outpoint sp) as [r|] eqn:Hr; [|done].
  destruct (u_SpentBy (r_utxo r)) eqn:Hs; [by case_match|].
  destruct (negb force && u_Frozen (r_utxo r)) eqn:Hf; [done|].
  destruct (negb force && bool_decide _) eqn:Hb; [done|].
  eapply coin_rel_insert; [done|]. apply lc_spend; [done..|].
  destruct force; [by left|right]; simpl in *. apply bool_decide_eq_false, dec_stable in Hb.
  split_and!; [done..|]. rewrite /ValidateSpend in Hv. by case_decide.
Qed.

Lemma spend_loop_coin_rel force all sps (m : gmap Outpoint row) k :
  (∀ sp, sp ∈ sps → sp ∈ all) →
  coin_rel (CSpend all force) k (m !! k) ((spend_loop force sps m).2 !! k).
Proof.
  revert m. induction sps as [|sp sps IH]; intros m Hall; simpl; [done|].
  pose proof (spendOne_coin_rel force all sp m k) as Hone.
  destruct (spendOne force sp m) as [e m']. specialize (IH m').
  destruct (spend_loop force sps m') as [es m'']; simpl in *.
  etrans; [apply Hone, Hall; left|]. apply IH. intros. apply Hall. by right.
Qed.

(** The counting loops, with the counter projected away. *)
Lemma foldl_snd_pointwise {A} (R : Outpoint → option row → option row → Prop)
    `{!∀ k, PreOrder (R k)} (f : Z * gmap Outpoint row → A → Z * gmap Outpoint row) l z m :
  (∀ x z m k, x ∈ l → R k (m !! k) ((f (z, m) x).2 !! k)) →
  ∀ k, R k (m !! k) ((foldl f (z, m) l).2 !! k).
Proof.
  revert z m. induction l as [|x l IH]; intros z m Hf k; simpl; [done|].
  pose proof (Hf x z m k ltac:(left)) as H1. destruct (f (z, m) x) as [z' m'].
  etrans; [exact H1|]. apply IH. intros. apply Hf. by right.
Qed.

Lemma unspend_coin_rel w all ops z (m : gmap Outpoint row) k :
  (∀ op, op ∈ ops → op ∈ all) →
  coin_rel (CUnspend w all) k (m !! k) ((foldl (unspend_one w) (z, m) ops).2 !! k).
Proof.
  intros Hall. apply foldl_snd_pointwise; [apply _|]. intros op z' m' k' Hop.
  rewrite /unspend_one. destruct (m' !! op) as [r|] eqn:Hr; [|done].
  case_decide; [|done]. eapply coin_rel_insert; [done|]. by apply lc_unspend; [apply Hall|].
Qed.

Lemma promote_coin_rel to all ops z (m : gmap Outpoint row) k :
  Tier_Valid to = true → (∀ op, op ∈ ops → op ∈ all) →
  coin_rel (CPromote all to) k (m !! k) ((foldl (promote_one to) (z, m) ops).2 !! k).
Proof.
  intros Hto Hall. apply foldl_snd_pointwise; [apply _|]. intros op z' m' k' Hop.
  rewrite /promote_one. destruct (m' !! op) as [r|] eqn:Hr; [|done].
  case_match; [done|]. eapply coin_rel_insert; [done|]. by apply lc_promote; [apply Hall|].
Qed.

Lemma ValidateMintOutpoints_None w ops :
  ValidateMintOutpoints w ops = None ↔ ∀ op, op ∈ ops → TxID op = w.
Proof.
  induction ops as [|o ops IH]; simpl; [set_solver|].
  destruct (Z.eqb_spec (TxID o) w) as [He|Hne].
  - rewrite IH. set_solver.
  - split; [done|]. intros Ho. by destruct Hne; apply Ho; left.
Qed.

Lemma scan_mint_rows st op :
  scan_rows (scan_mint st op) = scan_rows st ∨
  ∃ r, scan_rows st !! op = Some r ∧ free (r_utxo r) ∧
       scan_rows (scan_mint st op) = delete op (scan_rows st).
Proof.
  rewrite /scan_mint /free. destruct (scan_rows st !! op) as [r|]; [|by left].
  destruct (u_SpentBy (r_utxo r)) eqn:?; [left; by case_decide|].
  case_decide as Hd; [left; by case_match|]. right. by exists r.
Qed.

Lemma scan_mint_coin_rel w all ops st k :
  ValidateMintOutpoints w all = None → (∀ op, op ∈ ops → op ∈ all) →
  coin_rel (CRemoveByMintTx w all) k (scan_rows st !! k) (scan_rows (foldl scan_mint st ops) !! k).
Proof.
  intros Hv. revert st. induction ops as [|op ops IH]; intros st Hall; simpl; [done|].
  etrans; [|apply IH; intros; apply Hall; by right].
  destruct (scan_mint_rows st op) as [->|(r&Hr&?&->)]; [done|].
  eapply coin_rel_delete; [done|]. apply lc_remove_mint; [apply Hall; left| |done].
  rewrite ValidateMintOutpoints_None in Hv. apply Hv, Hall. left.
Qed.

Lemma frozen_loop_coin_rel (b : bool) all ops (m : gmap Outpoint row) k :
  (∀ op, op ∈ ops → op ∈ all) →
  coin_rel (if b then CFreeze all else CUnfreeze all) k (m !! k) ((frozen_loop b ops m).2 !! k).
Proof.
  revert m. induction ops as [|op ops IH]; intros m Hall; simpl; [done|].
  assert (∀ op', op' ∈ ops → op' ∈ all) as Hall' by (intros; apply Hall; by right).
  destruct (m !! op) as [r|] eqn:Hr.
  - etrans; [|by apply IH]. eapply coin_rel_insert; [done|].
    destruct b; constructor; apply Hall; left.
  - specialize (IH m Hall'). by destruct (frozen_loop b ops m).
Qed.

Section refinement.
Context `{MapRange}.

Lemma claim_many_coin_rel c sc tok P cmp n clk s k (Q : Outpoint * row → Prop)
    `{!∀ x, Decision (Q x)} :
  claim_of c = Some (sc, tok, P) → tok ≠ "" →
  (∀ kr, Q kr → claimable sc kr.2 = true ∧ P (sats kr)) →
  coin_rel c k (rows s !! k)
    ((reserve_all clk 0 tok (slice_to n (SortFunc cmp (filter Q (range_map (rows s))))) (rows s)).2 !! k).
Proof.
  intros Hc Htok HQ. destruct (selection_spec (rows s) Q cmp n) as [Hnd Hsel].
  eapply reserve_all_coin_rel; [done..|]. intros op r [Hm HQr]%Hsel. split; [done|].
  by apply HQ in HQr.
Qed.

(** One lemma per method; [auto with store] then covers [exec]. *)
Ltac open_call :=
  rewrite ?snd_guard_open ?snd_guard_valid;
  match goal with s : Store |- _ => destruct (closed s); [done|] end.
Ltac open_call_token :=
  open_call;
  match goal with |- context [ValidateReservation ?tok] =>
    let Hv := fresh "Hv" in
    destruct (ValidateReservation tok) eqn:Hv; [done|apply ValidateReservation_None in Hv]
  end.
Ltac open_call_claim :=
  open_call;
  match goal with |- context [ValidateClaim ?sc ?tok] =>
    let Hv := fresh "Hv" in
    destruct (ValidateClaim sc tok) eqn:Hv; [done|apply ValidateClaim_None in Hv as [??]]
  end.

Lemma Mint_refines clk ms s k :
  coin_rel (CMint clk ms) k (rows s !! k) (rows (Mint clk ms s).2 !! k).
Proof.
  rewrite /Mint. destruct (closed s); [done|].
  pose proof (mint_loop_coin_rel clk clk ms ms 0 s k) as Hm.
  destruct (mint_loop clk ms 0 s). by apply Hm.
Qed.

Lemma Remove_refines ops force s k :
  coin_rel (CRemove ops force) k (rows s !! k) (rows (Remove ops force s).2 !! k).
Proof.
  rewrite /Remove. open_call.
  pose proof (remove_loop_coin_rel force ops ops (rows s) k) as Hm.
  destruct (remove_loop _ _ _). by apply Hm.
Qed.

Lemma ClaimSmallestSufficient_refines clk sc tok x s k :
  coin_rel (CClaimSmallestSufficient clk sc tok x) k
    (rows s !! k) (rows (ClaimSmallestSufficient clk sc tok x s).2 !! k).
Proof.
  rewrite /ClaimSmallestSufficient. open_call_claim.
  destruct (foldl _ _ _) as [[op r]|] eqn:Hp; [|done].
  apply pick_smallest_in in Hp as [?|(Hin&(?&?&?)%claimable_spec&?)]; [done|].
  apply range_map_elem in Hin. simpl.
  apply (coin_rel_insert _ op r (set_reservation tok (clk 0%nat))); [done|].
  by eapply lc_claim.
Qed.

Lemma ClaimLargestInsufficient_refines clk sc tok x n s k :
  coin_rel (CClaimLargestInsufficient clk sc tok x n) k
    (rows s !! k) (rows (ClaimLargestInsufficient clk sc tok x n s).2 !! k).
Proof.
  rewrite /ClaimLargestInsufficient. open_call_claim.
  case_match; [done|]. rewrite (surjective_pairing (reserve_all _ _ _ _ _)) /=.
  eapply claim_many_coin_rel; [reflexivity|done|]. by intros ? [??].
Qed.

Lemma ClaimExact_refines clk sc tok x n s k :
  coin_rel (CClaimExact clk sc tok x n) k
    (rows s !! k) (rows (ClaimExact clk sc tok x n s).2 !! k).
Proof.
  rewrite /ClaimExact. open_call_claim.
  case_match; [done|]. rewrite (surjective_pairing (reserve_all _ _ _ _ _)) /=.
  eapply claim_many_coin_rel; [reflexivity|done|]. by intros ? [??].
Qed.

Lemma ReserveOutpoints_refines clk uid tok ops s k :
  coin_rel (CReserveOutpoints clk uid tok ops) k
    (rows s !! k) (rows (ReserveOutpoints clk uid tok ops s).2 !! k).
Proof.
  rewrite /ReserveOutpoints /ValidateReserveOutpoints. open_call_token. case_decide; [done|].
  pose proof (ReserveOutpoints_coin_rel clk uid tok ops (rows s) (clk 0%nat) k Hv) as Hm.
  destruct (classify _ _ _ _) as [[] toStamp]; [exact Hm|done].
Qed.

Lemma ReleaseReservation_refines uid tok s k :
  coin_rel (CReleaseReservation uid tok) k (rows s !! k) (rows (ReleaseReservation uid tok s).2 !! k).
Proof.
  rewrite /ReleaseReservation. open_call_token.
  apply coin_rel_update_where. intros r _ [Hh%bool_decide_eq_true Hp]%andb_prop.
  apply lc_release; [done..|]. by destruct (u_Pinned (r_utxo r)).
Qed.

Lemma ReleaseOutpoints_refines tok ops s k :
  coin_rel (CReleaseOutpoints tok ops) k (rows s !! k) (rows (ReleaseOutpoints tok ops s).2 !! k).
Proof. rewrite /ReleaseOutpoints. open_call_token. by apply release_one_coin_rel. Qed.

Lemma Pin_refines uid tok s k :
  coin_rel (CPin uid tok) k (rows s !! k) (rows (Pin uid tok s).2 !! k).
Proof.
  rewrite /Pin /setPinned. open_call_token.
  apply coin_rel_update_where. intros r _ [Hh%bool_decide_eq_true _]%andb_prop. by apply lc_pin.
Qed.

Lemma Unpin_refines uid tok s k :
  coin_rel (CUnpin uid tok) k (rows s !! k) (rows (Unpin uid tok s).2 !! k).
Proof.
  rewrite /Unpin /setPinned. open_call_token.
  apply coin_rel_update_where. intros r _ [Hh%bool_decide_eq_true _]%andb_prop. by apply lc_unpin.
Qed.

Lemma Spend_refines sps force s k :
  coin_rel (CSpend sps force) k (rows s !! k) (rows (Spend sps force s).2 !! k).
Proof.
  rewrite /Spend. destruct (closed s); [done|].
  pose proof (spend_loop_coin_rel force sps sps (rows s) k) as Hm.
  destruct (spend_loop _ _ _). by apply Hm.
Qed.

Lemma Unspend_refines w ops s k :
  coin_rel (CUnspend w ops) k (rows s !! k) (rows (Unspend w ops s).2 !! k).
Proof.
  rewrite /Unspend. open_call. pose proof (unspend_coin_rel w ops ops 0 (rows s) k) as Hm.
  destruct (foldl _ _ _). by apply Hm.
Qed.

Lemma RemoveSpentBy_refines w s k :
  coin_rel (CRemoveSpentBy w) k (rows s !! k) (rows (RemoveSpentBy w s).2 !! k).
Proof.
  rewrite /RemoveSpentBy. open_call.
  change (coin_rel (CRemoveSpentBy w) k (rows s !! k)
    ((delete_where (spentBy w) (rows s)).1 !! k)).
  rewrite lookup_delete_where. destruct (rows s !! k) as [r|]; [simpl|done].
  destruct (spentBy w r) eqn:E; [|done]. apply bool_decide_eq_true in E.
  by apply coin_rel_gone, lc_remove_spent.
Qed.

Lemma Promote_refines ops to s k :
  coin_rel (CPromote ops to) k (rows s !! k) (rows (Promote ops to s).2 !! k).
Proof.
  rewrite /Promote. open_call. destruct (Tier_Valid to) eqn:Ht; [simpl|done].
  pose proof (promote_coin_rel to ops ops 0 (rows s) k Ht) as Hm.
  destruct (foldl _ _ _). by apply Hm.
Qed.

Lemma RemoveByMintTx_refines w ops s k :
  coin_rel (CRemoveByMintTx w ops) k (rows s !! k) (rows (RemoveByMintTx w ops s).2 !! k).
Proof.
  rewrite /RemoveByMintTx. open_call.
  destruct (ValidateMintOutpoints w ops) eqn:Hv; [done|].
  by apply (scan_mint_coin_rel w ops ops (mkScan (rows s) ∅ [] ∅ [] [])).
Qed.

Lemma Freeze_refines ops s k :
  coin_rel (CFreeze ops) k (rows s !! k) (rows (Freeze ops s).2 !! k).
Proof.
  rewrite /Freeze /setFrozen. open_call.
  pose proof (frozen_loop_coin_rel true ops ops (rows s) k) as Hm.
  destruct (frozen_loop _ _ _). by apply Hm.
Qed.

Lemma Unfreeze_refines ops s k :
  coin_rel (CUnfreeze ops) k (rows s !! k) (rows (Unfreeze ops s).2 !! k).
Proof.
  rewrite /Unfreeze /setFrozen. open_call.
  pose proof (frozen_loop_coin_rel false ops ops (rows s) k) as Hm.
  destruct (frozen_loop _ _ _). by apply Hm.
Qed.

Lemma Close_refines s k : coin_rel CClose k (rows s !! k) (rows (Close s).2 !! k).
Proof. done. Qed.

#[local] Hint Resolve Mint_refines Remove_refines ClaimSmallestSufficient_refines
  ClaimLargestInsufficient_refines ClaimExact_refines ReserveOutpoints_refines
  ReleaseReservation_refines ReleaseOutpoints_refines Pin_refines Unpin_refines
  Spend_refines Unspend_refines RemoveSpentBy_refines Promote_refines
  RemoveByMintTx_refines Freeze_refines Unfreeze_refines Close_refines : store.

Lemma exec_coin_rel c s k : coin_rel c k (rows s !! k) (rows (exec c s) !! k).
Proof. destruct c; simpl exec; auto with store. Qed.
End refinement.

(** ** The invariant *)

Lemma lifecycle_coin_ok c op o o' :
  lifecycle c op o o' → (∀ u, o = Some u → coin_ok op u) → ∀ u', o' = Some u' → coin_ok op u'.
Proof.
  rewrite /coin_ok.
  destruct 1 as [clk ms m now _ Hv%ValidateMint_None| | | | | | | | | | | | | |];
    intros Hok u' ?; simplify_eq/=; unfold held, free in *;
    try (specialize (Hok _ eq_refl)); destruct_and?; split_and!; try done; intros;
    simplify_eq; intuition congruence.
Qed.

Lemma evolves_coin_ok c op o o' :
  evolves c op o o' → (∀ u, o = Some u → coin_ok op u) → ∀ u', o' = Some u' → coin_ok op u'.
Proof. induction 1; eauto using lifecycle_coin_ok. Qed.

Lemma New_wf : wf New.
Proof.
  split; [intros op u; by rewrite /coin lookup_empty|].
  split_and!; simpl; [lia|lia|..]; intros *; by rewrite lookup_empty.
Qed.

Lemma mintOne_seqs clk m n s :
  seqs_ok s → nextSeq s + 1 < 2 ^ 64 →
  seqs_ok (mintOne clk m n s).2.2 ∧
  nextSeq s ≤ nextSeq (mintOne clk m n s).2.2 ≤ nextSeq s + 1.
Proof.
  intros (Hn&Hle&Hinj) Hfit. rewrite /mintOne.
  destruct (ValidateMint m); simpl; [by split; [|lia]|].
  destruct (rows s !! m_Outpoint m) eqn:Hr; simpl; [case_bool_decide; simpl; by split; [|lia]|].
  rewrite /wrapU Z.mod_small; [|lia]. split; [|lia].
  split_and!; simpl; [lia|lia| |].
  - intros op r [[<- <-]|[? ?%Hle]]%lookup_insert_Some; simpl; lia.
  - intros op1 op2 r1 r2 [[<- <-]|[? H1]]%lookup_insert_Some
      [[<- <-]|[? H2]]%lookup_insert_Some; simpl; intros Hs; try done.
    + apply Hle in H2. lia.
    + apply Hle in H1. lia.
    + by eapply Hinj.
Qed.

Lemma mint_loop_seqs clk ms n s :
  seqs_ok s → nextSeq s + Z.of_nat (length ms) < 2 ^ 64 → seqs_ok (mint_loop clk ms n s).2.
Proof.
  revert n s. induction ms as [|m ms IH]; intros n s Hs Hfit; simpl in *; [done|].
  destruct (mintOne_seqs clk m n s) as [Hs' Hn']; [done|lia|].
  destruct (mintOne clk m n s) as [e [n' s']]; simpl in *.
  specialize (IH n' s' Hs'). destruct (mint_loop clk ms n' s'); simpl in *. apply IH. lia.
Qed.

Section invariant.
Context `{MapRange}.

(** Every call but Mint leaves the insertion counter alone. *)
Lemma exec_nextSeq c s : mints c = false → nextSeq (exec c s) = nextSeq s.
Proof.
  destruct c; simpl; try done; intros _;
    rewrite ?/Remove ?/ClaimSmallestSufficient ?/ClaimLargestInsufficient
      ?/ClaimExact ?/ReserveOutpoints ?/ReleaseReservation ?/ReleaseOutpoints ?/Pin ?/Unpin
      ?/setPinned ?/Spend ?/Unspend ?/RemoveSpentBy ?/Promote ?/RemoveByMintTx ?/Freeze
      ?/Unfreeze ?/setFrozen ?snd_guard_open ?snd_guard_valid; repeat case_match; done.
Qed.

Lemma exec_seqs_ok c s : fits c s → seqs_ok s → seqs_ok (exec c s).
Proof.
  intros Hfit Hs. destruct (mints c) eqn:Hc.
  - destruct c; try done. simpl in *. rewrite /Mint. destruct (closed s); [done|].
    pose proof (mint_loop_seqs clk ms 0 s Hs Hfit). by destruct (mint_loop clk ms 0 s).
  - destruct Hs as (Hn&Hle&Hinj).
    assert (∀ k r', rows (exec c s) !! k = Some r' →
      ∃ r, rows s !! k = Some r ∧ r_seq r' = r_seq r) as Hback.
    { intros k r' Hr'. destruct (exec_coin_rel c s k) as [_ Hk]. specialize (Hk Hc).
      rewrite Hr' in Hk. destruct (rows s !! k) as [r|]; [|done]. by exists r. }
    rewrite /seqs_ok exec_nextSeq //. split_and!; [lia|lia| |].
    + intros op r (r0&?%Hle&->)%Hback. lia.
    + intros op1 op2 r1 r2 (?&?&->)%Hback (?&?&->)%Hback. by eapply Hinj.
Qed.

Lemma exec_coins_ok c s : coins_ok s → coins_ok (exec c s).
Proof.
  intros Hs op u' Hu'. destruct (exec_coin_rel c s op) as [Hev _].
  eapply evolves_coin_ok; [exact Hev| |done]. apply Hs.
Qed.

Lemma exec_wf c s : fits c s → wf s → wf (exec c s).
Proof. intros ? [??]. split; [by apply exec_coins_ok|by apply exec_seqs_ok]. Qed.

Lemma reachable_wf s : reachable s → wf s.
Proof. induction 1; [apply New_wf|by apply exec_wf]. Qed.
End invariant.

End StoreContract.
