(* ===== verification/StoreProps.v ===== *)
(** * StoreExample: a small concrete store

    Three coins of one user, one of them claimed under token ["t1"], built by the
    store's own operations.  The witnesses of the store theorems run on it. *)
From S2P Require Import Prelude UtxoTypes MemStore StoreContract.
Import MemStore StoreContract.
Local Open Scope Z_scope.

Module StoreExample.

Definition op1 : Outpoint := mkOutpoint 11 0.
Definition op2 : Outpoint := mkOutpoint 11 1.
Definition op3 : Outpoint := mkOutpoint 12 0.

(** The clock of one call: 100 ns, then one more per reading. *)
Definition clk0 (n : nat) : Time := 100 + Z.of_nat n.

Definition mint_of (op : Outpoint) (v : Z) : UtxoTypes.Mint :=
  mkMint op 7 "default" v DefaultP2PKHInputSize TierMined.

Definition sc0 : Scope := mkScope 7 "default" TierMined.

(** Minted, nothing claimed. *)
Definition fresh : Store :=
  exec (H := range_canonical) (CMint clk0 [mint_of op1 1000; mint_of op2 500; mint_of op3 1000]) New.

(** [op2] claimed by ["t1"] as the smallest coin of at least 100. *)
Definition claimed : Store :=
  exec (H := range_canonical) (CClaimSmallestSufficient clk0 sc0 "t1" 100) fresh.

(** ... pinned, and ... spent by transaction 99. *)
Definition pinned : Store := exec (H := range_canonical) (CPin 7 "t1") claimed.
Definition spend2 : SpendOp := mkSpendOp op2 "t1" 99.
Definition spent : Store := exec (H := range_canonical) (CSpend [spend2] false) pinned.

Lemma fresh_reachable : reachable (H := range_canonical) fresh.
Proof. apply reach_step; [apply reach_new|]. simpl. lia. Qed.
Lemma claimed_reachable : reachable (H := range_canonical) claimed.
Proof. by apply reach_step; [apply fresh_reachable|]. Qed.
Lemma pinned_reachable : reachable (H := range_canonical) pinned.
Proof. by apply reach_step; [apply claimed_reachable|]. Qed.
Lemma spent_reachable : reachable (H := range_canonical) spent.
Proof. by apply reach_step; [apply pinned_reachable|]. Qed.

Lemma fresh_ok : coins_ok fresh.
Proof. apply (reachable_wf (H := range_canonical)), fresh_reachable. Qed.
Lemma claimed_ok : coins_ok claimed.
Proof. apply (reachable_wf (H := range_canonical)), claimed_reachable. Qed.
Lemma pinned_ok : coins_ok pinned.
Proof. apply (reachable_wf (H := range_canonical)), pinned_reachable. Qed.
Lemma spent_ok : coins_ok spent.
Proof. apply (reachable_wf (H := range_canonical)), spent_reachable. Qed.

(** Evaluates a ground goal about a concrete store. *)
Ltac ground := vm_compute; repeat split; (reflexivity || discriminate).

End StoreExample.

(** * StoreProps: the memstore's guarantees

    Selection (best fit, largest-insufficient, exact), independence of Go's map
    iteration order, and exclusivity of claims along every execution. *)
Import MemStore StoreContract StoreExample.
Local Open Scope Z_scope.

Module StoreProps.

(** ** Definitions used in the statements *)

(** [kr] precedes [kr'] in ClaimSmallestSufficient's order: smaller, then older. *)
Definition no_worse (kr kr' : Outpoint * row) : Prop :=
  sats kr < sats kr' ∨ sats kr = sats kr' ∧ kseq kr ≤ kseq kr'.

(** The coins a claim call handed out. *)
Definition returned `{MapRange} (c : call) (s : Store) : list UTXO :=
  match c with
  | CClaimSmallestSufficient clk sc tok x =>
      match (ClaimSmallestSufficient clk sc tok x s).1 with Ret (Some u) => [u] | _ => [] end
  | CClaimLargestInsufficient clk sc tok x n =>
      match (ClaimLargestInsufficient clk sc tok x n s).1 with Ret us => us | _ => [] end
  | CClaimExact clk sc tok x n =>
      match (ClaimExact clk sc tok x n s).1 with Ret us => us | _ => [] end
  | _ => []
  end.

(** Running a sequence of calls; [trace] is the sequence of states before each. *)
Fixpoint run `{MapRange} (cs : list call) (s : Store) : Store :=
  match cs with [] => s | c :: cs' => run cs' (exec c s) end.
Fixpoint handed_out `{MapRange} (cs : list call) (s : Store) : list UTXO :=
  match cs with [] => [] | c :: cs' => returned c s ++ handed_out cs' (exec c s) end.

(** The calls entitled to take a coin away from the reservation [(uid, tok)]. *)
Definition may_free (op : Outpoint) (uid : Z) (tok : string) (c : call) : Prop :=
  match c with
  | CReleaseReservation uid' tok' => uid' = uid ∧ tok' = tok
  | CReleaseOutpoints tok' ops => tok' = tok ∧ op ∈ ops
  | CUnspend _ ops => op ∈ ops
  | CRemoveSpentBy _ => True
  | CRemove ops force => force = true ∧ op ∈ ops
  | _ => False
  end.

(** Reference sums for the balance. *)
Definition owned_live (userID : Z) (basket : string) (u : UTXO) : Prop :=
  u_UserID u = userID ∧ u_Basket u = basket ∧ u_SpentBy u = None.
Definition sum_where (P : UTXO → Prop) `{!∀ u, Decision (P u)} (s : Store) : Z :=
  map_fold (λ _ r acc, (if decide (P (r_utxo r)) then u_Satoshis (r_utxo r) else 0) + acc)
    0 (rows s).

(** ** Comparators *)

Lemma cmp_largest_le a b :
  cmp_le cmp_largest a b ↔ sats b < sats a ∨ sats a = sats b ∧ kseq b ≤ kseq a.
Proof.
  rewrite /cmp_le /cmp_largest.
  destruct (Z.compare_spec (sats b) (sats a)); [|naive_solver lia..].
  destruct (Z.compare_spec (kseq b) (kseq a)); naive_solver lia.
Qed.

Lemma cmp_seq_le a b : cmp_le cmp_seq a b ↔ kseq a ≤ kseq b.
Proof.
  rewrite /cmp_le /cmp_seq. destruct (Z.compare_spec (kseq a) (kseq b)); naive_solver lia.
Qed.

#[global] Instance cmp_largest_trans : Transitive (cmp_le cmp_largest).
Proof. intros x y z. rewrite !cmp_largest_le. lia. Qed.
#[global] Instance cmp_largest_total : Total (cmp_le cmp_largest).
Proof. intros x y. rewrite !cmp_largest_le. lia. Qed.
#[global] Instance cmp_seq_trans : Transitive (cmp_le cmp_seq).
Proof. intros x y z. rewrite !cmp_seq_le. lia. Qed.
#[global] Instance cmp_seq_total : Total (cmp_le cmp_seq).
Proof. intros x y. rewrite !cmp_seq_le. lia. Qed.

Lemma StronglySorted_weaken {A} (R R' : relation A) l :
  (∀ a b, R a b → R' a b) → StronglySorted R l → StronglySorted R' l.
Proof. intros HR. induction 1; constructor; eauto using Forall_impl. Qed.

(** ** ClaimSmallestSufficient *)

Definition eligible (sc : Scope) (x : Z) (kr : Outpoint * row) : Prop :=
  claimable sc kr.2 = true ∧ x ≤ sats kr.

Lemma no_worse_trans a b c : no_worse a b → no_worse b c → no_worse a c.
Proof. rewrite /no_worse. lia. Qed.

(** The scan keeps the best eligible entry seen so far. *)
Lemma pick_smallest_best sc x l b :
  match foldl (pick_smallest sc x) b l with
  | None => b = None ∧ ∀ kr, kr ∈ l → ¬ eligible sc x kr
  | Some best =>
      (∀ kr, b = Some kr → no_worse best kr) ∧
      (∀ kr, kr ∈ l → eligible sc x kr → no_worse best kr)
  end.
Proof.
  revert b. induction l as [|kr l IH]; intros b; simpl.
  { destruct b; [split|split; [done|]]; [|set_solver..].
    intros ? [= ->]. rewrite /no_worse. lia. }
  specialize (IH (pick_smallest sc x b kr)). revert IH.
  assert (∀ b', pick_smallest sc x b kr = b' →
    (¬ eligible sc x kr ∧ b' = b) ∨
    (eligible sc x kr ∧ ∃ b'', b' = Some b'' ∧ no_worse b'' kr ∧
       ∀ k, b = Some k → no_worse b'' k)) as Hstep.
  { intros b' <-. rewrite /pick_smallest /eligible /no_worse.
    destruct (claimable sc kr.2); simpl; [|left; naive_solver].
    destruct (Z.ltb_spec (sats kr) x); [left; naive_solver lia|right].
    split; [done|]. destruct b as [b|]; [|exists kr; naive_solver lia].
    destruct (Z.ltb_spec (sats kr) (sats b)); simpl; [exists kr; naive_solver lia|].
    destruct (Z.eqb_spec (sats kr) (sats b)); simpl; [|exists b; naive_solver lia].
    destruct (Z.ltb_spec (kseq kr) (kseq b)); [exists kr|exists b]; naive_solver lia. }
  destruct (Hstep _ eq_refl) as [[Hn ->]|(He&b''&->&Hb1&Hb2)].
  - destruct (foldl _ _ _); set_solver.
  - destruct (foldl _ _ _) as [best|]; [|naive_solver]. intros [H1 H2].
    specialize (H1 _ eq_refl). split.
    + intros k Hk. eapply no_worse_trans; eauto.
    + intros k [->|?]%elem_of_cons; [intros _; by eapply no_worse_trans|auto].
Qed.

Section claims.
Context `{MapRange}.

Lemma ClaimSmallestSufficient_spec clk sc tok x s :
  closed s = false → ValidateClaim sc tok = None →
  (ClaimSmallestSufficient clk sc tok x s = (Ret None, s) ∧
   ∀ op r, rows s !! op = Some r → ¬ eligible sc x (op, r)) ∨
  ∃ op r, rows s !! op = Some r ∧ eligible sc x (op, r) ∧
    (∀ op' r', rows s !! op' = Some r' → eligible sc x (op', r') → no_worse (op, r) (op', r')) ∧
    let u := set_reservation tok (clk 0%nat) (r_utxo r) in
    ClaimSmallestSufficient clk sc tok x s =
      (Ret (Some u), with_rows (<[op := mkRow u (r_seq r)]> (rows s)) s).
Proof.
  intros Hopen Hv. rewrite /ClaimSmallestSufficient /guard_open Hopen Hv /=.
  pose proof (pick_smallest_best sc x (range_map (rows s)) None) as Hbest.
  destruct (foldl _ _ _) as [[op r]|] eqn:Hf.
  - right. apply pick_smallest_in in Hf as [?|(Hin&Hc&Hx)]; [done|].
    apply range_map_elem in Hin. destruct Hbest as [_ Hbest].
    exists op, r. split_and!; [done..| |done].
    intros op' r' Hr'. apply Hbest. by rewrite range_map_elem.
  - left. split; [done|]. intros op r Hr. apply Hbest. by rewrite range_map_elem.
Qed.

(** ClaimSmallestSufficient on an open store with valid arguments is an exact
    best fit.  It answers nil exactly when no claimable coin of the scope is worth
    at least [minSats], and then changes nothing; otherwise it reserves the coin of
    least value (oldest first among equals) under the token and changes no other row. *)
Theorem claim_smallest_best_fit clk sc tok x s o s' :
  closed s = false → ValidateClaim sc tok = None →
  ClaimSmallestSufficient clk sc tok x s = (o, s') →
  match o with
  | Ret None => s' = s ∧ ∀ op r, rows s !! op = Some r → claimable sc r = true →
                  u_Satoshis (r_utxo r) < x
  | Ret (Some u) =>
      ∃ op r, rows s !! op = Some r ∧ claimable sc r = true ∧ x ≤ u_Satoshis (r_utxo r) ∧
        u = set_reservation tok (clk 0%nat) (r_utxo r) ∧
        s' = with_rows (<[op := mkRow u (r_seq r)]> (rows s)) s ∧
        ∀ op' r', rows s !! op' = Some r' → claimable sc r' = true →
          x ≤ u_Satoshis (r_utxo r') → no_worse (op, r) (op', r')
  | _ => False
  end.
Proof.
  intros Hopen Hv Hcall.
  destruct (ClaimSmallestSufficient_spec clk sc tok x s Hopen Hv)
    as [[Heq Hno]|(op&r&Hr&[Hc Hx]&Hbest&Heq)]; rewrite Heq in Hcall; simplify_eq.
  - split; [done|]. intros op r Hr Hc. specialize (Hno op r Hr). rewrite /eligible /= in Hno.
    destruct (Z.lt_ge_cases (u_Satoshis (r_utxo r)) x); [done|]. by destruct Hno.
  - exists op, r. split_and!; [done..|]. intros. by apply Hbest.
Qed.

(** The multi-coin claims: a sorted initial segment of the candidates. *)
Lemma claim_many_spec clk tok cmp n s (Q : Outpoint * row → Prop) `{!∀ x, Decision (Q x)}
    `{!Transitive (cmp_le cmp), !Total (cmp_le cmp)} us m :
  reserve_all clk 0 tok (slice_to n (SortFunc cmp (filter Q (range_map (rows s))))) (rows s) = (us, m) →
  ∃ sel rest,
    (∀ op r, (op, r) ∈ sel ++ rest ↔ rows s !! op = Some r ∧ Q (op, r)) ∧
    NoDup (sel ++ rest).*1 ∧ StronglySorted (cmp_le cmp) (sel ++ rest) ∧
    length sel = Z.to_nat (n `min` Z.of_nat (length (sel ++ rest))) ∧
    us = imap (λ i kr, set_reservation tok (clk i) (r_utxo kr.2)) sel ∧
    (∀ op, op ∉ sel.*1 → m !! op = rows s !! op) ∧
    (∀ i op r, sel !! i = Some (op, r) →
       m !! op = Some (mkRow (set_reservation tok (clk i) (r_utxo r)) (r_seq r))).
Proof.
  intros Hra. destruct (sort_slice_spec cmp n (filter Q (range_map (rows s)))) as (rest&Hp&Hs&Hl).
  set (sel := slice_to n _) in *. exists sel, rest.
  assert (NoDup (sel ++ rest).*1) as Hnd.
  { rewrite Hp. eapply sublist_NoDup; [apply (range_map_NoDup_fst (rows s))|].
    apply sublist_fmap_fst, sublist_filter. }
  assert (NoDup sel.*1) as Hnd' by (rewrite fmap_app in Hnd; by apply NoDup_app in Hnd as [? _]).
  destruct (reserve_all_lookup clk 0 tok sel (rows s) Hnd') as [H1 H2].
  pose proof (reserve_all_utxos clk 0 tok sel (rows s)) as H3. rewrite Hra /= in H1 H2 H3.
  split_and!; try done.
  - intros op r. rewrite Hp list_elem_of_filter range_map_elem. naive_solver.
  - by rewrite (Permutation_length Hp).
Qed.

(** ClaimLargestInsufficient on an open store with valid arguments hands out
    the [limit] largest claimable coins below the cap (all of them when fewer),
    largest first and newest first among equals; it reserves exactly those and no
    coin it left behind outranks one it took. *)
Theorem claim_largest_insufficient_order clk sc tok x n s o s' :
  closed s = false → ValidateClaim sc tok = None → 0 < n →
  ClaimLargestInsufficient clk sc tok x n s = (o, s') →
  ∃ sel rest,
    (∀ op r, (op, r) ∈ sel ++ rest ↔
       rows s !! op = Some r ∧ claimable sc r = true ∧ u_Satoshis (r_utxo r) < x) ∧
    StronglySorted (λ a b, sats b < sats a ∨ sats a = sats b ∧ kseq b ≤ kseq a) (sel ++ rest) ∧
    length sel = Z.to_nat (n `min` Z.of_nat (length (sel ++ rest))) ∧
    o = Ret (imap (λ i kr, set_reservation tok (clk i) (r_utxo kr.2)) sel) ∧
    (∀ op, op ∉ sel.*1 → rows s' !! op = rows s !! op) ∧
    (∀ i op r, sel !! i = Some (op, r) →
       rows s' !! op = Some (mkRow (set_reservation tok (clk i) (r_utxo r)) (r_seq r))).
Proof.
  intros Hopen Hv Hn. rewrite /ClaimLargestInsufficient /guard_open Hopen Hv /=.
  destruct (Z.leb_spec n 0); [lia|]. destruct (reserve_all _ _ _ _ _) as [us m] eqn:Hra.
  intros [= <- <-].
  apply claim_many_spec in Hra as (sel&rest&Hin&_&Hs&Hl&->&H1&H2); [|apply _..].
  exists sel, rest. split_and!; [done| |done..].
  eapply StronglySorted_weaken; [|exact Hs]. intros a b. apply cmp_largest_le.
Qed.

(** ClaimExact on an open store with valid arguments hands out, oldest first,
    the first [count] claimable coins of exactly the denomination; it returns
    fewer than [count] only when the pool holds fewer. *)
Theorem claim_exact_fifo clk sc tok x n s o s' :
  closed s = false → ValidateClaim sc tok = None → 0 < n →
  ClaimExact clk sc tok x n s = (o, s') →
  ∃ sel rest,
    (∀ op r, (op, r) ∈ sel ++ rest ↔
       rows s !! op = Some r ∧ claimable sc r = true ∧ u_Satoshis (r_utxo r) = x) ∧
    StronglySorted (λ a b, kseq a ≤ kseq b) (sel ++ rest) ∧
    (Z.of_nat (length sel) < n → rest = []) ∧ Z.of_nat (length sel) ≤ n ∧
    o = Ret (imap (λ i kr, set_reservation tok (clk i) (r_utxo kr.2)) sel) ∧
    (∀ op, op ∉ sel.*1 → rows s' !! op = rows s !! op).
Proof.
  intros Hopen Hv Hn. rewrite /ClaimExact /guard_open Hopen Hv /=.
  destruct (Z.leb_spec n 0); [lia|]. destruct (reserve_all _ _ _ _ _) as [us m] eqn:Hra.
  intros [= <- <-].
  apply claim_many_spec in Hra as (sel&rest&Hin&_&Hs&Hl&->&H1&_); [|apply _..].
  rewrite length_app in Hl. exists sel, rest. split_and!; [done| | |lia|done..].
  - eapply StronglySorted_weaken; [|exact Hs]. intros a b. apply cmp_seq_le.
  - intros. apply nil_length_inv. lia.
Qed.
End claims.

(** ** Independence of the iteration order *)

Lemma rows_separated s kr kr' :
  seqs_ok s → rows s !! kr.1 = Some kr.2 → rows s !! kr'.1 = Some kr'.2 →
  kseq kr = kseq kr' → kr = kr'.
Proof.
  intros (_&_&Hinj) H1 H2 Hs. destruct kr as [op r], kr' as [op' r']; simpl in *.
  assert (op = op') as -> by by eapply Hinj. congruence.
Qed.

Lemma filter_range_perm (R1 R2 : MapRange) (Q : Outpoint * row → Prop)
    `{!∀ x, Decision (Q x)} (m : gmap Outpoint row) :
  filter Q (@range_map R1 _ _ _ _ m) ≡ₚ filter Q (@range_map R2 _ _ _ _ m).
Proof. by rewrite (@range_map_perm R1) (@range_map_perm R2). Qed.

Lemma claim_sort_independent (R1 R2 : MapRange) (Q : Outpoint * row → Prop)
    `{!∀ x, Decision (Q x)} cmp `{!Transitive (cmp_le cmp), !Total (cmp_le cmp)} s :
  seqs_ok s → (∀ a b, cmp_le cmp a b → cmp_le cmp b a → kseq a = kseq b) →
  SortFunc cmp (filter Q (@range_map R1 _ _ _ _ (rows s))) =
  SortFunc cmp (filter Q (@range_map R2 _ _ _ _ (rows s))).
Proof.
  intros Hs Hsep. apply SortFunc_unique; [apply _..|apply filter_range_perm|].
  intros [op r] [op' r'] [_ H1]%list_elem_of_filter [_ H2]%list_elem_of_filter ??.
  rewrite ->range_map_elem in H1, H2. eapply rows_separated; [done..|]. by apply Hsep.
Qed.

(** Go's map iteration order is unspecified, yet in every state satisfying the
    row invariant the three claims return the same coins and leave the same store
    whatever order the scan visits the rows in. *)
Theorem claims_order_independent (R1 R2 : MapRange) clk sc tok x n s :
  wf s →
  @ClaimSmallestSufficient R1 clk sc tok x s = @ClaimSmallestSufficient R2 clk sc tok x s ∧
  @ClaimLargestInsufficient R1 clk sc tok x n s = @ClaimLargestInsufficient R2 clk sc tok x n s ∧
  @ClaimExact R1 clk sc tok x n s = @ClaimExact R2 clk sc tok x n s.
Proof.
  intros [_ Hs]. split_and!.
  - destruct (closed s) eqn:Hc; [by rewrite /ClaimSmallestSufficient /guard_open Hc|].
    destruct (ValidateClaim sc tok) eqn:Hv.
    { by rewrite /ClaimSmallestSufficient /guard_open Hc Hv. }
    destruct (@ClaimSmallestSufficient_spec R1 clk sc tok x s Hc Hv)
      as [[E1 N1]|(op1&r1&L1&El1&B1&E1)];
    destruct (@ClaimSmallestSufficient_spec R2 clk sc tok x s Hc Hv)
      as [[E2 N2]|(op2&r2&L2&El2&B2&E2)]; rewrite E1 E2; [done| | |].
    + by destruct (N1 op2 r2).
    + by destruct (N2 op1 r1).
    + assert ((op1, r1) = (op2, r2)) as ?; [|by simplify_eq].
      eapply rows_separated; [done..|].
      specialize (B1 _ _ L2 El2). specialize (B2 _ _ L1 El1). rewrite /no_worse in B1 B2. lia.
  - rewrite /ClaimLargestInsufficient /guard_open. destruct (closed s); [done|].
    destruct (ValidateClaim sc tok); simpl; [done|]. destruct (n <=? 0); [done|].
    rewrite (claim_sort_independent R1 R2) //. intros a b. rewrite !cmp_largest_le. lia.
  - rewrite /ClaimExact /guard_open. destruct (closed s); [done|].
    destruct (ValidateClaim sc tok); simpl; [done|]. destruct (n <=? 0); [done|].
    rewrite (claim_sort_independent R1 R2) //. intros a b. rewrite !cmp_seq_le. lia.
Qed.

(** ** Exclusivity along executions *)

(** A call that may not free [op] keeps it with its owner and token. *)
Lemma lifecycle_keeps_token c op o o' uid tok :
  lifecycle c op o o' → tok ≠ "" → ¬ may_free op uid tok c →
  (∃ u, o = Some u ∧ u_UserID u = uid ∧ u_ReservedBy u = tok) →
  ∃ u', o' = Some u' ∧ u_UserID u' = uid ∧ u_ReservedBy u' = tok.
Proof.
  destruct 1; intros Htok Hno (u0&?&Hu&Ht); simplify_eq/=; unfold held, free in *;
    destruct_and?; try (eexists; split_and!; [reflexivity|simpl; congruence..]);
    exfalso; try congruence; subst; intuition congruence.
Qed.

Lemma exec_keeps_token `{MapRange} c op uid tok s :
  tok ≠ "" → ¬ may_free op uid tok c →
  (∃ u, coin s op = Some u ∧ u_UserID u = uid ∧ u_ReservedBy u = tok) →
  ∃ u', coin (exec c s) op = Some u' ∧ u_UserID u' = uid ∧ u_ReservedBy u' = tok.
Proof.
  intros Htok Hno. destruct (exec_coin_rel c s op) as [Hev _]. revert Hev. rewrite /coin.
  generalize (r_utxo <$> rows s !! op) (r_utxo <$> rows (exec c s) !! op).
  induction 1; eauto using lifecycle_keeps_token.
Qed.

(** A claim hands out only free coins, under the outpoint they are stored at. *)
Lemma stored_at s op r : coins_ok s → rows s !! op = Some r → u_Outpoint (r_utxo r) = op.
Proof. intros Hok Hr. destruct (Hok op (r_utxo r)) as [? _]; [by rewrite /coin Hr|done]. Qed.

Lemma claim_many_returned_free `{MapRange} (Q : Outpoint * row → Prop) `{!∀ x, Decision (Q x)}
    sc clk tok cmp n s us m u :
  coins_ok s → (∀ kr, Q kr → claimable sc kr.2 = true) →
  reserve_all clk 0 tok (slice_to n (SortFunc cmp (filter Q (range_map (rows s))))) (rows s) = (us, m) →
  u ∈ us → ∃ u0, coin s (u_Outpoint u) = Some u0 ∧ free u0.
Proof.
  intros Hok HQ Hra Hu. destruct (selection_spec (rows s) Q cmp n) as [_ Hsel].
  pose proof (reserve_all_utxos clk 0 tok
    (slice_to n (SortFunc cmp (filter Q (range_map (rows s))))) (rows s)) as Hus.
  rewrite Hra /= in Hus. subst us. apply elem_of_lookup_imap in Hu as (i&[op r]&->&Hi).
  apply list_elem_of_lookup_2, Hsel in Hi as [Hr HQr]. apply HQ, claimable_spec in HQr as (_&?&_).
  exists (r_utxo r). by rewrite /coin /= (stored_at s op r) // Hr.
Qed.

Ltac no_coin := simpl; by intros []%not_elem_of_nil.

Lemma returned_free `{MapRange} c s u :
  coins_ok s → u ∈ returned c s → ∃ u0, coin s (u_Outpoint u) = Some u0 ∧ free u0.
Proof.
  intros Hok. rewrite /returned. destruct c; try no_coin.
  - rewrite /ClaimSmallestSufficient /guard_open. destruct (closed s); [no_coin|].
    destruct (ValidateClaim sc tok); [no_coin|]. simpl.
    destruct (foldl _ _ _) as [[op r]|] eqn:Hp; [|no_coin].
    apply pick_smallest_in in Hp as [?|(Hin&(_&?&_)%claimable_spec&_)]; [done|].
    apply range_map_elem in Hin. intros ->%list_elem_of_singleton. exists (r_utxo r).
    by rewrite /coin /= (stored_at s op r) // Hin.
  - rewrite /ClaimLargestInsufficient /guard_open. destruct (closed s); [no_coin|].
    destruct (ValidateClaim sc tok); [no_coin|]. simpl. destruct (_ <=? _); [no_coin|].
    destruct (reserve_all _ _ _ _ _) eqn:Hra. simpl.
    eapply claim_many_returned_free; [done| |exact Hra]. by intros ? [??].
  - rewrite /ClaimExact /guard_open. destruct (closed s); [no_coin|].
    destruct (ValidateClaim sc tok); [no_coin|]. simpl. destruct (_ <=? _); [no_coin|].
    destruct (reserve_all _ _ _ _ _) eqn:Hra. simpl.
    eapply claim_many_returned_free; [done| |exact Hra]. by intros ? [??].
Qed.

(** C4: exclusivity.  Once a coin is held under a token (or spent out of that
    hold), no sequence of calls hands it out to anybody until one of the calls is
    entitled to free it: a release of that very token, an Unspend or a forced
    removal naming the coin, or the removal of spent rows.  Throughout, the coin
    stays in the store with its owner and token. *)
Theorem claimed_coin_exclusive `{MapRange} cs op uid tok s :
  coins_ok s → tok ≠ "" →
  (∃ u, coin s op = Some u ∧ u_UserID u = uid ∧ u_ReservedBy u = tok) →
  Forall (λ c, ¬ may_free op uid tok c) cs →
  op ∉ u_Outpoint <$> handed_out cs s ∧
  ∃ u, coin (run cs s) op = Some u ∧ u_UserID u = uid ∧ u_ReservedBy u = tok.
Proof.
  intros Hok Htok Hheld Hcs. revert s Hok Hheld.
  induction Hcs as [|c cs Hc Hcs IH]; intros s Hok Hheld; simpl.
  { split; [apply not_elem_of_nil|done]. }
  destruct (IH (exec c s)) as [Hno Hrun]; [by apply exec_coins_ok|by apply exec_keeps_token|].
  split; [|done]. rewrite fmap_app not_elem_of_app. split; [|done].
  intros (u&->&Hu)%list_elem_of_fmap. apply returned_free in Hu as (u0&Hu0&Hf&_); [|done].
  destruct Hheld as (u1&Hu1&_&Ht). congruence.
Qed.

(** ** Instances on the example store *)

Lemma claim_smallest_best_fit_witness :
  ∃ r, rows fresh !! op2 = Some r ∧ claimable sc0 r = true ∧ 100 ≤ u_Satoshis (r_utxo r) ∧
    ∀ op' r', rows fresh !! op' = Some r' → claimable sc0 r' = true →
      100 ≤ u_Satoshis (r_utxo r') → no_worse (op2, r) (op', r').
Proof.
  destruct (claim_smallest_best_fit (H := range_canonical) clk0 sc0 "t1" 100 fresh
    _ _ eq_refl eq_refl (surjective_pairing _)) as (op&r&Hr&Hc&Hx&Hu&_&Hbest).
  assert (op = op2) as -> by (rewrite -(stored_at fresh op r fresh_ok Hr);
    apply (f_equal u_Outpoint) in Hu; by rewrite /= -Hu).
  by exists r.
Defined.

Lemma claim_largest_insufficient_order_witness :
  ∃ sel rest, length sel = 2%nat ∧
    (∀ op r, (op, r) ∈ sel ++ rest ↔
       rows fresh !! op = Some r ∧ claimable sc0 r = true ∧ u_Satoshis (r_utxo r) < 2000) ∧
    StronglySorted (λ a b, sats b < sats a ∨ sats a = sats b ∧ kseq b ≤ kseq a) (sel ++ rest).
Proof.
  destruct (claim_largest_insufficient_order (H := range_canonical) clk0 sc0 "t1" 2000 2 fresh
    _ _ eq_refl eq_refl eq_refl (surjective_pairing _)) as (sel&rest&Hin&Hs&_&Ho&_).
  exists sel, rest. split_and!; [|done..].
  apply (f_equal (λ o, match o with Ret us => length us | _ => 0%nat end)) in Ho.
  by rewrite length_imap in Ho.
Defined.

Lemma claim_exact_fifo_witness :
  ∃ sel rest, length sel = 1%nat ∧
    (∀ op r, (op, r) ∈ sel ++ rest ↔
       rows fresh !! op = Some r ∧ claimable sc0 r = true ∧ u_Satoshis (r_utxo r) = 1000) ∧
    StronglySorted (λ a b, kseq a ≤ kseq b) (sel ++ rest).
Proof.
  destruct (claim_exact_fifo (H := range_canonical) clk0 sc0 "t1" 1000 1 fresh
    _ _ eq_refl eq_refl eq_refl (surjective_pairing _)) as (sel&rest&Hin&Hs&_&_&Ho&_).
  exists sel, rest. split_and!; [|done..].
  apply (f_equal (λ o, match o with Ret us => length us | _ => 0%nat end)) in Ho.
  by rewrite length_imap in Ho.
Defined.

Lemma claims_order_independent_witness :
  @ClaimExact range_canonical clk0 sc0 "t2" 1000 1 claimed =
  @ClaimExact range_reversed clk0 sc0 "t2" 1000 1 claimed.
Proof.
  apply (claims_order_independent range_canonical range_reversed clk0 sc0 "t2" 1000 1 claimed).
  apply (reachable_wf (H := range_canonical)), claimed_reachable.
Defined.

Lemma claimed_coin_exclusive_witness :
  op2 ∉ u_Outpoint <$> handed_out (H := range_canonical)
    [CClaimExact clk0 sc0 "t2" 500 3; CReleaseReservation 7 "t2"] claimed.
Proof.
  apply (claimed_coin_exclusive (H := range_canonical) _ op2 7 "t1" claimed).
  - apply claimed_ok.
  - done.
  - eexists. ground.
  - repeat constructor; simpl; [tauto|]. by intros [_ ?].
Defined.

End StoreProps.
