(* ===== verification/StoreReplay.v ===== *)
(** * StoreReplay: replaying a call changes nothing

    The crash-recovery outbox replays store calls, so every call but a claim must
    be idempotent on the state.  The batch methods are loops that touch one key per
    item ([local_step]); their idempotency is one lemma of the prelude. *)
From S2P Require Import Prelude UtxoTypes MemStore StoreContract StoreProps.
Import MemStore StoreContract StoreExample.
Local Open Scope Z_scope.

Module StoreReplay.

(** ** The loops as local steps *)

Definition g_release (tok : string) (_ : Outpoint) (r : row) : option (option row) :=
  if decide (u_ReservedBy (r_utxo r) ≠ tok ∨ u_SpentBy (r_utxo r) ≠ None) then None
  else Some (Some (map_utxo (set_pinned false ∘ unreserve) r)).

Definition g_unspend (w : Hash) (_ : Outpoint) (r : row) : option (option row) :=
  if decide (u_SpentBy (r_utxo r) = Some w)
  then Some (Some (map_utxo (set_pinned false ∘ unreserve ∘ set_spentBy None) r)) else None.

Definition g_promote (to : Tier) (_ : Outpoint) (r : row) : option (option row) :=
  if u_Tier (r_utxo r) =? to then None else Some (Some (map_utxo (set_tier to) r)).

Definition g_frozen (b : bool) (_ : Outpoint) (r : row) : option (option row) :=
  if eqb (u_Frozen (r_utxo r)) b then None else Some (Some (map_utxo (set_frozen b) r)).

Definition g_remove (force : bool) (op : Outpoint) (r : row) : option (option row) :=
  match (if force then None else remove_refusal op (r_utxo r)) with
  | Some _ => None
  | None => Some None
  end.

Definition g_remove_mint (_ : Outpoint) (r : row) : option (option row) :=
  if decide (free (r_utxo r)) then Some None else None.

Definition g_spend (force : bool) (sp : SpendOp) (r : row) : option (option row) :=
  let u := r_utxo r in
  if decide (sp_Reservation sp = "" ∨ u_SpentBy u ≠ None) then None
  else if negb force && (u_Frozen u || bool_decide (u_ReservedBy u ≠ sp_Reservation sp)) then None
  else Some (Some (map_utxo (set_pinned false ∘ set_spentBy (Some (sp_SpendingTxID sp))) r)).

#[global] Instance free_dec u : Decision (free u).
Proof. rewrite /free. apply _. Defined.

Lemma release_loop_local tok ops (m : gmap Outpoint row) :
  foldl (release_one tok) m ops = foldl (local_step id (g_release tok)) m ops.
Proof.
  revert m. induction ops as [|op ops IH]; intros m; simpl; [done|]. rewrite IH. f_equal.
  rewrite /release_one /local_step /g_release /=. destruct (m !! op); [by case_decide|done].
Qed.

Lemma unspend_loop_local w ops z (m : gmap Outpoint row) :
  (foldl (unspend_one w) (z, m) ops).2 = foldl (local_step id (g_unspend w)) m ops.
Proof.
  revert z m. induction ops as [|op ops IH]; intros z m; simpl; [done|].
  rewrite /local_step /g_unspend /=. destruct (m !! op); [by case_decide|done].
Qed.

Lemma promote_loop_local to ops z (m : gmap Outpoint row) :
  (foldl (promote_one to) (z, m) ops).2 = foldl (local_step id (g_promote to)) m ops.
Proof.
  revert z m. induction ops as [|op ops IH]; intros z m; simpl; [done|].
  rewrite /local_step /g_promote /=. destruct (m !! op); [by case_match|done].
Qed.

Lemma frozen_loop_local b ops (m : gmap Outpoint row) :
  (frozen_loop b ops m).2 = foldl (local_step id (g_frozen b)) m ops.
Proof.
  revert m. induction ops as [|op ops IH]; intros m; simpl; [done|].
  rewrite /local_step /g_frozen /=. destruct (m !! op) as [r|] eqn:Hr; last first.
  { rewrite -IH. by destruct (frozen_loop b ops m). }
  rewrite IH. destruct (eqb_spec (u_Frozen (r_utxo r)) b) as [<-|]; [|done].
  rewrite insert_id //. rewrite Hr. by destruct r as [[]].
Qed.

Lemma remove_loop_local force ops (m : gmap Outpoint row) :
  (remove_loop force ops m).2 = foldl (local_step id (g_remove force)) m ops.
Proof.
  revert m. induction ops as [|op ops IH]; intros m; simpl; [done|].
  rewrite /local_step /g_remove /=. destruct (m !! op) as [r|]; [|done].
  destruct (if force then None else _); [|done]. rewrite -IH. by destruct (remove_loop force ops m).
Qed.

Lemma scan_mint_local ops st :
  scan_rows (foldl scan_mint st ops) = foldl (local_step id g_remove_mint) (scan_rows st) ops.
Proof.
  revert st. induction ops as [|op ops IH]; intros st; simpl; [done|]. rewrite IH. f_equal.
  rewrite /scan_mint /local_step /g_remove_mint /free /=.
  destruct (scan_rows st !! op) as [r|]; [|done].
  destruct (u_SpentBy (r_utxo r)); repeat case_decide; repeat case_match; naive_solver.
Qed.

Lemma spend_loop_local force sps (m : gmap Outpoint row) :
  (spend_loop force sps m).2 = foldl (local_step sp_Outpoint (g_spend force)) m sps.
Proof.
  revert m. induction sps as [|sp sps IH]; intros m; simpl; [done|].
  assert ((spendOne force sp m).2 = local_step sp_Outpoint (g_spend force) m sp) as <-.
  { rewrite /spendOne /local_step /g_spend /ValidateSpend.
    destruct (decide (sp_Reservation sp = "")).
    { destruct (m !! sp_Outpoint sp); [|done]. rewrite decide_True; [done|by left]. }
    destruct (m !! sp_Outpoint sp) as [r|]; [|done].
    destruct (u_SpentBy (r_utxo r)).
    { rewrite decide_True; [by case_match|by right]. }
    rewrite (decide_False (P := _ ∨ _)); [|naive_solver].
    destruct force; simpl; [done|]. destruct (u_Frozen (r_utxo r)); simpl; [done|].
    by case_bool_decide. }
  destruct (spendOne force sp m) as [e m']. simpl. rewrite -IH. by destruct (spend_loop force sps m').
Qed.

(** ** Replays of the batch methods *)

Lemma update_where_idem (P : row → bool) f (m : gmap Outpoint row) :
  (∀ r, P r = true → P (f r) = false) →
  (update_where P f (update_where P f m).1).1 = (update_where P f m).1.
Proof.
  intros HP. apply map_eq. intros k. rewrite !lookup_update_where.
  destruct (m !! k) as [r|]; simpl; [|done]. destruct (P r) eqn:E; [|by rewrite E].
  by rewrite HP.
Qed.

Lemma delete_where_idem (P : row → bool) (m : gmap Outpoint row) :
  (delete_where P (delete_where P m).1).1 = (delete_where P m).1.
Proof.
  apply map_eq. intros k. rewrite !lookup_delete_where.
  destruct (m !! k) as [r|]; simpl; [|done]. destruct (P r) eqn:E; simpl; [done|by rewrite E].
Qed.

(** A minted, valid item leaves a row behind, and later items keep it. *)
Lemma mintOne_present clk m n s :
  (mintOne clk m n s).1 = None ∨ is_Some (rows s !! m_Outpoint m) ∨ is_Some (ValidateMint m).
Proof.
  rewrite /mintOne. destruct (ValidateMint m); [by right; right|].
  destruct (rows s !! m_Outpoint m); [by right; left|by left].
Qed.

Lemma mintOne_noop clk m n s :
  is_Some (rows s !! m_Outpoint m) ∨ is_Some (ValidateMint m) → (mintOne clk m n s).2 = (n, s).
Proof.
  rewrite /mintOne. intros Hor. destruct (ValidateMint m) eqn:Hv; [done|].
  destruct Hor as [[r Hr]|[? ?]]; [|done]. rewrite Hr. by case_bool_decide.
Qed.

Lemma mintOne_grows clk m n s k :
  is_Some (rows s !! k) → is_Some (rows (mintOne clk m n s).2.2 !! k).
Proof.
  intros Hk. rewrite /mintOne. destruct (ValidateMint m); [done|].
  destruct (rows s !! m_Outpoint m); [by case_bool_decide|]. simpl.
  apply lookup_insert_is_Some'. by right.
Qed.

Lemma mintOne_done clk m n s :
  is_Some (rows (mintOne clk m n s).2.2 !! m_Outpoint m) ∨ is_Some (ValidateMint m).
Proof.
  rewrite /mintOne. destruct (ValidateMint m); [by right|left].
  destruct (rows s !! m_Outpoint m) eqn:Hr; [by case_bool_decide; simpl; rewrite Hr|].
  simpl. by rewrite lookup_insert_eq.
Qed.

Lemma mint_loop_done clk ms n s m :
  (m ∈ ms ∨ is_Some (rows s !! m_Outpoint m) ∨ is_Some (ValidateMint m)) →
  is_Some (rows (mint_loop clk ms n s).2 !! m_Outpoint m) ∨ is_Some (ValidateMint m).
Proof.
  revert n s. induction ms as [|m' ms IH]; intros n s Hor; simpl.
  { by destruct Hor as [[]%not_elem_of_nil|?]. }
  pose proof (mintOne_grows clk m' n s) as Hg. pose proof (mintOne_done clk m' n s) as Hd.
  destruct (mintOne clk m' n s) as [e [n' s']]. specialize (IH n' s').
  destruct (mint_loop clk ms n' s') as [es s'']; simpl in *. apply IH.
  destruct Hor as [[->|?]%elem_of_cons|[?|?]]; auto.
Qed.

Lemma mint_loop_noop clk ms n s :
  (∀ m, m ∈ ms → is_Some (rows s !! m_Outpoint m) ∨ is_Some (ValidateMint m)) →
  (mint_loop clk ms n s).2 = s.
Proof.
  revert n. induction ms as [|m ms IH]; intros n Hall; simpl; [done|].
  pose proof (mintOne_noop clk m n s (Hall m ltac:(left))) as Hn.
  destruct (mintOne clk m n s) as [e p]; simpl in Hn; subst p.
  specialize (IH n). destruct (mint_loop clk ms n s) as [es s'']; simpl in *.
  apply IH. intros. apply Hall. by right.
Qed.

Lemma mint_loop_closed clk ms n s : closed (mint_loop clk ms n s).2 = closed s.
Proof.
  revert n s. induction ms as [|m ms IH]; intros n s; simpl; [done|].
  assert (closed (mintOne clk m n s).2.2 = closed s) as Hc.
  { rewrite /mintOne. repeat case_match; done. }
  destruct (mintOne clk m n s) as [e [n' s']]; simpl in *.
  specialize (IH n' s'). destruct (mint_loop clk ms n' s'); simpl in *. congruence.
Qed.

Lemma classify_replay uid tok ops (m : gmap Outpoint row) now :
  tok ≠ "" → (classify uid tok m ops).1 = [] →
  classify uid tok (foldl (stamp tok now) m (classify uid tok m ops).2) ops = ([], []).
Proof.
  intros Htok Hnil.
  assert (∀ op, op ∈ ops →
    reserve_verdict uid tok op (foldl (stamp tok now) m (classify uid tok m ops).2) = Satisfied) as Hsat.
  { intros op Hop. rewrite /reserve_verdict foldl_stamp_lookup.
    assert (∀ ops', op ∈ ops' → (classify uid tok m ops').1 = [] →
      ∀ e, reserve_verdict uid tok op m ≠ Refuse e) as Hnr.
    { clear. induction ops' as [|o ops' IH]; simpl; [by intros []%not_elem_of_nil|].
      destruct (classify uid tok m ops') as [es st]. intros Hin Hes e He.
      destruct (reserve_verdict uid tok o m) eqn:Hv; simplify_eq/=;
        apply elem_of_cons in Hin as [->|Hin]; try congruence; by eapply IH. }
    specialize (Hnr ops Hop Hnil).
    case_decide as Hin.
    - apply classify_stamp in Hin as [_ (r&->&Hu&[Hr Hs]&Hf)%reserve_verdict_Stamp]. simpl.
      rewrite decide_False; [|naive_solver]. rewrite Hs Hf.
      rewrite decide_False; [|naive_solver]. by rewrite decide_True.
    - rewrite classify_stamp in Hin. unfold reserve_verdict in *.
      destruct (m !! op) as [r|]; [|naive_solver]. repeat case_decide; try naive_solver.
      all: destruct (u_SpentBy (r_utxo r)); [naive_solver|].
      all: destruct (u_Frozen (r_utxo r)); naive_solver. }
  revert Hsat. generalize (foldl (stamp tok now) m (classify uid tok m ops).2). clear.
  intros m' Hsat. induction ops as [|op ops IH]; simpl; [done|].
  rewrite IH; [|intros; apply Hsat; by right]. by rewrite Hsat; [|left].
Qed.

(** ** Replaying any call *)

Lemma replay_rows (f : Store → Store) (F : gmap Outpoint row → gmap Outpoint row) :
  (∀ s, closed s = true → f s = s) →
  (∀ s, closed s = false → f s = with_rows (F (rows s)) s) →
  (∀ m, F (F m) = F m) → ∀ s, f (f s) = f s.
Proof.
  intros Hc Ho HF s. destruct (closed s) eqn:E; [by rewrite !Hc|].
  rewrite (Ho s) // (Ho (with_rows _ _)) //. by rewrite /with_rows /= HF.
Qed.

Section replay.
Context `{MapRange}.

(** Reduces a replay goal to the idempotency of the loop [F] on the row map. *)
Ltac replay_with f F :=
  refine (replay_rows (λ s, (f s).2) F _ _ _);
  [intros ? Hc; rewrite snd_guard_open Hc; done
  |intros ? Hc; rewrite snd_guard_open Hc ?snd_guard_valid|].

Lemma Remove_replay ops force s : (Remove ops force (Remove ops force s).2).2 = (Remove ops force s).2.
Proof.
  revert s. replay_with (Remove ops force) (λ m, (remove_loop force ops m).2).
  - by destruct (remove_loop _ _ _).
  - intros m. rewrite !remove_loop_local. apply foldl_local_idem.
    rewrite /g_remove. intros. by repeat case_match.
Qed.

Lemma ReleaseReservation_replay uid tok s :
  (ReleaseReservation uid tok (ReleaseReservation uid tok s).2).2 = (ReleaseReservation uid tok s).2.
Proof.
  revert s. destruct (ValidateReservation tok) eqn:Hv.
  { intros s. rewrite /ReleaseReservation !snd_guard_open !snd_guard_valid Hv.
    by destruct (closed s) eqn:E; rewrite ?E. }
  apply ValidateReservation_None in Hv as Htok.
  replay_with (ReleaseReservation uid tok) (λ m : gmap Outpoint row, (update_where (λ r, heldBy uid tok r && negb (u_Pinned (r_utxo r)))
    (map_utxo unreserve) m).1); [by rewrite Hv|].
  intros m. apply update_where_idem. intros r _. rewrite /heldBy bool_decide_eq_false_2 //. naive_solver.
Qed.

Lemma setPinned_replay uid tok b s :
  (setPinned uid tok b (setPinned uid tok b s).2).2 = (setPinned uid tok b s).2.
Proof.
  revert s. destruct (ValidateReservation tok) eqn:Hv.
  { intros s. rewrite /setPinned !snd_guard_open !snd_guard_valid Hv.
    by destruct (closed s) eqn:E; rewrite ?E. }
  replay_with (setPinned uid tok b) (λ m : gmap Outpoint row, (update_where (λ r, heldBy uid tok r && negb (eqb (u_Pinned (r_utxo r)) b))
    (map_utxo (set_pinned b)) m).1); [by rewrite Hv|].
  intros m. apply update_where_idem. intros r _. simpl. rewrite eqb_reflx. apply andb_false_r.
Qed.

Lemma ReleaseOutpoints_replay tok ops s :
  (ReleaseOutpoints tok ops (ReleaseOutpoints tok ops s).2).2 = (ReleaseOutpoints tok ops s).2.
Proof.
  revert s. destruct (ValidateReservation tok) eqn:Hv.
  { intros s. rewrite /ReleaseOutpoints !snd_guard_open !snd_guard_valid Hv.
    by destruct (closed s) eqn:E; rewrite ?E. }
  apply ValidateReservation_None in Hv as Htok.
  replay_with (ReleaseOutpoints tok ops) (λ m, foldl (release_one tok) m ops); [by rewrite Hv|].
  intros m. rewrite !release_loop_local. apply foldl_local_idem.
  rewrite /g_release. intros x y v v' _ _ _. case_decide; [done|]. intros [= <-].
  rewrite decide_True //. left. simpl. congruence.
Qed.

Lemma Unspend_replay w ops s : (Unspend w ops (Unspend w ops s).2).2 = (Unspend w ops s).2.
Proof.
  revert s. replay_with (Unspend w ops) (λ m, (foldl (unspend_one w) (0, m) ops).2).
  - by destruct (foldl _ _ _).
  - intros m. rewrite !unspend_loop_local. apply foldl_local_idem.
    rewrite /g_unspend. intros x y v v' _ _ _. case_decide; [|done]. by intros [= <-].
Qed.

Lemma RemoveSpentBy_replay w s : (RemoveSpentBy w (RemoveSpentBy w s).2).2 = (RemoveSpentBy w s).2.
Proof.
  revert s. replay_with (RemoveSpentBy w) (λ m : gmap Outpoint row, (delete_where (spentBy w) m).1); [done|].
  intros m. apply delete_where_idem.
Qed.

Lemma Promote_replay ops to s : (Promote ops to (Promote ops to s).2).2 = (Promote ops to s).2.
Proof.
  revert s. destruct (Tier_Valid to) eqn:Hv.
  - replay_with (Promote ops to) (λ m, (foldl (promote_one to) (0, m) ops).2).
    + rewrite Hv /=. by destruct (foldl _ _ _).
    + intros m. rewrite !promote_loop_local. apply foldl_local_idem.
      rewrite /g_promote. intros x y v v' _ _ _. case_match; [done|]. intros [= <-].
      by rewrite /= Z.eqb_refl.
  - intros s. rewrite /Promote !snd_guard_open Hv. by destruct (closed s) eqn:E; rewrite /= ?E.
Qed.

Lemma RemoveByMintTx_replay w ops s :
  (RemoveByMintTx w ops (RemoveByMintTx w ops s).2).2 = (RemoveByMintTx w ops s).2.
Proof.
  revert s. destruct (ValidateMintOutpoints w ops) eqn:Hv.
  { intros s. rewrite /RemoveByMintTx !snd_guard_open !snd_guard_valid Hv.
    by destruct (closed s) eqn:E; rewrite ?E. }
  replay_with (RemoveByMintTx w ops) (λ m, scan_rows (foldl scan_mint (mkScan m ∅ [] ∅ [] []) ops)); [by rewrite Hv|].
  intros m. rewrite !scan_mint_local /=. apply foldl_local_idem.
  rewrite /g_remove_mint. intros. by case_decide.
Qed.

Lemma setFrozen_replay ops b s : (setFrozen ops b (setFrozen ops b s).2).2 = (setFrozen ops b s).2.
Proof.
  revert s. replay_with (setFrozen ops b) (λ m, (frozen_loop b ops m).2).
  - by destruct (frozen_loop _ _ _).
  - intros m. rewrite !frozen_loop_local. apply foldl_local_idem.
    rewrite /g_frozen. intros x y v v' _ _ _. case_match; [done|]. intros [= <-].
    by rewrite /= eqb_reflx.
Qed.

Lemma Spend_replay sps force s : (Spend sps force (Spend sps force s).2).2 = (Spend sps force s).2.
Proof.
  revert s. refine (replay_rows (λ s, (Spend sps force s).2) (λ m, (spend_loop force sps m).2) _ _ _).
  - intros s Hc. by rewrite /Spend Hc.
  - intros s Hc. rewrite /Spend Hc. by destruct (spend_loop _ _ _).
  - intros m. rewrite !spend_loop_local. apply foldl_local_idem.
    rewrite /g_spend. intros x y v v' _ _ _. case_decide; [done|]. case_match; [done|].
    intros [= <-]. rewrite decide_True //. by right.
Qed.

Lemma Mint_replay clk clk' ms s : (Mint clk' ms (Mint clk ms s).2).2 = (Mint clk ms s).2.
Proof.
  assert (∀ clk s, (Mint clk ms s).2 = if closed s then s else (mint_loop clk ms 0 s).2) as HM.
  { intros clk0' s'. rewrite /Mint. destruct (closed s'); [done|]. by destruct (mint_loop _ _ _ _). }
  rewrite !HM. destruct (closed s) eqn:E; [by rewrite E|]. rewrite mint_loop_closed E.
  apply mint_loop_noop. intros m Hm. apply mint_loop_done. by left.
Qed.

Lemma ReserveOutpoints_replay clk clk' uid tok ops s :
  (ReserveOutpoints clk' uid tok ops (ReserveOutpoints clk uid tok ops s).2).2 =
  (ReserveOutpoints clk uid tok ops s).2.
Proof.
  rewrite /ReserveOutpoints !snd_guard_open !snd_guard_valid /ValidateReserveOutpoints.
  destruct (closed s) eqn:E; [by rewrite E|].
  destruct (ValidateReservation tok) eqn:Hv; [by rewrite E|].
  case_decide; [by rewrite E|]. apply ValidateReservation_None in Hv.
  pose proof (classify_replay uid tok (distinctOutpoints ops) (rows s) (clk 0%nat) Hv) as Hr.
  destruct (classify uid tok (rows s) (distinctOutpoints ops)) as [[|e es] st] eqn:Hcl; simpl.
  - by rewrite E Hr.
  - by rewrite E Hcl.
Qed.

(** Only [Close] closes the store. *)
Lemma exec_closed c s :
  c ≠ CClose → closed (exec c s) = closed s.
Proof.
  destruct c; simpl; try done; intros _.
  1:{ rewrite /Mint. destruct (closed s) eqn:Hc; [done|].
      pose proof (mint_loop_closed clk ms 0 s) as Hm.
      destruct (mint_loop clk ms 0 s). simpl in *. congruence. }
  all: rewrite ?/Remove ?/ClaimSmallestSufficient ?/ClaimLargestInsufficient
      ?/ClaimExact ?/ReserveOutpoints ?/ReleaseReservation
      ?/ReleaseOutpoints ?/Pin ?/Unpin
      ?/setPinned ?/Spend ?/Unspend ?/RemoveSpentBy
      ?/Promote ?/RemoveByMintTx ?/Freeze
      ?/Unfreeze ?/setFrozen ?snd_guard_open ?snd_guard_valid;
    repeat case_match; done.
Qed.

(** The call made again, when the clock reads [clk]. *)
Definition again (clk : nat → Time) (c : call) : call :=
  match c with
  | CMint _ ms => CMint clk ms
  | CClaimSmallestSufficient _ sc tok x => CClaimSmallestSufficient clk sc tok x
  | CClaimLargestInsufficient _ sc tok x n => CClaimLargestInsufficient clk sc tok x n
  | CClaimExact _ sc tok x n => CClaimExact clk sc tok x n
  | CReserveOutpoints _ uid tok ops => CReserveOutpoints clk uid tok ops
  | c => c
  end.

(** C30: replay.  Making any call of the interface a second time with the same
    arguments, at whatever time, leaves the store exactly as the first run left it;
    the three claim shapes are the only exception.  So a replayed reservation keeps
    the time it was first made, and a replayed mint the time of its coin.  This is
    what lets the crash-recovery outbox replay its rows. *)
Theorem replay_idempotent clk c s : claim_of c = None → exec (again clk c) (exec c s) = exec c s.
Proof.
  destruct c; intros ?; try done; simpl exec;
    auto using Mint_replay, Remove_replay, ReserveOutpoints_replay, ReleaseReservation_replay,
      ReleaseOutpoints_replay, setPinned_replay, Spend_replay, Unspend_replay,
      RemoveSpentBy_replay, Promote_replay, RemoveByMintTx_replay, setFrozen_replay.
  - apply setPinned_replay.
  - apply setPinned_replay.
  - apply setFrozen_replay.
  - apply setFrozen_replay.
Qed.
End replay.

(** A reservation made at 100 and again at 500 was made at 100. *)
Lemma replay_idempotent_witness :
  let c := CReserveOutpoints clk0 7 "t1" [op1; op2] in
  let later (n : nat) := 500 + Z.of_nat n in
  u_ReservedAt <$> coin (exec (H := range_canonical) c fresh) op1 = Some 100 ∧
  exec (H := range_canonical) (CReserveOutpoints later 7 "t1" [op1; op2]) (exec (H := range_canonical) c fresh) =
    exec (H := range_canonical) c fresh.
Proof.
  cbv zeta. split; [vm_compute; reflexivity|].
  apply (replay_idempotent (H := range_canonical) (λ n, 500 + Z.of_nat n) (CReserveOutpoints clk0 7 "t1" [op1; op2]) fresh).
  reflexivity.
Defined.

End StoreReplay.
