(* ===== verification/StoreLifecycle.v ===== *)
(** * StoreLifecycle: invariant, refinement, reservations and pins

    The invariant and refinement theorems of the store, the all-or-nothing
    reservation of named outpoints, and what the two janitor entry points may see
    and free. *)
From S2P Require Import Prelude UtxoTypes MemStore StoreContract StoreProps.
Import MemStore StoreContract StoreExample StoreProps.
Local Open Scope Z_scope.

Module StoreLifecycle.

(** What a refused ReserveOutpoints reports: one verdict per distinct outpoint. *)
Definition refusals (uid : Z) (tok : string) (m : gmap Outpoint row) (ops : list Outpoint) :
    list error :=
  omap (λ op, match reserve_verdict uid tok op m with Refuse e => Some e | _ => None end)
    (distinctOutpoints ops).

(** The rows FindStale counts into the reservation [(uid, tok)]. *)
Definition counted (includePinned : bool) (uid : Z) (tok : string) (u : UTXO) : Prop :=
  held uid tok u ∧ tok ≠ "" ∧ (u_Pinned u = true → includePinned = true).

Section invariant_theorems.
Context `{MapRange}.

(** in every state reachable from an empty store by any sequence of calls,
    each row sits under its own outpoint, has a positive owner, a named basket and
    a defined tier, is pinned only while reserved and unspent, carries a
    reservation time only while reserved, and has an insertion number of its own. *)
Theorem reachable_store_invariant s :
  reachable s →
  (∀ op u, coin s op = Some u →
     u_Outpoint u = op ∧ 0 < u_UserID u ∧ u_Basket u ≠ "" ∧ Tier_Valid (u_Tier u) = true ∧
     (u_Pinned u = true → u_ReservedBy u ≠ "" ∧ u_SpentBy u = None) ∧
     (u_ReservedBy u = "" → u_ReservedAt u = zeroTime)) ∧
  (∀ op1 op2 r1 r2, rows s !! op1 = Some r1 → rows s !! op2 = Some r2 →
     r_seq r1 = r_seq r2 → op1 = op2).
Proof. intros [Hc (_&_&Hi)]%reachable_wf. by split. Qed.

(** C1: refinement.  Whatever call runs on whatever state, the coin at each
    outpoint only changes by steps the interface documents for that call: it is
    created by Mint, taken by a claim or ReserveOutpoints only when free and not
    frozen, released only by its own token and, by ReleaseReservation, only when
    unpinned, spent only out of an unspent state, given back by Unspend only to its
    recorded spender, and deleted only by the three removals. *)
Theorem every_call_refines_lifecycle c s op :
  evolves c op (coin s op) (coin (exec c s) op).
Proof. apply exec_coin_rel. Qed.
End invariant_theorems.

(** ** ReserveOutpoints *)

Lemma classify_errors uid tok m ops :
  (classify uid tok m ops).1 =
  omap (λ op, match reserve_verdict uid tok op m with Refuse e => Some e | _ => None end) ops.
Proof.
  induction ops as [|op ops IH]; [done|]. csimpl. rewrite -IH.
  destruct (classify uid tok m ops) as [es st]; simpl.
  by destruct (reserve_verdict uid tok op m).
Qed.

Lemma distinct_from_elem seen ops op :
  op ∈ distinct_from seen ops ↔ op ∈ ops ∧ op ∉ seen.
Proof.
  revert seen. induction ops as [|o ops IH]; intros seen; simpl; [set_solver|].
  case_decide; rewrite ?elem_of_cons IH; [set_solver|].
  destruct (decide (op = o)); set_solver.
Qed.

Lemma distinctOutpoints_elem ops op : op ∈ distinctOutpoints ops ↔ op ∈ ops.
Proof. rewrite /distinctOutpoints distinct_from_elem. set_solver. Qed.

Lemma distinct_from_NoDup seen ops : NoDup (distinct_from seen ops).
Proof.
  revert seen. induction ops as [|o ops IH]; intros seen; simpl; [constructor|].
  case_decide; [done|]. constructor; [|done]. rewrite distinct_from_elem. set_solver.
Qed.

Lemma reserve_verdict_ok uid tok op m :
  (∀ e, reserve_verdict uid tok op m ≠ Refuse e) →
  ∃ r, m !! op = Some r ∧ u_UserID (r_utxo r) = uid ∧ u_SpentBy (r_utxo r) = None ∧
    u_Frozen (r_utxo r) = false ∧
    (u_ReservedBy (r_utxo r) = "" ∨ u_ReservedBy (r_utxo r) = tok).
Proof.
  rewrite /reserve_verdict => Hno. destruct (m !! op) as [r|]; [|by destruct (Hno _ eq_refl)].
  exists r. case_decide; [by destruct (Hno _ eq_refl)|].
  destruct (u_SpentBy (r_utxo r)); [by destruct (Hno _ eq_refl)|].
  case_decide as Hd; [by destruct (Hno _ eq_refl)|].
  destruct (u_Frozen (r_utxo r)); [by destruct (Hno _ eq_refl)|].
  split_and!; try done.
  destruct (decide (u_ReservedBy (r_utxo r) = "")); [by left|right].
  apply dec_stable. by intros ?; destruct Hd.
Qed.

(** When nothing is refused, stamping holds every named coin and no other. *)
Lemma stamps_hold uid tok ops st now (m : gmap Outpoint row) :
  tok ≠ "" → classify uid tok m (distinctOutpoints ops) = ([], st) →
  (∀ op, op ∈ ops → ∃ r r', m !! op = Some r ∧ foldl (stamp tok now) m st !! op = Some r' ∧
     held uid tok (r_utxo r') ∧ u_Frozen (r_utxo r') = false ∧ (u_ReservedBy (r_utxo r) = tok → r' = r)) ∧
  (∀ op, op ∉ ops → foldl (stamp tok now) m st !! op = m !! op).
Proof.
  intros Htok Hcl. pose proof (classify_errors uid tok m (distinctOutpoints ops)) as Hes.
  pose proof (λ op, classify_stamp uid tok m (distinctOutpoints ops) op) as Hst.
  rewrite Hcl /= in Hes, Hst. split.
  - intros op Hop. rewrite -distinctOutpoints_elem in Hop. rewrite foldl_stamp_lookup.
    destruct (reserve_verdict_ok uid tok op m) as (r&Hr&Hu&Hs&Hf&Hor).
    { intros e He. eapply (not_elem_of_nil e). rewrite Hes.
      apply list_elem_of_omap. exists op. by rewrite He. }
    exists r. rewrite Hr. case_decide as Hin; eexists; split_and!; try done.
    + intros Ht. apply Hst in Hin as [_ (r'&?&_&[Hfree _]&_)%reserve_verdict_Stamp].
      simplify_eq.
    + split_and!; try done. destruct Hor as [Hfree|?]; [|done]. destruct Hin. apply Hst.
      split; [done|]. rewrite /reserve_verdict Hr decide_False; [|naive_solver].
      rewrite Hs Hf. rewrite decide_False; [|naive_solver]. rewrite decide_False; naive_solver.
  - intros op Hop. rewrite foldl_stamp_lookup decide_False //.
    rewrite Hst distinctOutpoints_elem. naive_solver.
Qed.

(** ReserveOutpoints on an open store is all-or-nothing.  If any named outpoint
    is missing, foreign, spent, held by another token or frozen, the call reports
    one refusal per distinct offending outpoint and changes nothing; otherwise
    every named coin ends up held by exactly this owner and token, coins already
    held keep their reservation time, and no other row changes. *)
Theorem reserve_outpoints_all_or_nothing clk uid tok ops s o s' :
  closed s = false → tok ≠ "" → ops ≠ [] →
  ReserveOutpoints clk uid tok ops s = (o, s') →
  (refusals uid tok (rows s) ops ≠ [] ∧
   o = Err (ErrBatchJoin (refusals uid tok (rows s) ops)) ∧ s' = s) ∨
  (refusals uid tok (rows s) ops = [] ∧ o = Ret () ∧
   (∀ op, op ∈ ops → ∃ u u', coin s op = Some u ∧ coin s' op = Some u' ∧
      held uid tok u' ∧ u_Frozen u' = false ∧ (u_ReservedBy u = tok → u' = u)) ∧
   (∀ op, op ∉ ops → rows s' !! op = rows s !! op)).
Proof.
  intros Hopen Htok Hops. rewrite /ReserveOutpoints /guard_open Hopen /ValidateReserveOutpoints.
  rewrite (proj2 (ValidateReservation_None tok) Htok) decide_False; [|by destruct ops].
  simpl. rewrite /refusals -classify_errors. destruct (classify _ _ _ _) as [es st] eqn:Hcl; simpl.
  destruct es as [|e es]; intros [= <- <-]; [right|left; done].
  destruct (stamps_hold uid tok ops st (clk 0%nat) (rows s) Htok Hcl) as [Hin Hout].
  split_and!; [done..| |done]. intros op Hop. destruct (Hin op Hop) as (r&r'&Hr&Hr'&Hh&Hf&Hk).
  exists (r_utxo r), (r_utxo r'). rewrite /coin /= Hr Hr'. split_and!; try done.
  intros Ht. by rewrite (Hk Ht).
Qed.

(** ** Stale reservations *)

#[global] Instance counted_dec b uid tok u : Decision (counted b uid tok u).
Proof. rewrite /counted /held. apply _. Defined.

(** The row of an entry is counted into the group [k]. *)
Definition counts_in (b : bool) (k : Z * string) (kr : Outpoint * row) : Prop :=
  counted b k.1 k.2 (r_utxo kr.2).
#[global] Instance counts_in_dec b k kr : Decision (counts_in b k kr).
Proof. rewrite /counts_in. apply _. Defined.

(** What a gathered group says about the entries visited so far. *)
Definition group_ok (b : bool) (k : Z * string) (l : list (Outpoint * row)) (o : option group) : Prop :=
  match o with
  | None => filter (counts_in b k) l = []
  | Some g =>
      ref_UserID (g_ref g) = k.1 ∧ ref_Reservation (g_ref g) = k.2 ∧
      ref_Outpoints (g_ref g) = (λ kr, u_Outpoint (r_utxo kr.2)) <$> filter (counts_in b k) l ∧
      (∀ kr, kr ∈ filter (counts_in b k) l → ref_ReservedAt (g_ref g) ≤ u_ReservedAt (r_utxo kr.2)) ∧
      (∃ kr, kr ∈ filter (counts_in b k) l ∧ ref_ReservedAt (g_ref g) = u_ReservedAt (r_utxo kr.2))
  end.

Lemma stale_step_counts b k kr G :
  counts_in b k kr →
  ∃ g, stale_step b G kr !! k = Some g ∧
    let g0 := default (mkGroup (mkRef k.2 k.1 (u_ReservedAt (r_utxo kr.2)) []) (kseq kr)) (G !! k) in
    g_ref g = extend_ref (u_Outpoint (r_utxo kr.2)) (r_utxo kr.2) (g_ref g0).
Proof.
  intros [(Hu&Ht&Hs) [Hne Hp]]. rewrite /stale_step.
  rewrite decide_False; [|intros [?|?]; congruence].
  destruct (u_Pinned (r_utxo kr.2) && negb b) eqn:E.
  { apply andb_prop in E as [E1%Hp E2]. by rewrite E1 in E2. }
  rewrite Hu Ht -surjective_pairing. eexists. by rewrite lookup_insert_eq.
Qed.

Lemma stale_step_other b k kr G :
  ¬ counts_in b k kr → stale_step b G kr !! k = G !! k.
Proof.
  intros Hno. rewrite /stale_step. case_decide as Hd; [done|].
  apply Decidable.not_or in Hd as [Hd1 Hd2%dec_stable].
  destruct (u_Pinned (r_utxo kr.2) && negb b) eqn:E; [done|].
  apply lookup_insert_ne. intros <-. apply Hno. split; [done|]. split; [done|].
  simpl. intros Hp. rewrite Hp in E. by destruct b.
Qed.

Lemma stale_fold_ok b k l G done_ :
  group_ok b k done_ (G !! k) → group_ok b k (done_ ++ l) (foldl (stale_step b) G l !! k).
Proof.
  revert G done_. induction l as [|kr l IH]; intros G done_ HG; simpl; [by rewrite app_nil_r|].
  rewrite (assoc_L (++) done_ [kr] l). apply IH.
  rewrite /group_ok filter_app filter_cons filter_nil.
  destruct (decide (counts_in b k kr)) as [Hin|Hout]; last first.
  { rewrite stale_step_other // app_nil_r. exact HG. }
  destruct (stale_step_counts b k kr G Hin) as (g&->&Hg). rewrite Hg /extend_ref /=.
  rewrite /group_ok in HG. destruct (G !! k) as [g0|]; simpl.
  - destruct HG as (?&?&->&Hle&kr0&Hkr0&Heq). rewrite fmap_app. split_and!; try done.
    + intros kr' [?%Hle| ->%list_elem_of_singleton]%elem_of_app;
        destruct (Z.ltb_spec (u_ReservedAt (r_utxo kr.2)) (ref_ReservedAt (g_ref g0))); lia.
    + destruct (Z.ltb_spec (u_ReservedAt (r_utxo kr.2)) (ref_ReservedAt (g_ref g0))).
      * exists kr. rewrite elem_of_app list_elem_of_singleton. auto.
      * exists kr0. rewrite elem_of_app. auto.
  - rewrite HG Z.ltb_irrefl. split_and!; try done.
    + intros kr' ->%list_elem_of_singleton. lia.
    + exists kr. by rewrite list_elem_of_singleton.
Qed.

Lemma cmp_group_le a b :
  cmp_le cmp_group a b ↔
  ref_ReservedAt (g_ref a) < ref_ReservedAt (g_ref b) ∨
  ref_ReservedAt (g_ref a) = ref_ReservedAt (g_ref b) ∧ g_minSeq a ≤ g_minSeq b.
Proof.
  rewrite /cmp_le /cmp_group.
  destruct (Z.compare_spec (ref_ReservedAt (g_ref a)) (ref_ReservedAt (g_ref b)));
    [|naive_solver lia..].
  destruct (Z.compare_spec (g_minSeq a) (g_minSeq b)); naive_solver lia.
Qed.
#[global] Instance cmp_group_trans : Transitive (cmp_le cmp_group).
Proof. intros x y z. rewrite !cmp_group_le. lia. Qed.
#[global] Instance cmp_group_total : Total (cmp_le cmp_group).
Proof. intros x y. rewrite !cmp_group_le. lia. Qed.

Section stale.
Context `{MapRange}.

(** A gathered group lists exactly the live rows of its reservation. *)
Lemma gathered_group b s k g :
  coins_ok s →
  foldl (stale_step b) ∅ (range_map (rows s)) !! k = Some g →
  ref_UserID (g_ref g) = k.1 ∧ ref_Reservation (g_ref g) = k.2 ∧
  (∀ op, op ∈ ref_Outpoints (g_ref g) ↔ ∃ u, coin s op = Some u ∧ counted b k.1 k.2 u) ∧
  (∀ op u, coin s op = Some u → counted b k.1 k.2 u → ref_ReservedAt (g_ref g) ≤ u_ReservedAt u) ∧
  (∃ op u, coin s op = Some u ∧ counted b k.1 k.2 u ∧ ref_ReservedAt (g_ref g) = u_ReservedAt u).
Proof.
  intros Hok Hg. pose proof (stale_fold_ok b k (range_map (rows s)) ∅ []) as Hgrp.
  rewrite Hg lookup_empty in Hgrp. destruct Hgrp as (?&?&Hops&Hle&kr&Hkr&Heq); [done|].
  assert (∀ op r, (op, r) ∈ filter (counts_in b k) (range_map (rows s)) ↔
    rows s !! op = Some r ∧ counted b k.1 k.2 (r_utxo r)) as Hin.
  { intros op r. rewrite list_elem_of_filter range_map_elem /counts_in /=. naive_solver. }
  split_and!; [done..| | |].
  - intros op. rewrite Hops list_elem_of_fmap. split.
    + intros ([op' r]&->&[Hr ?]%Hin). exists (r_utxo r). simpl.
      rewrite (stored_at s op' r) //. by rewrite /coin Hr.
    + intros (u&Hu&?). rewrite /coin in Hu. destruct (rows s !! op) as [r|] eqn:Hr; simplify_eq/=.
      exists (op, r). rewrite Hin /= (stored_at s op r) //.
  - intros op u Hu ?. rewrite /coin in Hu. destruct (rows s !! op) as [r|] eqn:Hr; simplify_eq/=.
    apply (Hle (op, r)). by rewrite Hin.
  - destruct kr as [op r]. apply Hin in Hkr as [Hr ?]. exists op, (r_utxo r).
    by rewrite /coin Hr.
Qed.

Lemma findStale_spec b olderThan limit s refs s' ref :
  coins_ok s → findStale olderThan limit b s = (Ret refs, s') → ref ∈ refs →
  (∀ op, op ∈ ref_Outpoints ref ↔
     ∃ u, coin s op = Some u ∧ counted b (ref_UserID ref) (ref_Reservation ref) u) ∧
  ref_ReservedAt ref < olderThan ∧
  (∀ op u, coin s op = Some u → counted b (ref_UserID ref) (ref_Reservation ref) u →
     ref_ReservedAt ref ≤ u_ReservedAt u).
Proof.
  rewrite /findStale /guard_open => Hok. destruct (closed s); [done|].
  destruct (limit <=? 0); intros [= <- <-]; [by intros ?%not_elem_of_nil|].
  intros (g&->&Hg)%list_elem_of_fmap. apply slice_to_subseteq in Hg.
  rewrite SortFunc_perm in Hg. apply list_elem_of_filter in Hg as [Ho Hg].
  apply list_elem_of_fmap in Hg as ([k g']&->&Hg). apply range_map_elem in Hg.
  destruct (gathered_group b s k g' Hok Hg) as (Hu&Ht&Hops&Hle&_). simpl.
  rewrite Hu Ht. by split_and!.
Qed.

(** The stale-reservation listing is exact.  Every reported reservation names
    precisely the unspent rows its owner and token hold (the unpinned ones, for the
    ordinary listing), is dated by the oldest of them, and that date is before the
    cut-off; the report is ordered oldest first; and unless it was truncated at the
    limit, every held row older than the cut-off is in it. *)
Theorem find_stale_exact b olderThan limit s refs s' :
  coins_ok s → closed s = false → 0 < limit →
  findStale olderThan limit b s = (Ret refs, s') →
  s' = s ∧ Z.of_nat (length refs) ≤ limit ∧
  StronglySorted (λ a b, ref_ReservedAt a ≤ ref_ReservedAt b) refs ∧
  (∀ ref, ref ∈ refs →
     ref_ReservedAt ref < olderThan ∧
     ∀ op, op ∈ ref_Outpoints ref ↔
       ∃ u, coin s op = Some u ∧ counted b (ref_UserID ref) (ref_Reservation ref) u) ∧
  (Z.of_nat (length refs) < limit → ∀ op u uid tok,
     coin s op = Some u → counted b uid tok u → u_ReservedAt u < olderThan →
     ∃ ref, ref ∈ refs ∧ ref_UserID ref = uid ∧ ref_Reservation ref = tok ∧ op ∈ ref_Outpoints ref).
Proof.
  intros Hok Hopen Hl Hcall.
  assert (∀ ref, ref ∈ refs → _) as Hsound by (intros; by eapply findStale_spec).
  revert Hcall. rewrite /findStale /guard_open Hopen. destruct (Z.leb_spec limit 0); [lia|].
  set (G := foldl (stale_step b) ∅ (range_map (rows s))).
  set (L := filter _ (range_map G).*2). intros [= Hrefs <-].
  destruct (sort_slice_spec cmp_group limit L) as (rest&Hp&Hs&Hlen).
  set (sel := slice_to limit (SortFunc cmp_group L)) in *. rewrite -Hrefs. split_and!.
  - done.
  - rewrite length_fmap. lia.
  - apply StronglySorted_fmap with (R1 := cmp_le cmp_group).
    { intros x y. rewrite cmp_group_le. lia. }
    by eapply StronglySorted_app_1_l.
  - intros ref Hin. rewrite Hrefs in Hin. destruct (Hsound ref Hin) as (?&?&_). by split.
  - rewrite length_fmap. intros Hlt op u uid tok Hu Hc Ho.
    destruct (G !! (uid, tok)) as [g|] eqn:Hg; last first.
    { pose proof (stale_fold_ok b (uid, tok) (range_map (rows s)) ∅ []) as Hgrp.
      rewrite -/G Hg lookup_empty in Hgrp. specialize (Hgrp eq_refl). simpl in Hgrp.
      rewrite /coin in Hu. destruct (rows s !! op) as [r|] eqn:Hr; simplify_eq/=.
      exfalso. apply (not_elem_of_nil (op, r)). rewrite -Hgrp.
      apply list_elem_of_filter. split; [done|]. by rewrite range_map_elem. }
    destruct (gathered_group b s (uid, tok) g Hok Hg) as (?&?&Hops&Hle&_).
    exists (g_ref g). split_and!; [|done..|apply Hops; eauto].
    apply list_elem_of_fmap. exists g. split; [done|].
    assert (g ∈ sel ++ rest) as Hin.
    { rewrite Hp. apply list_elem_of_filter. split; [specialize (Hle _ _ Hu Hc); lia|].
      apply list_elem_of_fmap. exists (uid, tok, g). split; [done|]. by rewrite range_map_elem. }
    assert (rest = []) as Hrest.
    { apply nil_length_inv. rewrite -(Permutation_length Hp) length_app in Hlen. lia. }
    by rewrite Hrest app_nil_r in Hin.
Qed.

(** No janitor sees or frees a pinned coin: releasing any reservation leaves a
    pinned row untouched, and the ordinary stale listing never names its outpoint. *)
Theorem pinned_coin_safe_from_janitors uid tok olderThan limit s op u refs s' :
  coins_ok s → coin s op = Some u → u_Pinned u = true →
  FindStaleReservations olderThan limit s = (Ret refs, s') →
  coin (ReleaseReservation uid tok s).2 op = Some u ∧
  ∀ ref, ref ∈ refs → op ∉ ref_Outpoints ref.
Proof.
  intros Hok Hu Hp Hcall. split.
  - rewrite /ReleaseReservation snd_guard_open snd_guard_valid. destruct (closed s); [done|].
    destruct (ValidateReservation tok); [done|]. rewrite /coin /= lookup_fmap.
    rewrite /coin in Hu. destruct (rows s !! op) as [r|]; simplify_eq/=.
    by rewrite Hp andb_false_r.
  - intros ref Hin Hop. destruct (findStale_spec _ _ _ _ _ _ _ Hok Hcall Hin) as (Hops&_&_).
    apply Hops in Hop as (u'&?&_&_&Hc). simplify_eq. by specialize (Hc Hp).
Qed.
End stale.

(** ** Instances on the example store *)

Lemma reachable_store_invariant_witness :
  ∃ u, coin pinned op2 = Some u ∧ u_Pinned u = true ∧ u_ReservedBy u ≠ "" ∧ u_SpentBy u = None.
Proof.
  destruct (reachable_store_invariant (H := range_canonical) pinned pinned_reachable) as [Hinv _].
  eexists. split; [vm_compute; reflexivity|]. split; [reflexivity|].
  apply (Hinv op2); [vm_compute|]; reflexivity.
Defined.

Lemma every_call_refines_lifecycle_witness :
  evolves (CPin 7 "t1") op2 (coin claimed op2) (coin pinned op2) ∧
  coin claimed op2 ≠ coin pinned op2.
Proof.
  split; [apply (every_call_refines_lifecycle (H := range_canonical))|]. by intros [=].
Defined.

Lemma reserve_outpoints_all_or_nothing_witness :
  ReserveOutpoints clk0 7 "t2" [op1; op2; op1] claimed =
    (Err (ErrBatchJoin [ReservedError op2 "t1"]), claimed) ∧
  ∃ u', coin (ReserveOutpoints clk0 7 "t1" [op1; op2] claimed).2 op1 = Some u' ∧ held 7 "t1" u'.
Proof.
  split.
  - destruct (reserve_outpoints_all_or_nothing clk0 7 "t2" [op1; op2; op1] claimed _ _
      eq_refl ltac:(done) ltac:(done) (surjective_pairing _)) as [(_&Ho&Hs)|(Hr&_)]; [|done].
    rewrite (surjective_pairing (ReserveOutpoints _ _ _ _ _)) Hs Ho. reflexivity.
  - destruct (reserve_outpoints_all_or_nothing clk0 7 "t1" [op1; op2] claimed _ _
      eq_refl ltac:(done) ltac:(done) (surjective_pairing _)) as [(Hr&_)|(_&_&Hall&_)]; [done|].
    destruct (Hall op1) as (u&u'&_&Hu'&Hh&_); [by left|]. by exists u'.
Defined.

Lemma find_stale_exact_witness :
  ∃ refs, findStale (H := range_canonical) 1000 5 true pinned = (Ret refs, pinned) ∧
    length refs = 1%nat ∧
    ∃ ref, ref ∈ refs ∧ ref_UserID ref = 7 ∧ ref_Reservation ref = "t1" ∧ op2 ∈ ref_Outpoints ref.
Proof.
  eexists. split; [reflexivity|].
  destruct (find_stale_exact (H := range_canonical) true 1000 5 pinned _ _ pinned_ok eq_refl
    eq_refl eq_refl) as (_&_&_&_&Hall).
  split; [reflexivity|]. eapply Hall; [done|vm_compute; reflexivity|ground|done].
Defined.

Lemma pinned_coin_safe_from_janitors_witness :
  ∃ u, coin pinned op2 = Some u ∧ coin (ReleaseReservation 7 "t1" pinned).2 op2 = Some u.
Proof.
  eexists. split; [vm_compute; reflexivity|].
  eapply (pinned_coin_safe_from_janitors (H := range_canonical) 7 "t1" 1000 5 pinned op2);
    [apply pinned_ok|vm_compute; reflexivity|reflexivity|reflexivity].
Defined.

End StoreLifecycle.
