(* ===== verification/StoreSpend.v ===== *)
(** * StoreSpend: the spend lifecycle and the balance report

    A recorded spend is final until it is undone, the outcome of a Spend batch in
    both modes, the Spend/Unspend round trip a rejected transaction relies on, and
    the balance report against its reference sums. *)
From S2P Require Import Prelude UtxoTypes MemStore StoreContract StoreProps.
Import MemStore StoreContract StoreExample StoreProps.
Local Open Scope Z_scope.

Module StoreSpend.

(** The calls entitled to undo or erase the spend of [op] by [w]. *)
Definition may_unspend (op : Outpoint) (w : Hash) (c : call) : Prop :=
  match c with
  | CUnspend w' ops => w' = w ∧ op ∈ ops
  | CRemoveSpentBy w' => w' = w
  | CRemove ops force => force = true ∧ op ∈ ops
  | _ => False
  end.

(** When a spend item is accepted against the coin it names. *)
Definition spendable (force : bool) (sp : SpendOp) (o : option UTXO) : Prop :=
  ValidateSpend sp = None ∧ ∃ u, o = Some u ∧
    (u_SpentBy u = Some (sp_SpendingTxID sp) ∨
     u_SpentBy u = None ∧
       (force = true ∨ u_Frozen u = false ∧ u_ReservedBy u = sp_Reservation sp)).

Definition spent_by (w : Hash) (u : UTXO) : UTXO := set_pinned false (set_spentBy (Some w) u).

(** Reference quantities of the balance: sums and counts over the row map. *)
Definition count_where (P : UTXO → Prop) `{!∀ u, Decision (P u)} (s : Store) : Z :=
  map_fold (λ _ r acc, (if decide (P (r_utxo r)) then 1 else 0) + acc) 0 (rows s).

Definition claimable_in (uid : Z) (basket : string) (t : Tier) (u : UTXO) : Prop :=
  owned_live uid basket u ∧ u_ReservedBy u = "" ∧ u_Frozen u = false ∧ u_Tier u = t.
Definition reserved_in (uid : Z) (basket : string) (u : UTXO) : Prop :=
  owned_live uid basket u ∧ u_ReservedBy u ≠ "".

#[global] Instance owned_live_dec uid basket u : Decision (owned_live uid basket u).
Proof. unfold owned_live. apply _. Defined.
#[global] Instance claimable_in_dec uid basket t u : Decision (claimable_in uid basket t u).
Proof. unfold claimable_in. apply _. Defined.
#[global] Instance reserved_in_dec uid basket u : Decision (reserved_in uid basket u).
Proof. unfold reserved_in. apply _. Defined.

(** ** A spend is final until undone *)

Lemma lifecycle_keeps_spender c op o o' w v uid :
  lifecycle c op o o' → ¬ may_unspend op w c →
  (∃ u, o = Some u ∧ u_SpentBy u = Some w ∧ u_Satoshis u = v ∧ u_UserID u = uid) →
  ∃ u', o' = Some u' ∧ u_SpentBy u' = Some w ∧ u_Satoshis u' = v ∧ u_UserID u' = uid.
Proof.
  destruct 1; intros Hno (u0&?&Hu&?&?); simplify_eq/=; unfold held, free in *;
    destruct_and?; try (eexists; split_and!; [reflexivity|simpl; congruence..]);
    exfalso; try congruence; subst; intuition congruence.
Qed.

Lemma exec_keeps_spender `{MapRange} c op w v uid s :
  ¬ may_unspend op w c →
  (∃ u, coin s op = Some u ∧ u_SpentBy u = Some w ∧ u_Satoshis u = v ∧ u_UserID u = uid) →
  ∃ u', coin (exec c s) op = Some u' ∧ u_SpentBy u' = Some w ∧ u_Satoshis u' = v ∧
    u_UserID u' = uid.
Proof.
  intros Hno. destruct (exec_coin_rel c s op) as [Hev _]. revert Hev. rewrite /coin.
  generalize (r_utxo <$> rows s !! op) (r_utxo <$> rows (exec c s) !! op).
  induction 1; eauto using lifecycle_keeps_spender.
Qed.

Lemma run_keeps_spender `{MapRange} cs op w v uid s :
  Forall (λ c, ¬ may_unspend op w c) cs →
  (∃ u, coin s op = Some u ∧ u_SpentBy u = Some w ∧ u_Satoshis u = v ∧ u_UserID u = uid) →
  ∃ u', coin (run cs s) op = Some u' ∧ u_SpentBy u' = Some w ∧ u_Satoshis u' = v ∧
    u_UserID u' = uid.
Proof.
  intros Hcs. revert s. induction Hcs as [|c cs Hc Hcs IH]; intros s; simpl; [done|].
  intros Hs. by apply IH, exec_keeps_spender.
Qed.

Lemma spent_not_handed_out `{MapRange} cs op w s :
  coins_ok s → Forall (λ c, ¬ may_unspend op w c) cs →
  (∃ u, coin s op = Some u ∧ u_SpentBy u = Some w) →
  op ∉ u_Outpoint <$> handed_out cs s.
Proof.
  intros Hok Hcs. revert s Hok. induction Hcs as [|c cs Hc Hcs IH]; intros s Hok (u&Hu&Hw); simpl.
  { apply not_elem_of_nil. }
  rewrite fmap_app not_elem_of_app. split.
  - intros (u'&->&Hin)%list_elem_of_fmap. apply returned_free in Hin as (?&?&_&?); [|done].
    congruence.
  - destruct (exec_keeps_spender c op w (u_Satoshis u) (u_UserID u) s) as (?&?&?&_); eauto.
    apply IH; eauto. by apply exec_coins_ok.
Qed.

(** C2: no double spend.  Once a spend of a coin by transaction [w] is recorded, then
    along every sequence of calls that contains no Unspend by [w] naming it, no
    RemoveSpentBy [w] and no forced Remove naming it, the coin keeps that spender,
    its value and its owner, no claim hands it out, and an attempt to spend it by
    any other transaction, forced or not, is refused with the recorded spender and
    changes nothing. *)
Theorem no_double_spend `{MapRange} cs op w s u :
  coins_ok s → coin s op = Some u → u_SpentBy u = Some w →
  Forall (λ c, ¬ may_unspend op w c) cs →
  op ∉ u_Outpoint <$> handed_out cs s ∧
  (∃ u', coin (run cs s) op = Some u' ∧ u_SpentBy u' = Some w ∧
     u_Satoshis u' = u_Satoshis u ∧ u_UserID u' = u_UserID u) ∧
  ∀ sp force, sp_Outpoint sp = op → sp_SpendingTxID sp ≠ w → ValidateSpend sp = None →
    spendOne force sp (rows (run cs s)) = (Some (SpentError op w), rows (run cs s)).
Proof.
  intros Hok Hu Hw Hcs. destruct (run_keeps_spender cs op w (u_Satoshis u) (u_UserID u) s)
    as (u'&Hu'&Hw'&?&?); [done|eauto|]. split_and!; [|eauto|].
  - eapply spent_not_handed_out; eauto.
  - intros sp force <- Hne Hv. rewrite /spendOne Hv. rewrite /coin in Hu'.
    destruct (rows (run cs s) !! sp_Outpoint sp) as [r|]; simplify_eq/=. rewrite Hw'.
    by rewrite (proj2 (Z.eqb_neq w (sp_SpendingTxID sp))).
Qed.

(** ** Spend batches *)

Lemma spendOne_spec force sp (m : gmap Outpoint row) e m' :
  (∀ r, m !! sp_Outpoint sp = Some r → u_SpentBy (r_utxo r) ≠ None → u_Pinned (r_utxo r) = false) →
  spendOne force sp m = (e, m') →
  (e = None ↔ spendable force sp (r_utxo <$> m !! sp_Outpoint sp)) ∧
  (∀ op, op ≠ sp_Outpoint sp → m' !! op = m !! op) ∧
  r_utxo <$> m' !! sp_Outpoint sp =
    match e with
    | None => spent_by (sp_SpendingTxID sp) <$> (r_utxo <$> m !! sp_Outpoint sp)
    | Some _ => r_utxo <$> m !! sp_Outpoint sp
    end.
Proof.
  rewrite /spendOne /spendable => Hpin. destruct (ValidateSpend sp) eqn:Hv.
  { intros [= <- <-]. split_and!; [|done..]. split; [done|naive_solver]. }
  destruct (m !! sp_Outpoint sp) as [r|] eqn:Hr; last first.
  { intros [= <- <-]. rewrite Hr. split_and!; [|done..]. split; [done|naive_solver]. }
  specialize (Hpin r eq_refl). simpl. destruct (u_SpentBy (r_utxo r)) as [w|] eqn:Hw.
  - destruct (Z.eqb_spec w (sp_SpendingTxID sp)) as [->|Hne]; intros [= <- <-]; rewrite Hr /=.
    + split_and!; [|done|]; [split; eauto|]. f_equal. destruct (r_utxo r); simpl in *.
      rewrite Hpin // Hw //.
    + split_and!; [|done..]. split; [done|]. intros (_&u&?&[?|[??]]); congruence.
  - destruct (negb force && u_Frozen (r_utxo r)) eqn:Hf.
    { intros [= <- <-]. rewrite Hr. split_and!; [|done..]. split; [done|].
      apply andb_true_iff in Hf as [?%negb_true_iff ?].
      intros (_&u&?&[?|[? [?|[??]]]]); congruence. }
    destruct (negb force && bool_decide _) eqn:Hb; intros [= <- <-].
    + rewrite Hr. split_and!; [|done..]. split; [done|].
      apply andb_true_iff in Hb as [?%negb_true_iff ?%bool_decide_eq_true].
      intros (_&u&?&[?|[? [?|[??]]]]); congruence.
    + rewrite lookup_insert_eq. split_and!; [|intros; by rewrite lookup_insert_ne|done].
      split; [|done]. intros _. split; [done|]. exists (r_utxo r). split; [done|]. right.
      split; [done|]. destruct force; [by left|right]. simpl in *. split; [done|].
      apply bool_decide_eq_false in Hb. by apply dec_stable.
Qed.

Lemma spend_loop_spec force sps (m : gmap Outpoint row) es m' :
  (∀ op r, m !! op = Some r → u_SpentBy (r_utxo r) ≠ None → u_Pinned (r_utxo r) = false) →
  NoDup (sp_Outpoint <$> sps) →
  spend_loop force sps m = (es, m') →
  length es = length sps ∧
  (∀ op, op ∉ sp_Outpoint <$> sps → m' !! op = m !! op) ∧
  ∀ i sp e, sps !! i = Some sp → es !! i = Some e →
    (e = None ↔ spendable force sp (r_utxo <$> m !! sp_Outpoint sp)) ∧
    r_utxo <$> m' !! sp_Outpoint sp =
      match e with
      | None => spent_by (sp_SpendingTxID sp) <$> (r_utxo <$> m !! sp_Outpoint sp)
      | Some _ => r_utxo <$> m !! sp_Outpoint sp
      end.
Proof.
  revert m es m'. induction sps as [|sp sps IH]; intros m es m' Hpin Hnd; simpl.
  { intros [= <- <-]. split_and!; [done..|]. by intros [|i]. }
  destruct (spendOne force sp m) as [e1 m1] eqn:H1.
  destruct (spend_loop force sps m1) as [es1 m2] eqn:H2. intros [= <- <-].
  apply NoDup_cons in Hnd as [Hnin Hnd].
  destruct (spendOne_spec force sp m e1 m1 (Hpin _) H1) as (Hiff&Hother&Hsp).
  destruct (IH m1 es1 m2) as (Hlen&Hrest&Hslots); [|done..|].
  { intros op r Hr Hs. destruct (decide (op = sp_Outpoint sp)) as [->|Hne].
    - destruct (m !! sp_Outpoint sp) as [r0|] eqn:Hr0; rewrite Hr /= in Hsp;
        destruct e1; simplify_eq/=; try done; rewrite Hsp in Hs |- *; [|done].
      by apply (Hpin _ _ Hr0).
    - rewrite Hother // in Hr. by apply (Hpin op r). }
  split_and!; [simpl; congruence| |].
  - intros op Hop. apply not_elem_of_cons in Hop as [??].
    by rewrite Hrest // Hother.
  - intros [|i] sp' e' Hsp' He'; simplify_eq/=.
    + by rewrite Hrest.
    + assert (sp_Outpoint sp' ≠ sp_Outpoint sp).
      { intros Heq. apply Hnin. rewrite -Heq. apply list_elem_of_fmap_2.
        by eapply list_elem_of_lookup_2. }
      destruct (Hslots i sp' e' Hsp' He') as [Hi Ho]. by rewrite Hother // in Hi Ho.
Qed.

Lemma count_failed_zero es : count_failed es = 0 ↔ Forall (eq None) es.
Proof.
  rewrite /count_failed. induction es as [|[e|] es IH].
  - split; [constructor|done].
  - rewrite filter_cons_True; [|by eexists]. simpl. split; [lia|]. by inversion 1.
  - rewrite filter_cons_False; [|by intros [??]]. rewrite IH. split; [by constructor|].
    by inversion 1.
Qed.

Lemma coins_ok_spent_unpinned s op r :
  coins_ok s → rows s !! op = Some r → u_SpentBy (r_utxo r) ≠ None → u_Pinned (r_utxo r) = false.
Proof.
  intros Hok Hr Hs. destruct (Hok op (r_utxo r)) as (_&_&_&_&Hp&_); [by rewrite /coin Hr|].
  destruct (u_Pinned (r_utxo r)); [|done]. by destruct Hp.
Qed.

(** the outcome of a Spend batch over distinct outpoints.  An item succeeds
    exactly when its coin exists and is either already spent by the same
    transaction or unspent and, unless the call states a fact ([force]), not frozen
    and held by the item's reservation.  A successful item leaves its coin spent by
    its transaction and unpinned, everything else about it kept; a failed item and
    every outpoint not named change nothing; the call reports success exactly when
    every item succeeded. *)
Theorem spend_batch_outcome sps force s es err s' :
  coins_ok s → closed s = false → NoDup (sp_Outpoint <$> sps) →
  Spend sps force s = ((es, err), s') →
  length es = length sps ∧
  (err = None ↔ Forall (eq None) es) ∧
  (∀ op, op ∉ sp_Outpoint <$> sps → rows s' !! op = rows s !! op) ∧
  ∀ i sp e, sps !! i = Some sp → es !! i = Some e →
    (e = None ↔ spendable force sp (coin s (sp_Outpoint sp))) ∧
    coin s' (sp_Outpoint sp) =
      match e with
      | None => spent_by (sp_SpendingTxID sp) <$> coin s (sp_Outpoint sp)
      | Some _ => coin s (sp_Outpoint sp)
      end.
Proof.
  intros Hok Hopen Hnd. rewrite /Spend Hopen.
  destruct (spend_loop force sps (rows s)) as [es' m'] eqn:Hl. intros [= <- <- <-].
  destruct (spend_loop_spec force sps (rows s) es' m') as (?&?&?);
    eauto using coins_ok_spent_unpinned. split_and!; [done| |done..].
  rewrite -count_failed_zero /BatchCountErr. destruct (Z.eqb_spec (count_failed es') 0); naive_solver.
Qed.

(** ** Unspend *)

Lemma unspend_loop_spec w ops n (m : gmap Outpoint row) :
  NoDup ops →
  (∀ op, op ∈ ops → ∃ r, m !! op = Some r ∧ u_SpentBy (r_utxo r) = Some w) →
  (foldl (unspend_one w) (n, m) ops).1 = n + Z.of_nat (length ops) ∧
  (∀ op, op ∈ ops → (foldl (unspend_one w) (n, m) ops).2 !! op =
     map_utxo (set_pinned false ∘ unreserve ∘ set_spentBy None) <$> m !! op) ∧
  (∀ op, op ∉ ops → (foldl (unspend_one w) (n, m) ops).2 !! op = m !! op).
Proof.
  revert n m. induction ops as [|o ops IH]; intros n m Hnd Hin; csimpl.
  { split_and!; [lia|by intros ? ?%not_elem_of_nil|done]. }
  apply NoDup_cons in Hnd as [Ho Hnd]. destruct (Hin o) as (r&Hr&Hw); [set_solver|].
  rewrite Hr decide_True //. destruct (IH (n + 1) (<[o:=map_utxo
    (set_pinned false ∘ unreserve ∘ set_spentBy None) r]> m)) as (H1&H2&H3); [done| |].
  { intros op Hop. rewrite lookup_insert_ne; [|by intros ->]. apply Hin. set_solver. }
  split_and!; [rewrite H1; lia| |].
  - intros op [->|Hop]%elem_of_cons; [by rewrite H3 // lookup_insert_eq Hr|].
    rewrite H2 // lookup_insert_ne //. by intros ->.
  - intros op [??]%not_elem_of_cons. by rewrite H3 // lookup_insert_ne.
Qed.

(** the round trip a rejected transaction relies on.  If one transaction spends a
    set of distinct coins (in either mode) and every item is accepted, then
    Unspend by that transaction over the same coins gives back each of them: it
    reports their number, and each coin is again unspent, unreserved and unpinned
    with its value, owner, tier and freeze unchanged, so the next claim over its
    scope may take it unless it is frozen; no other row changed. *)
Theorem spend_unspend_roundtrip sps force w s es s1 o s2 :
  coins_ok s → closed s = false → NoDup (sp_Outpoint <$> sps) →
  Forall (λ sp, sp_SpendingTxID sp = w) sps →
  Spend sps force s = ((es, None), s1) →
  Unspend w (sp_Outpoint <$> sps) s1 = (o, s2) →
  o = Ret (Z.of_nat (length sps)) ∧
  (∀ op, op ∉ sp_Outpoint <$> sps → rows s2 !! op = rows s !! op) ∧
  ∀ sp, sp ∈ sps → ∃ u, coin s (sp_Outpoint sp) = Some u ∧
    coin s2 (sp_Outpoint sp) = Some (set_pinned false (unreserve (set_spentBy None u))) ∧
    (u_Frozen u = false → ∀ r, rows s2 !! sp_Outpoint sp = Some r →
       claimable (mkScope (u_UserID u) (u_Basket u) (u_Tier u)) r = true).
Proof.
  intros Hok Hopen Hnd Hw. rewrite /Spend Hopen.
  destruct (spend_loop force sps (rows s)) as [es' m'] eqn:Hl. intros [= <- Herr <-].
  assert (Forall (eq None) es') as Hall.
  { apply count_failed_zero. move: Herr. rewrite /BatchCountErr. case_match; [lia|done]. }
  destruct (spend_loop_spec force sps (rows s) es' m') as (Hlen&Hother&Hslots);
    eauto using coins_ok_spent_unpinned.
  assert (∀ sp, sp ∈ sps → ∃ r r', rows s !! sp_Outpoint sp = Some r ∧
    m' !! sp_Outpoint sp = Some r' ∧ r_utxo r' = spent_by w (r_utxo r)) as Hsp.
  { intros sp Hin. rewrite ->Forall_forall in Hw. rewrite -(Hw _ Hin).
    apply list_elem_of_lookup in Hin as [i Hi].
    destruct (lookup_lt_is_Some_2 es' i) as [e He]; [rewrite Hlen; by eapply lookup_lt_Some|].
    assert (e = None) as -> by (symmetry; by eapply Forall_lookup_1 in Hall).
    destruct (Hslots i sp None Hi He) as [[Hs _] Hc]. destruct (Hs eq_refl) as (_&u&Hu&_).
    destruct (rows s !! sp_Outpoint sp) as [r|]; [|done].
    destruct (m' !! sp_Outpoint sp) as [r'|]; simplify_eq/=. by exists r, r'. }
  rewrite /Unspend /guard_open /= Hopen.
  destruct (unspend_loop_spec w (sp_Outpoint <$> sps) 0 m') as (H1&H2&H3); [done| |].
  { intros op (sp&->&Hin)%list_elem_of_fmap. destruct (Hsp sp Hin) as (r&r'&?&?&Hr').
    exists r'. by rewrite Hr'. }
  destruct (foldl _ _ _) as [n m2]. intros [= <- <-]. simpl in *. split_and!.
  - by rewrite H1 length_fmap Z.add_0_l.
  - intros op Hop. by rewrite H3 // Hother.
  - intros sp Hin. destruct (Hsp sp Hin) as (r&r'&Hr&Hr'&Hu). exists (r_utxo r).
    rewrite /coin /= Hr H2; [|by apply list_elem_of_fmap_2]. rewrite Hr' /= Hu.
    split_and!; [done|by destruct (r_utxo r)|]. intros Hf ? [= <-].
    rewrite /claimable bool_decide_eq_true /= Hu. by destruct (r_utxo r).
Qed.

(** ** The balance *)

(** Reference sums over a list of rows. *)
Fixpoint lsum (f : UTXO → Z) (l : list (Outpoint * row)) : Z :=
  match l with [] => 0 | kr :: l' => f (r_utxo kr.2) + lsum f l' end.

Definition value_if (P : UTXO → Prop) `{!∀ u, Decision (P u)} (u : UTXO) : Z :=
  if decide (P u) then u_Satoshis u else 0.
Definition one_if (P : UTXO → Prop) `{!∀ u, Decision (P u)} (u : UTXO) : Z :=
  if decide (P u) then 1 else 0.

Lemma lsum_perm f l l' : l ≡ₚ l' → lsum f l = lsum f l'.
Proof. induction 1; simpl; lia. Qed.

Lemma lsum_map_fold f s `{MapRange} :
  lsum f (range_map (rows s)) = map_fold (λ _ r acc, f (r_utxo r) + acc) 0 (rows s).
Proof.
  rewrite (lsum_perm f _ _ (range_map_perm (rows s))) map_fold_foldr.
  induction (map_to_list (rows s)) as [|[op r] l IH]; simpl; [done|by rewrite IH].
Qed.

(** What the accumulator holds after a prefix worth [c], [r], [nc], [nr]. *)
Definition tallies (t : Tier) (b : UtxoTypes.Balance) (c r nc nr : Z) : Prop :=
  default 0 (b_Claimable b !! t) = u64 c ∧ b_Reserved b = u64 r ∧
  default 0 (b_ClaimableCount b !! t) = nc ∧ b_ReservedCount b = nr.

Lemma u64_add_l x y : u64 (u64 x + y) = u64 (x + y).
Proof. rewrite /wrapU. apply Zplus_mod_idemp_l. Qed.

Lemma balance_step_tallies uid basket t b kr c r nc nr :
  tallies t b c r nc nr →
  tallies t (balance_step uid basket b kr)
    (c + value_if (claimable_in uid basket t) (r_utxo kr.2))
    (r + value_if (reserved_in uid basket) (r_utxo kr.2))
    (nc + one_if (claimable_in uid basket t) (r_utxo kr.2))
    (nr + one_if (reserved_in uid basket) (r_utxo kr.2)).
Proof.
  intros (H1&H2&H3&H4). rewrite /tallies /balance_step /value_if /one_if.
  set (u := r_utxo kr.2). destruct (decide (owned_live uid basket u)) as [Ho|Ho]; last first.
  { rewrite decide_True; last (unfold owned_live in Ho;
      destruct (decide (u_UserID u = uid)), (decide (u_Basket u = basket)); tauto).
    rewrite !(decide_False (P := claimable_in _ _ _ _)); [|by intros []..].
    rewrite !(decide_False (P := reserved_in _ _ _)); [|by intros []..].
    rewrite !Z.add_0_r. done. }
  rewrite decide_False; [|destruct Ho as (?&?&?); tauto].
  destruct (decide (u_ReservedBy u ≠ "")) as [Hr|Hr].
  { rewrite !(decide_False (P := claimable_in _ _ _ _)); [|by intros (_&?&_)..].
    rewrite !(decide_True (P := reserved_in _ _ _)) //= !Z.add_0_r H2 u64_add_l. by rewrite H4. }
  rewrite !(decide_False (P := reserved_in _ _ _)); [|by intros []..].
  apply dec_stable in Hr. rewrite !Z.add_0_r. destruct (u_Frozen u) eqn:Hf; simpl.
  { rewrite !decide_False ?Z.add_0_r //; intros (_&_&?&_); congruence. }
  rewrite /bump /bump_count. destruct (decide (u_Tier u = t)) as [<-|Ht].
  - rewrite !decide_True // !lookup_insert_eq /= H1 u64_add_l. by rewrite H3.
  - rewrite !lookup_insert_ne // !decide_False ?Z.add_0_r //; by intros (_&_&_&?).
Qed.

Lemma balance_fold_tallies uid basket t l b c r nc nr :
  tallies t b c r nc nr →
  tallies t (foldl (balance_step uid basket) b l)
    (c + lsum (value_if (claimable_in uid basket t)) l)
    (r + lsum (value_if (reserved_in uid basket)) l)
    (nc + lsum (one_if (claimable_in uid basket t)) l)
    (nr + lsum (one_if (reserved_in uid basket)) l).
Proof.
  revert b c r nc nr. induction l as [|kr l IH]; intros b c r nc nr Ht; simpl.
  { by rewrite !Z.add_0_r. }
  rewrite !Z.add_assoc. apply IH. by apply balance_step_tallies.
Qed.

(** The balance report equals its definition whatever order the map is walked in:
    per tier, the sum (in 64-bit arithmetic) and the number of the user's unspent,
    unreserved, unfrozen coins of the basket, and the sum and number of the
    unspent reserved ones; the report changes nothing. *)
Theorem balance_exact `{MapRange} uid basket s b s' t :
  closed s = false → MemStore.Balance uid basket s = (Ret b, s') →
  s' = s ∧
  default 0 (b_Claimable b !! t) = u64 (sum_where (claimable_in uid basket t) s) ∧
  default 0 (b_ClaimableCount b !! t) = count_where (claimable_in uid basket t) s ∧
  b_Reserved b = u64 (sum_where (reserved_in uid basket) s) ∧
  b_ReservedCount b = count_where (reserved_in uid basket) s.
Proof.
  rewrite /MemStore.Balance /guard_open => ->. intros [= <- <-]. split; [done|].
  destruct (balance_fold_tallies uid basket t (range_map (rows s))
    (mkBalance ∅ 0 ∅ 0) 0 0 0 0) as (H1&H2&H3&H4).
  { rewrite /tallies /= !lookup_empty. done. }
  rewrite !lsum_map_fold in H1 H2 H3 H4. by split_and!.
Qed.

(** ** Instances on the example store *)

Lemma no_double_spend_witness :
  spendOne true (mkSpendOp op2 "t1" 55) (rows spent) = (Some (SpentError op2 99), rows spent).
Proof.
  eapply (no_double_spend (H := range_canonical) [] op2 99 spent);
    [apply spent_ok|vm_compute; reflexivity|reflexivity|constructor|reflexivity|done|reflexivity].
Defined.

Lemma spend_batch_outcome_witness :
  coin (Spend [spend2; mkSpendOp op1 "t1" 99] false pinned).2 op2 =
    spent_by 99 <$> coin pinned op2 ∧
  (Spend [spend2; mkSpendOp op1 "t1" 99] false pinned).1 =
    ([None; Some (ReservedError op1 "")], Some (ErrBatchCount 1 2)).
Proof.
  split; [|reflexivity].
  eapply (spend_batch_outcome [spend2; mkSpendOp op1 "t1" 99] false pinned
    [None; Some (ReservedError op1 "")] (Some (ErrBatchCount 1 2)) _ pinned_ok eq_refl)
    with (i := 0%nat) (sp := spend2) (e := None); [|reflexivity..].
  by apply (bool_decide_unpack _).
Defined.

Lemma spend_unspend_roundtrip_witness :
  (Unspend 99 [op2] spent).1 = Ret 1 ∧
  coin (Unspend 99 [op2] spent).2 op2 = coin fresh op2.
Proof.
  destruct (spend_unspend_roundtrip [spend2] false 99 pinned [None] spent _ _ pinned_ok eq_refl
    ltac:(apply NoDup_singleton) ltac:(by repeat constructor) eq_refl (surjective_pairing _))
    as (Ho&_&Hc).
  split; [exact Ho|]. destruct (Hc spend2) as (u&Hu&Hu'&_); [by left|].
  etrans; [exact Hu'|]. vm_compute in Hu. by simplify_eq.
Defined.

Lemma balance_exact_witness :
  ∃ b, MemStore.Balance (H := range_canonical) 7 "default" claimed = (Ret b, claimed) ∧
    default 0 (b_Claimable b !! TierMined) = 2000 ∧ b_Reserved b = 500.
Proof.
  eexists. split; [reflexivity|].
  destruct (balance_exact (H := range_canonical) 7 "default" claimed _ _ TierMined eq_refl eq_refl)
    as (_&Hc&_&Hr&_).
  split; [by rewrite Hc|by rewrite Hr].
Defined.

End StoreSpend.
