(* ===== verification/Statuses.v ===== *)
(** * Statuses: the status vocabularies and their lattices

    [WdkStatus]: the transaction and proof-request statuses of
    [pkg/wdk/tx_status.go] with their predicates and conversions.
    [ArcadeStatus]: Arcade's wire statuses, the transition lattice
    [CanSupersede], and the [HexBytes] JSON codec of [pkg/arcade/wire.go].

    Both vocabularies are open Go string types, so a status is a string and every
    predicate is defined on all strings. *)
From Stdlib Require Import Ascii String.
From S2P Require Import Prelude.
Local Open Scope string_scope.

Module WdkStatus.

Abbreviation TxStatus := string (only parsing).
Definition TxStatusCompleted : TxStatus := "completed".
Definition TxStatusFailed : TxStatus := "failed".
Definition TxStatusUnprocessed : TxStatus := "unprocessed".
Definition TxStatusSending : TxStatus := "sending".
Definition TxStatusUnproven : TxStatus := "unproven".
Definition TxStatusUnsigned : TxStatus := "unsigned".
Definition TxStatusNoSend : TxStatus := "nosend".
Definition TxStatusNonFinal : TxStatus := "nonfinal".
Definition TxStatusUnfail : TxStatus := "unfail".
Definition TxStatusAborted : TxStatus := "aborted".

Abbreviation ProvenTxReqStatus := string (only parsing).
Definition ProvenTxStatusSending : ProvenTxReqStatus := "sending".
Definition ProvenTxStatusUnsent : ProvenTxReqStatus := "unsent".
Definition ProvenTxStatusNoSend : ProvenTxReqStatus := "nosend".
Definition ProvenTxStatusUnknown : ProvenTxReqStatus := "unknown".
Definition ProvenTxStatusNonFinal : ProvenTxReqStatus := "nonfinal".
Definition ProvenTxStatusUnprocessed : ProvenTxReqStatus := "unprocessed".
Definition ProvenTxStatusUnmined : ProvenTxReqStatus := "unmined".
Definition ProvenTxStatusCallback : ProvenTxReqStatus := "callback".
Definition ProvenTxStatusUnconfirmed : ProvenTxReqStatus := "unconfirmed".
Definition ProvenTxStatusCompleted : ProvenTxReqStatus := "completed".
Definition ProvenTxStatusInvalid : ProvenTxReqStatus := "invalidTx".
Definition ProvenTxStatusDoubleSpend : ProvenTxReqStatus := "doubleSpend".
Definition ProvenTxStatusUnfail : ProvenTxReqStatus := "unfail".
Definition ProvenTxStatusReorg : ProvenTxReqStatus := "reorg".

Definition UTXOStatusUnproven : string := "unproven".
Definition UTXOStatusSending : string := "sending".
Definition UTXOStatusMined : string := "mined".
Definition UTXOStatusUnknown : string := "".

Abbreviation StandardizedTxStatus := string (only parsing).
Definition TxUpdateStatusBroadcasted : StandardizedTxStatus := "broadcasted".
Definition TxUpdateStatusDoubleSpend : StandardizedTxStatus := "doubleSpend".
Definition TxUpdateStatusInvalidTx : StandardizedTxStatus := "invalidTx".
Definition TxUpdateStatusServiceError : StandardizedTxStatus := "serviceError".
Definition TxUpdateStatusWaiting : StandardizedTxStatus := "waiting".
Definition TxUpdateStatusMined : StandardizedTxStatus := "mined".
Definition TxUpdateStatusUnknown : StandardizedTxStatus := "unknown".
Definition TxUpdateStatusFailed : StandardizedTxStatus := "failed".
Definition TxUpdateStatusAborted : StandardizedTxStatus := "aborted".

Inductive SendWithResultStatus :=
| SendWithResultStatusUnproven | SendWithResultStatusSending | SendWithResultStatusFailed.

(** [case a, b, c:] of a switch on a string. *)
Definition is_one_of (s : string) (cases : list string) : bool := bool_decide (s ∈ cases).

Definition ToUTXOStatus (s : TxStatus) : string :=
  if is_one_of s [TxStatusCompleted] then UTXOStatusMined
  else if is_one_of s [TxStatusSending] then UTXOStatusSending
  else if is_one_of s [TxStatusUnproven] then UTXOStatusUnproven
  else UTXOStatusUnknown.

Definition TxStatus_ToStandardizedStatus (s : TxStatus) : StandardizedTxStatus :=
  if is_one_of s [TxStatusCompleted] then TxUpdateStatusMined
  else if is_one_of s [TxStatusUnproven] then TxUpdateStatusBroadcasted
  else if is_one_of s [TxStatusSending; TxStatusUnprocessed; TxStatusNoSend; TxStatusNonFinal;
                       TxStatusUnsigned; TxStatusUnfail] then TxUpdateStatusWaiting
  else if is_one_of s [TxStatusFailed] then TxUpdateStatusInvalidTx
  else if is_one_of s [TxStatusAborted] then TxUpdateStatusAborted
  else TxUpdateStatusUnknown.

Definition Sending (s : ProvenTxReqStatus) : bool :=
  is_one_of s [ProvenTxStatusUnknown; ProvenTxStatusNonFinal; ProvenTxStatusSending;
               ProvenTxStatusUnsent; ProvenTxStatusNoSend; ProvenTxStatusUnprocessed].

Definition AlreadySent (s : ProvenTxReqStatus) : bool :=
  is_one_of s [ProvenTxStatusUnmined; ProvenTxStatusCallback; ProvenTxStatusUnconfirmed;
               ProvenTxStatusCompleted].

Definition IsInFlight (s : ProvenTxReqStatus) : bool :=
  is_one_of s [ProvenTxStatusSending; ProvenTxStatusUnsent; ProvenTxStatusUnprocessed].

Definition IsTerminalFailure (s : ProvenTxReqStatus) : bool :=
  is_one_of s [ProvenTxStatusInvalid; ProvenTxStatusDoubleSpend].

Definition IsAcceptedUnproven (s : ProvenTxReqStatus) : bool :=
  is_one_of s [ProvenTxStatusUnmined; ProvenTxStatusCallback; ProvenTxStatusUnconfirmed].

Definition IsFinalMined (s : ProvenTxReqStatus) : bool :=
  bool_decide (s = ProvenTxStatusCompleted).

Definition WasBroadcastStatus (s : ProvenTxReqStatus) : bool :=
  is_one_of s [ProvenTxStatusUnmined; ProvenTxStatusCallback; ProvenTxStatusUnconfirmed;
               ProvenTxStatusCompleted; ProvenTxStatusReorg].

Definition SendWithResult (s : ProvenTxReqStatus) : SendWithResultStatus :=
  if Sending s then SendWithResultStatusSending
  else if AlreadySent s then SendWithResultStatusUnproven
  else SendWithResultStatusFailed.

Definition ProvenTxReqStatus_ToStandardizedStatus (s : ProvenTxReqStatus) : StandardizedTxStatus :=
  if is_one_of s [ProvenTxStatusCompleted] then TxUpdateStatusMined
  else if is_one_of s [ProvenTxStatusUnmined; ProvenTxStatusCallback; ProvenTxStatusUnconfirmed]
  then TxUpdateStatusBroadcasted
  else if is_one_of s [ProvenTxStatusSending; ProvenTxStatusUnsent; ProvenTxStatusUnprocessed;
                       ProvenTxStatusNoSend; ProvenTxStatusNonFinal; ProvenTxStatusUnfail;
                       ProvenTxStatusReorg] then TxUpdateStatusWaiting
  else if is_one_of s [ProvenTxStatusInvalid] then TxUpdateStatusInvalidTx
  else if is_one_of s [ProvenTxStatusDoubleSpend] then TxUpdateStatusDoubleSpend
  else TxUpdateStatusUnknown.

Definition ProvenTxReqProblematicStatuses : list ProvenTxReqStatus :=
  [ProvenTxStatusUnknown; ProvenTxStatusNonFinal; ProvenTxStatusInvalid; ProvenTxStatusDoubleSpend].
Definition ProvenTxReqBeyondBroadcastStageStatuses : list ProvenTxReqStatus :=
  [ProvenTxStatusUnmined; ProvenTxStatusCallback; ProvenTxStatusUnconfirmed;
   ProvenTxStatusCompleted; ProvenTxStatusReorg].

End WdkStatus.

Module ArcadeStatus.

Abbreviation Status := string (only parsing).
Definition StatusUnknown : Status := "UNKNOWN".
Definition StatusReceived : Status := "RECEIVED".
Definition StatusSentToNetwork : Status := "SENT_TO_NETWORK".
Definition StatusAcceptedByNetwork : Status := "ACCEPTED_BY_NETWORK".
Definition StatusSeenOnNetwork : Status := "SEEN_ON_NETWORK".
Definition StatusSeenMultipleNodes : Status := "SEEN_MULTIPLE_NODES".
Definition StatusDoubleSpendAttempted : Status := "DOUBLE_SPEND_ATTEMPTED".
Definition StatusRejected : Status := "REJECTED".
Definition StatusPendingRetry : Status := "PENDING_RETRY".
Definition StatusStumpProcessing : Status := "STUMP_PROCESSING".
Definition StatusMined : Status := "MINED".
Definition StatusImmutable : Status := "IMMUTABLE".

Definition AllStatuses : list Status :=
  [StatusUnknown; StatusReceived; StatusSentToNetwork; StatusAcceptedByNetwork;
   StatusSeenOnNetwork; StatusSeenMultipleNodes; StatusDoubleSpendAttempted; StatusRejected;
   StatusPendingRetry; StatusStumpProcessing; StatusMined; StatusImmutable].

Definition terminalStatuses : gset Status :=
  {[ StatusRejected; StatusDoubleSpendAttempted; StatusMined; StatusImmutable ]}.

Definition IsTerminal (s : Status) : bool := bool_decide (s ∈ terminalStatuses).

Definition disallowedPreviousStatuses (s : Status) : list Status :=
  if WdkStatus.is_one_of s [StatusUnknown; StatusReceived] then
    [StatusSentToNetwork; StatusAcceptedByNetwork; StatusSeenOnNetwork; StatusSeenMultipleNodes;
     StatusPendingRetry; StatusStumpProcessing; StatusRejected; StatusDoubleSpendAttempted;
     StatusMined; StatusImmutable]
  else if WdkStatus.is_one_of s [StatusSentToNetwork] then
    [StatusSentToNetwork; StatusAcceptedByNetwork; StatusSeenOnNetwork; StatusSeenMultipleNodes;
     StatusRejected; StatusDoubleSpendAttempted; StatusMined; StatusImmutable]
  else if WdkStatus.is_one_of s [StatusAcceptedByNetwork] then
    [StatusAcceptedByNetwork; StatusSeenOnNetwork; StatusSeenMultipleNodes;
     StatusDoubleSpendAttempted; StatusMined; StatusImmutable]
  else if WdkStatus.is_one_of s [StatusSeenOnNetwork] then
    [StatusSeenOnNetwork; StatusSeenMultipleNodes; StatusPendingRetry;
     StatusDoubleSpendAttempted; StatusMined; StatusImmutable]
  else if WdkStatus.is_one_of s [StatusSeenMultipleNodes] then
    [StatusSeenMultipleNodes; StatusPendingRetry; StatusDoubleSpendAttempted;
     StatusMined; StatusImmutable]
  else if WdkStatus.is_one_of s [StatusPendingRetry] then
    [StatusSeenOnNetwork; StatusSeenMultipleNodes; StatusRejected; StatusDoubleSpendAttempted;
     StatusMined; StatusImmutable]
  else if WdkStatus.is_one_of s [StatusStumpProcessing] then
    [StatusRejected; StatusDoubleSpendAttempted; StatusMined; StatusImmutable]
  else if WdkStatus.is_one_of s [StatusRejected; StatusDoubleSpendAttempted] then
    [StatusMined; StatusImmutable]
  else if WdkStatus.is_one_of s [StatusMined] then [StatusImmutable]
  else [].

Definition CanSupersede (s prev : Status) : bool :=
  if decide (prev = "" ∨ prev = s) then true
  else negb (bool_decide (prev ∈ disallowedPreviousStatuses s)).

(** ** HexBytes

    A [[]byte] is a list of 8-bit characters; [None] is the nil slice. *)
Abbreviation HexBytes := (option (list ascii)).

(** [encoding/hex]: two lowercase digits per byte, high nibble first. *)
Definition hex_digit (n : nat) : ascii :=
  default "0"%char (list_ascii_of_string "0123456789abcdef" !! n).
Definition encode_byte (b : ascii) : list ascii :=
  [hex_digit (nat_of_ascii b / 16); hex_digit (nat_of_ascii b mod 16)].
Definition EncodeToString (bs : list ascii) : list ascii := bs ≫= encode_byte.

(** The digit value of a character, upper or lower case. *)
Definition fromHexChar (c : ascii) : option nat :=
  let n := nat_of_ascii c in
  if decide (48 ≤ n ≤ 57)%nat then Some (n - 48)%nat
  else if decide (97 ≤ n ≤ 102)%nat then Some (n - 97 + 10)%nat
  else if decide (65 ≤ n ≤ 70)%nat then Some (n - 65 + 10)%nat
  else None.

Inductive hex_error := InvalidByteError (c : ascii) | ErrLength.

Fixpoint DecodeString (s : list ascii) : list ascii + hex_error :=
  match s with
  | [] => inl []
  | [c] => match fromHexChar c with None => inr (InvalidByteError c) | Some _ => inr ErrLength end
  | p :: q :: s' =>
      match fromHexChar p, fromHexChar q with
      | None, _ => inr (InvalidByteError p)
      | _, None => inr (InvalidByteError q)
      | Some a, Some b =>
          match DecodeString s' with
          | inl bs => inl (ascii_of_nat (a * 16 + b) :: bs)
          | inr e => inr e
          end
      end
  end.

Definition quote : ascii := ascii_of_nat 34.

Definition MarshalJSON (h : HexBytes) : list ascii :=
  match h with
  | None => list_ascii_of_string "null"
  | Some bs => quote :: EncodeToString bs ++ [quote]
  end.

(** [data[1 : len(data)-1]] when [data] is at least two bytes long and quoted. *)
Definition strip_quotes (data : list ascii) : list ascii :=
  if decide (2 ≤ length data ∧ data !! 0 = Some quote ∧ last data = Some quote)%nat
  then take (length data - 2) (drop 1 data) else data.

Definition UnmarshalJSON (data : list ascii) : HexBytes + hex_error :=
  if decide (data = list_ascii_of_string "null") then inl None
  else match DecodeString (strip_quotes data) with
       | inl bs => inl (Some bs)
       | inr e => inr e
       end.

End ArcadeStatus.

Module StatusProps.
Import WdkStatus ArcadeStatus.

(** The status a record ends in when updates arrive one by one and each is kept
    only if the lattice allows it. *)
Definition absorb (prev s : Status) : Status := if CanSupersede s prev then s else prev.
Definition settle (events : list Status) (start : Status) : Status := foldl absorb start events.

Lemma is_one_of_true s l : is_one_of s l = true ↔ s ∈ l.
Proof. apply bool_decide_eq_true. Qed.

(** Decides a closed statement over the known statuses. *)
Lemma all_statuses (P : Status → bool) :
  forallb P AllStatuses = true → ∀ s, s ∈ AllStatuses → P s = true.
Proof. intros H s Hs. rewrite forallb_forall in H. by apply H, list_elem_of_In. Qed.

Lemma absorb_confirmed e p :
  e ∈ AllStatuses → p ∈ AllStatuses →
  absorb p e = if bool_decide (e = StatusImmutable ∨ p = StatusImmutable) then StatusImmutable
               else if bool_decide (e = StatusMined ∨ p = StatusMined) then StatusMined
               else absorb p e.
Proof.
  intros He Hp.
  pose proof (all_statuses (λ e, forallb (λ p, bool_decide (absorb p e =
    if bool_decide (e = StatusImmutable ∨ p = StatusImmutable) then StatusImmutable
    else if bool_decide (e = StatusMined ∨ p = StatusMined) then StatusMined
    else absorb p e)) AllStatuses) eq_refl e He) as H.
  by apply (all_statuses _ H) in Hp; apply bool_decide_eq_true in Hp.
Qed.

Lemma absorb_known e p : e ∈ AllStatuses → p ∈ AllStatuses → absorb p e ∈ AllStatuses.
Proof. rewrite /absorb. by destruct (CanSupersede e p). Qed.

Lemma settle_known es p :
  Forall (.∈ AllStatuses) es → p ∈ AllStatuses →
  settle es p ∈ AllStatuses ∧
  (settle es p = StatusImmutable ↔ StatusImmutable ∈ p :: es) ∧
  (settle es p = StatusMined ↔ StatusImmutable ∉ p :: es ∧ StatusMined ∈ p :: es).
Proof.
  intros Hes. revert p. induction Hes as [|e es He Hes IH]; intros p Hp; simpl.
  { split; [done|]. rewrite !elem_of_cons !elem_of_nil. assert (StatusImmutable ≠ StatusMined) by done.
    split; intuition congruence. }
  destruct (IH (absorb p e)) as (Hk&Hi&Hm); [by apply absorb_known|]. fold (settle es (absorb p e)).
  split; [done|]. rewrite Hi Hm !elem_of_cons.
  pose proof (absorb_confirmed e p He Hp) as Ha.
  assert (StatusImmutable ≠ StatusMined) by done.
  case_bool_decide; [rewrite Ha; intuition congruence|].
  case_bool_decide; [rewrite Ha; intuition congruence|].
  assert (absorb p e ≠ StatusImmutable ∧ absorb p e ≠ StatusMined) as [??].
  { rewrite /absorb. destruct (CanSupersede e p); intuition congruence. }
  intuition congruence.
Qed.

(** the chain's verdict is final and does not depend on delivery order.  For any
    sequence of known status updates applied to a record in a known status through
    the lattice, the record ends IMMUTABLE exactly when IMMUTABLE was its status or
    among the updates, and ends MINED exactly when MINED was and IMMUTABLE was not;
    so no late, duplicated or reordered update pulls a transaction back out of a
    confirmed status. *)
Theorem confirmed_status_is_final es p :
  Forall (.∈ AllStatuses) es → p ∈ AllStatuses →
  (settle es p = StatusImmutable ↔ StatusImmutable ∈ p :: es) ∧
  (settle es p = StatusMined ↔ StatusImmutable ∉ p :: es ∧ StatusMined ∈ p :: es).
Proof. intros Hes Hp. by apply settle_known. Qed.

Lemma confirmed_status_is_final_witness :
  settle [StatusMined; StatusRejected; StatusSeenOnNetwork] StatusReceived = StatusMined.
Proof.
  apply (confirmed_status_is_final [StatusMined; StatusRejected; StatusSeenOnNetwork]
    StatusReceived); [repeat constructor; by apply (bool_decide_unpack _)| |];
    [by apply (bool_decide_unpack _)|by split; apply (bool_decide_unpack _)].
Defined.

(** A terminal status other than MINED can be left: every status that may follow
    REJECTED or DOUBLE_SPEND_ATTEMPTED in the lattice is listed here, so, against
    the comment on terminalStatuses, MINED -> IMMUTABLE is not the only departure
    from a terminal status. *)
Theorem terminal_departures s :
  s ∈ AllStatuses →
  (CanSupersede s StatusRejected = true ↔
     s ∈ [StatusAcceptedByNetwork; StatusSeenOnNetwork; StatusSeenMultipleNodes;
          StatusDoubleSpendAttempted; StatusRejected; StatusMined; StatusImmutable]) ∧
  (CanSupersede s StatusDoubleSpendAttempted = true ↔
     s ∈ [StatusDoubleSpendAttempted; StatusRejected; StatusMined; StatusImmutable]) ∧
  (CanSupersede s StatusMined = true ↔ s ∈ [StatusMined; StatusImmutable]) ∧
  (CanSupersede s StatusImmutable = true ↔ s = StatusImmutable).
Proof.
  intros Hs. unfold AllStatuses in Hs. rewrite !elem_of_cons in Hs.
  destruct_or! Hs; try (by apply not_elem_of_nil in Hs); subst s;
    split_and!; match goal with |- _ ↔ ?P => rewrite -(bool_decide_eq_true P) end;
    vm_compute; split; congruence.
Qed.

Lemma terminal_departures_witness :
  CanSupersede StatusMined StatusRejected = true ∧ IsTerminal StatusRejected = true ∧
  CanSupersede StatusRejected StatusMined = false.
Proof.
  split_and!; [|reflexivity..].
  apply (terminal_departures StatusMined); apply (bool_decide_unpack _); reflexivity.
Defined.

(** The predicates on proof-request statuses agree with one another on every
    string: acceptance evidence is exactly "accepted, unproven" or "mined"; having
    been broadcast adds exactly the reorged state; an in-flight status is still
    sending; a terminal failure is never sending, sent or broadcast; and the
    result reported to a SendWith caller is "failed" exactly for statuses neither
    sending nor sent, which includes every terminal failure and reorg. *)
Theorem proven_predicates_coherent s :
  AlreadySent s = IsAcceptedUnproven s || IsFinalMined s ∧
  WasBroadcastStatus s = AlreadySent s || bool_decide (s = ProvenTxStatusReorg) ∧
  (IsInFlight s = true → Sending s = true) ∧
  (Sending s = true → WasBroadcastStatus s = false) ∧
  (IsTerminalFailure s = true →
     Sending s = false ∧ WasBroadcastStatus s = false ∧ SendWithResult s = SendWithResultStatusFailed) ∧
  (SendWithResult s = SendWithResultStatusFailed ↔ Sending s = false ∧ AlreadySent s = false) ∧
  SendWithResult ProvenTxStatusReorg = SendWithResultStatusFailed.
Proof.
  assert (∀ l l' : list string, (∀ x, x ∈ l → x ∉ l') → is_one_of s l = true → is_one_of s l' = false)
    as Hdis.
  { intros l l' Hl Hs%is_one_of_true. apply bool_decide_eq_false. by apply Hl. }
  split_and!.
  - rewrite /AlreadySent /IsAcceptedUnproven /IsFinalMined /is_one_of -bool_decide_or.
    apply bool_decide_ext. rewrite !elem_of_cons elem_of_nil. tauto.
  - rewrite /AlreadySent /WasBroadcastStatus /is_one_of -bool_decide_or.
    apply bool_decide_ext. rewrite !elem_of_cons elem_of_nil. tauto.
  - rewrite !is_one_of_true !elem_of_cons elem_of_nil. tauto.
  - apply Hdis. by apply Forall_forall, (bool_decide_unpack _).
  - intros Hf. assert (Sending s = false) as Hs.
    { revert Hf. apply Hdis. by apply Forall_forall, (bool_decide_unpack _). }
    assert (AlreadySent s = false) as Ha.
    { revert Hf. apply Hdis. by apply Forall_forall, (bool_decide_unpack _). }
    split_and!; [done| |by rewrite /SendWithResult Hs Ha].
    revert Hf. apply Hdis. by apply Forall_forall, (bool_decide_unpack _).
  - rewrite /SendWithResult. destruct (Sending s), (AlreadySent s); naive_solver.
  - done.
Qed.

Lemma decode_encode_byte b s :
  DecodeString (encode_byte b ++ s) =
  match DecodeString s with inl bs => inl (b :: bs) | inr e => inr e end.
Proof. destruct b as [[] [] [] [] [] [] [] []]; reflexivity. Qed.

Lemma decode_encode bs : DecodeString (EncodeToString bs) = inl bs.
Proof.
  induction bs as [|b bs IH]; [done|].
  change (EncodeToString (b :: bs)) with (encode_byte b ++ EncodeToString bs)%list.
  by rewrite decode_encode_byte IH.
Qed.

Lemma strip_quoted l : strip_quotes (quote :: l ++ [quote]) = l.
Proof.
  rewrite /strip_quotes decide_True.
  - simpl. rewrite length_app /= Nat.add_1_r /= Nat.sub_0_r. by rewrite take_app_length.
  - simpl. rewrite length_app last_cons last_snoc /=. split_and!; [lia|done..].
Qed.

(** The HexBytes codec round-trips every value, and keeps the nil slice (JSON
    null) apart from the empty one (an empty JSON string). *)
Theorem hexbytes_roundtrip h :
  UnmarshalJSON (MarshalJSON h) = inl h ∧ MarshalJSON None ≠ MarshalJSON (Some []).
Proof.
  split; [|done]. destruct h as [bs|]; [|done].
  rewrite /UnmarshalJSON /MarshalJSON. case_decide as Hn; [by injection Hn|].
  by rewrite strip_quoted decode_encode.
Qed.

End StatusProps.
