(* ===== verification/GoStrings.v ===== *)
(** * GoStrings: the string functions the provider uses

    [strconv], [strings] and [regexp] on byte strings, as far as the sources need
    them.  Case mapping and the expressions are those of ASCII text, which is what
    transaction ids and the node's error lines are. *)
From Stdlib Require Import Ascii String.
From S2P Require Import Prelude Statuses.
Import ArcadeStatus.
Local Open Scope Z_scope.

Module GoStrings.

Abbreviation text := (list ascii).
Abbreviation code c := (Z.of_nat (nat_of_ascii c)).
Definition between (lo hi : Z) (c : ascii) : bool := (lo <=? code c) && (code c <=? hi).

Definition is_digit (c : ascii) : bool := between 48 57 c.
Definition is_upper (c : ascii) : bool := between 65 90 c.
Definition is_lower (c : ascii) : bool := between 97 122 c.
Definition is_hex (c : ascii) : bool := match fromHexChar c with Some _ => true | None => false end.
(** [\w]: the characters whose neighbourhood decides a word boundary. *)
Definition is_word (c : ascii) : bool := is_digit c || is_upper c || is_lower c || (code c =? 95).
(** [\s] of a regular expression; [strings.TrimSpace] also drops vertical tabs. *)
Definition is_blank (c : ascii) : bool := bool_decide (code c ∈ [9; 10; 12; 13; 32]).
Definition is_space (c : ascii) : bool := is_blank c || (code c =? 11).

Definition to_upper (c : ascii) : ascii := if is_lower c then ascii_of_nat (nat_of_ascii c - 32) else c.
Definition to_lower (c : ascii) : ascii := if is_upper c then ascii_of_nat (nat_of_ascii c + 32) else c.
Definition ToUpper (s : text) : text := to_upper <$> s.
Definition ToLower (s : text) : text := to_lower <$> s.

Fixpoint drop_while (P : ascii → bool) (s : text) : text :=
  match s with [] => [] | c :: s' => if P c then drop_while P s' else s end.
Fixpoint take_while (P : ascii → bool) (s : text) : text :=
  match s with [] => [] | c :: s' => if P c then c :: take_while P s' else [] end.
Definition TrimSpace (s : text) : text := reverse (drop_while is_space (reverse (drop_while is_space s))).

(** ** Numbers *)

Definition digit_char (d : Z) : ascii := ascii_of_nat (48 + Z.to_nat d).
Definition digit_val (c : ascii) : Z := code c - 48.

(** Decimal digits in front of [acc]; [fuel] more digits may follow the last. *)
Fixpoint format_from (fuel : nat) (n : Z) (acc : text) : text :=
  let acc := digit_char (n mod 10) :: acc in
  match fuel with
  | O => acc
  | S fuel' => if n <? 10 then acc else format_from fuel' (n / 10) acc
  end.
(** [%d] of an unsigned integer; 64 bits need 20 digits. *)
Definition FormatUint (n : Z) : text := format_from 19 n [].

(** [strconv.ParseUint(s, 10, bitSize)]. *)
Definition value_from (n : Z) (s : text) : Z := foldl (λ n c, 10 * n + digit_val c) n s.
Definition ParseUint (bitSize : Z) (s : text) : option Z :=
  match s with
  | [] => None
  | _ => if forallb is_digit s
         then if value_from 0 s <? 2 ^ bitSize then Some (value_from 0 s) else None
         else None
  end.

(** ** Searching *)

(** The text before and after the last [c]. *)
Fixpoint cut_last (c : ascii) (s : text) : option (text * text) :=
  match s with
  | [] => None
  | x :: s' =>
      match cut_last c s' with
      | Some (a, b) => Some (x :: a, b)
      | None => if decide (x = c) then Some ([], s') else None
      end
  end.

Fixpoint has_prefix (p s : text) : bool :=
  match p, s with
  | [], _ => true
  | a :: p', b :: s' => bool_decide (a = b) && has_prefix p' s'
  | _ :: _, [] => false
  end.
Fixpoint Contains (s p : text) : bool :=
  has_prefix p s || match s with [] => false | _ :: s' => Contains s' p end.

(** [strings.Split(s, sep)] for a one-byte separator. *)
Fixpoint Split (sep : ascii) (s : text) : list text :=
  match s with
  | [] => [[]]
  | c :: s' =>
      if decide (c = sep) then [] :: Split sep s'
      else match Split sep s' with [] => [[c]] | l :: ls => (c :: l) :: ls end
  end.

(** ** Lemmas *)

Lemma code_digit d : 0 ≤ d ≤ 9 → code (digit_char d) = 48 + d.
Proof. intros. rewrite /digit_char nat_ascii_embedding; lia. Qed.

Lemma digit_val_char d : 0 ≤ d ≤ 9 → digit_val (digit_char d) = d.
Proof. intros. rewrite /digit_val code_digit; lia. Qed.

Lemma is_digit_char d : 0 ≤ d ≤ 9 → is_digit (digit_char d) = true.
Proof. intros. rewrite /is_digit /between code_digit; [|done]. lia. Qed.

Lemma format_digits fuel n acc :
  0 ≤ n → forallb is_digit acc = true → forallb is_digit (format_from fuel n acc) = true.
Proof.
  revert n acc. induction fuel as [|fuel IH]; intros n acc Hn Hacc; cbn [format_from].
  - cbn. rewrite is_digit_char ?Hacc //. pose proof (Z.mod_pos_bound n 10). lia.
  - assert (Hd : forallb is_digit (digit_char (n mod 10) :: acc) = true).
    { cbn. rewrite is_digit_char ?Hacc //. pose proof (Z.mod_pos_bound n 10). lia. }
    destruct (n <? 10); [done|]. apply IH; [|done]. apply Z.div_pos; lia.
Qed.

Lemma format_value fuel n acc :
  0 ≤ n < 10 ^ (Z.of_nat fuel + 1) → value_from 0 (format_from fuel n acc) = value_from n acc.
Proof.
  revert n acc. induction fuel as [|fuel IH]; intros n acc Hn; cbn [format_from].
  - rewrite {1}/value_from /= digit_val_char; rewrite Z.mod_small; simpl in Hn; try done; lia.
  - pose proof (Z.mod_pos_bound n 10). destruct (Z.ltb_spec n 10).
    + rewrite {1}/value_from /= digit_val_char; rewrite Z.mod_small; try done; lia.
    + rewrite IH.
      * rewrite {1}/value_from /= digit_val_char; [|lia]. rewrite /value_from.
        f_equal. pose proof (Z.div_mod n 10). lia.
      * split; [apply Z.div_pos; lia|]. apply Z.div_lt_upper_bound; [lia|].
        replace (10 * 10 ^ (Z.of_nat fuel + 1)) with (10 ^ (Z.of_nat (S fuel) + 1)); [lia|].
        rewrite -Z.pow_succ_r; [|lia]. f_equal. lia.
Qed.

(** Printing and parsing an unsigned 32-bit number. *)
Lemma ParseUint_FormatUint n : 0 ≤ n < 2 ^ 32 → ParseUint 32 (FormatUint n) = Some n.
Proof.
  intros Hn. rewrite /ParseUint /FormatUint.
  destruct (format_from 19 n []) as [|c s] eqn:Hs.
  { cbn [format_from] in Hs. exfalso. revert Hs. repeat case_match; done. }
  rewrite -Hs format_digits //; [|lia]. rewrite format_value /=; [|lia]. by rewrite (proj2 (Z.ltb_lt _ _)); [|lia].
Qed.

Lemma cut_last_app c a b : c ∉ b → cut_last c (a ++ c :: b) = Some (a, b).
Proof.
  intros Hb. induction a as [|x a IH]; simpl; [|by rewrite IH].
  assert (cut_last c b = None) as ->.
  { induction b as [|y b IH]; [done|]. simpl. apply not_elem_of_cons in Hb as [Hy Hb].
    rewrite IH //. by case_decide. }
  by rewrite decide_True.
Qed.

Lemma has_prefix_spec p s : has_prefix p s = true ↔ ∃ b, s = (p ++ b)%list.
Proof.
  revert s. induction p as [|a p IH]; intros s; simpl; [naive_solver|].
  destruct s as [|x s]; [naive_solver|]. rewrite andb_true_iff bool_decide_eq_true IH. naive_solver.
Qed.

Lemma Contains_spec s p : Contains s p = true ↔ ∃ a b, s = (a ++ p ++ b)%list.
Proof.
  induction s as [|c s IH]; simpl; rewrite orb_true_iff has_prefix_spec.
  - split; [intros [[b ?]|?]; [by exists [], b|done]|]. intros (a&b&Hab). left. exists b.
    by destruct a.
  - rewrite IH. split.
    + intros [[b Hb]|(a&b&->)]; [by exists [], b|by exists (c :: a), b].
    + intros ([|x a]&b&Hab); simplify_eq/=; [left; by eexists|right; by eexists _, _].
Qed.

Lemma Split_infix sep s l : l ∈ Split sep s → ∃ a b, s = (a ++ l ++ b)%list.
Proof.
  revert l. cut (∀ l, (l ∈ tail (Split sep s) → ∃ a b, s = (a ++ l ++ b)%list) ∧
                      (head (Split sep s) = Some l → ∃ b, s = (l ++ b)%list)).
  { intros Hs l Hl. specialize (Hs l) as [Ht Hh]. destruct (Split sep s) as [|l' ls]; [by apply not_elem_of_nil in Hl|].
    apply elem_of_cons in Hl as [->|Hl]; [|by apply Ht]. destruct (Hh eq_refl) as [b ->]. by exists [], b. }
  induction s as [|c s IH]; intros l; simpl.
  { split; [intros []%not_elem_of_nil|]. intros [= <-]. by exists []. }
  case_decide as Hc; simpl.
  - split; [|intros [= <-]; by eexists]. intros Hl. destruct (IH l) as [Ht Hh].
    destruct (Split sep s) as [|l' ls]; [by apply not_elem_of_nil in Hl|].
    apply elem_of_cons in Hl as [->|Hl].
    + destruct (Hh eq_refl) as [b ->]. by exists [c], b.
    + destruct (Ht Hl) as (a&b&->). by exists (c :: a), b.
  - destruct (Split sep s) as [|l' ls]; simpl.
    + split; [intros []%not_elem_of_nil|]. intros [= <-]. by eexists.
    + destruct (IH l) as [Ht _]. split.
      * intros Hl. destruct (Ht Hl) as (a&b&->). by exists (c :: a), b.
      * intros [= <-]. destruct (IH l') as [_ Hh]. destruct (Hh eq_refl) as [b ->]. by exists b.
Qed.

Lemma take_drop_while P s : s = (take_while P s ++ drop_while P s)%list.
Proof. induction s as [|c s IH]; simpl; [done|]. case_match; simpl; congruence. Qed.
End GoStrings.

(** * Encoding: base64 and JSON number arrays

    [encoding/base64] with the standard alphabet, and the part of [encoding/json] that
    reads an array of 16-bit numbers. *)
Import ArcadeStatus GoStrings.
Local Open Scope Z_scope.

Module Encoding.

(** ** Base64 *)

Definition encodeStd : list ascii :=
  list_ascii_of_string "ABCDEFGHIJKLMNOPQRSTUVWXYZabcdefghijklmnopqrstuvwxyz0123456789+/".
Definition digit (z : Z) : ascii := default "="%char (encodeStd !! Z.to_nat (Z.land z 63)).
Definition pad : ascii := "="%char.

Fixpoint EncodeBase64 (src : text) : text :=
  match src with
  | [] => []
  | [x] => let v := Z.shiftl (code x) 16 in
           [digit (Z.shiftr v 18); digit (Z.shiftr v 12); pad; pad]
  | [x; y] => let v := Z.lor (Z.shiftl (code x) 16) (Z.shiftl (code y) 8) in
              [digit (Z.shiftr v 18); digit (Z.shiftr v 12); digit (Z.shiftr v 6); pad]
  | x :: y :: z :: rest =>
      let v := Z.lor (Z.lor (Z.shiftl (code x) 16) (Z.shiftl (code y) 8)) (code z) in
      digit (Z.shiftr v 18) :: digit (Z.shiftr v 12) :: digit (Z.shiftr v 6) :: digit v :: EncodeBase64 rest
  end.

(** The place of a character in the alphabet. *)
Definition decodeMap (c : ascii) : option Z := Z.of_nat <$> (list_find (λ d, d = c) encodeStd ≫= λ p, Some p.1).
Definition byte_of (z : Z) : ascii := ascii_of_nat (Z.to_nat (Z.land z 255)).
Definition newline (c : ascii) : bool := bool_decide (code c ∈ [10; 13]).

(** [DecodeString], newlines dropped: four characters give three bytes, and a padded
    group ends the text.  The bits a short group leaves over are not looked at. *)
Fixpoint decode_groups (s : text) : option text :=
  match s with
  | [] => Some []
  | a :: b :: c :: d :: rest =>
      x ← decodeMap a; y ← decodeMap b;
      if decide (c = pad) then
        if decide (d = pad ∧ rest = []) then Some [byte_of (Z.lor (Z.shiftl x 2) (Z.shiftr y 4))] else None
      else
        z ← decodeMap c;
        if decide (d = pad) then
          if decide (rest = []) then
            Some [byte_of (Z.lor (Z.shiftl x 2) (Z.shiftr y 4)); byte_of (Z.lor (Z.shiftl y 4) (Z.shiftr z 2))]
          else None
        else
          w ← decodeMap d;
          bs ← decode_groups rest;
          Some (byte_of (Z.lor (Z.shiftl x 2) (Z.shiftr y 4)) :: byte_of (Z.lor (Z.shiftl y 4) (Z.shiftr z 2)) ::
                byte_of (Z.lor (Z.shiftl z 6) w) :: bs)
  | _ => None
  end.
Definition DecodeBase64 (s : text) : option text := decode_groups (filter (λ c, newline c = false) s).

(** ** JSON arrays of uint16 *)

Definition is_json_space (c : ascii) : bool := bool_decide (code c ∈ [9; 10; 13; 32]).
Definition skip_ws (s : text) : text := drop_while is_json_space s.
Definition null : text := list_ascii_of_string "null".

(** An element: [null] leaves the zero value; a number has no leading zero, sign,
    fraction or exponent and fits 16 bits. *)
Definition parse_element (s : text) : option (Z * text) :=
  if has_prefix null s then Some (0, drop 4 s)
  else
    let digits := take_while is_digit s in
    if has_prefix (list_ascii_of_string "0") digits && negb (Nat.eqb (length digits) 1) then None
    else n ← ParseUint 16 digits; Some (n, drop_while is_digit s).
Fixpoint parse_elements (fuel : nat) (s : text) : option (list Z * text) :=
  match fuel with
  | O => None
  | S fuel' =>
      '(n, rest) ← parse_element (skip_ws s);
      match skip_ws rest with
      | c :: rest' =>
          if decide (c = "]"%char) then Some ([n], rest')
          else if decide (c = ","%char) then '(ns, rest'') ← parse_elements fuel' rest'; Some (n :: ns, rest'')
          else None
      | [] => None
      end
  end.
(** [json.Unmarshal(data, &nums)] for [nums []uint16]. *)
Definition UnmarshalNumbers (data : text) : option (list Z) :=
  let s := skip_ws data in
  let '(r, rest) :=
    match s with
    | c :: s' =>
        if decide (c = "["%char) then
          match skip_ws s' with
          | d :: s'' =>
              if decide (d = "]"%char) then (Some [], s'')
              else match parse_elements (length data) s' with Some (ns, rest) => (Some ns, rest) | None => (None, []) end
          | [] => (None, [])
          end
        else if has_prefix null s then (Some [], drop 4 s) else (None, [])
    | [] => (None, [])
    end in
  match skip_ws rest with [] => r | _ => None end.

(** ** Lemmas *)

(** A byte by its number. *)
Lemma byte_of_code c : byte_of (code c) = c.
Proof.
  rewrite /byte_of. pose proof (nat_ascii_bounded c).
  rewrite (Z.land_ones _ 8) // Z.mod_small; [|lia]. by rewrite Nat2Z.id ascii_nat_embedding.
Qed.

Lemma decodeMap_digit z : decodeMap (digit z) = Some (Z.land z 63).
Proof.
  assert (Hall : Forall (λ n, decodeMap (digit (Z.of_nat n)) = Some (Z.of_nat n)) (seq 0 64)).
  { repeat constructor; vm_compute; reflexivity. }
  pose proof (Z.mod_pos_bound z 64). rewrite Forall_forall in Hall. specialize (Hall (Z.to_nat (z mod 64))).
  rewrite Z2Nat.id in Hall; [|lia]. rewrite (Z.land_ones z 6) //.
  rewrite -Hall; [|apply elem_of_seq; lia]. rewrite /digit (Z.land_ones z 6) // (Z.land_ones (z mod _) 6) //.
  by rewrite Z.mod_mod.
Qed.
Lemma digit_pad z : digit z ≠ pad.
Proof. intros E. pose proof (decodeMap_digit z) as D. rewrite E in D. vm_compute in D. done. Qed.

Lemma code_testbit c n : 8 ≤ n → Z.testbit (code c) n = false.
Proof.
  intros. pose proof (nat_ascii_bounded c). rewrite -(Z.mod_small (code c) (2 ^ 8)); [|lia].
  apply Z.mod_pow2_bits_high. lia.
Qed.

(** An equation between a byte and bits picked from bytes, bit by bit. *)
Ltac eval_index :=
  match goal with
  | |- context [Z.testbit ?a (?i + ?k)] => let v := eval vm_compute in (i + k) in change (i + k) with v
  | |- context [Z.testbit ?a (?i - ?k)] => let v := eval vm_compute in (i - k) in change (i - k) with v
  end.
Ltac bit_steps :=
  repeat first
    [ progress rewrite ?Z.land_spec ?Z.lor_spec
    | rewrite Z.shiftl_spec; [|lia] | rewrite Z.shiftr_spec; [|lia] | eval_index
    | match goal with |- context [Z.testbit ?a ?k] => rewrite (Z.testbit_neg_r a k); [|lia] end
    | match goal with |- context [Z.testbit (Z.of_nat (nat_of_ascii ?c)) ?k] => rewrite (code_testbit c k); [|lia] end ].
Ltac byte_bits :=
  apply Z.bits_inj'; intros n Hn; destruct (Z_lt_le_dec n 8);
  [ assert (Hin : n = 0 ∨ n = 1 ∨ n = 2 ∨ n = 3 ∨ n = 4 ∨ n = 5 ∨ n = 6 ∨ n = 7) by lia;
    destruct Hin as [-> | [-> | [-> | [-> | [-> | [-> | [-> | ->]]]]]]]; bit_steps;
    by rewrite /= ?andb_true_r ?andb_false_r ?orb_false_r
  | rewrite !Z.land_spec !(Z.bits_above_log2 255) ?andb_false_r; solve [done | simpl; lia] ].

(** The three bytes of a group [v], from its four digits. *)
Lemma group_byte1 v : Z.land (Z.lor (Z.shiftl (Z.land (Z.shiftr v 18) 63) 2) (Z.shiftr (Z.land (Z.shiftr v 12) 63) 4)) 255 =
  Z.land (Z.shiftr v 16) 255.
Proof. byte_bits. Qed.
Lemma group_byte2 v : Z.land (Z.lor (Z.shiftl (Z.land (Z.shiftr v 12) 63) 4) (Z.shiftr (Z.land (Z.shiftr v 6) 63) 2)) 255 =
  Z.land (Z.shiftr v 8) 255.
Proof. byte_bits. Qed.
Lemma group_byte3 v : Z.land (Z.lor (Z.shiftl (Z.land (Z.shiftr v 6) 63) 6) (Z.land v 63)) 255 = Z.land v 255.
Proof. byte_bits. Qed.

Lemma land_code c : Z.land (code c) 255 = code c.
Proof. pose proof (nat_ascii_bounded c). rewrite (Z.land_ones _ 8) // Z.mod_small //. lia. Qed.
Lemma byte_of_group v c : Z.land v 255 = Z.land (code c) 255 → byte_of v = c.
Proof. intros E. by rewrite -(byte_of_code c) /byte_of E. Qed.

(** Decoding what was encoded gives the bytes back. *)
Lemma decode_EncodeBase64 bs : decode_groups (EncodeBase64 bs) = Some bs.
Proof.
  revert bs. apply (well_founded_ind (well_founded_ltof _ (@length ascii))). intros bs IH. rewrite /ltof in IH.
  destruct bs as [|x [|y [|z rest]]]; [done| | |]; cbn [EncodeBase64 decode_groups];
    rewrite !decodeMap_digit; cbn [mbind option_bind].
  - do 2 (case_decide; [|tauto]). do 2 f_equal.
    apply byte_of_group. rewrite group_byte1. byte_bits.
  - rewrite decide_False; [|apply digit_pad]. cbn.
    do 2 f_equal; [|f_equal]; apply byte_of_group; rewrite ?group_byte1 ?group_byte2; byte_bits.
  - rewrite decide_False; [|apply digit_pad]. rewrite decide_False; [|apply digit_pad].
    rewrite IH; [|simpl; lia]. cbn. do 2 f_equal; [|f_equal; [|f_equal]]; apply byte_of_group;
      rewrite ?group_byte1 ?group_byte2 ?group_byte3; byte_bits.
Qed.

(** A property of the digits and the padding holds of every encoded character. *)
Lemma Encode_Forall (P : ascii → Prop) bs : P pad → (∀ z, P (digit z)) → Forall P (EncodeBase64 bs).
Proof.
  intros Hp Hd. revert bs. apply (well_founded_ind (well_founded_ltof _ (@length ascii))).
  intros bs IH. rewrite /ltof in IH.
  destruct bs as [|x [|y [|z rest]]]; cbn [EncodeBase64]; repeat (constructor; [solve [auto]|]); [constructor..|].
  apply IH. simpl. lia.
Qed.
Lemma Encode_length bs : length (EncodeBase64 bs) = (4 * ((length bs + 2) / 3))%nat.
Proof.
  revert bs. apply (well_founded_ind (well_founded_ltof _ (@length ascii))). intros bs IH. rewrite /ltof in IH.
  destruct bs as [|x [|y [|z rest]]]; [done..|]. cbn [EncodeBase64 length]. rewrite IH; [|simpl; lia].
  replace (S (S (S (length rest))) + 2)%nat with (length rest + 2 + 1 * 3)%nat by lia.
  rewrite Nat.div_add //. lia.
Qed.

Lemma newline_digit z : newline (digit z) = false.
Proof.
  pose proof (decodeMap_digit z) as D. destruct (newline (digit z)) eqn:E; [|done]. exfalso.
  apply bool_decide_eq_true in E. rewrite !elem_of_cons elem_of_nil in E.
  assert (Hc : digit z = ascii_of_nat 10 ∨ digit z = ascii_of_nat 13).
  { destruct E as [E | [E | []]]; [left | right]; rewrite -(ascii_nat_embedding (digit z)); f_equal; lia. }
  by destruct Hc as [Hc | Hc]; rewrite Hc in D; vm_compute in D.
Qed.
Lemma filter_keep (P : ascii → bool) s : Forall (λ c, P c = false) s → filter (λ c, P c = false) s = s.
Proof. induction 1 as [|c s Hc _ IH]; [done|]. by rewrite filter_cons_True // IH. Qed.
Lemma Decode_EncodeBase64 bs : DecodeBase64 (EncodeBase64 bs) = Some bs.
Proof.
  rewrite /DecodeBase64 filter_keep ?decode_EncodeBase64 //.
  apply Encode_Forall; [done | apply newline_digit].
Qed.
End Encoding.

(** * Sha256: the hash of the standard library's crypto/sha256

    FIPS 180-4, on bytes; [Sum256] is what the abort path derives its outbox keys
    with ([pkg/storage/abort.go]). *)
Local Open Scope Z_scope.

Module Sha256.

Abbreviation add a b := (u32 (a + b)).
Definition rotr (n x : Z) : Z := Z.lor (Z.shiftr x n) (u32 (Z.shiftl x (32 - n))).
Definition Ch (x y z : Z) : Z := Z.lxor (Z.land x y) (Z.land (Z.lxor x (2 ^ 32 - 1)) z).
Definition Maj (x y z : Z) : Z := Z.lxor (Z.lxor (Z.land x y) (Z.land x z)) (Z.land y z).
Definition Sigma0 (x : Z) : Z := Z.lxor (Z.lxor (rotr 2 x) (rotr 13 x)) (rotr 22 x).
Definition Sigma1 (x : Z) : Z := Z.lxor (Z.lxor (rotr 6 x) (rotr 11 x)) (rotr 25 x).
Definition sigma0 (x : Z) : Z := Z.lxor (Z.lxor (rotr 7 x) (rotr 18 x)) (Z.shiftr x 3).
Definition sigma1 (x : Z) : Z := Z.lxor (Z.lxor (rotr 17 x) (rotr 19 x)) (Z.shiftr x 10).

(** The round constants and the initial state: 32 bits of the fractions of the cube
    roots of the first 64 primes, and of the square roots of the first eight. *)
Definition is_prime (n : Z) : bool :=
  forallb (λ d, negb (n mod Z.of_nat d =? 0)) (seq 2 (Z.to_nat (Z.sqrt n) - 1)).
Definition primes : list Z := filter (λ n, is_prime n = true) (Z.of_nat <$> seq 2 310).

(** The largest [x + y] with [y < 2^k] whose cube is at most [n]. *)
Fixpoint cbrt_from (k : nat) (x n : Z) : Z :=
  match k with
  | O => x
  | S k' => let x' := x + 2 ^ Z.of_nat k' in cbrt_from k' (if x' ^ 3 <=? n then x' else x) n
  end.
Definition round_constants : list Z :=
  Eval vm_compute in (λ p, u32 (cbrt_from 36 0 (p * 2 ^ 96))) <$> primes.
Definition initial_state : list Z :=
  Eval vm_compute in (λ p, u32 (Z.sqrt (p * 2 ^ 64))) <$> take 8 primes.

(** [n] bytes of [z], most significant first. *)
Fixpoint be_bytes (n : nat) (z : Z) : list Z :=
  match n with O => [] | S n' => Z.shiftr z (8 * Z.of_nat n') mod 256 :: be_bytes n' z end.

(** A one bit, zeros up to 56 modulo 64, and the length in bits. *)
Definition pad (msg : list Z) : list Z :=
  let len := Z.of_nat (length msg) in
  (msg ++ 0x80 :: replicate (Z.to_nat ((55 - len) mod 64)) 0 ++ be_bytes 8 (8 * len))%list.

Fixpoint words (bs : list Z) : list Z :=
  match bs with
  | a :: b :: c :: d :: bs' => Z.shiftl a 24 + Z.shiftl b 16 + Z.shiftl c 8 + d :: words bs'
  | _ => []
  end.

(** The message schedule, newest word first. *)
Fixpoint extend (n : nat) (w : list Z) : list Z :=
  match n with
  | O => w
  | S n' =>
      let at_ i := nth i w 0 in
      extend n' (add (add (sigma1 (at_ 1%nat)) (at_ 6%nat)) (add (sigma0 (at_ 14%nat)) (at_ 15%nat)) :: w)
  end.

Definition round (st : list Z) (kw : Z * Z) : list Z :=
  match st with
  | [a; b; c; d; e; f; g; h] =>
      let t1 := add (add (add h (Sigma1 e)) (add (Ch e f g) kw.1)) kw.2 in
      let t2 := add (Sigma0 a) (Maj a b c) in
      [add t1 t2; a; b; c; add d t1; e; f; g]
  | _ => st
  end.

Definition block (st : list Z) (w : list Z) : list Z :=
  zip_with (λ x y, add x y) st (foldl round st (zip round_constants (reverse (extend 48 (reverse w))))).

Fixpoint blocks (n : nat) (st ws : list Z) : list Z :=
  match n with O => st | S n' => blocks n' (block st (take 16 ws)) (drop 16 ws) end.

Definition Sum256 (msg : list ascii) : list ascii :=
  let ws := words (pad ((λ c, Z.of_nat (nat_of_ascii c)) <$> msg)) in
  (λ b, ascii_of_nat (Z.to_nat b)) <$> (blocks (length ws / 16) initial_state ws ≫= be_bytes 4).

(** The standard's first test vector. *)
Example Sum256_abc :
  (λ c, Z.of_nat (nat_of_ascii c)) <$> Sum256 (list_ascii_of_string "abc") =
  be_bytes 32 0xba7816bf8f01cfea414140de5dae2223b00361a396177a9cb410ff61f20015ad.
Proof. by vm_compute. Qed.
End Sha256.
