(* ===== verification/Satoshi.v ===== *)
(** * Satoshi: bounded satoshi arithmetic

    [pkg/internal/satoshi/satoshi.go]: the signed value type the funder computes
    fees and change in.  A Go integer is its kind and its mathematical value; a
    satoshi [Value] is an int64.  Results are [Ret] or an error, the [Must]
    variants panic instead. *)
From S2P Require Import Prelude.
Local Open Scope Z_scope.

Module Satoshi.

(** [primitives.MaxSatoshis]. *)
Definition MaxSatoshis : Z := 2100000000000000.

(** The kinds a [types.Integer] may have.  [KSigned] and [KUnsigned] are the sized
    and named kinds that reach [validateGeneric] through reflection. *)
Inductive kind := KInt | KInt64 | KUint | KUint64 | KValue | KSigned (w : Z) | KUnsigned (w : Z) | KUintptr.

Record integer := mkInt { i_kind : kind; i_val : Z }.

(** The values a Go variable of the kind can hold (64-bit platform). *)
Definition representable (i : integer) : Prop :=
  match i_kind i with
  | KInt | KInt64 | KValue => - 2 ^ 63 ≤ i_val i < 2 ^ 63
  | KUint | KUint64 | KUintptr => 0 ≤ i_val i < 2 ^ 64
  | KSigned w => 0 < w ≤ 64 ∧ - 2 ^ (w - 1) ≤ i_val i < 2 ^ (w - 1)
  | KUnsigned w => 0 < w ≤ 64 ∧ 0 ≤ i_val i < 2 ^ w
  end.

Inductive sats_error := ExceededMax (v : Z) | BelowMin (v : Z) | UnsupportedType | NegativeToUint64.

Abbreviation sres A := (outcome sats_error A).

Definition validateInt (v : Z) : option sats_error :=
  if MaxSatoshis <? v then Some (ExceededMax v)
  else if v <? - MaxSatoshis then Some (BelowMin v)
  else None.

Definition validateUint (v : Z) : option sats_error :=
  if MaxSatoshis <? v then Some (ExceededMax v) else None.

Definition validateGeneric (i : integer) : option sats_error :=
  match i_kind i with
  | KInt | KInt64 | KValue | KSigned _ => validateInt (i_val i)
  | KUint | KUint64 | KUnsigned _ => validateUint (i_val i)
  | KUintptr => Some UnsupportedType
  end.

Definition Validate (i : integer) : option sats_error :=
  match i_kind i with
  | KInt | KInt64 => validateInt (i_val i)
  | KUint | KUint64 => validateUint (i_val i)
  | KValue => validateInt (i_val i)
  | _ => validateGeneric i
  end.

(** The conversion [Value(value)] keeps the low 64 bits. *)
Definition From (i : integer) : sres Z :=
  match Validate i with Some e => Err e | None => Ret (i64 (i_val i)) end.

(** [v, err := f(); if err != nil { panic(err) }]. *)
Definition must {A} (r : sres A) : sres A :=
  match r with Err _ => Panic | _ => r end.

Definition MustFrom (i : integer) : sres Z := must (From i).

Definition Zero : Z := 0.

Definition UInt64 (v : Z) : sres Z := if v <? 0 then Err NegativeToUint64 else Ret (u64 v).
Definition MustUInt64 (v : Z) : sres Z := must (UInt64 v).

(** The shared shape of the binary operations: convert both, compute in int64,
    validate the result. *)
Definition binop (f : Z → Z → Z) (a b : integer) : sres Z :=
  match From a with
  | Ret satsA =>
      match From b with
      | Ret satsB =>
          let c := i64 (f satsA satsB) in
          match validateInt c with Some e => Err e | None => Ret c end
      | r => r
      end
  | r => r
  end.

(** [Add] validates through [Validate] on a [Value], the others through
    [validateInt]; the two coincide on that kind. *)
Definition Add (a b : integer) : sres Z :=
  match From a with
  | Ret satsA =>
      match From b with
      | Ret satsB =>
          let c := i64 (satsA + satsB) in
          match Validate (mkInt KValue c) with Some e => Err e | None => Ret c end
      | r => r
      end
  | r => r
  end.
Definition Subtract (a b : integer) : sres Z := binop Z.sub a b.
Definition Multiply (a b : integer) : sres Z := binop Z.mul a b.
Definition MustAdd (a b : integer) : sres Z := must (Add a b).
Definition MustSubtract (a b : integer) : sres Z := must (Subtract a b).
Definition MustMultiply (a b : integer) : sres Z := must (Multiply a b).

Definition Equal (a b : integer) : sres bool :=
  match From a with
  | Ret satsA =>
      match From b with
      | Ret satsB => Ret (satsA =? satsB)
      | Err e => Err e
      | Panic => Panic
      end
  | Err e => Err e
  | Panic => Panic
  end.
Definition MustEqual (a b : integer) : sres bool := must (Equal a b).

(** The loop of [Sum] from the running total [val]. *)
Fixpoint sum_from (val : Z) (values : list integer) : sres Z :=
  match values with
  | [] => Ret val
  | it :: rest =>
      match From it with
      | Ret satsB =>
          let val' := i64 (val + satsB) in
          match validateInt val' with Some e => Err e | None => sum_from val' rest end
      | r => r
      end
  end.
Definition Sum (values : list integer) : sres Z := sum_from Zero values.
Definition MustSum (values : list integer) : sres Z := must (Sum values).

(** ** Properties *)

Definition in_supply (v : Z) : Prop := - MaxSatoshis ≤ v ≤ MaxSatoshis.

Lemma i64_id v : - 2 ^ 63 ≤ v < 2 ^ 63 → i64 v = v.
Proof. intros H. rewrite /wrapS Z.mod_small /=; lia. Qed.

Lemma i64_supply v : in_supply v → i64 v = v.
Proof. rewrite /in_supply /MaxSatoshis => H. apply i64_id. lia. Qed.

Lemma validateInt_None v : validateInt v = None ↔ in_supply v.
Proof.
  rewrite /validateInt /in_supply. destruct (Z.ltb_spec MaxSatoshis v); [split; [done|lia]|].
  destruct (Z.ltb_spec v (- MaxSatoshis)); split; (done || lia).
Qed.

Lemma validateUint_None v : 0 ≤ v → validateUint v = None ↔ in_supply v.
Proof.
  rewrite /validateUint /in_supply => H.
  destruct (Z.ltb_spec MaxSatoshis v); unfold MaxSatoshis in *; split; (done || lia).
Qed.

Lemma Validate_None i :
  representable i → Validate i = None ↔ i_kind i ≠ KUintptr ∧ in_supply (i_val i).
Proof.
  destruct i as [[] v]; rewrite /representable /Validate /validateGeneric /=; intros Hr;
    rewrite ?validateInt_None ?validateUint_None; try lia; naive_solver.
Qed.

Lemma From_Ret i v :
  representable i →
  From i = Ret v ↔ i_kind i ≠ KUintptr ∧ in_supply (i_val i) ∧ v = i_val i.
Proof.
  intros Hr. rewrite /From. destruct (Validate i) eqn:Hv.
  - split; [done|]. intros (?&?&_). by rewrite (proj2 (Validate_None i Hr)) in Hv.
  - apply Validate_None in Hv as [Hk Hs]; [|done]. rewrite (i64_supply _ Hs). naive_solver.
Qed.

Lemma From_ok i :
  representable i → i_kind i ≠ KUintptr → in_supply (i_val i) → From i = Ret (i_val i).
Proof. intros. by apply From_Ret. Qed.

Lemma From_no_panic i : From i ≠ Panic.
Proof. rewrite /From. by destruct (Validate i). Qed.

(** What a checked operation promises: the exact result, or an error and then the
    operands or the exact result are outside the supply bounds. *)
Definition exact (f : Z → Z → Z) (a b : integer) (r : sres Z) : Prop :=
  ∀ v, r = Ret v ↔
    (i_kind a ≠ KUintptr ∧ in_supply (i_val a)) ∧ (i_kind b ≠ KUintptr ∧ in_supply (i_val b)) ∧
    in_supply (f (i_val a) (i_val b)) ∧ v = f (i_val a) (i_val b).

Lemma binop_exact f a b :
  representable a → representable b →
  (in_supply (i_val a) → in_supply (i_val b) →
     - 2 ^ 63 ≤ f (i_val a) (i_val b) < 2 ^ 63) →
  exact f a b (binop f a b).
Proof.
  intros Ha Hb Hf v. rewrite /binop. destruct (From a) as [x|e|] eqn:Hx.
  - apply From_Ret in Hx as (?&?&->); [|done]. destruct (From b) as [y|e|] eqn:Hy.
    + apply From_Ret in Hy as (?&?&->); [|done]. rewrite i64_id; [|by apply Hf].
      destruct (validateInt _) eqn:Hc.
      * split; [done|]. intros (_&_&Hs&_). by rewrite (proj2 (validateInt_None _)) in Hc.
      * apply validateInt_None in Hc. naive_solver.
    + split; [done|]. intros (_&[??]&_). by rewrite From_ok in Hy.
    + by apply From_no_panic in Hy.
  - split; [done|]. intros ([??]&_). by rewrite From_ok in Hx.
  - by apply From_no_panic in Hx.
Qed.

Lemma Add_binop a b : Add a b = binop Z.add a b.
Proof. done. Qed.

(** Addition and subtraction never wrap: for any two Go integers they return the
    exact sum or difference when both operands and the result are within the
    supply bounds, and an error in every other case. *)
Theorem add_subtract_exact a b :
  representable a → representable b →
  exact Z.add a b (Add a b) ∧ exact Z.sub a b (Subtract a b).
Proof.
  intros Ha Hb. rewrite Add_binop /Subtract.
  split; apply binop_exact; try done; unfold in_supply, MaxSatoshis; lia.
Qed.

Lemma add_subtract_exact_witness :
  Add (mkInt KUint64 5) (mkInt KInt (-7)) = Ret (-2).
Proof.
  apply (add_subtract_exact (mkInt KUint64 5) (mkInt KInt (-7)));
    unfold representable, in_supply, MaxSatoshis; simpl; try lia.
  split_and!; (done || lia).
Defined.

(** multiplication is exact only while the product fits an int64: operands within
    the supply whose product does not wrap give the exact product or an error; but
    the product is taken in 64-bit arithmetic before it is checked, so there are
    operands within the supply whose product is far outside it and which are
    answered with a wrong value and no error (2^32 times 2^32 is answered 0). *)
Theorem multiply_exact_unless_wrapped a b :
  representable a → representable b →
  - 2 ^ 63 ≤ i_val a * i_val b < 2 ^ 63 →
  exact Z.mul a b (Multiply a b) ∧
  Multiply (mkInt KUint64 (2 ^ 32)) (mkInt KUint64 (2 ^ 32)) = Ret 0 ∧
  in_supply (2 ^ 32) ∧ ¬ in_supply (2 ^ 32 * 2 ^ 32).
Proof.
  intros Ha Hb Hf. split_and!.
  - by apply binop_exact.
  - by vm_compute.
  - by unfold in_supply, MaxSatoshis.
  - unfold in_supply, MaxSatoshis. lia.
Qed.

Lemma multiply_exact_unless_wrapped_witness :
  Multiply (mkInt KInt64 1000) (mkInt KUint 3) = Ret 3000.
Proof.
  apply (multiply_exact_unless_wrapped (mkInt KInt64 1000) (mkInt KUint 3));
    unfold representable, in_supply, MaxSatoshis; simpl; try lia.
  split_and!; (done || lia).
Defined.

(** The exact running totals of a list. *)
Fixpoint totals (acc : Z) (vs : list Z) : list Z :=
  match vs with [] => [] | v :: vs' => (acc + v) :: totals (acc + v) vs' end.
Definition zsum (vs : list Z) : Z := foldr Z.add 0 vs.

Lemma sum_from_exact val values v :
  in_supply val → Forall representable values →
  sum_from val values = Ret v ↔
    Forall (λ i, i_kind i ≠ KUintptr ∧ in_supply (i_val i)) values ∧
    Forall in_supply (totals val (i_val <$> values)) ∧ v = val + zsum (i_val <$> values).
Proof.
  intros Hval Hr. revert val Hval. induction Hr as [|i values Hi Hr IH]; intros val Hval; simpl.
  { rewrite !Forall_nil Z.add_0_r. naive_solver. }
  rewrite !Forall_cons. destruct (From i) as [x|e|] eqn:Hx.
  - apply From_Ret in Hx as (?&?&->); [|done].
    rewrite i64_id; [|unfold in_supply, MaxSatoshis in *; lia].
    destruct (validateInt _) eqn:Hc.
    + split; [done|]. intros (_&[Hs _]&_). by rewrite (proj2 (validateInt_None _)) in Hc.
    + apply validateInt_None in Hc. rewrite IH // Z.add_assoc. naive_solver.
  - split; [done|]. intros ([[??] _]&_). by rewrite From_ok in Hx.
  - by apply From_no_panic in Hx.
Qed.

(** Sum returns the exact total, and does so exactly when every item and every
    running total is within the supply bounds. *)
Theorem sum_exact values v :
  Forall representable values →
  Sum values = Ret v ↔
    Forall (λ i, i_kind i ≠ KUintptr ∧ in_supply (i_val i)) values ∧
    Forall in_supply (totals 0 (i_val <$> values)) ∧ v = zsum (i_val <$> values).
Proof. intros Hr. by rewrite /Sum sum_from_exact. Qed.

Lemma sum_exact_witness :
  Sum [mkInt KUint64 700; mkInt KUint64 300] = Ret 1000.
Proof.
  apply sum_exact; [repeat constructor|split_and!; repeat constructor]; try done;
    unfold in_supply, MaxSatoshis; simpl; lia.
Defined.

End Satoshi.
