(* ===== verification/Primitives.v ===== *)
(** * Primitives: the validated value types of the wallet data model

    [pkg/wdk/primitives]: strings with a length or a format, outpoint strings, satoshi
    values, byte arrays on the wire.  A [Validate] method is a [verdict]: [Err] with the
    message, without the values it quotes.  A type of the code that only names a string
    or a number is that string or number here.  Number parsing from
    [github.com/go-softwarelab/common] is [ToLib]. *)
From Stdlib Require Import Ascii String.
From S2P Require Import Prelude Statuses GoStrings Satoshi.
Import ArcadeStatus GoStrings Encoding.
Local Open Scope string_scope.
Local Open Scope Z_scope.

(** [to.UInt64FromString], [to.UInt32FromString] ([None] is an error) and
    [must.ConvertToUInt32] ([None] is its panic). *)
Class ToLib := {
  UInt64FromString : string → option Z;
  UInt32FromString : string → option Z;
  ConvertToUInt32 : Z → option Z;
}.
Class ToLibLaws (T : ToLib) : Prop := {
  UInt32FromString_digits : ∀ n, 0 ≤ n < 2 ^ 32 →
    UInt32FromString (string_of_list_ascii (FormatUint n)) = Some n;
  UInt64FromString_digits : ∀ n, 0 ≤ n < 2 ^ 32 →
    UInt64FromString (string_of_list_ascii (FormatUint n)) = Some n;
  ConvertToUInt32_fits : ∀ n, 0 ≤ n < 2 ^ 32 → ConvertToUInt32 n = Some n;
}.
Definition tolib_std : ToLib := {|
  UInt64FromString s := ParseUint 64 (list_ascii_of_string s);
  UInt32FromString s := ParseUint 32 (list_ascii_of_string s);
  ConvertToUInt32 n := if (0 <=? n) && (n <? 2 ^ 32) then Some n else None;
|}.

Module Primitives.

Abbreviation verdict := (outcome string ()).
Definition valid : verdict := Ret ().
Definition fail_if (b : bool) (msg : string) : verdict := if b then Err msg else valid.
(** [fmt.Errorf(prefix + "%w", err)]. *)
Definition wrap (prefix : string) (v : verdict) : verdict := mapErr (λ e, prefix ++ e)%string v.
Definition slen (s : string) : Z := Z.of_nat (String.length s).

(** ** Numbers *)

Definition PositiveIntegerDefault10Max10000_Validate (i : Z) : verdict := fail_if (10000 <? i) "is larger than 10000".
Definition SweepMaxSatoshis : Z := 2099999999999999.
Definition SatoshiValue_Validate (s : Z) : verdict := fail_if (Satoshi.MaxSatoshis <? s) "less than 2100000000000000".

(** ** Booleans *)

Definition BooleanDefaultFalse_Value (b : option bool) : bool := default false b.
Definition BooleanDefaultTrue_Value (b : option bool) : bool := default true b.

(** ** Strings *)

Definition String5to2000Bytes_Validate (d : string) : verdict :=
  _ ← fail_if (slen d <? 5) "at least 5 length";
  fail_if (2000 <? slen d) "no more than 2000 length".

Definition has_suffix (p s : text) : bool := has_prefix (reverse p) (reverse s).
Definition Base64String_Validate (s : string) : verdict :=
  _ ← fail_if (negb (slen s mod 4 =? 0)) "base64 string length must be divisible by 4";
  _ ← fail_if (has_suffix (list_ascii_of_string "===") (list_ascii_of_string s)) "invalid base64 padding";
  match DecodeBase64 (list_ascii_of_string s) with
  | None => Err "invalid base64 string"
  | Some _ => valid
  end.

Definition StringUnder50Bytes_Validate (s : string) : verdict :=
  _ ← fail_if (slen s <? 1) "at least 1 length"; fail_if (50 <? slen s) "no more than 50 length".
Definition StringUnder300_Validate (b : string) : verdict :=
  _ ← fail_if (300 <? slen b) "no more than 300 length"; fail_if (slen b =? 0) "at least 1 length".
Definition NewIdentifier (s : string) : string :=
  string_of_list_ascii (TrimSpace (ToLower (list_ascii_of_string s))).

(** The regular expression asks for at least one digit. *)
Definition HexString_Validate (h : string) : verdict :=
  _ ← fail_if (negb (slen h mod 2 =? 0)) "even length";
  fail_if (negb (bool_decide (h ≠ "") && forallb is_hex (list_ascii_of_string h))) "hexadecimal string".
Definition HexString_ToBytes (h : string) : outcome string text :=
  match DecodeString (list_ascii_of_string h) with
  | inl b => Ret b
  | inr _ => Err "failed to decode hex string"
  end.

Definition pubKeyBytesLenCompressed : Z := 33.
Definition pubKeyBytesLenUncompressed : Z := 65.
Definition PubKeyHex_Validate (pkh : string) : verdict :=
  let pkhHalfLen := slen pkh / 2 in
  _ ← fail_if (negb (pkhHalfLen =? pubKeyBytesLenCompressed) && negb (pkhHalfLen =? pubKeyBytesLenUncompressed))
        "invalid pubKey hex length";
  wrap "invalid pubKey hex string: " (HexString_Validate pkh).

(** ** Outpoint strings *)

Definition split_dot (s : string) : list string :=
  string_of_list_ascii <$> Split "."%char (list_ascii_of_string s).

Section outpoint.
Context `{ToLib}.

Definition OutpointString_Validate (s : string) : verdict :=
  let msg := "txid as hexstring and numeric output index joined with '.'" in
  match split_dot s with
  | [_; vout] => match UInt64FromString vout with None => Err msg | Some _ => valid end
  | _ => Err msg
  end.
Definition OutpointString_Get (s : string) : outcome string (string * Z) :=
  match split_dot s with
  | [txID; vout] =>
      match UInt32FromString vout with None => Err "invalid vout index" | Some n => Ret (txID, n) end
  | _ => Err "invalid outpoint string format"
  end.
Definition OutpointString_MustGet (s : string) : outcome string (string * Z) :=
  match OutpointString_Get s with Ret r => Ret r | _ => Panic end.
Definition OutpointString_MustGetTxID (s : string) : outcome string string :=
  '(txID, _) ← OutpointString_MustGet s; Ret txID.
Definition OutpointString_MustGetVout (s : string) : outcome string Z :=
  '(_, vout) ← OutpointString_MustGet s; Ret vout.
Definition NewOutpointString (txid : string) (vout : Z) : outcome string string :=
  match ConvertToUInt32 vout with
  | None => Panic
  | Some n => Ret (txid ++ "." ++ string_of_list_ascii (FormatUint n))%string
  end.
End outpoint.

(** ** Byte arrays *)

(** The digits of a byte, without a leading zero. *)
Definition byte_digits (v : ascii) : text :=
  let v := code v in
  if v <? 10 then [digit_char v]
  else if v <? 100 then [digit_char (v / 10); digit_char (v mod 10)]
  else [digit_char (v / 100); digit_char (v / 10 mod 10); digit_char (v mod 10)].
Fixpoint more_bytes (b : text) : text :=
  match b with [] => [] | v :: b' => (","%char :: byte_digits v ++ more_bytes b')%list end.
Definition ExplicitByteArray_MarshalJSON (b : text) : text :=
  match b with
  | [] => list_ascii_of_string "[]"
  | v :: b' => ("["%char :: byte_digits v ++ more_bytes b' ++ ["]"%char])%list
  end.
(** [None] is an error; the nil slice and the empty one are both []. *)
Definition ExplicitByteArray_UnmarshalJSON (data : text) : option text :=
  if decide (data = null) then Some []
  else
    nums ← UnmarshalNumbers data;
    if existsb (λ n, 255 <? n) nums then None else Some (byte_of <$> nums).
Definition ExplicitByteArray_Hex (b : text) : text := EncodeToString b.

(** ** Fixed 32-byte values *)

Definition zero_byte : ascii := ascii_of_nat 0.
Definition trim_zeros (b : text) : text := reverse (drop_while (λ c, bool_decide (c = zero_byte)) (reverse b)).
Definition EncodeBytes32Base64 (b : text) : string :=
  let trimmed := trim_zeros b in
  string_of_list_ascii (EncodeBase64 (match trimmed with [] => b | _ => trimmed end)).
Definition DecodeBytes32Base64 (s : string) : outcome string text :=
  match DecodeBase64 (list_ascii_of_string s) with
  | None => Err "invalid base64"
  | Some decoded =>
      if 32 <? Z.of_nat (length decoded) then Err "decoded length exceeds 32 bytes"
      else Ret (decoded ++ replicate (32 - length decoded) zero_byte)%list
  end.
End Primitives.

(** * PrimitivesProps: what is written is what is read

    Round trips of [Primitives]: outpoint strings, byte arrays on the wire, 32-byte
    values in base64. *)
Import ArcadeStatus GoStrings Encoding Primitives.
Local Open Scope string_scope.
Local Open Scope Z_scope.

Module PrimitivesProps.

(** ** Numbers and text *)

Lemma ParseUint_wider b b' s n : b ≤ b' → 0 ≤ b → ParseUint b s = Some n → ParseUint b' s = Some n.
Proof.
  intros Hb Hb0. rewrite /ParseUint. destruct s as [|c s]; [done|]. case_match; [|done].
  pose proof (Z.pow_le_mono_r 2 b b'). destruct (Z.ltb_spec (value_from 0 (c :: s)) (2 ^ b)); [|done].
  intros [= <-]. by rewrite (proj2 (Z.ltb_lt _ _)); [|lia].
Qed.
Lemma format_nonempty fuel n acc : format_from fuel n acc ≠ [].
Proof.
  revert n acc. induction fuel as [|fuel IH]; intros n acc; cbn [format_from]; [done|]. by case_match.
Qed.

#[global] Instance tolib_std_laws : ToLibLaws tolib_std.
Proof.
  split; cbn [UInt32FromString UInt64FromString ConvertToUInt32 tolib_std]; intros n Hn.
  - rewrite list_ascii_of_string_of_list_ascii. by apply ParseUint_FormatUint.
  - rewrite list_ascii_of_string_of_list_ascii. apply ParseUint_wider with 32; [lia..|]. by apply ParseUint_FormatUint.
  - destruct (Z.leb_spec 0 n), (Z.ltb_spec n (2 ^ 32)); simpl; try done; lia.
Qed.

Lemma list_ascii_app s t : list_ascii_of_string (s ++ t) = (list_ascii_of_string s ++ list_ascii_of_string t)%list.
Proof. induction s as [|c s IH]; simpl; by rewrite ?IH. Qed.
Lemma string_length s : String.length s = length (list_ascii_of_string s).
Proof. induction s as [|c s IH]; simpl; by rewrite ?IH. Qed.

Lemma Split_one sep a : sep ∉ a → Split sep a = [a].
Proof.
  induction a as [|c a IH]; [done|]. intros [Hc Ha]%not_elem_of_cons. cbn.
  rewrite decide_False // IH //.
Qed.
Lemma Split_two sep a b : sep ∉ a → sep ∉ b → Split sep (a ++ sep :: b) = [a; b].
Proof.
  intros Ha Hb. induction a as [|c a IH]; cbn.
  - by rewrite decide_True // Split_one.
  - apply not_elem_of_cons in Ha as [Hc Ha]. rewrite decide_False // IH //.
Qed.
Lemma digits_no_dot s : forallb is_digit s = true → "."%char ∉ s.
Proof. rewrite forallb_forall => Hs Hin. specialize (Hs _ (proj1 (list_elem_of_In _ _) Hin)). done. Qed.

(** ** Outpoint strings *)

Section outpoints.
Context `{ToLibLaws}.

Lemma new_outpoint_split txid vout s :
  "."%char ∉ list_ascii_of_string txid → 0 ≤ vout < 2 ^ 32 → NewOutpointString txid vout = Ret s →
  split_dot s = [txid; string_of_list_ascii (FormatUint vout)].
Proof.
  intros Ht Hv. rewrite /NewOutpointString ConvertToUInt32_fits //. intros [= <-]. rewrite /split_dot.
  rewrite !list_ascii_app list_ascii_of_string_of_list_ascii Split_two //.
  - by rewrite /= string_of_list_ascii_of_string.
  - apply digits_no_dot, format_digits; [lia|done].
Qed.

(** An outpoint written as text passes validation, and reading it back gives the
    transaction id and the output index. *)
Theorem outpoint_round_trip txid vout :
  "."%char ∉ list_ascii_of_string txid → 0 ≤ vout < 2 ^ 32 →
  ∃ s, NewOutpointString txid vout = Ret s ∧ OutpointString_Validate s = valid ∧
    OutpointString_Get s = Ret (txid, vout) ∧ OutpointString_MustGet s = Ret (txid, vout).
Proof.
  intros Ht Hv. destruct (NewOutpointString txid vout) as [s| |] eqn:Hs.
  - exists s. pose proof (new_outpoint_split _ _ _ Ht Hv Hs) as Hsp.
    rewrite /OutpointString_MustGet /OutpointString_Validate /OutpointString_Get Hsp.
    by rewrite UInt64FromString_digits // UInt32FromString_digits.
  - by rewrite /NewOutpointString ConvertToUInt32_fits in Hs.
  - by rewrite /NewOutpointString ConvertToUInt32_fits in Hs.
Qed.
End outpoints.

Lemma outpoint_round_trip_witness :
  ∃ s, NewOutpointString (H := tolib_std) "ab01" 7 = Ret s ∧ OutpointString_Get (H := tolib_std) s = Ret ("ab01", 7).
Proof.
  destruct (outpoint_round_trip (T := tolib_std) "ab01" 7) as (s & Hs & _ & Hg & _).
  - apply (bool_decide_unpack _). vm_compute. exact I.
  - lia.
  - exists s. split; [exact Hs|exact Hg].
Defined.

(** ** Byte arrays *)

Lemma digits_of_byte v : forallb is_digit (byte_digits v) = true ∧ ParseUint 16 (byte_digits v) = Some (code v) ∧
  (has_prefix (list_ascii_of_string "0") (byte_digits v) && negb (Nat.eqb (length (byte_digits v)) 1)) = false.
Proof. destruct v as [[] [] [] [] [] [] [] []]; vm_compute; done. Qed.

Lemma take_while_app P a c b : forallb P a = true → P c = false → take_while P (a ++ c :: b) = a.
Proof.
  induction a as [|x a IH]; cbn; [intros _ ->; done|]. intros [-> Ha]%andb_true_iff Hc. by rewrite IH.
Qed.
Lemma drop_while_app P a c b : forallb P a = true → P c = false → drop_while P (a ++ c :: b) = (c :: b)%list.
Proof.
  induction a as [|x a IH]; cbn; [intros _ ->; done|]. intros [-> Ha]%andb_true_iff Hc. by rewrite IH.
Qed.

(** A byte followed by a comma or a bracket is read as its number. *)
Lemma parse_byte v c rest : is_digit c = false → parse_element (byte_digits v ++ c :: rest) = Some (code v, c :: rest).
Proof.
  intros Hc. destruct (digits_of_byte v) as (Hd & Hn & Hz).
  rewrite /parse_element take_while_app // drop_while_app // Hz Hn.
  assert (has_prefix null (byte_digits v ++ c :: rest) = false) as ->; [|done].
  destruct (byte_digits v) as [|d ds]; [done|]. cbn in Hd |- *. apply andb_true_iff in Hd as [Hd _].
  rewrite bool_decide_eq_false_2 //. intros <-. done.
Qed.
Lemma skip_ws_byte v s : skip_ws (byte_digits v ++ s) = (byte_digits v ++ s)%list.
Proof. destruct v as [[] [] [] [] [] [] [] []]; done. Qed.

Lemma parse_bytes fuel v b :
  (length b < fuel)%nat →
  parse_elements fuel (byte_digits v ++ more_bytes b ++ ["]"%char]) = Some (map (λ c, code c) (v :: b), []).
Proof.
  revert v fuel. induction b as [|w b IH]; intros v [|fuel] Hf; cbn in Hf; try lia; cbn [parse_elements more_bytes app].
  - by rewrite skip_ws_byte parse_byte.
  - rewrite skip_ws_byte parse_byte // /= -app_assoc IH //. lia.
Qed.

Lemma bytes_back b : existsb (λ n, 255 <? n) (map (λ c, code c) b) = false ∧ byte_of <$> map (λ c, code c) b = b.
Proof.
  induction b as [|c b [IH1 IH2]]; [done|]. cbn. rewrite IH1 byte_of_code IH2 orb_false_r. split; [|done].
  pose proof (nat_ascii_bounded c). apply Z.ltb_ge. lia.
Qed.

Lemma byte_digits_not_bracket v : ∃ d ds, byte_digits v = d :: ds ∧ d ≠ "]"%char.
Proof. destruct v as [[] [] [] [] [] [] [] []]; vm_compute; by eexists _, _. Qed.
Lemma more_bytes_length b : (length b ≤ length (more_bytes b))%nat.
Proof. induction b as [|c b IH]; [done|]. cbn. rewrite length_app. lia. Qed.

(** Bytes put on the wire as an array of numbers come back unchanged. *)
Theorem byte_array_round_trip b : ExplicitByteArray_UnmarshalJSON (ExplicitByteArray_MarshalJSON b) = Some b.
Proof.
  destruct b as [|v b]; [done|]. rewrite /ExplicitByteArray_UnmarshalJSON /ExplicitByteArray_MarshalJSON.
  case_decide as E; [done|clear E]. rewrite /UnmarshalNumbers. cbn [skip_ws drop_while].
  change (is_json_space "["%char) with false. cbn iota.
  case_decide as E; [clear E|done]. rewrite skip_ws_byte.
  destruct (byte_digits_not_bracket v) as (d & ds & Hd & Hb). destruct (bytes_back (v :: b)) as [H1 H2].
  rewrite {1}Hd. cbn [app]. case_decide as E; [done|clear E]. rewrite parse_bytes.
  - cbn [skip_ws drop_while mbind option_bind]. by rewrite H1 H2.
  - cbn. rewrite !length_app. pose proof (more_bytes_length b). lia.
Qed.

(** ** Base64 *)

(** The text ends in a group whose second character is a digit. *)
Lemma Encode_last bs : bs ≠ [] → ∃ pre a b c d, EncodeBase64 bs = (pre ++ [a; b; c; d])%list ∧ b ≠ pad.
Proof.
  revert bs. apply (well_founded_ind (well_founded_ltof _ (@length ascii)) (λ bs, bs ≠ [] → _)). intros bs IH Hne.
  rewrite /ltof in IH. destruct bs as [|x [|y [|z rest]]]; [done| | |].
  - eexists [], _, _, _, _. split; [done|apply digit_pad].
  - eexists [], _, _, _, _. split; [done|apply digit_pad].
  - destruct rest as [|w rest]; [eexists [], _, _, _, _; split; [done|apply digit_pad]|].
    destruct (IH (w :: rest)) as (pre & a & b & c & d & E & Hb); [simpl; lia|done|].
    eexists (_ :: _ :: _ :: _ :: pre), a, b, c, d. split; [|done].
    by change (EncodeBase64 (x :: y :: z :: w :: rest)) with
      (digit (Z.shiftr (Z.lor (Z.lor (Z.shiftl (code x) 16) (Z.shiftl (code y) 8)) (code z)) 18) ::
       digit (Z.shiftr (Z.lor (Z.lor (Z.shiftl (code x) 16) (Z.shiftl (code y) 8)) (code z)) 12) ::
       digit (Z.shiftr (Z.lor (Z.lor (Z.shiftl (code x) 16) (Z.shiftl (code y) 8)) (code z)) 6) ::
       digit (Z.lor (Z.lor (Z.shiftl (code x) 16) (Z.shiftl (code y) 8)) (code z)) :: EncodeBase64 (w :: rest))%list;
      rewrite E.
Qed.
Lemma Encode_suffix bs : has_suffix (list_ascii_of_string "===") (EncodeBase64 bs) = false.
Proof.
  destruct (decide (bs = [])) as [->|Hne]; [done|].
  destruct (Encode_last bs Hne) as (pre & a & b & c & d & -> & Hb).
  rewrite /has_suffix reverse_app /=. apply andb_false_iff. right. apply andb_false_iff. right.
  apply andb_false_iff. left. apply bool_decide_eq_false_2. intros <-. by apply Hb.
Qed.

(** What the encoder writes is accepted as base64. *)
Lemma Base64_encoded_valid bs : Base64String_Validate (string_of_list_ascii (EncodeBase64 bs)) = valid.
Proof.
  rewrite /Base64String_Validate /slen string_length list_ascii_of_string_of_list_ascii Decode_EncodeBase64 Encode_suffix.
  rewrite Encode_length Nat2Z.inj_mul Z.mul_comm Z.mod_mul //.
Qed.

Lemma take_zeros s : take_while (λ c, bool_decide (c = zero_byte)) s =
  replicate (length (take_while (λ c, bool_decide (c = zero_byte)) s)) zero_byte.
Proof. induction s as [|c s IH]; cbn; [done|]. case_bool_decide; [subst; cbn; by rewrite -IH|done]. Qed.
Lemma trim_zeros_pad b : (trim_zeros b ++ replicate (length b - length (trim_zeros b)) zero_byte)%list = b.
Proof.
  pose proof (take_drop_while (λ c, bool_decide (c = zero_byte)) (reverse b)) as E.
  pose proof (f_equal length E) as El. rewrite length_app length_reverse in El.
  rewrite -{4}(reverse_involutive b) E reverse_app /trim_zeros.
  f_equal. rewrite length_reverse. rewrite take_zeros reverse_replicate. f_equal. lia.
Qed.

(** A 32-byte value written in base64, its trailing zeros trimmed, is valid and is
    read back as it was. *)
Theorem bytes32_round_trip b :
  length b = 32%nat →
  Base64String_Validate (EncodeBytes32Base64 b) = valid ∧ DecodeBytes32Base64 (EncodeBytes32Base64 b) = Ret b.
Proof.
  intros Hb. split; [apply Base64_encoded_valid|].
  rewrite /DecodeBytes32Base64 /EncodeBytes32Base64 list_ascii_of_string_of_list_ascii Decode_EncodeBase64.
  pose proof (trim_zeros_pad b) as Hp. pose proof (f_equal length Hp) as Hl. rewrite length_app in Hl.
  destruct (trim_zeros b) as [|x xs].
  - rewrite Hb. cbn. by rewrite app_nil_r.
  - destruct (Z.ltb_spec 32 (Z.of_nat (length (x :: xs)))); [lia|]. by rewrite -Hb Hp.
Qed.
End PrimitivesProps.
