(* ===== verification/Breaker.v ===== *)
(** * Breaker: the broadcast circuit breaker

    [pkg/arcade/circuit_breaker.go].  Each method is split at its mutex: [allow]
    releases the lock while it probes GET /health, so its two critical sections are
    two steps and any other method may run between them.  [step] is the resulting
    interleaving; the clock only moves forward. *)
From S2P Require Import Prelude UtxoTypes.
Local Open Scope Z_scope.

Module Breaker.

Record circuitBreaker := mkBreaker {
  failureThreshold : Z;
  probeInterval : Z;
  has_probe : bool;
  consecutiveFailures : Z;
  open : bool;
  lastProbe : Time;
}.

Definition with_state (n : Z) (o : bool) (l : Time) (cb : circuitBreaker) : circuitBreaker :=
  mkBreaker (failureThreshold cb) (probeInterval cb) (has_probe cb) n o l.

(** How the first critical section of [allow] ends. *)
Inductive gate := Permit | ErrCircuitOpen | Probing.

(** First critical section: [dead] is [ctx.Err() != nil], [t1] and [t2] the two
    clock readings. *)
Definition allow_begin (dead : bool) (t1 t2 : Time) (cb : circuitBreaker) : gate * circuitBreaker :=
  if failureThreshold cb =? 0 then (Permit, cb)
  else if negb (open cb) then (Permit, cb)
  else if dead || (Sub t1 (lastProbe cb) <? probeInterval cb) then (ErrCircuitOpen, cb)
  else (Probing, with_state (consecutiveFailures cb) (open cb) t2 cb).

(** Second critical section, with the answer of [probe(ctx)]. *)
Definition allow_end (healthy : bool) (cb : circuitBreaker) : gate * circuitBreaker :=
  if has_probe cb && healthy then (Permit, with_state 0 false (lastProbe cb) cb)
  else (ErrCircuitOpen, cb).

(** [allow] run without interruption. *)
Definition allow (dead : bool) (t1 t2 : Time) (healthy : bool) (cb : circuitBreaker) :
    gate * circuitBreaker :=
  match allow_begin dead t1 t2 cb with
  | (Probing, cb') => allow_end healthy cb'
  | r => r
  end.

Definition recordFailure (t : Time) (cb : circuitBreaker) : circuitBreaker :=
  if failureThreshold cb =? 0 then cb
  else
    let n := u64 (consecutiveFailures cb + 1) in
    if (failureThreshold cb <=? n) && negb (open cb) then with_state n true t cb
    else with_state n (open cb) (lastProbe cb) cb.

Definition recordSuccess (cb : circuitBreaker) : circuitBreaker :=
  if failureThreshold cb =? 0 then cb else with_state 0 false (lastProbe cb) cb.

(** ** Interleavings *)

Inductive event :=
| EAllow (dead : bool) (t1 t2 : Time) (g : gate)
| EProbed (healthy : bool) (g : gate)
| EFailure (t : Time)
| ESuccess.

(** The breaker, the latest clock reading, the probes under way and the times the
    probes so far were started at, latest first. *)
Record system := mkSystem {
  sys_cb : circuitBreaker;
  sys_clock : Time;
  sys_pending : nat;
  sys_probes : list Time;
}.

Inductive step : system → event → system → Prop :=
| step_allow dead t1 t2 g cb cb' c n ps :
    c ≤ t1 ≤ t2 → allow_begin dead t1 t2 cb = (g, cb') → g ≠ Probing →
    step (mkSystem cb c n ps) (EAllow dead t1 t2 g) (mkSystem cb' t2 n ps)
| step_allow_probe dead t1 t2 cb cb' c n ps :
    c ≤ t1 ≤ t2 → allow_begin dead t1 t2 cb = (Probing, cb') →
    step (mkSystem cb c n ps) (EAllow dead t1 t2 Probing) (mkSystem cb' t2 (S n) (t2 :: ps))
| step_probed healthy g cb cb' c n ps :
    allow_end healthy cb = (g, cb') →
    step (mkSystem cb c (S n) ps) (EProbed healthy g) (mkSystem cb' c n ps)
| step_failure t cb c n ps :
    c ≤ t → step (mkSystem cb c n ps) (EFailure t) (mkSystem (recordFailure t cb) t n ps)
| step_success cb c n ps :
    step (mkSystem cb c n ps) ESuccess (mkSystem (recordSuccess cb) c n ps).

Inductive steps : system → list event → system → Prop :=
| steps_nil s : steps s [] s
| steps_cons s e s' es s'' : step s e s' → steps s' es s'' → steps s (e :: es) s''.

(** A breaker as the client builds it, not yet used, at time [c]. *)
Definition initial (threshold interval : Z) (probe : bool) (c : Time) : system :=
  mkSystem (mkBreaker threshold interval probe 0 false zeroTime) c 0 [].

(** The events that close the breaker. *)
Definition recovers (e : event) : bool :=
  match e with EProbed true _ => true | ESuccess => true | _ => false end.

(** Probe times, latest first, are at least [d] apart. *)
Fixpoint spaced (d : Z) (ps : list Time) : Prop :=
  match ps with
  | p :: ((q :: _) as ps') => d ≤ p - q ∧ spaced d ps'
  | _ => True
  end.

(** ** Proofs *)

Definition inv (s : system) : Prop :=
  0 ≤ probeInterval (sys_cb s) ∧ 0 ≤ failureThreshold (sys_cb s) ∧
  (open (sys_cb s) = false → failureThreshold (sys_cb s) = 0 ∨
     consecutiveFailures (sys_cb s) < failureThreshold (sys_cb s)) ∧
  (open (sys_cb s) = true → lastProbe (sys_cb s) ≤ sys_clock s) ∧
  (∀ p ps, sys_probes s = p :: ps → p ≤ lastProbe (sys_cb s) ∧ p ≤ sys_clock s) ∧
  spaced (probeInterval (sys_cb s)) (sys_probes s).

Lemma Sub_ge t u d : 0 ≤ d → d ≤ Sub t u → d ≤ t - u.
Proof. rewrite /Sub. lia. Qed.

Lemma allow_begin_cases dead t1 t2 cb g cb' :
  allow_begin dead t1 t2 cb = (g, cb') →
  (g ≠ Probing ∧ cb' = cb ∧ (g = Permit → failureThreshold cb = 0 ∨ open cb = false)) ∨
  (g = Probing ∧ dead = false ∧ open cb = true ∧ probeInterval cb ≤ Sub t1 (lastProbe cb) ∧
   cb' = with_state (consecutiveFailures cb) true t2 cb).
Proof.
  rewrite /allow_begin. destruct (Z.eqb_spec (failureThreshold cb) 0).
  { intros [= <- <-]. left. naive_solver. }
  destruct (open cb) eqn:Ho; simpl; [|intros [= <- <-]; left; naive_solver].
  destruct dead; simpl; [intros [= <- <-]; left; naive_solver|].
  destruct (Z.ltb_spec (Sub t1 (lastProbe cb)) (probeInterval cb)); intros [= <- <-].
  - left. naive_solver.
  - right. done.
Qed.

Lemma recordFailure_params t cb :
  failureThreshold (recordFailure t cb) = failureThreshold cb ∧
  probeInterval (recordFailure t cb) = probeInterval cb.
Proof. rewrite /recordFailure. by repeat case_match. Qed.

Lemma step_inv s e s' : step s e s' → inv s → inv s'.
Proof.
  intros Hst (Hd&Hth&Hclosed&Hlast&Hhead&Hsp).
  destruct Hst as [dead t1 t2 g cb cb' c n ps Ht Ha Hg|dead t1 t2 cb cb' c n ps Ht Ha
    |healthy g cb cb' c n ps Ha|t cb c n ps Ht|cb c n ps]; simpl in *.
  - apply allow_begin_cases in Ha as [(_&->&_)|(?&_)]; [|done].
    split_and!; simpl; [done..|intros Ho; specialize (Hlast Ho); lia| |done].
    intros p ps' Hp. specialize (Hhead p ps' Hp). lia.
  - apply allow_begin_cases in Ha as [(?&_)|(_&_&Ho&Hi&->)]; [done|].
    apply Sub_ge in Hi; [|done]. split_and!; simpl; [done|done|done|lia| |].
    + intros p ps' [= <- <-]. lia.
    + destruct ps as [|q ps]; [done|]. split; [|done]. specialize (Hhead q ps eq_refl). lia.
  - rewrite /allow_end in Ha. destruct (has_probe cb && healthy); simplify_eq; [|by split_and!].
    split_and!; simpl; [done|done| |done..]. lia.
  - assert (∀ p ps', ps = p :: ps' → p ≤ lastProbe cb ∧ p ≤ t ∧ p ≤ t) as Hhead'.
    { intros p ps' Hp. specialize (Hhead p ps' Hp). lia. }
    destruct (recordFailure_params t cb) as [E1 E2]. rewrite /inv /= E1 E2 /recordFailure.
    destruct (Z.eqb_spec (failureThreshold cb) 0).
    { split_and!; [done..|intros Ho; specialize (Hlast Ho); lia|naive_solver|done]. }
    destruct (Z.leb_spec (failureThreshold cb) (u64 (consecutiveFailures cb + 1))), (open cb);
      simpl; split_and!; try done; naive_solver lia.
  - rewrite /recordSuccess. destruct (Z.eqb_spec (failureThreshold cb) 0); [by split_and!|].
    split_and!; simpl; [done|done| |done..]. lia.
Qed.

Lemma steps_inv s es s' : steps s es s' → inv s → inv s'.
Proof. induction 1; eauto using step_inv. Qed.

Lemma initial_inv threshold interval probe c :
  0 ≤ threshold → 0 ≤ interval → inv (initial threshold interval probe c).
Proof. intros. split_and!; simpl; try done. lia. Qed.

Lemma step_params s e s' :
  step s e s' → probeInterval (sys_cb s') = probeInterval (sys_cb s) ∧
    failureThreshold (sys_cb s') = failureThreshold (sys_cb s).
Proof.
  destruct 1 as [?????????? Ha|????????? Ha|??????? Ha| |]; simpl.
  - apply allow_begin_cases in Ha as [(_&->&_)|(?&_)]; done.
  - by apply allow_begin_cases in Ha as [(?&_)|(_&_&_&_&->)].
  - rewrite /allow_end in Ha. by destruct (_ && _); simplify_eq.
  - rewrite /recordFailure. by repeat case_match.
  - rewrite /recordSuccess. by case_match.
Qed.

Lemma steps_params s es s' :
  steps s es s' → probeInterval (sys_cb s') = probeInterval (sys_cb s) ∧
    failureThreshold (sys_cb s') = failureThreshold (sys_cb s).
Proof.
  induction 1 as [|s e s1 es s2 Hst _ [IH1 IH2]]; [done|].
  destruct (step_params _ _ _ Hst). split; congruence.
Qed.

(** probes are throttled.  However callers interleave (probes overlap with
    other calls, contexts die, failures and successes arrive at any point), any two
    health probes are started at least one probe interval apart, and a closed
    enabled breaker has seen fewer consecutive failures than its threshold. *)
Theorem probes_throttled threshold interval probe c es s :
  0 < threshold → 0 ≤ interval →
  steps (initial threshold interval probe c) es s →
  spaced interval (sys_probes s) ∧
  (open (sys_cb s) = false → consecutiveFailures (sys_cb s) < threshold).
Proof.
  intros Ht Hi Hs. destruct (steps_params _ _ _ Hs) as [Ep Et]. simpl in Ep, Et.
  destruct (steps_inv _ _ _ Hs) as (_&_&Hc&_&_&Hsp); [apply initial_inv; lia|].
  rewrite Ep in Hsp. rewrite Et in Hc. split; [done|]. intros Ho. specialize (Hc Ho). lia.
Qed.

Lemma step_stays_open s e s' :
  step s e s' → recovers e = false → failureThreshold (sys_cb s) ≠ 0 →
  open (sys_cb s) = true →
  open (sys_cb s') = true ∧
  match e with EAllow _ _ _ g => g ≠ Permit | EProbed _ g => g ≠ Permit | _ => True end.
Proof.
  destruct 1 as [?????????? Ha|????????? Ha|healthy ?????? Ha|t cb| ]; simpl; intros Hr Hth Ho.
  - apply allow_begin_cases in Ha as [(_&->&Hp)|(?&_)]; [|done]. split; [done|].
    intros ->. destruct (Hp eq_refl); congruence.
  - apply allow_begin_cases in Ha as [(?&_)|(_&_&_&_&->)]; done.
  - destruct healthy; [done|]. rewrite /allow_end andb_false_r in Ha. by simplify_eq.
  - rewrite /recordFailure. destruct (_ =? _); [done|]. rewrite Ho andb_false_r. done.
  - done.
Qed.

(** An open breaker fails fast.  Once open, and for as long as no broadcast
    succeeds and no health probe answers healthy, the breaker stays open and no
    call is let through, whatever else happens. *)
Theorem open_breaker_blocks s es s' :
  steps s es s' → failureThreshold (sys_cb s) ≠ 0 → open (sys_cb s) = true →
  Forall (λ e, recovers e = false) es →
  open (sys_cb s') = true ∧
  Forall (λ e, match e with EAllow _ _ _ g => g ≠ Permit | EProbed _ g => g ≠ Permit
               | _ => True end) es.
Proof.
  induction 1 as [|s e s1 es s2 Hst _ IH]; intros Hth Ho Hr; [by split; [|constructor]|].
  apply Forall_cons in Hr as [He Hr]. destruct (step_stays_open _ _ _ Hst He Hth Ho) as [Ho' Hg].
  destruct (step_params _ _ _ Hst) as [_ Et].
  destruct IH as [??]; [by rewrite Et|done|done|]. by split; [|constructor].
Qed.

(** [n] failures in a row, at the times [ts]. *)
Definition failures (ts : list Time) (cb : circuitBreaker) : circuitBreaker :=
  foldl (λ cb t, recordFailure t cb) cb ts.

Lemma failures_count ts cb :
  failureThreshold cb ≠ 0 → 0 ≤ consecutiveFailures cb →
  consecutiveFailures cb + Z.of_nat (length ts) < 2 ^ 64 →
  consecutiveFailures (failures ts cb) = consecutiveFailures cb + Z.of_nat (length ts) ∧
  failureThreshold (failures ts cb) = failureThreshold cb ∧
  (open (failures ts cb) = true ↔
     open cb = true ∨ (ts ≠ [] ∧ failureThreshold cb ≤ consecutiveFailures cb + Z.of_nat (length ts))).
Proof.
  revert cb. induction ts as [|t ts IH]; intros cb Hth Hn Hlt; simpl in *.
  { split_and!; [lia|done|]. naive_solver. }
  fold (failures ts (recordFailure t cb)).
  assert (consecutiveFailures (recordFailure t cb) = consecutiveFailures cb + 1 ∧
    (open (recordFailure t cb) = true ↔
       open cb = true ∨ failureThreshold cb ≤ consecutiveFailures cb + 1)) as [En Eo].
  { rewrite /recordFailure (proj2 (Z.eqb_neq _ _) Hth) /wrapU Z.mod_small; [|lia].
    destruct (Z.leb_spec (failureThreshold cb) (consecutiveFailures cb + 1)), (open cb) eqn:Ho;
      simpl; rewrite ?Ho; (split; [done|]); naive_solver lia. }
  destruct (recordFailure_params t cb) as [Et _].
  destruct (IH (recordFailure t cb)) as (I1&I2&I3); [by rewrite Et|lia|lia|].
  split_and!; [lia|congruence|]. rewrite I3 Eo Et En. destruct ts; simpl in *; naive_solver lia.
Qed.

(** The breaker trips exactly at its threshold: starting closed with no failures
    counted, after any number [n] of consecutive opaque failures it is open if and only
    if [n] has reached the threshold; one success at any point closes it and starts
    the count again. *)
Theorem trips_at_threshold ts cb :
  0 < failureThreshold cb → consecutiveFailures cb = 0 → open cb = false →
  Z.of_nat (length ts) < 2 ^ 64 →
  (open (failures ts cb) = true ↔ failureThreshold cb ≤ Z.of_nat (length ts)) ∧
  open (recordSuccess (failures ts cb)) = false ∧
  consecutiveFailures (recordSuccess (failures ts cb)) = 0.
Proof.
  intros Hth Hn Ho Hlt. destruct (failures_count ts cb) as (_&Et&Eo); [lia..|].
  rewrite /recordSuccess Et (proj2 (Z.eqb_neq _ _)); [|lia]. split_and!; [|done..].
  rewrite Eo Hn Ho. destruct ts; simpl; naive_solver lia.
Qed.

(** ** Instances *)

Definition cb0 : circuitBreaker := mkBreaker 2 10 true 0 false zeroTime.

Lemma trips_at_threshold_witness : open (failures [5; 6] cb0) = true.
Proof. apply (trips_at_threshold [5; 6] cb0); simpl; (reflexivity || lia). Defined.

Definition tripped : system := mkSystem (failures [5; 6] cb0) 6 0 [].

(** Two failures, a throttled caller, a probe that fails, and the next one. *)
Lemma probes_throttled_witness :
  ∃ s, steps (initial 2 10 true 0)
         [EFailure 5; EFailure 6; EAllow false 9 9 ErrCircuitOpen; EAllow false 16 17 Probing;
          EProbed false ErrCircuitOpen; EAllow false 30 30 Probing] s ∧
       sys_probes s = [30; 17] ∧ spaced 10 (sys_probes s).
Proof.
  assert (∃ s, steps (initial 2 10 true 0)
    [EFailure 5; EFailure 6; EAllow false 9 9 ErrCircuitOpen; EAllow false 16 17 Probing;
     EProbed false ErrCircuitOpen; EAllow false 30 30 Probing] s ∧ sys_probes s = [30; 17])
    as (s&Hs&Hp).
  { eexists. split.
    - eapply steps_cons; [by apply step_failure|].
      eapply steps_cons; [by apply step_failure|].
      eapply steps_cons; [eapply step_allow; [done|reflexivity|done]|].
      eapply steps_cons; [eapply step_allow_probe; [done|reflexivity]|].
      eapply steps_cons; [eapply step_probed; reflexivity|].
      eapply steps_cons; [eapply step_allow_probe; [done|reflexivity]|]. apply steps_nil.
    - reflexivity. }
  exists s. split_and!; [exact Hs|exact Hp|].
  eapply (probes_throttled 2 10 true 0); [lia|lia|exact Hs].
Defined.

Lemma open_breaker_blocks_witness :
  ∃ s, steps tripped [EAllow false 20 20 Probing; EProbed false ErrCircuitOpen] s ∧
    open (sys_cb s) = true.
Proof.
  assert (∃ s, steps tripped [EAllow false 20 20 Probing; EProbed false ErrCircuitOpen] s)
    as [s Hs].
  { eexists. eapply steps_cons; [eapply step_allow_probe; [done|reflexivity]|].
    eapply steps_cons; [eapply step_probed; reflexivity|]. apply steps_nil. }
  exists s. split; [exact Hs|].
  eapply (open_breaker_blocks tripped); [exact Hs|done|done|by repeat constructor].
Defined.

End Breaker.
