(* ===== verification/Float64.v ===== *)
(** * Float64: the floating-point arithmetic of the fee formula

    Go's float64 is IEEE 754 binary64 with round-to-nearest-even; the operations
    are those of the standard library's [SpecFloat] at precision 53.  This file
    adds the conversions and the [math] functions the sources use, and proves the
    accuracy of the one expression they all share,
    [math.Ceil(size / 1000 * rate)]. *)
From Stdlib Require Import Floats.SpecFloat.
From S2P Require Import Prelude.
Local Open Scope Z_scope.

Module Float64.

Abbreviation float64 := spec_float.

(** [float64(z)] of an integer. *)
Definition float_of_Z (z : Z) : float64 := binary_normalize 53 1024 z 0 false.

Definition fdiv : float64 → float64 → float64 := SFdiv 53 1024.
Definition fmul : float64 → float64 → float64 := SFmul 53 1024.
Definition flt : float64 → float64 → bool := SFltb.

Definition signed (s : bool) (m : positive) : Z := if s then Z.neg m else Z.pos m.

(** [math.Ceil]. *)
Definition Ceil (f : float64) : float64 :=
  match f with
  | S754_finite s m e =>
      if 0 <=? e then f
      else
        let c := - ((- signed s m) / 2 ^ (- e)) in
        if c =? 0 then S754_zero s else float_of_Z c
  | _ => f
  end.

(** [math.Max]. *)
Definition Max (x y : float64) : float64 :=
  match x, y with
  | S754_infinity false, _ | _, S754_infinity false => S754_infinity false
  | S754_nan, _ | _, S754_nan => S754_nan
  | S754_zero sx, S754_zero _ => if sx then y else x
  | _, _ => if SFltb y x then x else y
  end.

(** The integer part of a finite float64 (conversion to an integer type discards
    the fraction); none for infinities and NaN. *)
Definition trunc (f : float64) : option Z :=
  match f with
  | S754_zero _ => Some 0
  | S754_finite s m e =>
      Some (if 0 <=? e then signed s m * 2 ^ e else Z.quot (signed s m) (2 ^ (- e)))
  | _ => None
  end.

(** The shared fee expression: [math.Ceil(float64(size) / 1000.0 * rate)]. *)
Definition fee_expr (size rate : float64) : float64 :=
  Ceil (fmul (fdiv size (float_of_Z 1000)) rate).

(** ** Digits and shifts *)

Lemma digits2_pos_bounds p :
  2 ^ (Z.pos (digits2_pos p) - 1) ≤ Z.pos p < 2 ^ Z.pos (digits2_pos p).
Proof.
  assert (∀ q, 0 ≤ Z.pos (digits2_pos q) - 1) by lia.
  induction p as [p IH|p IH|]; simpl digits2_pos; [| |simpl; lia];
    rewrite Pos2Z.inj_succ; replace (Z.succ (Z.pos (digits2_pos p)) - 1) with
      (Z.succ (Z.pos (digits2_pos p) - 1)) by lia;
    rewrite !Z.pow_succ_r; try lia; specialize (H p); lia.
Qed.

Lemma digits2_unique p d : 1 ≤ d → 2 ^ (d - 1) ≤ Z.pos p < 2 ^ d → Z.pos (digits2_pos p) = d.
Proof.
  intros Hd [Hl Hu]. destruct (digits2_pos_bounds p) as [Hl' Hu'].
  set (k := Z.pos (digits2_pos p)) in *. assert (1 ≤ k) by lia.
  destruct (Z.lt_trichotomy k d) as [Hlt|[?|Hgt]]; [|done|]; exfalso.
  - assert (2 ^ k ≤ 2 ^ (d - 1)) by (apply Z.pow_le_mono_r; lia). lia.
  - assert (2 ^ d ≤ 2 ^ (k - 1)) by (apply Z.pow_le_mono_r; lia). lia.
Qed.

Lemma shr_1_m mrs : 0 ≤ shr_m mrs → shr_m (shr_1 mrs) = shr_m mrs / 2.
Proof.
  destruct mrs as [[|[p|p|]|[p|p|]] r s]; simpl; intros; try lia; try done.
  - rewrite Pos2Z.inj_xI. replace (2 * Z.pos p + 1) with (1 + Z.pos p * 2) by lia.
    by rewrite Z.div_add.
  - rewrite Pos2Z.inj_xO Z.mul_comm. by rewrite Z.div_mul.
Qed.

Lemma iter_shr_m p mrs :
  0 ≤ shr_m mrs → shr_m (SpecFloat.iter_pos shr_1 p mrs) = shr_m mrs / 2 ^ Z.pos p.
Proof.
  assert (∀ x k j, 0 ≤ x → 0 ≤ k → 0 ≤ j → x / 2 ^ k / 2 ^ j = x / 2 ^ (k + j)) as Hdiv.
  { intros x k j ???. rewrite Z.div_div; [|lia..]. by rewrite -Z.pow_add_r. }
  assert (∀ x k, 0 ≤ x → 0 ≤ x / 2 ^ k) as Hpos.
  { intros x k ?. destruct (Z.lt_ge_cases k 0); [by rewrite Z.pow_neg_r // Zdiv_0_r|].
    apply Z.div_pos; lia. }
  revert mrs. induction p as [p IH|p IH|]; intros mrs Hm; simpl SpecFloat.iter_pos.
  - assert (shr_m (shr_1 mrs) = shr_m mrs / 2 ^ 1) as E1 by by apply shr_1_m.
    assert (0 ≤ shr_m (shr_1 mrs)) as P1 by (rewrite E1; by apply Hpos).
    pose proof (IH _ P1) as E2.
    assert (0 ≤ shr_m (SpecFloat.iter_pos shr_1 p (shr_1 mrs))) as P2 by (rewrite E2; by apply Hpos).
    rewrite (IH _ P2) E2 E1 !Hdiv; try lia; [|by apply Hpos..]. f_equal. f_equal. lia.
  - pose proof (IH _ Hm) as E2.
    assert (0 ≤ shr_m (SpecFloat.iter_pos shr_1 p mrs)) as P2 by (rewrite E2; by apply Hpos).
    rewrite (IH _ P2) E2 Hdiv; try lia. f_equal. f_equal. lia.
  - by apply shr_1_m.
Qed.

Lemma shr_fexp_spec m e l :
  2 ^ 52 ≤ m → -1074 ≤ e →
  ∃ n, 0 ≤ n ∧ 2 ^ (n + 52) ≤ m < 2 ^ (n + 53) ∧
    shr_m (shr_fexp 53 1024 m e l).1 = m / 2 ^ n ∧ (shr_fexp 53 1024 m e l).2 = e + n.
Proof.
  intros Hm He. destruct m as [|p|p]; [lia| |lia].
  exists (Z.pos (digits2_pos p) - 53). destruct (digits2_pos_bounds p) as [Hl Hu].
  assert (53 ≤ Z.pos (digits2_pos p)).
  { destruct (Z.le_gt_cases 53 (Z.pos (digits2_pos p))); [done|].
    assert (2 ^ Z.pos (digits2_pos p) ≤ 2 ^ 52) by (apply Z.pow_le_mono_r; lia). lia. }
  split_and!; [lia| | | |].
  - replace (Z.pos (digits2_pos p) - 53 + 52) with (Z.pos (digits2_pos p) - 1) by lia. done.
  - by replace (Z.pos (digits2_pos p) - 53 + 53) with (Z.pos (digits2_pos p)) by lia.
  - rewrite /shr_fexp /shr /fexp /emin /=.
    replace (Z.max _ _ - e) with (Z.pos (digits2_pos p) - 53) by lia.
    destruct (Z.pos (digits2_pos p) - 53) as [|n|n] eqn:Hn; [| |lia]; simpl.
    + rewrite Z.div_1_r. by destruct l as [|[]].
    + rewrite iter_shr_m; by destruct l as [|[]].
  - rewrite /shr_fexp /shr /fexp /emin /=.
    replace (Z.max _ _ - e) with (Z.pos (digits2_pos p) - 53) by lia.
    destruct (Z.pos (digits2_pos p) - 53) as [|n|n] eqn:Hn; simpl; lia.
Qed.

Lemma round_nearest_even_bounds m l : m ≤ round_nearest_even m l ≤ m + 1.
Proof. destruct l as [|[]]; simpl; try lia. destruct (Z.even m); lia. Qed.

(** Rounding a mantissa of at least 53 bits moves it by at most one unit of its
    53rd bit. *)
Lemma round_aux_spec mx ex lx :
  2 ^ 52 ≤ mx < 2 ^ 200 → -1074 ≤ ex ≤ 500 →
  ∃ n m e, 0 ≤ n ∧ binary_round_aux 53 1024 false mx ex lx = S754_finite false m e ∧ ex ≤ e ∧
    2 ^ (n + 52) ≤ mx ∧ mx - 2 ^ n ≤ Z.pos m * 2 ^ (e - ex) ≤ mx + 2 ^ n ∧ 2 ^ 52 ≤ Z.pos m.
Proof.
  intros Hm He. destruct (shr_fexp_spec mx ex lx) as (n&Hn&[Hl Hu]&E1&E2); [lia..|].
  assert (n < 148) as Hn'.
  { destruct (Z.lt_ge_cases n 148); [done|].
    assert (2 ^ 200 ≤ 2 ^ (n + 52)) by (apply Z.pow_le_mono_r; lia). lia. }
  rewrite /binary_round_aux. destruct (shr_fexp 53 1024 mx ex lx) as [mrs1 e1]. simpl in E1, E2.
  subst e1. set (m1' := round_nearest_even _ _).
  assert (shr_m mrs1 ≤ m1' ≤ shr_m mrs1 + 1) as Hr by apply round_nearest_even_bounds.
  assert (0 < 2 ^ n) by lia.
  assert (2 ^ 52 ≤ shr_m mrs1 < 2 ^ 53) as [Hm1 Hm1'].
  { rewrite E1. rewrite !Z.pow_add_r in Hl Hu; [|lia..]. split.
    - apply Z.div_le_lower_bound; lia.
    - apply Z.div_lt_upper_bound; lia. }
  destruct (shr_fexp_spec m1' (ex + n) loc_Exact) as (n2&Hn2&[Hl2 Hu2]&E3&E4); [lia..|].
  destruct (shr_fexp 53 1024 m1' (ex + n) loc_Exact) as [mrs2 e2]. simpl in E3, E4. subst e2.
  assert (n2 = 0 ∨ n2 = 1 ∧ m1' = 2 ^ 53) as Hcase.
  { destruct (Z.eq_dec n2 0); [by left|right]. assert (2 ^ 53 ≤ 2 ^ (n2 + 52)) by
      (apply Z.pow_le_mono_r; lia). assert (m1' = 2 ^ 53) by lia. split; [|done].
    destruct (Z.le_gt_cases n2 1); [lia|].
    assert (2 ^ 54 ≤ 2 ^ (n2 + 52)) by (apply Z.pow_le_mono_r; lia). lia. }
  assert (shr_m mrs2 * 2 ^ n2 = m1' ∧ 2 ^ 52 ≤ shr_m mrs2) as [E5 Hm2].
  { rewrite E3. destruct Hcase as [->|[-> ->]]; [|done]. rewrite Z.div_1_r. lia. }
  destruct (shr_m mrs2) as [|m|m]; [lia| |lia].
  destruct (Z.leb_spec (ex + n + n2) (1024 - 53)); [|lia].
  exists n, m, (ex + n + n2). split_and!; [lia|done|lia|lia| | |lia].
  - replace (ex + n + n2 - ex) with (n2 + n) by lia. rewrite Z.pow_add_r; [|lia..].
    rewrite Z.mul_assoc E5. pose proof (Z.mod_pos_bound mx (2 ^ n)).
    pose proof (Z.div_mod mx (2 ^ n)). rewrite E1 in Hr. nia.
  - replace (ex + n + n2 - ex) with (n2 + n) by lia. rewrite Z.pow_add_r; [|lia..].
    rewrite Z.mul_assoc E5. pose proof (Z.mod_pos_bound mx (2 ^ n)).
    pose proof (Z.div_mod mx (2 ^ n)). rewrite E1 in Hr. nia.
Qed.

(** Integers below 2^53 convert exactly. *)
Lemma pos_iter_xO p d : Z.pos (Pos.iter xO p d) = Z.pos p * 2 ^ Z.pos d.
Proof.
  induction d as [|d IH] using Pos.peano_ind; [simpl; lia|].
  rewrite Pos.iter_succ Pos2Z.inj_xO IH Pos2Z.inj_succ Z.pow_succ_r; lia.
Qed.

Lemma binary_round_aux_exact m e :
  2 ^ 52 ≤ Z.pos m < 2 ^ 53 → -1074 ≤ e ≤ 971 →
  binary_round_aux 53 1024 false (Z.pos m) e loc_Exact = S754_finite false m e.
Proof.
  intros Hm He. assert (Z.pos (digits2_pos m) = 53) as Hd by (apply digits2_unique; lia).
  assert (shr_fexp 53 1024 (Z.pos m) e loc_Exact = ({| shr_m := Z.pos m; shr_r := false; shr_s := false |}, e)) as E.
  { rewrite /shr_fexp /fexp /emin /Zdigits2 Hd. replace (Z.max _ _ - e) with 0 by lia. done. }
  rewrite /binary_round_aux E /= E /=. destruct (Z.leb_spec e (1024 - 53)); [done|lia].
Qed.

Lemma float_of_Z_pos z :
  0 < z < 2 ^ 53 →
  ∃ m k, float_of_Z z = S754_finite false m (- k) ∧ 0 ≤ k ≤ 52 ∧
    Z.pos m = z * 2 ^ k ∧ 2 ^ 52 ≤ Z.pos m < 2 ^ 53.
Proof.
  intros Hz. destruct z as [|p|p]; [lia| |lia].
  destruct (digits2_pos_bounds p) as [Hl Hu]. set (d := Z.pos (digits2_pos p)) in *.
  assert (1 ≤ d) by lia. assert (d ≤ 53).
  { destruct (Z.le_gt_cases d 53); [done|].
    assert (2 ^ 53 ≤ 2 ^ (d - 1)) by (apply Z.pow_le_mono_r; lia). lia. }
  assert (∃ m, Z.pos m = Z.pos p * 2 ^ (53 - d) ∧
    shl_align p 0 (fexp 53 1024 (d + 0)) = (m, - (53 - d))) as (m&Hm&Ha).
  { rewrite /shl_align /fexp /emin. replace (Z.max _ _ - 0) with (- (53 - d)) by lia.
    destruct (53 - d) as [|k|k] eqn:Hk; [| |lia]; simpl.
    - exists p. split; [lia|done].
    - exists (Pos.iter xO p k). split; [by rewrite pos_iter_xO|]. f_equal. lia. }
  assert (2 ^ 52 ≤ Z.pos m < 2 ^ 53) as Hmb.
  { assert (2 ^ (d - 1) * 2 ^ (53 - d) = 2 ^ 52) as E1 by
      (rewrite -Z.pow_add_r; [f_equal; lia|lia..]).
    assert (2 ^ d * 2 ^ (53 - d) = 2 ^ 53) as E2 by
      (rewrite -Z.pow_add_r; [f_equal; lia|lia..]).
    assert (0 < 2 ^ (53 - d)) by lia. rewrite Hm -E1 -E2. nia. }
  exists m, (53 - d). split_and!; [|lia|lia|done|lia|lia].
  rewrite /float_of_Z /binary_normalize /binary_round -/d Ha.
  apply binary_round_aux_exact; lia.
Qed.

(** ** The accuracy of the fee expression *)

Lemma float_1000 : float_of_Z 1000 = S754_finite false 8796093022208000 (-43).
Proof. reflexivity. Qed.

Lemma div_core_1000 m k :
  2 ^ 52 ≤ Z.pos m < 2 ^ 53 → 0 ≤ k ≤ 52 →
  ∃ l, SFdiv_core_binary 53 1024 (Z.pos m) (- k) 8796093022208000 (-43) =
    (Z.pos m * 2 ^ 10 / 1000, - (k + 10), l).
Proof.
  intros Hm Hk. rewrite /SFdiv_core_binary /Zdigits2.
  rewrite (digits2_unique m 53) //. rewrite (digits2_unique 8796093022208000 53) //.
  rewrite /fexp /emin. replace (Z.min _ _) with (- (k + 10)) by lia.
  replace (- k - -43 - - (k + 10)) with 53 by lia.
  destruct (Z.div_eucl (Z.shiftl (Z.pos m) 53) 8796093022208000) as [q r] eqn:Hq.
  exists (new_location 8796093022208000 r). f_equal. f_equal.
  assert (q = Z.shiftl (Z.pos m) 53 / 8796093022208000) as -> by by rewrite /Z.div Hq.
  rewrite Z.shiftl_mul_pow2 //.
  replace (Z.pos m * 2 ^ 53) with (Z.pos m * 2 ^ 10 * 2 ^ 43) by lia.
  change 8796093022208000 with (1000 * 2 ^ 43). by rewrite Z.div_mul_cancel_r.
Qed.

(** [size / 1000]: relative error at most 2^-51, written over the integers with
    the common scale [2^j]. *)
Lemma fdiv_1000_spec s :
  0 < s < 2 ^ 53 →
  ∃ m e j, fdiv (float_of_Z s) (float_of_Z 1000) = S754_finite false m e ∧
    0 ≤ j ≤ 62 ∧ - j ≤ e ≤ 10 ∧ 2 ^ 52 ≤ Z.pos m < 2 ^ 60 ∧
    s * 2 ^ j * (2 ^ 51 - 1) ≤ 1000 * (Z.pos m * 2 ^ (e + j)) * 2 ^ 51 ≤ s * 2 ^ j * (2 ^ 51 + 1).
Proof.
  intros Hs. destruct (float_of_Z_pos s Hs) as (ms&k&Ef&Hk&Hms&Hb).
  destruct (div_core_1000 ms k Hb Hk) as [l Hdiv]. set (q := Z.pos ms * 2 ^ 10 / 1000) in *.
  assert (1000 * q ≤ Z.pos ms * 2 ^ 10 < 1000 * (q + 1)) as Hq.
  { pose proof (Z.div_mod (Z.pos ms * 2 ^ 10) 1000). pose proof (Z.mod_pos_bound (Z.pos ms * 2 ^ 10) 1000).
    subst q. lia. }
  destruct (round_aux_spec q (- (k + 10)) l) as (n&m&e&Hn&Er&He&Hnq&Hmq&Hm); [lia..|].
  assert (0 < 2 ^ n) by lia. rewrite Z.pow_add_r in Hnq; [|lia..].
  assert (e + (k + 10) < 8) as He'.
  { destruct (Z.lt_ge_cases (e + (k + 10)) 8); [done|].
    assert (2 ^ 8 ≤ 2 ^ (e - - (k + 10))) by (apply Z.pow_le_mono_r; lia). nia. }
  exists m, e, (k + 10). replace (e - - (k + 10)) with (e + (k + 10)) in Hmq by lia.
  assert (1 ≤ 2 ^ (e + (k + 10))) by (apply (Z.pow_le_mono_r 2 0); lia).
  assert (Z.pos m * 1 ≤ Z.pos m * 2 ^ (e + (k + 10))) by (apply Z.mul_le_mono_nonneg_l; lia).
  split_and!; try lia.
  - by rewrite /fdiv Ef float_1000 /SFdiv Hdiv.
  - replace (s * 2 ^ (k + 10)) with (Z.pos ms * 2 ^ 10) by (rewrite Hms Z.pow_add_r; lia). lia.
  - replace (s * 2 ^ (k + 10)) with (Z.pos ms * 2 ^ 10) by (rewrite Hms Z.pow_add_r; lia). lia.
Qed.

(** Composing the two relative errors, over the integers: [P] approximates
    [T/1000] at scale [A], [M] approximates [P] at scale [B]. *)
Lemma compose_errors T P A M B :
  0 < T → 0 < P → 1 ≤ A →
  T * (2 ^ 51 - 1) ≤ 1000 * (P * A) * 2 ^ 51 ≤ T * (2 ^ 51 + 1) →
  P * (2 ^ 52 - 1) ≤ M * B * 2 ^ 52 ≤ P * (2 ^ 52 + 1) →
  T * (2 ^ 50 - 1) < 1000 * (M * (B * A)) * 2 ^ 50 < T * (2 ^ 50 + 1).
Proof.
  intros HT HP HA H1 [H2 H3].
  assert (P * (2 ^ 52 - 1) * A ≤ M * B * 2 ^ 52 * A) by (apply Z.mul_le_mono_nonneg_r; lia).
  assert (M * B * 2 ^ 52 * A ≤ P * (2 ^ 52 + 1) * A) by (apply Z.mul_le_mono_nonneg_r; lia).
  rewrite Z.mul_assoc. remember (P * A) as Y. remember (M * B * A) as X.
  replace (P * (2 ^ 52 - 1) * A) with (Y * (2 ^ 52 - 1)) in H by (subst; lia).
  replace (P * (2 ^ 52 + 1) * A) with (Y * (2 ^ 52 + 1)) in H0 by (subst; lia).
  replace (M * B * 2 ^ 52 * A) with (X * 2 ^ 52) in H, H0 by (subst; lia). lia.
Qed.

(** Dividing out a common power of two. *)
Lemma cancel_scale x M S c :
  0 < c → x < 2 ^ 50 → 0 < x → 0 < S →
  x * (S * c) * (2 ^ 50 - 1) < 1000 * (M * c) * 2 ^ 50 < x * (S * c) * (2 ^ 50 + 1) →
  (x - 1) * S < 1000 * M < (x + 1) * S.
Proof.
  intros Hc Hx Hx0 HS [H1 H2].
  assert (c * (x * S * (2 ^ 50 - 1)) < c * (1000 * M * 2 ^ 50)) as H3 by lia.
  assert (c * (1000 * M * 2 ^ 50) < c * (x * S * (2 ^ 50 + 1))) as H4 by lia.
  apply Z.mul_lt_mono_pos_l in H3, H4; [|done..].
  assert (x * S < 2 ^ 50 * S) by (apply Z.mul_lt_mono_pos_r; lia).
  remember (x * S) as Y. rewrite Z.mul_sub_distr_r Z.mul_add_distr_r -HeqY. lia.
Qed.

(** [size / 1000 * rate]: for [size * rate < 2^50] the float64 product [p]
    satisfies [|1000 p - size * rate| < 1]. *)
Lemma fmul_fdiv_spec s r :
  0 < s → 0 < r → s * r < 2 ^ 50 →
  ∃ m e, fmul (fdiv (float_of_Z s) (float_of_Z 1000)) (float_of_Z r) = S754_finite false m (- e) ∧
    0 < e ∧ (s * r - 1) * 2 ^ e < 1000 * Z.pos m < (s * r + 1) * 2 ^ e.
Proof.
  intros Hs Hr Hsr. assert (s * 1 ≤ s * r) by (apply Z.mul_le_mono_nonneg_l; lia).
  assert (1 * r ≤ s * r) by (apply Z.mul_le_mono_nonneg_r; lia).
  destruct (fdiv_1000_spec s) as (mq&eq&j&Ed&Hj&He&Hmq&HQ); [lia|].
  destruct (float_of_Z_pos r) as (mr&k&Er&Hk&Hmr&Hb); [lia|].
  assert (2 ^ 52 * 2 ^ 52 ≤ Z.pos mq * Z.pos mr) by (apply Z.mul_le_mono_nonneg; lia).
  assert (Z.pos mq * Z.pos mr ≤ 2 ^ 60 * 2 ^ 53) by (apply Z.mul_le_mono_nonneg; lia).
  destruct (round_aux_spec (Z.pos (mq * mr)) (eq + - k) loc_Exact)
    as (n&m&e&Hn&Ep&Hep&Hnp&Hmp&Hm); [rewrite Pos2Z.inj_mul; lia|lia|].
  assert (0 < 2 ^ n) by lia. rewrite Z.pow_add_r in Hnp; [|lia..].
  rewrite Pos2Z.inj_mul in Hnp Hmp.
  assert (s * 2 ^ j * Z.pos mr = s * r * 2 ^ (j + k)) as ET by (rewrite Hmr Z.pow_add_r; lia).
  assert (0 < s * r * 2 ^ (j + k)) by (apply Z.mul_pos_pos; lia).
  assert (2 ^ (e - (eq + - k)) * 2 ^ (eq + j) = 2 ^ (e + (j + k))) as EBA.
  { rewrite -Z.pow_add_r; [f_equal; lia|lia|lia]. }
  assert (1 ≤ 2 ^ (eq + j)) by (apply (Z.pow_le_mono_r 2 0); lia).
  pose proof (compose_errors (s * r * 2 ^ (j + k)) (Z.pos mq * Z.pos mr) (2 ^ (eq + j)) (Z.pos m)
    (2 ^ (e - (eq + - k)))) as HT. rewrite EBA in HT.
  ospecialize (HT _ _ _ _ _); [lia..| |lia|].
  { rewrite -ET. destruct HQ as [Q1 Q2].
    apply (Z.mul_le_mono_nonneg_r _ _ (Z.pos mr)) in Q1, Q2; lia. }
  destruct (Z.lt_ge_cases e 0) as [Hneg|Hpos]; last first.
  { exfalso. rewrite (Z.pow_add_r 2 e (j + k)) in HT; [|lia..].
    destruct (cancel_scale (s * r) (Z.pos m * 2 ^ e) 1 (2 ^ (j + k))); [lia..|].
    assert (Z.pos m * 1 ≤ Z.pos m * 2 ^ e) by
      (apply Z.mul_le_mono_nonneg_l; [lia|apply (Z.pow_le_mono_r 2 0); lia]). lia. }
  exists m, (- e). rewrite Z.opp_involutive. split_and!; [|lia|..].
  { by rewrite Ed Er /fmul /SFmul Ep. }
  all: assert (2 ^ (- e) * 2 ^ (e + (j + k)) = 2 ^ (j + k)) as ES by
    (rewrite -Z.pow_add_r; [f_equal; lia|lia..]).
  all: rewrite -ES in HT; by apply cancel_scale in HT as [??]; [|lia..].
Qed.

Lemma trunc_float_of_Z z : 0 ≤ z < 2 ^ 53 → trunc (float_of_Z z) = Some z.
Proof.
  intros Hz. destruct (Z.eq_dec z 0) as [->|]; [done|].
  destruct (float_of_Z_pos z) as (m&k&->&Hk&Hm&_); [lia|]. cbn [trunc signed]. rewrite Hm. f_equal.
  destruct (Z.leb_spec 0 (- k)).
  - replace k with 0 by lia. simpl. lia.
  - rewrite Z.opp_involutive Z.quot_mul; lia.
Qed.

Lemma Ceil_pos m e :
  0 < e → ∃ c, Ceil (S754_finite false m (- e)) = float_of_Z c ∧ 0 < c ∧
    2 ^ e * (c - 1) < Z.pos m ≤ 2 ^ e * c.
Proof.
  intros He. cbn [Ceil signed]. destruct (Z.leb_spec 0 (- e)); [lia|]. rewrite Z.opp_involutive.
  exists (- ((- Z.pos m) / 2 ^ e)). assert (0 < 2 ^ e) as Hp by lia.
  pose proof (Z.div_mod (- Z.pos m) (2 ^ e)). pose proof (Z.mod_pos_bound (- Z.pos m) (2 ^ e) Hp).
  assert (0 < - (- Z.pos m / 2 ^ e)) by nia.
  destruct (Z.eqb_spec (- (- Z.pos m / 2 ^ e)) 0); [lia|]. split_and!; [done|lia|nia|nia].
Qed.

(** The fee expression rounds [size * rate / 1000] up; only when that quotient is
    already whole may it come out one higher. *)
Lemma fee_expr_spec s r :
  0 ≤ s < 2 ^ 53 → 0 ≤ r < 2 ^ 53 → s * r < 2 ^ 50 →
  ∃ c, trunc (fee_expr (float_of_Z s) (float_of_Z r)) = Some c ∧
    (fee_expr (float_of_Z s) (float_of_Z r)) = float_of_Z c ∧
    0 ≤ c < 2 ^ 50 ∧ s * r ≤ 1000 * c ≤ s * r + 1000 ∧ (s * r = 0 → c = 0).
Proof.
  intros Hs Hr Hsr. destruct (Z.eq_dec s 0) as [->|Hs0].
  { exists 0. assert (fee_expr (float_of_Z 0) (float_of_Z r) = float_of_Z 0) as ->.
    { destruct (Z.eq_dec r 0) as [->|]; [done|].
      destruct (float_of_Z_pos r) as (m&k&->&_); [lia|]. done. }
    split_and!; (done || lia). }
  destruct (Z.eq_dec r 0) as [->|Hr0].
  { exists 0. assert (fee_expr (float_of_Z s) (float_of_Z 0) = float_of_Z 0) as ->.
    { rewrite /fee_expr. destruct (fdiv_1000_spec s) as (m&e&j&->&_); [lia|]. done. }
    split_and!; (done || lia). }
  destruct (fmul_fdiv_spec s r) as (m&e&Ep&He&Hlo&Hhi); [lia..|].
  destruct (Ceil_pos m e He) as (c&Ec&Hc&Hlt&Hle).
  assert (0 < 2 ^ e) as Hp by lia. assert (0 < s * r) by (apply Z.mul_pos_pos; lia).
  assert (2 ^ e * (s * r - 1) < 2 ^ e * (1000 * c)) as H1 by lia.
  assert (2 ^ e * (1000 * (c - 1)) < 2 ^ e * (s * r + 1)) as H2 by lia.
  apply Z.mul_lt_mono_pos_l in H1, H2; [|done..].
  exists c. rewrite /fee_expr Ep Ec. split_and!; [apply trunc_float_of_Z; lia|done|lia..].
Qed.

(** ** Doubling is exact *)

Lemma iter_shr_exact p x :
  0 < x → SpecFloat.iter_pos shr_1 p {| shr_m := x * 2 ^ Z.pos p; shr_r := false; shr_s := false |} =
          {| shr_m := x; shr_r := false; shr_s := false |}.
Proof.
  assert (∀ y, 0 < y → shr_1 {| shr_m := y * 2; shr_r := false; shr_s := false |} =
    {| shr_m := y; shr_r := false; shr_s := false |}) as H1.
  { intros [|y|y] Hy; [lia| |lia]. by rewrite Z.mul_comm. }
  revert x. induction p as [p IH|p IH|]; intros x Hx; cbn [SpecFloat.iter_pos].
  - replace (x * 2 ^ Z.pos p~1) with (x * 2 ^ Z.pos p * 2 ^ Z.pos p * 2).
    + rewrite H1; [|lia]. rewrite IH; [|lia]. by apply IH.
    + rewrite Pos2Z.inj_xI. replace (2 * Z.pos p + 1) with (Z.pos p + Z.pos p + 1) by lia.
      rewrite !Z.pow_add_r; lia.
  - replace (x * 2 ^ Z.pos p~0) with (x * 2 ^ Z.pos p * 2 ^ Z.pos p).
    + rewrite IH; [|lia]. by apply IH.
    + rewrite (Pos2Z.inj_xO p) -Z.add_diag Z.pow_add_r; lia.
  - by apply H1.
Qed.

Lemma fmul_2 m k :
  2 ^ 52 ≤ Z.pos m < 2 ^ 53 → 0 ≤ k ≤ 52 →
  fmul (S754_finite false m (- k)) (float_of_Z 2) = S754_finite false m (1 - k).
Proof.
  intros Hm Hk. assert (float_of_Z 2 = S754_finite false 4503599627370496 (-51)) as -> by done.
  rewrite /fmul /SFmul /=. assert (Z.pos (m * 4503599627370496) = Z.pos m * 2 ^ Z.pos 52) as Hp
    by (rewrite Pos2Z.inj_mul; done).
  assert (Z.pos (digits2_pos (m * 4503599627370496)) = 105) as Hd.
  { apply digits2_unique; [lia|]. rewrite Hp. lia. }
  assert (shr_fexp 53 1024 (Z.pos (m * 4503599627370496)) (- k + -51) loc_Exact =
    ({| shr_m := Z.pos m; shr_r := false; shr_s := false |}, 1 - k)) as E1.
  { rewrite /shr_fexp /fexp /emin /Zdigits2 Hd. replace (Z.max _ _ - _) with 52 by lia.
    rewrite /shr /shr_record_of_loc Hp iter_shr_exact; [|lia]. f_equal. lia. }
  assert (shr_fexp 53 1024 (Z.pos m) (1 - k) loc_Exact =
    ({| shr_m := Z.pos m; shr_r := false; shr_s := false |}, 1 - k)) as E2.
  { rewrite /shr_fexp /fexp /emin /Zdigits2 (digits2_unique m 53) //.
    replace (Z.max _ _ - _) with 0 by lia. done. }
  rewrite /binary_round_aux E1 /= E2 /=. destruct (Z.leb_spec (1 - k) (1024 - 53)); [done|lia].
Qed.

(** [math.Max(1, 2*c)] of a whole number [c]. *)
Lemma max_one_double c :
  0 ≤ c < 2 ^ 52 → trunc (Max (float_of_Z 1) (fmul (float_of_Z c) (float_of_Z 2))) = Some (Z.max 1 (2 * c)).
Proof.
  intros Hc. destruct (Z.eq_dec c 0) as [->|Hne]; [done|].
  destruct (float_of_Z_pos c) as (m&k&->&Hk&Hm&Hb); [lia|]. rewrite fmul_2 //.
  assert (float_of_Z 1 = S754_finite false 4503599627370496 (-52)) as -> by done.
  rewrite /Max /SFltb /SFcompare. destruct (Z.compare_spec (1 - k) (-52)); [lia|lia|].
  cbn [trunc signed]. f_equal. rewrite Z.max_r; [|lia]. rewrite Hm.
  destruct (Z.leb_spec 0 (1 - k)).
  - assert (k = 0 ∨ k = 1) as [-> | ->] by lia; lia.
  - replace (- (1 - k)) with (k - 1) by lia. replace (c * 2 ^ k) with (2 * c * 2 ^ (k - 1)).
    + rewrite Z.quot_mul; lia.
    + replace k with (1 + (k - 1)) at 2 by lia. rewrite Z.pow_add_r; lia.
Qed.

End Float64.
