(* ===== verification/External.v ===== *)
(** * External: third-party functions the fee and change code calls

    The generic helpers of [github.com/go-softwarelab/common] ([to], [must]) and
    the transaction varint of [github.com/bsv-blockchain/go-sdk] are not part of
    this repository.  [External] names them; [ExternalLaws] states the documented
    behaviour the code relies on; [external_std] is one implementation that has it. *)
From Stdlib Require Import Floats.SpecFloat.
From S2P Require Import Prelude Float64.
Import Float64.
Local Open Scope Z_scope.

Class External := {
  (** [to.NoLessThan(v, min)]. *)
  NoLessThan : Z → Z → Z;
  (** [to.ValueBetween(v, min, max)]. *)
  ValueBetween : Z → Z → Z → Z;
  (** [must.ConvertToUInt64(v)]; [None] is its panic. *)
  ConvertToUInt64 : Z → option Z;
  (** [to.Float64(v)] and [to.Float64FromUnsigned(v)]; [None] is an error. *)
  to_Float64 : Z → option float64;
  to_Float64FromUnsigned : Z → option float64;
  (** [to.Int64(f)]; [None] is an error. *)
  to_Int64 : float64 → option Z;
  (** [sdk.VarInt(v).Length()]. *)
  VarInt_Length : Z → Z;
  (** What the platform's Go compiler yields for [int64(f)] and [uint64(f)] when no
      value of the type represents [f] (the language leaves it open). *)
  impl_int64 : float64 → Z;
  impl_uint64 : float64 → Z;
}.

Class ExternalLaws (E : External) : Prop := {
  NoLessThan_max : ∀ v lo, NoLessThan v lo = Z.max v lo;
  ValueBetween_clamp : ∀ v lo hi, lo ≤ hi → ValueBetween v lo hi = Z.max lo (Z.min v hi);
  ConvertToUInt64_nonneg : ∀ v, 0 ≤ v < 2 ^ 63 → ConvertToUInt64 v = Some v;
  to_Float64_exact : ∀ v, 0 ≤ v < 2 ^ 53 → to_Float64 v = Some (float_of_Z v);
  to_Float64FromUnsigned_exact :
    ∀ v, 0 ≤ v < 2 ^ 53 → to_Float64FromUnsigned v = Some (float_of_Z v);
  to_Int64_exact : ∀ v, 0 ≤ v < 2 ^ 53 → to_Int64 (float_of_Z v) = Some v;
  VarInt_Length_small : ∀ v, 0 ≤ v < 253 → VarInt_Length v = 1;
}.

(** Go's conversions of a float64 to a 64-bit integer. *)
Definition int64_of_float `{External} (f : float64) : Z :=
  match trunc f with
  | Some z => if (- 2 ^ 63 <=? z) && (z <? 2 ^ 63) then z else impl_int64 f
  | None => impl_int64 f
  end.
Definition uint64_of_float `{External} (f : float64) : Z :=
  match trunc f with
  | Some z => if (0 <=? z) && (z <? 2 ^ 64) then z else impl_uint64 f
  | None => impl_uint64 f
  end.

Lemma int64_of_float_trunc `{External} f z :
  trunc f = Some z → 0 ≤ z < 2 ^ 53 → int64_of_float f = z.
Proof.
  intros Hf Hz. rewrite /int64_of_float Hf.
  destruct (Z.leb_spec (- 2 ^ 63) z), (Z.ltb_spec z (2 ^ 63)); simpl; lia.
Qed.
Lemma uint64_of_float_trunc `{External} f z :
  trunc f = Some z → 0 ≤ z < 2 ^ 53 → uint64_of_float f = z.
Proof.
  intros Hf Hz. rewrite /uint64_of_float Hf.
  destruct (Z.leb_spec 0 z), (Z.ltb_spec z (2 ^ 64)); simpl; lia.
Qed.

(** One implementation. *)
Definition varint_length (v : Z) : Z :=
  if v <? 253 then 1 else if v <? 2 ^ 16 then 3 else if v <? 2 ^ 32 then 5 else 9.

Definition external_std : External := {|
  NoLessThan v lo := if v <? lo then lo else v;
  ValueBetween v lo hi := if v <? lo then lo else if hi <? v then hi else v;
  ConvertToUInt64 v := if v <? 0 then None else Some v;
  to_Float64 v := Some (float_of_Z v);
  to_Float64FromUnsigned v := Some (float_of_Z v);
  to_Int64 f := trunc f;
  VarInt_Length := varint_length;
  impl_int64 _ := - 2 ^ 63;
  impl_uint64 _ := 2 ^ 63;
|}.

Lemma external_std_laws : ExternalLaws external_std.
Proof.
  split; simpl; intros.
  - destruct (Z.ltb_spec v lo); lia.
  - destruct (Z.ltb_spec v lo), (Z.ltb_spec hi v); lia.
  - destruct (Z.ltb_spec v 0); [lia|done].
  - done.
  - done.
  - by apply trunc_float_of_Z.
  - rewrite /varint_length. destruct (Z.ltb_spec v 253); [done|lia].
Qed.
