(* ===== verification/Fee.v ===== *)
(** * Fee: transaction sizes and the fee calculator

    [pkg/internal/txutils] (byte sizes, the node's minimum fee),
    [pkg/defs/fee_model.go], [pkg/storage/internal/funder/fee_calculator.go] and
    the fee helpers of [pkg/defs/utxo_management.go].  The fee is computed in
    float64 as the code does it; the theorems bound it by exact arithmetic. *)
From S2P Require Import Prelude Float64 External Satoshi.
Import Float64 Satoshi.
Local Open Scope Z_scope.

Module Fee.

(** ** Sizes *)
Definition P2PKHUnlockingScriptLength : Z := 107.
Definition P2PKHLockingScriptLength : Z := 25.
Definition txEnvelopeSize : Z := 4 + 4.
Definition satoshisSize : Z := 8.
Definition inputConstSize : Z := 32 + 4 + 4.

(** ** The node's floor *)
Definition MinRequiredFee (sizeBytes satPerKB : Z) : Z :=
  if (satPerKB <=? 0) || (sizeBytes =? 0) then 0
  else
    let fee := u64 (sizeBytes * u64 satPerKB) / 1000 in
    if fee =? 0 then 1 else fee.

(** ** The fee model *)
Definition SatPerKB : string := "sat/kb".
Record FeeModel := mkFeeModel { fm_Type : string; fm_Value : Z }.
Definition DefaultFeeModel : FeeModel := mkFeeModel SatPerKB 100.

(** [strings.EqualFold] on the ASCII strings the enums consist of. *)
Definition fold_char (c : Ascii.ascii) : Ascii.ascii :=
  let n := Ascii.nat_of_ascii c in
  if decide (65 ≤ n ≤ 90)%nat then Ascii.ascii_of_nat (n + 32) else c.
Definition EqualFold (a b : string) : bool :=
  bool_decide (fold_char <$> String.list_ascii_of_string a =
               fold_char <$> String.list_ascii_of_string b).

(** [parseEnumCaseInsensitive]; [None] is its error. *)
Fixpoint parseEnumCaseInsensitive (value : string) (enums : list string) : option string :=
  match enums with
  | [] => None
  | e :: enums' => if EqualFold value e then Some e else parseEnumCaseInsensitive value enums'
  end.
Definition ParseFeeModelType (s : string) : option string := parseEnumCaseInsensitive s [SatPerKB].

(** [FeeModel.Validate] writes the canonical type back; the error says which
    check failed. *)
Inductive fee_model_error := InvalidFeeModel | InvalidFeeValue (v : Z).
Definition FeeModel_Validate (f : FeeModel) : option fee_model_error * FeeModel :=
  match ParseFeeModelType (fm_Type f) with
  | None => (Some InvalidFeeModel, mkFeeModel "" (fm_Value f))
  | Some t =>
      let f' := mkFeeModel t (fm_Value f) in
      if bool_decide (t = SatPerKB) && (fm_Value f <=? 0)
      then (Some (InvalidFeeValue (fm_Value f)), f') else (None, f')
  end.

(** ** The calculator *)
Record feeCalc := mkFeeCalc { fc_value : float64 }.

Inductive fee_error := InvalidTxSize | FeeNotInt64 | FeeNotSatoshis (e : sats_error).

Definition fuelInputSizeBytes : Z := 148.
Definition commissionOutputSizeBytes : Z := 34.

Section with_external.
Context `{External}.

(** [feeForSize] and [MarginalFuelInputFee]: the float expression again. *)
Definition feeForSize (sizeBytes : Z) (m : FeeModel) : Z :=
  if fm_Value m <=? 0 then 0
  else uint64_of_float (fee_expr (float_of_Z sizeBytes) (float_of_Z (fm_Value m))).
Definition MarginalFuelInputFee (m : FeeModel) : Z := feeForSize fuelInputSizeBytes m.

Definition varIntSize (val : Z) : Z := u64 (VarInt_Length val).

Definition TransactionInputSize (scriptSize : Z) : Z :=
  u64 (inputConstSize + varIntSize scriptSize + scriptSize).
Definition TransactionOutputSize (scriptSize : Z) : Z :=
  u64 (varIntSize scriptSize + scriptSize + satoshisSize).

Definition TransactionSizeFromScriptLengths (ins outs : list Z) : Z :=
  let inputsSize := foldl (λ acc l, u64 (acc + TransactionInputSize l)) 0 ins in
  let outputsSize := foldl (λ acc l, u64 (acc + TransactionOutputSize l)) 0 outs in
  u64 (txEnvelopeSize + varIntSize (Z.of_nat (length ins)) + inputsSize +
       varIntSize (Z.of_nat (length outs)) + outputsSize).

Definition P2PKHOutputSize : Z := TransactionOutputSize P2PKHLockingScriptLength.
Definition P2PKHEstimatedInputSize : Z := TransactionInputSize P2PKHUnlockingScriptLength.

Definition newFeeCalculator (model : FeeModel) : outcome fee_error feeCalc :=
  if decide (fm_Type model ≠ SatPerKB) then Panic
  else if fm_Value model <? 0 then Panic
  else match to_Float64 (fm_Value model) with
       | None => Panic
       | Some feeValue => Ret (mkFeeCalc feeValue)
       end.

Definition Calculate (f : feeCalc) (txSize : Z) : outcome fee_error Z :=
  match to_Float64FromUnsigned txSize with
  | None => Err InvalidTxSize
  | Some size =>
      match to_Int64 (fee_expr size (fc_value f)) with
      | None => Err FeeNotInt64
      | Some fee =>
          match From (mkInt KInt64 fee) with
          | Ret sats => Ret sats
          | Err e => Err (FeeNotSatoshis e)
          | Panic => Panic
          end
      end
  end.
End with_external.

(** ** Properties *)

Section properties.
Context `{E : External, !ExternalLaws E}.

Lemma u64_id v : 0 ≤ v < 2 ^ 64 → u64 v = v.
Proof. intros. rewrite /wrapU Z.mod_small //. Qed.

Lemma varIntSize_small v : 0 ≤ v < 253 → varIntSize v = 1.
Proof. intros. by rewrite /varIntSize VarInt_Length_small. Qed.

Lemma TransactionInputSize_small l : 0 ≤ l < 253 → TransactionInputSize l = l + 41.
Proof.
  intros. rewrite /TransactionInputSize varIntSize_small // u64_id /inputConstSize; lia.
Qed.
Lemma TransactionOutputSize_small l : 0 ≤ l < 253 → TransactionOutputSize l = l + 9.
Proof.
  intros. rewrite /TransactionOutputSize varIntSize_small // u64_id /satoshisSize; lia.
Qed.

Lemma P2PKHOutputSize_34 : P2PKHOutputSize = 34.
Proof. rewrite /P2PKHOutputSize TransactionOutputSize_small; [done|]. by split. Qed.
Lemma P2PKHEstimatedInputSize_148 : P2PKHEstimatedInputSize = 148.
Proof. rewrite /P2PKHEstimatedInputSize TransactionInputSize_small; [done|]. by split. Qed.

Lemma From_int64 v : in_supply v → From (mkInt KInt64 v) = Ret v.
Proof.
  intros Hv. apply (From_ok (mkInt KInt64 v)); [|done|done].
  unfold representable, in_supply, MaxSatoshis in *. simpl. lia.
Qed.

Lemma Calculate_exact r s :
  0 ≤ r < 2 ^ 53 → 0 ≤ s < 2 ^ 53 → s * r < 2 ^ 50 →
  ∃ fee, Calculate (mkFeeCalc (float_of_Z r)) s = Ret fee ∧ 0 ≤ fee ∧
    s * r ≤ 1000 * fee ≤ s * r + 1000 ∧ (s * r = 0 → fee = 0).
Proof.
  intros Hr Hs Hsr. destruct (fee_expr_spec s r) as (c&_&Ec&Hc&Hb&H0); [done..|].
  exists c. split_and!; [|lia..|done].
  rewrite /Calculate to_Float64FromUnsigned_exact // /= Ec to_Int64_exact; [|lia].
  by rewrite From_int64; [|unfold in_supply, MaxSatoshis; lia].
Qed.

Lemma newFeeCalculator_Ret r :
  0 ≤ r < 2 ^ 53 → newFeeCalculator (mkFeeModel SatPerKB r) = Ret (mkFeeCalc (float_of_Z r)).
Proof.
  intros Hr. rewrite /newFeeCalculator. case_decide as Ht; [by destruct Ht|]. simpl.
  destruct (Z.ltb_spec r 0); [lia|]. by rewrite to_Float64_exact.
Qed.

Lemma MinRequiredFee_exact s r :
  0 ≤ s → 0 ≤ r → s * r < 2 ^ 50 → r < 2 ^ 53 →
  MinRequiredFee s r = if s * r =? 0 then 0 else Z.max 1 (s * r / 1000).
Proof.
  intros Hs Hr Hsr Hr'. rewrite /MinRequiredFee.
  destruct (Z.leb_spec r 0), (Z.eqb_spec s 0); simpl;
    try (replace (s * r) with 0 by nia; done).
  rewrite (u64_id r); [|lia]. assert (0 < s * r) by nia. rewrite u64_id; [|lia].
  destruct (Z.eqb_spec (s * r) 0); [lia|].
  assert (0 ≤ s * r / 1000) by (apply Z.div_pos; lia).
  destruct (Z.eqb_spec (s * r / 1000) 0); lia.
Qed.

(** C31: the float64 fee is sound and almost tight.  For a calculator built from a
    sat/kB model and any size with size * rate below 2^50, the fee is at least
    size * rate / 1000 rounded up, so at least what the node demands, and it is
    exactly that rounded-up quotient unless size * rate is a multiple of 1000, when
    it may be one satoshi more. *)
Theorem fee_covers_node_minimum r s :
  0 ≤ r < 2 ^ 53 → 0 ≤ s < 2 ^ 53 → s * r < 2 ^ 50 →
  ∃ fc fee, newFeeCalculator (mkFeeModel SatPerKB r) = Ret fc ∧ Calculate fc s = Ret fee ∧
    MinRequiredFee s r ≤ fee ∧
    (s * r) / 1000 ≤ fee ≤ (s * r) / 1000 + 1 ∧
    ((s * r) mod 1000 ≠ 0 → fee = (s * r) / 1000 + 1).
Proof.
  intros Hr Hs Hsr. destruct (Calculate_exact r s) as (fee&Ef&Hf&Hb&H0); [done..|].
  exists (mkFeeCalc (float_of_Z r)), fee.
  pose proof (Z.div_mod (s * r) 1000 ltac:(lia)). pose proof (Z.mod_pos_bound (s * r) 1000 ltac:(lia)).
  split_and!; [by apply newFeeCalculator_Ret|done| |lia..].
  rewrite MinRequiredFee_exact; [|lia..]. destruct (Z.eqb_spec (s * r) 0); lia.
Qed.

(** The fuel-input fee of the configuration package is the funder's fee for one
    P2PKH input: the size it duplicates is the size the funder prices, and for
    every rate below 2^40 both computations return the same amount. *)
Theorem marginal_fee_agrees r :
  0 < r < 2 ^ 40 →
  fuelInputSizeBytes = P2PKHEstimatedInputSize ∧ commissionOutputSizeBytes = P2PKHOutputSize ∧
  ∃ fee, Calculate (mkFeeCalc (float_of_Z r)) P2PKHEstimatedInputSize = Ret fee ∧
    MarginalFuelInputFee (mkFeeModel SatPerKB r) = fee.
Proof.
  intros Hr. rewrite P2PKHEstimatedInputSize_148 P2PKHOutputSize_34. split_and!; [done..|].
  destruct (fee_expr_spec 148 r) as (c&Et&Ec&Hc&Hb&_); [lia..|]. exists c. split.
  - rewrite /Calculate to_Float64FromUnsigned_exact //= Ec to_Int64_exact; [|lia].
    by rewrite From_int64; [|unfold in_supply, MaxSatoshis; lia].
  - rewrite /MarginalFuelInputFee /feeForSize /fuelInputSizeBytes /=.
    destruct (Z.leb_spec r 0); [lia|]. apply uint64_of_float_trunc; [done|lia].
Qed.
End properties.

(** The float64 fee is not always the rounded-up quotient: at the default rate of
    100 sat/kB a 70-byte transaction is charged 8 satoshis although 7 satoshis are
    exactly its price and what the node demands. *)
Theorem float_fee_overcharges :
  let _ := external_std in
  Calculate (mkFeeCalc (float_of_Z (fm_Value DefaultFeeModel))) 70 = Ret 8 ∧
  70 * fm_Value DefaultFeeModel = 7 * 1000 ∧ MinRequiredFee 70 (fm_Value DefaultFeeModel) = 7.
Proof. by vm_compute. Qed.

Lemma fee_covers_node_minimum_witness :
  let _ := external_std in
  ∃ fc, newFeeCalculator DefaultFeeModel = Ret fc ∧ Calculate fc 226 = Ret 23 ∧
    MinRequiredFee 226 100 = 22.
Proof.
  simpl. destruct (fee_covers_node_minimum (ExternalLaws0 := external_std_laws) 100 226)
    as (fc&fee&E1&E2&_&_&Hfee); [lia..|].
  exists fc. rewrite Hfee in E2; [|done]. done.
Defined.

Lemma marginal_fee_agrees_witness :
  let _ := external_std in
  ∃ fee, Calculate (mkFeeCalc (float_of_Z 100)) 148 = Ret fee ∧
    MarginalFuelInputFee DefaultFeeModel = fee.
Proof.
  destruct (marginal_fee_agrees (ExternalLaws0 := external_std_laws) 100) as (_&_&Hfee); [lia|].
  exact Hfee.
Defined.

End Fee.
