(* ===== verification/Collector.v ===== *)
(** * Collector: fee and change accounting of one funding attempt

    [pkg/storage/internal/funder/collector.go] and [result.go]: the accumulator of
    allocated coins, the running fee and the change shape.  A method that mutates
    the collector returns the new one; a [Must] helper that fails is [Panic]. *)
From S2P Require Import Prelude UtxoTypes Satoshi Float64 External Fee.
Import Float64 Satoshi Fee.
Local Open Scope Z_scope.

Module Collector.

(** What Fund and its helpers can return.  [HiddenInventory] is
    [hiddenInventoryError]; [Diverged] marks a model run that used up its fuel. *)
Inductive args_invalid :=
| ReservationMissing | UserNotPositive | BasketMissing | NoTiers | MaxChangeZero | TierBad (t : Tier).
Inductive fund_error :=
| ErrNotEnoughFunds
| ErrUTXOContention
| HiddenInventory (tier : Tier)
| StoreErr (e : error)
| FeeErr (e : fee_error)
| SatsErr (e : sats_error)
| DenominationTooSmall (denomination marginal : Z)
| ArgsInvalid (why : args_invalid)
| Diverged.

Abbreviation res A := (outcome fund_error A).

Record utxoCollector := mkCollector {
  txSats : Z;
  txSize : Z;
  fee : Z;
  feeCalculator : feeCalc;
  satsCovered : Z;
  allocatedUTXOs : list UTXO;
  outputCount : Z;
  numberOfDesiredUTXOs : Z;
  minimumDesiredUTXOValue : Z;
  maxChangeOutputsPerTx : Z;
  changeOutputsCount : Z;
  minimumChange : Z;
  requireChange : bool;
  dustFloor : Z;
}.

Definition set_size_fee (size f : Z) (c : utxoCollector) : utxoCollector :=
  mkCollector (txSats c) size f (feeCalculator c) (satsCovered c) (allocatedUTXOs c)
    (outputCount c) (numberOfDesiredUTXOs c) (minimumDesiredUTXOValue c)
    (maxChangeOutputsPerTx c) (changeOutputsCount c) (minimumChange c) (requireChange c)
    (dustFloor c).
Definition set_covered (v : Z) (us : list UTXO) (c : utxoCollector) : utxoCollector :=
  mkCollector (txSats c) (txSize c) (fee c) (feeCalculator c) v us
    (outputCount c) (numberOfDesiredUTXOs c) (minimumDesiredUTXOValue c)
    (maxChangeOutputsPerTx c) (changeOutputsCount c) (minimumChange c) (requireChange c)
    (dustFloor c).
Definition set_count (n : Z) (c : utxoCollector) : utxoCollector :=
  mkCollector (txSats c) (txSize c) (fee c) (feeCalculator c) (satsCovered c) (allocatedUTXOs c)
    (outputCount c) (numberOfDesiredUTXOs c) (minimumDesiredUTXOValue c)
    (maxChangeOutputsPerTx c) n (minimumChange c) (requireChange c) (dustFloor c).
Definition set_shape (desired minChange dust : Z) (c : utxoCollector) : utxoCollector :=
  mkCollector (txSats c) (txSize c) (fee c) (feeCalculator c) (satsCovered c) (allocatedUTXOs c)
    (outputCount c) desired (minimumDesiredUTXOValue c)
    (maxChangeOutputsPerTx c) (changeOutputsCount c) minChange (requireChange c) dust.

Record Result := mkResult {
  AllocatedUTXOs : list UTXO;
  ChangeOutputsCount : Z;
  ChangeAmount : Z;
  Fee_ : Z;
  DustFloor : Z;
}.

(** A satoshi [Value] and a uint64 as operands of the generic helpers. *)
Abbreviation SV v := (mkInt KValue v).
Abbreviation SU v := (mkInt KUint64 v).

Definition sats {A} (r : sres A) : res A := mapErr SatsErr r.
Definition feeres {A} (r : outcome fee_error A) : res A := mapErr FeeErr r.
(** [if err != nil { panic(...) }]. *)
Definition or_panic {A} (r : res A) : res A := match r with Err _ => Panic | _ => r end.

Definition changeMandatory (c : utxoCollector) : bool := (outputCount c =? 0) || requireChange c.

Definition satsToCover (c : utxoCollector) : res Z := sats (MustAdd (SV (txSats c)) (SV (fee c))).
Definition change (c : utxoCollector) : res Z :=
  toCover ← satsToCover c; sats (MustSubtract (SV (satsCovered c)) (SV toCover)).

Definition isFunded (c : utxoCollector) : res bool :=
  if changeMandatory c then
    if 0 <? changeOutputsCount c then ch ← change c; mret (dustFloor c <=? ch) else mret false
  else toCover ← satsToCover c; mret (toCover <=? satsCovered c).

(** The loop [for n > 1 && changeVal/n < dust { n-- }], one unit of fuel per turn. *)
Fixpoint shrink_count (fuel : nat) (changeVal dust n : Z) : Z :=
  match fuel with
  | O => n
  | S fuel' =>
      if (1 <? n) && (changeVal / n <? dust) then shrink_count fuel' changeVal dust (n - 1) else n
  end.

Definition calculateMinimumChange (c : utxoCollector) : Z := minimumDesiredUTXOValue c / 4.

(** [to.ValueBetween] and friends come from outside the repository. *)
Section with_external.
Context `{External}.

Definition changeOutputSize : Z := P2PKHOutputSize.

Definition increaseSize (size : Z) (c : utxoCollector) : res utxoCollector :=
  let size' := u64 (txSize c + size) in
  f ← feeres (Calculate (feeCalculator c) size'); mret (set_size_fee size' f c).

Definition calculateChangeCount (changeVal : Z) (c : utxoCollector) : res utxoCollector :=
  let n := u64 (changeVal / minimumDesiredUTXOValue c + 1) in
  let n := if changeVal mod minimumDesiredUTXOValue c <? minimumChange c then u64 (n - 1) else n in
  let capCount := if maxChangeOutputsPerTx c <? numberOfDesiredUTXOs c
                  then maxChangeOutputsPerTx c else numberOfDesiredUTXOs c in
  let n := ValueBetween n 1 capCount in
  dustFloorU64 ← sats (MustUInt64 (dustFloor c));
  mret (set_count (shrink_count (Z.to_nat n) changeVal dustFloorU64 n) c).

Definition calculateChangeOutputs (c : utxoCollector) : res utxoCollector :=
  ch ← change c;
  if ch <=? 0 then mret c
  else
    match ConvertToUInt64 ch with
    | None => Panic
    | Some changeVal =>
        c' ← calculateChangeCount changeVal c;
        increaseSize (u64 (changeOutputsCount c' * changeOutputSize)) c'
    end.

(** The fee of one more input ([extra] bytes) plus the dust floor, less what is
    covered; [None] when nothing is missing. *)
Definition lookahead (extra : Z) (c : utxoCollector) : res (option Z) :=
  feeNext ← or_panic (feeres (Calculate (feeCalculator c) (u64 (txSize c + extra))));
  x ← sats (MustAdd (SV (txSats c)) (SV feeNext));
  toCover ← sats (MustAdd (SV x) (SV (dustFloor c)));
  if satsCovered c <? toCover
  then d ← sats (MustSubtract (SV toCover) (SV (satsCovered c))); mret (Some d)
  else mret None.

Definition remaining (c : utxoCollector) : res Z :=
  early ←
    (if changeMandatory c then
       ch ← change c;
       if (0 <? changeOutputsCount c) && (ch <? dustFloor c)
       then lookahead P2PKHEstimatedInputSize c
       else if changeOutputsCount c =? 0
       then lookahead (u64 (P2PKHEstimatedInputSize + changeOutputSize)) c
       else mret None
     else mret None);
  match early with
  | Some d => mret d
  | None => toCover ← satsToCover c; sats (MustSubtract (SV toCover) (SV (satsCovered c)))
  end.

Definition allocateUTXO (u : UTXO) (c : utxoCollector) : res utxoCollector :=
  let c0 := set_covered (satsCovered c) (allocatedUTXOs c ++ [u]) c in
  c1 ← increaseSize (TransactionInputSize (u_InputSize u)) c0;
  v ← sats (MustFrom (SU (u_Satoshis u)));
  covered ← sats (Add (SV (satsCovered c1)) (SV v));
  calculateChangeOutputs (set_covered covered (allocatedUTXOs c1) c1).

Definition dustFloor_of (fc : feeCalc) : Z :=
  let minSpendTxSize := TransactionSizeFromScriptLengths
    [P2PKHUnlockingScriptLength] [P2PKHLockingScriptLength] in
  int64_of_float (Max (float_of_Z 1)
    (fmul (fee_expr (float_of_Z minSpendTxSize) (fc_value fc)) (float_of_Z 2))).

Definition newCollector (txSats_ txSize_ outputCount_ desired minDesired : Z) (fc : feeCalc)
    (maxChange : Z) (reqChange : bool) : res utxoCollector :=
  let c0 := mkCollector txSats_ 0 0 fc 0 [] outputCount_ 0 (NoLessThan minDesired 1) maxChange
              0 0 reqChange 0 in
  c1 ← increaseSize txSize_ c0;
  match ConvertToUInt64 (NoLessThan desired 1) with
  | None => Panic
  | Some n =>
      let c2 := set_shape n (calculateMinimumChange c1) (dustFloor_of fc) c1 in
      calculateChangeOutputs c2
  end.
End with_external.

Definition prepareResult (c : utxoCollector) : res Result :=
  ch ← change c;
  mret (mkResult (allocatedUTXOs c) (if ch <? dustFloor c then 0 else changeOutputsCount c) ch
          (fee c) (dustFloor c)).

Definition result (c : utxoCollector) : res Result :=
  isFunded c ≫= λ funded : bool,
    if funded then prepareResult c else Err ErrNotEnoughFunds.

Definition TotalAllocated (r : Result) : res Z :=
  sats (Sum ((λ u : UTXO, SU (u_Satoshis u)) <$> AllocatedUTXOs r)).

End Collector.

(** * CollectorProps: what the collector's accounting guarantees

    The invariant of the accumulator (exact coverage, a fee computed from the
    running size, a size that never falls below the transaction's), kept by every
    allocation, and what it implies for the result. *)
Import Float64 Satoshi Fee Collector.
Local Open Scope Z_scope.

Module CollectorProps.

(** ** Sums *)
Definition total (us : list UTXO) : Z := foldr (λ u acc, u_Satoshis u + acc) 0 us.
Definition inputs_size `{External} (us : list UTXO) : Z :=
  foldr (λ u acc, TransactionInputSize (u_InputSize u) + acc) 0 us.

(** The parameters of a collector, fixed at its creation. *)
Definition params (c : utxoCollector) : Z * feeCalc * Z * Z * Z * Z * Z * bool * Z :=
  (txSats c, feeCalculator c, outputCount c, numberOfDesiredUTXOs c, minimumDesiredUTXOValue c,
   maxChangeOutputsPerTx c, minimumChange c, requireChange c, dustFloor c).

(** The most change outputs a collector may plan. *)
Definition cap (c : utxoCollector) : Z := Z.min (maxChangeOutputsPerTx c) (numberOfDesiredUTXOs c).

(** [base] is the size of the transaction before inputs were added.  [extra] is
    what the plan has charged for change outputs so far. *)
Record cinv `{External} (base : Z) (c : utxoCollector) : Prop := {
  ci_fee : Calculate (feeCalculator c) (txSize c) = Ret (fee c);
  ci_covered : satsCovered c = total (allocatedUTXOs c);
  ci_count : changeOutputsCount c = 0 ∨ 1 ≤ changeOutputsCount c ≤ cap c;
  ci_size : ∃ extra, txSize c = u64 (base + inputs_size (allocatedUTXOs c) + extra) ∧
    changeOutputsCount c * changeOutputSize ≤ extra ≤
      (Z.of_nat (length (allocatedUTXOs c)) + 1) * (cap c * changeOutputSize);
}.

Lemma total_app us vs : total (us ++ vs) = total us + total vs.
Proof. induction us as [|u us IH]; simpl; lia. Qed.
Lemma inputs_size_app `{External} us vs : inputs_size (us ++ vs) = inputs_size us + inputs_size vs.
Proof. induction us as [|u us IH]; simpl; lia. Qed.

(** ** Inversion of the checked arithmetic *)

Create HintDb collector.

Lemma From_SV_Ret a v : From (SV a) = Ret v → v = a ∧ in_supply a.
Proof.
  rewrite /From /Validate; cbn [i_kind i_val]. destruct (validateInt a) eqn:Hv; [done|]. intros [= <-].
  apply validateInt_None in Hv. by rewrite i64_supply.
Qed.

Lemma binop_SV_Ret f a b v :
  binop f (SV a) (SV b) = Ret v →
  in_supply a ∧ in_supply b ∧ in_supply v ∧ v = i64 (f a b).
Proof.
  rewrite /binop. destruct (From (SV a)) as [x|?|] eqn:Ha; [|done..].
  destruct (From (SV b)) as [y|?|] eqn:Hb; [|done..].
  apply From_SV_Ret in Ha as [-> ?], Hb as [-> ?].
  destruct (validateInt _) eqn:Hv; [done|]. intros [= <-]. apply validateInt_None in Hv. done.
Qed.

Lemma must_Ret {A} (r : sres A) v : must r = Ret v ↔ r = Ret v.
Proof. destruct r; naive_solver. Qed.

Lemma MustAdd_Ret a b v : sats (MustAdd (SV a) (SV b)) = Ret v → v = a + b ∧ in_supply v.
Proof.
  rewrite /sats mapErr_Ret /MustAdd must_Ret Add_binop. intros (?&?&?&->)%binop_SV_Ret.
  rewrite i64_id in H1 |- *; [done|unfold in_supply, MaxSatoshis in *; lia..].
Qed.
Lemma Add_Ret a b v : sats (Add (SV a) (SV b)) = Ret v → v = a + b ∧ in_supply v.
Proof.
  rewrite /sats mapErr_Ret Add_binop. intros (?&?&?&->)%binop_SV_Ret.
  rewrite i64_id in H1 |- *; [done|unfold in_supply, MaxSatoshis in *; lia..].
Qed.
Lemma MustSubtract_Ret a b v : sats (MustSubtract (SV a) (SV b)) = Ret v → v = a - b ∧ in_supply v.
Proof.
  rewrite /sats mapErr_Ret /MustSubtract must_Ret. intros (?&?&?&->)%binop_SV_Ret.
  rewrite i64_id in H1 |- *; [done|unfold in_supply, MaxSatoshis in *; lia..].
Qed.
Lemma MustFrom_SU_Ret x v : 0 ≤ x → sats (MustFrom (SU x)) = Ret v → v = x ∧ x ≤ MaxSatoshis.
Proof.
  rewrite /sats mapErr_Ret /MustFrom must_Ret /From /Validate; cbn [i_kind i_val]; intros Hx.
  destruct (validateUint x) eqn:Hv; [done|]. intros [= <-].
  apply validateUint_None in Hv; [|done]. rewrite i64_supply //. unfold in_supply in Hv. lia.
Qed.
Lemma MustUInt64_Ret v w : - 2 ^ 63 ≤ v < 2 ^ 63 → sats (MustUInt64 v) = Ret w → w = v ∧ 0 ≤ v.
Proof.
  rewrite /sats mapErr_Ret /MustUInt64 must_Ret /UInt64 => Hv.
  destruct (Z.ltb_spec v 0); [done|]. intros [= <-]. rewrite u64_id; lia.
Qed.

Lemma change_Ret c v :
  change c = Ret v → v = satsCovered c - (txSats c + fee c) ∧ in_supply v.
Proof.
  rewrite /change outcome_bind_Ret. intros (t&Ht&Hs).
  apply MustAdd_Ret in Ht as [-> _]. by apply MustSubtract_Ret in Hs.
Qed.

Lemma isFunded_Ret c b :
  isFunded c = Ret b →
  b = if changeMandatory c
      then (0 <? changeOutputsCount c) && (dustFloor c <=? satsCovered c - (txSats c + fee c))
      else (txSats c + fee c <=? satsCovered c).
Proof.
  rewrite /isFunded. destruct (changeMandatory c).
  - destruct (0 <? changeOutputsCount c); simpl; [|by intros [= <-]].
    rewrite outcome_bind_Ret. intros (v&Hv&[= <-]). by apply change_Ret in Hv as [-> _].
  - rewrite outcome_bind_Ret. intros (v&Hv&[= <-]). by apply MustAdd_Ret in Hv as [-> _].
Qed.

(** ** The change-count loop *)

Lemma shrink_count_spec fuel changeVal dust n :
  1 ≤ n → (Z.to_nat n ≤ fuel)%nat →
  let r := shrink_count fuel changeVal dust n in
  1 ≤ r ≤ n ∧ (r = 1 ∨ dust ≤ changeVal / r) ∧
  (∀ k, r < k ≤ n → changeVal / k < dust).
Proof.
  revert n. induction fuel as [|fuel IH]; intros n Hn Hf; [lia|]. simpl.
  destruct (Z.ltb_spec 1 n), (Z.ltb_spec (changeVal / n) dust); simpl; [|split_and!; lia..].
  destruct (IH (n - 1)) as (H1&H2&H3); [lia..|]. split_and!; [lia..|done|].
  intros k Hk. destruct (decide (k = n)) as [->|]; [done|apply H3; lia].
Qed.

(** ** The invariant *)

Section invariant.
Context `{E : External, !ExternalLaws E}.

Lemma changeOutputSize_34 : changeOutputSize = 34.
Proof. apply P2PKHOutputSize_34. Qed.

Lemma u64_add_u64 x y : u64 (u64 x + y) = u64 (x + y).
Proof. rewrite /wrapU. apply Zplus_mod_idemp_l. Qed.
Lemma u64_add_u64_r x y : u64 (x + u64 y) = u64 (x + y).
Proof. rewrite /wrapU. apply Zplus_mod_idemp_r. Qed.

Lemma increaseSize_Ret size c c' :
  increaseSize size c = Ret c' →
  ∃ f, Calculate (feeCalculator c) (u64 (txSize c + size)) = Ret f ∧
    c' = set_size_fee (u64 (txSize c + size)) f c.
Proof.
  rewrite /increaseSize outcome_bind_Ret. intros (f&Hf&[= <-]).
  rewrite /feeres mapErr_Ret in Hf. eauto.
Qed.

Lemma calculateChangeCount_Ret changeVal c c' :
  1 ≤ cap c → 0 ≤ dustFloor c < 2 ^ 63 → calculateChangeCount changeVal c = Ret c' →
  ∃ n, c' = set_count n c ∧ 1 ≤ n ≤ cap c ∧ (n = 1 ∨ dustFloor c ≤ changeVal / n).
Proof.
  intros Hcap Hd. rewrite /calculateChangeCount outcome_bind_Ret. intros (d&Hdust&[= <-]).
  apply MustUInt64_Ret in Hdust as [-> _]; [|lia].
  set (n := ValueBetween _ _ _). assert (1 ≤ n ≤ cap c) as Hn.
  { rewrite /n. destruct (Z.ltb_spec (maxChangeOutputsPerTx c) (numberOfDesiredUTXOs c));
      unfold cap in *; rewrite ValueBetween_clamp; lia. }
  destruct (shrink_count_spec (Z.to_nat n) changeVal (dustFloor c) n) as (H1&H2&_); [lia..|].
  eexists. split_and!; [done|lia|lia|done].
Qed.

Lemma calculateChangeOutputs_Ret B extra c c' :
  1 ≤ cap c → 0 ≤ dustFloor c < 2 ^ 63 →
  Calculate (feeCalculator c) (txSize c) = Ret (fee c) → txSize c = u64 (B + extra) →
  changeOutputsCount c * changeOutputSize ≤ extra → 0 ≤ extra →
  (changeOutputsCount c = 0 ∨ 1 ≤ changeOutputsCount c ≤ cap c) →
  calculateChangeOutputs c = Ret c' →
  ∃ extra' n f, c' = set_size_fee (u64 (B + extra')) f (set_count n c) ∧
    Calculate (feeCalculator c) (u64 (B + extra')) = Ret f ∧
    n * changeOutputSize ≤ extra' ≤ extra + cap c * changeOutputSize ∧ 0 ≤ extra' ∧
    (n = 0 ∨ 1 ≤ n ≤ cap c).
Proof.
  intros Hcap Hd Hf Hs Hx Hx0 Hn. rewrite changeOutputSize_34 in Hx |- *.
  rewrite /calculateChangeOutputs outcome_bind_Ret. intros (ch&Hch&Hrest).
  apply change_Ret in Hch as [-> Hsup]. destruct (Z.leb_spec (satsCovered c - (txSats c + fee c)) 0).
  { injection Hrest as <-. exists extra, (changeOutputsCount c), (fee c).
    split_and!; [rewrite -Hs; by destruct c|by rewrite -Hs|lia..|done]. }
  rewrite ConvertToUInt64_nonneg in Hrest; [|unfold in_supply, MaxSatoshis in Hsup; lia].
  rewrite outcome_bind_Ret in Hrest. destruct Hrest as (c1&Hc1&Hinc).
  apply calculateChangeCount_Ret in Hc1 as (n&->&Hn'&_); [|done..].
  apply increaseSize_Ret in Hinc as (f&Hf'&->). simpl in *.
  rewrite changeOutputSize_34 in Hf' |- *.
  assert (u64 (txSize c + u64 (n * 34)) = u64 (B + (extra + n * 34))) as Hsize.
  { rewrite u64_add_u64_r Hs u64_add_u64. f_equal. lia. }
  rewrite Hsize in Hf' |- *. exists (extra + n * 34), n, f.
  split_and!; [done|done|lia|nia|lia|by right].
Qed.

Lemma params_cap c c' : params c = params c' → cap c = cap c'.
Proof. rewrite /params /cap. congruence. Qed.

(** Allocating a coin keeps the invariant and the parameters, and appends the coin. *)
Lemma allocateUTXO_inv base u c c' :
  cinv base c → 1 ≤ cap c → 0 ≤ dustFloor c < 2 ^ 63 → 0 ≤ u_Satoshis u →
  allocateUTXO u c = Ret c' →
  cinv base c' ∧ params c' = params c ∧ allocatedUTXOs c' = allocatedUTXOs c ++ [u].
Proof.
  intros [Hfee Hcov Hcount (extra&Hsz&Hex&Hex')] Hcap Hd Hu.
  rewrite /allocateUTXO outcome_bind_Ret. intros (c1&H1&Hrest).
  apply increaseSize_Ret in H1 as (f1&Hf1&->). simpl in Hf1, Hrest.
  rewrite !outcome_bind_Ret in Hrest. destruct Hrest as (v&Hv&Hrest).
  apply MustFrom_SU_Ret in Hv as [-> _]; [|done].
  rewrite outcome_bind_Ret in Hrest. destruct Hrest as (cov&Hcov'&Hrest).
  apply Add_Ret in Hcov' as [-> _].
  set (B0 := base + inputs_size (allocatedUTXOs c) + TransactionInputSize (u_InputSize u)) in *.
  assert (u64 (txSize c + TransactionInputSize (u_InputSize u)) = u64 (B0 + extra)) as Hs1.
  { rewrite Hsz u64_add_u64. f_equal. rewrite /B0. lia. }
  assert (base + inputs_size (allocatedUTXOs c ++ [u]) = B0) as HB.
  { rewrite /B0 inputs_size_app /=. lia. }
  rewrite changeOutputSize_34 in Hex Hex'.
  eapply (calculateChangeOutputs_Ret B0 extra) in Hrest
    as (extra'&n&f&->&Hf&Hx&Hx0&Hn); [|exact Hcap|exact Hd|exact Hf1|exact Hs1
      |simpl; rewrite changeOutputSize_34; lia|lia|exact Hcount].
  rewrite changeOutputSize_34 in Hx. split; [|done]. split; simpl; [done| |done|].
  - rewrite total_app /=. lia.
  - exists extra'. rewrite HB changeOutputSize_34 length_app /=. split; [done|].
    unfold cap in *. simpl in *. lia.
Qed.

(** ** Creation *)

Lemma min_spend_size :
  TransactionSizeFromScriptLengths [P2PKHUnlockingScriptLength] [P2PKHLockingScriptLength] = 192.
Proof.
  rewrite /TransactionSizeFromScriptLengths /=.
  rewrite TransactionInputSize_small; [|done]. rewrite TransactionOutputSize_small; [|done].
  by rewrite varIntSize_small.
Qed.

(** The dust floor is twice the fee of a minimal spend, and at least one. *)
Lemma dustFloor_of_exact r :
  0 ≤ r < 2 ^ 40 →
  ∃ f, Calculate (mkFeeCalc (float_of_Z r)) 192 = Ret f ∧ 0 ≤ f < 2 ^ 50 ∧
    dustFloor_of (mkFeeCalc (float_of_Z r)) = Z.max 1 (2 * f).
Proof.
  intros Hr. destruct (fee_expr_spec 192 r) as (c&_&Ec&Hc&Hb&_); [lia..|].
  exists c. split_and!; [|lia..|].
  - rewrite /Calculate to_Float64FromUnsigned_exact //= Ec to_Int64_exact; [|lia].
    by rewrite From_int64; [|unfold in_supply, MaxSatoshis; lia].
  - rewrite /dustFloor_of min_spend_size; cbn [fc_value]; rewrite Ec.
    apply int64_of_float_trunc; [apply max_one_double; lia|lia].
Qed.

Lemma newCollector_inv T size outc desired minD r maxC req c :
  0 ≤ r < 2 ^ 40 → 1 ≤ maxC → desired < 2 ^ 63 →
  newCollector T size outc desired minD (mkFeeCalc (float_of_Z r)) maxC req = Ret c →
  cinv size c ∧ allocatedUTXOs c = [] ∧
  params c = (T, mkFeeCalc (float_of_Z r), outc, Z.max desired 1, Z.max minD 1, maxC,
              Z.max minD 1 / 4, req, dustFloor_of (mkFeeCalc (float_of_Z r))).
Proof.
  intros Hr Hmax Hdes. rewrite /newCollector outcome_bind_Ret. intros (c1&H1&Hrest).
  apply increaseSize_Ret in H1 as (f1&Hf1&->). simpl in Hf1, Hrest.
  rewrite !NoLessThan_max ConvertToUInt64_nonneg in Hrest; [|lia].
  destruct (dustFloor_of_exact r Hr) as (fd&_&Hfd&Hdust).
  eapply (calculateChangeOutputs_Ret size 0) in Hrest as (extra'&n&f&->&Hf&Hx&Hx0&Hn);
    [|unfold cap; simpl; lia|simpl; rewrite Hdust; lia|exact Hf1|simpl; f_equal; lia
      |simpl; lia|lia|by left].
  rewrite changeOutputSize_34 in Hx. split_and!; [|done|done].
  split; simpl; [done|done|done|]. exists extra'. rewrite Z.add_0_r changeOutputSize_34.
  split; [done|]. unfold cap in *. simpl in *. lia.
Qed.

(** ** The result *)

(** What a result promises, against the collector's parameters. *)
Lemma result_Ret base c r :
  cinv base c → 1 ≤ dustFloor c →
  result c = Ret r →
  AllocatedUTXOs r = allocatedUTXOs c ∧ Fee_ r = fee c ∧ DustFloor r = dustFloor c ∧
  total (AllocatedUTXOs r) = txSats c + Fee_ r + ChangeAmount r ∧ 0 ≤ ChangeAmount r ∧
  (ChangeOutputsCount r = 0 ∨
     1 ≤ ChangeOutputsCount r ≤ cap c ∧ dustFloor c ≤ ChangeAmount r) ∧
  ChangeOutputsCount r ≤ Z.max 0 (changeOutputsCount c) ∧
  (changeMandatory c = true → 1 ≤ ChangeOutputsCount r).
Proof.
  intros [Hfee Hcov Hcount _] Hdust. rewrite /result outcome_bind_Ret.
  intros ([|]&Hfun&Hres); [|done]. apply isFunded_Ret in Hfun.
  rewrite /prepareResult outcome_bind_Ret in Hres. destruct Hres as (ch&Hch&[= <-]).
  apply change_Ret in Hch as [-> _]. simpl. rewrite -Hcov.
  destruct (changeMandatory c) eqn:Hm.
  - symmetry in Hfun. apply andb_true_iff in Hfun as [?%Z.ltb_lt ?%Z.leb_le].
    destruct (Z.ltb_spec (satsCovered c - (txSats c + fee c)) (dustFloor c)); [lia|].
    split_and!; try done; try lia.
  - symmetry in Hfun. apply Z.leb_le in Hfun.
    destruct (Z.ltb_spec (satsCovered c - (txSats c + fee c)) (dustFloor c));
      split_and!; try done; lia.
Qed.

Lemma result_change_supply c r : result c = Ret r → in_supply (ChangeAmount r).
Proof.
  rewrite /result outcome_bind_Ret. intros ([|]&_&Hres); [|done].
  rewrite /prepareResult outcome_bind_Ret in Hres. destruct Hres as (ch&[_ Hch]%change_Ret&[= <-]). done.
Qed.

(** Each coin of a total that was accepted is within the supply. *)
Lemma TotalAllocated_bounds r t :
  TotalAllocated r = Ret t → Forall (λ u, u_Satoshis u ≤ MaxSatoshis) (AllocatedUTXOs r).
Proof.
  rewrite /TotalAllocated mapErr_Ret /Sum. generalize Zero. induction (AllocatedUTXOs r) as [|u us IH]; intros v; [by intros|].
  csimpl. rewrite /From /Validate /= /validateUint. destruct (Z.ltb_spec MaxSatoshis (u_Satoshis u)); [done|].
  case_match; [done|]. intros Hs. constructor; [done|]. by eapply IH.
Qed.

(** The fee pays for the transaction it funds: it is at least the node's minimum
    for the size of the base transaction, the allocated inputs and the planned
    change outputs. *)
Lemma fee_covers_size base r c n :
  cinv base c → feeCalculator c = mkFeeCalc (float_of_Z r) →
  0 ≤ r < 2 ^ 40 → 0 ≤ base → 0 ≤ n ≤ Z.max 0 (changeOutputsCount c) →
  0 ≤ inputs_size (allocatedUTXOs c) →
  (base + inputs_size (allocatedUTXOs c) +
    (Z.of_nat (length (allocatedUTXOs c)) + 1) * (cap c * 34)) * Z.max 1 r < 2 ^ 50 →
  MinRequiredFee (base + inputs_size (allocatedUTXOs c) + n * 34) r ≤ fee c.
Proof.
  intros [Hfee _ Hcount (extra&Hsz&Hex&Hex')] Hfc Hr Hb Hn Hin Hbound.
  rewrite changeOutputSize_34 in Hex Hex'. rewrite Hfc in Hfee.
  remember (base + inputs_size (allocatedUTXOs c)) as S.
  remember ((Z.of_nat (length (allocatedUTXOs c)) + 1) * (cap c * 34)) as X.
  assert (0 ≤ S + n * 34 ≤ S + extra) by lia.
  assert ((S + extra) * r ≤ (S + X) * Z.max 1 r) by (apply Z.mul_le_mono_nonneg; lia).
  assert ((S + extra) * 1 ≤ (S + X) * Z.max 1 r) by (apply Z.mul_le_mono_nonneg; lia).
  rewrite Hsz u64_id in Hfee; [|lia].
  destruct (Calculate_exact r (S + extra)) as (f&Hf&Hf0&Hfb&_); [lia..|].
  assert (f = fee c) as <- by congruence.
  assert ((S + n * 34) * r ≤ (S + extra) * r) by (apply Z.mul_le_mono_nonneg_r; lia).
  rewrite MinRequiredFee_exact; [|lia..].
  destruct (Z.eqb_spec ((S + n * 34) * r) 0); [lia|].
  assert (0 ≤ (S + n * 34) * r) by (apply Z.mul_nonneg_nonneg; lia).
  pose proof (Z.div_mod ((S + n * 34) * r) 1000). 
  pose proof (Z.mod_pos_bound ((S + n * 34) * r) 1000). lia.
Qed.

End invariant.

End CollectorProps.
