(* ===== verification/Funder.v ===== *)
(** * Funder: bounded tiered coin selection

    [pkg/storage/internal/funder/funder.go] and [throughput.go].  The funder is a
    client of the store interface: [FundingStore] lists the store operations it
    calls, over any state type.  Every run is a computation of the monad [M] on
    that state; the collector is passed explicitly.  The selection loop takes fuel,
    one unit per round; [Diverged] marks its end and is shown unreachable on
    bounded stores. *)
From S2P Require Import Prelude UtxoTypes Float64 External Satoshi Fee Collector.
Import Float64 Satoshi Fee Collector.
Local Open Scope Z_scope.

Module Funder.

(** The part of [utxostore.Store] the funder uses; [ClaimableExists] is the optional
    capability [claimableProber]. *)
Class FundingStore (St : Type) := {
  ClaimSmallestSufficient : Scope → string → Z → M St error (option UTXO);
  ClaimLargestInsufficient : Scope → string → Z → Z → M St error (list UTXO);
  ClaimExact : Scope → string → Z → Z → M St error (list UTXO);
  ReleaseReservation : Z → string → M St error Z;
  ReleaseOutpoints : string → list Outpoint → M St error ();
  ClaimableExists : option (Scope → Z → M St error bool);
}.

Definition insufficientBatchSize : Z := 16.
Definition maxFundingAttempts : nat := 3.
Definition maxExactClaim : Z := 2 ^ 20.

(** Spend policies of [pkg/defs/utxo_management.go]. *)
Definition SpendPolicyMinedOnly : string := "mined_only".
Definition SpendPolicyPreferMined : string := "prefer_mined".
Definition SpendPolicyAny : string := "any".

Definition SpendTiers (policy : string) : list Tier :=
  if decide (policy = SpendPolicyMinedOnly) then [TierMined]
  else if decide (policy = SpendPolicyAny) then [TierMined; TierUnproven; TierSending]
  else [TierMined; TierUnproven].

Record FundArgs := mkArgs {
  fa_UserID : Z;
  fa_Basket : string;
  fa_Reservation : string;
  fa_TargetSat : Z;
  fa_CurrentTxSize : Z;
  fa_OutputCount : Z;
  fa_Tiers : list Tier;
  fa_NumberOfDesiredUTXOs : Z;
  fa_MinimumDesiredUTXOValue : Z;
  fa_MaxChangeOutputsPerTx : Z;
  fa_RequireChange : bool;
  fa_ExistingBasketCount : Z;
  fa_Denomination : Z;
}.

Definition scope_of (args : FundArgs) (tier : Tier) : Scope :=
  mkScope (fa_UserID args) (fa_Basket args) tier.

Fixpoint validate_tiers (ts : list Tier) : option fund_error :=
  match ts with
  | [] => None
  | t :: ts' => if Tier_Valid t then validate_tiers ts' else Some (ArgsInvalid (TierBad t))
  end.

Definition validate (a : FundArgs) : option fund_error :=
  if decide (fa_Reservation a = "") then Some (ArgsInvalid ReservationMissing)
  else if fa_UserID a <=? 0 then Some (ArgsInvalid UserNotPositive)
  else if decide (fa_Basket a = "") then Some (ArgsInvalid BasketMissing)
  else if decide (length (fa_Tiers a) = 0%nat) then Some (ArgsInvalid NoTiers)
  else if fa_MaxChangeOutputsPerTx a =? 0 then Some (ArgsInvalid MaxChangeZero)
  else validate_tiers (fa_Tiers a).

(** [errors.Is(err, utxostore.ErrContention)]. *)
Definition is_contention (e : fund_error) : bool :=
  match e with StoreErr e' => is_ErrContention e' | HiddenInventory _ => true | _ => false end.

Definition ceilDiv (a b : Z) : Z := if b =? 0 then 0 else u64 (a + b - 1) / b.

(** [ShapeChange]: how many exact-value outputs an amount affords. *)
Definition ShapeChange (amount denomination maxOutputs : Z) : Satoshi.sres Z :=
  if (denomination =? 0) || (maxOutputs =? 0) || (amount <=? 0) then Ret 0
  else
    a ← MustUInt64 amount;
    let count := a / denomination in
    Ret (if maxOutputs <? count then maxOutputs else count).

Section funder.
Context `{External} {St : Type} `{FundingStore St}.
(** The funder's fee model and the calculator [New] built from it. *)
Context (feeModel : FeeModel) (fc : feeCalc).

Abbreviation F A := (M St fund_error A).

(** Calling the store: its errors are wrapped with [%w]. *)
Definition store_call {A} (m : M St error A) : F A := λ s,
  let '(o, s') := m s in (mapErr StoreErr o, s').

Definition releaseOutpoints (reservation : string) (utxos : list UTXO) : F () :=
  store_call (ReleaseOutpoints reservation (u_Outpoint <$> utxos)).

(** The loop of drainBatch: the collector and the rows not consumed. *)
Fixpoint drain_loop (batch : list UTXO) (c : utxoCollector) : res (utxoCollector * list UTXO) :=
  match batch with
  | [] => Ret (c, [])
  | u :: rest =>
      isFunded c ≫= λ funded : bool,
      if funded then Ret (c, batch)
      else
        r ← remaining c;
        if r <=? 0 then Ret (c, batch)
        else
          need ← sats (MustUInt64 r);
          if need <=? u_Satoshis u then Ret (c, batch)
          else c' ← allocateUTXO u c; drain_loop rest c'
  end.

Definition drainBatch (args : FundArgs) (c : utxoCollector) (batch : list UTXO) :
    F (utxoCollector * bool) :=
  '(c', rest) ← lift (drain_loop batch c);
  let consumed := (length batch - length rest)%nat in
  _ ← (match rest with
       | [] => mret ()
       | _ => releaseOutpoints (fa_Reservation args) rest
       end);
  mret (c', (0 <? consumed)%nat).

Definition fromTier (args : FundArgs) (c : utxoCollector) (tier : Tier) (remaining_ : Z) :
    F (utxoCollector * bool) :=
  let scope := scope_of args tier in
  need ← lift (sats (MustUInt64 remaining_));
  utxo ← store_call (ClaimSmallestSufficient scope (fa_Reservation args) need);
  match utxo with
  | Some u => c' ← lift (allocateUTXO u c); mret (c', true)
  | None =>
      need ← lift (sats (MustUInt64 remaining_));
      batch ← store_call (ClaimLargestInsufficient scope (fa_Reservation args) need
                            insufficientBatchSize);
      drainBatch args c batch
  end.

Fixpoint round (args : FundArgs) (c : utxoCollector) (tiers : list Tier) (remaining_ : Z) :
    F (utxoCollector * bool) :=
  match tiers with
  | [] => mret (c, false)
  | tier :: tiers' =>
      '(c', allocated) ← fromTier args c tier remaining_;
      if (allocated : bool) then mret (c', true) else round args c' tiers' remaining_
  end.

Fixpoint boundedTieredClaim (fuel : nat) (args : FundArgs) (c : utxoCollector) : F utxoCollector :=
  match fuel with
  | O => throw Diverged
  | S fuel' =>
      lift (isFunded c) ≫= λ funded : bool,
      if funded then mret c
      else
        r ← lift (remaining c);
        if r <=? 0 then mret c
        else
          '(c', allocated) ← round args c (fa_Tiers args) r;
          if (allocated : bool) then boundedTieredClaim fuel' args c'
          else throw ErrNotEnoughFunds
  end.

(** [contentionIfInventoryHidden]: the error the failing pass reports. *)
Fixpoint probe_tiers (prober : Scope → Z → M St error bool) (args : FundArgs)
    (tiers : list Tier) (err : fund_error) (s : St) : fund_error * St :=
  match tiers with
  | [] => (err, s)
  | tier :: tiers' =>
      match prober (scope_of args tier) 0 s with
      | (Ret true, s') => (HiddenInventory tier, s')
      | (Ret false, s') => probe_tiers prober args tiers' err s'
      | (_, s') => (err, s')
      end
  end.

Definition contentionIfInventoryHidden (args : FundArgs) (err : fund_error) (s : St) :
    fund_error * St :=
  match err with
  | ErrNotEnoughFunds =>
      match ClaimableExists with
      | None => (err, s)
      | Some prober => probe_tiers prober args (fa_Tiers args) err s
      end
  | _ => (err, s)
  end.

(** The tier walk of the fast path: claims [need] coins of the denomination. *)
Fixpoint claim_exact_tiers (args : FundArgs) (tiers : list Tier) (need : Z) : F (list UTXO) :=
  match tiers with
  | [] => mret []
  | tier :: tiers' =>
      if need <=? 0 then mret []
      else
        got ← store_call (ClaimExact (scope_of args tier) (fa_Reservation args)
                            (fa_Denomination args) need);
        rest ← claim_exact_tiers args tiers' (need - Z.of_nat (length got));
        mret (got ++ rest)
  end.

(** The allocation loop of the fast path: the collector and the surplus. *)
Fixpoint allocate_until_funded (claimed : list UTXO) (c : utxoCollector) :
    res (utxoCollector * list UTXO) :=
  match claimed with
  | [] => Ret (c, [])
  | u :: rest =>
      isFunded c ≫= λ funded : bool,
      if funded then Ret (c, claimed)
      else c' ← allocateUTXO u c; allocate_until_funded rest c'
  end.

Definition claimExactFastPath (args : FundArgs) (c : utxoCollector) : F utxoCollector :=
  let marginal := MarginalFuelInputFee feeModel in
  if fa_Denomination args <=? marginal
  then throw (DenominationTooSmall (fa_Denomination args) marginal)
  else
    baseFee ← lift (feeres (Calculate fc (fa_CurrentTxSize args)));
    need ← lift (sats (Add (SV (fa_TargetSat args)) (SV baseFee)));
    if need <=? 0 then mret c
    else
      let net := u64 (fa_Denomination args - marginal) in
      needU ← lift (sats (MustUInt64 need));
      let n := ceilDiv needU net in
      if n =? 0 then mret c
      else
        let n := if maxExactClaim <? n then maxExactClaim else n in
        claimed ← claim_exact_tiers args (fa_Tiers args) n;
        '(c', rest) ← lift (allocate_until_funded claimed c);
        _ ← (match rest with
             | [] => mret ()
             | _ => releaseOutpoints (fa_Reservation args) rest
             end);
        mret c'.

(** Running the contention diagnosis on a failing computation. *)
Definition diagnose {A} (args : FundArgs) (m : F A) : F A := λ s,
  match m s with
  | (Err e, s') => let '(e', s'') := contentionIfInventoryHidden args e s' in (Err e', s'')
  | r => r
  end.

Definition fundOnce (fuel : nat) (args : FundArgs) : F Result :=
  c0 ← lift (newCollector (fa_TargetSat args) (fa_CurrentTxSize args) (fa_OutputCount args)
               (i64 (fa_NumberOfDesiredUTXOs args - fa_ExistingBasketCount args))
               (fa_MinimumDesiredUTXOValue args) fc (fa_MaxChangeOutputsPerTx args)
               (fa_RequireChange args));
  let walk c :=
    c' ← diagnose args (boundedTieredClaim fuel args c);
    diagnose args (lift (result c')) in
  if 0 <? fa_Denomination args then
    c1 ← claimExactFastPath args c0;
    lift (isFunded c1) ≫= λ funded : bool,
    if funded then lift (result c1) else walk c1
  else walk c0.

(** [release]: best effort, its error is only logged. *)
Definition release (userID : Z) (reservation : string) (s : St) : St :=
  (ReleaseReservation userID reservation s).2.

(** The attempts of Fund; [left] counts those still allowed. *)
Fixpoint attempts (left fuel : nat) (args : FundArgs) : F Result := λ s,
  match fundOnce fuel args s with
  | (Ret r, s') => (Ret r, s')
  | (Panic, s') => (Panic, s')
  | (Err e, s') =>
      let s'' := release (fa_UserID args) (fa_Reservation args) s' in
      if is_contention e then
        match left with
        | S (S _ as left') => attempts left' fuel args s''
        | _ => (Err ErrUTXOContention, s'')
        end
      else (Err e, s'')
  end.

Definition Fund (fuel : nat) (args : FundArgs) : F Result :=
  match validate args with
  | Some e => throw e
  | None => attempts maxFundingAttempts fuel args
  end.
End funder.

(** [New]: the funder of a fee model; it panics on an unsupported one. *)
Definition New `{External} (feeModel : FeeModel) : outcome fee_error (FeeModel * feeCalc) :=
  fc ← newFeeCalculator feeModel; Ret (feeModel, fc).

End Funder.
