(* ===== verification/FunderProps.v ===== *)
(** * FunderProps: what Fund guarantees, against the store's interface

    [OwnedStore] states what the funder relies on from a store for one user and
    token: claims only add coins it did not hold, releases only remove them, and a
    whole-token release succeeds.  It says nothing about other users and tokens, so
    it also holds of a store that concurrent callers work on.  The theorems about
    Fund are proved against this interface. *)
From S2P Require Import Prelude UtxoTypes Float64 External Satoshi Fee Collector Funder.
Import Float64 Satoshi Fee Collector CollectorProps Funder.
Local Open Scope Z_scope.

Module FunderProps.

(** The outpoints of a list of coins with their values. *)
Definition val_map (us : list UTXO) : gmap Outpoint Z :=
  list_to_map ((λ u, (u_Outpoint u, u_Satoshis u)) <$> us).

Section interface.
Context {St : Type}.

(** [adds us m m']: the coins [us] are distinct, none was held, and all are now. *)
Definition adds (us : list UTXO) (m m' : gmap Outpoint Z) : Prop :=
  NoDup (u_Outpoint <$> us) ∧ Forall (λ u, m !! u_Outpoint u = None) us ∧
  m' = val_map us ∪ m ∧ Forall (λ u, 0 ≤ u_Satoshis u) us.

Definition without (ops : list Outpoint) (m : gmap Outpoint Z) : gmap Outpoint Z :=
  filter (λ kv, kv.1 ∉ ops) m.

Class OwnedStore (F : FundingStore St) (uid : Z) (tok : string) := {
  (** the store's own invariant *)
  sound : St → Prop;
  (** the live coins held under [(uid, tok)], with their values *)
  owned : St → gmap Outpoint Z;
  smallest_law : ∀ sc x s, sc_UserID sc = uid → sound s →
    match ClaimSmallestSufficient sc tok x s with
    | (Ret None, s') => sound s' ∧ owned s' = owned s
    | (Ret (Some u), s') => sound s' ∧ adds [u] (owned s) (owned s') ∧ x ≤ u_Satoshis u
    | (Err _, s') => sound s'
    | (Panic, _) => False
    end;
  largest_law : ∀ sc x n s, sc_UserID sc = uid → sound s →
    match ClaimLargestInsufficient sc tok x n s with
    | (Ret us, s') => sound s' ∧ adds us (owned s) (owned s')
    | (Err _, s') => sound s'
    | (Panic, _) => False
    end;
  exact_law : ∀ sc x n s, sc_UserID sc = uid → sound s →
    match ClaimExact sc tok x n s with
    | (Ret us, s') => sound s' ∧ adds us (owned s) (owned s')
    | (Err _, s') => sound s'
    | (Panic, _) => False
    end;
  release_outpoints_law : ∀ ops s, sound s →
    match ReleaseOutpoints tok ops s with
    | (Ret _, s') => sound s' ∧ owned s' = without ops (owned s)
    | (Err _, s') => sound s'
    | (Panic, _) => False
    end;
  release_law : ∀ s, sound s →
    ∃ n s', ReleaseReservation uid tok s = (Ret n, s') ∧ sound s' ∧ owned s' = ∅;
  probe_law : ∀ prober sc x s, ClaimableExists = Some prober → sound s →
    sound (prober sc x s).2 ∧ owned (prober sc x s).2 = owned s;
}.
End interface.

(** ** Value maps *)

Lemma val_map_app us vs : val_map (us ++ vs) = val_map us ∪ val_map vs.
Proof. by rewrite /val_map fmap_app list_to_map_app. Qed.

Lemma val_map_lookup_None us op : val_map us !! op = None ↔ op ∉ u_Outpoint <$> us.
Proof.
  rewrite /val_map -not_elem_of_list_to_map -list_fmap_compose. done.
Qed.

Lemma val_map_lookup us u :
  NoDup (u_Outpoint <$> us) → u ∈ us → val_map us !! u_Outpoint u = Some (u_Satoshis u).
Proof.
  intros Hnd Hu. apply elem_of_list_to_map_1.
  - rewrite -list_fmap_compose. done.
  - apply list_elem_of_fmap. by exists u.
Qed.

(** Holding exactly the coins [us] and, apart from them, the coins [base]. *)
Definition holding (base : gmap Outpoint Z) (us : list UTXO) (m : gmap Outpoint Z) : Prop :=
  NoDup (u_Outpoint <$> us) ∧ Forall (λ u, base !! u_Outpoint u = None) us ∧ m = val_map us ∪ base.

Lemma val_map_Some us op : is_Some (val_map us !! op) ↔ op ∈ u_Outpoint <$> us.
Proof.
  destruct (decide (op ∈ u_Outpoint <$> us)) as [Hin|Hn].
  - split; [done|]. intros _. destruct (val_map us !! op) eqn:Hv; [done|].
    by apply val_map_lookup_None in Hv.
  - split; [|done]. apply val_map_lookup_None in Hn as ->. by intros [].
Qed.

Lemma holding_adds base us vs m m' : holding base us m → adds vs m m' → holding base (us ++ vs) m'.
Proof.
  intros (Hnd&Hb&->) (Hnd'&Hnew&->&_). rewrite ->Forall_forall in Hnew.
  assert (∀ v, v ∈ vs → val_map us !! u_Outpoint v = None ∧ base !! u_Outpoint v = None) as Hn.
  { intros v Hv. by apply lookup_union_None, Hnew. }
  split_and!.
  - rewrite fmap_app NoDup_app. split_and!; [done| |done].
    intros op Hop (v&->&Hv)%list_elem_of_fmap. destruct (Hn v Hv) as [Hu _]. by apply val_map_lookup_None in Hu.
  - apply Forall_app. split; [done|]. apply Forall_forall. intros v Hv. by apply Hn.
  - rewrite val_map_app assoc_L. f_equal. apply map_union_comm, map_disjoint_spec.
    intros op x y Hx Hy. assert (op ∈ u_Outpoint <$> vs) as (v&->&Hv)%list_elem_of_fmap by (apply val_map_Some; eauto).
    destruct (Hn v Hv) as [Hu _]. congruence.
Qed.

Lemma holding_release base us vs m :
  holding base (us ++ vs) m → holding base us (without (u_Outpoint <$> vs) m).
Proof.
  intros (Hnd&Hb&->). rewrite fmap_app NoDup_app in Hnd. destruct Hnd as (Hnd&Hdis&_).
  apply Forall_app in Hb as [Hb Hbv]. rewrite ->Forall_forall in Hbv.
  split_and!; [done|done|]. rewrite /without val_map_app. apply map_eq. intros op.
  rewrite map_lookup_filter !lookup_union.
  destruct (decide (op ∈ u_Outpoint <$> vs)) as [Hin|Hin].
  - assert (val_map us !! op = None) as -> by (apply val_map_lookup_None; intros Hu; by apply (Hdis op)).
    pose proof Hin as (v&->&Hv)%list_elem_of_fmap. rewrite (Hbv v Hv) !left_id_L right_id_L.
    destruct (val_map vs !! _); simpl; [|done]. rewrite option_guard_False; [done|]. by intros [].
  - pose proof Hin as Hn. apply val_map_lookup_None in Hn as ->. rewrite right_id_L.
    destruct (_ ∪ _) as [x|]; simpl; [|done]. by rewrite option_guard_True.
Qed.

Lemma holding_nil base m : holding base [] m ↔ m = base.
Proof.
  rewrite /holding /val_map /= left_id_L. split; [by intros (_&_&->)|]. intros ->. split_and!; [constructor|done|done].
Qed.

(** ** The pure part never reports a divergence *)

Definition noDiv {A} (o : res A) : Prop := o ≠ Err Diverged.

Lemma noDiv_bind {A B} (o : res A) (k : A → res B) :
  noDiv o → (∀ a, noDiv (k a)) → noDiv (o ≫= k).
Proof. destruct o; simpl; intros Ho Hk; [by apply Hk| |done]. intros [= ->]. by apply Ho. Qed.
Lemma noDiv_ret {A} (a : A) : noDiv (mret a).
Proof. done. Qed.
Lemma noDiv_Ret {A} (a : A) : noDiv (Ret a).
Proof. done. Qed.
Lemma noDiv_panic {A} : noDiv (A := A) Panic.
Proof. done. Qed.
Lemma noDiv_sats {A} (o : sres A) : noDiv (sats o).
Proof. by destruct o. Qed.
Lemma noDiv_feeres {A} (o : outcome fee_error A) : noDiv (feeres o).
Proof. by destruct o. Qed.
Lemma noDiv_or_panic {A} (o : res A) : noDiv (or_panic o).
Proof. by destruct o. Qed.

Create HintDb nodiv.
#[export] Hint Resolve noDiv_ret noDiv_Ret noDiv_panic noDiv_sats noDiv_feeres noDiv_or_panic : nodiv.
Ltac solve_noDiv :=
  repeat first
    [ apply noDiv_bind; [|intros] | solve [auto with nodiv]
    | match goal with
      | |- context [if ?b then _ else _] => destruct b
      | |- context [match ?x with _ => _ end] => destruct x
      end ].

Section pure.
Context `{External}.
Lemma noDiv_satsToCover c : noDiv (satsToCover c).
Proof. apply noDiv_sats. Qed.
#[local] Hint Resolve noDiv_satsToCover : nodiv.
Lemma noDiv_change c : noDiv (change c).
Proof. rewrite /change. solve_noDiv. Qed.
#[local] Hint Resolve noDiv_change : nodiv.
Lemma noDiv_isFunded c : noDiv (isFunded c).
Proof. rewrite /isFunded. solve_noDiv. Qed.
Lemma noDiv_increaseSize n c : noDiv (increaseSize n c).
Proof. rewrite /increaseSize. solve_noDiv. Qed.
Lemma noDiv_changeOutputs c : noDiv (calculateChangeOutputs c).
Proof.
  rewrite /calculateChangeOutputs /calculateChangeCount. solve_noDiv.
Qed.
Lemma noDiv_allocate u c : noDiv (allocateUTXO u c).
Proof.
  rewrite /allocateUTXO. apply noDiv_bind; [apply noDiv_increaseSize|intros].
  solve_noDiv.
Qed.
Lemma noDiv_remaining c : noDiv (remaining c).
Proof. rewrite /remaining /lookahead. solve_noDiv. Qed.
Lemma noDiv_result c : noDiv (result c).
Proof.
  rewrite /result /prepareResult. apply noDiv_bind; [apply noDiv_isFunded|].
  intros [|]; [|done]. solve_noDiv.
Qed.
Lemma noDiv_newCollector a b c d e f g h : noDiv (newCollector a b c d e f g h).
Proof.
  rewrite /newCollector. apply noDiv_bind; [apply noDiv_increaseSize|intros].
  destruct (ConvertToUInt64 _); [apply noDiv_changeOutputs|done].
Qed.
End pure.
#[export] Hint Resolve noDiv_change noDiv_isFunded noDiv_increaseSize noDiv_changeOutputs noDiv_allocate
  noDiv_remaining noDiv_result noDiv_newCollector : nodiv.

Section loops.
Context `{External}.
Lemma noDiv_drain_loop batch c : noDiv (drain_loop batch c).
Proof.
  revert c. induction batch as [|u batch IH]; intros c; simpl; [done|].
  apply noDiv_bind; [auto with nodiv|]. intros [|]; [done|].
  apply noDiv_bind; [auto with nodiv|]. intros x. destruct (x <=? 0); [done|].
  apply noDiv_bind; [auto with nodiv|]. intros y. destruct (y <=? _); [done|].
  apply noDiv_bind; auto with nodiv.
Qed.
Lemma noDiv_allocate_until_funded us c : noDiv (allocate_until_funded us c).
Proof.
  revert c. induction us as [|u us IH]; intros c; simpl; [done|].
  apply noDiv_bind; [auto with nodiv|]. intros [|]; [done|]. apply noDiv_bind; auto with nodiv.
Qed.
End loops.
#[export] Hint Resolve noDiv_drain_loop noDiv_allocate_until_funded : nodiv.

(** ** Runs *)

Section runs.
Context `{E : External, !ExternalLaws E} {St : Type} `{F : FundingStore St}.
Context (args : FundArgs) `{!OwnedStore F (fa_UserID args) (fa_Reservation args)}.
Context (feeModel : FeeModel) (r : Z) (Hr : 0 ≤ r < 2 ^ 40) (Hmax : 1 ≤ fa_MaxChangeOutputsPerTx args).
Abbreviation fc := (mkFeeCalc (float_of_Z r)).

(** The parameters every collector of this run has. *)
Definition run_params : Z * feeCalc * Z * Z * Z * Z * Z * bool * Z :=
  (fa_TargetSat args, fc, fa_OutputCount args,
   Z.max (i64 (fa_NumberOfDesiredUTXOs args - fa_ExistingBasketCount args)) 1,
   Z.max (fa_MinimumDesiredUTXOValue args) 1, fa_MaxChangeOutputsPerTx args,
   Z.max (fa_MinimumDesiredUTXOValue args) 1 / 4, fa_RequireChange args, dustFloor_of fc).

Definition collecting (c : utxoCollector) : Prop :=
  cinv (fa_CurrentTxSize args) c ∧ params c = run_params.

(** The state of a run: the store is sound and holds exactly the allocated coins and
    those [base] that were under the token before. *)
Context (base : gmap Outpoint Z).
Definition running (c : utxoCollector) (s : St) : Prop :=
  collecting c ∧ sound s ∧ holding base (allocatedUTXOs c) (owned s).

(** [P] is what running out of fuel would imply. *)
Context (P : Prop).
Abbreviation safe m Q := (wp m Q (λ e s', sound s' ∧ (e = Diverged → P)) (λ _, True)).

Lemma collecting_params c :
  collecting c → 1 ≤ cap c ∧ 1 ≤ dustFloor c < 2 ^ 63 ∧ feeCalculator c = fc.
Proof.
  intros [_ Hp]. unfold params, run_params in Hp. injection Hp as _ Hfc _ Hd _ Hm _ _ Hdust.
  unfold cap. rewrite Hd Hm Hdust. destruct (dustFloor_of_exact r Hr) as (fd&_&Hfd&->).
  split_and!; (lia || done).
Qed.

Lemma allocate_collecting u c c' :
  collecting c → 0 ≤ u_Satoshis u → allocateUTXO u c = Ret c' →
  collecting c' ∧ allocatedUTXOs c' = allocatedUTXOs c ++ [u].
Proof.
  intros Hc Hu Ha. destruct (collecting_params c Hc) as (?&?&_). destruct Hc as [Hi Hp].
  destruct (allocateUTXO_inv (fa_CurrentTxSize args) u c c') as (?&?&?); [done|done|lia|done|done|].
  split; [|done]. split; congruence.
Qed.

(** Both allocation loops consume a prefix of what was claimed. *)
Lemma drain_loop_Ret batch c c' rest :
  collecting c → Forall (λ u, 0 ≤ u_Satoshis u) batch → drain_loop batch c = Ret (c', rest) →
  collecting c' ∧ ∃ used, batch = used ++ rest ∧ allocatedUTXOs c' = allocatedUTXOs c ++ used.
Proof.
  revert c. induction batch as [|u batch IH]; intros c Hc Hpos; simpl.
  { intros [= <- <-]. split; [done|]. exists []. by rewrite !app_nil_r. }
  apply Forall_cons in Hpos as [Hu Hpos]. rewrite outcome_bind_Ret. intros ([|]&_&Hrest).
  { injection Hrest as <- <-. split; [done|]. exists []. by rewrite !app_nil_r. }
  rewrite outcome_bind_Ret in Hrest. destruct Hrest as (rem&_&Hrest).
  destruct (rem <=? 0); [injection Hrest as <- <-; split; [done|]; exists []; by rewrite !app_nil_r|].
  rewrite outcome_bind_Ret in Hrest. destruct Hrest as (need&_&Hrest).
  destruct (need <=? _); [injection Hrest as <- <-; split; [done|]; exists []; by rewrite !app_nil_r|].
  rewrite outcome_bind_Ret in Hrest. destruct Hrest as (c1&Ha&Hrest).
  apply allocate_collecting in Ha as [Hc1 Hal]; [|done..].
  apply IH in Hrest as (Hc'&used&->&Hal'); [|done..]. split; [done|].
  exists (u :: used). split; [done|]. by rewrite Hal' Hal -app_assoc.
Qed.

Lemma allocate_until_funded_Ret claimed c c' rest :
  collecting c → Forall (λ u, 0 ≤ u_Satoshis u) claimed →
  allocate_until_funded claimed c = Ret (c', rest) →
  collecting c' ∧ ∃ used, claimed = used ++ rest ∧ allocatedUTXOs c' = allocatedUTXOs c ++ used.
Proof.
  revert c. induction claimed as [|u claimed IH]; intros c Hc Hpos; simpl.
  { intros [= <- <-]. split; [done|]. exists []. by rewrite !app_nil_r. }
  apply Forall_cons in Hpos as [Hu Hpos]. rewrite outcome_bind_Ret. intros ([|]&_&Hrest).
  { injection Hrest as <- <-. split; [done|]. exists []. by rewrite !app_nil_r. }
  rewrite outcome_bind_Ret in Hrest. destruct Hrest as (c1&Ha&Hrest).
  apply allocate_collecting in Ha as [Hc1 Hal]; [|done..].
  apply IH in Hrest as (Hc'&used&->&Hal'); [|done..]. split; [done|].
  exists (u :: used). split; [done|]. by rewrite Hal' Hal -app_assoc.
Qed.

(** Running a pure step that cannot report a divergence. *)
Lemma safe_lift {A} (o : res A) (Q : A → St → Prop) s :
  noDiv o → sound s → (∀ a, o = Ret a → Q a s) → safe (lift o) Q s.
Proof.
  intros Hn Hs HQ. apply wp_lift. destruct o as [a|e|]; [by apply HQ| |done].
  split; [done|]. intros ->. by destruct Hn.
Qed.

Lemma wp_store_call {A} (m : M St error A) (Q : A → St → Prop) X W s :
  match m s with
  | (Ret a, s') => Q a s' | (Err e, s') => X (StoreErr e) s' | (Panic, s') => W s'
  end → wp (store_call m) Q X W s.
Proof. rewrite /wp /store_call. by destruct (m s) as [[]?]. Qed.

(** Releasing the unconsumed tail leaves exactly the allocated coins. *)
Lemma release_rest_safe us rest (Q : () → St → Prop) s :
  sound s → holding base (us ++ rest) (owned s) →
  (∀ s', sound s' → holding base us (owned s') → Q () s') →
  safe (match rest with [] => mret () | _ => releaseOutpoints (fa_Reservation args) rest end) Q s.
Proof.
  intros Hs Hh HQ. destruct rest as [|u rest].
  { apply wp_ret, HQ; [done|]. by rewrite app_nil_r in Hh. }
  apply wp_store_call.
  pose proof (release_outpoints_law (u_Outpoint <$> u :: rest) s Hs) as Hlaw.
  destruct (ReleaseOutpoints _ _ s) as [[[]|e|] s']; [|by split|done].
  destruct Hlaw as [Hs' Ho]. apply HQ; [done|]. rewrite Ho. by apply holding_release.
Qed.

Definition grew (c : utxoCollector) (x : utxoCollector * bool) (s : St) : Prop :=
  running x.1 s ∧ (length (allocatedUTXOs c) ≤ length (allocatedUTXOs x.1))%nat ∧
  (x.2 = true → (length (allocatedUTXOs c) < length (allocatedUTXOs x.1))%nat).

Lemma drainBatch_safe c batch s :
  collecting c → sound s → holding base (allocatedUTXOs c ++ batch) (owned s) →
  Forall (λ u, 0 ≤ u_Satoshis u) batch →
  safe (drainBatch args c batch) (grew c) s.
Proof.
  intros Hc Hs Hh Hpos. rewrite /drainBatch. apply wp_bind, safe_lift; [auto with nodiv|done|].
  intros [c' rest] Hd.
  apply drain_loop_Ret in Hd as (Hc'&used&->&Hal); [|done..]. apply wp_bind.
  apply release_rest_safe with (us := allocatedUTXOs c'); [done| |].
  { by rewrite Hal -app_assoc. }
  intros s' Hs' Hh'. apply wp_ret. split; [done|]. simpl.
  rewrite Hal !length_app Nat.ltb_lt. lia.
Qed.

Lemma fromTier_safe c tier rem s :
  running c s → safe (fromTier args c tier rem) (grew c) s.
Proof.
  intros (Hc&Hs&Hh). rewrite /fromTier. apply wp_bind, safe_lift; [auto with nodiv|done|].
  intros need Hneed. apply wp_bind, wp_store_call.
  pose proof (smallest_law (scope_of args tier) need s eq_refl Hs) as Hlaw.
  destruct (ClaimSmallestSufficient _ _ _ s) as [[[u|]|e|] s']; [| |by split|done].
  - destruct Hlaw as (Hs'&Hadd&_). pose proof Hadd as (_&_&_&Hu).
    apply Forall_cons in Hu as [Hu _]. apply wp_bind, safe_lift; [auto with nodiv|done|].
    intros c' Ha.
    apply allocate_collecting in Ha as [Hc' Hal]; [|done..]. apply wp_ret.
    assert (holding base (allocatedUTXOs c') (owned s')) by (rewrite Hal; by eapply holding_adds).
    split; [done|]. simpl. rewrite Hal length_app /=. lia.
  - destruct Hlaw as [Hs' Ho]. rewrite -Ho in Hh. apply wp_bind. rewrite Hneed.
    apply wp_lift, wp_bind, wp_store_call.
    pose proof (largest_law (scope_of args tier) need insufficientBatchSize s' eq_refl Hs') as Hlaw.
    destruct (ClaimLargestInsufficient _ _ _ _ s') as [[us|e|] s'']; [|by split|done].
    destruct Hlaw as (Hs''&Hadd). pose proof Hadd as (_&_&_&Hpos).
    apply drainBatch_safe; [done|done| |done]. by eapply holding_adds.
Qed.

Lemma round_safe tiers c rem s : running c s → safe (round args c tiers rem) (grew c) s.
Proof.
  revert c s. induction tiers as [|tier tiers IH]; intros c s Hrun; simpl.
  { apply wp_ret. by split_and!. }
  apply wp_bind. eapply wp_mono; [by apply fromTier_safe| |done|done].
  intros [c' [|]] s' (Hrun'&Hle&Hgrew); simpl in *; [by apply wp_ret|].
  eapply wp_mono; [by apply IH| |done|done].
  intros [c'' b] s'' (Hrun''&Hle'&Hgrew'). split; [done|]. simpl in *.
  split; [lia|]. intros Hb. specialize (Hgrew' Hb). lia.
Qed.

Lemma boundedTieredClaim_safe fuel c s :
  running c s →
  (∀ c' s', running c' s' → (length (allocatedUTXOs c) + fuel ≤ length (allocatedUTXOs c'))%nat → P) →
  safe (boundedTieredClaim fuel args c) running s.
Proof.
  revert c s. induction fuel as [|fuel IH]; intros c s Hrun HP; simpl.
  { apply wp_throw. split; [apply Hrun|]. intros _. apply (HP c s); [done|lia]. }
  pose proof Hrun as (_&Hs&_).
  apply wp_bind, safe_lift; [auto with nodiv|done|]. intros [|] _; [by apply wp_ret|].
  apply wp_bind, safe_lift; [auto with nodiv|done|]. intros rem _.
  destruct (rem <=? 0); [by apply wp_ret|]. apply wp_bind.
  eapply wp_mono; [by apply round_safe| |done|done].
  intros [c' [|]] s' (Hrun'&_&Hgrew); simpl in *.
  - specialize (Hgrew eq_refl). apply IH; [done|]. intros c'' s'' ??. apply (HP c'' s''); [done|lia].
  - apply wp_throw. split; [apply Hrun'|done].
Qed.

Lemma claim_exact_tiers_safe tiers need us s :
  sound s → holding base us (owned s) →
  safe (claim_exact_tiers args tiers need)
    (λ got s', sound s' ∧ holding base (us ++ got) (owned s') ∧ Forall (λ u, 0 ≤ u_Satoshis u) got) s.
Proof.
  revert need us s. induction tiers as [|tier tiers IH]; intros need us s Hs Hh; simpl.
  { apply wp_ret. by rewrite app_nil_r. }
  destruct (need <=? 0); [apply wp_ret; by rewrite app_nil_r|].
  apply wp_bind, wp_store_call.
  pose proof (exact_law (scope_of args tier) (fa_Denomination args) need s eq_refl Hs) as Hlaw.
  destruct (ClaimExact _ _ _ _ s) as [[got|e|] s']; [|by split|done].
  destruct Hlaw as (Hs'&Hadd). pose proof Hadd as (_&_&_&Hpos).
  apply wp_bind. eapply wp_mono; [apply (IH _ (us ++ got)); [done|by eapply holding_adds]| |done|done].
  intros rest s'' (?&?&?). apply wp_ret. rewrite app_assoc Forall_app. done.
Qed.

Lemma claimExactFastPath_safe c s :
  running c s → safe (claimExactFastPath feeModel fc args c)
    (λ c' s', running c' s' ∧ (length (allocatedUTXOs c) ≤ length (allocatedUTXOs c'))%nat) s.
Proof.
  intros Hrun. pose proof Hrun as (Hc&Hs&Hh). rewrite /claimExactFastPath.
  destruct (_ <=? _); [apply wp_throw; by split|].
  apply wp_bind, safe_lift; [auto with nodiv|done|]. intros baseFee _.
  apply wp_bind, safe_lift; [auto with nodiv|done|]. intros need _.
  destruct (need <=? 0); [by apply wp_ret|].
  apply wp_bind, safe_lift; [auto with nodiv|done|]. intros needU _.
  destruct (ceilDiv _ _ =? 0); [by apply wp_ret|]. apply wp_bind.
  eapply wp_mono; [by apply claim_exact_tiers_safe| |done|done].
  intros claimed s' (Hs'&Hh'&Hpos).
  apply wp_bind, safe_lift; [auto with nodiv|done|]. intros [c' rest] Ha.
  apply allocate_until_funded_Ret in Ha as (Hc'&used&->&Hal); [|done..]. apply wp_bind.
  apply release_rest_safe with (us := allocatedUTXOs c'); [done|by rewrite Hal -app_assoc|].
  intros s'' Hs'' Hh''. apply wp_ret. split; [done|]. rewrite Hal length_app. lia.
Qed.

Lemma probe_tiers_keeps prober tiers err s :
  ClaimableExists = Some prober → sound s → err ≠ Diverged →
  sound (probe_tiers prober args tiers err s).2 ∧
  (probe_tiers prober args tiers err s).1 ≠ Diverged.
Proof.
  intros Hp Hs He. revert s Hs. induction tiers as [|tier tiers IH]; intros s Hs; simpl; [done|].
  destruct (probe_law prober (scope_of args tier) 0 s Hp Hs) as [Hs' _].
  destruct (prober _ 0 s) as [[[|]|e|] s']; simpl in *; try done. by apply IH.
Qed.

Lemma diagnose_safe {A} (m : M St fund_error A) (Q : A → St → Prop) s :
  safe m Q s → safe (diagnose args m) Q s.
Proof.
  rewrite /wp /diagnose. destruct (m s) as [[a|e|] s']; [done| |done]. intros [Hs Hd].
  rewrite /contentionIfInventoryHidden. destruct e; try done.
  destruct ClaimableExists as [prober|] eqn:Hp; [|done].
  destruct (probe_tiers_keeps prober (fa_Tiers args) ErrNotEnoughFunds s') as [Hs' Hd']; [done..|].
  destruct (probe_tiers _ _ _ _ _) as [e' s'']. simpl in *. done.
Qed.

(** What a successful attempt hands back. *)
Definition funded (res : Result) (s : St) : Prop :=
  ∃ c, running c s ∧ result c = Ret res.

Lemma fundOnce_safe fuel s :
  sound s → owned s = base →
  (∀ c' s', running c' s' → (fuel ≤ length (allocatedUTXOs c'))%nat → P) →
  safe (fundOnce feeModel fc fuel args) funded s.
Proof.
  intros Hs Ho HP. rewrite /fundOnce. apply wp_bind, safe_lift; [auto with nodiv|done|].
  intros c0 Hc0. apply newCollector_inv in Hc0 as (Hi&Hal&Hp); [|done|done|].
  2:{ rewrite /wrapS. pose proof (Z.mod_pos_bound (fa_NumberOfDesiredUTXOs args -
        fa_ExistingBasketCount args + 2 ^ (64 - 1)) (2 ^ 64)). lia. }
  assert (running c0 s) as Hrun by (split_and!; [done|done|]; rewrite Hal Ho; by apply holding_nil).
  assert (∀ c s, running c s → safe
    (c' ← diagnose args (boundedTieredClaim fuel args c); diagnose args (lift (result c'))) funded s)
    as Hwalk.
  { intros c s1 Hrun1. apply wp_bind. eapply wp_mono.
    - apply diagnose_safe, boundedTieredClaim_safe; [done|].
      intros c' s' ??. apply (HP c' s'); [done|lia].
    - intros c' s' Hrun'. pose proof Hrun' as (_&Hs'&_).
      apply diagnose_safe, safe_lift; [auto with nodiv|done|]. intros res Hres. by exists c'.
    - done.
    - done. }
  destruct (0 <? fa_Denomination args); [|by apply Hwalk].
  apply wp_bind. eapply wp_mono; [by apply claimExactFastPath_safe| |done|done].
  intros c1 s1 [Hrun1 _]. pose proof Hrun1 as (_&Hs1&_).
  apply wp_bind, safe_lift; [auto with nodiv|done|]. intros [|] _; [|by apply Hwalk].
  apply safe_lift; [auto with nodiv|done|]. intros res Hres. by exists c1.
Qed.

End runs.

(** ** Attempts *)

Section attempts.
Context `{E : External, !ExternalLaws E} {St : Type} `{F : FundingStore St}.
Context (args : FundArgs) `{!OwnedStore F (fa_UserID args) (fa_Reservation args)}.
Context (feeModel : FeeModel) (r : Z) (Hr : 0 ≤ r < 2 ^ 40) (Hmax : 1 ≤ fa_MaxChangeOutputsPerTx args).
Abbreviation fc := (mkFeeCalc (float_of_Z r)).

(** The first selection pass ends in contention, so that the token is released and
    the pass repeated. *)
Definition contended (fuel : nat) (s : St) : Prop :=
  ∃ e, (fundOnce feeModel fc fuel args s).1 = Err e ∧ is_contention e = true.

Context (P : Prop) (fuel : nat).
Context (HP : ∀ base c s, running args r base c s → (fuel ≤ length (allocatedUTXOs c))%nat → P).

Lemma attempts_safe left s :
  sound s →
  wp (attempts feeModel fc left fuel args)
    (λ res s', funded args r (owned s) res s' ∨ contended fuel s ∧ funded args r ∅ res s')
    (λ e s', sound s' ∧ owned s' = ∅ ∧ (e = Diverged → P)) (λ _, True) s.
Proof.
  revert s. induction left as [|left IH]; intros s Hs; rewrite /wp; simpl.
  all: pose proof (fundOnce_safe args feeModel r Hr Hmax (owned s) P fuel s Hs eq_refl (HP (owned s))) as Hone.
  all: rewrite /wp in Hone; destruct (fundOnce _ _ _ _ s) as [[res|e|] s'] eqn:Hfo; [by left| |done]; destruct Hone as [Hs' Hd].
  all: destruct (release_law s' Hs') as (n&s''&Hrel&Hs''&Ho''); rewrite /release Hrel /=.
  all: destruct (is_contention e) eqn:Hc; [|by split_and!].
  - by split_and!.
  - assert (contended fuel s) as Hcs by (exists e; by rewrite Hfo).
    destruct left as [|left]; [by split_and!|]. eapply wp_mono; [by apply IH| |done|done].
    intros res s2 [Hf|[_ Hf]]; right; (split; [done|]); [by rewrite Ho'' in Hf|done].
Qed.
End attempts.

(** ** Theorems *)

Section theorems.
Context `{E : External, !ExternalLaws E} {St : Type} `{F : FundingStore St}.
Context (args : FundArgs) {O : OwnedStore F (fa_UserID args) (fa_Reservation args)}.
Context (r : Z) (fc : feeCalc).

(** The most change outputs this call may plan. *)
Definition change_cap : Z :=
  Z.min (fa_MaxChangeOutputsPerTx args)
    (Z.max (i64 (fa_NumberOfDesiredUTXOs args - fa_ExistingBasketCount args)) 1).

Lemma validate_max : 0 ≤ fa_MaxChangeOutputsPerTx args → validate args = None →
  1 ≤ fa_MaxChangeOutputsPerTx args.
Proof.
  rewrite /validate => Hm Hv. destruct (Z.eqb_spec (fa_MaxChangeOutputsPerTx args) 0); [|lia].
  by repeat (case_match; try done).
Qed.

Lemma fund_funded fuel s res s' :
  0 ≤ r < 2 ^ 40 → newFeeCalculator (mkFeeModel SatPerKB r) = Ret fc →
  0 ≤ fa_MaxChangeOutputsPerTx args → sound s →
  Fund (mkFeeModel SatPerKB r) fc fuel args s = (Ret res, s') →
  fc = mkFeeCalc (float_of_Z r) ∧ 1 ≤ fa_MaxChangeOutputsPerTx args ∧
  (funded args r (owned s) res s' ∨ contended args (mkFeeModel SatPerKB r) r fuel s ∧ funded args r ∅ res s').
Proof.
  intros Hr Hfc Hm Hs. rewrite newFeeCalculator_Ret in Hfc; [|lia]. injection Hfc as <-.
  rewrite /Fund. destruct (validate args) eqn:Hv; [done|]. intros Hf.
  pose proof (validate_max Hm Hv) as Hmax. split_and!; [done..|].
  pose proof (attempts_safe args (mkFeeModel SatPerKB r) r Hr Hmax True fuel ltac:(done) maxFundingAttempts s Hs)
    as Hsafe. by rewrite /wp Hf in Hsafe.
Qed.

(** The collector a successful run ends with. *)
Lemma fund_outcome fuel s res s' :
  0 ≤ r < 2 ^ 40 → newFeeCalculator (mkFeeModel SatPerKB r) = Ret fc →
  0 ≤ fa_MaxChangeOutputsPerTx args → sound s →
  Fund (mkFeeModel SatPerKB r) fc fuel args s = (Ret res, s') →
  ∃ base c, running args r base c s' ∧ result c = Ret res ∧ 1 ≤ dustFloor c ∧
    (base = owned s ∨ base = ∅ ∧ contended args (mkFeeModel SatPerKB r) r fuel s).
Proof.
  intros Hr Hfc Hm Hs Hf. destruct (fund_funded fuel s res s' Hr Hfc Hm Hs Hf) as (->&Hmax&Hfund).
  assert (∃ base c, running args r base c s' ∧ result c = Ret res ∧
    (base = owned s ∨ base = ∅ ∧ contended args (mkFeeModel SatPerKB r) r fuel s)) as (base&c&Hrun&Hres&Hbase).
  { destruct Hfund as [(c&?&?)|(?&c&?&?)]; eauto 10. }
  exists base, c. split_and!; [done..| |done]. destruct Hrun as (Hc&_).
  destruct (collecting_params args r Hr Hmax c Hc) as (_&Hdust&_). lia.
Qed.

(** C3: a successful Fund is sound.  Under the token the store holds exactly the
    allocated coins and those it held before, unless the first pass ended in
    contention, which drops the latter; the allocated coins are distinct and have the
    values the result reports; their sum is exactly target plus fee plus change; the
    change is not negative; a change output is planned only if the whole change clears
    the dust floor, and never more than the per-transaction and basket caps allow; and
    when the transaction has no other output or the caller requires change, there is
    one. *)
Theorem fund_success_sound fuel s res s' :
  0 ≤ r < 2 ^ 40 → newFeeCalculator (mkFeeModel SatPerKB r) = Ret fc →
  0 ≤ fa_MaxChangeOutputsPerTx args → sound s →
  Fund (mkFeeModel SatPerKB r) fc fuel args s = (Ret res, s') →
  NoDup (u_Outpoint <$> AllocatedUTXOs res) ∧
  (Forall (λ u, owned s !! u_Outpoint u = None) (AllocatedUTXOs res) ∧
   owned s' = val_map (AllocatedUTXOs res) ∪ owned s ∨
   contended args (mkFeeModel SatPerKB r) r fuel s ∧ owned s' = val_map (AllocatedUTXOs res)) ∧
  total (AllocatedUTXOs res) = fa_TargetSat args + Fee_ res + ChangeAmount res ∧
  0 ≤ ChangeAmount res ∧
  (ChangeOutputsCount res = 0 ∨
     1 ≤ ChangeOutputsCount res ≤ change_cap ∧ DustFloor res ≤ ChangeAmount res) ∧
  (fa_OutputCount args = 0 ∨ fa_RequireChange args = true → 1 ≤ ChangeOutputsCount res).
Proof.
  intros Hr Hfc Hm Hs Hf.
  destruct (fund_outcome fuel s res s' Hr Hfc Hm Hs Hf) as (base&c&((Hi&Hp)&Hs'&Hnd&Hnew&Hown)&Hres&Hdust&Hbase).
  apply (result_Ret (fa_CurrentTxSize args)) in Hres as (Hal&Hfe&Hdf&Htot&Hch&Hcnt&_&Hmand);
    [|done|lia].
  unfold params, run_params in Hp. injection Hp as HT _ Hoc Hd _ Hmx _ Hrq _.
  rewrite Hal in Htot |- *. split_and!; [done| |congruence|done| |].
  - destruct Hbase as [->|[-> Hc]]; [by left|right]. by rewrite right_id_L in Hown.
  - rewrite Hdf /change_cap. unfold cap in Hcnt. rewrite Hd Hmx in Hcnt. done.
  - intros Hreq. apply Hmand. rewrite /changeMandatory Hoc Hrq.
    destruct Hreq as [-> | ->]; [done|apply orb_true_r].
Qed.

Lemma inputs_size_nonneg us : 0 ≤ inputs_size us.
Proof.
  induction us as [|u us IH]; simpl; [done|].
  assert (0 ≤ TransactionInputSize (u_InputSize u)).
  { rewrite /TransactionInputSize /wrapU. apply Z.mod_pos_bound. lia. }
  lia.
Qed.

(** The committed fee pays for the transaction.  Whatever coins the walk picked,
    the fee of a successful Fund is at least the node's minimum for the base
    transaction plus the allocated inputs plus the planned change outputs, for
    transactions whose size times rate stays below 2^50. *)
Theorem fund_fee_sufficient fuel s res s' :
  0 ≤ r < 2 ^ 40 → newFeeCalculator (mkFeeModel SatPerKB r) = Ret fc →
  0 ≤ fa_MaxChangeOutputsPerTx args → 0 ≤ fa_CurrentTxSize args → sound s →
  Fund (mkFeeModel SatPerKB r) fc fuel args s = (Ret res, s') →
  (fa_CurrentTxSize args + inputs_size (AllocatedUTXOs res) +
     (Z.of_nat (length (AllocatedUTXOs res)) + 1) * (change_cap * 34)) * Z.max 1 r < 2 ^ 50 →
  MinRequiredFee (fa_CurrentTxSize args + inputs_size (AllocatedUTXOs res) +
                  ChangeOutputsCount res * P2PKHOutputSize) r ≤ Fee_ res.
Proof.
  intros Hr Hfc Hm Hsz Hs Hf Hb. destruct (fund_funded fuel s res s' Hr Hfc Hm Hs Hf) as (->&Hmax&Hfund).
  assert (∃ base c, running args r base c s' ∧ result c = Ret res) as (base&c&((Hi&Hp)&Hs'&_)&Hres).
  { destruct Hfund as [(c&?&?)|(_&c&?&?)]; eauto. }
  destruct (collecting_params args r Hr Hmax c (conj Hi Hp)) as (_&Hdust&Hcalc).
  apply (result_Ret (fa_CurrentTxSize args)) in Hres as (Hal&Hfe&_&_&_&Hcnt&Hle&_); [|done|lia].
  unfold params, run_params in Hp. injection Hp as _ _ _ Hd _ Hmx _ _ _.
  rewrite Hfe Hal P2PKHOutputSize_34. rewrite Hal in Hb.
  apply (fee_covers_size (fa_CurrentTxSize args) r c); [done..|lia|apply inputs_size_nonneg|].
  unfold cap, change_cap in *. by rewrite Hd Hmx.
Qed.

(** A failed Fund leaves nothing reserved.  If Fund returns an error, then either
    the arguments were rejected and the store was not touched, or the token holds
    no coin any more, whatever was claimed, released or retried on the way. *)
Theorem fund_error_releases fuel s e s' :
  0 ≤ r < 2 ^ 40 → newFeeCalculator (mkFeeModel SatPerKB r) = Ret fc →
  0 ≤ fa_MaxChangeOutputsPerTx args → sound s →
  Fund (mkFeeModel SatPerKB r) fc fuel args s = (Err e, s') →
  validate args = Some e ∧ s' = s ∨ validate args = None ∧ sound s' ∧ owned s' = ∅.
Proof.
  intros Hr Hfc Hm Hs. rewrite newFeeCalculator_Ret in Hfc; [|lia]. injection Hfc as <-.
  rewrite /Fund. destruct (validate args) eqn:Hv; [intros [= <- <-]; by left|]. intros Hf. right.
  pose proof (attempts_safe args (mkFeeModel SatPerKB r) r Hr (validate_max Hm Hv) True fuel ltac:(done)
    maxFundingAttempts s Hs) as Hsafe.
  rewrite /wp Hf in Hsafe. destruct Hsafe as (?&?&_). by split_and!.
Qed.

Lemma val_map_size us : NoDup (u_Outpoint <$> us) → size (val_map us) = length us.
Proof.
  induction us as [|u us IH]; simpl; [by rewrite /val_map /= map_size_empty|].
  intros [Hn Hnd]%NoDup_cons. rewrite /val_map /= map_size_insert_None; [by rewrite IH|].
  by apply val_map_lookup_None.
Qed.

(** C29: the selection loop terminates.  If the store never holds more than [n] coins
    under the token, then [n + 1] rounds are enough fuel: Fund ends in a result, an
    error of the code, or a panic, never by running out of rounds. *)
Theorem fund_terminates n fuel s :
  0 ≤ r < 2 ^ 40 → newFeeCalculator (mkFeeModel SatPerKB r) = Ret fc →
  0 ≤ fa_MaxChangeOutputsPerTx args → sound s →
  (∀ s, sound s → (size (owned s) ≤ n)%nat) → (n < fuel)%nat →
  (Fund (mkFeeModel SatPerKB r) fc fuel args s).1 ≠ Err Diverged.
Proof.
  intros Hr Hfc Hm Hs Hn Hfuel. rewrite newFeeCalculator_Ret in Hfc; [|lia].
  injection Hfc as <-. rewrite /Fund. destruct (validate args) as [e|] eqn:Hv.
  { intros [= ->]. assert (∀ ts, validate_tiers ts ≠ Some Diverged) as Ht.
    { induction ts as [|t ts IH]; simpl; [done|]. by destruct (Tier_Valid t). }
    revert Hv. rewrite /validate. repeat (case_match; try done). apply Ht. }
  pose proof (attempts_safe args (mkFeeModel SatPerKB r) r Hr (validate_max Hm Hv) False fuel) as Hsafe.
  ospecialize (Hsafe _ maxFundingAttempts s Hs).
  { intros base c' s' (_&Hs'&Hnd&Hnew&Hown) Hle. specialize (Hn s' Hs').
    assert (size (val_map (allocatedUTXOs c')) ≤ size (owned s'))%nat as Hsz.
    { rewrite -!size_dom Hown. apply subseteq_size. rewrite dom_union_L. set_solver. }
    rewrite val_map_size // in Hsz. lia. }
  rewrite /wp in Hsafe. destruct (attempts _ _ _ _ _ s) as [[?|e|] s']; [done| |done].
  destruct Hsafe as (_&_&Hd). intros [= ->]. by apply Hd.
Qed.
End theorems.

End FunderProps.
