(* ===== verification/FunderMem.v ===== *)
(** * FunderMem: the memstore meets the funder's interface, with peers running

    [mem_funding env clk] is the memstore as the funder sees it while other callers
    work on the same store: before the funder's n-th store operation the calls
    [env n] of its peers run.  Peers may do anything except work under the funder's
    own user and token, force-spend or force-remove coins, or close the store.
    [mem_owned] discharges [OwnedStore]. *)
From S2P Require Import Prelude UtxoTypes MemStore StoreContract StoreProps StoreReplay Satoshi Float64 External Fee Collector Funder FunderProps.
Import StoreContract StoreExample StoreProps StoreReplay FunderProps.
Local Open Scope Z_scope.

Module FunderMem.

(** What a peer of [(uid, tok)] may call. *)
Definition foreign (uid : Z) (tok : string) (c : call) : Prop :=
  match c with
  | CMint _ ms => Forall (λ m, 0 ≤ m_Satoshis m) ms
  | CRemove _ force => force = false
  | CClaimSmallestSufficient _ sc tok' _ => ¬ (sc_UserID sc = uid ∧ tok' = tok)
  | CClaimLargestInsufficient _ sc tok' _ _ => ¬ (sc_UserID sc = uid ∧ tok' = tok)
  | CClaimExact _ sc tok' _ _ => ¬ (sc_UserID sc = uid ∧ tok' = tok)
  | CReserveOutpoints _ uid' tok' _ => ¬ (uid' = uid ∧ tok' = tok)
  | CReleaseReservation uid' tok' => ¬ (uid' = uid ∧ tok' = tok)
  | CReleaseOutpoints tok' _ => tok' ≠ tok
  | CPin uid' tok' => ¬ (uid' = uid ∧ tok' = tok)
  | CUnpin uid' tok' => ¬ (uid' = uid ∧ tok' = tok)
  | CSpend sps force => force = false ∧ Forall (λ sp, sp_Reservation sp ≠ tok) sps
  | CClose => False
  | _ => True
  end.

(** The action's own calls: the funder's, and the reservation of named coins. *)
Definition own (uid : Z) (tok : string) (c : call) : Prop :=
  match c with
  | CClaimSmallestSufficient _ _ _ _ | CClaimLargestInsufficient _ _ _ _ _
  | CClaimExact _ _ _ _ _ | CReleaseReservation _ _ | CReleaseOutpoints _ _
  | CReserveOutpoints _ _ _ _ => True
  | _ => False
  end.

Section invariant.
Context (uid : Z) (tok : string).

(** The value of a coin that is live under [(uid, tok)]. *)
Definition live_value (u : UTXO) : option Z :=
  if decide (u_UserID u = uid ∧ u_ReservedBy u = tok ∧ u_SpentBy u = None)
  then Some (u_Satoshis u) else None.

Definition live (s : MemStore.Store) : gmap Outpoint Z :=
  omap (λ r, live_value (MemStore.r_utxo r)) (MemStore.rows s).

Definition coin_good (op : Outpoint) (u : UTXO) : Prop :=
  coin_ok op u ∧ 0 ≤ u_Satoshis u ∧ (held uid tok u → u_Pinned u = false).

Definition store_good (s : MemStore.Store) : Prop :=
  MemStore.closed s = false ∧ ∀ op u, coin s op = Some u → coin_good op u.

Lemma live_lookup s op : live s !! op = coin s op ≫= live_value.
Proof. rewrite /live /coin lookup_omap. by destruct (MemStore.rows s !! op). Qed.

Lemma lifecycle_good c op o o' :
  lifecycle c op o o' → foreign uid tok c ∨ own uid tok c →
  (∀ u, o = Some u → coin_good op u) → ∀ u, o' = Some u → coin_good op u.
Proof.
  intros Hl Hc Hgood u' Hu'. split.
  { eapply lifecycle_coin_ok; [done| |done]. intros u Hu. by destruct (Hgood u Hu). }
  destruct Hl; simplify_eq/=; try (destruct (Hgood _ eq_refl) as (Hok&Hs&Hp)).
  - destruct Hc as [Hc|[]]. simpl in Hc. rewrite ->Forall_forall in Hc. by split; [apply Hc|].
  - split; [done|]. intros _. destruct Hok as (_&_&_&_&Hpin&_). destruct (u_Pinned u); [|done].
    destruct Hpin as [??]; [done|]. unfold free in *. intuition congruence.
  - split; [done|]. intros _. destruct Hok as (_&_&_&_&Hpin&_). destruct (u_Pinned u); [|done].
    destruct Hpin as [??]; [done|]. unfold free in *. intuition congruence.
  - split; [done|]. by intros (?&?&?).
  - by split.
  - destruct Hc as [Hc|[]]. split; [done|]. unfold held in *. simpl in *.
    intros (?&?&?). exfalso. apply Hc. intuition congruence.
  - by split.
  - by split.
  - by split.
  - by split.
  - by split.
  - by split.
Qed.

Lemma evolves_good c op o o' :
  rtc (lifecycle c op) o o' → foreign uid tok c ∨ own uid tok c →
  (∀ u, o = Some u → coin_good op u) → ∀ u, o' = Some u → coin_good op u.
Proof. induction 1; eauto using lifecycle_good. Qed.

Lemma exec_coins_good `{MapRange} c s :
  foreign uid tok c ∨ own uid tok c → (∀ op u, coin s op = Some u → coin_good op u) →
  ∀ op u, coin (exec c s) op = Some u → coin_good op u.
Proof.
  intros Hc Hs op. destruct (exec_coin_rel c s op) as [Hev _].
  eapply evolves_good; [exact Hev|done|apply Hs].
Qed.

(** ** Peers *)

Lemma lifecycle_live c op o o' :
  tok ≠ "" → lifecycle c op o o' → foreign uid tok c → o' ≫= live_value = o ≫= live_value.
Proof.
  intros Htok Hl Hc. destruct Hl; simpl; rewrite /live_value /=; unfold free, held in *; simpl in Hc;
    repeat case_decide; try done; exfalso; destruct_and?; try (intuition congruence).
  - unfold in_scope in *. destruct c; simplify_eq/=; apply Hc; split; intuition congruence.
  - apply Hc. split; congruence.
  - apply Hc. split; congruence.
  - match goal with Hall : Forall _ sps, Hsp : sp ∈ sps |- _ =>
      rewrite ->Forall_forall in Hall; apply (Hall sp Hsp) end.
    intuition congruence.
Qed.

Lemma foreign_live `{MapRange} c s :
  tok ≠ "" → foreign uid tok c → live (exec c s) = live s.
Proof.
  intros Htok Hc. apply map_eq. intros op. rewrite !live_lookup.
  destruct (exec_coin_rel c s op) as [Hev _]. fold (coin s op) (coin (exec c s) op) in Hev.
  induction Hev as [|o1 o2 o3 Hl _ IH]; [done|]. rewrite IH. by eapply lifecycle_live.
Qed.

Lemma run_foreign `{MapRange} cs s :
  tok ≠ "" → Forall (foreign uid tok) cs → store_good s →
  store_good (run cs s) ∧ live (run cs s) = live s.
Proof.
  intros Htok Hcs. revert s. induction Hcs as [|c cs Hc Hcs IH]; intros s [Hopen Hs]; simpl; [done|].
  destruct (IH (exec c s)) as [? Hl].
  { split; [rewrite exec_closed //; by intros ->|]. apply exec_coins_good; [by left|done]. }
  split; [done|]. rewrite Hl. by apply foreign_live.
Qed.

(** ** The funder's own operations *)

Lemma live_value_reserve now u :
  u_UserID u = uid → u_SpentBy u = None →
  live_value (set_reservation tok now u) = Some (u_Satoshis u).
Proof. intros. rewrite /live_value decide_True //. Qed.

Lemma live_value_free u : tok ≠ "" → u_ReservedBy u = "" → live_value u = None.
Proof. intros Ht Hr. rewrite /live_value decide_False //. rewrite Hr. naive_solver. Qed.

(** A claim that reserved the rows [sel] added exactly those coins. *)
Lemma reserved_adds sc clk sel s s' :
  tok ≠ "" → sc_UserID sc = uid → store_good s → NoDup sel.*1 →
  (∀ op r, (op, r) ∈ sel → MemStore.rows s !! op = Some r ∧ MemStore.claimable sc r = true) →
  (∀ op, op ∉ sel.*1 → MemStore.rows s' !! op = MemStore.rows s !! op) →
  (∀ i op r, sel !! i = Some (op, r) → MemStore.rows s' !! op =
     Some (MemStore.mkRow (set_reservation tok (clk i) (MemStore.r_utxo r)) (MemStore.r_seq r))) →
  adds (imap (λ i kr, set_reservation tok (clk i) (MemStore.r_utxo kr.2)) sel) (live s) (live s').
Proof.
  intros Htok Hsc [_ Hgood] Hnd Hsel Hother Hin. set (us := imap _ sel).
  assert (∀ op r, (op, r) ∈ sel → u_Outpoint (MemStore.r_utxo r) = op ∧ 0 ≤ u_Satoshis (MemStore.r_utxo r) ∧
    u_UserID (MemStore.r_utxo r) = uid ∧ u_ReservedBy (MemStore.r_utxo r) = "" ∧
    u_SpentBy (MemStore.r_utxo r) = None) as Hfacts.
  { intros op r Hr. destruct (Hsel op r Hr) as [Hrow (Hs&[??]&_)%claimable_spec].
    destruct (Hgood op (MemStore.r_utxo r)) as ((?&_)&?&_); [by rewrite /coin Hrow|].
    destruct Hs as (?&_). split_and!; try done. congruence. }
  assert (u_Outpoint <$> us = sel.*1) as Hops.
  { apply list_eq. intros i. rewrite !list_lookup_fmap list_lookup_imap.
    destruct (sel !! i) as [[op r]|] eqn:Hi; simpl; [|done].
    f_equal. by apply Hfacts, list_elem_of_lookup_2 with i. }
  assert (∀ u, u ∈ us → ∃ i op r, sel !! i = Some (op, r) ∧
    u = set_reservation tok (clk i) (MemStore.r_utxo r)) as Hus.
  { intros u (i&[op r]&->&Hi)%elem_of_lookup_imap. by exists i, op, r. }
  split_and!.
  - by rewrite Hops.
  - apply Forall_forall. intros u (i&op&r&Hi&->)%Hus.
    pose proof (list_elem_of_lookup_2 _ _ _ Hi) as Hel.
    destruct (Hfacts op r Hel) as (Ho&_&_&Hrb&_). destruct (Hsel op r Hel) as [Hrow _].
    rewrite live_lookup /= Ho /coin Hrow /=. by apply live_value_free.
  - apply map_eq. intros op. rewrite lookup_union live_lookup.
    destruct (decide (op ∈ sel.*1)) as [Hel|Hn].
    + apply list_elem_of_fmap in Hel as ([op' r]&->&Hel). apply list_elem_of_lookup in Hel as [i Hi].
      pose proof (list_elem_of_lookup_2 _ _ _ Hi) as Hel.
      destruct (Hfacts op' r Hel) as (Ho&_&Hu&Hrb&Hsp). simpl.
      rewrite /coin (Hin i op' r Hi) /= live_value_reserve //.
      pose proof (val_map_lookup us (set_reservation tok (clk i) (MemStore.r_utxo r))) as Hv.
      rewrite /= Ho in Hv. rewrite Hv; [by rewrite union_Some_l|by rewrite Hops|].
      apply elem_of_lookup_imap. exists i, (op', r). done.
    + rewrite /coin Hother // -live_lookup.
      rewrite -Hops in Hn. apply val_map_lookup_None in Hn as ->. by rewrite left_id_L live_lookup.
  - apply Forall_forall. intros u (i&op&r&Hi&->)%Hus. simpl.
    by destruct (Hfacts op r (list_elem_of_lookup_2 _ _ _ Hi)) as (_&?&_).
Qed.

Lemma own_good `{MapRange} c s : own uid tok c → store_good s → store_good (exec c s).
Proof.
  intros Hc [Hopen Hs]. split; [rewrite exec_closed //; by intros ->|].
  apply exec_coins_good; [by right|done].
Qed.

Lemma mem_smallest `{MapRange} clk sc x s :
  tok ≠ "" → sc_UserID sc = uid → store_good s →
  match MemStore.ClaimSmallestSufficient clk sc tok x s with
  | (Ret None, s') => store_good s' ∧ live s' = live s
  | (Ret (Some u), s') => store_good s' ∧ adds [u] (live s) (live s') ∧ x ≤ u_Satoshis u
  | (Err _, s') => store_good s'
  | (Panic, _) => False
  end.
Proof.
  intros Htok Hsc Hg. pose proof (own_good (CClaimSmallestSufficient clk sc tok x) s I Hg) as Hg'.
  simpl in Hg'. destruct (ValidateClaim sc tok) eqn:Hv.
  { destruct Hg as [Hopen Hs]. revert Hg'.
    by rewrite /MemStore.ClaimSmallestSufficient /MemStore.guard_open Hopen Hv. }
  pose proof Hg as [Hopen _].
  destruct (ClaimSmallestSufficient_spec clk sc tok x s Hopen Hv)
    as [[Heq _]|(op&r&Hr&[Hc Hx]&_&Heq)]; rewrite Heq in Hg' |- *; [done|].
  split_and!; [done| |done].
  apply (reserved_adds sc clk [(op, r)] s); [done..|apply NoDup_singleton| | |]; simpl.
  - by intros ?? [= -> ->]%list_elem_of_singleton.
  - intros op' Hn%not_elem_of_cons. destruct Hn. by rewrite lookup_insert_ne.
  - intros [|i] op' r' Hi; [|done]. injection Hi as <- <-. by rewrite lookup_insert_eq.
Qed.

(** The two multi-coin claims share their shape. *)
Lemma mem_many `{MapRange} clk sc cmp n s (Q : Outpoint * MemStore.row → Prop) `{!∀ x, Decision (Q x)}
    `{!Transitive (cmp_le cmp), !Total (cmp_le cmp)} us m :
  tok ≠ "" → sc_UserID sc = uid → store_good s →
  (∀ kr, Q kr → MemStore.claimable sc kr.2 = true) →
  MemStore.reserve_all clk 0 tok
    (slice_to n (SortFunc cmp (filter Q (range_map (MemStore.rows s))))) (MemStore.rows s) = (us, m) →
  adds us (live s) (live (MemStore.with_rows m s)).
Proof.
  intros Htok Hsc Hg HQ Hra.
  apply claim_many_spec in Hra as (sel&rest&Hin&Hnd&_&_&->&Hother&Hsel); [|apply _..].
  apply (reserved_adds sc); [done..| | |done|done].
  - rewrite fmap_app NoDup_app in Hnd. by destruct Hnd.
  - intros op r Hr. destruct (proj1 (Hin op r)) as [??]; [by apply elem_of_app; left|].
    split; [done|]. by apply (HQ (op, r)).
Qed.

Lemma adds_nil m : adds [] m m.
Proof. split_and!; [constructor|done| |done]. by rewrite /val_map /= left_id_L. Qed.

Lemma mem_largest `{MapRange} clk sc x n s :
  tok ≠ "" → sc_UserID sc = uid → store_good s →
  match MemStore.ClaimLargestInsufficient clk sc tok x n s with
  | (Ret us, s') => store_good s' ∧ adds us (live s) (live s')
  | (Err _, s') => store_good s'
  | (Panic, _) => False
  end.
Proof.
  intros Htok Hsc Hg. pose proof (own_good (CClaimLargestInsufficient clk sc tok x n) s I Hg) as Hg'.
  revert Hg'. simpl. pose proof Hg as [Hopen _].
  rewrite /MemStore.ClaimLargestInsufficient /MemStore.guard_open Hopen.
  destruct (ValidateClaim sc tok); simpl; [done|].
  destruct (n <=? 0); simpl; [intros; split; [done|apply adds_nil]|].
  destruct (MemStore.reserve_all _ _ _ _ _) as [us m] eqn:Hra. simpl. intros Hg'. split; [done|].
  eapply (mem_many _ sc MemStore.cmp_largest); [apply _|apply _|exact Htok|exact Hsc|exact Hg| |exact Hra]. by intros kr [??].
Qed.

Lemma mem_exact `{MapRange} clk sc x n s :
  tok ≠ "" → sc_UserID sc = uid → store_good s →
  match MemStore.ClaimExact clk sc tok x n s with
  | (Ret us, s') => store_good s' ∧ adds us (live s) (live s')
  | (Err _, s') => store_good s'
  | (Panic, _) => False
  end.
Proof.
  intros Htok Hsc Hg. pose proof (own_good (CClaimExact clk sc tok x n) s I Hg) as Hg'.
  revert Hg'. simpl. pose proof Hg as [Hopen _].
  rewrite /MemStore.ClaimExact /MemStore.guard_open Hopen.
  destruct (ValidateClaim sc tok); simpl; [done|].
  destruct (n <=? 0); simpl; [intros; split; [done|apply adds_nil]|].
  destruct (MemStore.reserve_all _ _ _ _ _) as [us m] eqn:Hra. simpl. intros Hg'. split; [done|].
  eapply (mem_many _ sc MemStore.cmp_seq); [apply _|apply _|exact Htok|exact Hsc|exact Hg| |exact Hra]. by intros kr [??].
Qed.

(** Releasing outpoints removes exactly them from the live coins. *)
Lemma release_one_live m op :
  tok ≠ "" →
  omap (λ r, live_value (MemStore.r_utxo r)) (MemStore.release_one tok m op) =
  delete op (omap (λ r, live_value (MemStore.r_utxo r)) m).
Proof.
  intros Htok. apply map_eq. intros k. rewrite /MemStore.release_one.
  destruct (decide (k = op)) as [->|Hne].
  - rewrite lookup_delete_eq lookup_omap. destruct (m !! op) as [r|] eqn:Hr; simpl.
    + case_decide as Hd.
      * rewrite Hr /= /live_value decide_False //. tauto.
      * rewrite lookup_insert_eq /=. by apply live_value_free.
    + by rewrite Hr.
  - rewrite lookup_delete_ne // !lookup_omap. destruct (m !! op) as [r|]; [|done].
    case_decide; [done|]. by rewrite lookup_insert_ne.
Qed.

Lemma without_cons op ops m : without (op :: ops) m = without ops (delete op m).
Proof.
  rewrite /without. apply map_eq. intros k. rewrite !map_lookup_filter.
  destruct (decide (k = op)) as [->|Hne].
  - rewrite lookup_delete_eq /=. destruct (m !! op); simpl; [|done].
    rewrite option_guard_False //. intros Hn. by apply not_elem_of_cons in Hn as [??].
  - rewrite lookup_delete_ne //. destruct (m !! k); simpl; [|done].
    apply option_guard_iff. rewrite not_elem_of_cons. naive_solver.
Qed.

Lemma mem_release_outpoints ops s :
  tok ≠ "" → store_good s →
  match MemStore.ReleaseOutpoints tok ops s with
  | (Ret _, s') => store_good s' ∧ live s' = without ops (live s)
  | (Err _, s') => store_good s'
  | (Panic, _) => False
  end.
Proof.
  intros Htok Hg.
  pose proof (own_good (H := range_canonical) (CReleaseOutpoints tok ops) s I Hg) as Hg'.
  revert Hg'. simpl. pose proof Hg as [Hopen _].
  rewrite /MemStore.ReleaseOutpoints /MemStore.guard_open Hopen.
  destruct (ValidateReservation tok); simpl; [done|]. intros Hg'. split; [done|].
  rewrite /live /=. generalize (MemStore.rows s). clear -Htok.
  induction ops as [|op ops IH]; intros m; simpl.
  - rewrite /without. symmetry. apply map_filter_id. intros. apply not_elem_of_nil.
  - by rewrite IH release_one_live // without_cons.
Qed.

Lemma mem_release s :
  tok ≠ "" → store_good s →
  ∃ n s', MemStore.ReleaseReservation uid tok s = (Ret n, s') ∧ store_good s' ∧ live s' = ∅.
Proof.
  intros Htok Hg. pose proof (own_good (H := range_canonical) (CReleaseReservation uid tok) s I Hg) as Hg'.
  revert Hg'. simpl. pose proof Hg as [Hopen Hs].
  rewrite /MemStore.ReleaseReservation /MemStore.guard_open Hopen.
  rewrite (proj2 (ValidateReservation_None tok)) //=. intros Hg'. do 2 eexists. split_and!; [done..|].
  apply map_eq. intros op. rewrite live_lookup lookup_empty /coin /= lookup_fmap.
  destruct (MemStore.rows s !! op) as [r|] eqn:Hr; [|done]. simpl.
  destruct (Hs op (MemStore.r_utxo r)) as (_&_&Hpin); [by rewrite /coin Hr|].
  rewrite /MemStore.heldBy. case_bool_decide as Hh; simpl.
  - rewrite (Hpin Hh) /=. by apply live_value_free.
  - by rewrite /live_value decide_False.
Qed.

End invariant.

(** ** The shared store *)

(** The store and how many operations of the funder it has served. *)
Record shared := mkShared { sh_store : MemStore.Store; sh_time : nat }.

Section instance.
Context `{MapRange} (env : nat → list call) (clk : nat → nat → Time).

Definition with_peers {A} (op : (nat → Time) → M MemStore.Store error A) : M shared error A := λ st,
  let '(o, s') := op (clk (sh_time st)) (run (env (sh_time st)) (sh_store st)) in
  (o, mkShared s' (S (sh_time st))).

(** The memstore offers no [ClaimableExists]: its claims are serialized. *)
Definition mem_funding : Funder.FundingStore shared := {|
  Funder.ClaimSmallestSufficient sc tok x :=
    with_peers (λ clk, MemStore.ClaimSmallestSufficient clk sc tok x);
  Funder.ClaimLargestInsufficient sc tok x n :=
    with_peers (λ clk, MemStore.ClaimLargestInsufficient clk sc tok x n);
  Funder.ClaimExact sc tok x n := with_peers (λ clk, MemStore.ClaimExact clk sc tok x n);
  Funder.ReleaseReservation uid tok := with_peers (λ _, MemStore.ReleaseReservation uid tok);
  Funder.ReleaseOutpoints tok ops := with_peers (λ _, MemStore.ReleaseOutpoints tok ops);
  Funder.ClaimableExists := None;
|}.

(** [Inv]: any further property of the store that the calls involved keep. *)
Context (uid : Z) (tok : string) (Inv : MemStore.Store → Prop).
Context (Htok : tok ≠ "") (Henv : ∀ n, Forall (foreign uid tok) (env n)).
Context (Hinv : ∀ c s, own uid tok c ∨ (∃ n, c ∈ env n) → Inv s → Inv (exec c s)).

Lemma peers_keep n s :
  store_good uid tok s ∧ Inv s →
  (store_good uid tok (run (env n) s) ∧ Inv (run (env n) s)) ∧
  live uid tok (run (env n) s) = live uid tok s.
Proof.
  intros [Hg HI]. destruct (run_foreign uid tok _ _ Htok (Henv n) Hg) as [Hg' Hl].
  split_and!; [done| |done]. assert (∀ c, c ∈ env n → ∃ n, c ∈ env n) as Hin by eauto.
  clear -HI Hin Hinv. revert s HI Hin. induction (env n) as [|c cs IH]; intros s HI Hin; simpl; [done|].
  apply IH; [|set_solver]. apply Hinv; [right; apply Hin; set_solver|done].
Qed.

Lemma mem_owned : OwnedStore mem_funding uid tok.
Proof.
  refine {| sound st := store_good uid tok (sh_store st) ∧ Inv (sh_store st);
            owned st := live uid tok (sh_store st) |}; simpl; rewrite /with_peers.
  - intros sc x st Hsc Hg. destruct (peers_keep (sh_time st) _ Hg) as [[Hg' HI] <-].
    pose proof (mem_smallest uid tok (clk (sh_time st)) sc x _ Htok Hsc Hg') as Hl.
    pose proof (Hinv (CClaimSmallestSufficient (clk (sh_time st)) sc tok x) _ (or_introl I) HI) as HI'.
    simpl in HI'. destruct (MemStore.ClaimSmallestSufficient _ _ _ _ _) as [[[]| |] ?]; naive_solver.
  - intros sc x n st Hsc Hg. destruct (peers_keep (sh_time st) _ Hg) as [[Hg' HI] <-].
    pose proof (mem_largest uid tok (clk (sh_time st)) sc x n _ Htok Hsc Hg') as Hl.
    pose proof (Hinv (CClaimLargestInsufficient (clk (sh_time st)) sc tok x n) _ (or_introl I) HI) as HI'.
    simpl in HI'. destruct (MemStore.ClaimLargestInsufficient _ _ _ _ _ _) as [[| |] ?]; naive_solver.
  - intros sc x n st Hsc Hg. destruct (peers_keep (sh_time st) _ Hg) as [[Hg' HI] <-].
    pose proof (mem_exact uid tok (clk (sh_time st)) sc x n _ Htok Hsc Hg') as Hl.
    pose proof (Hinv (CClaimExact (clk (sh_time st)) sc tok x n) _ (or_introl I) HI) as HI'.
    simpl in HI'. destruct (MemStore.ClaimExact _ _ _ _ _ _) as [[| |] ?]; naive_solver.
  - intros ops st Hg. destruct (peers_keep (sh_time st) _ Hg) as [[Hg' HI] <-].
    pose proof (mem_release_outpoints uid tok ops _ Htok Hg') as Hl.
    pose proof (Hinv (CReleaseOutpoints tok ops) _ (or_introl I) HI) as HI'.
    simpl in HI'. destruct (MemStore.ReleaseOutpoints _ _ _) as [[| |] ?]; naive_solver.
  - intros st Hg. destruct (peers_keep (sh_time st) _ Hg) as [[Hg' HI] _].
    pose proof (Hinv (CReleaseReservation uid tok) _ (or_introl I) HI) as HI'. simpl in HI'.
    destruct (mem_release uid tok _ Htok Hg') as (n&s'&Heq&?&?). rewrite Heq in HI' |- *.
    by do 2 eexists.
  - done.
Defined.
End instance.

(** ** Bounded stores: calls that mint nothing add no row *)

Lemma exec_rows_size `{MapRange} c s :
  mints c = false → (size (MemStore.rows (exec c s)) ≤ size (MemStore.rows s))%nat.
Proof.
  intros Hc. rewrite -!size_dom. apply subseteq_size. intros op. rewrite !elem_of_dom.
  intros [r' Hr']. destruct (exec_coin_rel c s op) as [_ Hk]. specialize (Hk Hc).
  rewrite Hr' in Hk. by destruct (MemStore.rows s !! op).
Qed.

Lemma live_size uid tok s : (size (live uid tok s) ≤ size (MemStore.rows s))%nat.
Proof. rewrite -!size_dom. apply subseteq_size, dom_omap_subseteq. Qed.

End FunderMem.

(** * FunderExample: funding runs on a concrete store

    The funder over the example store with a peer claiming a coin under another
    token in between: the instances of the funding theorems, and a run that refuses
    a sufficient coin. *)
Import StoreContract StoreExample StoreProps Float64 Fee Collector CollectorProps Funder FunderProps FunderMem.
Local Open Scope Z_scope.

Module FunderExample.

(** Before the funder's first operation a peer claims one 1000-satoshi coin. *)
Definition peers (n : nat) : list call :=
  match n with O => [CClaimExact clk0 sc0 "peer" 1000 1] | _ => [] end.
Definition clocks (n i : nat) : Time := 200 + 10 * Z.of_nat n + Z.of_nat i.

Definition store0 : FundingStore shared := mem_funding (H := range_canonical) peers clocks.

Definition args_for (target : Z) : FundArgs :=
  mkArgs 7 "default" "f1" target 44 1 [TierMined; TierUnproven] 5 1000 8 false 0 0.

Definition fc100 : feeCalc := mkFeeCalc (float_of_Z 100).

Lemma peers_foreign n : Forall (foreign 7 "f1") (peers n).
Proof. destruct n; simpl; [|constructor]. repeat constructor. by intros [_ ?]. Qed.

(** No call of the run mints, so the store keeps at most its three rows. *)
Definition few (s : MemStore.Store) : Prop := (size (MemStore.rows s) ≤ 3)%nat.

Lemma few_kept c s :
  own 7 "f1" c ∨ (∃ n, c ∈ peers n) → few s → few (exec (H := range_canonical) c s).
Proof.
  intros Hc Hs. unfold few in *. etrans; [apply exec_rows_size|done].
  destruct Hc as [Hc|[[|n] Hn]]; [by destruct c| |by apply not_elem_of_nil in Hn].
  by apply list_elem_of_singleton in Hn as ->.
Qed.

Definition owned0 : OwnedStore store0 7 "f1" :=
  mem_owned (H := range_canonical) peers clocks 7 "f1" few ltac:(done) peers_foreign few_kept.

Definition start : shared := mkShared fresh 0.

Lemma start_sound : store_good 7 "f1" fresh ∧ few fresh.
Proof.
  split; [|by apply Nat.leb_le]. split; [done|]. intros op u Hu. split; [by apply fresh_ok|].
  assert (map_Forall (λ _ r, 0 ≤ u_Satoshis (MemStore.r_utxo r) ∧
    u_Pinned (MemStore.r_utxo r) = false) (MemStore.rows fresh)) as Hall.
  { by apply (bool_decide_unpack _). }
  unfold coin in Hu. destruct (MemStore.rows fresh !! op) as [r|] eqn:Hr; simplify_eq/=.
  destruct (Hall op r Hr). done.
Qed.

Definition run0 (target : Z) : outcome fund_error Result * shared :=
  Fund (H := external_std) (H0 := store0) DefaultFeeModel fc100 10 (args_for target) start.

(** The run of a 1200-satoshi target: the 1000 coin left by the peer and the 500. *)
Definition result0 : Result :=
  match (run0 1200).1 with Ret r => r | _ => mkResult [] 0 0 0 0 end.

Lemma run0_result : run0 1200 = (Ret result0, (run0 1200).2).
Proof. by vm_compute. Qed.

Lemma fund_success_sound_witness :
  length (AllocatedUTXOs result0) = 2%nat ∧ NoDup (u_Outpoint <$> AllocatedUTXOs result0) ∧
  total (AllocatedUTXOs result0) = 1200 + Fee_ result0 + ChangeAmount result0.
Proof.
  destruct (fund_success_sound (E := external_std) (ExternalLaws0 := external_std_laws)
    (args_for 1200) (O := owned0) 100 fc100 10 start result0 (run0 1200).2 ltac:(lia) eq_refl ltac:(done)
    start_sound run0_result) as (Hnd&_&Htot&_).
  split_and!; [reflexivity|exact Hnd|exact Htot].
Defined.

Lemma fund_fee_sufficient_witness :
  MinRequiredFee (44 + inputs_size (H := external_std) (AllocatedUTXOs result0) +
    ChangeOutputsCount result0 * P2PKHOutputSize (H := external_std)) 100 ≤ Fee_ result0.
Proof.
  apply (fund_fee_sufficient (E := external_std) (ExternalLaws0 := external_std_laws)
    (args_for 1200) (O := owned0) 100 fc100 10 start result0 (run0 1200).2 ltac:(lia) eq_refl ltac:(done)
    ltac:(done) start_sound run0_result). by vm_compute.
Defined.

Lemma fund_error_releases_witness :
  (run0 5000).1 = Err ErrNotEnoughFunds ∧ live 7 "f1" (sh_store (run0 5000).2) = ∅.
Proof.
  split; [by vm_compute|].
  destruct (fund_error_releases (E := external_std) (ExternalLaws0 := external_std_laws)
    (args_for 5000) (O := owned0) 100 fc100 10 start ErrNotEnoughFunds (run0 5000).2 ltac:(lia) eq_refl
    ltac:(done) start_sound ltac:(by vm_compute)) as [[Hv _]|(_&_&Ho)];
    [done|exact Ho].
Defined.

Lemma fund_terminates_witness : (run0 5000).1 ≠ Err Diverged.
Proof.
  apply (fund_terminates (E := external_std) (ExternalLaws0 := external_std_laws)
    (args_for 5000) (O := owned0) 100 fc100 3 10 start ltac:(lia) eq_refl ltac:(done)
    start_sound); [|lia].
  intros st [_ Hfew]. etrans; [apply live_size|exact Hfew].
Defined.

(** ** A refused sufficient coin *)

Definition one_coin (v : Z) : shared :=
  mkShared (exec (H := range_canonical) (CMint clk0 [mint_of op1 v]) MemStore.New) 1.

Definition fund_one (v : Z) : outcome fund_error Result :=
  (Fund (H := external_std) (H0 := store0) DefaultFeeModel fc100 10 (args_for 1000) (one_coin v)).1.

(** One satoshi too many.  A pool of one 1020-satoshi coin funds a 1000-satoshi
    target: its fee is 20, nothing is left over.  A pool of one 1021-satoshi coin,
    although it covers the same target and fee with a satoshi to spare, is refused
    with ErrNotEnoughFunds: the spare satoshi makes the collector plan a change
    output, whose bytes raise the fee past what is covered, before the dust floor
    could drop that output again; a 1060-satoshi coin is accepted. *)
Theorem spare_satoshi_refused :
  (∃ res, fund_one 1020 = Ret res ∧ Fee_ res = 20 ∧ ChangeAmount res = 0) ∧
  fund_one 1021 = Err ErrNotEnoughFunds ∧
  (∃ res, fund_one 1060 = Ret res ∧ Fee_ res = 23 ∧ ChangeAmount res = 37 ∧
     ChangeOutputsCount res = 0).
Proof. split_and!; [eexists|by vm_compute|eexists]; split; by vm_compute. Qed.

End FunderExample.
