(* ===== verification/Config.v ===== *)
(** * Config: the throughput configuration

    [pkg/defs/utxo_management.go]: the parameters of the denominated fuel pool, the
    amounts derived from them and their validation, in the code's order.  Floating
    point is computed as in the code. *)
From Stdlib Require Import Floats.SpecFloat.
From S2P Require Import Prelude UtxoTypes Float64 External Satoshi Fee Collector Funder.
Import Float64 Fee Collector Funder.
Local Open Scope Z_scope.

Module Config.

Definition StrategyPrivacy : string := "privacy".
Definition StrategyThroughput : string := "throughput".
Definition defaultChangeBasketName : string := "default".

(** The float64 nearest to 1.2 and to 1. *)
Definition fanoutRecoveryMargin : float64 := S754_finite false 5404319552844595 (-52).
Definition f_one : float64 := float_of_Z 1.

Record Commission := mkCommission { cm_Satoshis : Z; cm_PubKeyHex : string }.
Definition Commission_Enabled (c : Commission) : bool := 0 <? cm_Satoshis c.

Record TaskConfig := mkTask { tc_Enabled : bool; tc_IntervalSeconds : Z; tc_StartImmediately : bool }.

Record Throughput := mkThroughput {
  ExpectedTxSizeBytes : Z;
  ExpectedOutputSatoshis : Z;
  DenominationSatoshis : Z;
  TargetTPS : Z;
  ExpectedConfirmationSeconds : Z;
  PoolHeadroomFactor : float64;
  TargetPoolSize : Z;
  LowWaterPercent : Z;
  HighWaterPercent : Z;
  SpendPolicy : string;
  PoolBasket : string;
  ReserveBasket : string;
  RecycleChangeToPool : bool;
  FanoutOutputsPerTx : Z;
  FanoutMaxTxsPerRound : Z;
  FanoutTreeDepth : Z;
  ConsolidationInputsPerTx : Z;
  TopUp : TaskConfig;
}.
Definition set_policy (p : string) (t : Throughput) : Throughput :=
  mkThroughput (ExpectedTxSizeBytes t) (ExpectedOutputSatoshis t) (DenominationSatoshis t)
    (TargetTPS t) (ExpectedConfirmationSeconds t) (PoolHeadroomFactor t) (TargetPoolSize t)
    (LowWaterPercent t) (HighWaterPercent t) p (PoolBasket t) (ReserveBasket t)
    (RecycleChangeToPool t) (FanoutOutputsPerTx t) (FanoutMaxTxsPerRound t) (FanoutTreeDepth t)
    (ConsolidationInputsPerTx t) (TopUp t).

Record UTXOManagement := mkUTXOManagement { um_Strategy : string; um_Throughput : Throughput }.
Definition Enabled (u : UTXOManagement) : bool := bool_decide (um_Strategy u = StrategyThroughput).

(** [DefaultUTXOManagement]; the headroom 1.5 is exact in float64. *)
Definition DefaultUTXOManagement : UTXOManagement :=
  mkUTXOManagement StrategyPrivacy
    (mkThroughput 668 170 0 10000 300 (S754_finite false 6755399441055744 (-52)) 0 60 100
       SpendPolicyPreferMined "fuel" "reserve" false 100 12000 2 1000 (mkTask true 10 true)).

Definition ParseUTXOManagementStrategyStr (s : string) : option string :=
  parseEnumCaseInsensitive s [StrategyPrivacy; StrategyThroughput].
Definition ParseSpendPolicyStr (s : string) : option string :=
  parseEnumCaseInsensitive s [SpendPolicyMinedOnly; SpendPolicyPreferMined; SpendPolicyAny].

Inductive config_error :=
| InvalidStrategy | InvalidSpendPolicy | BasketEmpty | BasketsEqual | BasketReserved
| DenominationZero | DenominationBelowMarginal (d floor : Z)
| TargetTPSZero | HeadroomInvalid | TargetPoolZero | WaterMarks
| TreeDepth | FanoutZero | ConsolidationZero | TopUpInterval | TopUpCapacity.

Definition validateBaskets (t : Throughput) : option config_error :=
  if decide (PoolBasket t = "" ∨ ReserveBasket t = "") then Some BasketEmpty
  else if decide (PoolBasket t = ReserveBasket t) then Some BasketsEqual
  else if decide (PoolBasket t = defaultChangeBasketName ∨ ReserveBasket t = defaultChangeBasketName)
  then Some BasketReserved else None.

Definition validateFanoutShape (t : Throughput) : option config_error :=
  if negb (FanoutTreeDepth t =? 1) && negb (FanoutTreeDepth t =? 2) then Some TreeDepth
  else if (FanoutOutputsPerTx t =? 0) || (FanoutMaxTxsPerRound t =? 0) then Some FanoutZero
  else if ConsolidationInputsPerTx t =? 0 then Some ConsolidationZero
  else None.

Definition validateTopUpCapacity (t : Throughput) : option config_error :=
  if negb (tc_Enabled (TopUp t)) then None
  else if tc_IntervalSeconds (TopUp t) =? 0 then Some TopUpInterval
  else
    let mintCapacity := fmul (float_of_Z (FanoutOutputsPerTx t)) (float_of_Z (FanoutMaxTxsPerRound t)) in
    let required := fmul (fmul (float_of_Z (TargetTPS t)) (float_of_Z (tc_IntervalSeconds (TopUp t))))
                      fanoutRecoveryMargin in
    if flt mintCapacity required then Some TopUpCapacity else None.

Section with_external.
Context `{External}.

Definition Denomination (t : Throughput) (feeModel : FeeModel) (commission : Commission) :
    outcome config_error Z :=
  if 0 <? DenominationSatoshis t then Ret (DenominationSatoshis t)
  else
    let size := if Commission_Enabled commission
                then u64 (ExpectedTxSizeBytes t + commissionOutputSizeBytes) else ExpectedTxSizeBytes t in
    let extra := if Commission_Enabled commission
                 then u64 (ExpectedOutputSatoshis t + cm_Satoshis commission)
                 else ExpectedOutputSatoshis t in
    let denomination := u64 (feeForSize size feeModel + extra) in
    if denomination =? 0 then Err DenominationZero else Ret denomination.

Definition TargetPool (t : Throughput) : Z :=
  if 0 <? TargetPoolSize t then TargetPoolSize t
  else uint64_of_float (Ceil (fmul (fmul (float_of_Z (TargetTPS t))
         (float_of_Z (ExpectedConfirmationSeconds t))) (PoolHeadroomFactor t))).

Definition validateDenomination (t : Throughput) (feeModel : FeeModel) (commission : Commission) :
    option config_error :=
  match Denomination t feeModel commission with
  | Err e => Some e
  | Ret denomination =>
      let floor := MarginalFuelInputFee feeModel in
      if denomination <=? floor then Some (DenominationBelowMarginal denomination floor) else None
  | Panic => None
  end.

(** [math.IsNaN(f) || math.IsInf(f, 0) || f < 1]. *)
Definition headroom_invalid (f : float64) : bool :=
  match f with S754_nan | S754_infinity _ => true | _ => flt f f_one end.

Definition validatePoolSizing (t : Throughput) : option config_error :=
  if TargetTPS t =? 0 then Some TargetTPSZero
  else if (TargetPoolSize t =? 0) && headroom_invalid (PoolHeadroomFactor t) then Some HeadroomInvalid
  else if TargetPool t =? 0 then Some TargetPoolZero
  else if (LowWaterPercent t =? 0) || (HighWaterPercent t <? LowWaterPercent t) ||
          (100 <? HighWaterPercent t) then Some WaterMarks
  else None.

(** [Throughput.validate] writes the canonical spend policy back. *)
Definition Throughput_validate (feeModel : FeeModel) (commission : Commission) (t : Throughput) :
    option config_error * Throughput :=
  match ParseSpendPolicyStr (SpendPolicy t) with
  | None => (Some InvalidSpendPolicy, set_policy "" t)
  | Some p =>
      let t := set_policy p t in
      match validateBaskets t with
      | Some e => (Some e, t)
      | None =>
          match validateDenomination t feeModel commission with
          | Some e => (Some e, t)
          | None =>
              match validatePoolSizing t with
              | Some e => (Some e, t)
              | None =>
                  match validateFanoutShape t with
                  | Some e => (Some e, t)
                  | None => (validateTopUpCapacity t, t)
                  end
              end
          end
      end
  end.

Definition UTXOManagement_Validate (feeModel : FeeModel) (commission : Commission)
    (u : UTXOManagement) : option config_error * UTXOManagement :=
  match ParseUTXOManagementStrategyStr (um_Strategy u) with
  | None => (Some InvalidStrategy, mkUTXOManagement "" (um_Throughput u))
  | Some st =>
      if decide (st ≠ StrategyThroughput) then (None, mkUTXOManagement st (um_Throughput u))
      else let '(e, t) := Throughput_validate feeModel commission (um_Throughput u) in
           (e, mkUTXOManagement st t)
  end.
End with_external.

(** ** Properties *)

Lemma parse_enum_in v enums e : parseEnumCaseInsensitive v enums = Some e → e ∈ enums.
Proof.
  induction enums as [|x enums IH]; simpl; [done|]. destruct (EqualFold v x).
  - intros [= <-]. by left.
  - intros ?. right. by apply IH.
Qed.

(** Which errors a computation can return. *)
Definition oerrs {E A} (P : E → Prop) (o : outcome E A) : Prop :=
  match o with Err e => P e | _ => True end.
Definition errs {S E A} (P : E → Prop) (m : M S E A) : Prop := ∀ s, oerrs P (m s).1.

Lemma oerrs_bind {E A B} (P : E → Prop) (m : outcome E A) (f : A → outcome E B) :
  oerrs P m → (∀ x, oerrs P (f x)) → oerrs P (m ≫= f).
Proof. destruct m; cbn; auto. Qed.
Lemma errs_bind {S E A B} (P : E → Prop) (m : M S E A) (f : A → M S E B) :
  errs P m → (∀ x, errs P (f x)) → errs P (m ≫= f).
Proof.
  intros Hm Hf s. specialize (Hm s). cbv [mbind M_bind].
  destruct (m s) as [[x|e|] s']; cbn in *; [apply Hf|done|done].
Qed.
Lemma errs_lift {S E A} (P : E → Prop) (o : outcome E A) : oerrs P o → errs P (lift (S := S) o).
Proof. by intros ? s. Qed.
Lemma errs_ret {S E A} (P : E → Prop) (x : A) : errs P (mret x : M S E A).
Proof. by intros s. Qed.

Section properties.
Context `{External}.

(** Errors other than the fast path's own refusal. *)
Definition not_denomination (e : fund_error) : Prop :=
  match e with DenominationTooSmall _ _ => False | _ => True end.

Lemma oerrs_sats {A} (o : Satoshi.sres A) : oerrs not_denomination (sats o).
Proof. by destruct o. Qed.
Lemma oerrs_feeres {A} (o : outcome fee_error A) : oerrs not_denomination (feeres o).
Proof. by destruct o. Qed.
Lemma errs_store_call {St A} (m : M St UtxoTypes.error A) : errs not_denomination (store_call m).
Proof. intros s. rewrite /store_call. by destruct (m s) as [[]]. Qed.

Lemma Throughput_validate_ok feeModel commission t t' :
  Throughput_validate feeModel commission t = (None, t') →
  t' = set_policy (SpendPolicy t') t ∧
  SpendPolicy t' ∈ [SpendPolicyMinedOnly; SpendPolicyPreferMined; SpendPolicyAny] ∧
  validateBaskets t' = None ∧ validateDenomination t' feeModel commission = None ∧
  validatePoolSizing t' = None ∧ validateFanoutShape t' = None ∧ validateTopUpCapacity t' = None.
Proof.
  rewrite /Throughput_validate. destruct (ParseSpendPolicyStr (SpendPolicy t)) as [p|] eqn:Hp; [|done].
  apply parse_enum_in in Hp.
  destruct (validateBaskets _) eqn:?; [done|]. destruct (validateDenomination _ _ _) eqn:?; [done|].
  destruct (validatePoolSizing _) eqn:?; [done|]. destruct (validateFanoutShape _) eqn:?; [done|].
  intros [= ? <-]. by split_and!.
Qed.

Ltac no_denomination :=
  repeat first
    [ apply oerrs_bind; [|intros ?] | apply errs_bind; [|intros ?] | apply errs_lift
    | apply oerrs_sats | apply oerrs_feeres | apply errs_store_call | apply errs_ret
    | exact I | progress case_match | progress cbn [oerrs] ].

Lemma allocateUTXO_errs u c : oerrs not_denomination (allocateUTXO u c).
Proof.
  rewrite /allocateUTXO /calculateChangeOutputs /increaseSize /calculateChangeCount
    /change /satsToCover. no_denomination.
Qed.

Lemma allocate_until_funded_errs us c : oerrs not_denomination (allocate_until_funded us c).
Proof.
  revert c. induction us as [|u us IH]; intros c; [done|]. cbn [allocate_until_funded].
  apply oerrs_bind; [rewrite /isFunded /change /satsToCover; no_denomination|].
  intros []; [done|]. apply oerrs_bind; [apply allocateUTXO_errs|auto].
Qed.

Lemma claim_exact_tiers_errs `{FundingStore St} args tiers need :
  errs not_denomination (claim_exact_tiers (St := St) args tiers need).
Proof.
  revert need. induction tiers as [|t tiers IH]; intros need; cbn [claim_exact_tiers];
    no_denomination. apply IH.
Qed.

Lemma claimExactFastPath_errs `{FundingStore St} feeModel fc args c :
  MarginalFuelInputFee feeModel < fa_Denomination args →
  errs not_denomination (claimExactFastPath (St := St) feeModel fc args c).
Proof.
  intros Hd. rewrite /claimExactFastPath /releaseOutpoints.
  rewrite (proj2 (Z.leb_gt _ _) Hd). no_denomination; auto using claim_exact_tiers_errs,
    allocate_until_funded_errs.
Qed.

(** A validated throughput configuration is usable by the funder: its resolved
    denomination exceeds the marginal input fee, so the exact-claim fast path is
    never refused for it; its spend policy is one of the three defined ones; its
    two baskets are named, distinct and not the change basket; its pool target is
    not zero and its water marks are ordered. *)
Theorem validated_throughput_usable feeModel commission t t' :
  Throughput_validate feeModel commission t = (None, t') →
  ∃ d, Denomination t' feeModel commission = Ret d ∧ MarginalFuelInputFee feeModel < d ∧
    (∀ St (F : FundingStore St) fc args c s, fa_Denomination args = d →
       ∀ d' m, (claimExactFastPath (St := St) feeModel fc args c s).1 ≠ Err (DenominationTooSmall d' m)) ∧
    SpendPolicy t' ∈ [SpendPolicyMinedOnly; SpendPolicyPreferMined; SpendPolicyAny] ∧
    NoDup ["" : string; PoolBasket t'; ReserveBasket t'; defaultChangeBasketName] ∧
    TargetPool t' ≠ 0 ∧ LowWaterPercent t' ≠ 0 ∧ LowWaterPercent t' ≤ HighWaterPercent t' ≤ 100.
Proof.
  intros (_&Hpol&Hbas&Hden&Hpool&_&_)%Throughput_validate_ok.
  rewrite /validateDenomination in Hden.
  destruct (Denomination t' feeModel commission) as [d| |] eqn:Hd; [|done|].
  2:{ exfalso. revert Hd. rewrite /Denomination. by repeat case_match. }
  destruct (Z.leb_spec d (MarginalFuelInputFee feeModel)) as [?|Hlt]; [done|]. exists d.
  split; [done|]. split; [done|]. split.
  { intros St F fc args c s <- d' m He.
    pose proof (claimExactFastPath_errs feeModel fc args c Hlt s) as Hs. by rewrite He in Hs. }
  split; [done|]. split.
  { revert Hbas. rewrite /validateBaskets /defaultChangeBasketName. repeat case_decide; [done..|].
    intros _. rewrite !NoDup_cons !elem_of_cons. split_and!; try apply NoDup_nil_2;
      rewrite ?elem_of_nil; intuition congruence. }
  revert Hpool. rewrite /validatePoolSizing. repeat case_match; [done..|]. intros _.
  repeat match goal with Ho : _ || _ = false |- _ => apply orb_false_iff in Ho as [? ?] end.
  lia.
Qed.
End properties.

(** The default throughput parameters at the default fee rate. *)
Lemma validated_throughput_usable_witness :
  let _ := external_std in
  let t := um_Throughput DefaultUTXOManagement in
  let com := mkCommission 0 "" in
  Throughput_validate DefaultFeeModel com t = (None, t) ∧
  Denomination t DefaultFeeModel com = Ret 237 ∧
  TargetPool t = 4500000 ∧
  ∃ d, Denomination t DefaultFeeModel com = Ret d ∧ MarginalFuelInputFee DefaultFeeModel < d.
Proof.
  split_and!; [vm_compute; reflexivity..|].
  destruct (@validated_throughput_usable external_std DefaultFeeModel (mkCommission 0 "")
    (um_Throughput DefaultUTXOManagement) (um_Throughput DefaultUTXOManagement))
    as (d&?&?&_); [vm_compute; reflexivity|]. by exists d.
Defined.
End Config.
