(* ===== verification/Lease.v ===== *)
(** * Lease: the monitor's distributed job lease

    [LeaseRepo] of [pkg/storage/internal/metastore/monitor.go], the provider calls on
    top of it and [LeaseLocker] of [pkg/monitor/lease_locker.go].

    Acquiring a lease is two SQL statements outside a transaction, so instances
    interleave between them: [step] is the step relation of any number of instances
    on one lock table, with the statements as its steps.  Instances read their own
    clocks, which may lag behind the real time or run ahead of it by at most [skew]. *)
From Stdlib Require Import String.
From S2P Require Import Prelude.
Local Open Scope string_scope.
Local Open Scope Z_scope.

Module Lease.

(** A row of monitor_job_locks; its key is the job name. *)
Record lease := mkLease { l_owner : string; l_until : Z }.
Abbreviation locks := (gmap string lease).

Inductive lease_error := ErrHeldByAnotherInstance (key : string).
Abbreviation LM := (M locks lease_error).

(** ** Statements *)

(** [INSERT ... ON CONFLICT DO NOTHING]. *)
Definition ensure_row (job owner : string) (leaseUntil : Z) : LM () :=
  modify (λ t, match t !! job with Some _ => t | None => <[job := mkLease owner leaseUntil]> t end).

(** The guarded UPDATE; the result is its row count. *)
Definition claim_row (job owner : string) (leaseUntil now : Z) : LM Z := λ t,
  match t !! job with
  | Some l =>
      if bool_decide (l_owner l = owner) || (l_until l <? now)
      then (Ret 1, <[job := mkLease owner leaseUntil]> t) else (Ret 0, t)
  | None => (Ret 0, t)
  end.

Definition expire_row (job owner : string) (now : Z) (t : locks) : locks :=
  match t !! job with
  | Some l => if bool_decide (l_owner l = owner) then <[job := mkLease owner now]> t else t
  | None => t
  end.

(** ** The repository, the provider and the locker *)

Definition Acquire (job owner : string) (leaseUntil now : Z) : LM bool :=
  _ ← ensure_row job owner leaseUntil;
  n ← claim_row job owner leaseUntil now;
  mret (0 <? n).

Definition Release (job owner : string) (now : Z) : LM () := modify (expire_row job owner now).

(** [now] is the reading of the instance's clock, in nanoseconds. *)
Definition lease_end (now ttl : Z) : Z := i64 (now + ttl).
Definition AcquireLease (now : Z) (job owner : string) (ttl : Z) : LM bool :=
  Acquire job owner (lease_end now ttl) now.
Definition ReleaseLease (now : Z) (job owner : string) : LM () := Release job owner now.

(** Ten minutes. *)
Definition defaultLeaseTTL : Z := 10 * 60 * 1000000000.

Record LeaseLocker := mkLocker { ll_owner : string; ll_ttls : gmap string Z }.
Definition NewLeaseLocker (owner : string) : LeaseLocker := mkLocker owner ∅.
Definition SetLeaseTTL (jobName : string) (ttl : Z) (l : LeaseLocker) : LeaseLocker :=
  mkLocker (ll_owner l) (<[jobName := ttl]> (ll_ttls l)).
Definition ttlFor (jobName : string) (l : LeaseLocker) : Z :=
  match ll_ttls l !! jobName with
  | Some ttl => if 0 <? ttl then ttl else defaultLeaseTTL
  | None => defaultLeaseTTL
  end.

Record leaseHandle := mkHandle { lh_locker : LeaseLocker; lh_key : string }.
Definition Lock (now : Z) (key : string) (l : LeaseLocker) : LM leaseHandle :=
  AcquireLease now key (ll_owner l) (ttlFor key l) ≫= λ acquired : bool,
  if acquired then mret (mkHandle l key) else throw (ErrHeldByAnotherInstance key).
Definition Unlock (now : Z) (h : leaseHandle) : LM () :=
  ReleaseLease now (lh_key h) (ll_owner (lh_locker h)).

(** ** Instances sharing the table *)

(** [s_pending]: the calls between their two statements, with the end of the lease
    and the clock reading they carry; [s_held]: the leases instances have been told
    they hold, and until when. *)
Record Sys := mkSys {
  s_clock : Z;
  s_locks : locks;
  s_pending : gmap (string * string) (Z * Z);
  s_held : gmap (string * string) Z;
}.

Definition begin_acquire (job owner : string) (now ttl : Z) (s : Sys) : Sys :=
  mkSys (s_clock s) (ensure_row job owner (lease_end now ttl) (s_locks s)).2
    (<[(job, owner) := (lease_end now ttl, now)]> (s_pending s)) (s_held s).
Definition end_acquire (job owner : string) (until now : Z) (s : Sys) : Sys :=
  let r := claim_row job owner until now (s_locks s) in
  mkSys (s_clock s) r.2 (delete (job, owner) (s_pending s))
    (match r.1 with
     | Ret n => if 0 <? n then <[(job, owner) := until]> (s_held s) else s_held s
     | _ => s_held s
     end).
Definition release_lease (job owner : string) (now : Z) (s : Sys) : Sys :=
  mkSys (s_clock s) (ReleaseLease now job owner (s_locks s)).2 (s_pending s)
    (delete (job, owner) (s_held s)).

Definition advance (d : Z) (s : Sys) : Sys :=
  mkSys (s_clock s + d) (s_locks s) (s_pending s) (s_held s).

Inductive step (skew : Z) : Sys → Sys → Prop :=
| step_tick s d : 0 ≤ d →
    step skew s (advance d s)
| step_begin s job owner now ttl :
    now ≤ s_clock s + skew → s_pending s !! (job, owner) = None →
    step skew s (begin_acquire job owner now ttl s)
| step_end s job owner until now :
    s_pending s !! (job, owner) = Some (until, now) →
    step skew s (end_acquire job owner until now s)
| step_release s job owner now :
    now ≤ s_clock s + skew → step skew s (release_lease job owner now s).

(** Instances start at any time over whatever rows an earlier deployment left. *)
Definition initial (s : Sys) : Prop := s_pending s = ∅ ∧ s_held s = ∅.
Definition reachable (skew : Z) (s : Sys) : Prop := ∃ s0, initial s0 ∧ rtc (step skew) s0 s.

(** [owner] has been told it holds [job], and the lease is not over yet. *)
Definition holds (skew : Z) (s : Sys) (job owner : string) : Prop :=
  ∃ u, s_held s !! (job, owner) = Some u ∧ s_clock s + skew ≤ u.

(** ** Invariant *)

(** A clock reading in flight is not ahead of the clock, and a lease that is held is
    the row of its job. *)
Definition lease_inv (skew : Z) (s : Sys) : Prop :=
  (∀ job owner until now, s_pending s !! (job, owner) = Some (until, now) → now ≤ s_clock s + skew) ∧
  (∀ job owner u, s_held s !! (job, owner) = Some u → s_clock s + skew ≤ u →
     s_locks s !! job = Some (mkLease owner u)).

Lemma begin_inv skew s job owner now ttl :
  now ≤ s_clock s + skew → lease_inv skew s → lease_inv skew (begin_acquire job owner now ttl s).
Proof.
  intros Hnow [Hp Hh]. split; simpl.
  - intros j o u n [[[= <- <-] [= <- <-]]|[_ ?]]%lookup_insert_Some; eauto.
  - intros j o u Hu Hc. pose proof (Hh j o u Hu Hc) as Hl.
    destruct (s_locks s !! job) eqn:Hj; [done|].
    rewrite lookup_insert_ne; [done|]. intros ->. congruence.
Qed.

(** A claim that goes through finds no other instance's running lease. *)
Lemma end_inv skew s job owner until now :
  s_pending s !! (job, owner) = Some (until, now) →
  lease_inv skew s → lease_inv skew (end_acquire job owner until now s).
Proof.
  intros Hpd [Hp Hh]. pose proof (Hp _ _ _ _ Hpd) as Hnow. split; simpl.
  { intros j o u n [_ ?]%lookup_delete_Some. eauto. }
  rewrite /claim_row. destruct (s_locks s !! job) as [l|] eqn:Hj; [|simpl; eauto].
  destruct (_ || _) eqn:Hg; simpl; [|eauto].
  intros j o u [[[= <- <-] <-]|[Hne Hu]]%lookup_insert_Some Hc; [by rewrite lookup_insert_eq|].
  pose proof (Hh j o u Hu Hc) as Hl. destruct (decide (j = job)) as [->|]; [|by rewrite lookup_insert_ne].
  rewrite Hj in Hl. injection Hl as ->. simpl in Hg.
  apply orb_true_iff in Hg as [Ho%bool_decide_eq_true|Hg]; [congruence|lia].
Qed.

Lemma release_inv skew s job owner now :
  lease_inv skew s → lease_inv skew (release_lease job owner now s).
Proof.
  intros [Hp Hh]. split; simpl; [done|].
  intros j o u [Hne Hu]%lookup_delete_Some Hc. pose proof (Hh j o u Hu Hc) as Hl.
  rewrite /expire_row. destruct (s_locks s !! job) as [l|] eqn:Hj; [|done].
  case_bool_decide as Ho; [|done]. destruct (decide (j = job)) as [->|]; [|by rewrite lookup_insert_ne].
  rewrite Hj in Hl. injection Hl as ->. simpl in *. congruence.
Qed.

Lemma lease_step_inv skew s s' : step skew s s' → lease_inv skew s → lease_inv skew s'.
Proof.
  destruct 1; [|by apply begin_inv|by apply end_inv|by apply release_inv].
  intros [Hp Hh]. split; simpl; intros.
  - etrans; [by eapply Hp|lia].
  - apply Hh; [done|lia].
Qed.

Lemma reachable_inv skew s : reachable skew s → lease_inv skew s.
Proof.
  intros (s0&[Hp Hh]&Hrun). assert (lease_inv skew s0) as H0.
  { split; intros *; rewrite ?Hp ?Hh lookup_empty; done. }
  clear Hp Hh. induction Hrun; eauto using lease_step_inv.
Qed.

(** The answer of Acquire: yes if the job has no row, the caller's own row, or a row
    that ran out before [now]. *)
Definition free_for (job owner : string) (now : Z) (t : locks) : bool :=
  match t !! job with
  | Some l => bool_decide (l_owner l = owner) || (l_until l <? now)
  | None => true
  end.

Lemma Acquire_spec job owner leaseUntil now t :
  Acquire job owner leaseUntil now t =
    if free_for job owner now t then (Ret true, <[job := mkLease owner leaseUntil]> t)
    else (Ret false, t).
Proof.
  rewrite /Acquire /free_for /mbind /M_bind /ensure_row /modify /claim_row.
  destruct (t !! job) as [l|] eqn:Hj; simpl.
  - rewrite Hj. by destruct (_ || _).
  - rewrite lookup_insert_eq /= bool_decide_eq_true_2 //= insert_insert_eq. done.
Qed.

(** Three instances: "a" crashes between its statements, "b" takes the job over when
    the row of "a" has lapsed, and "c" finds it taken. *)
Definition sys0 : Sys := mkSys 0 ∅ ∅ ∅.
Definition lease_run : Sys :=
  end_acquire "send" "c" 190 90 (begin_acquire "send" "c" 90 100 (advance 40
    (end_acquire "send" "b" 150 50 (begin_acquire "send" "b" 50 100 (advance 50
      (begin_acquire "send" "a" 0 10 sys0)))))).

(** C32: the lease is exclusive and recoverable.  However the statements of any
    number of instances interleave, in no reachable state do two instances hold a
    running lease of the same job, given clocks at most [skew] ahead; an acquisition
    is granted exactly when the job has no row, the caller's own row or a lapsed one,
    so that a crashed owner's lease is reclaimed; and while a lease runs every other
    instance is refused. *)
Theorem lease_exclusive skew s job :
  reachable skew s →
  (∀ o1 o2, holds skew s job o1 → holds skew s job o2 → o1 = o2) ∧
  (∀ o now ttl, (AcquireLease now job o ttl (s_locks s)).1 =
     Ret (match s_locks s !! job with
          | None => true
          | Some l => bool_decide (l_owner l = o ∨ l_until l < now)
          end)) ∧
  (∀ o1 o now ttl, holds skew s job o1 → o ≠ o1 → now ≤ s_clock s + skew →
     AcquireLease now job o ttl (s_locks s) = (Ret false, s_locks s)).
Proof.
  intros [_ Hh]%reachable_inv. split_and!.
  - intros o1 o2 (u1&Hu1&Hc1) (u2&Hu2&Hc2).
    pose proof (Hh _ _ _ Hu1 Hc1). pose proof (Hh _ _ _ Hu2 Hc2). congruence.
  - intros. rewrite /AcquireLease Acquire_spec /free_for.
    destruct (s_locks s !! job) as [l|]; [|done]. repeat case_bool_decide; simpl; try (exfalso; tauto);
      destruct (Z.ltb_spec (l_until l) now); simpl; (done || exfalso; intuition lia).
  - intros o1 o now ttl (u&Hu&Hc) Ho Hnow. pose proof (Hh _ _ _ Hu Hc) as Hl.
    rewrite /AcquireLease Acquire_spec /free_for Hl /= bool_decide_eq_false_2 //=.
    by rewrite (proj2 (Z.ltb_ge _ _)); [|lia].
Qed.
Lemma lease_exclusive_witness :
  holds 0 lease_run "send" "b" ∧
  AcquireLease 90 "send" "c" 5 (s_locks lease_run) = (Ret false, s_locks lease_run).
Proof.
  assert (Hb : holds 0 lease_run "send" "b").
  { exists 150. split; [vm_compute; reflexivity|vm_compute; discriminate]. }
  split; [exact Hb|].
  apply (lease_exclusive 0 lease_run "send") with (o1 := "b"); [|exact Hb|done|vm_compute; discriminate].
  exists sys0. split; [done|].
  eapply rtc_l; [apply (step_begin 0 _ "send" "a" 0 10); done|].
  eapply rtc_l; [apply (step_tick 0 _ 50); done|].
  eapply rtc_l; [apply (step_begin 0 _ "send" "b" 50 100); done|].
  eapply rtc_l; [apply (step_end 0 _ "send" "b" 150 50); done|].
  eapply rtc_l; [apply (step_tick 0 _ 40); done|].
  eapply rtc_l; [apply (step_begin 0 _ "send" "c" 90 100); done|].
  eapply rtc_l; [apply (step_end 0 _ "send" "c" 190 90); done|]. constructor.
Defined.
End Lease.
