(* ===== verification/KnownTx.v ===== *)
(** * KnownTx: the known-transactions table and its repository

    [pkg/storage/internal/metastore]: the codec of transaction ids ([codec.go],
    [lockorder.go]), the known_txs row, and the methods of [KnownTxRepo]
    ([knowntx.go] and the known-transaction part of [monitor.go]).

    A table is a finite map from its primary key to the row; an UPDATE statement is
    the change of the rows its WHERE clause selects, and every method is one
    statement (or one followed by a read), so it is one function on the table.
    [now] is the method's single reading of the store clock.  A NULL byte column is
    the empty byte string, as [bytesArg] and the scan make it.  Faults of the
    database itself are not modelled. *)
From Stdlib Require Import Ascii String.
From S2P Require Import Prelude UtxoTypes Statuses.
Import WdkStatus ArcadeStatus.
Local Open Scope string_scope.
Local Open Scope Z_scope.

Module KnownTxRepo.

(** ** Transaction ids *)

Abbreviation Bytes := (list ascii).
(** The raw bytes of a txid column, kept as a string so that they can be a key. *)
Abbreviation Raw := string (only parsing).

Inductive meta_error :=
| ErrNotFound
| ErrStatusUpdateSkipped
| ErrTxIDMismatch
| ErrOutputBasketMismatch
| ErrDecode (e : hex_error)
| ConstraintViolation (constraint : string)
| errClosed.

Definition encTxID (txid : string) : outcome meta_error Raw :=
  match DecodeString (list_ascii_of_string txid) with
  | inl b => Ret (string_of_list_ascii b)
  | inr e => Err (ErrDecode e)
  end.

(** [None] is the nil pointer. *)
Definition decTxIDPtr (b : Raw) : option string :=
  if decide (b = "") then None
  else Some (string_of_list_ascii (EncodeToString (list_ascii_of_string b))).

(** [bytes.Compare], and [a < b] on Go strings. *)
Definition bytes_Compare (a b : Raw) : comparison := String.compare a b.

Definition LessTxID (a b : string) : bool :=
  match encTxID a, encTxID b with
  | Ret ra, Ret rb => bool_decide (bytes_Compare ra rb = Lt)
  | _, _ => bool_decide (String.compare a b = Lt)
  end.

(** Dropping duplicate txids, keeping the first of each. *)
Fixpoint dedup_from (seen : gset string) (txids : list string) : list string :=
  match txids with
  | [] => []
  | t :: ts => if decide (t ∈ seen) then dedup_from seen ts else t :: dedup_from ({[t]} ∪ seen) ts
  end.
Fixpoint encode_all (txids : list string) : outcome meta_error (list Raw) :=
  match txids with
  | [] => Ret []
  | t :: ts => raw ← encTxID t; raws ← encode_all ts; Ret (raw :: raws)
  end.
Definition sortedRawTxIDs (txids : list string) : outcome meta_error (list Raw) :=
  raws ← encode_all (dedup_from ∅ txids); Ret (SortFunc bytes_Compare raws).

(** ** Statuses of the table that the wdk enum does not have *)

Definition KnownTxStatusSuspectFailed : ProvenTxReqStatus := "suspectFailed".
Definition KnownTxStatusStuck : ProvenTxReqStatus := "stuck".
Definition KnownTxStatusAborted : ProvenTxReqStatus := "aborted".

Definition knownTxPreBroadcastStatuses : list ProvenTxReqStatus :=
  [ProvenTxStatusUnsent; ProvenTxStatusUnprocessed; ProvenTxStatusNoSend].
Definition KnownTxNeverRequeueStatuses : list ProvenTxReqStatus :=
  ProvenTxReqBeyondBroadcastStageStatuses ++
  [KnownTxStatusAborted; KnownTxStatusSuspectFailed; KnownTxStatusStuck; ProvenTxStatusInvalid;
   ProvenTxStatusDoubleSpend; ProvenTxStatusSending].

(** The default of the last_polled_at column. *)
Definition epoch : Time := 62135596800000000000.

(** ** The row

    [kt_LastPolledAt] is the column the Go struct does not carry. *)
Record KnownTx := mkKnownTx {
  kt_TxID : string;
  kt_Status : ProvenTxReqStatus;
  kt_ArcadeStatus : option string;
  kt_Attempts : Z;
  kt_RebroadcastAttempts : Z;
  kt_WasBroadcast : bool;
  kt_Notified : bool;
  kt_Batch : option string;
  kt_Notify : string;
  kt_RawTx : Bytes;
  kt_InputBEEF : Bytes;
  kt_BlockHeight : option Z;
  kt_BlockHash : Bytes;
  kt_MerklePath : Bytes;
  kt_MerkleRoot : Bytes;
  kt_CompetingTxs : list string;
  kt_SuspectSince : option Time;
  kt_VerifiedRejectedAt : option Time;
  kt_RejectReason : option string;
  kt_CreatedAt : Time;
  kt_UpdatedAt : Time;
  kt_LastPolledAt : Time;
}.
Definition set_kt_TxID (v : string) (r : KnownTx) : KnownTx :=
  mkKnownTx v (kt_Status r) (kt_ArcadeStatus r) (kt_Attempts r) (kt_RebroadcastAttempts r)
    (kt_WasBroadcast r) (kt_Notified r) (kt_Batch r) (kt_Notify r) (kt_RawTx r) (kt_InputBEEF r)
    (kt_BlockHeight r) (kt_BlockHash r) (kt_MerklePath r) (kt_MerkleRoot r) (kt_CompetingTxs r)
    (kt_SuspectSince r) (kt_VerifiedRejectedAt r) (kt_RejectReason r) (kt_CreatedAt r)
    (kt_UpdatedAt r) (kt_LastPolledAt r).
Definition set_kt_Status (v : ProvenTxReqStatus) (r : KnownTx) : KnownTx :=
  mkKnownTx (kt_TxID r) v (kt_ArcadeStatus r) (kt_Attempts r) (kt_RebroadcastAttempts r)
    (kt_WasBroadcast r) (kt_Notified r) (kt_Batch r) (kt_Notify r) (kt_RawTx r) (kt_InputBEEF r)
    (kt_BlockHeight r) (kt_BlockHash r) (kt_MerklePath r) (kt_MerkleRoot r) (kt_CompetingTxs r)
    (kt_SuspectSince r) (kt_VerifiedRejectedAt r) (kt_RejectReason r) (kt_CreatedAt r)
    (kt_UpdatedAt r) (kt_LastPolledAt r).
Definition set_kt_ArcadeStatus (v : option string) (r : KnownTx) : KnownTx :=
  mkKnownTx (kt_TxID r) (kt_Status r) v (kt_Attempts r) (kt_RebroadcastAttempts r)
    (kt_WasBroadcast r) (kt_Notified r) (kt_Batch r) (kt_Notify r) (kt_RawTx r) (kt_InputBEEF r)
    (kt_BlockHeight r) (kt_BlockHash r) (kt_MerklePath r) (kt_MerkleRoot r) (kt_CompetingTxs r)
    (kt_SuspectSince r) (kt_VerifiedRejectedAt r) (kt_RejectReason r) (kt_CreatedAt r)
    (kt_UpdatedAt r) (kt_LastPolledAt r).
Definition set_kt_Attempts (v : Z) (r : KnownTx) : KnownTx :=
  mkKnownTx (kt_TxID r) (kt_Status r) (kt_ArcadeStatus r) v (kt_RebroadcastAttempts r)
    (kt_WasBroadcast r) (kt_Notified r) (kt_Batch r) (kt_Notify r) (kt_RawTx r) (kt_InputBEEF r)
    (kt_BlockHeight r) (kt_BlockHash r) (kt_MerklePath r) (kt_MerkleRoot r) (kt_CompetingTxs r)
    (kt_SuspectSince r) (kt_VerifiedRejectedAt r) (kt_RejectReason r) (kt_CreatedAt r)
    (kt_UpdatedAt r) (kt_LastPolledAt r).
Definition set_kt_RebroadcastAttempts (v : Z) (r : KnownTx) : KnownTx :=
  mkKnownTx (kt_TxID r) (kt_Status r) (kt_ArcadeStatus r) (kt_Attempts r) v (kt_WasBroadcast r)
    (kt_Notified r) (kt_Batch r) (kt_Notify r) (kt_RawTx r) (kt_InputBEEF r) (kt_BlockHeight r)
    (kt_BlockHash r) (kt_MerklePath r) (kt_MerkleRoot r) (kt_CompetingTxs r) (kt_SuspectSince r)
    (kt_VerifiedRejectedAt r) (kt_RejectReason r) (kt_CreatedAt r) (kt_UpdatedAt r)
    (kt_LastPolledAt r).
Definition set_kt_WasBroadcast (v : bool) (r : KnownTx) : KnownTx :=
  mkKnownTx (kt_TxID r) (kt_Status r) (kt_ArcadeStatus r) (kt_Attempts r)
    (kt_RebroadcastAttempts r) v (kt_Notified r) (kt_Batch r) (kt_Notify r) (kt_RawTx r)
    (kt_InputBEEF r) (kt_BlockHeight r) (kt_BlockHash r) (kt_MerklePath r) (kt_MerkleRoot r)
    (kt_CompetingTxs r) (kt_SuspectSince r) (kt_VerifiedRejectedAt r) (kt_RejectReason r)
    (kt_CreatedAt r) (kt_UpdatedAt r) (kt_LastPolledAt r).
Definition set_kt_Notified (v : bool) (r : KnownTx) : KnownTx :=
  mkKnownTx (kt_TxID r) (kt_Status r) (kt_ArcadeStatus r) (kt_Attempts r)
    (kt_RebroadcastAttempts r) (kt_WasBroadcast r) v (kt_Batch r) (kt_Notify r) (kt_RawTx r)
    (kt_InputBEEF r) (kt_BlockHeight r) (kt_BlockHash r) (kt_MerklePath r) (kt_MerkleRoot r)
    (kt_CompetingTxs r) (kt_SuspectSince r) (kt_VerifiedRejectedAt r) (kt_RejectReason r)
    (kt_CreatedAt r) (kt_UpdatedAt r) (kt_LastPolledAt r).
Definition set_kt_Batch (v : option string) (r : KnownTx) : KnownTx :=
  mkKnownTx (kt_TxID r) (kt_Status r) (kt_ArcadeStatus r) (kt_Attempts r)
    (kt_RebroadcastAttempts r) (kt_WasBroadcast r) (kt_Notified r) v (kt_Notify r) (kt_RawTx r)
    (kt_InputBEEF r) (kt_BlockHeight r) (kt_BlockHash r) (kt_MerklePath r) (kt_MerkleRoot r)
    (kt_CompetingTxs r) (kt_SuspectSince r) (kt_VerifiedRejectedAt r) (kt_RejectReason r)
    (kt_CreatedAt r) (kt_UpdatedAt r) (kt_LastPolledAt r).
Definition set_kt_Notify (v : string) (r : KnownTx) : KnownTx :=
  mkKnownTx (kt_TxID r) (kt_Status r) (kt_ArcadeStatus r) (kt_Attempts r)
    (kt_RebroadcastAttempts r) (kt_WasBroadcast r) (kt_Notified r) (kt_Batch r) v (kt_RawTx r)
    (kt_InputBEEF r) (kt_BlockHeight r) (kt_BlockHash r) (kt_MerklePath r) (kt_MerkleRoot r)
    (kt_CompetingTxs r) (kt_SuspectSince r) (kt_VerifiedRejectedAt r) (kt_RejectReason r)
    (kt_CreatedAt r) (kt_UpdatedAt r) (kt_LastPolledAt r).
Definition set_kt_RawTx (v : Bytes) (r : KnownTx) : KnownTx :=
  mkKnownTx (kt_TxID r) (kt_Status r) (kt_ArcadeStatus r) (kt_Attempts r)
    (kt_RebroadcastAttempts r) (kt_WasBroadcast r) (kt_Notified r) (kt_Batch r) (kt_Notify r) v
    (kt_InputBEEF r) (kt_BlockHeight r) (kt_BlockHash r) (kt_MerklePath r) (kt_MerkleRoot r)
    (kt_CompetingTxs r) (kt_SuspectSince r) (kt_VerifiedRejectedAt r) (kt_RejectReason r)
    (kt_CreatedAt r) (kt_UpdatedAt r) (kt_LastPolledAt r).
Definition set_kt_InputBEEF (v : Bytes) (r : KnownTx) : KnownTx :=
  mkKnownTx (kt_TxID r) (kt_Status r) (kt_ArcadeStatus r) (kt_Attempts r)
    (kt_RebroadcastAttempts r) (kt_WasBroadcast r) (kt_Notified r) (kt_Batch r) (kt_Notify r)
    (kt_RawTx r) v (kt_BlockHeight r) (kt_BlockHash r) (kt_MerklePath r) (kt_MerkleRoot r)
    (kt_CompetingTxs r) (kt_SuspectSince r) (kt_VerifiedRejectedAt r) (kt_RejectReason r)
    (kt_CreatedAt r) (kt_UpdatedAt r) (kt_LastPolledAt r).
Definition set_kt_BlockHeight (v : option Z) (r : KnownTx) : KnownTx :=
  mkKnownTx (kt_TxID r) (kt_Status r) (kt_ArcadeStatus r) (kt_Attempts r)
    (kt_RebroadcastAttempts r) (kt_WasBroadcast r) (kt_Notified r) (kt_Batch r) (kt_Notify r)
    (kt_RawTx r) (kt_InputBEEF r) v (kt_BlockHash r) (kt_MerklePath r) (kt_MerkleRoot r)
    (kt_CompetingTxs r) (kt_SuspectSince r) (kt_VerifiedRejectedAt r) (kt_RejectReason r)
    (kt_CreatedAt r) (kt_UpdatedAt r) (kt_LastPolledAt r).
Definition set_kt_BlockHash (v : Bytes) (r : KnownTx) : KnownTx :=
  mkKnownTx (kt_TxID r) (kt_Status r) (kt_ArcadeStatus r) (kt_Attempts r)
    (kt_RebroadcastAttempts r) (kt_WasBroadcast r) (kt_Notified r) (kt_Batch r) (kt_Notify r)
    (kt_RawTx r) (kt_InputBEEF r) (kt_BlockHeight r) v (kt_MerklePath r) (kt_MerkleRoot r)
    (kt_CompetingTxs r) (kt_SuspectSince r) (kt_VerifiedRejectedAt r) (kt_RejectReason r)
    (kt_CreatedAt r) (kt_UpdatedAt r) (kt_LastPolledAt r).
Definition set_kt_MerklePath (v : Bytes) (r : KnownTx) : KnownTx :=
  mkKnownTx (kt_TxID r) (kt_Status r) (kt_ArcadeStatus r) (kt_Attempts r)
    (kt_RebroadcastAttempts r) (kt_WasBroadcast r) (kt_Notified r) (kt_Batch r) (kt_Notify r)
    (kt_RawTx r) (kt_InputBEEF r) (kt_BlockHeight r) (kt_BlockHash r) v (kt_MerkleRoot r)
    (kt_CompetingTxs r) (kt_SuspectSince r) (kt_VerifiedRejectedAt r) (kt_RejectReason r)
    (kt_CreatedAt r) (kt_UpdatedAt r) (kt_LastPolledAt r).
Definition set_kt_MerkleRoot (v : Bytes) (r : KnownTx) : KnownTx :=
  mkKnownTx (kt_TxID r) (kt_Status r) (kt_ArcadeStatus r) (kt_Attempts r)
    (kt_RebroadcastAttempts r) (kt_WasBroadcast r) (kt_Notified r) (kt_Batch r) (kt_Notify r)
    (kt_RawTx r) (kt_InputBEEF r) (kt_BlockHeight r) (kt_BlockHash r) (kt_MerklePath r) v
    (kt_CompetingTxs r) (kt_SuspectSince r) (kt_VerifiedRejectedAt r) (kt_RejectReason r)
    (kt_CreatedAt r) (kt_UpdatedAt r) (kt_LastPolledAt r).
Definition set_kt_CompetingTxs (v : list string) (r : KnownTx) : KnownTx :=
  mkKnownTx (kt_TxID r) (kt_Status r) (kt_ArcadeStatus r) (kt_Attempts r)
    (kt_RebroadcastAttempts r) (kt_WasBroadcast r) (kt_Notified r) (kt_Batch r) (kt_Notify r)
    (kt_RawTx r) (kt_InputBEEF r) (kt_BlockHeight r) (kt_BlockHash r) (kt_MerklePath r)
    (kt_MerkleRoot r) v (kt_SuspectSince r) (kt_VerifiedRejectedAt r) (kt_RejectReason r)
    (kt_CreatedAt r) (kt_UpdatedAt r) (kt_LastPolledAt r).
Definition set_kt_SuspectSince (v : option Time) (r : KnownTx) : KnownTx :=
  mkKnownTx (kt_TxID r) (kt_Status r) (kt_ArcadeStatus r) (kt_Attempts r)
    (kt_RebroadcastAttempts r) (kt_WasBroadcast r) (kt_Notified r) (kt_Batch r) (kt_Notify r)
    (kt_RawTx r) (kt_InputBEEF r) (kt_BlockHeight r) (kt_BlockHash r) (kt_MerklePath r)
    (kt_MerkleRoot r) (kt_CompetingTxs r) v (kt_VerifiedRejectedAt r) (kt_RejectReason r)
    (kt_CreatedAt r) (kt_UpdatedAt r) (kt_LastPolledAt r).
Definition set_kt_VerifiedRejectedAt (v : option Time) (r : KnownTx) : KnownTx :=
  mkKnownTx (kt_TxID r) (kt_Status r) (kt_ArcadeStatus r) (kt_Attempts r)
    (kt_RebroadcastAttempts r) (kt_WasBroadcast r) (kt_Notified r) (kt_Batch r) (kt_Notify r)
    (kt_RawTx r) (kt_InputBEEF r) (kt_BlockHeight r) (kt_BlockHash r) (kt_MerklePath r)
    (kt_MerkleRoot r) (kt_CompetingTxs r) (kt_SuspectSince r) v (kt_RejectReason r)
    (kt_CreatedAt r) (kt_UpdatedAt r) (kt_LastPolledAt r).
Definition set_kt_RejectReason (v : option string) (r : KnownTx) : KnownTx :=
  mkKnownTx (kt_TxID r) (kt_Status r) (kt_ArcadeStatus r) (kt_Attempts r)
    (kt_RebroadcastAttempts r) (kt_WasBroadcast r) (kt_Notified r) (kt_Batch r) (kt_Notify r)
    (kt_RawTx r) (kt_InputBEEF r) (kt_BlockHeight r) (kt_BlockHash r) (kt_MerklePath r)
    (kt_MerkleRoot r) (kt_CompetingTxs r) (kt_SuspectSince r) (kt_VerifiedRejectedAt r) v
    (kt_CreatedAt r) (kt_UpdatedAt r) (kt_LastPolledAt r).
Definition set_kt_CreatedAt (v : Time) (r : KnownTx) : KnownTx :=
  mkKnownTx (kt_TxID r) (kt_Status r) (kt_ArcadeStatus r) (kt_Attempts r)
    (kt_RebroadcastAttempts r) (kt_WasBroadcast r) (kt_Notified r) (kt_Batch r) (kt_Notify r)
    (kt_RawTx r) (kt_InputBEEF r) (kt_BlockHeight r) (kt_BlockHash r) (kt_MerklePath r)
    (kt_MerkleRoot r) (kt_CompetingTxs r) (kt_SuspectSince r) (kt_VerifiedRejectedAt r)
    (kt_RejectReason r) v (kt_UpdatedAt r) (kt_LastPolledAt r).
Definition set_kt_UpdatedAt (v : Time) (r : KnownTx) : KnownTx :=
  mkKnownTx (kt_TxID r) (kt_Status r) (kt_ArcadeStatus r) (kt_Attempts r)
    (kt_RebroadcastAttempts r) (kt_WasBroadcast r) (kt_Notified r) (kt_Batch r) (kt_Notify r)
    (kt_RawTx r) (kt_InputBEEF r) (kt_BlockHeight r) (kt_BlockHash r) (kt_MerklePath r)
    (kt_MerkleRoot r) (kt_CompetingTxs r) (kt_SuspectSince r) (kt_VerifiedRejectedAt r)
    (kt_RejectReason r) (kt_CreatedAt r) v (kt_LastPolledAt r).
Definition set_kt_LastPolledAt (v : Time) (r : KnownTx) : KnownTx :=
  mkKnownTx (kt_TxID r) (kt_Status r) (kt_ArcadeStatus r) (kt_Attempts r)
    (kt_RebroadcastAttempts r) (kt_WasBroadcast r) (kt_Notified r) (kt_Batch r) (kt_Notify r)
    (kt_RawTx r) (kt_InputBEEF r) (kt_BlockHeight r) (kt_BlockHash r) (kt_MerklePath r)
    (kt_MerkleRoot r) (kt_CompetingTxs r) (kt_SuspectSince r) (kt_VerifiedRejectedAt r)
    (kt_RejectReason r) (kt_CreatedAt r) (kt_UpdatedAt r) v.

Abbreviation table := (gmap string KnownTx).
Abbreviation K A := (M table meta_error A).

(** What a SELECT returns for a stored row. *)
Definition scan (raw : Raw) (r : KnownTx) : KnownTx :=
  set_kt_TxID (default "" (decTxIDPtr raw))
    (set_kt_WasBroadcast (kt_WasBroadcast r || WasBroadcastStatus (kt_Status r)) r).

(** ** Statement shapes *)

(** [UPDATE known_txs SET f WHERE txid = raw AND P]; the result is RowsAffected. *)
Definition update_row (raw : Raw) (P : KnownTx → bool) (f : KnownTx → KnownTx) : K Z := λ t,
  match t !! raw with
  | Some r => if P r then (Ret 1, <[raw := f r]> t) else (Ret 0, t)
  | None => (Ret 0, t)
  end.

(** [UPDATE known_txs SET f WHERE txid IN raws AND P]. *)
Definition update_in (raws : list Raw) (P : KnownTx → bool) (f : KnownTx → KnownTx) : K () := λ t,
  (Ret (), map_imap (λ raw r, Some (if bool_decide (raw ∈ raws) && P r then f r else r)) t).

Definition existsByTxID (raw : Raw) : K bool := λ t, (Ret (bool_decide (is_Some (t !! raw))), t).

(** Zero rows: "no such txid" against "the guard blocked an existing row". *)
Definition applied_or_why (raw : Raw) (n : Z) : K () :=
  if 0 <? n then mret ()
  else existsByTxID raw ≫= λ ex : bool, throw (if ex then ErrStatusUpdateSkipped else ErrNotFound).
Definition applied_or_missing (n : Z) : K () := if n =? 0 then throw ErrNotFound else mret ().

(** [status IN (...)] and [status NOT IN (...)], the latter only when given. *)
Definition status_in (sts : list ProvenTxReqStatus) (r : KnownTx) : bool := is_one_of (kt_Status r) sts.
Definition not_skipped (skip : list ProvenTxReqStatus) (r : KnownTx) : bool :=
  negb (is_one_of (kt_Status r) skip).

(** [COALESCE(?, reject_reason)] with [rejectReasonArg]. *)
Definition rejectReasonArg (reason : string) : option string :=
  if decide (reason = "") then None else Some reason.
Definition coalesce {A} (a b : option A) : option A := match a with Some _ => a | None => b end.

(** ** Writers *)

(** The row an upsert inserts, and the columns a conflicting row takes from it. *)
Definition inserted (now : Time) (kt : KnownTx) : KnownTx :=
  set_kt_WasBroadcast (kt_WasBroadcast kt || WasBroadcastStatus (kt_Status kt))
  (set_kt_Notify (if decide (kt_Notify kt = "") then "{}" else kt_Notify kt)
  (set_kt_CreatedAt now (set_kt_UpdatedAt now (set_kt_LastPolledAt epoch kt)))).
Definition on_conflict (now : Time) (kt old : KnownTx) : KnownTx :=
  set_kt_ArcadeStatus (coalesce (kt_ArcadeStatus kt) (kt_ArcadeStatus old))
  (set_kt_WasBroadcast (kt_WasBroadcast old || kt_WasBroadcast (inserted now kt))
  (set_kt_RejectReason (coalesce (kt_RejectReason kt) (kt_RejectReason old))
  (set_kt_CreatedAt (kt_CreatedAt old)
  (set_kt_LastPolledAt (kt_LastPolledAt old) (inserted now kt))))).

(** [INSERT ... ON CONFLICT (txid) DO UPDATE ... WHERE status NOT IN (...)]. *)
Definition upsert_row (raw : Raw) (now : Time) (kt : KnownTx) (skip : list ProvenTxReqStatus) :
    K () := λ t,
  match t !! raw with
  | None => (Ret (), <[raw := inserted now kt]> t)
  | Some old =>
      if not_skipped skip old then (Ret (), <[raw := on_conflict now kt old]> t)
      else (Err ErrStatusUpdateSkipped, t)
  end.
Definition Upsert (now : Time) (kt : KnownTx) (skip : list ProvenTxReqStatus) : K () :=
  raw ← lift (encTxID (kt_TxID kt)); upsert_row raw now kt skip.

(** The SET list of a status transition. *)
Definition to_status (now : Time) (status : ProvenTxReqStatus) (r : KnownTx) : KnownTx :=
  set_kt_Status status
  (set_kt_WasBroadcast (kt_WasBroadcast r || WasBroadcastStatus status) (set_kt_UpdatedAt now r)).

Definition UpdateStatus (now : Time) (txid : string) (status : ProvenTxReqStatus)
    (skip : list ProvenTxReqStatus) : K () :=
  raw ← lift (encTxID txid);
  n ← update_row raw (not_skipped skip) (to_status now status);
  applied_or_why raw n.

Definition BulkUpdateStatus (now : Time) (txids : list string) (status : ProvenTxReqStatus)
    (skip : list ProvenTxReqStatus) : K () :=
  match txids with
  | [] => mret ()
  | _ => ids ← lift (sortedRawTxIDs txids); update_in ids (not_skipped skip) (to_status now status)
  end.

Definition MarkSuspectFailed (now : Time) (txid : string) (suspectSince : Time)
    (rejectReason : string) : K () :=
  raw ← lift (encTxID txid);
  n ← update_row raw (λ _, true) (λ r,
        set_kt_Status KnownTxStatusSuspectFailed (set_kt_SuspectSince (Some suspectSince)
        (set_kt_VerifiedRejectedAt None
        (set_kt_RejectReason (coalesce (rejectReasonArg rejectReason) (kt_RejectReason r))
        (set_kt_UpdatedAt now r)))));
  applied_or_missing n.

Definition StampVerifiedRejected (now : Time) (txid : string) (at_ : Time) : K () :=
  raw ← lift (encTxID txid);
  _ ← update_row raw
        (λ r, status_in [KnownTxStatusSuspectFailed] r && bool_decide (kt_VerifiedRejectedAt r = None))
        (λ r, set_kt_VerifiedRejectedAt (Some at_) (set_kt_UpdatedAt now r));
  mret ().

Definition TransitionSuspect (now : Time) (txid : string) (newStatus : ProvenTxReqStatus) : K () :=
  raw ← lift (encTxID txid);
  n ← update_row raw (status_in [KnownTxStatusSuspectFailed])
        (λ r, set_kt_Status newStatus (set_kt_UpdatedAt now r));
  applied_or_why raw n.

Definition casFromPreBroadcast (now : Time) (txid : string) (newStatus : ProvenTxReqStatus) : K () :=
  raw ← lift (encTxID txid);
  n ← update_row raw
        (λ r, status_in knownTxPreBroadcastStatuses r && negb (kt_WasBroadcast r))
        (λ r, set_kt_Status newStatus (set_kt_UpdatedAt now r));
  applied_or_why raw n.
Definition TransitionToAborted (now : Time) (txid : string) : K () :=
  casFromPreBroadcast now txid KnownTxStatusAborted.
Definition ClaimForSend (now : Time) (txid : string) : K () :=
  casFromPreBroadcast now txid ProvenTxStatusSending.

Definition ReclaimStaleSend (now : Time) (txid : string) (grace : Z) : K () :=
  raw ← lift (encTxID txid);
  n ← update_row raw
        (λ r, status_in [ProvenTxStatusSending] r && negb (kt_WasBroadcast r) &&
              (kt_UpdatedAt r <=? now - grace))
        (set_kt_UpdatedAt now);
  applied_or_why raw n.

Definition proven (now : Time) (height : Z) (blockHash merklePath merkleRoot : Bytes)
    (r : KnownTx) : KnownTx :=
  set_kt_Status ProvenTxStatusCompleted (set_kt_WasBroadcast true (set_kt_Notified true
  (set_kt_BlockHeight (Some height) (set_kt_BlockHash blockHash (set_kt_MerklePath merklePath
  (set_kt_MerkleRoot merkleRoot (set_kt_InputBEEF [] (set_kt_UpdatedAt now r)))))))).
Definition SetProof (now : Time) (txid : string) (height : Z)
    (blockHash merklePath merkleRoot : Bytes) : K () :=
  raw ← lift (encTxID txid);
  n ← update_row raw (λ _, true) (proven now height blockHash merklePath merkleRoot);
  applied_or_missing n.

Definition ClearProof (now : Time) (txid : string) (newStatus : ProvenTxReqStatus) : K () :=
  raw ← lift (encTxID txid);
  n ← update_row raw (λ _, true) (λ r,
        set_kt_Status newStatus (set_kt_ArcadeStatus None (set_kt_BlockHeight None
        (set_kt_BlockHash [] (set_kt_MerklePath [] (set_kt_MerkleRoot []
        (set_kt_UpdatedAt now r)))))));
  applied_or_missing n.

Definition with_arcade (now : Time) (arcadeStatus : string) (r : KnownTx) : KnownTx :=
  set_kt_ArcadeStatus (Some arcadeStatus) (set_kt_UpdatedAt now r).
Definition SetArcadeStatus (now : Time) (txid arcadeStatus : string) : K () :=
  raw ← lift (encTxID txid);
  n ← update_row raw (λ _, true) (with_arcade now arcadeStatus);
  applied_or_missing n.

Definition BulkSetArcadeStatus (now : Time) (txids : list string) (arcadeStatus : string) : K () :=
  match txids with
  | [] => mret ()
  | _ => ids ← lift (sortedRawTxIDs txids); update_in ids (λ _, true) (with_arcade now arcadeStatus)
  end.

Definition MarkPolled (now : Time) (txids : list string) : K () :=
  match txids with
  | [] => mret ()
  | _ => ids ← lift (sortedRawTxIDs txids); update_in ids (λ _, true) (set_kt_LastPolledAt now)
  end.

Definition suspected (now suspectSince : Time) (competingTxs : list string)
    (arcadeStatus rejectReason : string) (r : KnownTx) : KnownTx :=
  set_kt_Status KnownTxStatusSuspectFailed (set_kt_ArcadeStatus (Some arcadeStatus)
  (set_kt_CompetingTxs competingTxs (set_kt_SuspectSince (Some suspectSince)
  (set_kt_VerifiedRejectedAt None
  (set_kt_RejectReason (coalesce (rejectReasonArg rejectReason) (kt_RejectReason r))
  (set_kt_UpdatedAt now r)))))).
Definition MarkSuspect (now : Time) (txid : string) (suspectSince : Time)
    (competingTxs : list string) (arcadeStatus rejectReason : string) : K () :=
  raw ← lift (encTxID txid);
  n ← update_row raw (λ _, true) (suspected now suspectSince competingTxs arcadeStatus rejectReason);
  applied_or_missing n.

Definition IncreaseAttempts (now : Time) (txids : list string) : K () :=
  match txids with
  | [] => mret ()
  | _ => ids ← lift (encode_all txids);
         update_in ids (λ _, true) (λ r, set_kt_Attempts (kt_Attempts r + 1) (set_kt_UpdatedAt now r))
  end.
Definition SetBatch (now : Time) (txids : list string) (batch : string) : K () :=
  match txids with
  | [] => mret ()
  | _ => ids ← lift (encode_all txids);
         update_in ids (λ _, true) (λ r, set_kt_Batch (Some batch) (set_kt_UpdatedAt now r))
  end.

(** ** Finders *)

Definition FindByTxID (txid : string) : K (option KnownTx) :=
  raw ← lift (encTxID txid); gets (λ t : table, scan raw <$> t !! raw).

Definition GetRawTx (txid : string) : K (option Bytes) :=
  raw ← lift (encTxID txid);
  gets (λ t : table,
    match t !! raw with
    | Some r => match kt_RawTx r with [] => None | b => Some b end
    | None => None
    end).

(** [a], then [b] on a tie. *)
Definition then_cmp (a b : comparison) : comparison := match a with Eq => b | _ => a end.
Definition by_txid (a b : Raw * KnownTx) : comparison := bytes_Compare a.1 b.1.
Definition by_created (a b : Raw * KnownTx) : comparison :=
  then_cmp (Z.compare (kt_CreatedAt a.2) (kt_CreatedAt b.2)) (by_txid a b).
Definition by_suspect_since (a b : Raw * KnownTx) : comparison :=
  Z.compare (default 0 (kt_SuspectSince a.2)) (default 0 (kt_SuspectSince b.2)).
Definition pollOrder (a b : Raw * KnownTx) : comparison :=
  then_cmp (Z.compare (kt_LastPolledAt a.2) (kt_LastPolledAt b.2))
    (then_cmp (Z.compare (kt_UpdatedAt a.2) (kt_UpdatedAt b.2)) (by_txid a b)).
Definition by_height (a b : Raw * KnownTx) : comparison :=
  then_cmp (Z.compare (default 0 (kt_BlockHeight a.2)) (default 0 (kt_BlockHeight b.2))) (by_txid a b).

(** A non-positive limit means no limit. *)
Definition limited {A} (limit : Z) (l : list A) : list A :=
  if (0 <? limit) then slice_to limit l else l.

Section finders.
Context `{MapRange}.

Definition queryList (P : Raw * KnownTx → bool) (cmp : Raw * KnownTx → Raw * KnownTx → comparison)
    (limit : Z) : K (list KnownTx) :=
  gets (λ t : table, (λ kr : Raw * KnownTx, scan kr.1 kr.2) <$>
    limited limit (SortFunc cmp (filter (λ kr, P kr = true) (range_map t)))).

(** No ORDER BY: every row compares equal, so the rows come in some order. *)
Definition FindByTxIDs (txids : list string) : K (list KnownTx) :=
  match txids with
  | [] => mret []
  | _ => ids ← lift (encode_all txids);
         queryList (λ kr, bool_decide (kr.1 ∈ ids)) (λ _ _, Eq) 0
  end.

Definition FindSuspectFailed (now : Time) (grace limit : Z) : K (list KnownTx) :=
  queryList (λ kr, status_in [KnownTxStatusSuspectFailed] kr.2 &&
                   match kt_SuspectSince kr.2 with Some s => (s <=? now - grace) | None => false end)
    by_suspect_since limit.

Definition FindUnsent (limit : Z) : K (list KnownTx) :=
  queryList (λ kr, status_in [ProvenTxStatusUnsent] kr.2) by_created limit.

(** The three arms of the resend sweep's work list. *)
Definition resendable (cutoff : Time) (r : KnownTx) : bool :=
  negb (kt_WasBroadcast r) && bool_decide (kt_RawTx r ≠ []) &&
  (status_in [ProvenTxStatusUnsent] r ||
   status_in [ProvenTxStatusUnprocessed; ProvenTxStatusSending] r && (kt_UpdatedAt r <=? cutoff)).
Definition FindResendable (now : Time) (grace limit : Z) : K (list KnownTx) :=
  queryList (λ kr, resendable (now - grace) kr.2) by_created limit.

Definition FindByStatusOlderThan (cutoff : Time) (limit : Z) (statuses : list ProvenTxReqStatus) :
    K (list KnownTx) :=
  match statuses with
  | [] => mret []
  | _ => queryList (λ kr, status_in statuses kr.2 && (kt_UpdatedAt kr.2 <=? cutoff)) pollOrder limit
  end.

Definition no_arcade_status (r : KnownTx) : bool :=
  bool_decide (kt_ArcadeStatus r = None ∨ kt_ArcadeStatus r = Some "").
Definition FindMissingArcadeStatus (cutoff : Time) (limit : Z) (statuses : list ProvenTxReqStatus) :
    K (list KnownTx) :=
  match statuses with
  | [] => mret []
  | _ => queryList (λ kr, status_in statuses kr.2 && (kt_UpdatedAt kr.2 <=? cutoff) &&
                          no_arcade_status kr.2) pollOrder limit
  end.
Definition CountMissingArcadeStatus (statuses : list ProvenTxReqStatus) : K Z :=
  match statuses with
  | [] => mret 0
  | _ => gets (λ t : table,
           Z.of_nat (size (filter (λ kr : Raw * KnownTx,
             status_in statuses kr.2 && no_arcade_status kr.2 = true) t)))
  end.

Definition FindProvenAtOrAbove (height limit : Z) : K (list KnownTx) :=
  queryList (λ kr, status_in [ProvenTxStatusCompleted] kr.2 &&
                   match kt_BlockHeight kr.2 with Some h => (height <=? h) | None => false end)
    by_height limit.

(** *** Listings of the operator's pages *)

(** Newest change first. *)
Definition by_updated_desc (a b : Raw * KnownTx) : comparison :=
  then_cmp (Z.compare (kt_UpdatedAt b.2) (kt_UpdatedAt a.2)) (by_txid a b).
Definition ListByArcadeStatus (arcadeStatus : string) (limit : Z) : K (list KnownTx) :=
  if decide (arcadeStatus = "") then queryList (λ kr, no_arcade_status kr.2) by_updated_desc limit
  else queryList (λ kr, bool_decide (kt_ArcadeStatus kr.2 = Some arcadeStatus)) by_updated_desc limit.
Definition ListRecent (limit : Z) : K (list KnownTx) := queryList (λ _, true) by_updated_desc limit.
Definition ListByStatus (status : ProvenTxReqStatus) (limit : Z) : K (list KnownTx) :=
  queryList (λ kr, bool_decide (kt_Status kr.2 = status)) by_updated_desc limit.

(** [GROUP BY arcade_status]: NULL and the empty string are two groups, and the
    result map is filled group by group under the coalesced name. *)
Definition count_groups (t : table) : gmap (option string) Z :=
  map_fold (λ _ r m, <[kt_ArcadeStatus r := default 0 (m !! kt_ArcadeStatus r) + 1]> m) ∅ t.
Definition CountByArcadeStatus : K (gmap string Z) :=
  gets (λ t : table, foldl (λ out g, <[default "" g.1 := g.2]> out) ∅ (range_map (count_groups t))).

Definition FindStatuses (txids : list string) : K (gmap string ProvenTxReqStatus) :=
  match txids with
  | [] => mret ∅
  | _ => ids ← lift (encode_all txids);
         gets (λ t : table, foldl (λ out kr,
           match decTxIDPtr kr.1 with Some txid => <[txid := kt_Status kr.2]> out | None => out end) ∅
           (filter (λ kr : Raw * KnownTx, kr.1 ∈ ids) (range_map t)))
  end.
End finders.

End KnownTxRepo.
