(* ===== verification/KnownTxProps.v ===== *)
(** * KnownTxProps: the abort/send arbiter of the known-transactions table

    Aborting a transaction and broadcasting it contend on one row.  [kcall] is a
    write to the table with its arguments, [kexec] its effect; the theorems follow
    one row along any sequence of writes. *)
From Stdlib Require Import Ascii String.
From S2P Require Import Prelude UtxoTypes Statuses KnownTx.
Import WdkStatus ArcadeStatus KnownTxRepo.
Local Open Scope string_scope.
Local Open Scope Z_scope.

Module KnownTxProps.

Inductive kcall :=
| KUpsert (now : Time) (kt : KnownTx) (skip : list ProvenTxReqStatus)
| KUpdateStatus (now : Time) (txid : string) (st : ProvenTxReqStatus) (skip : list ProvenTxReqStatus)
| KBulkUpdateStatus (now : Time) (txids : list string) (st : ProvenTxReqStatus)
    (skip : list ProvenTxReqStatus)
| KMarkSuspectFailed (now : Time) (txid : string) (since : Time) (reason : string)
| KStampVerifiedRejected (now : Time) (txid : string) (at_ : Time)
| KTransitionSuspect (now : Time) (txid : string) (st : ProvenTxReqStatus)
| KTransitionToAborted (now : Time) (txid : string)
| KClaimForSend (now : Time) (txid : string)
| KReclaimStaleSend (now : Time) (txid : string) (grace : Z)
| KSetProof (now : Time) (txid : string) (height : Z) (hash path root : Bytes)
| KClearProof (now : Time) (txid : string) (st : ProvenTxReqStatus)
| KSetArcadeStatus (now : Time) (txid : string) (ast : string)
| KBulkSetArcadeStatus (now : Time) (txids : list string) (ast : string)
| KMarkPolled (now : Time) (txids : list string)
| KMarkSuspect (now : Time) (txid : string) (since : Time) (competing : list string) (ast reason : string)
| KIncreaseAttempts (now : Time) (txids : list string)
| KSetBatch (now : Time) (txids : list string) (batch : string).

Definition kexec (t : table) (c : kcall) : table :=
  match c with
  | KUpsert now kt skip => (Upsert now kt skip t).2
  | KUpdateStatus now txid st skip => (UpdateStatus now txid st skip t).2
  | KBulkUpdateStatus now txids st skip => (BulkUpdateStatus now txids st skip t).2
  | KMarkSuspectFailed now txid since reason => (MarkSuspectFailed now txid since reason t).2
  | KStampVerifiedRejected now txid at_ => (StampVerifiedRejected now txid at_ t).2
  | KTransitionSuspect now txid st => (TransitionSuspect now txid st t).2
  | KTransitionToAborted now txid => (TransitionToAborted now txid t).2
  | KClaimForSend now txid => (ClaimForSend now txid t).2
  | KReclaimStaleSend now txid grace => (ReclaimStaleSend now txid grace t).2
  | KSetProof now txid h b p r => (SetProof now txid h b p r t).2
  | KClearProof now txid st => (ClearProof now txid st t).2
  | KSetArcadeStatus now txid ast => (SetArcadeStatus now txid ast t).2
  | KBulkSetArcadeStatus now txids ast => (BulkSetArcadeStatus now txids ast t).2
  | KMarkPolled now txids => (MarkPolled now txids t).2
  | KMarkSuspect now txid since cs ast reason => (MarkSuspect now txid since cs ast reason t).2
  | KIncreaseAttempts now txids => (IncreaseAttempts now txids t).2
  | KSetBatch now txids b => (SetBatch now txids b t).2
  end.

(** The writes that may take a row off the status [st]: status writes whose guard
    does not name [st], and the unguarded verdicts of the network. *)
Definition unfences (st : ProvenTxReqStatus) (c : kcall) : bool :=
  match c with
  | KUpsert _ _ skip | KUpdateStatus _ _ _ skip | KBulkUpdateStatus _ _ _ skip =>
      negb (is_one_of st skip)
  | KMarkSuspectFailed _ _ _ _ | KSetProof _ _ _ _ _ _ | KClearProof _ _ _
  | KMarkSuspect _ _ _ _ _ _ => true
  | _ => false
  end.

(** The two sides of the arbiter. *)
Inductive side := Abort | Send.
Definition take (b : side) (now : Time) (txid : string) : K () :=
  match b with Abort => TransitionToAborted now txid | Send => ClaimForSend now txid end.
Definition target (b : side) : ProvenTxReqStatus :=
  match b with Abort => KnownTxStatusAborted | Send => ProvenTxStatusSending end.

Definition at_status (raw : Raw) (st : ProvenTxReqStatus) (t : table) : Prop :=
  kt_Status <$> t !! raw = Some st.

(** ** A concrete row *)

(** A signed, never broadcast transaction waiting in the delayed queue. *)
Definition queued : KnownTx :=
  mkKnownTx "ab01" ProvenTxStatusUnsent None 0 0 false false None "{}" ["t"%char] [] None [] [] [] []
    None None None 10 10 epoch.
Definition queue : table := (Upsert 10 queued [] ∅).2.
Definition raw0 : Raw := match encTxID "ab01" with Ret raw => raw | _ => "" end.
Definition aborted0 : table := (TransitionToAborted 20 "ab01" queue).2.
(** A retried request, a sweep and a status event, all arriving after the abort. *)
Definition late_writes : list kcall :=
  [KUpsert 30 queued KnownTxNeverRequeueStatuses;
   KUpdateStatus 31 "ab01" ProvenTxStatusUnsent KnownTxNeverRequeueStatuses;
   KClaimForSend 32 "AB01"; KReclaimStaleSend 99 "ab01" 20; KSetArcadeStatus 33 "ab01" "RECEIVED"].

(** ** Transaction ids *)

(** A stored id is displayed in a form that decodes to it. *)
Lemma encTxID_dec raw : encTxID (default "" (decTxIDPtr raw)) = Ret raw.
Proof.
  rewrite /decTxIDPtr. case_decide as Hraw; simpl; [by subst|].
  rewrite /encTxID list_ascii_of_string_of_list_ascii StatusProps.decode_encode.
  by rewrite string_of_list_ascii_of_string.
Qed.

(** The id a row is scanned with decodes to the row's key. *)
Lemma encTxID_scan raw r : encTxID (kt_TxID (scan raw r)) = Ret raw.
Proof. apply encTxID_dec. Qed.

(** ** One statement *)

Lemma update_row_snd raw P f (t : table) raw' :
  (update_row raw P f t).2 !! raw' =
    if decide (raw = raw') then (λ r, if P r then f r else r) <$> t !! raw' else t !! raw'.
Proof.
  rewrite /update_row. case_decide as Hr; [subst raw'|].
  - destruct (t !! raw) as [r|] eqn:Ht; simpl; [|by rewrite Ht].
    destruct (P r); simpl; by rewrite ?lookup_insert_eq ?Ht.
  - destruct (t !! raw) as [r|]; [|done]. destruct (P r); [|done]. by rewrite /= lookup_insert_ne.
Qed.

Lemma update_in_snd raws P f (t : table) raw :
  (update_in raws P f t).2 !! raw =
    (λ r, if bool_decide (raw ∈ raws) && P r then f r else r) <$> t !! raw.
Proof. rewrite /update_in /= map_lookup_imap. by destruct (t !! raw). Qed.

(** A statement that leaves the status of the rows it may touch at [st]. *)
Lemma update_row_keeps raw P f t raw' st :
  (∀ r, kt_Status r = st → P r = true → kt_Status (f r) = st) →
  at_status raw' st t → at_status raw' st (update_row raw P f t).2.
Proof.
  rewrite /at_status update_row_snd => Hf. case_decide; [|done].
  destruct (t !! raw') as [r|]; [|done]. simpl. intros [= Hs].
  destruct (P r) eqn:?; f_equal; auto.
Qed.
Lemma update_in_keeps raws P f t raw' st :
  (∀ r, kt_Status r = st → P r = true → kt_Status (f r) = st) →
  at_status raw' st t → at_status raw' st (update_in raws P f t).2.
Proof.
  rewrite /at_status update_in_snd => Hf. destruct (t !! raw') as [r|]; [|done].
  simpl. intros [= Hs]. destruct (bool_decide _); simpl; [|by f_equal].
  destruct (P r) eqn:?; f_equal; auto.
Qed.

(** The read after a statement does not change the table. *)
Lemma applied_or_why_snd raw n t : (applied_or_why raw n t).2 = t.
Proof. rewrite /applied_or_why. by destruct (0 <? n). Qed.
Lemma applied_or_missing_snd n t : (applied_or_missing n t).2 = t.
Proof. rewrite /applied_or_missing. by destruct (n =? 0). Qed.

Definition keeps {A} (raw : Raw) (st : ProvenTxReqStatus) (m : K A) : Prop :=
  ∀ t, at_status raw st t → at_status raw st (m t).2.

Lemma keeps_bind {A B} raw st (m : K A) (k : A → K B) :
  keeps raw st m → (∀ a, keeps raw st (k a)) → keeps raw st (m ≫= k).
Proof.
  intros Hm Hk t Ht. specialize (Hm t Ht). cbv [mbind M_bind].
  destruct (m t) as [[a|e|] t']; simpl in *; [by apply Hk|done|done].
Qed.
Lemma keeps_lift {A} raw st (o : outcome meta_error A) : keeps raw st (lift o).
Proof. by intros t. Qed.
Lemma keeps_ret {A} raw st (a : A) : keeps raw st (mret a).
Proof. by intros t. Qed.
Lemma keeps_applied_or_why raw st raw' n : keeps raw st (applied_or_why raw' n).
Proof. intros t. by rewrite applied_or_why_snd. Qed.
Lemma keeps_applied_or_missing raw st n : keeps raw st (applied_or_missing n).
Proof. intros t. by rewrite applied_or_missing_snd. Qed.
Lemma keeps_update_row raw st raw' P f :
  (∀ r, kt_Status r = st → P r = true → kt_Status (f r) = st) → keeps raw st (update_row raw' P f).
Proof. intros Hf t. by apply update_row_keeps. Qed.
Lemma keeps_update_in raw st raws P f :
  (∀ r, kt_Status r = st → P r = true → kt_Status (f r) = st) → keeps raw st (update_in raws P f).
Proof. intros Hf t. by apply update_in_keeps. Qed.

(** Follows a method down to its statements. *)
Ltac solve_keeps :=
  repeat first
    [ apply keeps_lift | apply keeps_ret | apply keeps_applied_or_why
    | apply keeps_applied_or_missing | apply keeps_bind; [|intros ?]
    | apply keeps_update_row | apply keeps_update_in | progress case_match ].

Lemma not_skipped_in skip st r :
  is_one_of st skip = true → kt_Status r = st → not_skipped skip r = true → False.
Proof. rewrite /not_skipped. intros Hin ->. by rewrite Hin. Qed.

Lemma keeps_upsert raw st now kt skip raw' :
  is_one_of st skip = true → keeps raw st (upsert_row raw' now kt skip).
Proof.
  intros Hin t. rewrite /upsert_row /at_status. destruct (t !! raw') as [old|] eqn:Ho; last first.
  { intros Hs. rewrite /= lookup_insert_ne //. intros ->. by rewrite Ho in Hs. }
  destruct (not_skipped skip old) eqn:Hn; [|done]. intros Hs.
  destruct (decide (raw' = raw)) as [->|]; [|by rewrite /= lookup_insert_ne].
  rewrite Ho /= in Hs. destruct (not_skipped_in skip st old); congruence.
Qed.

(** A status fixed by the arbiter is left only by a write entitled to it. *)
Lemma kexec_keeps raw b c t :
  unfences (target b) c = false → at_status raw (target b) t → at_status raw (target b) (kexec t c).
Proof.
  intros Hu.
  assert (Hpre : ∀ r, kt_Status r = target b → status_in knownTxPreBroadcastStatuses r = false).
  { intros r Hr. rewrite /status_in Hr. by destruct b; vm_compute. }
  assert (Hsus : ∀ r, kt_Status r = target b → status_in [KnownTxStatusSuspectFailed] r = false).
  { intros r Hr. rewrite /status_in Hr. by destruct b; vm_compute. }
  revert t. destruct c; simpl in Hu; try done; try apply negb_false_iff in Hu;
    match goal with |- ∀ t, _ → at_status _ _ (kexec t ?c) =>
      let m := eval cbv beta delta [kexec] iota in (λ t, kexec t c) in
      match m with λ t, (@?m t).2 => change (keeps raw (target b) m) end
    end; cbv beta.
  - rewrite /Upsert. apply keeps_bind; [apply keeps_lift|]. intros. by apply keeps_upsert.
  - rewrite /UpdateStatus. solve_keeps. intros r ? ?. by destruct (not_skipped_in skip (target b) r).
  - rewrite /BulkUpdateStatus. solve_keeps. intros r ? ?.
    by destruct (not_skipped_in skip (target b) r).
  - rewrite /StampVerifiedRejected. by solve_keeps.
  - rewrite /TransitionSuspect. solve_keeps. intros r Hr. by rewrite Hsus.
  - rewrite /TransitionToAborted /casFromPreBroadcast. solve_keeps. intros r Hr. by rewrite Hpre.
  - rewrite /ClaimForSend /casFromPreBroadcast. solve_keeps. intros r Hr. by rewrite Hpre.
  - rewrite /ReclaimStaleSend. by solve_keeps.
  - rewrite /SetArcadeStatus. by solve_keeps.
  - rewrite /BulkSetArcadeStatus. by solve_keeps.
  - rewrite /MarkPolled. by solve_keeps.
  - rewrite /IncreaseAttempts. by solve_keeps.
  - rewrite /SetBatch. by solve_keeps.
Qed.

Lemma run_keeps raw b cs t :
  Forall (λ c, unfences (target b) c = false) cs →
  at_status raw (target b) t → at_status raw (target b) (foldl kexec t cs).
Proof.
  intros Hcs. revert t. induction Hcs as [|c cs Hc _ IH]; intros t Ht; [done|].
  apply IH. by apply kexec_keeps.
Qed.

Lemma take_eq b now txid : take b now txid = casFromPreBroadcast now txid (target b).
Proof. by destruct b. Qed.

(** Winning the arbiter puts the row at the winner's status. *)
Lemma take_wins b now txid raw t t' :
  encTxID txid = Ret raw → take b now txid t = (Ret (), t') → at_status raw (target b) t'.
Proof.
  rewrite take_eq /casFromPreBroadcast => Henc. cbv [mbind M_bind lift]. rewrite Henc.
  rewrite /update_row. destruct (t !! raw) as [r|] eqn:Hr; last first.
  { rewrite /applied_or_why /=. cbv [mbind M_bind]. by rewrite /existsByTxID. }
  destruct (_ && _); [|by rewrite /applied_or_why /existsByTxID /=; cbv [mbind M_bind]].
  rewrite /applied_or_why /=. intros [= <-]. rewrite /at_status lookup_insert_eq. by destruct b.
Qed.

(** An abort that finds no row has nothing to fence. *)
Lemma abort_not_found now txid raw t t' :
  encTxID txid = Ret raw → TransitionToAborted now txid t = (Err ErrNotFound, t') →
  t' = t ∧ t !! raw = None.
Proof.
  rewrite /TransitionToAborted /casFromPreBroadcast => Henc. cbv [mbind M_bind lift]. rewrite Henc.
  rewrite /update_row /applied_or_why /existsByTxID. cbv [mbind M_bind gets throw].
  destruct (t !! raw) as [r|] eqn:Hr; [destruct (_ && _)|]; simpl; rewrite ?Hr; try done.
  by intros [= <-].
Qed.

Lemma applied_or_why_skip raw (t : table) r :
  t !! raw = Some r → applied_or_why raw 0 t = (Err ErrStatusUpdateSkipped, t).
Proof.
  intros Ht. rewrite /applied_or_why /=. cbv [mbind M_bind]. by rewrite /existsByTxID Ht.
Qed.

Lemma take_refused b b' now txid raw t :
  encTxID txid = Ret raw → at_status raw (target b) t →
  take b' now txid t = (Err ErrStatusUpdateSkipped, t).
Proof.
  rewrite take_eq /casFromPreBroadcast /at_status => Henc.
  destruct (t !! raw) as [r|] eqn:Hr; [|done]. simpl. intros [= Hs].
  cbv [mbind M_bind lift]. rewrite Henc /update_row Hr.
  assert (status_in knownTxPreBroadcastStatuses r = false) as ->
    by (rewrite /status_in Hs; by destruct b; vm_compute).
  by eapply applied_or_why_skip.
Qed.

Lemma reclaim_refused now grace txid raw t :
  encTxID txid = Ret raw → at_status raw KnownTxStatusAborted t →
  ReclaimStaleSend now txid grace t = (Err ErrStatusUpdateSkipped, t).
Proof.
  rewrite /ReclaimStaleSend /at_status => Henc.
  destruct (t !! raw) as [r|] eqn:Hr; [|done]. simpl. intros [= Hs].
  cbv [mbind M_bind lift]. rewrite Henc /update_row Hr /status_in Hs /=.
  by eapply applied_or_why_skip.
Qed.

(** A row is selected by a finder only if it satisfies the finder's predicate. *)
Lemma queryList_sel `{MapRange} P cmp limit (t : table) ks kt :
  queryList P cmp limit t = (Ret ks, t) → kt ∈ ks →
  ∃ raw r, t !! raw = Some r ∧ P (raw, r) = true ∧ kt = scan raw r.
Proof.
  rewrite /queryList /gets. intros [= <-] (kr&->&Hin)%list_elem_of_fmap. destruct kr as [raw r].
  assert (Hin' : (raw, r) ∈ SortFunc cmp (filter (λ kr, P kr = true) (range_map t))).
  { revert Hin. rewrite /limited. case_match; [apply slice_to_subseteq|done]. }
  rewrite SortFunc_perm in Hin'. apply list_elem_of_filter in Hin' as [HP Hin'].
  rewrite range_map_elem in Hin'. eauto.
Qed.

Lemma not_resendable cutoff r : kt_Status r = KnownTxStatusAborted → resendable cutoff r = false.
Proof.
  intros Hs. rewrite /resendable /status_in Hs.
  destruct (negb _), (bool_decide (kt_RawTx r ≠ [])), (kt_UpdatedAt r <=? cutoff); by vm_compute.
Qed.

(** C18: of an abort and a broadcast of the same transaction only the first happens.
    Once either side has won the row, then along every later sequence of writes that
    are neither an unguarded network verdict nor a status write whose guard leaves
    the winner's status out, both an abort and a send claim are refused and change
    nothing; and if the abort won, the send cannot be reclaimed and the resend
    sweep never selects the transaction, at any age, in any order of rows. *)
Theorem abort_send_exclusive `{MapRange} b now txid raw t t1 cs :
  encTxID txid = Ret raw → take b now txid t = (Ret (), t1) →
  Forall (λ c, unfences (target b) c = false) cs →
  let t2 := foldl kexec t1 cs in
  (∀ b' now' txid', encTxID txid' = Ret raw →
     take b' now' txid' t2 = (Err ErrStatusUpdateSkipped, t2)) ∧
  (b = Abort →
     (∀ now' grace txid', encTxID txid' = Ret raw →
        ReclaimStaleSend now' txid' grace t2 = (Err ErrStatusUpdateSkipped, t2)) ∧
     (∀ now' grace limit ks, FindResendable now' grace limit t2 = (Ret ks, t2) →
        Forall (λ kt, encTxID (kt_TxID kt) ≠ Ret raw) ks)).
Proof.
  intros Henc Hwin Hcs t2.
  assert (Hst : at_status raw (target b) t2) by (eapply run_keeps; [done|by eapply take_wins]).
  split; [intros; by eapply take_refused|]. intros ->. split; [intros; by eapply reclaim_refused|].
  intros now' grace limit ks Hks. apply Forall_forall. intros kt Hin Heq.
  destruct (queryList_sel _ _ _ _ _ _ Hks Hin) as (raw'&r&Hr&HP&->).
  rewrite encTxID_scan in Heq. injection Heq as ->.
  rewrite /at_status Hr in Hst. injection Hst as Hst. by rewrite /= not_resendable in HP.
Qed.
Lemma abort_send_exclusive_witness :
  let _ := range_canonical in
  take Abort 20 "ab01" queue = (Ret (), aborted0) ∧
  Forall (λ c, unfences KnownTxStatusAborted c = false) late_writes ∧
  take Send 40 "ab01" (foldl kexec aborted0 late_writes) =
    (Err ErrStatusUpdateSkipped, foldl kexec aborted0 late_writes).
Proof.
  assert (H1 : take Abort 20 "ab01" queue = (Ret (), aborted0)) by (vm_compute; reflexivity).
  assert (H2 : Forall (λ c, unfences (target Abort) c = false) late_writes)
    by (repeat constructor).
  split_and!; [exact H1|exact H2|].
  apply (proj1 (@abort_send_exclusive range_canonical Abort 20 "ab01" raw0 queue aborted0 late_writes
    ltac:(vm_compute; reflexivity) H1 H2)). vm_compute. reflexivity.
Defined.

(** Rows with a NULL and with an empty arcade status are counted as two groups under
    one name, so one of the two counts is lost. *)
Lemma count_loses_a_group :
  let _ := range_canonical in
  let t : table := <[ "b" := set_kt_ArcadeStatus (Some "") queued ]> (<[ "a" := queued ]> ∅) in
  match ListByArcadeStatus "" 0 t with (Ret ks, _) => length ks = 2%nat | _ => False end ∧
  match CountByArcadeStatus t with (Ret m, _) => m !! "" = Some 1 | _ => False end.
Proof. by vm_compute. Qed.
End KnownTxProps.
