(* ===== verification/Catalog.v ===== *)
(** * Catalog: users, baskets, certificates and sync states

    [pkg/storage/internal/metastore]: [users.go], [baskets.go], [certificates.go] and
    [syncstate.go].  A table is a map from its key; [now] is a statement's reading of
    the store clock.  A method that the code runs in one transaction is one function.
    That a row's user exists is left to the callers: the ids in requests come from
    [FindOrInsertUser]. *)
From Stdlib Require Import String.
From S2P Require Import Prelude UtxoTypes Statuses KnownTx.
Import KnownTxRepo.
Local Open Scope string_scope.
Local Open Scope Z_scope.

Module Catalog.

(** ** Rows *)

Record TableUser := mkUser {
  us_UserID : Z;
  us_IdentityKey : string;
  us_ActiveStorage : string;
  us_CreatedAt : Time;
  us_UpdatedAt : Time;
}.
Definition set_us_ActiveStorage (v : string) (u : TableUser) : TableUser :=
  mkUser (us_UserID u) (us_IdentityKey u) v (us_CreatedAt u) (us_UpdatedAt u).
Definition set_us_UpdatedAt (v : Time) (u : TableUser) : TableUser :=
  mkUser (us_UserID u) (us_IdentityKey u) (us_ActiveStorage u) (us_CreatedAt u) v.

Record BasketConfiguration := mkBasketConfig {
  bk_Name : string;
  bk_NumberOfDesiredUTXOs : Z;
  bk_MinimumDesiredUTXOValue : Z;
}.
(** [ob_BasketID] is no column: the sync wire numbers the baskets of a chunk. *)
Record TableOutputBasket := mkBasket {
  ob_Config : BasketConfiguration;
  ob_CreatedAt : Time;
  ob_UpdatedAt : Time;
  ob_UserID : Z;
  ob_IsDeleted : bool;
  ob_BasketID : Z;
}.

Record TableCertificateField := mkCertField {
  cf_CreatedAt : Time;
  cf_UpdatedAt : Time;
  cf_UserID : Z;
  cf_CertificateID : Z;
  cf_FieldName : string;
  cf_FieldValue : string;
  cf_MasterKey : string;
}.
Record TableCertificate := mkCert {
  ce_UserID : Z;
  ce_Type : string;
  ce_SerialNumber : string;
  ce_Certifier : string;
  ce_Subject : string;
  ce_Verifier : option string;
  ce_RevocationOutpoint : string;
  ce_Signature : string;
  ce_IsDeleted : bool;
  ce_CreatedAt : Time;
  ce_UpdatedAt : Time;
}.
Definition delete_cert (now : Time) (c : TableCertificate) : TableCertificate :=
  mkCert (ce_UserID c) (ce_Type c) (ce_SerialNumber c) (ce_Certifier c) (ce_Subject c) (ce_Verifier c)
    (ce_RevocationOutpoint c) (ce_Signature c) true (ce_CreatedAt c) now.

Record TableSyncState := mkSyncState {
  ss_UserID : Z;
  ss_StorageIdentityKey : string;
  ss_StorageName : string;
  ss_Status : string;
  ss_Init : bool;
  ss_RefNum : string;
  ss_SyncMap : string;
  ss_When : option Time;
  ss_Satoshis : option Z;
  ss_ErrorLocal : option string;
  ss_ErrorOther : option string;
  ss_CreatedAt : Time;
  ss_UpdatedAt : Time;
}.

(** The tables, with their identity sequences. *)
Record Catalog := mkCatalog {
  users : gmap Z TableUser;
  baskets : gmap (Z * string) TableOutputBasket;
  certificates : gmap Z TableCertificate;
  certificate_fields : gmap (Z * string) TableCertificateField;
  sync_states : gmap Z TableSyncState;
  nextUserID : Z;
  nextCertificateID : Z;
  nextSyncStateID : Z;
}.
Definition empty_catalog : Catalog := mkCatalog ∅ ∅ ∅ ∅ ∅ 1 1 1.
Definition with_users (t : gmap Z TableUser) (c : Catalog) : Catalog :=
  mkCatalog t (baskets c) (certificates c) (certificate_fields c) (sync_states c) (nextUserID c)
    (nextCertificateID c) (nextSyncStateID c).
Definition with_baskets (t : gmap (Z * string) TableOutputBasket) (c : Catalog) : Catalog :=
  mkCatalog (users c) t (certificates c) (certificate_fields c) (sync_states c) (nextUserID c)
    (nextCertificateID c) (nextSyncStateID c).
Definition with_certificates (t : gmap Z TableCertificate) (c : Catalog) : Catalog :=
  mkCatalog (users c) (baskets c) t (certificate_fields c) (sync_states c) (nextUserID c)
    (nextCertificateID c) (nextSyncStateID c).
Definition with_sync_states (t : gmap Z TableSyncState) (c : Catalog) : Catalog :=
  mkCatalog (users c) (baskets c) (certificates c) (certificate_fields c) t (nextUserID c)
    (nextCertificateID c) (nextSyncStateID c).

Abbreviation CM A := (M Catalog meta_error A).

(** Rows in the order of their key. *)
Definition by_key {A} (a b : Z * A) : comparison := Z.compare a.1 b.1.
Definition by_key_desc {A} (a b : Z * A) : comparison := Z.compare b.1 a.1.

(** ** UsersRepo *)

Definition FindByIdentityKey (identityKey : string) : CM (option TableUser) :=
  gets (λ c, snd <$> head (filter (λ kr : Z * TableUser, us_IdentityKey kr.2 = identityKey) (map_to_list (users c)))).
Definition Users_FindByID (userID : Z) : CM (option TableUser) := gets (λ c, users c !! userID).

(** The insert finds no conflicting row: the lookup ran in the same transaction. *)
Definition Users_FindOrInsertUser (now : Time) (identityKey : string) : CM (TableUser * bool) :=
  found ← FindByIdentityKey identityKey;
  match found with
  | Some u => mret (u, false)
  | None => λ c,
      let id := nextUserID c in
      let u := mkUser id identityKey "" now now in
      (Ret (u, true), mkCatalog (<[id := u]> (users c)) (baskets c) (certificates c) (certificate_fields c)
                        (sync_states c) (id + 1) (nextCertificateID c) (nextSyncStateID c))
  end.

Definition SetActiveStorage (now : Time) (userID : Z) (activeStorage : string) : CM () := λ c,
  match users c !! userID with
  | Some u => (Ret (), with_users (<[userID := set_us_UpdatedAt now (set_us_ActiveStorage activeStorage u)]> (users c)) c)
  | None => (Err ErrNotFound, c)
  end.

(** ** BasketsRepo *)

Definition Baskets_FindByName (userID : Z) (name : string) : CM (option TableOutputBasket) :=
  gets (λ c, baskets c !! (userID, name)).

Definition Baskets_Upsert (now : Time) (userID : Z) (cfg : BasketConfiguration) (overwrite : bool) : CM () := λ c,
  let key := (userID, bk_Name cfg) in
  let row :=
    match baskets c !! key with
    | None => mkBasket cfg now now userID false 0
    | Some b => if overwrite then mkBasket cfg (ob_CreatedAt b) now (ob_UserID b) (ob_IsDeleted b) 0 else b
    end in
  (Ret (), with_baskets (<[key := row]> (baskets c)) c).
Definition Baskets_FindOrCreate (now : Time) (userID : Z) (name : string) : CM () :=
  Baskets_Upsert now userID (mkBasketConfig name 0 0) false.

Record FindOutputBasketsArgs := mkFindBaskets {
  fb_UserID : option Z;
  fb_Name : option string;
  fb_NumberOfDesiredUTXOs : option Z;
  fb_MinimumDesiredUTXOValue : option Z;
}.
Definition given {A} `{EqDecision A} (x : option A) (col : A) : bool :=
  match x with Some v => bool_decide (col = v) | None => true end.
Definition basket_matches (args : FindOutputBasketsArgs) (b : TableOutputBasket) : bool :=
  negb (ob_IsDeleted b) && given (fb_UserID args) (ob_UserID b) && given (fb_Name args) (bk_Name (ob_Config b)) &&
  given (fb_NumberOfDesiredUTXOs args) (bk_NumberOfDesiredUTXOs (ob_Config b)) &&
  given (fb_MinimumDesiredUTXOValue args) (bk_MinimumDesiredUTXOValue (ob_Config b)).
(** [ORDER BY name ASC]; the names of one user are distinct. *)
Definition by_basket_name (a b : TableOutputBasket) : comparison :=
  String.compare (bk_Name (ob_Config a)) (bk_Name (ob_Config b)).
Definition Baskets_Find `{MapRange} (args : FindOutputBasketsArgs) : CM (list TableOutputBasket) :=
  gets (λ c, SortFunc by_basket_name (filter (λ b, basket_matches args b = true) (range_map (baskets c)).*2)).

(** ** CertificatesRepo *)

(** [ON CONFLICT (certificate_id, field_name) DO NOTHING]; a nil field is skipped. *)
Definition insert_field (now : Time) (userID id : Z) (t : gmap (Z * string) TableCertificateField)
    (f : option TableCertificateField) : gmap (Z * string) TableCertificateField :=
  match f with
  | Some f =>
      match t !! (id, cf_FieldName f) with
      | Some _ => t
      | None => <[(id, cf_FieldName f) := mkCertField now now userID id (cf_FieldName f) (cf_FieldValue f) (cf_MasterKey f)]> t
      end
  | None => t
  end.
Definition cert_key (c : TableCertificate) : Z * string * string * string :=
  (ce_UserID c, ce_Type c, ce_SerialNumber c, ce_Certifier c).
Definition Certificates_Insert (now : Time) (cert : TableCertificate) (fields : list (option TableCertificateField)) :
    CM Z := λ c,
  if decide (map_Exists (λ _ r, cert_key r = cert_key cert) (certificates c))
  then (Err (ConstraintViolation "certificates"), c)
  else
    let id := nextCertificateID c in
    let r := mkCert (ce_UserID cert) (ce_Type cert) (ce_SerialNumber cert) (ce_Certifier cert) (ce_Subject cert)
               (ce_Verifier cert) (ce_RevocationOutpoint cert) (ce_Signature cert) (ce_IsDeleted cert) now now in
    (Ret id, mkCatalog (users c) (baskets c) (<[id := r]> (certificates c))
               (foldl (insert_field now (ce_UserID cert) id) (certificate_fields c) fields) (sync_states c) (nextUserID c) (id + 1)
               (nextSyncStateID c)).

Definition by_field_name (a b : TableCertificateField) : comparison :=
  String.compare (cf_FieldName a) (cf_FieldName b).
Definition fields_of (certificateID : Z) (t : gmap (Z * string) TableCertificateField) : list TableCertificateField :=
  SortFunc by_field_name
    (omap (λ kr : Z * string * TableCertificateField, if kr.1.1 =? certificateID then Some kr.2 else None) (map_to_list t)).
Definition Certificates_FindByID (id : Z) : CM (option (TableCertificate * list TableCertificateField)) :=
  gets (λ c, r ← certificates c !! id; Some (r, fields_of id (certificate_fields c))).

(** [ORDER BY certificate_id DESC]. *)
Definition ListForUser `{MapRange} (userID : Z) : CM (list (Z * TableCertificate)) :=
  gets (λ c, SortFunc by_key_desc
    (filter (λ kr : Z * TableCertificate, ce_UserID kr.2 = userID ∧ ce_IsDeleted kr.2 = false) (range_map (certificates c)))).

Definition SoftDelete (now : Time) (userID : Z) (certType serialNumber certifier : string) : CM () := λ c,
  let hit (r : TableCertificate) :=
    bool_decide (cert_key r = (userID, certType, serialNumber, certifier)) && negb (ce_IsDeleted r) in
  if decide (map_Exists (λ _ r, hit r = true) (certificates c))
  then (Ret (), with_certificates ((λ r, if hit r then delete_cert now r else r) <$> certificates c) c)
  else (Err ErrNotFound, c).

(** ** SyncStateRepo *)

Definition sync_where (P : TableSyncState → bool) (c : Catalog) : option (Z * TableSyncState) :=
  head (filter (λ kr : Z * TableSyncState, P kr.2 = true) (map_to_list (sync_states c))).
Definition FindByUserAndStorage (userID : Z) (storageIdentityKey : string) : CM (option (Z * TableSyncState)) :=
  gets (sync_where (λ s, (ss_UserID s =? userID) && bool_decide (ss_StorageIdentityKey s = storageIdentityKey))).
Definition FindByRefNum (refNum : string) : CM (option (Z * TableSyncState)) :=
  gets (sync_where (λ s, bool_decide (ss_RefNum s = refNum))).

Definition json_map (syncMap : string) : string := if decide (syncMap = "") then "{}" else syncMap.
Definition SyncState_Insert (now : Time) (s : TableSyncState) : CM Z := λ c,
  if decide (map_Exists (λ _ r, ss_RefNum r = ss_RefNum s ∨
               ss_UserID r = ss_UserID s ∧ ss_StorageIdentityKey r = ss_StorageIdentityKey s) (sync_states c))
  then (Err (ConstraintViolation "sync_states"), c)
  else
    let id := nextSyncStateID c in
    let r := mkSyncState (ss_UserID s) (ss_StorageIdentityKey s) (ss_StorageName s) (ss_Status s) (ss_Init s)
               (ss_RefNum s) (json_map (ss_SyncMap s)) (ss_When s) (ss_Satoshis s) (ss_ErrorLocal s) (ss_ErrorOther s)
               now now in
    (Ret id, mkCatalog (users c) (baskets c) (certificates c) (certificate_fields c) (<[id := r]> (sync_states c))
               (nextUserID c) (nextCertificateID c) (id + 1)).
Definition SyncState_Update (now : Time) (syncStateID : Z) (s : TableSyncState) : CM () := λ c,
  match sync_states c !! syncStateID with
  | Some r =>
      (Ret (), with_sync_states (<[syncStateID :=
         mkSyncState (ss_UserID r) (ss_StorageIdentityKey r) (ss_StorageName r) (ss_Status s) (ss_Init s) (ss_RefNum r)
           (json_map (ss_SyncMap s)) (ss_When s) (ss_Satoshis s) (ss_ErrorLocal s) (ss_ErrorOther s)
           (ss_CreatedAt r) now]> (sync_states c)) c)
  | None => (Err ErrNotFound, c)
  end.

(** ** The invariant *)

(** Identity keys name one user, baskets are filed under their own key, and the
    sequences are ahead of the ids they gave out. *)
Record catalog_ok (c : Catalog) : Prop := {
  co_user : ∀ id u, users c !! id = Some u → us_UserID u = id ∧ 0 < id < nextUserID c;
  co_identity : ∀ i j u v, users c !! i = Some u → users c !! j = Some v → us_IdentityKey u = us_IdentityKey v → i = j;
  co_basket : ∀ k b, baskets c !! k = Some b → k = (ob_UserID b, bk_Name (ob_Config b));
  co_cert : ∀ id r, certificates c !! id = Some r → 0 < id < nextCertificateID c;
  co_cert_key : ∀ i j r q, certificates c !! i = Some r → certificates c !! j = Some q → cert_key r = cert_key q → i = j;
  co_sync : ∀ id r, sync_states c !! id = Some r → 0 < id < nextSyncStateID c;
}.
End Catalog.
