(* ===== verification/Requests.v ===== *)
(** * Requests: what callers ask for, and BRC-114 time labels

    The request types of [pkg/wdk] with their validity methods
    ([storage_internalize_action_args.go], [storage_list_actions_args.go],
    [storage_outputs_args.go], [storage_cert_args.go] and their neighbours), the query
    mode of [pkg/defs], and [pkg/internal/brc114]. *)
From Stdlib Require Import Ascii String.
From S2P Require Import Prelude UtxoTypes Statuses GoStrings Primitives External Fee KnownTx Catalog.
Import GoStrings Primitives WdkStatus KnownTxRepo.
Local Open Scope string_scope.
Local Open Scope Z_scope.

Module Requests.

(** ** Query modes *)

Definition QueryModeAny : string := "any".
Definition QueryModeAll : string := "all".
Definition ParseQueryMode (str : string) : outcome string string :=
  match Fee.parseEnumCaseInsensitive str [QueryModeAll; QueryModeAny] with
  | Some e => Ret e
  | None => Err "invalid value"
  end.
Definition QueryMode_Value (q : option string) : outcome string string :=
  match q with
  | None => Ret QueryModeAny
  | Some s => if decide (s = "") then Ret QueryModeAny else ParseQueryMode s
  end.
Definition QueryMode_MustGetValue (q : option string) : outcome string string :=
  match QueryMode_Value q with Ret v => Ret v | _ => Panic end.
Definition QueryMode_Validate (q : option string) : verdict :=
  match QueryMode_Value q with Ret _ => valid | Err e => Err ("invalid query mode: " ++ e) | Panic => Panic end.

(** ** Internalizing *)

Definition WalletPaymentProtocol : string := "wallet payment".
Definition BasketInsertionProtocol : string := "basket insertion".

Record WalletPayment := mkPayment {
  wp_DerivationPrefix : string;
  wp_DerivationSuffix : string;
  wp_SenderIdentityKey : string;
}.
Definition WalletPayment_Validate (w : WalletPayment) : verdict :=
  _ ← wrap "derivation prefix must be " (Base64String_Validate (wp_DerivationPrefix w));
  _ ← wrap "derivation suffix must be " (Base64String_Validate (wp_DerivationSuffix w));
  wrap "sender identity key must be " (PubKeyHex_Validate (wp_SenderIdentityKey w)).

Record BasketInsertion := mkInsertion {
  bi_Basket : string;
  bi_CustomInstructions : option string;
  bi_Tags : list string;
}.
Fixpoint each_valid {A} (prefix : string) (f : A → verdict) (l : list A) : verdict :=
  match l with
  | [] => valid
  | x :: l' => _ ← wrap prefix (f x); each_valid prefix f l'
  end.
Definition BasketInsertion_Validate (b : BasketInsertion) : verdict :=
  _ ← fail_if (bool_decide (bi_Basket b = "")) "basket cannot be empty";
  _ ← wrap "basket must be " (StringUnder300_Validate (bi_Basket b));
  each_valid "tag must be " StringUnder300_Validate (bi_Tags b).

Record InternalizeOutput := mkIntOutput {
  io_OutputIndex : Z;
  io_Protocol : string;
  io_PaymentRemittance : option WalletPayment;
  io_InsertionRemittance : option BasketInsertion;
}.
Definition InternalizeOutput_Validate (output : InternalizeOutput) : verdict :=
  _ ← fail_if (bool_decide (io_Protocol output = "")) "protocol cannot be empty";
  if decide (io_Protocol output = WalletPaymentProtocol) then
    match io_PaymentRemittance output with
    | None => Err "payment remittance cannot be nil for wallet payment protocol"
    | Some pr => wrap "wrong paymentRemittance: " (WalletPayment_Validate pr)
    end
  else if decide (io_Protocol output = BasketInsertionProtocol) then
    match io_InsertionRemittance output with
    | None => Err "insertion remittance cannot be nil for basket insertion protocol"
    | Some ir => wrap "wrong insertionRemittance: " (BasketInsertion_Validate ir)
    end
  else Err "invalid protocol".

(** The pointers of [Outputs] may be nil. *)
Record InternalizeActionArgs := mkIntArgs {
  ia_Tx : Bytes;
  ia_Outputs : list (option InternalizeOutput);
  ia_Description : string;
  ia_Labels : list string;
}.
Record InternalizeActionResult := mkIntResult {
  ir_Accepted : bool;
  ir_IsMerge : bool;
  ir_TxID : string;
  ir_Satoshis : Z;
}.

(** ** Listing *)

Record ListActionsArgs := mkListActions {
  la_Labels : list string;
  la_Limit : Z;
  la_Offset : Z;
  la_LabelQueryMode : option string;
  la_SeekPermission : option bool;
  la_IncludeInputs : option bool;
  la_IncludeOutputs : option bool;
  la_IncludeLabels : option bool;
  la_IncludeInputSourceLockingScripts : option bool;
  la_IncludeInputUnlockingScripts : option bool;
  la_IncludeOutputLockingScripts : option bool;
}.
Record ListFailedActionsArgs := mkListFailed {
  lf_Unfail : option bool;
  lf_Limit : Z;
  lf_Offset : Z;
  lf_SeekPermission : option bool;
  lf_IncludeInputs : option bool;
  lf_IncludeOutputs : option bool;
  lf_IncludeLabels : option bool;
  lf_IncludeInputSourceLockingScripts : option bool;
  lf_IncludeInputUnlockingScripts : option bool;
  lf_IncludeOutputLockingScripts : option bool;
}.
Record ListTransactionsArgs := mkListTxs {
  lt_Limit : Z;
  lt_Offset : Z;
  lt_Status : option string;
  lt_TxIDs : list string;
  lt_Labels : list string;
  lt_LabelQueryMode : string;
}.
Record ListOutputsArgs := mkListOutputs {
  lo_Basket : string;
  lo_Tags : list string;
  lo_TagQueryMode : option string;
  lo_IncludeLockingScripts : bool;
  lo_IncludeTransactions : bool;
  lo_IncludeCustomInstructions : bool;
  lo_IncludeTags : bool;
  lo_Limit : Z;
  lo_Offset : Z;
  lo_KnownTxids : list string;
}.
Record RelinquishOutputArgs := mkRelinquish { rq_Basket : string; rq_Output : string }.

(** ** Certificates *)

Record ListCertificatesArgs := mkListCerts {
  lc_SerialNumber : option string;
  lc_Subject : option string;
  lc_RevocationOutpoint : option string;
  lc_Signature : option string;
  lc_Certifiers : list string;
  lc_Types : list string;
  lc_Limit : Z;
  lc_Offset : Z;
}.
Record RelinquishCertificateArgs := mkRelCert { rc_Type : string; rc_SerialNumber : string; rc_Certifier : string }.
(** A certificate with its fields; the field pointers may be nil. *)
Record TableCertificateX := mkCertX {
  cx_Certificate : Catalog.TableCertificate;
  cx_Fields : list (option Catalog.TableCertificateField);
}.

(** ** Synchronization *)

Record RequestSyncChunkArgs := mkSyncArgs {
  rs_FromStorageIdentityKey : string;
  rs_ToStorageIdentityKey : string;
  rs_IdentityKey : string;
  rs_Since : option Time;
  rs_MaxRoughSize : Z;
  rs_MaxItems : Z;
}.
End Requests.

(** ** Time labels *)

Module Brc114.

Definition ActionTimeFromPrefix : string := "action time from ".
Definition ActionTimeToPrefix : string := "action time to ".
Definition ActionTimeLabelPrefix : string := "action time ".
Definition MaxSafeInteger : Z := 9007199254740991.

Record ParsedActionTimeLabels := mkTimeLabels {
  tl_From : option Z;
  tl_To : option Z;
  tl_TimeFilterRequested : bool;
  tl_RemainingLabels : list string;
}.
(** [actionTimeParseState]. *)
Record parseState := mkState { ps_from : option Z; ps_to : option Z; ps_requested : bool }.

Definition isAllDigits (s : string) : bool := forallb is_digit (list_ascii_of_string s).
(** [strconv.ParseInt(v, 10, 64)] on digits only. *)
Definition parseUnixMillis (v kind : string) : outcome string Z :=
  let invalid := Err ("labels: valid. Invalid action time " ++ kind ++ " timestamp value") in
  if bool_decide (v = "") || negb (isAllDigits v) then invalid
  else match ParseUint 63 (list_ascii_of_string v) with
       | None => invalid
       | Some n => if MaxSafeInteger <? n then invalid else Ret n
       end.

Definition after_prefix (prefix label : string) : option string :=
  if String.prefix prefix label
  then Some (substring (String.length prefix) (String.length label - String.length prefix) label) else None.
Definition consume (s : parseState) (label : string) : outcome string (parseState * bool) :=
  match after_prefix ActionTimeFromPrefix label with
  | Some v =>
      match ps_from s with
      | Some _ => Err "labels: valid. Duplicate action time from label"
      | None => n ← parseUnixMillis v "from"; Ret (mkState (Some n) (ps_to s) true, true)
      end
  | None =>
      match after_prefix ActionTimeToPrefix label with
      | Some v =>
          match ps_to s with
          | Some _ => Err "labels: valid. Duplicate action time to label"
          | None => n ← parseUnixMillis v "to"; Ret (mkState (ps_from s) (Some n) true, true)
          end
      | None => Ret (s, false)
      end
  end.
Definition validateRange (s : parseState) : outcome string () :=
  match ps_from s, ps_to s with
  | Some f, Some t => if t <=? f then Err "labels: valid. action time from must be less than action time to" else Ret ()
  | _, _ => Ret ()
  end.
Fixpoint parse_labels (s : parseState) (labels : list string) : outcome string (parseState * list string) :=
  match labels with
  | [] => Ret (s, [])
  | label :: rest =>
      '(s', handled) ← consume s label;
      '(s'', remaining) ← parse_labels s' rest;
      Ret (s'', if (handled : bool) then remaining else label :: remaining)
  end.
Definition ParseActionTimeLabels (labels : list string) : outcome string ParsedActionTimeLabels :=
  '(s, remaining) ← parse_labels (mkState None None false) labels;
  _ ← validateRange s;
  Ret (mkTimeLabels (ps_from s) (ps_to s) (ps_requested s) remaining).
(** [%d] of a millisecond count; the sign comes first. *)
Definition MakeActionTimeLabel (unixMillis : Z) : string :=
  ActionTimeLabelPrefix ++ (if unixMillis <? 0 then "-" else "") ++ string_of_list_ascii (FormatUint (Z.abs unixMillis)).
End Brc114.
