(* ===== verification/Ledger.v ===== *)
(** * Outbox: the crash-recovery queue of coin-store operations

    [OutboxRepo] of [pkg/storage/internal/metastore/outbox.go] and the operations the
    provider puts into it ([pkg/storage/reconciler.go], [pkg/storage/abort.go]).

    A payload is the struct that its JSON text carries: each is written by
    [json.Marshal] from, and read by [json.Unmarshal] into, the same struct of
    strings and integers. *)
From Stdlib Require Import Ascii String.
From S2P Require Import Prelude UtxoTypes Statuses KnownTx Catalog.
Import KnownTxRepo.
Local Open Scope string_scope.
Local Open Scope Z_scope.

Module Outbox.

Definition opUnspend : string := "UNSPEND".
Definition opReleaseResv : string := "RELEASE".
Definition opRemovePhantom : string := "REMOVE_PHANTOM".
Definition opRemoveMinted : string := "REMOVE_MINTED".
Definition opAbortRelease : string := "ABORT_RELEASE".
Definition opAbortRemoveChange : string := "ABORT_REMOVE_CHANGE".

(** Outpoints are carried as text, [txid:vout]. *)
Inductive payload :=
| unspendPayload (SpendingTxID : string) (Ops : list string)
| releasePayload (Reservation : string) (Ops : list string)
| removePhantomPayload (Ops : list string)
| removeMintedPayload (MintTxID : string) (Ops : list string)
| abortReleasePayload (UserID : Z) (Reservation : string)
| abortRemoveChangePayload (MintTxID : string) (Ops : list string).

Record OutboxEntry := mkEntry {
  e_TxID : Raw;
  e_OpType : string;
  e_Chunk : Z;
  e_Payload : payload;
  e_Attempts : Z;
  e_LastError : option string;
  e_CreatedAt : Time;
}.

Definition MaxOutboxAttempts : Z := 10.

(** The table; (txid, op_type, chunk) is its key. *)
Abbreviation outbox := (gmap (Raw * string * Z) OutboxEntry).
Abbreviation OM := (M outbox meta_error).

Definition Enqueue (now : Time) (txid : Raw) (opType : string) (chunk : Z) (pl : payload) : OM () :=
  modify (λ t : outbox,
    match t !! (txid, opType, chunk) with
    | Some _ => t
    | None => <[(txid, opType, chunk) := mkEntry txid opType chunk pl 0 None now]> t
    end).

Definition pending (e : OutboxEntry) : bool := e_Attempts e <? MaxOutboxAttempts.

(** [ORDER BY created_at, op_type, chunk]. *)
Definition by_age (a b : OutboxEntry) : comparison :=
  then_cmp (Z.compare (e_CreatedAt a) (e_CreatedAt b))
    (then_cmp (String.compare (e_OpType a) (e_OpType b)) (Z.compare (e_Chunk a) (e_Chunk b))).

Definition FetchPending `{MapRange} (limit : Z) : OM (list OutboxEntry) :=
  if limit <=? 0 then mret []
  else gets (λ t : outbox, slice_to limit (SortFunc by_age
         (filter (λ e, pending e = true) (snd <$> range_map t)))).

Definition MarkDone (txid : Raw) (opType : string) (chunk : Z) : OM () :=
  modify (λ t : outbox, delete (txid, opType, chunk) t).

Definition RecordError (txid : Raw) (opType : string) (chunk : Z) (errMsg : string) : OM () :=
  modify (λ t : outbox, alter (λ e, mkEntry (e_TxID e) (e_OpType e) (e_Chunk e) (e_Payload e)
    (e_Attempts e + 1) (Some errMsg) (e_CreatedAt e)) (txid, opType, chunk) t).

Definition CountPending : OM Z :=
  gets (λ t : outbox, Z.of_nat (size (filter (λ kr, pending kr.2 = true) t))).
Definition CountParked : OM Z :=
  gets (λ t : outbox, Z.of_nat (size (filter (λ kr, pending kr.2 = false) t))).
End Outbox.

(** * Ledger: the transactions and outputs tables

    [pkg/storage/internal/metastore]: the rows and repository methods of
    [transactions.go] and [outputs.go] and their part of [monitor.go].  [Meta] is
    the whole metadata store; the tables are maps from their identity column.
    The paged listings are in [Queries].  As in [KnownTx], every
    method is one statement and [now] is its reading of the store clock. *)
Import WdkStatus ArcadeStatus KnownTxRepo Outbox.
Local Open Scope string_scope.
Local Open Scope Z_scope.

Module Ledger.

(** ** Rows *)

(** A transactions row; [tx_TxID] is the raw txid column. *)
Record TableTransaction := mkTx {
  tx_UserID : Z;
  tx_ProvenTxID : option Z;
  tx_Status : TxStatus;
  tx_Reference : string;
  tx_TxID : option string;
  tx_IsOutgoing : bool;
  tx_Satoshis : Z;
  tx_Description : string;
  tx_Version : option Z;
  tx_LockTime : option Z;
  tx_InputBEEF : Bytes;
  tx_CreatedAt : Time;
  tx_UpdatedAt : Time;
}.
Definition set_tx_Status (v : TxStatus) (r : TableTransaction) : TableTransaction :=
  mkTx (tx_UserID r) (tx_ProvenTxID r) v (tx_Reference r) (tx_TxID r) (tx_IsOutgoing r)
    (tx_Satoshis r) (tx_Description r) (tx_Version r) (tx_LockTime r) (tx_InputBEEF r)
    (tx_CreatedAt r) (tx_UpdatedAt r).
Definition set_tx_TxID (v : option string) (r : TableTransaction) : TableTransaction :=
  mkTx (tx_UserID r) (tx_ProvenTxID r) (tx_Status r) (tx_Reference r) v (tx_IsOutgoing r)
    (tx_Satoshis r) (tx_Description r) (tx_Version r) (tx_LockTime r) (tx_InputBEEF r)
    (tx_CreatedAt r) (tx_UpdatedAt r).
Definition set_tx_InputBEEF (v : Bytes) (r : TableTransaction) : TableTransaction :=
  mkTx (tx_UserID r) (tx_ProvenTxID r) (tx_Status r) (tx_Reference r) (tx_TxID r)
    (tx_IsOutgoing r) (tx_Satoshis r) (tx_Description r) (tx_Version r) (tx_LockTime r) v
    (tx_CreatedAt r) (tx_UpdatedAt r).
Definition set_tx_UpdatedAt (v : Time) (r : TableTransaction) : TableTransaction :=
  mkTx (tx_UserID r) (tx_ProvenTxID r) (tx_Status r) (tx_Reference r) (tx_TxID r)
    (tx_IsOutgoing r) (tx_Satoshis r) (tx_Description r) (tx_Version r) (tx_LockTime r)
    (tx_InputBEEF r) (tx_CreatedAt r) v.

(** An outputs row; [o_SpentBy] is the identity of the spending transaction. *)
Record TableOutput := mkOutput {
  o_UserID : Z;
  o_TransactionID : Z;
  o_Vout : Z;
  o_Satoshis : Z;
  o_LockingScript : Bytes;
  o_Basket : option string;
  o_SpentBy : option Z;
  o_Change : bool;
  o_Type : string;
  o_ProvidedBy : string;
  o_Purpose : string;
  o_Description : string;
  o_DerivationPrefix : option string;
  o_DerivationSuffix : option string;
  o_SenderIdentityKey : option string;
  o_CustomInstructions : option string;
  o_CreatedAt : Time;
  o_UpdatedAt : Time;
}.
Definition set_o_Basket (v : option string) (r : TableOutput) : TableOutput :=
  mkOutput (o_UserID r) (o_TransactionID r) (o_Vout r) (o_Satoshis r) (o_LockingScript r) v
    (o_SpentBy r) (o_Change r) (o_Type r) (o_ProvidedBy r) (o_Purpose r) (o_Description r)
    (o_DerivationPrefix r) (o_DerivationSuffix r) (o_SenderIdentityKey r)
    (o_CustomInstructions r) (o_CreatedAt r) (o_UpdatedAt r).
Definition set_o_SpentBy (v : option Z) (r : TableOutput) : TableOutput :=
  mkOutput (o_UserID r) (o_TransactionID r) (o_Vout r) (o_Satoshis r) (o_LockingScript r)
    (o_Basket r) v (o_Change r) (o_Type r) (o_ProvidedBy r) (o_Purpose r) (o_Description r)
    (o_DerivationPrefix r) (o_DerivationSuffix r) (o_SenderIdentityKey r)
    (o_CustomInstructions r) (o_CreatedAt r) (o_UpdatedAt r).
Definition set_o_UpdatedAt (v : Time) (r : TableOutput) : TableOutput :=
  mkOutput (o_UserID r) (o_TransactionID r) (o_Vout r) (o_Satoshis r) (o_LockingScript r)
    (o_Basket r) (o_SpentBy r) (o_Change r) (o_Type r) (o_ProvidedBy r) (o_Purpose r)
    (o_Description r) (o_DerivationPrefix r) (o_DerivationSuffix r) (o_SenderIdentityKey r)
    (o_CustomInstructions r) (o_CreatedAt r) v.

(** The labels of transactions, or the tags of outputs: the named rows of a user, their
    edges to the labelled rows, and the identity sequence. *)
Record NamedRow := mkNamed { nm_ID : Z; nm_IsDeleted : bool; nm_CreatedAt : Time; nm_UpdatedAt : Time }.
Record Edge := mkEdge { ed_IsDeleted : bool; ed_CreatedAt : Time }.
Record Names := mkNames { n_rows : gmap (Z * string) NamedRow; n_edges : gmap (Z * Z) Edge; n_next : Z }.
Definition no_names : Names := mkNames ∅ ∅ 1.
Definition no_catalog : Catalog.Catalog := Catalog.empty_catalog.

(** [nextTransactionID] and [nextOutputID] are the identity sequences. *)
Record Meta := mkMeta {
  known_txs : table;
  transactions : gmap Z TableTransaction;
  outputs : gmap Z TableOutput;
  utxo_ops_outbox : outbox;
  nextTransactionID : Z;
  nextOutputID : Z;
  meta_closed : bool;
  labels : Names;
  tags : Names;
  catalog : Catalog.Catalog;
}.
Definition with_known (t : table) (m : Meta) : Meta :=
  mkMeta t (transactions m) (outputs m) (utxo_ops_outbox m) (nextTransactionID m) (nextOutputID m) (meta_closed m)
    (labels m) (tags m) (catalog m).
Definition with_transactions (t : gmap Z TableTransaction) (m : Meta) : Meta :=
  mkMeta (known_txs m) t (outputs m) (utxo_ops_outbox m) (nextTransactionID m) (nextOutputID m) (meta_closed m)
    (labels m) (tags m) (catalog m).
Definition with_outputs (t : gmap Z TableOutput) (m : Meta) : Meta :=
  mkMeta (known_txs m) (transactions m) t (utxo_ops_outbox m) (nextTransactionID m) (nextOutputID m) (meta_closed m)
    (labels m) (tags m) (catalog m).
Definition with_outbox (t : outbox) (m : Meta) : Meta :=
  mkMeta (known_txs m) (transactions m) (outputs m) t (nextTransactionID m) (nextOutputID m) (meta_closed m)
    (labels m) (tags m) (catalog m).
Definition with_labels (t : Names) (m : Meta) : Meta :=
  mkMeta (known_txs m) (transactions m) (outputs m) (utxo_ops_outbox m) (nextTransactionID m) (nextOutputID m)
    (meta_closed m) t (tags m) (catalog m).
Definition with_tags (t : Names) (m : Meta) : Meta :=
  mkMeta (known_txs m) (transactions m) (outputs m) (utxo_ops_outbox m) (nextTransactionID m) (nextOutputID m)
    (meta_closed m) (labels m) t (catalog m).
Definition with_catalog (t : Catalog.Catalog) (m : Meta) : Meta :=
  mkMeta (known_txs m) (transactions m) (outputs m) (utxo_ops_outbox m) (nextTransactionID m) (nextOutputID m)
    (meta_closed m) (labels m) (tags m) t.

Abbreviation L A := (M Meta meta_error A).

(** A method of [KnownTxRepo] run on the store. *)
Definition known {A} (m : K A) : L A := zoom known_txs with_known id m.
(** A method of [OutboxRepo] run on the store. *)
Definition on_outbox {A} (m : OM A) : L A := zoom utxo_ops_outbox with_outbox id m.
(** A method of the users, baskets, certificates or sync-state repository. *)
Definition on_catalog {A} (m : M Catalog.Catalog meta_error A) : L A := zoom catalog with_catalog id m.

(** ** TransactionsRepo *)

(** [UPDATE transactions SET f WHERE P]; the result is RowsAffected. *)
Definition update_txs (P : Z → TableTransaction → bool) (f : TableTransaction → TableTransaction) :
    L Z := λ m,
  (Ret (Z.of_nat (size (filter (λ kr : Z * TableTransaction, P kr.1 kr.2 = true) (transactions m)))),
   with_transactions (map_imap (λ k r, Some (if P k r then f r else r)) (transactions m)) m).

Definition tx_status_in (sts : list TxStatus) (r : TableTransaction) : bool :=
  match sts with [] => true | _ => is_one_of (tx_Status r) sts end.
Definition tx_has (raws : list string) (r : TableTransaction) : bool :=
  match tx_TxID r with Some raw => bool_decide (raw ∈ raws) | None => false end.

(** The INSERT statement of [Insert], which attaches the labels after it; a reference is
    unique across users. *)
Record NewTx := mkNewTx {
  nt_UserID : Z;
  nt_Status : TxStatus;
  nt_Reference : string;
  nt_IsOutgoing : bool;
  nt_Satoshis : Z;
  nt_Description : string;
  nt_Version : option Z;
  nt_LockTime : option Z;
  nt_InputBEEF : Bytes;
  nt_Labels : list string;
}.
Definition insert_tx (now : Time) (tx : NewTx) : L Z := λ m,
  if decide (map_Exists (λ _ r, tx_Reference r = nt_Reference tx) (transactions m))
  then (Err (ConstraintViolation "transactions.reference"), m)
  else
    let id := nextTransactionID m in
    let r := mkTx (nt_UserID tx) None (nt_Status tx) (nt_Reference tx) None (nt_IsOutgoing tx) (nt_Satoshis tx)
               (nt_Description tx) (nt_Version tx) (nt_LockTime tx) (nt_InputBEEF tx) now now in
    (Ret id, mkMeta (known_txs m) (<[id := r]> (transactions m)) (outputs m) (utxo_ops_outbox m) (id + 1)
               (nextOutputID m) (meta_closed m) (labels m) (tags m) (catalog m)).

(** [INSERT INTO labels (or tags) ... ON CONFLICT (user_id, name) DO UPDATE], and the
    edge to the labelled row. *)
Definition upsertNamed (now : Time) (userID : Z) (name : string) : M Names meta_error Z := λ n,
  match n_rows n !! (userID, name) with
  | Some r => (Ret (nm_ID r), mkNames (<[(userID, name) := mkNamed (nm_ID r) false (nm_CreatedAt r) now]> (n_rows n))
                                (n_edges n) (n_next n))
  | None => (Ret (n_next n), mkNames (<[(userID, name) := mkNamed (n_next n) false now now]> (n_rows n))
                               (n_edges n) (n_next n + 1))
  end.
Definition link (now : Time) (ownerID nameID : Z) : M Names meta_error () := λ n,
  (Ret (), mkNames (n_rows n)
     (<[(ownerID, nameID) := mkEdge false (from_option ed_CreatedAt now (n_edges n !! (ownerID, nameID)))]> (n_edges n))
     (n_next n)).
Definition on_labels {A} (m : M Names meta_error A) : L A := zoom labels with_labels id m.
Definition on_tags {A} (m : M Names meta_error A) : L A := zoom tags with_tags id m.

Definition FindByID (id : Z) : L (option TableTransaction) := gets (λ m, transactions m !! id).

Definition existsByID (id : Z) : L bool := gets (λ m, bool_decide (is_Some (transactions m !! id))).

Definition SetTxID (now : Time) (transactionID : Z) (txid : string) : L () :=
  raw ← lift (encTxID txid);
  n ← update_txs (λ id r, (id =? transactionID) &&
                          bool_decide (tx_TxID r = None ∨ tx_TxID r = Some raw))
        (λ r, set_tx_TxID (Some raw) (set_tx_UpdatedAt now r));
  if 0 <? n then mret ()
  else existsByID transactionID ≫= λ ex : bool, throw (if ex then ErrTxIDMismatch else ErrNotFound).

Definition applyStatusUpdate (n : Z) (guarded : bool) : L () :=
  if (n =? 0) && guarded then throw ErrStatusUpdateSkipped else mret ().
Definition nonempty {A} (l : list A) : bool := match l with [] => false | _ => true end.

Definition to_tx_status (now : Time) (status : TxStatus) (r : TableTransaction) : TableTransaction :=
  set_tx_Status status (set_tx_UpdatedAt now r).
Definition UpdateStatus (now : Time) (transactionID : Z) (status : TxStatus)
    (expectedCurrent : list TxStatus) : L () :=
  n ← update_txs (λ id r, (id =? transactionID) && tx_status_in expectedCurrent r)
        (to_tx_status now status);
  applyStatusUpdate n (nonempty expectedCurrent).
Definition UpdateStatusByTxID (now : Time) (txid : string) (status : TxStatus)
    (expectedCurrent : list TxStatus) : L () :=
  raw ← lift (encTxID txid);
  n ← update_txs (λ _ r, tx_has [raw] r && tx_status_in expectedCurrent r) (to_tx_status now status);
  applyStatusUpdate n (nonempty expectedCurrent).
Definition BulkUpdateStatusByTxIDs (now : Time) (txids : list string) (status : TxStatus)
    (expectedCurrent : list TxStatus) : L () :=
  match txids with
  | [] => mret ()
  | _ =>
      ids ← lift (sortedRawTxIDs txids);
      _ ← update_txs (λ _ r, tx_has ids r && tx_status_in expectedCurrent r) (to_tx_status now status);
      mret ()
  end.

Definition drop_beef (now : Time) (r : TableTransaction) : TableTransaction :=
  set_tx_InputBEEF [] (set_tx_UpdatedAt now r).
Definition ClearInputBEEFByTxID (now : Time) (txid : string) : L () :=
  raw ← lift (encTxID txid);
  _ ← update_txs (λ _ r, tx_has [raw] r && nonempty (tx_InputBEEF r)) (drop_beef now);
  mret ().
Definition BulkClearInputBEEFByTxIDs (now : Time) (txids : list string) : L () :=
  match txids with
  | [] => mret ()
  | _ =>
      ids ← lift (sortedRawTxIDs txids);
      _ ← update_txs (λ _ r, tx_has ids r && nonempty (tx_InputBEEF r)) (drop_beef now);
      mret ()
  end.

(** Rows in the order of the identity column. *)
Definition by_id {A} (a b : Z * A) : comparison := Z.compare a.1 b.1.
Definition by_id_desc {A} (a b : Z * A) : comparison := Z.compare b.1 a.1.
Definition select_txs (P : Z → TableTransaction → bool)
    (cmp : Z * TableTransaction → Z * TableTransaction → comparison) (m : Meta) :
    list (Z * TableTransaction) :=
  SortFunc cmp (filter (λ kr : Z * TableTransaction, P kr.1 kr.2 = true) (map_to_list (transactions m))).

Definition FindByReference (userID : Z) (reference : string) : L (option (Z * TableTransaction)) :=
  gets (λ m, head (select_txs (λ _ r, (tx_UserID r =? userID) && bool_decide (tx_Reference r = reference))
                     by_id m)).
Definition Transactions_FindByTxID (userID : Z) (txid : string) : L (list (Z * TableTransaction)) :=
  raw ← lift (encTxID txid);
  gets (select_txs (λ _ r, (tx_UserID r =? userID) && tx_has [raw] r) by_id_desc).
Definition FindByTxIDAllUsers (txid : string) : L (list (Z * TableTransaction)) :=
  raw ← lift (encTxID txid); gets (select_txs (λ _ r, tx_has [raw] r) by_id_desc).
Definition GetInputBEEFByTxID (txid : string) : L (option Bytes) :=
  raw ← lift (encTxID txid);
  gets (λ m, tx_InputBEEF ∘ snd <$>
    head (select_txs (λ _ r, tx_has [raw] r && nonempty (tx_InputBEEF r)) by_id m)).

(** Rows newest first, so that the oldest row of a txid is the last to be written. *)
Definition InputBEEFByTxIDs (txids : list string) : L (gmap string Bytes) :=
  match txids with
  | [] => mret ∅
  | _ =>
      ids ← lift (encode_all txids);
      gets (λ m, foldl (λ (out : gmap string Bytes) (kr : Z * TableTransaction),
        match tx_TxID kr.2 ≫= decTxIDPtr with
        | Some txid => <[txid := tx_InputBEEF kr.2]> out
        | None => out
        end) ∅ (select_txs (λ _ r, tx_has ids r && nonempty (tx_InputBEEF r)) by_id_desc m))
  end.

Definition by_tx_created (a b : Z * TableTransaction) : comparison :=
  then_cmp (Z.compare (tx_CreatedAt a.2) (tx_CreatedAt b.2)) (by_id a b).
Definition FindAbandonedBefore (cutoff : Time) (limit : Z) : L (list (Z * TableTransaction)) :=
  gets (λ m, limited limit (select_txs (λ _ r,
    tx_status_in [TxStatusUnsigned; TxStatusNoSend] r && (tx_CreatedAt r <=? cutoff)) by_tx_created m)).
Definition FindAbandoned (now : Time) (grace limit : Z) : L (list (Z * TableTransaction)) :=
  FindAbandonedBefore (now - grace) limit.

(** ** The mined-repair work list *)

Definition deadTransactionStatuses : list TxStatus := [TxStatusAborted; TxStatusFailed].
Definition FindMinedOnDeadTransactions `{MapRange} (arcadeStatuses : list string) (limit : Z) :
    L (list KnownTx) :=
  match arcadeStatuses with
  | [] => mret []
  | _ => λ m, known (queryList (λ kr,
           match kt_ArcadeStatus kr.2 with Some a => is_one_of a arcadeStatuses | None => false end &&
           nonempty (select_txs (λ _ r, tx_has [kr.1] r && tx_status_in deadTransactionStatuses r)
                       by_id m)) pollOrder limit) m
  end.

(** ** OutputsRepo *)

(** An output joined with its transaction: identity, row, parent txid, and the tags a
    listing attaches. *)
Record OutputRow := mkOutputRow {
  or_OutputID : Z;
  or_row : TableOutput;
  or_TxID : option string;
  or_Tags : list string;
}.

(** [SELECT ... FROM outputs o JOIN transactions t ... WHERE P ORDER BY output_id]. *)
Definition select_outputs (P : Z → TableOutput → TableTransaction → bool) (m : Meta) : list OutputRow :=
  omap (λ kr : Z * TableOutput,
    match transactions m !! o_TransactionID kr.2 with
    | Some t => if P kr.1 kr.2 t
                then Some (mkOutputRow kr.1 kr.2 (tx_TxID t ≫= decTxIDPtr) []) else None
    | None => None
    end) (SortFunc by_id (map_to_list (outputs m))).

Definition FindChangeOutputsByTxIDs (txids : list string) : L (list OutputRow) :=
  match txids with
  | [] => mret []
  | _ => ids ← lift (encode_all txids); gets (select_outputs (λ _ o t, tx_has ids t && o_Change o))
  end.

(** The filters of FindOutputs; [Spendable] is ignored by the code and left out. *)
Record FindOutputsArgs := mkFindOutputsArgs {
  fo_UserID : option Z;
  fo_OutputID : option Z;
  fo_Satoshis : option Z;
  fo_TransactionID : option Z;
  fo_TxID : option string;
  fo_Vout : option Z;
  fo_Change : option bool;
  fo_TxStatus : list TxStatus;
}.
(** [if x != nil { col = ? }]. *)
Definition opt_filter {A} `{EqDecision A} (x : option A) (col : A) : bool :=
  match x with Some v => bool_decide (col = v) | None => true end.
Definition encTxID_opt (txid : option string) : outcome meta_error (option Raw) :=
  match txid with Some t => raw ← encTxID t; Ret (Some raw) | None => Ret None end.
Definition FindOutputs (args : FindOutputsArgs) : L (list OutputRow) :=
  raw ← lift (encTxID_opt (fo_TxID args));
  gets (select_outputs (λ id o t,
    opt_filter (fo_UserID args) (o_UserID o) && opt_filter (fo_OutputID args) id &&
    opt_filter (fo_TransactionID args) (o_TransactionID o) &&
    opt_filter (fo_Satoshis args) (o_Satoshis o) && opt_filter (fo_Vout args) (o_Vout o) &&
    opt_filter (fo_Change args) (o_Change o) &&
    match raw with Some raw => tx_has [raw] t | None => true end &&
    tx_status_in (fo_TxStatus args) t)).

(** One statement per chunk of [outpointChunk] outpoints. *)
Definition outpointChunk : nat := 400.
Definition FindOutputsByOutpoints_chunk (userID : Z) (ops : list (string * Z)) : L (list OutputRow) :=
  ids ← lift (encode_all (fst <$> ops));
  gets (select_outputs (λ _ o t, (o_UserID o =? userID) &&
          match tx_TxID t with
          | Some raw => bool_decide ((raw, o_Vout o) ∈ zip ids (snd <$> ops))
          | None => false
          end)).
Fixpoint chunks_of (fuel : nat) {A} (n : nat) (l : list A) : list (list A) :=
  match fuel, l with
  | S fuel', _ :: _ => take n l :: chunks_of fuel' n (drop n l)
  | _, _ => []
  end.
Fixpoint FindOutputsByOutpoints_loop (userID : Z) (cs : list (list (string * Z))) : L (list OutputRow) :=
  match cs with
  | [] => mret []
  | c :: cs' =>
      page ← FindOutputsByOutpoints_chunk userID c;
      rest ← FindOutputsByOutpoints_loop userID cs';
      mret (page ++ rest)%list
  end.
Definition FindOutputsByOutpoints (userID : Z) (ops : list (string * Z)) : L (list OutputRow) :=
  FindOutputsByOutpoints_loop userID (chunks_of (length ops) outpointChunk ops).

(** The INSERT statement of the outputs repository: the parent must exist, and an
    index of a transaction is used once. *)
Record NewOutput := mkNewOutput {
  no_UserID : Z;
  no_TransactionID : Z;
  no_Vout : Z;
  no_Satoshis : Z;
  no_LockingScript : Bytes;
  no_Basket : option string;
  no_SpentBy : option Z;
  no_Change : bool;
  no_Type : string;
  no_ProvidedBy : string;
  no_Purpose : string;
  no_Description : string;
  no_DerivationPrefix : option string;
  no_DerivationSuffix : option string;
  no_SenderIdentityKey : option string;
  no_CustomInstructions : option string;
  no_Tags : list string;
}.
Definition insert_output (now : Time) (o : NewOutput) : L Z := λ m,
  match transactions m !! no_TransactionID o with
  | None => (Err (ConstraintViolation "outputs.transaction_id"), m)
  | Some _ =>
      if decide (map_Exists (λ _ r, o_TransactionID r = no_TransactionID o ∧ o_Vout r = no_Vout o) (outputs m))
      then (Err (ConstraintViolation "outputs.transaction_id, outputs.vout"), m)
      else
        let id := nextOutputID m in
        let r := mkOutput (no_UserID o) (no_TransactionID o) (no_Vout o) (no_Satoshis o) (no_LockingScript o)
                   (no_Basket o) (no_SpentBy o) (no_Change o) (no_Type o) (no_ProvidedBy o) (no_Purpose o)
                   (no_Description o) (no_DerivationPrefix o) (no_DerivationSuffix o) (no_SenderIdentityKey o)
                   (no_CustomInstructions o) now now in
        (Ret id, mkMeta (known_txs m) (transactions m) (<[id := r]> (outputs m)) (utxo_ops_outbox m)
                   (nextTransactionID m) (id + 1) (meta_closed m) (labels m) (tags m) (catalog m))
  end.

Definition CountInBasket (userID : Z) (basket : string) : L Z :=
  gets (λ m, Z.of_nat (size (filter (λ kr : Z * TableOutput,
    o_UserID kr.2 = userID ∧ o_Basket kr.2 = Some basket) (outputs m)))).

(** [UPDATE outputs SET f WHERE P]; the result is RowsAffected. *)
Definition update_outputs (P : Z → TableOutput → bool) (f : TableOutput → TableOutput) : L Z := λ m,
  (Ret (Z.of_nat (size (filter (λ kr : Z * TableOutput, P kr.1 kr.2 = true) (outputs m)))),
   with_outputs (map_imap (λ k r, Some (if P k r then f r else r)) (outputs m)) m).

Definition MarkSpent (now : Time) (spendingTransactionID : Z) (outputIDs : list Z) : L () :=
  match outputIDs with
  | [] => mret ()
  | _ =>
      _ ← update_outputs (λ id _, bool_decide (id ∈ outputIDs))
            (λ o, set_o_SpentBy (Some spendingTransactionID) (set_o_UpdatedAt now o));
      mret ()
  end.
Definition ClearSpentBy (now : Time) (spendingTransactionID : Z) : L () :=
  _ ← update_outputs (λ _ o, bool_decide (o_SpentBy o = Some spendingTransactionID))
        (λ o, set_o_SpentBy None (set_o_UpdatedAt now o));
  mret ().

(** The outpoint predicate of RelinquishOutput. *)
Definition owns_outpoint (userID : Z) (raw : Raw) (vout : Z) (m : Meta) (o : TableOutput) : bool :=
  (o_UserID o =? userID) && (o_Vout o =? vout) &&
  match transactions m !! o_TransactionID o with
  | Some t => (tx_UserID t =? userID) && tx_has [raw] t
  | None => false
  end.
Definition relinquish_in (now : Time) (userID : Z) (basket : string) (raw : Raw) (vout : Z) : L Z :=
  λ m, update_outputs (λ _ o, owns_outpoint userID raw vout m o &&
         bool_decide (basket = "" ∨ o_Basket o = Some basket))
         (λ o, set_o_Basket None (set_o_UpdatedAt now o)) m.
Definition RelinquishOutput (now : Time) (userID : Z) (basket txid : string) (vout : Z) : L () :=
  raw ← lift (encTxID txid);
  n ← relinquish_in now userID basket raw vout;
  if 0 <? n then mret ()
  else gets (λ m, bool_decide (filter (λ kr : Z * TableOutput,
               owns_outpoint userID raw vout m kr.2 = true) (outputs m) ≠ ∅)) ≫= λ ex : bool,
       throw (if ex then ErrOutputBasketMismatch else ErrNotFound).

End Ledger.
