(* ===== verification/StatusUpdates.v ===== *)
(** * StatusUpdates: applying the network's verdicts to the wallet

    [pkg/storage/status_updates.go]: [ApplyStatusUpdate], the single entry point of
    one status record, with its appliers and the mined repair, and
    [ApplyStatusBatch], the batched form.  The provider's state is the metadata
    store, the coin store and the number of clock readings made so far.

    Parsing of hashes, merkle paths and raw transactions belongs to the SDK and is
    a parameter ([Sdk]); so is the header source ([Headers]).  Log lines are left
    out. *)
From Stdlib Require Import Ascii String.
From S2P Require Import Prelude UtxoTypes MemStore Statuses Collector KnownTx Ledger.
Import WdkStatus ArcadeStatus KnownTxRepo Ledger.
Local Open Scope string_scope.
Local Open Scope Z_scope.

(** ** What the SDK and the header service provide *)

(** [Inputs] of a parsed transaction: source txid (nil-able) and output index. *)
Class Sdk := {
  NewHashFromHex : string → option Hash;
  Hash_String : Hash → string;
  MerklePath : Type;
  NewMerklePathFromBinary : Bytes → option MerklePath;
  mp_BlockHeight : MerklePath → Z;
  mp_ComputeRoot : MerklePath → Hash → option Hash;
  mp_Bytes : MerklePath → Bytes;
  NewTransactionFromBytes : Bytes → option (list (option Hash * Z));
}.

(** [headers.Headers]; [None] is an error. *)
Record Headers := mkHeaders {
  VerifyMerkleRoot : Hash → Z → option bool;
  HeaderByHeight : Z → option Hash;
}.

Module StatusUpdates.

(** The 32 bytes of a hash. *)
Fixpoint le_bytes (n : nat) (z : Z) : Bytes :=
  match n with O => [] | S n' => ascii_of_nat (Z.to_nat (z mod 256)) :: le_bytes n' (z / 256) end.
Definition hash_bytes (h : Hash) : Bytes := le_bytes 32 h.

(** The fields of [arcade.TxRecord] the provider reads. *)
Record TxRecord := mkTxRecord {
  rec_TxID : string;
  rec_Status : Status;
  rec_StatusCode : Z;
  rec_BlockHash : string;
  rec_BlockHeight : Z;
  rec_MerklePath : Bytes;
  rec_ExtraInfo : string;
  rec_CompetingTxs : list string;
  rec_RawTx : Bytes;
}.

Definition seenFencedStatuses : list ProvenTxReqStatus := [KnownTxStatusAborted; KnownTxStatusStuck].
Definition seenAdvanceSkipStatuses : list ProvenTxReqStatus :=
  (ProvenTxReqBeyondBroadcastStageStatuses ++ seenFencedStatuses)%list.
Definition isSeenFenced (st : ProvenTxReqStatus) : bool := is_one_of st seenFencedStatuses.
Definition minedRepairStatuses : list ProvenTxReqStatus :=
  [ProvenTxStatusInvalid; ProvenTxStatusDoubleSpend; KnownTxStatusStuck; KnownTxStatusAborted].
Definition isMinedRepairStatus (st : ProvenTxReqStatus) : bool := is_one_of st minedRepairStatuses.
Definition isMinedClass (s : Status) : bool := is_one_of s [StatusMined; StatusImmutable].
Definition minedRepairTxStatuses : list TxStatus :=
  [TxStatusSending; TxStatusNoSend; TxStatusUnproven; TxStatusUnprocessed; TxStatusCompleted;
   TxStatusFailed; TxStatusAborted].

(** ** The provider *)

Record Provider := mkProvider { p_meta : Meta; p_utxo : MemStore.Store; p_ticks : nat }.
Definition with_meta (m : Meta) (p : Provider) : Provider := mkProvider m (p_utxo p) (p_ticks p).
Definition with_utxo (s : MemStore.Store) (p : Provider) : Provider :=
  mkProvider (p_meta p) s (p_ticks p).

Inductive perror :=
| MetaErr (e : meta_error)
| UtxoErr (e : error)
| NoHeaderSource (txid : string)
| BadTxID (txid : string)
| BadOutpoint (op : string)
| BadOutboxOp (opType : string)
| BadRawTx (txid : string)
| errAlreadyHandled
| ErrNotAbortableAction (reference : string)
| ErrAbortLostToSend (txid : string)
| ErrAuthorization
| NoOracle
| Refused (what : string)
| ErrDivergentReDrive (reference : string)
| ErrFeeBelowFloor
| NotBroadcastable (txid : string) (st : ProvenTxReqStatus)
| NeverRequeues (txid : string) (st : ProvenTxReqStatus)
| BroadcastFailed (backpressure : bool)
| FundFailed (e : Collector.fund_error)
| ErrInputUnavailable (op : Outpoint)
| ErrInputContention.

Abbreviation PM A := (M Provider perror A).

(** [errors.Is] on the metadata store's sentinels. *)
Definition is_skipped (e : perror) : bool :=
  match e with
  | MetaErr ErrStatusUpdateSkipped | NotBroadcastable _ _ | NeverRequeues _ _ => true
  | _ => false
  end.
Definition is_not_found (e : perror) : bool :=
  match e with MetaErr ErrNotFound => true | _ => false end.

(** [if err := m; err != nil && !benign(err) { return err }]. *)
Definition ignoring (benign : perror → bool) (m : PM ()) : PM () := λ p,
  match m p with
  | (Err e, p') => if benign e then (Ret (), p') else (Err e, p')
  | r => r
  end.

(** The outcome of a step whose error the caller inspects. *)
Definition try_ {A} (m : PM A) : PM (perror + A) := λ p,
  match m p with
  | (Ret a, p') => (Ret (inr a), p')
  | (Err e, p') => (Ret (inl e), p')
  | (Panic, p') => (Panic, p')
  end.
(** A step whose failure is logged and forgotten. *)
Definition best_effort {A} (m : PM A) : PM () := _ ← try_ m; mret ().

Section provider.
Context `{MapRange, Sdk}.
(** The clock, the header source, and whether both stores share one database
    transaction (Mode A). *)
Context (clk : nat → Time) (hdrs : option Headers) (shared : bool).

Definition tick : PM Time := λ p,
  (Ret (clk (p_ticks p)), mkProvider (p_meta p) (p_utxo p) (S (p_ticks p))).
Definition meta_read {A} (m : L A) : PM A := zoom p_meta with_meta MetaErr m.
Definition meta_call {A} (f : Time → L A) : PM A := now ← tick; meta_read (f now).
Definition utxo_call {A} (m : M MemStore.Store error A) : PM A := zoom p_utxo with_utxo UtxoErr m.

(** [metastore.Store.Do]: on an error the metadata writes are rolled back, and so
    are the coin store's when it shares the transaction.  A call of the provider runs
    alone here, so what is undone are the transaction's own writes. *)
Definition Do {A} (fn : PM A) : PM A := λ p,
  if meta_closed (p_meta p) then (Err (MetaErr errClosed), p)
  else match fn p with
       | (Ret a, p') => (Ret a, p')
       | (o, p') => (o, mkProvider (p_meta p) (if shared then p_utxo p else p_utxo p') (p_ticks p'))
       end.

(** ** Small steps *)

Definition setArcadeStatus (txid : string) (status : Status) : PM () :=
  ignoring is_not_found (meta_call (λ now, known (SetArcadeStatus now txid status))).
Definition recordArcadeStatus (txid : string) (status : Status) : PM () :=
  setArcadeStatus txid status.

(** The outpoints of change rows; rows without a basket are skipped. *)
Fixpoint change_ops (rows : list OutputRow) : PM (list Outpoint) :=
  match rows with
  | [] => mret []
  | row :: rows' =>
      match o_Basket (or_row row), or_TxID row with
      | Some _, Some txid =>
          match NewHashFromHex txid with
          | None => throw (BadTxID txid)
          | Some hash => ops ← change_ops rows'; mret (mkOutpoint hash (o_Vout (or_row row)) :: ops)
          end
      | _, _ => change_ops rows'
      end
  end.
Definition changeOutpointsByTxIDs (txids : list string) : PM (list Outpoint) :=
  match txids with
  | [] => mret []
  | _ => rows ← meta_read (FindChangeOutputsByTxIDs txids); change_ops rows
  end.
Definition changeOutpointsByTxID (txid : string) : PM (list Outpoint) := changeOutpointsByTxIDs [txid].

Definition promote_nonempty (ops : list Outpoint) (tier : Tier) : PM () :=
  match ops with
  | [] => mret ()
  | _ => _ ← utxo_call (MemStore.Promote ops tier); mret ()
  end.
Definition promoteChangeByTxID (txid : string) (tier : Tier) : PM () :=
  ops ← changeOutpointsByTxID txid; promote_nonempty ops tier.

Definition resolveBlockHash (blockHashHex : string) (height : Z) : Bytes :=
  match (if decide (blockHashHex = "") then None else NewHashFromHex blockHashHex) with
  | Some h => hash_bytes h
  | None =>
      match hdrs with
      | Some h => match HeaderByHeight h height with Some b => hash_bytes b | None => [] end
      | None => []
      end
  end.

(** ** Appliers of one record *)

Definition applySeen (r : TxRecord) : PM () :=
  let txid := rec_TxID r in
  Do (_ ← ignoring is_skipped (meta_call (λ now, UpdateStatusByTxID now txid TxStatusUnproven
            [TxStatusSending; TxStatusNoSend; TxStatusUnproven; TxStatusUnprocessed]));
      _ ← ignoring (λ e, is_skipped e || is_not_found e)
            (meta_call (λ now, known (KnownTxRepo.UpdateStatus now txid ProvenTxStatusUnconfirmed
               seenAdvanceSkipStatuses)));
      _ ← promoteChangeByTxID txid TierUnproven;
      setArcadeStatus txid (rec_Status r)).

Record minedProof := mkProof {
  pr_rec : TxRecord;
  pr_txidHash : Hash;
  pr_height : Z;
  pr_blockHash : Bytes;
  pr_mpBytes : Bytes;
  pr_root : Bytes;
  pr_spentOps : list Outpoint;
}.

(** The part of the verification after the txid and the path have been parsed:
    the height and root checks and the header source's answer. *)
Definition check_root (h : Headers) (r : TxRecord) (txidHash : Hash) (mp : MerklePath) :
    option minedProof :=
  if negb (rec_BlockHeight r =? 0) && negb (mp_BlockHeight mp =? rec_BlockHeight r) then None
  else match mp_ComputeRoot mp txidHash with
       | None => None
       | Some root =>
           match VerifyMerkleRoot h root (mp_BlockHeight mp) with
           | Some true =>
               Some (mkProof r txidHash (mp_BlockHeight mp)
                       (resolveBlockHash (rec_BlockHash r) (mp_BlockHeight mp)) (mp_Bytes mp)
                       (hash_bytes root) [])
           | _ => None
           end
       end.

(** [verifyMinedOne]; [None] is every deferred, skipped or bad case. *)
Definition verifyMinedOne (r : TxRecord) : option minedProof :=
  match rec_MerklePath r with
  | [] => None
  | path =>
      match hdrs with
      | None => None
      | Some h =>
          match NewHashFromHex (rec_TxID r) with
          | None => None
          | Some txidHash =>
              match NewMerklePathFromBinary path with
              | None => None
              | Some mp => check_root h r txidHash mp
              end
          end
      end
  end.

(** The records whose root verified, in order. The code asks the header source
    at most once per height and root within a batch; here its answers are a
    function of both, so the memo is invisible. *)
Definition verifyMinedBatch (recs : list TxRecord) : list minedProof := omap verifyMinedOne recs.

Definition minedTxStatuses : list TxStatus :=
  [TxStatusSending; TxStatusNoSend; TxStatusUnproven; TxStatusUnprocessed; TxStatusCompleted].

(** The write transaction of applyMined. *)
Definition commitMined (pr : minedProof) : PM () :=
  let txid := rec_TxID (pr_rec pr) in
  Do (_ ← ignoring is_not_found (meta_call (λ now,
            known (SetProof now txid (pr_height pr) (pr_blockHash pr) (pr_mpBytes pr) (pr_root pr))));
      _ ← setArcadeStatus txid (rec_Status (pr_rec pr));
      _ ← ignoring is_skipped (meta_call (λ now,
            UpdateStatusByTxID now txid TxStatusCompleted minedTxStatuses));
      _ ← meta_call (λ now, ClearInputBEEFByTxID now txid);
      _ ← promoteChangeByTxID txid TierMined;
      _ ← utxo_call (MemStore.RemoveSpentBy (pr_txidHash pr));
      mret ()).

Definition applyMined (r : TxRecord) : PM () :=
  match rec_MerklePath r with
  | [] => mret ()
  | path =>
      match hdrs with
      | None => throw (NoHeaderSource (rec_TxID r))
      | Some h =>
          match NewHashFromHex (rec_TxID r) with
          | None => throw (BadTxID (rec_TxID r))
          | Some txidHash =>
              match NewMerklePathFromBinary path with
              | None => mret ()
              | Some mp => match check_root h r txidHash mp with
                           | Some pr => commitMined pr
                           | None => mret ()
                           end
              end
          end
      end
  end.

Definition applyRejected (r : TxRecord) : PM () :=
  since ← tick;
  ignoring is_not_found (meta_call (λ now,
    known (MarkSuspect now (rec_TxID r) since (rec_CompetingTxs r) (rec_Status r) (rec_ExtraInfo r)))).

Definition applyPendingRetry (r : TxRecord) : PM () := recordArcadeStatus (rec_TxID r) (rec_Status r).

(** ** The mined repair *)

(** [repairTxRow]: the outgoing row of the txid, or else the newest one. *)
Definition first_outgoing (rows : list (Z * TableTransaction)) : option (Z * TableTransaction) :=
  match list_find (λ r : Z * TableTransaction, tx_IsOutgoing r.2 = true) rows with
  | Some (_, r) => Some r
  | None => head rows
  end.
Definition repairTxRow (txid : string) : PM (option (Z * TableTransaction)) := λ p,
  match meta_read (FindByTxIDAllUsers txid) p with
  | (Ret rows, p') => (Ret (first_outgoing rows), p')
  | (_, p') => (Ret None, p')
  end.

Definition repairReservation (txRow : option (Z * TableTransaction)) (txid : string) : string :=
  match txRow with
  | Some (_, t) => if decide (tx_Reference t = "") then ("mined-repair:" ++ txid)%string
                   else tx_Reference t
  | None => ("mined-repair:" ++ txid)%string
  end.

(** The inputs that name a source transaction. *)
Definition input_ops (ins : list (option Hash * Z)) : list Outpoint :=
  omap (λ i : option Hash * Z, h ← i.1; Some (mkOutpoint h i.2)) ins.

(** [localOutputsByOutpoint]: the first row of each outpoint. *)
Definition index_outputs (rows : list OutputRow) : gmap (string * Z) OutputRow :=
  foldl (λ m row,
    match or_TxID row with
    | None => m
    | Some txid =>
        let op := (txid, o_Vout (or_row row)) in
        match m !! op with Some _ => m | None => <[op := row]> m end
    end) ∅ rows.
Definition localOutputsByOutpoint (userID : Z) (ops : list (string * Z)) :
    PM (gmap (string * Z) OutputRow) :=
  match ops with
  | [] => mret ∅
  | _ => rows ← meta_read (FindOutputsByOutpoints userID ops); mret (index_outputs rows)
  end.

Definition markInputsSpent (userID spendingTxID : Z) (ins : list (option Hash * Z)) : PM () :=
  let ops := (λ op : Outpoint, (Hash_String (TxID op), Vout op)) <$> input_ops ins in
  rows ← localOutputsByOutpoint userID ops;
  match omap (λ op, or_OutputID <$> (rows : gmap (string * Z) OutputRow) !! op) ops with
  | [] => mret ()
  | ids => meta_call (λ now, MarkSpent now spendingTxID ids)
  end.

Definition markInputsSpentFromRaw (txRow : Z * TableTransaction) (rawTx : Bytes) : PM () :=
  match rawTx with
  | [] => mret ()
  | _ => match NewTransactionFromBytes rawTx with
         | None => mret ()
         | Some ins => markInputsSpent (tx_UserID txRow.2) txRow.1 ins
         end
  end.

(** How the repair classifies the per-item verdicts of its fact-mode spend. *)
Inductive spend_class := Tolerated | Contended (e : error) | Fatal (e : error).
Definition classify_spend (e : error) : spend_class :=
  match e with
  | NotFoundError _ | SpentError _ _ => Tolerated
  | e => if is_ErrContention e then Contended e else Fatal e
  end.
Definition first_fatal (es : list error) : option error :=
  head (omap (λ e, match classify_spend e with Fatal x => Some x | _ => None end) es).
Definition first_contended (es : list error) : option error :=
  head (omap (λ e, match classify_spend e with Contended x => Some x | _ => None end) es).
Definition all_tolerated (es : list error) : bool :=
  forallb (λ e, match classify_spend e with Tolerated => true | _ => false end) es.

Definition spend_verdict (itemErrs : list (option error)) (serr : option error) : option error :=
  match serr with
  | None => None
  | Some serr =>
      let failed := omap id itemErrs in
      match first_fatal failed, first_contended failed with
      | Some e, _ => Some e
      | None, Some e => Some e
      | None, None =>
          if is_ErrBatch serr && bool_decide (failed ≠ []) && all_tolerated failed then None
          else Some serr
      end
  end.

Definition factSpendMinedInputs (kt : KnownTx) (spendingTxID : Hash) (reservation : string) : PM () :=
  match kt_RawTx kt with
  | [] => mret ()
  | raw =>
      match NewTransactionFromBytes raw with
      | None => mret ()
      | Some ins =>
          match (λ op, mkSpendOp op reservation spendingTxID) <$> input_ops ins with
          | [] => mret ()
          | ops => λ p,
              let '((itemErrs, serr), s) := MemStore.Spend ops true (p_utxo p) in
              match spend_verdict itemErrs serr with
              | None => (Ret (), with_utxo s p)
              | Some e => (Err (UtxoErr e), with_utxo s p)
              end
          end
      end
  end.

(** The mints of a repaired transaction's change: rows in a basket that no
    descendant has spent. *)
Definition remint_of (hash : Hash) (tier : Tier) (row : OutputRow) : option UtxoTypes.Mint :=
  let o := or_row row in
  match o_Basket o, o_SpentBy o with
  | Some b, None => Some (mkMint (mkOutpoint hash (o_Vout o)) (o_UserID o) b (u64 (o_Satoshis o))
                            DefaultP2PKHInputSize tier)
  | _, _ => None
  end.

(** The first item error other than AlreadyExists; else a top-level error that is
    not a batch error. *)
Definition mint_verdict (itemErrs : list (option error)) (merr : option error) : option error :=
  match merr with
  | None => None
  | Some merr =>
      match head (omap (λ e, match e with AlreadyExistsError _ => None | e => Some e end) (omap id itemErrs)) with
      | Some e => Some e
      | None => if is_ErrBatch merr then None else Some merr
      end
  end.
(** The clock readings of the mints are numbered after those made so far. *)
Definition remint (mints : list UtxoTypes.Mint) : PM () := λ p,
  let '((itemErrs, merr), s) :=
    MemStore.Mint (λ i, clk (p_ticks p + i)%nat) mints (p_utxo p) in
  let p' := mkProvider (p_meta p) s (p_ticks p + length mints)%nat in
  match mint_verdict itemErrs merr with
  | None => (Ret (), p')
  | Some e => (Err (UtxoErr e), p')
  end.

(** [errors.Is(err, &NotFoundError{})] looks through a joined batch error. *)
Definition is_utxo_not_found (e : perror) : bool :=
  match e with
  | UtxoErr (NotFoundError _) => true
  | UtxoErr (ErrBatchJoin es) => existsb (λ e, match e with NotFoundError _ => true | _ => false end) es
  | _ => false
  end.

Definition remintChangeByTxID (txid : string) (tier : Tier) : PM () :=
  rows ← meta_read (FindOutputs (mkFindOutputsArgs None None None None (Some txid) None (Some true) []));
  match rows with
  | [] => mret ()
  | _ =>
      match NewHashFromHex txid with
      | None => throw (BadTxID txid)
      | Some hash =>
          match omap (remint_of hash tier) rows with
          | [] => mret ()
          | mints =>
              let ops := m_Outpoint <$> mints in
              _ ← remint mints;
              _ ← utxo_call (MemStore.Promote ops tier);
              ignoring is_utxo_not_found (utxo_call (MemStore.Unfreeze ops))
          end
      end
  end.

Definition commitMinedRepair (kt : KnownTx) (pr : minedProof) : PM () :=
  let txid := kt_TxID kt in
  txRow ← repairTxRow txid;
  Do (_ ← factSpendMinedInputs kt (pr_txidHash pr) (repairReservation txRow txid);
      _ ← (match txRow with Some r => markInputsSpentFromRaw r (kt_RawTx kt) | None => mret () end);
      _ ← ignoring is_not_found (meta_call (λ now,
            known (SetProof now txid (pr_height pr) (pr_blockHash pr) (pr_mpBytes pr) (pr_root pr))));
      _ ← ignoring is_skipped (meta_call (λ now,
            UpdateStatusByTxID now txid TxStatusCompleted minedRepairTxStatuses));
      _ ← meta_call (λ now, ClearInputBEEFByTxID now txid);
      _ ← remintChangeByTxID txid TierMined;
      _ ← utxo_call (MemStore.RemoveSpentBy (pr_txidHash pr));
      mret ()).

(** [true]: the wallet state was repaired; [false]: the proof was deferred. *)
Definition applyMinedRepair (r : TxRecord) (kt : KnownTx) : PM bool :=
  match hdrs with
  | None => throw (NoHeaderSource (rec_TxID r))
  | Some _ =>
      _ ← recordArcadeStatus (rec_TxID r) (rec_Status r);
      match verifyMinedOne r with
      | None => mret false
      | Some pr => _ ← commitMinedRepair kt pr; mret true
      end
  end.

(** ** ApplyStatusUpdate *)

Definition prev_status (kt : KnownTx) : Status := default "" (kt_ArcadeStatus kt).
Definition is_seen_class (s : Status) : bool :=
  is_one_of s [StatusSeenOnNetwork; StatusSeenMultipleNodes; StatusAcceptedByNetwork].
Definition is_rejected_class (s : Status) : bool :=
  is_one_of s [StatusRejected; StatusDoubleSpendAttempted].

(** The terminal wallet-state guard. *)
Definition is_terminal_row (kt : KnownTx) : bool :=
  bool_decide (kt_Status kt = ProvenTxStatusCompleted) || IsTerminalFailure (kt_Status kt).

(** The guards and the switch on the record's status, for a known transaction. *)
Definition route (r : TxRecord) (kt : KnownTx) : PM () :=
  let repair := isMinedClass (rec_Status r) && isMinedRepairStatus (kt_Status kt) in
  if negb repair && is_terminal_row kt then mret ()
  else if negb (CanSupersede (rec_Status r) (prev_status kt)) then mret ()
  else if is_seen_class (rec_Status r) then
    if isSeenFenced (kt_Status kt) then recordArcadeStatus (rec_TxID r) (rec_Status r)
    else applySeen r
  else if isMinedClass (rec_Status r) then
    if repair then _ ← applyMinedRepair r kt; mret () else applyMined r
  else if is_rejected_class (rec_Status r) then applyRejected r
  else if is_one_of (rec_Status r) [StatusPendingRetry] then applyPendingRetry r
  else recordArcadeStatus (rec_TxID r) (rec_Status r).

Definition ApplyStatusUpdate (r : TxRecord) : PM () :=
  if decide (rec_TxID r = "") then mret ()
  else
    found ← meta_read (known (FindByTxID (rec_TxID r)));
    match found with None => mret () | Some kt => route r kt end.

(** ** ApplyStatusBatch *)

(** Grouping by txid in order of first arrival. *)
Record groups := mkGroups { g_order : list string; g_perTxid : gmap string (list TxRecord) }.
Definition group_step (g : groups) (r : TxRecord) : groups :=
  if decide (rec_TxID r = "") then g
  else mkGroups
         (match g_perTxid g !! rec_TxID r with Some _ => g_order g | None => (g_order g ++ [rec_TxID r])%list end)
         (<[rec_TxID r := (default [] (g_perTxid g !! rec_TxID r) ++ [r])%list]> (g_perTxid g)).
Definition group_records (recs : list TxRecord) : groups := foldl group_step (mkGroups [] ∅) recs.

Definition minedRepairBatchRoute (st : ProvenTxReqStatus) (evs : list TxRecord) : bool :=
  isMinedRepairStatus st && existsb (λ r, isMinedClass (rec_Status r)) evs.

Definition multipleDistinctStatuses (evs : list TxRecord) : bool :=
  match evs with
  | [] | [_] => false
  | r :: rest => existsb (λ r', negb (bool_decide (rec_Status r' = rec_Status r))) rest
  end.

(** The work lists of a batch. *)
Record batch := mkBatch {
  bt_seen : list TxRecord;
  bt_mined : list TxRecord;
  bt_rejected : list TxRecord;
  bt_arcadeOnly : list TxRecord;
  bt_fallback : list string;
}.
Definition add_seen r b := mkBatch (bt_seen b ++ [r])%list (bt_mined b) (bt_rejected b) (bt_arcadeOnly b) (bt_fallback b).
Definition add_mined r b := mkBatch (bt_seen b) (bt_mined b ++ [r])%list (bt_rejected b) (bt_arcadeOnly b) (bt_fallback b).
Definition add_rejected r b := mkBatch (bt_seen b) (bt_mined b) (bt_rejected b ++ [r])%list (bt_arcadeOnly b) (bt_fallback b).
Definition add_arcade r b := mkBatch (bt_seen b) (bt_mined b) (bt_rejected b) (bt_arcadeOnly b ++ [r])%list (bt_fallback b).
Definition add_fallback t b := mkBatch (bt_seen b) (bt_mined b) (bt_rejected b) (bt_arcadeOnly b) (bt_fallback b ++ [t])%list.

(** The classification of one txid's records against its loaded row. *)
Definition classify_one (kt : KnownTx) (txid : string) (evs : list TxRecord) (b : batch) : batch :=
  if minedRepairBatchRoute (kt_Status kt) evs then add_fallback txid b
  else if is_terminal_row kt then b
  else if multipleDistinctStatuses evs then add_fallback txid b
  else match last evs with
       | None => b
       | Some r =>
           if negb (CanSupersede (rec_Status r) (prev_status kt)) then b
           else if is_seen_class (rec_Status r) then
             if isSeenFenced (kt_Status kt) then add_arcade r b else add_seen r b
           else if isMinedClass (rec_Status r) then add_mined r b
           else if is_rejected_class (rec_Status r) then add_rejected r b
           else add_arcade r b
       end.
Definition classify_step (known_ : gmap string KnownTx) (perTxid : gmap string (list TxRecord))
    (b : batch) (txid : string) : batch :=
  match known_ !! txid with
  | None => b
  | Some kt => classify_one kt txid (default [] (perTxid !! txid)) b
  end.

(** The loaded rows by their txid. *)
Definition index_known (loaded : list KnownTx) : gmap string KnownTx :=
  foldl (λ m kt, <[kt_TxID kt := kt]> m) ∅ loaded.

(** The proof with the inputs its stored raw transaction spends. *)
Definition with_inputs (known_ : gmap string KnownTx) (pr : minedProof) : minedProof :=
  match known_ !! rec_TxID (pr_rec pr) with
  | None => pr
  | Some kt =>
      match kt_RawTx kt with
      | [] => pr
      | raw => match NewTransactionFromBytes raw with
               | None => pr
               | Some ins => mkProof (pr_rec pr) (pr_txidHash pr) (pr_height pr) (pr_blockHash pr)
                               (pr_mpBytes pr) (pr_root pr) (input_ops ins)
               end
      end
  end.

Definition by_status (recs : list TxRecord) : gmap Status (list string) :=
  foldl (λ m r, <[rec_Status r := (default [] (m !! rec_Status r) ++ [rec_TxID r])%list]> m) ∅ recs.
Fixpoint set_statuses (l : list (Status * list string)) : PM () :=
  match l with
  | [] => mret ()
  | (status, txids) :: l' =>
      _ ← meta_call (λ now, known (BulkSetArcadeStatus now txids status)); set_statuses l'
  end.
Definition setArcadeStatusBatch (recs : list TxRecord) : PM () :=
  match recs with [] => mret () | _ => set_statuses (range_map (by_status recs)) end.

Definition recordTxIDs (recs : list TxRecord) : list string := rec_TxID <$> recs.

Definition applySeenBatch (recs : list TxRecord) : PM () :=
  match recs with
  | [] => mret ()
  | _ =>
      let txids := recordTxIDs recs in
      _ ← meta_call (λ now, BulkUpdateStatusByTxIDs now txids TxStatusUnproven
            [TxStatusSending; TxStatusNoSend; TxStatusUnproven; TxStatusUnprocessed]);
      _ ← meta_call (λ now, known (BulkUpdateStatus now txids ProvenTxStatusUnconfirmed
            seenAdvanceSkipStatuses));
      ops ← changeOutpointsByTxIDs txids;
      _ ← promote_nonempty ops TierUnproven;
      setArcadeStatusBatch recs
  end.

(** [sort.Slice(proofs, LessTxID)]. *)
Definition cmp_proof (a b : minedProof) : comparison :=
  if LessTxID (rec_TxID (pr_rec a)) (rec_TxID (pr_rec b)) then Lt
  else if LessTxID (rec_TxID (pr_rec b)) (rec_TxID (pr_rec a)) then Gt else Eq.

Fixpoint set_proofs (prs : list minedProof) : PM () :=
  match prs with
  | [] => mret ()
  | pr :: prs' =>
      _ ← ignoring is_not_found (meta_call (λ now, known (SetProof now (rec_TxID (pr_rec pr))
            (pr_height pr) (pr_blockHash pr) (pr_mpBytes pr) (pr_root pr))));
      set_proofs prs'
  end.
Fixpoint scan_remove (prs : list minedProof) : PM () :=
  match prs with
  | [] => mret ()
  | pr :: prs' => _ ← utxo_call (MemStore.RemoveSpentBy (pr_txidHash pr)); scan_remove prs'
  end.

Definition applyMinedBatch (prs : list minedProof) : PM () :=
  match prs with
  | [] => mret ()
  | _ =>
      let proofs := SortFunc cmp_proof prs in
      let recs := pr_rec <$> proofs in
      let txids := recordTxIDs recs in
      _ ← set_proofs proofs;
      _ ← setArcadeStatusBatch recs;
      _ ← meta_call (λ now, BulkUpdateStatusByTxIDs now txids TxStatusCompleted minedTxStatuses);
      _ ← meta_call (λ now, BulkClearInputBEEFByTxIDs now txids);
      ops ← changeOutpointsByTxIDs txids;
      _ ← promote_nonempty ops TierMined;
      _ ← (match mjoin (pr_spentOps <$> proofs) with
           | [] => mret ()
           | allSpent => utxo_call (MemStore.Remove allSpent true)
           end);
      scan_remove (filter (λ pr, pr_spentOps pr = []) proofs)
  end.

Fixpoint applyRejectedBatch (recs : list TxRecord) : PM () :=
  match recs with [] => mret () | r :: recs' => _ ← applyRejected r; applyRejectedBatch recs' end.

(** A loop of [ApplyStatusUpdate] calls. *)
Fixpoint apply_each (recs : list TxRecord) : PM () :=
  match recs with [] => mret () | r :: recs' => _ ← ApplyStatusUpdate r; apply_each recs' end.

Definition apply_classified (b : batch) (verified : list minedProof) : PM () :=
  if nonempty (bt_seen b) || nonempty verified || nonempty (bt_rejected b) || nonempty (bt_arcadeOnly b)
  then Do (_ ← applySeenBatch (bt_seen b);
           _ ← applyMinedBatch verified;
           _ ← applyRejectedBatch (bt_rejected b);
           setArcadeStatusBatch (bt_arcadeOnly b))
  else mret ().

Definition ApplyStatusBatch (recs : list TxRecord) : PM () :=
  let g := group_records recs in
  match g_order g with
  | [] => mret ()
  | order =>
      loaded ← meta_read (known (FindByTxIDs order));
      let known_ := index_known loaded in
      let b := foldl (classify_step known_ (g_perTxid g)) (mkBatch [] [] [] [] []) order in
      let verified := with_inputs known_ <$> verifyMinedBatch (bt_mined b) in
      _ ← apply_classified b verified;
      apply_each (mjoin ((λ txid, default [] (g_perTxid g !! txid)) <$> bt_fallback b))
  end.
End provider.
End StatusUpdates.
