(* ===== verification/StatusUpdatesProps.v ===== *)
(** * StatusUpdatesProps: what a status update can do to the wallet

    The trust anchor: no sequence of writes an update makes can complete a
    transaction or store a proof whose merkle root the header source has not
    confirmed.  [preserves I m] says that a computation keeps a property of every
    known-transactions row. *)
From Stdlib Require Import Ascii String.
From S2P Require Import Prelude UtxoTypes MemStore Statuses KnownTx KnownTxProps Ledger StatusUpdates.
Import WdkStatus ArcadeStatus KnownTxRepo KnownTxProps Ledger StatusUpdates.
Local Open Scope string_scope.
Local Open Scope Z_scope.

Module StatusUpdatesProps.

(** The proof columns of a row. *)
Definition proof_of (k : KnownTx) : option Z * Bytes * Bytes :=
  (kt_BlockHeight k, kt_MerklePath k, kt_MerkleRoot k).

Section anchor.
Context `{MapRange, Sdk}.
Context (clk : nat → Time) (hdrs : option Headers) (shared : bool).

(** The record [r] carries a merkle path for the transaction [raw] whose root the
    header source confirmed, and [(height, path, root)] are its proof columns. *)
Definition confirmed_by (r : TxRecord) (raw : Raw) (cols : option Z * Bytes * Bytes) : Prop :=
  ∃ h mp hash root, hdrs = Some h ∧ encTxID (rec_TxID r) = Ret raw ∧
    isMinedClass (rec_Status r) = true ∧ NewHashFromHex (rec_TxID r) = Some hash ∧
    NewMerklePathFromBinary (rec_MerklePath r) = Some mp ∧ mp_ComputeRoot mp hash = Some root ∧
    VerifyMerkleRoot h root (mp_BlockHeight mp) = Some true ∧
    cols = (Some (mp_BlockHeight mp), mp_Bytes mp, hash_bytes root).

(** Every row keeps its proof columns, and is completed only if it was, unless one
    of [recs] confirms the proof it now has. *)
Definition anchored (recs : list TxRecord) (t0 : table) (raw : Raw) (k : KnownTx) : Prop :=
  (∃ k0, t0 !! raw = Some k0 ∧ proof_of k0 = proof_of k ∧
     (kt_Status k = ProvenTxStatusCompleted → kt_Status k0 = ProvenTxStatusCompleted)) ∨
  (∃ r, r ∈ recs ∧ confirmed_by r raw (proof_of k)).

Definition rows_ok (I : Raw → KnownTx → Prop) (t : table) : Prop := ∀ raw k, t !! raw = Some k → I raw k.

(** ** Keeping a property of all rows *)

Definition kpreserves {A} (I : Raw → KnownTx → Prop) (m : K A) : Prop :=
  ∀ t, rows_ok I t → rows_ok I (m t).2.
Definition lpreserves {A} (I : Raw → KnownTx → Prop) (m : L A) : Prop :=
  ∀ m0, rows_ok I (known_txs m0) → rows_ok I (known_txs (m m0).2).
Definition preserves {A} (I : Raw → KnownTx → Prop) (m : PM A) : Prop :=
  ∀ p, rows_ok I (known_txs (p_meta p)) → rows_ok I (known_txs (p_meta (m p).2)).

Section rules.
Context (I : Raw → KnownTx → Prop).

Lemma kpreserves_bind {A B} (m : K A) (k : A → K B) :
  kpreserves I m → (∀ a, kpreserves I (k a)) → kpreserves I (m ≫= k).
Proof.
  intros Hm Hk t Ht. specialize (Hm t Ht). cbv [mbind M_bind].
  destruct (m t) as [[a|e|] t']; simpl in *; [by apply Hk|done|done].
Qed.
Lemma lpreserves_bind {A B} (m : L A) (k : A → L B) :
  lpreserves I m → (∀ a, lpreserves I (k a)) → lpreserves I (m ≫= k).
Proof.
  intros Hm Hk t Ht. specialize (Hm t Ht). cbv [mbind M_bind].
  destruct (m t) as [[a|e|] t']; simpl in *; [by apply Hk|done|done].
Qed.
Lemma preserves_bind {A B} (m : PM A) (k : A → PM B) :
  preserves I m → (∀ a, preserves I (k a)) → preserves I (m ≫= k).
Proof.
  intros Hm Hk p Hp. specialize (Hm p Hp). cbv [mbind M_bind].
  destruct (m p) as [[a|e|] p']; simpl in *; [by apply Hk|done|done].
Qed.
Lemma kpreserves_update_row raw P f :
  (∀ k, I raw k → P k = true → I raw (f k)) → kpreserves I (update_row raw P f).
Proof.
  intros Hf t Ht raw' k. rewrite update_row_snd. case_decide as Hr; [subst raw'|apply Ht].
  destruct (t !! raw) as [k0|] eqn:Hk; [|done]. simpl. intros [= <-].
  destruct (P k0) eqn:?; auto.
Qed.
Lemma kpreserves_update_in raws P f :
  (∀ raw k, raw ∈ raws → I raw k → P k = true → I raw (f k)) → kpreserves I (update_in raws P f).
Proof.
  intros Hf t Ht raw k. rewrite update_in_snd. destruct (t !! raw) as [k0|] eqn:Hk; [|done].
  simpl. intros [= <-]. case_bool_decide; simpl; [destruct (P k0) eqn:?|]; auto.
Qed.
Lemma kpreserves_reads {A} (m : K A) : (∀ t, (m t).2 = t) → kpreserves I m.
Proof. intros Hm t. by rewrite Hm. Qed.
Lemma lpreserves_reads {A} (m : L A) : (∀ t, known_txs (m t).2 = known_txs t) → lpreserves I m.
Proof. intros Hm t. by rewrite Hm. Qed.
Lemma preserves_reads {A} (m : PM A) : (∀ p, p_meta (m p).2 = p_meta p) → preserves I m.
Proof. intros Hm p. by rewrite Hm. Qed.
Lemma lpreserves_known {A} (m : K A) : kpreserves I m → lpreserves I (known m).
Proof.
  intros Hm t Ht. rewrite /known /zoom. specialize (Hm _ Ht). by destruct (m (known_txs t)) as [[]?].
Qed.
Lemma preserves_read {A} (m : L A) : lpreserves I m → preserves I (meta_read m).
Proof.
  intros Hm p Hp. rewrite /meta_read /zoom. specialize (Hm _ Hp). by destruct (m (p_meta p)) as [[]?].
Qed.
Lemma preserves_tick : preserves I (tick clk).
Proof. by apply preserves_reads. Qed.
Lemma preserves_call {A} (f : Time → L A) : (∀ now, lpreserves I (f now)) → preserves I (meta_call clk f).
Proof.
  intros Hf. apply preserves_bind; [apply preserves_tick|]. intros. by apply preserves_read.
Qed.
Lemma preserves_utxo {A} (m : M MemStore.Store error A) : preserves I (utxo_call m).
Proof. apply preserves_reads. intros p. rewrite /utxo_call /zoom. by destruct (m (p_utxo p)). Qed.
Lemma preserves_ignoring b (m : PM ()) : preserves I m → preserves I (ignoring b m).
Proof.
  intros Hm p Hp. specialize (Hm p Hp). rewrite /ignoring.
  destruct (m p) as [[a|e|] p']; simpl in *; [done| |done]. by destruct (b e).
Qed.
Lemma preserves_Do {A} (m : PM A) : preserves I m → preserves I (Do shared m).
Proof.
  intros Hm p Hp. specialize (Hm p Hp). rewrite /Do. destruct (meta_closed _); [done|].
  by destruct (m p) as [[a|e|] p'].
Qed.
Lemma preserves_try {A} (m : PM A) : preserves I m → preserves I (try_ m).
Proof. intros Hm p Hp. specialize (Hm p Hp). rewrite /try_. by destruct (m p) as [[] ?]. Qed.
Lemma preserves_ret {A} (a : A) : preserves I (mret a : PM A).
Proof. by intros p. Qed.
Lemma preserves_throw {A} e : preserves I (throw e : PM A).
Proof. by intros p. Qed.
Lemma lpreserves_lift {A} (o : outcome meta_error A) : lpreserves I (lift o).
Proof. by intros p. Qed.
Lemma kpreserves_lift {A} (o : outcome meta_error A) : kpreserves I (lift o).
Proof. by intros p. Qed.
Lemma kpreserves_enc {A} txid (k : Raw → K A) :
  (∀ raw, encTxID txid = Ret raw → kpreserves I (k raw)) → kpreserves I (lift (encTxID txid) ≫= k).
Proof.
  intros Hk t Ht. cbv [mbind M_bind lift]. destruct (encTxID txid) as [raw|e|] eqn:Henc; [|done|done].
  by apply Hk.
Qed.
End rules.

(** ** Status updates *)

(** A row property that the writes other than the proof's keep. *)
Record stable (I : Raw → KnownTx → Prop) : Prop := {
  stable_arcade : ∀ now a raw k, I raw k → I raw (with_arcade now a k);
  stable_seen : ∀ now raw k, I raw k → I raw (to_status now ProvenTxStatusUnconfirmed k);
  stable_suspected : ∀ now since cs a why raw k, I raw k → I raw (suspected now since cs a why k);
}.
(** ... and that the write of the proof [pr] to the row of [txid] keeps. *)
Definition accepts (I : Raw → KnownTx → Prop) (txid : string) (pr : minedProof) : Prop :=
  ∀ now raw k, encTxID txid = Ret raw → I raw k →
    I raw (proven now (pr_height pr) (pr_blockHash pr) (pr_mpBytes pr) (pr_root pr) k).

Ltac pres :=
  repeat first
    [ apply preserves_ret | apply preserves_throw | apply preserves_tick | apply preserves_utxo
    | apply preserves_Do | apply preserves_ignoring | apply preserves_call; intros ?
    | apply preserves_read | apply preserves_bind; [|intros ?]
    | apply lpreserves_known | apply lpreserves_lift | apply lpreserves_bind; [|intros ?]
    | apply kpreserves_lift | apply kpreserves_bind; [|intros ?]
    | apply kpreserves_update_row; intros | apply kpreserves_update_in; intros
    | progress case_match ].

Section updates.
Context (I : Raw → KnownTx → Prop) (HI : stable I).

Lemma applied_or_why_pres raw n : kpreserves I (applied_or_why raw n).
Proof. apply kpreserves_reads. intros. apply applied_or_why_snd. Qed.
Lemma applied_or_missing_pres n : kpreserves I (applied_or_missing n).
Proof. apply kpreserves_reads. intros. apply applied_or_missing_snd. Qed.
Lemma update_txs_pres P f : lpreserves I (update_txs P f).
Proof. by apply lpreserves_reads. Qed.
Lemma applyStatusUpdate_pres n b : lpreserves I (applyStatusUpdate n b).
Proof. apply lpreserves_reads. intros. rewrite /applyStatusUpdate. by case_match. Qed.
Lemma gets_pres {A} (f : Meta → A) : lpreserves I (gets f).
Proof. by apply lpreserves_reads. Qed.

Lemma change_ops_pres rows : preserves I (change_ops rows).
Proof. induction rows as [|row rows IH]; simpl; pres; done. Qed.

(** The statements a method is made of. *)
Ltac leaf :=
  first [ done | apply change_ops_pres | apply applied_or_why_pres | apply applied_or_missing_pres
        | apply update_txs_pres | apply applyStatusUpdate_pres | apply gets_pres
        | by apply stable_arcade | by apply stable_seen | by apply stable_suspected
        | by apply lpreserves_reads ].

Lemma UpdateStatusByTxID_pres now txid st ex : lpreserves I (UpdateStatusByTxID now txid st ex).
Proof. rewrite /UpdateStatusByTxID. pres; leaf. Qed.
Lemma ClearInputBEEFByTxID_pres now txid : lpreserves I (ClearInputBEEFByTxID now txid).
Proof. rewrite /ClearInputBEEFByTxID. pres; leaf. Qed.
Lemma setArcadeStatus_pres txid st : preserves I (setArcadeStatus clk txid st).
Proof. rewrite /setArcadeStatus /SetArcadeStatus. pres; leaf. Qed.
Lemma changeOutpointsByTxIDs_pres txids : preserves I (changeOutpointsByTxIDs txids).
Proof. rewrite /changeOutpointsByTxIDs /FindChangeOutputsByTxIDs. case_match; pres; leaf. Qed.
Lemma promoteChangeByTxID_pres txid tier : preserves I (promoteChangeByTxID txid tier).
Proof.
  rewrite /promoteChangeByTxID /changeOutpointsByTxID /promote_nonempty.
  apply preserves_bind; [apply changeOutpointsByTxIDs_pres|]. intros. by pres.
Qed.

Lemma applySeen_pres r : preserves I (applySeen clk shared r).
Proof.
  rewrite /applySeen. apply preserves_Do. apply preserves_bind.
  { apply preserves_ignoring, preserves_call. intros. apply UpdateStatusByTxID_pres. }
  intros _. apply preserves_bind; [rewrite /KnownTxRepo.UpdateStatus; pres; leaf|]. intros _.
  apply preserves_bind; [apply promoteChangeByTxID_pres|]. intros _. apply setArcadeStatus_pres.
Qed.
Lemma applyRejected_pres r : preserves I (applyRejected clk r).
Proof.
  rewrite /applyRejected. apply preserves_bind; [apply preserves_tick|]. intros since.
  apply preserves_ignoring, preserves_call. intros now. apply lpreserves_known.
  rewrite /MarkSuspect. pres; leaf.
Qed.
Lemma SetProof_pres now txid pr :
  accepts I txid pr →
  lpreserves I (known (SetProof now txid (pr_height pr) (pr_blockHash pr) (pr_mpBytes pr) (pr_root pr))).
Proof.
  intros Hpr. apply lpreserves_known. rewrite /SetProof. apply kpreserves_enc. intros raw Henc.
  apply kpreserves_bind; [apply kpreserves_update_row|intros; apply applied_or_missing_pres].
  intros k Hk _. by apply Hpr.
Qed.
Lemma commitMined_pres pr : accepts I (rec_TxID (pr_rec pr)) pr → preserves I (commitMined clk shared pr).
Proof.
  intros Hpr. rewrite /commitMined. apply preserves_Do.
  apply preserves_bind; [by apply preserves_ignoring, preserves_call; intros; apply SetProof_pres|intros _].
  apply preserves_bind; [apply setArcadeStatus_pres|intros _].
  apply preserves_bind.
  { apply preserves_ignoring, preserves_call. intros. apply UpdateStatusByTxID_pres. }
  intros _. apply preserves_bind.
  { apply preserves_call. intros. apply ClearInputBEEFByTxID_pres. }
  intros _. apply preserves_bind; [apply promoteChangeByTxID_pres|intros _]. by pres.
Qed.

Lemma factSpendMinedInputs_pres kt w tok : preserves I (factSpendMinedInputs kt w tok).
Proof.
  rewrite /factSpendMinedInputs. repeat (case_match; try by apply preserves_ret).
  apply preserves_reads. intros p. destruct (MemStore.Spend _ _ _) as [[]]. by case_match.
Qed.
Lemma FindOutputsByOutpoints_pres userID ops : lpreserves I (FindOutputsByOutpoints userID ops).
Proof.
  rewrite /FindOutputsByOutpoints. generalize (chunks_of (length ops) outpointChunk ops).
  induction 0 as [|c cs IH]; simpl; [by apply lpreserves_reads|].
  apply lpreserves_bind; [rewrite /FindOutputsByOutpoints_chunk; pres; leaf|]. intros.
  by apply lpreserves_bind; [|intros; apply lpreserves_reads].
Qed.
Lemma MarkSpent_pres now w ids : lpreserves I (MarkSpent now w ids).
Proof. by apply lpreserves_reads; destruct ids. Qed.
Lemma markInputsSpentFromRaw_pres row raw : preserves I (markInputsSpentFromRaw clk row raw).
Proof.
  rewrite /markInputsSpentFromRaw. repeat (case_match; try by apply preserves_ret).
  rewrite /markInputsSpent /localOutputsByOutpoint. apply preserves_bind.
  { case_match; [by apply preserves_ret|].
    apply preserves_bind; [apply preserves_read, FindOutputsByOutpoints_pres|].
    intros. apply preserves_ret. }
  intros rows. case_match; [apply preserves_ret|]. apply preserves_call. intros. apply MarkSpent_pres.
Qed.
Lemma repairTxRow_pres txid : preserves I (repairTxRow txid).
Proof.
  apply preserves_reads. intros p. rewrite /repairTxRow /FindByTxIDAllUsers /meta_read /zoom.
  cbv [mbind M_bind lift gets]. by destruct (encTxID txid) as [raw|e|]; destruct p.
Qed.
Lemma remint_pres mints : preserves I (remint clk mints).
Proof.
  apply preserves_reads. intros p. rewrite /remint. destruct (MemStore.Mint _ _ _) as [[]].
  by case_match.
Qed.
Lemma remintChangeByTxID_pres txid tier : preserves I (remintChangeByTxID clk txid tier).
Proof.
  rewrite /remintChangeByTxID. apply preserves_bind.
  { apply preserves_read. rewrite /FindOutputs. pres; leaf. }
  intros rows. repeat (case_match; try apply preserves_ret; try apply preserves_throw).
  apply preserves_bind; [apply remint_pres|]. intros _. by pres.
Qed.

Lemma commitMinedRepair_pres kt pr :
  accepts I (kt_TxID kt) pr → preserves I (commitMinedRepair clk shared kt pr).
Proof.
  intros Hpr. rewrite /commitMinedRepair. apply preserves_bind; [apply repairTxRow_pres|]. intros row.
  apply preserves_Do. apply preserves_bind; [apply factSpendMinedInputs_pres|intros _].
  apply preserves_bind; [case_match; [apply markInputsSpentFromRaw_pres|apply preserves_ret]|intros _].
  apply preserves_bind; [by apply preserves_ignoring, preserves_call; intros; apply SetProof_pres|intros _].
  apply preserves_bind.
  { apply preserves_ignoring, preserves_call. intros. apply UpdateStatusByTxID_pres. }
  intros _. apply preserves_bind.
  { apply preserves_call. intros. apply ClearInputBEEFByTxID_pres. }
  intros _. apply preserves_bind; [apply remintChangeByTxID_pres|intros _]. by pres.
Qed.

Lemma applyMined_pres r :
  (∀ pr, verifyMinedOne hdrs r = Some pr → accepts I (rec_TxID (pr_rec pr)) pr) →
  preserves I (applyMined clk hdrs shared r).
Proof.
  rewrite /applyMined /verifyMinedOne. intros Hpr.
  repeat (case_match; try apply preserves_ret; try apply preserves_throw).
  by apply commitMined_pres, Hpr.
Qed.
Lemma applyMinedRepair_pres r kt :
  (∀ pr, verifyMinedOne hdrs r = Some pr → accepts I (kt_TxID kt) pr) →
  preserves I (applyMinedRepair clk hdrs shared r kt).
Proof.
  intros Hpr. rewrite /applyMinedRepair. destruct hdrs; [|apply preserves_throw].
  apply preserves_bind; [apply setArcadeStatus_pres|intros _].
  case_match; [|apply preserves_ret]. apply preserves_bind; [|intros; apply preserves_ret].
  by apply commitMinedRepair_pres, Hpr.
Qed.

(** The record's proof, if it verifies, may be written to the record's row. *)
Definition welcome (r : TxRecord) : Prop :=
  isMinedClass (rec_Status r) = true → ∀ pr, verifyMinedOne hdrs r = Some pr →
    ∀ txid, encTxID txid = encTxID (rec_TxID r) → accepts I txid pr.

Lemma verifyMinedOne_rec r pr : verifyMinedOne hdrs r = Some pr → pr_rec pr = r.
Proof.
  rewrite /verifyMinedOne /check_root. intros. repeat case_match; naive_solver.
Qed.

Lemma route_pres r kt :
  welcome r → encTxID (kt_TxID kt) = encTxID (rec_TxID r) → preserves I (route clk hdrs shared r kt).
Proof.
  intros Hw Henc. rewrite /route. destruct (isMinedClass (rec_Status r)) eqn:Hm; cbn [andb negb].
  all: do 2 (match goal with |- preserves _ (if ?b then _ else _) => destruct b end;
             [apply preserves_ret|]).
  all: destruct (is_seen_class (rec_Status r)).
  1,3: destruct (isSeenFenced (kt_Status kt)); [apply setArcadeStatus_pres|apply applySeen_pres].
  - destruct (isMinedRepairStatus (kt_Status kt)).
    + apply preserves_bind; [|intros; apply preserves_ret]. apply applyMinedRepair_pres.
      intros pr Hpr. by apply (Hw Hm).
    + apply applyMined_pres. intros pr Hpr. rewrite (verifyMinedOne_rec _ _ Hpr). by apply (Hw Hm).
  - destruct (is_rejected_class (rec_Status r)); [apply applyRejected_pres|].
    destruct (is_one_of (rec_Status r) _); apply setArcadeStatus_pres.
Qed.

Lemma ApplyStatusUpdate_pres r : welcome r → preserves I (ApplyStatusUpdate clk hdrs shared r).
Proof.
  intros Hw. rewrite /ApplyStatusUpdate. case_decide; [apply preserves_ret|]. intros p Hp.
  cbv [mbind M_bind meta_read known zoom FindByTxID lift gets].
  destruct (encTxID (rec_TxID r)) as [raw|e|] eqn:Henc; [|by destruct p|by destruct p].
  destruct (known_txs (p_meta p) !! raw) as [k|] eqn:Hk; simpl; [|by destruct p].
  apply route_pres; [done| |done]. by rewrite encTxID_scan.
Qed.

(** ** Batches *)

Lemma set_statuses_pres l : preserves I (set_statuses clk l).
Proof.
  induction l as [|[st txids] l IH]; simpl; [apply preserves_ret|].
  apply preserves_bind; [|done]. apply preserves_call. intros now. apply lpreserves_known.
  rewrite /BulkSetArcadeStatus. case_match; [by apply kpreserves_reads|]. pres; leaf.
Qed.
Lemma setArcadeStatusBatch_pres recs : preserves I (setArcadeStatusBatch clk recs).
Proof. rewrite /setArcadeStatusBatch. case_match; [apply preserves_ret|apply set_statuses_pres]. Qed.
Lemma BulkUpdateStatusByTxIDs_pres now txids st ex :
  lpreserves I (BulkUpdateStatusByTxIDs now txids st ex).
Proof. rewrite /BulkUpdateStatusByTxIDs. case_match; [by apply lpreserves_reads|]. pres; leaf. Qed.
Lemma promote_nonempty_pres ops tier : preserves I (promote_nonempty ops tier).
Proof. rewrite /promote_nonempty. case_match; by pres. Qed.

Lemma applySeenBatch_pres recs : preserves I (applySeenBatch clk recs).
Proof.
  rewrite /applySeenBatch. destruct recs as [|r recs]; [apply preserves_ret|].
  apply preserves_bind; [apply preserves_call; intros; apply BulkUpdateStatusByTxIDs_pres|intros _].
  apply preserves_bind.
  { apply preserves_call. intros now. apply lpreserves_known. rewrite /BulkUpdateStatus.
    case_match; [by apply kpreserves_reads|]. pres; leaf. }
  intros _. apply preserves_bind; [apply changeOutpointsByTxIDs_pres|intros ops].
  apply preserves_bind; [apply promote_nonempty_pres|intros _]. apply setArcadeStatusBatch_pres.
Qed.

Lemma set_proofs_pres prs :
  Forall (λ pr, accepts I (rec_TxID (pr_rec pr)) pr) prs → preserves I (set_proofs clk prs).
Proof.
  induction 1 as [|pr prs Hpr _ IH]; simpl; [apply preserves_ret|].
  apply preserves_bind; [|done]. apply preserves_ignoring, preserves_call. intros.
  by apply SetProof_pres.
Qed.
Lemma scan_remove_pres prs : preserves I (scan_remove prs).
Proof.
  induction prs as [|pr prs IH]; simpl; [apply preserves_ret|].
  apply preserves_bind; [apply preserves_utxo|done].
Qed.
Lemma BulkClearInputBEEFByTxIDs_pres now txids : lpreserves I (BulkClearInputBEEFByTxIDs now txids).
Proof. rewrite /BulkClearInputBEEFByTxIDs. case_match; [by apply lpreserves_reads|]. pres; leaf. Qed.

Lemma applyMinedBatch_pres prs :
  Forall (λ pr, accepts I (rec_TxID (pr_rec pr)) pr) prs → preserves I (applyMinedBatch clk prs).
Proof.
  intros Hprs. rewrite /applyMinedBatch. destruct prs as [|pr prs]; [apply preserves_ret|].
  apply preserves_bind; [apply set_proofs_pres; by rewrite SortFunc_perm|intros _].
  apply preserves_bind; [apply setArcadeStatusBatch_pres|intros _].
  apply preserves_bind; [apply preserves_call; intros; apply BulkUpdateStatusByTxIDs_pres|intros _].
  apply preserves_bind; [apply preserves_call; intros; apply BulkClearInputBEEFByTxIDs_pres|intros _].
  apply preserves_bind; [apply changeOutpointsByTxIDs_pres|intros ops].
  apply preserves_bind; [apply promote_nonempty_pres|intros _].
  apply preserves_bind; [case_match; [apply preserves_ret|apply preserves_utxo]|intros _].
  apply scan_remove_pres.
Qed.
Lemma applyRejectedBatch_pres recs : preserves I (applyRejectedBatch clk recs).
Proof.
  induction recs as [|r recs IH]; simpl; [apply preserves_ret|].
  apply preserves_bind; [apply applyRejected_pres|done].
Qed.
Lemma apply_each_pres recs : Forall welcome recs → preserves I (apply_each clk hdrs shared recs).
Proof.
  induction 1 as [|r recs Hr _ IH]; simpl; [apply preserves_ret|].
  apply preserves_bind; [by apply ApplyStatusUpdate_pres|done].
Qed.
Lemma apply_classified_pres b prs :
  Forall (λ pr, accepts I (rec_TxID (pr_rec pr)) pr) prs →
  preserves I (apply_classified clk shared b prs).
Proof.
  intros Hprs. rewrite /apply_classified. case_match; [|apply preserves_ret]. apply preserves_Do.
  apply preserves_bind; [apply applySeenBatch_pres|intros _].
  apply preserves_bind; [by apply applyMinedBatch_pres|intros _].
  apply preserves_bind; [apply applyRejectedBatch_pres|intros _]. apply setArcadeStatusBatch_pres.
Qed.
End updates.

(** The anchor is kept by every write that is not a proof, and by every proof a
    record of the batch confirms. *)
Lemma anchored_stable recs t0 : stable (anchored recs t0).
Proof.
  split; intros; (destruct H1 as [(k0&?&?&?)|(r&?&?)]; [left; exists k0|right; by exists r]);
    split_and!; try done.
Qed.

Lemma verifyMinedOne_confirmed r pr raw now k :
  verifyMinedOne hdrs r = Some pr → isMinedClass (rec_Status r) = true →
  encTxID (rec_TxID r) = Ret raw →
  confirmed_by r raw (proof_of (proven now (pr_height pr) (pr_blockHash pr) (pr_mpBytes pr) (pr_root pr) k)).
Proof.
  rewrite /verifyMinedOne /check_root /confirmed_by. intros Hv Hm Henc.
  destruct (rec_MerklePath r) as [|c path] eqn:Hp; [done|].
  destruct hdrs as [h|]; [|done]. destruct (NewHashFromHex _) as [hash|]; [|done].
  destruct (NewMerklePathFromBinary _) as [mp|] eqn:Hmp; [|done].
  destruct (_ && _); [done|]. destruct (mp_ComputeRoot mp hash) as [root|] eqn:Hroot; [|done].
  destruct (VerifyMerkleRoot h root _) as [[]|] eqn:Hr; [|done..].
  injection Hv as <-. by exists h, mp, hash, root.
Qed.

Lemma anchored_welcome recs t0 r : r ∈ recs → welcome (anchored recs t0) r.
Proof.
  intros Hr Hm pr Hv txid Htx now raw k Henc _. right. exists r. split; [done|].
  apply verifyMinedOne_confirmed; [done|done|congruence].
Qed.

Lemma anchored_refl recs t0 : rows_ok (anchored recs t0) t0.
Proof. intros raw k Hk. left. by exists k. Qed.

(** ** What the batch works on *)

(** A property of the accumulator kept by every step of a loop. *)
Lemma foldl_inv {A B} (P : B → Prop) (f : B → A → B) l b :
  P b → (∀ b x, x ∈ l → P b → P (f b x)) → P (foldl f b l).
Proof.
  revert b. induction l as [|x l IH]; intros b Hb Hf; simpl; [done|].
  apply IH; [apply Hf; [left|done]|]. intros. apply Hf; [by right|done].
Qed.

Lemma group_records_sub recs txid evs r :
  g_perTxid (group_records recs) !! txid = Some evs → r ∈ evs → r ∈ recs.
Proof.
  revert txid evs r. apply (foldl_inv (λ g, ∀ txid evs r,
    g_perTxid g !! txid = Some evs → r ∈ evs → r ∈ recs)).
  { intros ???. by rewrite lookup_empty. }
  intros g x Hx IH txid evs r. rewrite /group_step. case_decide; [apply IH|]. simpl.
  rewrite lookup_insert_Some. intros [[<- <-]|[_ Hl]]; [|by eapply IH].
  rewrite elem_of_app list_elem_of_singleton. intros [Hr| ->]; [|done].
  destruct (g_perTxid g !! rec_TxID x) eqn:He; [by eapply IH|by apply not_elem_of_nil in Hr].
Qed.

Lemma classify_mined known_ recs r :
  let g := group_records recs in
  r ∈ bt_mined (foldl (classify_step known_ (g_perTxid g)) (mkBatch [] [] [] [] []) (g_order g)) →
  r ∈ recs ∧ isMinedClass (rec_Status r) = true.
Proof.
  intros g. revert r. apply (foldl_inv (λ b, ∀ r, r ∈ bt_mined b →
    r ∈ recs ∧ isMinedClass (rec_Status r) = true)).
  { by intros r ?%not_elem_of_nil. }
  intros b0 txid _ IH r. rewrite /classify_step. destruct (known_ !! txid) as [kt|]; [|apply IH].
  destruct (g_perTxid g !! txid) as [evs|] eqn:Hevs; simpl; last first.
  { rewrite /classify_one /=. by repeat case_match; apply IH. }
  rewrite /classify_one. destruct (minedRepairBatchRoute _ _), (is_terminal_row kt),
    (multipleDistinctStatuses evs), (last evs) as [r0|] eqn:Hlast; try apply IH.
  destruct (negb (CanSupersede _ _)); [apply IH|].
  destruct (is_seen_class _); [case_match; apply IH|].
  destruct (isMinedClass (rec_Status r0)) eqn:Hm; [|destruct (is_rejected_class _); apply IH].
  simpl. rewrite elem_of_app list_elem_of_singleton. intros [Hr| ->]; [by apply IH|].
  split; [|done]. eapply group_records_sub; [exact Hevs|]. by eapply last_Some_elem_of.
Qed.

Lemma with_inputs_accepts I known_ pr :
  accepts I (rec_TxID (pr_rec pr)) pr →
  accepts I (rec_TxID (pr_rec (with_inputs known_ pr))) (with_inputs known_ pr).
Proof. rewrite /with_inputs. by repeat case_match. Qed.

Lemma ApplyStatusBatch_pres I recs :
  stable I → (∀ r, r ∈ recs → welcome I r) → preserves I (ApplyStatusBatch clk hdrs shared recs).
Proof.
  intros HI Hw. rewrite /ApplyStatusBatch. set (g := group_records recs).
  destruct (g_order g) as [|txid order] eqn:Ho; [apply preserves_ret|]. rewrite -Ho.
  apply preserves_bind.
  { apply preserves_read, lpreserves_known. rewrite /FindByTxIDs. case_match; [by apply kpreserves_reads|].
    apply kpreserves_bind; [apply kpreserves_lift|]. intros. by apply kpreserves_reads. }
  intros loaded. apply preserves_bind.
  - apply apply_classified_pres; [done|]. apply Forall_fmap, Forall_forall.
    intros pr (r&Hr&Hv)%list_elem_of_omap. apply with_inputs_accepts.
    apply classify_mined in Hr as [Hr Hm]. rewrite (verifyMinedOne_rec _ _ Hv).
    by eapply (Hw r Hr Hm).
  - intros _. apply apply_each_pres; [done|]. apply Forall_forall. intros r Hr.
    apply Hw. apply list_elem_of_join in Hr as (evs&Hr&(tx&->&_)%list_elem_of_fmap).
    destruct (g_perTxid g !! tx) as [evs|] eqn:He; [|by apply not_elem_of_nil in Hr].
    by eapply group_records_sub.
Qed.

(** C19: an unverified proof is never stored.  After a single update or a whole
    batch, however it ends (a result, an error with its rollback, in either store
    mode), every row has the proof columns it had before and is completed only if
    it was; or it is the row of a MINED or IMMUTABLE record of the input whose
    merkle path parses, hashes to a root, and whose root the header source
    confirmed at the path's height, and the proof columns are that path's. *)
Theorem unverified_proof_never_stored recs p raw k :
  known_txs (p_meta (ApplyStatusBatch clk hdrs shared recs p).2) !! raw = Some k ∨
  (∃ r, recs = [r] ∧ known_txs (p_meta (ApplyStatusUpdate clk hdrs shared r p).2) !! raw = Some k) →
  anchored recs (known_txs (p_meta p)) raw k.
Proof.
  pose proof (anchored_refl recs (known_txs (p_meta p))) as Hp.
  intros [Hk|(r&->&Hk)].
  - by apply (ApplyStatusBatch_pres _ recs (anchored_stable recs _) (anchored_welcome recs _) p Hp raw k).
  - apply (ApplyStatusUpdate_pres _ (anchored_stable [r] _) r (anchored_welcome _ _ r ltac:(left)) p Hp raw k Hk).
Qed.
End anchor.

(** ** The abort fence *)

(** The status of the row [raw]. *)
Definition status_at (raw : Raw) (p : Provider) : option ProvenTxReqStatus :=
  kt_Status <$> known_txs (p_meta p) !! raw.
(** The wallet rows of [p] that are aborted are in [p'] as they were. *)
Definition aborted_stay (p p' : Provider) : Prop :=
  ∀ i t, transactions (p_meta p) !! i = Some t → tx_Status t = TxStatusAborted →
    transactions (p_meta p') !! i = Some t.

Section fence.
Context `{MapRange, Sdk}.
Context (clk : nat → Time) (hdrs : option Headers) (shared : bool).

(** An unconditional write of one known row. *)
Lemma call_row raw k (m : Time → K ()) (f : Time → KnownTx → KnownTx) p :
  (∀ now t, t !! raw = Some k → m now t = (Ret (), <[raw := f now k]> t)) →
  known_txs (p_meta p) !! raw = Some k →
  ∃ now p', meta_call clk (λ now, known (m now)) p = (Ret (), p') ∧
    known_txs (p_meta p') !! raw = Some (f now k) ∧ transactions (p_meta p') = transactions (p_meta p).
Proof.
  intros Hm Hk. exists (clk (p_ticks p)). eexists. split.
  { cbv [meta_call mbind M_bind tick meta_read known zoom]. cbn [p_meta]. rewrite (Hm _ _ Hk). reflexivity. }
  split; [|done]. simpl. by rewrite lookup_insert_eq.
Qed.
Lemma update_row_known {B} txid raw P f (fin : Raw → Z → K B) k (t : table) :
  encTxID txid = Ret raw → t !! raw = Some k → P k = true →
  (lift (encTxID txid) ≫= λ raw, update_row raw P f ≫= fin raw) t = fin raw 1 (<[raw := f k]> t).
Proof. intros He Hk HP. by rewrite He /mbind /M_bind /lift /update_row Hk HP. Qed.

Lemma setArcade_known txid raw st k p :
  encTxID txid = Ret raw → known_txs (p_meta p) !! raw = Some k →
  ∃ p', setArcadeStatus clk txid st p = (Ret (), p') ∧ status_at raw p' = Some (kt_Status k) ∧ aborted_stay p p'.
Proof.
  intros He Hk. destruct (call_row raw k (λ now, SetArcadeStatus now txid st) (λ now, with_arcade now st) p)
    as (now&p'&Hp&Hk'&Ht); [|done|].
  { intros now t Ht. by rewrite /SetArcadeStatus (update_row_known txid raw _ _ (λ _, applied_or_missing) k). }
  exists p'. rewrite /setArcadeStatus /ignoring Hp /status_at Hk'. split_and!; [done..|]. intros i t. by rewrite Ht.
Qed.

Lemma found_known txid raw k p :
  encTxID txid = Ret raw → known_txs (p_meta p) !! raw = Some k →
  meta_read (known (FindByTxID txid)) p = (Ret (Some (scan raw k)), p).
Proof.
  intros He Hk. destruct p as [m u n]. simpl in Hk. rewrite /meta_read /known /zoom /FindByTxID He /mbind /M_bind /lift /gets /=.
  rewrite Hk. by destruct m.
Qed.

(** A rejection marks any row suspect, aborted or not. *)
Lemma rejected_marks r raw k p :
  encTxID (rec_TxID r) = Ret raw → known_txs (p_meta p) !! raw = Some k →
  ∃ k' p', applyRejected clk r p = (Ret (), p') ∧ known_txs (p_meta p') !! raw = Some k' ∧
    kt_Status k' = KnownTxStatusSuspectFailed ∧ prev_status k' = rec_Status r ∧ aborted_stay p p'.
Proof.
  intros He Hk. rewrite /applyRejected /mbind /M_bind /tick. set (since := clk _). set (p0 := mkProvider _ _ _).
  destruct (call_row raw k (λ now, MarkSuspect now (rec_TxID r) since (rec_CompetingTxs r) (rec_Status r) (rec_ExtraInfo r))
    (λ now, suspected now since (rec_CompetingTxs r) (rec_Status r) (rec_ExtraInfo r)) p0) as (now&p'&Hp&Hk'&Ht); [|done|].
  { intros now t Ht. by rewrite /MarkSuspect (update_row_known (rec_TxID r) raw _ _ (λ _, applied_or_missing) k). }
  eexists _, p'. rewrite /ignoring Hp. split_and!; [done|done|done|done|]. intros i t. by rewrite Ht.
Qed.

(** The wallet rows a SEEN event advances are not aborted ones. *)
Lemma advance_spares txid p :
  let m := ignoring is_skipped (meta_call clk (λ now, UpdateStatusByTxID now txid TxStatusUnproven
    [TxStatusSending; TxStatusNoSend; TxStatusUnproven; TxStatusUnprocessed])) in
  wp m (λ _ p', known_txs (p_meta p') = known_txs (p_meta p) ∧ aborted_stay p p')
    (λ _ p', aborted_stay p p') (aborted_stay p) p.
Proof.
  cbv zeta. rewrite /wp /ignoring. cbv [meta_call mbind M_bind tick meta_read zoom]. cbn [p_meta].
  rewrite /UpdateStatusByTxID /mbind /M_bind /lift. destruct (encTxID txid) as [raw|e|]; simpl; [|destruct e; (split; [done|]) || idtac; by intros i t ? _|by intros i t ? _].
  assert (∀ p', transactions (p_meta p') = map_imap (λ k r, Some (if tx_has [raw] r &&
    tx_status_in [TxStatusSending; TxStatusNoSend; TxStatusUnproven; TxStatusUnprocessed] r
    then to_tx_status (clk (p_ticks p)) TxStatusUnproven r else r)) (transactions (p_meta p)) → aborted_stay p p') as Hst.
  { intros p' E i t Ht Ha. rewrite E map_lookup_imap Ht. cbn [mbind option_bind].
    assert (tx_status_in [TxStatusSending; TxStatusNoSend; TxStatusUnproven; TxStatusUnprocessed] t = false) as ->.
    { by rewrite /tx_status_in Ha. }
    by rewrite andb_false_r. }
  rewrite /applyStatusUpdate /=. destruct (_ && true); simpl; (split; [done|]); by apply Hst.
Qed.
Lemma promote_spares txid tier p : p_meta (promoteChangeByTxID txid tier p).2 = p_meta p.
Proof.
  assert (∀ rows p, p_meta (change_ops rows p).2 = p_meta p) as Hops.
  { induction rows as [|row rows IH]; intros p1; [done|]. simpl. destruct (o_Basket _), (or_TxID row); try apply IH.
    destruct (NewHashFromHex _); [|done]. rewrite /mbind /M_bind. specialize (IH p1). by destruct (change_ops rows p1) as [[] ?]. }
  rewrite /promoteChangeByTxID /changeOutpointsByTxID /changeOutpointsByTxIDs /FindChangeOutputsByTxIDs.
  cbv [mbind M_bind meta_read zoom lift gets]. destruct (encode_all [txid]) as [ids|e|]; simpl; [|done..].
  set (p1 := with_meta _ _). assert (p_meta p1 = p_meta p) as E by done. clearbody p1.
  match goal with |- context [change_ops ?rows p1] => specialize (Hops rows p1); destruct (change_ops rows p1) as [[ops|e|] p2] end;
    simpl in *; [|congruence..]. rewrite E in Hops. destruct ops as [|op ops]; [done|].
  rewrite /promote_nonempty /mbind /M_bind /utxo_call /zoom. by destruct (MemStore.Promote (op :: ops) tier (p_utxo p2)) as [[] ?].
Qed.

(** A SEEN event presents a suspect row as in flight. *)
Lemma seen_advances r raw k p :
  encTxID (rec_TxID r) = Ret raw → known_txs (p_meta p) !! raw = Some k →
  kt_Status k = KnownTxStatusSuspectFailed →
  wp (applySeen clk shared r) (λ _ p', status_at raw p' = Some ProvenTxStatusUnconfirmed ∧ aborted_stay p p')
    (λ _ p', aborted_stay p p') (aborted_stay p) p.
Proof.
  intros He Hk Hs. rewrite /applySeen /wp /Do. destruct (meta_closed (p_meta p)); [by intros i t ? _|].
  set (m := _ ≫= _). assert (wp m (λ _ p', status_at raw p' = Some ProvenTxStatusUnconfirmed ∧ aborted_stay p p')
    (λ _ _, True) (λ _, True) p) as Hm; [|rewrite /wp in Hm; destruct (m p) as [[] ?]; [done|by intros i t ? _..]].
  apply wp_bind. eapply wp_mono; [apply advance_spares| |done|done]. intros _ p1 [Hk1 Ha1].
  destruct (call_row raw k (λ now, KnownTxRepo.UpdateStatus now (rec_TxID r) ProvenTxStatusUnconfirmed seenAdvanceSkipStatuses)
    (λ now, to_status now ProvenTxStatusUnconfirmed) p1) as (now&p2&Hp2&Hk2&Ht2); [|by rewrite Hk1|].
  { intros now t Ht. rewrite /KnownTxRepo.UpdateStatus (update_row_known (rec_TxID r) raw _ _ applied_or_why k) //.
    by rewrite /not_skipped Hs. }
  apply wp_bind. rewrite {1}/wp /ignoring Hp2. apply wp_bind. pose proof (promote_spares (rec_TxID r) TierUnproven p2) as Hp3.
  rewrite {1}/wp. destruct (promoteChangeByTxID (rec_TxID r) TierUnproven p2) as [[[]|e|] p3]; [|done..]. simpl in Hp3.
  destruct (setArcade_known (rec_TxID r) raw (rec_Status r) (to_status now ProvenTxStatusUnconfirmed k) p3 He)
    as (p4&Hp4&Hst&Ha4); [by rewrite Hp3|].
  rewrite /wp Hp4. split; [done|]. intros i t Ht Hab. apply Ha4; [|done]. rewrite Hp3 Ht2. by apply Ha1.
Qed.

Lemma seen_not_mined s : is_seen_class s = true → isMinedClass s = false.
Proof. rewrite /is_seen_class /isMinedClass /is_one_of !bool_decide_eq_true bool_decide_eq_false. set_solver. Qed.
Lemma rejected_class s : is_rejected_class s = true → is_seen_class s = false ∧ isMinedClass s = false.
Proof.
  rewrite /is_rejected_class /is_seen_class /isMinedClass /is_one_of bool_decide_eq_true !bool_decide_eq_false. set_solver.
Qed.

(** The route of a record for a known row. *)
Lemma update_routes r raw k p :
  encTxID (rec_TxID r) = Ret raw → rec_TxID r ≠ "" → known_txs (p_meta p) !! raw = Some k →
  ApplyStatusUpdate clk hdrs shared r p = route clk hdrs shared r (scan raw k) p.
Proof. intros He Hne Hk. rewrite /ApplyStatusUpdate decide_False // /mbind /M_bind (found_known _ raw k) //. Qed.

(** C33: the abort fence can be walked around.  For every aborted transaction, a SEEN
    event alone leaves it aborted, as the fence demands; but a REJECTED or
    DOUBLE_SPEND_ATTEMPTED event that may follow its last Arcade status moves the same
    row to suspectFailed without looking at the fence, and a SEEN event after it, when
    it is applied without an error, presents the aborted transaction as in flight,
    while its wallet row stays aborted. *)
Theorem abort_fence_bypassed seen rej raw k p :
  encTxID (rec_TxID rej) = Ret raw → rec_TxID rej ≠ "" → rec_TxID seen = rec_TxID rej →
  known_txs (p_meta p) !! raw = Some k → kt_Status k = KnownTxStatusAborted →
  is_seen_class (rec_Status seen) = true → is_rejected_class (rec_Status rej) = true →
  CanSupersede (rec_Status rej) (prev_status k) = true → CanSupersede (rec_Status seen) (rec_Status rej) = true →
  status_at raw (ApplyStatusUpdate clk hdrs shared seen p).2 = Some KnownTxStatusAborted ∧
  ∃ p1, ApplyStatusUpdate clk hdrs shared rej p = (Ret (), p1) ∧ status_at raw p1 = Some KnownTxStatusSuspectFailed ∧
    let '(o, p2) := ApplyStatusUpdate clk hdrs shared seen p1 in
    (o = Ret () → status_at raw p2 = Some ProvenTxStatusUnconfirmed) ∧ aborted_stay p p2.
Proof.
  intros He Hne Hid Hk Hs Hseen Hrej Hsup1 Hsup2. pose proof (seen_not_mined _ Hseen) as Hm.
  destruct (rejected_class _ Hrej) as [Hns Hnm]. split.
  - rewrite (update_routes seen raw k) ?Hid // /route Hm Hseen /is_terminal_row /isSeenFenced /= Hs /=.
    destruct (setArcade_known (rec_TxID seen) raw (rec_Status seen) k p) as (p'&Hp'&Hst&_); [by rewrite Hid|done|].
    case_match; [by rewrite /= /status_at Hk /= Hs|]. by rewrite /recordArcadeStatus Hp' /= Hst Hs.
  - destruct (rejected_marks rej raw k p He Hk) as (k1&p1&Hp1&Hk1&Hs1&Hprev&Ha1). exists p1. split.
    { by rewrite (update_routes rej raw k) // /route Hnm Hns /is_terminal_row /= Hs /= /prev_status /= Hsup1 Hrej. }
    split; [by rewrite /status_at Hk1 /= Hs1|].
    rewrite (update_routes seen raw k1) ?Hid // /route Hm Hseen /is_terminal_row /isSeenFenced /= Hs1 /=.
    rewrite /prev_status in Hprev. rewrite /prev_status /= Hprev Hsup2 /=.
    pose proof (seen_advances seen raw k1 p1) as Hw. rewrite Hid in Hw. specialize (Hw He Hk1 Hs1). rewrite /wp in Hw.
    destruct (applySeen clk shared seen p1) as [[[]|e|] p2]; (split; [|intros i t Ht Hab; apply Hw; auto]); [|done..]. intros _. apply Hw.
Qed.
End fence.
End StatusUpdatesProps.

(** * StatusUpdatesExample: a wallet with two transactions, and status events on it

    A concrete SDK and header source, a provider state with one transaction waiting
    for its proof and one aborted before broadcast, and runs of status events on it. *)
Import WdkStatus ArcadeStatus KnownTxRepo Ledger StatusUpdates StatusUpdatesProps.
Local Open Scope string_scope.
Local Open Scope Z_scope.

Module StatusUpdatesExample.

Definition Z_of_bytes (b : Bytes) : Z := foldl (λ z c, z * 256 + Z.of_nat (nat_of_ascii c)) 0 b.
Definition byte (z : Z) : ascii := ascii_of_nat (Z.to_nat z).

(** Inputs as triples: two bytes of txid, one of output index. *)
Fixpoint parse_inputs (b : Bytes) : option (list (option Hash * Z)) :=
  match b with
  | [] => Some []
  | x :: y :: v :: b' => (λ l, (Some (Z_of_bytes [x; y]), Z_of_bytes [v]) :: l) <$> parse_inputs b'
  | _ => None
  end.

(** The [w] low bytes of a number, most significant first. *)
Fixpoint to_bytes (w : nat) (h : Z) : Bytes :=
  match w with O => [] | S w' => (to_bytes w' (h / 256) ++ [byte (h mod 256)])%list end.

(** Transaction ids are shown as two bytes when they fit, and are at most 32 bytes
    long; a path is its height byte and a root is txid + 7. *)
Definition sdk0 : Sdk := {|
  NewHashFromHex := λ s, match encTxID s with
                         | Ret raw => if (String.length raw <=? 32)%nat
                                      then Some (Z_of_bytes (list_ascii_of_string raw)) else None
                         | _ => None
                         end;
  Hash_String := λ h, string_of_list_ascii (EncodeToString (to_bytes (if h <? 65536 then 2%nat else 32%nat) h));
  MerklePath := Bytes;
  NewMerklePathFromBinary := λ b, match b with [_] => Some b | _ => None end;
  mp_BlockHeight := Z_of_bytes;
  mp_ComputeRoot := λ _ h, Some (h + 7);
  mp_Bytes := id;
  NewTransactionFromBytes := parse_inputs;
|}.
#[local] Existing Instance sdk0.
#[local] Existing Instance range_canonical.

(** Block 100 is the only known one and holds transaction ab01. *)
Definition hdrs0 : option Headers :=
  Some (mkHeaders (λ root height, if height =? 100 then Some (root =? 43777 + 7) else None)
          (λ height, if height =? 100 then Some 4660 else None)).
Definition clk0 (n : nat) : Time := 1000 + Z.of_nat n.

(** ab01 (hash 43777) spends coin cc01:0 and pays itself change; ab02 was aborted. *)
Definition raw_ab01 : Bytes := [byte 204; byte 1; byte 0].
Definition row_ab01 : KnownTx :=
  mkKnownTx "ab01" ProvenTxStatusUnconfirmed None 1 0 true false None "{}" raw_ab01 [] None [] [] [] []
    None None None 10 10 epoch.
Definition row_ab02 : KnownTx :=
  mkKnownTx "ab02" KnownTxStatusAborted None 0 0 false false None "{}" raw_ab01 [] None [] [] [] []
    None None None 11 11 epoch.
Definition key (txid : string) : Raw := match encTxID txid with Ret raw => raw | _ => "" end.
Definition meta0 : Meta :=
  mkMeta {[ key "ab01" := row_ab01; key "ab02" := row_ab02 ]}
    {[ 1 := mkTx 7 None TxStatusUnproven "ref1" (Some (key "ab01")) true (-20) "pay" None None ["b"%char] 10 10;
       2 := mkTx 7 None TxStatusAborted "ref2" (Some (key "ab02")) true (-20) "oops" None None [] 11 11 ]}
    {[ 1 := mkOutput 7 1 0 900 [] (Some "default") None true "P2PKH" "storage" "change" "" None None None None 10 10 ]}
    ∅ 3 2 false no_names no_names no_catalog.
Definition coin (h vout v : Z) : UtxoTypes.Mint :=
  mkMint (mkOutpoint h vout) 7 "default" v 107 TierUnproven.
Definition utxo0 : MemStore.Store :=
  (MemStore.Spend [mkSpendOp (mkOutpoint 52225 0) "ref1" 43777] true
    (MemStore.Mint clk0 [coin 43777 0 900; coin 52225 0 1000] MemStore.New).2).2.
Definition p0 : Provider := mkProvider meta0 utxo0 0.

Definition event (txid : string) (st : Status) (path : Bytes) : TxRecord :=
  mkTxRecord txid st 0 "" 0 path "" [] [].
Definition mined_ab01 : TxRecord := event "ab01" StatusMined [byte 100].

Abbreviation update r := (ApplyStatusUpdate clk0 hdrs0 false r).
Abbreviation each recs := (apply_each clk0 hdrs0 false recs).
Abbreviation batched recs := (ApplyStatusBatch clk0 hdrs0 false recs).

(** The status of a known transaction, and the coins that are stored. *)
Definition status_of (txid : string) (p : Provider) : option ProvenTxReqStatus :=
  kt_Status <$> known_txs (p_meta p) !! key txid.
Definition coins_of (p : Provider) : list (Outpoint * Tier) :=
  (λ kr, (kr.1, u_Tier (MemStore.r_utxo kr.2))) <$> map_to_list (MemStore.rows (p_utxo p)).

(** A confirmed proof: the row is completed, the change is promoted to the mined
    tier and the spent input leaves the inventory. *)
Lemma unverified_proof_never_stored_witness :
  let p := (batched [mined_ab01] p0).2 in
  status_of "ab01" p = Some ProvenTxStatusCompleted ∧
  coins_of p = [(mkOutpoint 43777 0, TierMined)] ∧
  ∃ k, known_txs (p_meta p) !! key "ab01" = Some k ∧
    anchored hdrs0 [mined_ab01] (known_txs (p_meta p0)) (key "ab01") k.
Proof.
  split_and!; [vm_compute; reflexivity..|]. eexists. split; [vm_compute; reflexivity|].
  apply (unverified_proof_never_stored clk0 hdrs0 false [mined_ab01] p0). left. vm_compute. reflexivity.
Defined.

(** The transaction [ab02], aborted before it was sent, is REJECTED and then SEEN. *)
Lemma abort_fence_bypassed_witness :
  let seen := event "ab02" StatusSeenOnNetwork [] in
  let rejected := event "ab02" StatusRejected [] in
  (each [rejected; seen] p0).1 = Ret () ∧
  status_of "ab02" (each [rejected; seen] p0).2 = Some ProvenTxStatusUnconfirmed ∧
  ∃ p1, update rejected p0 = (Ret (), p1) ∧
    tx_Status <$> transactions (p_meta (update seen p1).2) !! 2 = Some TxStatusAborted.
Proof.
  cbv zeta. split_and!; [vm_compute; reflexivity..|].
  set (seen := event "ab02" StatusSeenOnNetwork []). set (rejected := event "ab02" StatusRejected []).
  destruct (known_txs (p_meta p0) !! key "ab02") as [k|] eqn:Hk; [|by vm_compute in Hk].
  assert (kt_Status k = KnownTxStatusAborted ∧ prev_status k = "") as [Hs Hprev].
  { vm_compute in Hk. injection Hk as <-. done. }
  destruct (abort_fence_bypassed clk0 hdrs0 false seen rejected (key "ab02") k p0) as (_&p1&Hp1&_&Hrest); try done.
  { by rewrite Hprev. }
  exists p1. split; [done|]. destruct (update seen p1) as [o p2]. destruct Hrest as [_ Ha]. simpl.
  destruct (transactions (p_meta p0) !! 2) as [t|] eqn:Ht; [|by vm_compute in Ht].
  assert (tx_Status t = TxStatusAborted) as Hab by (vm_compute in Ht; injection Ht as <-; done).
  by rewrite (Ha 2 t Ht Hab) /= Hab.
Defined.

(** a batch is not always equivalent to its records one by one.  Two MINED
    records of one transaction, the first with a provable path and the second with
    none, complete it when applied in order, but collapse to the second in a batch,
    which then writes nothing; and a record whose txid is spelled in upper case is
    applied on its own but taken for a foreign transaction in a batch. *)
Theorem batch_diverges :
  let twice := [mined_ab01; event "ab01" StatusMined []] in
  let upper := [event "AB01" StatusMined [byte 100]] in
  status_of "ab01" (each twice p0).2 = Some ProvenTxStatusCompleted ∧
  batched twice p0 = (Ret (), p0) ∧
  status_of "ab01" (each upper p0).2 = Some ProvenTxStatusCompleted ∧
  batched upper p0 = (Ret (), p0).
Proof. by vm_compute. Qed.
End StatusUpdatesExample.
