(* ===== verification/Events.v ===== *)
(** * Events: applying Arcade's status stream

    [pkg/monitor/status_events.go]: batches, shards, and the replay cursor that decides
    where the stream resumes.  Trace lines and the statistics they carry are left out.

    Two goroutines share the tracker under its mutex: the applier ([applyStatusBatch] and
    the idle [flush]) and the reader ([resume] before every connect).  Each locked region
    is one function here; the step relation of the running handler is in [EventsProps]. *)
From Stdlib Require Import Ascii String.
From S2P Require Import Prelude UtxoTypes Statuses GoStrings KnownTx Ledger StatusUpdates.
Import GoStrings KnownTxRepo StatusUpdates.
Local Open Scope string_scope.
Local Open Scope Z_scope.

Module Events.

Definition LastEventIDKey : string := "arcade_sse_last_event_id".
Definition defaultApplyWorkers : Z := 8.
Definition applyBatchMax : nat := 512.
Definition cursorFlushBatches : Z := 64.
Definition cursorHoldMaxEvents : Z := 200000.
Definition applyDeadlockAttempts : nat := 3.

(** [arcade.StatusEvent] without the time it was received. *)
Record StatusEvent := mkEvent { ev_ID : string; ev_Record : TxRecord }.

(** [strconv.ParseInt(s, 10, 64)]. *)
Definition ParseInt (s : text) : option Z :=
  match s with
  | "-"%char :: r => n ← ParseUint 64 r; if n <=? 2 ^ 63 then Some (- n) else None
  | "+"%char :: r => n ← ParseUint 64 r; if n <? 2 ^ 63 then Some n else None
  | _ => n ← ParseUint 64 s; if n <? 2 ^ 63 then Some n else None
  end.

(** ** The replay cursor *)

(** A nil [unapplied] is the empty set. *)
Record cursorTracker := mkCursor {
  durable : string;
  pending : string;
  batches : Z;
  holding : bool;
  unapplied : gset string;
  held : Z;
  untracked : Z;
}.
Definition newCursor (id : string) : cursorTracker := mkCursor id "" 0 false ∅ 0 0.

Definition positionLocked (c : cursorTracker) : string := if decide (pending c ≠ "") then pending c else durable c.
Definition releaseLocked (c : cursorTracker) : cursorTracker :=
  mkCursor (durable c) (pending c) (batches c) false ∅ 0 0.
Definition releaseIfPastBoundLocked (c : cursorTracker) : cursorTracker :=
  if held c <? cursorHoldMaxEvents then c else releaseLocked c.

Definition event_ids (batch : list StatusEvent) : list string := filter (λ id, id ≠ "") (ev_ID <$> batch).
Definition untracked_key (n : Z) : string :=
  String "000"%char ("untracked-" ++ string_of_list_ascii (FormatUint n)).

Definition hold (batch : list StatusEvent) (c : cursorTracker) : (Z * string) * cursorTracker :=
  let ids := event_ids batch in
  let n := match ids with [] => untracked c + 1 | _ => untracked c end in
  let keys := match ids with [] => {[ untracked_key n ]} | _ => list_to_set ids end in
  let c' := releaseIfPastBoundLocked
              (mkCursor (durable c) (pending c) (batches c) true (unapplied c ∪ keys)
                 (held c + Z.of_nat (length batch)) n) in
  ((Z.of_nat (size (unapplied c')), positionLocked c'), c').

Definition newestEventID (batch : list StatusEvent) : string := default "" (last (event_ids batch)).

Definition cursorLess (a b : string) : bool :=
  if decide (a = "" ∨ b = "") then false
  else match ParseInt (list_ascii_of_string a) with
       | None => false
       | Some an => match ParseInt (list_ascii_of_string b) with None => false | Some bn => an <? bn end
       end.

(** The locked part of [record]; the second result says that a flush is due. *)
Definition record_locked (batch : list StatusEvent) (c : cursorTracker) : cursorTracker * bool :=
  let newest := newestEventID batch in
  let c1 := mkCursor (durable c) (pending c) (batches c) (holding c)
              (unapplied c ∖ list_to_set (ev_ID <$> batch)) (held c) (untracked c) in
  let c2 :=
    if holding c1 then
      let c1 := mkCursor (durable c1) (pending c1) (batches c1) true (unapplied c1)
                  (held c1 + Z.of_nat (length batch)) (untracked c1) in
      if decide (unapplied c1 = ∅) then releaseLocked c1 else releaseIfPastBoundLocked c1
    else c1 in
  if holding c2 then (c2, false)
  else if decide (newest = "") then (c2, false)
  else if cursorLess newest (positionLocked c2) then (c2, false)
  else (mkCursor (durable c2) newest (batches c2 + 1) (holding c2) (unapplied c2) (held c2) (untracked c2),
        cursorFlushBatches <=? batches c2 + 1).

(** ** Persistence *)

(** A write of the key-value table succeeds, is refused, or takes effect without the
    caller learning of it. *)
Inductive write := Written | Refused | Unacknowledged.
Abbreviation key_values := (gmap string string).
Definition SetKeyValue (w : write) (key value : string) (kv : key_values) : bool * key_values :=
  match w with
  | Written => (true, <[key := value]> kv)
  | Refused => (false, kv)
  | Unacknowledged => (false, <[key := value]> kv)
  end.

Definition set_batches (n : Z) (c : cursorTracker) : cursorTracker :=
  mkCursor (durable c) (pending c) n (holding c) (unapplied c) (held c) (untracked c).
Definition flush (w : write) (s : cursorTracker * key_values) : cursorTracker * key_values :=
  let '(c, kv) := s in
  if decide (pending c = "" ∨ pending c = durable c) then (set_batches 0 c, kv)
  else
    let '(ok, kv') := SetKeyValue w LastEventIDKey (pending c) kv in
    if ok : bool then (mkCursor (pending c) (pending c) 0 (holding c) (unapplied c) (held c) (untracked c), kv')
    else (c, kv').
Definition record (w : write) (batch : list StatusEvent) (s : cursorTracker * key_values) : cursorTracker * key_values :=
  let '(c', due) := record_locked batch s.1 in
  if due : bool then flush w (c', s.2) else (c', s.2).
Definition resume (w : write) (s : cursorTracker * key_values) : string * (cursorTracker * key_values) :=
  let s' := flush w s in (durable s'.1, s').

(** The cursor a starting handler loads; an error leaves it empty. *)
Definition load_cursor (readable : bool) (kv : key_values) : cursorTracker :=
  newCursor (if readable then default "" (kv !! LastEventIDKey) else "").

(** ** Batches *)

(** [ready] is in the queue when the first event is taken, [late] arrives before the
    linger is over.  The second result stays queued. *)
Definition collectBatch (stopping : bool) (linger : Z) (ready late : list StatusEvent) :
    list StatusEvent * list StatusEvent :=
  if stopping then ([], ready)
  else
    let batch := take applyBatchMax ready in
    if (length batch =? 1)%nat || (applyBatchMax <=? length batch)%nat || (linger <=? 0)
    then (batch, (drop applyBatchMax ready ++ late)%list)
    else (take applyBatchMax (batch ++ late)%list, drop applyBatchMax (batch ++ late)%list).

(** ** Shards *)

(** FNV-1a, 32 bits. *)
Definition fnv32a (s : text) : Z := foldl (λ h c, u32 (Z.lxor h (code c) * 16777619)) 2166136261 s.
Definition shardOf (txid : string) (width : Z) : Z := fnv32a (list_ascii_of_string txid) mod width.

Definition isTransientDBError (err : string) : bool :=
  let msg := ToLower (list_ascii_of_string err) in
  existsb (λ w, Contains msg (list_ascii_of_string w))
    ["deadlock"; "database is locked"; "database table is locked"; "busy"; "serialization"].

Definition applyShards (applyConcurrency : Z) : Z :=
  if 0 <? applyConcurrency then applyConcurrency else defaultApplyWorkers.
Definition shards (width : Z) (records : list TxRecord) : list (list TxRecord) :=
  (λ i, filter (λ r, shardOf (rec_TxID r) width = Z.of_nat i) records) <$> seq 0 (Z.to_nat width).

Section apply.
Context {S : Type} (ApplyStatusBatch : list TxRecord → M S string ()).
Context (applyConcurrency : Z).

Fixpoint apply_attempts (n : nat) (records : list TxRecord) : M S string () :=
  match n with
  | O => mret ()
  | Datatypes.S n' => λ s,
      match ApplyStatusBatch records s with
      | (Err e, s') =>
          if isTransientDBError e then match n' with O => (Err e, s') | _ => apply_attempts n' records s' end
          else (Err e, s')
      | r => r
      end
  end.
Definition applyShard (records : list TxRecord) : M S string () := apply_attempts applyDeadlockAttempts records.

(** The shards run at the same time; their txids are disjoint.  The result is the list
    of the errors, empty for nil. *)
Fixpoint apply_all (shards : list (list TxRecord)) : M S string (list string) :=
  match shards with
  | [] => mret []
  | [] :: rest => apply_all rest
  | recs :: rest => λ s,
      match applyShard recs s with
      | (Panic, s') => (Panic, s')
      | (r, s') =>
          match apply_all rest s' with
          | (Ret es, s'') => (Ret (match r with Err e => e :: es | _ => es end), s'')
          | r' => r'
          end
      end
  end.
Definition applyRecords (records : list TxRecord) : M S string (list string) :=
  match records with
  | [] => mret []
  | _ =>
      let width := applyShards applyConcurrency in
      if (Z.of_nat (length records) <=? Z.of_nat applyBatchMax / width) || (width <=? 1)
      then apply_all [records]
      else apply_all (shards width records)
  end.

(** The state of the handler: the storage, the tracker and the key-value table, and the
    batches the observer has been handed. *)
Record handler := mkHandler {
  h_storage : S;
  h_cursor : cursorTracker;
  h_kv : key_values;
  h_observed : list (list TxRecord);
}.
Definition applyStatusBatch (w : write) (batch : list StatusEvent) (h : handler) : outcome string () * handler :=
  let records := ev_Record <$> batch in
  match applyRecords records (h_storage h) with
  | (Ret [], s') =>
      let '(c', kv') := record w batch (h_cursor h, h_kv h) in
      (Ret (), mkHandler s' c' kv' (h_observed h ++ [records]))
  | (Ret _, s') => (Ret (), mkHandler s' (hold batch (h_cursor h)).2 (h_kv h) (h_observed h))
  | (_, s') => (Panic, mkHandler s' (h_cursor h) (h_kv h) (h_observed h))
  end.
End apply.
End Events.
