(* ===== verification/EventsProps.v ===== *)
(** * EventsProps: the replay cursor never leads

    The running handler as a step relation: Arcade delivers the events of its log in any
    order, batches apply or fail, the cursor is written or not, the stream reconnects
    and the process restarts, in any order. *)
From Stdlib Require Import Ascii String.
From S2P Require Import Prelude UtxoTypes Statuses GoStrings KnownTx Ledger StatusUpdates Events.
Import GoStrings KnownTxRepo StatusUpdates Events.
Local Open Scope string_scope.
Local Open Scope Z_scope.

Module EventsProps.

(** ** Event ids *)

(** Arcade's ids are nanosecond timestamps in decimal. *)
Definition timestamp (n : Z) : Prop := 0 ≤ n < 2 ^ 63.
Definition eid (n : Z) : string := string_of_list_ascii (FormatUint n).
#[global] Arguments eid : simpl never.

Lemma ParseUint64_FormatUint n : 0 ≤ n < 2 ^ 64 → ParseUint 64 (FormatUint n) = Some n.
Proof.
  intros Hn. rewrite /ParseUint /FormatUint.
  destruct (format_from 19 n []) as [|c s] eqn:Hs.
  { cbn [format_from] in Hs. exfalso. revert Hs. repeat case_match; done. }
  rewrite -Hs format_digits //; [|lia]. rewrite format_value /=; [|lia]. by rewrite (proj2 (Z.ltb_lt _ _)); [|lia].
Qed.
Lemma format_cons n : 0 ≤ n → ∃ c s, FormatUint n = c :: s ∧ is_digit c = true.
Proof.
  intros Hn. pose proof (format_digits 19 n [] Hn eq_refl) as Hd. rewrite /FormatUint.
  destruct (format_from 19 n []) as [|c s] eqn:Hs.
  { cbn [format_from] in Hs. exfalso. revert Hs. repeat case_match; done. }
  exists c, s. split; [done|]. cbn in Hd. by apply andb_true_iff in Hd as [-> _].
Qed.
Lemma ParseInt_eid n : timestamp n → ParseInt (list_ascii_of_string (eid n)) = Some n.
Proof.
  intros Hn. rewrite /timestamp in Hn. rewrite /eid list_ascii_of_string_of_list_ascii.
  destruct (format_cons n) as (c & s & Hc & Hd); [lia|].
  assert (ParseInt (FormatUint n) = (n ← ParseUint 64 (FormatUint n); if n <? 2 ^ 63 then Some n else None)) as ->.
  { rewrite Hc. by destruct c as [[] [] [] [] [] [] [] []]. }
  rewrite ParseUint64_FormatUint; [|lia]. cbn [mbind option_bind]. by rewrite (proj2 (Z.ltb_lt _ _)); [|lia].
Qed.
Lemma eid_inj a b : timestamp a → timestamp b → eid a = eid b → a = b.
Proof. intros Ha Hb E. apply (f_equal (λ s, ParseInt (list_ascii_of_string s))) in E. rewrite !ParseInt_eid // in E. by injection E. Qed.
Lemma eid_nonempty n : 0 ≤ n → eid n ≠ "".
Proof. intros Hn. destruct (format_cons n Hn) as (c & s & Hc & _). by rewrite /eid Hc. Qed.
Lemma cursorLess_eid a b : timestamp a → timestamp b → cursorLess (eid a) (eid b) = (a <? b).
Proof.
  intros Ha Hb. rewrite /cursorLess. case_decide as Hd.
  - destruct Hd as [E|E]; [by apply eid_nonempty in E; [|rewrite /timestamp in Ha; lia]|by apply eid_nonempty in E; [|rewrite /timestamp in Hb; lia]].
  - by rewrite !ParseInt_eid.
Qed.

(** ** Batches and shards *)

Lemma collect_app linger ready late batch rest :
  collectBatch false linger ready late = (batch, rest) → (batch ++ rest = ready ++ late)%list.
Proof.
  rewrite /collectBatch. case_match; intros [= <- <-].
  - by rewrite app_assoc take_drop.
  - rewrite take_drop. destruct (decide (length ready ≤ applyBatchMax)%nat) as [Hle|Hgt]; [by rewrite take_ge|].
    exfalso. apply orb_false_iff in H as [H _]. apply orb_false_iff in H as [_ H]. apply Nat.leb_gt in H.
    rewrite length_take in H. lia.
Qed.

Lemma shardOf_range txid width : 0 < width → 0 ≤ shardOf txid width < width.
Proof. intros. rewrite /shardOf. apply Z.mod_pos_bound. lia. Qed.

(** Every record is in one shard, with all the records of its txid, in their order. *)
Lemma shard_order width records txid :
  0 < width →
  ∃ shard, shards width records !! Z.to_nat (shardOf txid width) = Some shard ∧
    filter (λ r, rec_TxID r = txid) shard = filter (λ r, rec_TxID r = txid) records ∧
    ∀ i other, shards width records !! i = Some other → i ≠ Z.to_nat (shardOf txid width) →
      Forall (λ r, rec_TxID r ≠ txid) other.
Proof.
  intros Hw. pose proof (shardOf_range txid width Hw) as Hr. eexists. split_and!.
  - rewrite /shards list_lookup_fmap lookup_seq_lt; [done|lia].
  - rewrite list_filter_filter. apply list_filter_iff. intros r. rewrite Nat.add_0_l Z2Nat.id; [|lia]. naive_solver.
  - intros i other Hi Hne. rewrite /shards list_lookup_fmap in Hi. apply fmap_Some in Hi as (j & Hj & ->).
    apply lookup_seq in Hj as [-> Hj]. apply Forall_forall. intros r Hin Htx. apply list_elem_of_filter in Hin as [Hs _].
    apply Hne. rewrite -Htx Hs. lia.
Qed.

(** ** What the tracker does *)

Definition ids (l : list StatusEvent) : gset string := list_to_set (ev_ID <$> l).
#[global] Arguments ids : simpl never.

Lemma record_locked_spec batch c c' due :
  (holding c = false → unapplied c = ∅) → 0 ≤ held c → record_locked batch c = (c', due) →
  durable c' = durable c ∧ 0 ≤ held c' ≤ held c + Z.of_nat (length batch) ∧
  unapplied c' = (if holding c' then unapplied c ∖ ids batch else ∅) ∧
  (holding c' = false → unapplied c ∖ ids batch ≠ ∅ → cursorHoldMaxEvents ≤ held c + Z.of_nat (length batch)) ∧
  (pending c' = pending c ∨
   holding c' = false ∧ newestEventID batch ≠ "" ∧ cursorLess (newestEventID batch) (positionLocked c) = false ∧
   pending c' = newestEventID batch).
Proof.
  intros Hu Hh. rewrite /record_locked. fold (ids batch). cbn [holding durable pending batches unapplied held untracked].
  destruct (holding c) eqn:Hc.
  - case_decide as Hd; cbn [holding releaseLocked].
    + cbn [positionLocked releaseLocked durable pending]. fold (positionLocked c).
      repeat case_match; intros [= <- <-]; cbn; split_and!; try done; try lia; try (by left); by right.
    + rewrite /releaseIfPastBoundLocked. cbn [held]. destruct (Z.ltb_spec (held c + Z.of_nat (length batch)) cursorHoldMaxEvents).
      * cbn. intros [= <- <-]. cbn. split_and!; try done; try lia. by left.
      * cbn. fold (positionLocked c). repeat case_match; intros [= <- <-]; cbn; split_and!; try done; try lia; try (by left); by right.
  - rewrite Hu // (_ : ∅ ∖ ids batch = ∅); [|set_solver]. repeat case_match; intros [= <- <-]; cbn; split_and!; try done; try lia; try (by left); try by right.
Qed.

Lemma hold_spec batch c :
  let c' := (hold batch c).2 in
  durable c' = durable c ∧ pending c' = pending c ∧ (0 ≤ held c → 0 ≤ held c' ≤ held c + Z.of_nat (length batch)) ∧
  (if holding c' then unapplied c ∪ (ids batch ∖ {[ "" ]}) ⊆ unapplied c' else unapplied c' = ∅) ∧
  (holding c' = false → cursorHoldMaxEvents ≤ held c + Z.of_nat (length batch)).
Proof.
  rewrite /hold. cbn [snd]. rewrite /releaseIfPastBoundLocked. cbn [held].
  destruct (Z.ltb_spec (held c + Z.of_nat (length batch)) cursorHoldMaxEvents); cbn; [|split_and!; try done; lia].
  split_and!; try done; [lia|]. apply union_mono_l. intros x [Hx Hn]%elem_of_difference. rewrite not_elem_of_singleton in Hn.
  assert (Hin : x ∈ event_ids batch) by (apply list_elem_of_filter; rewrite /ids elem_of_list_to_set in Hx; done).
  destruct (event_ids batch); [by apply elem_of_nil in Hin|]. by apply elem_of_list_to_set.
Qed.

Lemma flush_spec w c kv c' kv' :
  flush w (c, kv) = (c', kv') →
  pending c' = pending c ∧ holding c' = holding c ∧ unapplied c' = unapplied c ∧ held c' = held c ∧
  (durable c' = durable c ∧ kv' = kv ∨
   pending c ≠ "" ∧ (durable c' = durable c ∨ durable c' = pending c) ∧ kv' = <[LastEventIDKey := pending c]> kv).
Proof.
  rewrite /flush. case_decide as Hd; [by intros [= <- <-]; split_and!; try done; left|].
  destruct w; cbn; intros [= <- <-]; cbn; split_and!; try done; try (by left); right; split_and!; auto.
Qed.
Lemma flush_position w c kv c' kv' : flush w (c, kv) = (c', kv') → positionLocked c' = positionLocked c.
Proof.
  intros (Hp & _ & _ & _ & Hd)%flush_spec. rewrite /positionLocked Hp. case_decide; [done|].
  by destruct Hd as [[-> _]|[? _]].
Qed.

(** ** The stream *)

(** What Arcade's stream has delivered and where it was opened anew, the latest first.
    Live events, catch-up windows and the reconnects inside the client all show up as
    deliveries, in whatever order they come. *)
Inductive arrival := Delivered (n : Z) | Opened (n : Z).

(** Event [n] was delivered since the last opening, or lies before the position of it. *)
Fixpoint reached (n0 : Z) (tr : list arrival) (n : Z) : Prop :=
  match tr with
  | [] => n ≤ n0
  | Delivered m :: tr => n = m ∨ reached n0 tr n
  | Opened m :: _ => n ≤ m
  end.
(** A later event was delivered when event [n] had not been reached: Arcade dropped [n],
    or will send it out of order. *)
Fixpoint overtaken (n0 : Z) (tr : list arrival) (n : Z) : Prop :=
  match tr with
  | [] => False
  | Delivered m :: tr => n < m ∧ ¬ reached n0 tr n ∨ overtaken n0 tr n
  | Opened _ :: tr => overtaken n0 tr n
  end.

Lemma reached_dec n0 tr n : Decision (reached n0 tr n).
Proof. induction tr as [|[m|m] tr IH]; simpl; apply _. Defined.

(** A delivery in the order of the log overtakes nothing. *)
Lemma in_order_overtaken (log : Z → Prop) n0 tr m n :
  (∀ k, log k → k < m → reached n0 tr k) → log n → overtaken n0 (Delivered m :: tr) n → overtaken n0 tr n.
Proof. intros Hall Hn [[Hlt Hr]|?]; [|done]. destruct Hr. by apply Hall. Qed.

(** ** The running handler *)

Section system.
Context {S : Type} (ApplyStatusBatch : list TxRecord → M S string ()) (applyConcurrency linger : Z).
(** The log from position [n0] on. *)
Context (log : Z → Prop) (n0 : Z).
Abbreviation reached := (reached n0).
Abbreviation overtaken := (overtaken n0).

(** Ghosts: what the stream did, the ids of the events of successful batches, those
    given up at the bound, and how many events have gone through the applier. *)
Record Feed := mkFeed {
  fd_handler : handler (S := S);
  fd_queue : list StatusEvent;
  fd_trace : list arrival;
  fd_applied : gset string;
  fd_given : gset string;
  fd_seen : Z;
}.
Abbreviation cursor f := (h_cursor (fd_handler f)).
Abbreviation stored f := (h_kv (fd_handler f) !! LastEventIDKey).

(** The events a release gives up: those still marked when the hold ends. *)
Definition given_up (marked : gset string) (h' : handler (S := S)) : gset string :=
  if holding (h_cursor h') then ∅ else marked.

Definition with_cursor (c : cursorTracker) (kv : key_values) (h : handler (S := S)) : handler :=
  mkHandler (h_storage h) c kv (h_observed h).

(** The position in an id, and the id of a position; no position is the empty id. *)
Definition pos_id (p : option Z) : string := from_option eid "" p.

(** Any event of the log can be delivered at any time.  A connect resumes at the cursor;
    a restart reads the stored cursor, or goes on without one when the read fails. *)
Inductive step : Feed → Feed → Prop :=
| step_deliver f n r :
    log n →
    step f (mkFeed (fd_handler f) (fd_queue f ++ [mkEvent (eid n) r]) (Delivered n :: fd_trace f)
              (fd_applied f) (fd_given f) (fd_seen f))
| step_applied f w ready late batch rest s' h' :
    fd_queue f = (ready ++ late)%list → collectBatch false linger ready late = (batch, rest) → batch ≠ [] →
    applyRecords ApplyStatusBatch applyConcurrency (ev_Record <$> batch) (h_storage (fd_handler f)) = (Ret [], s') →
    applyStatusBatch ApplyStatusBatch applyConcurrency w batch (fd_handler f) = (Ret (), h') →
    step f (mkFeed h' rest (fd_trace f) (fd_applied f ∪ ids batch)
              (fd_given f ∪ given_up (unapplied (cursor f) ∖ ids batch) h') (fd_seen f + Z.of_nat (length batch)))
| step_failed f w ready late batch rest e es s' h' :
    fd_queue f = (ready ++ late)%list → collectBatch false linger ready late = (batch, rest) → batch ≠ [] →
    applyRecords ApplyStatusBatch applyConcurrency (ev_Record <$> batch) (h_storage (fd_handler f)) = (Ret (e :: es), s') →
    applyStatusBatch ApplyStatusBatch applyConcurrency w batch (fd_handler f) = (Ret (), h') →
    step f (mkFeed h' rest (fd_trace f) (fd_applied f)
              (fd_given f ∪ given_up (unapplied (cursor f) ∪ ids batch) h') (fd_seen f + Z.of_nat (length batch)))
| step_flush f w c kv :
    flush w (cursor f, h_kv (fd_handler f)) = (c, kv) →
    step f (mkFeed (with_cursor c kv (fd_handler f)) (fd_queue f) (fd_trace f) (fd_applied f) (fd_given f) (fd_seen f))
| step_connect f w id c kv :
    resume w (cursor f, h_kv (fd_handler f)) = (id, (c, kv)) →
    step f (mkFeed (with_cursor c kv (fd_handler f)) (fd_queue f) (fd_trace f) (fd_applied f) (fd_given f) (fd_seen f))
| step_restart f readable k :
    stored f = eid <$> k → from_option timestamp True k →
    step f (mkFeed (with_cursor (load_cursor readable (h_kv (fd_handler f))) (h_kv (fd_handler f)) (fd_handler f)) []
              (Opened (default n0 k) :: fd_trace f) (fd_applied f) (fd_given f) (fd_seen f)).

(** ** The invariant *)

Definition settled (f : Feed) : gset string := fd_applied f ∪ fd_given f.

(** Everything up to [x] is accounted for. *)
Definition safe (f : Feed) (x : Z) : Prop :=
  ∀ n, log n → n0 < n → n ≤ x → eid n ∈ settled f ∨ overtaken (fd_trace f) n.

(** Where the cursor stands: [d] known to be stored, [k] stored, [p] to be stored. *)
Definition position (d p : option Z) : option Z := match p with Some _ => p | None => d end.
Record at_position (f : Feed) (d k p : option Z) : Prop := {
  at_durable : durable (cursor f) = pos_id d;
  at_stored : stored f = eid <$> k;
  at_pending : pending (cursor f) = pos_id p;
  at_safe x : d = Some x ∨ k = Some x ∨ p = Some x → timestamp x ∧ safe f x;
  at_order x : d = Some x → ∃ q, position d p = Some q ∧ x ≤ q ∧ ∀ y, k = Some y → y ≤ q;
}.
Record inv (f : Feed) : Prop := {
  inv_pos : ∃ d k p, at_position f d k p;
  inv_queue q1 e q2 : fd_queue f = (q1 ++ e :: q2)%list →
    ∃ m, log m ∧ ev_ID e = eid m ∧
      ∀ n, log n → n0 < n → n < m → eid n ∈ settled f ∪ unapplied (cursor f) ∪ ids q1 ∨ overtaken (fd_trace f) n;
  inv_reached n : log n → n0 < n → reached (fd_trace f) n →
    eid n ∈ settled f ∪ unapplied (cursor f) ∪ ids (fd_queue f) ∨ overtaken (fd_trace f) n;
  inv_hold : holding (cursor f) = false → unapplied (cursor f) = ∅;
  inv_held : 0 ≤ held (cursor f) ≤ fd_seen f;
  inv_given : fd_given f ≠ ∅ → cursorHoldMaxEvents ≤ fd_seen f;
}.
Hypothesis log_times : ∀ n, log n → timestamp n.

Lemma pos_id_nonempty x : timestamp x → pos_id (Some x) ≠ "".
Proof. intros [Hx _]. by apply eid_nonempty. Qed.
Lemma position_id f d k p : at_position f d k p → positionLocked (cursor f) = pos_id (position d p).
Proof.
  intros [Hd _ Hp Hs _]. rewrite /positionLocked Hp Hd. destruct p as [x|]; simpl; [|done].
  rewrite decide_True //. apply eid_nonempty. by destruct (Hs x) as [[? _] _]; [by right; right|].
Qed.

Lemma position_time f d k p x : at_position f d k p → position d p = Some x → timestamp x.
Proof. intros [_ _ _ Hs _] Hx. destruct p; simplify_eq/=; apply Hs; auto. Qed.

(** The events of a queue have the ids of the log. *)
Lemma queue_ids f q : inv f → (∃ r, fd_queue f = (q ++ r)%list) → Forall (λ e, ∃ m, log m ∧ ev_ID e = eid m) q.
Proof.
  intros Hi [r Hr]. apply Forall_forall. intros e (q1 & q2 & ->)%list_elem_of_split.
  destruct (inv_queue f Hi q1 e (q2 ++ r)) as (m & ? & ? & _); [by rewrite Hr -app_assoc|]. by exists m.
Qed.
Lemma newest_of q e : Forall (λ e, ∃ m, log m ∧ ev_ID e = eid m) (q ++ [e]) → newestEventID (q ++ [e]) = ev_ID e.
Proof using log_times.
  intros Hall. rewrite /newestEventID /event_ids fmap_app filter_app.
  change (ev_ID <$> [e]) with [ev_ID e]. rewrite filter_cons_True.
  - by rewrite last_snoc.
  - apply Forall_app in Hall as [_ (m & Hm & ->)%Forall_singleton]. apply log_times in Hm. apply eid_nonempty, Hm.
Qed.

Lemma ids_app q1 q2 : ids (q1 ++ q2) = ids q1 ∪ ids q2.
Proof. by rewrite /ids fmap_app list_to_set_app_L. Qed.

Lemma covered_rest (A B C D : gset string) q1 q2 :
  (∀ x, x ∈ A ∪ B ∪ ids q1 → x ∈ C ∪ D) → ∀ x, x ∈ A ∪ B ∪ ids (q1 ++ q2) → x ∈ C ∪ D ∪ ids q2.
Proof. intros H x. specialize (H x). rewrite ids_app. set_solver. Qed.

(** What is accounted for stays so while the sets and the trace grow. *)
Lemma at_position_grows f f' d k p :
  fd_handler f' = fd_handler f → (∀ x, x ∈ settled f → x ∈ settled f') →
  (∀ n, overtaken (fd_trace f) n → overtaken (fd_trace f') n) →
  at_position f d k p → at_position f' d k p.
Proof.
  intros Hh Hs Ho [Hd Hk Hp Hsafe Hord]. split; rewrite ?Hh; try done.
  intros x Hx. destruct (Hsafe x Hx) as [Ht Hsf]. split; [done|]. intros n Hn Hn0 Hle.
  destruct (Hsf n Hn Hn0 Hle); [left|right]; auto.
Qed.

Lemma inv_deliver f n r :
  inv f → log n →
  inv (mkFeed (fd_handler f) (fd_queue f ++ [mkEvent (eid n) r]) (Delivered n :: fd_trace f)
         (fd_applied f) (fd_given f) (fd_seen f)).
Proof.
  intros Hi Hn. destruct Hi as [(d & k & p & Hp) Hq Hc Hh He Hg]. split; try done.
  - exists d, k, p. apply (at_position_grows f); [done..| |done]. intros m Hm. by right.
  - intros q1 e q2 E. cbn in E. destruct q2 as [|x q2 _] using rev_ind.
    + apply app_inj_tail in E as [<- <-]. exists n. split_and!; [done..|]. intros m Hm Hm0 Hmn.
      destruct (reached_dec n0 (fd_trace f) m) as [Hr|Hr]; [|by right; left].
      destruct (Hc m Hm Hm0 Hr) as [Hx|Hx]; [by left|by right; right].
    + rewrite app_comm_cons app_assoc in E. apply app_inj_tail in E as [E _].
      destruct (Hq q1 e q2 E) as (m & Hm & Em & Hlt). exists m. split_and!; [done..|]. intros n' ? ? ?.
      destruct (Hlt n') as [Hx|Hx]; [done..|by left|by right; right].
  - intros m Hm Hm0 Hr. cbn [fd_queue fd_trace fd_handler reached] in *. rewrite /settled ids_app. cbn [fd_applied fd_given].
    destruct Hr as [->|Hr].
    + left. apply elem_of_union_r, elem_of_union_r, elem_of_list_to_set. left.
    + destruct (Hc m Hm Hm0 Hr) as [Hx|Hx]; [left|by right; right]. rewrite /settled in Hx. set_solver.
Qed.

(** The tracker after a batch, whatever became of it. *)
Lemma batch_cursor w batch f rs s' h' :
  applyRecords ApplyStatusBatch applyConcurrency (ev_Record <$> batch) (h_storage (fd_handler f)) = (Ret rs, s') →
  applyStatusBatch ApplyStatusBatch applyConcurrency w batch (fd_handler f) = (Ret (), h') →
  match rs with
  | [] => (h_cursor h', h_kv h') = record w batch (cursor f, h_kv (fd_handler f))
  | _ => h_cursor h' = (hold batch (cursor f)).2 ∧ h_kv h' = h_kv (fd_handler f)
  end.
Proof.
  intros Ha. rewrite /applyStatusBatch Ha. destruct rs as [|e es].
  - destruct (record _ _ _) as [c kv] eqn:E. intros [= <-]. done.
  - by intros [= <-].
Qed.
Lemma record_parts w batch c kv c' kv' :
  record w batch (c, kv) = (c', kv') →
  ∃ c1 due, record_locked batch c = (c1, due) ∧ (c' = c1 ∧ kv' = kv ∨ flush w (c1, kv) = (c', kv')).
Proof.
  rewrite /record. cbn [fst snd]. destruct (record_locked batch c) as [c1 due]. destruct due.
  - intros Hf. exists c1, true. by split; [|right].
  - intros [= <- <-]. exists c1, false. by split; [|left].
Qed.

(** A flush moves the stored position up to the safe one. *)
Lemma flushed f d k p w c kv c' kv' h q tr ap gi seen :
  at_position (mkFeed (mkHandler h c kv q) [] tr ap gi seen) d k p →
  flush w (c, kv) = (c', kv') →
  ∃ d' k', at_position (mkFeed (mkHandler h c' kv' q) f tr ap gi seen) d' k' p.
Proof.
  intros [Hd Hk Hp Hs Ho] (Hp' & _ & _ & _ & Hx)%flush_spec. cbn in *.
  destruct Hx as [[Hd' Hk']|(Hne & Hd' & Hk')]; cbn in *; [exists d, k; split; cbn; [congruence..|exact Hs|exact Ho]|].
  destruct p as [x|]; [|done].
  assert (Hst : kv' !! LastEventIDKey = eid <$> Some x) by (by rewrite Hk' lookup_insert_eq Hp).
  destruct Hd' as [Hd'|Hd']; [exists d, (Some x)|exists (Some x), (Some x)]; (split; cbn; [by rewrite Hd'|exact Hst|by rewrite Hp'| |]).
  - intros y Hy. apply Hs. naive_solver.
  - intros y Hy. destruct (Ho y Hy) as (? & [= <-] & ? & _). exists x. split_and!; [done..|]. by intros ? [= ->].
  - intros y Hy. apply Hs. naive_solver.
  - intros y [= ->]. exists y. split_and!; [done..|]. by intros ? [= ->].
Qed.

(** The cursor moves only to the last event of a batch, and not backwards. *)
Lemma next_pending f batch rest d k p c1 due :
  inv f → fd_queue f = (batch ++ rest)%list → batch ≠ [] → at_position f d k p →
  record_locked batch (cursor f) = (c1, due) →
  pending c1 = pending (cursor f) ∨
  holding c1 = false ∧ ∃ q e m, batch = (q ++ [e])%list ∧ log m ∧ ev_ID e = eid m ∧ pending c1 = eid m ∧
    (∀ n, log n → n0 < n → n < m → eid n ∈ settled f ∪ unapplied (cursor f) ∪ ids q ∨ overtaken (fd_trace f) n) ∧
    (∀ x, position d p = Some x → x ≤ m).
Proof using log_times.
  intros Hi Hq Hne Hp Hl. pose proof (queue_ids f batch Hi ltac:(by exists rest)) as Hids.
  pose proof (position_id _ _ _ _ Hp) as Hpos.
  apply record_locked_spec in Hl as (_ & _ & _ & _ & Hp1); [|apply (inv_hold _ Hi)|apply (inv_held _ Hi)].
  destruct Hp1 as [Hp1|(Hf1 & _ & Hl1 & Hp1)]; [by left|right]. split; [done|].
  destruct batch as [|e q _] using rev_ind; [done|]. rewrite newest_of // in Hl1, Hp1.
  destruct (inv_queue _ Hi q e rest) as (m & Hm & Em & Hq1); [by rewrite Hq -app_assoc|].
  exists q, e, m. split_and!; [done..|congruence|done|]. intros x Hx. rewrite Em Hpos Hx /= cursorLess_eid in Hl1.
  - by apply Z.ltb_ge in Hl1.
  - by apply log_times.
  - by eapply position_time.
Qed.
Lemma recorded_position f f' batch rest d k p c1 due h o :
  inv f → fd_queue f = (batch ++ rest)%list → batch ≠ [] → at_position f d k p →
  record_locked batch (cursor f) = (c1, due) →
  fd_handler f' = mkHandler h c1 (h_kv (fd_handler f)) o → fd_trace f' = fd_trace f →
  (∀ x, x ∈ settled f → x ∈ settled f') →
  (holding c1 = false → ∀ x, x ∈ settled f ∪ unapplied (cursor f) ∪ ids batch → x ∈ settled f') →
  ∃ p', at_position f' d k p'.
Proof using log_times.
  intros Hi Hq Hne Hp Hl Eh Et Hset Hcov. pose proof (next_pending _ _ _ _ _ _ _ _ Hi Hq Hne Hp Hl) as Hn.
  apply record_locked_spec in Hl as (Hd1 & _); [|apply (inv_hold _ Hi)|apply (inv_held _ Hi)].
  destruct Hp as [Hd Hk Hpe Hs Ho].
  assert (Hs' : ∀ x, d = Some x ∨ k = Some x ∨ p = Some x → timestamp x ∧ safe f' x).
  { intros x Hx. destruct (Hs x Hx) as [? Hsf]. split; [done|]. intros n ? ? ?. rewrite Et. destruct (Hsf n); auto. }
  destruct Hn as [Hn|(Hf1 & q & e & m & -> & Hm & Em & Hn & Hlt & Hle)].
  - exists p. split; rewrite ?Eh; cbn; [by rewrite Hd1|done|by rewrite Hn|done..].
  - exists (Some m). split; rewrite ?Eh; cbn; [by rewrite Hd1|done|done| |].
    + intros x [Hx|[Hx|[= <-]]]; [apply Hs'; auto..|]. split; [by apply log_times|]. intros n Hl Hn0 Hnm. rewrite Et.
      destruct (decide (n = m)) as [->|Hne'].
      * left. apply Hcov; [done|]. rewrite ids_app. apply elem_of_union_r, elem_of_union_r, elem_of_list_to_set. rewrite -Em. left.
      * destruct (Hlt n) as [Hx|Hx]; [done..|lia|left|by right]. apply Hcov; [done|]. rewrite ids_app. set_solver.
    + intros x Hx. destruct (Ho x Hx) as (q' & Hq' & ? & Hy). specialize (Hle q' Hq'). exists m.
      split_and!; [done|lia|]. intros y Ey. specialize (Hy y Ey). lia.
Qed.

Lemma inv_applied f w batch rest s' h' :
  inv f → fd_queue f = (batch ++ rest)%list → batch ≠ [] →
  applyRecords ApplyStatusBatch applyConcurrency (ev_Record <$> batch) (h_storage (fd_handler f)) = (Ret [], s') →
  applyStatusBatch ApplyStatusBatch applyConcurrency w batch (fd_handler f) = (Ret (), h') →
  inv (mkFeed h' rest (fd_trace f) (fd_applied f ∪ ids batch)
         (fd_given f ∪ given_up (unapplied (cursor f) ∖ ids batch) h') (fd_seen f + Z.of_nat (length batch))).
Proof using log_times.
  intros Hi Hq Hne Ha Hb. pose proof (batch_cursor _ _ _ _ _ _ Ha Hb) as Hrec. cbn in Hrec. symmetry in Hrec.
  destruct (inv_pos _ Hi) as (d & k & p & Hp). apply record_parts in Hrec as (c1 & due & Hl & Hfl). pose proof Hl as Hl'.
  apply record_locked_spec in Hl' as (_ & Hh1 & Hu1 & Hb1 & _); [|apply (inv_hold _ Hi)|apply (inv_held _ Hi)].
  assert (Hsame : holding (h_cursor h') = holding c1 ∧ unapplied (h_cursor h') = unapplied c1 ∧ held (h_cursor h') = held c1).
  { destruct Hfl as [[-> _]|(_ & ? & ? & ? & _)%flush_spec]; done. }
  destruct Hsame as (Eh & Eu & Ee).
  set (f' := mkFeed h' rest (fd_trace f) _ _ _).
  assert (Hcov : ∀ x, x ∈ settled f ∪ unapplied (cursor f) ∪ ids batch → x ∈ settled f' ∪ unapplied (h_cursor h')).
  { intros x Hx. rewrite Eu Hu1 /f' /settled /given_up /= Eh. rewrite /settled in Hx.
    destruct (decide (x ∈ ids batch)); [set_solver|]. destruct (holding c1); set_solver. }
  assert (Hset : ∀ x, x ∈ settled f → x ∈ settled f') by (intros x; rewrite /settled /f' /=; set_solver).
  split.
  - destruct (recorded_position f (mkFeed (mkHandler (h_storage h') c1 (h_kv (fd_handler f)) (h_observed h')) []
      (fd_trace f) (fd_applied f') (fd_given f') (fd_seen f')) _ _ _ _ _ _ _ (h_storage h') (h_observed h') Hi Hq Hne Hp Hl)
      as [p' Hp']; [done..| |].
    { intros Hf x Hx. specialize (Hcov x Hx). rewrite Eu Hu1 Hf in Hcov. rewrite /settled /= in Hcov |- *. set_solver. }
    destruct Hfl as [[E1 E2]|Hfl].
    + exists d, k, p'. destruct Hp'; split; cbn in *; try done; rewrite ?E1 ?E2; done.
    + destruct (flushed rest _ _ _ _ _ _ _ _ _ _ _ _ _ _ Hp' Hfl) as (d' & k' & Hx). exists d', k', p'.
      destruct Hx; split; done.
  - intros q1 e q2 E. cbn in E. destruct (inv_queue _ Hi (batch ++ q1) e q2) as (m & Hm & Em & Hq1); [by rewrite Hq E -app_assoc|].
    exists m. split_and!; [done..|]. intros n Hn Hn0 Hlt. destruct (Hq1 n Hn Hn0 Hlt) as [Hx|Hx]; [left|by right].
    by apply (covered_rest _ _ _ _ _ _ Hcov).
  - intros n Hn Hn0 Hc. destruct (inv_reached _ Hi n Hn Hn0 Hc) as [Hx|Hx]; [left|by right]. rewrite Hq in Hx.
    by apply (covered_rest _ _ _ _ _ _ Hcov).
  - cbn. rewrite Eh Eu Hu1. by intros ->.
  - cbn. rewrite Ee. pose proof (inv_held _ Hi). lia.
  - cbn. rewrite /given_up Eh. intros Hg. pose proof (inv_held _ Hi) as Hh. destruct (decide (fd_given f = ∅)) as [E|E].
    + destruct (holding c1) eqn:Ec; [set_solver|]. specialize (Hb1 eq_refl ltac:(set_solver)). lia.
    + pose proof (inv_given _ Hi E). lia.
Qed.

Lemma inv_failed f w batch rest e es s' h' :
  inv f → fd_queue f = (batch ++ rest)%list →
  applyRecords ApplyStatusBatch applyConcurrency (ev_Record <$> batch) (h_storage (fd_handler f)) = (Ret (e :: es), s') →
  applyStatusBatch ApplyStatusBatch applyConcurrency w batch (fd_handler f) = (Ret (), h') →
  inv (mkFeed h' rest (fd_trace f) (fd_applied f)
         (fd_given f ∪ given_up (unapplied (cursor f) ∪ ids batch) h') (fd_seen f + Z.of_nat (length batch))).
Proof using log_times.
  intros Hi Hq Ha Hb. destruct (batch_cursor _ _ _ _ _ _ Ha Hb) as [Hc Hkv].
  pose proof (queue_ids f batch Hi ltac:(by exists rest)) as Hids.
  destruct (hold_spec batch (cursor f)) as (Hd & Hp & Hh & Hu & Hg). rewrite -Hc in Hd, Hp, Hh, Hu, Hg.
  set (f' := mkFeed h' rest (fd_trace f) _ _ _).
  assert (Hne : "" ∉ ids batch).
  { rewrite /ids elem_of_list_to_set list_elem_of_fmap. intros (x & Ex & Hx). rewrite Forall_forall in Hids.
    destruct (Hids x Hx) as (m & [Hm _]%log_times & Em). rewrite Em in Ex. by apply (eid_nonempty m Hm). }
  assert (Hcov : ∀ x, x ∈ settled f ∪ unapplied (cursor f) ∪ ids batch → x ∈ settled f' ∪ unapplied (h_cursor h')).
  { intros x Hx. rewrite /f' /settled /given_up /=. rewrite /settled in Hx.
    destruct (holding (h_cursor h')); [|set_solver]. set_solver. }
  split.
  - destruct (inv_pos _ Hi) as (d & k & p & [Hd' Hk Hpe Hs Ho]). exists d, k, p. split; cbn; [congruence..| |done].
    intros x Hx. destruct (Hs x Hx) as [? Hsf]. split; [done|]. intros n Hn Hn0 Hle.
    destruct (Hsf n Hn Hn0 Hle) as [Hy|Hy]; [left|by right]. rewrite /settled /f' /= in Hy |- *. set_solver.
  - intros q1 x q2 E. cbn in E. destruct (inv_queue _ Hi (batch ++ q1) x q2) as (m & Hm & Em & Hq1); [by rewrite Hq E -app_assoc|].
    exists m. split_and!; [done..|]. intros n Hn Hn0 Hlt. destruct (Hq1 n Hn Hn0 Hlt) as [Hx|Hx]; [left|by right].
    by apply (covered_rest _ _ _ _ _ _ Hcov).
  - intros n Hn Hn0 Hr. destruct (inv_reached _ Hi n Hn Hn0 Hr) as [Hx|Hx]; [left|by right]. rewrite Hq in Hx.
    by apply (covered_rest _ _ _ _ _ _ Hcov).
  - cbn. intros E. by rewrite E in Hu.
  - cbn. pose proof (inv_held _ Hi) as Hx. specialize (Hh ltac:(lia)). lia.
  - cbn. rewrite /given_up. intros Hx. pose proof (inv_held _ Hi). destruct (decide (fd_given f = ∅)) as [E|E].
    + destruct (holding (h_cursor h')); [set_solver|]. specialize (Hg eq_refl). lia.
    + pose proof (inv_given _ Hi E). lia.
Qed.

Lemma inv_flush f w c kv :
  inv f → flush w (cursor f, h_kv (fd_handler f)) = (c, kv) →
  inv (mkFeed (with_cursor c kv (fd_handler f)) (fd_queue f) (fd_trace f) (fd_applied f) (fd_given f) (fd_seen f)).
Proof.
  intros [(d & k & p & Hp) Hq Hc Hh He Hg] Hf. pose proof (flush_spec _ _ _ _ _ Hf) as (_ & Eh & Eu & Ee & _).
  split; cbn; rewrite ?Eu ?Eh ?Ee; try done.
  assert (at_position (mkFeed (mkHandler (h_storage (fd_handler f)) (cursor f) (h_kv (fd_handler f))
    (h_observed (fd_handler f))) [] (fd_trace f) (fd_applied f) (fd_given f) (fd_seen f)) d k p) as Hp' by by destruct Hp.
  destruct (flushed (fd_queue f) _ _ _ _ _ _ _ _ _ _ _ _ _ _ Hp' Hf) as (d' & k' & ?). by exists d', k', p.
Qed.
Lemma eid_option_inj k k' :
  from_option timestamp True k → from_option timestamp True k' → eid <$> k = eid <$> k' → k = k'.
Proof. destruct k, k'; cbn; try done. intros ? ? [= E]. by apply eid_inj in E as ->. Qed.
Lemma inv_restart f readable k :
  inv f → stored f = eid <$> k → from_option timestamp True k →
  inv (mkFeed (with_cursor (load_cursor readable (h_kv (fd_handler f))) (h_kv (fd_handler f)) (fd_handler f)) []
         (Opened (default n0 k) :: fd_trace f) (fd_applied f) (fd_given f) (fd_seen f)).
Proof.
  intros [(d & k' & p & [_ Hk' _ Hs _]) Hq Hc Hh He Hg] Hk Hn.
  assert (k' = k) as ->.
  { apply eid_option_inj; [|done|congruence]. destruct k' as [x|]; [|done]. apply Hs. auto. }
  split; cbn; try done.
  - exists (if readable then k else None), k, None. split; cbn; try done.
    + destruct readable; [|done]. rewrite Hk. by destruct k.
    + intros x Hx. apply Hs. destruct readable; naive_solver.
    + intros x Hx. exists x. destruct readable; [|done]. split_and!; [done..|]. intros y Hy. simplify_eq. done.
  - by intros [] e q2.
  - intros m Hm Hm0 Hle. destruct k as [x|]; [|cbn in Hle; lia].
    destruct (Hs x ltac:(auto)) as [_ Hsf]. destruct (Hsf m Hm Hm0 Hle) as [Hx|Hx]; [left|by right].
    rewrite /settled in Hx |- *. cbn. set_solver.
  - lia.
Qed.

Lemma inv_step f f' : inv f → step f f' → inv f'.
Proof using log_times.
  intros Hi Hs. destruct Hs as [f n r|f w ready late batch rest s' h' Hq Hb|f w ready late batch rest e es s' h' Hq Hb|f w c kv|f w id c kv Hr|f b k].
  - by apply inv_deliver.
  - apply collect_app in Hb. rewrite -Hb in Hq. by eapply inv_applied.
  - apply collect_app in Hb. rewrite -Hb in Hq. intros. by eapply inv_failed.
  - by eapply inv_flush.
  - injection Hr as _ Hr. by eapply inv_flush.
  - by apply inv_restart.
Qed.

(** A stored position is replaced only by one that is not before it, once the handler
    has read it. *)
Definition advances (d k : option Z) (v : option string) : Prop :=
  v = eid <$> k ∨ ∃ y, timestamp y ∧ v = Some (eid y) ∧ (d ≠ None → ∀ x, k = Some x → x ≤ y).
Lemma flush_advances f d k p w c kv c' kv' :
  at_position f d k p → h_kv (fd_handler f) = kv → flush w (c, kv) = (c', kv') →
  pending c = pos_id p ∨ (∃ m, timestamp m ∧ pending c = eid m ∧ ∀ x, position d p = Some x → x ≤ m) →
  advances d k (kv' !! LastEventIDKey).
Proof.
  intros [_ Hk _ Hs Ho] <- (_ & _ & _ & _ & Hx)%flush_spec Hp.
  destruct Hx as [[_ ->]|(Hne & _ & ->)]; [by left|right]. rewrite lookup_insert_eq.
  destruct Hp as [Hp|(m & ? & Hp & Hm)].
  - destruct p as [x|]; [|done]. exists x. split_and!; [by apply Hs; auto|by rewrite Hp|].
    intros Hd y Hy. destruct d as [z|]; [|done]. destruct (Ho z eq_refl) as (q & [= <-] & _ & ?). auto.
  - exists m. split_and!; [done|by rewrite Hp|]. intros Hd y Hy. destruct d as [z|]; [|done].
    destruct (Ho z eq_refl) as (q & Hq & _ & Hle). specialize (Hm q Hq). specialize (Hle y Hy). lia.
Qed.
Lemma step_advances f f' d k p : inv f → at_position f d k p → step f f' → advances d k (stored f').
Proof using log_times.
  intros Hi Hp Hs. destruct Hs as [f n r|f w ready late batch rest s' h' Hq Hb Hne Ha Happ|
    f w ready late batch rest e es s' h' Hq Hb Hne Ha Happ|f w c kv Hf|f w id c kv Hr|f b k']; cbn.
  - left. apply Hp.
  - apply collect_app in Hb. rewrite -Hb in Hq. pose proof (batch_cursor _ _ _ _ _ _ Ha Happ) as Hrec. cbn in Hrec. symmetry in Hrec.
    apply record_parts in Hrec as (c1 & due & Hl & [[_ ->]|Hfl]); [left; apply Hp|].
    apply (flush_advances _ _ _ _ _ _ _ _ _ Hp eq_refl Hfl).
    destruct (next_pending _ _ _ _ _ _ _ _ Hi Hq Hne Hp Hl) as [E|(_ & q & e & m & _ & Hm & _ & E & _ & Hle)].
    + left. rewrite E. apply Hp.
    + right. exists m. split_and!; [by apply log_times|done..].
  - destruct (batch_cursor _ _ _ _ _ _ Ha Happ) as [_ ->]. left. apply Hp.
  - apply (flush_advances _ _ _ _ _ _ _ _ _ Hp eq_refl Hf). left. apply Hp.
  - injection Hr as _ Hr. apply (flush_advances _ _ _ _ _ _ _ _ _ Hp eq_refl Hr). left. apply Hp.
  - left. apply Hp.
Qed.

(** A handler that starts with the cursor [n0] stored, or with none. *)
Definition start (resuming : bool) (s : S) : Feed :=
  let kv := if resuming then {[ LastEventIDKey := eid n0 ]} else ∅ in
  mkFeed (mkHandler s (load_cursor true kv) kv []) [] [] ∅ ∅ 0.

Lemma inv_start resuming s : timestamp n0 → inv (start resuming s).
Proof.
  intros Hn. split; cbn; try done.
  - exists (if resuming then Some n0 else None), (if resuming then Some n0 else None), None.
    destruct resuming; split; cbn; try done.
    + intros x Hx. assert (x = n0) as -> by naive_solver. split; [done|]. intros n _ ? ?. lia.
    + intros x [= <-]. exists n0. split_and!; [done..|]. by intros y [= <-].
    + naive_solver.
  - by intros [] e q2.
  - lia.
Qed.
Lemma inv_run resuming s f : timestamp n0 → rtc step (start resuming s) f → inv f.
Proof using log_times.
  intros Hn Hr. pose proof (inv_start resuming s Hn) as Hi. induction Hr as [|f1 f2 f3 H12 _ IH]; [done|].
  apply IH. by eapply inv_step.
Qed.

(** C34: The replay cursor never leads the events it stands for.  Arcade may deliver the
    events of its log in any order, again or not at all; batches apply or fail; the
    cursor is written, refused or written without an acknowledgement; the stream
    reconnects and the process restarts, with the cursor readable or not, in any order.
    Then every event up to the stored cursor, and up to the one a reconnect resumes
    from, has been applied by a successful batch, was given up because a hold had
    reached its bound of 200000 events, or had been overtaken: a later event was
    delivered before it.  A delivered event that is none of these is queued, or is held
    and lies after both cursors.  And once a handler has read the stored cursor no step
    moves it back. *)
Theorem replay_cursor_never_leads resuming s f :
  timestamp n0 → rtc step (start resuming s) f →
  ∃ d k, durable (cursor f) = pos_id d ∧ stored f = eid <$> k ∧
    (∀ x n, d = Some x ∨ k = Some x → log n → n0 < n → n ≤ x →
       eid n ∈ fd_applied f ∪ fd_given f ∨ overtaken (fd_trace f) n) ∧
    (∀ n, log n → n0 < n → reached (fd_trace f) n →
       eid n ∉ fd_applied f ∪ fd_given f → ¬ overtaken (fd_trace f) n →
       eid n ∈ ids (fd_queue f) ∨
       holding (cursor f) = true ∧ eid n ∈ unapplied (cursor f) ∧ ∀ x, d = Some x ∨ k = Some x → x < n) ∧
    (∀ f', step f f' → advances d k (stored f')) ∧
    (fd_given f ≠ ∅ → cursorHoldMaxEvents ≤ fd_seen f).
Proof using log_times.
  intros Hn Hr. pose proof (inv_run resuming s f Hn Hr) as Hi.
  destruct (inv_pos _ Hi) as (d & k & p & Hp). pose proof Hp as [Hd Hk _ Hs _].
  assert (Hset : ∀ x n, d = Some x ∨ k = Some x → log n → n0 < n → n ≤ x →
    eid n ∈ fd_applied f ∪ fd_given f ∨ overtaken (fd_trace f) n).
  { intros x n Hx. apply Hs. naive_solver. }
  exists d, k. split_and!; [done..| | |apply (inv_given _ Hi)].
  - intros n Hl Hn0 Hc Hnot Hov. destruct (inv_reached _ Hi n Hl Hn0 Hc) as [Hx|?]; [|done]. rewrite /settled in Hx.
    destruct (decide (eid n ∈ ids (fd_queue f))) as [?|Hq]; [by left|right].
    assert (Hu : eid n ∈ unapplied (cursor f)) by set_solver.
    split_and!; [|done|].
    + destruct (holding (cursor f)) eqn:Eh; [done|]. rewrite (inv_hold _ Hi Eh) in Hu. set_solver.
    + intros x Hdx. destruct (Z.lt_ge_cases x n) as [?|Hge]; [done|]. by destruct (Hset x n Hdx Hl Hn0 Hge).
  - intros f' Hst. by apply (step_advances f f' d k p).
Qed.
End system.
End EventsProps.

(** ** A run

    The storage refuses the first batch.  Event 5 fails, event 6 applies behind it, the
    stream reconnects at 4, and 5 applies when it comes again. *)
Module EventsExample.
Import EventsProps.

Definition rec0 (txid : string) : TxRecord := mkTxRecord txid "MINED" 0 "" 0 [] "" [] [].
Definition flaky (recs : list TxRecord) : M nat string () := λ n,
  match n with O => (Err "constraint failed", 1%nat) | _ => (Ret (), n) end.
Definition log0 (n : Z) : Prop := n = 5 ∨ n = 6.
Lemma log0_times n : log0 n → timestamp n.
Proof. rewrite /log0 /timestamp. lia. Qed.
Definition event (n : Z) : StatusEvent := mkEvent (eid n) (rec0 "aa").

Abbreviation feed := (Feed (S := nat)).
Definition f0 : feed := start 4 true 0%nat.
Definition f1 : feed := mkFeed (fd_handler f0) [event 5] [Delivered 5] ∅ ∅ 0.
Definition h2 : handler (S := nat) := (applyStatusBatch flaky 1 Written [event 5] (fd_handler f1)).2.
Definition f2 : feed := mkFeed h2 [] [Delivered 5] ∅ (∅ ∪ given_up (unapplied (h_cursor (fd_handler f1)) ∪ ids [event 5]) h2) (0 + 1).
Definition f3 : feed := mkFeed (fd_handler f2) [event 6] [Delivered 6; Delivered 5] ∅ (fd_given f2) 1.
Definition h4 : handler (S := nat) := (applyStatusBatch flaky 1 Written [event 6] (fd_handler f3)).2.
Definition f4 : feed :=
  mkFeed h4 [] [Delivered 6; Delivered 5] (∅ ∪ ids [event 6])
    (fd_given f2 ∪ given_up (unapplied (h_cursor (fd_handler f3)) ∖ ids [event 6]) h4) (1 + 1).

Lemma run4 : rtc (step flaky 1 0 log0 4) f0 f4.
Proof.
  eapply rtc_l; [|eapply rtc_l; [|eapply rtc_l; [|apply rtc_once]]].
  - apply (step_deliver _ _ _ _ _ f0 5 (rec0 "aa")). by left.
  - eapply (step_failed _ _ _ _ _ f1 Written [event 5] [] [event 5] [] "constraint failed" [] 1%nat); [done|done|done|vm_compute; reflexivity|vm_compute; reflexivity].
  - apply (step_deliver _ _ _ _ _ f2 6 (rec0 "aa")). by right.
  - eapply (step_applied _ _ _ _ _ f3 Written [event 6] [] [event 6] [] 1%nat); [done|done|done|vm_compute; reflexivity|vm_compute; reflexivity].
Qed.

(** Event 6 has applied, and the cursor still stands at 4. *)
Lemma replay_cursor_never_leads_witness :
  durable (h_cursor (fd_handler f4)) = eid 4 ∧ (eid 5 ∈ unapplied (h_cursor (fd_handler f4)) ∧ 4 < 5).
Proof.
  split; [vm_compute; reflexivity|].
  destruct (replay_cursor_never_leads flaky 1 0 log0 4 log0_times true 0%nat f4 ltac:(rewrite /timestamp; lia) run4)
    as (d & k & Hd & _ & _ & Hheld & _).
  destruct (Hheld 5) as [Hq|(_ & Hu & _)].
  - by left.
  - lia.
  - cbn. auto.
  - apply (bool_decide_unpack _). vm_compute. exact I.
  - cbn. intros [[_ Hx]|[[Hlt _]|[]]]; [apply Hx; auto|lia].
  - exfalso. revert Hq. apply (bool_decide_unpack _). vm_compute. exact I.
  - split; [exact Hu|lia].
Defined.

(** The order of delivery matters.  An event of a catch-up window that lies before the
    cursor and fails is held at the cursor, and a reconnect resumes after it: the hold
    does not bring it back. *)
Lemma late_event_not_replayed :
  let c := (hold [mkEvent "5" (rec0 "aa")] (newCursor "10")).2 in
  (hold [mkEvent "5" (rec0 "aa")] (newCursor "10")).1 = (1, "10") ∧
  (resume Written (c, ∅)).1 = "10" ∧ cursorLess "5" "10" = true.
Proof. split_and!; vm_compute; reflexivity. Qed.
End EventsExample.
