(* ===== verification/SpendConflict.v ===== *)
(** * SpendConflict: reading a spend conflict out of a rejection

    [pkg/storage/spend_conflict.go]: whether a rejection says that inputs are already
    spent, which outpoints and spenders its text names, and which inputs remain to be
    released.  The regular expressions are written as the scanners they are: each
    match is deterministic, and matches do not overlap. *)
From Stdlib Require Import Ascii String.
From S2P Require Import Prelude UtxoTypes Statuses KnownTx GoStrings StatusUpdates.
Import KnownTxRepo GoStrings StatusUpdates.
Local Open Scope string_scope.
Local Open Scope Z_scope.

Module SpendConflict.

Abbreviation txt := list_ascii_of_string (only parsing).

Definition arcStatusConflict : Z := 466.

Record spendConflictInfo := mkInfo {
  ci_Conflict : bool;
  ci_Spent : gset Outpoint;
  ci_Spenders : list string;
}.

(** ** Regular expressions *)

(** [FindAll]: [m prev s] is the match at the head of [s], if any, with its length;
    [prev] tells whether the character before is a word character.  [skip] counts
    the characters of the last match still to be passed. *)
Fixpoint FindAll {A} (m : bool → text → option (A * nat)) (skip : nat) (prev : bool) (s : text) :
    list A :=
  match s with
  | [] => []
  | c :: s' =>
      match skip with
      | S skip' => FindAll m skip' (is_word c) s'
      | O => match m prev s with
             | Some (a, len) => a :: FindAll m (len - 1) (is_word c) s'
             | None => FindAll m 0 (is_word c) s'
             end
      end
  end.

Definition hex64 (s : text) : option (text * text) :=
  if ((length (take 64 s) =? 64)%nat && forallb is_hex (take 64 s))
  then Some (take 64 s, drop 64 s) else None.
Definition starts_with_word (s : text) : bool := match s with [] => false | c :: _ => is_word c end.
Definition colon : ascii := ":".

(** [\b([0-9a-f]{64}):(\d+)\b], case-insensitive. *)
Definition outpointInText (prev : bool) (s : text) : option (text * text * nat) :=
  if prev then None
  else match hex64 s with
       | Some (txid, c :: s') =>
           let vout := take_while is_digit s' in
           if bool_decide (c = colon) && bool_decide (vout ≠ []) &&
              negb (starts_with_word (drop_while is_digit s'))
           then Some (txid, vout, (65 + length vout)%nat) else None
       | _ => None
       end.

(** A word in any case, and one or more blanks. *)
Definition expect (w s : text) : option text :=
  if has_prefix (ToUpper w) (ToUpper s) then Some (drop (length w) s) else None.
Definition blanks (s : text) : option text :=
  match s with c :: s' => if is_blank c then Some (drop_while is_blank s') else None | [] => None end.

(** [spent\s+by\s+tx\s+([0-9a-f]{64})], case-insensitive. *)
Definition spentByTxInText (_ : bool) (s : text) : option (text * nat) :=
  s1 ← expect (txt "spent") s; s1 ← blanks s1;
  s2 ← expect (txt "by") s1; s2 ← blanks s2;
  s3 ← expect (txt "tx") s2; s3 ← blanks s3;
  '(id, rest) ← hex64 s3;
  Some (id, (length s - length rest)%nat).

(** [^\s*([A-Z_]+)\s*\(\d+\)\s*:], case-insensitive; the result is the name. *)
Definition is_code_char (c : ascii) : bool := is_upper c || is_lower c || (code c =? 95).
Definition teranodeCodePrefix (line : text) : option text :=
  let s := drop_while is_blank line in
  let name := take_while is_code_char s in
  match name, drop_while is_blank (drop_while is_code_char s) with
  | _ :: _, "("%char :: s' =>
      match take_while is_digit s', drop_while is_digit s' with
      | _ :: _, ")"%char :: s'' =>
          match drop_while is_blank s'' with ":"%char :: _ => Some name | _ => None end
      | _, _ => None
      end
  | _, _ => None
  end.

(** ** Classification *)

Definition conflict_words : list text :=
  [txt "UTXO_SPENT"; txt "TX_CONFLICTING"; txt "TX_INVALID_DOUBLE_SPEND"; txt "ALREADY SPENT";
   txt "DOUBLE SPEND"; txt "DOUBLE_SPEND"].
Definition conflict_codes : list text :=
  [txt "UTXO_SPENT"; txt "TX_CONFLICTING"; txt "TX_INVALID_DOUBLE_SPEND"].
Definition newline : ascii := ascii_of_nat 10.

Definition extraLooksLikeSpendConflict (extra : text) : bool :=
  existsb (Contains (ToUpper extra)) conflict_words ||
  existsb (λ line, match teranodeCodePrefix line with
                   | Some name => bool_decide (ToUpper name ∈ conflict_codes)
                   | None => false
                   end) (Split newline extra).

Section sdk.
Context `{Sdk}.

(** The outpoint a match names, unless its parts do not parse. *)
Definition named_outpoint (m : text * text) : option Outpoint :=
  h ← NewHashFromHex (string_of_list_ascii m.1);
  vout ← ParseUint 32 m.2;
  Some (mkOutpoint h vout).

Definition parseSpendConflictExtra (extra : string) : spendConflictInfo :=
  let s := txt extra in
  match TrimSpace s with
  | [] => mkInfo false ∅ []
  | _ => mkInfo (extraLooksLikeSpendConflict s)
           (list_to_set (omap named_outpoint (FindAll outpointInText 0 false s)))
           (dedup_from ∅ ((λ id, string_of_list_ascii (ToLower id)) <$> FindAll spentByTxInText 0 false s))
  end.

Definition isSpendConflictRecord (r : TxRecord) : bool :=
  bool_decide (rec_CompetingTxs r ≠ []) || (rec_StatusCode r =? arcStatusConflict) ||
  ci_Conflict (parseSpendConflictExtra (rec_ExtraInfo r)).
End sdk.

Definition normalize (id : string) : string := string_of_list_ascii (ToLower (TrimSpace (txt id))).
Definition mergeSpenders (competing fromExtra : list string) : list string :=
  dedup_from ∅ (filter (λ id, id ≠ "") (normalize <$> (competing ++ fromExtra)%list)).

(** The inputs not in [spent], in order, and how many were held back. *)
Fixpoint filter_inputs (all : list Outpoint) (spent : gset Outpoint) : list Outpoint * Z :=
  match all with
  | [] => ([], 0)
  | op :: all' =>
      let '(release, held) := filter_inputs all' spent in
      if decide (op ∈ spent) then (release, held + 1) else (op :: release, held)
  end.
Definition filterReleaseInputs (all : list Outpoint) (spent : gset Outpoint) : list Outpoint * Z :=
  if decide (spent = ∅) then (all, 0) else filter_inputs all spent.

(** ** Lemmas *)

Lemma dedup_from_sub seen l x : x ∈ dedup_from seen l → x ∈ l.
Proof.
  revert seen. induction l as [|y l IH]; intros seen; simpl; [done|].
  case_decide; [intros ?%IH; by right|]. intros [->|?%IH]%elem_of_cons; [left|by right].
Qed.
Lemma mergeSpenders_nonempty a b c : c ∈ mergeSpenders a b → c ≠ "".
Proof. by intros [? _]%dedup_from_sub%list_elem_of_filter. Qed.

Lemma filterReleaseInputs_elem all spent op :
  op ∈ (filterReleaseInputs all spent).1 ↔ op ∈ all ∧ op ∉ spent.
Proof.
  rewrite /filterReleaseInputs. case_decide as Hs; [set_solver|]. clear Hs.
  induction all as [|x all IH]; simpl; [set_solver|].
  destruct (filter_inputs all spent) as [release held]. simpl in IH. case_decide; simpl; set_solver.
Qed.

Lemma filterReleaseInputs_held all spent :
  (filterReleaseInputs all spent).2 ≠ 0 ↔ ∃ op, op ∈ all ∧ op ∈ spent.
Proof.
  rewrite /filterReleaseInputs. case_decide as Hs; [set_solver|]. clear Hs.
  enough (0 ≤ (filter_inputs all spent).2 ∧
    ((filter_inputs all spent).2 ≠ 0 ↔ ∃ op, op ∈ all ∧ op ∈ spent)) by tauto.
  induction all as [|x all IH]; simpl; [set_solver|].
  destruct (filter_inputs all spent) as [release held]. simpl in IH. destruct IH as [Hpos IH].
  case_decide as Hx; simpl; (split; [lia|]).
  - split; [intros _; exists x; set_solver|lia].
  - rewrite IH. set_solver.
Qed.

(** The test of each line's leading code never adds to the search for the words. *)
Lemma line_codes_redundant extra :
  extraLooksLikeSpendConflict extra = existsb (Contains (ToUpper extra)) conflict_words.
Proof.
  rewrite /extraLooksLikeSpendConflict. destruct (existsb (Contains _) _) eqn:Hw; [done|]. simpl.
  apply not_true_iff_false. intros (line&Hline&Hm)%existsb_exists.
  assert (Hname : ∃ name a b, line = (a ++ name ++ b)%list ∧ ToUpper name ∈ conflict_codes).
  { destruct (teranodeCodePrefix line) as [name|] eqn:Hp; [|done].
    apply bool_decide_eq_true in Hm. exists name, (take_while is_blank line),
      (drop_while is_code_char (drop_while is_blank line)).
    assert (name = take_while is_code_char (drop_while is_blank line)) as ->.
    { rewrite /teranodeCodePrefix in Hp. repeat (case_match; try done). by simplify_eq. }
    by rewrite -!take_drop_while. }
  destruct Hname as (name&a&b&->&Hc).
  apply list_elem_of_In, Split_infix in Hline as (a'&b'&->).
  apply not_false_iff_true in Hw; [done|]. apply existsb_exists. exists (ToUpper name). split.
  - apply list_elem_of_In. revert Hc. rewrite /conflict_codes /conflict_words. set_solver.
  - apply Contains_spec. exists (ToUpper (a' ++ a)), (ToUpper (b ++ b')).
    rewrite /ToUpper !fmap_app -!app_assoc. done.
Qed.
End SpendConflict.
