(* ===== verification/Abort.v ===== *)
(** * ReleaseOps: the coin-store operations behind a release or an abort

    The operation primitives of [pkg/storage/reconciler.go] and [pkg/storage/abort.go],
    their outbox form with its codecs, the executor [executeOutboxOp] and the drain
    worker [DrainOutbox].  [errText] gives the message of an error; texts are not
    modelled beyond that. *)
From Stdlib Require Import Ascii String.
From S2P Require Import Prelude UtxoTypes MemStore Statuses GoStrings KnownTx Ledger StatusUpdates.
Import WdkStatus ArcadeStatus KnownTxRepo Outbox Ledger StatusUpdates GoStrings.
Local Open Scope string_scope.
Local Open Scope Z_scope.

Module ReleaseOps.

Definition defaultMonitorBatchLimit : Z := 256.

Section codec.
Context `{Sdk}.

Definition colon : ascii := ":".
Definition Outpoint_String (op : Outpoint) : string :=
  Hash_String (TxID op) ++ ":" ++ string_of_list_ascii (FormatUint (Vout op)).
Definition encodeOutpoints (ops : list Outpoint) : list string := Outpoint_String <$> ops.

Definition decodeOutpoint (s : string) : outcome perror Outpoint :=
  match cut_last colon (list_ascii_of_string s) with
  | None => Err (BadOutpoint s)
  | Some (txid, vout) =>
      match NewHashFromHex (string_of_list_ascii txid) with
      | None => Err (BadOutpoint s)
      | Some h => match ParseUint 32 vout with
                  | None => Err (BadOutpoint s)
                  | Some v => Ret (mkOutpoint h v)
                  end
      end
  end.
Fixpoint decodeOutpoints (ss : list string) : outcome perror (list Outpoint) :=
  match ss with
  | [] => Ret []
  | s :: ss' => op ← decodeOutpoint s; ops ← decodeOutpoints ss'; Ret (op :: ops)
  end.

(** A hash is 32 bytes and an output index is 32 bits. *)
Definition hash_ok (h : Hash) : Prop := 0 ≤ h < 2 ^ 256.
Definition op_ok (op : Outpoint) : Prop := hash_ok (TxID op) ∧ 0 ≤ Vout op < 2 ^ 32.

(** The hash codec of the SDK is documented as a round trip, and its values have the
    widths of their types. *)
Class SdkHashLaws := {
  hash_parsed s h : NewHashFromHex s = Some h → hash_ok h;
  hash_roundtrip h : hash_ok h → NewHashFromHex (Hash_String h) = Some h;
  inputs_parsed raw ins : NewTransactionFromBytes raw = Some ins → Forall op_ok (input_ops ins);
}.

Lemma string_list_app a b :
  list_ascii_of_string (a ++ b) = (list_ascii_of_string a ++ list_ascii_of_string b)%list.
Proof. induction a as [|c a IH]; simpl; by rewrite ?IH. Qed.

Lemma colon_not_digit s : forallb is_digit s = true → colon ∉ s.
Proof.
  rewrite forallb_forall. intros Hs Hc%list_elem_of_In. apply Hs in Hc. by vm_compute in Hc.
Qed.

Lemma decode_Outpoint_String `{!SdkHashLaws} op :
  op_ok op → decodeOutpoint (Outpoint_String op) = Ret op.
Proof.
  intros [Hh Hv]. rewrite /decodeOutpoint /Outpoint_String !string_list_app /= list_ascii_of_string_of_list_ascii.
  rewrite (cut_last_app colon); [|by apply colon_not_digit, format_digits; [lia|]].
  rewrite string_of_list_ascii_of_string hash_roundtrip; [|done]. rewrite ParseUint_FormatUint //. by destruct op.
Qed.

Lemma decode_encodeOutpoints `{!SdkHashLaws} ops :
  Forall op_ok ops → decodeOutpoints (encodeOutpoints ops) = Ret ops.
Proof.
  induction 1 as [|op ops Hop _ IH]; simpl; [done|]. by rewrite decode_Outpoint_String // /= IH.
Qed.
End codec.

Section ops.
Context `{MapRange, Sdk}.
Context (clk : nat → Time) (shared : bool) (errText : perror → string).

(** ** Primitives *)

Definition doUnspend (spendingTxID : Hash) (ops : list Outpoint) : PM () :=
  match ops with
  | [] => mret ()
  | _ => _ ← utxo_call (MemStore.Unspend spendingTxID ops);
         best_effort (utxo_call (MemStore.Unfreeze ops))
  end.

Definition doReleaseOutpoints (reservation : string) (ops : list Outpoint) : PM () :=
  match ops with
  | [] => mret ()
  | _ => if decide (reservation = "") then mret ()
         else utxo_call (MemStore.ReleaseOutpoints reservation ops)
  end.

Definition doRemovePhantom (ops : list Outpoint) : PM () :=
  match ops with [] => mret () | _ => utxo_call (MemStore.Remove ops true) end.

Definition cascade_settled (st : ProvenTxReqStatus) : bool :=
  is_one_of st [ProvenTxStatusCompleted; KnownTxStatusSuspectFailed; KnownTxStatusStuck] ||
  IsTerminalFailure st.
Definition cascade_reason (parent : Hash) : string :=
  "cascade: parent " ++ Hash_String parent ++ " is terminally dead".
Fixpoint cascadeChildren (parent : Hash) (children : list Hash) : PM Z :=
  match children with
  | [] => mret 0
  | child :: rest =>
      let txid := Hash_String child in
      found ← meta_read (known (FindByTxID txid));
      match found with
      | Some kt =>
          if cascade_settled (kt_Status kt) then cascadeChildren parent rest
          else
            since ← tick clk;
            _ ← ignoring is_not_found (meta_call clk (λ now,
                  known (MarkSuspect now txid since [] "cascade" (cascade_reason parent))));
            n ← cascadeChildren parent rest; mret (n + 1)
      | None => cascadeChildren parent rest
      end
  end.

Definition doRemoveMinted (mintTxID : Hash) (ops : list Outpoint) : PM Z :=
  match ops with
  | [] => mret 0
  | _ => report ← utxo_call (MemStore.RemoveByMintTx mintTxID ops);
         cascadeChildren mintTxID (rep_AlreadySpentBy report)
  end.

Definition doAbortRelease (userID : Z) (reservation : string) : PM () :=
  _ ← utxo_call (MemStore.Unpin userID reservation);
  _ ← utxo_call (MemStore.ReleaseReservation userID reservation); mret ().

Definition doAbortRemoveChange (mintTxID : string) (ops : list Outpoint) : PM () :=
  match ops with
  | [] => mret ()
  | _ => match NewHashFromHex mintTxID with
         | None => throw (BadTxID mintTxID)
         | Some hash => _ ← utxo_call (MemStore.RemoveByMintTx hash ops); mret ()
         end
  end.

(** ** The executor and the drain worker *)

(** The result is the number of children cascaded. *)
Definition executeOutboxOp (e : OutboxEntry) : PM Z :=
  match e_Payload e with
  | unspendPayload spender ss =>
      if decide (e_OpType e = opUnspend) then
        match NewHashFromHex spender with
        | None => throw (BadTxID spender)
        | Some h => ops ← lift (decodeOutpoints ss); _ ← doUnspend h ops; mret 0
        end
      else throw (BadOutboxOp (e_OpType e))
  | releasePayload reservation ss =>
      if decide (e_OpType e = opReleaseResv) then
        ops ← lift (decodeOutpoints ss); _ ← doReleaseOutpoints reservation ops; mret 0
      else throw (BadOutboxOp (e_OpType e))
  | removePhantomPayload ss =>
      if decide (e_OpType e = opRemovePhantom) then
        ops ← lift (decodeOutpoints ss); _ ← doRemovePhantom ops; mret 0
      else throw (BadOutboxOp (e_OpType e))
  | removeMintedPayload mint ss =>
      if decide (e_OpType e = opRemoveMinted) then
        match NewHashFromHex mint with
        | None => throw (BadTxID mint)
        | Some h => ops ← lift (decodeOutpoints ss); doRemoveMinted h ops
        end
      else throw (BadOutboxOp (e_OpType e))
  | abortReleasePayload userID reservation =>
      if decide (e_OpType e = opAbortRelease) then
        _ ← doAbortRelease userID reservation; mret 0
      else throw (BadOutboxOp (e_OpType e))
  | abortRemoveChangePayload mint ss =>
      if decide (e_OpType e = opAbortRemoveChange) then
        ops ← lift (decodeOutpoints ss); _ ← doAbortRemoveChange mint ops; mret 0
      else throw (BadOutboxOp (e_OpType e))
  end.

Record OutboxDrainReport := mkDrain {
  dr_Drained : Z; dr_Failed : Z; dr_Parked : Z; dr_ParkedTotal : Z;
}.

Fixpoint drain_entries (pending_ : list OutboxEntry) (rep : OutboxDrainReport) : PM OutboxDrainReport :=
  match pending_ with
  | [] => mret rep
  | e :: rest =>
      r ← try_ (executeOutboxOp e);
      match r with
      | inl xerr =>
          _ ← meta_read (on_outbox (RecordError (e_TxID e) (e_OpType e) (e_Chunk e) (errText xerr)));
          drain_entries rest (mkDrain (dr_Drained rep) (dr_Failed rep + 1)
            (if MaxOutboxAttempts <=? e_Attempts e + 1 then dr_Parked rep + 1 else dr_Parked rep)
            (dr_ParkedTotal rep))
      | inr _ =>
          _ ← meta_read (on_outbox (MarkDone (e_TxID e) (e_OpType e) (e_Chunk e)));
          drain_entries rest (mkDrain (dr_Drained rep + 1) (dr_Failed rep) (dr_Parked rep) (dr_ParkedTotal rep))
      end
  end.

Definition DrainOutbox (limit : Z) : PM OutboxDrainReport :=
  let limit := if limit <=? 0 then defaultMonitorBatchLimit else limit in
  Do shared (
    pending_ ← meta_read (on_outbox (FetchPending limit));
    rep ← drain_entries pending_ (mkDrain 0 0 0 0);
    parked ← meta_read (on_outbox CountParked);
    mret (mkDrain (dr_Drained rep) (dr_Failed rep) (dr_Parked rep) parked)).

(** Executing freshly enqueued operations in place: what fails stays in the outbox.
    The result is the number of children cascaded. *)
Fixpoint execute_inline (es : list OutboxEntry) : PM Z :=
  match es with
  | [] => mret 0
  | e :: rest =>
      r ← try_ (executeOutboxOp e);
      match r with
      | inl xerr =>
          _ ← meta_read (on_outbox (RecordError (e_TxID e) (e_OpType e) (e_Chunk e) (errText xerr)));
          execute_inline rest
      | inr c =>
          _ ← meta_read (on_outbox (MarkDone (e_TxID e) (e_OpType e) (e_Chunk e)));
          n ← execute_inline rest; mret (c + n)
      end
  end.
End ops.
End ReleaseOps.

(** * Abort: aborting an action that has not been broadcast

    [pkg/storage/abort.go].  An abort fences the raw transaction in the metadata
    store and gives the coins back.  With one database (Mode A) both happen in one
    transaction; with two (Mode B) the fence is committed together with the
    operations to do, which are then executed and, after a crash, replayed. *)
Import WdkStatus ArcadeStatus KnownTxRepo Outbox Ledger StatusUpdates ReleaseOps.
Local Open Scope string_scope.
Local Open Scope Z_scope.

Module Abort.

Definition abortableStatuses : list TxStatus :=
  [TxStatusUnsigned; TxStatusNoSend; TxStatusUnprocessed; TxStatusNonFinal].

(** The txid of a transaction row in display form; [""] when it was never signed. *)
Definition abortTxID (row : TableTransaction) : string :=
  match tx_TxID row with Some raw => default "" (decTxIDPtr raw) | None => "" end.

Definition abortOutboxKey (reference : string) : Raw :=
  string_of_list_ascii (Sha256.Sum256 (list_ascii_of_string ("abort:" ++ reference))).

Definition encodeTxidToRaw (txid : string) : outcome perror Raw := mapErr MetaErr (encTxID txid).

Section abort.
Context `{MapRange, Sdk}.
Context (clk : nat → Time) (shared : bool) (errText : perror → string).

(** [changeOutpoints]: the change of one user's transaction. *)
Definition changeOutpoints (userID transactionID : Z) (txid : string) : PM (list Outpoint) :=
  rows ← meta_read (FindOutputs (mkFindOutputsArgs (Some userID) None None (Some transactionID)
                                   None None (Some true) []));
  match rows with
  | [] => mret []
  | _ => match NewHashFromHex txid with
         | None => throw (BadTxID txid)
         | Some hash => mret (omap (λ row, match o_Basket (or_row row) with
                                           | Some _ => Some (mkOutpoint hash (o_Vout (or_row row)))
                                           | None => None
                                           end) rows)
         end
  end.

(** The metadata half: the wallet row is marked aborted, the raw transaction is
    fenced, and the inputs' spend history is restored. *)
Definition fenceAborted (txRow : Z * TableTransaction) (txid : string) : PM () :=
  r ← try_ (meta_call clk (λ now, UpdateStatus now txRow.1 TxStatusAborted abortableStatuses));
  match r with
  | inl e => throw (if is_skipped e then ErrNotAbortableAction (tx_Reference txRow.2) else e)
  | inr _ =>
      if decide (txid = "") then mret ()
      else
        r ← try_ (meta_call clk (λ now, known (TransitionToAborted now txid)));
        match r with
        | inl e =>
            if is_not_found e then meta_call clk (λ now, ClearSpentBy now txRow.1)
            else if is_skipped e then throw (ErrAbortLostToSend txid)
            else throw e
        | inr _ => meta_call clk (λ now, ClearSpentBy now txRow.1)
        end
  end.

Definition abortDirect (userID : Z) (txRow : Z * TableTransaction) : PM () :=
  let txid := abortTxID txRow.2 in
  Do shared (
    _ ← fenceAborted txRow txid;
    _ ← doAbortRelease userID (tx_Reference txRow.2);
    if decide (txid = "") then mret ()
    else ops ← changeOutpoints userID txRow.1 txid; doAbortRemoveChange txid ops).

(** An operation of an abort, as the outbox row it becomes. *)
Definition abort_entry (key : Raw) (opType : string) (pl : payload) : OutboxEntry :=
  mkEntry key opType 0 pl 0 None zeroTime.

Fixpoint enqueue_all (es : list OutboxEntry) : PM () :=
  match es with
  | [] => mret ()
  | e :: rest =>
      _ ← meta_call clk (λ now, on_outbox (Enqueue now (e_TxID e) (e_OpType e) (e_Chunk e) (e_Payload e)));
      enqueue_all rest
  end.

Definition abort_ops (userID : Z) (txRow : Z * TableTransaction) : PM (list OutboxEntry) :=
  let txid := abortTxID txRow.2 in
  let reference := tx_Reference txRow.2 in
  let release := abort_entry (abortOutboxKey reference) opAbortRelease (abortReleasePayload userID reference) in
  if decide (txid = "") then mret [release]
  else
    change ← changeOutpoints userID txRow.1 txid;
    match change with
    | [] => mret [release]
    | _ => rawTxid ← lift (encodeTxidToRaw txid);
           mret [release; abort_entry rawTxid opAbortRemoveChange
                            (abortRemoveChangePayload txid (encodeOutpoints change))]
    end.

(** Phase 1: the fence and the durable intent, in one transaction. *)
Definition abort_phase1 (userID : Z) (txRow : Z * TableTransaction) : PM (list OutboxEntry) :=
  Do shared (
    _ ← fenceAborted txRow (abortTxID txRow.2);
    ops ← abort_ops userID txRow;
    _ ← enqueue_all ops;
    mret ops).

Definition abortViaOutbox (userID : Z) (txRow : Z * TableTransaction) : PM () :=
  ops ← abort_phase1 userID txRow;
  best_effort (Do shared (execute_inline clk errText ops)).

(** Mode A is the shared database. *)
Definition abortTxRow (userID : Z) (txRow : Z * TableTransaction) : PM () :=
  if shared then abortDirect userID txRow else abortViaOutbox userID txRow.

(** The transaction a caller may abort: outgoing, and in an abortable status. *)
Definition abort_target (userID : Z) (reference : string) : PM (Z * TableTransaction) :=
  found ← meta_read (FindByReference userID reference);
  found ← (match found with
           | Some row => mret (Some row)
           | None => if (String.length reference =? 64)%nat
                     then rows ← meta_read (Transactions_FindByTxID userID reference); mret (head rows)
                     else mret None
           end);
  match found with
  | None => throw (ErrNotAbortableAction reference)
  | Some txRow =>
      if negb (tx_IsOutgoing txRow.2) then throw (ErrNotAbortableAction reference)
      else if negb (is_one_of (tx_Status txRow.2) abortableStatuses)
      then throw (ErrNotAbortableAction reference)
      else mret txRow
  end.

(** [auth]: the user id of the caller, if authenticated. *)
Definition AbortAction (auth : option Z) (reference : string) : PM () :=
  match auth with
  | None => throw ErrAuthorization
  | Some userID => txRow ← abort_target userID reference; abortTxRow userID txRow
  end.
End abort.
End Abort.
