(* ===== verification/Reconciler.v ===== *)
(** * Reconciler: verifying rejections and releasing the inputs of dead transactions

    [pkg/storage/reconciler.go].  A rejected transaction is only a suspect; a pass asks
    the Arcade oracle again and releases inputs once the transaction is provably dead.

    [oracle n txid] is the oracle's answer at the time the provider has made [n] clock
    readings and oracle calls, so that the answers of two calls need not agree. *)
From Stdlib Require Import Ascii String.
From S2P Require Import Prelude UtxoTypes MemStore Statuses KnownTx Ledger StatusUpdates GoStrings SpendConflict Abort.
Import WdkStatus ArcadeStatus KnownTxRepo Outbox Ledger StatusUpdates SpendConflict ReleaseOps Abort.
Local Open Scope string_scope.
Local Open Scope Z_scope.

(** What [GetTx] returns: no such transaction, another error, no record, a record. *)
Inductive oracle_answer := ErrTxNotFound | OracleError | NilRecord | Answer (r : TxRecord).

Module Reconciler.

Definition txStatusesToFail : list TxStatus :=
  [TxStatusUnproven; TxStatusSending; TxStatusUnprocessed; TxStatusNoSend].

Record ReconcilerReport := mkRecReport {
  rr_Scanned : Z; rr_Released : Z; rr_FalsePositive : Z; rr_Stuck : Z; rr_Ambiguous : Z; rr_Cascaded : Z;
}.
Definition no_report : ReconcilerReport := mkRecReport 0 0 0 0 0 0.
Definition report_Add (r o : ReconcilerReport) : ReconcilerReport :=
  mkRecReport (rr_Scanned r + rr_Scanned o) (rr_Released r + rr_Released o)
    (rr_FalsePositive r + rr_FalsePositive o) (rr_Stuck r + rr_Stuck o)
    (rr_Ambiguous r + rr_Ambiguous o) (rr_Cascaded r + rr_Cascaded o).
Definition ambiguous : ReconcilerReport := mkRecReport 0 0 0 0 1 0.
Definition released_report (cascaded : Z) : ReconcilerReport := mkRecReport 0 1 0 0 0 cascaded.

Definition isRecovered (s : Status) : bool :=
  is_one_of s [StatusSeenOnNetwork; StatusSeenMultipleNodes; StatusAcceptedByNetwork; StatusMined;
               StatusImmutable].

(** [pl_refs]: the reservation token and the owner of each transaction row. *)
Record releasePlan := mkPlan {
  pl_txid : string;
  pl_spendingTxID : Hash;
  pl_terminalKnown : ProvenTxReqStatus;
  pl_refs : list (string * Z);
  pl_realInputs : list Outpoint;
  pl_phantomInputs : list Outpoint;
  pl_changeOps : list Outpoint;
}.

Section reconciler.
Context `{MapRange, Sdk}.
Context (clk : nat → Time) (hdrs : option Headers) (shared : bool) (errText : perror → string).
Context (oracle : nat → string → oracle_answer).

Definition GetTx (txid : string) : PM oracle_answer := λ p,
  (Ret (oracle (p_ticks p) txid), mkProvider (p_meta p) (p_utxo p) (S (p_ticks p))).

(** ** Holds on the change *)

Definition on_change (f : list Outpoint → M MemStore.Store error ()) (txid : string) : PM () :=
  r ← try_ (changeOutpointsByTxID txid);
  match r with
  | inl _ | inr [] => mret ()
  | inr ops => best_effort (utxo_call (f ops))
  end.
Definition freezeChange : string → PM () := on_change MemStore.Freeze.
Definition unfreezeChange : string → PM () := on_change MemStore.Unfreeze.

(** ** Leaving a suspect, or giving up on it *)

Definition failTransactions (txid : string) : PM () :=
  ignoring is_skipped (meta_call clk (λ now, UpdateStatusByTxID now txid TxStatusFailed txStatusesToFail)).

Definition escalateStuck (txid : string) : PM () :=
  Do shared (_ ← meta_call clk (λ now, known (TransitionSuspect now txid KnownTxStatusStuck));
             failTransactions txid).

(** [p.now().Sub(t) >= d]; the clock is only read when there is a [t]. *)
Definition older_than (t : option Time) (d : Z) : PM bool :=
  match t with None => mret false | Some t => now ← tick clk; mret (d <=? Sub now t) end.

Definition leaveOrEscalate (kt : KnownTx) (maxQuarantine : Z) : PM ReconcilerReport :=
  old ← older_than (kt_SuspectSince kt) maxQuarantine;
  if (old : bool) then
    r ← try_ (escalateStuck (kt_TxID kt));
    match r with
    | inl e => if is_skipped e || is_not_found e then mret no_report else throw e
    | inr _ => mret (mkRecReport 0 0 0 1 0 0)
    end
  else mret ambiguous.

(** ** The winner rule *)

Definition raw_inputs (raw : Bytes) : option (list Outpoint) :=
  match raw with [] => None | _ => input_ops <$> NewTransactionFromBytes raw end.

(** The suspect's own inputs; none when its raw transaction was not retained. *)
Definition txInputs (kt : KnownTx) : outcome perror (list Outpoint) :=
  match kt_RawTx kt with
  | [] => Ret []
  | raw => match NewTransactionFromBytes raw with
           | None => Err (BadRawTx (kt_TxID kt))
           | Some ins => Ret (input_ops ins)
           end
  end.

Definition is_winner (a : oracle_answer) : option TxRecord :=
  match a with
  | Answer r => if isMinedClass (rec_Status r) then Some r else None
  | _ => None
  end.

Fixpoint hasConfirmedUnreadableWinner (competingTxs : list string) : PM bool :=
  match competingTxs with
  | [] => mret false
  | "" :: rest => hasConfirmedUnreadableWinner rest
  | c :: rest =>
      a ← GetTx c;
      match is_winner a with
      | None => hasConfirmedUnreadableWinner rest
      | Some r => match raw_inputs (rec_RawTx r) with
                  | None => mret true
                  | Some _ => hasConfirmedUnreadableWinner rest
                  end
      end
  end.

(** The union of the inputs of every confirmed winner; [None] when there is no
    winner or one of them cannot be read. *)
Fixpoint find_winners (competingTxs : list string) (consumed : gset Outpoint) (anyWinner : bool) :
    PM (option (gset Outpoint)) :=
  match competingTxs with
  | [] => mret (if anyWinner then Some consumed else None)
  | "" :: rest => find_winners rest consumed anyWinner
  | c :: rest =>
      a ← GetTx c;
      match is_winner a with
      | None => find_winners rest consumed anyWinner
      | Some r => match raw_inputs (rec_RawTx r) with
                  | None => mret None
                  | Some ops => find_winners rest (list_to_set ops ∪ consumed) true
                  end
      end
  end.
Definition findWinnerInputs (competingTxs : list string) : PM (option (gset Outpoint)) :=
  find_winners competingTxs ∅ false.

(** The same from the local ledger; unreadable competitors are passed over. *)
Fixpoint local_winners (competingTxs : list string) (consumed : gset Outpoint) (anyWinner : bool) :
    PM (option (gset Outpoint)) :=
  match competingTxs with
  | [] => mret (if anyWinner then Some consumed else None)
  | "" :: rest => local_winners rest consumed anyWinner
  | c :: rest =>
      found ← try_ (meta_read (known (FindByTxID c)));
      match found with
      | inr (Some kt) => match raw_inputs (kt_RawTx kt) with
                         | None => local_winners rest consumed anyWinner
                         | Some ops => local_winners rest (list_to_set ops ∪ consumed) true
                         end
      | _ => local_winners rest consumed anyWinner
      end
  end.
Definition localWinnerInputs (competingTxs : list string) : PM (option (gset Outpoint)) :=
  local_winners competingTxs ∅ false.

(** ** The release plan *)

Definition sourceTxDead (op : Outpoint) : PM bool :=
  found ← try_ (meta_read (known (FindByTxID (Hash_String (TxID op)))));
  match found with
  | inr (Some kt) => mret (IsTerminalFailure (kt_Status kt) || bool_decide (kt_Status kt = KnownTxStatusStuck))
  | _ => mret false
  end.

(** Real and phantom inputs, in order. *)
Fixpoint partition_inputs (ops : list Outpoint) : PM (list Outpoint * list Outpoint) :=
  match ops with
  | [] => mret ([], [])
  | op :: rest =>
      dead ← sourceTxDead op;
      '(real, phantom) ← partition_inputs rest;
      mret (if (dead : bool) then (real, op :: phantom) else (op :: real, phantom))
  end.

Definition or_empty {A} (r : perror + list A) : list A := match r with inr l => l | inl _ => [] end.

Definition buildReleasePlan (kt : KnownTx) (terminal : ProvenTxReqStatus) (releaseInputs : list Outpoint) :
    PM releasePlan :=
  rows ← try_ (meta_read (FindByTxIDAllUsers (kt_TxID kt)));
  '(real, phantom) ← partition_inputs releaseInputs;
  change ← try_ (changeOutpointsByTxID (kt_TxID kt));
  mret (mkPlan (kt_TxID kt) (default 0 (NewHashFromHex (kt_TxID kt))) terminal
          ((λ row : Z * TableTransaction, (tx_Reference row.2, tx_UserID row.2)) <$> or_empty rows)
          real phantom (or_empty change)).

(** ** Applying a plan *)

(** The suspect is finalized exactly once: the guarded transition decides. *)
Definition gateAndFinalizeStatuses (plan : releasePlan) : PM () :=
  r ← try_ (meta_call clk (λ now, known (TransitionSuspect now (pl_txid plan) (pl_terminalKnown plan))));
  match r with
  | inl e => throw (if is_skipped e || is_not_found e then errAlreadyHandled else e)
  | inr _ => failTransactions (pl_txid plan)
  end.

Fixpoint release_refs (refs : list (string * Z)) (ops : list Outpoint) : PM () :=
  match refs with
  | [] => mret ()
  | r :: rest => _ ← doReleaseOutpoints r.1 ops; release_refs rest ops
  end.

Definition applyReleaseOpsDirect (plan : releasePlan) : PM Z :=
  _ ← doUnspend (pl_spendingTxID plan) (pl_realInputs plan);
  _ ← release_refs (pl_refs plan) (pl_realInputs plan);
  _ ← doRemovePhantom (pl_phantomInputs plan);
  doRemoveMinted clk (pl_spendingTxID plan) (pl_changeOps plan).

(** The plan as outbox rows of the transaction [raw]; empty parts are left out. *)
Definition outboxOps (raw : Raw) (plan : releasePlan) : list OutboxEntry :=
  let entry opType chunk pl := mkEntry raw opType chunk pl 0 None zeroTime in
  let real := encodeOutpoints (pl_realInputs plan) in
  ((match pl_realInputs plan with
    | [] => []
    | _ => entry opUnspend 0 (unspendPayload (Hash_String (pl_spendingTxID plan)) real) ::
           imap (λ i r, entry opReleaseResv (Z.of_nat i) (releasePayload r.1 real)) (pl_refs plan)
    end) ++
   (match pl_phantomInputs plan with
    | [] => []
    | ops => [entry opRemovePhantom 0 (removePhantomPayload (encodeOutpoints ops))]
    end) ++
   (match pl_changeOps plan with
    | [] => []
    | ops => [entry opRemoveMinted 0
                (removeMintedPayload (Hash_String (pl_spendingTxID plan)) (encodeOutpoints ops))]
    end))%list.

(** The number of children cascaded; [None] when the suspect was already finalized. *)
Definition handled {A} (m : PM A) : PM (option A) :=
  r ← try_ m;
  match r with
  | inl errAlreadyHandled => mret None
  | inl e => throw e
  | inr a => mret (Some a)
  end.

Definition releaseDirect (plan : releasePlan) : PM (option Z) :=
  handled (Do shared (_ ← gateAndFinalizeStatuses plan; applyReleaseOpsDirect plan)).

(** Phase 1: the terminal statuses and the durable intent, in one transaction. *)
Definition release_phase1 (plan : releasePlan) (ops : list OutboxEntry) : PM () :=
  Do shared (_ ← gateAndFinalizeStatuses plan; enqueue_all clk ops).

Definition releaseViaOutbox (plan : releasePlan) : PM (option Z) :=
  rawTxid ← lift (encodeTxidToRaw (pl_txid plan));
  let ops := outboxOps rawTxid plan in
  gate ← handled (release_phase1 plan ops);
  match gate with
  | None => mret None
  | Some _ =>
      r ← try_ (Do shared (execute_inline clk errText ops));
      mret (Some (match r with inr c => c | inl _ => 0 end))
  end.

Definition releaseVerifiedDead (plan : releasePlan) : PM (option Z) :=
  if shared then releaseDirect plan else releaseViaOutbox plan.

Definition release_inputs (kt : KnownTx) (terminal : ProvenTxReqStatus) (inputs : list Outpoint) :
    PM ReconcilerReport :=
  plan ← buildReleasePlan kt terminal inputs;
  r ← releaseVerifiedDead plan;
  mret (match r with Some cascaded => released_report cascaded | None => no_report end).

(** ** Verdicts *)

Definition hold (kt : KnownTx) (maxQuarantine : Z) : PM ReconcilerReport :=
  _ ← freezeChange (kt_TxID kt); leaveOrEscalate kt maxQuarantine.

Definition union_opt (s : gset Outpoint) (o : option (gset Outpoint)) : gset Outpoint :=
  default ∅ o ∪ s.

Definition releaseSpendConflict (kt : KnownTx) (r : TxRecord) (maxQuarantine : Z) : PM ReconcilerReport :=
  let competing := match rec_CompetingTxs r with [] => kt_CompetingTxs kt | l => l end in
  let extra := parseSpendConflictExtra (rec_ExtraInfo r) in
  let spenders := mergeSpenders competing (ci_Spenders extra) in
  unreadable ← hasConfirmedUnreadableWinner spenders;
  if (unreadable : bool) then hold kt maxQuarantine
  else
    winners ← findWinnerInputs spenders;
    locals ← localWinnerInputs spenders;
    let winnerResolved := bool_decide (is_Some winners ∨ is_Some locals) in
    let spent := union_opt (union_opt (ci_Spent extra) winners) locals in
    if decide (spent = ∅) then hold kt maxQuarantine
    else
      allInputs ← lift (txInputs kt);
      let '(releaseInputs, held) := filterReleaseInputs allInputs spent in
      if held =? 0 then hold kt maxQuarantine
      else if negb winnerResolved && bool_decide (releaseInputs ≠ []) then hold kt maxQuarantine
      else release_inputs kt ProvenTxStatusDoubleSpend releaseInputs.

Definition handleDoubleSpend := releaseSpendConflict.

(** The two-pass guard on a pure rejection. *)
Definition handleRejected (kt : KnownTx) (r : TxRecord) (grace maxQuarantine : Z) : PM ReconcilerReport :=
  match kt_VerifiedRejectedAt kt with
  | None =>
      at_ ← tick clk;
      _ ← meta_call clk (λ now, known (StampVerifiedRejected now (kt_TxID kt) at_));
      _ ← freezeChange (kt_TxID kt);
      mret ambiguous
  | Some t =>
      now ← tick clk;
      if grace <=? Sub now t then
        if isSpendConflictRecord r then releaseSpendConflict kt r maxQuarantine
        else inputs ← lift (txInputs kt); release_inputs kt ProvenTxStatusInvalid inputs
      else _ ← freezeChange (kt_TxID kt); mret ambiguous
  end.

Definition handleRecovered (kt : KnownTx) (r : TxRecord) : PM ReconcilerReport :=
  _ ← unfreezeChange (kt_TxID kt);
  _ ← ApplyStatusUpdate clk hdrs shared r;
  mret (mkRecReport 0 0 1 0 0 0).

Definition named (txid : string) (r : TxRecord) : TxRecord :=
  if decide (rec_TxID r = "")
  then mkTxRecord txid (rec_Status r) (rec_StatusCode r) (rec_BlockHash r) (rec_BlockHeight r)
         (rec_MerklePath r) (rec_ExtraInfo r) (rec_CompetingTxs r) (rec_RawTx r)
  else r.

Definition reconcileSuspect (kt : KnownTx) (grace maxQuarantine : Z) : PM ReconcilerReport :=
  a ← GetTx (kt_TxID kt);
  match a with
  | Answer r =>
      let r := named (kt_TxID kt) r in
      if isRecovered (rec_Status r) then handleRecovered kt r
      else if decide (rec_Status r = StatusRejected) then handleRejected kt r grace maxQuarantine
      else if decide (rec_Status r = StatusDoubleSpendAttempted) then handleDoubleSpend kt r maxQuarantine
      else leaveOrEscalate kt maxQuarantine
  | _ => leaveOrEscalate kt maxQuarantine
  end.

Fixpoint reconcile_all (suspects : list KnownTx) (grace maxQuarantine : Z) (report : ReconcilerReport) :
    PM ReconcilerReport :=
  match suspects with
  | [] => mret report
  | kt :: rest =>
      let report := report_Add report (mkRecReport 1 0 0 0 0 0) in
      sub ← try_ (reconcileSuspect kt grace maxQuarantine);
      reconcile_all rest grace maxQuarantine
        (match sub with inl _ => report | inr sub => report_Add report sub end)
  end.

(** [configured]: the provider has an oracle. *)
Definition VerifyAndReleaseSuspects (configured : bool) (grace maxQuarantine limit : Z) : PM ReconcilerReport :=
  let limit := if limit <=? 0 then defaultMonitorBatchLimit else limit in
  if negb configured then throw NoOracle
  else
    suspects ← meta_call clk (λ now, known (FindSuspectFailed now grace limit));
    reconcile_all suspects grace maxQuarantine no_report.
End reconciler.
End Reconciler.
