(* ===== verification/Process.v ===== *)
(** * Process: storing a signed transaction and handing it to the network

    [pkg/storage/process.go], with the input-ancestry lookups of [pkg/storage/beef.go]
    and the script verification of [pkg/storage/verifiers.go].

    The state is the provider's and the list of POSTs made to Arcade so far ([Wire]);
    each POST is kept with the metadata it found, so that theorems can speak about
    the moment bytes leave the process.  [post n txid ef] is Arcade's answer to a POST
    made when the provider has made [n] clock readings and calls.  Parsed transactions,
    BEEFs and the script engine belong to the SDK ([TxSdk]).  Waiting and the
    cancellation of a request are left out. *)
From Stdlib Require Import Ascii String.
From S2P Require Import Prelude UtxoTypes MemStore Statuses External Fee KnownTx Ledger StatusUpdates Abort.
Import WdkStatus ArcadeStatus KnownTxRepo Outbox Ledger StatusUpdates ReleaseOps Abort.
Local Open Scope string_scope.
Local Open Scope Z_scope.

(** ** Parsed transactions *)

(** An input; the source transaction is nil until it is attached. *)
Record TransactionInput (Src : Type) := mkInput {
  in_SourceTXID : option Hash;
  in_SourceTxOutIndex : Z;
  in_SourceTransaction : option Src;
}.
Arguments mkInput {Src}.
Arguments in_SourceTXID {Src}.
Arguments in_SourceTxOutIndex {Src}.
Arguments in_SourceTransaction {Src}.

(** A transaction is what its bytes say, with the sources attached to its inputs. *)
Record Transaction (Src : Type) := mkTransaction {
  t_raw : Bytes;
  t_Inputs : list (TransactionInput Src);
}.
Arguments mkTransaction {Src}.
Arguments t_raw {Src}.
Arguments t_Inputs {Src}.

Inductive era := BeforeGenesis | AfterGenesis | AfterChronicle.

(** [Tx_Outputs]: satoshis and locking script (nil-able) of each output.
    [src_output]: the satoshis of a source's output, if it has that output.
    [src_height]: the block height of a source's merkle path, if it carries one.
    [Execute]: the script engine on one input, under the rules of an era. *)
Class TxSdk := {
  SourceTx : Type;
  src_output : SourceTx → Z → option Z;
  src_height : SourceTx → option Z;
  Beef : Type;
  NewBeefFromBytes : Bytes → option Beef;
  FindTransactionByHash : Beef → Hash → option SourceTx;
  Tx_TxID : Bytes → string;
  Tx_Bytes : Bytes → Bytes;
  Tx_Outputs : Bytes → list (Z * option Bytes);
  Execute : Transaction SourceTx → nat → era → bool;
  EF : Transaction SourceTx → option Bytes;
}.

(** [arcade.BroadcastResult], and the three ways a POST ends. *)
Record BroadcastResult := mkBroadcast { br_Status : Status; br_Rejected : bool; br_ExtraInfo : string }.
Inductive post_answer := PostResult (r : BroadcastResult) | Backpressure (RetryAfter : Z) | PostError.

Module Process.

(** ** Requests and results *)

Record ProcessActionArgs := mkArgs {
  pa_IsNewTx : bool;
  pa_IsSendWith : bool;
  pa_IsNoSend : bool;
  pa_IsDelayed : bool;
  pa_Reference : option string;
  pa_TxID : option string;
  pa_RawTx : Bytes;
  pa_SendWith : list string;
}.
Definition not_delayed (a : ProcessActionArgs) : ProcessActionArgs :=
  mkArgs (pa_IsNewTx a) (pa_IsSendWith a) (pa_IsNoSend a) false (pa_Reference a) (pa_TxID a)
    (pa_RawTx a) (pa_SendWith a).

Definition SendWithResultStatusUnproven : string := "unproven".
Definition SendWithResultStatusSending : string := "sending".
Definition SendWithResultStatusFailed : string := "failed".
Definition ReviewActionResultStatusSuccess : string := "success".
Definition ReviewActionResultStatusDoubleSpend : string := "doubleSpend".
Definition ReviewActionResultStatusServiceError : string := "serviceError".
Definition ReviewActionResultStatusInvalidTx : string := "invalidTx".

Definition SendWithResultStatus_ToStandardizedStatus (s : string) : StandardizedTxStatus :=
  if decide (s = SendWithResultStatusUnproven) then TxUpdateStatusBroadcasted
  else if decide (s = SendWithResultStatusSending) then TxUpdateStatusWaiting
  else if decide (s = SendWithResultStatusFailed) then TxUpdateStatusServiceError
  else TxUpdateStatusUnknown.
Definition ReviewActionResultStatus_ToStandardizedStatus (s : string) : StandardizedTxStatus :=
  if decide (s = ReviewActionResultStatusSuccess) then TxUpdateStatusBroadcasted
  else if decide (s = ReviewActionResultStatusDoubleSpend) then TxUpdateStatusDoubleSpend
  else if decide (s = ReviewActionResultStatusInvalidTx) then TxUpdateStatusInvalidTx
  else if decide (s = ReviewActionResultStatusServiceError) then TxUpdateStatusServiceError
  else TxUpdateStatusUnknown.

Record SendWithResult := mkSwr { sw_TxID : string; sw_Status : string }.
(** [rv_ErrorFrom]: the component the Errors map blames, if any. *)
Record ReviewActionResult := mkReview { rv_TxID : string; rv_Status : string; rv_ErrorFrom : option string }.
Record ProcessActionResult := mkResult {
  pr_SendWithResults : list SendWithResult;
  pr_NotDelayedResults : list ReviewActionResult;
}.

Definition broadcastTxIDs (args : ProcessActionArgs) : list string :=
  dedup_from ∅ (filter (λ s, s ≠ "")
    (match pa_TxID args with Some t => [t] | None => [] end ++ pa_SendWith args)%list).

Definition newTxStatuses (args : ProcessActionArgs) : TxStatus * ProvenTxReqStatus :=
  if pa_IsNoSend args then (TxStatusNoSend, ProvenTxStatusNoSend)
  else if pa_IsDelayed args then (TxStatusUnprocessed, ProvenTxStatusUnsent)
  else (TxStatusSending, ProvenTxStatusUnprocessed).

(** ** Hydration, scripts and fees *)

Section sdk.
Context `{Sdk, TxSdk}.

Definition parse (raw : Bytes) : option (Transaction SourceTx) :=
  (λ ins, mkTransaction raw ((λ i : option Hash * Z, mkInput i.1 i.2 None) <$> ins)) <$>
  NewTransactionFromBytes raw.

Definition hydrate_one (beef : Beef) (i : TransactionInput SourceTx) : TransactionInput SourceTx :=
  match in_SourceTransaction i, in_SourceTXID i with
  | None, Some h =>
      match FindTransactionByHash beef h with
      | Some src => mkInput (in_SourceTXID i) (in_SourceTxOutIndex i) (Some src)
      | None => i
      end
  | _, _ => i
  end.
Definition hydrateInputs (tx : Transaction SourceTx) (beefBytes : Bytes) :
    outcome perror (Transaction SourceTx) :=
  match beefBytes with
  | [] => Ret tx
  | _ => match NewBeefFromBytes beefBytes with
         | None => Err (Refused "parse input beef")
         | Some beef => Ret (mkTransaction (t_raw tx) (hydrate_one beef <$> t_Inputs tx))
         end
  end.

(** The satoshis of the output an input spends; [None] is the nil source output. *)
Definition SourceTxOutput (i : TransactionInput SourceTx) : option Z :=
  src ← in_SourceTransaction i; src_output src (in_SourceTxOutIndex i).

(** [defaultScriptsVerifier]: the fields of the verifier are its arguments. *)
Definition isPreGenesisUTXO (genesisHeight : Z) (i : TransactionInput SourceTx) : bool :=
  if genesisHeight =? 0 then false
  else match in_SourceTransaction i ≫= src_height with
       | Some h => h <? genesisHeight
       | None => false
       end.
Definition executionOptions (chronicle : bool) (genesisHeight : Z) (i : TransactionInput SourceTx) : era :=
  if isPreGenesisUTXO genesisHeight i then BeforeGenesis
  else if chronicle then AfterChronicle else AfterGenesis.
Definition VerifyScripts (chronicle : bool) (genesisHeight : Z) (tx : Transaction SourceTx) : bool :=
  forallb (λ ni : nat * TransactionInput SourceTx,
    bool_decide (is_Some (SourceTxOutput ni.2)) &&
    Execute tx ni.1 (executionOptions chronicle genesisHeight ni.2))
    (imap pair (t_Inputs tx)).

(** The sum of the inputs; [None] when a source output is missing. *)
Fixpoint input_sats (ins : list (TransactionInput SourceTx)) (acc : Z) : option Z :=
  match ins with
  | [] => Some acc
  | i :: rest => match SourceTxOutput i with
                 | None => None
                 | Some v => input_sats rest (u64 (acc + v))
                 end
  end.
Definition output_sats (outs : list (Z * option Bytes)) : Z := foldl (λ acc o, u64 (acc + o.1)) 0 outs.

Definition checkBroadcastFeeRate (minBroadcastFeeRate : Z) (tx : Transaction SourceTx) (sizeBytes : Z) :
    outcome perror () :=
  if minBroadcastFeeRate <=? 0 then Ret ()
  else match input_sats (t_Inputs tx) 0 with
       | None => Ret ()
       | Some inSats =>
           let outSats := output_sats (Tx_Outputs (t_raw tx)) in
           if inSats <? outSats then Err ErrFeeBelowFloor
           else if Fee.MinRequiredFee (u64 sizeBytes) minBroadcastFeeRate <=? inSats - outSats then Ret ()
           else Err ErrFeeBelowFloor
       end.

(** The source of each input, and the spent outpoints in input order. *)
Definition tx_ins (tx : Transaction SourceTx) : list (option Hash * Z) :=
  (λ i, (in_SourceTXID i, in_SourceTxOutIndex i)) <$> t_Inputs tx.
Definition tx_ops (tx : Transaction SourceTx) : list Outpoint := input_ops (tx_ins tx).
End sdk.

(** ** The provider *)

(** A POST: the transaction, its extended-format bytes, and the metadata at that time. *)
Record sent := mkSent { s_txid : string; s_ef : Bytes; s_meta : Meta }.
Record Wire := mkWire { w_prov : Provider; w_sent : list sent }.
Definition with_prov (p : Provider) (w : Wire) : Wire := mkWire p (w_sent w).
Abbreviation WM A := (M Wire perror A).

(** A step of the provider that sends nothing. *)
Definition prov {A} (m : PM A) : WM A := zoom w_prov with_prov id m.

Section process.
Context `{MapRange, Sdk, TxSdk}.
Context (clk : nat → Time) (shared : bool).
Context (scripts : Transaction SourceTx → bool).

(** *** Storing the signed transaction *)

Definition knownTxStatusFor (txid : string) : PM ProvenTxReqStatus :=
  r ← try_ (meta_read (known (FindByTxID txid)));
  mret (match r with inr (Some kt) => kt_Status kt | _ => "unknown" end).

(** [p.utxo.Mint] and the loop over the item errors; the clock readings of the mints
    are numbered after those made so far. *)
Definition mint_all (mints : list UtxoTypes.Mint) : PM () := λ p,
  let '((itemErrs, merr), s) := MemStore.Mint (λ i, clk (p_ticks p + i)%nat) mints (p_utxo p) in
  let p' := mkProvider (p_meta p) s (p_ticks p + length mints)%nat in
  match merr with
  | Some e => (Err (UtxoErr e), p')
  | None => match head (omap id itemErrs) with
            | Some e => (Err (UtxoErr e), p')
            | None => (Ret (), p')
            end
  end.

Definition change_mint (hash : Hash) (userID : Z) (row : OutputRow) : option UtxoTypes.Mint :=
  let o := or_row row in
  b ← o_Basket o;
  Some (mkMint (mkOutpoint hash (o_Vout o)) userID b (u64 (o_Satoshis o)) DefaultP2PKHInputSize
          TierSending).
Definition mintChange (userID transactionID : Z) (txid : string) : PM () :=
  rows ← meta_read (FindOutputs (mkFindOutputsArgs (Some userID) None None (Some transactionID)
                                   None None (Some true) []));
  match rows with
  | [] => mret ()
  | _ => match NewHashFromHex txid with
         | None => throw (BadTxID txid)
         | Some hash => match omap (change_mint hash userID) rows with
                        | [] => mret ()
                        | mints => mint_all mints
                        end
         end
  end.

(** The provided outputs of the action must be those of the signed transaction. *)
Definition ProvidedByYou : string := "you".
Definition output_matches (outs : list (Z * option Bytes)) (o : TableOutput) : bool :=
  match outs !! Z.to_nat (o_Vout o) with
  | Some (_, Some got) => bool_decide (got = o_LockingScript o)
  | _ => false
  end.
Fixpoint check_outputs (outs : list (Z * option Bytes)) (rows : list OutputRow) : outcome perror () :=
  match rows with
  | [] => Ret ()
  | row :: rest =>
      let o := or_row row in
      if negb (bool_decide (o_ProvidedBy o = ProvidedByYou)) || negb (nonempty (o_LockingScript o))
      then check_outputs outs rest
      else if Z.of_nat (length outs) <=? o_Vout o then Err (Refused "signed tx missing output")
      else if output_matches outs o then check_outputs outs rest
      else Err (Refused "locking script mismatch")
  end.
Definition validateSignedOutputs (transactionID : Z) (tx : Transaction SourceTx) : PM () :=
  rows ← meta_read (FindOutputs (mkFindOutputsArgs None None None (Some transactionID) None None None []));
  lift (check_outputs (Tx_Outputs (t_raw tx)) rows).

(** The known-transactions row of freshly signed bytes. *)
Definition new_known (txid : string) (status : ProvenTxReqStatus) (rawTx : Bytes) : KnownTx :=
  mkKnownTx txid status None 0 0 false false None "" rawTx [] None [] [] [] [] None None None
    zeroTime zeroTime zeroTime.

(** The unit of work of processNewTx. The pin comes first: with two databases it is
    durable before the bytes are. *)
Definition store_signed (userID : Z) (reference : string) (transactionID : Z) (txid : string)
    (rawTx : Bytes) (txStatus : TxStatus) (ktxStatus : ProvenTxReqStatus) : PM () :=
  _ ← utxo_call (MemStore.Pin userID reference);
  r ← try_ (meta_call clk (λ now, SetTxID now transactionID txid));
  match r with
  | inl (MetaErr ErrTxIDMismatch) => throw (ErrDivergentReDrive reference)
  | inl e => throw e
  | inr _ =>
      _ ← meta_call clk (λ now, UpdateStatus now transactionID txStatus
                                  [TxStatusUnsigned; TxStatusUnprocessed]);
      r ← try_ (meta_call clk (λ now, known (Upsert now (new_known txid ktxStatus rawTx)
                                               KnownTxNeverRequeueStatuses)));
      match r with
      | inl e => if is_skipped e then st ← knownTxStatusFor txid; throw (NeverRequeues txid st)
                 else throw e
      | inr _ => mintChange userID transactionID txid
      end
  end.

(** The row a signer may complete: outgoing, not yet sent, and not bound to other bytes. *)
Definition signable_row (userID : Z) (reference txid : string) : PM (Z * TableTransaction) :=
  found ← meta_read (FindByReference userID reference);
  match found with
  | None => throw (Refused "no transaction for reference")
  | Some txRow =>
      if negb (tx_IsOutgoing txRow.2) then throw (Refused "transaction is not outgoing")
      else if negb (is_one_of (tx_Status txRow.2) [TxStatusUnsigned; TxStatusUnprocessed])
      then throw (Refused "transaction is not signable")
      else match tx_TxID txRow.2 ≫= decTxIDPtr with
           | Some bound => if decide (bound = txid) then mret txRow
                           else throw (ErrDivergentReDrive reference)
           | None => mret txRow
           end
  end.

Definition processNewTx (minBroadcastFeeRate : Z) (userID : Z) (args : ProcessActionArgs) : PM () :=
  match pa_Reference args, pa_TxID args with
  | None, _ => throw (Refused "process new tx requires a reference")
  | _, None => throw (Refused "process new tx requires a txid")
  | Some reference, Some given =>
      match parse (pa_RawTx args) with
      | None => throw (Refused "parse raw tx")
      | Some tx =>
          let txid := Tx_TxID (t_raw tx) in
          if decide (txid = given) then
            txRow ← signable_row userID reference txid;
            tx ← lift (hydrateInputs tx (tx_InputBEEF txRow.2));
            if scripts tx then
              _ ← validateSignedOutputs txRow.1 tx;
              let rawTx := Tx_Bytes (t_raw tx) in
              _ ← lift (checkBroadcastFeeRate minBroadcastFeeRate tx (Z.of_nat (length rawTx)));
              let sts := newTxStatuses args in
              Do shared (store_signed userID reference txRow.1 txid rawTx sts.1 sts.2)
            else throw (Refused "script verification failed")
          else throw (Refused "raw tx id does not match provided txid")
      end
  end.

(** *** The broadcast gate *)

Definition resendGrace : Z := 20 * 1000000000.

(** The status that made a guard refuse. *)
Definition statusBehindRefusal (txid : string) : PM ProvenTxReqStatus :=
  found ← meta_read (known (FindByTxID txid));
  match found with
  | None => throw (Refused "known tx row vanished")
  | Some kt => mret (kt_Status kt)
  end.

Definition queueDelayed (txid : string) : PM () :=
  r ← try_ (meta_call clk (λ now, known (KnownTxRepo.UpdateStatus now txid ProvenTxStatusUnsent
                                           KnownTxNeverRequeueStatuses)));
  match r with
  | inr _ => mret ()
  | inl e =>
      if is_not_found e then mret ()
      else if negb (is_skipped e) then throw e
      else
        st ← statusBehindRefusal txid;
        if WasBroadcastStatus st || bool_decide (st = ProvenTxStatusSending) then mret ()
        else throw (NotBroadcastable txid st)
  end.

Inductive sendClaim := sendClaimOwned | sendClaimInFlight | sendClaimAlreadySent.

(** The takeover of a stranded claim by someone who did not come for one. *)
Definition take_over (txid : string) : PM sendClaim :=
  r ← try_ (meta_call clk (λ now, known (ReclaimStaleSend now txid resendGrace)));
  match r with
  | inr _ => mret sendClaimOwned
  | inl e => if is_skipped e then mret sendClaimInFlight else throw e
  end.

Definition claimForBroadcast (txid : string) (known_ : ProvenTxReqStatus) : PM sendClaim :=
  let recovering := bool_decide (known_ = ProvenTxStatusSending) in
  r ← try_ (meta_call clk (λ now, known
        (if recovering then ReclaimStaleSend now txid resendGrace else ClaimForSend now txid)));
  match r with
  | inr _ => mret sendClaimOwned
  | inl e =>
      if negb (is_skipped e) then throw e
      else
        st ← statusBehindRefusal txid;
        if WasBroadcastStatus st then mret sendClaimAlreadySent
        else if negb (bool_decide (st = ProvenTxStatusSending)) then throw (NotBroadcastable txid st)
        else if recovering then mret sendClaimInFlight
        else take_over txid
  end.

(** *** Committing the outcome *)

(** What the fact-mode spend reports of one input; a missing row is an external coin. *)
Definition spend_problem (e : error) : option error :=
  match e with NotFoundError _ => None | e => Some e end.
Definition accepted_verdict (itemErrs : list (option error)) (serr : option error) : option error :=
  match serr with
  | None => None
  | Some serr =>
      let failed := omap id itemErrs in
      let hard := omap spend_problem failed in
      match filter (λ e, is_ErrContention e = false) hard, hard with
      | e :: _, _ => Some e
      | [], e :: _ => Some e
      | [], [] => if is_ErrBatch serr && nonempty failed then None else Some serr
      end
  end.

Definition spendReservedInputs (tx : Transaction SourceTx) (txid reference : string) : PM () :=
  if decide (reference = "") then throw (Refused "transaction row carries no reference")
  else match NewHashFromHex txid with
       | None => throw (BadTxID txid)
       | Some spendingTxID =>
           match (λ op, mkSpendOp op reference spendingTxID) <$> tx_ops tx with
           | [] => mret ()
           | ops => λ p,
               let '((itemErrs, serr), s) := MemStore.Spend ops true (p_utxo p) in
               match accepted_verdict itemErrs serr with
               | None => (Ret (), with_utxo s p)
               | Some e => (Err (UtxoErr e), with_utxo s p)
               end
           end
       end.

Definition acceptedTxStatuses : list TxStatus :=
  [TxStatusSending; TxStatusNoSend; TxStatusUnproven; TxStatusUnprocessed].

(** The unit of work of an accepted broadcast, for the row that funded it. *)
Definition commit_accepted (txid : string) (tx : Transaction SourceTx) (txRow : Z * TableTransaction) : PM () :=
  _ ← spendReservedInputs tx txid (tx_Reference txRow.2);
  _ ← ignoring is_skipped (meta_call clk (λ now,
        UpdateStatusByTxID now txid TxStatusUnproven acceptedTxStatuses));
  _ ← ignoring (λ e, is_skipped e || is_not_found e) (meta_call clk (λ now,
        known (KnownTxRepo.UpdateStatus now txid ProvenTxStatusUnconfirmed
                 ProvenTxReqBeyondBroadcastStageStatuses)));
  markInputsSpent clk (tx_UserID txRow.2) txRow.1 (tx_ins tx).
Definition applyAcceptedBroadcast (txid : string) (tx : Transaction SourceTx) : PM () :=
  rows ← meta_read (FindByTxIDAllUsers txid);
  match first_outgoing rows with
  | None => throw (Refused "accepted broadcast has no transaction row")
  | Some txRow => Do shared (commit_accepted txid tx txRow)
  end.

Definition commitAccepted (txid : string) (tx : Transaction SourceTx) :
    PM (SendWithResult * option ReviewActionResult) :=
  _ ← applyAcceptedBroadcast txid tx;
  mret (mkSwr txid SendWithResultStatusUnproven,
        Some (mkReview txid ReviewActionResultStatusSuccess None)).

Definition firstTxByTxID (userID : Z) (txid : string) : PM (option (Z * TableTransaction)) :=
  rows ← meta_read (Transactions_FindByTxID userID txid); mret (head rows).

Definition commit_rejected (userID : Z) (txid extraInfo : string) (txRow : option (Z * TableTransaction)) :
    PM () :=
  _ ← ignoring is_skipped (meta_call clk (λ now, UpdateStatusByTxID now txid TxStatusFailed
        [TxStatusSending; TxStatusNoSend; TxStatusUnproven]));
  since ← tick clk;
  _ ← ignoring is_not_found (meta_call clk (λ now, known (MarkSuspectFailed now txid since extraInfo)));
  match txRow with
  | None => mret ()
  | Some row =>
      ops ← changeOutpoints userID row.1 txid;
      match ops with
      | [] => mret ()
      | _ => match NewHashFromHex txid with
             | None => throw (BadTxID txid)
             | Some hash => _ ← utxo_call (MemStore.RemoveByMintTx hash ops); mret ()
             end
      end
  end.
Definition commitRejected (userID : Z) (txid : string) (res : BroadcastResult) :
    PM (SendWithResult * option ReviewActionResult) :=
  let status := if bool_decide (br_ExtraInfo res ≠ "") &&
                   bool_decide (br_Status res = StatusDoubleSpendAttempted)
                then ReviewActionResultStatusDoubleSpend else ReviewActionResultStatusInvalidTx in
  txRow ← firstTxByTxID userID txid;
  _ ← Do shared (commit_rejected userID txid (br_ExtraInfo res) txRow);
  mret (mkSwr txid SendWithResultStatusFailed, Some (mkReview txid status (Some "arcade"))).

(** *** Sending *)

(** The retained ancestry: the known-transactions copy, else the transactions one. *)
Definition inputBEEFFor (txid : string) (ktInputBEEF : Bytes) : PM Bytes :=
  match ktInputBEEF with
  | [] => blob ← meta_read (GetInputBEEFByTxID txid); mret (default [] blob)
  | _ => mret ktInputBEEF
  end.

(** The hydrated transaction of stored bytes and its extended format, scripts checked. *)
Definition prepare (rawTx inputBEEF : Bytes) : outcome perror (Transaction SourceTx * Bytes) :=
  match rawTx with
  | [] => Err (Refused "no stored raw tx")
  | _ =>
      match parse rawTx with
      | None => Err (Refused "parse stored raw tx")
      | Some tx =>
          tx ← hydrateInputs tx inputBEEF;
          if scripts tx then
            match EF tx with None => Err (Refused "EF-encode") | Some ef => Ret (tx, ef) end
          else Err (Refused "script verification failed")
      end
  end.

Context (post : nat → string → Bytes → post_answer).

(** [oracle.Broadcast]: one POST. *)
Definition Broadcast (txid : string) (ef : Bytes) : WM post_answer := λ w,
  let p := w_prov w in
  (Ret (post (p_ticks p) txid ef),
   mkWire (mkProvider (p_meta p) (p_utxo p) (S (p_ticks p))) (w_sent w ++ [mkSent txid ef (p_meta p)])%list).

(** One retry after backpressure. *)
Definition broadcastWithBackpressure (txid : string) (ef : Bytes) : WM post_answer :=
  a ← Broadcast txid ef;
  match a with Backpressure _ => Broadcast txid ef | _ => mret a end.

Definition service_error (txid from : string) : SendWithResult * option ReviewActionResult :=
  (mkSwr txid SendWithResultStatusSending,
   Some (mkReview txid ReviewActionResultStatusServiceError (Some from))).

(** What a claim holder does with the bytes. *)
Definition send_owned (userID : Z) (txid : string) (tx : Transaction SourceTx) (ef : Bytes) :
    WM (SendWithResult * option ReviewActionResult) :=
  a ← broadcastWithBackpressure txid ef;
  match a with
  | Backpressure _ | PostError => mret (service_error txid "arcade")
  | PostResult res => prov (if br_Rejected res then commitRejected userID txid res
                            else commitAccepted txid tx)
  end.

Definition broadcastOne (userID : Z) (txid : string) : WM (SendWithResult * option ReviewActionResult) :=
  found ← prov (meta_read (known (FindByTxID txid)));
  match found with
  | None => throw (Refused "no stored raw tx")
  | Some kt =>
      match kt_RawTx kt with
      | [] => throw (Refused "no stored raw tx")
      | raw =>
          stored ← prov (inputBEEFFor txid (kt_InputBEEF kt));
          '(tx, ef) ← lift (prepare raw stored);
          claim ← prov (claimForBroadcast txid (kt_Status kt));
          match claim with
          | sendClaimAlreadySent =>
              mret (mkSwr txid SendWithResultStatusUnproven,
                    Some (mkReview txid ReviewActionResultStatusSuccess None))
          | sendClaimInFlight => mret (service_error txid "storage")
          | sendClaimOwned => send_owned userID txid tx ef
          end
      end
  end.

(** *** ProcessAction *)

Fixpoint queue_all (txids : list string) : PM (list SendWithResult) :=
  match txids with
  | [] => mret []
  | txid :: rest =>
      _ ← queueDelayed txid;
      rs ← queue_all rest; mret (mkSwr txid SendWithResultStatusSending :: rs)
  end.
Definition add_result (r : SendWithResult * option ReviewActionResult) (res : ProcessActionResult) :
    ProcessActionResult :=
  mkResult (r.1 :: pr_SendWithResults res)
    (match r.2 with Some rar => rar :: pr_NotDelayedResults res | None => pr_NotDelayedResults res end).
Fixpoint broadcast_all (userID : Z) (txids : list string) : WM ProcessActionResult :=
  match txids with
  | [] => mret (mkResult [] [])
  | txid :: rest =>
      r ← broadcastOne userID txid;
      res ← broadcast_all userID rest; mret (add_result r res)
  end.

Definition ProcessAction (immediateBroadcast : bool) (minBroadcastFeeRate : Z) (auth : option Z)
    (args : ProcessActionArgs) : WM ProcessActionResult :=
  match auth with
  | None => throw ErrAuthorization
  | Some userID =>
      let args := if immediateBroadcast then not_delayed args else args in
      _ ← (if pa_IsNewTx args then prov (processNewTx minBroadcastFeeRate userID args) else mret ());
      if pa_IsNoSend args && negb (nonempty (pa_SendWith args)) then mret (mkResult [] [])
      else match broadcastTxIDs args with
           | [] => mret (mkResult [] [])
           | txids => if pa_IsDelayed args
                      then rs ← prov (queue_all txids); mret (mkResult rs [])
                      else broadcast_all userID txids
           end
  end.
End process.
End Process.
