(* ===== verification/Sweeps.v ===== *)
(** * Sweeps: the periodic work of the monitor

    The sweeps of [pkg/storage/status_updates.go]: sending what waits, reclaiming stale
    reservations, aborting the abandoned, polling Arcade for missed statuses and
    proofs, repairing the transactions written off by mistake, and taking back proofs
    after a reorganisation.  A sweep is a loop over one page of a work list; an error
    on one item is logged and does not stop the loop.

    The code sends and polls with several goroutines; here one item follows the other,
    as with a concurrency of one.  The answers of Arcade are a function of the number
    of calls made, so nothing is assumed about them in either case. *)
From Stdlib Require Import Ascii String.
From S2P Require Import Prelude UtxoTypes MemStore Statuses External Fee KnownTx Ledger StatusUpdates Abort Reconciler Process.
Import WdkStatus ArcadeStatus KnownTxRepo Outbox Ledger StatusUpdates ReleaseOps Abort Reconciler Process.
Local Open Scope string_scope.
Local Open Scope Z_scope.

Module Sweeps.

Definition second : Z := 1000000000.
Definition syncStaleness : Z := 60 * second.
Definition maxRepairPages : Z := 16.
Definition repairSweepBudget : Z := 30 * second.

Definition pollableStatuses : list ProvenTxReqStatus :=
  [ProvenTxStatusSending; ProvenTxStatusUnprocessed; ProvenTxStatusUnconfirmed; ProvenTxStatusUnmined;
   ProvenTxStatusCallback; ProvenTxStatusReorg].
Definition unprovenStatuses : list ProvenTxReqStatus :=
  [ProvenTxStatusUnconfirmed; ProvenTxStatusUnmined; ProvenTxStatusCallback].
Definition minedArcadeStatuses : list string := [StatusMined; StatusImmutable].
Definition sweepAbortableStatuses : list TxStatus := [TxStatusUnsigned; TxStatusNoSend].

Definition page_limit (limit : Z) : Z := if limit <=? 0 then defaultMonitorBatchLimit else limit.

(** A loop whose items fail on their own. *)
Fixpoint each {S A} (f : A → M S perror ()) (l : list A) : M S perror () :=
  match l with
  | [] => mret ()
  | x :: l' => λ s, match f x s with
                    | (Panic, s') => (Panic, s')
                    | (_, s') => each f l' s'
                    end
  end.

Section sweeps.
Context `{MapRange, Sdk, TxSdk}.
Context (clk : nat → Time) (hdrs : option Headers) (shared : bool) (errText : perror → string).
Context (scripts : Transaction SourceTx → bool).
Context (post : nat → string → Bytes → post_answer) (oracle : nat → string → oracle_answer).

(** ** Sending what waits *)

(** [inputBEEFForBatch]: a row's own copy, else the one of the transactions table. *)
Definition own_beefs (kts : list KnownTx) : gmap string Bytes :=
  foldl (λ m kt, match kt_InputBEEF kt with [] => m | b => <[kt_TxID kt := b]> m end) ∅ kts.
Definition inputBEEFForBatch (kts : list KnownTx) : PM (gmap string Bytes) :=
  let out := own_beefs kts in
  match kt_TxID <$> filter (λ kt, kt_InputBEEF kt = []) kts with
  | [] => mret out
  | missing => found ← meta_read (InputBEEFByTxIDs missing); mret (found ∪ out)
  end.

Definition sendOneWaiting (kt : KnownTx) (inputBEEF : Bytes) : WM () :=
  let txid := kt_TxID kt in
  '(tx, ef) ← lift (prepare scripts (kt_RawTx kt) inputBEEF);
  claim ← prov (try_ (claimForBroadcast clk txid (kt_Status kt)));
  match claim with
  | inl (NotBroadcastable _ _) => mret ()
  | inl e => throw e
  | inr sendClaimOwned =>
      a ← broadcastWithBackpressure post txid ef;
      match a with
      | Backpressure _ => throw (BroadcastFailed true)
      | PostError => throw (BroadcastFailed false)
      | PostResult res =>
          prov (if br_Rejected res then
                  since ← tick clk;
                  ignoring is_not_found (meta_call clk (λ now,
                    known (MarkSuspect now txid since [] (br_Status res) (br_ExtraInfo res))))
                else applyAcceptedBroadcast clk shared txid tx)
      end
  | inr _ => mret ()
  end.

Definition SendWaitingTransactions (limit : Z) : WM () :=
  waiting ← prov (meta_call clk (λ now, known (FindResendable now resendGrace (page_limit limit))));
  match waiting with
  | [] => mret ()
  | _ =>
      beefs ← prov (inputBEEFForBatch waiting);
      each (λ kt, sendOneWaiting kt (default [] ((beefs : gmap string Bytes) !! kt_TxID kt))) waiting
  end.

(** ** Reclaiming stale reservations *)

Inductive sweepOutcome := sweptSkipped | sweptByAbort | sweptByHeal | sweptOrphan | sweptSkippedInFlight.
Inductive refPin := refUnpinned | refPinned | refPinUnreadable.

Fixpoint refPinState (ops : list Outpoint) : PM refPin :=
  match ops with
  | [] => mret refUnpinned
  | op :: rest =>
      r ← try_ (utxo_call (MemStore.Get op));
      match r with
      | inl (UtxoErr (NotFoundError _)) => refPinState rest
      | inl _ => mret refPinUnreadable
      | inr u => if u_Pinned u then mret refPinned else refPinState rest
      end
  end.

Definition sweep_orphan (ref : ReservationRef) : PM sweepOutcome :=
  state ← refPinState (ref_Outpoints ref);
  match state with
  | refPinned | refPinUnreadable => mret sweptSkipped
  | refUnpinned =>
      _ ← utxo_call (MemStore.ReleaseReservation (ref_UserID ref) (ref_Reservation ref));
      mret sweptOrphan
  end.
Definition sweep_abort (userID : Z) (txRow : Z * TableTransaction) : PM sweepOutcome :=
  r ← try_ (abortTxRow clk shared errText userID txRow);
  match r with
  | inl (ErrNotAbortableAction _) | inl (ErrAbortLostToSend _) => mret sweptSkipped
  | inl e => throw e
  | inr _ => mret sweptByAbort
  end.
Definition sweep_heal (ref : ReservationRef) : PM sweepOutcome :=
  _ ← doAbortRelease (ref_UserID ref) (ref_Reservation ref);
  _ ← best_effort (meta_read (on_outbox (MarkDone (abortOutboxKey (ref_Reservation ref)) opAbortRelease 0)));
  mret sweptByHeal.

Definition sweepStaleReservation (ref : ReservationRef) : PM sweepOutcome :=
  found ← meta_read (FindByReference (ref_UserID ref) (ref_Reservation ref));
  match found with
  | None => sweep_orphan ref
  | Some txRow =>
      if is_one_of (tx_Status txRow.2) sweepAbortableStatuses then sweep_abort (ref_UserID ref) txRow
      else if decide (tx_Status txRow.2 = TxStatusAborted) then sweep_heal ref
      else if decide (tx_Status txRow.2 = TxStatusCompleted) then mret sweptSkipped
      else mret sweptSkippedInFlight
  end.

Definition SweepStaleReservations (olderThan : Time) (limit : Z) : PM () :=
  refs ← utxo_call (MemStore.FindStaleReservationsIncludingPinned olderThan (page_limit limit));
  each (λ ref, _ ← sweepStaleReservation ref; mret ()) refs.

Definition AbortAbandoned (olderThan : Time) (limit : Z) : PM () :=
  abandoned ← meta_read (FindAbandonedBefore olderThan (page_limit limit));
  each (λ row : Z * TableTransaction, abortTxRow clk shared errText (tx_UserID row.2) row) abandoned.

(** ** Polling *)

Fixpoint fetch_all (kts : list KnownTx) : PM (list TxRecord) :=
  match kts with
  | [] => mret []
  | kt :: rest =>
      a ← GetTx oracle (kt_TxID kt);
      recs ← fetch_all rest;
      mret (match a with Answer r => named (kt_TxID kt) r :: recs | _ => recs end)
  end.

Definition pollApplyAttempts : nat := 3.
(** The bulk apply, tried [n] times. *)
Fixpoint apply_retry (n : nat) (batch : list TxRecord) : PM bool :=
  match n with
  | O => mret false
  | S n' =>
      r ← try_ (ApplyStatusBatch clk hdrs shared batch);
      match r with inr _ => mret true | inl _ => apply_retry n' batch end
  end.
(** One by one; the result is the txids that failed. *)
Fixpoint apply_singly (batch : list TxRecord) : PM (list string) :=
  match batch with
  | [] => mret []
  | r :: rest =>
      x ← try_ (ApplyStatusUpdate clk hdrs shared r);
      failed ← apply_singly rest;
      mret (match x with inl _ => rec_TxID r :: failed | inr _ => failed end)
  end.

Definition pollAndApply (kts : list KnownTx) : PM () :=
  match kts with
  | [] => mret ()
  | _ =>
      _ ← best_effort (meta_call clk (λ now, known (MarkPolled now (kt_TxID <$> kts))));
      recs ← fetch_all kts;
      match filter (λ r, rec_TxID r ≠ "") recs with
      | [] => mret ()
      | batch =>
          applied ← apply_retry pollApplyAttempts batch;
          if (applied : bool) then mret ()
          else
            failed ← apply_singly batch;
            match failed with [] => mret () | _ => throw (Refused "poll apply failed") end
      end
  end.

(** The second list without the txids of the first and without repetitions. *)
Definition mergeKnownTxs (a b : list KnownTx) : list KnownTx :=
  (foldl (λ acc kt,
     if decide (kt_TxID kt ∈ acc.1) then acc
     else ({[kt_TxID kt]} ∪ acc.1, acc.2 ++ [kt]))
     (list_to_set (kt_TxID <$> a) : gset string, a) b).2%list.

Fixpoint repair_pages (pages : nat) (cutoff deadline : Time) (limit : Z) : PM () :=
  match pages with
  | O => mret ()
  | S pages' =>
      now ← tick clk;
      if negb (now <? deadline) then mret ()
      else
        page ← meta_read (known (FindMissingArcadeStatus cutoff limit pollableStatuses));
        match page with
        | [] => mret ()
        | _ =>
            _ ← pollAndApply page;
            if Z.of_nat (length page) <? limit then mret ()
            else repair_pages pages' cutoff deadline limit
        end
  end.
Definition drainRepairBacklog (cutoff : Time) (limit firstPage : Z) : PM () :=
  r ← try_ (meta_read (known (CountMissingArcadeStatus pollableStatuses)));
  let total := match r with inr n => n | inl _ => 0 end in
  let pages := if (limit <=? firstPage) && (0 <? total)
               then ((total + limit - 1) `quot` limit) `min` maxRepairPages else 0 in
  now ← tick clk;
  repair_pages (Z.to_nat pages) cutoff (now + repairSweepBudget) limit.

Definition SynchronizeTransactionStatuses (limit : Z) : PM () :=
  let limit := page_limit limit in
  now ← tick clk;
  let cutoff := now - syncStaleness in
  stale ← meta_read (known (FindByStatusOlderThan cutoff limit pollableStatuses));
  stranded ← meta_read (known (FindMissingArcadeStatus cutoff limit pollableStatuses));
  _ ← pollAndApply (mergeKnownTxs stale stranded);
  match stranded with
  | [] => mret ()
  | _ => drainRepairBacklog cutoff limit (Z.of_nat (length stranded))
  end.

(** ** Repairing transactions that were written off *)

Inductive repairOutcome := repairApplied | repairDeferred | repairDisagreed.

(** The hash whose 32 bytes these are. *)
Fixpoint le_hash (b : Bytes) : Hash :=
  match b with [] => 0 | c :: b' => Z.of_nat (nat_of_ascii c) + 256 * le_hash b' end.

Definition storedProofRecord (kt : KnownTx) : option TxRecord :=
  match kt_MerklePath kt, kt_BlockHeight kt with
  | _ :: _, Some height =>
      Some (mkTxRecord (kt_TxID kt) StatusMined 0
              (if (length (kt_BlockHash kt) =? 32)%nat then Hash_String (le_hash (kt_BlockHash kt)) else "")
              height (kt_MerklePath kt) "" [] [])
  | _, _ => None
  end.

Definition repair_with (rec : TxRecord) (kt : KnownTx) : PM repairOutcome :=
  applied ← applyMinedRepair clk hdrs shared rec kt;
  mret (if (applied : bool) then repairApplied else repairDeferred).

(** [configured]: the provider has an oracle. *)
Definition repairOneMinedFenced (configured : bool) (kt : KnownTx) : PM repairOutcome :=
  match storedProofRecord kt with
  | Some rec => repair_with rec kt
  | None =>
      if negb configured then throw NoOracle
      else
        a ← GetTx oracle (kt_TxID kt);
        match a with
        | ErrTxNotFound | NilRecord => mret repairDisagreed
        | OracleError => throw (Refused "refetch")
        | Answer r =>
            let r := named (kt_TxID kt) r in
            if isMinedClass (rec_Status r) then repair_with r kt
            else _ ← recordArcadeStatus clk (kt_TxID kt) (rec_Status r); mret repairDisagreed
        end
  end.

Definition repairMinedFenced (configured : bool) (limit : Z) : PM () :=
  diverged ← meta_read (FindMinedOnDeadTransactions minedArcadeStatuses (page_limit limit));
  match diverged with
  | [] => mret ()
  | _ =>
      _ ← best_effort (meta_call clk (λ now, known (MarkPolled now (kt_TxID <$> diverged))));
      each (λ kt, _ ← repairOneMinedFenced configured kt; mret ()) diverged
  end.

Definition CheckProofs (configured : bool) (limit : Z) : PM () :=
  let limit := page_limit limit in
  now ← tick clk;
  unproven ← meta_read (known (FindByStatusOlderThan now limit unprovenStatuses));
  perr ← try_ (pollAndApply unproven);
  _ ← best_effort (repairMinedFenced configured limit);
  match perr with inl e => throw e | inr _ => mret () end.

(** ** Taking back proofs *)

Definition demoteProof (txid : string) : PM () :=
  Do shared (
    _ ← ignoring is_not_found (meta_call clk (λ now, known (ClearProof now txid ProvenTxStatusUnconfirmed)));
    _ ← ignoring is_skipped (meta_call clk (λ now,
          UpdateStatusByTxID now txid TxStatusUnproven [TxStatusCompleted]));
    promoteChangeByTxID txid TierUnproven).

(** The stored proof still verifies, or there is none to judge. *)
Definition proof_stands (h : Headers) (kt : KnownTx) : bool :=
  match kt_BlockHeight kt with
  | None => true
  | Some height =>
      if negb (length (kt_MerkleRoot kt) =? 32)%nat then true
      else bool_decide (VerifyMerkleRoot h (le_hash (kt_MerkleRoot kt)) height = Some true)
  end.
Definition DemoteReorgedProofs (forkHeight : Z) : PM () :=
  match hdrs with
  | None => mret ()
  | Some h =>
      proven ← meta_read (known (FindProvenAtOrAbove forkHeight defaultMonitorBatchLimit));
      each (λ kt, if proof_stands h kt then mret () else demoteProof (kt_TxID kt)) proven
  end.
End sweeps.
End Sweeps.
