(* ===== verification/ProviderLogic.v ===== *)
(** * ProviderLogic: relational reasoning about provider operations

    [steps R m]: every run of [m], however it ends, leaves a state related by [R] to
    the one it started in.  [R] must survive what a unit of work does on an error,
    taking the metadata back while the coin store may stay as it is ([StepRel]).
    Two ways to build such an [R]: from a relation on the coin store ([on_utxo]) and
    from one on the metadata ([on_meta]). *)
From Stdlib Require Import Ascii String.
From S2P Require Import Prelude UtxoTypes MemStore Statuses KnownTx Ledger StatusUpdates Abort.
Import WdkStatus ArcadeStatus KnownTxRepo Outbox Ledger StatusUpdates ReleaseOps.
Local Open Scope string_scope.
Local Open Scope Z_scope.

Module ProviderLogic.

Class StepRel (R : Provider → Provider → Prop) := {
  step_refl p n : R p (mkProvider (p_meta p) (p_utxo p) n);
  step_trans p1 p2 p3 : R p1 p2 → R p2 p3 → R p1 p3;
  step_rollback p p' n : R p p' → R p (mkProvider (p_meta p) (p_utxo p') n);
}.

Definition on_utxo (Ru : relation MemStore.Store) : relation Provider :=
  λ p p', Ru (p_utxo p) (p_utxo p').
Definition on_meta (Rm : relation Meta) : relation Provider :=
  λ p p', Rm (p_meta p) (p_meta p').

#[global] Instance on_utxo_step Ru : PreOrder Ru → StepRel (on_utxo Ru).
Proof. intros HR. split; rewrite /on_utxo /=; [done|intros; by etrans|done]. Qed.
#[global] Instance on_meta_step Rm : PreOrder Rm → StepRel (on_meta Rm).
Proof. intros HR. split; rewrite /on_meta /=; [done|intros; by etrans|done]. Qed.

Definition steps (R : Provider → Provider → Prop) {A} (m : PM A) : Prop := ∀ p, R p (m p).2.

Section rules.
Context `{StepRel R}.

Lemma step_same p : R p p.
Proof. destruct p. apply (step_refl (mkProvider _ _ _)). Qed.

Lemma steps_ret {A} (a : A) : steps R (mret a : PM A).
Proof. intros p. apply step_same. Qed.
Lemma steps_throw {A} e : steps R (throw e : PM A).
Proof. intros p. apply step_same. Qed.
Lemma steps_lift {A} (o : outcome perror A) : steps R (lift o).
Proof. intros p. apply step_same. Qed.
Lemma steps_bind {A B} (m : PM A) (k : A → PM B) :
  steps R m → (∀ a, steps R (k a)) → steps R (m ≫= k).
Proof.
  intros Hm Hk p. specialize (Hm p). cbv [mbind M_bind].
  destruct (m p) as [[a|e|] p']; simpl in *; [|done..]. eapply step_trans; [exact Hm|apply Hk].
Qed.
Lemma steps_try {A} (m : PM A) : steps R m → steps R (try_ m).
Proof. intros Hm p. specialize (Hm p). rewrite /try_. by destruct (m p) as [[] ?]. Qed.
Lemma steps_best_effort {A} (m : PM A) : steps R m → steps R (best_effort m).
Proof. intros. apply steps_bind; [by apply steps_try|]. intros. apply steps_ret. Qed.
Lemma steps_ignoring b (m : PM ()) : steps R m → steps R (ignoring b m).
Proof.
  intros Hm p. specialize (Hm p). rewrite /ignoring. destruct (m p) as [[a|e|] p']; simpl in *; [done| |done].
  by destruct (b e).
Qed.
Lemma steps_tick clk : steps R (tick clk).
Proof. intros p. apply step_refl. Qed.
Lemma steps_Do {A} shared (m : PM A) : steps R m → steps R (Do shared m).
Proof.
  intros Hm p. specialize (Hm p). rewrite /Do. destruct (meta_closed _); [apply step_same|].
  destruct (m p) as [[a|e|] p']; simpl in *; [done|..].
  all: destruct shared; [apply step_refl|by apply step_rollback].
Qed.
End rules.

(** ** The two kinds of relations *)

Section utxo.
Context (Ru : relation MemStore.Store) `{!PreOrder Ru}.

Lemma usteps_read {A} (m : L A) : steps (on_utxo Ru) (meta_read m).
Proof. intros p. rewrite /on_utxo /meta_read /zoom. by destruct (m (p_meta p)). Qed.
Lemma usteps_call {A} clk (f : Time → L A) : steps (on_utxo Ru) (meta_call clk f).
Proof. apply steps_bind; [apply steps_tick|]. intros. apply usteps_read. Qed.
Lemma usteps_utxo {A} (m : M MemStore.Store error A) :
  (∀ s, Ru s (m s).2) → steps (on_utxo Ru) (utxo_call m).
Proof. intros Hm p. specialize (Hm (p_utxo p)). rewrite /on_utxo /utxo_call /zoom. by destruct (m (p_utxo p)). Qed.
End utxo.

Section meta.
Context (Rm : relation Meta) `{!PreOrder Rm}.

Lemma msteps_read {A} (m : L A) : (∀ m0, Rm m0 (m m0).2) → steps (on_meta Rm) (meta_read m).
Proof. intros Hm p. specialize (Hm (p_meta p)). rewrite /on_meta /meta_read /zoom. by destruct (m (p_meta p)). Qed.
Lemma msteps_call {A} clk (f : Time → L A) :
  (∀ now m0, Rm m0 (f now m0).2) → steps (on_meta Rm) (meta_call clk f).
Proof. intros Hf. apply steps_bind; [apply steps_tick|]. intros. by apply msteps_read. Qed.
Lemma msteps_utxo {A} (m : M MemStore.Store error A) : steps (on_meta Rm) (utxo_call m).
Proof. intros p. rewrite /on_meta /utxo_call /zoom. by destruct (m (p_utxo p)). Qed.
End meta.

(** ** Reading the ledger changes nothing *)

Section reads.
Context `{MapRange, Sdk}.

Definition reads {A} (m : L A) : Prop := ∀ m0, (m m0).2 = m0.

Lemma reads_gets {A} (f : Meta → A) : reads (gets f).
Proof. done. Qed.
Lemma reads_known {A} (m : K A) : (∀ t, (m t).2 = t) → reads (known m).
Proof.
  intros Hm m0. rewrite /known /zoom. specialize (Hm (known_txs m0)).
  destruct (m (known_txs m0)) as [[] t]; simpl in *; subst; by destruct m0.
Qed.
Lemma reads_enc {A} txid (f : Raw → Meta → A) : reads (lift (encTxID txid) ≫= λ raw, gets (f raw)).
Proof. intros m0. cbv [mbind M_bind lift gets]. by destruct (encTxID txid). Qed.
Lemma reads_FindByTxID txid : reads (known (FindByTxID txid)).
Proof.
  apply reads_known. intros t. rewrite /FindByTxID. cbv [mbind M_bind lift gets].
  by destruct (encTxID txid).
Qed.
Lemma reads_FindByTxIDAllUsers txid : reads (FindByTxIDAllUsers txid).
Proof. apply reads_enc. Qed.
Lemma reads_FindChangeOutputsByTxIDs txids : reads (FindChangeOutputsByTxIDs txids).
Proof.
  intros m0. rewrite /FindChangeOutputsByTxIDs. case_match; [done|].
  cbv [mbind M_bind lift gets]. by case_match.
Qed.

(** A computation that leaves both stores alone, ends in any way, and only uses up
    clock readings. *)
Definition pure_ {A} (m : PM A) : Prop :=
  ∀ p, p_meta (m p).2 = p_meta p ∧ p_utxo (m p).2 = p_utxo p ∧ (p_ticks p ≤ p_ticks (m p).2)%nat.

Lemma pure_ret {A} (a : A) : pure_ (mret a : PM A).
Proof. by intros p. Qed.
Lemma pure_throw {A} e : pure_ (throw e : PM A).
Proof. by intros p. Qed.
Lemma pure_lift {A} (o : outcome perror A) : pure_ (lift o).
Proof. by intros p. Qed.
Lemma pure_tick clk : pure_ (tick clk).
Proof. intros p. simpl. split_and!; [done|done|lia]. Qed.
Lemma pure_bind {A B} (m : PM A) (k : A → PM B) : pure_ m → (∀ a, pure_ (k a)) → pure_ (m ≫= k).
Proof.
  intros Hm Hk p. specialize (Hm p). cbv [mbind M_bind].
  destruct (m p) as [[a|e|] p']; simpl in *; [|done..].
  destruct (Hk a p') as (?&?&?), Hm as (?&?&?). split_and!; [congruence|congruence|lia].
Qed.
Lemma pure_try {A} (m : PM A) : pure_ m → pure_ (try_ m).
Proof. intros Hm p. specialize (Hm p). rewrite /try_. by destruct (m p) as [[] ?]. Qed.
Lemma pure_read {A} (m : L A) : reads m → pure_ (meta_read m).
Proof.
  intros Hm p. specialize (Hm (p_meta p)). rewrite /meta_read /zoom.
  destruct (m (p_meta p)) as [[] m']; simpl in *; subst; by destruct p.
Qed.
Lemma pure_change_ops rows : pure_ (change_ops rows).
Proof.
  induction rows as [|row rows IH]; simpl; [apply pure_ret|].
  repeat (case_match; try apply IH; try apply pure_throw).
  apply pure_bind; [done|]. intros. apply pure_ret.
Qed.
Lemma pure_changeOutpointsByTxID txid : pure_ (changeOutpointsByTxID txid).
Proof.
  apply pure_bind; [apply pure_read, reads_FindChangeOutputsByTxIDs|]. intros. apply pure_change_ops.
Qed.
End reads.

Lemma pure_steps `{StepRel R} {A} (m : PM A) : pure_ m → steps R m.
Proof.
  intros Hm p. destruct (Hm p) as (Hme&Hu&_), (m p) as [o [me u t]]; simpl in *. subst.
  apply step_refl.
Qed.
End ProviderLogic.
