(* ===== verification/OutboxProps.v ===== *)
(** * OutboxProps: an outbox operation as calls of the coin store

    [entry_calls e] are the coin-store calls an outbox row stands for.  Executing the
    row has exactly their effect on the coin store, also when it fails half way, so
    that crashes and replays can be discussed in terms of the calls alone. *)
From Stdlib Require Import Ascii String.
From S2P Require Import Prelude UtxoTypes MemStore StoreContract Statuses KnownTx Ledger StatusUpdates.
From S2P Require Import GoStrings Abort ProviderLogic.
Import WdkStatus ArcadeStatus KnownTxRepo Outbox Ledger StatusUpdates ReleaseOps ProviderLogic StoreContract.
Local Open Scope string_scope.
Local Open Scope Z_scope.

Module OutboxProps.

Definition op_of (pl : payload) : string :=
  match pl with
  | unspendPayload _ _ => opUnspend
  | releasePayload _ _ => opReleaseResv
  | removePhantomPayload _ => opRemovePhantom
  | removeMintedPayload _ _ => opRemoveMinted
  | abortReleasePayload _ _ => opAbortRelease
  | abortRemoveChangePayload _ _ => opAbortRemoveChange
  end.
Definition well_typed (e : OutboxEntry) : Prop := e_OpType e = op_of (e_Payload e).

Section calls.
Context `{MapRange, Sdk}.
Context (clk : nat → Time) (shared : bool) (errText : perror → string).

Definition run (cs : list call) (s : MemStore.Store) : MemStore.Store := foldl (λ s c, exec c s) s cs.

Lemma run_app cs cs' s : run (cs ++ cs') s = run cs' (run cs s).
Proof. apply foldl_app. Qed.

(** The calls on the outpoints a text names, if it names any. *)
Definition on_ops (ss : list string) (f : list Outpoint → list call) : list call :=
  match decodeOutpoints ss with Ret ((_ :: _) as ops) => f ops | _ => [] end.
Definition on_hash (txid : string) (f : Hash → list call) : list call :=
  match NewHashFromHex txid with Some h => f h | None => [] end.

Definition entry_calls (e : OutboxEntry) : list call :=
  match e_Payload e with
  | unspendPayload spender ss =>
      on_hash spender (λ h, on_ops ss (λ ops, [CUnspend h ops; CUnfreeze ops]))
  | releasePayload reservation ss =>
      on_ops ss (λ ops, if decide (reservation = "") then [] else [CReleaseOutpoints reservation ops])
  | removePhantomPayload ss => on_ops ss (λ ops, [CRemove ops true])
  | removeMintedPayload mint ss => on_hash mint (λ h, on_ops ss (λ ops, [CRemoveByMintTx h ops]))
  | abortReleasePayload userID reservation =>
      [CUnpin userID reservation; CReleaseReservation userID reservation]
  | abortRemoveChangePayload mint ss =>
      on_hash mint (λ h, on_ops ss (λ ops, [CRemoveByMintTx h ops]))
  end.

(** ** One operation *)

Lemma utxo_call_utxo {A} (m : M MemStore.Store error A) p :
  p_utxo (utxo_call m p).2 = (m (p_utxo p)).2.
Proof. rewrite /utxo_call /zoom. by destruct (m (p_utxo p)). Qed.

(** [utxo_call m1] followed by a step that only runs if [m1] succeeded. *)
Lemma utxo_bind {A B} (m : M MemStore.Store error A) (k : A → PM B) p :
  p_utxo ((utxo_call m ≫= k) p).2 =
    match m (p_utxo p) with
    | (Ret a, s) => p_utxo (k a (with_utxo s p)).2
    | (_, s) => s
    end.
Proof. cbv [mbind M_bind utxo_call zoom mapErr]. by destruct (m (p_utxo p)) as [[] ?]. Qed.

Lemma cascadeChildren_utxo parent children : steps (on_utxo eq) (cascadeChildren clk parent children).
Proof.
  induction children as [|c children IH]; simpl; [apply steps_ret|].
  apply steps_bind; [apply usteps_read, _|]. intros [kt|]; [|done]. case_match; [done|].
  apply steps_bind; [apply steps_tick|intros since].
  apply steps_bind; [apply steps_ignoring, usteps_call, _|intros _].
  apply steps_bind; [done|]. intros. apply steps_ret.
Qed.

Lemma doUnspend_calls h ops p :
  ops ≠ [] → p_utxo (doUnspend h ops p).2 = run [CUnspend h ops; CUnfreeze ops] (p_utxo p).
Proof.
  destruct ops as [|op ops]; [done|]. intros _. rewrite /doUnspend utxo_bind /run /=.
  destruct (MemStore.Unspend h (op :: ops) (p_utxo p)) as [o s] eqn:Hu.
  assert (match o with Ret _ => True | _ => MemStore.closed s = true end) as Ho.
  { revert Hu. rewrite /MemStore.Unspend /MemStore.guard_open. destruct (MemStore.closed (p_utxo p)) eqn:Hc.
    - by intros [= <- <-].
    - destruct (foldl _ _ _). by intros [= <- <-]. }
  destruct o as [a|e|]; simpl.
  - rewrite /best_effort /try_. cbv [mbind M_bind utxo_call zoom mapErr mret M_ret]. simpl.
    by destruct (MemStore.Unfreeze (op :: ops) s) as [[] ?].
  - by rewrite /MemStore.Unfreeze /MemStore.setFrozen /MemStore.guard_open Ho.
  - by rewrite /MemStore.Unfreeze /MemStore.setFrozen /MemStore.guard_open Ho.
Qed.

Lemma doAbortRelease_calls uid tok p :
  p_utxo (doAbortRelease uid tok p).2 = run [CUnpin uid tok; CReleaseReservation uid tok] (p_utxo p).
Proof.
  rewrite /doAbortRelease utxo_bind /run /=.
  destruct (MemStore.Unpin uid tok (p_utxo p)) as [o s] eqn:Hu.
  assert (match o with Ret _ => True | _ => MemStore.closed s = true ∨ tok = "" end) as Ho.
  { revert Hu. rewrite /MemStore.Unpin /MemStore.setPinned /MemStore.guard_open /MemStore.guard_valid /ValidateReservation.
    destruct (MemStore.closed (p_utxo p)) eqn:Hc; [intros [= <- <-]; by left|].
    case_decide; [intros [= <- <-]; by right|]. by intros [= <- <-]. }
  destruct o as [a|e|]; simpl; [by rewrite utxo_bind /=; destruct (MemStore.ReleaseReservation _ _ _) as [[]?]|..].
  all: rewrite /MemStore.ReleaseReservation snd_guard_open snd_guard_valid /ValidateReservation.
  all: destruct (MemStore.closed s); [done|]; destruct Ho as [?|Htok]; [done|by rewrite decide_True].
Qed.

Lemma doRemoveMinted_calls h ops p :
  ops ≠ [] → p_utxo (doRemoveMinted clk h ops p).2 = run [CRemoveByMintTx h ops] (p_utxo p).
Proof.
  destruct ops as [|op ops]; [done|]. intros _. rewrite /doRemoveMinted utxo_bind /run /=.
  destruct (MemStore.RemoveByMintTx _ _ _) as [[a|e|] s]; [|done..].
  by rewrite -(cascadeChildren_utxo h (rep_AlreadySpentBy a) (with_utxo s p)).
Qed.

(** Steps after the last coin-store call. *)
Lemma bind_ret_utxo {A B} (m : PM A) (b : B) p : p_utxo ((_ ← m; mret b : PM B) p).2 = p_utxo (m p).2.
Proof. cbv [mbind M_bind]. by destruct (m p) as [[] ?]. Qed.
Lemma lift_bind {A B} (o : outcome perror A) (k : A → PM B) p :
  (lift o ≫= k) p = match o with Ret a => k a p | Err e => (Err e, p) | Panic => (Panic, p) end.
Proof. by destruct o. Qed.

Lemma executeOutboxOp_calls e p :
  well_typed e → p_utxo (executeOutboxOp clk e p).2 = run (entry_calls e) (p_utxo p).
Proof.
  rewrite /well_typed /executeOutboxOp /entry_calls /on_hash /on_ops. intros Ht.
  destruct (e_Payload e) as [sp ss|r ss|ss|mi ss|uid r|mi ss]; rewrite decide_True //.
  - destruct (NewHashFromHex sp) as [h|]; [|done]. rewrite lift_bind.
    destruct (decodeOutpoints ss) as [[|op ops]|?|]; try done. by rewrite bind_ret_utxo doUnspend_calls.
  - rewrite lift_bind. destruct (decodeOutpoints ss) as [[|op ops]|?|]; try done.
    rewrite bind_ret_utxo /doReleaseOutpoints. case_decide; [done|by rewrite utxo_call_utxo].
  - rewrite lift_bind. destruct (decodeOutpoints ss) as [[|op ops]|?|]; try done.
    by rewrite bind_ret_utxo /doRemovePhantom utxo_call_utxo.
  - destruct (NewHashFromHex mi) as [h|]; [|done]. rewrite lift_bind.
    destruct (decodeOutpoints ss) as [[|op ops]|?|]; try done. by rewrite doRemoveMinted_calls.
  - by rewrite bind_ret_utxo doAbortRelease_calls.
  - rewrite lift_bind. destruct (decodeOutpoints ss) as [[|op ops]|?|] eqn:Hd; simpl; try by destruct (NewHashFromHex mi).
    rewrite bind_ret_utxo /doAbortRemoveChange. destruct (NewHashFromHex mi); [|done].
    by rewrite bind_ret_utxo utxo_call_utxo.
Qed.

(** ** No operation panics *)

Definition calm {S E A} (m : M S E A) : Prop := ∀ s, (m s).1 ≠ Panic.

Lemma calm_ret {S E A} (a : A) : calm (mret a : M S E A).
Proof. done. Qed.
Lemma calm_throw {S E A} (e : E) : calm (throw e : M S E A).
Proof. done. Qed.
Lemma calm_bind {S E A B} (m : M S E A) (k : A → M S E B) : calm m → (∀ a, calm (k a)) → calm (m ≫= k).
Proof.
  intros Hm Hk s. specialize (Hm s). cbv [mbind M_bind]. destruct (m s) as [[a|e|] s']; [apply Hk|done|done].
Qed.
Lemma calm_zoom {S T E E' A} (get : T → S) put (inj : E → E') (m : M S E A) : calm m → calm (zoom get put inj m).
Proof. intros Hm t. specialize (Hm (get t)). rewrite /zoom. by destruct (m (get t)) as [[] ?]. Qed.
Lemma calm_ignoring b (m : PM ()) : calm m → calm (ignoring b m).
Proof.
  intros Hm p. specialize (Hm p). rewrite /ignoring. destruct (m p) as [[a|e|] p']; [done| |done].
  by destruct (b e).
Qed.
Lemma calm_try {A} (m : PM A) : calm m → calm (try_ m).
Proof. intros Hm p. specialize (Hm p). rewrite /try_. by destruct (m p) as [[] ?]. Qed.
Lemma calm_read {A} (m : L A) : calm m → calm (meta_read m).
Proof. apply calm_zoom. Qed.
Lemma calm_known {A} (m : K A) : calm m → calm (known m).
Proof. apply calm_zoom. Qed.
Lemma calm_tick : calm (tick clk).
Proof. done. Qed.
Lemma calm_enc {S A} txid (k : Raw → M S meta_error A) :
  (∀ raw, calm (k raw)) → calm (lift (encTxID txid) ≫= k).
Proof.
  intros Hk. apply calm_bind; [|done]. intros s. rewrite /lift /encTxID. by case_match.
Qed.

Ltac calm_store :=
  intros s; rewrite /MemStore.guard_open /MemStore.guard_valid; repeat case_match; done.

Lemma calm_MarkSuspect now txid since cs st why : calm (MarkSuspect now txid since cs st why).
Proof.
  apply calm_enc. intros raw. apply calm_bind; [intros t; rewrite /update_row; by repeat case_match|].
  intros n t. rewrite /applied_or_missing. by repeat case_match.
Qed.
Lemma calm_cascadeChildren parent children : calm (cascadeChildren clk parent children).
Proof.
  induction children as [|c children IH]; simpl; [apply calm_ret|].
  apply calm_bind; [by apply calm_read, calm_known, calm_enc|]. intros [kt|]; [|done]. case_match; [done|].
  apply calm_bind; [apply calm_tick|intros since].
  apply calm_bind; [|intros _; apply calm_bind; [done|intros; apply calm_ret]].
  apply calm_ignoring, calm_bind; [apply calm_tick|intros now]. apply calm_read, calm_known, calm_MarkSuspect.
Qed.

Lemma decodeOutpoints_calm ss : decodeOutpoints ss ≠ Panic.
Proof.
  induction ss as [|s ss IH]; simpl; [done|]. rewrite /decodeOutpoint. cbv [mbind outcome_bind].
  repeat case_match; try done.
Qed.
Lemma calm_decode {A} ss (k : list Outpoint → PM A) :
  (∀ ops, calm (k ops)) → calm (lift (decodeOutpoints ss) ≫= k).
Proof. intros Hk. apply calm_bind; [|done]. intros p. apply decodeOutpoints_calm. Qed.

Lemma calm_Unspend h ops : calm (MemStore.Unspend h ops).
Proof. rewrite /MemStore.Unspend. calm_store. Qed.
Lemma calm_setFrozen ops b : calm (MemStore.setFrozen ops b).
Proof. rewrite /MemStore.setFrozen /MemStore.batch_result. calm_store. Qed.
Lemma calm_RemoveByMintTx h ops : calm (MemStore.RemoveByMintTx h ops).
Proof. rewrite /MemStore.RemoveByMintTx. calm_store. Qed.

Lemma calm_executeOutboxOp e : calm (executeOutboxOp clk e).
Proof.
  rewrite /executeOutboxOp. destruct (e_Payload e) as [sp ss|r ss|ss|mi ss|uid r|mi ss];
    case_decide; try apply calm_throw.
  - case_match; [|apply calm_throw]. apply calm_decode. intros ops. apply calm_bind; [|by intros].
    rewrite /doUnspend. case_match; [apply calm_ret|].
    apply calm_bind; [apply calm_zoom, calm_Unspend|intros _].
    apply calm_bind; [apply calm_try, calm_zoom, calm_setFrozen|by intros].
  - apply calm_decode. intros ops. apply calm_bind; [|by intros]. rewrite /doReleaseOutpoints.
    case_match; [apply calm_ret|]. case_decide; [apply calm_ret|]. apply calm_zoom.
    rewrite /MemStore.ReleaseOutpoints. calm_store.
  - apply calm_decode. intros ops. apply calm_bind; [|by intros]. rewrite /doRemovePhantom.
    case_match; [apply calm_ret|]. apply calm_zoom. rewrite /MemStore.Remove /MemStore.batch_result. calm_store.
  - case_match; [|apply calm_throw]. apply calm_decode. intros ops. rewrite /doRemoveMinted.
    case_match; [apply calm_ret|]. apply calm_bind; [apply calm_zoom, calm_RemoveByMintTx|].
    intros. apply calm_cascadeChildren.
  - apply calm_bind; [|by intros]. rewrite /doAbortRelease.
    apply calm_bind; [apply calm_zoom; rewrite /MemStore.Unpin /MemStore.setPinned; calm_store|intros _].
    apply calm_bind; [apply calm_zoom; rewrite /MemStore.ReleaseReservation; calm_store|by intros].
  - apply calm_decode. intros ops. apply calm_bind; [|by intros]. rewrite /doAbortRemoveChange.
    case_match; [apply calm_ret|]. case_match; [|apply calm_throw].
    apply calm_bind; [apply calm_zoom, calm_RemoveByMintTx|by intros].
Qed.

(** ** Lists of operations *)

Lemma execute_inline_calls es p :
  Forall well_typed es →
  p_utxo (execute_inline clk errText es p).2 = run (es ≫= entry_calls) (p_utxo p).
Proof.
  revert p. induction es as [|e es IH]; intros p Hes; [done|]. apply Forall_cons in Hes as [He Hes].
  rewrite bind_cons run_app -(executeOutboxOp_calls _ _ He).
  pose proof (calm_executeOutboxOp e p) as Hc. cbn [execute_inline]. rewrite {1}/try_. cbv [mbind M_bind].
  destruct (executeOutboxOp clk e p) as [[c|x|] p']; [| |done];
    cbv [meta_read on_outbox zoom modify MarkDone RecordError mapErr mret M_ret];
    match goal with |- context [execute_inline clk errText es ?q] =>
         specialize (IH q Hes); destruct (execute_inline clk errText es q) as [[] ?] end; exact IH.
Qed.
End calls.
End OutboxProps.
