(* ===== verification/AbortProps.v ===== *)
(** * AbortProps: an abort never frees the coins of a live transaction

    An abort and a crash at any point of it: whatever state is left behind, either the
    coins are untouched or the transaction is fenced against broadcast.  And what a
    crash interrupts, the outbox finishes. *)
From Stdlib Require Import Ascii String.
From S2P Require Import Prelude UtxoTypes MemStore StoreContract StoreReplay Statuses KnownTx KnownTxProps Ledger StatusUpdates.
From S2P Require Import GoStrings Abort ProviderLogic OutboxProps.
Import WdkStatus ArcadeStatus KnownTxRepo Outbox Ledger StatusUpdates ReleaseOps Abort.
Import ProviderLogic OutboxProps StoreContract.
Local Open Scope string_scope.
Local Open Scope Z_scope.

Module AbortProps.

Section abort.
Context `{MapRange, Sdk}.
Context (clk : nat → Time) (shared : bool) (errText : perror → string).

(** ** What an abort can leave behind *)

(** The coin-store calls of phase 2 are durable one by one, while its metadata
    transaction is lost with a crash; phase 1 is lost as a whole. *)
Inductive abort_leaves (userID : Z) (reference : string) (p : Provider) : Provider → Prop :=
| leaves_done :
    abort_leaves userID reference p (AbortAction clk shared errText (Some userID) reference p).2
| leaves_lost n :
    abort_leaves userID reference p (mkProvider (p_meta p) (p_utxo p) n)
| leaves_crashed txRow ops p1 k n :
    shared = false → (abort_target userID reference p).1 = Ret txRow →
    abort_phase1 clk shared userID txRow p = (Ret ops, p1) →
    abort_leaves userID reference p
      (mkProvider (p_meta p1) (run (take k (ops ≫= entry_calls)) (p_utxo p1)) n).

(** The raw transaction of a row is fenced: its known-transactions row, if there is
    one, says aborted. *)
Definition fenced (m : Meta) (row : TableTransaction) : Prop :=
  tx_Status row = TxStatusAborted ∧
  ∀ raw k, tx_TxID row = Some raw → raw ≠ "" → known_txs m !! raw = Some k →
    kt_Status k = KnownTxStatusAborted.

(** The row [txRow] names is aborted and its raw transaction fenced. *)
Definition aborted_as (txRow : Z * TableTransaction) (m : Meta) : Prop :=
  ∃ row, transactions m !! txRow.1 = Some row ∧ tx_UserID row = tx_UserID txRow.2 ∧
    tx_Reference row = tx_Reference txRow.2 ∧ tx_TxID row = tx_TxID txRow.2 ∧ fenced m row.

(** ** Calls of the metadata store, as equations *)

Lemma meta_call_eq {A} (f : Time → L A) p :
  meta_call clk f p =
    (mapErr MetaErr (f (clk (p_ticks p)) (p_meta p)).1,
     mkProvider (f (clk (p_ticks p)) (p_meta p)).2 (p_utxo p) (S (p_ticks p))).
Proof.
  rewrite /meta_call /tick /meta_read /zoom. cbv [mbind M_bind]. simpl.
  by destruct (f (clk (p_ticks p)) (p_meta p)).
Qed.

Lemma Do_Ret {A} (m : PM A) p a p' :
  Do shared m p = (Ret a, p') → m p = (Ret a, p').
Proof. rewrite /Do. destruct (meta_closed _); [done|]. by destruct (m p) as [[] ?]. Qed.

(** A failed unit of work takes the metadata back, and the coins too when they were
    not touched or share the transaction. *)
Lemma Do_failed {A} (m : PM A) p :
  steps (on_utxo eq) m ∨ shared = true →
  (∃ a p', Do shared m p = (Ret a, p')) ∨
  p_meta (Do shared m p).2 = p_meta p ∧ p_utxo (Do shared m p).2 = p_utxo p.
Proof.
  intros Hu. rewrite /Do. destruct (meta_closed _); [by right|].
  destruct (m p) as [[a|e|] p'] eqn:Hm; [left; by eexists _, _|right..]; simpl.
  all: destruct Hu as [Hu| ->]; [|done]; specialize (Hu p); rewrite Hm in Hu; by destruct shared.
Qed.

(** ** The fence *)

Lemma update_txs_none P f m :
  (∀ id r, transactions m !! id = Some r → P id r = false) → (update_txs P f m).1 = Ret 0.
Proof.
  intros HP. rewrite /update_txs /=. do 2 f_equal. match goal with |- Z.of_nat (size ?f) = _ => assert (f = ∅) as -> end.
  { apply map_empty. intros id. apply map_lookup_filter_None. right. intros r Hr.
    simpl. by rewrite (HP id r Hr). }
  by rewrite map_size_empty.
Qed.

Lemma UpdateStatus_Ret now id st ex m m' row :
  ex ≠ [] → transactions m !! id = Some row → UpdateStatus now id st ex m = (Ret (), m') →
  known_txs m' = known_txs m ∧ transactions m' !! id = Some (to_tx_status now st row).
Proof.
  intros Hex Hrow. rewrite /UpdateStatus. set (P := λ (i : Z) (r : TableTransaction), _).
  destruct (P id row) eqn:HP; last first.
  { pose proof (update_txs_none P (to_tx_status now st) m) as Hn. cbv [mbind M_bind].
    destruct (update_txs P _ m) as [o m1]. simpl in Hn. rewrite Hn.
    - by destruct ex.
    - intros i r Hr. revert HP. rewrite /P. destruct (Z.eqb_spec i id) as [->|]; [|done].
      rewrite Z.eqb_refl. rewrite Hrow in Hr. by injection Hr as <-. }
  cbv [mbind M_bind update_txs applyStatusUpdate]. case_match; [done|]. intros [= <-].
  split; [done|]. simpl. by rewrite map_lookup_imap Hrow /= -/(P id row) HP.
Qed.

(** The displayed id of a row decodes to the stored one ... *)
Lemma abortTxID_enc row raw : tx_TxID row = Some raw → encTxID (abortTxID row) = Ret raw.
Proof. rewrite /abortTxID => ->. apply KnownTxProps.encTxID_dec. Qed.

(** ... and it is empty only for a transaction without an id. *)
Lemma abortTxID_empty row raw : abortTxID row = "" → tx_TxID row = Some raw → raw = "".
Proof. intros Hid Hraw%abortTxID_enc. rewrite Hid in Hraw. by injection Hraw. Qed.

Lemma known_eq {A} (m : K A) m0 :
  known m m0 = (mapErr id (m (known_txs m0)).1, with_known (m (known_txs m0)).2 m0).
Proof. rewrite /known /zoom. by destruct (m (known_txs m0)). Qed.

Lemma fenceAborted_Ret txRow p p' :
  transactions (p_meta p) !! txRow.1 = Some txRow.2 →
  fenceAborted clk txRow (abortTxID txRow.2) p = (Ret (), p') →
  p_utxo p' = p_utxo p ∧ aborted_as txRow (p_meta p').
Proof.
  intros Hrow. rewrite /fenceAborted. set (txid := abortTxID txRow.2).
  cbv [mbind M_bind try_]. rewrite meta_call_eq.
  destruct (UpdateStatus _ _ _ _ _) as [[[]|e|] m1] eqn:Hup; [|done|done]. cbn [mapErr fst snd].
  apply (UpdateStatus_Ret _ _ _ _ _ _ txRow.2) in Hup as [Hk Ht]; [|done|done].
  case_decide as Htx.
  { intros [= <-]. split; [done|]. eexists. split_and!; [done|done|done|done|]. split; [done|].
    intros raw k Hraw Hne. by apply abortTxID_empty in Hraw. }
  rewrite meta_call_eq known_eq /=. set (now := clk _).
  destruct (TransitionToAborted now txid (known_txs m1)) as [[[]|e|] t] eqn:Hab; simpl; [| |done].
  - rewrite meta_call_eq /=. intros [= <-]. split; [done|]. eexists. split_and!; [done|done|done|done|].
    split; [done|]. intros raw k Hraw%abortTxID_enc _ Hl.
    pose proof (KnownTxProps.take_wins KnownTxProps.Abort now _ _ _ _ Hraw Hab) as Hst.
    rewrite /KnownTxProps.at_status Hl in Hst. by injection Hst.
  - destruct e; simpl; try done. rewrite meta_call_eq /=. intros [= <-]. split; [done|].
    eexists. split_and!; [done|done|done|done|]. split; [done|]. intros raw k Hraw%abortTxID_enc _ Hl.
    destruct (KnownTxProps.abort_not_found _ _ _ _ _ Hraw Hab) as [-> Hn]. by rewrite Hn in Hl.
Qed.

(** ** What the rest of an abort does to the metadata *)

Definition same_ledger (m m' : Meta) : Prop :=
  known_txs m' = known_txs m ∧ transactions m' = transactions m.
#[local] Instance same_ledger_preorder : PreOrder same_ledger.
Proof. split; [done|]. intros m1 m2 m3 [? ?] [? ?]. split; congruence. Qed.

Lemma aborted_as_same m m' txRow : same_ledger m m' → aborted_as txRow m → aborted_as txRow m'.
Proof.
  intros [Hk Ht] (row&?&?&?&?&Hs&Hf). exists row. rewrite Ht. split_and!; try done.
  split; [done|]. intros raw k. rewrite Hk. apply Hf.
Qed.

Lemma reads_FindOutputs args : reads (FindOutputs args).
Proof. intros m. rewrite /FindOutputs. cbv [mbind M_bind lift gets]. by case_match. Qed.

Lemma pure_changeOutpoints userID id txid : pure_ (changeOutpoints userID id txid).
Proof.
  apply pure_bind; [apply pure_read, reads_FindOutputs|]. intros rows.
  repeat (case_match; try apply pure_ret; try apply pure_throw).
Qed.

Lemma pure_abort_ops userID txRow : pure_ (abort_ops userID txRow).
Proof.
  rewrite /abort_ops. case_decide; [apply pure_ret|].
  apply pure_bind; [apply pure_changeOutpoints|]. intros [|op ops]; [apply pure_ret|].
  apply pure_bind; [apply pure_lift|]. intros. apply pure_ret.
Qed.

Lemma enqueue_all_ledger es : steps (on_meta same_ledger) (enqueue_all clk es).
Proof.
  induction es as [|e es IH]; simpl; [apply steps_ret|]. apply steps_bind; [|done].
  by apply msteps_call; [apply _|].
Qed.
Lemma enqueue_all_utxo es : steps (on_utxo eq) (enqueue_all clk es).
Proof.
  induction es as [|e es IH]; simpl; [apply steps_ret|]. apply steps_bind; [|done].
  by apply usteps_call, _.
Qed.

Definition abort_op (e : OutboxEntry) : Prop :=
  match e_Payload e with
  | abortReleasePayload _ _ | abortRemoveChangePayload _ _ => True
  | _ => False
  end.

Lemma doAbortRelease_meta uid tok : steps (on_meta eq) (doAbortRelease uid tok).
Proof.
  rewrite /doAbortRelease. do 2 (apply steps_bind; [apply msteps_utxo, _|intros _]). apply steps_ret.
Qed.
Lemma doAbortRemoveChange_meta mint ops : steps (on_meta eq) (doAbortRemoveChange mint ops).
Proof.
  rewrite /doAbortRemoveChange. case_match; [apply steps_ret|]. case_match; [|apply steps_throw].
  apply steps_bind; [apply msteps_utxo, _|intros]. apply steps_ret.
Qed.
Lemma executeOutboxOp_meta e : abort_op e → steps (on_meta eq) (executeOutboxOp clk e).
Proof.
  rewrite /abort_op /executeOutboxOp. destruct (e_Payload e); try done; intros _;
    (case_decide; [|apply steps_throw]).
  - apply steps_bind; [apply doAbortRelease_meta|]. intros. apply steps_ret.
  - apply steps_bind; [apply steps_lift|intros ops].
    apply steps_bind; [apply doAbortRemoveChange_meta|]. intros. apply steps_ret.
Qed.
Lemma execute_inline_ledger es :
  Forall abort_op es → steps (on_meta same_ledger) (execute_inline clk errText es).
Proof.
  induction 1 as [|e es He _ IH]; simpl; [apply steps_ret|].
  apply steps_bind; [|intros [x|c]].
  - apply steps_try. intros p. by rewrite /on_meta (executeOutboxOp_meta _ He p).
  - apply steps_bind; [by apply msteps_read|done].
  - apply steps_bind; [by apply msteps_read|intros _].
    apply steps_bind; [done|]. intros. apply steps_ret.
Qed.

(** ** Which coins an abort may change *)

(** Only coins held under the reservation, and free coins the transaction [h] minted. *)
Definition touches (userID : Z) (tok : string) (h : option Hash) (s s' : MemStore.Store) : Prop :=
  ∀ op, coin s' op = coin s op ∨
        (∃ u, coin s op = Some u ∧ held userID tok u) ∨
        (∃ u, coin s op = Some u ∧ free u ∧ h = Some (TxID op)).
#[local] Instance touches_preorder userID tok h : PreOrder (touches userID tok h).
Proof.
  split; [by left|]. intros s1 s2 s3 H12 H23 op. destruct (H12 op) as [<-|?]; [apply H23|by right].
Qed.

Definition abort_call (userID : Z) (tok : string) (h : option Hash) (c : call) : Prop :=
  match c with
  | CUnpin u t | CReleaseReservation u t => u = userID ∧ t = tok
  | CRemoveByMintTx w _ => h = Some w
  | _ => False
  end.

Lemma exec_evolves c s op : evolves c op (coin s op) (coin (exec c s) op).
Proof. apply exec_coin_rel. Qed.

Lemma touches_call userID tok h c s : abort_call userID tok h c → touches userID tok h s (exec c s).
Proof.
  intros Hc op. destruct (exec_evolves c s op) as [|o o1 o2 Hstep _]; [by left|]. right.
  destruct c; simpl in Hc; try done; destruct_and?; subst; inversion Hstep; simplify_eq/=; eauto.
Qed.
Lemma touches_run userID tok h cs s :
  Forall (abort_call userID tok h) cs → touches userID tok h s (run cs s).
Proof.
  intros Hcs. revert s. induction Hcs as [|c cs Hc _ IH]; intros s; [reflexivity|].
  etrans; [by apply touches_call|apply IH].
Qed.

(** The operations an abort enqueues, and the calls they stand for. *)
Definition hash_of (row : TableTransaction) : option Hash := NewHashFromHex (abortTxID row).

Lemma abort_ops_Ret userID txRow p ops p' :
  abort_ops userID txRow p = (Ret ops, p') →
  Forall abort_op ops ∧ Forall well_typed ops ∧
  Forall (abort_call userID (tx_Reference txRow.2) (hash_of txRow.2)) (ops ≫= entry_calls).
Proof.
  assert (∀ key, Forall (abort_call userID (tx_Reference txRow.2) (hash_of txRow.2))
    (entry_calls (abort_entry key opAbortRelease (abortReleasePayload userID (tx_Reference txRow.2)))))
    as Hrel by (intros; repeat constructor).
  rewrite /abort_ops. case_decide.
  { intros [= <- <-]. split_and!; [by repeat constructor..|]. apply (Hrel ""). }
  cbv [mbind M_bind lift]. destruct (changeOutpoints userID txRow.1 _ p) as [[change|e|] p1]; [|done..].
  destruct change as [|op change].
  { intros [= <- <-]. split_and!; [by repeat constructor..|]. apply (Hrel ""). }
  destruct (encodeTxidToRaw _) as [raw|e|]; [|done..]. intros [= <- <-].
  split_and!; [by repeat constructor..|]. apply Forall_app_2; [apply (Hrel "")|].
  apply Forall_app_2; [|constructor].
  rewrite /entry_calls /= /on_hash /on_ops /hash_of. destruct (NewHashFromHex _); [|constructor].
  destruct (decodeOutpoints _) as [[]|?|]; repeat constructor.
Qed.

(** ** The phases *)

Lemma select_txs_elem P cmp m row :
  row ∈ select_txs P cmp m → transactions m !! row.1 = Some row.2 ∧ P row.1 row.2 = true.
Proof.
  destruct row as [id r]. rewrite /select_txs SortFunc_perm list_elem_of_filter elem_of_map_to_list. tauto.
Qed.
Lemma head_elem {A} (l : list A) x : head l = Some x → x ∈ l.
Proof. destruct l; simpl; [done|]. intros [= ->]. left. Qed.

(** A row a user's lookup returned is in the table and is the user's. *)
Lemma user_row P cmp (userID : Z) m row :
  head (select_txs (λ id r, (tx_UserID r =? userID) && P id r) cmp m) = Some row →
  transactions m !! row.1 = Some row.2 ∧ tx_UserID row.2 = userID.
Proof. intros [? [?%Z.eqb_eq _]%andb_true_iff]%head_elem%select_txs_elem. done. Qed.

Lemma abort_target_Ret userID reference p txRow p' :
  abort_target userID reference p = (Ret txRow, p') →
  p_meta p' = p_meta p ∧ p_utxo p' = p_utxo p ∧
  transactions (p_meta p) !! txRow.1 = Some txRow.2 ∧ tx_UserID txRow.2 = userID.
Proof.
  rewrite /abort_target. cbv [mbind M_bind meta_read zoom FindByReference Transactions_FindByTxID gets mret M_ret lift].
  destruct (head (select_txs _ by_id (p_meta p))) as [row|] eqn:Hh; simpl.
  - apply user_row in Hh. repeat (case_match; try done). intros [= <- <-]. by destruct p.
  - destruct (_ =? 64)%nat; [|done]. destruct (encTxID reference) as [raw|e|]; [|done..]. simpl.
    destruct (head (select_txs _ by_id_desc (p_meta p))) as [row|] eqn:Hh'; [|discriminate].
    apply user_row in Hh'. repeat (case_match; try discriminate). intros [= <- <-]. by destruct p.
Qed.

Lemma pure_abort_target userID reference : pure_ (abort_target userID reference).
Proof.
  apply pure_bind; [by apply pure_read|]. intros found. apply pure_bind.
  - repeat (case_match; try apply pure_ret). apply pure_bind; [apply pure_read, reads_enc|].
    intros. apply pure_ret.
  - intros. repeat (case_match; try apply pure_ret; try apply pure_throw).
Qed.

Lemma abort_phase1_Ret userID txRow p ops p1 :
  transactions (p_meta p) !! txRow.1 = Some txRow.2 →
  abort_phase1 clk shared userID txRow p = (Ret ops, p1) →
  p_utxo p1 = p_utxo p ∧
  (Forall abort_op ops ∧ Forall well_typed ops ∧
   Forall (abort_call userID (tx_Reference txRow.2) (hash_of txRow.2)) (ops ≫= entry_calls)) ∧
  aborted_as txRow (p_meta p1).
Proof.
  intros Hrow Hp%Do_Ret. revert Hp. cbv [mbind M_bind].
  destruct (fenceAborted _ _ _ p) as [[[]|e|] p2] eqn:Hf; [|done..].
  apply fenceAborted_Ret in Hf as (Hu&Hfen); [|done].
  pose proof (pure_abort_ops userID txRow p2) as (Hm3&Hu3&_).
  destruct (abort_ops userID txRow p2) as [[ops'|e|] p3] eqn:Ho; [|done..]. simpl in *.
  apply abort_ops_Ret in Ho. pose proof (enqueue_all_ledger ops' p3) as [Hk Ht].
  pose proof (enqueue_all_utxo ops' p3) as Hu4. rewrite /on_utxo in Hu4.
  destruct (enqueue_all clk ops' p3) as [[[]|e|] p4]; [|done..]. intros [= <- <-]. simpl in *.
  split; [congruence|]. split; [done|]. eapply aborted_as_same; [|exact Hfen]. split; congruence.
Qed.

(** Everything after the fence, with one database. *)
Lemma abortDirect_Ret userID txRow p p' :
  transactions (p_meta p) !! txRow.1 = Some txRow.2 →
  abortDirect clk shared userID txRow p = (Ret (), p') →
  touches userID (tx_Reference txRow.2) (hash_of txRow.2) (p_utxo p) (p_utxo p') ∧
  aborted_as txRow (p_meta p').
Proof.
  intros Hrow Hp%Do_Ret. revert Hp. cbv [mbind M_bind].
  destruct (fenceAborted _ _ _ p) as [[[]|e|] p2] eqn:Hf; [|done..].
  apply fenceAborted_Ret in Hf as (Hu&Hfen); [|done].
  pose proof (doAbortRelease_meta userID (tx_Reference txRow.2) p2) as Hm3.
  pose proof (doAbortRelease_calls userID (tx_Reference txRow.2) p2) as Hu3.
  destruct (doAbortRelease _ _ p2) as [[[]|e|] p3]; [|done..]. rewrite /on_meta /= in Hm3. cbn [snd] in Hu3.
  assert (touches userID (tx_Reference txRow.2) (hash_of txRow.2) (p_utxo p) (p_utxo p3)) as Ht.
  { rewrite Hu3 -Hu. apply touches_run. by repeat constructor. }
  case_decide.
  { intros [= <-]. by rewrite -Hm3. }
  pose proof (pure_changeOutpoints userID txRow.1 (abortTxID txRow.2) p3) as (Hm4&Hu4&_).
  destruct (changeOutpoints _ _ _ p3) as [[ops|e|] p4]; [|done..]. simpl in *.
  intros Hrem. pose proof (doAbortRemoveChange_meta (abortTxID txRow.2) ops p4) as Hm5.
  rewrite Hrem /on_meta /= in Hm5. split.
  - etrans; [exact Ht|]. rewrite -Hu4. revert Hrem. rewrite /doAbortRemoveChange.
    destruct ops; [by intros [= <-]|]. destruct (NewHashFromHex _) as [h|] eqn:Hh; [|done].
    intros Hrem%(f_equal (λ x, p_utxo x.2)). rewrite bind_ret_utxo utxo_call_utxo /= in Hrem.
    rewrite -Hrem. apply (touches_call _ _ _ (CRemoveByMintTx h _)). done.
  - by rewrite -Hm5 Hm4 -Hm3.
Qed.

Lemma abortViaOutbox_ledger userID txRow p ops p1 :
  abort_phase1 clk shared userID txRow p = (Ret ops, p1) → Forall abort_op ops → Forall well_typed ops →
  let p' := (abortViaOutbox clk shared errText userID txRow p).2 in
  same_ledger (p_meta p1) (p_meta p') ∧
  (p_utxo p' = p_utxo p1 ∨ p_utxo p' = run (ops ≫= entry_calls) (p_utxo p1)).
Proof.
  intros Hp1 Hop Hty. rewrite /abortViaOutbox. cbv [mbind M_bind]. rewrite Hp1. split.
  - apply (steps_best_effort (R := on_meta same_ledger)), steps_Do, execute_inline_ledger, Hop.
  - rewrite -(execute_inline_calls clk errText ops p1 Hty) /best_effort /try_ /Do.
    cbv [mbind M_bind]. destruct (meta_closed _); [by left|].
    destruct (execute_inline _ _ _ _) as [[] ?]; simpl; [by right|..]; destruct shared; eauto.
Qed.

Lemma fenceAborted_utxo txRow txid : steps (on_utxo eq) (fenceAborted clk txRow txid).
Proof.
  apply steps_bind; [apply steps_try, usteps_call, _|]. intros [e|_]; [apply steps_throw|].
  case_decide; [apply steps_ret|]. apply steps_bind; [apply steps_try, usteps_call, _|].
  intros [e|_]; [|apply usteps_call, _].
  repeat (case_match; try apply steps_throw); apply usteps_call, _.
Qed.

(** Each unit of work commits, or leaves everything as it was. *)
Lemma abortDirect_cases userID txRow p :
  shared = true →
  (∃ p', abortDirect clk shared userID txRow p = (Ret (), p')) ∨
  p_meta (abortDirect clk shared userID txRow p).2 = p_meta p ∧
  p_utxo (abortDirect clk shared userID txRow p).2 = p_utxo p.
Proof.
  intros Hs. rewrite /abortDirect.
  match goal with |- context [Do shared ?m p] => destruct (Do_failed m p (or_intror Hs)) as [([]&p'&Hd)|?] end.
  - left. by exists p'.
  - by right.
Qed.
Lemma abort_phase1_cases userID txRow p :
  (∃ ops p', abort_phase1 clk shared userID txRow p = (Ret ops, p')) ∨
  p_meta (abortViaOutbox clk shared errText userID txRow p).2 = p_meta p ∧
  p_utxo (abortViaOutbox clk shared errText userID txRow p).2 = p_utxo p.
Proof.
  rewrite /abortViaOutbox /abort_phase1. cbv [mbind M_bind].
  match goal with |- context [Do shared ?m p] =>
    destruct (Do_failed m p) as [(ops&p'&Hd)|Hu] end.
  - left. apply (steps_bind (R := on_utxo eq)); [apply fenceAborted_utxo|intros _].
    apply (steps_bind (R := on_utxo eq)); [apply pure_steps, pure_abort_ops|intros ops].
    apply (steps_bind (R := on_utxo eq)); [apply enqueue_all_utxo|]. intros. apply steps_ret.
  - left. by eexists _, _.
  - match goal with |- context [Do shared ?m p] => destruct (Do shared m p) as [[ops|e|] p'] end;
      [left; by eexists _, _|by right..].
Qed.

(** An abort of a row leaves everything alone, or has fenced the row. *)
Lemma abortTxRow_leaves userID txRow p :
  transactions (p_meta p) !! txRow.1 = Some txRow.2 →
  let p' := (abortTxRow clk shared errText userID txRow p).2 in
  p_meta p' = p_meta p ∧ p_utxo p' = p_utxo p ∨
  aborted_as txRow (p_meta p') ∧ touches userID (tx_Reference txRow.2) (hash_of txRow.2) (p_utxo p) (p_utxo p').
Proof.
  intros Hrow. rewrite /abortTxRow. destruct shared eqn:Hs; rewrite -?Hs.
  - destruct (abortDirect_cases userID txRow p Hs) as [[p1 Hd]|Hd]; [right|by left].
    apply abortDirect_Ret in Hd as Hd'; [|done]. rewrite Hd /=. split; apply Hd'.
  - destruct (abort_phase1_cases userID txRow p) as [(ops&p1&Hp1)|Hq]; [right|by left].
    pose proof (abort_phase1_Ret _ _ _ _ _ Hrow Hp1) as (Hu1&(Hop&Hty&Hcs)&Hab).
    destruct (abortViaOutbox_ledger _ _ _ _ _ Hp1 Hop Hty) as [Hl Hc].
    split; [by eapply aborted_as_same|]. rewrite -Hu1. destruct Hc as [->| ->]; [done|by apply touches_run].
Qed.

(** ** Theorems *)

(** C20: coins are given back only for a transaction that can no longer be broadcast.
    Whatever an abort leaves behind (its end, with a result or an error; nothing,
    when the first transaction is lost; or a crash after any number of the
    coin-store calls that follow it), either the coin store is as it was, or the
    caller's transaction row is aborted and its raw transaction, if stored, is fenced
    at aborted; and the coins that changed are those held under the transaction's
    reference and free ones it had minted. *)
Theorem abort_never_frees_live userID reference p p' :
  abort_leaves userID reference p p' →
  p_utxo p' = p_utxo p ∨
  ∃ id row, transactions (p_meta p') !! id = Some row ∧ tx_UserID row = userID ∧
    fenced (p_meta p') row ∧
    touches userID (tx_Reference row) (hash_of row) (p_utxo p) (p_utxo p').
Proof.
  assert (Hend : ∀ txRow p', tx_UserID txRow.2 = userID → aborted_as txRow (p_meta p') →
    touches userID (tx_Reference txRow.2) (hash_of txRow.2) (p_utxo p) (p_utxo p') →
    ∃ id row, transactions (p_meta p') !! id = Some row ∧ tx_UserID row = userID ∧
      fenced (p_meta p') row ∧ touches userID (tx_Reference row) (hash_of row) (p_utxo p) (p_utxo p')).
  { intros txRow q <- (row&?&?&Href&Htx&?) Ht. exists txRow.1, row.
    by rewrite /hash_of /abortTxID Href Htx. }
  intros [|n|txRow ops p1 k n Hmode Ht Hp1]; [|by left|].
  - rewrite /AbortAction. cbv [mbind M_bind].
    pose proof (pure_abort_target userID reference p) as (_&Hu0&_).
    destruct (abort_target userID reference p) as [[txRow|e|] p0] eqn:Ht; [|by left..].
    apply abort_target_Ret in Ht as (Hm&Hu&Hrow&Huser). rewrite -Hm in Hrow.
    destruct (abortTxRow_leaves userID txRow p0 Hrow) as [[_ Hq]|[Hab Ht]]; [left; by rewrite Hq|right].
    apply (Hend txRow); [done|done|]. by rewrite -Hu.
  - destruct (abort_target userID reference p) as [o p0] eqn:Ht'. simpl in Ht. subst o.
    apply abort_target_Ret in Ht' as (_&_&Hrow&Huser).
    apply abort_phase1_Ret in Hp1 as (Hu&(_&_&Hcs)&Hab); [|done]. right.
    apply (Hend txRow); [done|done|]. simpl. rewrite -Hu. apply touches_run. by apply Forall_take.
Qed.
End abort.
End AbortProps.
