(* ===== verification/AbortRecovery.v ===== *)
(** * AbortRecovery: the outbox finishes the abort a crash interrupted

    With separate stores an abort commits its fence and its operations, and then runs
    the operations on the coin store.  A crash may come between any two coin-store
    calls; the next drain replays the operations from the start.  The theorem says
    that this ends in exactly the state of an abort that was never interrupted. *)
From Stdlib Require Import Ascii String.
From S2P Require Import Prelude UtxoTypes MemStore StoreContract StoreReplay Statuses GoStrings KnownTx KnownTxProps Ledger StatusUpdates StatusUpdatesProps Abort ProviderLogic.
From S2P Require Import OutboxProps AbortProps.
Import WdkStatus ArcadeStatus KnownTxRepo Outbox Ledger StatusUpdates ReleaseOps Abort.
Import ProviderLogic OutboxProps StoreContract AbortProps.
Local Open Scope string_scope.
Local Open Scope Z_scope.

Module AbortRecovery.

(** ** The coin store *)

(** No coin is held under the reservation. *)
Definition freed (uid : Z) (tok : string) (s : MemStore.Store) : Prop :=
  ∀ op u, coin s op = Some u → ¬ held uid tok u.

Lemma update_where_none (P : MemStore.row → bool) f (m : gmap Outpoint MemStore.row) :
  (∀ op r, m !! op = Some r → P r = false) → (update_where P f m).1 = m.
Proof.
  intros HP. apply map_eq. intros op. rewrite lookup_update_where.
  destruct (m !! op) as [r|] eqn:Hr; simpl; [by rewrite (HP _ _ Hr)|done].
Qed.

Section recovery.
Context `{MapRange, Sdk}.
Context (clk : nat → Time) (shared : bool) (errText : perror → string).

Lemma freed_rows uid tok s op r : freed uid tok s → MemStore.rows s !! op = Some r → MemStore.heldBy uid tok r = false.
Proof.
  intros Hs Hr. rewrite /MemStore.heldBy. apply bool_decide_eq_false_2. apply (Hs op). by rewrite /coin Hr.
Qed.

(** Giving back what is not held changes nothing. *)
Lemma freed_unpin uid tok s : freed uid tok s → exec (CUnpin uid tok) s = s.
Proof.
  intros Hs. rewrite /= /MemStore.Unpin /MemStore.setPinned snd_guard_open snd_guard_valid.
  destruct (MemStore.closed s) eqn:?; [done|]. destruct (ValidateReservation _); [done|].
  match goal with |- context [update_where ?P ?f ?m] =>
    pose proof (update_where_none P f m) as Hn; destruct (update_where P f m) as [m' n] end.
  simpl in *. rewrite Hn; [by destruct s|]. intros op r Hr. by rewrite (freed_rows _ _ _ _ _ Hs Hr).
Qed.
Lemma freed_release uid tok s : freed uid tok s → exec (CReleaseReservation uid tok) s = s.
Proof.
  intros Hs. rewrite /= /MemStore.ReleaseReservation snd_guard_open snd_guard_valid.
  destruct (MemStore.closed s) eqn:?; [done|]. destruct (ValidateReservation _); [done|].
  match goal with |- context [update_where ?P ?f ?m] =>
    pose proof (update_where_none P f m) as Hn; destruct (update_where P f m) as [m' n] end.
  simpl in *. rewrite Hn; [by destruct s|]. intros op r Hr. by rewrite (freed_rows _ _ _ _ _ Hs Hr).
Qed.

(** Unpinning and releasing leaves nothing held. *)
Lemma release_frees uid tok s :
  MemStore.closed s = false → tok ≠ "" →
  freed uid tok (run [CUnpin uid tok; CReleaseReservation uid tok] s).
Proof.
  intros Hc Htok op u. rewrite /run /= /MemStore.Unpin /MemStore.setPinned /MemStore.ReleaseReservation.
  rewrite !snd_guard_open !snd_guard_valid /ValidateReservation decide_False // Hc /= Hc /coin /=.
  rewrite !lookup_update_where. destruct (MemStore.rows s !! op) as [r|]; simpl; [|done].
  rewrite /MemStore.heldBy /held. intros [= <-].
  destruct (u_Pinned (MemStore.r_utxo r)) eqn:Hp; repeat (case_bool_decide; simpl; rewrite ?Hp /=); naive_solver.
Qed.

Lemma freed_remove uid tok w ops s : freed uid tok s → freed uid tok (exec (CRemoveByMintTx w ops) s).
Proof.
  intros Hs op u Hu. pose proof (exec_evolves (CRemoveByMintTx w ops) s op) as He. rewrite Hu in He.
  apply (Hs op). remember (Some u) as o eqn:Ho. induction He as [|o1 o2 o3 Hl _ IH]; [done|].
  specialize (IH Ho Hu). inversion Hl; simplify_eq/=.
Qed.

(** The calls of an abort: give the reservation back, then remove the change, if any. *)
Definition abort_calls (uid : Z) (tok : string) (remove : option (Hash * list Outpoint)) : list call :=
  [CUnpin uid tok; CReleaseReservation uid tok] ++
  match remove with Some (w, ops) => [CRemoveByMintTx w ops] | None => [] end.

Lemma abort_calls_frees uid tok rm s :
  MemStore.closed s = false → tok ≠ "" → freed uid tok (run (abort_calls uid tok rm) s).
Proof.
  intros Hc Htok. rewrite /abort_calls run_app. destruct rm as [[w ops]|]; [|by apply release_frees].
  by apply freed_remove, release_frees.
Qed.

(** Any number of the calls, and then all of them, is all of them. *)
Lemma abort_calls_replay uid tok rm k s :
  MemStore.closed s = false → tok ≠ "" →
  run (abort_calls uid tok rm) (run (take k (abort_calls uid tok rm)) s) = run (abort_calls uid tok rm) s.
Proof.
  intros Hc Htok.
  assert (Hidem : ∀ s', freed uid tok s' → run [CUnpin uid tok; CReleaseReservation uid tok] s' = s').
  { intros s' Hs'. rewrite /run. cbn [foldl]. by rewrite freed_unpin // freed_release. }
  destruct k as [|[|k]]; [done|..].
  - rewrite /abort_calls /run. cbn [take app foldl]. do 2 f_equal. simpl. rewrite /MemStore.Unpin.
    by rewrite StoreReplay.setPinned_replay.
  - pose proof (release_frees uid tok s Hc Htok) as Hf. rewrite /abort_calls. destruct rm as [[w ops]|].
    + destruct k as [|k]; cbn [take app].
      * rewrite (run_app [_; _] [_] (run _ s)) Hidem // -run_app //.
      * rewrite take_nil (run_app [_; _] [_] (run _ s)). set (s3 := run _ s).
        assert (s3 = exec (CRemoveByMintTx w ops) (run [CUnpin uid tok; CReleaseReservation uid tok] s)) as Hs3 by done.
        rewrite Hidem; [|rewrite Hs3; by apply freed_remove].
        rewrite Hs3 /run. cbn [foldl]. apply StoreReplay.RemoveByMintTx_replay.
    + cbn [take app]. by rewrite take_nil Hidem.
Qed.

(** ** Executing the operations *)

(** The row executes without error on an open coin store, and then has made its calls. *)
Definition sound (e : OutboxEntry) : Prop :=
  ∀ q, MemStore.closed (p_utxo q) = false →
    executeOutboxOp clk e q = (Ret 0, with_utxo (run (entry_calls e) (p_utxo q)) q).

Lemma run_open cs s : Forall (λ c, c ≠ CClose) cs → MemStore.closed (run cs s) = MemStore.closed s.
Proof.
  intros Hcs. revert s. induction Hcs as [|c cs Hc _ IH]; intros s; [done|].
  rewrite /run /=. rewrite -/(run cs (exec c s)) IH. by apply StoreReplay.exec_closed.
Qed.
Lemma run_closed e s : MemStore.closed (run (entry_calls e) s) = MemStore.closed s.
Proof.
  apply run_open. rewrite /entry_calls /on_hash /on_ops. repeat case_match; by repeat constructor.
Qed.

Definition key_of (e : OutboxEntry) : Raw * string * Z := (e_TxID e, e_OpType e, e_Chunk e).
Definition dequeued (es : list OutboxEntry) (t : outbox) : outbox := foldl (λ t e, delete (key_of e) t) t es.

(** All rows done: the calls were made and the rows removed. *)
Definition finished (es : list OutboxEntry) (q : Provider) : Provider :=
  mkProvider (with_outbox (dequeued es (utxo_ops_outbox (p_meta q))) (p_meta q))
    (run (es ≫= entry_calls) (p_utxo q)) (p_ticks q).

Lemma finished_cons e es q :
  finished (e :: es) q =
    finished es (mkProvider (with_outbox (delete (key_of e) (utxo_ops_outbox (p_meta q))) (p_meta q))
                   (run (entry_calls e) (p_utxo q)) (p_ticks q)).
Proof. by rewrite /finished /= run_app. Qed.

Lemma drain_sound es rep q :
  Forall sound es → MemStore.closed (p_utxo q) = false →
  drain_entries clk errText es rep q =
    (Ret (mkDrain (dr_Drained rep + Z.of_nat (length es)) (dr_Failed rep) (dr_Parked rep) (dr_ParkedTotal rep)),
     finished es q).
Proof.
  intros Hes. revert rep q. induction Hes as [|e es He _ IH]; intros rep q Hc; simpl.
  { rewrite Z.add_0_r /finished /=. by destruct rep, q as [[]]. }
  cbv [mbind M_bind try_]. rewrite (He q Hc).
  cbv [meta_read on_outbox zoom modify MarkDone mapErr]. rewrite IH.
  - rewrite finished_cons /=. do 3 f_equal. lia.
  - simpl. by rewrite run_closed.
Qed.

Lemma inline_sound es q :
  Forall sound es → MemStore.closed (p_utxo q) = false →
  execute_inline clk errText es q = (Ret 0, finished es q).
Proof.
  intros Hes. revert q. induction Hes as [|e es He _ IH]; intros q Hc; simpl.
  { rewrite /finished /=. by destruct q as [[]]. }
  cbv [mbind M_bind try_]. rewrite (He q Hc).
  cbv [meta_read on_outbox zoom modify MarkDone mapErr]. rewrite IH.
  - by rewrite finished_cons.
  - simpl. by rewrite run_closed.
Qed.

(** ** The rows of an abort *)

(** The operations of an abort: the release, and the removal of the change, if any. *)
Definition plan (t1 t2 : Time) (key : Raw) (uid : Z) (tok : string)
    (rm : option (Raw * string * list Outpoint)) : list OutboxEntry :=
  mkEntry key opAbortRelease 0 (abortReleasePayload uid tok) 0 None t1 ::
  match rm with
  | Some (raw, mint, change) =>
      [mkEntry raw opAbortRemoveChange 0 (abortRemoveChangePayload mint (encodeOutpoints change)) 0 None t2]
  | None => []
  end.
Definition rm_ok (rm : option (Raw * string * list Outpoint)) : Prop :=
  match rm with
  | Some (_, mint, change) => change ≠ [] ∧ ∃ w, NewHashFromHex mint = Some w ∧
      Forall (λ op, TxID op = w ∧ 0 ≤ Vout op < 2 ^ 32) change
  | None => True
  end.

Lemma ValidateMintOutpoints_all w ops : Forall (λ op, TxID op = w) ops → ValidateMintOutpoints w ops = None.
Proof. induction 1 as [|op ops Hop _ IH]; simpl; [done|]. by rewrite Hop Z.eqb_refl. Qed.

Lemma plan_sound `{!SdkHashLaws} t1 t2 key uid tok rm :
  tok ≠ "" → rm_ok rm → Forall sound (plan t1 t2 key uid tok rm).
Proof.
  intros Htok Hrm. constructor.
  - intros q Hc. rewrite /executeOutboxOp /= /doAbortRelease /run /=.
    cbv [mbind M_bind utxo_call zoom MemStore.Unpin MemStore.setPinned MemStore.ReleaseReservation].
    rewrite /MemStore.guard_open /MemStore.guard_valid /ValidateReservation decide_False // Hc /= Hc. by destruct q.
  - destruct rm as [[[raw mint] change]|]; [|constructor]. destruct Hrm as (Hne&w&Hw&Hall).
    constructor; [|constructor]. intros q Hc. rewrite /executeOutboxOp /entry_calls /= /on_hash /on_ops Hw.
    rewrite decode_encodeOutpoints; [|eapply Forall_impl; [exact Hall|]; intros ? [Hx ?]; split; [rewrite Hx; by eapply hash_parsed|done]].
    destruct change as [|op change]; [done|]. cbv [mbind M_bind lift doAbortRemoveChange]. rewrite Hw /run.
    cbv [utxo_call zoom MemStore.RemoveByMintTx]. cbn [foldl exec].
    rewrite /MemStore.RemoveByMintTx /MemStore.guard_open /MemStore.guard_valid Hc ValidateMintOutpoints_all //.
    by eapply Forall_impl; [exact Hall|]; intros ? [? _].
Qed.
(** The calls of the operations. *)
Definition rm_calls (rm : option (Raw * string * list Outpoint)) : option (Hash * list Outpoint) :=
  '(_, mint, change) ← rm; w ← NewHashFromHex mint; Some (w, change).
Lemma plan_calls `{!SdkHashLaws} t1 t2 key uid tok rm :
  rm_ok rm → plan t1 t2 key uid tok rm ≫= entry_calls = abort_calls uid tok (rm_calls rm).
Proof.
  destruct rm as [[[raw mint] change]|]; [|done]. intros (Hne&w&Hw&Hall).
  rewrite /plan /abort_calls /rm_calls /= /entry_calls /= /on_hash /on_ops Hw.
  rewrite decode_encodeOutpoints; [|eapply Forall_impl; [exact Hall|]; intros ? [Hx ?]; split; [rewrite Hx; by eapply hash_parsed|done]].
  by destruct change.
Qed.

(** Output indexes are 32-bit. *)
Definition vouts_ok (m : Meta) : Prop :=
  ∀ id o, outputs m !! id = Some o → 0 ≤ o_Vout o < 2 ^ 32.

Lemma changeOutpoints_ok userID id txid p ops p' :
  vouts_ok (p_meta p) → changeOutpoints userID id txid p = (Ret ops, p') → ops ≠ [] →
  ∃ w, NewHashFromHex txid = Some w ∧ Forall (λ op, TxID op = w ∧ 0 ≤ Vout op < 2 ^ 32) ops.
Proof.
  intros Hv. rewrite /changeOutpoints /FindOutputs. cbv [mbind M_bind meta_read zoom lift gets encTxID_opt].
  simpl. match goal with |- context [select_outputs ?P ?m] => set (rows := select_outputs P m) end.
  assert (Hrows : ∀ r, r ∈ rows → 0 ≤ o_Vout (or_row r) < 2 ^ 32).
  { intros r ([k o]&Hin&Hr)%list_elem_of_omap. rewrite SortFunc_perm in Hin.
    apply elem_of_map_to_list in Hin. repeat case_match; simplify_eq/=. by eapply Hv. }
  destruct rows as [|r rows]; [by intros [= <- <-]|]. destruct (NewHashFromHex txid) as [w|]; [|done].
  match goal with |- mret ?l _ = _ → _ => assert (Hall : Forall (λ op, TxID op = w ∧ 0 ≤ Vout op < 2 ^ 32) l) end.
  { apply Forall_forall. intros op (r'&Hin&Hop)%list_elem_of_omap. case_match; simplify_eq/=.
    split; [done|by apply Hrows]. }
  intros Heq _. exists w. split; [done|]. by injection Heq as <- _.
Qed.

Lemma abort_ops_plan userID txRow p ops p' :
  vouts_ok (p_meta p) → abort_ops userID txRow p = (Ret ops, p') →
  ∃ rm, rm_ok rm ∧
    ops = plan zeroTime zeroTime (abortOutboxKey (tx_Reference txRow.2)) userID (tx_Reference txRow.2) rm.
Proof.
  intros Hv. rewrite /abort_ops. case_decide; [intros [= <- <-]; by exists None|].
  cbv [mbind M_bind lift]. destruct (changeOutpoints userID txRow.1 _ p) as [[change|e|] p1] eqn:Hch; [|done..].
  destruct change as [|op change]; [intros [= <- <-]; by exists None|].
  destruct (encodeTxidToRaw _) as [raw|e|]; [|done..]. intros [= <- <-].
  exists (Some (raw, abortTxID txRow.2, op :: change)). split; [|done]. split; [done|].
  by eapply changeOutpoints_ok.
Qed.

(** What the fence leaves of the rest of the metadata. *)
Definition other_tables (m m' : Meta) : Prop :=
  utxo_ops_outbox m' = utxo_ops_outbox m ∧ meta_closed m' = meta_closed m ∧ (vouts_ok m → vouts_ok m').
#[local] Instance other_tables_preorder : PreOrder other_tables.
Proof. split; [done|]. intros m1 m2 m3 (?&?&?) (?&?&?). split_and!; [congruence|congruence|auto]. Qed.

Lemma other_ClearSpentBy now id m : other_tables m (ClearSpentBy now id m).2.
Proof.
  split_and!; [done|done|]. intros Hv i o. rewrite /= map_lookup_imap.
  destruct (outputs m !! i) as [o'|] eqn:Ho; simpl; [|done]. intros [= <-]. apply Hv in Ho. by case_match.
Qed.
Lemma other_UpdateStatus now id st ex m : other_tables m (UpdateStatus now id st ex m).2.
Proof. rewrite /UpdateStatus. cbv [mbind M_bind update_txs applyStatusUpdate]. by repeat case_match. Qed.
Lemma other_known {A} (k : K A) m : other_tables m (known k m).2.
Proof. by rewrite known_eq. Qed.

Lemma fenceAborted_other txRow txid : steps (on_meta other_tables) (fenceAborted clk txRow txid).
Proof.
  apply steps_bind; [apply steps_try, msteps_call; [apply _|intros; apply other_UpdateStatus]|].
  intros [e|_]; [apply steps_throw|]. case_decide; [apply steps_ret|].
  apply steps_bind; [apply steps_try, msteps_call; [apply _|intros; apply other_known]|].
  intros [e|_]; repeat (case_match; try apply steps_throw); (apply msteps_call; [apply _|intros; apply other_ClearSpentBy]).
Qed.
(** The outbox after phase 1 holds the operations, and nothing else. *)
Definition holds (es : list OutboxEntry) (t : outbox) : Prop :=
  t = list_to_map ((λ e, (key_of e, e)) <$> es).

Lemma enqueue_plan key uid tok rm p :
  utxo_ops_outbox (p_meta p) = ∅ →
  ∃ p', enqueue_all clk (plan zeroTime zeroTime key uid tok rm) p = (Ret (), p') ∧
    meta_closed (p_meta p') = meta_closed (p_meta p) ∧
    holds (plan (clk (p_ticks p)) (clk (S (p_ticks p))) key uid tok rm) (utxo_ops_outbox (p_meta p')).
Proof.
  intros Hempty. rewrite /plan /holds. destruct rm as [[[raw mint] change]|]; cbn [enqueue_all].
  all: cbv [mbind M_bind]; rewrite !meta_call_eq /= Hempty lookup_empty; eexists; (split; [done|]); (split; [done|]); simpl.
  - rewrite lookup_insert_ne; [|done]. rewrite lookup_empty /= insert_insert_ne //.
  - done.
Qed.

Lemma SortFunc_pair {A} (cmp : A → A → comparison) a b l :
  cmp a b ≠ Gt → cmp b a = Gt → l ≡ₚ [a; b] → SortFunc cmp l = [a; b].
Proof.
  intros Hab Hba [-> | ->]%symmetry%Permutation_length_2_inv; rewrite /SortFunc /merge_sort /=.
  all: rewrite /cmp_le; case_decide; naive_solver.
Qed.

(** Older rows first; of two rows of one instant, the release before the removal. *)
Lemma FetchPending_plan t1 t2 key uid tok rm limit t :
  t1 ≤ t2 → 2 ≤ limit → holds (plan t1 t2 key uid tok rm) t →
  FetchPending limit t = (Ret (plan t1 t2 key uid tok rm), t).
Proof.
  intros Ht Hl Hh. rewrite /FetchPending. destruct (Z.leb_spec limit 0); [lia|]. rewrite /gets. do 2 f_equal.
  assert (Hp : range_map t ≡ₚ (λ e, (key_of e, e)) <$> plan t1 t2 key uid tok rm).
  { rewrite range_map_perm Hh. apply map_to_list_to_map. rewrite /plan.
    destruct rm as [[[raw mint] change]|]; simpl; repeat constructor; set_solver. }
  assert (Hq : filter (λ e, pending e = true) (snd <$> range_map t) ≡ₚ plan t1 t2 key uid tok rm).
  { rewrite Hp -list_fmap_compose list_fmap_id. rewrite /plan. by destruct rm as [[[raw mint] change]|]. }
  set (l := filter _ _) in *. clearbody l. clear Hp Hh t. revert Hq. rewrite /plan.
  destruct rm as [[[raw mint] change]|].
  - intros Hq. rewrite (SortFunc_pair _ _ _ _ _ _ Hq).
    + rewrite /slice_to /= firstn_all2 //=. lia.
    + rewrite /by_age /=. destruct (Z.compare_spec t1 t2) as [->| |]; [done|done|lia].
    + rewrite /by_age /=. destruct (Z.compare_spec t2 t1) as [->| |]; [done|lia|done].
  - intros ->%symmetry%Permutation_length_1_inv. rewrite /slice_to /= firstn_all2 //=. lia.
Qed.

Lemma dequeued_plan t1 t2 t1' t2' key uid tok rm t :
  holds (plan t1 t2 key uid tok rm) t → dequeued (plan t1' t2' key uid tok rm) t = ∅.
Proof.
  intros ->. rewrite /dequeued /plan. destruct rm as [[[raw mint] change]|]; simpl.
  - apply map_empty. intros i. rewrite /key_of /=.
    destruct (decide (i = (raw, opAbortRemoveChange, 0))) as [->|]; [by simplify_map_eq|].
    destruct (decide (i = (key, opAbortRelease, 0))) as [->|]; by simplify_map_eq.
  - by rewrite /key_of /= delete_insert_eq delete_empty.
Qed.

Lemma abort_phase1_plan userID txRow p ops p1 :
  (∀ i, clk i ≤ clk (S i)) → vouts_ok (p_meta p) → utxo_ops_outbox (p_meta p) = ∅ →
  abort_phase1 clk shared userID txRow p = (Ret ops, p1) →
  ∃ t1 t2 key rm, t1 ≤ t2 ∧ rm_ok rm ∧
    ops = plan zeroTime zeroTime key userID (tx_Reference txRow.2) rm ∧
    holds (plan t1 t2 key userID (tx_Reference txRow.2) rm) (utxo_ops_outbox (p_meta p1)) ∧
    meta_closed (p_meta p1) = false ∧ p_utxo p1 = p_utxo p.
Proof.
  intros Hclk Hv Hempty Hp. assert (Hopen : meta_closed (p_meta p) = false).
  { revert Hp. rewrite /abort_phase1 /Do. by destruct (meta_closed _). }
  apply Do_Ret in Hp. revert Hp. cbv [mbind M_bind].
  pose proof (fenceAborted_other txRow (abortTxID txRow.2) p) as (Ho2&Hc2&Hv2).
  pose proof (fenceAborted_utxo clk txRow (abortTxID txRow.2) p) as Hu2.
  destruct (fenceAborted _ _ _ p) as [[[]|e|] p2]; [|done..]. rewrite /on_utxo /= in Ho2 Hc2 Hv2 Hu2.
  pose proof (pure_abort_ops userID txRow p2) as (Hm3&Hu3&_).
  destruct (abort_ops userID txRow p2) as [[ops'|e|] p3] eqn:Ho; [|done..]. simpl in *.
  apply abort_ops_plan in Ho as (rm&Hrm&->); [|auto].
  destruct (enqueue_plan (abortOutboxKey (tx_Reference txRow.2)) userID (tx_Reference txRow.2) rm p3)
    as (p4&He&Hc4&Hh); [congruence|].
  pose proof (enqueue_all_utxo clk (plan zeroTime zeroTime (abortOutboxKey (tx_Reference txRow.2)) userID
    (tx_Reference txRow.2) rm) p3) as Hu4.
  rewrite He in Hu4 |- *. intros [= <- <-]. rewrite /on_utxo /= in Hu4.
  eexists _, _, _, rm. split_and!; [apply (Hclk (p_ticks p3))|done|done|done|congruence|congruence].
Qed.

(** ** Theorem *)

(** C23: a crash does not lose an abort.  Once the first transaction of an abort is
    committed to an outbox that was empty, let the process stop after any number of the coin-store calls that
    follow it.  The next drain of the outbox, with any batch limit that takes both
    rows, succeeds, and brings the metadata and the coin store into exactly the state
    that the uninterrupted abort would have left: the outbox is empty, nothing failed,
    and no coin is held under the transaction's reference any more. *)
Theorem abort_crash_recovers `{!SdkHashLaws} userID txRow p ops p1 k n limit :
  (∀ i, clk i ≤ clk (S i)) → vouts_ok (p_meta p) → tx_Reference txRow.2 ≠ "" →
  utxo_ops_outbox (p_meta p) = ∅ → MemStore.closed (p_utxo p) = false →
  limit ≤ 0 ∨ 2 ≤ limit →
  abort_phase1 clk shared userID txRow p = (Ret ops, p1) →
  let crashed := mkProvider (p_meta p1) (run (take k (ops ≫= entry_calls)) (p_utxo p1)) n in
  let whole := (abortViaOutbox clk shared errText userID txRow p).2 in
  ∃ rep p', DrainOutbox clk shared errText limit crashed = (Ret rep, p') ∧
    p_meta p' = p_meta whole ∧ p_utxo p' = p_utxo whole ∧
    utxo_ops_outbox (p_meta p') = ∅ ∧ dr_Failed rep = 0 ∧
    freed userID (tx_Reference txRow.2) (p_utxo p').
Proof.
  intros Hclk Hv Htok Hempty Hc Hl Hp1. set (tok := tx_Reference txRow.2) in *.
  destruct (abort_phase1_plan _ _ _ _ _ Hclk Hv Hempty Hp1) as (t1&t2&key&rm&Ht&Hrm&Hops&Hh&Hopen&Hu).
  pose proof (plan_sound t1 t2 key userID tok rm Htok Hrm) as Hs.
  pose proof (plan_sound zeroTime zeroTime key userID tok rm Htok Hrm) as Hs0.
  rewrite Hops plan_calls // Hu. intros crashed whole.
  assert (Hclosed : MemStore.closed (p_utxo crashed) = false).
  { rewrite /= run_open; [done|]. apply Forall_take. rewrite /abort_calls.
    destruct (rm_calls rm) as [[]|]; by repeat constructor. }
  assert (Hwhole : whole = finished ops p1).
  { rewrite /whole /abortViaOutbox. cbv [mbind M_bind]. rewrite Hp1 /best_effort /try_ /Do.
    cbv [mbind M_bind]. rewrite Hopen inline_sound ?Hu // Hops //. }
  eexists _, (finished (plan t1 t2 key userID tok rm) crashed). split; [|split_and!].
  - rewrite /DrainOutbox /Do Hopen. cbv [mbind M_bind meta_read on_outbox zoom].
    erewrite FetchPending_plan; [|exact Ht| |exact Hh]; last first.
    { destruct Hl; case_match; rewrite ?/defaultMonitorBatchLimit; lia. }
    cbn [mapErr]. erewrite drain_sound; [|exact Hs|exact Hclosed]. 
    apply pair_eq. split; [reflexivity|]. rewrite /finished /=. by destruct (p_meta p1).
  - rewrite Hwhole Hops /finished. cbn [p_meta]. change (p_meta crashed) with (p_meta p1).
    by rewrite !(dequeued_plan _ _ _ _ _ _ _ _ _ Hh).
  - rewrite Hwhole Hops /finished. cbn [p_utxo]. rewrite !plan_calls // Hu. by apply abort_calls_replay.
  - rewrite /finished. cbn [p_meta utxo_ops_outbox with_outbox]. by rewrite (dequeued_plan _ _ _ _ _ _ _ _ _ Hh).
  - done.
  - rewrite /finished. cbn [p_utxo]. rewrite plan_calls //. by apply abort_calls_frees.
Qed.
End recovery.
End AbortRecovery.

(** * AbortExample: aborts of a signed transaction that was never sent

    The example SDK obeys the codec laws, and the wallet holds a transaction ab03 that
    was signed but not sent: its input is reserved and pinned under its reference and
    its change is minted. *)
Import WdkStatus ArcadeStatus KnownTxRepo Outbox Ledger StatusUpdates ReleaseOps Abort.
Import OutboxProps StoreContract AbortProps AbortRecovery StatusUpdatesExample.
Local Open Scope string_scope.
Local Open Scope Z_scope.

Module AbortExample.
#[local] Existing Instance sdk0.
#[local] Existing Instance range_canonical.

(** ** The example SDK obeys the codec laws *)

Lemma byte_code z : 0 ≤ z < 256 → Z.of_nat (nat_of_ascii (byte z)) = z.
Proof. intros Hz. rewrite /byte nat_ascii_embedding; lia. Qed.
Lemma code_bound c : 0 ≤ Z.of_nat (nat_of_ascii c) < 256.
Proof. pose proof (nat_ascii_bounded c). lia. Qed.

Lemma Z_of_bytes_app b c : Z_of_bytes (b ++ [c]) = Z_of_bytes b * 256 + Z.of_nat (nat_of_ascii c).
Proof. by rewrite /Z_of_bytes foldl_app. Qed.

Lemma to_bytes_length w h : length (to_bytes w h) = w.
Proof. revert h. induction w as [|w IH]; intros h; simpl; [done|]. rewrite length_app IH /=. lia. Qed.
Lemma to_bytes_value w h : 0 ≤ h < 256 ^ Z.of_nat w → Z_of_bytes (to_bytes w h) = h.
Proof.
  revert h. induction w as [|w IH]; intros h Hh; [by change (256 ^ Z.of_nat 0) with 1 in Hh; simpl; unfold Z_of_bytes; simpl; lia|].
  rewrite Nat2Z.inj_succ Z.pow_succ_r in Hh; [|lia]. simpl.
  rewrite Z_of_bytes_app byte_code; [|apply Z.mod_pos_bound; lia].
  rewrite IH; [pose proof (Z.div_mod h 256); lia|]. split; [apply Z.div_pos; lia|].
  apply Z.div_lt_upper_bound; lia.
Qed.
Lemma Z_of_bytes_bound b : 0 ≤ Z_of_bytes b < 256 ^ Z.of_nat (length b).
Proof.
  induction b as [|c b IH] using rev_ind; [done|]. rewrite Z_of_bytes_app length_app Nat.add_1_r.
  rewrite Nat2Z.inj_succ Z.pow_succ_r; [|lia]. pose proof (code_bound c). lia.
Qed.

Lemma length_list_ascii_of_string s : length (list_ascii_of_string s) = String.length s.
Proof. induction s as [|c s IH]; simpl; by rewrite ?IH. Qed.

Lemma parse_inputs_ok raw ins : parse_inputs raw = Some ins → Forall op_ok (input_ops ins).
Proof.
  revert ins. induction raw as [raw IH] using (induction_ltof1 _ length); unfold ltof in IH.
  destruct raw as [|x [|y [|v raw]]]; [intros ins [= <-]; constructor|done|done|].
  intros ins. cbn [parse_inputs]. destruct (parse_inputs raw) as [l|] eqn:Hp; [|done]. simpl. intros [= <-].
  constructor; [|apply (IH raw); [simpl; lia|done]].
  pose proof (Z_of_bytes_bound [x; y]). pose proof (Z_of_bytes_bound [v]). simpl in *.
  rewrite /op_ok /hash_ok /=. lia.
Qed.

#[local] Instance sdk0_laws : SdkHashLaws.
Proof.
  split.
  - intros s h. simpl. destruct (encTxID s) as [raw|e|]; [|done..].
    destruct (Nat.leb_spec (String.length raw) 32) as [Hl|]; [|done]. intros [= <-].
    pose proof (Z_of_bytes_bound (list_ascii_of_string raw)) as Hb.
    rewrite length_list_ascii_of_string in Hb. split; [lia|]. eapply Z.lt_le_trans; [apply Hb|].
    change (2 ^ 256) with (256 ^ 32). apply Z.pow_le_mono_r; lia.
  - intros h [Hlo Hhi]. simpl. set (w := if _ <? _ then _ else _).
    assert (Hw : 0 ≤ h < 256 ^ Z.of_nat w ∧ (w ≤ 32)%nat).
    { subst w. destruct (Z.ltb_spec h 65536); simpl; lia. }
    rewrite /encTxID list_ascii_of_string_of_list_ascii StatusProps.decode_encode.
    rewrite -length_list_ascii_of_string list_ascii_of_string_of_list_ascii to_bytes_length.
    destruct (Nat.leb_spec w 32); [|lia]. rewrite to_bytes_value; [done|apply Hw].
  - exact parse_inputs_ok.
Qed.
(** ** The wallet *)

(** ab03 (hash 43779) would spend the pinned coin cc02:0; its change is output 0. *)
Definition row_ab03 : KnownTx :=
  mkKnownTx "ab03" ProvenTxStatusNoSend None 0 0 false false None "{}" raw_ab01 [] None [] [] [] []
    None None None 12 12 epoch.
Definition meta1 : Meta :=
  mkMeta (<[key "ab03" := row_ab03]> (known_txs meta0))
    (<[3 := mkTx 7 None TxStatusNoSend "ref3" (Some (key "ab03")) true (-20) "later" None None ["b"%char] 12 12]>
       (transactions meta0))
    (<[2 := mkOutput 7 3 0 800 [] (Some "default") None true "P2PKH" "storage" "change" "" None None None None 12 12]>
       (outputs meta0))
    ∅ 4 3 false no_names no_names no_catalog.
Definition utxo1 : MemStore.Store :=
  (MemStore.Pin 7 "ref3" (MemStore.ReserveOutpoints clk0 7 "ref3" [mkOutpoint 52226 0]
    (MemStore.Mint clk0 [StatusUpdatesExample.coin 43779 0 800; StatusUpdatesExample.coin 52226 0 900] utxo0).2).2).2.
Definition p1 : Provider := mkProvider meta1 utxo1 0.
Definition noText (_ : perror) : string := "".

Definition target : Z * TableTransaction := default (0, mkTx 0 None TxStatusFailed "" None true 0 "" None None [] 0 0)
  (match (abort_target 7 "ref3" p1).1 with Ret row => Some row | _ => None end).
Definition committed : list OutboxEntry * Provider :=
  match abort_phase1 clk0 false 7 target p1 with (Ret ops, q) => (ops, q) | (_, q) => ([], q) end.
Lemma committed_ok : abort_phase1 clk0 false 7 target p1 = (Ret committed.1, committed.2).
Proof.
  assert (Hok : match (abort_phase1 clk0 false 7 target p1).1 with Ret _ => true | _ => false end = true)
    by (vm_compute; reflexivity).
  unfold committed. destruct (abort_phase1 clk0 false 7 target p1) as [[ops|e|] q]; [reflexivity|discriminate Hok..].
Qed.

(** The process stops between unpinning the input and releasing it. *)
Definition crashed : Provider :=
  mkProvider (p_meta committed.2) (run (take 1 (committed.1 ≫= entry_calls)) (p_utxo committed.2)) 9.

Definition reservations (s : MemStore.Store) : list (Z * string * bool) :=
  (λ kr, (TxID kr.1, u_ReservedBy (MemStore.r_utxo kr.2), u_Pinned (MemStore.r_utxo kr.2)))
    <$> map_to_list (MemStore.rows s).

Lemma vouts1 : vouts_ok meta1.
Proof.
  intros id o. rewrite /meta1 /meta0 /= lookup_insert_Some lookup_singleton_Some.
  intros [[_ <-]|[_ [_ <-]]]; simpl; lia.
Qed.

(** Before, at the crash, and after the drain. *)
Lemma abort_never_frees_live_witness :
  p_utxo crashed ≠ p_utxo p1 ∧
  ∃ id row, transactions (p_meta crashed) !! id = Some row ∧ tx_UserID row = 7 ∧
    fenced (p_meta crashed) row ∧
    touches 7 (tx_Reference row) (hash_of row) (p_utxo p1) (p_utxo crashed).
Proof.
  assert (Hne : p_utxo crashed ≠ p_utxo p1).
  { intros Heq. pose proof (f_equal reservations Heq) as Hr. vm_compute in Hr. discriminate Hr. }
  split; [exact Hne|].
  destruct (abort_never_frees_live clk0 false noText 7 "ref3" p1 crashed) as [Heq|Hres];
    [|destruct (Hne Heq)|exact Hres].
  apply (leaves_crashed _ _ _ _ _ _ target committed.1 committed.2 1 9); [reflexivity|vm_compute; reflexivity|].
  exact committed_ok.
Defined.

Lemma abort_crash_recovers_witness :
  reservations (p_utxo p1) ≠ reservations (p_utxo crashed) ∧
  ∃ rep p', DrainOutbox clk0 false noText 0 crashed = (Ret rep, p') ∧
    p_meta p' = p_meta (abortViaOutbox clk0 false noText 7 target p1).2 ∧
    p_utxo p' = p_utxo (abortViaOutbox clk0 false noText 7 target p1).2 ∧
    utxo_ops_outbox (p_meta p') = ∅ ∧ dr_Failed rep = 0 ∧ freed 7 (tx_Reference target.2) (p_utxo p').
Proof.
  split; [vm_compute; intros Hr; discriminate Hr|].
  apply (abort_crash_recovers clk0 false noText 7 target p1 committed.1 committed.2 1 9 0).
  - intros i. rewrite /clk0. lia.
  - exact vouts1.
  - vm_compute. intros Hr. discriminate Hr.
  - vm_compute. reflexivity.
  - vm_compute. reflexivity.
  - left. lia.
  - exact committed_ok.
Defined.
End AbortExample.
