(* ===== verification/ReconcilerProps.v ===== *)
(** * ReconcilerProps: inputs are released only for provably dead transactions

    What one reconciliation of a suspect may do to the coin store: a coin that was
    reserved or spent becomes free only if it is an input of the suspect, the suspect
    was still quarantined, and the oracle's answers prove the coin safe to reuse. *)
From Stdlib Require Import Ascii String.
From S2P Require Import Prelude UtxoTypes MemStore StoreContract Statuses KnownTx KnownTxProps Ledger StatusUpdates.
From S2P Require Import GoStrings SpendConflict Abort Reconciler ProviderLogic OutboxProps AbortProps.
Import WdkStatus ArcadeStatus KnownTxRepo Outbox Ledger StatusUpdates SpendConflict ReleaseOps Abort Reconciler.
Import ProviderLogic OutboxProps StoreContract AbortProps.
Local Open Scope string_scope.
Local Open Scope Z_scope.

Module ReconcilerProps.

(** ** Which coins become free *)

(** A coin that is free afterwards is in [T] or was free before. *)
Definition frees (T : list Outpoint) (s s' : MemStore.Store) : Prop :=
  ∀ op u', coin s' op = Some u' → free u' → op ∈ T ∨ ∃ u, coin s op = Some u ∧ free u.
#[global] Instance frees_preorder T : PreOrder (frees T).
Proof.
  split; [intros s op u' Hu Hf; right; eauto|]. intros s1 s2 s3 H12 H23 op u' Hu Hf.
  destruct (H23 op u' Hu Hf) as [|(u&Hu2&Hf2)]; [by left|]. by eapply H12.
Qed.
Lemma frees_mono T T' s s' : T ⊆ T' → frees T s s' → frees T' s s'.
Proof. intros HT Hs op u' Hu Hf. destruct (Hs op u' Hu Hf) as [|]; [left; by apply HT|by right]. Qed.

Definition call_frees (T : list Outpoint) (c : call) : Prop :=
  match c with
  | CUnspend _ ops | CReleaseOutpoints _ ops => ops ⊆ T
  | CFreeze _ | CUnfreeze _ | CRemove _ _ | CRemoveByMintTx _ _ => True
  | _ => False
  end.

Section calls.
Context `{MapRange}.

Lemma frees_call T c s : call_frees T c → frees T s (exec c s).
Proof.
  intros Hc op u' Hu Hf. pose proof (exec_evolves c s op) as He. rewrite Hu in He.
  remember (Some u') as o eqn:Ho. clear Hu. revert Ho.
  induction He as [o|o1 o2 o3 Hl _ IH]; intros ->; [right; eauto|].
  destruct (IH eq_refl) as [|(u&->&Hfu)]; [by left|].
  destruct c; simpl in Hc; try done; inversion Hl; simplify_eq/=.
  all: try (left; by apply Hc). all: right; eexists; split; [done|]; apply Hfu.
Qed.
Lemma frees_run T cs s : Forall (call_frees T) cs → frees T s (run cs s).
Proof.
  intros Hcs. revert s. induction Hcs as [|c cs Hc _ IH]; intros s; [reflexivity|].
  etrans; [by apply frees_call|apply IH].
Qed.
End calls.

(** A statement about each call of an explicit list. *)
Ltac each_call := repeat first [apply Forall_nil_2 | apply Forall_cons_2; [done|]].

Section reconciler.
Context `{MapRange, Sdk}.
Context (clk : nat → Time) (hdrs : option Headers) (shared : bool) (errText : perror → string).
Context (oracle : nat → string → oracle_answer).

(** ** The operations of a release *)

Abbreviation usteps T m := (steps (on_utxo (frees T)) m).

Lemma steps_eq_frees {A} T (m : PM A) : steps (on_utxo eq) m → usteps T m.
Proof. intros Hm p. rewrite /on_utxo (Hm p). reflexivity. Qed.

Lemma doUnspend_frees T h ops : ops ⊆ T → usteps T (doUnspend h ops).
Proof.
  intros HT p. rewrite /on_utxo. destruct ops as [|op ops]; [reflexivity|].
  rewrite doUnspend_calls //. apply frees_run. each_call.
Qed.
Lemma release_refs_frees T refs ops : ops ⊆ T → usteps T (release_refs refs ops).
Proof.
  intros HT. induction refs as [|r refs IH]; simpl; [apply steps_ret|]. apply steps_bind; [|done].
  rewrite /doReleaseOutpoints. case_match; [apply steps_ret|]. case_decide; [apply steps_ret|].
  apply usteps_utxo. intros s. by apply (frees_call T (CReleaseOutpoints _ _)).
Qed.
Lemma doRemovePhantom_frees T ops : usteps T (doRemovePhantom ops).
Proof.
  rewrite /doRemovePhantom. case_match; [apply steps_ret|]. apply usteps_utxo. intros s.
  by apply (frees_call T (CRemove _ _)).
Qed.
Lemma doRemoveMinted_frees T h ops : usteps T (doRemoveMinted clk h ops).
Proof.
  intros p. rewrite /on_utxo. destruct ops as [|op ops]; [reflexivity|].
  rewrite doRemoveMinted_calls //. apply frees_run. each_call.
Qed.
Lemma applyReleaseOpsDirect_frees plan : usteps (pl_realInputs plan) (applyReleaseOpsDirect clk plan).
Proof.
  apply steps_bind; [by apply doUnspend_frees|intros _].
  apply steps_bind; [by apply release_refs_frees|intros _].
  apply steps_bind; [apply doRemovePhantom_frees|intros _]. apply doRemoveMinted_frees.
Qed.

Lemma outboxOps_typed raw plan : Forall well_typed (outboxOps raw plan).
Proof.
  rewrite /outboxOps !Forall_app. split_and!; repeat case_match; try by repeat constructor.
  constructor; [done|]. apply Forall_forall. intros e (i&x&->&_)%elem_of_lookup_imap. done.
Qed.
Lemma outboxOps_frees `{!SdkHashLaws} raw plan :
  Forall op_ok (pl_realInputs plan) →
  Forall (call_frees (pl_realInputs plan)) (outboxOps raw plan ≫= entry_calls).
Proof.
  intros Hok. apply Forall_forall. intros c (e&Hc&He)%list_elem_of_bind. revert Hc.
  assert (Hdec : ∀ f, (∀ ops, ops ⊆ pl_realInputs plan → Forall (call_frees (pl_realInputs plan)) (f ops)) →
    Forall (call_frees (pl_realInputs plan)) (on_ops (encodeOutpoints (pl_realInputs plan)) f)).
  { intros f Hf. rewrite /on_ops decode_encodeOutpoints //. case_match; [constructor|by apply Hf]. }
  enough (Forall (call_frees (pl_realInputs plan)) (entry_calls e)) as HF.
  { intros Hc. rewrite ->Forall_forall in HF. by apply HF. }
  revert He. rewrite /outboxOps !elem_of_app. intros [He|[He|He]]; revert He; case_match eqn:Hm.
  all: rewrite ?elem_of_nil ?list_elem_of_singleton //.
  - rewrite elem_of_cons. intros [->|(i&x&->&_)%elem_of_lookup_imap].
    + rewrite /entry_calls /= /on_hash. case_match; [|constructor]. apply Hdec. intros ops Hops. each_call.
    + apply Hdec. intros ops Hops. case_decide; each_call.
  - intros ->. rewrite /entry_calls /= /on_ops. repeat case_match; each_call.
  - intros ->. rewrite /entry_calls /= /on_hash /on_ops. repeat case_match; each_call.
Qed.

(** ** The gate *)

Lemma TransitionSuspect_Ret now txid st t t' :
  TransitionSuspect now txid st t = (Ret (), t') →
  ∃ raw k, encTxID txid = Ret raw ∧ t !! raw = Some k ∧ kt_Status k = KnownTxStatusSuspectFailed ∧
    KnownTxProps.at_status raw st t'.
Proof.
  rewrite /TransitionSuspect. cbv [mbind M_bind lift]. destruct (encTxID txid) as [raw|e|]; [|done..].
  rewrite /update_row /applied_or_why /existsByTxID. cbv [mbind M_bind throw].
  destruct (t !! raw) as [k|] eqn:Hk; [|done]. destruct (status_in _ k) eqn:Hs; [|done]. simpl.
  intros [= <-]. exists raw, k. split_and!; [done|done| |].
  - apply StatusProps.is_one_of_true in Hs. set_solver.
  - by rewrite /KnownTxProps.at_status lookup_insert_eq.
Qed.

(** The suspect was quarantined before and is terminal after. *)
Definition gated (txid : string) (st : ProvenTxReqStatus) (m m' : Meta) : Prop :=
  ∃ raw k, encTxID txid = Ret raw ∧ known_txs m !! raw = Some k ∧
    kt_Status k = KnownTxStatusSuspectFailed ∧ KnownTxProps.at_status raw st (known_txs m').

Lemma failTransactions_known txid : steps (on_meta (λ m m', known_txs m' = known_txs m)) (failTransactions clk txid).
Proof.
  apply steps_ignoring, msteps_call; [split; [done|]; intros ???; congruence|]. intros now m.
  rewrite /UpdateStatusByTxID. cbv [mbind M_bind lift update_txs applyStatusUpdate]. by repeat case_match.
Qed.
Lemma failTransactions_utxo txid : steps (on_utxo eq) (failTransactions clk txid).
Proof. apply steps_ignoring, usteps_call, _. Qed.

Lemma gate_utxo plan : steps (on_utxo eq) (gateAndFinalizeStatuses clk plan).
Proof.
  apply steps_bind; [apply steps_try, usteps_call, _|]. intros [e|_]; [apply steps_throw|].
  apply failTransactions_utxo.
Qed.
Lemma gate_Ret plan p p' :
  gateAndFinalizeStatuses clk plan p = (Ret (), p') → gated (pl_txid plan) (pl_terminalKnown plan) (p_meta p) (p_meta p').
Proof.
  rewrite /gateAndFinalizeStatuses /try_. cbv [mbind M_bind]. rewrite meta_call_eq known_eq /=.
  destruct (TransitionSuspect _ _ _ _) as [[[]|e|] t] eqn:Ht; simpl; [|done|done].
  apply TransitionSuspect_Ret in Ht as (raw&k&?&?&?&?). intros Hf.
  pose proof (failTransactions_known (pl_txid plan) (mkProvider (with_known t (p_meta p)) (p_utxo p) (S (p_ticks p)))) as Hk.
  rewrite /on_meta Hf /= in Hk. exists raw, k. by rewrite Hk.
Qed.

(** Nothing a release does afterwards moves the suspect's row away again. *)
Definition kept (raw : Raw) (st : ProvenTxReqStatus) (m m' : Meta) : Prop :=
  KnownTxProps.at_status raw st (known_txs m) → KnownTxProps.at_status raw st (known_txs m').
#[local] Instance kept_preorder raw st : PreOrder (kept raw st).
Proof. split; [by intros ??|]. intros m1 m2 m3 H12 H23 ?. by apply H23, H12. Qed.

Lemma MarkSuspect_other now txid since cs ast why raw st m :
  encTxID txid ≠ Ret raw → kept raw st m (known (MarkSuspect now txid since cs ast why) m).2.
Proof.
  intros Hne Hm. rewrite known_eq /= /MarkSuspect. cbv [mbind M_bind lift].
  destruct (encTxID txid) as [raw2|e|]; [|done..].
  set (f := suspected _ _ _ _ _). pose proof (KnownTxProps.update_row_snd raw2 (λ _, true) f (known_txs m) raw) as Hr.
  rewrite decide_False in Hr; [|by intros ->].
  destruct (update_row raw2 _ f _) as [[n|e|] t]; simpl in Hr.
  all: by rewrite ?KnownTxProps.applied_or_missing_snd /KnownTxProps.at_status /= Hr.
Qed.

Lemma cascade_keeps parent children raw st :
  cascade_settled st = true → steps (on_meta (kept raw st)) (cascadeChildren clk parent children).
Proof.
  intros Hst. induction children as [|c children IH]; [apply steps_ret|]. intros p.
  assert (encTxID (Hash_String c) = Ret raw ∨ encTxID (Hash_String c) ≠ Ret raw) as [Henc|Hne].
  { destruct (encTxID (Hash_String c)) as [raw2|e|]; [|by right..].
    destruct (decide (raw2 = raw)) as [->|]; [by left|right; congruence]. }
  - intros Hp. cbn [cascadeChildren]. cbv [mbind M_bind]. rewrite {1}/meta_read {1}/zoom known_eq /FindByTxID.
    cbv [mbind M_bind lift gets]. rewrite Henc. pose proof Hp as Hp'. revert Hp'. rewrite {1}/KnownTxProps.at_status.
    destruct (known_txs (p_meta p) !! raw) as [k|] eqn:Hk; [|done]. intros [= <-]. simpl. rewrite Hst.
    by apply IH.
  - apply (steps_bind (R := on_meta (kept raw st))); [apply msteps_read; intros m; by rewrite reads_FindByTxID|].
    intros [kt|]; [|done]. case_match; [done|]. apply steps_bind; [apply steps_tick|intros since].
    apply steps_bind; [|intros _; apply steps_bind; [done|intros; apply steps_ret]].
    apply steps_ignoring, msteps_call; [apply _|]. intros. by apply MarkSuspect_other.
Qed.

Section kept.
Context (raw : Raw) (st : ProvenTxReqStatus) (Hst : cascade_settled st = true).
Abbreviation ksteps m := (steps (on_meta (kept raw st)) m).

Lemma doUnspend_kept h ops : ksteps (doUnspend h ops).
Proof.
  rewrite /doUnspend. case_match; [apply steps_ret|].
  apply steps_bind; [apply msteps_utxo, _|intros _]. apply steps_best_effort, msteps_utxo, _.
Qed.
Lemma doReleaseOutpoints_kept tok ops : ksteps (doReleaseOutpoints tok ops).
Proof.
  rewrite /doReleaseOutpoints. case_match; [apply steps_ret|]. case_decide; [apply steps_ret|apply msteps_utxo, _].
Qed.
Lemma doRemovePhantom_kept ops : ksteps (doRemovePhantom ops).
Proof. rewrite /doRemovePhantom. case_match; [apply steps_ret|apply msteps_utxo, _]. Qed.
Lemma doRemoveMinted_kept h ops : ksteps (doRemoveMinted clk h ops).
Proof.
  rewrite /doRemoveMinted. case_match; [apply steps_ret|].
  apply steps_bind; [apply msteps_utxo, _|]. intros. by apply cascade_keeps.
Qed.
Lemma release_refs_kept refs ops : ksteps (release_refs refs ops).
Proof.
  induction refs as [|r refs IH]; simpl; [apply steps_ret|].
  apply steps_bind; [apply doReleaseOutpoints_kept|done].
Qed.
Lemma applyReleaseOpsDirect_kept plan : ksteps (applyReleaseOpsDirect clk plan).
Proof.
  apply steps_bind; [apply doUnspend_kept|intros _]. apply steps_bind; [apply release_refs_kept|intros _].
  apply steps_bind; [apply doRemovePhantom_kept|intros _]. apply doRemoveMinted_kept.
Qed.

Lemma executeOutboxOp_kept e : ksteps (executeOutboxOp clk e).
Proof.
  destruct (e_Payload e) as [sp ss|r ss|ss|mi ss|uid r|mi ss] eqn:Hpl; last first.
  1,2: intros p; rewrite /on_meta (executeOutboxOp_meta clk e); [reflexivity|by rewrite /abort_op Hpl].
  all: rewrite /executeOutboxOp Hpl; case_decide; [|apply steps_throw].
  - case_match; [|apply steps_throw]. apply steps_bind; [apply steps_lift|intros]. apply doRemoveMinted_kept.
  - apply steps_bind; [apply steps_lift|intros]. apply steps_bind; [apply doRemovePhantom_kept|intros; apply steps_ret].
  - apply steps_bind; [apply steps_lift|intros]. apply steps_bind; [apply doReleaseOutpoints_kept|intros; apply steps_ret].
  - case_match; [|apply steps_throw]. apply steps_bind; [apply steps_lift|intros].
    apply steps_bind; [apply doUnspend_kept|intros; apply steps_ret].
Qed.
Lemma execute_inline_kept es : ksteps (execute_inline clk errText es).
Proof.
  induction es as [|e es IH]; simpl; [apply steps_ret|].
  apply steps_bind; [apply steps_try, executeOutboxOp_kept|]. intros [x|c].
  - apply steps_bind; [apply msteps_read; by intros m Hm|done].
  - apply steps_bind; [apply msteps_read; by intros m Hm|intros _]. apply steps_bind; [done|]. intros. apply steps_ret.
Qed.
End kept.

(** ** Applying a plan *)

Lemma handled_eq {A} (m : PM A) p :
  handled m p = (match (m p).1 with
                 | Ret a => Ret (Some a) | Err errAlreadyHandled => Ret None | Err e => Err e | Panic => Panic
                 end, (m p).2).
Proof. rewrite /handled /try_. cbv [mbind M_bind]. destruct (m p) as [[a|[]|] p']; done. Qed.
Lemma handled_snd {A} (m : PM A) p : (handled m p).2 = (m p).2.
Proof. rewrite /handled /try_. cbv [mbind M_bind]. destruct (m p) as [[a|[]|] p']; done. Qed.

Lemma release_phase1_utxo plan ops : steps (on_utxo eq) (release_phase1 clk shared plan ops).
Proof. apply steps_Do, steps_bind; [apply gate_utxo|intros _; apply enqueue_all_utxo]. Qed.
Lemma release_phase1_gated plan ops p p1 :
  release_phase1 clk shared plan ops p = (Ret (), p1) → gated (pl_txid plan) (pl_terminalKnown plan) (p_meta p) (p_meta p1).
Proof.
  intros Hd%Do_Ret. revert Hd. cbv [mbind M_bind].
  destruct (gateAndFinalizeStatuses clk plan p) as [[[]|e|] p2] eqn:Hg; [|done..].
  apply gate_Ret in Hg as (raw&k&?&?&?&Hat). intros He.
  pose proof (enqueue_all_ledger clk ops p2) as [Hk _]. rewrite He /= in Hk. exists raw, k. by rewrite Hk.
Qed.

Lemma inline_frees `{!SdkHashLaws} plan raw p :
  Forall op_ok (pl_realInputs plan) →
  frees (pl_realInputs plan) (p_utxo p)
    (p_utxo (try_ (Do shared (execute_inline clk errText (outboxOps raw plan))) p).2).
Proof.
  intros Hok. assert (Hin : usteps (pl_realInputs plan) (execute_inline clk errText (outboxOps raw plan))).
  { intros q. rewrite /on_utxo execute_inline_calls; [|apply outboxOps_typed].
    by apply frees_run, outboxOps_frees. }
  apply (steps_try (R := on_utxo (frees _))), steps_Do, Hin.
Qed.

Lemma releaseVerifiedDead_frees `{!SdkHashLaws} plan p :
  Forall op_ok (pl_realInputs plan) → cascade_settled (pl_terminalKnown plan) = true →
  let p' := (releaseVerifiedDead clk shared errText plan p).2 in
  p_utxo p' = p_utxo p ∨
  frees (pl_realInputs plan) (p_utxo p) (p_utxo p') ∧ gated (pl_txid plan) (pl_terminalKnown plan) (p_meta p) (p_meta p').
Proof.
  intros Hok Hst. rewrite /releaseVerifiedDead. destruct shared eqn:Hmode; rewrite -?Hmode.
  - rewrite /releaseDirect handled_snd.
    match goal with |- context [Do shared ?m p] =>
      destruct (Do_failed shared m p (or_intror Hmode)) as [(c&p'&Hd)|[_ Hu]] end; [right|by left].
    rewrite Hd /=. apply Do_Ret in Hd. revert Hd. cbv [mbind M_bind].
    pose proof (gate_utxo plan p) as Hgu. destruct (gateAndFinalizeStatuses clk plan p) as [[[]|e|] p1] eqn:Hg; [|done..].
    apply gate_Ret in Hg as (raw&k&?&?&?&Hat). rewrite /on_utxo /= in Hgu. intros Ha.
    pose proof (applyReleaseOpsDirect_frees plan p1) as Hf. rewrite Ha /on_utxo -Hgu in Hf. split; [done|].
    exists raw, k. split_and!; [done..|].
    pose proof (applyReleaseOpsDirect_kept raw _ Hst plan p1) as Hk. rewrite Ha in Hk. by apply Hk.
  - rewrite /releaseViaOutbox. cbv [mbind M_bind lift]. destruct (encodeTxidToRaw _) as [rawTxid|e|]; [|by left..].
    set (ops := outboxOps rawTxid plan).
    pose proof (release_phase1_utxo plan ops p) as Hu1. rewrite /on_utxo in Hu1.
    rewrite handled_eq.
    destruct (release_phase1 clk shared plan ops p) as [[[]|e|] p1] eqn:Hp1; simpl in Hu1; [right|by destruct e; left|by left].
    apply release_phase1_gated in Hp1 as (raw&k&?&?&?&Hat). cbn [fst snd].
    pose proof (execute_inline_kept raw _ Hst ops) as Hk. apply (steps_Do shared), steps_try in Hk. specialize (Hk p1 Hat).
    pose proof (inline_frees plan rawTxid p1 Hok) as Hf. rewrite -Hu1 in Hf. fold ops in Hf.
    destruct (try_ (Do shared (execute_inline clk errText ops)) p1) as [[r|e|] p2] eqn:Ht; simpl in *.
    all: split; [done|exists raw, k; by split_and!].
Qed.

(** ** What the lookups of the winner rule return *)

(** The inputs [ops] of the spender [c]: as a confirmed transaction of the oracle at
    time [n], or as a transaction of the local ledger. *)
Definition oracle_shows (n : nat) (c : string) (ops : list Outpoint) : Prop :=
  ∃ r, is_winner (oracle n c) = Some r ∧ raw_inputs (rec_RawTx r) = Some ops.
Definition ledger_shows (m : Meta) (c : string) (ops : list Outpoint) : Prop :=
  ∃ kt, (known (FindByTxID c) m).1 = Ret (Some kt) ∧ raw_inputs (kt_RawTx kt) = Some ops.

(** The oracle answers as at time [n] for [k] more calls after time [n']. *)
Definition steady (n n' k : nat) : Prop := ∀ i c, (n' ≤ i < n' + k)%nat → oracle i c = oracle n c.

Definition readable (n : nat) (cs : list string) : Prop :=
  ∀ c r, c ∈ cs → c ≠ "" → is_winner (oracle n c) = Some r → is_Some (raw_inputs (rec_RawTx r)).

Lemma unreadable_spec n cs p :
  steady n (p_ticks p) (length cs) →
  ∃ b p', hasConfirmedUnreadableWinner oracle cs p = (Ret b, p') ∧
    p_meta p' = p_meta p ∧ p_utxo p' = p_utxo p ∧
    (p_ticks p ≤ p_ticks p' ≤ p_ticks p + length cs)%nat ∧ (b = false → readable n cs).
Proof.
  revert p. induction cs as [|c cs IH]; intros p Hst; simpl.
  { eexists _, p. split_and!; [done..|lia|lia|]. intros _ c r Hc. by apply not_elem_of_nil in Hc. }
  destruct (decide (c = "")) as [->|Hne].
  { destruct (IH p) as (b&p'&->&?&?&[??]&Hb); [intros i c Hi; apply Hst; simpl; lia|].
    eexists _, _. split_and!; [done..|lia|lia|]. intros Hbf c r [->|Hc]%elem_of_cons Hne; [done|by eapply Hb]. }
  set (q := mkProvider (p_meta p) (p_utxo p) (S (p_ticks p))).
  assert (Hgo : ∀ m : PM bool, m = (a ← GetTx oracle c;
      match is_winner a with
      | None => hasConfirmedUnreadableWinner oracle cs
      | Some r => match raw_inputs (rec_RawTx r) with None => mret true | Some _ => hasConfirmedUnreadableWinner oracle cs end
      end) → ∃ b p', m p = (Ret b, p') ∧ p_meta p' = p_meta p ∧ p_utxo p' = p_utxo p ∧
    (p_ticks p ≤ p_ticks p' ≤ p_ticks p + S (length cs))%nat ∧ (b = false → readable n (c :: cs))); last first.
  { destruct c as [|a c]; [done|]. by apply Hgo. }
  intros m ->. cbv [mbind M_bind GetTx]. rewrite (Hst _ c); [|simpl; lia].
  destruct (IH q) as (b&p'&Heq&?&?&[??]&Hb); [intros i c' Hi; apply Hst; simpl in *; lia|].
  assert (Hcons : is_winner (oracle n c) = None ∨ (∃ r, is_winner (oracle n c) = Some r ∧ is_Some (raw_inputs (rec_RawTx r))) →
    b = false → readable n (c :: cs)).
  { intros Hw Hbf c' r [->|Hc]%elem_of_cons Hne' Hr; [|by eapply Hb]. destruct Hw as [Hw|(r'&Hw&?)]; congruence. }
  destruct (is_winner (oracle n c)) as [r|] eqn:Hw; [destruct (raw_inputs _) eqn:Hr|].
  - rewrite -/q Heq. eexists _, _. split_and!; [done..|simpl in *; lia|simpl in *; lia|]. apply Hcons. right. eauto.
  - eexists _, q. split_and!; [done..|simpl; lia|simpl; lia|done].
  - rewrite -/q Heq. eexists _, _. split_and!; [done..|simpl in *; lia|simpl in *; lia|]. apply Hcons. by left.
Qed.

(** [res] collects the inputs shown of the spenders [cs], on top of [S]. *)
Definition collects (shows : string → list Outpoint → Prop) (cs : list string) (S : gset Outpoint)
    (any : bool) (res : option (gset Outpoint)) : Prop :=
  S ⊆ default ∅ res ∧
  (∀ c ops op, c ∈ cs → c ≠ "" → shows c ops → op ∈ ops → op ∈ default ∅ res) ∧
  (is_Some res → any = true ∨ ∃ c ops, c ∈ cs ∧ shows c ops) ∧
  (∀ op, op ∈ default ∅ res → op ∈ S ∨ ∃ c ops, c ∈ cs ∧ shows c ops ∧ op ∈ ops).

Lemma collects_nil shows S (any : bool) :
  (any = false → S = ∅) → collects shows [] S any (if any then Some S else None).
Proof.
  intros Hs. split_and!; [destruct any; set_solver|set_solver|destruct any; [auto|intros []; done]|].
  destruct any; set_solver.
Qed.
Lemma collects_skip shows c cs S any res :
  (c ≠ "" → ∀ ops, ¬ shows c ops) → collects shows cs S any res → collects shows (c :: cs) S any res.
Proof.
  intros Hc (H1&H2&H3&H4). split_and!; [done| | |].
  - intros c' ops op [->|Hin]%elem_of_cons Hne Hs; [by destruct (Hc Hne ops)|by eapply H2].
  - intros Hr. destruct (H3 Hr) as [|(c'&ops&?&?)]; [by left|]. right. exists c', ops. split; [by right|done].
  - intros op Hop. destruct (H4 op Hop) as [|(c'&ops&?&?&?)]; [by left|].
    right. exists c', ops. split_and!; [by right|done..].
Qed.
Lemma collects_add shows c ops cs S any res :
  shows c ops → (∀ ops', shows c ops' → ops' = ops) →
  collects shows cs (list_to_set ops ∪ S) true res → collects shows (c :: cs) S any res.
Proof.
  intros Hc Hu (H1&H2&_&H4). split_and!; [set_solver| | |].
  - intros c' ops' op [->|Hin]%elem_of_cons Hne Hs Hop; [|by eapply H2].
    apply Hu in Hs as ->. apply H1. set_solver.
  - intros _. right. exists c, ops. split; [left|done].
  - intros op [[Hop%elem_of_list_to_set|]%elem_of_union|(c'&ops'&?&?&?)]%H4; [|by left|].
    + right. exists c, ops. split_and!; [left|done..].
    + right. exists c', ops'. split_and!; [by right|done..].
Qed.

Lemma find_winners_spec n cs S any p :
  steady n (p_ticks p) (length cs) → readable n cs → (any = false → S = ∅) →
  ∃ res p', find_winners oracle cs S any p = (Ret res, p') ∧
    p_meta p' = p_meta p ∧ p_utxo p' = p_utxo p ∧ collects (oracle_shows n) cs S any res.
Proof.
  revert S any p. induction cs as [|c cs IH]; intros S any p Hst Hr Hs.
  { eexists _, p. split_and!; [done..|]. by apply collects_nil. }
  assert (Hr' : readable n cs) by (intros c' r Hc; apply Hr; by right).
  destruct (decide (c = "")) as [->|Hne].
  { destruct (IH S any p) as (res&p'&Heq&?&?&?); [intros i c Hi; apply Hst; simpl; lia|done..|].
    exists res, p'. split_and!; [done..|by apply collects_skip]. }
  set (q := mkProvider (p_meta p) (p_utxo p) (Datatypes.S (p_ticks p))).
  assert (Heq : find_winners oracle (c :: cs) S any p =
    match is_winner (oracle n c) with
    | None => find_winners oracle cs S any q
    | Some r => match raw_inputs (rec_RawTx r) with
                | None => (Ret None, q)
                | Some ops => find_winners oracle cs (list_to_set ops ∪ S) true q
                end
    end).
  { destruct c as [|a c]; [done|]. cbn [find_winners]. cbv [mbind M_bind GetTx].
    rewrite (Hst _ (String a c)); [|simpl; lia]. destruct (is_winner _) as [r|]; [|done].
    by destruct (raw_inputs (rec_RawTx r)). }
  assert (Hq : steady n (p_ticks q) (length cs)) by (intros i c' Hi; apply Hst; simpl in *; lia).
  rewrite Heq. destruct (is_winner (oracle n c)) as [r|] eqn:Hw.
  - destruct (Hr c r) as [ops Hops]; [left|done|done|]. rewrite Hops.
    destruct (IH (list_to_set ops ∪ S) true q) as (res&p'&Hf&?&?&?); [done..|].
    exists res, p'. split_and!; [done..|]. apply collects_add with ops; [by exists r| |done].
    intros ops' (r'&?&?). congruence.
  - destruct (IH S any q) as (res&p'&Hf&?&?&?); [done..|]. exists res, p'. split_and!; [done..|].
    apply collects_skip; [|done]. intros _ ops (r'&?&?). congruence.
Qed.

Lemma local_winners_spec cs S any p :
  (any = false → S = ∅) →
  ∃ res p', local_winners cs S any p = (Ret res, p') ∧
    p_meta p' = p_meta p ∧ p_utxo p' = p_utxo p ∧ collects (ledger_shows (p_meta p)) cs S any res.
Proof.
  revert S any. induction cs as [|c cs IH]; intros S any Hs.
  { eexists _, p. split_and!; [done..|]. by apply collects_nil. }
  destruct (decide (c = "")) as [->|Hne].
  { destruct (IH S any) as (res&p'&Heq&?&?&?); [done|]. exists res, p'. split_and!; [done..|by apply collects_skip]. }
  assert (Heq : local_winners (c :: cs) S any p =
    match (known (FindByTxID c) (p_meta p)).1 with
    | Ret (Some kt) => match raw_inputs (kt_RawTx kt) with
                       | None => local_winners cs S any p
                       | Some ops => local_winners cs (list_to_set ops ∪ S) true p
                       end
    | Panic => (Panic, p)
    | _ => local_winners cs S any p
    end).
  { destruct c as [|a c]; [done|]. cbn [local_winners]. cbv [mbind M_bind try_ meta_read zoom].
    pose proof (reads_FindByTxID (String a c) (p_meta p)) as Hrd.
    destruct (known (FindByTxID (String a c)) (p_meta p)) as [[[kt|]|e|] m]; simpl in *; subst m;
      destruct p; try done. by destruct (raw_inputs (kt_RawTx kt)). }
  rewrite Heq. assert (Hskip : (∀ ops, ¬ ledger_shows (p_meta p) c ops) →
    ∃ res p', local_winners cs S any p = (Ret res, p') ∧ p_meta p' = p_meta p ∧ p_utxo p' = p_utxo p ∧
      collects (ledger_shows (p_meta p)) (c :: cs) S any res).
  { intros Hn. destruct (IH S any) as (res&p'&Hf&?&?&?); [done|]. exists res, p'. split_and!; [done..|].
    by apply collects_skip. }
  destruct (known (FindByTxID c) (p_meta p)).1 as [[kt|]|e|] eqn:Hk.
  - destruct (raw_inputs (kt_RawTx kt)) as [ops|] eqn:Hops.
    + destruct (IH (list_to_set ops ∪ S) true) as (res&p'&Hf&?&?&?); [done|].
      exists res, p'. split_and!; [done..|]. apply collects_add with ops; [by exists kt| |done].
      intros ops' (kt'&?&?). congruence.
    + apply Hskip. intros ops (kt'&?&?). congruence.
  - apply Hskip. intros ops (kt'&?&?). congruence.
  - apply Hskip. intros ops (kt'&?&?). congruence.
  - exfalso. revert Hk. apply calm_known, calm_enc. by intros raw t.
Qed.

(** ** Building a plan *)

Lemma pure_GetTx txid : pure_ (GetTx oracle txid).
Proof. intros p. simpl. split_and!; [done|done|lia]. Qed.
Lemma pure_sourceTxDead op : pure_ (sourceTxDead op).
Proof.
  apply pure_bind; [apply pure_try, pure_read, reads_FindByTxID|]. intros [e|[kt|]]; apply pure_ret.
Qed.
Lemma pure_partition ops : pure_ (partition_inputs ops).
Proof.
  induction ops as [|op ops IH]; simpl; [apply pure_ret|]. apply pure_bind; [apply pure_sourceTxDead|].
  intros dead. apply pure_bind; [done|]. intros []. apply pure_ret.
Qed.
Lemma partition_sub ops p real phantom p' :
  partition_inputs ops p = (Ret (real, phantom), p') → real ⊆ ops.
Proof.
  revert p real phantom p'. induction ops as [|op ops IH]; intros p real phantom p'; simpl; [by intros [= <- <- <-]|].
  cbv [mbind M_bind]. destruct (sourceTxDead op p) as [[dead|e|] p1]; [|done..].
  destruct (partition_inputs ops p1) as [[[real' phantom']|e|] p2] eqn:Hp; [|done..]. apply IH in Hp.
  destruct dead; intros [= <- <- <-]; set_solver.
Qed.
Lemma pure_buildReleasePlan kt st ins : pure_ (buildReleasePlan kt st ins).
Proof.
  apply pure_bind; [apply pure_try, pure_read, reads_FindByTxIDAllUsers|intros rows].
  apply pure_bind; [apply pure_partition|intros [real phantom]].
  apply pure_bind; [apply pure_try, pure_changeOutpointsByTxID|intros]. apply pure_ret.
Qed.
Lemma buildReleasePlan_Ret kt st ins p plan p' :
  buildReleasePlan kt st ins p = (Ret plan, p') →
  pl_txid plan = kt_TxID kt ∧ pl_terminalKnown plan = st ∧ pl_realInputs plan ⊆ ins.
Proof.
  rewrite /buildReleasePlan. cbv [mbind M_bind].
  destruct (try_ (meta_read _) p) as [[rows|e|] p1]; [|done..].
  destruct (partition_inputs ins p1) as [[[real phantom]|e|] p2] eqn:Hp; [|done..]. apply partition_sub in Hp.
  destruct (try_ (changeOutpointsByTxID _) p2) as [[change|e|] p3]; [|done..]. by intros [= <- <-].
Qed.

Lemma release_inputs_frees `{!SdkHashLaws} kt st inputs p :
  cascade_settled st = true → Forall op_ok inputs →
  let p' := (release_inputs clk shared errText kt st inputs p).2 in
  p_utxo p' = p_utxo p ∨
  frees inputs (p_utxo p) (p_utxo p') ∧ gated (kt_TxID kt) st (p_meta p) (p_meta p').
Proof.
  intros Hst Hok. rewrite /release_inputs. cbv [mbind M_bind].
  pose proof (pure_buildReleasePlan kt st inputs p) as (Hm&Hu&_).
  destruct (buildReleasePlan kt st inputs p) as [[plan|e|] p1] eqn:Hb; simpl in *; [|by left..].
  apply buildReleasePlan_Ret in Hb as (Htx&<-&Hsub). rewrite -Hm -Hu -Htx.
  pose proof (releaseVerifiedDead_frees plan p1) as Hr. simpl in Hr.
  destruct (releaseVerifiedDead clk shared errText plan p1) as [[r|e|] p2]; simpl in *.
  all: destruct Hr as [Hr|[Hf Hg]]; [|done|by left|right; split; [by eapply frees_mono|done]].
  all: rewrite ->Forall_forall in Hok |- *; auto.
Qed.

(** ** Holding a suspect *)

Lemma on_change_frees f txid T :
  (∀ ops s, frees T s (f ops s).2) → usteps T (on_change f txid).
Proof.
  intros Hf. apply steps_bind; [apply pure_steps, pure_try, pure_changeOutpointsByTxID|].
  intros [e|[|op ops]]; [apply steps_ret..|]. apply steps_best_effort, usteps_utxo. intros s. apply Hf.
Qed.
Lemma freezeChange_frees txid T : usteps T (freezeChange txid).
Proof. apply on_change_frees. intros ops s. by apply (frees_call T (CFreeze ops)). Qed.
Lemma freeze_wait_frees txid T : usteps T (_ ← freezeChange txid; mret ambiguous).
Proof. apply steps_bind; [apply freezeChange_frees|intros; apply steps_ret]. Qed.
Lemma leaveOrEscalate_frees kt mq T : usteps T (leaveOrEscalate clk shared kt mq).
Proof.
  apply steps_bind.
  - rewrite /older_than. case_match; [apply steps_bind; [apply steps_tick|intros; apply steps_ret]|apply steps_ret].
  - intros []; [|apply steps_ret]. apply steps_bind; [|intros [e|_]; [case_match|]; try apply steps_ret; apply steps_throw].
    apply steps_try, steps_Do, steps_bind; [apply usteps_call, _|intros _].
    apply steps_eq_frees, failTransactions_utxo.
Qed.
Lemma hold_frees kt mq T : usteps T (hold clk shared kt mq).
Proof. apply steps_bind; [apply freezeChange_frees|intros _; apply leaveOrEscalate_frees]. Qed.

(** ** Evidence *)

(** The competitors of the suspect, from the oracle's record (or, when it names none,
    from the quarantined row) and from its text. *)
Definition spenders_of (kt : KnownTx) (r : TxRecord) : list string :=
  mergeSpenders (match rec_CompetingTxs r with [] => kt_CompetingTxs kt | l => l end)
    (ci_Spenders (parseSpendConflictExtra (rec_ExtraInfo r))).

Definition shows (m : Meta) (n : nat) (c : string) (ops : list Outpoint) : Prop :=
  oracle_shows n c ops ∨ ledger_shows m c ops.

(** An outpoint is known to be spent by somebody else: the record's text names it, or
    it is an input of a competitor that can be read. *)
Definition taken (kt : KnownTx) (r : TxRecord) (m : Meta) (n : nat) (op : Outpoint) : Prop :=
  op ∈ ci_Spent (parseSpendConflictExtra (rec_ExtraInfo r)) ∨
  ∃ c ops, c ∈ spenders_of kt r ∧ shows m n c ops ∧ op ∈ ops.

(** The first authoritative rejection was at least [grace] ago. *)
Definition two_passes (kt : KnownTx) (grace : Z) (n : nat) : Prop :=
  ∃ t, kt_VerifiedRejectedAt kt = Some t ∧ grace ≤ Sub (clk (S n)) t.

(** The oracle's record of [txid], its txid filled in when it has none. *)
Definition answers (n : nat) (txid : string) (r : TxRecord) : Prop :=
  ∃ r0, oracle n txid = Answer r0 ∧ r = named txid r0.

(** Why the input [op] of [kt] may be reused: the suspect is rejected for a reason
    that is not a conflict, for the second time; or there is a conflict, one of the
    inputs is known to be taken, a competitor could be read, no confirmed competitor
    is unreadable, and [op] is not known to be taken. *)
Inductive release_reason (kt : KnownTx) (grace : Z) (m : Meta) (n : nat) (inputs : list Outpoint) (op : Outpoint) : Prop :=
| reason_rejected r :
    answers n (kt_TxID kt) r → rec_Status r = StatusRejected →
    isSpendConflictRecord r = false → two_passes kt grace n →
    release_reason kt grace m n inputs op
| reason_conflict r :
    answers n (kt_TxID kt) r →
    rec_Status r = StatusDoubleSpendAttempted ∨ rec_Status r = StatusRejected ∧ two_passes kt grace n →
    (∃ op', op' ∈ inputs ∧ taken kt r m n op') →
    (∃ c ops, c ∈ spenders_of kt r ∧ shows m n c ops) →
    readable n (spenders_of kt r) → ¬ taken kt r m n op →
    release_reason kt grace m n inputs op.

Lemma releaseSpendConflict_spec kt r mq n p :
  steady n (p_ticks p) (2 * length (spenders_of kt r)) →
  let m := releaseSpendConflict clk shared errText oracle kt r mq p in
  frees [] (p_utxo p) (p_utxo m.2) ∨
  ∃ inputs release q, txInputs kt = Ret inputs ∧ p_meta q = p_meta p ∧ p_utxo q = p_utxo p ∧
    m.2 = (release_inputs clk shared errText kt ProvenTxStatusDoubleSpend release q).2 ∧
    (∃ op', op' ∈ inputs ∧ taken kt r (p_meta p) n op') ∧ readable n (spenders_of kt r) ∧
    ∀ op, op ∈ release → op ∈ inputs ∧ ¬ taken kt r (p_meta p) n op ∧
      ∃ c ops, c ∈ spenders_of kt r ∧ shows (p_meta p) n c ops.
Proof.
  intros Hst. rewrite /releaseSpendConflict -/(spenders_of kt r). set (cs := spenders_of kt r) in *.
  assert (Hne : ∀ c, c ∈ cs → c ≠ "") by (intros c Hc; by eapply mergeSpenders_nonempty).
  destruct (unreadable_spec n cs p) as (b&p1&H1&Hm1&Hu1&Ht1&Hb); [intros i c Hi; apply Hst; lia|].
  cbv [mbind M_bind lift]. rewrite H1. destruct b; [left; rewrite -Hu1; apply hold_frees|].
  destruct (find_winners_spec n cs ∅ false p1) as (wins&p2&H2&Hm2&Hu2&(_&W1&W2&W3));
    [intros i c Hi; apply Hst; lia|by apply Hb|done|]. rewrite /findWinnerInputs H2.
  destruct (local_winners_spec cs ∅ false p2) as (locs&p3&H3&Hm3&Hu3&(_&L1&L2&L3)); [done|].
  rewrite /localWinnerInputs H3. rewrite Hm2 Hm1 in L1 L2 L3.
  set (spent := union_opt _ _).
  assert (Hspent : ∀ op, op ∈ spent ↔ taken kt r (p_meta p) n op).
  { intros op. rewrite /spent /union_opt !elem_of_union /taken -/cs /shows. split.
    - intros [[|(c&ops&?&?&?)]%L3|[[|(c&ops&?&?&?)]%W3|?]]; [set_solver|right; by eauto 10|set_solver|right; by eauto 10|by left].
    - intros [?|(c&ops&Hc&[Ho|Hl]&Hop)]; [by do 2 right|right; left; by eapply W1; eauto|left; by eapply L1; eauto]. }
  assert (Hu : p_utxo p3 = p_utxo p) by congruence.
  case_decide; [left; rewrite -Hu; apply hold_frees|].
  destruct (txInputs kt) as [inputs|e|] eqn:Hin; [|left; by rewrite Hu..].
  destruct (filterReleaseInputs inputs spent) as [release held] eqn:Hfil.
  destruct (Z.eqb_spec held 0) as [|Hheld]; [left; rewrite -Hu; apply hold_frees|].
  case_match eqn:Hg; [left; rewrite -Hu; apply hold_frees|].
  right. exists inputs, release, p3. split_and!; [done|congruence|done|done| |by apply Hb|].
  - pose proof (filterReleaseInputs_held inputs spent) as [Hh _]. rewrite Hfil in Hh.
    destruct (Hh Hheld) as (op'&?&?%Hspent). eauto.
  - intros op Hop. pose proof (filterReleaseInputs_elem inputs spent op) as [He _]. rewrite Hfil in He.
    destruct (He Hop) as [Hi Hn]. split_and!; [done|by rewrite -Hspent|].
    apply andb_false_iff in Hg as [Hg%negb_false_iff%bool_decide_eq_true|Hg%bool_decide_eq_false]; last first.
    { destruct Hg. intros ->. by apply not_elem_of_nil in Hop. }
    rewrite /shows. destruct Hg as [[|(c&ops&?&?)]%W2|[|(c&ops&?&?)]%L2]; [done|by eauto|done|by eauto].
Qed.

(** ** Verdicts *)

Lemma txInputs_ok `{!SdkHashLaws} kt inputs : txInputs kt = Ret inputs → Forall op_ok inputs.
Proof.
  rewrite /txInputs. destruct (kt_RawTx kt) as [|b raw]; [intros [= <-]; constructor|].
  destruct (NewTransactionFromBytes _) as [ins|] eqn:Hp; [|done]. intros [= <-]. by eapply inputs_parsed.
Qed.

(** What a verdict reached at [p] may do. *)
Definition sound_verdict (kt : KnownTx) (P : list Outpoint → Outpoint → Prop) (p p' : Provider) : Prop :=
  frees [] (p_utxo p) (p_utxo p') ∨
  ∃ inputs release st, txInputs kt = Ret inputs ∧ IsTerminalFailure st = true ∧
    frees release (p_utxo p) (p_utxo p') ∧ gated (kt_TxID kt) st (p_meta p) (p_meta p') ∧
    ∀ op, op ∈ release → op ∈ inputs ∧ P inputs op.

Lemma release_sound `{!SdkHashLaws} kt st inputs release (P : list Outpoint → Outpoint → Prop) p :
  IsTerminalFailure st = true → txInputs kt = Ret inputs →
  (∀ op, op ∈ release → op ∈ inputs ∧ P inputs op) →
  sound_verdict kt P p (release_inputs clk shared errText kt st release p).2.
Proof.
  intros Hst Hin Hrel. pose proof (txInputs_ok _ _ Hin) as Hok.
  destruct (release_inputs_frees kt st release p) as [Hu|[Hf Hg]].
  - rewrite /cascade_settled Hst. apply orb_true_r.
  - apply Forall_forall. intros op Hop. apply Hrel in Hop as [Hop _]. rewrite ->Forall_forall in Hok. auto.
  - left. by rewrite Hu.
  - right. by exists inputs, release, st.
Qed.

Lemma conflict_sound `{!SdkHashLaws} kt r mq grace n p :
  answers n (kt_TxID kt) r →
  rec_Status r = StatusDoubleSpendAttempted ∨ rec_Status r = StatusRejected ∧ two_passes kt grace n →
  steady n (p_ticks p) (2 * length (spenders_of kt r)) →
  sound_verdict kt (release_reason kt grace (p_meta p) n) p
    (releaseSpendConflict clk shared errText oracle kt r mq p).2.
Proof.
  intros Ha Hs Hst.
  destruct (releaseSpendConflict_spec kt r mq n p Hst) as [Hf|(inputs&release&q&Hin&Hm&Hu&->&Htak&Hread&Hrel)]; [by left|].
  pose proof (release_sound kt ProvenTxStatusDoubleSpend inputs release
    (release_reason kt grace (p_meta p) n) q eq_refl Hin) as Hv. rewrite /sound_verdict Hm Hu in Hv. apply Hv.
  intros op Hop. destruct (Hrel op Hop) as (?&?&?). split; [done|]. by eapply reason_conflict.
Qed.

Lemma rejected_sound `{!SdkHashLaws} kt r mq grace n p :
  p_ticks p = S n → answers n (kt_TxID kt) r → rec_Status r = StatusRejected →
  steady n (p_ticks p) (S (2 * length (spenders_of kt r))) →
  sound_verdict kt (release_reason kt grace (p_meta p) n) p
    (handleRejected clk shared errText oracle kt r grace mq p).2.
Proof.
  intros Ht Ha Hs Hst. rewrite /handleRejected. destruct (kt_VerifiedRejectedAt kt) as [t|] eqn:Hv.
  - cbv [mbind M_bind tick lift]. destruct (Z.leb_spec grace (Sub (clk (p_ticks p)) t)); last first.
    { left. exact (freeze_wait_frees (kt_TxID kt) [] (mkProvider (p_meta p) (p_utxo p) (S (p_ticks p)))). }
    assert (two_passes kt grace n) as Htwo by (exists t; by rewrite -Ht).
    set (q := mkProvider (p_meta p) (p_utxo p) (S (p_ticks p))).
    destruct (isSpendConflictRecord r) eqn:Hc.
    + apply (conflict_sound kt r mq grace n q); [done|by right|]. intros i c Hi. apply Hst. simpl in Hi. lia.
    + destruct (txInputs kt) as [inputs|e|] eqn:Hin; [|left; reflexivity..].
      apply (release_sound kt ProvenTxStatusInvalid inputs inputs _ q eq_refl Hin).
      intros op Hop. split; [done|]. by eapply reason_rejected.
  - left. apply (steps_bind (R := on_utxo (frees []))); [apply steps_tick|intros at_].
    apply steps_bind; [apply usteps_call, _|intros _]. apply freeze_wait_frees.
Qed.

(** ** Theorem *)

(** C21: inputs are released only for a reason.  Take a suspect the oracle does not
    report as recovered, with oracle answers that do not change while it is being
    decided.  If reconciling it makes a coin free that was reserved or spent before, in
    either storage mode, then the coin is an input of the suspect; either the suspect
    was rejected outright in two passes at least [grace] apart, or it lost a conflict in
    which the coin is not known to be taken (the record does not name it, and no
    competitor whose transaction could be read spends it; one that could not be read may
    have); and the suspect was in quarantine before and is terminally failed after. *)
Theorem reconcile_releases_for_reason `{!SdkHashLaws} kt grace mq p op u u' :
  let p' := (reconcileSuspect clk hdrs shared errText oracle kt grace mq p).2 in
  (∀ r, answers (p_ticks p) (kt_TxID kt) r → isRecovered (rec_Status r) = false ∧
     steady (p_ticks p) (p_ticks p) (2 + 2 * length (spenders_of kt r))) →
  coin (p_utxo p) op = Some u → ¬ free u → coin (p_utxo p') op = Some u' → free u' →
  ∃ inputs st, txInputs kt = Ret inputs ∧ op ∈ inputs ∧
    release_reason kt grace (p_meta p) (p_ticks p) inputs op ∧
    IsTerminalFailure st = true ∧ gated (kt_TxID kt) st (p_meta p) (p_meta p').
Proof.
  intros p' Hrec Hu Hnf Hu' Hf.
  assert (Hv : sound_verdict kt (release_reason kt grace (p_meta p) (p_ticks p)) p p').
  { subst p'. rewrite /reconcileSuspect. cbv [mbind M_bind GetTx].
    set (q := mkProvider (p_meta p) (p_utxo p) (S (p_ticks p))).
    destruct (oracle (p_ticks p) (kt_TxID kt)) as [| | |r0] eqn:Ha; [left; exact (leaveOrEscalate_frees kt mq [] q)..|].
    assert (answers (p_ticks p) (kt_TxID kt) (named (kt_TxID kt) r0)) as Ha' by by exists r0.
    destruct (Hrec _ Ha') as [-> Hst]. set (r := named _ r0) in *.
    case_decide as Hs; [|case_decide as Hs']; [| |left; exact (leaveOrEscalate_frees kt mq [] q)].
    - apply (rejected_sound kt r mq grace (p_ticks p) q); [done..|]. intros i c Hi. apply Hst. simpl in Hi. lia.
    - apply (conflict_sound kt r mq grace (p_ticks p) q); [done|by left|]. intros i c Hi. apply Hst. simpl in Hi. lia. }
  destruct Hv as [Hv|(inputs&release&st&Hin&Hst&Hv&Hg&Hrel)].
  - destruct (Hv op u' Hu' Hf) as [?%not_elem_of_nil|(?&?&?)]; [done|]. congruence.
  - destruct (Hv op u' Hu' Hf) as [[Hop HP]%Hrel|(?&?&?)]; [|congruence]. by exists inputs, st.
Qed.
End reconciler.
End ReconcilerProps.
