(* ===== verification/TwoPass.v ===== *)
(** * TwoPass: a stamp is a rejection, so a release takes two of them

    The reconciler releases the inputs of a rejected transaction when its row carries
    a [verified_rejected_at] stamp that is old enough.  The stamp is data of the
    database: this file shows that in every state the provider can reach each stamp
    was made from a REJECTED answer of the oracle, so that an old enough stamp and a
    rejection now are two rejections, [grace] apart. *)
From Stdlib Require Import Ascii String.
From S2P Require Import Prelude UtxoTypes MemStore StoreContract Statuses KnownTx KnownTxProps Ledger StatusUpdates StatusUpdatesProps SpendConflict Abort Reconciler ProviderLogic.
From S2P Require Import OutboxProps AbortProps AbortRecovery ReconcilerProps.
Import WdkStatus ArcadeStatus KnownTxRepo Outbox Ledger StatusUpdates StatusUpdatesProps.
Import SpendConflict ReleaseOps Abort Reconciler ProviderLogic AbortProps ReconcilerProps.
Local Open Scope string_scope.
Local Open Scope Z_scope.

Module TwoPass.

Section two_pass.
Context `{MapRange, Sdk}.
Context (clk : nat → Time) (hdrs : option Headers) (shared : bool) (errText : perror → string).
Context (oracle : nat → string → oracle_answer).

(** The txid of a row, as the repository shows it. *)
Definition shown (raw : Raw) : string := default "" (decTxIDPtr raw).

Definition rejected_at (n : nat) (txid : string) : Prop :=
  ∃ r, answers oracle n txid r ∧ rec_Status r = StatusRejected.

(** The stamp of a row, if any, is the time of a rejection. *)
Definition witnessed (raw : Raw) (k : KnownTx) : Prop :=
  ∀ t, kt_VerifiedRejectedAt k = Some t → ∃ n, rejected_at n (shown raw) ∧ t = clk (S n).

Lemma witnessed_keep raw k k' :
  kt_VerifiedRejectedAt k' = kt_VerifiedRejectedAt k ∨ kt_VerifiedRejectedAt k' = None →
  witnessed raw k → witnessed raw k'.
Proof. intros Hk Hw t Ht. destruct Hk as [Hk|Hk]; [|congruence]. apply Hw. congruence. Qed.

Lemma witnessed_stable : stable witnessed.
Proof. split; intros; (eapply witnessed_keep; [|done]); auto. Qed.
Lemma witnessed_accepts txid pr : accepts witnessed txid pr.
Proof. intros now raw k _. apply witnessed_keep. auto. Qed.
Lemma witnessed_welcome r : welcome hdrs witnessed r.
Proof. intros _ pr _ txid _. apply witnessed_accepts. Qed.

(** ** The repository *)

(** The calls of other callers: anything but stamping, or storing a stamp. *)
Definition other_call (c : KnownTxProps.kcall) : Prop :=
  match c with
  | KnownTxProps.KStampVerifiedRejected _ _ _ => False
  | KnownTxProps.KUpsert _ kt _ => kt_VerifiedRejectedAt kt = None
  | _ => True
  end.

Lemma upsert_witnessed raw now kt skip :
  kt_VerifiedRejectedAt kt = None → kpreserves witnessed (upsert_row raw now kt skip).
Proof.
  intros Hk t Ht raw' k'. rewrite /upsert_row. destruct (t !! raw) as [old|] eqn:Ho; simpl.
  - case_match; simpl; [|apply Ht]. destruct (decide (raw = raw')) as [->|Hne];
      [rewrite lookup_insert_eq; intros [= <-]|rewrite lookup_insert_ne //; apply Ht].
    intros t0. by rewrite /= ?Hk.
  - destruct (decide (raw = raw')) as [->|Hne];
      [rewrite lookup_insert_eq; intros [= <-]|rewrite lookup_insert_ne //; apply Ht].
    intros t0. by rewrite /= ?Hk.
Qed.

Ltac head_of t := match t with ?f _ => head_of f | _ => t end.

(** Follows a method down to its statements, none of which writes a stamp. *)
Ltac unstamped :=
  repeat first
    [ apply applied_or_why_pres | apply applied_or_missing_pres
    | apply kpreserves_lift | apply kpreserves_bind; [|intros ?]
    | by apply kpreserves_reads
    | apply kpreserves_update_row; intros | apply kpreserves_update_in; intros
    | progress case_match
    | eapply witnessed_keep; [|done]; by auto ].

Lemma kexec_witnessed c t : other_call c → rows_ok witnessed t → rows_ok witnessed (KnownTxProps.kexec t c).
Proof.
  intros Hc. revert t. rewrite /KnownTxProps.kexec.
  destruct c; simpl in Hc; try done; match goal with |- ∀ t, _ → rows_ok _ (?m t).2 => change (kpreserves witnessed m) end.
  1: apply kpreserves_bind; [apply kpreserves_lift|intros; by apply upsert_witnessed].
  all: match goal with |- kpreserves _ ?m => let h := head_of m in unfold h end.
  all: unstamped.
Qed.
Lemma repo_witnessed {A} (m : K A) c :
  (∀ t, (m t).2 = KnownTxProps.kexec t c) → other_call c → lpreserves witnessed (known m).
Proof.
  intros Hm Hc. apply lpreserves_known. intros t Ht. rewrite Hm. by apply kexec_witnessed.
Qed.

(** ** The provider's operations *)

Abbreviation keeps m := (preserves witnessed m).

Lemma keeps_pure {A} (m : PM A) : pure_ m → keeps m.
Proof. intros Hm. apply preserves_reads. intros p. apply (Hm p). Qed.
Lemma keeps_try {A} (m : PM A) : keeps m → keeps (try_ m).
Proof. apply preserves_try. Qed.
Lemma keeps_best_effort {A} (m : PM A) : keeps m → keeps (best_effort m).
Proof. intros Hm. apply preserves_bind; [by apply preserves_try|intros; apply preserves_ret]. Qed.
Lemma keeps_lifted {A} (o : outcome perror A) : keeps (lift o).
Proof. by apply preserves_reads. Qed.
(** A statement on another table. *)
Lemma keeps_elsewhere {A} (f : Time → L A) :
  (∀ now m, known_txs (f now m).2 = known_txs m) → keeps (meta_call clk f).
Proof. intros Hf. apply preserves_call. intros now. apply lpreserves_reads, Hf. Qed.
Lemma keeps_outbox {A} (m : OM A) : keeps (meta_read (on_outbox m)).
Proof.
  apply preserves_read, lpreserves_reads. intros m0. rewrite /on_outbox /zoom.
  by destruct (m (utxo_ops_outbox m0)).
Qed.

Ltac keep :=
  repeat match goal with
    | |- preserves _ (_ ≫= _) => apply preserves_bind; [|intros ?]
    | |- preserves _ (mret _) => apply preserves_ret
    | |- preserves _ (throw _) => apply preserves_throw
    | |- preserves _ (tick _) => apply preserves_tick
    | |- preserves _ (utxo_call _) => apply preserves_utxo
    | |- preserves _ (Do _ _) => apply preserves_Do
    | |- preserves _ (ignoring _ _) => apply preserves_ignoring
    | |- preserves _ (try_ _) => apply keeps_try
    | |- preserves _ (best_effort _) => apply keeps_best_effort
    | |- preserves _ (lift _) => apply keeps_lifted
    | |- preserves _ (meta_read (on_outbox _)) => apply keeps_outbox
    | |- preserves _ (match _ with _ => _ end) => case_match
    end.

Lemma keeps_MarkSuspect txid since cs ast why :
  keeps (meta_call clk (λ now, known (MarkSuspect now txid since cs ast why))).
Proof.
  apply preserves_call. intros now. by apply (repo_witnessed _ (KnownTxProps.KMarkSuspect now txid since cs ast why)).
Qed.
Lemma keeps_cascade parent children : keeps (cascadeChildren clk parent children).
Proof.
  induction children as [|c children IH]; simpl; [apply preserves_ret|].
  apply preserves_bind; [apply keeps_pure, pure_read, reads_FindByTxID|]. intros [kt|]; [|done]. case_match; [done|].
  keep; [apply keeps_MarkSuspect|done].
Qed.
Lemma keeps_doRemoveMinted h ops : keeps (doRemoveMinted clk h ops).
Proof. rewrite /doRemoveMinted. case_match; [apply preserves_ret|]. keep. apply keeps_cascade. Qed.
Lemma keeps_executeOutboxOp e : keeps (executeOutboxOp clk e).
Proof.
  rewrite /executeOutboxOp. destruct (e_Payload e); (case_decide; [|apply preserves_throw]).
  all: rewrite ?/doUnspend ?/doReleaseOutpoints ?/doRemovePhantom ?/doAbortRelease ?/doAbortRemoveChange.
  all: keep; apply keeps_doRemoveMinted.
Qed.
Lemma keeps_drain es rep : keeps (drain_entries clk errText es rep).
Proof.
  revert rep. induction es as [|e es IH]; intros rep; simpl; [apply preserves_ret|].
  apply preserves_bind; [apply keeps_try, keeps_executeOutboxOp|]. intros [x|c]; keep; apply IH.
Qed.
Lemma keeps_DrainOutbox limit : keeps (DrainOutbox clk shared errText limit).
Proof. rewrite /DrainOutbox. keep. apply keeps_drain. Qed.
Lemma keeps_execute_inline es : keeps (execute_inline clk errText es).
Proof.
  induction es as [|e es IH]; simpl; [apply preserves_ret|].
  apply preserves_bind; [apply keeps_try, keeps_executeOutboxOp|]. intros [x|c]; keep; done.
Qed.

(** *** Aborting *)

Lemma keeps_UpdateStatusByTxID txid st ex : keeps (meta_call clk (λ now, UpdateStatusByTxID now txid st ex)).
Proof.
  apply keeps_elsewhere. intros now m. rewrite /UpdateStatusByTxID.
  cbv [mbind M_bind lift update_txs applyStatusUpdate]. by repeat case_match.
Qed.
Lemma keeps_fence txRow txid : keeps (fenceAborted clk txRow txid).
Proof.
  assert (Hcl : keeps (meta_call clk (λ now, ClearSpentBy now txRow.1))) by by apply keeps_elsewhere.
  rewrite /fenceAborted. apply preserves_bind.
  { apply keeps_try, keeps_elsewhere. intros now m. rewrite /UpdateStatus.
    cbv [mbind M_bind update_txs applyStatusUpdate]. by case_match. }
  intros [e|_]; [apply preserves_throw|]. case_decide; [apply preserves_ret|].
  apply preserves_bind; [|intros [e|_]; repeat (case_match; [|]); done || apply preserves_throw].
  apply keeps_try, preserves_call. intros now.
  by apply (repo_witnessed _ (KnownTxProps.KTransitionToAborted now txid)).
Qed.
Lemma keeps_enqueue es : keeps (enqueue_all clk es).
Proof.
  intros p Hp. pose proof (enqueue_all_ledger clk es p) as [Hk _]. by rewrite Hk.
Qed.
Lemma keeps_AbortAction auth reference : keeps (AbortAction clk shared errText auth reference).
Proof.
  rewrite /AbortAction. case_match; [|apply preserves_throw].
  apply preserves_bind; [apply keeps_pure, pure_abort_target|intros txRow]. rewrite /abortTxRow. case_match.
  - rewrite /abortDirect. apply preserves_Do, preserves_bind; [apply keeps_fence|intros _].
    rewrite /doAbortRelease. keep; [apply keeps_pure, pure_changeOutpoints|]. rewrite /doAbortRemoveChange. keep.
  - rewrite /abortViaOutbox /abort_phase1. keep; [apply keeps_fence|apply keeps_pure, pure_abort_ops|
      apply keeps_enqueue|apply keeps_execute_inline].
Qed.

(** *** Reconciling *)

Lemma keeps_TransitionSuspect txid st : keeps (meta_call clk (λ now, known (TransitionSuspect now txid st))).
Proof.
  apply preserves_call. intros now. by apply (repo_witnessed _ (KnownTxProps.KTransitionSuspect now txid st)).
Qed.
Lemma keeps_failTransactions txid : keeps (failTransactions clk txid).
Proof. apply preserves_ignoring, keeps_UpdateStatusByTxID. Qed.
Lemma keeps_leaveOrEscalate kt mq : keeps (leaveOrEscalate clk shared kt mq).
Proof.
  rewrite /leaveOrEscalate /older_than /escalateStuck.
  keep; [apply keeps_TransitionSuspect|apply keeps_failTransactions].
Qed.
Lemma keeps_on_change f txid : keeps (on_change f txid).
Proof. rewrite /on_change. keep. apply keeps_pure, pure_changeOutpointsByTxID. Qed.
Lemma keeps_hold kt mq : keeps (hold clk shared kt mq).
Proof. rewrite /hold. keep; [apply keeps_on_change|apply keeps_leaveOrEscalate]. Qed.

Lemma keeps_gate plan : keeps (gateAndFinalizeStatuses clk plan).
Proof. rewrite /gateAndFinalizeStatuses. keep; [apply keeps_TransitionSuspect|apply keeps_failTransactions]. Qed.
Lemma keeps_handled {A} (m : PM A) : keeps m → keeps (handled m).
Proof. intros Hm p. rewrite handled_snd. apply Hm. Qed.
Lemma keeps_release_refs refs ops : keeps (release_refs refs ops).
Proof.
  induction refs as [|r refs IH]; simpl; [apply preserves_ret|]. rewrite /doReleaseOutpoints. keep; done.
Qed.
Lemma keeps_releaseVerifiedDead plan : keeps (releaseVerifiedDead clk shared errText plan).
Proof.
  rewrite /releaseVerifiedDead /releaseDirect /releaseViaOutbox. case_match.
  - apply keeps_handled, preserves_Do, preserves_bind; [apply keeps_gate|intros _].
    rewrite /applyReleaseOpsDirect /doUnspend /doRemovePhantom.
    keep; apply keeps_release_refs || apply keeps_doRemoveMinted.
  - keep; [|apply keeps_execute_inline]. apply keeps_handled, preserves_Do, preserves_bind;
      [apply keeps_gate|intros _; apply keeps_enqueue].
Qed.
Lemma keeps_release_inputs kt st inputs : keeps (release_inputs clk shared errText kt st inputs).
Proof.
  rewrite /release_inputs. keep; [apply keeps_pure, pure_buildReleasePlan|apply keeps_releaseVerifiedDead].
Qed.

Lemma pure_unreadable cs : pure_ (hasConfirmedUnreadableWinner oracle cs).
Proof.
  induction cs as [|c cs IH]; simpl; [apply pure_ret|]. destruct c; [done|].
  apply pure_bind; [apply pure_GetTx|]. intros. repeat (case_match; try done); try apply pure_ret.
Qed.
Lemma pure_find_winners cs S any : pure_ (find_winners oracle cs S any).
Proof.
  revert S any. induction cs as [|c cs IH]; intros S any; simpl; [apply pure_ret|]. destruct c; [done|].
  apply pure_bind; [apply pure_GetTx|]. intros. repeat (case_match; try done); try apply pure_ret.
Qed.
Lemma pure_local_winners cs S any : pure_ (local_winners cs S any).
Proof.
  revert S any. induction cs as [|c cs IH]; intros S any; simpl; [apply pure_ret|]. destruct c; [done|].
  apply pure_bind; [apply pure_try, pure_read, reads_FindByTxID|]. intros. by repeat (case_match; try done).
Qed.
Lemma keeps_releaseSpendConflict kt r mq : keeps (releaseSpendConflict clk shared errText oracle kt r mq).
Proof.
  rewrite /releaseSpendConflict. apply preserves_bind; [apply keeps_pure, pure_unreadable|].
  intros []; [apply keeps_hold|]. apply preserves_bind; [apply keeps_pure, pure_find_winners|intros wins].
  apply preserves_bind; [apply keeps_pure, pure_local_winners|intros locs].
  case_decide; [apply keeps_hold|]. apply preserves_bind; [apply keeps_lifted|intros all].
  destruct (filterReleaseInputs _ _) as [release held].
  repeat (case_match; [apply keeps_hold|]). apply keeps_release_inputs.
Qed.

(** The one write of a stamp: just after a REJECTED answer about the same row. *)
Lemma stamp_witnessed n now raw :
  rejected_at n (shown raw) → lpreserves witnessed (known (StampVerifiedRejected now (shown raw) (clk (S n)))).
Proof.
  intros Hr. apply lpreserves_known. rewrite /StampVerifiedRejected /shown.
  apply kpreserves_enc. intros raw' Henc. rewrite KnownTxProps.encTxID_dec in Henc. injection Henc as <-.
  apply kpreserves_bind; [|intros; by apply kpreserves_reads]. apply kpreserves_update_row.
  intros k _ _ t [= <-]. by exists n.
Qed.

Lemma handleRejected_witnessed kt r grace mq n raw p :
  p_ticks p = S n → kt_TxID kt = shown raw → answers oracle n (kt_TxID kt) r → rec_Status r = StatusRejected →
  rows_ok witnessed (known_txs (p_meta p)) →
  rows_ok witnessed (known_txs (p_meta (handleRejected clk shared errText oracle kt r grace mq p).2)).
Proof.
  intros Ht Hraw Ha Hs Hp. rewrite /handleRejected. destruct (kt_VerifiedRejectedAt kt) as [t|].
  - revert p Ht Hp. assert (keeps (now ← tick clk; if grace <=? Sub now t
      then if isSpendConflictRecord r then releaseSpendConflict clk shared errText oracle kt r mq
           else inputs ← lift (txInputs kt); release_inputs clk shared errText kt ProvenTxStatusInvalid inputs
      else _ ← freezeChange (kt_TxID kt); mret ambiguous)) as Hk.
    { keep; [apply keeps_releaseSpendConflict|apply keeps_release_inputs|apply keeps_on_change]. }
    intros p _. apply Hk.
  - cbv [mbind M_bind tick]. rewrite Ht Hraw. set (q := mkProvider (p_meta p) (p_utxo p) (S (S n))).
    assert (keeps (_ ← meta_call clk (λ now, known (StampVerifiedRejected now (shown raw) (clk (S n))));
      _ ← freezeChange (shown raw); mret ambiguous)) as Hk; [|by apply (Hk q)].
    apply preserves_bind; [|intros _; keep; apply keeps_on_change].
    apply preserves_call. intros now. apply stamp_witnessed. rewrite -Hraw. by exists r.
Qed.

Lemma reconcileSuspect_witnessed kt grace mq raw :
  kt_TxID kt = shown raw → keeps (reconcileSuspect clk hdrs shared errText oracle kt grace mq).
Proof.
  intros Hraw p Hp. rewrite /reconcileSuspect. cbv [mbind M_bind GetTx].
  set (q := mkProvider (p_meta p) (p_utxo p) (S (p_ticks p))).
  destruct (oracle (p_ticks p) (kt_TxID kt)) as [| | |r0] eqn:Ha; [by apply (keeps_leaveOrEscalate kt mq q)..|].
  case_match.
  { assert (keeps (handleRecovered clk hdrs shared kt (named (kt_TxID kt) r0))) as Hk; [|by apply (Hk q)].
    rewrite /handleRecovered. keep; [apply keeps_on_change|].
    apply ApplyStatusUpdate_pres; [apply witnessed_stable|apply witnessed_welcome]. }
  case_decide; [|case_decide; [by apply (keeps_releaseSpendConflict _ _ _ q)|by apply (keeps_leaveOrEscalate kt mq q)]].
  eapply (handleRejected_witnessed kt _ grace mq (p_ticks p) raw q); [done|done|by exists r0|done|done].
Qed.

(** *** A pass *)

Lemma FindSuspectFailed_shown now grace limit t ks t' kt :
  FindSuspectFailed now grace limit t = (Ret ks, t') → kt ∈ ks →
  t' = t ∧ ∃ raw k, t !! raw = Some k ∧ kt = scan raw k.
Proof.
  intros Hf. assert (t' = t) as ->. { revert Hf. rewrite /FindSuspectFailed /queryList /gets. by intros [= _ <-]. }
  intros Hin. destruct (KnownTxProps.queryList_sel _ _ _ _ _ _ Hf Hin) as (raw&k&?&_&?). eauto.
Qed.

Lemma keeps_reconcile_all suspects grace mq rep :
  Forall (λ kt, ∃ raw, kt_TxID kt = shown raw) suspects →
  keeps (reconcile_all clk hdrs shared errText oracle suspects grace mq rep).
Proof.
  intros Hs. revert rep. induction Hs as [|kt suspects [raw Hkt] _ IH]; intros rep; simpl; [apply preserves_ret|].
  apply preserves_bind; [by eapply keeps_try, reconcileSuspect_witnessed|]. intros. apply IH.
Qed.
Lemma keeps_Verify configured grace mq limit :
  keeps (VerifyAndReleaseSuspects clk hdrs shared errText oracle configured grace mq limit).
Proof.
  rewrite /VerifyAndReleaseSuspects. case_match; [apply preserves_throw|]. intros p Hp. cbv [mbind M_bind].
  rewrite meta_call_eq known_eq. destruct (FindSuspectFailed _ _ _ _) as [[ks|e|] t] eqn:Hf.
  all: assert (t = known_txs (p_meta p)) as -> by (revert Hf; rewrite /FindSuspectFailed /queryList /gets; by intros [= _ <-]).
  all: simpl; try done. apply keeps_reconcile_all; [|done]. apply Forall_forall. intros kt Hin.
  destruct (FindSuspectFailed_shown _ _ _ _ _ _ _ Hf Hin) as (_&raw&k&_&->). by exists raw.
Qed.

(** ** Reachable states *)

(** What the provider and the other users of the repository do. *)
Inductive pstep (p : Provider) : Provider → Prop :=
| ps_update r : pstep p (ApplyStatusUpdate clk hdrs shared r p).2
| ps_batch recs : pstep p (ApplyStatusBatch clk hdrs shared recs p).2
| ps_abort auth reference : pstep p (AbortAction clk shared errText auth reference p).2
| ps_drain limit : pstep p (DrainOutbox clk shared errText limit p).2
| ps_reconcile configured grace mq limit :
    pstep p (VerifyAndReleaseSuspects clk hdrs shared errText oracle configured grace mq limit p).2
| ps_repo c : other_call c →
    pstep p (mkProvider (with_known (KnownTxProps.kexec (known_txs (p_meta p)) c) (p_meta p)) (p_utxo p) (p_ticks p)).

Lemma pstep_witnessed p p' :
  pstep p p' → rows_ok witnessed (known_txs (p_meta p)) → rows_ok witnessed (known_txs (p_meta p')).
Proof.
  intros [r|recs|auth reference|limit|configured grace mq limit|c Hc].
  - apply ApplyStatusUpdate_pres; [apply witnessed_stable|apply witnessed_welcome].
  - apply ApplyStatusBatch_pres; [apply witnessed_stable|]. intros. apply witnessed_welcome.
  - apply keeps_AbortAction.
  - apply keeps_DrainOutbox.
  - apply keeps_Verify.
  - by apply kexec_witnessed.
Qed.

(** C22: a release for rejection takes two rejections.  Start from an empty ledger and
    let status events, aborts, outbox drains, reconciler passes and any other writes
    of the repository happen in any order.  If a suspect that the reconciler then
    selects is past its second pass at time [n], as [reconcile_releases_for_reason]
    demands, the oracle had answered REJECTED about it at an earlier time, at least
    [grace] before. *)
Theorem two_rejections p0 p now grace limit ks t kt n :
  (∀ i, clk i ≤ clk (S i)) → 0 < grace →
  known_txs (p_meta p0) = ∅ → rtc pstep p0 p →
  FindSuspectFailed now grace limit (known_txs (p_meta p)) = (Ret ks, t) → kt ∈ ks →
  two_passes clk kt grace n →
  ∃ n1, (n1 < n)%nat ∧ rejected_at n1 (kt_TxID kt) ∧ grace ≤ Sub (clk (S n)) (clk (S n1)).
Proof.
  intros Hclk Hg Hempty Hr Hf Hin (t0&Ht0&Hage).
  assert (Hw : rows_ok witnessed (known_txs (p_meta p))).
  { revert Hr. assert (Hw0 : rows_ok witnessed (known_txs (p_meta p0))) by by rewrite Hempty.
    revert Hw0. clear. intros Hw0 Hr. induction Hr as [q|q1 q2 q3 Hs _ IH]; [done|]. by eapply IH, pstep_witnessed. }
  destruct (FindSuspectFailed_shown _ _ _ _ _ _ _ Hf Hin) as (_&raw&k&Hk&->).
  destruct (Hw raw k Hk t0 Ht0) as (n1&Hrej&->). exists n1. split_and!; [|exact Hrej|done].
  assert (Hmono : ∀ i j, (i ≤ j)%nat → clk i ≤ clk j).
  { intros i j Hij. induction Hij as [|j _ IH]; [lia|]. etrans; [exact IH|apply Hclk]. }
  destruct (decide (n1 < n)%nat) as [|Hn]; [done|]. exfalso.
  specialize (Hmono (S n) (S n1) ltac:(lia)). unfold Sub in Hage. lia.
Qed.
End two_pass.
End TwoPass.

(** * ReconcilerExample: two passes over a suspect, and a conflict with two spenders *)
Import WdkStatus ArcadeStatus KnownTxRepo Outbox Ledger StatusUpdates ReleaseOps Abort Reconciler.
Import StoreContract StatusUpdatesExample AbortExample ReconcilerProps TwoPass.
Local Open Scope string_scope.
Local Open Scope Z_scope.

Module ReconcilerExample.
#[local] Existing Instance sdk0.
#[local] Existing Instance sdk0_laws.
#[local] Existing Instance range_canonical.

(** ** A rejected transaction *)

(** ab01 (hash 43777) spends coin cc01:0; the oracle always rejects it. *)
Definition rejecting (_ : nat) (txid : string) : oracle_answer :=
  if decide (txid = "ab01") then Answer (event "ab01" StatusRejected []) else ErrTxNotFound.

Definition empty_meta : Meta := mkMeta ∅ (transactions meta0) (outputs meta0) ∅ 3 2 false no_names no_names no_catalog.
Definition start : Provider := mkProvider empty_meta utxo0 0.
Definition sent : Provider :=
  mkProvider (with_known (KnownTxProps.kexec (known_txs (p_meta start)) (KnownTxProps.KUpsert 10 row_ab01 [])) (p_meta start))
    (p_utxo start) (p_ticks start).
Definition suspect : Provider :=
  mkProvider (with_known (KnownTxProps.kexec (known_txs (p_meta sent)) (KnownTxProps.KMarkSuspectFailed 20 "ab01" 20 "bad"))
    (p_meta sent)) (p_utxo sent) (p_ticks sent).
(** Pass 1 stamps the row. *)
Definition stamped : Provider :=
  (VerifyAndReleaseSuspects clk0 hdrs0 false noText rejecting true 3 100000 0 suspect).2.
Definition selected : list KnownTx :=
  match FindSuspectFailed 2000 3 10 (known_txs (p_meta stamped)) with (Ret ks, _) => ks | _ => [] end.
Definition kt1 : KnownTx := default row_ab02 (head selected).

Definition input1 : Outpoint := mkOutpoint 52225 0.
(** Pass 2, once the clock has moved on. *)
Definition later : Provider := mkProvider (p_meta stamped) (p_utxo stamped) 40.
Definition released : Provider :=
  (reconcileSuspect clk0 hdrs0 false noText rejecting kt1 3 100000 later).2.

(** The coin of an outpoint: who spent it and who reserved it. *)
Definition state_of (op : Outpoint) (p : Provider) : option (option Hash * string) :=
  (λ u, (u_SpentBy u, u_ReservedBy u)) <$> StoreContract.coin (p_utxo p) op.

Lemma reachable_stamped : rtc (pstep clk0 hdrs0 false noText rejecting) start stamped.
Proof.
  eapply rtc_l; [by apply (ps_repo _ _ _ _ _ start (KnownTxProps.KUpsert 10 row_ab01 []))|].
  eapply rtc_l; [by apply (ps_repo _ _ _ _ _ sent (KnownTxProps.KMarkSuspectFailed 20 "ab01" 20 "bad"))|].
  apply rtc_once. apply (ps_reconcile _ _ _ _ _ suspect true 3 100000 0).
Qed.

Lemma two_rejections_witness :
  kt_VerifiedRejectedAt kt1 = Some 1002 ∧
  ∃ n1, (n1 < 40)%nat ∧ rejected_at rejecting n1 (kt_TxID kt1) ∧ 3 ≤ Sub (clk0 41) (clk0 (S n1)).
Proof.
  split; [vm_compute; reflexivity|].
  apply (two_rejections clk0 hdrs0 false noText rejecting start stamped 2000 3 10 selected
           (known_txs (p_meta stamped)) kt1 40).
  - intros i. rewrite /clk0. lia.
  - lia.
  - reflexivity.
  - exact reachable_stamped.
  - reflexivity.
  - vm_compute. left.
  - exists 1002. split; [vm_compute; reflexivity|]. vm_compute. discriminate.
Defined.

Lemma state_of_free op p u : StoreContract.coin (p_utxo p) op = Some u → state_of op p = Some (None, "") → free u.
Proof. rewrite /state_of. intros -> [= Hs Hr]. done. Qed.

Lemma reconcile_releases_for_reason_witness :
  state_of input1 later = Some (Some 43777, "") ∧
  ∃ u', StoreContract.coin (p_utxo released) input1 = Some u' ∧ free u' ∧
  ∃ inputs st, txInputs kt1 = Ret inputs ∧ input1 ∈ inputs ∧
    release_reason clk0 rejecting kt1 3 (p_meta later) 40 inputs input1 ∧
    IsTerminalFailure st = true ∧ gated (kt_TxID kt1) st (p_meta later) (p_meta released).
Proof.
  split; [vm_compute; reflexivity|].
  assert (Hb : state_of input1 later = Some (Some 43777, "")) by (vm_compute; reflexivity).
  assert (Ha : state_of input1 released = Some (None, "")) by (vm_compute; reflexivity).
  destruct (StoreContract.coin (p_utxo released) input1) as [u'|] eqn:Hu'; [|by rewrite /state_of Hu' in Ha].
  destruct (StoreContract.coin (p_utxo later) input1) as [u|] eqn:Hu; [|by rewrite /state_of Hu in Hb].
  assert (Hf : free u') by by eapply state_of_free.
  exists u'. split; [reflexivity|]. split; [exact Hf|].
  apply (reconcile_releases_for_reason clk0 hdrs0 false noText rejecting kt1 3 100000 later input1 u u').
  - intros r (r0&Hr0&->). split; [|by intros i c _].
    vm_compute in Hr0. injection Hr0 as <-. vm_compute. reflexivity.
  - exact Hu.
  - intros [_ Hs]. rewrite /state_of Hu /= Hs in Hb. discriminate Hb.
  - exact Hu'.
  - exact Hf.
Defined.

(** ** A conflict with two spenders *)

(** ab05 (hash 43781) spends cc01:0 and cc02:0.  It lost the first to aa01, which is
    in the ledger, and the second to bb01, which the oracle has seen on the network. *)
Definition input2 : Outpoint := mkOutpoint 52226 0.
Definition raw_ab05 : Bytes := [byte 204; byte 1; byte 0; byte 204; byte 2; byte 0].
Definition raw_bb01 : Bytes := [byte 204; byte 2; byte 0].
Definition row_of (txid : string) (st : ProvenTxReqStatus) (raw : Bytes) : KnownTx :=
  mkKnownTx txid st None 1 0 true false None "{}" raw [] None [] [] [] [] (Some 20) None None 10 10 epoch.
Definition seen_bb01 : TxRecord := mkTxRecord "bb01" StatusSeenOnNetwork 0 "" 0 [] "" [] raw_bb01.
Definition conflicting (_ : nat) (txid : string) : oracle_answer :=
  if decide (txid = "ab05")
  then Answer (mkTxRecord "ab05" StatusDoubleSpendAttempted 0 "" 0 [] "" ["aa01"; "bb01"] [])
  else if decide (txid = "bb01") then Answer seen_bb01 else ErrTxNotFound.

Definition kt5 : KnownTx := row_of "ab05" KnownTxStatusSuspectFailed raw_ab05.
Definition quarantined : Provider :=
  mkProvider
    (mkMeta {[ key "ab05" := kt5; key "aa01" := row_of "aa01" ProvenTxStatusUnconfirmed raw_ab01 ]} ∅ ∅ ∅ 1 1 false no_names no_names no_catalog)
    (MemStore.Spend [mkSpendOp input1 "r" 43781; mkSpendOp input2 "r" 43781] true
      (MemStore.Mint clk0 [StatusUpdatesExample.coin 52225 0 1000; StatusUpdatesExample.coin 52226 0 1000] MemStore.New).2).2
    0.

(** one readable competitor vouches for all of them.  A suspect lost two inputs to
    two competitors: one whose raw transaction is in the ledger, and one the oracle
    shows as seen on the network, spending the other input, but not yet mined.  The
    reconciler counts the winner as resolved because of the first, and frees the
    input that the second has spent. *)
Theorem unresolved_competitor_ignored :
  let res := reconcileSuspect clk0 hdrs0 false noText conflicting kt5 3 100000 quarantined in
  state_of input2 quarantined = Some (Some 43781, "") ∧
  conflicting 0 "bb01" = Answer seen_bb01 ∧ rec_Status seen_bb01 = StatusSeenOnNetwork ∧
  raw_inputs (rec_RawTx seen_bb01) = Some [input2] ∧
  res.1 = Ret (released_report 0) ∧
  state_of input1 res.2 = Some (Some 43781, "") ∧ state_of input2 res.2 = Some (None, "").
Proof. vm_compute. repeat split; reflexivity. Qed.
End ReconcilerExample.
