(* ===== verification/ProcessProps.v ===== *)
(** * ProcessProps: what may reach the network

    Requests and the send sweep follow one rule: bytes are POSTed only for a row the
    sender has just claimed, and a row that was fenced, has failed for good or is
    already on the network is neither sent nor changed.  Both are shown along every
    write of the code, with relations on the known-transactions table. *)
From Stdlib Require Import Ascii String.
From S2P Require Import Prelude UtxoTypes MemStore Statuses KnownTx KnownTxProps Ledger StatusUpdates StatusUpdatesProps.
From S2P Require Import Abort ProviderLogic AbortProps Reconciler Process Sweeps.
Import WdkStatus ArcadeStatus KnownTxRepo Outbox Ledger StatusUpdates ReleaseOps Abort.
Import ProviderLogic Process Sweeps.
Local Open Scope string_scope.
Local Open Scope Z_scope.

Module ProcessProps.

(** ** Relations on the table *)

(** The statuses that end a transaction's way to the network. *)
Definition settled (k : KnownTx) : Prop :=
  is_one_of (kt_Status k) KnownTxNeverRequeueStatuses = true ∧ kt_Status k ≠ ProvenTxStatusSending.

(** How a row may change: a settled row not at all, unless it is the sender's [own];
    with [bytes], the raw transaction is kept. *)
Definition row_step (bytes : bool) (own : option Raw) (raw : Raw) (k k' : KnownTx) : Prop :=
  (bytes = true → kt_RawTx k' = kt_RawTx k) ∧ (own ≠ Some raw → settled k → k' = k).
Definition table_step (bytes : bool) (own : option Raw) (t t' : table) : Prop :=
  ∀ raw k, t !! raw = Some k → ∃ k', t' !! raw = Some k' ∧ row_step bytes own raw k k'.
Definition ledger_step (bytes : bool) (own : option Raw) (m m' : Meta) : Prop :=
  table_step bytes own (known_txs m) (known_txs m').

Lemma row_step_trans b own raw k1 k2 k3 :
  row_step b own raw k1 k2 → row_step b own raw k2 k3 → row_step b own raw k1 k3.
Proof.
  intros [Hb1 Hs1] [Hb2 Hs2]. split.
  - intros Hb. by rewrite Hb2 // Hb1.
  - intros Ho Hk. pose proof (Hs1 Ho Hk) as ->. by apply Hs2.
Qed.
#[global] Instance table_step_preorder b own : PreOrder (table_step b own).
Proof.
  split.
  - intros t raw k Hk. exists k. by split.
  - intros t1 t2 t3 H12 H23 raw k Hk. destruct (H12 raw k Hk) as (k2&Hk2&?).
    destruct (H23 raw k2 Hk2) as (k3&?&?). exists k3. split; [done|]. by eapply row_step_trans.
Qed.
#[global] Instance ledger_step_preorder b own : PreOrder (ledger_step b own).
Proof. rewrite /ledger_step. split; [intros m; reflexivity|]. intros m1 m2 m3 ? ?. by etrans. Qed.

(** Forgetting the bytes, or exempting a row. *)
Lemma ledger_step_weaken b own m m' : ledger_step b None m m' → ledger_step b own m m'.
Proof.
  intros Hm raw k Hk. destruct (Hm raw k Hk) as (k'&?&?&Hs). exists k'. split; [done|].
  split; [done|]. intros _. by apply Hs.
Qed.
Lemma ledger_step_forget own m m' : ledger_step true own m m' → ledger_step false own m m'.
Proof. intros Hm raw k Hk. destruct (Hm raw k Hk) as (k'&?&?&?). exists k'. split; [done|]. by split. Qed.

(** A row that was not settled may be exempted in between. *)
Lemma ledger_step_own b raw m1 m2 m3 k :
  known_txs m1 !! raw = Some k → ¬ settled k →
  ledger_step b None m1 m2 → ledger_step b (Some raw) m2 m3 → ledger_step b None m1 m3.
Proof.
  intros Hraw Hns H12 H23 raw' k' Hk. destruct (H12 raw' k' Hk) as (k2&Hk2&Hr2).
  destruct (H23 raw' k2 Hk2) as (k3&Hk3&Hb3&Hs3). exists k3. split; [done|].
  destruct Hr2 as [Hb2 Hs2]. split.
  - intros Hb. by rewrite Hb3 // Hb2.
  - intros _ Hset. destruct (decide (raw = raw')) as [->|Hne]; [congruence|].
    pose proof (Hs2 ltac:(done) Hset) as ->. apply Hs3; [congruence|done].
Qed.

(** *** Statements *)

Section rules.
Context (b : bool) (own : option Raw).

Definition kstep {A} (m : K A) : Prop := ∀ t, table_step b own t (m t).2.

Lemma kstep_reads {A} (m : K A) : (∀ t, (m t).2 = t) → kstep m.
Proof. intros Hm t. by rewrite Hm. Qed.
Lemma kstep_lift {A} (o : outcome meta_error A) : kstep (lift o).
Proof. by apply kstep_reads. Qed.
Lemma kstep_bind {A B} (m : K A) (k : A → K B) : kstep m → (∀ a, kstep (k a)) → kstep (m ≫= k).
Proof.
  intros Hm Hk t. specialize (Hm t). cbv [mbind M_bind].
  destruct (m t) as [[a|e|] t']; simpl in *; [|done..]. etrans; [exact Hm|apply Hk].
Qed.
Lemma kstep_enc {A} txid (k : Raw → K A) :
  (∀ raw, encTxID txid = Ret raw → kstep (k raw)) → kstep (lift (encTxID txid) ≫= k).
Proof. intros Hk t. cbv [mbind M_bind lift]. destruct (encTxID txid) eqn:He; [by apply Hk|done..]. Qed.
Lemma kstep_update_row raw P f :
  (∀ k, P k = true → row_step b own raw k (f k)) → kstep (update_row raw P f).
Proof.
  intros Hf t raw' k Hk. rewrite KnownTxProps.update_row_snd Hk. case_decide as Hr; [subst raw'|by exists k].
  eexists. split; [done|]. destruct (P k) eqn:?; [by apply Hf|by split].
Qed.
Lemma kstep_why raw n : kstep (applied_or_why raw n).
Proof. apply kstep_reads. intros. apply KnownTxProps.applied_or_why_snd. Qed.
Lemma kstep_missing n : kstep (applied_or_missing n).
Proof. apply kstep_reads. intros. apply KnownTxProps.applied_or_missing_snd. Qed.
Lemma kstep_cas txid P f :
  (∀ raw k, encTxID txid = Ret raw → P k = true → row_step b own raw k (f k)) →
  kstep (raw ← lift (encTxID txid); n ← update_row raw P f; applied_or_why raw n).
Proof.
  intros Hf. apply kstep_enc. intros raw Hraw. apply kstep_bind; [apply kstep_update_row; auto|].
  intros. apply kstep_why.
Qed.
Lemma kstep_set txid f :
  (∀ raw k, encTxID txid = Ret raw → row_step b own raw k (f k)) →
  kstep (raw ← lift (encTxID txid); n ← update_row raw (λ _, true) f; applied_or_missing n).
Proof.
  intros Hf. apply kstep_enc. intros raw Hraw. apply kstep_bind; [apply kstep_update_row; auto|].
  intros. apply kstep_missing.
Qed.

Lemma lstep_known {A} (m : K A) m0 : kstep m → ledger_step b own m0 (known m m0).2.
Proof.
  intros Hm. specialize (Hm (known_txs m0)). rewrite /known /zoom /ledger_step.
  by destruct (m (known_txs m0)).
Qed.
Lemma msteps_known {A} clk (f : Time → K A) :
  (∀ now, kstep (f now)) → steps (on_meta (ledger_step b own)) (meta_call clk (λ now, known (f now))).
Proof. intros Hf. apply msteps_call; [apply _|]. intros. by apply lstep_known. Qed.
(** A statement on another table. *)
Lemma msteps_elsewhere {A} clk (f : Time → L A) :
  (∀ now m, known_txs (f now m).2 = known_txs m) →
  steps (on_meta (ledger_step b own)) (meta_call clk f).
Proof. intros Hf. apply msteps_call; [apply _|]. intros now m. by rewrite /ledger_step Hf. Qed.
End rules.

(** Follows an operation down to its statements. *)
Ltac walk :=
  repeat match goal with
    | |- steps _ (_ ≫= _) => apply steps_bind; [|intros ?]
    | |- steps _ (mret _) => apply steps_ret
    | |- steps _ (throw _) => apply steps_throw
    | |- steps _ (lift _) => apply steps_lift
    | |- steps _ (tick _) => apply steps_tick
    | |- steps _ (try_ _) => apply steps_try
    | |- steps _ (best_effort _) => apply steps_best_effort
    | |- steps _ (ignoring _ _) => apply steps_ignoring
    | |- steps _ (Do _ _) => apply steps_Do
    | |- steps (on_meta _) (utxo_call _) => apply msteps_utxo, _
    | |- steps _ (match _ with _ => _ end) => case_match
    end.

Section process.
Context `{MapRange, Sdk, TxSdk}.
Context (clk : nat → Time) (shared : bool) (scripts : Transaction SourceTx → bool).
Context (post : nat → string → Bytes → post_answer).

Lemma known_update_txs P f m : known_txs (update_txs P f m).2 = known_txs m.
Proof. done. Qed.
Lemma known_UpdateStatus now id st ex m : known_txs (UpdateStatus now id st ex m).2 = known_txs m.
Proof. rewrite /UpdateStatus. cbv [mbind M_bind update_txs applyStatusUpdate]. by case_match. Qed.
Lemma known_UpdateStatusByTxID now txid st ex m :
  known_txs (UpdateStatusByTxID now txid st ex m).2 = known_txs m.
Proof.
  rewrite /UpdateStatusByTxID. cbv [mbind M_bind lift update_txs applyStatusUpdate]. by repeat case_match.
Qed.
Lemma known_SetTxID now id txid m : known_txs (SetTxID now id txid m).2 = known_txs m.
Proof.
  rewrite /SetTxID. cbv [mbind M_bind lift update_txs existsByID gets throw mret M_ret]. by repeat case_match.
Qed.
Lemma known_MarkSpent now id ids m : known_txs (MarkSpent now id ids m).2 = known_txs m.
Proof. by destruct ids. Qed.

(** *** Storing signed bytes *)

Section new_tx.
Abbreviation new_steps m := (steps (on_meta (ledger_step false None)) m).

Lemma upsert_step txid st raw now :
  new_steps (meta_call clk (λ now, known (Upsert now (new_known txid st raw) KnownTxNeverRequeueStatuses))) ∧
  kstep false None (Upsert now (new_known txid st raw) KnownTxNeverRequeueStatuses).
Proof.
  assert (∀ now, kstep false None (Upsert now (new_known txid st raw) KnownTxNeverRequeueStatuses)) as Hk.
  { intros n. apply kstep_enc. intros raw0 _ t raw' k Hk. rewrite /upsert_row.
    destruct (t !! raw0) as [old|] eqn:Ho; last first.
    { exists k. split; [|by split]. rewrite /= lookup_insert_ne //. congruence. }
    destruct (not_skipped _ old) eqn:Hsk; [|by exists k].
    destruct (decide (raw0 = raw')) as [->|Hne].
    - rewrite /= lookup_insert_eq. eexists. split; [done|]. split; [done|]. intros _ [Hs _].
      rewrite Ho in Hk. injection Hk as ->. revert Hsk. by rewrite /not_skipped Hs.
    - exists k. split; [|by split]. by rewrite /= lookup_insert_ne. }
  split; [by apply msteps_known|done].
Qed.

Lemma mintChange_meta userID id txid : steps (on_meta eq) (mintChange clk userID id txid).
Proof.
  apply steps_bind; [apply msteps_read; intros; symmetry; apply AbortProps.reads_FindOutputs|].
  intros rows. walk. intros p. rewrite /mint_all. destruct (MemStore.Mint _ _ _) as [[es me] s].
  by repeat case_match.
Qed.
Lemma meta_eq_steps {A} (m : PM A) b own : steps (on_meta eq) m → steps (on_meta (ledger_step b own)) m.
Proof. intros Hm p. rewrite /on_meta -(Hm p). reflexivity. Qed.

Lemma store_signed_steps uid tok id txid raw ts ks :
  new_steps (store_signed clk uid tok id txid raw ts ks).
Proof.
  rewrite /store_signed. walk.
  all: try (apply msteps_elsewhere; intros; first [apply known_SetTxID | apply known_UpdateStatus]).
  - by apply upsert_step.
  - apply pure_steps, pure_bind; [apply pure_try, pure_read, reads_FindByTxID|]. intros. apply pure_ret.
  - apply meta_eq_steps, mintChange_meta.
Qed.

Lemma pure_signable_row uid tok txid : pure_ (signable_row uid tok txid).
Proof.
  apply pure_bind; [by apply pure_read|]. intros.
  repeat (case_match; try apply pure_ret; try apply pure_throw).
Qed.
Lemma pure_validateSignedOutputs id tx : pure_ (validateSignedOutputs id tx).
Proof.
  apply pure_bind; [apply pure_read, AbortProps.reads_FindOutputs|]. intros. apply pure_lift.
Qed.

Lemma processNewTx_steps rate uid args : new_steps (processNewTx clk shared scripts rate uid args).
Proof.
  rewrite /processNewTx. walk; try (apply store_signed_steps);
    apply pure_steps; [apply pure_signable_row|apply pure_validateSignedOutputs].
Qed.
End new_tx.

(** *** The gate *)

Lemma cas_Ret raw P f (t t' : table) :
  (n ← update_row raw P f; applied_or_why raw n) t = (Ret (), t') →
  ∃ k, t !! raw = Some k ∧ P k = true ∧ t' = <[raw := f k]> t.
Proof.
  cbv [mbind M_bind update_row applied_or_why existsByTxID throw].
  destruct (t !! raw) as [k|] eqn:Hk; [|done]. destruct (P k) eqn:HP; [|done]. intros [= <-]. eauto.
Qed.

(** A row that can be claimed. *)
Definition claimable_row (k : KnownTx) : Prop :=
  (status_in knownTxPreBroadcastStatuses k = true ∨ kt_Status k = ProvenTxStatusSending) ∧
  kt_WasBroadcast k = false.
Lemma claimable_unsettled k : claimable_row k → ¬ settled k.
Proof.
  intros [[Hp|Hs] _] [Hn Hne]; [|done]. revert Hp Hn. rewrite /status_in /is_one_of.
  rewrite bool_decide_eq_true /knownTxPreBroadcastStatuses !elem_of_cons elem_of_nil.
  by intros [->|[->|[->|[]]]].
Qed.

(** The row of [txid] was claimable and is now at sending, with its bytes. *)
Definition taken (txid : string) (t t' : table) : Prop :=
  ∃ raw k k', encTxID txid = Ret raw ∧ t !! raw = Some k ∧ claimable_row k ∧ t' !! raw = Some k' ∧
    kt_Status k' = ProvenTxStatusSending ∧ kt_WasBroadcast k' = false ∧ kt_RawTx k' = kt_RawTx k.

Lemma enc_Ret {A} txid (k : Raw → K A) t a t' :
  (lift (encTxID txid) ≫= k) t = (Ret a, t') → ∃ raw, encTxID txid = Ret raw ∧ k raw t = (Ret a, t').
Proof. cbv [mbind M_bind lift]. destruct (encTxID txid) as [raw|e|]; [eauto|done..]. Qed.

Lemma ClaimForSend_Ret now txid t t' : ClaimForSend now txid t = (Ret (), t') → taken txid t t'.
Proof.
  intros (raw&Henc&(k&Hk&[Hp Hb%negb_true_iff]%andb_true_iff&->)%cas_Ret)%enc_Ret.
  exists raw, k. eexists. split; [done|]. split; [done|]. split; [split; [by left|done]|].
  split; [by rewrite lookup_insert_eq|done].
Qed.
Lemma ReclaimStaleSend_Ret now txid g t t' : ReclaimStaleSend now txid g t = (Ret (), t') → taken txid t t'.
Proof.
  intros (raw&Henc&(k&Hk&[[Hs Hb%negb_true_iff]%andb_true_iff _]%andb_true_iff&->)%cas_Ret)%enc_Ret.
  rewrite /status_in /is_one_of bool_decide_eq_true list_elem_of_singleton in Hs.
  exists raw, k. eexists. split; [done|]. split; [done|]. split; [split; [by right|done]|].
  split; [by rewrite lookup_insert_eq|done].
Qed.

Lemma claimed_row_step k k' raw :
  claimable_row k → kt_RawTx k' = kt_RawTx k → row_step true None raw k k'.
Proof. intros Hc Hr. split; [done|]. intros _ Hs. by destruct (claimable_unsettled k). Qed.
Lemma ClaimForSend_kstep now txid : kstep true None (ClaimForSend now txid).
Proof.
  apply kstep_cas. intros raw k _ [Hp Hb%negb_true_iff]%andb_true_iff.
  apply claimed_row_step; [|done]. split; [by left|done].
Qed.
Lemma ReclaimStaleSend_kstep now txid g : kstep true None (ReclaimStaleSend now txid g).
Proof.
  apply kstep_cas. intros raw k _ [[Hs Hb%negb_true_iff]%andb_true_iff _]%andb_true_iff.
  apply claimed_row_step; [|done]. split; [right|done].
  by rewrite /status_in /is_one_of bool_decide_eq_true list_elem_of_singleton in Hs.
Qed.

Abbreviation sweep_steps m := (steps (on_meta (ledger_step true None)) m).

Lemma pure_statusBehindRefusal txid : pure_ (statusBehindRefusal txid).
Proof.
  apply pure_bind; [apply pure_read, reads_FindByTxID|]. intros [kt|]; [apply pure_ret|apply pure_throw].
Qed.
Lemma claimForBroadcast_steps txid st : sweep_steps (claimForBroadcast clk txid st).
Proof.
  rewrite /claimForBroadcast. apply steps_bind.
  { apply steps_try, msteps_known. intros now. case_match; [apply ReclaimStaleSend_kstep|apply ClaimForSend_kstep]. }
  intros [e|_]; [|apply steps_ret]. case_match; [apply steps_throw|].
  apply steps_bind; [apply pure_steps, pure_statusBehindRefusal|]. intros st'.
  repeat (case_match; try apply steps_ret; try apply steps_throw).
  rewrite /take_over. apply steps_bind; [apply steps_try, msteps_known; intros; apply ReclaimStaleSend_kstep|].
  intros. walk.
Qed.

(** A known-transactions call that the caller looks at: what it returned, or an
    error, with the table as the method left it. *)
Lemma try_known {A} (f : Time → K A) p r p' :
  try_ (meta_call clk (λ now, known (f now))) p = (Ret r, p') →
  match r with
  | inr a => f (clk (p_ticks p)) (known_txs (p_meta p)) = (Ret a, known_txs (p_meta p'))
  | inl _ => ∃ e, f (clk (p_ticks p)) (known_txs (p_meta p)) = (Err e, known_txs (p_meta p'))
  end.
Proof.
  rewrite /try_ AbortProps.meta_call_eq AbortProps.known_eq.
  destruct (f _ (known_txs (p_meta p))) as [[a|e|] t]; simpl; intros [= <- <-]; simpl; eauto.
Qed.

(** A refused compare-and-set leaves the table alone. *)
Lemma cas_Err txid P f (t : table) e t' :
  (raw ← lift (encTxID txid); n ← update_row raw P f; applied_or_why raw n) t = (Err e, t') → t' = t.
Proof.
  cbv [mbind M_bind lift update_row applied_or_why existsByTxID throw mret M_ret].
  destruct (encTxID txid) as [raw|e'|]; [|by intros [= _ <-]|done].
  destruct (t !! raw) as [k|]; [destruct (P k)|]; simpl; by intros [= _ <-].
Qed.

Lemma claim_owned txid st p p' :
  claimForBroadcast clk txid st p = (Ret sendClaimOwned, p') →
  taken txid (known_txs (p_meta p)) (known_txs (p_meta p')).
Proof.
  rewrite /claimForBroadcast. cbv [mbind M_bind].
  destruct (try_ _ p) as [[r|e|] p1] eqn:Hr; [|done..].
  apply (try_known (λ now, if bool_decide (st = ProvenTxStatusSending)
    then ReclaimStaleSend now txid resendGrace else ClaimForSend now txid)) in Hr. destruct r as [e|[]]; last first.
  { intros [= <-]. case_bool_decide; [by eapply ReclaimStaleSend_Ret|by eapply ClaimForSend_Ret]. }
  assert (known_txs (p_meta p1) = known_txs (p_meta p)) as Hk1.
  { destruct Hr as [e' Hr]. revert Hr. case_bool_decide; apply cas_Err. }
  destruct (negb (is_skipped e)); [discriminate|]. pose proof (pure_statusBehindRefusal txid p1) as (Hm2&_).
  destruct (statusBehindRefusal txid p1) as [[st'|e'|] p2]; [|done..]. simpl in Hm2.
  destruct (WasBroadcastStatus st'); [discriminate|]. destruct (negb _); [discriminate|].
  case_bool_decide; [discriminate|]. rewrite /take_over. cbv [mbind M_bind].
  destruct (try_ _ p2) as [[r|e'|] p3] eqn:Hr2; [|done..].
  apply (try_known (λ now, ReclaimStaleSend now txid resendGrace)) in Hr2.
  destruct r as [e'|[]]; [by case_match|]. intros [= <-].
  apply ReclaimStaleSend_Ret in Hr2. by rewrite Hm2 Hk1 in Hr2.
Qed.

(** *** After the claim, only the sender's own row changes *)

Section own.
Context (txid : string) (raw : Raw) (Henc : encTxID txid = Ret raw).
Abbreviation own_steps m := (steps (on_meta (ledger_step true (Some raw))) m).

Lemma own_row raw' k k' :
  encTxID txid = Ret raw' → kt_RawTx k' = kt_RawTx k → row_step true (Some raw) raw' k k'.
Proof using Henc. intros Hr Hb. rewrite Henc in Hr. injection Hr as <-. by split. Qed.

Lemma MarkSuspectFailed_own since why :
  own_steps (meta_call clk (λ now, known (MarkSuspectFailed now txid since why))).
Proof using Henc. apply msteps_known. intros now. apply kstep_set. intros raw' k Hr. by apply own_row. Qed.
Lemma MarkSuspect_own since cs st why :
  own_steps (meta_call clk (λ now, known (MarkSuspect now txid since cs st why))).
Proof using Henc. apply msteps_known. intros now. apply kstep_set. intros raw' k Hr. by apply own_row. Qed.
Lemma UpdateStatus_own st skip :
  own_steps (meta_call clk (λ now, known (KnownTxRepo.UpdateStatus now txid st skip))).
Proof using Henc. apply msteps_known. intros now. apply kstep_cas. intros raw' k Hr _. by apply own_row. Qed.

Lemma pure_markInputs_lookup uid ops : pure_ (localOutputsByOutpoint uid ops).
Proof using.
  rewrite /localOutputsByOutpoint. case_match; [apply pure_ret|].
  apply pure_bind; [apply pure_read|intros; apply pure_ret].
  rewrite /FindOutputsByOutpoints. generalize (chunks_of (length (p :: l)) outpointChunk (p :: l)).
  induction 0 as [|c cs IH]; [done|]. intros m. simpl. cbv [mbind M_bind].
  destruct (FindOutputsByOutpoints_chunk uid c m) as [o m1] eqn:Hc.
  assert (m1 = m) as ->.
  { revert Hc. rewrite /FindOutputsByOutpoints_chunk. cbv [mbind M_bind lift gets].
    by case_match; intros [= _ <-]. }
  destruct o as [page|e|]; [|done..]. specialize (IH m).
  by destruct (FindOutputsByOutpoints_loop uid cs m) as [[]?].
Qed.
Lemma markInputsSpent_own uid id ins : own_steps (markInputsSpent clk uid id ins).
Proof using.
  apply steps_bind; [apply pure_steps, pure_markInputs_lookup|]. intros rows.
  case_match; [apply steps_ret|]. apply msteps_elsewhere. intros. apply known_MarkSpent.
Qed.
Lemma spendReservedInputs_own tx tok : own_steps (spendReservedInputs tx txid tok).
Proof using.
  rewrite /spendReservedInputs. walk. intros p. destruct (MemStore.Spend _ _ _) as [[??]?].
  rewrite /on_meta. case_match; reflexivity.
Qed.

Lemma applyAcceptedBroadcast_own tx : own_steps (applyAcceptedBroadcast clk shared txid tx).
Proof using Henc.
  rewrite /applyAcceptedBroadcast.
  apply steps_bind; [apply pure_steps, pure_read, reads_FindByTxIDAllUsers|intros rows].
  case_match; [|apply steps_throw]. apply steps_Do. rewrite /commit_accepted. walk.
  - apply spendReservedInputs_own.
  - apply msteps_elsewhere. intros. apply known_UpdateStatusByTxID.
  - apply UpdateStatus_own.
  - apply markInputsSpent_own.
Qed.
Lemma commitAccepted_own tx : own_steps (commitAccepted clk shared txid tx).
Proof using Henc. apply steps_bind; [apply applyAcceptedBroadcast_own|intros; apply steps_ret]. Qed.
Lemma commitRejected_own uid res : own_steps (commitRejected clk shared uid txid res).
Proof using Henc.
  rewrite /commitRejected /firstTxByTxID /commit_rejected. walk.
  - apply pure_steps, pure_read, reads_enc.
  - apply msteps_elsewhere. intros. apply known_UpdateStatusByTxID.
  - apply MarkSuspectFailed_own.
  - apply pure_steps, AbortProps.pure_changeOutpoints.
Qed.
End own.

(** ** The wire *)

(** The row of a POST is at sending, not yet broadcast, and its stored bytes are the
    ones that were checked and sent. *)
Definition claimed_post (x : sent) : Prop :=
  ∃ raw k beef tx, encTxID (s_txid x) = Ret raw ∧ known_txs (s_meta x) !! raw = Some k ∧
    kt_Status k = ProvenTxStatusSending ∧ kt_WasBroadcast k = false ∧
    prepare scripts (kt_RawTx k) beef = Ret (tx, s_ef x).

Abbreviation w_meta w := (p_meta (w_prov w)).

Definition wire_step (b : bool) (w w' : Wire) : Prop :=
  ledger_step b None (w_meta w) (w_meta w') ∧
  ∃ new, w_sent w' = (w_sent w ++ new)%list ∧
    Forall (λ x, claimed_post x ∧ ledger_step b None (w_meta w) (s_meta x)) new.

Definition wsteps (b : bool) {A} (m : WM A) : Prop := ∀ w, wire_step b w (m w).2.

#[global] Instance wire_step_preorder b : PreOrder (wire_step b).
Proof.
  split.
  - intros w. split; [reflexivity|]. exists []. by rewrite app_nil_r.
  - intros w1 w2 w3 [Hm2 (new2&Hs2&Hn2)] [Hm3 (new3&Hs3&Hn3)]. split; [by etrans|].
    exists (new2 ++ new3)%list. rewrite Hs3 Hs2 app_assoc. split; [done|].
    apply Forall_app_2; [done|]. eapply Forall_impl; [exact Hn3|]. intros x [? ?]. split; [done|by etrans].
Qed.

Lemma wire_step_forget w w' : wire_step true w w' → wire_step false w w'.
Proof.
  intros [Hm (new&Hs&Hn)]. split; [by apply ledger_step_forget|]. exists new. split; [done|].
  eapply Forall_impl; [exact Hn|]. intros x [? ?]. split; [done|by apply ledger_step_forget].
Qed.
Lemma wire_step_quiet b w w' :
  ledger_step b None (w_meta w) (w_meta w') → w_sent w' = w_sent w → wire_step b w w'.
Proof. intros Hm Hs. split; [done|]. exists []. by rewrite app_nil_r. Qed.

Lemma wsteps_forget {A} (m : WM A) : wsteps true m → wsteps false m.
Proof. intros Hm w. apply wire_step_forget, Hm. Qed.
Lemma wsteps_ret b {A} (a : A) : wsteps b (mret a : WM A).
Proof. intros w. reflexivity. Qed.
Lemma wsteps_throw b {A} e : wsteps b (throw e : WM A).
Proof. intros w. reflexivity. Qed.
Lemma wsteps_lift b {A} (o : outcome perror A) : wsteps b (lift o).
Proof. intros w. reflexivity. Qed.
Lemma wsteps_bind b {A B} (m : WM A) (k : A → WM B) :
  wsteps b m → (∀ a, wsteps b (k a)) → wsteps b (m ≫= k).
Proof.
  intros Hm Hk w. specialize (Hm w). cbv [mbind M_bind].
  destruct (m w) as [[a|e|] w']; simpl in *; [|done..]. etrans; [exact Hm|apply Hk].
Qed.
Lemma prov_eq {A} (m : PM A) w : prov m w = ((m (w_prov w)).1, with_prov (m (w_prov w)).2 w).
Proof. rewrite /prov /zoom. by destruct (m (w_prov w)) as [[] p]. Qed.
Lemma wsteps_prov b {A} (m : PM A) : steps (on_meta (ledger_step b None)) m → wsteps b (prov m).
Proof. intros Hm w. rewrite prov_eq. by apply wire_step_quiet; [apply Hm|]. Qed.
Lemma wsteps_each b {A} (f : A → WM ()) l : (∀ x, x ∈ l → wsteps b (f x)) → wsteps b (each f l).
Proof.
  induction l as [|x l IH]; intros Hf w; simpl; [reflexivity|].
  assert (wire_step b w (f x w).2) as Hx by (apply Hf; left).
  assert (wsteps b (each f l)) as Hl by (apply IH; intros; apply Hf; by right).
  destruct (f x w) as [[]]; simpl in *; first [exact Hx|by etrans].
Qed.

(** What follows a claim: the POSTs, and a commit that touches the sender's own row. *)
Definition quiet (raw : Raw) {A} (m : WM A) : Prop :=
  ∀ w, w_sent (m w).2 = w_sent w ∧ ledger_step true (Some raw) (w_meta w) (w_meta (m w).2).
Lemma quiet_ret raw {A} (a : A) : quiet raw (mret a).
Proof. intros w. split; [done|reflexivity]. Qed.
Lemma quiet_throw raw {A} e : quiet raw (throw e : WM A).
Proof. intros w. split; [done|reflexivity]. Qed.
Lemma quiet_prov raw {A} (m : PM A) : steps (on_meta (ledger_step true (Some raw))) m → quiet raw (prov m).
Proof. intros Hm w. rewrite prov_eq. split; [done|apply Hm]. Qed.

Lemma send_claimed {A} txid st bytes beef tx ef w p1 (k : post_answer → WM A) :
  prepare scripts bytes beef = Ret (tx, ef) →
  (∀ raw k0, encTxID txid = Ret raw → known_txs (w_meta w) !! raw = Some k0 → kt_RawTx k0 = bytes) →
  claimForBroadcast clk txid st (w_prov w) = (Ret sendClaimOwned, p1) →
  (∀ raw a, encTxID txid = Ret raw → quiet raw (k a)) →
  wire_step true w ((a ← broadcastWithBackpressure post txid ef; k a) (with_prov p1 w)).2.
Proof.
  intros Hprep Hbytes Hclaim Hk.
  pose proof (claimForBroadcast_steps txid st (w_prov w)) as Hstep. rewrite Hclaim /on_meta /= in Hstep.
  destruct (claim_owned _ _ _ _ Hclaim) as (raw&k0&k1&Henc&Hk0&Hc0&Hk1&Hs1&Hb1&Hr1).
  assert (Hpost : ∀ q, p_meta q = p_meta p1 → claimed_post (mkSent txid ef (p_meta q)) ∧
                  ledger_step true None (w_meta w) (p_meta q)).
  { intros q ->. split; [|done]. exists raw, k1, beef, tx. split_and!; try done. by rewrite Hr1 (Hbytes raw k0). }
  assert (Hfin : ∀ a v, w_meta v = p_meta p1 → ledger_step true None (w_meta w) (w_meta (k a v).2)).
  { intros a v Hv. eapply (ledger_step_own true raw _ (p_meta p1)); [done|by apply claimable_unsettled|done|].
    rewrite -Hv. by apply Hk. }
  assert (Hsent : ∀ a v, w_sent (k a v).2 = w_sent v) by (intros; by apply (Hk raw)).
  cbv [mbind M_bind broadcastWithBackpressure Broadcast]. cbn [w_prov w_sent with_prov p_meta p_utxo p_ticks].
  destruct (post (p_ticks p1) txid ef) as [res|ra|]; cbn; (split; [by apply Hfin|]); rewrite Hsent /=.
  all: eexists; split; [rewrite -?app_assoc; reflexivity|repeat constructor].
  all: first [by apply Hpost|exact (Hpost (mkProvider _ _ _) eq_refl)].
Qed.

Lemma FindByTxID_Ret txid m kt m' :
  known (FindByTxID txid) m = (Ret (Some kt), m') →
  ∃ raw k, encTxID txid = Ret raw ∧ known_txs m !! raw = Some k ∧ kt = scan raw k.
Proof.
  rewrite AbortProps.known_eq /FindByTxID. cbv [mbind M_bind lift gets].
  destruct (encTxID txid) as [raw|e|]; [|done..]. simpl. intros [= Hk _].
  destruct (known_txs m !! raw) as [k|] eqn:Hl; [|done]. injection Hk as <-. eauto.
Qed.

Lemma send_owned_quiet uid txid tx raw a :
  encTxID txid = Ret raw →
  quiet raw (match a with
             | Backpressure _ | PostError => mret (service_error txid "arcade")
             | PostResult res => prov (if br_Rejected res then commitRejected clk shared uid txid res
                                       else commitAccepted clk shared txid tx)
             end).
Proof.
  intros Henc. destruct a as [res| |]; [|apply quiet_ret..]. apply quiet_prov.
  case_match; [by apply commitRejected_own|by apply commitAccepted_own].
Qed.

Lemma wire_lift_bind b {A B} (o : outcome perror A) (k : A → WM B) w :
  (∀ a, o = Ret a → wire_step b w (k a w).2) → wire_step b w ((lift o ≫= k) w).2.
Proof. intros Hk. cbv [mbind M_bind lift]. destruct o; [by apply Hk|reflexivity..]. Qed.
(** A step that changes no store, followed by one that may use its result. *)
Lemma wire_pure_bind b {A B} (m : PM A) (k : A → WM B) w :
  pure_ m →
  (∀ a p1, m (w_prov w) = (Ret a, p1) → p_meta p1 = w_meta w →
     wire_step b (with_prov p1 w) (k a (with_prov p1 w)).2) →
  wire_step b w ((prov m ≫= k) w).2.
Proof.
  intros Hm Hk. cbv [mbind M_bind]. rewrite prov_eq. destruct (Hm (w_prov w)) as (Hme&_).
  destruct (m (w_prov w)) as [[a|e|] p1]; simpl in *.
  2-3: apply wire_step_quiet; [by rewrite /= Hme|done].
  etrans; [|by apply Hk]. apply wire_step_quiet; [by rewrite /= Hme|done].
Qed.

Lemma claim_wsteps {A} txid st (k : sendClaim → WM A) w :
  (∀ c p1, claimForBroadcast clk txid st (w_prov w) = (Ret c, p1) →
     match c with
     | sendClaimOwned => wire_step true w (k c (with_prov p1 w)).2
     | _ => wsteps true (k c)
     end) →
  wire_step true w ((prov (claimForBroadcast clk txid st) ≫= k) w).2.
Proof.
  intros Hk. cbv [mbind M_bind]. rewrite prov_eq.
  pose proof (claimForBroadcast_steps txid st (w_prov w)) as Hs. rewrite /on_meta in Hs.
  destruct (claimForBroadcast clk txid st (w_prov w)) as [[c|e|] p1]; simpl in *.
  2-3: by apply wire_step_quiet.
  specialize (Hk c p1 eq_refl). destruct c; [exact Hk|..]; (transitivity (with_prov p1 w); [by apply wire_step_quiet|apply Hk]).
Qed.

Lemma pure_inputBEEFFor txid b : pure_ (inputBEEFFor txid b).
Proof.
  rewrite /inputBEEFFor. case_match; [|apply pure_ret].
  apply pure_bind; [apply pure_read, reads_enc|intros; apply pure_ret].
Qed.

Lemma broadcastOne_wsteps uid txid : wsteps true (broadcastOne clk shared scripts post uid txid).
Proof.
  intros w. apply wire_pure_bind; [apply pure_read, reads_FindByTxID|]. intros [kt|] p1 Hf Hm1; [|reflexivity].
  assert (∃ raw k, encTxID txid = Ret raw ∧ known_txs (w_meta w) !! raw = Some k ∧ kt = scan raw k)
    as (raw&k&Henc&Hk&->).
  { revert Hf. rewrite /meta_read /zoom. destruct (known _ (p_meta (w_prov w))) as [o m1] eqn:Hf.
    destruct o; [|done..]. intros [= -> _]. by eapply FindByTxID_Ret. }
  destruct (kt_RawTx (scan raw k)) as [|c bytes] eqn:Hraw; [reflexivity|].
  apply wire_pure_bind; [apply pure_inputBEEFFor|]. intros stored p2 _ Hm2. simpl in Hm2.
  cbv [mbind M_bind lift]. destruct (prepare scripts (c :: bytes) stored) as [[tx ef]|e|] eqn:Hprep; [|reflexivity..].
  apply claim_wsteps. intros [] p3 Hclaim; [|apply wsteps_ret..].
  rewrite /send_owned. eapply send_claimed; [exact Hprep| |exact Hclaim|intros; by apply send_owned_quiet].
  intros raw' k0 Henc' Hk0. rewrite Henc in Henc'. injection Henc' as <-. simpl in Hk0.
  rewrite Hm2 Hm1 Hk in Hk0. injection Hk0 as <-. exact Hraw.
Qed.

(** ** Requests *)

Lemma queueDelayed_steps txid : sweep_steps (queueDelayed clk txid).
Proof.
  rewrite /queueDelayed. apply steps_bind.
  { apply steps_try, msteps_known. intros now. apply kstep_cas. intros raw k _ Hs. split; [done|].
    intros _ [Hn _]. revert Hs. by rewrite /not_skipped Hn. }
  intros. walk. apply pure_steps, pure_statusBehindRefusal.
Qed.
Lemma queue_all_steps txids : sweep_steps (queue_all clk txids).
Proof. induction txids as [|txid txids IH]; simpl; walk; [apply queueDelayed_steps|done]. Qed.
Lemma broadcast_all_wsteps uid txids : wsteps true (broadcast_all clk shared scripts post uid txids).
Proof.
  induction txids as [|txid txids IH]; simpl; [apply wsteps_ret|].
  apply wsteps_bind; [apply broadcastOne_wsteps|intros r]. apply wsteps_bind; [done|intros; apply wsteps_ret].
Qed.
Lemma ProcessAction_wsteps imm rate auth args :
  wsteps false (ProcessAction clk shared scripts post imm rate auth args).
Proof.
  rewrite /ProcessAction. destruct auth as [uid|]; [|apply wsteps_throw]. apply wsteps_bind.
  { destruct (pa_IsNewTx _); [|apply wsteps_ret]. apply wsteps_prov, processNewTx_steps. }
  intros _. destruct (_ && _); [apply wsteps_ret|]. destruct (broadcastTxIDs _) as [|txid txids]; [apply wsteps_ret|].
  apply wsteps_forget. destruct (pa_IsDelayed _); [|apply broadcast_all_wsteps].
  apply wsteps_bind; [apply wsteps_prov, queue_all_steps|intros; apply wsteps_ret].
Qed.

(** ** The send sweep *)

(** The bytes of a work item are those of its row. *)
Definition fresh (m : Meta) (kt : KnownTx) : Prop :=
  ∃ raw k, encTxID (kt_TxID kt) = Ret raw ∧ known_txs m !! raw = Some k ∧ kt_RawTx k = kt_RawTx kt.
Lemma fresh_step m m' kt : ledger_step true None m m' → fresh m kt → fresh m' kt.
Proof.
  intros Hm (raw&k&Henc&Hk&Hr). destruct (Hm raw k Hk) as (k'&Hk'&Hb&_). exists raw, k'.
  split_and!; [done|done|]. by rewrite Hb.
Qed.

Lemma claim_try_wsteps {A} txid st (k : perror + sendClaim → WM A) w :
  (∀ c p1, claimForBroadcast clk txid st (w_prov w) = (Ret c, p1) →
     match c with
     | sendClaimOwned => wire_step true w (k (inr c) (with_prov p1 w)).2
     | _ => wsteps true (k (inr c))
     end) →
  (∀ e, wsteps true (k (inl e))) →
  wire_step true w ((prov (try_ (claimForBroadcast clk txid st)) ≫= k) w).2.
Proof.
  intros Hk He. cbv [mbind M_bind]. rewrite prov_eq /try_.
  pose proof (claimForBroadcast_steps txid st (w_prov w)) as Hs. rewrite /on_meta in Hs.
  destruct (claimForBroadcast clk txid st (w_prov w)) as [[c|e|] p1]; simpl in *.
  - specialize (Hk c p1 eq_refl).
    destruct c; [exact Hk|..]; (transitivity (with_prov p1 w); [by apply wire_step_quiet|apply Hk]).
  - transitivity (with_prov p1 w); [by apply wire_step_quiet|apply He].
  - by apply wire_step_quiet.
Qed.
Lemma sendOneWaiting_step kt beef w :
  fresh (w_meta w) kt → wire_step true w (sendOneWaiting clk shared scripts post kt beef w).2.
Proof.
  intros (raw&k&Henc&Hk&Hr). apply wire_lift_bind. intros [tx ef] Hprep.
  apply claim_try_wsteps.
  - intros [] p1 Hclaim; [|apply wsteps_ret..].
    eapply send_claimed; [exact Hprep| |exact Hclaim|].
    + intros raw' k' Henc' Hk'. rewrite Henc in Henc'. injection Henc' as <-. congruence.
    + intros raw' [res| |] Henc'; [|apply quiet_throw..]. apply quiet_prov.
      case_match; [|by apply applyAcceptedBroadcast_own]. walk. by apply MarkSuspect_own.
  - intros []; first [apply wsteps_throw|apply wsteps_ret].
Qed.

Lemma each_step (f : KnownTx → WM ()) l w :
  (∀ kt v, fresh (w_meta v) kt → wire_step true v (f kt v).2) →
  Forall (fresh (w_meta w)) l → wire_step true w (each f l w).2.
Proof.
  intros Hf Hl. revert w Hl. induction l as [|kt l IH]; intros w Hl; simpl; [reflexivity|].
  apply Forall_cons in Hl as [Hkt Hl]. pose proof (Hf kt w Hkt) as Hx.
  destruct (f kt w) as [[]w1]; simpl in *; [| |exact Hx]; (etrans; [exact Hx|]); apply IH.
  all: eapply Forall_impl; [exact Hl|]; intros kt'; apply fresh_step, Hx.
Qed.

Lemma FindResendable_fresh now grace limit m kts :
  (known (FindResendable now grace limit) m).1 = Ret kts → Forall (fresh m) kts.
Proof.
  rewrite AbortProps.known_eq /=. intros [= <-]. apply Forall_forall. intros kt Hkt.
  destruct (KnownTxProps.queryList_sel _ _ _ (known_txs m) _ kt eq_refl Hkt) as (raw&k&Hk&_&->).
  exists raw, k. by rewrite KnownTxProps.encTxID_scan.
Qed.

Lemma reads_InputBEEFByTxIDs txids : reads (InputBEEFByTxIDs txids).
Proof.
  intros m. rewrite /InputBEEFByTxIDs. case_match; [done|]. cbv [mbind M_bind lift gets]. by case_match.
Qed.
Lemma pure_inputBEEFForBatch kts : pure_ (inputBEEFForBatch kts).
Proof.
  rewrite /inputBEEFForBatch. case_match; [apply pure_ret|].
  apply pure_bind; [apply pure_read, reads_InputBEEFByTxIDs|intros; apply pure_ret].
Qed.
Lemma SendWaiting_wsteps limit : wsteps true (SendWaitingTransactions clk shared scripts post limit).
Proof.
  intros w. rewrite /SendWaitingTransactions. apply wire_pure_bind.
  { apply pure_bind; [apply pure_tick|]. intros now. apply pure_read. by apply reads_known. }
  intros [|kt kts] p1 Hf Hm1; [reflexivity|].
  apply wire_pure_bind; [apply pure_inputBEEFForBatch|]. intros beefs p2 _ Hm2. simpl in Hm2.
  apply each_step; [intros; by apply sendOneWaiting_step|]. simpl. rewrite Hm2 Hm1.
  apply (FindResendable_fresh (clk (p_ticks (w_prov w))) resendGrace (page_limit limit)).
  revert Hf. rewrite AbortProps.meta_call_eq. intros [= Hf _].
  rewrite AbortProps.known_eq /=. by f_equal.
Qed.

(** ** Theorems *)

(** The two senders, and any other operation of the provider. *)
Inductive sends (w : Wire) : Wire → Prop :=
| sends_request imm rate auth args :
    sends w (ProcessAction clk shared scripts post imm rate auth args w).2
| sends_sweep limit : sends w (SendWaitingTransactions clk shared scripts post limit w).2.
Inductive acts (w : Wire) : Wire → Prop :=
| acts_send w' : sends w w' → acts w w'
| acts_other A (m : PM A) : acts w (prov m w).2.

Lemma sends_step w w' : rtc sends w w' → wire_step false w w'.
Proof.
  induction 1 as [w|w1 w2 w3 H12 _ IH]; [reflexivity|]. etrans; [|exact IH].
  destruct H12; [apply ProcessAction_wsteps|apply wire_step_forget, SendWaiting_wsteps].
Qed.

(** C24: bytes leave the process only for a claimed row.  However requests, send sweeps
    and any other operations of the provider follow each other, every POST to Arcade
    happens while the row of its transaction is at sending and not yet broadcast, and
    what is sent is the extended format of the bytes stored in that row, with its
    scripts checked. *)
Theorem posts_are_claimed w w' :
  rtc acts w w' → ∃ new, w_sent w' = (w_sent w ++ new)%list ∧ Forall claimed_post new.
Proof.
  induction 1 as [w|w1 w2 w3 H12 _ (new&Hs&Hn)]; [exists []; by rewrite app_nil_r|].
  assert (∃ new, w_sent w2 = (w_sent w1 ++ new)%list ∧ Forall claimed_post new) as (new1&Hs1&Hn1).
  { destruct H12 as [w' Hsend|A m]; [|exists []; by rewrite prov_eq app_nil_r].
    destruct (sends_step w1 w') as [_ (n&?&Hn')]; [by apply rtc_once|]. exists n. split; [done|].
    eapply Forall_impl; [exact Hn'|]. by intros x []. }
  exists (new1 ++ new)%list. rewrite Hs Hs1 app_assoc. split; [done|by apply Forall_app_2].
Qed.

(** C25: what is settled is never sent.  A transaction that was aborted, has failed for
    good or is past the broadcast keeps its row unchanged through every sequence of
    requests and send sweeps, and none of the POSTs they make is for it. *)
Theorem settled_never_sent w w' raw k :
  rtc sends w w' → known_txs (w_meta w) !! raw = Some k → settled k →
  known_txs (w_meta w') !! raw = Some k ∧
  ∃ new, w_sent w' = (w_sent w ++ new)%list ∧ Forall (λ x, encTxID (s_txid x) ≠ Ret raw) new.
Proof.
  intros [Hm (new&Hs&Hn)]%sends_step Hk Hset. split.
  - destruct (Hm raw k Hk) as (k'&Hk'&_&He). by rewrite Hk' (He ltac:(done) Hset).
  - exists new. split; [done|]. eapply Forall_impl; [exact Hn|].
    intros x [(raw'&k1&beef&tx&Henc&Hk1&Hst&_) Hx] Heq. rewrite Heq in Henc. injection Henc as <-.
    destruct (Hx raw k Hk) as (k'&Hk'&_&He). rewrite Hk1 in Hk'. injection Hk' as <-.
    rewrite (He ltac:(done) Hset) in Hst. by destruct Hset.
Qed.
End process.
End ProcessProps.
