(* ===== verification/ProcessCommit.v ===== *)
(** * ProcessCommit: the coins of a signed and of an accepted transaction

    Two halves of the send protocol seen from the coin store: bytes are stored only
    over pinned inputs, and an accepted broadcast records its spends, also when a
    crash between the two databases makes the sweep run the commit a second time. *)
From Stdlib Require Import Ascii String.
From S2P Require Import Prelude UtxoTypes MemStore StoreContract StoreReplay Statuses KnownTx KnownTxProps Ledger StatusUpdates.
From S2P Require Import Abort ProviderLogic AbortProps Process Sweeps ProcessProps.
Import WdkStatus ArcadeStatus KnownTxRepo Outbox Ledger StatusUpdates ReleaseOps Abort.
Import ProviderLogic StoreContract Process Sweeps ProcessProps.
Local Open Scope string_scope.
Local Open Scope Z_scope.

Module ProcessCommit.

Section commit.
Context `{MapRange, Sdk, TxSdk}.
Context (clk : nat → Time) (shared : bool) (scripts : Transaction SourceTx → bool).

(** ** Pinned inputs *)

(** Every live coin of the reservation is pinned. *)
Definition all_pinned (uid : Z) (tok : string) (s : MemStore.Store) : Prop :=
  ∀ op u, coin s op = Some u → held uid tok u → u_Pinned u = true.

Lemma Pin_pins uid tok s n s' :
  MemStore.Pin uid tok s = (Ret n, s') → tok ≠ "" ∧ all_pinned uid tok s'.
Proof.
  rewrite /MemStore.Pin /MemStore.setPinned /MemStore.guard_open /MemStore.guard_valid.
  destruct (MemStore.closed s); [done|]. destruct (ValidateReservation tok) eqn:Hv; [done|].
  intros [= _ <-]. split; [by apply ValidateReservation_None|].
  intros op u. rewrite /coin /= lookup_fmap.
  destruct (MemStore.rows s !! op) as [r|]; simpl; [|done]. intros [= <-] (Hu&Ht&Hs). revert Hu Ht Hs.
  destruct (MemStore.heldBy uid tok r && _) eqn:Hp; [done|]. intros Hu Ht Hs. apply andb_false_iff in Hp as [Hp|Hp].
  - rewrite /MemStore.heldBy bool_decide_eq_false in Hp. naive_solver.
  - by destruct (u_Pinned (MemStore.r_utxo r)).
Qed.

(** A mint adds unreserved coins only. *)
Lemma mint_keeps clk' ms op u o : evolves (CMint clk' ms) op (Some u) o → o = Some u.
Proof. intros Hev. inversion Hev as [|? ? ? Hl]; [done|]. by inversion Hl. Qed.
Lemma Mint_pinned uid tok clk' ms s :
  tok ≠ "" → all_pinned uid tok s → all_pinned uid tok (MemStore.Mint clk' ms s).2.
Proof.
  intros Htok Hp op u Hu Hh. pose proof (AbortProps.exec_evolves (CMint clk' ms) s op) as Hev. simpl in Hev.
  destruct (coin s op) as [u0|] eqn:Hs.
  - apply mint_keeps in Hev. rewrite Hu in Hev. injection Hev as <-. by eapply Hp.
  - rewrite Hu in Hev. inversion Hev as [|? ? ? Hl Hrest]; subst. inversion Hl; subst.
    apply mint_keeps in Hrest. injection Hrest as ->. by destruct Hh as (_&<-&_).
Qed.

Lemma mintChange_pinned uid tok uid' id txid :
  tok ≠ "" →
  steps (on_utxo (λ s s', all_pinned uid tok s → all_pinned uid tok s')) (mintChange clk uid' id txid).
Proof.
  intros Htok. assert (PreOrder (λ s s', all_pinned uid tok s → all_pinned uid tok s')).
  { split; [by intros s|]. intros s1 s2 s3 ? ?. by auto. }
  apply steps_bind; [apply usteps_read, _|]. intros rows. walk. intros p. rewrite /on_utxo /mint_all.
  pose proof (Mint_pinned uid tok (λ i, clk (p_ticks p + i)%nat) (m :: l0) (p_utxo p) Htok) as Hm.
  destruct (MemStore.Mint _ _ _) as [[es me] s']. by repeat case_match.
Qed.

Lemma store_signed_pinned uid tok id txid raw ts ks p p' :
  store_signed clk uid tok id txid raw ts ks p = (Ret (), p') → all_pinned uid tok (p_utxo p').
Proof.
  rewrite /store_signed. cbv [mbind M_bind]. rewrite {1}/utxo_call /zoom.
  destruct (MemStore.Pin uid tok (p_utxo p)) as [[n|e|] s1] eqn:Hpin; [|done..]. cbn [mapErr].
  apply Pin_pins in Hpin as [Htok Hp1]. rewrite /try_ AbortProps.meta_call_eq.
  destruct (SetTxID _ _ _ _) as [[[]|e|] m1]; cbn [mapErr fst snd]; [|by repeat case_match|done].
  rewrite AbortProps.meta_call_eq. destruct (UpdateStatus _ _ _ _ _) as [[[]|e|] m2]; cbn [mapErr fst snd]; [|done..].
  rewrite AbortProps.meta_call_eq. destruct (known _ _) as [[[]|e|] m3]; cbn [mapErr fst snd]; [| |done].
  - intros Hmint. pose proof (mintChange_pinned uid tok uid id txid Htok) as Hs.
    match type of Hmint with mintChange _ _ _ _ ?q = _ => specialize (Hs q) end.
    rewrite Hmint /on_utxo /= in Hs. by apply Hs.
  - case_match; [|done]. destruct (knownTxStatusFor _ _) as [[] ?]; done.
Qed.

(** bytes are stored over pinned inputs.  Whatever becomes of storing a signed
    transaction, if the known-transactions table has changed then every live coin
    of the action's reservation is pinned, so that no janitor frees the inputs of
    bytes that may be sent.  A crash on the way leaves the metadata as it was. *)
Theorem signed_bytes_pinned rate uid args tok p :
  pa_Reference args = Some tok →
  known_txs (p_meta (processNewTx clk shared scripts rate uid args p).2) ≠ known_txs (p_meta p) →
  all_pinned uid tok (p_utxo (processNewTx clk shared scripts rate uid args p).2).
Proof.
  intros Href. rewrite /processNewTx Href. destruct (pa_TxID args); [|done].
  destruct (parse (pa_RawTx args)) as [tx|]; [|done]. case_decide; [|done]. cbv [mbind M_bind].
  pose proof (pure_signable_row uid tok (Tx_TxID (t_raw tx)) p) as (Hm1&_).
  destruct (signable_row _ _ _ p) as [[row|e|] p1]; simpl in Hm1; [|by rewrite /= Hm1..].
  rewrite /lift. destruct (hydrateInputs _ _) as [tx'|e|]; [|by rewrite /= Hm1..].
  destruct (scripts tx'); [|by rewrite /= Hm1].
  pose proof (pure_validateSignedOutputs row.1 tx' p1) as (Hm2&_).
  destruct (validateSignedOutputs row.1 tx' p1) as [[[]|e|] p2]; simpl in Hm2; [|by rewrite /= Hm2 Hm1..].
  destruct (checkBroadcastFeeRate _ _ _) as [[]|e|]; [|by rewrite /= Hm2 Hm1..].
  rewrite -Hm1 -Hm2 /Do. destruct (meta_closed _); [done|].
  destruct (store_signed _ _ _ _ _ _ _ _ p2) as [[[]|e|] p3] eqn:Hst; [|done..].
  intros _. by eapply store_signed_pinned.
Qed.

(** ** Recorded spends *)

(** The only failure an accepted broadcast tolerates: an input that is not ours. *)
Definition tolerated (es : list (option error)) : Prop :=
  Forall (λ e, match e with None | Some (NotFoundError _) => True | _ => False end) es.

Lemma no_problem es : omap spend_problem (omap id es) = [] ↔ tolerated es.
Proof.
  rewrite /tolerated. induction es as [|[e|] es IH]; simpl; [by split| |].
  - destruct e; simpl; rewrite ?Forall_cons; naive_solver.
  - rewrite Forall_cons. naive_solver.
Qed.

Definition facts (tok : string) (w : Hash) (ops : list Outpoint) : list SpendOp :=
  (λ op, mkSpendOp op tok w) <$> ops.

(** The state of an outpoint once the spend of it by [w] is recorded. *)
Definition recorded (w : Hash) (o : option UTXO) : Prop :=
  match o with Some u => u_SpentBy u = Some w | None => True end.

Lemma fact_loop tok w ops (m : gmap Outpoint MemStore.row) es m' :
  tok ≠ "" → MemStore.spend_loop true (facts tok w ops) m = (es, m') →
  (∀ op, op ∉ ops → m' !! op = m !! op) ∧
  (∀ op, is_Some (m !! op) → is_Some (m' !! op)) ∧
  (tolerated es → ∀ op, op ∈ ops → recorded w (MemStore.r_utxo <$> m' !! op)).
Proof.
  intros Htok. revert m es m'. induction ops as [|op ops IH]; intros m es m'; simpl.
  { intros [= <- <-]. split_and!; [done..|]. by intros _ op ?%not_elem_of_nil. }
  destruct (MemStore.spendOne true _ m) as [e1 m1] eqn:Hone.
  destruct (MemStore.spend_loop true (facts tok w ops) m1) as [es1 m2] eqn:Hloop. intros [= <- <-].
  destruct (IH _ _ _ Hloop) as (Hout&Hkeep&Hin).
  assert ((∀ op', op' ≠ op → m1 !! op' = m !! op') ∧
    (is_Some (m !! op) → is_Some (m1 !! op)) ∧
    (match e1 with None | Some (NotFoundError _) => True | _ => False end →
     recorded w (MemStore.r_utxo <$> m1 !! op))) as (Ho1&Hk1&Hr1).
  { revert Hone. rewrite /MemStore.spendOne /ValidateSpend /= decide_False //.
    destruct (m !! op) as [r|] eqn:Hop; [|intros [= <- <-]; by rewrite Hop].
    destruct (u_SpentBy (MemStore.r_utxo r)) as [w'|] eqn:Hw.
    - destruct (Z.eqb_spec w' w) as [->|]; intros [= <- <-]; rewrite Hop //=.
    - intros [= <- <-]. rewrite lookup_insert_eq. split; [|done]. intros. by rewrite lookup_insert_ne. }
  split_and!.
  - intros op' [Hne Hni]%not_elem_of_cons. by rewrite Hout // Ho1.
  - intros op' Hs. apply Hkeep. destruct (decide (op' = op)) as [->|Hne]; [by apply Hk1|by rewrite Ho1].
  - rewrite /tolerated Forall_cons. intros [Ht1 Hts] op' Hop'.
    destruct (decide (op' ∈ ops)) as [|Hni]; [by apply Hin|].
    rewrite Hout //. apply elem_of_cons in Hop' as [->|]; [by apply Hr1|done].
Qed.

(** Recorded spends are recorded again without a change and without a complaint. *)
Lemma fact_loop_again tok w ops (m : gmap Outpoint MemStore.row) :
  tok ≠ "" → (∀ op, op ∈ ops → recorded w (MemStore.r_utxo <$> m !! op)) →
  (MemStore.spend_loop true (facts tok w ops) m).2 = m ∧
  tolerated (MemStore.spend_loop true (facts tok w ops) m).1.
Proof.
  intros Htok. induction ops as [|op ops IH]; intros Hrec; simpl; [by split; [|constructor]|].
  assert (∃ e, MemStore.spendOne true (mkSpendOp op tok w) m = (e, m) ∧
    match e with None | Some (NotFoundError _) => True | _ => False end) as (e&->&He).
  { rewrite /MemStore.spendOne /ValidateSpend /= decide_False //.
    specialize (Hrec op ltac:(left)). destruct (m !! op) as [r|]; [|by eexists]. simpl in Hrec.
    rewrite Hrec Z.eqb_refl. by eexists. }
  destruct IH as [Hm Ht]; [intros; apply Hrec; by right|].
  destruct (MemStore.spend_loop true (facts tok w ops) m) as [es m']. simpl in *. split; [done|]. by constructor.
Qed.

Lemma accepted_verdict_None es serr :
  accepted_verdict es serr = None → serr = None ∨ tolerated es.
Proof.
  rewrite /accepted_verdict. destruct serr as [e|]; [|by left]. right. apply no_problem.
  destruct (omap spend_problem (omap id es)) as [|x l]; [done|]. by case_match.
Qed.
Lemma accepted_verdict_tolerated es n :
  tolerated es →
  accepted_verdict es (BatchCountErr (MemStore.count_failed es) n) = None.
Proof.
  intros Ht%no_problem. rewrite /accepted_verdict /BatchCountErr.
  destruct (Z.eqb_spec (MemStore.count_failed es) 0) as [|Hne]; [done|]. rewrite Ht /=.
  destruct (omap id es) as [|e l] eqn:Hes; [|done]. destruct Hne.
  rewrite /MemStore.count_failed. clear -Hes. induction es as [|[e|] es IH]; [done|done|].
  rewrite filter_cons_False; [by apply IH|by intros [??]].
Qed.
Lemma accepted_verdict_closed (sps : list SpendOp) :
  accepted_verdict ((λ _, None) <$> sps) (Some ErrClosed) = Some ErrClosed.
Proof.
  rewrite /accepted_verdict. assert (omap id ((λ _, None) <$> sps) = ([] : list error)) as ->; [|done].
  by induction sps.
Qed.
Lemma failed_none es n : BatchCountErr (MemStore.count_failed es) n = None → tolerated es.
Proof.
  rewrite /BatchCountErr. destruct (Z.eqb_spec (MemStore.count_failed es) 0) as [Hc|]; [|done].
  intros _. revert Hc.
  rewrite /MemStore.count_failed /tolerated. induction es as [|[e|] es IH]; [constructor| |].
  - rewrite filter_cons_True; [|by eexists]. simpl. lia.
  - rewrite filter_cons_False; [|by intros [??]]. intros Hc. constructor; [done|by apply IH].
Qed.

(** The spend of an accepted broadcast, and the same once more. *)
Lemma spendReservedInputs_Ret tx txid tok p p' :
  spendReservedInputs tx txid tok p = (Ret (), p') →
  tok ≠ "" ∧ p_meta p' = p_meta p ∧ p_ticks p' = p_ticks p ∧
  (∀ op, op ∉ tx_ops tx → coin (p_utxo p') op = coin (p_utxo p) op) ∧
  (∀ op, is_Some (coin (p_utxo p) op) → is_Some (coin (p_utxo p') op)) ∧
  ∃ w, NewHashFromHex txid = Some w ∧ (∀ op, op ∈ tx_ops tx → recorded w (coin (p_utxo p') op)) ∧
    ∀ t, spendReservedInputs tx txid tok (mkProvider (p_meta p) (p_utxo p') t) =
         (Ret (), mkProvider (p_meta p) (p_utxo p') t).
Proof.
  rewrite /spendReservedInputs. case_decide as Htok; [done|].
  destruct (NewHashFromHex txid) as [w|]; [|done].
  change ((λ op, mkSpendOp op tok w) <$> tx_ops tx) with (facts tok w (tx_ops tx)).
  destruct (facts tok w (tx_ops tx)) as [|sp sps] eqn:Hf.
  { intros [= <-]. split_and!; [done..|]. apply fmap_nil_inv in Hf. rewrite Hf. exists w. split; [done|].
    split; [by intros ? ?%not_elem_of_nil|]. done. }
  rewrite -Hf. clear Hf sp sps. rewrite /MemStore.Spend.
  destruct (MemStore.closed (p_utxo p)) eqn:Hcl; [by rewrite accepted_verdict_closed|].
  destruct (MemStore.spend_loop true (facts tok w (tx_ops tx)) (MemStore.rows (p_utxo p))) as [es m'] eqn:Hl.
  destruct (accepted_verdict _ _) eqn:Hv; [done|]. intros [= <-]. simpl.
  destruct (fact_loop _ _ _ _ _ _ Htok Hl) as (Hout&Hkeep&Hin).
  assert (tolerated es) as Ht.
  { apply accepted_verdict_None in Hv as [Hv|Hv]; [by eapply failed_none|done]. }
  split_and!; [done|done|done| | |].
  { intros op Hop. by rewrite /coin /= Hout. }
  { intros op. rewrite /coin /= !fmap_is_Some. apply Hkeep. }
  exists w. split; [done|]. split; [by apply Hin|]. intros t. simpl. rewrite Hcl.
  destruct (fact_loop_again tok w (tx_ops tx) m' Htok (Hin Ht)) as [Hm' Ht'].
  destruct (MemStore.spend_loop true (facts tok w (tx_ops tx)) m') as [es' m'']. simpl in *. subst m''.
  by rewrite accepted_verdict_tolerated.
Qed.

(** An accepted transaction cannot be claimed again. *)
Lemma accepted_unclaimable now txid raw (t : table) k :
  encTxID txid = Ret raw →
  (KnownTxRepo.UpdateStatus now txid ProvenTxStatusUnconfirmed
     ProvenTxReqBeyondBroadcastStageStatuses t).2 !! raw = Some k → ¬ claimable_row k.
Proof.
  intros Henc. rewrite /KnownTxRepo.UpdateStatus. cbv [mbind M_bind lift]. rewrite Henc.
  destruct (update_row raw _ _ t) as [o t1] eqn:Hup. assert (o ≠ Panic ∧ ∀ e, o ≠ Err e) as [? Ho].
  { revert Hup. rewrite /update_row. by repeat case_match; intros [= <- _]. }
  destruct o as [n|e|]; [|by destruct (Ho e)|done]. rewrite KnownTxProps.applied_or_why_snd.
  pose proof (KnownTxProps.update_row_snd raw (not_skipped ProvenTxReqBeyondBroadcastStageStatuses)
    (to_status now ProvenTxStatusUnconfirmed) t raw) as Hs.
  rewrite Hup decide_True //= in Hs. rewrite Hs. destruct (t !! raw) as [r|]; [|done]. simpl.
  destruct (not_skipped _ r) eqn:Hsk; intros [= <-] [Hst Hb].
  - simpl in Hb. by rewrite orb_true_r in Hb.
  - apply negb_false_iff in Hsk. apply (claimable_unsettled r); [by split|]. split.
    + move: Hsk. rewrite /is_one_of !bool_decide_eq_true elem_of_app. by left.
    + intros Heq. by rewrite Heq in Hsk.
Qed.

Lemma markInputsSpent_same uid id ins p :
  p_utxo (markInputsSpent clk uid id ins p).2 = p_utxo p ∧
  known_txs (p_meta (markInputsSpent clk uid id ins p).2) = known_txs (p_meta p).
Proof.
  rewrite /markInputsSpent. cbv [mbind M_bind].
  match goal with |- context [localOutputsByOutpoint uid ?l p] =>
    pose proof (pure_markInputs_lookup uid l p) as (Hm&Hu&_);
    destruct (localOutputsByOutpoint uid l p) as [[rows|e|] p1] end; simpl in *; [|by rewrite Hm Hu..].
  case_match; [by rewrite Hm Hu|]. by rewrite AbortProps.meta_call_eq /= Hu Hm.
Qed.

Lemma bind_Ret {A B} (m : PM A) (k : A → PM B) p b p' :
  (m ≫= k) p = (Ret b, p') → ∃ a p1, m p = (Ret a, p1) ∧ k a p1 = (Ret b, p').
Proof. cbv [mbind M_bind]. destruct (m p) as [[a|e|] p1]; [eauto|done..]. Qed.
Lemma ignoring_call b (f : Time → L ()) p a p' :
  ignoring b (meta_call clk f) p = (Ret a, p') →
  p' = mkProvider (f (clk (p_ticks p)) (p_meta p)).2 (p_utxo p) (S (p_ticks p)).
Proof.
  rewrite /ignoring AbortProps.meta_call_eq. destruct (f _ _) as [[[]|e|] m]; simpl; [by intros [= _ <-]| |done].
  by destruct (b _); intros [= _ <-].
Qed.
(** The metadata half of the commit. *)
Lemma commit_rest_Ret txid raw p1 p' id uid ins :
  encTxID txid = Ret raw →
  (_ ← ignoring is_skipped (meta_call clk (λ now, UpdateStatusByTxID now txid TxStatusUnproven acceptedTxStatuses));
   _ ← ignoring (λ e, is_skipped e || is_not_found e) (meta_call clk (λ now,
         known (KnownTxRepo.UpdateStatus now txid ProvenTxStatusUnconfirmed
                  ProvenTxReqBeyondBroadcastStageStatuses)));
   markInputsSpent clk uid id ins) p1 = (Ret (), p') →
  p_utxo p' = p_utxo p1 ∧ ∀ k, known_txs (p_meta p') !! raw = Some k → ¬ claimable_row k.
Proof.
  intros Henc ([]&q1&Hq1%ignoring_call&([]&q2&Hq2%ignoring_call&Hmark)%bind_Ret)%bind_Ret.
  destruct (markInputsSpent_same uid id ins q2) as [Hu Hk]. rewrite Hmark /= in Hu, Hk.
  split; [by rewrite Hu Hq2 Hq1|]. rewrite Hk Hq2 /= AbortProps.known_eq /=. intros k.
  by apply accepted_unclaimable.
Qed.

(** C26: an accepted broadcast is recorded, and recording it again converges.  When the
    commit of an accepted transaction succeeds, each of its inputs in the coin store
    is spent by it, no coin is lost, other coins are as before, and its row can no
    longer be claimed for sending.  If a crash loses the metadata half while the
    spends stay, running the commit again ends in the very same state. *)
Theorem accepted_is_recorded txid tx p p' :
  applyAcceptedBroadcast clk shared txid tx p = (Ret (), p') →
  ∃ w raw, NewHashFromHex txid = Some w ∧ encTxID txid = Ret raw ∧
    (∀ op u, op ∈ tx_ops tx → coin (p_utxo p') op = Some u → u_SpentBy u = Some w) ∧
    (∀ op, is_Some (coin (p_utxo p) op) → is_Some (coin (p_utxo p') op)) ∧
    (∀ op, op ∉ tx_ops tx → coin (p_utxo p') op = coin (p_utxo p) op) ∧
    (∀ k, known_txs (p_meta p') !! raw = Some k → ¬ claimable_row k) ∧
    applyAcceptedBroadcast clk shared txid tx (mkProvider (p_meta p) (p_utxo p') (p_ticks p)) = (Ret (), p').
Proof.
  intros (rows&p1&Hrows&Hrest)%bind_Ret.
  assert (∃ raw, encTxID txid = Ret raw ∧ rows = select_txs (λ _ r, tx_has [raw] r) by_id_desc (p_meta p) ∧ p1 = p)
    as (raw&Henc&Hsel&->).
  { revert Hrows. rewrite /meta_read /zoom /FindByTxIDAllUsers. cbv [mbind M_bind lift gets].
    destruct (encTxID txid) as [raw|e|]; [|done..]. simpl. intros [= <- <-]. exists raw. by destruct p. }
  destruct (first_outgoing rows) as [row|] eqn:Hrow; [|done].
  pose proof (AbortProps.Do_Ret _ _ _ _ _ Hrest) as Hc. apply bind_Ret in Hc as ([]&q&Hspend&Hmeta).
  destruct (spendReservedInputs_Ret _ _ _ _ _ Hspend) as (Htok&Hm&Ht&Hout&Hkeep&w&Hw&Hrec&Hagain).
  destruct (commit_rest_Ret _ _ _ _ _ _ _ Henc Hmeta) as [Hu Hun].
  exists w, raw. split_and!; [done|done| |by rewrite Hu|by rewrite Hu|done|].
  { intros op u Hop Hc. specialize (Hrec op Hop). by rewrite -Hu Hc in Hrec. }
  assert (q = mkProvider (p_meta p) (p_utxo p') (p_ticks p)) as Hq.
  { destruct q; simpl in *. congruence. }
  assert (commit_accepted clk txid tx row q = (Ret (), p')) as Hcommit.
  { rewrite /commit_accepted. cbv [mbind M_bind]. specialize (Hagain (p_ticks p)).
    rewrite -Hu -Hq in Hagain. rewrite Hagain. exact Hmeta. }
  rewrite -Hq. rewrite /applyAcceptedBroadcast. cbv [mbind M_bind]. rewrite /meta_read /zoom /FindByTxIDAllUsers.
  cbv [mbind M_bind lift gets]. rewrite Henc Hm /= -Hsel Hrow.
  assert (with_meta (p_meta p) q = q) as -> by (rewrite -Hm; by destruct q).
  revert Hrest. rewrite /Do Hm. destruct (meta_closed _); [done|]. by rewrite Hcommit.
Qed.
End commit.
End ProcessCommit.
