(* ===== verification/SweepProps.v ===== *)
(** * SweepProps: what the janitors may take back

    The two janitors, [SweepStaleReservations] and [AbortAbandoned], give coins back on
    a timer.  A reserved coin changes only if its transaction is dead: it never had a
    row, or the row is aborted, and if it was the janitor that aborted it, its bytes
    are fenced. *)
From Stdlib Require Import Ascii String.
From S2P Require Import Prelude UtxoTypes MemStore StoreContract Statuses KnownTx KnownTxProps Ledger StatusUpdates.
From S2P Require Import Abort ProviderLogic OutboxProps AbortProps Reconciler Process Sweeps.
Import WdkStatus ArcadeStatus KnownTxRepo Outbox Ledger StatusUpdates ReleaseOps Abort.
Import ProviderLogic OutboxProps AbortProps StoreContract Sweeps.
Local Open Scope string_scope.
Local Open Scope Z_scope.

Module SweepProps.
#[local] Existing Instance same_ledger_preorder.

(** ** Relations on the metadata *)

(** No row appears, and an aborted one stays aborted. *)
Definition fences_kept (t t' : table) : Prop :=
  ∀ raw k', t' !! raw = Some k' →
    ∃ k, t !! raw = Some k ∧ (kt_Status k = KnownTxStatusAborted → kt_Status k' = KnownTxStatusAborted).
#[global] Instance fences_kept_preorder : PreOrder fences_kept.
Proof.
  split; [by intros t raw k; eauto|]. intros t1 t2 t3 H12 H23 raw k3 Hk3.
  destruct (H23 _ _ Hk3) as (k2&Hk2&?). destruct (H12 _ _ Hk2) as (k1&Hk1&?). exists k1. auto.
Qed.

(** Only the transactions row [id0] may change, and that without changing hands. *)
Definition touches_row (id0 : Z) (m m' : Meta) : Prop :=
  fences_kept (known_txs m) (known_txs m') ∧
  ∀ id, match transactions m !! id, transactions m' !! id with
        | Some r, Some r' => tx_UserID r' = tx_UserID r ∧ tx_Reference r' = tx_Reference r ∧
                             (id ≠ id0 → r' = r)
        | None, None => True
        | _, _ => False
        end.
#[global] Instance touches_row_preorder id0 : PreOrder (touches_row id0).
Proof.
  split.
  - intros m. split; [reflexivity|]. intros id. by destruct (transactions m !! id).
  - intros m1 m2 m3 [Hk12 Ht12] [Hk23 Ht23]. split; [by etrans|]. intros id.
    specialize (Ht12 id). specialize (Ht23 id).
    destruct (transactions m1 !! id), (transactions m2 !! id), (transactions m3 !! id); try done.
    destruct Ht12 as (?&?&Ha), Ht23 as (?&?&Hb). split_and!; [congruence..|]. intros Hne. by rewrite Hb // Ha.
Qed.

Lemma same_ledger_touches id0 m m' : same_ledger m m' → touches_row id0 m m'.
Proof.
  intros [Hk Ht]. rewrite /touches_row Hk Ht. split; [reflexivity|]. intros id. by destruct (transactions m !! id).
Qed.

Section sweeps.
Context `{MapRange, Sdk}.
Context (clk : nat → Time) (shared : bool) (errText : perror → string).

Lemma UpdateStatus_touches now id st ex m : touches_row id m (UpdateStatus now id st ex m).2.
Proof.
  rewrite /UpdateStatus. cbv [mbind M_bind update_txs]. set (m1 := with_transactions _ _).
  assert (touches_row id m m1) as Hm.
  { split; [reflexivity|]. intros i. rewrite /m1 /= map_lookup_imap.
    destruct (transactions m !! i) as [r|]; [|done]. simpl. destruct (Z.eqb_spec i id); simpl; [|done].
    by case_match. }
  rewrite /applyStatusUpdate. by case_match.
Qed.
Lemma abort_fences now txid t : fences_kept t (TransitionToAborted now txid t).2.
Proof.
  rewrite /TransitionToAborted /casFromPreBroadcast. cbv [mbind M_bind lift].
  destruct (encTxID txid) as [raw|e|]; [|reflexivity..].
  destruct (update_row raw _ _ t) as [o t1] eqn:Hup.
  assert (fences_kept t t1) as Ht.
  { intros raw' k' Hk'. pose proof (f_equal snd Hup) as Ht1. simpl in Ht1. rewrite -Ht1 KnownTxProps.update_row_snd in Hk'.
    case_decide; [|by eauto]. destruct (t !! raw') as [k|]; [|done]. simpl in Hk'. injection Hk' as <-.
    exists k. split; [done|]. by case_match. }
  destruct o as [n|e|]; [|exact Ht..]. by rewrite KnownTxProps.applied_or_why_snd.
Qed.

Abbreviation row_steps id m := (steps (on_meta (touches_row id)) m).

Lemma elsewhere_touches {A} id (f : Time → L A) :
  (∀ now m, known_txs (f now m).2 = known_txs m ∧ transactions (f now m).2 = transactions m) →
  row_steps id (meta_call clk f).
Proof. intros Hf. apply msteps_call; [apply _|]. intros. apply same_ledger_touches, Hf. Qed.

Lemma fenceAborted_touches txRow txid : row_steps txRow.1 (fenceAborted clk txRow txid).
Proof.
  assert (row_steps txRow.1 (meta_call clk (λ now, ClearSpentBy now txRow.1))) as Hcl
    by by apply elsewhere_touches.
  rewrite /fenceAborted. apply steps_bind.
  { apply steps_try, msteps_call; [apply _|]. intros. apply UpdateStatus_touches. }
  intros [e|_]; [apply steps_throw|]. case_decide; [apply steps_ret|]. apply steps_bind.
  { apply steps_try, msteps_call; [apply _|]. intros now m. rewrite known_eq. split; [apply abort_fences|].
    intros id. by destruct (transactions m !! id) eqn:Hr; rewrite /= Hr. }
  intros [e|_]; [|done]. case_match; [done|]. case_match; apply steps_throw.
Qed.
Lemma same_steps {A} id (m : PM A) : steps (on_meta same_ledger) m → row_steps id m.
Proof. intros Hm p. apply same_ledger_touches, Hm. Qed.
Lemma eq_steps {A} id (m : PM A) : steps (on_meta eq) m → row_steps id m.
Proof. intros Hm p. rewrite /on_meta -(Hm p). reflexivity. Qed.

Lemma abortDirect_touches userID txRow : row_steps txRow.1 (abortDirect clk shared userID txRow).
Proof.
  apply steps_Do. apply steps_bind; [apply fenceAborted_touches|intros _].
  apply steps_bind; [apply eq_steps, doAbortRelease_meta|intros _]. case_decide; [apply steps_ret|].
  apply steps_bind; [apply pure_steps, pure_changeOutpoints|intros ops]. apply eq_steps, doAbortRemoveChange_meta.
Qed.
Lemma abort_phase1_touches userID txRow : row_steps txRow.1 (abort_phase1 clk shared userID txRow).
Proof.
  apply steps_Do. apply steps_bind; [apply fenceAborted_touches|intros _].
  apply steps_bind; [apply pure_steps, pure_abort_ops|intros ops].
  apply steps_bind; [apply same_steps, enqueue_all_ledger|]. intros. apply steps_ret.
Qed.
Lemma abortTxRow_touches userID txRow p :
  transactions (p_meta p) !! txRow.1 = Some txRow.2 →
  touches_row txRow.1 (p_meta p) (p_meta (abortTxRow clk shared errText userID txRow p).2).
Proof.
  intros Hrow. rewrite /abortTxRow. destruct shared eqn:Hs; rewrite -?Hs; [apply abortDirect_touches|].
  rewrite /abortViaOutbox. cbv [mbind M_bind]. pose proof (abort_phase1_touches userID txRow p) as Ht.
  rewrite /on_meta in Ht. destruct (abort_phase1 clk shared userID txRow p) as [[ops|e|] p1] eqn:Hp1; [|done..].
  apply abort_phase1_Ret in Hp1 as (_&(Hop&_)&_); [|done]. simpl in Ht. etrans; [exact Ht|].
  apply same_ledger_touches.
  assert (steps (on_meta same_ledger) (best_effort (Do shared (execute_inline clk errText ops)))) as Hb; [|apply Hb].
  by apply steps_best_effort, steps_Do, execute_inline_ledger.
Qed.

(** ** Sparing the living *)

Definition names (u : UTXO) (row : TableTransaction) : Prop :=
  tx_UserID row = u_UserID u ∧ tx_Reference row = u_ReservedBy u.

(** The transaction behind a reserved coin is dead: it has no row and the coin is not
    pinned, or its row is aborted; if it was not so before, its bytes are fenced. *)
Definition dead (m m' : Meta) (u : UTXO) : Prop :=
  (u_Pinned u = false ∧ ∀ id row, transactions m' !! id = Some row → ¬ names u row) ∨
  ∃ id row, transactions m' !! id = Some row ∧ names u row ∧ tx_Status row = TxStatusAborted ∧
    (transactions m !! id = Some row ∨ fenced m' row).

Definition reserved (u : UTXO) : Prop := u_ReservedBy u ≠ "" ∧ u_SpentBy u = None.

Definition meta_kept (m m' : Meta) : Prop :=
  fences_kept (known_txs m) (known_txs m') ∧
  ∀ id, match transactions m !! id, transactions m' !! id with
        | Some r, Some r' => tx_UserID r' = tx_UserID r ∧ tx_Reference r' = tx_Reference r ∧
                             (tx_Status r = TxStatusAborted → r' = r) ∧
                             (tx_Status r' = TxStatusAborted → r' = r ∨ fenced m' r')
        | None, None => True
        | _, _ => False
        end.
Definition spares (p p' : Provider) : Prop :=
  meta_kept (p_meta p) (p_meta p') ∧
  ∀ op u, coin (p_utxo p) op = Some u → reserved u →
    coin (p_utxo p') op = Some u ∨ dead (p_meta p) (p_meta p') u.

Lemma fenced_kept m m' row : fences_kept (known_txs m) (known_txs m') → fenced m row → fenced m' row.
Proof.
  intros Hf [Hs Hk]. split; [done|]. intros raw k' Hraw Hne Hk'.
  destruct (Hf raw k' Hk') as (k&Hk0&Ha). eauto.
Qed.
Lemma meta_kept_refl m : meta_kept m m.
Proof. split; [reflexivity|]. intros id. destruct (transactions m !! id); [|done]. auto. Qed.
#[global] Instance meta_kept_preorder : PreOrder meta_kept.
Proof.
  split; [exact meta_kept_refl|]. intros m1 m2 m3 [Hk12 Ht12] [Hk23 Ht23]. split; [by etrans|]. intros id.
  specialize (Ht12 id). specialize (Ht23 id).
  destruct (transactions m1 !! id), (transactions m2 !! id), (transactions m3 !! id); try done.
  destruct Ht12 as (?&?&Ha&Hb), Ht23 as (?&?&Hc&Hd). split_and!; [congruence..| |].
  - intros Hs. pose proof (Ha Hs) as ->. by apply Hc.
  - intros Hs. destruct (Hd Hs) as [->|]; [|by right].
    destruct (Hb Hs) as [->|]; [by left|right]. by eapply fenced_kept.
Qed.

Lemma dead_before m1 m2 m3 u : meta_kept m1 m2 → meta_kept m2 m3 → dead m2 m3 u → dead m1 m3 u.
Proof.
  intros [_ H12] [Hk23 H23] [?|(id&row&Hrow&Hn&Hs&Hor)]; [by left|right]. exists id, row. split_and!; try done.
  destruct Hor as [H2|]; [|by right]. specialize (H12 id). rewrite H2 in H12.
  destruct (transactions m1 !! id) as [r|]; [|done]. destruct H12 as (_&_&_&Hd).
  destruct (Hd Hs) as [->|]; [by left|right]. by eapply fenced_kept.
Qed.
Lemma dead_after m1 m2 m3 u : meta_kept m2 m3 → dead m1 m2 u → dead m1 m3 u.
Proof.
  intros [Hk23 H23] [[Hp Hno]|(id&row&Hrow&Hn&Hs&Hor)].
  - left. split; [done|]. intros id row Hrow [Hu Hr]. specialize (H23 id). rewrite Hrow in H23.
    destruct (transactions m2 !! id) as [r|] eqn:Hr2; [|done]. destruct H23 as (Hu'&Hr'&_).
    apply (Hno id r Hr2). split; congruence.
  - right. specialize (H23 id). rewrite Hrow in H23. destruct (transactions m3 !! id) as [r|] eqn:Hr3; [|done].
    destruct H23 as (_&_&Ha&_). rewrite (Ha Hs) in Hr3. exists id, row. split_and!; try done.
    destruct Hor as [|]; [by left|right]. by eapply fenced_kept.
Qed.
#[global] Instance spares_preorder : PreOrder spares.
Proof.
  split.
  - intros p. split; [reflexivity|]. by left.
  - intros p1 p2 p3 [Hm12 Hc12] [Hm23 Hc23]. split; [by etrans|]. intros op u Hu Hr.
    destruct (Hc12 op u Hu Hr) as [Hu2|Hd]; [|right; by eapply dead_after].
    destruct (Hc23 op u Hu2 Hr) as [?|Hd]; [by left|right]. by eapply dead_before.
Qed.

Lemma spares_pure {A} (m : PM A) p : pure_ m → spares p (m p).2.
Proof.
  intros Hm. destruct (Hm p) as (Hme&Hu&_). rewrite /spares Hme Hu. split; [reflexivity|]. by left.
Qed.
Lemma spares_same p p' : same_ledger (p_meta p) (p_meta p') → p_utxo p' = p_utxo p → spares p p'.
Proof.
  intros [Hk Ht] Hu. rewrite /spares Hu. split; [|by left]. rewrite /meta_kept Hk Ht. split; [reflexivity|].
  intros id. destruct (transactions (p_meta p) !! id); [|done]. auto.
Qed.
Lemma spares_each {A} (f : A → PM ()) (P : A → Provider → Prop) l p :
  (∀ x q, P x q → spares q (f x q).2) →
  (∀ x y q, x ∈ l → y ∈ l → x ≠ y → P y q → P x q → P y (f x q).2) →
  NoDup l → (∀ x, x ∈ l → P x p) → spares p (each f l p).2.
Proof.
  intros Hf Hkeep Hnd. revert p. induction l as [|x l IH]; intros p HP; simpl; [reflexivity|].
  apply NoDup_cons in Hnd as [Hx Hnd].
  assert (spares p (f x p).2) as Hs by (apply Hf, HP; left).
  assert (spares (f x p).2 (each f l (f x p).2).2) as Hr.
  { apply IH; [intros; apply Hkeep; try done; by right|done|].
    intros y Hy. apply Hkeep; [left|by right|intros ->; done|apply HP; by right|apply HP; left]. }
  destruct (f x p) as [[[]|e|] p1]; simpl in *; [by etrans..|done].
Qed.

(** *** The arms of a sweep *)

Lemma spares_abort userID txRow p :
  transactions (p_meta p) !! txRow.1 = Some txRow.2 → tx_UserID txRow.2 = userID →
  tx_Status txRow.2 ≠ TxStatusAborted → spares p (abortTxRow clk shared errText userID txRow p).2.
Proof.
  intros Hrow Huser Hlive. pose proof (abortTxRow_touches userID txRow p Hrow) as Htr.
  pose proof (abortTxRow_leaves clk shared errText userID txRow p Hrow) as Hl. cbv zeta in Hl.
  remember (abortTxRow clk shared errText userID txRow p).2 as p' eqn:Hp'. clear Hp'.
  destruct Htr as [Hk Ht], Hl as [[Hm Hu]|[Hab Hto]].
  { rewrite /spares Hm Hu. split; [reflexivity|]. by left. }
  destruct Hab as (row&Hrow'&Hu'&Hr'&_&Hfen). split.
  - split; [done|]. intros id. generalize (Ht id).
    destruct (transactions (p_meta p) !! id) as [r|] eqn:Hid; [|done].
    destruct (transactions (p_meta p') !! id) as [r'|] eqn:Hid'; [|done]. intros (?&?&Hsame).
    destruct (decide (id = txRow.1)) as [->|Hne].
    + rewrite Hrow in Hid. injection Hid as <-. rewrite Hrow' in Hid'. injection Hid' as <-.
      split; [done|]. split; [done|]. split; [done|]. by right.
    + rewrite (Hsame Hne). auto.
  - intros op u Hc [Htok Hsp]. destruct (Hto op) as [->|[(u'&Hu1&Hheld)|(u'&Hu1&[Hf _]&_)]]; [by left| |].
    + rewrite Hc in Hu1. injection Hu1 as <-. right. right. destruct Hheld as (?&?&_).
      exists txRow.1, row. split_and!; [done| |apply Hfen|by right]. split; congruence.
    + rewrite Hc in Hu1. injection Hu1 as <-. done.
Qed.

(** Coin-store calls on one reservation. *)
Lemma spares_calls cs uid tok p p' :
  Forall (abort_call uid tok None) cs → p_utxo p' = run cs (p_utxo p) →
  same_ledger (p_meta p) (p_meta p') →
  (∀ u, held uid tok u → reserved u → dead (p_meta p) (p_meta p') u) → spares p p'.
Proof.
  intros Hcs Hu Hsame Hd. split.
  { destruct (spares_same p (mkProvider (p_meta p') (p_utxo p) 0)) as [? _]; done. }
  intros op u Hc Hr. destruct (touches_run uid tok None cs (p_utxo p) Hcs op) as [Heq|[(u'&Hu'&Hh)|(u'&?&?&?)]].
  - left. by rewrite Hu Heq.
  - right. rewrite Hc in Hu'. injection Hu' as <-. by apply Hd.
  - done.
Qed.

Lemma found_row uid tok m row :
  head (select_txs (λ _ r, (tx_UserID r =? uid) && bool_decide (tx_Reference r = tok)) by_id m) = Some row →
  transactions m !! row.1 = Some row.2 ∧ tx_UserID row.2 = uid ∧ tx_Reference row.2 = tok.
Proof.
  intros [? [?%Z.eqb_eq ?%bool_decide_eq_true]%andb_true_iff]%head_elem%select_txs_elem. done.
Qed.
Lemma no_row uid tok m id row :
  head (select_txs (λ _ r, (tx_UserID r =? uid) && bool_decide (tx_Reference r = tok)) by_id m) = None →
  transactions m !! id = Some row → tx_UserID row = uid → tx_Reference row = tok → False.
Proof.
  intros Hh Hrow Hu Hr. apply head_None in Hh.
  assert ((id, row) ∈ select_txs (λ _ r, (tx_UserID r =? uid) && bool_decide (tx_Reference r = tok)) by_id m) as Hin.
  { rewrite /select_txs SortFunc_perm list_elem_of_filter elem_of_map_to_list /=. split; [|done].
    rewrite Hu Hr Z.eqb_refl bool_decide_true //. }
  rewrite Hh in Hin. by apply not_elem_of_nil in Hin.
Qed.

Lemma pure_refPinState ops : pure_ (refPinState ops).
Proof.
  induction ops as [|op ops IH]; simpl; [apply pure_ret|]. apply pure_bind.
  { apply pure_try. intros p. rewrite /utxo_call /zoom /MemStore.Get /MemStore.guard_open.
    destruct (MemStore.closed (p_utxo p)); [by destruct p|]. by destruct (MemStore.rows _ !! _); destruct p. }
  intros [e|u]; [|case_match; [apply pure_ret|done]].
  repeat (case_match; try apply pure_ret; try done).
Qed.

Lemma spares_release ref p :
  (∀ id row, transactions (p_meta p) !! id = Some row → tx_UserID row = ref_UserID ref →
     tx_Reference row = ref_Reservation ref → False) →
  spares p (utxo_call (MemStore.ReleaseReservation (ref_UserID ref) (ref_Reservation ref)) p).2.
Proof.
  intros Hno. set (p' := (utxo_call _ p).2).
  assert (p_meta p' = p_meta p ∧ p_utxo p' = exec (CReleaseReservation (ref_UserID ref) (ref_Reservation ref)) (p_utxo p)) as [Hm Hu].
  { rewrite /p' /utxo_call /zoom /=. by destruct (MemStore.ReleaseReservation _ _ _). }
  rewrite /spares Hm Hu. split; [reflexivity|]. intros op u Hc Hr.
  pose proof (exec_evolves (CReleaseReservation (ref_UserID ref) (ref_Reservation ref)) (p_utxo p) op) as Hev.
  rewrite Hc in Hev. inversion Hev as [|? ? ? Hl]; [by left|]. right. left.
  inversion Hl; simplify_eq/=. split; [done|]. intros id row Hrow [? ?].
  match goal with Hh : held _ _ u |- _ => destruct Hh as (?&?&_) end. apply (Hno id row Hrow); congruence.
Qed.

Lemma spares_bind {A B} (m : PM A) (k : A → PM B) p :
  spares p (m p).2 → (∀ a p1, m p = (Ret a, p1) → spares p1 (k a p1).2) → spares p ((m ≫= k) p).2.
Proof.
  intros Hm Hk. cbv [mbind M_bind]. destruct (m p) as [[a|e|] p1]; simpl in *; [|done..].
  etrans; [exact Hm|by apply Hk].
Qed.
Lemma spares_ret {A} (a : A) p : spares p ((mret a : PM A) p).2.
Proof. reflexivity. Qed.
Lemma spares_try {A} (m : PM A) p : spares p (m p).2 → spares p (try_ m p).2.
Proof. rewrite /try_. by destruct (m p) as [[] ?]. Qed.

Lemma spares_orphan ref p :
  (∀ id row, transactions (p_meta p) !! id = Some row → tx_UserID row = ref_UserID ref →
     tx_Reference row = ref_Reservation ref → False) →
  spares p (sweep_orphan ref p).2.
Proof.
  intros Hno. apply spares_bind; [by apply spares_pure, pure_refPinState|].
  intros st p1 Hst. pose proof (pure_refPinState (ref_Outpoints ref) p) as (Hm1&_). rewrite Hst /= in Hm1.
  destruct st; [|apply spares_ret..].
  apply spares_bind; [apply spares_release; by rewrite Hm1|]. intros. apply spares_ret.
Qed.
Lemma spares_heal ref p id row :
  transactions (p_meta p) !! id = Some row → tx_UserID row = ref_UserID ref →
  tx_Reference row = ref_Reservation ref → tx_Status row = TxStatusAborted → spares p (sweep_heal ref p).2.
Proof.
  intros Hrow Hu Hr Hs. apply spares_bind.
  - pose proof (doAbortRelease_meta (ref_UserID ref) (ref_Reservation ref) p) as Hm. rewrite /on_meta in Hm.
    eapply (spares_calls _ (ref_UserID ref) (ref_Reservation ref)); [|apply doAbortRelease_calls| |].
    + by repeat constructor.
    + by rewrite -Hm.
    + rewrite -Hm. intros u (?&?&_) _. right. exists id, row. split_and!; [done|split; congruence|done|by left].
  - intros _ p1 _. apply spares_bind; [|intros; apply spares_ret].
    apply spares_bind; [|intros; apply spares_ret]. apply spares_try, spares_same.
    + by rewrite /meta_read /zoom /on_outbox /=.
    + done.
Qed.

Lemma sweepStaleReservation_spares ref p :
  spares p (sweepStaleReservation clk shared errText ref p).2.
Proof.
  apply spares_bind; [by apply spares_pure, pure_read|]. intros found p1 Hf.
  assert (p1 = p ∧ found = head (select_txs (λ _ r, (tx_UserID r =? ref_UserID ref) &&
    bool_decide (tx_Reference r = ref_Reservation ref)) by_id (p_meta p))) as [-> ->].
  { revert Hf. rewrite /meta_read /zoom /FindByReference /=. intros [= <- <-]. by destruct p. }
  destruct (head _) as [row|] eqn:Hh; last first.
  { apply spares_orphan. intros id row Hrow Hu Hr. by eapply no_row. }
  apply found_row in Hh as (Hrow&Hu&Hr).
  destruct (is_one_of _ sweepAbortableStatuses) eqn:Hst.
  { apply spares_bind; [|intros; repeat case_match; reflexivity]. apply spares_try, spares_abort; [done..|].
    intros Hab. by rewrite Hab in Hst. }
  case_decide; [by eapply spares_heal|]. case_decide; apply spares_ret.
Qed.

(** *** The janitors *)

Lemma spares_seq {A} (f : A → PM ()) l p : (∀ x q, spares q (f x q).2) → spares p (each f l p).2.
Proof.
  intros Hf. revert p. induction l as [|x l IH]; intros p; simpl; [reflexivity|].
  pose proof (Hf x p) as Hx. destruct (f x p) as [[]p1]; simpl in *; [| |done]; (etrans; [exact Hx|apply IH]).
Qed.

Lemma pure_findStale olderThan limit :
  pure_ (utxo_call (MemStore.FindStaleReservationsIncludingPinned olderThan limit)).
Proof.
  intros [m u t]. rewrite /utxo_call /zoom /MemStore.FindStaleReservationsIncludingPinned /MemStore.findStale /MemStore.guard_open /=.
  destruct (MemStore.closed u); [done|]. by destruct (limit <=? 0).
Qed.
Lemma SweepStaleReservations_spares olderThan limit p :
  spares p (SweepStaleReservations clk shared errText olderThan limit p).2.
Proof.
  apply spares_bind; [by apply spares_pure, pure_findStale|]. intros refs p1 _. apply spares_seq.
  intros ref q. apply spares_bind; [apply sweepStaleReservation_spares|]. intros. apply spares_ret.
Qed.

(** A work item of [AbortAbandoned] is the row it was read from, and abortable. *)
Definition abandoned_row (row : Z * TableTransaction) (p : Provider) : Prop :=
  transactions (p_meta p) !! row.1 = Some row.2 ∧ tx_Status row.2 ≠ TxStatusAborted.

Lemma limited_sub {A} limit (l : list A) : limited limit l `sublist_of` l.
Proof. rewrite /limited. case_match; [apply slice_to_sublist|done]. Qed.

Lemma AbortAbandoned_spares olderThan limit p :
  spares p (AbortAbandoned clk shared errText olderThan limit p).2.
Proof.
  apply spares_bind; [by apply spares_pure, pure_read|]. intros rows p1 Hf.
  assert (p1 = p ∧ rows = limited (page_limit limit) (select_txs (λ _ r,
    tx_status_in [TxStatusUnsigned; TxStatusNoSend] r && (tx_CreatedAt r <=? olderThan)) by_tx_created (p_meta p))) as [-> ->].
  { revert Hf. rewrite /meta_read /zoom /FindAbandonedBefore /=. intros [= <- <-]. by destruct p. }
  set (sel := select_txs _ _ _).
  assert (∀ row, row ∈ sel → abandoned_row row p) as Hsel.
  { intros row [Hrow [Hs _]%andb_true_iff]%select_txs_elem. split; [done|]. intros Hab.
    by rewrite /tx_status_in Hab in Hs. }
  assert (NoDup sel.*1) as Hnd.
  { rewrite /sel /select_txs SortFunc_perm.
    eapply sublist_NoDup; [apply (NoDup_fst_map_to_list (transactions (p_meta p)))|].
    apply sublist_fmap_fst, sublist_filter. }
  pose proof (limited_sub (page_limit limit) sel) as Hsub.
  apply (spares_each _ abandoned_row).
  - intros row q [Hrow Hs]. by apply spares_abort.
  - intros x y q Hx Hy Hne [Hrow Hs] [Hxrow _]. split; [|done].
    pose proof (abortTxRow_touches (tx_UserID x.2) x q Hxrow) as Htr.
    remember (abortTxRow clk shared errText (tx_UserID x.2) x q).2 as q' eqn:Hq'. clear Hq'.
    destruct Htr as [_ Ht]. generalize (Ht y.1). rewrite Hrow.
    destruct (transactions (p_meta q') !! y.1) as [r|]; [|done]. intros (_&_&Hsame). f_equal. apply Hsame.
    intros Heq. apply Hne. destruct x as [i rx], y as [j ry]. simpl in *. subst. congruence.
  - eapply sublist_NoDup; [by eapply NoDup_fmap_1|exact Hsub].
  - intros row Hrow. apply Hsel. by eapply elem_of_sublist.
Qed.

(** ** Theorem *)

Inductive janitor (p : Provider) : Provider → Prop :=
| stale_sweep olderThan limit : janitor p (SweepStaleReservations clk shared errText olderThan limit p).2
| abandoned_sweep olderThan limit : janitor p (AbortAbandoned clk shared errText olderThan limit p).2.

(** C27: the janitors free only the coins of dead transactions.  However often the two
    sweeps run, with whatever cutoffs and limits, a reserved unspent coin is left
    exactly as it was unless its transaction is dead: there is no transaction row for
    its reservation and it was not pinned, or the row is aborted, and if the sweeps
    were the ones to abort it, the raw transaction, if stored, is fenced. *)
Theorem janitors_spare_the_living p p' op u :
  rtc janitor p p' → coin (p_utxo p) op = Some u → reserved u →
  coin (p_utxo p') op = Some u ∨ dead (p_meta p) (p_meta p') u.
Proof.
  intros Hj. assert (spares p p') as [_ Hs]; [|apply Hs]. induction Hj as [p|p1 p2 p3 H12 _ IH]; [reflexivity|].
  etrans; [|exact IH]. destruct H12; [apply SweepStaleReservations_spares|apply AbortAbandoned_spares].
Qed.
End sweeps.
End SweepProps.
