(* ===== verification/PollProps.v ===== *)
(** * PollProps: polling reaches every waiting transaction

    A poll stamps the rows it takes before anything else, whatever becomes of them
    later, and the work list is ordered by that stamp.  So a sweep that passes a due row
    over has moved a whole page of rows behind it, and the number of rows in front of it
    bounds the number of sweeps it waits, even when no status can be applied. *)
From Stdlib Require Import Ascii String.
From S2P Require Import Prelude UtxoTypes MemStore Statuses KnownTx KnownTxProps Ledger StatusUpdates StatusUpdatesProps.
From S2P Require Import Abort ProviderLogic Reconciler ReconcilerProps Process Sweeps.
Import WdkStatus ArcadeStatus KnownTxRepo Outbox Ledger StatusUpdates StatusUpdatesProps ReleaseOps Abort.
Import ProviderLogic Reconciler Sweeps.
Local Open Scope string_scope.
Local Open Scope Z_scope.

Module PollProps.

(** ** The poll order *)

#[local] Instance pollOrder_total : Total (cmp_le pollOrder).
Proof.
  intros [ra a] [rb b]. rewrite /cmp_le /pollOrder /by_txid /bytes_Compare /=.
  rewrite (Z.compare_antisym (kt_LastPolledAt a)) (Z.compare_antisym (kt_UpdatedAt a)) (String.compare_antisym ra).
  destruct (kt_LastPolledAt a ?= kt_LastPolledAt b), (kt_UpdatedAt a ?= kt_UpdatedAt b), (String.compare rb ra);
    simpl; (left; discriminate) || (right; discriminate).
Qed.

Definition earlier (a b : Raw * KnownTx) : Prop := kt_LastPolledAt a.2 ≤ kt_LastPolledAt b.2.
#[local] Instance earlier_trans : Transitive earlier.
Proof. intros a b c. rewrite /earlier. lia. Qed.
Lemma pollOrder_earlier a b : cmp_le pollOrder a b → earlier a b.
Proof.
  rewrite /cmp_le /pollOrder /earlier. destruct (Z.compare_spec (kt_LastPolledAt a.2) (kt_LastPolledAt b.2)); [lia..|done].
Qed.
Lemma by_age l : StronglySorted earlier (SortFunc pollOrder l).
Proof.
  apply Sorted_StronglySorted; [exact earlier_trans|].
  assert (Sorted (cmp_le pollOrder) (SortFunc pollOrder l)) as Hs by apply Sorted_merge_sort, _.
  induction Hs as [|x l' _ IH Hx]; constructor; [done|]. destruct Hx; constructor. by apply pollOrder_earlier.
Qed.

(** A row left out of a page leaves the page full, of rows polled no later than it. *)
Lemma left_out limit l y :
  y ∈ l → y ∉ limited limit (SortFunc pollOrder l) →
  0 < limit ∧ Z.of_nat (length (limited limit (SortFunc pollOrder l))) = limit ∧
  Forall (λ x, earlier x y) (limited limit (SortFunc pollOrder l)).
Proof.
  intros Hy. assert (y ∈ SortFunc pollOrder l) as Hy' by by rewrite SortFunc_perm.
  pose proof (by_age l) as Hs. revert Hs Hy'. clear Hy. rewrite /limited.
  generalize (SortFunc pollOrder l) as ls. intros ls Hs Hy Hout.
  destruct (0 <? limit) eqn:Hl; [|done]. apply Z.ltb_lt in Hl. rewrite /slice_to in Hout |- *.
  set (n := Z.to_nat _) in *. rewrite -(take_drop n ls) in Hy, Hs.
  apply elem_of_app in Hy as [Hy|Hy]; [done|].
  split_and!; [done| |apply Forall_forall; intros x Hx; by eapply StronglySorted_app_1_elem_of].
  rewrite length_take. assert (n < length ls)%nat; [|lia].
  destruct (decide (n < length ls)%nat) as [|Hge]; [done|].
  rewrite drop_ge in Hy; [by apply not_elem_of_nil in Hy|lia].
Qed.

(** ** Rows polled no later than a moment *)

(** The rows last polled by [s] at the latest are among [T]. *)
Definition within (s : Time) (T : gset Raw) (raw : Raw) (k : KnownTx) : Prop := kt_LastPolledAt k ≤ s → raw ∈ T.
Definition waiting (s : Time) (p : Provider) : gset Raw :=
  dom (filter (λ kr : Raw * KnownTx, kt_LastPolledAt kr.2 ≤ s) (known_txs (p_meta p))).

Lemma elem_of_waiting s p raw :
  raw ∈ waiting s p ↔ ∃ k, known_txs (p_meta p) !! raw = Some k ∧ kt_LastPolledAt k ≤ s.
Proof. rewrite /waiting elem_of_dom. 
  split; intros [k Hk]; exists k; [by apply map_lookup_filter_Some in Hk|by apply map_lookup_filter_Some].
Qed.
Lemma within_waiting s T p : rows_ok (within s T) (known_txs (p_meta p)) ↔ waiting s p ⊆ T.
Proof.
  split.
  - intros Hp raw (k&Hk&Hs)%elem_of_waiting. by apply (Hp raw k Hk).
  - intros Hp raw k Hk Hs. apply Hp, elem_of_waiting. eauto.
Qed.

(** ** Stamping *)

Lemma dedup_txids_elem seen ts t : t ∈ ts → t ∈ seen ∨ t ∈ dedup_from seen ts.
Proof.
  revert seen. induction ts as [|t' ts IH]; intros seen; simpl; [by intros ?%not_elem_of_nil|].
  intros [->|Ht]%elem_of_cons; case_decide; [by left|right; by left|by apply IH|].
  destruct (IH ({[t']} ∪ seen) Ht) as [Hs|Hs]; [|right; by right]. set_solver.
Qed.
Lemma dedup_txids_sub seen ts t : t ∈ dedup_from seen ts → t ∈ ts.
Proof. revert seen. induction ts as [|t' ts IH]; intros seen; simpl; [done|]. case_decide; set_solver. Qed.

Lemma encode_all_Ret ts :
  (∀ t, t ∈ ts → ∃ raw, encTxID t = Ret raw) →
  ∃ raws, encode_all ts = Ret raws ∧ ∀ t raw, t ∈ ts → encTxID t = Ret raw → raw ∈ raws.
Proof.
  induction ts as [|t ts IH]; intros Hts; simpl; [exists []; split; [done|]; by intros ?? ?%not_elem_of_nil|].
  destruct (Hts t) as [raw Hraw]; [by left|]. destruct IH as (raws&Hraws&Hin); [intros; apply Hts; by right|].
  exists (raw :: raws). rewrite Hraw Hraws. split; [done|]. intros t' raw' [->|Ht']%elem_of_cons Henc.
  - rewrite Hraw in Henc. injection Henc as ->. by left.
  - right. by eapply Hin.
Qed.

Lemma MarkPolled_within s T X now txids t :
  s < now → (∀ txid, txid ∈ txids → ∃ raw, encTxID txid = Ret raw) →
  (∀ raw, raw ∈ X → ∃ txid, txid ∈ txids ∧ encTxID txid = Ret raw) →
  rows_ok (within s T) t → rows_ok (within s (T ∖ X)) (MarkPolled now txids t).2.
Proof.
  intros Hnow Henc HX Ht. destruct txids as [|x txids'] eqn:Htx.
  { intros raw k Hk Hs. apply elem_of_difference. split; [by eapply Ht|]. by intros (?&?%not_elem_of_nil&_)%HX. }
  rewrite -Htx in Henc HX. assert (MarkPolled now (x :: txids') t =
    (ids ← lift (sortedRawTxIDs txids); update_in ids (λ _, true) (set_kt_LastPolledAt now)) t) as -> by by rewrite Htx.
  destruct (encode_all_Ret (dedup_from ∅ txids)) as (raws&Hraws&Hin); [intros; by eapply Henc, dedup_txids_sub|].
  intros raw k. rewrite /sortedRawTxIDs Hraws. cbn. rewrite map_lookup_imap.
  destruct (t !! raw) as [k0|] eqn:Hk0; [|done]. cbn. intros [= <-]. rewrite andb_true_r.
  case_bool_decide as Hr; rewrite /within /=; [lia|]. intros Hs. apply elem_of_difference.
  split; [by eapply Ht|]. intros (txid&Hx&He)%HX. apply Hr. rewrite SortFunc_perm. eapply Hin; [|done].
  by destruct (dedup_txids_elem ∅ txids txid Hx).
Qed.

Section poll.
Context `{MapRange, Sdk}.
Context (clk : nat → Time) (hdrs : option Headers) (shared : bool).
Context (oracle : nat → string → oracle_answer).
(** A moment before the clock's readings. *)
Context (s : Time) (Hclk : ∀ i, s < clk i).

Section keeps.
Context (T : gset Raw).

Lemma within_stable : stable (within s T).
Proof. split; intros; done. Qed.
Lemma within_welcome r : welcome hdrs (within s T) r.
Proof. intros _ pr _ txid _ now raw k _ Hk. done. Qed.

Lemma apply_retry_pres n batch : preserves (within s T) (apply_retry clk hdrs shared n batch).
Proof.
  induction n as [|n IH]; simpl; [apply preserves_ret|]. apply preserves_bind.
  { apply preserves_try, ApplyStatusBatch_pres; [apply within_stable|]. intros. apply within_welcome. }
  intros [e|_]; [done|apply preserves_ret].
Qed.
Lemma apply_singly_pres batch : preserves (within s T) (apply_singly clk hdrs shared batch).
Proof.
  induction batch as [|r batch IH]; simpl; [apply preserves_ret|]. apply preserves_bind.
  { apply preserves_try, ApplyStatusUpdate_pres; [apply within_stable|apply within_welcome]. }
  intros x. apply preserves_bind; [done|]. intros. apply preserves_ret.
Qed.
Lemma fetch_all_pres kts : preserves (within s T) (fetch_all oracle kts).
Proof.
  induction kts as [|kt kts IH]; simpl; [apply preserves_ret|].
  apply preserves_bind; [by apply preserves_reads|intros a].
  apply preserves_bind; [done|]. intros. apply preserves_ret.
Qed.

(** What follows the stamping. *)
Definition after_marking (kts : list KnownTx) : PM () :=
  recs ← fetch_all oracle kts;
  match filter (λ r, rec_TxID r ≠ "") recs with
  | [] => mret ()
  | batch =>
      applied ← apply_retry clk hdrs shared pollApplyAttempts batch;
      if (applied : bool) then mret ()
      else
        failed ← apply_singly clk hdrs shared batch;
        match failed with [] => mret () | _ => throw (Refused "poll apply failed") end
  end.
Lemma after_marking_pres kts : preserves (within s T) (after_marking kts).
Proof.
  apply preserves_bind; [apply fetch_all_pres|]. intros recs. case_match; [apply preserves_ret|].
  apply preserves_bind; [apply apply_retry_pres|]. intros [|]; [apply preserves_ret|].
  apply preserves_bind; [apply apply_singly_pres|]. intros []; [apply preserves_ret|apply preserves_throw].
Qed.

Lemma MarkPolled_pres txids : preserves (within s T) (best_effort (meta_call clk (λ now, known (MarkPolled now txids)))).
Proof.
  apply preserves_bind; [apply preserves_try|intros; apply preserves_ret].
  intros p Hp. refine (preserves_read _ (known (MarkPolled (clk (p_ticks p)) txids)) _ (mkProvider _ _ _) Hp).
  apply lpreserves_known. rewrite /MarkPolled. case_match; [by apply kpreserves_reads|].
  apply kpreserves_bind; [apply kpreserves_lift|intros ids]. apply kpreserves_update_in. intros raw k _ _ _.
  rewrite /within /=. specialize (Hclk (p_ticks p)). lia.
Qed.
Lemma pollAndApply_pres kts : preserves (within s T) (pollAndApply clk hdrs shared oracle kts).
Proof.
  destruct kts as [|kt kts]; [apply preserves_ret|].
  apply preserves_bind; [apply MarkPolled_pres|]. intros _. apply (after_marking_pres (kt :: kts)).
Qed.
Lemma repair_pages_pres n cutoff deadline limit :
  preserves (within s T) (repair_pages clk hdrs shared oracle n cutoff deadline limit).
Proof.
  induction n as [|n IH]; simpl; [apply preserves_ret|]. apply preserves_bind; [apply preserves_tick|intros now].
  case_match; [apply preserves_ret|]. apply preserves_bind.
  { apply preserves_read, lpreserves_known. by apply kpreserves_reads. }
  intros [|kt page]; [apply preserves_ret|]. apply preserves_bind; [apply pollAndApply_pres|]. intros _.
  case_match; [apply preserves_ret|done].
Qed.
Lemma drainRepairBacklog_pres cutoff limit n :
  preserves (within s T) (drainRepairBacklog clk hdrs shared oracle cutoff limit n).
Proof.
  apply preserves_bind; [|intros r; apply preserves_bind; [apply preserves_tick|intros; apply repair_pages_pres]].
  apply preserves_try, preserves_read, lpreserves_known. by apply kpreserves_reads.
Qed.
End keeps.

Lemma rows_after {A B} I (m : PM A) (k : A → PM B) p :
  rows_ok I (known_txs (p_meta (m p).2)) → (∀ a, preserves I (k a)) →
  rows_ok I (known_txs (p_meta ((m ≫= k) p).2)).
Proof. intros Hm Hk. cbv [mbind M_bind]. destruct (m p) as [[a|e|] p1]; [by apply Hk|done..]. Qed.

Lemma best_effort_table {A} (f : Time → K A) p :
  known_txs (p_meta (best_effort (meta_call clk (λ now, known (f now))) p).2) =
  (f (clk (p_ticks p)) (known_txs (p_meta p))).2.
Proof.
  cbv [best_effort try_ meta_call tick meta_read known zoom mbind M_bind mret M_ret]. cbn.
  by destruct (f _ _) as [[] ?].
Qed.

Lemma pollAndApply_stamps T X kts p :
  (∀ kt, kt ∈ kts → ∃ raw, encTxID (kt_TxID kt) = Ret raw) →
  (∀ raw, raw ∈ X → ∃ kt, kt ∈ kts ∧ encTxID (kt_TxID kt) = Ret raw) →
  rows_ok (within s T) (known_txs (p_meta p)) →
  rows_ok (within s (T ∖ X)) (known_txs (p_meta (pollAndApply clk hdrs shared oracle kts p).2)).
Proof.
  intros Henc HX Hp. destruct kts as [|kt kts'] eqn:Hk.
  { intros raw k Hr Hs. apply elem_of_difference. split; [by eapply Hp|]. by intros (?&?%not_elem_of_nil&_)%HX. }
  apply rows_after; [|intros _; apply (after_marking_pres _ (kt :: kts'))]. rewrite -Hk in Henc HX |- *. clear Hk.
  pose proof (MarkPolled_within s T X (clk (p_ticks p)) (kt_TxID <$> kts) (known_txs (p_meta p)) (Hclk _)) as Hm.
  assert (rows_ok (within s (T ∖ X)) (MarkPolled (clk (p_ticks p)) (kt_TxID <$> kts) (known_txs (p_meta p))).2) as Hm'.
  { apply Hm; [| |done].
    - by intros ? (kt'&->&Hin)%list_elem_of_fmap; apply Henc.
    - intros raw (kt'&Hin&He)%HX. exists (kt_TxID kt'). split; [by apply list_elem_of_fmap_2|done]. }
  by rewrite best_effort_table.
Qed.

(** ** A sweep *)

Lemma mergeKnownTxs_elem a b : a ⊆ mergeKnownTxs a b ∧ ∀ kt, kt ∈ mergeKnownTxs a b → kt ∈ a ∨ kt ∈ b.
Proof.
  rewrite /mergeKnownTxs.
  assert (∀ acc : gset string * list KnownTx, ∀ l, let r := (foldl (λ acc kt,
     if decide (kt_TxID kt ∈ acc.1) then acc
     else ({[kt_TxID kt]} ∪ acc.1, acc.2 ++ [kt])) acc l).2%list in
     acc.2 ⊆ r ∧ ∀ kt, kt ∈ r → kt ∈ acc.2 ∨ kt ∈ l) as Hg; [|apply (Hg (_, _))].
  intros acc l. revert acc. induction l as [|x l IH]; intros acc; simpl; [split; [done|by left]|].
  destruct (IH (if decide (kt_TxID x ∈ acc.1) then acc else ({[kt_TxID x]} ∪ acc.1, acc.2 ++ [x])%list)) as [H1 H2].
  case_decide; simpl in *; split; intros; [set_solver..|].
  edestruct H2 as [[?|?%list_elem_of_singleton]%elem_of_app|?]; [done|by left|subst; right; by left|right; by right].
Qed.

(** The rows of the sweep's first work list. *)
Definition due (cutoff : Time) (kr : Raw * KnownTx) : bool :=
  status_in pollableStatuses kr.2 && (kt_UpdatedAt kr.2 <=? cutoff).
Definition first_page (limit : Z) (p : Provider) : list (Raw * KnownTx) :=
  limited (page_limit limit) (SortFunc pollOrder
    (filter (λ kr, due (clk (p_ticks p) - syncStaleness) kr = true) (range_map (known_txs (p_meta p))))).

Lemma sweep_stamps limit p :
  rows_ok (within s (waiting s p ∖ list_to_set (first_page limit p).*1))
    (known_txs (p_meta (SynchronizeTransactionStatuses clk hdrs shared oracle limit p).2)).
Proof.
  set (L := page_limit limit). set (cutoff := clk (p_ticks p) - syncStaleness).
  set (p1 := mkProvider (p_meta p) (p_utxo p) (S (p_ticks p))).
  set (stale := (λ kr : Raw * KnownTx, scan kr.1 kr.2) <$> first_page limit p).
  destruct (FindMissingArcadeStatus cutoff L pollableStatuses (known_txs (p_meta p))) as [o t'] eqn:Hq.
  assert (∃ stranded, (o, t') = (Ret stranded, known_txs (p_meta p))) as [stranded [= -> ->]].
  { rewrite -Hq. by eexists. }
  assert (SynchronizeTransactionStatuses clk hdrs shared oracle limit p =
    (_ ← pollAndApply clk hdrs shared oracle (mergeKnownTxs stale stranded);
     match stranded with
     | [] => mret ()
     | _ => drainRepairBacklog clk hdrs shared oracle cutoff L (Z.of_nat (length stranded))
     end) p1) as ->.
  { injection Hq as <-. subst p1 stale cutoff L. by destruct p as [[] ? ?]. }
  apply rows_after; [|intros _; case_match; [apply preserves_ret|apply drainRepairBacklog_pres]].
  destruct (mergeKnownTxs_elem stale stranded) as [Hsub Hin].
  apply pollAndApply_stamps; [| |by apply within_waiting].
  - intros kt [Hkt|Hkt]%Hin.
    + apply list_elem_of_fmap in Hkt as (kr&->&_). eexists. apply KnownTxProps.encTxID_scan.
    + eapply KnownTxProps.queryList_sel in Hkt as (raw&r&_&_&->); [eexists; apply KnownTxProps.encTxID_scan|exact Hq].
  - intros raw ([raw' k]&->&Hk)%elem_of_list_to_set%list_elem_of_fmap. exists (scan raw' k).
    split; [apply Hsub; apply list_elem_of_fmap; by exists (raw', k)|apply KnownTxProps.encTxID_scan].
Qed.

Lemma first_page_rows limit p :
  NoDup (first_page limit p).*1 ∧
  ∀ raw k, (raw, k) ∈ first_page limit p → known_txs (p_meta p) !! raw = Some k.
Proof.
  rewrite /first_page /limited. replace (0 <? page_limit limit) with true.
  - destruct (selection_spec (known_txs (p_meta p)) (λ kr, due (clk (p_ticks p) - syncStaleness) kr = true)
      pollOrder (page_limit limit)) as [Hnd Hin]. split; [exact Hnd|]. intros raw k Hk. by apply Hin.
  - rewrite /page_limit. case_match; [done|]. symmetry. lia.
Qed.

Lemma sweep_progress limit p raw k :
  known_txs (p_meta p) !! raw = Some k → due (clk (p_ticks p) - syncStaleness) (raw, k) = true → kt_LastPolledAt k ≤ s →
  let p' := (SynchronizeTransactionStatuses clk hdrs shared oracle limit p).2 in
  raw ∉ waiting s p' ∨ Z.of_nat (size (waiting s p')) + page_limit limit ≤ Z.of_nat (size (waiting s p)).
Proof.
  intros Hk Hdue Hs p'. pose proof (sweep_stamps limit p) as Hw. apply within_waiting in Hw. fold p' in Hw.
  destruct (decide (raw ∈ (first_page limit p).*1)) as [Hin|Hout].
  { left. intros Hr%Hw. apply elem_of_difference in Hr as [_ []]. by apply elem_of_list_to_set. }
  right. set (rows := filter (λ kr, due (clk (p_ticks p) - syncStaleness) kr = true) (range_map (known_txs (p_meta p)))).
  destruct (left_out (page_limit limit) rows (raw, k)) as (_&Hlen&Hold).
  { apply list_elem_of_filter. split; [done|]. by apply range_map_elem. }
  { contradict Hout. by apply (list_elem_of_fmap_2 fst _ (raw, k)). }
  change (limited _ _) with (first_page limit p) in Hlen, Hold.
  pose proof (first_page_rows limit p) as (Hnd&Hrows).
  assert (list_to_set (first_page limit p).*1 ⊆ waiting s p) as Hsub.
  { intros raw' ([raw0 k']&->&Hk')%elem_of_list_to_set%list_elem_of_fmap. apply elem_of_waiting. exists k'.
    rewrite Forall_forall in Hold. specialize (Hold _ Hk'). rewrite /earlier /= in Hold. split; [by apply Hrows|lia]. }
  apply subseteq_size in Hw. rewrite size_difference // in Hw.
  assert (size (list_to_set (first_page limit p).*1 : gset Raw) = length (first_page limit p)) as Hsz.
  { by rewrite size_list_to_set // length_fmap. }
  apply subseteq_size in Hsub. lia.
Qed.

(** ** Sweep after sweep *)

Definition sweep_once (limit : Z) (p : Provider) : Provider :=
  (SynchronizeTransactionStatuses clk hdrs shared oracle limit p).2.
Definition is_due (raw : Raw) (p : Provider) : Prop :=
  ∃ k, known_txs (p_meta p) !! raw = Some k ∧ due (clk (p_ticks p) - syncStaleness) (raw, k) = true.

Lemma overtaken limit raw n p :
  (∀ i, (i ≤ n)%nat → is_due raw (Nat.iter i (sweep_once limit) p)) →
  (∃ i k, (i ≤ n)%nat ∧ known_txs (p_meta (Nat.iter i (sweep_once limit) p)) !! raw = Some k ∧ s < kt_LastPolledAt k) ∨
  Z.of_nat (size (waiting s (Nat.iter n (sweep_once limit) p))) + Z.of_nat n * page_limit limit ≤
    Z.of_nat (size (waiting s p)).
Proof.
  induction n as [|n IH]; intros Hdue; [right; simpl; lia|].
  destruct IH as [(i&k&Hi&Hk)|IH]; [intros; apply Hdue; lia|left; exists i, k; split; [lia|done]|].
  destruct (Hdue n) as (k&Hk&Hd); [lia|].
  destruct (decide (kt_LastPolledAt k ≤ s)) as [Hs|Hs]; [|left; exists n, k; split_and!; [lia|done|lia]].
  destruct (Hdue (S n)) as (k'&Hk'&_); [lia|].
  destruct (sweep_progress limit _ raw k Hk Hd Hs) as [Hout|Hlt].
  - left. exists (S n), k'. split_and!; [lia|done|]. apply Z.nle_gt. intros Hle. apply Hout, elem_of_waiting. eauto.
  - right. change (Nat.iter (S n) (sweep_once limit) p) with (sweep_once limit (Nat.iter n (sweep_once limit) p)).
    fold (sweep_once limit (Nat.iter n (sweep_once limit) p)) in Hlt. lia.
Qed.
End poll.

(** C28: every waiting transaction is polled.  Take any moment before the clock's
    readings and run the status poll over and over: once the number of sweeps times
    the page size exceeds the number of stored transactions, a transaction that was
    due at the start of each of them has been stamped by one of them.  Nothing is
    assumed of the status service or of the header source, and applying what the
    service answers may fail every time. *)
Theorem waiting_rows_are_polled `{MapRange, Sdk} clk hdrs shared oracle s limit raw n p :
  (∀ i, s < clk i) →
  (∀ i, (i ≤ n)%nat → is_due clk raw (Nat.iter i (sweep_once clk hdrs shared oracle limit) p)) →
  Z.of_nat (size (known_txs (p_meta p))) < Z.of_nat n * page_limit limit →
  ∃ i k, (i ≤ n)%nat ∧
    known_txs (p_meta (Nat.iter i (sweep_once clk hdrs shared oracle limit) p)) !! raw = Some k ∧ s < kt_LastPolledAt k.
Proof.
  intros Hclk Hdue Hn. destruct (overtaken clk hdrs shared oracle s Hclk limit raw n p Hdue) as [Hk|Hle]; [done|].
  assert (size (waiting s p) ≤ size (known_txs (p_meta p)))%nat; [|lia].
  rewrite -size_dom. apply subseteq_size, subseteq_dom, map_filter_subseteq.
Qed.
End PollProps.
