(* ===== verification/Monitor.v ===== *)
(** * Monitor: the background daemon and its configuration

    [pkg/monitor/monitor.go] and [pkg/monitor/options.go]: the daemon that runs the
    provider's sweeps as scheduled, leased jobs and follows the header streams, with
    its configuration from [pkg/defs/monitor.go] and [pkg/defs/reconciler.go].

    The scheduler (gocron) is third-party code: the daemon's view of it is the list of
    jobs it has registered, whether it runs and whether it was shut down; whether it
    accepts a job is a parameter.  The job functions and the two stream consumers are
    state transformers on the provider. *)
From Stdlib Require Import Ascii String.
From S2P Require Import Prelude UtxoTypes MemStore Statuses Satoshi External Fee Config KnownTx Ledger StatusUpdates Abort Reconciler Process Sweeps Lease.
Import Config WdkStatus KnownTxRepo Ledger StatusUpdates ReleaseOps Abort Reconciler Process Sweeps.
Local Open Scope string_scope.
Local Open Scope Z_scope.

Module Monitor.

(** ** Configuration *)

Abbreviation MonitorTask := string.
Definition CheckForProofsMonitorTask : MonitorTask := "check_for_proofs".
Definition SendWaitingMonitorTask : MonitorTask := "send_waiting".
Definition FailAbandonedMonitorTask : MonitorTask := "fail_abandoned".
Definition UnFailMonitorTask : MonitorTask := "un_fail".
Definition RejectReleaseMonitorTask : MonitorTask := "reject_release".

Definition ParseMonitorTaskStr (task : string) : option MonitorTask :=
  Fee.parseEnumCaseInsensitive task [CheckForProofsMonitorTask; SendWaitingMonitorTask;
    FailAbandonedMonitorTask; UnFailMonitorTask; RejectReleaseMonitorTask].

Record TasksConfig := mkTasks {
  CheckForProofs : TaskConfig; SendWaiting : TaskConfig; FailAbandoned : TaskConfig;
  UnFail : TaskConfig; RejectRelease : TaskConfig }.

(** The fields of the struct with their tags, as reflection lists them. *)
Definition task_fields (t : TasksConfig) : list (string * TaskConfig) :=
  [("check_for_proofs", CheckForProofs t); ("send_waiting", SendWaiting t);
   ("fail_abandoned", FailAbandoned t); ("un_fail", UnFail t); ("reject_release", RejectRelease t)].

(** The pairs that are yielded before a tag that is no task name panics. *)
Fixpoint parse_fields (fields : list (string * TaskConfig)) : outcome () (list (MonitorTask * TaskConfig)) :=
  match fields with
  | [] => Ret []
  | (name, cfg) :: rest =>
      match ParseMonitorTaskStr name with
      | None => Panic
      | Some task =>
          match parse_fields rest with
          | Ret l => Ret ((task, cfg) :: l)
          | Err e => Err e
          | Panic => Panic
          end
      end
  end.
Definition all (t : option TasksConfig) : outcome () (list (MonitorTask * TaskConfig)) :=
  match t with None => Ret [] | Some t => parse_fields (task_fields t) end.

Definition enabled_of (l : list (MonitorTask * TaskConfig)) : gmap MonitorTask TaskConfig :=
  fold_left (λ m kv, if tc_Enabled kv.2 then <[kv.1 := kv.2]> m else m) l ∅.
Definition EnabledTasks (t : option TasksConfig) : outcome () (gmap MonitorTask TaskConfig) :=
  match all t with Ret l => Ret (enabled_of l) | Err e => Err e | Panic => Panic end.

(** The name of the first task whose interval is zero. *)
Definition Validate (t : option TasksConfig) : outcome MonitorTask () :=
  match all t with
  | Ret l =>
      match find (λ kv, tc_IntervalSeconds kv.2 =? 0) l with
      | Some kv => Err kv.1
      | None => Ret ()
      end
  | _ => Panic
  end.

Record ReconcilerConfig := mkReconciler { SuspectGraceSeconds : Z; MaxQuarantineSeconds : Z }.
Record EventConfig := mkEvent { ev_Enabled : bool; ev_ChannelSize : Z }.
Record EventsConfig := mkEvents { TxBroadcasted : EventConfig; TxProven : EventConfig }.
Record MonitorConfig := mkMonitor {
  m_Enabled : bool; m_Tasks : TasksConfig; m_Events : EventsConfig; m_Reconciler : ReconcilerConfig }.

Definition minute : Z := 60 * second.
Definition hour : Z := 60 * minute.
Definition DefaultRejectReleaseInterval : Z := 60 * second.
Definition DefaultSuspectGrace : Z := 90 * second.
Definition DefaultMaxQuarantine : Z := 24 * hour.

(** [must.ConvertToInt64FromUnsigned] and [must.ConvertToUInt] of
    [go-softwarelab/common]; [None] is their panic.  The float64 that the second one is
    given is a whole number of seconds. *)
Class Must := {
  ConvertToInt64FromUnsigned : Z → option Z;
  ConvertToUInt : Z → option Z;
}.
Class MustLaws (C : Must) : Prop := {
  ConvertToInt64FromUnsigned_fits : ∀ v, 0 ≤ v < 2 ^ 63 → ConvertToInt64FromUnsigned v = Some v;
  ConvertToInt64FromUnsigned_over : ∀ v, 2 ^ 63 ≤ v < 2 ^ 64 → ConvertToInt64FromUnsigned v = None;
  ConvertToUInt_fits : ∀ v, 0 ≤ v < 2 ^ 53 → ConvertToUInt v = Some v;
}.
Definition must_std : Must := {|
  ConvertToInt64FromUnsigned v := if v <? 2 ^ 63 then Some v else None;
  ConvertToUInt v := if 0 <=? v then Some v else None;
|}.
Lemma must_std_laws : MustLaws must_std.
Proof.
  split; intros v Hv; simpl.
  - destruct (Z.ltb_spec v (2 ^ 63)); [done|lia].
  - destruct (Z.ltb_spec v (2 ^ 63)); [lia|done].
  - destruct (Z.leb_spec 0 v); [done|lia].
Qed.

Section config.
Context `{Must}.

(** A number of seconds as a [time.Duration], an int64 of nanoseconds. *)
Definition seconds (n : Z) : outcome () Z :=
  match ConvertToInt64FromUnsigned n with None => Panic | Some v => Ret (i64 (v * second)) end.
Definition Interval (t : TaskConfig) : outcome () Z := seconds (tc_IntervalSeconds t).
Definition SuspectGrace (c : ReconcilerConfig) : outcome () Z :=
  if SuspectGraceSeconds c =? 0 then Ret DefaultSuspectGrace else seconds (SuspectGraceSeconds c).
Definition MaxQuarantine (c : ReconcilerConfig) : outcome () Z :=
  if MaxQuarantineSeconds c =? 0 then Ret DefaultMaxQuarantine else seconds (MaxQuarantineSeconds c).

(** [d.Seconds()] of a whole number of seconds, converted. *)
Definition whole_seconds (d : Z) : option Z := ConvertToUInt (d / second).
Definition DefaultMonitorConfig : outcome () MonitorConfig :=
  match whole_seconds (1 * minute), whole_seconds (5 * minute), whole_seconds (10 * minute),
        whole_seconds DefaultRejectReleaseInterval, whole_seconds DefaultSuspectGrace,
        whole_seconds DefaultMaxQuarantine with
  | Some one, Some five, Some ten, Some reject, Some grace, Some quarantine =>
      Ret (mkMonitor true
        (mkTasks (mkTask true one false) (mkTask true five true) (mkTask true five false)
                 (mkTask true ten false) (mkTask true reject false))
        (mkEvents (mkEvent false 100) (mkEvent false 100))
        (mkReconciler grace quarantine))
  | _, _, _, _, _, _ => Panic
  end.
End config.

(** ** The daemon *)

Definition defaultBatchLimit : Z := 256.
Definition defaultFailAbandonedAge : Z := 5 * minute.
Definition defaultStaleReservationTTL : Z := 15 * minute.
Definition minLeaseTTL : Z := 5 * minute.
Definition ownerNameLen : Z := 12.
Definition defaultApplyWorkers : Z := 8.

Record limits := mkLimits {
  lim_sendWaiting : Z; lim_abort : Z; lim_sync : Z; lim_proof : Z; lim_rejectRelease : Z }.

(** A job as the daemon hands it to the scheduler; all of them are in singleton
    reschedule mode. *)
Record Job := mkJob { j_name : string; j_task : MonitorTask; j_interval : Z; j_immediately : bool }.
Record Scheduler := mkSched { jobs : list Job; sc_running : bool; sc_down : bool }.

(** What the options set.  Of its collaborators the daemon's own code only asks whether
    they are present. *)
Record Settings := mkSettings {
  d_headers : bool; d_oracle : bool; d_owner : string; d_distributedLock : bool;
  d_limits : limits; d_failAbandonedAge : Z; d_staleReservationTTL : Z;
  d_suspectGrace : Z; d_maxQuarantine : Z; d_applyConcurrency : Z }.

(** [d_consumers] counts the running stream goroutines. *)
Record Daemon := mkDaemon {
  d_settings : Settings; d_scheduler : Scheduler; d_locker : option Lease.LeaseLocker;
  d_started : bool; d_consumers : nat; d_tipHeight : Z }.

Inductive derror :=
| StorageRequired | OwnerFailed | SchedulerFailed
| NonPositiveInterval (task : MonitorTask) | RegisterFailed (task : MonitorTask)
| ShutdownFailed.
Abbreviation DM := (M Daemon derror).

(** The options that set a field the model has. *)
Inductive Option :=
| WithBatchLimit (n : Z)
| WithApplyConcurrency (n : Z)
| WithReconcilerWindows (grace maxQuarantine : Z)
| WithFailAbandonedAge (age : Z)
| WithLeaseOwner (owner : string)
| WithoutDistributedLock.

Definition apply_option (o : Option) (s : Settings) : Settings :=
  let '(mkSettings hd orc owner lock lim age ttl grace quarantine workers) := s in
  match o with
  | WithBatchLimit n =>
      mkSettings hd orc owner lock (if 0 <? n then mkLimits n n n n n else lim)
        age ttl grace quarantine workers
  | WithApplyConcurrency n =>
      mkSettings hd orc owner lock lim age ttl grace quarantine (if 0 <? n then n else workers)
  | WithReconcilerWindows g q =>
      mkSettings hd orc owner lock lim age ttl (if 0 <? g then g else grace)
        (if 0 <? q then q else quarantine) workers
  | WithFailAbandonedAge a =>
      mkSettings hd orc owner lock lim (if 0 <? a then a else age) ttl grace quarantine workers
  | WithLeaseOwner o => mkSettings hd orc o lock lim age ttl grace quarantine workers
  | WithoutDistributedLock => mkSettings hd orc owner false lim age ttl grace quarantine workers
  end.
Definition with_owner (o : string) (s : Settings) : Settings := apply_option (WithLeaseOwner o) s.

Definition monitorJobName (name : MonitorTask) : string := "monitor_" +:+ name.

(** The five names [taskRunner] has a run function for. *)
Definition known_task (name : MonitorTask) : bool :=
  is_one_of name [SendWaitingMonitorTask; FailAbandonedMonitorTask; CheckForProofsMonitorTask;
                  UnFailMonitorTask; RejectReleaseMonitorTask].

Section daemon.
Context `{MapRange, Must}.

(** [owner]: what the random source yields, if it can be read. [scheduler]: the
    scheduler can be built. *)
Definition NewDaemon (storage headers oracle : bool) (cfg : MonitorConfig) (opts : list Option)
    (owner : option string) (scheduler : bool) : outcome derror Daemon :=
  if negb storage then Err StorageRequired
  else
    match SuspectGrace (m_Reconciler cfg), MaxQuarantine (m_Reconciler cfg) with
    | Ret grace, Ret quarantine =>
        let n := defaultBatchLimit in
        let s := fold_left (λ s o, apply_option o s) opts
          (mkSettings headers oracle "" true (mkLimits n n n n n) defaultFailAbandonedAge
             defaultStaleReservationTTL grace quarantine defaultApplyWorkers) in
        match (if decide (d_owner s = "") then (λ o, with_owner o s) <$> owner else Some s) with
        | None => Err OwnerFailed
        | Some s =>
            if negb scheduler then Err SchedulerFailed
            else Ret (mkDaemon s (mkSched [] false false)
                   (if d_distributedLock s then Some (Lease.NewLeaseLocker (d_owner s)) else None)
                   false 0 0)
        end
    | _, _ => Panic
    end.

(** [NewJob]: whether the scheduler accepts the job. *)
Context (accepts : Scheduler → Job → bool).

Definition lease_ttl (interval : Z) : Z :=
  let ttl := i64 (2 * interval) in if ttl <? minLeaseTTL then minLeaseTTL else ttl.
Definition set_ttl (jobName : string) (interval : Z) : DM () :=
  modify (λ d, mkDaemon (d_settings d) (d_scheduler d)
    (Lease.SetLeaseTTL jobName (lease_ttl interval) <$> d_locker d)
    (d_started d) (d_consumers d) (d_tipHeight d)).
Definition add_job (j : Job) : DM bool := λ d,
  let sc := d_scheduler d in
  if accepts sc j
  then (Ret true, mkDaemon (d_settings d) (mkSched (jobs sc ++ [j]) (sc_running sc) (sc_down sc))
                    (d_locker d) (d_started d) (d_consumers d) (d_tipHeight d))
  else (Ret false, d).

Definition registerTask (name : MonitorTask) (cfg : TaskConfig) : DM () :=
  if negb (known_task name) then mret ()
  else
    match Interval cfg with
    | Ret interval =>
        if interval <=? 0 then throw (NonPositiveInterval name)
        else
          _ ← set_ttl (monitorJobName name) interval;
          ok ← add_job (mkJob (monitorJobName name) name interval (tc_StartImmediately cfg));
          if (ok : bool) then mret () else throw (RegisterFailed name)
    | _ => λ d, (Panic, d)
    end.
Fixpoint register_all (tasks : list (MonitorTask * TaskConfig)) : DM () :=
  match tasks with
  | [] => mret ()
  | (name, cfg) :: rest => _ ← registerTask name cfg; register_all rest
  end.

Definition launch : DM () := modify (λ d,
  let s := d_settings d in let sc := d_scheduler d in
  mkDaemon s (mkSched (jobs sc) true (sc_down sc)) (d_locker d) true
    (d_consumers d + (if d_oracle s then 1 else 0) + (if d_headers s then 2 else 0))%nat (d_tipHeight d)).
Definition Start (tasks : gmap MonitorTask TaskConfig) : DM () :=
  started ← gets d_started;
  if (started : bool) then mret ()
  else _ ← register_all (range_map tasks); launch.

(** [clean]: the scheduler reports no error when it shuts down.  The consumers end with
    the canceled context and are waited for. *)
Definition Stop (clean : bool) : DM () :=
  started ← gets d_started;
  if negb started then mret ()
  else
    _ ← modify (λ d, mkDaemon (d_settings d) (mkSched (jobs (d_scheduler d)) false true)
                       (d_locker d) false 0 (d_tipHeight d));
    if clean then mret () else throw ShutdownFailed.

(** The heights the tip stream delivers, in order. *)
Definition handleTips (heights : list Z) : DM () := modify (λ d,
  mkDaemon (d_settings d) (d_scheduler d) (d_locker d) (d_started d) (d_consumers d)
    (fold_left (λ _ h, h) heights (d_tipHeight d))).
Definition TipHeight : DM Z := gets d_tipHeight.
End daemon.

(** ** What the jobs run *)

Section jobs.
Context `{MapRange, Sdk, TxSdk}.
Context (clk : nat → Time) (hdrs : option Headers) (shared : bool) (errText : perror → string).
Context (scripts : Transaction SourceTx → bool).
Context (post : nat → string → Bytes → post_answer) (oracle : nat → string → oracle_answer).
(** The provider has an oracle; the daemon's own clock. *)
Context (configured : bool) (dclk : nat → Time).

Definition runFailAbandoned (s : Settings) : PM () :=
  now ← tick dclk;
  _ ← AbortAbandoned clk shared errText (now - d_failAbandonedAge s) (lim_abort (d_limits s));
  now ← tick dclk;
  SweepStaleReservations clk shared errText (now - d_staleReservationTTL s) (lim_abort (d_limits s)).

Definition runRejectRelease (s : Settings) : PM () :=
  _ ← best_effort (DrainOutbox clk shared errText (lim_rejectRelease (d_limits s)));
  _ ← VerifyAndReleaseSuspects clk hdrs shared errText oracle configured
        (d_suspectGrace s) (d_maxQuarantine s) (lim_rejectRelease (d_limits s));
  mret ().

Definition run (s : Settings) (name : MonitorTask) : option (WM ()) :=
  if decide (name = SendWaitingMonitorTask) then
    Some (SendWaitingTransactions clk shared scripts post (lim_sendWaiting (d_limits s)))
  else if decide (name = FailAbandonedMonitorTask) then Some (prov (runFailAbandoned s))
  else if decide (name = CheckForProofsMonitorTask) then
    Some (prov (CheckProofs clk hdrs shared oracle configured (lim_proof (d_limits s))))
  else if decide (name = UnFailMonitorTask) then
    Some (prov (SynchronizeTransactionStatuses clk hdrs shared oracle (lim_sync (d_limits s))))
  else if decide (name = RejectReleaseMonitorTask) then Some (prov (runRejectRelease s))
  else None.

(** The error of a run is logged. *)
Definition logged (m : WM ()) : WM () := λ w,
  match m w with (Err _, w') => (Ret (), w') | r => r end.
Definition taskRunner (s : Settings) (name : MonitorTask) : option (WM ()) := logged <$> run s name.

(** The fork heights the reorg stream delivers, in order. *)
Definition handleReorgs (forks : list Z) : PM () := each (DemoteReorgedProofs clk hdrs shared) forks.
End jobs.
(** ** Properties *)

Lemma all_fields t : all (Some t) = Ret (task_fields t).
Proof. by vm_compute. Qed.

Lemma task_fields_NoDup t : NoDup (task_fields t).*1.
Proof. apply (bool_decide_eq_true_1 (NoDup (task_fields t).*1)). by vm_compute. Qed.

Lemma task_fields_known t name cfg : (name, cfg) ∈ task_fields t → known_task name = true.
Proof. rewrite /task_fields. set_unfold. intros Hin. destruct_or! Hin; by simplify_eq. Qed.

Lemma enabled_from l (m : gmap MonitorTask TaskConfig) name cfg :
  NoDup l.*1 → (∀ n, n ∈ l.*1 → m !! n = None) →
  fold_left (λ m kv, if tc_Enabled kv.2 then <[kv.1 := kv.2]> m else m) l m !! name = Some cfg ↔
  m !! name = Some cfg ∨ (name, cfg) ∈ l ∧ tc_Enabled cfg = true.
Proof.
  revert m. induction l as [|[n c] l IH]; intros m; simpl; [set_solver|].
  intros [Hn Hnd]%NoDup_cons Hm. rewrite IH; [|done|].
  - rewrite elem_of_cons. assert (m !! n = None) as Hmn by (apply Hm; set_solver).
    destruct (tc_Enabled c) eqn:Hc; [destruct (decide (name = n)) as [->|Hne]|].
    + assert ((n, cfg) ∉ l) by (by intros ?%(list_elem_of_fmap_2 fst)).
      rewrite lookup_insert_eq Hmn. split.
      * intros [[= ->]|[? _]]; [|done]. right. by split; [left|].
      * intros [?|[[[= ->]|?] _]]; [done|by left|done].
    + rewrite lookup_insert_ne //. split; [intros [?|[? ?]]; auto|].
      intros [?|[[[= -> ->]|?] ?]]; auto; done.
    + split; [intros [?|[? ?]]; auto|]. intros [?|[[[= -> ->]|?] He]]; auto. by rewrite Hc in He.
  - intros n' Hn'. destruct (tc_Enabled c); [|apply Hm; set_solver].
    rewrite lookup_insert_ne; [apply Hm; set_solver|by intros ->].
Qed.
Lemma EnabledTasks_lookup t : ∃ m, EnabledTasks (Some t) = Ret m ∧
  ∀ name cfg, m !! name = Some cfg ↔ (name, cfg) ∈ task_fields t ∧ tc_Enabled cfg = true.
Proof.
  eexists. split; [by rewrite /EnabledTasks all_fields|]. intros name cfg.
  rewrite /enabled_of enabled_from; [|apply task_fields_NoDup|done]. set_solver.
Qed.

Lemma Validate_positive t name cfg :
  Validate (Some t) = Ret () → (name, cfg) ∈ task_fields t → tc_IntervalSeconds cfg ≠ 0.
Proof.
  rewrite /Validate all_fields. destruct (find _ _) as [kv|] eqn:Hf; [done|]. intros _ Hin Hz.
  apply list_elem_of_In in Hin. by pose proof (find_none _ _ Hf _ Hin) as ?%Z.eqb_neq.
Qed.

(** The names the daemon registers are those it can run. *)
Lemma taskRunner_known `{MapRange, Sdk, TxSdk} clk hdrs shared errText scripts post oracle configured dclk s name :
  is_Some (taskRunner clk hdrs shared errText scripts post oracle configured dclk s name) ↔ known_task name = true.
Proof.
  rewrite /taskRunner fmap_is_Some /known_task /is_one_of bool_decide_eq_true /run.
  repeat case_decide; subst; split; try done; intros; try (by eexists); set_solver.
Qed.

Section registration.
Context `{MapRange, Must, !MustLaws H0}.
Context (accepts : Scheduler → Job → bool) (willing : ∀ sc j, accepts sc j = true).

(** The configured interval, its lease and its job. *)
Definition interval_of (cfg : TaskConfig) : Z := tc_IntervalSeconds cfg * second.
Definition job_of (kv : MonitorTask * TaskConfig) : Job :=
  mkJob (monitorJobName kv.1) kv.1 (interval_of kv.2) (tc_StartImmediately kv.2).

(** The interval fits in a [time.Duration]. *)
Definition fits (cfg : TaskConfig) : Prop := 0 < interval_of cfg < 2 ^ 62.

Lemma Interval_fits cfg : fits cfg → Interval cfg = Ret (interval_of cfg).
Proof.
  rewrite /fits /Interval /seconds /interval_of. intros Hf. assert (second = 1000000000) as Hs by done.
  rewrite ConvertToInt64FromUnsigned_fits; [|lia]. by rewrite Satoshi.Satoshi.i64_id; [|lia].
Qed.
Lemma lease_ttl_fits cfg : fits cfg → lease_ttl (interval_of cfg) = Z.max (2 * interval_of cfg) minLeaseTTL.
Proof.
  intros Hf. rewrite /lease_ttl Satoshi.Satoshi.i64_id; [|unfold fits in Hf; lia].
  destruct (Z.ltb_spec (2 * interval_of cfg) minLeaseTTL); lia.
Qed.

#[local] Instance monitorJobName_inj : Inj (=) (=) monitorJobName.
Proof. rewrite /monitorJobName. by intros a b [= Heq]. Qed.
Lemma NewDaemon_fresh headers oracle cfg opts owner d :
  NewDaemon true headers oracle cfg opts owner true = Ret d →
  d_started d = false ∧ jobs (d_scheduler d) = [].
Proof.
  rewrite /NewDaemon /=. repeat case_match; try done. all: by intros [= <-].
Qed.

Definition registered (kv : MonitorTask * TaskConfig) (d : Daemon) : Daemon :=
  mkDaemon (d_settings d)
    (mkSched (jobs (d_scheduler d) ++ [job_of kv]) (sc_running (d_scheduler d)) (sc_down (d_scheduler d)))
    (Lease.SetLeaseTTL (monitorJobName kv.1) (lease_ttl (interval_of kv.2)) <$> d_locker d)
    (d_started d) (d_consumers d) (d_tipHeight d).

Lemma registerTask_Ret kv d :
  known_task kv.1 = true → fits kv.2 →
  registerTask accepts kv.1 kv.2 d = (Ret (), registered kv d).
Proof.
  intros Hk Hf. rewrite /registerTask Hk /= Interval_fits //.
  destruct (Z.leb_spec (interval_of kv.2) 0); [unfold fits in Hf; lia|].
  rewrite /add_job /mbind /M_bind /set_ttl /modify /=. by rewrite willing.
Qed.
Lemma register_all_Ret kvs d :
  Forall (λ kv, known_task kv.1 = true ∧ fits kv.2) kvs →
  register_all accepts kvs d = (Ret (), fold_left (λ d kv, registered kv d) kvs d).
Proof.
  intros Hall. revert d. induction Hall as [|[name cfg] kvs [Hk Hf] _ IH]; intros d; [done|].
  simpl. rewrite /mbind /M_bind (registerTask_Ret (name, cfg)) //.
Qed.

Lemma registered_jobs kvs d :
  jobs (d_scheduler (fold_left (λ d kv, registered kv d) kvs d)) = (jobs (d_scheduler d) ++ (job_of <$> kvs))%list.
Proof.
  revert d. induction kvs as [|kv kvs IH]; intros d; simpl; [by rewrite app_nil_r|].
  by rewrite IH /= -app_assoc.
Qed.
Lemma registered_ttls kvs d l kv :
  d_locker (fold_left (λ d kv, registered kv d) kvs d) = Some l → NoDup kvs.*1 → kv ∈ kvs → fits kv.2 →
  Lease.ttlFor (monitorJobName kv.1) l = Z.max (2 * interval_of kv.2) minLeaseTTL.
Proof.
  revert l. induction kvs as [|x kvs IH] using rev_ind; intros l; [set_solver|].
  rewrite fold_left_app /= fmap_app. intros Hl Hnd Hin Hf.
  apply NoDup_app in Hnd as (Hnd&Hdis&_).
  destruct (d_locker (fold_left _ kvs d)) as [l0|] eqn:Hl0; [|done]. simpl in Hl. injection Hl as <-.
  rewrite /Lease.ttlFor /=. apply elem_of_app in Hin as [Hin|Hin%list_elem_of_singleton].
  - rewrite lookup_insert_ne; [by apply IH|]. intros Heq%monitorJobName_inj.
    apply (Hdis kv.1); [by apply list_elem_of_fmap_2|]. rewrite -Heq. set_solver.
  - subst x. rewrite lookup_insert_eq lease_ttl_fits //.
    destruct (Z.ltb_spec 0 (Z.max (2 * interval_of kv.2) minLeaseTTL)); [done|unfold fits in Hf; lia].
Qed.

(** a daemon that starts runs every enabled task of its configuration and no other,
    one job each, at the configured interval, and where instances share their jobs
    through leases, each job's lease is good for twice its interval and for no less
    than five minutes.  This needs a configuration that passes validation, with
    intervals of which twice the length is a [time.Duration], and a scheduler that takes
    the jobs. *)
Theorem started_jobs_are_leased headers oracle cfg opts owner d :
  Validate (Some (m_Tasks cfg)) = Ret () →
  Forall (λ kv, 0 ≤ interval_of kv.2 < 2 ^ 62) (task_fields (m_Tasks cfg)) →
  NewDaemon true headers oracle cfg opts owner true = Ret d →
  ∃ tasks d', EnabledTasks (Some (m_Tasks cfg)) = Ret tasks ∧
    Start accepts tasks d = (Ret (), d') ∧ d_started d' = true ∧
    NoDup (j_name <$> jobs (d_scheduler d')) ∧
    (∀ j, j ∈ jobs (d_scheduler d') ↔
       ∃ kv, kv ∈ task_fields (m_Tasks cfg) ∧ tc_Enabled kv.2 = true ∧ j = job_of kv) ∧
    ∀ l j, d_locker d' = Some l → j ∈ jobs (d_scheduler d') →
      Lease.ttlFor (j_name j) l = Z.max (2 * j_interval j) minLeaseTTL.
Proof.
  intros Hv Hin Hd. destruct (EnabledTasks_lookup (m_Tasks cfg)) as (tasks&Ht&Hl).
  exists tasks, (launch (fold_left (λ d kv, registered kv d) (range_map tasks) d)).2.
  assert (∀ kv, kv ∈ range_map tasks ↔ kv ∈ task_fields (m_Tasks cfg) ∧ tc_Enabled kv.2 = true) as Hrange.
  { intros [name c]. by rewrite range_map_perm elem_of_map_to_list Hl. }
  assert (Forall (λ kv, known_task kv.1 = true ∧ fits kv.2) (range_map tasks)) as Hall.
  { apply Forall_forall. intros [name c] [Hf _]%Hrange. split; [by eapply task_fields_known|].
    apply (Validate_positive _ name c) in Hv; [|done]. rewrite Forall_forall in Hin. specialize (Hin _ Hf).
    simpl in *. split; [|lia]. assert (interval_of c ≠ 0); [unfold interval_of, second; lia|lia]. }
  destruct (NewDaemon_fresh _ _ _ _ _ _ Hd) as [Hst Hj].
  assert (NoDup (range_map tasks).*1) as Hnd by (rewrite range_map_perm; apply NoDup_fst_map_to_list).
  split_and!; [done|by rewrite /Start /mbind /M_bind /gets Hst register_all_Ret|done| | |].
  - rewrite /= registered_jobs Hj /= -list_fmap_compose.
    apply (NoDup_fmap_2 monitorJobName) in Hnd.
    by rewrite -list_fmap_compose in Hnd.
  - intros j. rewrite /= registered_jobs Hj /= list_elem_of_fmap. setoid_rewrite Hrange.
    split; [intros (kv&Hj'&Hin'&He)|intros (kv&Hin'&He&Hj')]; exists kv; auto.
  - intros l j Hlk. rewrite /= registered_jobs Hj /= list_elem_of_fmap. intros (kv&->&Hkv). simpl.
    eapply registered_ttls; [exact Hlk|exact Hnd|exact Hkv|]. by rewrite Forall_forall in Hall; apply Hall.
Qed.

(** A second start is a no-op; a daemon that was stopped has no guard against a start. *)
Lemma Start_started tasks d : d_started d = true → Start accepts tasks d = (Ret (), d).
Proof. by rewrite /Start /mbind /M_bind /gets => ->. Qed.
Lemma Stop_stopped clean d : d_started d = false → Stop clean d = (Ret (), d).
Proof. by rewrite /Stop /mbind /M_bind /gets => ->. Qed.
Lemma stopped_starts_again d :
  d_started d = true → ∃ d', Start accepts ∅ (Stop true d).2 = (Ret (), d') ∧ d_started d' = true.
Proof.
  intros Hd. rewrite /Stop /mbind /M_bind /gets Hd /=. eexists (launch _).2. split; [|done].
  assert (range_map (∅ : gmap MonitorTask TaskConfig) = []) as He.
  { apply Permutation_nil. by rewrite range_map_perm map_to_list_empty. }
  by rewrite /Start /mbind /M_bind /gets /= He.
Qed.
End registration.
End Monitor.

Module MonitorExample.
Import Monitor.

Definition cfg : MonitorConfig :=
  match DefaultMonitorConfig (H := must_std) with
  | Ret c => c
  | _ => mkMonitor false (mkTasks (mkTask false 0 false) (mkTask false 0 false) (mkTask false 0 false)
           (mkTask false 0 false) (mkTask false 0 false)) (mkEvents (mkEvent false 0) (mkEvent false 0))
           (mkReconciler 0 0)
  end.
Definition daemon : Daemon :=
  match NewDaemon (H0 := must_std) true true true cfg [WithLeaseOwner "a"] None true with
  | Ret d => d
  | _ => mkDaemon (mkSettings false false "" false (mkLimits 0 0 0 0 0) 0 0 0 0 0) (mkSched [] false false)
           None false 0 0
  end.

Lemma started_jobs_are_leased_witness :
  ∃ tasks d', EnabledTasks (Some (m_Tasks cfg)) = Ret tasks ∧
    Start (H := range_canonical) (H0 := must_std) (λ _ _, true) tasks daemon = (Ret (), d') ∧ d_started d' = true ∧
    NoDup (j_name <$> jobs (d_scheduler d')) ∧
    (∀ j, j ∈ jobs (d_scheduler d') ↔
       ∃ kv, kv ∈ task_fields (m_Tasks cfg) ∧ tc_Enabled kv.2 = true ∧ j = job_of kv) ∧
    ∀ l j, d_locker d' = Some l → j ∈ jobs (d_scheduler d') →
      Lease.ttlFor (j_name j) l = Z.max (2 * j_interval j) minLeaseTTL.
Proof.
  eapply (started_jobs_are_leased (H := range_canonical) (H0 := must_std) (MustLaws0 := must_std_laws)
    (λ _ _, true) (λ _ _, eq_refl) true true cfg [WithLeaseOwner "a"] None daemon).
  - by vm_compute.
  - apply Forall_forall. rewrite /task_fields. set_unfold. intros kv Hkv. destruct_or! Hkv; subst kv; vm_compute; by split.
  - by vm_compute.
Defined.
End MonitorExample.
