(* ===== verification/ProcessExample.v ===== *)
(** * ProcessExample: signing, sending and sweeping on a small wallet

    A concrete transaction SDK, a wallet whose transaction ab04 has been created but not
    signed, and runs of requests and sweeps on it. *)
From Stdlib Require Import Ascii String.
From S2P Require Import Prelude UtxoTypes MemStore StoreContract Statuses KnownTx Ledger StatusUpdates StatusUpdatesProps.
From S2P Require Import StatusUpdatesProps Abort AbortProps AbortRecovery Reconciler Process Sweeps.
From S2P Require Import ProcessProps ProcessCommit SweepProps PollProps.
Import WdkStatus ArcadeStatus KnownTxRepo Outbox Ledger StatusUpdates ReleaseOps Abort StoreContract.
Import StatusUpdatesExample Process Sweeps ProcessProps ProcessCommit SweepProps PollProps.
Local Open Scope string_scope.
Local Open Scope Z_scope.

Module ProcessExample.
#[local] Existing Instance sdk0.
#[local] Existing Instance range_canonical.

(** Every source is worth 1000 satoshis and every transaction pays 900; the id of a
    transaction is ab followed by the second byte of its input. *)
Definition txsdk0 : TxSdk := {|
  SourceTx := Z;
  src_output := λ v n, if n =? 0 then Some v else None;
  src_height := λ _, None;
  Beef := ();
  NewBeefFromBytes := λ b, match b with [_] => Some () | _ => None end;
  FindTransactionByHash := λ _ _, Some 1000;
  Tx_TxID := λ b, match b with
                  | _ :: x :: _ => string_of_list_ascii (EncodeToString [byte 171; x])
                  | _ => ""
                  end;
  Tx_Bytes := id;
  Tx_Outputs := λ _, [(900, Some ["s"%char])];
  Execute := λ _ _ _, true;
  EF := λ tx, Some (byte 239 :: t_raw tx);
|}.
#[local] Existing Instance txsdk0.

(** ab04 will spend cc04:0, reserved under ref4, and pays 800 to itself. *)
Definition raw_ab04 : Bytes := [byte 204; byte 4; byte 0].
Definition meta4 : Meta :=
  mkMeta (known_txs AbortExample.meta1)
    (<[4 := mkTx 7 None TxStatusUnsigned "ref4" None true (-20) "new" None None ["b"%char] 13 13]>
       (<[2 := mkTx 7 None TxStatusAborted "ref2" (Some (key "ab02")) true (-20) "oops" None None ["b"%char] 11 11]>
          (transactions AbortExample.meta1)))
    (<[3 := mkOutput 7 4 0 900 [] (Some "default") None true "P2PKH" "storage" "change" "" None None None None 13 13]>
       (outputs AbortExample.meta1))
    ∅ 5 4 false no_names no_names no_catalog.
Definition utxo4 : MemStore.Store :=
  (MemStore.ReserveOutpoints clk0 7 "ref4" [mkOutpoint 52228 0]
    (MemStore.Mint clk0 [StatusUpdatesExample.coin 52228 0 1000] AbortExample.utxo1).2).2.
Definition w0 : Wire := mkWire (mkProvider meta4 utxo4 0) [].

Definition scripts0 : Transaction SourceTx → bool := VerifyScripts true 0.
Definition accepting (_ : nat) (_ : string) (_ : Bytes) : post_answer :=
  PostResult (mkBroadcast StatusSeenOnNetwork false "").
Definition sign_ab04 : ProcessActionArgs :=
  mkArgs true false false false (Some "ref4") (Some "ab04") raw_ab04 [].
Definition send_ab02 : ProcessActionArgs := mkArgs false true false false None None [] ["ab02"].

Abbreviation request args := (ProcessAction clk0 false scripts0 accepting false 100 (Some 7) args).
Definition w1 : Wire := (request sign_ab04 w0).2.
Definition w2 : Wire := (SendWaitingTransactions clk0 false scripts0 accepting 10 (request send_ab02 w1).2).2.

(** ab04 is signed, sent once and accepted; the abort of ab02 keeps it from being sent. *)
Lemma ab04_sent :
  (request sign_ab04 w0).1 =
    Ret (mkResult [mkSwr "ab04" "unproven"] [mkReview "ab04" "success" None]) ∧
  (λ x, (s_txid x, s_ef x)) <$> w_sent w2 = [("ab04", byte 239 :: raw_ab04)] ∧
  (request send_ab02 w1).1 = Err (NotBroadcastable "ab02" KnownTxStatusAborted).
Proof. split_and!; vm_compute; reflexivity. Qed.

Lemma posts_are_claimed_witness :
  length (w_sent w2) = 1%nat ∧
  ∃ new, w_sent w2 = (w_sent w0 ++ new)%list ∧ Forall (claimed_post scripts0) new.
Proof.
  split; [vm_compute; reflexivity|]. apply (posts_are_claimed clk0 false scripts0 accepting w0 w2).
  eapply rtc_l; [apply acts_send, sends_request|]. eapply rtc_l; [apply acts_send, sends_request|].
  eapply rtc_l; [apply acts_send, (sends_sweep _ _ _ _ _ 10)|]. apply rtc_refl.
Defined.

Lemma settled_never_sent_witness :
  settled row_ab02 ∧ known_txs (p_meta (w_prov w2)) !! key "ab02" = Some row_ab02 ∧
  ∃ new, w_sent w2 = (w_sent w1 ++ new)%list ∧ Forall (λ x, encTxID (s_txid x) ≠ Ret (key "ab02")) new.
Proof.
  assert (Hs : settled row_ab02) by (split; [vm_compute; reflexivity|vm_compute; discriminate]).
  split; [exact Hs|]. apply (settled_never_sent clk0 false scripts0 accepting w1 w2 (key "ab02") row_ab02).
  - eapply rtc_l; [apply sends_request|]. eapply rtc_l; [apply (sends_sweep _ _ _ _ _ 10)|]. apply rtc_refl.
  - vm_compute. reflexivity.
  - exact Hs.
Defined.

Definition p4 : Provider := w_prov w0.
Definition p5 : Provider := (processNewTx clk0 false scripts0 100 7 sign_ab04 p4).2.

(** The pins of the coins under a reference. *)
Definition pins (reference : string) (p : Provider) : list bool :=
  (λ kr, u_Pinned (MemStore.r_utxo kr.2)) <$>
    filter (λ kr, u_ReservedBy (MemStore.r_utxo kr.2) = reference) (map_to_list (MemStore.rows (p_utxo p))).

Lemma signed_bytes_pinned_witness : pins "ref4" p4 = [false] ∧ pins "ref4" p5 = [true] ∧ all_pinned 7 "ref4" (p_utxo p5).
Proof.
  split_and!; [vm_compute; reflexivity..|].
  apply (signed_bytes_pinned clk0 false scripts0 100 7 sign_ab04 "ref4" p4); [reflexivity|].
  intros Heq. pose proof (f_equal size Heq) as Hs. vm_compute in Hs. discriminate Hs.
Defined.

Definition tx_ab04 : Transaction SourceTx := mkTransaction raw_ab04 [mkInput (Some 52228) 0 (Some 1000)].
Abbreviation record_ab04 := (applyAcceptedBroadcast clk0 false "ab04" tx_ab04).
Definition p6 : Provider := (record_ab04 p5).2.
Lemma ab04_recorded : record_ab04 p5 = (Ret (), p6).
Proof.
  assert (Hok : match (record_ab04 p5).1 with Ret _ => true | _ => false end = true) by (vm_compute; reflexivity).
  unfold p6. destruct (record_ab04 p5) as [[[]|e|] q]; [reflexivity|discriminate Hok..].
Qed.

Lemma accepted_is_recorded_witness :
  StoreContract.coin (p_utxo p5) (mkOutpoint 52228 0) ≠ StoreContract.coin (p_utxo p6) (mkOutpoint 52228 0) ∧
  ∃ h raw, NewHashFromHex "ab04" = Some h ∧ encTxID "ab04" = Ret raw ∧
    (∀ op u, op ∈ tx_ops tx_ab04 → StoreContract.coin (p_utxo p6) op = Some u → u_SpentBy u = Some h) ∧
    (∀ op, is_Some (StoreContract.coin (p_utxo p5) op) → is_Some (StoreContract.coin (p_utxo p6) op)) ∧
    (∀ op, op ∉ tx_ops tx_ab04 → StoreContract.coin (p_utxo p6) op = StoreContract.coin (p_utxo p5) op) ∧
    (∀ k, known_txs (p_meta p6) !! raw = Some k → ¬ claimable_row k) ∧
    record_ab04 (mkProvider (p_meta p5) (p_utxo p6) (p_ticks p5)) = (Ret (), p6).
Proof.
  split.
  - intros Heq. pose proof (f_equal (λ o : option UTXO, o ≫= u_SpentBy) Heq) as Hs. vm_compute in Hs. discriminate Hs.
  - apply (accepted_is_recorded clk0 false "ab04" tx_ab04 p5 p6). exact ab04_recorded.
Defined.

(** ab03, never to be sent, is abandoned and its coin freed; ab04 is on its way and keeps its own. *)
Definition p7 : Provider :=
  (SweepStaleReservations clk0 false AbortExample.noText 2000 10
    (AbortAbandoned clk0 false AbortExample.noText 2000 10 p5).2).2.

Lemma janitors_spare_the_living_witness :
  pins "ref3" p5 = [true] ∧ pins "ref4" p5 = [true] ∧ pins "ref3" p7 = [] ∧ pins "ref4" p7 = [true] ∧
  (∀ op u, StoreContract.coin (p_utxo p5) op = Some u → reserved u →
    StoreContract.coin (p_utxo p7) op = Some u ∨ dead (p_meta p5) (p_meta p7) u).
Proof.
  split_and!; [vm_compute; reflexivity..|]. intros op u.
  apply (janitors_spare_the_living clk0 false AbortExample.noText p5 p7).
  eapply rtc_l; [apply (abandoned_sweep _ _ _ _ 2000 10)|].
  eapply rtc_l; [apply (stale_sweep _ _ _ _ 2000 10)|]. apply rtc_refl.
Defined.

(** A status service that never answers. *)
Definition silent (_ : nat) (_ : string) : oracle_answer := OracleError.
Definition late (n : nat) : Time := 1000000000000 + Z.of_nat n.
Abbreviation poll p := (sweep_once late hdrs0 false silent 1 p).

Lemma due_now raw p :
  match known_txs (p_meta p) !! raw with
  | Some k => due (late (p_ticks p) - syncStaleness) (raw, k)
  | None => false
  end = true → is_due late raw p.
Proof. rewrite /is_due. destruct (known_txs (p_meta p) !! raw) as [k|]; [by exists k|done]. Qed.

Lemma waiting_rows_are_polled_witness :
  size (known_txs (p_meta p4)) = 3%nat ∧
  ∃ i k, (i ≤ 4)%nat ∧ known_txs (p_meta (Nat.iter i (λ p, poll p) p4)) !! key "ab01" = Some k ∧ 999 < kt_LastPolledAt k.
Proof.
  split; [vm_compute; reflexivity|].
  apply (waiting_rows_are_polled late hdrs0 false silent 999 1 (key "ab01") 4 p4).
  - intros i. unfold late. lia.
  - intros i Hi. apply due_now. do 5 (destruct i as [|i]; [vm_compute; reflexivity|]). lia.
  - vm_compute. reflexivity.
Defined.
End ProcessExample.
