(* ===== verification/Beef.v ===== *)
(** * Random: the provider's randomizer

    [pkg/storage/randomizer.go] over [crypto/rand] and the standard base64 alphabet.
    [entropy n k] is what the [n]-th reading of [k] bytes yields; [None] is a failed
    reading. *)
From Stdlib Require Import Ascii String.
From S2P Require Import Prelude UtxoTypes MemStore Statuses GoStrings External Fee KnownTx Ledger StatusUpdates Process.
Import GoStrings Encoding WdkStatus KnownTxRepo Ledger StatusUpdates.
Local Open Scope string_scope.
Local Open Scope Z_scope.

Module Random.

(** ** The randomizer *)

(** [binary.LittleEndian.Uint64] on the eight bytes of a buffer. *)
Fixpoint little_endian (b : Bytes) : Z :=
  match b with [] => 0 | c :: b' => code c + 256 * little_endian b' end.

Definition swap {A} (i j : nat) (l : list A) : list A :=
  match l !! i, l !! j with
  | Some x, Some y => <[i := y]> (<[j := x]> l)
  | _, _ => l
  end.

Section randomizer.
Context (entropy : nat → Z → option Bytes).

Definition read (n : Z) : PM (option Bytes) := λ p,
  (Ret (entropy (p_ticks p) n), mkProvider (p_meta p) (p_utxo p) (S (p_ticks p))).

Definition randomBytes (length : Z) : PM Bytes :=
  r ← read length;
  match r with None => throw (Refused "read random bytes") | Some b => mret b end.
Definition Base64 (length : Z) : PM string :=
  b ← randomBytes length; mret (string_of_list_ascii (EncodeBase64 b)).

(** The pass from index [i] down to 1. *)
Fixpoint shuffle_from {A} (i : nat) (l : list A) : PM (list A) :=
  match i with
  | O => mret l
  | S i' =>
      r ← read 8;
      shuffle_from i' (match r with
                       | None => l
                       | Some buf => swap i (Z.to_nat (little_endian buf `mod` Z.of_nat (S i))) l
                       end)
  end.
Definition Shuffle {A} (l : list A) : PM (list A) := shuffle_from (pred (length l)) l.

Definition Uint64 (maxVal : Z) : PM Z :=
  if maxVal =? 0 then mret 0
  else r ← read 8; mret (match r with None => 0 | Some buf => little_endian buf `mod` maxVal end).
End randomizer.

(** ** Lemmas *)

Lemma swap_perm {A} i j (l : list A) : swap i j l ≡ₚ l.
Proof.
  rewrite /swap. destruct (l !! i) as [x|] eqn:Hi; [|done]. destruct (l !! j) as [y|] eqn:Hj; [|done].
  apply (Permutation_insert_swap _ _ _ _ _ Hj Hi).
Qed.
End Random.

(** * Beef: assembling the ancestry of a transaction

    [pkg/storage/beef.go]: the walk from a set of transactions to their stored
    ancestors, merged into one BEEF.  The BEEF itself, source transactions, scripts and
    keys belong to the SDK ([BeefSdk]). *)
Import WdkStatus KnownTxRepo Ledger StatusUpdates Process.
Local Open Scope string_scope.
Local Open Scope Z_scope.

(** The mutating methods return the new BEEF; [None] is an error.
    [AddMerkleProof raw mp]: the path proves the transaction.
    [src_Outputs]: satoshis and locking script (nil-able) of each output. *)
Class BeefSdk `{Sdk, TxSdk} := {
  NewBeefV2 : Beef;
  FindTransaction : Beef → string → option SourceTx;
  MergeTxidOnly : Hash → Beef → Beef;
  AddMerkleProof : Bytes → MerklePath → bool;
  MergeTransaction : Bytes → MerklePath → Beef → option Beef;
  MergeRawTx : Bytes → Beef → option Beef;
  MergeBeefBytes : Bytes → Beef → option Beef;
  Beef_Bytes : Beef → option Bytes;
  src_Outputs : SourceTx → list (Z * option Bytes);
  src_Bytes : SourceTx → Bytes;
  NewFromHex : string → option Bytes;
  PublicKey : Type;
  Address : Type;
  PublicKeyFromString : string → option PublicKey;
  NewAddressFromPublicKey : PublicKey → bool → option Address;
  Lock : Address → option Bytes;
}.

Module BeefBuilder.

Definition maxBEEFDepth : nat := 16.

(** The loop over the inputs whose source is not in the BEEF yet. *)
Fixpoint each_source `{Sdk, TxSdk} (f : string → Beef → PM Beef) (ins : list (option Hash * Z)) (beef : Beef) :
    PM Beef :=
  match ins with
  | [] => mret beef
  | (Some h, _) :: rest =>
      match FindTransactionByHash beef h with
      | Some _ => each_source f rest beef
      | None => beef' ← f (Hash_String h) beef; each_source f rest beef'
      end
  | (None, _) :: rest => each_source f rest beef
  end.

Section beef.
Context `{BeefSdk}.
Context (directInputBEEF : bool).

Definition refuse_none {A} (what : string) (o : option A) : PM A :=
  match o with Some a => mret a | None => throw (Refused what) end.

(** [left] is how many more levels are allowed. *)
Fixpoint buildBEEF (left : nat) (known_ : gset string) (txid : string) (beef : Beef) : PM Beef :=
  match left with
  | O => throw (Refused "beef ancestry too deep")
  | S left' =>
      match NewHashFromHex txid with
      | None => throw (BadTxID txid)
      | Some hash =>
          if decide (is_Some (FindTransactionByHash beef hash)) then mret beef
          else if decide (txid ∈ known_) then mret (MergeTxidOnly hash beef)
          else
            found ← meta_read (known (FindByTxID txid));
            match found with
            | None => mret (MergeTxidOnly hash beef)
            | Some kt =>
                match kt_RawTx kt with
                | [] => mret (MergeTxidOnly hash beef)
                | raw =>
                    ins ← refuse_none "parse raw tx" (NewTransactionFromBytes raw);
                    match kt_MerklePath kt with
                    | _ :: _ =>
                        mp ← refuse_none "parse merkle path" (NewMerklePathFromBinary (kt_MerklePath kt));
                        if AddMerkleProof raw mp
                        then refuse_none "merge proven tx" (MergeTransaction raw mp beef)
                        else throw (Refused "attach merkle proof")
                    | [] =>
                        beef ← refuse_none "merge raw tx" (MergeRawTx raw beef);
                        if directInputBEEF then mret beef
                        else
                          stored ← inputBEEFFor txid (kt_InputBEEF kt);
                          beef ← match stored with
                                 | [] => mret beef
                                 | _ => refuse_none "merge input beef" (MergeBeefBytes stored beef)
                                 end;
                          each_source (buildBEEF left' known_) ins beef
                    end
                end
            end
      end
  end.

Fixpoint build_all (known_ : gset string) (txids : list string) (beef : Beef) : PM Beef :=
  match txids with
  | [] => mret beef
  | txid :: rest => beef' ← buildBEEF (S maxBEEFDepth) known_ txid beef; build_all known_ rest beef'
  end.
Definition getBEEFForTxIDs (txids : list string) (base : option Beef) (knownTxids : list string) : PM Beef :=
  build_all (list_to_set knownTxids) txids (default NewBeefV2 base).
End beef.
End BeefBuilder.
