(* ===== verification/Create.v ===== *)
(** * Create: funding a new transaction and storing it unsigned

    [pkg/storage/create.go] and [pkg/storage/create_inputs.go]: the inputs a caller
    names are resolved and reserved, the funder covers the rest, and the unsigned
    transaction with its outputs is stored.  With one database (Mode A) all of it is one
    unit of work; with two (Mode B) a failure releases the reservation.

    The funder works on the provider's coin store through the interface of [Funder],
    whatever serves it and whoever else uses the store meanwhile.  Log lines and the
    cancellation of a request are left out. *)
From Stdlib Require Import Ascii String.
From S2P Require Import Prelude UtxoTypes MemStore Statuses Satoshi External Fee Collector Funder FunderMem Config.
From S2P Require Import KnownTx Ledger StatusUpdates Process Beef.
Import WdkStatus ArcadeStatus KnownTxRepo Ledger StatusUpdates Process Random BeefBuilder.
Local Open Scope string_scope.
Local Open Scope Z_scope.

Module Create.

(** ** Requests, results and configuration *)

Record OutPoint := mkOutPoint { op_TxID : string; op_Vout : Z }.
#[global] Instance OutPoint_eq_dec : EqDecision OutPoint.
Proof. solve_decision. Defined.

Record ValidCreateActionInput := mkCreateInput {
  ci_Outpoint : OutPoint;
  ci_InputDescription : string;
  ci_SequenceNumber : Z;
  ci_UnlockingScript : option string;
  ci_UnlockingScriptLength : option Z;
}.
Record ValidCreateActionOutput := mkCreateOutput {
  co_LockingScript : string;
  co_Satoshis : Z;
  co_OutputDescription : string;
  co_Basket : option string;
  co_CustomInstructions : option string;
  co_Tags : list string;
}.
Record ShapedChange := mkShape {
  sc_Count : Z;
  sc_Satoshis : Z;
  sc_Basket : string;
  sc_SourceBasket : string;
}.
(** The arguments and the options, in one record; what CreateAction does not read are
    the flags the validation compares. *)
Record ValidCreateActionArgs := mkCreateArgs {
  ca_Description : string;
  ca_InputBEEF : Bytes;
  ca_Inputs : list ValidCreateActionInput;
  ca_Outputs : list ValidCreateActionOutput;
  ca_LockTime : Z;
  ca_Version : Z;
  ca_Labels : list string;
  ca_IncludeAllSourceTransactions : bool;
  ca_IsNoSend : bool;
  ca_KnownTxids : list string;
  ca_RandomizeOutputs : bool;
  ca_FuelShape : option ShapedChange;
  ca_IsSignAction : bool;
  ca_IsSendWith : bool;
  ca_IsNewTx : bool;
  ca_IsRemixChange : bool;
  ca_IsDelayed : bool;
  ca_AcceptDelayedBroadcast : option bool;
  ca_NoSend : option bool;
  ca_SendWith : list string;
  ca_SignAndProcess : option bool;
  ca_NoSendChange : list OutPoint;
}.

Record StorageCreateTransactionSdkInput := mkSdkInput {
  si_Vin : Z;
  si_SourceTxID : string;
  si_SourceVout : Z;
  si_SourceSatoshis : Z;
  si_SourceLockingScript : string;
  si_SourceTransaction : option Bytes;
  si_UnlockingScriptLength : option Z;
  si_ProvidedBy : string;
  si_Type : string;
  si_DerivationPrefix : option string;
  si_DerivationSuffix : option string;
  si_SenderIdentityKey : option string;
}.
Record StorageCreateTransactionSdkOutput := mkSdkOutput {
  so_output : ValidCreateActionOutput;
  so_Vout : Z;
  so_ProvidedBy : string;
  so_Purpose : string;
  so_DerivationSuffix : option string;
}.
Record StorageCreateActionResult := mkCreateResult {
  cr_InputBeef : Bytes;
  cr_Inputs : list StorageCreateTransactionSdkInput;
  cr_Outputs : list StorageCreateTransactionSdkOutput;
  cr_NoSendChangeOutputVouts : list Z;
  cr_DerivationPrefix : string;
  cr_Version : Z;
  cr_LockTime : Z;
  cr_Reference : string;
}.

Record ChangeBasket := mkChangeBasket {
  cb_NumberOfDesiredUTXOs : Z;
  cb_MinimumDesiredUTXOValue : Z;
  cb_MaxChangeOutputsPerTx : Z;
}.
Definition DefaultChangeBasket : ChangeBasket := mkChangeBasket 32 1000 8.

(** The configuration of the provider, with the fee calculator of its funder. *)
Record ProviderConfig := mkProviderConfig {
  pc_feeModel : Fee.FeeModel;
  pc_feeCalculator : Fee.feeCalc;
  pc_changeBasket : ChangeBasket;
  pc_utxoMgmt : Config.UTXOManagement;
  pc_commission : Config.Commission;
  pc_testnet : bool;
  pc_requireChangeOutput : bool;
  pc_directInputBEEF : bool;
}.

Definition OutputTypeP2PKH : string := "P2PKH".
Definition OutputTypeCustom : string := "custom".
Definition ProvidedByStorage : string := "storage".
Definition ProvidedByYouAndStorage : string := "you-and-storage".
Definition StorageCommissionPurpose : string := "storage-commission".
Definition ChangePurpose : string := "change".
Definition BasketNameForChange : string := "default".
Definition referenceLength : Z := 12.
Definition derivationPrefixBytes : Z := 16.
Definition derivationSuffixBytes : Z := 16.
Definition txDefaultUnlockLen : Z := 107.

(** ** Sizes and amounts *)

(** [len(hex) / 2]. *)
Definition hex_length (s : string) : Z := Z.of_nat (String.length s) / 2.
Definition Input_ScriptLength (i : ValidCreateActionInput) : option Z :=
  match ci_UnlockingScript i with
  | Some s => Some (hex_length s)
  | None => ci_UnlockingScriptLength i
  end.
Definition Output_ScriptLength (o : ValidCreateActionOutput) : Z := hex_length (co_LockingScript o).

Definition providedOutputSizes (outputs : list ValidCreateActionOutput) : Z * list Z :=
  (foldl (λ acc o, i64 (acc + i64 (co_Satoshis o))) 0 outputs, Output_ScriptLength <$> outputs).
Definition providedInputSizes (inputs : list ValidCreateActionInput) : list Z :=
  (λ i, default Fee.P2PKHUnlockingScriptLength (Input_ScriptLength i)) <$> inputs.

Definition distributeChange (total count : Z) : list Z :=
  if (count =? 0) || (total <=? 0) then []
  else
    let base := total `div` count in
    (replicate (Z.to_nat count - 1) base ++ [u64 (base + total `mod` count)])%list.

Definition allocatedTxids `{Sdk} (utxos : list UTXO) : list string :=
  dedup_from ∅ ((λ u, Hash_String (TxID (u_Outpoint u))) <$> utxos).

(** ** Configuration lookups *)

Section config.
Context `{External, BeefSdk}.
Context (cfg : ProviderConfig).
Abbreviation mgmt := (pc_utxoMgmt cfg).
Abbreviation throughput := (Config.um_Throughput mgmt).

Definition fanOutSourceBasket (shape : ShapedChange) : string :=
  if decide (sc_SourceBasket shape ≠ "") then sc_SourceBasket shape
  else if Config.Enabled mgmt && bool_decide (sc_Basket shape = Config.PoolBasket throughput)
  then Config.ReserveBasket throughput
  else BasketNameForChange.

Definition fundingSource (shape : option ShapedChange) : outcome perror (string * Z) :=
  match shape with
  | Some shape => Ret (fanOutSourceBasket shape, 0)
  | None =>
      if negb (Config.Enabled mgmt) then Ret (BasketNameForChange, 0)
      else
        d ← mapErr (λ _, Refused "resolve fuel denomination")
              (Config.Denomination throughput (pc_feeModel cfg) (pc_commission cfg));
        Ret (Config.PoolBasket throughput, d)
  end.

Definition changeDestinationBasket (shape : option ShapedChange) : string :=
  match shape with
  | Some shape => fanOutSourceBasket shape
  | None => if Config.Enabled mgmt && Config.RecycleChangeToPool throughput
            then Config.PoolBasket throughput else BasketNameForChange
  end.

Definition spendTiers : list Tier :=
  if Config.Enabled mgmt then Funder.SpendTiers (Config.SpendPolicy throughput)
  else Funder.SpendTiers "prefer_mined".
Definition maxChangeOutputsPerTx : Z :=
  if cb_MaxChangeOutputsPerTx (pc_changeBasket cfg) =? 0 then 1
  else cb_MaxChangeOutputsPerTx (pc_changeBasket cfg).

Definition changeBasketCount (userID : Z) : PM Z :=
  if Config.Enabled mgmt then mret 0
  else meta_read (CountInBasket userID BasketNameForChange).

(** The script of the commission output; nil when there is no commission. *)
Definition commissionLockingScript : outcome perror Bytes :=
  if negb (Config.Commission_Enabled (pc_commission cfg)) then Ret []
  else match PublicKeyFromString (Config.cm_PubKeyHex (pc_commission cfg)) with
       | None => Err (Refused "parse commission pubkey")
       | Some pub =>
           match NewAddressFromPublicKey pub (negb (pc_testnet cfg)) with
           | None => Err (Refused "commission address")
           | Some addr => match Lock addr with
                          | None => Err (Refused "commission locking script")
                          | Some ls => Ret ls
                          end
           end
       end.

Definition hexBytes (s : string) : outcome perror Bytes :=
  if decide (s = "") then Ret []
  else match NewFromHex s with Some b => Ret b | None => Err (Refused "decode locking script") end.
Definition hexString (b : Bytes) : string :=
  match b with [] => "" | _ => string_of_list_ascii (EncodeToString b) end.
Definition parseProvidedBEEF (b : Bytes) : outcome perror (option Beef) :=
  match b with
  | [] => Ret None
  | _ => match NewBeefFromBytes b with
         | None => Err (Refused "parse provided input beef")
         | Some beef => Ret (Some beef)
         end
  end.

(** What CreateAction asks the funder for: size, output count and target. *)
Definition fuel_outputs (args : ValidCreateActionArgs) : list Z :=
  match ca_FuelShape args with Some sh => replicate (Z.to_nat (sc_Count sh)) (sc_Satoshis sh) | None => [] end.
Definition output_lengths (args : ValidCreateActionArgs) : list Z :=
  ((providedOutputSizes (ca_Outputs args)).2 ++
   (if Config.Commission_Enabled (pc_commission cfg) then [Fee.P2PKHLockingScriptLength] else []) ++
   ((λ _, Fee.P2PKHLockingScriptLength) <$> fuel_outputs args))%list.
Definition non_change_outputs (args : ValidCreateActionArgs) : Z :=
  u64 (Z.of_nat (length (ca_Outputs args)) +
       (if Config.Commission_Enabled (pc_commission cfg) then 1 else 0) +
       match ca_FuelShape args with Some sh => sc_Count sh | None => 0 end).
Definition funding_target (args : ValidCreateActionArgs) (providedInputSats : Z) : Z :=
  let target := (providedOutputSizes (ca_Outputs args)).1 in
  let target := if Config.Commission_Enabled (pc_commission cfg)
                then i64 (target + i64 (Config.cm_Satoshis (pc_commission cfg))) else target in
  let target := match ca_FuelShape args with
                | Some sh => i64 (target + i64 (i64 (sc_Count sh) * i64 (sc_Satoshis sh)))
                | None => target
                end in
  i64 (target - providedInputSats).
End config.

(** ** Output plans *)

Record outputPlan := mkPlan {
  pl_satoshis : Z;
  pl_lockingScript : Bytes;
  pl_basket : option string;
  pl_change : bool;
  pl_outputType : string;
  pl_providedBy : string;
  pl_purpose : string;
  pl_description : string;
  pl_customInstructions : option string;
  pl_derivationPrefix : option string;
  pl_derivationSuffix : option string;
  pl_tags : list string;
  pl_vout : Z;
}.
Definition set_pl_vout (v : Z) (pl : outputPlan) : outputPlan :=
  mkPlan (pl_satoshis pl) (pl_lockingScript pl) (pl_basket pl) (pl_change pl) (pl_outputType pl)
    (pl_providedBy pl) (pl_purpose pl) (pl_description pl) (pl_customInstructions pl)
    (pl_derivationPrefix pl) (pl_derivationSuffix pl) (pl_tags pl) v.

(** A caller's output, the commission, and a coin of the wallet's own. *)
Definition provided_plan (o : ValidCreateActionOutput) (ls : Bytes) : outputPlan :=
  mkPlan (i64 (co_Satoshis o)) ls (co_Basket o) false OutputTypeCustom ProvidedByYou ""
    (co_OutputDescription o) (co_CustomInstructions o) None None (co_Tags o) 0.
Definition commission_plan (c : Config.Commission) (ls : Bytes) : outputPlan :=
  mkPlan (i64 (Config.cm_Satoshis c)) ls None false OutputTypeP2PKH ProvidedByStorage
    StorageCommissionPurpose "Storage Service Charge" None None None [] 0.
Definition change_plan (value : Z) (basket prefix suffix : string) : outputPlan :=
  mkPlan (i64 value) [] (Some basket) true OutputTypeP2PKH ProvidedByStorage ChangePurpose "" None
    (Some prefix) (Some suffix) [] 0.

Definition buildResultOutputs (plans : list outputPlan) : list StorageCreateTransactionSdkOutput :=
  (λ pl, mkSdkOutput
    (mkCreateOutput (hexString (pl_lockingScript pl)) (u64 (pl_satoshis pl)) (pl_description pl)
       (pl_basket pl) (pl_customInstructions pl) (pl_tags pl))
    (pl_vout pl) (pl_providedBy pl) (pl_purpose pl) (pl_derivationSuffix pl)) <$> plans.

Definition noSendChangeVouts (isNoSend : bool) (plans : list outputPlan) (changeBasket : string) : list Z :=
  if negb isNoSend then []
  else pl_vout <$> filter (λ pl, pl_change pl = true ∧ pl_basket pl = Some changeBasket) plans.

(** ** The inputs a caller names *)

Record resolvedInput := mkResolved {
  ri_input : ValidCreateActionInput;
  ri_satoshis : Z;
  ri_lockingScript : Bytes;
  ri_known : bool;
  ri_op : Outpoint;
}.
Definition walletOwnedOutpoints (provided : list resolvedInput) : list Outpoint :=
  ri_op <$> filter (λ ri, ri_known ri = true) provided.

(** [errors.As] on a refusal of ReserveOutpoints, in the order of the cases. *)
Definition item_errors (e : error) : list error :=
  match e with ErrBatchJoin es => es | _ => [e] end.
Definition as_spent (e : error) : option Outpoint := match e with SpentError op _ => Some op | _ => None end.
Definition as_reserved (e : error) : option Outpoint := match e with ReservedError op _ => Some op | _ => None end.
Definition as_frozen (e : error) : option Outpoint := match e with FrozenError op => Some op | _ => None end.
Definition as_missing (e : error) : option Outpoint := match e with NotFoundError op => Some op | _ => None end.
Definition refusedOutpoint (e : error) : option Outpoint :=
  let first f := head (omap f (item_errors e)) in
  match first as_spent, first as_reserved, first as_frozen with
  | Some op, _, _ | None, Some op, _ | None, None, Some op => Some op
  | None, None, None => first as_missing
  end.
Definition mapProvidedInputError (e : error) : perror :=
  if is_ErrContention e then ErrInputContention
  else match refusedOutpoint e with Some op => ErrInputUnavailable op | None => UtxoErr e end.

Section provider.
Context `{MapRange, External, BeefSdk} `{Funder.FundingStore FunderMem.shared}.
Context (clk : nat → Time) (shared : bool) (entropy : nat → Z → option Bytes).
Context (cfg : ProviderConfig) (fuel : nat).

(** The output of a source transaction an input names. *)
Definition beef_output (beef : option Beef) (txid : string) (vout : Z) : option (Z * option Bytes) :=
  src ← beef ≫= λ b, FindTransaction b txid; src_Outputs src !! Z.to_nat vout.

Definition zeroOutpoint : Outpoint := mkOutpoint 0 0.
Definition resolve_one (userID : Z) (providedBeef : option Beef) (i : ValidCreateActionInput) : PM resolvedInput :=
  let txid := op_TxID (ci_Outpoint i) in
  let vout := op_Vout (ci_Outpoint i) in
  rows ← meta_read (FindOutputs (mkFindOutputsArgs (Some userID) None None None (Some txid) (Some vout) None []));
  match rows with
  | row :: _ =>
      match NewHashFromHex txid with
      | None => throw (BadTxID txid)
      | Some h => mret (mkResolved i (o_Satoshis (or_row row)) (o_LockingScript (or_row row)) true (mkOutpoint h vout))
      end
  | [] =>
      match beef_output providedBeef txid vout with
      | Some (v, ls) => mret (mkResolved i (i64 v) (default [] ls) false zeroOutpoint)
      | None => throw (Refused "input not found")
      end
  end.
Fixpoint resolveProvidedInputs (userID : Z) (providedBeef : option Beef) (inputs : list ValidCreateActionInput)
    (total : Z) : PM (list resolvedInput * Z) :=
  match inputs with
  | [] => mret ([], total)
  | i :: rest =>
      ri ← resolve_one userID providedBeef i;
      '(ris, t) ← resolveProvidedInputs userID providedBeef rest (i64 (total + ri_satoshis ri));
      mret (ri :: ris, t)
  end.

Definition reserveProvidedInputs (userID : Z) (reference : string) (ops : list Outpoint) : PM () :=
  match ops with
  | [] => mret ()
  | _ => λ p,
      let '(o, s) := MemStore.ReserveOutpoints (λ i, clk (p_ticks p + i)%nat) userID reference ops (p_utxo p) in
      (mapErr mapProvidedInputError o, mkProvider (p_meta p) s (S (p_ticks p)))
  end.
Definition releaseReservationDetached (userID : Z) (reference : string) : PM () :=
  best_effort (utxo_call (MemStore.ReleaseReservation userID reference)).

(** [p.funder.Fund] on the provider's coin store. *)
Definition fund_call (args : Funder.FundArgs) : PM Collector.Result := λ p,
  let '(o, st) := Funder.Fund (pc_feeModel cfg) (pc_feeCalculator cfg) fuel args
                    (FunderMem.mkShared (p_utxo p) (p_ticks p)) in
  (mapErr FundFailed o, mkProvider (p_meta p) (FunderMem.sh_store st) (FunderMem.sh_time st)).

(** ** Storing the action *)

(** [LabelsRepo.attach] and [TagsRepo.attach], over their tables. *)
Definition attach (on : ∀ A, M Names meta_error A → L A) (userID ownerID : Z) (name : string) : PM () :=
  nameID ← meta_call clk (λ now, on _ (upsertNamed now userID name));
  meta_call clk (λ now, on _ (link now ownerID nameID)).
Fixpoint attach_all (on : ∀ A, M Names meta_error A → L A) (userID ownerID : Z) (names : list string) : PM () :=
  match names with
  | [] => mret ()
  | name :: rest => _ ← attach on userID ownerID name; attach_all on userID ownerID rest
  end.
Definition Transactions_Insert (tx : NewTx) : PM Z :=
  id ← meta_call clk (λ now, insert_tx now tx);
  _ ← attach_all (@on_labels) (nt_UserID tx) id (nt_Labels tx); mret id.
Definition Outputs_Insert (o : NewOutput) : PM Z :=
  id ← meta_call clk (λ now, insert_output now o);
  _ ← attach_all (@on_tags) (no_UserID o) id (no_Tags o); mret id.

Fixpoint provided_plans (outputs : list ValidCreateActionOutput) : outcome perror (list outputPlan) :=
  match outputs with
  | [] => Ret []
  | o :: rest =>
      ls ← hexBytes (co_LockingScript o);
      plans ← provided_plans rest; Ret (provided_plan o ls :: plans)
  end.
Fixpoint own_plans (values : list Z) (basket prefix : string) : PM (list outputPlan) :=
  match values with
  | [] => mret []
  | v :: rest =>
      suffix ← Base64 entropy derivationSuffixBytes;
      plans ← own_plans rest basket prefix; mret (change_plan v basket prefix suffix :: plans)
  end.
Definition buildOutputPlans (args : ValidCreateActionArgs) (fundRes : Collector.Result)
    (derivationPrefix : string) (commissionScript : Bytes) : PM (list outputPlan) :=
  provided ← lift (provided_plans (ca_Outputs args));
  let commission := if Config.Commission_Enabled (pc_commission cfg)
                    then [commission_plan (pc_commission cfg) commissionScript] else [] in
  fuelled ← own_plans (fuel_outputs args)
              (match ca_FuelShape args with Some sh => sc_Basket sh | None => "" end) derivationPrefix;
  change ← own_plans (distributeChange (Collector.ChangeAmount fundRes) (Collector.ChangeOutputsCount fundRes))
             (changeDestinationBasket cfg (ca_FuelShape args)) derivationPrefix;
  mret (provided ++ commission ++ fuelled ++ change)%list.

Fixpoint insert_outputs (userID txID : Z) (plans : list outputPlan) : PM () :=
  match plans with
  | [] => mret ()
  | pl :: rest =>
      _ ← Outputs_Insert (mkNewOutput userID txID (pl_vout pl) (pl_satoshis pl) (pl_lockingScript pl)
            (pl_basket pl) None (pl_change pl) (pl_outputType pl) (pl_providedBy pl) (pl_purpose pl)
            (pl_description pl) (pl_derivationPrefix pl) (pl_derivationSuffix pl) None
            (pl_customInstructions pl) (pl_tags pl));
      insert_outputs userID txID rest
  end.

Definition lockingScriptFor (row : option OutputRow) (beef : Beef) (txid : string) (vout : Z) : Bytes :=
  match row with
  | Some r => if nonempty (o_LockingScript (or_row r)) then o_LockingScript (or_row r)
              else default [] (beef_output (Some beef) txid vout ≫= snd)
  | None => default [] (beef_output (Some beef) txid vout ≫= snd)
  end.
Definition sourceTxBytesFor (include : bool) (beef : Beef) (txid : string) : option Bytes :=
  if include then src_Bytes <$> FindTransaction beef txid else None.

Definition provided_input (include : bool) (beef : Beef) (vin : nat) (ri : resolvedInput) :
    StorageCreateTransactionSdkInput :=
  let op := ci_Outpoint (ri_input ri) in
  mkSdkInput (Z.of_nat vin) (op_TxID op) (op_Vout op) (ri_satoshis ri) (hexString (ri_lockingScript ri))
    (sourceTxBytesFor include beef (op_TxID op)) (Input_ScriptLength (ri_input ri))
    (if ri_known ri then ProvidedByYouAndStorage else ProvidedByYou) OutputTypeCustom None None None.
Definition allocated_input (include : bool) (beef : Beef) (rows : gmap (string * Z) OutputRow) (vin : nat) (u : UTXO) :
    StorageCreateTransactionSdkInput :=
  let txid := Hash_String (TxID (u_Outpoint u)) in
  let vout := Vout (u_Outpoint u) in
  let row := rows !! (txid, vout) in
  mkSdkInput (Z.of_nat vin) txid vout (i64 (u_Satoshis u)) (hexString (lockingScriptFor row beef txid vout))
    (sourceTxBytesFor include beef txid) (Some txDefaultUnlockLen) ProvidedByStorage OutputTypeP2PKH
    (row ≫= λ r, o_DerivationPrefix (or_row r)) (row ≫= λ r, o_DerivationSuffix (or_row r))
    (row ≫= λ r, o_SenderIdentityKey (or_row r)).
Definition buildResultInputs (userID : Z) (provided : list resolvedInput) (allocated : list UTXO) (beef : Beef)
    (include : bool) : PM (list StorageCreateTransactionSdkInput) :=
  rows ← localOutputsByOutpoint userID
           ((λ u, (Hash_String (TxID (u_Outpoint u)), Vout (u_Outpoint u))) <$> allocated);
  mret (imap (provided_input include beef) provided ++
        imap (λ i, allocated_input include beef rows (length provided + i)) allocated)%list.

(** A zero version or lock time is stored as NULL. *)
Definition nonzero (z : Z) : option Z := if z =? 0 then None else Some z.

Definition persistCreateAction (userID : Z) (reference derivationPrefix : string) (args : ValidCreateActionArgs)
    (providedInputs : list resolvedInput) (fundRes : Collector.Result) (commissionScript : Bytes) :
    PM StorageCreateActionResult :=
  plans ← buildOutputPlans args fundRes derivationPrefix commissionScript;
  plans ← (if ca_RandomizeOutputs args then Shuffle entropy plans else mret plans);
  let plans := imap (λ i pl, set_pl_vout (Z.of_nat i) pl) plans in
  totalAllocated ← lift (mapErr FundFailed (Collector.TotalAllocated fundRes));
  let txNet := i64 (Collector.ChangeAmount fundRes - totalAllocated) in
  base ← lift (parseProvidedBEEF (ca_InputBEEF args));
  beef ← getBEEFForTxIDs (pc_directInputBEEF cfg) (allocatedTxids (Collector.AllocatedUTXOs fundRes)) base
           (ca_KnownTxids args);
  inputBeefBytes ← refuse_none "serialize input beef" (Beef_Bytes beef);
  txID ← Transactions_Insert (mkNewTx userID TxStatusUnsigned reference true txNet (ca_Description args)
           (nonzero (ca_Version args)) (nonzero (ca_LockTime args)) inputBeefBytes (ca_Labels args));
  _ ← insert_outputs userID txID plans;
  inputs ← buildResultInputs userID providedInputs (Collector.AllocatedUTXOs fundRes) beef
             (ca_IncludeAllSourceTransactions args);
  mret (mkCreateResult inputBeefBytes inputs (buildResultOutputs plans)
          (noSendChangeVouts (ca_IsNoSend args) plans (changeDestinationBasket cfg (ca_FuelShape args)))
          derivationPrefix (ca_Version args) (ca_LockTime args) reference).

(** ** CreateAction *)

(** [if err != nil { cleanup; return err }]. *)
Definition on_error {A} (cleanup : PM ()) (m : PM A) : PM A :=
  r ← try_ m;
  match r with
  | inr a => mret a
  | inl e => _ ← cleanup; throw e
  end.

(** The part that touches coins: reserve, fund, persist. *)
Definition fund_and_persist (userID : Z) (reference : string) (ops : list Outpoint) (fundArgs : Funder.FundArgs)
    (persist : Collector.Result → PM StorageCreateActionResult) : PM StorageCreateActionResult :=
  if shared then
    Do shared (
      _ ← reserveProvidedInputs userID reference ops;
      fundRes ← fund_call fundArgs;
      persist fundRes)
  else
    _ ← on_error (releaseReservationDetached userID reference) (reserveProvidedInputs userID reference ops);
    fundRes ← fund_call fundArgs;
    on_error (releaseReservationDetached userID reference) (Do shared (persist fundRes)).

Definition fund_args (userID : Z) (reference : string) (args : ValidCreateActionArgs) (source : string * Z)
    (targetSat existingCount : Z) : Funder.FundArgs :=
  Funder.mkArgs userID source.1 reference targetSat
    (Fee.TransactionSizeFromScriptLengths (providedInputSizes (ca_Inputs args)) (output_lengths cfg args))
    (non_change_outputs cfg args) (spendTiers cfg)
    (cb_NumberOfDesiredUTXOs (pc_changeBasket cfg)) (cb_MinimumDesiredUTXOValue (pc_changeBasket cfg))
    (maxChangeOutputsPerTx cfg) (pc_requireChangeOutput cfg) existingCount source.2.

Definition CreateAction (auth : option Z) (args : ValidCreateActionArgs) : PM StorageCreateActionResult :=
  match auth with
  | None => throw ErrAuthorization
  | Some userID =>
      reference ← Base64 entropy referenceLength;
      derivationPrefix ← Base64 entropy derivationPrefixBytes;
      providedBeef ← lift (parseProvidedBEEF (ca_InputBEEF args));
      '(providedInputs, providedInputSats) ← resolveProvidedInputs userID providedBeef (ca_Inputs args) 0;
      commissionScript ← lift (commissionLockingScript cfg);
      targetSat ← lift (mapErr (λ _, Refused "invalid funding target")
                    (Satoshi.From (Satoshi.mkInt Satoshi.KInt64 (funding_target cfg args providedInputSats))));
      existingCount ← changeBasketCount cfg userID;
      source ← lift (fundingSource cfg (ca_FuelShape args));
      fund_and_persist userID reference (walletOwnedOutpoints providedInputs)
        (fund_args userID reference args source targetSat existingCount)
        (λ fundRes, persistCreateAction userID reference derivationPrefix args providedInputs fundRes
                      commissionScript)
  end.
End provider.
End Create.
