(* ===== verification/CreateProps.v ===== *)
(** * CreateProps: what a created action stores

    The amounts and rows of [Create]: the change is split without loss, shuffling loses
    no output, and the rows CreateAction stores are the outputs it returns. *)
From Stdlib Require Import Ascii String.
From S2P Require Import Prelude UtxoTypes MemStore StoreContract Statuses Satoshi External Fee Collector.
From S2P Require Import Funder FunderProps FunderMem Config KnownTx Ledger StatusUpdates Process ProviderLogic.
From S2P Require Import AbortProps ProcessProps ProcessCommit Beef Create.
Import WdkStatus ArcadeStatus KnownTxRepo Ledger StatusUpdates Process ProviderLogic Random BeefBuilder Create.
Local Open Scope string_scope.
Local Open Scope Z_scope.

Module CreateProps.

(** ** Amounts *)

Abbreviation zsum := Satoshi.zsum.

Lemma zsum_app l k : zsum (l ++ k) = zsum l + zsum k.
Proof. induction l as [|x l IH]; simpl; [done|]. rewrite IH. lia. Qed.
Lemma zsum_perm l k : l ≡ₚ k → zsum l = zsum k.
Proof. induction 1; simpl; lia. Qed.
Lemma zsum_replicate n x : zsum (replicate n x) = Z.of_nat n * x.
Proof. induction n as [|n IH]; simpl; [done|]. rewrite IH. lia. Qed.
Lemma zsum_nonneg l : Forall (λ x, 0 ≤ x) l → 0 ≤ zsum l.
Proof. induction 1; simpl; lia. Qed.
Lemma zsum_each l x : Forall (λ x, 0 ≤ x) l → x ∈ l → x ≤ zsum l.
Proof.
  induction 1 as [|y l Hy Hl IH]; [by intros ?%not_elem_of_nil|]. pose proof (zsum_nonneg l Hl).
  intros [->|Hx]%elem_of_cons; simpl; [lia|]. specialize (IH Hx). lia.
Qed.

(** Numbering the elements does not matter to a view that ignores the number. *)
Lemma fmap_imap_same {A B C} (f : B → C) (g : nat → A → B) (h : A → C) l :
  (∀ i x, f (g i x) = h x) → f <$> imap g l = h <$> l.
Proof.
  intros Hg. apply list_eq. intros i. rewrite !list_lookup_fmap list_lookup_imap.
  destruct (l !! i); simpl; [|done]. by rewrite Hg.
Qed.

Lemma u64_i64 z : u64 (i64 z) = u64 z.
Proof. rewrite /wrapU /wrapS Zminus_mod_idemp_l. f_equal. lia. Qed.

(** The running int64 total of amounts that fit is their sum. *)
Lemma foldl_i64 l acc :
  Forall (λ x, 0 ≤ x) l → 0 ≤ acc → acc + zsum l < 2 ^ 63 →
  foldl (λ acc x, i64 (acc + x)) acc l = acc + zsum l.
Proof.
  intros Hl. revert acc. induction Hl as [|x l Hx Hl IH]; intros acc Ha Hs; simpl in *; [lia|].
  pose proof (zsum_nonneg l Hl). rewrite Satoshi.i64_id; [|lia]. rewrite IH; lia.
Qed.

Lemma distributeChange_spec total count :
  1 ≤ count → 0 < total < 2 ^ 64 →
  zsum (distributeChange total count) = total ∧
  Z.of_nat (length (distributeChange total count)) = count ∧
  Forall (λ x, 0 ≤ x ≤ total) (distributeChange total count).
Proof.
  intros Hc Ht. rewrite /distributeChange (proj2 (Z.eqb_neq _ _)) ?(proj2 (Z.leb_gt _ _)) //=; [|lia..].
  pose proof (Z.div_mod total count ltac:(lia)). pose proof (Z.mod_pos_bound total count ltac:(lia)).
  assert (0 ≤ total `div` count) by (apply Z.div_pos; lia).
  assert (total `div` count ≤ total) by nia.
  assert (total `div` count + total `mod` count ≤ total) by nia.
  rewrite Fee.u64_id; [|lia]. rewrite zsum_app zsum_replicate length_app length_replicate /=.
  split_and!; [nia|lia|]. apply Forall_app. split; [|repeat constructor; lia].
  apply Forall_replicate. lia.
Qed.

(** ** Steps that only read *)

Section steps.
Context `{MapRange, E : External, BeefSdk} `{F : Funder.FundingStore FunderMem.shared}.
Context (clk : nat → Time) (shared : bool) (entropy : nat → Z → option Bytes).
Context (cfg : ProviderConfig) (fuel : nat).

Lemma pure_gets_read n : pure_ (read entropy n).
Proof. intros p. simpl. split_and!; [done..|lia]. Qed.
Lemma pure_Base64 n : pure_ (Base64 entropy n).
Proof.
  apply pure_bind; [|intros; apply pure_ret]. apply pure_bind; [apply pure_gets_read|].
  intros []; [apply pure_ret|apply pure_throw].
Qed.
Lemma pure_shuffle_from {A} i (l : list A) : pure_ (shuffle_from entropy i l).
Proof.
  revert l. induction i as [|i IH]; intros l; [apply pure_ret|].
  apply pure_bind; [apply pure_gets_read|]. intros r. apply IH.
Qed.
Lemma shuffle_from_perm {A} i (l : list A) p : ∃ l' p', shuffle_from entropy i l p = (Ret l', p') ∧ l' ≡ₚ l.
Proof.
  revert l p. induction i as [|i IH]; intros l p; [by exists l, p|]. simpl. cbv [mbind M_bind read].
  match goal with |- context [shuffle_from _ i ?k ?q] => destruct (IH k q) as (l'&p'&->&Hl) end.
  exists l', p'. split; [done|]. rewrite Hl. case_match; [apply swap_perm|done].
Qed.

Lemma pure_own_plans values basket prefix : pure_ (own_plans entropy values basket prefix).
Proof.
  induction values as [|v values IH]; simpl; [apply pure_ret|]. apply pure_bind; [apply pure_Base64|].
  intros. apply pure_bind; [done|]. intros. apply pure_ret.
Qed.
Lemma pure_buildOutputPlans args fr prefix script : pure_ (buildOutputPlans entropy cfg args fr prefix script).
Proof.
  apply pure_bind; [apply pure_lift|]. intros ?. apply pure_bind; [apply pure_own_plans|]. intros ?.
  apply pure_bind; [apply pure_own_plans|]. intros ?. apply pure_ret.
Qed.
Lemma pure_refuse_none {A} what (o : option A) : pure_ (refuse_none what o).
Proof. destruct o; [apply pure_ret|apply pure_throw]. Qed.

Lemma pure_each_source f ins beef : (∀ txid b, pure_ (f txid b)) → pure_ (each_source f ins beef).
Proof.
  intros Hf. revert beef. induction ins as [|[[h|] v] ins IH]; intros beef; simpl; [apply pure_ret| |done].
  case_match; [done|]. by apply pure_bind.
Qed.
Lemma pure_buildBEEF direct left known_ txid beef : pure_ (buildBEEF direct left known_ txid beef).
Proof.
  revert txid beef. induction left as [|left IH]; intros txid beef; simpl; [apply pure_throw|].
  case_match; [|apply pure_throw]. repeat case_decide; [apply pure_ret..|].
  apply pure_bind; [apply pure_read, reads_FindByTxID|]. intros [kt|]; [|apply pure_ret].
  case_match; [apply pure_ret|]. apply pure_bind; [apply pure_refuse_none|]. intros ins.
  case_match.
  - apply pure_bind; [apply pure_refuse_none|]. intros beef'. case_match; [apply pure_ret|].
    apply pure_bind; [apply ProcessProps.pure_inputBEEFFor|]. intros b. apply pure_bind.
    + case_match; [apply pure_ret|apply pure_refuse_none].
    + intros. by apply pure_each_source.
  - apply pure_bind; [apply pure_refuse_none|]. intros mp. case_match; [apply pure_refuse_none|apply pure_throw].
Qed.
Lemma pure_getBEEFForTxIDs direct txids base ks : pure_ (getBEEFForTxIDs direct txids base ks).
Proof.
  rewrite /getBEEFForTxIDs. generalize (default NewBeefV2 base).
  induction txids as [|t txids IH]; intros beef; simpl; [apply pure_ret|].
  apply pure_bind; [exact (pure_buildBEEF direct (S maxBEEFDepth) _ t beef)|]. done.
Qed.
Lemma pure_buildResultInputs userID provided alloc beef include :
  pure_ (buildResultInputs userID provided alloc beef include).
Proof. apply pure_bind; [apply ProcessProps.pure_markInputs_lookup|]. intros. apply pure_ret. Qed.

(** ** The output plans *)

Lemma bind_pure {A B} (m : PM A) (k : A → PM B) p b p' :
  pure_ m → (m ≫= k) p = (Ret b, p') →
  ∃ a p1, m p = (Ret a, p1) ∧ k a p1 = (Ret b, p') ∧ p_meta p1 = p_meta p ∧ p_utxo p1 = p_utxo p.
Proof.
  intros Hm (a&p1&Ha&Hk)%ProcessCommit.bind_Ret. specialize (Hm p). rewrite Ha in Hm.
  exists a, p1. by destruct Hm as (?&?&_).
Qed.

Lemma own_plans_Ret values basket prefix p plans p' :
  own_plans entropy values basket prefix p = (Ret plans, p') → pl_satoshis <$> plans = i64 <$> values.
Proof.
  revert p plans p'. induction values as [|v values IH]; intros p plans p'; simpl; [by intros [= <- _]|].
  intros (suffix&p1&_&(rest&p2&Hrest&[= <- _])%ProcessCommit.bind_Ret)%ProcessCommit.bind_Ret.
  csimpl. by rewrite (IH _ _ _ Hrest).
Qed.
Lemma own_plans_providedBy values basket prefix p plans p' :
  own_plans entropy values basket prefix p = (Ret plans, p') →
  Forall (λ pl, pl_providedBy pl = ProvidedByStorage) plans.
Proof.
  revert p plans p'. induction values as [|v values IH]; intros p plans p'; simpl; [by intros [= <- _]|].
  intros (suffix&p1&_&(rest&p2&Hrest&[= <- _])%ProcessCommit.bind_Ret)%ProcessCommit.bind_Ret.
  constructor; [done|]. by eapply IH.
Qed.

(** The plans of the caller's outputs, given their decoded scripts. *)
Definition decoded (o : ValidCreateActionOutput) (ls : Bytes) : Prop := hexBytes (co_LockingScript o) = Ret ls.
Lemma provided_plans_Ret outs plans :
  provided_plans outs = Ret plans →
  ∃ scripts, Forall2 decoded outs scripts ∧ plans = zip_with provided_plan outs scripts.
Proof.
  revert plans. induction outs as [|o outs IH]; intros plans; simpl; [intros [= <-]; by exists []|].
  intros (ls&Hls&(rest&(scripts&?&->)%IH&[= <-])%outcome_bind_Ret)%outcome_bind_Ret.
  exists (ls :: scripts). split; [by constructor|done].
Qed.
Lemma provided_plans_spec outs scripts :
  Forall2 decoded outs scripts →
  pl_satoshis <$> zip_with provided_plan outs scripts = (λ o, i64 (co_Satoshis o)) <$> outs ∧
  Forall (λ pl, pl_providedBy pl = ProvidedByYou) (zip_with provided_plan outs scripts).
Proof. induction 1 as [|o ls outs scripts _ _ [IH ?]]; csimpl; [done|]. rewrite IH. by split; [|constructor]. Qed.

(** The values of the outputs, in the order they are planned. *)
Definition fixed_values (args : ValidCreateActionArgs) : list Z :=
  ((co_Satoshis <$> ca_Outputs args) ++
   (if Config.Commission_Enabled (pc_commission cfg) then [Config.cm_Satoshis (pc_commission cfg)] else []) ++
   fuel_outputs args)%list.
Definition change_values (fr : Collector.Result) : list Z :=
  distributeChange (Collector.ChangeAmount fr) (Collector.ChangeOutputsCount fr).

Abbreviation by_you := (filter (λ pl, pl_providedBy pl = ProvidedByYou)).
Lemma by_you_all plans : Forall (λ pl, pl_providedBy pl = ProvidedByYou) plans → by_you plans = plans.
Proof. induction 1; [done|]. rewrite filter_cons_True //. by f_equal. Qed.
Lemma by_you_none plans : Forall (λ pl, pl_providedBy pl = ProvidedByStorage) plans → by_you plans = [].
Proof. induction 1 as [|pl plans Hpl]; [done|]. rewrite filter_cons_False //. by rewrite Hpl. Qed.

Lemma buildOutputPlans_Ret args fr prefix script p plans p' :
  buildOutputPlans entropy cfg args fr prefix script p = (Ret plans, p') →
  pl_satoshis <$> plans = i64 <$> (fixed_values args ++ change_values fr)%list ∧
  ∃ scripts, Forall2 decoded (ca_Outputs args) scripts ∧
    by_you plans = zip_with provided_plan (ca_Outputs args) scripts.
Proof.
  intros (provided&p1&Hp&(fuelled&p2&Hf&(ch&p3&Hc&[= <- _])%ProcessCommit.bind_Ret)%ProcessCommit.bind_Ret)
    %ProcessCommit.bind_Ret.
  injection Hp as (scripts&Hdec&->)%provided_plans_Ret _. destruct (provided_plans_spec _ _ Hdec) as [Hsat Hyou].
  pose proof (own_plans_providedBy _ _ _ _ _ _ Hf) as Hfs. pose proof (own_plans_providedBy _ _ _ _ _ _ Hc) as Hcs.
  apply own_plans_Ret in Hf, Hc. split.
  - rewrite /fixed_values !fmap_app Hsat Hf Hc -list_fmap_compose -!app_assoc. f_equal. f_equal. by case_match.
  - exists scripts. split; [done|]. rewrite !filter_app (by_you_all _ Hyou) (by_you_none _ Hfs) (by_you_none _ Hcs).
    rewrite by_you_none; [by rewrite /= app_nil_r|]. case_match; by repeat constructor.
Qed.

(** The values as the result shows them: amounts that add up to less than 2^63 are
    the ones the target was computed from. *)
Lemma i64_u64 z : u64 z < 2 ^ 63 → i64 z = u64 z.
Proof.
  intros Hz. rewrite -(u64_i64 z) in Hz |- *. assert (- 2 ^ 63 ≤ i64 z < 2 ^ 63) as Hb.
  { rewrite /wrapS. pose proof (Z.mod_pos_bound (z + 2 ^ (64 - 1)) (2 ^ 64)). lia. }
  destruct (decide (0 ≤ i64 z)); [by rewrite Fee.u64_id; lia|]. exfalso. revert Hz. generalize dependent (i64 z).
  intros y ??. rewrite /wrapU -(Z_mod_plus_full _ 1) Z.mod_small; lia.
Qed.
Lemma u64_nonneg l : Forall (λ x, 0 ≤ x) (u64 <$> l).
Proof. apply Forall_fmap, Forall_true. intros z. apply Z.mod_pos_bound. lia. Qed.
Lemma i64_u64_list l : zsum (u64 <$> l) < 2 ^ 63 → i64 <$> l = u64 <$> l.
Proof.
  induction l as [|x l IH]; csimpl; [done|]. pose proof (zsum_nonneg _ (u64_nonneg l)).
  assert (0 ≤ u64 x) by (apply Z.mod_pos_bound; lia). intros Hs. rewrite i64_u64; [|lia]. rewrite IH //. lia.
Qed.

(** A count of outputs is not negative. *)
Definition shape_ok (args : ValidCreateActionArgs) : Prop :=
  match ca_FuelShape args with Some sh => 0 ≤ sc_Count sh | None => True end.

Lemma providedOutputSizes_sum outs :
  zsum (u64 ∘ co_Satoshis <$> outs) < 2 ^ 63 → (providedOutputSizes outs).1 = zsum (u64 ∘ co_Satoshis <$> outs).
Proof.
  rewrite list_fmap_compose. intros Hs. rewrite /providedOutputSizes /=.
  trans (foldl (λ acc x, i64 (acc + x)) 0 (i64 <$> (co_Satoshis <$> outs))).
  { generalize 0. induction outs as [|o outs IH]; intros a; csimpl in *; [done|]. apply IH.
    assert (0 ≤ u64 (co_Satoshis o)) by (apply Z.mod_pos_bound; lia). lia. }
  rewrite i64_u64_list // foldl_i64 //; apply u64_nonneg.
Qed.

Lemma fuel_product sh :
  0 ≤ sc_Count sh → zsum (u64 <$> replicate (Z.to_nat (sc_Count sh)) (sc_Satoshis sh)) < 2 ^ 63 →
  i64 (i64 (sc_Count sh) * i64 (sc_Satoshis sh)) =
  zsum (u64 <$> replicate (Z.to_nat (sc_Count sh)) (sc_Satoshis sh)).
Proof.
  intros Hc. rewrite fmap_replicate zsum_replicate Z2Nat.id //. intros Hs.
  assert (0 ≤ u64 (sc_Satoshis sh)) by (apply Z.mod_pos_bound; lia).
  destruct (decide (sc_Count sh = 0)) as [->|]; [done|].
  rewrite (i64_u64 (sc_Satoshis sh)); [|nia].
  destruct (decide (u64 (sc_Satoshis sh) = 0)) as [->|]; [by rewrite !Z.mul_0_r|].
  rewrite (Satoshi.i64_id (sc_Count sh)); [|nia]. rewrite Satoshi.i64_id; nia.
Qed.

Lemma funding_target_exact args x :
  shape_ok args → zsum (u64 <$> fixed_values args) < 2 ^ 63 → 0 ≤ x < 2 ^ 63 →
  funding_target cfg args x = zsum (u64 <$> fixed_values args) - x.
Proof.
  rewrite /fixed_values !fmap_app !zsum_app -list_fmap_compose. intros Hsh Hs Hx.
  pose proof (zsum_nonneg _ (u64_nonneg (co_Satoshis <$> ca_Outputs args))) as Ho.
  rewrite -list_fmap_compose in Ho.
  pose proof (zsum_nonneg _ (u64_nonneg (fuel_outputs args))) as Hf.
  set (com := if Config.Commission_Enabled (pc_commission cfg) then _ else _) in *.
  pose proof (zsum_nonneg _ (u64_nonneg com)) as Hc.
  rewrite /funding_target providedOutputSizes_sum; [|lia].
  set (O := zsum (u64 ∘ co_Satoshis <$> ca_Outputs args)) in *.
  assert ((if Config.Commission_Enabled (pc_commission cfg)
    then i64 (O + i64 (Config.cm_Satoshis (pc_commission cfg))) else O) = O + zsum (u64 <$> com)) as ->.
  { subst com. case_match; simpl in *; [|lia]. rewrite (i64_u64 (Config.cm_Satoshis _)); [|lia].
    rewrite Satoshi.i64_id; lia. }
  unfold fuel_outputs, shape_ok in *. destruct (ca_FuelShape args) as [sh|]; simpl in *.
  - rewrite fuel_product; [|done|lia]. rewrite !Satoshi.i64_id; lia.
  - rewrite Satoshi.i64_id; lia.
Qed.

(** ** Storing the action *)

(** The transaction row an action is stored as. *)
Definition action_row (userID : Z) (reference : string) (args : ValidCreateActionArgs) (net : Z) (beef : Bytes) :
    NewTx :=
  mkNewTx userID TxStatusUnsigned reference true net (ca_Description args) (nonzero (ca_Version args))
    (nonzero (ca_LockTime args)) beef (ca_Labels args).

Record persisted (userID : Z) (reference prefix : string) (args : ValidCreateActionArgs) (provided : list resolvedInput)
    (fr : Collector.Result) (res : StorageCreateActionResult) (plans : list outputPlan) (p p' : Provider) : Prop := {
  ps_values : pl_satoshis <$> plans ≡ₚ i64 <$> (fixed_values args ++ change_values fr)%list;
  ps_requested : ∃ scripts, Forall2 decoded (ca_Outputs args) scripts ∧
    by_you (set_pl_vout 0 <$> plans) ≡ₚ zip_with provided_plan (ca_Outputs args) scripts;
  ps_vouts i pl : plans !! i = Some pl → pl_vout pl = Z.of_nat i;
  ps_outputs : cr_Outputs res = buildResultOutputs plans;
  ps_reference : cr_Reference res = reference;
  ps_utxo : p_utxo p' = p_utxo p;
  ps_inputs : ∃ include beef rows, cr_Inputs res =
    (imap (provided_input include beef) provided ++
     imap (λ i, allocated_input include beef rows (length provided + i)) (Collector.AllocatedUTXOs fr))%list;
  ps_stored : ∃ tot id p1 p2 p3, Collector.TotalAllocated fr = Ret tot ∧ p_meta p1 = p_meta p ∧
    Transactions_Insert clk (action_row userID reference args (i64 (Collector.ChangeAmount fr - tot))
      (cr_InputBeef res)) p1 = (Ret id, p2) ∧
    insert_outputs clk userID id plans p2 = (Ret (), p3) ∧ p_meta p' = p_meta p3;
}.

Lemma numbered_plans (l : list outputPlan) :
  pl_satoshis <$> imap (λ i pl, set_pl_vout (Z.of_nat i) pl) l = pl_satoshis <$> l.
Proof. by apply fmap_imap_same. Qed.

(** A plan of the builder has index 0 until it is numbered. *)
Lemma unnumbered_plans (l : list outputPlan) :
  set_pl_vout 0 <$> imap (λ i pl, set_pl_vout (Z.of_nat i) pl) l = set_pl_vout 0 <$> l.
Proof. by apply fmap_imap_same. Qed.
Lemma by_you_vout0 l k scripts :
  by_you l = zip_with provided_plan k scripts →
  by_you (set_pl_vout 0 <$> l) = zip_with provided_plan k scripts.
Proof.
  intros Hl. trans (set_pl_vout 0 <$> by_you l); [|rewrite Hl; clear Hl].
  { clear Hl. induction l as [|pl l IH]; [done|]. csimpl. rewrite !filter_cons /= IH. by case_decide. }
  revert scripts. induction k as [|o k IH]; intros [|ls scripts]; [done..|]. csimpl. by rewrite IH.
Qed.

Lemma persist_utxo userID reference prefix args provided fr script :
  steps (on_utxo eq) (persistCreateAction clk entropy cfg userID reference prefix args provided fr script).
Proof.
  assert (∀ on uid' id names, steps (on_utxo eq) (attach_all clk on uid' id names)) as Hat.
  { intros on uid' id names. induction names as [|n names IH]; simpl; [apply steps_ret|].
    apply steps_bind; [|done]. apply steps_bind; intros; apply usteps_call, _. }
  apply steps_bind; [apply pure_steps, pure_buildOutputPlans|]. intros plans.
  apply steps_bind; [apply pure_steps; case_match; [apply pure_shuffle_from|apply pure_ret]|]. intros plans'.
  apply steps_bind; [apply steps_lift|]. intros tot. apply steps_bind; [apply steps_lift|]. intros base.
  apply steps_bind; [apply pure_steps, pure_getBEEFForTxIDs|]. intros beef.
  apply steps_bind; [apply pure_steps, pure_refuse_none|]. intros bytes.
  apply steps_bind; [apply steps_bind; [apply usteps_call, _|intros; apply steps_bind; [done|intros; apply steps_ret]]|].
  intros id. apply steps_bind; [|intros; apply steps_bind; [apply pure_steps, pure_buildResultInputs|intros; apply steps_ret]].
  generalize (imap (λ i pl, set_pl_vout (Z.of_nat i) pl) plans'). intros l.
  induction l as [|pl l IH]; simpl; [apply steps_ret|]. apply steps_bind; [|done].
  apply steps_bind; [apply usteps_call, _|]. intros. apply steps_bind; [done|]. intros. apply steps_ret.
Qed.

Lemma persist_Ret userID reference prefix args provided fr script p res p' :
  persistCreateAction clk entropy cfg userID reference prefix args provided fr script p = (Ret res, p') →
  ∃ plans, persisted userID reference prefix args provided fr res plans p p'.
Proof.
  intros Hrun. pose proof (persist_utxo userID reference prefix args provided fr script p) as Hutxo.
  rewrite Hrun /on_utxo /= in Hutxo.
  apply bind_pure in Hrun as (plans0&p1&Hplans&Hk1&Hm1&_); [|apply pure_buildOutputPlans].
  apply bind_pure in Hk1 as (plans1&p2&Hsh&Hk2&Hm2&_); [|case_match; [apply pure_shuffle_from|apply pure_ret]].
  apply bind_pure in Hk2 as (tot&p3&Htot&Hk3&Hm3&_); [|apply pure_lift].
  apply bind_pure in Hk3 as (base&p4&_&Hk4&Hm4&_); [|apply pure_lift].
  apply bind_pure in Hk4 as (beef&p5&_&Hk5&Hm5&_); [|apply pure_getBEEFForTxIDs].
  apply bind_pure in Hk5 as (bytes&p6&_&Hk6&Hm6&_); [|apply pure_refuse_none].
  apply ProcessCommit.bind_Ret in Hk6 as (id&p7&Htx&Hk7). apply ProcessCommit.bind_Ret in Hk7 as ([]&p8&Hout&Hk8).
  apply bind_pure in Hk8 as (ins&p9&Hins&[= <- <-]&Hm9&_); [|apply pure_buildResultInputs].
  injection Htot as Htot%mapErr_Ret _. apply buildOutputPlans_Ret in Hplans as (Hvals&scripts&Hdec&Hyou).
  apply ProcessCommit.bind_Ret in Hins as (rows&q&_&[= <- _]).
  assert (plans1 ≡ₚ plans0) as Hperm.
  { revert Hsh. case_match; [|by intros [= <- _]]. rewrite /Shuffle.
    destruct (shuffle_from_perm (pred (length plans0)) plans0 p1) as (l&q'&->&Hl). by intros [= <- _]. }
  exists (imap (λ i pl, set_pl_vout (Z.of_nat i) pl) plans1). split; simpl.
  - by rewrite numbered_plans Hperm Hvals.
  - exists scripts. split; [done|]. by rewrite unnumbered_plans Hperm (by_you_vout0 _ _ _ Hyou).
  - intros i pl Hpl. rewrite list_lookup_imap in Hpl. by destruct (plans1 !! i); simplify_eq/=.
  - done.
  - done.
  - done.
  - by eexists _, _, _.
  - exists tot, id, p6, p7, p8. split_and!; [done|congruence|exact Htx|done|done].
Qed.

(** Only labels and tags may differ. *)
Definition same_rows (m m' : Meta) : Prop :=
  known_txs m' = known_txs m ∧ transactions m' = transactions m ∧ outputs m' = outputs m ∧
  utxo_ops_outbox m' = utxo_ops_outbox m ∧ nextTransactionID m' = nextTransactionID m ∧
  nextOutputID m' = nextOutputID m ∧ meta_closed m' = meta_closed m.
#[local] Instance same_rows_preorder : PreOrder same_rows.
Proof. split; [done|]. intros ??? (?&?&?&?&?&?&?) (?&?&?&?&?&?&?). split_and!; congruence. Qed.

Lemma attach_all_rows (on : ∀ A, M Names meta_error A → L A) userID ownerID names :
  (∀ A (f : M Names meta_error A) m, same_rows m (on A f m).2) →
  steps (on_meta same_rows) (attach_all clk on userID ownerID names).
Proof.
  intros Hon. induction names as [|name names IH]; simpl; [apply steps_ret|].
  apply steps_bind; [|done]. apply steps_bind; [by apply msteps_call; [apply _|]|].
  intros. by apply msteps_call; [apply _|].
Qed.
Lemma on_labels_rows A (f : M Names meta_error A) m : same_rows m (on_labels f m).2.
Proof. rewrite /on_labels /zoom. by destruct (f (labels m)). Qed.
Lemma on_tags_rows A (f : M Names meta_error A) m : same_rows m (on_tags f m).2.
Proof. rewrite /on_tags /zoom. by destruct (f (tags m)). Qed.

Lemma Transactions_Insert_Ret tx p id p' :
  Transactions_Insert clk tx p = (Ret id, p') →
  id = nextTransactionID (p_meta p) ∧
  (∀ k r, transactions (p_meta p) !! k = Some r → tx_Reference r ≠ nt_Reference tx) ∧
  ∃ m now, insert_tx now tx (p_meta p) = (Ret id, m) ∧ same_rows m (p_meta p').
Proof.
  intros (id'&p1&Hins&([]&p2&Hat&[= <- <-])%ProcessCommit.bind_Ret)%ProcessCommit.bind_Ret.
  pose proof (attach_all_rows (@on_labels) (nt_UserID tx) id' (nt_Labels tx) on_labels_rows p1) as Hrows.
  rewrite Hat /on_meta /= in Hrows. rewrite AbortProps.meta_call_eq in Hins.
  injection Hins as Hret%mapErr_Ret <-. simpl in Hrows. set (now := clk (p_ticks p)) in *.
  assert (insert_tx now tx (p_meta p) = (Ret id', (insert_tx now tx (p_meta p)).2)) as Hi.
  { rewrite -Hret. apply surjective_pairing. }
  split_and!; [| |by eexists _, now].
  - revert Hret. rewrite /insert_tx. case_decide; [done|]. by intros [= <-].
  - intros k r Hk Href. revert Hret. rewrite /insert_tx decide_True //. by exists k, r.
Qed.

(** The row stores the planned output. *)
Definition row_of (userID txID : Z) (pl : outputPlan) (r : TableOutput) : Prop :=
  ∃ now, r = mkOutput userID txID (pl_vout pl) (pl_satoshis pl) (pl_lockingScript pl) (pl_basket pl) None
    (pl_change pl) (pl_outputType pl) (pl_providedBy pl) (pl_purpose pl) (pl_description pl)
    (pl_derivationPrefix pl) (pl_derivationSuffix pl) None (pl_customInstructions pl) now now.

(** All but the outputs is as before, up to labels and tags. *)
Definition outputs_only (m m' : Meta) : Prop :=
  known_txs m' = known_txs m ∧ transactions m' = transactions m ∧ utxo_ops_outbox m' = utxo_ops_outbox m ∧
  meta_closed m' = meta_closed m.

Lemma Outputs_Insert_Ret o p id p' :
  Outputs_Insert clk o p = (Ret id, p') →
  id = nextOutputID (p_meta p) ∧ nextOutputID (p_meta p') = id + 1 ∧ outputs_only (p_meta p) (p_meta p') ∧
  ∃ now, outputs (p_meta p') = <[id := mkOutput (no_UserID o) (no_TransactionID o) (no_Vout o) (no_Satoshis o)
    (no_LockingScript o) (no_Basket o) (no_SpentBy o) (no_Change o) (no_Type o) (no_ProvidedBy o) (no_Purpose o)
    (no_Description o) (no_DerivationPrefix o) (no_DerivationSuffix o) (no_SenderIdentityKey o)
    (no_CustomInstructions o) now now]> (outputs (p_meta p)).
Proof.
  intros (id'&p1&Hins&([]&p2&Hat&[= <- <-])%ProcessCommit.bind_Ret)%ProcessCommit.bind_Ret.
  pose proof (attach_all_rows (@on_tags) (no_UserID o) id' (no_Tags o) on_tags_rows p1) as Hrows.
  rewrite Hat /on_meta /= in Hrows. rewrite AbortProps.meta_call_eq in Hins.
  injection Hins as Hret%mapErr_Ret <-. simpl in Hrows. set (now := clk (p_ticks p)) in *.
  revert Hret Hrows. rewrite /insert_output. case_match; [|done]. case_decide; [done|].
  simpl. intros [= <-] (?&?&?&?&?&?&?). simpl in *. split_and!; try done. by exists now.
Qed.

Lemma insert_outputs_Ret userID txID plans p p' :
  insert_outputs clk userID txID plans p = (Ret (), p') →
  outputs_only (p_meta p) (p_meta p') ∧
  (∀ i pl, plans !! i = Some pl →
     ∃ r, outputs (p_meta p') !! (nextOutputID (p_meta p) + Z.of_nat i) = Some r ∧ row_of userID txID pl r) ∧
  (∀ k, k < nextOutputID (p_meta p) ∨ nextOutputID (p_meta p) + Z.of_nat (length plans) ≤ k →
     outputs (p_meta p') !! k = outputs (p_meta p) !! k).
Proof.
  revert p. induction plans as [|pl plans IH]; intros p; simpl.
  { intros [= <-]. split; [done|]. split; [by intros i pl Hi|done]. }
  intros (id&p1&(->&Hnext&(?&?&?&?)&now&Hout)%Outputs_Insert_Ret&Hrest)%ProcessCommit.bind_Ret.
  destruct (IH p1 Hrest) as ((?&?&?&?)&Hin&Hother). rewrite Hnext in Hin, Hother.
  split; [split_and!; congruence|]. split.
  - intros [|i] pl' Hi; simplify_eq/=.
    + rewrite Hother; [|lia]. rewrite Hout Z.add_0_r lookup_insert_eq. eexists. split; [done|]. by exists now.
    + destruct (Hin i pl' Hi) as (r&Hr&?). exists r. split; [|done]. rewrite -Hr. f_equal. lia.
  - intros k Hk. rewrite Hother; [|lia]. rewrite Hout lookup_insert_ne //. lia.
Qed.

(** ** Before coins are touched *)

Lemma pure_resolve userID beef inputs total : pure_ (resolveProvidedInputs userID beef inputs total).
Proof.
  revert total. induction inputs as [|i inputs IH]; intros total; simpl; [apply pure_ret|].
  apply pure_bind.
  - apply pure_bind; [apply pure_read, AbortProps.reads_FindOutputs|].
    intros [|row rows]; [|by case_match; [apply pure_ret|apply pure_throw]].
    case_match; [|apply pure_throw]. case_match. apply pure_ret.
  - intros ri. apply pure_bind; [done|]. intros [ris t]. apply pure_ret.
Qed.

(** An input the wallet owns stands for the coin it names. *)
Definition named_coin (ri : resolvedInput) : Prop :=
  ri_known ri = true →
  NewHashFromHex (op_TxID (ci_Outpoint (ri_input ri))) = Some (TxID (ri_op ri)) ∧
  Vout (ri_op ri) = op_Vout (ci_Outpoint (ri_input ri)).

Lemma resolve_one_Ret userID beef i p ri p' :
  resolve_one userID beef i p = (Ret ri, p') → ri_input ri = i ∧ named_coin ri.
Proof.
  intros (rows&p1&_&Hk)%ProcessCommit.bind_Ret. destruct rows as [|row rows].
  - destruct (beef_output _ _ _) as [[v ls]|]; [|done]. injection Hk as <- _. by split.
  - destruct (NewHashFromHex _) as [h|] eqn:Hh; [|done]. injection Hk as <- _. by split.
Qed.
Lemma resolve_Ret userID beef inputs total p ris t p' :
  resolveProvidedInputs userID beef inputs total p = (Ret (ris, t), p') →
  t = foldl (λ acc x, i64 (acc + x)) total (ri_satoshis <$> ris) ∧ ri_input <$> ris = inputs ∧
  Forall named_coin ris.
Proof.
  revert total p ris t p'. induction inputs as [|i inputs IH]; intros total p ris t p'; simpl.
  { by intros [= <- <- _]. }
  intros (ri&p1&[Hri Hn]%resolve_one_Ret&([ris' t']&p2&(->&Hin&Hall)%IH&[= <- <- _])%ProcessCommit.bind_Ret)
    %ProcessCommit.bind_Ret.
  csimpl. rewrite Hri Hin. by split_and!; [..|constructor].
Qed.

(** What CreateAction knows once coins come into play. *)
Record prepared (args : ValidCreateActionArgs) (provided : list resolvedInput) (target : Z) (source : string * Z)
    (p p1 : Provider) : Prop := {
  pr_meta : p_meta p1 = p_meta p;
  pr_utxo : p_utxo p1 = p_utxo p;
  pr_inputs : ri_input <$> provided = ca_Inputs args;
  pr_ops : Forall named_coin provided;
  pr_target : Satoshi.From (Satoshi.mkInt Satoshi.KInt64
    (funding_target cfg args (foldl (λ acc x, i64 (acc + x)) 0 (ri_satoshis <$> provided)))) = Ret target;
  pr_source : fundingSource cfg (ca_FuelShape args) = Ret source;
}.

Lemma pure_then {A B} (m : PM A) (k : A → PM B) p0 p o p' :
  pure_ m → (m ≫= k) p = (o, p') → p_meta p = p_meta p0 → p_utxo p = p_utxo p0 →
  (p_meta p' = p_meta p0 ∧ p_utxo p' = p_utxo p0 ∧ ∀ b, o ≠ Ret b) ∨
  ∃ a p1, m p = (Ret a, p1) ∧ k a p1 = (o, p') ∧ p_meta p1 = p_meta p0 ∧ p_utxo p1 = p_utxo p0.
Proof.
  intros Hm Hk Hmeta Hutxo. specialize (Hm p). revert Hk. cbv [mbind M_bind].
  destruct (m p) as [[a|e|] p1]; destruct Hm as (?&?&_); simpl in *; intros Hk; [right|left..].
  - exists a, p1. split_and!; congruence.
  - injection Hk as <- <-. split_and!; congruence.
  - injection Hk as <- <-. split_and!; congruence.
Qed.

Lemma pure_changeBasketCount userID : pure_ (changeBasketCount cfg userID).
Proof. rewrite /changeBasketCount. case_match; [apply pure_ret|by apply pure_read]. Qed.

(** The preparation either fails without a trace or hands over. *)
Lemma CreateAction_split userID args p o p' :
  CreateAction clk shared entropy cfg fuel (Some userID) args p = (o, p') →
  (p_meta p' = p_meta p ∧ p_utxo p' = p_utxo p ∧ ∀ res, o ≠ Ret res) ∨
  ∃ reference prefix provided script target count source p1,
    (Base64 entropy referenceLength p).1 = Ret reference ∧
    prepared args provided target source p p1 ∧
    fund_and_persist clk shared cfg fuel userID reference (walletOwnedOutpoints provided)
      (fund_args cfg userID reference args source target count)
      (λ fr, persistCreateAction clk entropy cfg userID reference prefix args provided fr script) p1 = (o, p').
Proof.
  intros Hc. unfold CreateAction in Hc.
  eapply pure_then in Hc as [?|(ref&q1&Href&Hc&Hm1&Hu1)]; [by left| |apply pure_Base64|done..].
  eapply pure_then in Hc as [?|(prefix&q2&_&Hc&Hm2&Hu2)]; [by left| |apply pure_Base64|done..].
  eapply pure_then in Hc as [?|(beef&q3&_&Hc&Hm3&Hu3)]; [by left| |apply pure_lift|done..].
  eapply pure_then in Hc as [?|([provided t]&q4&Hres&Hc&Hm4&Hu4)]; [by left| |apply pure_resolve|done..].
  apply resolve_Ret in Hres as (->&Hin&Hops).
  eapply pure_then in Hc as [?|(script&q5&_&Hc&Hm5&Hu5)]; [by left| |apply pure_lift|done..].
  eapply pure_then in Hc as [?|(target&q6&Ht&Hc&Hm6&Hu6)]; [by left| |apply pure_lift|done..].
  injection Ht as Ht%mapErr_Ret _.
  eapply pure_then in Hc as [?|(count&q7&_&Hc&Hm7&Hu7)]; [by left| |apply pure_changeBasketCount|done..].
  eapply pure_then in Hc as [?|(source&q8&Hs&Hc&Hm8&Hu8)]; [by left| |apply pure_lift|done..].
  injection Hs as Hs _. right. exists ref, prefix, provided, script, target, count, source, q8.
  split_and!; [by rewrite Href| |done]. by split.
Qed.

(** ** The three stages *)

Lemma on_error_Ret {A} cleanup (m : PM A) p a p' : on_error cleanup m p = (Ret a, p') → m p = (Ret a, p').
Proof.
  rewrite /on_error /try_. cbv [mbind M_bind]. destruct (m p) as [[b|e|] p1]; [done| |done].
  by destruct (cleanup p1) as [[]?].
Qed.
Lemma fund_and_persist_Ret userID reference ops fa persist p res p' :
  fund_and_persist clk shared cfg fuel userID reference ops fa persist p = (Ret res, p') →
  ∃ fr p1 p2, reserveProvidedInputs clk userID reference ops p = (Ret (), p1) ∧
    fund_call cfg fuel fa p1 = (Ret fr, p2) ∧ persist fr p2 = (Ret res, p').
Proof.
  rewrite /fund_and_persist. case_match.
  - intros ([]&p1&?&(fr&p2&?&?)%ProcessCommit.bind_Ret)%AbortProps.Do_Ret%ProcessCommit.bind_Ret. eauto 10.
  - intros ([]&p1&?%on_error_Ret&(fr&p2&?&?%on_error_Ret%AbortProps.Do_Ret)%ProcessCommit.bind_Ret)
      %ProcessCommit.bind_Ret. eauto 10.
Qed.
Lemma reserve_meta userID reference ops p :
  p_meta (reserveProvidedInputs clk userID reference ops p).2 = p_meta p.
Proof. destruct ops; [done|]. rewrite /reserveProvidedInputs. by destruct (MemStore.ReserveOutpoints _ _ _ _ _). Qed.
Lemma fund_call_meta fa p : p_meta (fund_call cfg fuel fa p).2 = p_meta p.
Proof. rewrite /fund_call. by destruct (Funder.Fund _ _ _ _ _). Qed.

(** The stages of a successful CreateAction. *)
Lemma CreateAction_Ret userID args p res p' :
  CreateAction clk shared entropy cfg fuel (Some userID) args p = (Ret res, p') →
  ∃ prefix provided target count source fr plans p1 p2 p3,
    (Base64 entropy referenceLength p).1 = Ret (cr_Reference res) ∧
    prepared args provided target source p p1 ∧
    reserveProvidedInputs clk userID (cr_Reference res) (walletOwnedOutpoints provided) p1 = (Ret (), p2) ∧
    fund_call cfg fuel (fund_args cfg userID (cr_Reference res) args source target count) p2 = (Ret fr, p3) ∧
    p_meta p3 = p_meta p ∧ persisted userID (cr_Reference res) prefix args provided fr res plans p3 p'.
Proof.
  intros [(_&_&Hno)|(ref&prefix&provided&script&target&count&source&p1&Href&Hprep&Hrun)]%CreateAction_split.
  { by destruct (Hno res). }
  apply fund_and_persist_Ret in Hrun as (fr&p2&p3&Hres&Hfund&Hper).
  pose proof (reserve_meta userID ref (walletOwnedOutpoints provided) p1) as Hm2. rewrite Hres /= in Hm2.
  pose proof (fund_call_meta (fund_args cfg userID ref args source target count) p2) as Hm3. rewrite Hfund /= in Hm3.
  apply persist_Ret in Hper as [plans Hper]. pose proof (ps_reference _ _ _ _ _ _ _ _ _ _ Hper) as ->.
  pose proof (pr_meta _ _ _ _ _ _ Hprep). exists prefix, provided, target, count, source, fr, plans, p1, p2, p3.
  split_and!; [done..|congruence|done].
Qed.

(** The stored row of a returned output. *)
Definition stored_as (userID txID : Z) (o : StorageCreateTransactionSdkOutput) (r : TableOutput) : Prop :=
  o_UserID r = userID ∧ o_TransactionID r = txID ∧ o_Vout r = so_Vout o ∧
  u64 (o_Satoshis r) = co_Satoshis (so_output o) ∧ hexString (o_LockingScript r) = co_LockingScript (so_output o) ∧
  o_Basket r = co_Basket (so_output o) ∧ o_SpentBy r = None ∧ o_ProvidedBy r = so_ProvidedBy o ∧
  o_Purpose r = so_Purpose o ∧ o_DerivationSuffix r = so_DerivationSuffix o.

Lemma requested_outputs plans outs scripts :
  by_you (set_pl_vout 0 <$> plans) ≡ₚ zip_with provided_plan outs scripts →
  so_output <$> filter (λ o, so_ProvidedBy o = ProvidedByYou) (buildResultOutputs plans) ≡ₚ
  zip_with (λ o ls, mkCreateOutput (hexString ls) (u64 (co_Satoshis o)) (co_OutputDescription o) (co_Basket o)
    (co_CustomInstructions o) (co_Tags o)) outs scripts.
Proof.
  set (view pl := mkCreateOutput (hexString (pl_lockingScript pl)) (u64 (pl_satoshis pl)) (pl_description pl)
    (pl_basket pl) (pl_customInstructions pl) (pl_tags pl)).
  intros Hp%(fmap_Permutation view). trans (view <$> by_you (set_pl_vout 0 <$> plans)); [|rewrite Hp; clear Hp].
  - clear Hp. induction plans as [|pl plans IH]; [done|]. csimpl. rewrite !filter_cons /=.
    case_decide; csimpl; [by constructor|done].
  - revert scripts. induction outs as [|o outs IH]; intros [|ls scripts]; [done..|]. csimpl.
    rewrite IH /view /=. by rewrite u64_i64.
Qed.

(** C17: a created action is stored as it is returned.  When CreateAction succeeds, the
    ledger gains one unsigned outgoing transaction row under a reference no row had, and
    one output row per returned output, numbered from 0 in the returned order, with the
    returned value, script, basket and derivation suffix, not spent; the outputs the
    caller asked for are all among them and no other output is attributed to the caller.
    Nothing else changes in the tables of transactions, outputs, known transactions and
    pending coin operations. *)
Theorem create_stores_action userID args p res p' :
  CreateAction clk shared entropy cfg fuel (Some userID) args p = (Ret res, p') →
  let id := nextTransactionID (p_meta p) in
  let first := nextOutputID (p_meta p) in
  (∀ k r, transactions (p_meta p) !! k = Some r → tx_Reference r ≠ cr_Reference res) ∧
  (∃ net now, transactions (p_meta p') = <[id := mkTx userID None TxStatusUnsigned (cr_Reference res) None true
     net (ca_Description args) (nonzero (ca_Version args)) (nonzero (ca_LockTime args)) (cr_InputBeef res)
     now now]> (transactions (p_meta p))) ∧
  (∀ i o, cr_Outputs res !! i = Some o → so_Vout o = Z.of_nat i ∧
     ∃ r, outputs (p_meta p') !! (first + Z.of_nat i) = Some r ∧ stored_as userID id o r) ∧
  (∀ k, k < first ∨ first + Z.of_nat (length (cr_Outputs res)) ≤ k →
     outputs (p_meta p') !! k = outputs (p_meta p) !! k) ∧
  (∃ scripts, Forall2 decoded (ca_Outputs args) scripts ∧
     so_output <$> filter (λ o, so_ProvidedBy o = ProvidedByYou) (cr_Outputs res) ≡ₚ
     zip_with (λ o ls, mkCreateOutput (hexString ls) (u64 (co_Satoshis o)) (co_OutputDescription o) (co_Basket o)
       (co_CustomInstructions o) (co_Tags o)) (ca_Outputs args) scripts) ∧
  known_txs (p_meta p') = known_txs (p_meta p) ∧ utxo_ops_outbox (p_meta p') = utxo_ops_outbox (p_meta p).
Proof.
  intros (prefix&provided&target&count&source&fr&plans&p1&p2&p3&_&_&_&_&Hm&[_ Hreq Hv Houts _ _ _ Hst])%CreateAction_Ret.
  destruct Hst as (tot&id&q1&q2&q3&_&Hq1&Htx&Hins&Hm'). rewrite -Hm -Hq1.
  apply Transactions_Insert_Ret in Htx as (->&Hfresh&m&now&Hrow&(Hk1&Ht1&Ho1&Hb1&Hn1&Hn2&_)).
  apply insert_outputs_Ret in Hins as ((Hk2&Ht2&Hb2&_)&Hin&Hother).
  revert Hrow. rewrite /insert_tx. case_decide; [done|]. intros [= <-]. simpl in *.
  rewrite Hn2 in Hin, Hother. rewrite Houts /buildResultOutputs length_fmap Hm'. split_and!; [done| | | | |congruence..].
  - exists (i64 (Collector.ChangeAmount fr - tot)), now. by rewrite Ht2 Ht1.
  - intros i o. rewrite list_lookup_fmap. destruct (plans !! i) as [pl|] eqn:Hpl; [|done]. intros [= <-]. simpl.
    split; [by apply Hv|]. destruct (Hin i pl Hpl) as (r&Hr&now'&->). eexists. by split.
  - intros k Hk. rewrite Hother // Ho1 //.
  - destruct Hreq as (scripts&Hdec&Hp). exists scripts. split; [done|]. by apply requested_outputs.
Qed.
End steps.
End CreateProps.
