(* ===== verification/CreateCoins.v ===== *)
(** * CreateCoins: what a created action holds and pays

    The coin side of [Create], proved against an interface: [CoinFunding F uid tok] says
    that the store the funder works on is the provider's coin store and that its
    operations under the token obey the laws of [OwnedStore], whatever other callers do
    in between. *)
From Stdlib Require Import Ascii String.
From S2P Require Import Prelude UtxoTypes MemStore StoreContract StoreProps StoreReplay StoreLifecycle.
From S2P Require Import Statuses Satoshi External Fee Collector Funder FunderProps FunderMem Config.
From S2P Require Import KnownTx Ledger StatusUpdates Process ProviderLogic AbortProps ProcessProps ProcessCommit.
From S2P Require Import Beef Create CreateProps.
Import StoreContract StoreExample StoreLifecycle WdkStatus KnownTxRepo Ledger StatusUpdates Process ProviderLogic Random Create CreateProps FunderMem.
Local Open Scope string_scope.
Local Open Scope Z_scope.

Module CreateCoins.

Class CoinFunding (F : Funder.FundingStore FunderMem.shared) (uid : Z) (tok : string) := {
  coin_owned : FunderProps.OwnedStore F uid tok;
  coin_sound st : FunderProps.sound st ↔ store_good uid tok (sh_store st);
  coin_live st : FunderProps.owned st = live uid tok (sh_store st);
  coin_token : tok ≠ "";
}.

(** The amounts a result shows. *)
Abbreviation in_values res := (si_SourceSatoshis <$> cr_Inputs res).
Abbreviation out_values res := ((λ o, co_Satoshis (so_output o)) <$> cr_Outputs res).

Section coins.
Context `{MapRange, E : External, !ExternalLaws E, BeefSdk} `{F : Funder.FundingStore FunderMem.shared}.
Context (clk : nat → Time) (shared : bool) (entropy : nat → Z → option Bytes).
Context (cfg : ProviderConfig) (fuel : nat).
Context (uid : Z) (tok : string) {C : CoinFunding F uid tok}.

(** ** Reserving the inputs a caller names *)

Lemma live_dom s op : op ∈ dom (live uid tok s) ↔ ∃ u, coin s op = Some u ∧ held uid tok u.
Proof.
  rewrite elem_of_dom live_lookup. destruct (coin s op) as [u|]; simpl; [|naive_solver].
  rewrite /live_value /held. case_decide; naive_solver.
Qed.

Lemma ReserveOutpoints_live clk' ops s s' :
  store_good uid tok s → MemStore.ReserveOutpoints clk' uid tok ops s = (Ret (), s') →
  store_good uid tok s' ∧ dom (live uid tok s') = list_to_set ops ∪ dom (live uid tok s).
Proof.
  intros Hg Hr. pose proof (own_good uid tok (CReserveOutpoints clk' uid tok ops) s I Hg) as Hg'.
  rewrite /= Hr /= in Hg'. split; [done|]. destruct Hg as [Hopen _]. revert Hr.
  rewrite /MemStore.ReserveOutpoints /MemStore.guard_open Hopen /MemStore.guard_valid.
  case_match; [done|]. destruct (MemStore.classify _ _ _ _) as [[|e es] st] eqn:Hcl; [|done]. intros [= <-].
  destruct (stamps_hold uid tok ops st (clk' 0%nat) (MemStore.rows s) coin_token Hcl) as [Hin Hout].
  apply set_eq. intros op. rewrite elem_of_union elem_of_list_to_set !live_dom /coin /=.
  destruct (decide (op ∈ ops)) as [Hop|Hop].
  - split; [by left|]. intros _. destruct (Hin op Hop) as (r&r'&_&->&Hh&_). eauto.
  - rewrite (Hout op Hop). naive_solver.
Qed.

Lemma reserve_live ops p p' :
  store_good uid tok (p_utxo p) → reserveProvidedInputs clk uid tok ops p = (Ret (), p') →
  store_good uid tok (p_utxo p') ∧ dom (live uid tok (p_utxo p')) = list_to_set ops ∪ dom (live uid tok (p_utxo p)).
Proof.
  intros Hg. destruct ops as [|op ops]; [intros [= <-]; by rewrite left_id_L|].
  rewrite /reserveProvidedInputs. destruct (MemStore.ReserveOutpoints _ _ _ _ _) as [[[]|e|] s] eqn:Hr; [|done..].
  intros [= <-]. exact (ReserveOutpoints_live _ (op :: ops) _ _ Hg Hr).
Qed.
Lemma reserve_refused ops p e p' :
  reserveProvidedInputs clk uid tok ops p = (Err e, p') → p_utxo p' = p_utxo p ∧ p_meta p' = p_meta p.
Proof.
  destruct ops as [|op ops]; [done|]. rewrite /reserveProvidedInputs /MemStore.ReserveOutpoints.
  rewrite /MemStore.guard_open /MemStore.guard_valid. destruct (MemStore.closed _); [by intros [= _ <-]|].
  destruct (ValidateReserveOutpoints _ _); [by intros [= _ <-]|].
  destruct (MemStore.classify _ _ _ _) as [[|e' es] st]; [done|]. by intros [= _ <-].
Qed.

(** ** Funding *)

Context (r : Z) (Hr : 0 ≤ r < 2 ^ 40) (Hmodel : pc_feeModel cfg = Fee.mkFeeModel Fee.SatPerKB r).
Context (Hcalc : Fee.newFeeCalculator (pc_feeModel cfg) = Ret (pc_feeCalculator cfg)).
Context (Hcap : 0 ≤ cb_MaxChangeOutputsPerTx (pc_changeBasket cfg)).

Lemma maxChange_pos : 1 ≤ maxChangeOutputsPerTx cfg.
Proof using Hcap. rewrite /maxChangeOutputsPerTx. case_match; lia. Qed.

(** The baskets of an enabled throughput strategy have names. *)
Definition baskets_named : Prop :=
  Config.Enabled (pc_utxoMgmt cfg) = true →
  Config.PoolBasket (Config.um_Throughput (pc_utxoMgmt cfg)) ≠ "" ∧
  Config.ReserveBasket (Config.um_Throughput (pc_utxoMgmt cfg)) ≠ "".

Lemma fundingSource_named shape source :
  baskets_named → fundingSource cfg shape = Ret source → source.1 ≠ "".
Proof.
  intros Hb. rewrite /fundingSource /fanOutSourceBasket. destruct shape as [sh|].
  - intros [= <-]. simpl. case_decide; [done|]. case_match eqn:Hen; [|done].
    apply andb_true_iff in Hen as [Hen _]. by apply Hb.
  - destruct (Config.Enabled _) eqn:Hen; simpl; [|by intros [= <-]].
    intros (d&_&[= <-])%outcome_bind_Ret. by apply Hb.
Qed.
Lemma spendTiers_valid : spendTiers cfg ≠ [] ∧ Funder.validate_tiers (spendTiers cfg) = None.
Proof. rewrite /spendTiers /Funder.SpendTiers. by repeat case_match. Qed.

Lemma fund_args_valid args source target count :
  0 < uid → source.1 ≠ "" → Funder.validate (fund_args cfg uid tok args source target count) = None.
Proof using C Hcap.
  intros Huid Hsrc. pose proof coin_token. pose proof maxChange_pos as Hm.
  destruct spendTiers_valid as [Hne Hval]. rewrite /Funder.validate /=.
  rewrite decide_False // (proj2 (Z.leb_gt _ _)) // decide_False //.
  rewrite decide_False; [|by destruct (spendTiers cfg)]. by rewrite (proj2 (Z.eqb_neq _ _)); [|lia].
Qed.

Lemma fund_call_eq fa p :
  ∃ st, (fund_call cfg fuel fa p).2 = mkProvider (p_meta p) (sh_store st) (sh_time st) ∧
    ∃ o, Funder.Fund (pc_feeModel cfg) (pc_feeCalculator cfg) fuel fa (mkShared (p_utxo p) (p_ticks p)) = (o, st) ∧
      (fund_call cfg fuel fa p).1 = mapErr FundFailed o.
Proof. rewrite /fund_call. destruct (Funder.Fund _ _ _ _ _) as [o st]. exists st. split; [done|]. by exists o. Qed.

Lemma shared_sound p :
  store_good uid tok (p_utxo p) →
  FunderProps.sound (OwnedStore := coin_owned (uid := uid) (tok := tok)) (mkShared (p_utxo p) (p_ticks p)).
Proof. intros Hg. by apply (coin_sound (mkShared (p_utxo p) (p_ticks p))). Qed.

(** A failed funding step leaves nothing under the token. *)
Lemma fund_call_failed args source target count p e p' :
  0 < uid → source.1 ≠ "" → store_good uid tok (p_utxo p) →
  fund_call cfg fuel (fund_args cfg uid tok args source target count) p = (Err e, p') →
  store_good uid tok (p_utxo p') ∧ live uid tok (p_utxo p') = ∅.
Proof using All.
  intros Huid Hsrc Hg Hf. set (fa := fund_args _ _ _ _ _ _ _) in *.
  destruct (fund_call_eq fa p) as (st&Hp'&o&Hfund&Ho). rewrite Hf /= in Hp', Ho. rewrite Hp' /=.
  destruct o as [fr|fe|]; [done| |done]. pose proof Hcalc as Hfc. rewrite Hmodel in Hfund, Hfc.
  assert (0 ≤ Funder.fa_MaxChangeOutputsPerTx fa) as Hm by (pose proof maxChange_pos; simpl; lia).
  destruct (FunderProps.fund_error_releases fa (O := coin_owned) r (pc_feeCalculator cfg) fuel
    (mkShared (p_utxo p) (p_ticks p)) fe st Hr Hfc Hm (shared_sound p Hg) Hfund) as [[Hv _]|(_&Hs&Hown)].
  - by rewrite fund_args_valid in Hv.
  - split; [by apply coin_sound|]. by rewrite -coin_live.
Qed.

(** A funding step that succeeds. *)
Lemma fund_call_outcome args source target count p fr p' :
  let fa := fund_args cfg uid tok args source target count in
  store_good uid tok (p_utxo p) → fund_call cfg fuel fa p = (Ret fr, p') →
  ∃ st base c, p_utxo p' = sh_store st ∧
    Funder.Fund (Fee.mkFeeModel Fee.SatPerKB r) (pc_feeCalculator cfg) fuel fa (mkShared (p_utxo p) (p_ticks p)) =
      (Ret fr, st) ∧
    FunderProps.running fa r (OwnedStore0 := coin_owned) base c st ∧ Collector.result c = Ret fr ∧
    1 ≤ Collector.dustFloor c ∧
    (base = live uid tok (p_utxo p) ∨
     base = ∅ ∧ FunderProps.contended fa (pc_feeModel cfg) r fuel (mkShared (p_utxo p) (p_ticks p))).
Proof using All.
  intros fa Hg Hf. destruct (fund_call_eq fa p) as (st&Hp'&o&Hfund&Ho). rewrite Hf /= in Hp', Ho. symmetry in Ho.
  apply mapErr_Ret in Ho as ->. pose proof Hcalc as Hfc. rewrite Hmodel in Hfund, Hfc.
  assert (0 ≤ Funder.fa_MaxChangeOutputsPerTx fa) as Hm by (pose proof maxChange_pos; simpl; lia).
  destruct (FunderProps.fund_outcome fa (O := coin_owned) r (pc_feeCalculator cfg) fuel
    (mkShared (p_utxo p) (p_ticks p)) fr st Hr Hfc Hm (shared_sound p Hg) Hfund) as (base&c&?&?&?&Hbase).
  rewrite coin_live in Hbase. exists st, base, c. rewrite Hp' Hmodel. by split_and!.
Qed.
Lemma fund_call_good args source target count p fr p' :
  store_good uid tok (p_utxo p) →
  fund_call cfg fuel (fund_args cfg uid tok args source target count) p = (Ret fr, p') →
  store_good uid tok (p_utxo p').
Proof using All.
  intros Hg Hf. destruct (fund_call_outcome _ _ _ _ _ _ _ Hg Hf) as (st&base&c&->&_&(_&Hs&_)&_).
  by apply coin_sound in Hs.
Qed.

(** ** A failed action *)

Lemma release_clean p :
  store_good uid tok (p_utxo p) →
  ∃ p', releaseReservationDetached uid tok p = (Ret (), p') ∧ p_meta p' = p_meta p ∧
    live uid tok (p_utxo p') = ∅.
Proof using C.
  intros Hg. destruct (mem_release uid tok (p_utxo p) coin_token Hg) as (n&s'&Hrel&_&Hl).
  rewrite /releaseReservationDetached /best_effort /try_ /utxo_call /zoom. cbv [mbind M_bind]. rewrite Hrel.
  eexists. by split_and!.
Qed.
(** Whatever failed, the compensation leaves nothing under the token. *)
Lemma on_error_clean {A} (m : PM A) m0 p e p' :
  on_error (releaseReservationDetached uid tok) m p = (Err e, p') →
  (∀ e1 p1, m p = (Err e1, p1) → store_good uid tok (p_utxo p1) ∧ p_meta p1 = m0) →
  p_meta p' = m0 ∧ live uid tok (p_utxo p') = ∅.
Proof using C.
  intros He Hm. revert He. rewrite /on_error /try_. cbv [mbind M_bind].
  destruct (m p) as [[a|e1|] p1]; [done| |done]. destruct (Hm e1 p1 eq_refl) as [Hg <-].
  destruct (release_clean p1 Hg) as (p2&->&?&?). by intros [= _ <-].
Qed.
Lemma bind_Err {A B} (m : PM A) (k : A → PM B) p e p' :
  (m ≫= k) p = (Err e, p') → m p = (Err e, p') ∨ ∃ a p1, m p = (Ret a, p1) ∧ k a p1 = (Err e, p').
Proof. cbv [mbind M_bind]. destruct (m p) as [[a|e1|] p1]; [eauto|intros [= -> ->]; by left|done]. Qed.
Lemma Do_Err {A} (m : PM A) p e p' :
  Do shared m p = (Err e, p') →
  p_meta p' = p_meta p ∧ (shared = true ∨ steps (on_utxo eq) m → p_utxo p' = p_utxo p).
Proof.
  rewrite /Do. destruct (meta_closed _); [by intros [= _ <-]|].
  destruct (m p) as [[a|e1|] p1] eqn:Hm; [done| |done]. intros [= _ <-]. split; [done|]. simpl.
  intros [->|Hu]; [done|]. specialize (Hu p). rewrite Hm in Hu. by destruct shared.
Qed.

Lemma fund_and_persist_Err args source target count provided prefix script p e p' :
  0 < uid → source.1 ≠ "" → store_good uid tok (p_utxo p) → live uid tok (p_utxo p) = ∅ →
  fund_and_persist clk shared cfg fuel uid tok (walletOwnedOutpoints provided)
    (fund_args cfg uid tok args source target count)
    (λ fr, persistCreateAction clk entropy cfg uid tok prefix args provided fr script) p = (Err e, p') →
  p_meta p' = p_meta p ∧ live uid tok (p_utxo p') = ∅.
Proof using All.
  intros Huid Hsrc Hg Hl. rewrite /fund_and_persist. destruct shared eqn:Hsh.
  { rewrite -Hsh. intros [Hm Hu]%Do_Err. split; [done|]. rewrite Hu //. by left. }
  rewrite -Hsh. intros [Herr|([]&p1&Hres%on_error_Ret&Hrest)]%bind_Err.
  - eapply on_error_clean; [exact Herr|]. intros e1 p1 [-> ->]%reserve_refused. done.
  - pose proof (reserve_meta clk uid tok (walletOwnedOutpoints provided) p) as Hm1. rewrite Hres /= in Hm1.
    destruct (reserve_live _ _ _ Hg Hres) as [Hg1 _]. rewrite -Hm1.
    set (fa := fund_args _ _ _ _ _ _ _) in *. pose proof (fund_call_meta cfg fuel fa p1) as Hm2.
    apply bind_Err in Hrest as [Hf|(fr&p2&Hf&Hper)]; rewrite Hf /= in Hm2; rewrite -Hm2.
    + split; [done|]. by apply (fund_call_failed args source target count p1 e p').
    + eapply on_error_clean; [exact Hper|]. intros e1 p3 [Hm3 Hu3]%Do_Err. rewrite Hu3; [|right; apply persist_utxo].
      split; [|done]. by apply (fund_call_good args source target count p1 fr p2).
Qed.

(** C15: a failed CreateAction leaves nothing behind.  If CreateAction returns an error,
    in either mode and wherever it failed, the ledger is as it was and no coin is held
    under the reference it drew, given a token that held nothing before: neither a coin
    the caller named nor one the funder took. *)
Theorem create_failure_leaves_nothing args p e p' :
  0 < uid → baskets_named → store_good uid tok (p_utxo p) → live uid tok (p_utxo p) = ∅ →
  (Base64 entropy referenceLength p).1 = Ret tok →
  CreateAction clk shared entropy cfg fuel (Some uid) args p = (Err e, p') →
  p_meta p' = p_meta p ∧ live uid tok (p_utxo p') = ∅.
Proof using All.
  intros Huid Hb Hg Hl Htok
    [(Hm&Hu&_)|(ref&prefix&provided&script&target&count&source&p1&Href&[Hm Hu _ _ _ Hs]&Hrun)]%CreateAction_split.
  { by rewrite Hm Hu. }
  assert (ref = tok) as -> by congruence. rewrite -Hm. rewrite -Hu in Hg, Hl.
  eapply fund_and_persist_Err; [done|by eapply fundingSource_named|done..].
Qed.

(** ** A successful action *)

(** Input [i] spends the outpoint a caller named, or the allocated coin. *)
Definition spends (i : StorageCreateTransactionSdkInput) : string * Z := (si_SourceTxID i, si_SourceVout i).
Definition named (ri : resolvedInput) : string * Z :=
  (op_TxID (ci_Outpoint (ri_input ri)), op_Vout (ci_Outpoint (ri_input ri))).

Lemma result_inputs include beef rows provided alloc :
  let ins := (imap (provided_input include beef) provided ++
    imap (λ i, allocated_input include beef rows (length provided + i)) alloc)%list in
  spends <$> ins = ((named <$> provided) ++
    ((λ u, (Hash_String (TxID (u_Outpoint u)), Vout (u_Outpoint u))) <$> alloc))%list ∧
  si_SourceSatoshis <$> ins = ((ri_satoshis <$> provided) ++ ((λ u, i64 (u_Satoshis u)) <$> alloc))%list.
Proof.
  simpl. rewrite !fmap_app. split; f_equal; by apply fmap_imap_same.
Qed.

Lemma val_map_dom us : dom (FunderProps.val_map us) = list_to_set (u_Outpoint <$> us).
Proof. apply set_eq. intros op. by rewrite elem_of_dom FunderProps.val_map_Some elem_of_list_to_set. Qed.

(** C16: a created action holds the coins it will spend.  On success the inputs are the
    outpoints the caller named, in order, then the coins the funder allocated, which
    are distinct.  Under the drawn reference the store holds exactly the named coins
    the wallet owns and the allocated ones, and no coin is both; unless the funder's
    first pass over the store, which then held the named coins, ended in contention. *)
Theorem create_holds_inputs args p res p' :
  store_good uid tok (p_utxo p) → live uid tok (p_utxo p) = ∅ →
  (Base64 entropy referenceLength p).1 = Ret tok →
  CreateAction clk shared entropy cfg fuel (Some uid) args p = (Ret res, p') →
  ∃ provided alloc,
    ri_input <$> provided = ca_Inputs args ∧ Forall named_coin provided ∧
    spends <$> cr_Inputs res = ((named <$> provided) ++
      ((λ u, (Hash_String (TxID (u_Outpoint u)), Vout (u_Outpoint u))) <$> alloc))%list ∧
    NoDup (u_Outpoint <$> alloc) ∧
    ((∀ op, op ∈ walletOwnedOutpoints provided → op ∉ u_Outpoint <$> alloc) ∧
     dom (live uid tok (p_utxo p')) = list_to_set (walletOwnedOutpoints provided ++ (u_Outpoint <$> alloc)) ∨
     dom (live uid tok (p_utxo p')) = list_to_set (u_Outpoint <$> alloc) ∧
     ∃ fa st, Funder.fa_UserID fa = uid ∧ Funder.fa_Reservation fa = tok ∧
       dom (live uid tok (sh_store st)) = list_to_set (walletOwnedOutpoints provided) ∧
       FunderProps.contended fa (pc_feeModel cfg) r fuel st).
Proof using All.
  intros Hg Hl Htok
    (prefix&provided&target&count&source&fr&plans&p1&p2&p3&Href&[_ Hu Hin Hops _ _]&Hres&Hfund&_&Hper)%CreateAction_Ret.
  assert (cr_Reference res = tok) as Hr' by congruence. rewrite Hr' in Hres, Hfund, Hper. rewrite -Hu in Hg, Hl.
  destruct (reserve_live _ _ _ Hg Hres) as [Hg2 Hd2]. rewrite Hl dom_empty_L right_id_L in Hd2.
  destruct (fund_call_outcome _ _ _ _ _ _ _ Hg2 Hfund) as (st&base&c&Hst&_&((Hi&_)&_&Hnd&Hnew&Hown)&Hresult&Hdust&Hbase).
  apply (CollectorProps.result_Ret (Funder.fa_CurrentTxSize
    (fund_args cfg uid tok args source target count))) in Hresult as (Hal&_); [|done|lia].
  destruct Hper as [_ _ _ _ _ Hu3 (include&beef&rows&->) _]. rewrite coin_live -Hst -Hu3 /= in Hown. rewrite Hal.
  exists provided, (Collector.allocatedUTXOs c). split_and!; [done..|apply result_inputs|done|].
  rewrite Hown dom_union_L val_map_dom. destruct Hbase as [->|[-> Hc]]; [left|right].
  - split; [|rewrite Hd2; set_solver]. intros op Hop (u&->&Hu')%list_elem_of_fmap.
    rewrite ->Forall_forall in Hnew. specialize (Hnew u Hu'). apply not_elem_of_dom in Hnew.
    apply Hnew. rewrite Hd2. by apply elem_of_list_to_set.
  - split; [set_solver|]. exists (fund_args cfg uid tok args source target count), (mkShared (p_utxo p2) (p_ticks p2)).
    by split_and!.
Qed.

(** ** Value *)

Lemma fund_pays args source target count p fr st n :
  let fa := fund_args cfg uid tok args source target count in
  Funder.Fund (Fee.mkFeeModel Fee.SatPerKB r) (pc_feeCalculator cfg) fuel fa (mkShared (p_utxo p) (p_ticks p)) =
    (Ret fr, st) →
  store_good uid tok (p_utxo p) → n = Collector.ChangeOutputsCount fr →
  (Funder.fa_CurrentTxSize fa + CollectorProps.inputs_size (Collector.AllocatedUTXOs fr) +
     (Z.of_nat (length (Collector.AllocatedUTXOs fr)) + 1) * (maxChangeOutputsPerTx cfg * 34)) * Z.max 1 r < 2 ^ 50 →
  Fee.MinRequiredFee (Funder.fa_CurrentTxSize fa + CollectorProps.inputs_size (Collector.AllocatedUTXOs fr) +
    n * Fee.P2PKHOutputSize) r ≤ Collector.Fee_ fr.
Proof using All.
  intros fa Hf Hg -> Hsize. pose proof Hcalc as Hfc. rewrite Hmodel in Hfc. pose proof maxChange_pos as Hm.
  assert (0 ≤ Funder.fa_CurrentTxSize fa) by (apply Z.mod_pos_bound; lia).
  apply (FunderProps.fund_fee_sufficient fa (O := coin_owned) r (pc_feeCalculator cfg) fuel
    (mkShared (p_utxo p) (p_ticks p)) fr st Hr Hfc); [simpl; lia|done|by apply shared_sound|done|].
  assert (FunderProps.change_cap fa ≤ maxChangeOutputsPerTx cfg) by (rewrite /FunderProps.change_cap /=; lia).
  pose proof (FunderProps.inputs_size_nonneg (Collector.AllocatedUTXOs fr)). nia.
Qed.

(** How many of the returned outputs are change. *)
Definition change_outputs (args : ValidCreateActionArgs) (res : StorageCreateActionResult) : Z :=
  Z.of_nat (length (cr_Outputs res)) - Z.of_nat (length (fixed_values cfg args)).

Lemma result_outputs plans args fr :
  pl_satoshis <$> plans ≡ₚ i64 <$> (fixed_values cfg args ++ change_values fr)%list →
  (λ o, co_Satoshis (so_output o)) <$> buildResultOutputs plans ≡ₚ
    ((u64 <$> fixed_values cfg args) ++ (u64 <$> change_values fr))%list.
Proof.
  intros Hp%(fmap_Permutation u64). rewrite /buildResultOutputs -list_fmap_compose.
  rewrite -list_fmap_compose in Hp. trans (u64 ∘ pl_satoshis <$> plans); [done|]. rewrite Hp -fmap_app.
  rewrite -list_fmap_compose. rewrite (list_fmap_ext (u64 ∘ i64) u64) //. intros i x _. apply u64_i64.
Qed.

(** The change of a funding result, as outputs. *)
Lemma change_values_spec fr :
  Satoshi.in_supply (Collector.ChangeAmount fr) → 1 ≤ Collector.DustFloor fr →
  (Collector.ChangeOutputsCount fr = 0 ∨
   1 ≤ Collector.ChangeOutputsCount fr ∧ Collector.DustFloor fr ≤ Collector.ChangeAmount fr) →
  Z.of_nat (length (change_values fr)) = Collector.ChangeOutputsCount fr ∧
  zsum (u64 <$> change_values fr) =
    if Collector.ChangeOutputsCount fr =? 0 then 0 else Collector.ChangeAmount fr.
Proof.
  rewrite /Satoshi.in_supply /Satoshi.MaxSatoshis /change_values. intros Hs Hd [->|[Hc Hch]]; [done|].
  destruct (distributeChange_spec (Collector.ChangeAmount fr) (Collector.ChangeOutputsCount fr))
    as (Hsum&Hlen&Hall); [done|lia|]. split; [done|]. rewrite (proj2 (Z.eqb_neq _ _)); [|lia].
  rewrite -{2}Hsum. f_equal. rewrite -{2}(list_fmap_id (distributeChange _ _)).
  apply list_fmap_ext. intros i x Hx. rewrite ->Forall_lookup in Hall. specialize (Hall i x Hx).
  apply Fee.u64_id. simpl in *. lia.
Qed.

(** Allocated coins have values the result can show. *)
Lemma allocated_values us base s :
  store_good uid tok s → FunderProps.holding base us (live uid tok s) →
  Forall (λ u, u_Satoshis u ≤ Satoshi.MaxSatoshis) us →
  zsum ((λ u, i64 (u_Satoshis u)) <$> us) = CollectorProps.total us.
Proof.
  intros [_ Hg] (Hnd&_&Hl) Hmax. assert (Forall (λ u, 0 ≤ u_Satoshis u) us) as Hpos.
  { apply Forall_forall. intros u Hu.
    assert (live uid tok s !! u_Outpoint u = Some (u_Satoshis u)) as Hv.
    { rewrite Hl. apply lookup_union_Some_l. by apply FunderProps.val_map_lookup. }
    rewrite live_lookup in Hv. destruct (coin s (u_Outpoint u)) as [u'|] eqn:Hc; [|done].
    simpl in Hv. revert Hv. rewrite /live_value. case_decide; [|done]. intros [= <-]. by apply (Hg (u_Outpoint u)). }
  clear -Hpos Hmax. induction us as [|u us IH]; [done|]. apply Forall_cons in Hpos as [??], Hmax as [??].
  unfold Satoshi.MaxSatoshis in *. csimpl. rewrite Satoshi.i64_id; [|lia]. rewrite IH //.
Qed.

(** What the caller named, plus what was allocated, covers the outputs. *)
Lemma balance args provided alloc fr target :
  Satoshi.From (Satoshi.mkInt Satoshi.KInt64
    (funding_target cfg args (foldl (λ acc x, i64 (acc + x)) 0 (ri_satoshis <$> provided)))) = Ret target →
  shape_ok args → Forall (λ v, 0 ≤ v) ((ri_satoshis <$> provided) ++ alloc)%list →
  zsum ((ri_satoshis <$> provided) ++ alloc)%list < 2 ^ 63 →
  zsum (u64 <$> fixed_values cfg args) + zsum (u64 <$> change_values fr) < 2 ^ 63 →
  zsum alloc = target + Collector.Fee_ fr + Collector.ChangeAmount fr →
  zsum ((ri_satoshis <$> provided) ++ alloc)%list =
    zsum (u64 <$> fixed_values cfg args) + Collector.Fee_ fr + Collector.ChangeAmount fr.
Proof.
  rewrite Forall_app zsum_app. intros Hfrom Hsh [Hp Ha] Hin Hout Htot.
  pose proof (zsum_nonneg _ Hp). pose proof (zsum_nonneg _ Ha).
  pose proof (zsum_nonneg _ (u64_nonneg (fixed_values cfg args))).
  pose proof (zsum_nonneg _ (u64_nonneg (change_values fr))).
  rewrite foldl_i64 in Hfrom; [|done|lia..]. rewrite Z.add_0_l in Hfrom.
  rewrite funding_target_exact in Hfrom; [|done|lia..]. revert Hfrom. rewrite /Satoshi.From.
  case_match; [done|]. intros [= <-]. simpl in Htot. rewrite Satoshi.i64_id in Htot; lia.
Qed.

(** C14: a created action conserves value and pays its fee.  On success, as long as the
    amounts returned stay below 2^63, the inputs are worth exactly the outputs plus a
    fee, and that fee is at least the node's minimum for a transaction with the
    caller's inputs and outputs, the commission, the fan-out, the allocated coins and
    the change outputs, for sizes whose product with the fee rate stays below 2^50. *)
Theorem create_conserves args p res p' :
  store_good uid tok (p_utxo p) → (Base64 entropy referenceLength p).1 = Ret tok →
  CreateAction clk shared entropy cfg fuel (Some uid) args p = (Ret res, p') →
  shape_ok args → Forall (λ v, 0 ≤ v) (in_values res) →
  zsum (in_values res) < 2 ^ 63 → zsum (out_values res) < 2 ^ 63 →
  ∃ alloc fee,
    spends <$> drop (length (ca_Inputs args)) (cr_Inputs res) =
      (λ u, (Hash_String (TxID (u_Outpoint u)), Vout (u_Outpoint u))) <$> alloc ∧
    zsum (in_values res) = zsum (out_values res) + fee ∧
    let base := Fee.TransactionSizeFromScriptLengths (providedInputSizes (ca_Inputs args)) (output_lengths cfg args) in
    ((base + CollectorProps.inputs_size alloc +
        (Z.of_nat (length alloc) + 1) * (maxChangeOutputsPerTx cfg * 34)) * Z.max 1 r < 2 ^ 50 →
     Fee.MinRequiredFee (base + CollectorProps.inputs_size alloc + change_outputs args res * Fee.P2PKHOutputSize) r
       ≤ fee).
Proof using All.
  intros Hg Htok
    (prefix&provided&target&count&source&fr&plans&p1&p2&p3&Href&[_ Hu Hin _ Htgt _]&Hres&Hfund&_&Hper)%CreateAction_Ret
    Hsh Hpos Hbin Hbout.
  assert (cr_Reference res = tok) as Hr' by congruence. rewrite Hr' in Hres, Hfund, Hper. rewrite -Hu in Hg.
  destruct (reserve_live _ _ _ Hg Hres) as [Hg2 _].
  destruct (fund_call_outcome _ _ _ _ _ _ _ Hg2 Hfund) as (st&base&c&Hst&Hrun&(Hc&Hs&Hhold)&Hresult&Hdust&_).
  pose proof (CollectorProps.result_change_supply _ _ Hresult) as Hsup. pose proof Hc as [Hi Hpar].
  apply (CollectorProps.result_Ret _ _ _ Hi Hdust) in Hresult as (Hal&_&Hdf&Htot&Hch&Hcnt&_&_).
  rewrite -Hdf in Hdust, Hcnt.
  destruct (change_values_spec fr Hsup Hdust) as [Hlen Hsum]; [naive_solver|].
  destruct Hper as [Hvals _ _ Houts _ _ (include&beef&rows&Hins) (tot&_&_&_&_&Htal&_)].
  apply result_outputs in Hvals. rewrite -Houts in Hvals. rewrite (zsum_perm _ _ Hvals) zsum_app in Hbout |- *.
  destruct (result_inputs include beef rows provided (Collector.AllocatedUTXOs fr)) as [Hsp Hsat].
  rewrite -Hins in Hsp, Hsat. rewrite Hsat in Hpos, Hbin |- *.
  apply coin_sound in Hs. rewrite coin_live -Hal in Hhold.
  pose proof (allocated_values _ _ _ Hs Hhold (CollectorProps.TotalAllocated_bounds _ _ Htal)) as Hav.
  assert (Collector.txSats c = target) as Hts by (by injection Hpar).
  exists (Collector.AllocatedUTXOs fr), (Collector.Fee_ fr +
    if Collector.ChangeOutputsCount fr =? 0 then Collector.ChangeAmount fr else 0). split_and!.
  - rewrite fmap_drop Hsp -Hin length_fmap. by rewrite -(length_fmap named) drop_app_length.
  - erewrite balance; [|done..|by rewrite Hav Htot Hts]. rewrite Hsum. case_match; lia.
  - simpl. intros Hsize. assert (change_outputs args res = Collector.ChangeOutputsCount fr) as Hn.
    { apply Permutation_length in Hvals. rewrite length_app !length_fmap in Hvals. rewrite /change_outputs. lia. }
    pose proof (fund_pays args source target count p2 fr st _ Hrun Hg2 Hn Hsize) as Hpay. simpl in Hpay. case_match; lia.
Qed.
End coins.
End CreateCoins.
