(* ===== verification/CreateExample.v ===== *)
(** * CreateExample: creating actions on a small wallet

    A wallet with a 900-satoshi coin of its own transaction ab01 and a 5000-satoshi
    coin.  Actions are created over a coin store that may refuse a claim with a
    contention error, as optimistic backends do; one run shows what the retry after
    such a refusal does to the coins a caller named. *)
From Stdlib Require Import Ascii String.
From S2P Require Import Prelude UtxoTypes MemStore StoreContract Statuses Satoshi Float64 External Fee Collector Funder.
From S2P Require Import FunderProps FunderMem Config KnownTx Ledger StatusUpdates StatusUpdatesProps.
From S2P Require Import Process ProcessExample Beef Create CreateProps CreateCoins.
Import StoreContract WdkStatus KnownTxRepo Ledger StatusUpdates StatusUpdatesExample Process ProcessExample Random.
Import Create CreateProps CreateCoins FunderMem.
Local Open Scope string_scope.
Local Open Scope Z_scope.

Module CreateExample.
#[local] Existing Instance sdk0.
#[local] Existing Instance range_canonical.
#[local] Existing Instance txsdk0.
#[local] Existing Instance external_std.
#[local] Existing Instance external_std_laws.

(** ** A store whose claims may be refused *)

Section optimistic.
Context (busy : nat → bool) (clk : nat → nat → Time).
Abbreviation calm := (mem_funding (λ _, []) clk).

(** At the times [busy], a claim finds every candidate taken by somebody else. *)
Definition contending {A} (m : M shared error A) : M shared error A := λ st,
  if busy (sh_time st) then (Err ErrContention, mkShared (sh_store st) (S (sh_time st))) else m st.
Definition optimistic : Funder.FundingStore shared := {|
  Funder.ClaimSmallestSufficient sc tok x := contending (Funder.ClaimSmallestSufficient (FundingStore := calm) sc tok x);
  Funder.ClaimLargestInsufficient sc tok x n :=
    contending (Funder.ClaimLargestInsufficient (FundingStore := calm) sc tok x n);
  Funder.ClaimExact sc tok x n := contending (Funder.ClaimExact (FundingStore := calm) sc tok x n);
  Funder.ReleaseReservation := Funder.ReleaseReservation (FundingStore := calm);
  Funder.ReleaseOutpoints := Funder.ReleaseOutpoints (FundingStore := calm);
  Funder.ClaimableExists := None;
|}.

Context (uid : Z) (tok : string) (Htok : tok ≠ "").

Lemma calm_owned : FunderProps.OwnedStore calm uid tok.
Proof using Htok. apply (mem_owned (λ _, []) clk uid tok (λ _, True) Htok); [by intros|done]. Defined.

Lemma optimistic_owned : FunderProps.OwnedStore optimistic uid tok.
Proof using Htok.
  refine {| FunderProps.sound st := store_good uid tok (sh_store st);
            FunderProps.owned st := live uid tok (sh_store st) |}; rewrite /optimistic /contending /=.
  - intros sc x st Hsc Hg. destruct (busy _); [done|].
    pose proof (FunderProps.smallest_law (OwnedStore := calm_owned) sc x st Hsc (conj Hg I)) as Hl. simpl in Hl.
    destruct (with_peers _ _ _ _) as [[[]| |] ?]; naive_solver.
  - intros sc x n st Hsc Hg. destruct (busy _); [done|].
    pose proof (FunderProps.largest_law (OwnedStore := calm_owned) sc x n st Hsc (conj Hg I)) as Hl. simpl in Hl.
    destruct (with_peers _ _ _ _) as [[| |] ?]; naive_solver.
  - intros sc x n st Hsc Hg. destruct (busy _); [done|].
    pose proof (FunderProps.exact_law (OwnedStore := calm_owned) sc x n st Hsc (conj Hg I)) as Hl. simpl in Hl.
    destruct (with_peers _ _ _ _) as [[| |] ?]; naive_solver.
  - intros ops st Hg.
    pose proof (FunderProps.release_outpoints_law (OwnedStore := calm_owned) ops st (conj Hg I)) as Hl. simpl in Hl.
    destruct (with_peers _ _ _ _) as [[| |] ?]; naive_solver.
  - intros st Hg.
    destruct (FunderProps.release_law (OwnedStore := calm_owned) st (conj Hg I)) as (n&s'&Heq&[Hs _]&Ho).
    exists n, s'. by split_and!.
  - done.
Defined.
#[global] Instance optimistic_coins : CoinFunding optimistic uid tok.
Proof using Htok. by refine {| coin_owned := optimistic_owned |}. Defined.
End optimistic.

(** ** The wallet *)

Definition beefsdk0 : BeefSdk := {|
  NewBeefV2 := ();
  FindTransaction := λ _ _, Some 1000;
  MergeTxidOnly := λ _ b, b;
  AddMerkleProof := λ _ _, true;
  MergeTransaction := λ _ _ b, Some b;
  MergeRawTx := λ _ b, Some b;
  MergeBeefBytes := λ _ b, Some b;
  Beef_Bytes := λ _, Some ["b"%char];
  src_Outputs := λ v, [(v, Some ["s"%char])];
  src_Bytes := λ _, [];
  NewFromHex := λ s, match encTxID s with Ret raw => Some (list_ascii_of_string raw) | _ => None end;
  PublicKey := string;
  Address := string;
  PublicKeyFromString := Some;
  NewAddressFromPublicKey := λ k _, Some k;
  Lock := λ a, Some (list_ascii_of_string a);
|}.
#[local] Existing Instance beefsdk0.

Definition utxo8 : MemStore.Store :=
  (MemStore.Mint clk0 [StatusUpdatesExample.coin 43777 0 900; StatusUpdatesExample.coin 52230 0 5000] MemStore.New).2.
Definition p8 : Provider := mkProvider meta0 utxo8 0.

Definition entropy0 (n : nat) (len : Z) : option Bytes := Some (replicate (Z.to_nat len) (ascii_of_nat n)).
Definition token8 : string := "AAAAAAAAAAAAAAAA".
Definition cfg0 : ProviderConfig :=
  mkProviderConfig Fee.DefaultFeeModel FunderExample.fc100 DefaultChangeBasket Config.DefaultUTXOManagement
    (Config.mkCommission 0 "") false false false.
Definition clocks8 (n i : nat) : Time := clk0 (n + i).

(** Spend ab01:0 and pay [v] satoshis to a script. *)
Definition pay (v : Z) : ValidCreateActionArgs :=
  mkCreateArgs "pay the shop" [] [mkCreateInput (mkOutPoint "ab01" 0) "my coin" 0 None (Some 107)]
    [mkCreateOutput "5151" v "goods" None None ["sale"]] 0 1 ["shop"] false false [] true None
    false false true false true None None [] None [].

Abbreviation create busy shared args :=
  (CreateAction (H4 := optimistic busy clocks8) clk0 shared entropy0 cfg0 10 (Some 7) args p8).
Definition calm8 (n : nat) : bool := false.
(** The funder's first claim is at time 3. *)
Definition busy8 (n : nat) : bool := (n =? 3)%nat.

Definition result_of (r : outcome perror StorageCreateActionResult * Provider) : StorageCreateActionResult :=
  match r.1 with Ret res => res | _ => mkCreateResult [] [] [] [] "" 0 0 "" end.
Definition runs (r : outcome perror StorageCreateActionResult * Provider) : bool :=
  match r.1 with Ret _ => true | _ => false end.
Lemma run_result r : runs r = true → r = (Ret (result_of r), r.2).
Proof. by destruct r as [[] ?]. Qed.

Definition paid : StorageCreateActionResult := result_of (create calm8 false (pay 3000)).
Definition p9 : Provider := (create calm8 false (pay 3000)).2.

(** The caller's 900 and the wallet's 5000 pay for the 3000, with three change outputs. *)
Lemma paid_shape :
  spends <$> cr_Inputs paid = [("ab01", 0); ("cc06", 0)] ∧
  in_values paid = [900; 5000] ∧ length (cr_Outputs paid) = 4%nat.
Proof. split_and!; vm_compute; reflexivity. Qed.

Lemma paid_run : create calm8 false (pay 3000) = (Ret paid, p9).
Proof. apply run_result. vm_compute. reflexivity. Qed.

Lemma token_drawn : (Base64 entropy0 referenceLength p8).1 = Ret token8.
Proof. vm_compute. reflexivity. Qed.
Lemma utxo8_good : store_good 7 token8 utxo8.
Proof.
  split; [done|]. intros op u Hu. assert (map_Forall (λ op r,
    (u_Outpoint (MemStore.r_utxo r) = op ∧ 0 < u_UserID (MemStore.r_utxo r) ∧ u_Basket (MemStore.r_utxo r) ≠ "" ∧
     Tier_Valid (u_Tier (MemStore.r_utxo r)) = true) ∧ 0 ≤ u_Satoshis (MemStore.r_utxo r) ∧
    u_Pinned (MemStore.r_utxo r) = false ∧ u_ReservedAt (MemStore.r_utxo r) = zeroTime) (MemStore.rows utxo8)) as Hall.
  { apply (bool_decide_unpack _). vm_compute. exact I. }
  unfold StoreContract.coin in Hu. destruct (MemStore.rows utxo8 !! op) as [r|] eqn:Hr; simplify_eq/=.
  destruct (Hall op r Hr) as ((?&?&?&?)&?&Hp&?). unfold coin_good, coin_ok. rewrite Hp. by split_and!.
Qed.
Lemma utxo8_free : live 7 token8 utxo8 = ∅.
Proof. vm_compute. reflexivity. Qed.
Lemma calc8 : Fee.newFeeCalculator (pc_feeModel cfg0) = Ret (pc_feeCalculator cfg0).
Proof. vm_compute. reflexivity. Qed.
Definition token8_set : token8 ≠ "" := ltac:(done).

Lemma create_stores_action_witness :
  nextOutputID (p_meta p8) = 2 ∧
  ∀ i o, cr_Outputs paid !! i = Some o → so_Vout o = Z.of_nat i ∧
    ∃ r, outputs (p_meta p9) !! (2 + Z.of_nat i) = Some r ∧ stored_as 7 3 o r.
Proof.
  split; [reflexivity|].
  destruct (create_stores_action (F := optimistic calm8 clocks8) clk0 false entropy0 cfg0 10 7 (pay 3000) p8 paid p9
    paid_run) as (_&_&Hrows&_). exact Hrows.
Defined.

Lemma create_holds_inputs_witness :
  size (live 7 token8 (p_utxo p9)) = 2%nat ∧
  ∃ provided alloc, ri_input <$> provided = ca_Inputs (pay 3000) ∧ NoDup (u_Outpoint <$> alloc) ∧
    spends <$> cr_Inputs paid = ((named <$> provided) ++
      ((λ u, (Hash_String (TxID (u_Outpoint u)), Vout (u_Outpoint u))) <$> alloc))%list.
Proof.
  split; [vm_compute; reflexivity|].
  destruct (create_holds_inputs (F := optimistic calm8 clocks8) clk0 false entropy0 cfg0 10 7 token8
    (C := optimistic_coins calm8 clocks8 7 token8 token8_set) 100 ltac:(lia) eq_refl calc8 ltac:(simpl; lia)
    (pay 3000) p8 paid p9 utxo8_good utxo8_free token_drawn paid_run)
    as (provided&alloc&Hin&_&Hsp&Hnd&_).
  exists provided, alloc. split_and!; [exact Hin|exact Hnd|exact Hsp].
Defined.

Lemma create_conserves_witness :
  zsum (in_values paid) = 5900 ∧
  ∃ (alloc : list UTXO) (fee : Z), zsum (in_values paid) = zsum (out_values paid) + fee.
Proof.
  split; [vm_compute; reflexivity|].
  destruct (create_conserves (F := optimistic calm8 clocks8) clk0 false entropy0 cfg0 10 7 token8
    (C := optimistic_coins calm8 clocks8 7 token8 token8_set) 100 ltac:(lia) eq_refl calc8 ltac:(simpl; lia)
    (pay 3000) p8 paid p9 utxo8_good token_drawn paid_run) as (alloc&fee&_&Hfee&_).
  - exact I.
  - apply (bool_decide_unpack _). vm_compute. exact I.
  - vm_compute. reflexivity.
  - vm_compute. reflexivity.
  - exists alloc, fee. exact Hfee.
Defined.

(** Nobody can pay 50000. *)
Definition p10 : Provider := (create calm8 false (pay 50000)).2.
Lemma broke_run : create calm8 false (pay 50000) = (Err (FundFailed Collector.ErrNotEnoughFunds), p10).
Proof.
  assert (Hok : (create calm8 false (pay 50000)).1 = Err (FundFailed Collector.ErrNotEnoughFunds))
    by (vm_compute; reflexivity).
  rewrite -Hok. apply surjective_pairing.
Qed.
Lemma create_failure_leaves_nothing_witness :
  p_meta p10 = p_meta p8 ∧ live 7 token8 (p_utxo p10) = ∅.
Proof.
  apply (create_failure_leaves_nothing (F := optimistic calm8 clocks8) clk0 false entropy0 cfg0 10 7 token8
    (C := optimistic_coins calm8 clocks8 7 token8 token8_set) 100 ltac:(lia) eq_refl calc8 ltac:(simpl; lia)
    (pay 50000) p8 (FundFailed Collector.ErrNotEnoughFunds)); [lia| |exact utxo8_good|exact utxo8_free|exact token_drawn
      |exact broke_run].
  intros Hen. vm_compute in Hen. discriminate Hen.
Defined.

(** ** The retry drops the named coins *)

Definition twice : StorageCreateActionResult := result_of (create busy8 false (pay 1500)).

(** after a contended claim the funder may allocate a coin the caller named.  The
    caller names ab01:0 and it is reserved; the funder's first claim meets contention,
    and the retry first releases the whole token, the named coin included.  The next
    pass then picks that very coin, and CreateAction succeeds with one outpoint as both
    inputs, counting its 900 satoshis twice.  Without contention the same request is
    funded from the other coin. *)
Theorem retry_spends_named_coin_twice :
  runs (create busy8 false (pay 1500)) = true ∧
  spends <$> cr_Inputs twice = [("ab01", 0); ("ab01", 0)] ∧ in_values twice = [900; 900] ∧
  spends <$> cr_Inputs (result_of (create calm8 false (pay 1500))) = [("ab01", 0); ("cc06", 0)].
Proof. split_and!; vm_compute; reflexivity. Qed.
End CreateExample.
