(* ===== verification/Keeper.v ===== *)
(** * Keeper: the fuel keeper

    [pkg/wallet/fuelkeeper/keeper.go]: the loop that keeps the pool of equal coins
    filled, by splitting larger coins into leaves of the pool's denomination and, before
    that, funds into reserve chunks.

    The wallet is the code's own interface: [WalletAPI] is a state [W] with the three
    calls.  What other goroutines decide (whether a stream is active, whether the context
    is canceled) is a function of the number of readings taken so far, as is the time an
    RPC takes.  The leaves of a round are independent calls; they are taken one after
    another here, with whatever answers the wallet gives. *)
From Stdlib Require Import String.
From S2P Require Import Prelude UtxoTypes Satoshi External Fee Config Sweeps Monitor Create.
Import Create.
Local Open Scope string_scope.
Local Open Scope Z_scope.

Module Keeper.

(** ** Configuration *)

Record Config := mkConfig {
  Denomination : Z; TargetPoolSize_ : Z; LowWaterPercent : Z; HighWaterPercent : Z;
  FanoutOutputsPerTx : Z; FanoutMaxTxsPerRound : Z; PoolBasket : string; ReserveBasket : string;
  Interval : Z; ChunkFeeHeadroom : Z; Originator : string;
  StreamLeafCap : Z; StreamYieldMultiple : Z; DisableStreamYield : bool;
  MintConcurrency : Z; RecycleBasket : string; RecycleCount : Z }.

Definition DefaultRecycleCount : Z := 8.
Definition DefaultStreamLeafCap : Z := 10.
Definition DefaultStreamYieldMultiple : Z := 3.
Definition millisecond : Z := 1000000.
Definition minStreamYield : Z := 10 * millisecond.
Definition maxStreamYield : Z := 3 * Sweeps.second.
Definition mintLeafAttempts : nat := 4.
Definition catchUpPause : Z := 10 * millisecond.

Definition FromThroughput `{External, Monitor.Must} (t : Config.Throughput) (denomination : Z) :
    outcome () Config :=
  let scaled := u64 (8 * denomination) in
  let headroom := if 1000 <? scaled then scaled else 1000 in
  match Monitor.Interval (Config.TopUp t) with
  | Ret interval =>
      Ret (mkConfig denomination (Config.TargetPool t) (Config.LowWaterPercent t)
             (Config.HighWaterPercent t) (Config.FanoutOutputsPerTx t) (Config.FanoutMaxTxsPerRound t)
             (Config.PoolBasket t) (Config.ReserveBasket t) interval headroom "fuelkeeper"
             0 0 false 0 "" 0)
  | Err e => Err e
  | Panic => Panic
  end.

Inductive kerror :=
| WalletRequired | SizesMustBePositive | WaterMarksInvalid | IntervalInvalid | BasketsUnset
| TargetZero | BalanceFailed (basket : string) | Interrupted.

Definition validate (c : Config) : outcome kerror () :=
  if (Denomination c =? 0) || (TargetPoolSize_ c =? 0) || (FanoutOutputsPerTx c =? 0)
  then Err SizesMustBePositive
  else if (LowWaterPercent c =? 0) || (HighWaterPercent c <? LowWaterPercent c) || (100 <? HighWaterPercent c)
  then Err WaterMarksInvalid
  else if Interval c <=? 0 then Err IntervalInvalid
  else if decide (PoolBasket c = "" ∨ ReserveBasket c = "") then Err BasketsUnset
  else Ret ().

Definition or_default (v d : Z) : Z := if v =? 0 then d else v.
Definition with_defaults (c : Config) : Config :=
  mkConfig (Denomination c) (TargetPoolSize_ c) (LowWaterPercent c) (HighWaterPercent c)
    (FanoutOutputsPerTx c) (FanoutMaxTxsPerRound c) (PoolBasket c) (ReserveBasket c) (Interval c)
    (ChunkFeeHeadroom c) (Originator c) (or_default (StreamLeafCap c) DefaultStreamLeafCap)
    (or_default (StreamYieldMultiple c) DefaultStreamYieldMultiple) (DisableStreamYield c)
    (MintConcurrency c) (RecycleBasket c) (or_default (RecycleCount c) DefaultRecycleCount).
Definition with_target (n : Z) (c : Config) : Config :=
  mkConfig (Denomination c) n (LowWaterPercent c) (HighWaterPercent c) (FanoutOutputsPerTx c)
    (FanoutMaxTxsPerRound c) (PoolBasket c) (ReserveBasket c) (Interval c) (ChunkFeeHeadroom c)
    (Originator c) (StreamLeafCap c) (StreamYieldMultiple c) (DisableStreamYield c)
    (MintConcurrency c) (RecycleBasket c) (RecycleCount c).

(** ** The wallet and the keeper *)

Class WalletAPI (W : Type) := {
  BasketBalance : string → W → option Z * W;
  BasketClaimableCount : string → W → option Z * W;
  (** The shape and the originator; whether the fan-out was made. *)
  FanOutFuel : ShapedChange → string → W → bool * W;
}.

(** [k_fans] lists the fan-outs the wallet made, [k_reads] counts the readings of what
    others decide. *)
Record Keeper (W : Type) := mkKeeper {
  k_wallet : W; k_cfg : Config; k_roundInFlight : bool; k_reads : nat; k_fans : list ShapedChange }.
Arguments mkKeeper {W}.
Arguments k_wallet {W}.
Arguments k_cfg {W}.
Arguments k_roundInFlight {W}.
Arguments k_reads {W}.
Arguments k_fans {W}.
Abbreviation KM W A := (M (Keeper W) kerror A).

(** [None]: the wallet is missing. *)
Definition New {W} (w : option W) (cfg : Config) : outcome kerror (Keeper W) :=
  match w with
  | None => Err WalletRequired
  | Some w =>
      match validate cfg with
      | Ret _ => Ret (mkKeeper w (with_defaults cfg) false 0 [])
      | Err e => Err e
      | Panic => Panic
      end
  end.

(** One round's leaves, as counted. *)
Record leafOutcome := mkOutcome { lo_minted : Z; lo_contended : Z }.
Definition no_leaves : leafOutcome := mkOutcome 0 0.

(** The pause after an RPC that took [opTook]. *)
Definition pauseFor (cfg : Config) (opTook : Z) : Z :=
  let pause := i64 (opTook * i64 (StreamYieldMultiple cfg)) in
  let pause := if pause <? minStreamYield then minStreamYield else pause in
  if maxStreamYield <? pause then maxStreamYield else pause.

Section keeper.
Context {W : Type} `{WalletAPI W}.
Context (stream : nat → bool) (canceled : nat → bool) (took : nat → Z).

Definition observe {A} (f : nat → A) : KM W A := λ k,
  (Ret (f (k_reads k)), mkKeeper (k_wallet k) (k_cfg k) (k_roundInFlight k) (S (k_reads k)) (k_fans k)).
Definition in_wallet {A} (f : W → A * W) : KM W A := λ k,
  let '(a, w) := f (k_wallet k) in
  (Ret a, mkKeeper w (k_cfg k) (k_roundInFlight k) (k_reads k) (k_fans k)).
Definition note (shape : ShapedChange) : KM W () :=
  modify (λ k, mkKeeper (k_wallet k) (k_cfg k) (k_roundInFlight k) (k_reads k) (k_fans k ++ [shape])).
Definition set_flight (b : bool) : KM W () :=
  modify (λ k, mkKeeper (k_wallet k) (k_cfg k) b (k_reads k) (k_fans k)).

Definition SetTargetPoolSize (n : Z) : KM W () :=
  if n =? 0 then throw TargetZero
  else modify (λ k, mkKeeper (k_wallet k) (with_target n (k_cfg k)) (k_roundInFlight k) (k_reads k) (k_fans k)).
Definition TargetPoolSize : KM W Z := gets (λ k, TargetPoolSize_ (k_cfg k)).
Definition snapshot : KM W Config := gets k_cfg.

(** The pause taken, if any. *)
Definition yieldToStream (cfg : Config) (opTook : Z) : KM W (option Z) :=
  active ← observe stream;
  mret (if negb active || DisableStreamYield cfg then None else Some (pauseFor cfg opTook)).
Definition fanOut (cfg : Config) (shape : ShapedChange) : KM W bool :=
  ok ← in_wallet (FanOutFuel shape (Originator cfg));
  _ ← (if (ok : bool) then note shape else mret ());
  opTook ← observe took;
  _ ← yieldToStream cfg opTook;
  mret ok.

Definition countClaimableCoins (basket : string) (denomination : Z) : KM W Z :=
  if denomination =? 0 then mret 0
  else
    sats ← in_wallet (BasketBalance basket);
    match sats with
    | None => throw (BalanceFailed basket)
    | Some sats => mret (sats / denomination)
    end.

(** ** Leaves *)

Definition leafShape (cfg : Config) : ShapedChange :=
  mkShape (FanoutOutputsPerTx cfg) (Denomination cfg) (PoolBasket cfg) "".
Definition recycleShape (cfg : Config) : ShapedChange :=
  mkShape (RecycleCount cfg) (Denomination cfg) (PoolBasket cfg) (RecycleBasket cfg).

(** [first]: no backoff precedes this attempt. A canceled context ends the leaf without
    counting it. *)
Fixpoint mint_attempts (cfg : Config) (shape : ShapedChange) (attempts : nat) (first : bool)
    (out : leafOutcome) : KM W leafOutcome :=
  match attempts with
  | O => mret (mkOutcome (lo_minted out) (u64 (lo_contended out + 1)))
  | S attempts =>
      stop ← (if first then mret false else observe canceled);
      if (stop : bool) then mret out
      else
        ok ← fanOut cfg shape;
        if (ok : bool) then mret (mkOutcome (u64 (lo_minted out + 1)) (lo_contended out))
        else
          stop ← observe canceled;
          if (stop : bool) then mret out else mint_attempts cfg shape attempts false out
  end.
Definition mintOneLeaf (cfg : Config) : leafOutcome → KM W leafOutcome :=
  mint_attempts cfg (leafShape cfg) mintLeafAttempts true.
Definition mintOneRecycleLeaf (cfg : Config) : leafOutcome → KM W leafOutcome :=
  mint_attempts cfg (recycleShape cfg) mintLeafAttempts true.

(** The leaves that are issued before the context is canceled or the cap of an active
    stream is met. *)
Fixpoint issue (cfg : Config) (leaf : leafOutcome → KM W leafOutcome) (leaves : nat) (issued : Z)
    (out : leafOutcome) : KM W leafOutcome :=
  match leaves with
  | O => mret out
  | S leaves =>
      stop ← observe canceled;
      if (stop : bool) then mret out
      else
        active ← observe stream;
        if active && (StreamLeafCap cfg <=? issued) then mret out
        else
          out ← leaf out;
          issue cfg leaf leaves (u64 (issued + 1)) out
  end.
Definition mintLeaves (cfg : Config) (leaves : Z) : KM W Z :=
  out ← issue cfg (mintOneLeaf cfg) (Z.to_nat leaves) 0 no_leaves;
  mret (u64 (lo_minted out * FanoutOutputsPerTx cfg)).
Definition mintRecycleLeaves (cfg : Config) (leaves : Z) : KM W Z :=
  out ← issue cfg (mintOneRecycleLeaf cfg) (Z.to_nat leaves) 0 no_leaves;
  mret (u64 (lo_minted out * RecycleCount cfg)).

(** ** Reserve chunks *)

Definition chunkValueOf (cfg : Config) : Z :=
  u64 (FanoutOutputsPerTx cfg * Denomination cfg + ChunkFeeHeadroom cfg).
Definition chunkShape (cfg : Config) (count : Z) : ShapedChange :=
  mkShape count (chunkValueOf cfg) (ReserveBasket cfg) "".

(** Halving the ask until it funds; the count that was funded, [None] when not even one
    chunk was. [fuel] bounds the halvings; running out of it is a panic that no run
    reaches. *)
Fixpoint halve (cfg : Config) (fuel : nat) (needed : Z) : KM W (option Z) :=
  if 1 <? needed then
    match fuel with
    | O => λ k, (Panic, k)
    | S fuel =>
        ok ← fanOut cfg (chunkShape cfg needed);
        if (ok : bool) then mret (Some needed) else halve cfg fuel (needed / 2)
    end
  else
    ok ← fanOut cfg (chunkShape cfg 1);
    mret (if (ok : bool) then Some 1 else None).

Fixpoint provision (cfg : Config) (leaves : Z) (fuel : nat) (chunks : Z) : KM W Z :=
  if chunks <? leaves then
    match fuel with
    | O => λ k, (Panic, k)
    | S fuel =>
        stop ← observe canceled;
        if (stop : bool) then throw Interrupted
        else
          let needed := u64 (leaves - chunks) in
          let needed := if FanoutOutputsPerTx cfg <? needed then FanoutOutputsPerTx cfg else needed in
          got ← halve cfg 64 needed;
          match got with
          | None => mret chunks
          | Some n => provision cfg leaves fuel (u64 (chunks + n))
          end
    end
  else mret chunks.
Definition ensureChunks (cfg : Config) (leaves : Z) : KM W Z :=
  chunks ← countClaimableCoins (ReserveBasket cfg) (chunkValueOf cfg);
  provision cfg leaves (Z.to_nat (leaves - chunks)) chunks.

(** ** A round *)

(** [ceil(deficit / width)], at most [FanoutMaxTxsPerRound], at most the cap of an
    active stream. *)
Definition leavesFor (cfg : Config) (deficit width : Z) : KM W Z :=
  let leaves := u64 (deficit + width - 1) / width in
  let leaves := if FanoutMaxTxsPerRound cfg <? leaves then FanoutMaxTxsPerRound cfg else leaves in
  active ← observe stream;
  mret (if active && (StreamLeafCap cfg <? leaves) then StreamLeafCap cfg else leaves).

(** What the recycle path minted, when it was taken. *)
Definition tryRecycle (cfg : Config) (deficit : Z) : KM W (option Z) :=
  if decide (RecycleBasket cfg = "") then mret None
  else
    coins ← in_wallet (BasketClaimableCount (RecycleBasket cfg));
    match coins with
    | None => mret None
    | Some coins =>
        let conc := if MintConcurrency cfg =? 0 then 1 else MintConcurrency cfg in
        if i64 (2 * i64 conc) <=? coins then
          leaves ← leavesFor cfg deficit (RecycleCount cfg);
          minted ← mintRecycleLeaves cfg leaves;
          mret (Some minted)
        else mret None
    end.
Definition mintFromChunks (cfg : Config) (leaves : Z) : KM W Z :=
  chunks ← ensureChunks cfg leaves;
  mintLeaves cfg (if chunks <? leaves then chunks else leaves).

Definition lowWaterOf (cfg : Config) : Z := u64 (TargetPoolSize_ cfg * LowWaterPercent cfg) / 100.
Definition fillTargetOf (cfg : Config) : Z := u64 (TargetPoolSize_ cfg * HighWaterPercent cfg) / 100.

(** The body of a round, while [roundInFlight] is set. *)
Definition round_body : KM W bool :=
  cfg ← snapshot;
  inventory ← countClaimableCoins (PoolBasket cfg) (Denomination cfg);
  if lowWaterOf cfg <=? inventory then mret false
  else
    let deficit := u64 (fillTargetOf cfg - inventory) in
    leaves ← leavesFor cfg deficit (FanoutOutputsPerTx cfg);
    recycled ← tryRecycle cfg deficit;
    minted ← match recycled with Some minted => mret minted | None => mintFromChunks cfg leaves end;
    mret ((0 <? minted) && (u64 (inventory + minted) <? lowWaterOf cfg)).

(** The deferred store runs on every way out. *)
Definition guarded {A} (m : KM W A) : KM W A := λ k,
  let '(o, k') := m k in (o, (set_flight false k').2).
Definition runOnce : KM W bool :=
  busy ← gets k_roundInFlight;
  if (busy : bool) then mret true
  else _ ← set_flight true; guarded round_body.
Definition RunOnce : KM W () := _ ← runOnce; mret ().

(** How long [Run] waits after a round; an error is logged. *)
Definition run_round : KM W Z := λ k,
  match runOnce k with
  | (Ret catchUp, k') => (Ret (if catchUp then catchUpPause else Interval (k_cfg k')), k')
  | (Err _, k') => (Ret (Interval (k_cfg k')), k')
  | (Panic, k') => (Panic, k')
  end.
(** [Run] for [rounds] rounds, or until the context is canceled. *)
Fixpoint Run (rounds : nat) : KM W () :=
  match rounds with
  | O => mret ()
  | S rounds =>
      _ ← run_round;
      stop ← observe canceled;
      if (stop : bool) then mret () else Run rounds
  end.
End keeper.

(** ** Reasoning about rounds *)

(** From every state, [m] adds to the fan-outs made, leaves the configuration alone, and
    its outcome and what it added satisfy [Q]. *)
Definition emits {W A} (m : KM W A) (Q : outcome kerror A → list ShapedChange → Prop) : Prop :=
  ∀ k, ∃ l, k_fans (m k).2 = (k_fans k ++ l)%list ∧ k_cfg (m k).2 = k_cfg k ∧ Q (m k).1 l.

(** The outcome is a value. *)
Definition yields {A} (Q : A → list ShapedChange → Prop) (o : outcome kerror A) (l : list ShapedChange) : Prop :=
  ∃ a, o = Ret a ∧ Q a l.

Section rules.
Context {W : Type} `{WalletAPI W}.

Lemma emits_weaken {A} (m : KM W A) (Q R : outcome kerror A → list ShapedChange → Prop) :
  emits m Q → (∀ o l, Q o l → R o l) → emits m R.
Proof. intros Hm HQR k. destruct (Hm k) as (l&?&?&?). exists l. auto. Qed.
Lemma emits_eq {A} (m m' : KM W A) (Q : outcome kerror A → list ShapedChange → Prop) :
  (∀ k, m k = m' k) → emits m' Q → emits m Q.
Proof. intros Heq Hm k. rewrite Heq. apply Hm. Qed.
Lemma emits_ret {A} (a : A) (Q : outcome kerror A → list ShapedChange → Prop) :
  Q (Ret a) [] → emits (mret a : KM W A) Q.
Proof. intros HQ k. exists []. by rewrite app_nil_r. Qed.
Lemma emits_bind {A B} (m : KM W A) (f : A → KM W B) Q R :
  emits m Q →
  (∀ a l1, Q (Ret a) l1 → emits (f a) (λ o l2, R o (l1 ++ l2)%list)) →
  (∀ e l, Q (Err e) l → R (Err e) l) → (∀ l, Q Panic l → R Panic l) →
  emits (m ≫= f) R.
Proof.
  intros Hm Hf He Hp k. destruct (Hm k) as (l1&Hl1&Hc1&HQ). rewrite /mbind /M_bind.
  destruct (m k) as [[a|e|] k1]; simpl in *.
  - destruct (Hf a l1 HQ k1) as (l2&Hl2&Hc2&HR). exists (l1 ++ l2)%list.
    by rewrite Hl2 Hl1 Hc2 Hc1 app_assoc.
  - exists l1. auto.
  - exists l1. auto.
Qed.
(** The usual case: the first computation returns. *)
Lemma emits_seq {A B} (m : KM W A) (f : A → KM W B) (Q : A → list ShapedChange → Prop) R :
  emits m (yields Q) →
  (∀ a l1, Q a l1 → emits (f a) (λ o l2, R o (l1 ++ l2)%list)) → emits (m ≫= f) R.
Proof.
  intros Hm Hf. eapply emits_bind; [exact Hm| | |].
  - intros a l1 (a'&[= <-]&HQ). by apply Hf.
  - by intros e l (?&?&_).
  - by intros l (?&?&_).
Qed.
Lemma emits_observe {A} (f : nat → A) : emits (W := W) (observe f) (yields (λ a l, l = [] ∧ ∃ n, a = f n)).
Proof. intros k. exists []. rewrite app_nil_r. split_and!; [done..|]. eexists. by split_and!; [|..|eexists]. Qed.
Lemma emits_wallet {A} (f : W → A * W) : emits (in_wallet f) (yields (λ a l, l = [] ∧ ∃ w, a = (f w).1)).
Proof.
  intros k. exists []. rewrite app_nil_r /in_wallet. destruct (f (k_wallet k)) as [a w] eqn:Hf. simpl.
  split_and!; [done..|]. eexists. split_and!; [done..|]. exists (k_wallet k). by rewrite Hf.
Qed.
End rules.

(** How many coins the fan-outs put into a basket. *)
Definition minted_into (basket : string) (l : list ShapedChange) : Z :=
  foldr (λ s acc, (if decide (sc_Basket s = basket) then sc_Count s else 0) + acc) 0 l.
Lemma minted_into_app b l1 l2 : minted_into b (l1 ++ l2) = minted_into b l1 + minted_into b l2.
Proof. induction l1 as [|s l1 IH]; simpl; [done|]. rewrite IH. lia. Qed.
Lemma minted_into_replicate b n s :
  minted_into b (replicate n s) = (if decide (sc_Basket s = b) then sc_Count s else 0) * Z.of_nat n.
Proof. induction n as [|n IH]; simpl; [lia|]. rewrite IH. lia. Qed.

(** The numbers of a configuration that [New] accepts, small enough for the arithmetic
    of a round to be exact. *)
Record sized (c : Config) : Prop := {
  sized_denomination : 0 < Denomination c;
  sized_target : 0 < TargetPoolSize_ c < 2 ^ 56;
  sized_water : 0 < LowWaterPercent c ≤ HighWaterPercent c ∧ HighWaterPercent c ≤ 100;
  sized_outputs : 0 < FanoutOutputsPerTx c < 2 ^ 63;
  sized_round : 0 ≤ FanoutMaxTxsPerRound c < 2 ^ 64;
  sized_recycle : 0 < RecycleCount c < 2 ^ 63;
  sized_cap : 0 < StreamLeafCap c;
  sized_chunk : 0 ≤ ChunkFeeHeadroom c ∧ FanoutOutputsPerTx c * Denomination c + ChunkFeeHeadroom c < 2 ^ 64;
}.

Lemma chunkValue_nonzero c : sized c → chunkValueOf c ≠ 0.
Proof.
  intros Hs. pose proof (sized_chunk _ Hs). pose proof (sized_outputs _ Hs).
  pose proof (sized_denomination _ Hs). rewrite /chunkValueOf Fee.Fee.u64_id; nia.
Qed.

Section rounds.
Context {W : Type} `{WalletAPI W}.
Context (stream : nat → bool) (canceled : nat → bool) (took : nat → Z).
Implicit Types cfg : Config.

Lemma emits_fanOut cfg shape :
  emits (fanOut stream took cfg shape)
    (yields (λ ok l, l = if (ok : bool) then [shape] else [])).
Proof.
  eapply emits_seq; [apply emits_wallet|]. intros ok l1 [-> _].
  eapply (emits_seq _ _ (λ _ l, l = if ok then [shape] else [])).
  { destruct ok; [|apply emits_ret; by eexists]. intros k. exists [shape]. by split_and!; [..|eexists]. }
  intros _ l2 ->. eapply emits_seq; [apply emits_observe|]. intros t l3 [-> _].
  eapply (emits_seq _ _ (λ _ l, l = [])).
  { eapply emits_seq; [apply emits_observe|]. intros b l4 [-> _]. apply emits_ret. by eexists. }
  intros _ l4 ->. apply emits_ret. eexists. split; [done|]. by destruct ok.
Qed.

(** A leaf is minted once or not at all. *)
Lemma emits_attempts cfg shape n first out :
  0 ≤ lo_minted out < 2 ^ 64 - 1 →
  emits (mint_attempts stream canceled took cfg shape n first out)
    (yields (λ out' l, ∃ m, (m ≤ 1)%nat ∧ l = replicate m shape ∧ lo_minted out' = lo_minted out + Z.of_nat m)).
Proof.
  intros Hb. assert (∀ o, lo_minted o = lo_minted out → ∃ m, (m ≤ 1)%nat ∧ [] = replicate m shape ∧
    lo_minted o = lo_minted out + Z.of_nat m) as H0 by (intros o ?; exists 0%nat; simpl; split_and!; [lia|done|lia]).
  revert first. induction n as [|n IH]; intros first; simpl; [apply emits_ret; eexists; eauto|].
  eapply (emits_seq _ _ (λ _ l, l = [])).
  { destruct first; [apply emits_ret; by eexists|]. eapply emits_weaken; [apply emits_observe|].
    intros o l (b&->&->&_). by eexists. }
  intros stop l1 ->. destruct stop; [apply emits_ret; eexists; eauto|].
  eapply emits_seq; [apply emits_fanOut|]. intros ok l1 ->. destruct ok.
  { apply emits_ret. eexists. split; [done|]. exists 1%nat. simpl. rewrite Fee.Fee.u64_id; [|lia]. by split_and!; [lia|..]. }
  eapply emits_seq; [apply emits_observe|]. intros stop l1 [-> _].
  destruct stop; [apply emits_ret; eexists; eauto|apply IH].
Qed.

(** A round mints at most the leaves it was given. *)
Lemma emits_issue cfg shape n leaves issued out :
  0 ≤ lo_minted out ∧ lo_minted out + Z.of_nat leaves < 2 ^ 64 →
  emits (issue stream canceled cfg (mint_attempts stream canceled took cfg shape n true) leaves issued out)
    (yields (λ out' l, ∃ m, (m ≤ leaves)%nat ∧ l = replicate m shape ∧ lo_minted out' = lo_minted out + Z.of_nat m)).
Proof.
  revert issued out. induction leaves as [|leaves IH]; intros issued out Hb; simpl.
  { apply emits_ret. eexists. split; [done|]. exists 0%nat. simpl. split_and!; [lia|done|lia]. }
  assert (∀ leaves, ∃ m, (m ≤ leaves)%nat ∧ [] = replicate m shape ∧
    lo_minted out = lo_minted out + Z.of_nat m) as H0 by (intros ?; exists 0%nat; simpl; split_and!; [lia|done|lia]).
  eapply emits_seq; [apply emits_observe|]. intros stop l1 [-> _].
  destruct stop; [apply emits_ret; eexists; eauto|].
  eapply emits_seq; [apply emits_observe|]. intros active l1 [-> _].
  destruct (active && _); [apply emits_ret; eexists; eauto|].
  eapply emits_seq; [apply emits_attempts; lia|]. intros out1 l1 (m1&Hm1&->&Ho1).
  eapply emits_weaken; [apply IH; lia|]. intros o l2 (out2&->&m2&Hm2&->&Ho2).
  eexists. split; [done|]. exists (m1 + m2)%nat. rewrite replicate_add. split_and!; [lia|done|lia].
Qed.

(** ** Chunks *)

Lemma emits_halve cfg fuel needed :
  1 ≤ needed < 2 ^ Z.of_nat (S fuel) →
  emits (halve stream took cfg fuel needed)
    (yields (λ got l, match got with
                      | Some n => 1 ≤ n ≤ needed ∧ l = [chunkShape cfg n]
                      | None => l = []
                      end)).
Proof.
  revert needed. induction fuel as [|fuel IH]; intros needed Hn; cbn [halve]; destruct (Z.ltb_spec 1 needed).
  1: { simpl in Hn. lia. }
  2: { eapply emits_seq; [apply emits_fanOut|]. intros ok l1 ->. destruct ok.
       - apply emits_ret. eexists. split; [done|]. simpl. by split; [lia|].
       - eapply emits_weaken; [apply (IH (needed / 2))|].
         + replace (Z.of_nat (S (S fuel))) with (Z.of_nat (S fuel) + 1) in Hn by lia.
           rewrite Z.pow_add_r in Hn; [|lia..]. change (2 ^ 1) with 2 in Hn.
           split; [apply Z.div_le_lower_bound; lia|apply Z.div_lt_upper_bound; lia].
         + intros o l (got&->&Hgot). eexists. split; [done|]. destruct got as [n|]; [|done].
           destruct Hgot as [Hr ->]. split; [|done].
           assert (needed / 2 ≤ needed) by (apply Z.div_le_upper_bound; lia). lia. }
  all: eapply emits_seq; [apply emits_fanOut|]; intros ok l1 ->; apply emits_ret; eexists; split; [done|];
    destruct ok; simpl; [by split; [lia|]|done].
Qed.

(** Every iteration provisions, so the loop ends; the chunks it returns are those it
    found and those it made. *)
Lemma emits_provision cfg leaves fuel chunks :
  0 < FanoutOutputsPerTx cfg → leaves < 2 ^ 64 → 0 ≤ chunks →
  leaves - chunks ≤ Z.of_nat fuel →
  emits (provision stream canceled took cfg leaves fuel chunks)
    (λ o l, ∃ ns, l = chunkShape cfg <$> ns ∧ Forall (λ n, 1 ≤ n) ns ∧ o ≠ Panic ∧
       ∀ c, o = Ret c → c = chunks + foldr Z.add 0 ns).
Proof.
  intros HF Hl. revert chunks. induction fuel as [|fuel IH]; intros chunks Hc Hfuel; cbn [provision];
    destruct (Z.ltb_spec chunks leaves); try lia.
  1,3: apply emits_ret; exists []; simpl; split_and!; [done|constructor|done|]; intros c [= <-]; lia.
  eapply emits_seq; [apply emits_observe|]. intros stop l1 [-> _]. destruct stop.
  { intros k. exists []. rewrite app_nil_r. split_and!; [done..|]. exists []. split_and!; [done|constructor|done..]. }
  rewrite (Fee.Fee.u64_id (leaves - chunks)); [|lia]. set (needed := if _ : bool then _ else _).
  assert (1 ≤ needed ≤ leaves - chunks) as Hn.
  { subst needed. destruct (Z.ltb_spec (FanoutOutputsPerTx cfg) (leaves - chunks)); lia. }
  eapply emits_seq; [apply emits_halve; split; [lia|]|].
  { assert (2 ^ 64 ≤ 2 ^ Z.of_nat 65) by by apply Z.pow_le_mono_r. lia. }
  intros [n|] l1.
  - intros [Hr ->]. rewrite Fee.Fee.u64_id; [|lia]. eapply emits_weaken; [apply IH; lia|].
    intros o l (ns&->&Hns&Hp&Hret). exists (n :: ns). split_and!; [done|by constructor; [lia|]|done|].
    intros c Ho. rewrite (Hret c Ho). simpl. lia.
  - intros ->. apply emits_ret. exists []. simpl. split_and!; [done|constructor|done|]. intros c [= <-]. lia.
Qed.

(** ** Rounds *)

(** Balances are unsigned. *)
Context (typed : ∀ b w z, (BasketBalance b w).1 = Some z → 0 ≤ z).

Lemma emits_leavesFor cfg deficit width :
  sized cfg → 1 ≤ deficit → 0 < width → deficit + width < 2 ^ 64 →
  emits (W := W) (leavesFor stream cfg deficit width)
    (yields (λ leaves l, l = [] ∧ 0 ≤ leaves ≤ FanoutMaxTxsPerRound cfg ∧ leaves * width < deficit + width)).
Proof.
  intros Hs Hd Hw Hb. rewrite /leavesFor Fee.Fee.u64_id; [|lia].
  pose proof (sized_round _ Hs). pose proof (sized_cap _ Hs).
  assert (0 ≤ (deficit + width - 1) / width) by (apply Z.div_pos; lia).
  assert ((deficit + width - 1) / width * width < deficit + width).
  { pose proof (Z.mul_div_le (deficit + width - 1) width ltac:(lia)). lia. }
  set (n := (deficit + width - 1) / width) in *.
  assert (∀ v, 0 ≤ v ≤ n → v * width < deficit + width) as Hmono by (intros v ?; nia).
  eapply emits_seq; [apply emits_observe|]. intros active l1 [-> _]. apply emits_ret. eexists. split; [done|].
  split; [done|]. destruct (Z.ltb_spec (FanoutMaxTxsPerRound cfg) n).
  - destruct active; simpl; [destruct (Z.ltb_spec (StreamLeafCap cfg) (FanoutMaxTxsPerRound cfg))|];
      (split; [lia|apply Hmono; lia]).
  - destruct active; simpl; [destruct (Z.ltb_spec (StreamLeafCap cfg) n)|]; (split; [lia|apply Hmono; lia]).
Qed.

Lemma emits_count basket d :
  0 ≤ d → emits (countClaimableCoins basket d)
    (λ o l, l = [] ∧ o ≠ Panic ∧ ∀ c, o = Ret c → 0 ≤ c ∧
       (d = 0 ∧ c = 0 ∨ ∃ w sats, (BasketBalance basket w).1 = Some sats ∧ c = sats / d)).
Proof.
  intros Hd. rewrite /countClaimableCoins. destruct (Z.eqb_spec d 0) as [->|Hne].
  { apply emits_ret. split_and!; [done..|]. intros c [= <-]. auto. }
  eapply emits_seq; [apply emits_wallet|]. intros r l1 [-> [w ->]].
  destruct ((BasketBalance basket w).1) as [z|] eqn:Hz.
  - apply emits_ret. split_and!; [done..|]. intros c [= <-].
    split; [apply Z.div_pos; [by eapply typed|lia]|right]. by exists w, z.
  - intros k. exists []. by rewrite app_nil_r.
Qed.

(** The leaves of a round that splits chunks. *)
Lemma emits_mintLeaves cfg leaves :
  0 ≤ leaves < 2 ^ 64 →
  emits (mintLeaves stream canceled took cfg leaves)
    (yields (λ minted l, ∃ m, Z.of_nat m ≤ leaves ∧ l = replicate m (leafShape cfg) ∧
       minted = u64 (Z.of_nat m * FanoutOutputsPerTx cfg))).
Proof.
  intros Hl. eapply emits_seq; [apply emits_issue; simpl; lia|]. intros out l1 (m&Hm&->&Ho).
  apply emits_ret. eexists. split; [done|]. exists m. rewrite app_nil_r. split_and!; [lia|done|].
  by rewrite Ho.
Qed.
Lemma emits_mintRecycle cfg leaves :
  0 ≤ leaves < 2 ^ 64 →
  emits (mintRecycleLeaves stream canceled took cfg leaves)
    (yields (λ minted l, ∃ m, Z.of_nat m ≤ leaves ∧ l = replicate m (recycleShape cfg) ∧
       minted = u64 (Z.of_nat m * RecycleCount cfg))).
Proof.
  intros Hl. eapply emits_seq; [apply emits_issue; simpl; lia|]. intros out l1 (m&Hm&->&Ho).
  apply emits_ret. eexists. split; [done|]. exists m. rewrite app_nil_r. split_and!; [lia|done|].
  by rewrite Ho.
Qed.

(** What a round that splits chunks did: chunks it made, and leaves, no more than the
    [chunks] it found and those it made. *)
Definition chunk_round (cfg : Config) (leaves chunks : Z) (l : list ShapedChange) : Prop :=
  ∃ ns m, l = ((chunkShape cfg <$> ns) ++ replicate m (leafShape cfg))%list ∧
    Forall (λ n, 1 ≤ n) ns ∧ Z.of_nat m ≤ leaves ∧ Z.of_nat m ≤ chunks + foldr Z.add 0 ns.

Definition mint_provisioned (cfg : Config) (leaves chunks : Z) : KM W Z :=
  chunks ← provision stream canceled took cfg leaves (Z.to_nat (leaves - chunks)) chunks;
  mintLeaves stream canceled took cfg (if chunks <? leaves then chunks else leaves).

Lemma sum_pos ns : Forall (λ n, 1 ≤ n) ns → 0 ≤ foldr Z.add 0 ns.
Proof. induction 1; simpl; lia. Qed.

Lemma emits_provisioned cfg leaves chunks :
  0 < FanoutOutputsPerTx cfg → 0 ≤ leaves < 2 ^ 64 → 0 ≤ chunks →
  emits (mint_provisioned cfg leaves chunks) (λ o l, o ≠ Panic ∧ chunk_round cfg leaves chunks l).
Proof.
  intros HF Hl Hc. eapply emits_bind; [apply emits_provision; [done|lia..]| | |].
  - intros c l1 (ns&->&Hns&_&Hret). specialize (Hret c eq_refl). pose proof (sum_pos _ Hns).
    set (n := if c <? leaves then c else leaves).
    assert (0 ≤ n ≤ leaves ∧ n ≤ c) as [Hn1 Hn2] by (subst n; destruct (Z.ltb_spec c leaves); lia).
    eapply emits_weaken; [apply emits_mintLeaves; lia|]. intros o l2 (minted&->&m&Hm&->&_). split; [done|].
    exists ns, m. split_and!; [done|done|lia|lia].
  - intros e l (ns&->&Hns&_). pose proof (sum_pos _ Hns). split; [done|]. exists ns, 0%nat. rewrite app_nil_r.
    split_and!; [done|done|simpl; lia|simpl; lia].
  - by intros l (?&_&_&?&_).
Qed.

Lemma mintFromChunks_eq cfg leaves k :
  mintFromChunks stream canceled took cfg leaves k =
  (countClaimableCoins (ReserveBasket cfg) (chunkValueOf cfg) ≫= mint_provisioned cfg leaves) k.
Proof.
  rewrite /mintFromChunks /ensureChunks /mint_provisioned /mbind /M_bind.
  by destruct (countClaimableCoins _ _ k) as [[] ?].
Qed.

Lemma emits_chunks cfg leaves :
  0 < FanoutOutputsPerTx cfg → 0 ≤ leaves < 2 ^ 64 →
  emits (mintFromChunks stream canceled took cfg leaves) (λ o l, o ≠ Panic ∧ ∃ chunks, chunk_round cfg leaves chunks l).
Proof.
  intros HF Hl. eapply emits_eq; [apply mintFromChunks_eq|].
  assert (0 ≤ chunkValueOf cfg) by (by apply Z.mod_pos_bound).
  eapply emits_bind; [by apply emits_count| | |].
  - intros c l1 (->&_&Hc). destruct (Hc c eq_refl) as [Hc0 _].
    eapply emits_weaken; [by apply emits_provisioned|]. intros o l [? ?]. split; [done|]. by exists c.
  - intros e l (->&_). split; [done|]. exists 0, [], 0%nat. split_and!; [done|constructor|simpl; lia..].
  - by intros l (_&?&_).
Qed.

(** The body of a round from the deficit on. *)
Definition refill (cfg : Config) (inventory : Z) : KM W bool :=
  let deficit := u64 (fillTargetOf cfg - inventory) in
  leaves ← leavesFor stream cfg deficit (FanoutOutputsPerTx cfg);
  recycled ← tryRecycle stream canceled took cfg deficit;
  minted ← match recycled with
           | Some minted => mret minted
           | None => mintFromChunks stream canceled took cfg leaves
           end;
  mret ((0 <? minted) && (u64 (inventory + minted) <? lowWaterOf cfg)).

(** A pool measured at [inventory] does not grow past the fill target by a whole leaf,
    and no more leaves are made than the configuration allows. *)
Definition modest (cfg : Config) (inventory : Z) (l : list ShapedChange) : Prop :=
  inventory + minted_into (PoolBasket cfg) l
    < fillTargetOf cfg + Z.max (FanoutOutputsPerTx cfg) (RecycleCount cfg) ∧
  Z.of_nat (length (filter (λ s, sc_Basket s = PoolBasket cfg) l)) ≤ FanoutMaxTxsPerRound cfg.

Lemma water_marks cfg : sized cfg → lowWaterOf cfg ≤ fillTargetOf cfg < 2 ^ 56.
Proof.
  intros Hs. pose proof (sized_target _ Hs). pose proof (sized_water _ Hs).
  rewrite /lowWaterOf /fillTargetOf !Fee.Fee.u64_id; [|nia..]. split; [apply Z.div_le_mono; nia|].
  apply Z.div_lt_upper_bound; nia.
Qed.

Lemma modest_leaves cfg inventory m s w :
  sized cfg → inventory < fillTargetOf cfg → sc_Basket s = PoolBasket cfg → sc_Count s = w →
  0 < w ≤ Z.max (FanoutOutputsPerTx cfg) (RecycleCount cfg) →
  Z.of_nat m ≤ FanoutMaxTxsPerRound cfg → Z.of_nat m * w < fillTargetOf cfg - inventory + w →
  modest cfg inventory (replicate m s).
Proof.
  intros Hs Hi Hb Hc Hw Hm Hlt. split.
  - rewrite minted_into_replicate decide_True // Hc. lia.
  - replace (filter _ _) with (replicate m s); [by rewrite length_replicate|].
    clear -Hb. induction m as [|m IH]; [done|]. rewrite /= filter_cons_True // -IH //.
Qed.
Lemma modest_chunks cfg inventory ns l :
  PoolBasket cfg ≠ ReserveBasket cfg → modest cfg inventory l → modest cfg inventory ((chunkShape cfg <$> ns) ++ l)%list.
Proof.
  intros Hne Hl. induction ns as [|n ns IH]; [done|]. destruct IH as [IH1 IH2]. split.
  - simpl. by rewrite decide_False.
  - by rewrite /= filter_cons_False.
Qed.

Lemma emits_refill cfg inventory :
  sized cfg → PoolBasket cfg ≠ ReserveBasket cfg → 0 ≤ inventory < fillTargetOf cfg →
  emits (refill cfg inventory) (λ o l, o ≠ Panic ∧ modest cfg inventory l).
Proof.
  intros Hs Hne Hi. rewrite /refill. pose proof (water_marks cfg Hs) as Hw.
  pose proof (sized_outputs _ Hs). pose proof (sized_recycle _ Hs). pose proof (sized_round _ Hs).
  rewrite Fee.Fee.u64_id; [|lia]. set (d := fillTargetOf cfg - inventory) in *.
  assert (modest cfg inventory []) as Hnil by (split; simpl; lia).
  eapply emits_seq; [by apply emits_leavesFor; [|lia..]|]. intros leaves l1 (->&Hl&Hlw).
  eapply (emits_seq _ _ (λ r l, match r with Some _ => modest cfg inventory l | None => l = [] end)).
  - rewrite /tryRecycle. case_decide; [apply emits_ret; by eexists|].
    eapply emits_seq; [apply emits_wallet|]. intros coins l1 [-> _].
    destruct coins as [coins|]; [|apply emits_ret; by eexists].
    destruct (_ <=? coins); [|apply emits_ret; by eexists].
    eapply emits_seq; [by apply emits_leavesFor; [|lia..]|]. intros rl l1 (->&Hrl&Hrlw).
    eapply emits_seq; [apply emits_mintRecycle; lia|]. intros minted l1 (m&Hm&->&_).
    apply emits_ret. eexists. split; [done|]. rewrite !app_nil_r. simpl.
    eapply (modest_leaves cfg inventory m _ (RecycleCount cfg)); [done|lia|done|done|lia|lia|nia].
  - intros r l1 Hr. eapply (emits_bind _ _ (λ o l, o ≠ Panic ∧ modest cfg inventory (l1 ++ l)%list)).
    + destruct r as [minted|].
      * apply emits_ret. by rewrite app_nil_r.
      * subst l1. eapply emits_weaken; [apply emits_chunks; lia|].
        intros o l (Ho&chunks&ns&m&->&_&Hm&_). split; [done|]. simpl. apply modest_chunks; [done|].
        eapply (modest_leaves cfg inventory m _ (FanoutOutputsPerTx cfg)); [done|lia|done|done|lia|lia|nia].
    + intros minted l2 [_ Hm]. apply emits_ret. split; [done|]. by rewrite app_nil_r.
    + by intros e l [_ ?].
    + by intros l [? _].
Qed.

Lemma in_wallet_same {A} (f : W → A * W) k :
  k_fans (in_wallet f k).2 = k_fans k ∧ k_cfg (in_wallet f k).2 = k_cfg k.
Proof. rewrite /in_wallet. by destruct (f _). Qed.
Lemma round_body_eq k sats :
  sized (k_cfg k) → (BasketBalance (PoolBasket (k_cfg k)) (k_wallet k)).1 = Some sats →
  let inventory := sats / Denomination (k_cfg k) in
  round_body stream canceled took k =
    (if lowWaterOf (k_cfg k) <=? inventory then mret false else refill (k_cfg k) inventory)
      (in_wallet (BasketBalance (PoolBasket (k_cfg k))) k).2.
Proof.
  intros Hs Hb. pose proof (sized_denomination _ Hs).
  rewrite /round_body /snapshot /countClaimableCoins /gets {1}/mbind /M_bind.
  destruct (Z.eqb_spec (Denomination (k_cfg k)) 0); [lia|].
  rewrite /mbind /in_wallet. destruct (BasketBalance _ _) as [r w] eqn:Hw. simpl in *. subst r. done.
Qed.

(** C35: a top-up round never overshoots.  For a configuration in the sized range, with
    distinct pool and reserve baskets and a balance that could be read: whatever the
    wallet answers, whoever toggles the stream or cancels, a round ends with a result; if
    the pool is at low water or above, it fans out nothing; otherwise the coins it puts into the pool take the
    measured inventory past the fill target by less than one leaf, in no more leaves
    than [FanoutMaxTxsPerRound].  A round that is started while another one runs does
    nothing. *)
Theorem top_up_never_overshoots k sats :
  sized (k_cfg k) → PoolBasket (k_cfg k) ≠ ReserveBasket (k_cfg k) →
  (BasketBalance (PoolBasket (k_cfg k)) (k_wallet k)).1 = Some sats →
  let inventory := sats / Denomination (k_cfg k) in
  let r := runOnce stream canceled took k in
  r.1 ≠ Panic ∧ k_roundInFlight r.2 = k_roundInFlight k ∧
  ∃ new, k_fans r.2 = (k_fans k ++ new)%list ∧
    (k_roundInFlight k = true ∨ lowWaterOf (k_cfg k) ≤ inventory → new = []) ∧
    (inventory < lowWaterOf (k_cfg k) → modest (k_cfg k) inventory new).
Proof.
  intros Hs Hne Hb inventory r. pose proof (water_marks _ Hs) as Hw. pose proof (sized_round _ Hs).
  pose proof (sized_outputs _ Hs). pose proof (sized_denomination _ Hs).
  assert (0 ≤ inventory) by (apply Z.div_pos; [by eapply typed|lia]).
  assert (inventory < lowWaterOf (k_cfg k) → modest (k_cfg k) inventory []) as Hnil by (split; simpl; lia).
  subst r. rewrite /runOnce /mbind /M_bind /gets. destruct (k_roundInFlight k) eqn:Hf.
  { split_and!; [done..|]. exists []. by rewrite app_nil_r. }
  rewrite /set_flight /modify /guarded. set (k0 := mkKeeper _ _ _ _ _).
  rewrite (round_body_eq k0 sats Hs Hb). destruct (in_wallet_same (BasketBalance (PoolBasket (k_cfg k0))) k0) as [Hf1 _].
  set (k1 := (in_wallet _ k0).2) in *. clearbody k1. subst k0. simpl in *. fold inventory.
  destruct (Z.leb_spec (lowWaterOf (k_cfg k)) inventory).
  { split_and!; [done..|]. exists []. rewrite app_nil_r. split_and!; [done..|]. intros; lia. }
  destruct (emits_refill (k_cfg k) inventory Hs Hne ltac:(lia) k1) as (l&Hl&_&Hp&Hm).
  destruct (refill _ _ k1) as [o k2]. simpl in *. split_and!; [done..|]. exists l. rewrite Hl Hf1.
  split_and!; [done| |done]. intros [?|?]; [done|lia].
Qed.

(** a round that splits reserve chunks mints no more leaves than there are chunks:
    every leaf is backed by a chunk that the reserve was measured to hold or that this
    round has made, and the search for chunks ends. *)
Theorem leaf_per_chunk cfg leaves k sats :
  sized cfg → 0 ≤ leaves < 2 ^ 64 →
  (BasketBalance (ReserveBasket cfg) (k_wallet k)).1 = Some sats →
  let r := mintFromChunks stream canceled took cfg leaves k in
  r.1 ≠ Panic ∧ ∃ new, k_fans r.2 = (k_fans k ++ new)%list ∧
    chunk_round cfg leaves (sats / chunkValueOf cfg) new.
Proof.
  intros Hs Hl Hb r. subst r. rewrite mintFromChunks_eq. pose proof (chunkValue_nonzero _ Hs) as Hv.
  assert (0 ≤ chunkValueOf cfg) by (by apply Z.mod_pos_bound).
  rewrite /countClaimableCoins. destruct (Z.eqb_spec (chunkValueOf cfg) 0); [done|].
  rewrite /mbind /M_bind /in_wallet. destruct (BasketBalance _ _) as [z w] eqn:Hw. simpl in Hb. subst z. simpl.
  set (k1 := mkKeeper _ _ _ _ _).
  assert (0 ≤ sats) by (apply (typed (ReserveBasket cfg) (k_wallet k)); by rewrite Hw).
  destruct (emits_provisioned cfg leaves (sats / chunkValueOf cfg) ltac:(by apply sized_outputs) Hl
    ltac:(apply Z.div_pos; lia) k1) as (l&Hf&_&Hp&Hc). split; [done|]. by exists l.
Qed.
End rounds.

(** ** Progress *)

(** The satoshis the fan-outs put into a basket. *)
Definition value_into (basket : string) (l : list ShapedChange) : Z :=
  foldr (λ s acc, (if decide (sc_Basket s = basket) then Z.max 0 (sc_Count s * sc_Satoshis s) else 0) + acc) 0 l.
Lemma value_into_app b l1 l2 : value_into b (l1 ++ l2) = value_into b l1 + value_into b l2.
Proof. induction l1 as [|s l1 IH]; simpl; [done|]. rewrite IH. lia. Qed.
Lemma value_into_replicate b n s :
  sc_Basket s = b → value_into b (replicate n s) = Z.of_nat n * Z.max 0 (sc_Count s * sc_Satoshis s).
Proof. intros Hs. induction n as [|n IH]; simpl; [done|]. rewrite IH decide_True //. lia. Qed.
Lemma value_into_chunks b cfg ns :
  ReserveBasket cfg ≠ b → value_into b (chunkShape cfg <$> ns) = 0.
Proof. intros Hb. induction ns as [|n ns IH]; simpl; [done|]. rewrite IH decide_False //. Qed.

Section progress.
Context {W : Type} `{WalletAPI W}.
Context (stream : nat → bool) (took : nat → Z).
Abbreviation never := (λ _ : nat, false).

(** A wallet that makes every fan-out it is asked for, from funds outside the pool, and
    reports the balances it has. *)
Context (bal : W → string → Z) (pool : string).
Context (bal_typed : ∀ w b, 0 ≤ bal w b).
Context (balance_reported : ∀ w b, (BasketBalance b w).1 = Some (bal w b) ∧ bal (BasketBalance b w).2 pool = bal w pool).
Context (count_pure : ∀ w b, bal (BasketClaimableCount b w).2 pool = bal w pool).
Context (funded : ∀ s o w, (FanOutFuel s o w).1 = true).
Context (fan_adds : ∀ s o w, bal (FanOutFuel s o w).2 pool = bal w pool + value_into pool [s]).

(** [m] changes the pool's balance by its fan-outs alone. *)
Definition pool_gap (k : Keeper W) : Z := bal (k_wallet k) pool - value_into pool (k_fans k).
Definition stays {A} (m : KM W A) : Prop := ∀ k, pool_gap (m k).2 = pool_gap k.

Lemma stays_bind {A B} (m : KM W A) (f : A → KM W B) : stays m → (∀ a, stays (f a)) → stays (m ≫= f).
Proof.
  intros Hm Hf k. rewrite /mbind /M_bind. specialize (Hm k). destruct (m k) as [[a|e|] k1]; simpl in *; [|done..].
  by rewrite (Hf a k1).
Qed.
Lemma stays_ret {A} (a : A) : stays (mret a : KM W A).
Proof. done. Qed.
Lemma stays_throw {A} e : stays (throw e : KM W A).
Proof. done. Qed.
Lemma stays_panic {A} : stays (λ k, (Panic, k) : outcome kerror A * _).
Proof. done. Qed.
Lemma stays_gets {A} (f : Keeper W → A) : stays (gets f).
Proof. done. Qed.
Lemma stays_observe {A} (f : nat → A) : stays (observe f).
Proof. done. Qed.
Lemma stays_balance b : stays (in_wallet (BasketBalance b)).
Proof.
  intros k. rewrite /in_wallet. destruct (balance_reported (k_wallet k) b) as [_ Hb].
  destruct (BasketBalance b _). by rewrite /pool_gap /= Hb.
Qed.
Lemma stays_coins b : stays (in_wallet (BasketClaimableCount b)).
Proof.
  intros k. rewrite /in_wallet. pose proof (count_pure (k_wallet k) b) as Hb.
  destruct (BasketClaimableCount b _). by rewrite /pool_gap /= Hb.
Qed.
Lemma stays_fanOut cfg shape : stays (fanOut stream took cfg shape).
Proof.
  intros k. rewrite /fanOut /mbind /M_bind {1}/in_wallet.
  pose proof (funded shape (Originator cfg) (k_wallet k)) as Hf.
  pose proof (fan_adds shape (Originator cfg) (k_wallet k)) as Ha.
  destruct (FanOutFuel _ _ _) as [ok w]. simpl in *. subst ok. rewrite /= /pool_gap /= Ha value_into_app /=. lia.
Qed.

Ltac keep := repeat lazymatch goal with
  | |- stays (mret _) => apply stays_ret
  | |- stays (throw _) => apply stays_throw
  | |- stays (λ _, (Panic, _)) => apply stays_panic
  | |- stays (gets _) => apply stays_gets
  | |- stays (observe _) => apply stays_observe
  | |- stays (in_wallet (BasketBalance _)) => apply stays_balance
  | |- stays (in_wallet (BasketClaimableCount _)) => apply stays_coins
  | |- stays (fanOut _ _ _ _) => apply stays_fanOut
  | |- stays (_ ≫= _) => apply stays_bind; [|intros ?]
  | |- stays (match ?x with _ => _ end) => destruct x
  end.

Lemma stays_attempts cfg shape n first out : stays (mint_attempts stream never took cfg shape n first out).
Proof. revert first. induction n as [|n IH]; intros first; simpl; keep. by apply IH. Qed.
Lemma stays_issue cfg shape n leaves issued out :
  stays (issue stream never cfg (mint_attempts stream never took cfg shape n true) leaves issued out).
Proof.
  revert issued out. induction leaves as [|leaves IH]; intros issued out; simpl; keep; [apply stays_attempts|apply IH].
Qed.
Lemma stays_halve cfg fuel needed : stays (halve stream took cfg fuel needed).
Proof. revert needed. induction fuel as [|fuel IH]; intros needed; simpl; keep. by apply IH. Qed.
Lemma stays_provision cfg leaves fuel chunks : stays (provision stream never took cfg leaves fuel chunks).
Proof.
  revert chunks. induction fuel as [|fuel IH]; intros chunks; cbn [provision]; keep; [apply stays_halve|apply IH].
Qed.
Lemma stays_refill cfg inventory : stays (refill stream never took cfg inventory).
Proof.
  rewrite /refill /leavesFor /tryRecycle /mintFromChunks /ensureChunks /countClaimableCoins /mintLeaves
    /mintRecycleLeaves /leavesFor.
  keep; first [apply stays_issue|apply stays_provision].
Qed.

Lemma funded_fanOut cfg shape :
  emits (fanOut stream took cfg shape) (yields (λ ok l, ok = true ∧ l = [shape])).
Proof.
  intros k. destruct (emits_fanOut stream took cfg shape k) as (l&Hl&Hc&ok&Ho&Hok). exists l.
  split_and!; [done..|]. assert (ok = true) as ->; [|by exists true].
  revert Ho. rewrite /fanOut /mbind /M_bind {1}/in_wallet.
  pose proof (funded shape (Originator cfg) (k_wallet k)) as Hf.
  destruct (FanOutFuel _ _ _) as [ok' w]. simpl in *. subst ok'. by intros [= <-].
Qed.
Lemma funded_issue cfg shape n leaves out :
  0 < StreamLeafCap cfg → 0 ≤ lo_minted out ∧ lo_minted out + Z.of_nat (S leaves) < 2 ^ 64 →
  emits (issue stream never cfg (mint_attempts stream never took cfg shape (S n) true) (S leaves) 0 out)
    (yields (λ _ l, ∃ m, l = replicate (S m) shape)).
Proof.
  intros Hcap Hb. cbn [issue]. eapply emits_seq; [apply emits_observe|]. intros stop l1 (->&?&->).
  eapply emits_seq; [apply emits_observe|]. intros active l1 [-> _].
  destruct (Z.leb_spec (StreamLeafCap cfg) 0); [lia|]. rewrite andb_false_r.
  eapply (emits_seq _ _ (λ o l, lo_minted o = lo_minted out + 1 ∧ l = [shape])).
  { cbn [mint_attempts]. eapply (emits_seq _ _ (λ b l, b = false ∧ l = [])); [apply emits_ret; by eexists|].
    intros stop l1 [-> ->]. eapply emits_seq; [apply funded_fanOut|]. intros ok l1 [-> ->].
    apply emits_ret. eexists. split_and!; [done| |done]. simpl. rewrite Fee.Fee.u64_id; lia. }
  intros o l1 [Ho ->]. eapply emits_weaken; [apply emits_issue; lia|].
  intros r l (o'&->&m&_&->&_). eexists. split; [done|]. by exists m.
Qed.
Lemma funded_halve cfg fuel needed :
  1 ≤ needed < 2 ^ Z.of_nat (S fuel) →
  emits (halve stream took cfg fuel needed) (yields (λ got l, got = Some needed ∧ l = [chunkShape cfg needed])).
Proof.
  intros Hn. destruct fuel; cbn [halve]; destruct (Z.ltb_spec 1 needed).
  1: { simpl in Hn. lia. }
  2: { eapply emits_seq; [apply funded_fanOut|]. intros ok l1 [-> ->]. apply emits_ret. by eexists. }
  all: assert (needed = 1) as -> by lia; eapply emits_seq; [apply funded_fanOut|]; intros ok l1 [-> ->];
    apply emits_ret; by eexists.
Qed.
Lemma funded_provision cfg leaves fuel chunks :
  0 < FanoutOutputsPerTx cfg → leaves < 2 ^ 64 → 0 ≤ chunks → leaves - chunks ≤ Z.of_nat fuel →
  emits (provision stream never took cfg leaves fuel chunks)
    (yields (λ c l, leaves ≤ c ∧ ∃ ns, l = chunkShape cfg <$> ns)).
Proof.
  intros HF Hl. revert chunks. induction fuel as [|fuel IH]; intros chunks Hc Hfuel; cbn [provision];
    destruct (Z.ltb_spec chunks leaves); try lia.
  1,3: apply emits_ret; eexists; split; [done|]; split; [lia|]; by exists [].
  eapply emits_seq; [apply emits_observe|]. intros stop l1 (->&?&->).
  rewrite (Fee.Fee.u64_id (leaves - chunks)); [|lia]. set (needed := if _ : bool then _ else _).
  assert (1 ≤ needed ≤ leaves - chunks) as Hn.
  { subst needed. destruct (Z.ltb_spec (FanoutOutputsPerTx cfg) (leaves - chunks)); lia. }
  eapply emits_seq; [apply funded_halve; split; [lia|]|].
  { assert (2 ^ 64 ≤ 2 ^ Z.of_nat 65) by by apply Z.pow_le_mono_r. lia. }
  intros got l1 [-> ->]. rewrite Fee.Fee.u64_id; [|lia]. eapply emits_weaken; [apply IH; lia|].
  intros o l (c&->&Hlc&ns&->). eexists. split; [done|]. split; [done|]. by exists (needed :: ns).
Qed.

Lemma leavesFor_pos cfg deficit width :
  sized cfg → 0 < FanoutMaxTxsPerRound cfg → 1 ≤ deficit → 0 < width → deficit + width < 2 ^ 64 →
  emits (W := W) (leavesFor stream cfg deficit width) (yields (λ leaves l, l = [] ∧ 1 ≤ leaves < 2 ^ 64)).
Proof.
  intros Hs Hmax Hd Hw Hb. pose proof (sized_round _ Hs). pose proof (sized_cap _ Hs).
  rewrite /leavesFor Fee.Fee.u64_id; [|lia].
  assert (1 ≤ (deficit + width - 1) / width) by (apply Z.div_le_lower_bound; lia).
  set (n := (deficit + width - 1) / width) in *.
  eapply emits_seq; [apply emits_observe|]. intros active l1 [-> _]. apply emits_ret. eexists. split; [done|].
  split; [done|]. destruct (Z.ltb_spec (FanoutMaxTxsPerRound cfg) n), active; simpl;
    repeat match goal with |- context [?a <? ?b] => destruct (Z.ltb_spec a b) end; lia.
Qed.
Lemma leaf_value cfg m s :
  sized cfg → sc_Basket s = pool → sc_Satoshis s = Denomination cfg → 0 < sc_Count s →
  Denomination cfg ≤ value_into pool (replicate (S m) s).
Proof.
  intros Hs Hb Hd Hc. pose proof (sized_denomination _ Hs). rewrite value_into_replicate // Hd.
  assert (Denomination cfg ≤ sc_Count s * Denomination cfg) by nia. nia.
Qed.

Lemma funded_recycle cfg deficit :
  sized cfg → PoolBasket cfg = pool → 0 < FanoutMaxTxsPerRound cfg → 1 ≤ deficit < 2 ^ 56 →
  emits (tryRecycle stream never took cfg deficit)
    (yields (λ r l, if r is Some _ then Denomination cfg ≤ value_into pool l else l = [])).
Proof.
  intros Hs Hpool Hmax Hd. pose proof (sized_recycle _ Hs). rewrite /tryRecycle.
  case_decide; [apply emits_ret; by eexists|].
  eapply emits_seq; [apply emits_wallet|]. intros coins l1 [-> _].
  destruct coins as [coins|]; [|apply emits_ret; by eexists].
  destruct (_ <=? coins); [|apply emits_ret; by eexists].
  eapply emits_seq; [by apply leavesFor_pos; [..|lia|lia|lia]|]. intros rl l1 (->&Hrl).
  rewrite /mintRecycleLeaves. replace (Z.to_nat rl) with (S (Z.to_nat (rl - 1))) by lia.
  eapply (emits_seq _ _ (λ _ l, Denomination cfg ≤ value_into pool l)).
  { eapply emits_seq; [apply funded_issue; [by apply sized_cap|simpl; lia]|]. intros out l1 [m ->].
    apply emits_ret. eexists. split; [done|]. rewrite app_nil_r. apply leaf_value; [done..|simpl; lia]. }
  intros minted l1 Hv. apply emits_ret. eexists. split; [done|]. by rewrite app_nil_r.
Qed.
Lemma funded_chunks cfg leaves :
  sized cfg → PoolBasket cfg = pool → ReserveBasket cfg ≠ pool → 1 ≤ leaves < 2 ^ 64 →
  emits (mintFromChunks stream never took cfg leaves) (yields (λ _ l, Denomination cfg ≤ value_into pool l)).
Proof.
  intros Hs Hpool Hne Hl. pose proof (chunkValue_nonzero _ Hs) as Hv.
  assert (0 ≤ chunkValueOf cfg) by (by apply Z.mod_pos_bound). pose proof (sized_outputs _ Hs).
  eapply emits_eq; [apply mintFromChunks_eq|].
  eapply (emits_seq _ _ (λ c l, l = [] ∧ 0 ≤ c)).
  { rewrite /countClaimableCoins. destruct (Z.eqb_spec (chunkValueOf cfg) 0); [done|].
    eapply emits_seq; [apply emits_wallet|]. intros r l1 (->&w&->).
    destruct (balance_reported w (ReserveBasket cfg)) as [-> _]. apply emits_ret. eexists. split_and!; [done..|].
    apply Z.div_pos; [apply bal_typed|lia]. }
  intros c l1 [-> Hc]. rewrite /mint_provisioned.
  eapply emits_seq; [apply funded_provision; lia|]. intros c' l1 (Hc'&ns&->).
  destruct (Z.ltb_spec c' leaves); [lia|]. rewrite /mintLeaves.
  replace (Z.to_nat leaves) with (S (Z.to_nat (leaves - 1))) by lia.
  eapply emits_seq; [apply funded_issue; [by apply sized_cap|simpl; lia]|]. intros out l1 [m ->].
  apply emits_ret. eexists. split; [done|]. rewrite app_nil_r /= value_into_app value_into_chunks //.
  apply leaf_value; [done..|simpl; lia].
Qed.
Lemma funded_refill cfg inventory :
  sized cfg → PoolBasket cfg = pool → ReserveBasket cfg ≠ pool → 0 < FanoutMaxTxsPerRound cfg →
  0 ≤ inventory < fillTargetOf cfg →
  emits (refill stream never took cfg inventory) (yields (λ _ l, Denomination cfg ≤ value_into pool l)).
Proof.
  intros Hs Hpool Hne Hmax Hi. pose proof (water_marks cfg Hs) as Hw. pose proof (sized_outputs _ Hs).
  rewrite /refill Fee.Fee.u64_id; [|lia]. eapply emits_seq; [by apply leavesFor_pos; [..|lia|lia|lia]|].
  intros leaves l1 (->&Hl). eapply emits_seq; [by apply funded_recycle; [..|lia]|]. intros r l1 Hr.
  eapply (emits_seq _ _ (λ _ l, Denomination cfg ≤ value_into pool (l1 ++ l))).
  - destruct r as [minted|]; [apply emits_ret; eexists; by rewrite app_nil_r|]. subst l1. by apply funded_chunks.
  - intros minted l2 Hv. apply emits_ret. eexists. split; [done|]. by rewrite app_nil_r.
Qed.

(** The coins of the pool, as the keeper counts them. *)
Definition stock (k : Keeper W) : Z := bal (k_wallet k) pool / Denomination (k_cfg k).

Lemma run_round_progress k :
  sized (k_cfg k) → PoolBasket (k_cfg k) = pool → ReserveBasket (k_cfg k) ≠ pool →
  0 < FanoutMaxTxsPerRound (k_cfg k) → k_roundInFlight k = false → stock k < lowWaterOf (k_cfg k) →
  ∃ wait k', run_round stream never took k = (Ret wait, k') ∧
    k_cfg k' = k_cfg k ∧ k_roundInFlight k' = false ∧ stock k + 1 ≤ stock k'.
Proof.
  intros Hs Hpool Hne Hmax Hf Hlow. pose proof (water_marks _ Hs). pose proof (sized_denomination _ Hs) as Hd.
  assert (0 ≤ stock k) by (apply Z.div_pos; [apply bal_typed|lia]).
  rewrite /run_round /runOnce /mbind /M_bind /gets Hf /set_flight /modify /guarded.
  set (k0 := mkKeeper _ _ _ _ _). destruct (balance_reported (k_wallet k) pool) as [Hrep _].
  rewrite (round_body_eq _ _ _ k0 (bal (k_wallet k) pool)); [|done|by rewrite /= Hpool].
  destruct (in_wallet_same (BasketBalance (PoolBasket (k_cfg k0))) k0) as [Hf1 Hc1].
  pose proof (stays_balance (PoolBasket (k_cfg k0)) k0) as Hg1.
  set (k1 := (in_wallet _ k0).2) in *. clearbody k1. subst k0. simpl in Hf1, Hc1. cbn [k_cfg]. fold (stock k).
  destruct (Z.leb_spec (lowWaterOf (k_cfg k)) (stock k)); [lia|].
  destruct (funded_refill (k_cfg k) (stock k) Hs Hpool Hne Hmax ltac:(lia) k1) as (l&Hl&Hc2&b&Ho&Hv).
  pose proof (stays_refill (k_cfg k) (stock k) k1) as Hg2.
  destruct (refill _ _ _ _ _ k1) as [o k2]. simpl in *. subst o. eexists _, _. split_and!; [done|simpl; congruence|done|].
  rewrite /stock /= Hc2 Hc1. rewrite /pool_gap Hl Hf1 value_into_app in Hg2. rewrite /pool_gap Hf1 /= in Hg1.
  replace (bal (k_wallet k) pool / _ + 1) with ((bal (k_wallet k) pool + 1 * Denomination (k_cfg k)) / Denomination (k_cfg k))
    by (rewrite Z.div_add; lia).
  apply Z.div_le_mono; lia.
Qed.

(** C36: the keeper refills the pool.  With a wallet that makes the fan-outs it is asked
    for and reports its balances, and with nobody spending from the pool, as many rounds
    as there are coins missing bring the pool to its low-water mark, whatever the stream
    flag does meanwhile. *)
Theorem keeper_refills k :
  sized (k_cfg k) → PoolBasket (k_cfg k) = pool → ReserveBasket (k_cfg k) ≠ pool →
  0 < FanoutMaxTxsPerRound (k_cfg k) → k_roundInFlight k = false →
  ∃ n, Z.of_nat n ≤ Z.max 0 (lowWaterOf (k_cfg k) - stock k) ∧
    (Run stream never took n k).1 = Ret () ∧ lowWaterOf (k_cfg k) ≤ stock (Run stream never took n k).2.
Proof.
  intros Hs Hpool Hne Hmax Hf. remember (Z.to_nat (lowWaterOf (k_cfg k) - stock k)) as d eqn:Hd.
  revert k Hs Hpool Hne Hmax Hf Hd. induction (lt_wf d) as [d _ IH]. intros k Hs Hpool Hne Hmax Hf Hd.
  destruct (Z.le_gt_cases (lowWaterOf (k_cfg k)) (stock k)) as [Hle|Hlt].
  { exists 0%nat. simpl. split_and!; [lia|done|done]. }
  destruct (run_round_progress k Hs Hpool Hne Hmax Hf Hlt) as (wait&k'&Hrun&Hc&Hf'&Hst).
  set (k2 := (observe never k').2).
  assert (stock k2 = stock k') as Hk2 by done. assert (k_cfg k2 = k_cfg k) as Hc2 by done.
  destruct (IH (Z.to_nat (lowWaterOf (k_cfg k2) - stock k2)) ltac:(rewrite Hk2 Hc2; lia) k2) as (n&Hn&Hr&Hl);
    rewrite ?Hc2 //.
  rewrite Hk2 Hc2 in Hn Hl. exists (S n). cbn [Run]. rewrite /mbind /M_bind Hrun. split_and!; [lia|exact Hr|exact Hl].
Qed.
End progress.
End Keeper.

(** ** Examples *)

Module KeeperExample.
Import Keeper.

(** A wallet with funds for every fan-out. *)
Definition purse : Type := gmap string Z.
Definition held (w : purse) (b : string) : Z := Z.max 0 (default 0 (w !! b)).
#[local] Instance purse_api : WalletAPI purse := {|
  BasketBalance b w := (Some (held w b), w);
  BasketClaimableCount b w := (Some (held w b), w);
  FanOutFuel s o w :=
    (true, <[sc_Basket s := held w (sc_Basket s) + Z.max 0 (sc_Count s * sc_Satoshis s)]> w);
|}.

Lemma purse_typed b (w : purse) z : (BasketBalance b w).1 = Some z → 0 ≤ z.
Proof. intros [= <-]. rewrite /held. lia. Qed.
Lemma purse_adds pool s o (w : purse) : held (FanOutFuel s o w).2 pool = held w pool + value_into pool [s].
Proof.
  rewrite /value_into /= {1}/held. case_decide as Hb.
  - rewrite Hb lookup_insert_eq /=. pose proof (purse_typed pool w _ eq_refl). lia.
  - rewrite lookup_insert_ne // -/(held w pool). lia.
Qed.

Definition throughput : Config.Throughput := Config.um_Throughput Config.DefaultUTXOManagement.
Definition cfg : Config :=
  match FromThroughput (H := external_std) (H0 := Monitor.must_std) throughput 237 with
  | Ret c => with_defaults c
  | _ => mkConfig 0 0 0 0 0 0 "" "" 0 0 "" 0 0 false 0 "" 0
  end.
Definition keeper : Keeper purse :=
  match New (Some (∅ : purse)) cfg with Ret k => k | _ => mkKeeper ∅ cfg true 0 [] end.
Definition odd_stream (n : nat) : bool := Nat.odd n.

Lemma cfg_sized : sized cfg.
Proof. by split; vm_compute. Qed.

Lemma top_up_never_overshoots_witness :
  let r := runOnce odd_stream (λ n, 900 <? Z.of_nat n) (λ _, 0) keeper in
  r.1 ≠ Panic ∧ k_roundInFlight r.2 = k_roundInFlight keeper ∧
  ∃ new, k_fans r.2 = (k_fans keeper ++ new)%list ∧
    (k_roundInFlight keeper = true ∨ lowWaterOf (k_cfg keeper) ≤ 0 / Denomination (k_cfg keeper) → new = []) ∧
    (0 / Denomination (k_cfg keeper) < lowWaterOf (k_cfg keeper) →
       modest (k_cfg keeper) (0 / Denomination (k_cfg keeper)) new).
Proof.
  apply (top_up_never_overshoots odd_stream _ (λ _, 0) purse_typed keeper 0).
  - exact cfg_sized.
  - by vm_compute.
  - by vm_compute.
Defined.

Lemma leaf_per_chunk_witness :
  let r := mintFromChunks odd_stream (λ n, 900 <? Z.of_nat n) (λ _, 0) cfg 7 keeper in
  r.1 ≠ Panic ∧ ∃ new, k_fans r.2 = (k_fans keeper ++ new)%list ∧ chunk_round cfg 7 (0 / chunkValueOf cfg) new.
Proof.
  apply (leaf_per_chunk odd_stream _ (λ _, 0) purse_typed cfg 7 keeper 0).
  - exact cfg_sized.
  - lia.
  - by vm_compute.
Defined.

Lemma keeper_refills_witness :
  ∃ n, Z.of_nat n ≤ Z.max 0 (lowWaterOf (k_cfg keeper) - stock held "fuel" keeper) ∧
    (Run odd_stream (λ _, false) (λ _, 0) n keeper).1 = Ret () ∧
    lowWaterOf (k_cfg keeper) ≤ stock held "fuel" (Run odd_stream (λ _, false) (λ _, 0) n keeper).2.
Proof.
  apply (keeper_refills odd_stream (λ _, 0) held "fuel").
  - intros w b. by apply (purse_typed b w).
  - done.
  - done.
  - done.
  - intros s o w. apply purse_adds.
  - exact cfg_sized.
  - by vm_compute.
  - by vm_compute.
  - by vm_compute.
  - by vm_compute.
Defined.

(** A chunk need not cover its leaf.  With a thousand outputs per leaf, in a configuration
    that passes validation, the chunk the keeper asks for is smaller than the leaf's
    outputs and its fee at the default rate. *)
Definition wide : Config.Throughput :=
  let t := throughput in
  Config.mkThroughput (Config.ExpectedTxSizeBytes t) (Config.ExpectedOutputSatoshis t)
    (Config.DenominationSatoshis t) (Config.TargetTPS t) (Config.ExpectedConfirmationSeconds t)
    (Config.PoolHeadroomFactor t) (Config.TargetPoolSize t) (Config.LowWaterPercent t)
    (Config.HighWaterPercent t) (Config.SpendPolicy t) (Config.PoolBasket t) (Config.ReserveBasket t)
    (Config.RecycleChangeToPool t) 1000 (Config.FanoutMaxTxsPerRound t) (Config.FanoutTreeDepth t)
    (Config.ConsolidationInputsPerTx t) (Config.TopUp t).
#[local] Existing Instance external_std.
#[local] Existing Instance Monitor.must_std.
Definition no_commission : Config.Commission := Config.mkCommission 0 "".
Definition leaf_size : Z :=
  Fee.TransactionSizeFromScriptLengths [Fee.P2PKHUnlockingScriptLength]
    (replicate 1000 Fee.P2PKHLockingScriptLength).

Lemma chunk_headroom_too_small :
  (Config.Throughput_validate Fee.DefaultFeeModel no_commission wide).1 = None ∧
  ∃ denomination c fc fee, Config.Denomination wide Fee.DefaultFeeModel no_commission = Ret denomination ∧
    FromThroughput wide denomination = Ret c ∧
    Fee.newFeeCalculator Fee.DefaultFeeModel = Ret fc ∧ Fee.Calculate fc leaf_size = Ret fee ∧
    chunkValueOf c < FanoutOutputsPerTx c * denomination + fee.
Proof.
  split; [by vm_compute|]. eexists _, _, _, _.
  split_and!; [vm_compute; reflexivity|vm_compute; reflexivity|vm_compute; reflexivity|vm_compute; reflexivity|].
  by vm_compute.
Qed.

(** A target that [SetTargetPoolSize] takes can wrap the low-water mark to zero. *)
Lemma target_wraps_low_water :
  ∃ k, SetTargetPoolSize (2 ^ 63) keeper = (Ret (), k) ∧ lowWaterOf (k_cfg k) = 0.
Proof. eexists. split; [reflexivity|]. by vm_compute. Qed.
End KeeperExample.
