(* ===== verification/Validate.v ===== *)
(** * Validate: the checks on requests before storage sees them

    [pkg/internal/validate], one definition per function.  A request the code takes by
    pointer and tests for nil is an option.  The generic helpers [is.UniqueSlice],
    [is.Between] and [seq.Every] are [IsLib]; keys and scripts belong to the SDK
    ([KeyLib], [AtomicSdk]). *)
From Stdlib Require Import Ascii String.
From S2P Require Import Prelude UtxoTypes MemStore Statuses GoStrings Satoshi Primitives External Fee KnownTx Catalog Ledger.
From S2P Require Import Requests StatusUpdates Process Beef Create.
Import GoStrings Encoding Primitives WdkStatus ArcadeStatus KnownTxRepo StatusUpdates Process Create Requests.
Local Open Scope string_scope.
Local Open Scope Z_scope.

Class IsLib := {
  UniqueSlice : list OutPoint → bool;
  Between : Z → Z → Z → bool;
  Every : ∀ {A}, list A → (A → bool) → bool;
}.
Class IsLibLaws (I : IsLib) : Prop := {
  UniqueSlice_NoDup : ∀ l, UniqueSlice l = true ↔ NoDup l;
  Between_closed : ∀ v lo hi, lo ≤ hi → Between v lo hi = true ↔ lo ≤ v ≤ hi;
  Every_Forall : ∀ A (l : list A) f, Every l f = true ↔ Forall (λ x, f x = true) l;
}.

(** A public key, and the lock script a payment to this wallet must carry
    ([brc29.LockForSelf]: sender, prefix, suffix). *)
Class KeyLib := {
  Key : Type;
  ToDERHex : Key → string;
  Key_Validate : Key → bool;
  LockForSelf : string → string → string → option Bytes;
  AcquisitionProtocolDirect : string;
}.

(** BEEFs that name one of their transactions.  [Beef_Verify tracker b allow]: the
    BEEF's roots, checked with the chain tracker; [None] is an error. *)
Class AtomicSdk `{BeefSdk} := {
  NewBeefFromAtomicBytes : Bytes → option (Beef * Hash);
  FindAtomicTransactionByHash : Beef → Hash → option SourceTx;
  FindBumpByHash : Beef → Hash → option MerklePath;
  Beef_Verify : (Hash → Z → option bool) → Beef → bool → option bool;
}.

Module Validate.

Definition MaxPaginationLimit : Z := 10000.
Definition MaxPaginationOffset : Z := 1000000.
Definition MinPaginationLimit : Z := 1.

(** ** Creating *)

Definition validateCreateActionInput (input : ValidCreateActionInput) : verdict :=
  _ ← fail_if (bool_decide (ci_UnlockingScript input = None ∧ ci_UnlockingScriptLength input = None))
        "at least one of unlockingScript, unlockingScriptLength must be set";
  _ ← match ci_UnlockingScript input with
      | Some s =>
          _ ← wrap "unlockingScript must be " (HexString_Validate s);
          match ci_UnlockingScriptLength input with
          | Some n => fail_if (negb (slen s =? n)) "unlockingScriptLength must match provided unlockingScript length"
          | None => valid
          end
      | None => valid
      end;
  wrap "inputDescription must be " (String5to2000Bytes_Validate (ci_InputDescription input)).
Definition validateCreateActionOutput (output : ValidCreateActionOutput) : verdict :=
  _ ← wrap "lockingScript must be " (HexString_Validate (co_LockingScript output));
  _ ← wrap "satoshis must be " (SatoshiValue_Validate (co_Satoshis output));
  _ ← wrap "outputDescription must be " (String5to2000Bytes_Validate (co_OutputDescription output));
  _ ← match co_Basket output with Some b => wrap "basket must be " (StringUnder300_Validate b) | None => valid end;
  each_valid "tag must be " StringUnder300_Validate (co_Tags output).
Fixpoint validate_inputs (seen : list OutPoint) (inputs : list ValidCreateActionInput) : verdict :=
  match inputs with
  | [] => valid
  | input :: rest =>
      _ ← wrap "txid from outpoint in input is invalid: " (HexString_Validate (op_TxID (ci_Outpoint input)));
      _ ← fail_if (bool_decide (ci_Outpoint input ∈ seen)) "duplicate input outpoint";
      _ ← wrap "invalid input: " (validateCreateActionInput input);
      validate_inputs (ci_Outpoint input :: seen) rest
  end.

Section create.
Context `{IsLib}.

Definition WalletCreateActionArgs (args : ValidCreateActionArgs) : verdict :=
  _ ← wrap "the description parameter must be " (String5to2000Bytes_Validate (ca_Description args));
  _ ← each_valid "label must be " StringUnder300_Validate (ca_Labels args);
  _ ← validate_inputs [] (ca_Inputs args);
  _ ← each_valid "invalid output: " validateCreateActionOutput (ca_Outputs args);
  _ ← fail_if (negb (ca_IsNewTx args) && bool_decide (ca_SendWith args = []))
        "IsNewTx is false but no sendWith arguments provided";
  _ ← fail_if (negb (ca_IsNoSend args) && bool_decide (ca_NoSendChange args ≠ []))
        "NoSendChange outputs are supported only with IsNoSend flag";
  fail_if (ca_IsNoSend args && bool_decide (ca_NoSendChange args ≠ []) && negb (UniqueSlice (ca_NoSendChange args)))
    "duplicated outpoints in Options.NoSendChange".

Definition ValidCreateActionArgs_ (args : ValidCreateActionArgs) : verdict :=
  _ ← WalletCreateActionArgs args;
  let deducedIsSendWith := bool_decide (ca_SendWith args ≠ []) in
  _ ← fail_if (negb (Bool.eqb (ca_IsSendWith args) deducedIsSendWith)) "inconsistent IsSendWith with Options.SendWith";
  let deducedIsRemixChange :=
    negb (ca_IsSendWith args) && bool_decide (ca_Inputs args = []) && bool_decide (ca_Outputs args = []) in
  _ ← fail_if (negb (Bool.eqb (ca_IsRemixChange args) deducedIsRemixChange))
        "inconsistent IsRemixChange with IsSendWith and Inputs and Outputs";
  let deducedIsNewTx :=
    ca_IsRemixChange args || bool_decide (ca_Inputs args ≠ []) || bool_decide (ca_Outputs args ≠ []) in
  _ ← fail_if (negb (Bool.eqb (ca_IsNewTx args) deducedIsNewTx))
        "inconsistent IsNewTx with IsRemixChange and Inputs and Outputs";
  _ ← fail_if (negb (ca_IsNewTx args)) "create action is meant to create a new transaction";
  let deducedIsSignAction := ca_IsNewTx args && negb (BooleanDefaultTrue_Value (ca_SignAndProcess args)) in
  _ ← fail_if (deducedIsSignAction && negb (ca_IsSignAction args)) "inconsistent IsSignAction";
  _ ← fail_if (negb (Bool.eqb (ca_IsDelayed args) (BooleanDefaultTrue_Value (ca_AcceptDelayedBroadcast args))))
        "inconsistent IsDelayed with Options.AcceptDelayedBroadcast";
  fail_if (negb (Bool.eqb (ca_IsNoSend args) (BooleanDefaultFalse_Value (ca_NoSend args))))
    "inconsistent IsNoSend with Options.NoSend".

(** ** Processing and aborting *)

Definition ProcessActionArgs_ (args : ProcessActionArgs) : verdict :=
  _ ← fail_if (pa_IsSendWith args && bool_decide (pa_SendWith args = []))
        "IsSendWith is true but no sendWith arguments provided";
  _ ← (if pa_IsNewTx args then
         _ ← fail_if (bool_decide (pa_Reference args = None)) "missing reference argument for new transaction";
         _ ← fail_if (bool_decide (pa_RawTx args = [])) "missing rawTx argument for new transaction";
         fail_if (bool_decide (pa_TxID args = None)) "missing txID argument for new transaction"
       else valid);
  match pa_TxID args with Some t => wrap "invalid txID argument: " (HexString_Validate t) | None => valid end.
Definition NotDelayedProcessActionResult (result : ProcessActionResult) : verdict :=
  if bool_decide (pr_NotDelayedResults result = []) || bool_decide (pr_SendWithResults result = []) then valid
  else if Every (pr_SendWithResults result) (λ it, bool_decide (sw_Status it = SendWithResultStatusUnproven)) then valid
  else Err "unexpected not delayed results when send with results are not all unproven".
(** [AbortActionArgs] has one field. *)
Definition ValidAbortActionArgs (reference : option string) : verdict :=
  match reference with
  | None => Err "args cannot be nil"
  | Some r =>
      _ ← fail_if (bool_decide (r = "")) "missing reference argument for abort action";
      wrap "invalid reference format: " (Base64String_Validate r)
  end.

(** ** Originators *)

Definition normalizeOriginator (originator : string) : string :=
  string_of_list_ascii (ToLower (TrimSpace (list_ascii_of_string originator))).
Definition Originator (originator : string) : verdict :=
  if decide (originator = "") then valid
  else
    let originator := normalizeOriginator originator in
    _ ← fail_if (negb (Between (slen originator) 1 250)) "originator must be between 1 and 250 bytes";
    let parts := Split "."%char (list_ascii_of_string originator) in
    if Nat.eqb (length parts) 1 then valid
    else each_valid "" (λ part : text, fail_if (negb (Between (Z.of_nat (length part)) 1 63))
                                         "originator part must be between 1 and 63 bytes") parts.
End create.

(** ** Listing *)

Definition validateListActionsPagination (args : ListActionsArgs) : verdict :=
  _ ← fail_if (MaxPaginationLimit <? la_Limit args) "limit must be less than or equal to 10000";
  fail_if (MaxPaginationOffset <? la_Offset args) "offset must be less than or equal to 1000000".
Definition validateLabel (label : string) : verdict :=
  fail_if ((slen label =? 0) || (300 <? slen label)) "label must be 1-300 characters".
Definition validateListActionsLabels (labels : list string) : verdict :=
  _ ← each_valid "invalid label: " validateLabel labels;
  _ ← Brc114.ParseActionTimeLabels labels;
  valid.
(** The include flags of both listings: inputs, outputs, unlocking scripts, source
    scripts, output scripts. *)
Definition include_flags (inputs outputs unlocking source locking : option bool) : verdict :=
  _ ← (if BooleanDefaultFalse_Value inputs then valid
       else _ ← fail_if (BooleanDefaultFalse_Value unlocking)
                  "includeInputUnlockingScripts cannot be true when includeInputs is false";
            fail_if (BooleanDefaultFalse_Value source)
              "includeInputSourceLockingScripts cannot be true when includeInputs is false");
  fail_if (negb (BooleanDefaultFalse_Value outputs) && BooleanDefaultFalse_Value locking)
    "includeOutputLockingScripts cannot be true when includeOutputs is false".
Definition validateListActionsIncludeFlags (args : ListActionsArgs) : verdict :=
  include_flags (la_IncludeInputs args) (la_IncludeOutputs args) (la_IncludeInputUnlockingScripts args)
    (la_IncludeInputSourceLockingScripts args) (la_IncludeOutputLockingScripts args).
Definition ListActionsArgs_ (args : option ListActionsArgs) : verdict :=
  match args with
  | None => Err "args cannot be nil"
  | Some args =>
      _ ← wrap "invalid labelQueryMode: " (QueryMode_Validate (la_LabelQueryMode args));
      _ ← validateListActionsPagination args;
      _ ← validateListActionsLabels (la_Labels args);
      _ ← fail_if (negb (BooleanDefaultTrue_Value (la_SeekPermission args)))
            "operation not allowed without permission (seekPermission=false)";
      validateListActionsIncludeFlags args
  end.
Definition ListFailedActionsArgs_ (args : option ListFailedActionsArgs) : verdict :=
  match args with
  | None => Err "args cannot be nil"
  | Some args =>
      _ ← fail_if (MaxPaginationLimit <? lf_Limit args) "limit must be less than or equal to 10000";
      _ ← fail_if (MaxPaginationOffset <? lf_Offset args) "offset must be less than or equal to 1000000";
      _ ← fail_if (negb (BooleanDefaultTrue_Value (lf_SeekPermission args)))
            "operation not allowed without permission (seekPermission=false)";
      include_flags (lf_IncludeInputs args) (lf_IncludeOutputs args) (lf_IncludeInputUnlockingScripts args)
        (lf_IncludeInputSourceLockingScripts args) (lf_IncludeOutputLockingScripts args)
  end.
Definition ListOutputsArgs_ (args : option ListOutputsArgs) : verdict :=
  match args with
  | None => Err "args cannot be nil"
  | Some args =>
      _ ← wrap "invalid tagQueryMode: " (QueryMode_Validate (lo_TagQueryMode args));
      _ ← fail_if (lo_Limit args <? MinPaginationLimit) "limit must be greater than 0";
      _ ← fail_if (MaxPaginationLimit <? lo_Limit args) "limit exceeds max allowed value of 10000";
      _ ← fail_if (MaxPaginationOffset <? lo_Offset args) "offset is too large";
      each_valid "invalid txid: " HexString_Validate (lo_KnownTxids args)
  end.

(** ** Baskets, outputs and synchronization *)

Definition ValidBasketConfiguration (config : Catalog.BasketConfiguration) : verdict :=
  _ ← wrap "invalid Basket name: " (StringUnder300_Validate (Catalog.bk_Name config));
  fail_if (bool_decide (Catalog.bk_Name config = BasketNameForChange) &&
           (Catalog.bk_MinimumDesiredUTXOValue config =? 0))
    "minimumDesiredUTXOValue must be greater than 0 for the change basket".
Definition ValidRelinquishOutputArgs `{ToLib} (args : RelinquishOutputArgs) : verdict :=
  _ ← wrap "invalid outpoint: " (OutpointString_Validate (rq_Output args));
  if decide (rq_Basket args = "") then valid
  else wrap "invalid basket: " (StringUnder300_Validate (rq_Basket args)).
Definition ValidRequestSyncChunkArgs (args : RequestSyncChunkArgs) : verdict :=
  _ ← fail_if (bool_decide (rs_ToStorageIdentityKey args = "")) "missing toStorageIdentityKey parameter";
  _ ← fail_if (bool_decide (rs_FromStorageIdentityKey args = "")) "missing fromStorageIdentityKey parameter";
  _ ← fail_if (bool_decide (rs_IdentityKey args = "")) "missing user identityKey parameter";
  _ ← fail_if (rs_MaxItems args =? 0) "maxItems must be greater than 0";
  fail_if (rs_MaxRoughSize args =? 0) "maxRoughSize must be greater than 0".

(** ** Certificates *)

Definition opt_valid {A} (prefix : string) (f : A → verdict) (x : option A) : verdict :=
  match x with Some a => wrap prefix (f a) | None => valid end.
(** A nil field is dereferenced. *)
Definition field_valid (f : option Catalog.TableCertificateField) : verdict :=
  match f with
  | None => Panic
  | Some f => wrap "invalid field masterKey argument: " (Base64String_Validate (Catalog.cf_MasterKey f))
  end.
Definition TableCertificateX_ `{ToLib} (args : TableCertificateX) : verdict :=
  let c := cx_Certificate args in
  _ ← wrap "invalid type argument: " (Base64String_Validate (Catalog.ce_Type c));
  _ ← wrap "invalid serialNumber argument: " (Base64String_Validate (Catalog.ce_SerialNumber c));
  _ ← wrap "invalid certifier argument: " (PubKeyHex_Validate (Catalog.ce_Certifier c));
  _ ← wrap "invalid subject argument: " (PubKeyHex_Validate (Catalog.ce_Subject c));
  _ ← match Catalog.ce_Verifier c with
      | Some v => if decide (v = "") then valid else wrap "invalid verifier argument: " (PubKeyHex_Validate v)
      | None => valid
      end;
  _ ← wrap "invalid revocationOutpoint argument: " (OutpointString_Validate (Catalog.ce_RevocationOutpoint c));
  _ ← wrap "invalid signature argument: " (HexString_Validate (Catalog.ce_Signature c));
  each_valid "" field_valid (cx_Fields args).
Definition validateListCertificatesPartialArgs `{ToLib} (args : ListCertificatesArgs) : verdict :=
  _ ← opt_valid "invalid partial serialNumber argument: " Base64String_Validate (lc_SerialNumber args);
  _ ← opt_valid "invalid partial revocationOutpoint argument: " OutpointString_Validate (lc_RevocationOutpoint args);
  _ ← opt_valid "invalid partial signature argument: " HexString_Validate (lc_Signature args);
  opt_valid "invalid partial subject argument: " PubKeyHex_Validate (lc_Subject args).
Definition ListCertificatesArgs_ `{ToLib} (args : ListCertificatesArgs) : verdict :=
  _ ← each_valid "invalid certifier argument: " PubKeyHex_Validate (lc_Certifiers args);
  _ ← each_valid "invalid type argument: " Base64String_Validate (lc_Types args);
  _ ← wrap "invalid type argument: " (PositiveIntegerDefault10Max10000_Validate (lc_Limit args));
  wrap "invalid partial argument: " (validateListCertificatesPartialArgs args).
Definition RelinquishCertificateArgs_ (args : RelinquishCertificateArgs) : verdict :=
  _ ← wrap "invalid type argument: " (Base64String_Validate (rc_Type args));
  _ ← wrap "invalid serialNumber argument: " (Base64String_Validate (rc_SerialNumber args));
  wrap "invalid certifier argument: " (PubKeyHex_Validate (rc_Certifier args)).

(** The SDK's certificate requests, as far as they are read; a signature is its two
    integers. *)
Record AcquireCertificateArgs `{KeyLib} := mkAcquire {
  aq_AcquisitionProtocol : string;
  aq_Certifier : option Key;
  aq_SerialNumber : option text;
  aq_Signature : option (Z * Z);
  aq_RevocationOutpoint : option string;
  aq_KeyringRevealer : option string;
  aq_KeyringForSubject : option (list (string * string));
  aq_Privileged : option bool;
  aq_PrivilegedReason : string;
}.
Record DiscoverArgs `{KeyLib} := mkDiscover {
  da_Limit : option Z;
  da_Offset : option Z;
  da_IdentityKey : option Key;
  da_Attributes : list (string * string);
}.
Record ProveCertificateArgs `{KeyLib} := mkProve {
  pc_Type : text;
  pc_SerialNumber : text;
  pc_Certifier : option Key;
  pc_RevocationOutpoint : option string;
  pc_Signature : option (Z * Z);
  pc_Verifier : option Key;
  pc_PrivilegedReason : string;
}.

(** [%064x] of a natural number. *)
Fixpoint hex_from (fuel : nat) (n : Z) (acc : text) : text :=
  let acc := hex_digit (Z.to_nat (n mod 16)) :: acc in
  match fuel with O => acc | S fuel' => if n <? 16 then acc else hex_from fuel' (n / 16) acc end.
Definition padded_hex (n : Z) : string :=
  let digits := hex_from (Z.to_nat (Z.log2 n)) n [] in
  string_of_list_ascii (replicate (64 - length digits) "0"%char ++ digits).

Section certificates.
Context `{KeyLib}.

Definition AcquireDirectCertificateArgs (args : AcquireCertificateArgs) : verdict :=
  let required (missing : bool) (name : string) :=
    fail_if missing (name ++ ": invalid when acquisitionProtocol is 'direct'") in
  _ ← fail_if (bool_decide (aq_AcquisitionProtocol args ≠ AcquisitionProtocolDirect))
        "only acquire direct certificate requests allowed here";
  _ ← required (bool_decide (¬ is_Some (aq_Certifier args))) "certifier";
  _ ← required (bool_decide (¬ is_Some (aq_SerialNumber args))) "serialNumber";
  _ ← required (bool_decide (¬ is_Some (aq_Signature args))) "signature";
  _ ← required (bool_decide (¬ is_Some (aq_RevocationOutpoint args))) "revocationOutpoint";
  _ ← required (bool_decide (¬ is_Some (aq_KeyringRevealer args))) "keyringRevealer";
  _ ← required (bool_decide (¬ is_Some (aq_KeyringForSubject args))) "keyringForSubject";
  fail_if (default false (aq_Privileged args) && bool_decide (aq_PrivilegedReason args = ""))
    "privilegedReason: invalid when 'privileged' is true".

(** The pagination checks of both discover requests. *)
Definition discover_pages (args : DiscoverArgs) : verdict :=
  _ ← match da_Limit args with
      | Some l =>
          _ ← fail_if (l <? MinPaginationLimit) "limit must be greater than 0";
          fail_if (MaxPaginationLimit <? l) "limit exceeds max allowed value of 10000"
      | None => valid
      end;
  match da_Offset args with
  | Some o => fail_if (MaxPaginationOffset <? o) "offset is too large"
  | None => valid
  end.
(** [range] over the attributes: which bad name is reported is left open by the code. *)
Definition DiscoverByAttributesArgs (args : DiscoverArgs) : verdict :=
  _ ← discover_pages args;
  _ ← fail_if (bool_decide (da_Attributes args = [])) "attributes must be provided";
  each_valid "" (λ kv : string * string, fail_if ((slen kv.1 <? 1) || (50 <? slen kv.1))
                                           "attributes field name must be between 1 and 50") (da_Attributes args).
Definition DiscoverByIdentityKeyArgs (args : DiscoverArgs) : verdict :=
  _ ← discover_pages args;
  match da_IdentityKey args with
  | None => Err "identityKey is required"
  | Some k => match PubKeyHex_Validate (ToDERHex k) with
              | Err _ => Err "invalid identity key: failed validation check"
              | v => v
              end
  end.

Definition minPrivilegedReasonLength : Z := 5.
Definition maxPrivilegedReasonLength : Z := 50.
Definition refuse (msg : string) (v : verdict) : verdict := mapErr (λ _, msg) v.
Definition ProveCertificateArgs_ `{ToLib} (args : ProveCertificateArgs) : verdict :=
  match pc_Signature args with
  | None => Err "invalid certificate signature: value cannot be a nil value"
  | Some (r, s) =>
      _ ← wrap "invalid certificate type: base64 encoded validation check: "
            (Base64String_Validate (EncodeBytes32Base64 (pc_Type args)));
      _ ← wrap "invalid certificate serial number: base64 encoded validation check: "
            (Base64String_Validate (EncodeBytes32Base64 (pc_SerialNumber args)));
      _ ← match pc_Certifier args with
          | Some k => fail_if (negb (Key_Validate k)) "invalid certificate certifier: failed validation check"
          | None => valid
          end;
      _ ← match pc_RevocationOutpoint args with
          | Some o => if decide (o = "") then valid
                      else refuse "invalid certificate certifier revocation outpoint: failed validation check"
                             (OutpointString_Validate o)
          | None => valid
          end;
      _ ← refuse "invalid certificate signature: failed validation check"
            (HexString_Validate (padded_hex r ++ padded_hex s));
      _ ← match pc_Verifier args with
          | Some k => refuse "invalid verifier: failed validation check" (PubKeyHex_Validate (ToDERHex k))
          | None => valid
          end;
      let n := slen (pc_PrivilegedReason args) in
      fail_if (negb (n =? 0) && ((n <? minPrivilegedReasonLength) || (maxPrivilegedReasonLength <? n)))
        "invalid privileged reason length: reason string length must be at least 5 characters, maximum 50"
  end.
End certificates.

(** ** Internalizing *)

(** A nil output is dereferenced. *)
Definition int_output_valid (o : option InternalizeOutput) : verdict :=
  match o with None => Panic | Some o => InternalizeOutput_Validate o end.
Definition ValidInternalizeActionArgs (args : InternalizeActionArgs) : verdict :=
  _ ← fail_if (bool_decide (ia_Tx args = [])) "tx cannot be empty";
  _ ← fail_if (bool_decide (ia_Outputs args = [])) "outputs cannot be empty";
  _ ← wrap "description must be " (String5to2000Bytes_Validate (ia_Description args));
  _ ← each_valid "invalid output: " int_output_valid (ia_Outputs args);
  each_valid "label must be " StringUnder300_Validate (ia_Labels args).

Section internalize.
Context `{KeyLib, AtomicSdk}.

Definition validateWalletPaymentOutput (output : InternalizeOutput) (lockingScript : option Bytes) : verdict :=
  match io_PaymentRemittance output with
  | None => Panic
  | Some payment =>
      match LockForSelf (wp_SenderIdentityKey payment) (wp_DerivationPrefix payment) (wp_DerivationSuffix payment) with
      | None => Err "failed to create expected address"
      | Some expected =>
          match lockingScript with
          | None => Panic
          | Some ls => fail_if (negb (bool_decide (EncodeToString ls = EncodeToString expected)))
                         "locking script mismatch"
          end
      end
  end.
Definition validateBasketInsertionOutput : verdict := valid.
(** The output is indexed without a bound check. *)
Definition validateOutput (output : InternalizeOutput) (outputs : list (Z * option Bytes)) : verdict :=
  match outputs !! Z.to_nat (io_OutputIndex output) with
  | None => Panic
  | Some txOutput =>
      if decide (io_Protocol output = WalletPaymentProtocol) then validateWalletPaymentOutput output txOutput.2
      else if decide (io_Protocol output = BasketInsertionProtocol) then validateBasketInsertionOutput
      else Err "unexpected protocol"
  end.
Definition WalletInternalizeAction (args : InternalizeActionArgs) : verdict :=
  _ ← wrap "invalid internalize action args: " (ValidInternalizeActionArgs args);
  match NewBeefFromAtomicBytes (ia_Tx args) with
  | None => Err "failed to create atomic beef from bytes"
  | Some (beef, txIDHash) =>
      match FindAtomicTransactionByHash beef txIDHash with
      | None => Err "atomic beef error: transaction not found"
      | Some tx =>
          each_valid "output validation failed: "
            (λ o : option InternalizeOutput,
               match o with Some o => validateOutput o (src_Outputs tx) | None => Panic end) (ia_Outputs args)
      end
  end.
End internalize.
End Validate.
