(* ===== verification/Queries.v ===== *)
(** * Queries: listings, balances and reports

    The listing methods of [pkg/storage/internal/metastore] ([transactions.go],
    [outputs.go], [query.go]) and the provider's read operations
    ([pkg/storage/actions.go], [outputs.go], [insights.go]), with RelinquishOutput.
    Spendability is composed from the coin store.  A list and its count are read from
    one state. *)
From Stdlib Require Import Ascii String.
From S2P Require Import Prelude UtxoTypes MemStore Statuses GoStrings Satoshi Primitives External Fee KnownTx Ledger Catalog.
From S2P Require Import Requests StatusUpdates Process Beef Create.
Import GoStrings Encoding Primitives WdkStatus ArcadeStatus KnownTxRepo Ledger StatusUpdates Process BeefBuilder Create Requests.
Local Open Scope string_scope.
Local Open Scope Z_scope.

Module Queries.

(** ** Clauses *)

(** [LIMIT ? OFFSET ?]; a limit that is not positive is no limit. *)
Definition page {A} (limit offset : Z) (l : list A) : list A :=
  let rest := drop (Z.to_nat offset) l in
  if 0 <? limit then take (Z.to_nat limit) rest else rest.
Definition isAllMode (mode : option string) : bool := bool_decide (mode = Some QueryModeAll).

(** The live names attached to a row, those of one user when given: [SELECT name ... JOIN
    ... ON id WHERE is_deleted = false], one row per edge. *)
Definition attached (n : Names) (owner : Z) : list (Z * string) :=
  omap (λ kr : Z * string * NamedRow,
    if negb (nm_IsDeleted kr.2) &&
       match n_edges n !! (owner, nm_ID kr.2) with Some e => negb (ed_IsDeleted e) | None => false end
    then Some kr.1 else None) (map_to_list (n_rows n)).
Definition matching (n : Names) (userID : Z) (names : list string) (owner : Z) : list string :=
  snd <$> filter (λ un : Z * string, un.1 = userID ∧ un.2 ∈ names) (attached n owner).
(** ANY: at least one of the names; ALL: as many distinct names as were asked for. *)
Definition labelFilterSubquery (n : Names) (userID : Z) (names : list string) (mode : option string) (owner : Z) : bool :=
  match names with
  | [] => true
  | _ => if isAllMode mode
         then Nat.eqb (length (remove_dups (matching n userID names owner))) (length names)
         else nonempty (matching n userID names owner)
  end.
Definition tagFilterSubquery (n : Names) (userID : Z) (tags : list string) (mode : option string) (owner : Z) : bool :=
  labelFilterSubquery n userID tags mode owner.
(** The names of a row, [ORDER BY name]. *)
Definition names_of (n : Names) (owner : Z) : list string := SortFunc String.compare (snd <$> attached n owner).

(** ** TransactionsRepo *)

Record ListTransactionsFilter := mkTxFilter {
  tf_UserID : Z;
  tf_Statuses : list TxStatus;
  tf_TxIDs : list string;
  tf_Labels : list string;
  tf_LabelQueryMode : option string;
  tf_Limit : Z;
  tf_Offset : Z;
}.
(** Malformed txids are skipped; the condition is left out when none is left. *)
Definition good_txids (txids : list string) : list Raw :=
  omap (λ t, match encTxID t with Ret raw => Some raw | _ => None end) txids.
Definition buildTxWhere (n : Names) (userID : Z) (statuses : list TxStatus) (txids labels : list string)
    (mode : option string) (id : Z) (r : TableTransaction) : bool :=
  (tx_UserID r =? userID) && tx_status_in statuses r &&
  match good_txids txids with [] => true | raws => tx_has raws r end &&
  labelFilterSubquery n userID labels mode id.
Definition listAndCount (P : Z → TableTransaction → bool) (limit offset : Z) : L (list (Z * TableTransaction) * Z) :=
  gets (λ m, let l := select_txs P by_id m in
             if Z.of_nat (length l) =? 0 then ([], 0) else (page limit offset l, Z.of_nat (length l))).
(** [ListActionsFilter] is the filter without txids. *)
Definition Transactions_ListTransactions (f : ListTransactionsFilter) : L (list (Z * TableTransaction) * Z) :=
  λ m, listAndCount (buildTxWhere (labels m) (tf_UserID f) (tf_Statuses f) (tf_TxIDs f) (tf_Labels f)
                       (tf_LabelQueryMode f)) (tf_Limit f) (tf_Offset f) m.
Definition Transactions_ListActions (userID : Z) (statuses : list TxStatus) (labels_ : list string) (mode : option string)
    (limit offset : Z) : L (list (Z * TableTransaction) * Z) :=
  λ m, listAndCount (buildTxWhere (labels m) userID statuses [] labels_ mode) limit offset m.
Definition GetLabelsForTransactions (txIDs : list Z) : L (gmap Z (list string)) :=
  gets (λ m, list_to_map (omap (λ id, match names_of (labels m) id with [] => None | ns => Some (id, ns) end) txIDs)).
Definition CountByStatus (userID : Z) : L (gmap string Z) :=
  gets (λ m, map_fold (λ _ r out, if tx_UserID r =? userID
                                  then <[tx_Status r := default 0 (out !! tx_Status r) + 1]> out else out)
               ∅ (transactions m)).

(** ** OutputsRepo *)

Definition DefaultListOutputsStatuses : list TxStatus :=
  [TxStatusCompleted; TxStatusUnprocessed; TxStatusSending; TxStatusUnproven; TxStatusUnsigned; TxStatusNoSend;
   TxStatusNonFinal].
Record ListOutputsFilter := mkOutFilter {
  of_UserID : Z;
  of_Basket : string;
  of_Tags : list string;
  of_TagQueryMode : option string;
  of_Statuses : list TxStatus;
  of_Limit : Z;
  of_Offset : Z;
  of_IncludeTags : bool;
}.
Definition attachTags (n : Names) (row : OutputRow) : OutputRow :=
  mkOutputRow (or_OutputID row) (or_row row) (or_TxID row) (names_of n (or_OutputID row)).
Definition outputs_where (n : Names) (f : ListOutputsFilter) (id : Z) (o : TableOutput) (t : TableTransaction) : bool :=
  (o_UserID o =? of_UserID f) &&
  bool_decide (of_Basket f = "" ∨ o_Basket o = Some (of_Basket f)) &&
  tx_status_in (of_Statuses f) t &&
  tagFilterSubquery n (of_UserID f) (of_Tags f) (of_TagQueryMode f) id.
Definition Outputs_ListOutputs (f : ListOutputsFilter) : L (list OutputRow * Z) :=
  gets (λ m,
    let l := select_outputs (outputs_where (tags m) f) m in
    if Z.of_nat (length l) =? 0 then ([], 0)
    else
      let out := page (of_Limit f) (of_Offset f) l in
      (if of_IncludeTags f then attachTags (tags m) <$> out else out, Z.of_nat (length l))).

Record BRC29Material := mkBRC29 {
  m29_DerivationPrefix : option string;
  m29_DerivationSuffix : option string;
  m29_SenderIdentityKey : option string;
  m29_CustomInstructions : option string;
}.
Definition GetBRC29Material (outputID : Z) : L (option BRC29Material) :=
  gets (λ m, (λ o, mkBRC29 (o_DerivationPrefix o) (o_DerivationSuffix o) (o_SenderIdentityKey o)
                     (o_CustomInstructions o)) <$> outputs m !! outputID).

(** ** Results *)

Record WalletActionOutput := mkActionOutput {
  wo_Satoshis : Z;
  wo_Spendable : bool;
  wo_OutputIndex : Z;
  wo_OutputDescription : string;
  wo_Basket : string;
  wo_Tags : list string;
  wo_LockingScript : string;
  wo_CustomInstructions : string;
}.
Record WalletAction := mkAction {
  wa_TxID : string;
  wa_Satoshis : Z;
  wa_Status : string;
  wa_IsOutgoing : bool;
  wa_Description : string;
  wa_Version : Z;
  wa_LockTime : Z;
  wa_Labels : list string;
  wa_Outputs : list WalletActionOutput;
}.
Record ListActionsResult := mkActions { lar_TotalActions : Z; lar_Actions : list WalletAction }.
Record CurrentTxStatus `{Sdk} := mkCurrent {
  ct_TxID : string;
  ct_Status : StandardizedTxStatus;
  ct_Reference : string;
  ct_Labels : list string;
  ct_BlockHeight : Z;
  ct_BlockHash : string;
  ct_MerkleRoot : string;
  ct_MerklePath : option MerklePath;
}.
Record ListTransactionsResult `{Sdk} := mkTransactions { ltr_Total : Z; ltr_Transactions : list CurrentTxStatus }.
Record WalletOutput := mkWalletOutput {
  wt_Satoshis : Z;
  wt_Spendable : bool;
  wt_Outpoint : string;
  wt_CustomInstructions : option string;
  wt_LockingScript : option string;
  wt_Tags : list string;
}.
Record ListOutputsResult := mkOutputs { lor_Total : Z; lor_Outputs : list WalletOutput; lor_BEEF : Bytes }.

Definition derefStr (s : option string) : string := default "" s.
Definition derefU32 (v : option Z) : Z := default 0 v.
(** [dedupe]: first occurrences, in order. *)
Fixpoint dedupe_from (seen : gset string) (l : list string) : list string :=
  match l with
  | [] => []
  | s :: l' => if decide (s ∈ seen) then dedupe_from seen l' else s :: dedupe_from ({[s]} ∪ seen) l'
  end.
Definition dedupe (l : list string) : list string := dedupe_from ∅ l.

(** The loop [for ... { x, err := f(row); out = append(out, x) }]. *)
Fixpoint collect {A B} (f : A → PM B) (l : list A) : PM (list B) :=
  match l with [] => mret [] | x :: l' => y ← f x; ys ← collect f l'; mret (y :: ys) end.

Section provider.
Context `{MapRange, AtomicBeef : BeefSdk, ToLib}.
Context (clk : nat → Time) (shared directInputBEEF : bool).

Definition userID (auth : option Z) : PM Z := match auth with Some u => mret u | None => throw ErrAuthorization end.

(** ** Outputs *)

Definition outpointSpendable (txid : option string) (vout : Z) : PM bool :=
  match txid ≫= NewHashFromHex with
  | None => mret false
  | Some hash =>
      r ← try_ (utxo_call (MemStore.Get (mkOutpoint hash vout)));
      match r with
      | inr u => mret (bool_decide (u_ReservedBy u = "" ∧ u_SpentBy u = None) && negb (u_Frozen u))
      | inl e => if is_utxo_not_found e then mret false else throw e
      end
  end.
Definition outpointString (txid : option string) (vout : Z) : outcome perror string :=
  match txid with None => Ret "" | Some t => mapErr Refused (NewOutpointString t vout) end.

Definition wallet_output (args : ListOutputsArgs) (row : OutputRow) : PM WalletOutput :=
  let o := or_row row in
  spendable ← outpointSpendable (or_TxID row) (o_Vout o);
  op ← lift (outpointString (or_TxID row) (o_Vout o));
  mret (mkWalletOutput (u64 (o_Satoshis o)) spendable op
          (if lo_IncludeCustomInstructions args then o_CustomInstructions o else None)
          (if lo_IncludeLockingScripts args && nonempty (o_LockingScript o)
           then Some (string_of_list_ascii (EncodeToString (o_LockingScript o))) else None)
          (if lo_IncludeTags args then or_Tags row else [])).
Definition ListOutputs (auth : option Z) (args : ListOutputsArgs) : PM ListOutputsResult :=
  user ← userID auth;
  '(rows, total) ← meta_read (Outputs_ListOutputs (mkOutFilter user (lo_Basket args) (lo_Tags args)
    (lo_TagQueryMode args) DefaultListOutputsStatuses (lo_Limit args) (lo_Offset args) (lo_IncludeTags args)));
  outs ← collect (wallet_output args) rows;
  let txids := omap or_TxID rows in
  if lo_IncludeTransactions args && nonempty txids then
    beef ← getBEEFForTxIDs directInputBEEF (dedupe txids) None (lo_KnownTxids args);
    b ← refuse_none "serialize outputs beef" (Beef_Bytes beef);
    mret (mkOutputs total outs b)
  else mret (mkOutputs total outs []).

(** Sums over the tiers of a balance; the addition wraps. *)
Definition basket_or_change (basket : string) : string := if decide (basket = "") then BasketNameForChange else basket.
Definition GetBalance (auth : option Z) (basket : string) : PM Z :=
  user ← userID auth;
  bal ← utxo_call (MemStore.Balance user (basket_or_change basket));
  mret (foldl (λ (total : Z) (tv : Z * Z), u64 (total + tv.2)) 0 (range_map (b_Claimable bal))).
Definition GetClaimableCount (auth : option Z) (basket : string) : PM Z :=
  user ← userID auth;
  bal ← utxo_call (MemStore.Balance user (basket_or_change basket));
  mret (foldl (λ (total : Z) (tv : Z * Z), i64 (total + tv.2)) 0 (range_map (b_ClaimableCount bal))).

Definition FindOutputBasketsAuth (auth : option Z) (filters : Catalog.FindOutputBasketsArgs) :
    PM (list Catalog.TableOutputBasket) :=
  user ← userID auth;
  if bool_decide (is_Some (Catalog.fb_UserID filters) ∧ Catalog.fb_UserID filters ≠ Some user) then throw ErrAuthorization
  else meta_read (on_catalog (Catalog.Baskets_Find (Catalog.mkFindBaskets (Some user) (Catalog.fb_Name filters)
         (Catalog.fb_NumberOfDesiredUTXOs filters) (Catalog.fb_MinimumDesiredUTXOValue filters)))).

Definition with_user (user : Z) (f : FindOutputsArgs) : FindOutputsArgs :=
  mkFindOutputsArgs (Some user) (fo_OutputID f) (fo_Satoshis f) (fo_TransactionID f) (fo_TxID f) (fo_Vout f)
    (fo_Change f) (fo_TxStatus f).
(** The rows with their spendability; [spendable] is the filter on it. *)
Definition FindOutputsAuth (auth : option Z) (filters : FindOutputsArgs) (spendable : option bool) :
    PM (list (OutputRow * bool)) :=
  user ← userID auth;
  if bool_decide (is_Some (fo_UserID filters) ∧ fo_UserID filters ≠ Some user) then throw ErrAuthorization
  else
    rows ← meta_read (FindOutputs (with_user user filters));
    out ← collect (λ row, s ← outpointSpendable (or_TxID row) (o_Vout (or_row row)); mret (row, s)) rows;
    mret (filter (λ rs : OutputRow * bool, opt_filter spendable rs.2 = true) out).

(** The coin store's per-coin refusals are tolerated. *)
Definition is_batch (e : perror) : bool := match e with UtxoErr e => is_ErrBatch e | _ => false end.
Definition RelinquishOutput_ (auth : option Z) (args : RelinquishOutputArgs) : PM () :=
  user ← userID auth;
  match OutpointString_Get (rq_Output args) with
  | Err _ => throw (Refused "parse outpoint")
  | Panic => λ p, (Panic, p)
  | Ret (txid, vout) =>
      Do shared (
        _ ← meta_call clk (λ now, RelinquishOutput now user (rq_Basket args) txid vout);
        match NewHashFromHex txid with
        | None => throw (BadTxID txid)
        | Some hash => ignoring is_batch (utxo_call (MemStore.Remove [mkOutpoint hash vout] false))
        end)
  end.

(** ** Actions *)

Definition action_output (row : OutputRow) : PM WalletActionOutput :=
  let o := or_row row in
  spendable ← outpointSpendable (or_TxID row) (o_Vout o);
  mret (mkActionOutput (u64 (o_Satoshis o)) spendable (o_Vout o) (o_Description o) (default "" (o_Basket o))
          (or_Tags row) (hexString (o_LockingScript o)) (default "" (o_CustomInstructions o))).
Definition actionOutputs (user transactionID : Z) : PM (list WalletActionOutput) :=
  rows ← meta_read (FindOutputs (mkFindOutputsArgs (Some user) None None (Some transactionID) None None None []));
  collect action_output rows.

Definition tx_txid (r : TableTransaction) : option string := tx_TxID r ≫= decTxIDPtr.
Definition wallet_action (user : Z) (includeOutputs : bool) (labelsByTx : gmap Z (list string))
    (kr : Z * TableTransaction) : PM WalletAction :=
  let '(id, row) := kr in
  outs ← (if includeOutputs then actionOutputs user id else mret []);
  mret (mkAction (derefStr (tx_txid row)) (tx_Satoshis row) (tx_Status row) (tx_IsOutgoing row) (tx_Description row)
          (derefU32 (tx_Version row)) (derefU32 (tx_LockTime row)) (default [] (labelsByTx !! id)) outs).
Definition ListActions (auth : option Z) (args : ListActionsArgs) : PM ListActionsResult :=
  user ← userID auth;
  '(rows, total) ← meta_read (Transactions_ListActions user [] (la_Labels args) (la_LabelQueryMode args)
                                (la_Limit args) (la_Offset args));
  let includeLabels := default false (la_IncludeLabels args) in
  let includeOutputs := default false (la_IncludeOutputs args) in
  labelsByTx ← (if includeLabels then meta_read (GetLabelsForTransactions rows.*1) else mret ∅);
  actions ← collect (wallet_action user includeOutputs labelsByTx) rows;
  mret (mkActions total actions).

Definition enrichTxStatus (txid : option string) (cur : CurrentTxStatus) : PM CurrentTxStatus :=
  match txid with
  | None => mret cur
  | Some t =>
      r ← try_ (meta_read (known (FindByTxID t)));
      mret (match r with
            | inr (Some kt) =>
                mkCurrent _ (ct_TxID cur) (ct_Status cur) (ct_Reference cur) (ct_Labels cur)
                  (default (ct_BlockHeight cur) (kt_BlockHeight kt)) (hexString (kt_BlockHash kt)) (hexString (kt_MerkleRoot kt))
                  (if nonempty (kt_MerklePath kt) then NewMerklePathFromBinary (kt_MerklePath kt) else None)
            | _ => cur
            end)
  end.
Definition current_status (labelsByTx : gmap Z (list string)) (kr : Z * TableTransaction) : PM CurrentTxStatus :=
  let '(id, row) := kr in
  enrichTxStatus (tx_txid row)
    (mkCurrent _ (derefStr (tx_txid row)) (TxStatus_ToStandardizedStatus (tx_Status row)) (tx_Reference row)
       (default [] (labelsByTx !! id)) 0 "" "" None).
Definition ListTransactions (auth : option Z) (args : ListTransactionsArgs) : PM ListTransactionsResult :=
  user ← userID auth;
  '(rows, total) ← meta_read (Transactions_ListTransactions (mkTxFilter user [] (lt_TxIDs args) (lt_Labels args)
                                (Some (lt_LabelQueryMode args)) (lt_Limit args) (lt_Offset args)));
  labelsByTx ← meta_read (GetLabelsForTransactions rows.*1);
  out ← collect (current_status labelsByTx)
          (filter (λ kr : Z * TableTransaction,
             opt_filter (lt_Status args) (TxStatus_ToStandardizedStatus (tx_Status kr.2)) = true) rows);
  mret (mkTransactions _ total out).
End provider.
End Queries.
