(* ===== verification/QueriesProps.v ===== *)
(** * QueriesProps: what the listings list

    Pages of a listing tile the matching rows, label filters mean what they say, a
    relinquished coin leaves the inventory unless it is held. *)
From Stdlib Require Import Ascii String Sorted.
From S2P Require Import Prelude UtxoTypes MemStore StoreContract Statuses GoStrings Primitives KnownTx Ledger Catalog.
From S2P Require Import Requests StatusUpdates Process Beef Create Queries.
Import MemStore StoreContract WdkStatus KnownTxRepo Ledger StatusUpdates Primitives Requests Queries.
Local Open Scope string_scope.
Local Open Scope Z_scope.

Module QueriesProps.

(** ** Pages *)

Section pages.
Context {A : Type}.
Implicit Types l : list A.

Lemma page_limited k off l : 0 < k → page k off l = take (Z.to_nat k) (drop (Z.to_nat off) l).
Proof. intros Hk. rewrite /page. by destruct (Z.ltb_spec 0 k); [|lia]. Qed.

(** The pages of [k] rows, one after the other, are the list. *)
Lemma pages_tile k n l :
  0 < k → (length l ≤ n * Z.to_nat k)%nat →
  concat ((λ i, page k (Z.of_nat i * k) l) <$> seq 0 n) = l.
Proof.
  intros Hk. revert l. induction n as [|n IH]; intros l Hn.
  { by destruct l; [|simpl in Hn; lia]. }
  cbn [seq fmap list_fmap concat]. rewrite -fmap_S_seq -list_fmap_compose.
  rewrite page_limited //. change (Z.to_nat (Z.of_nat 0 * k)) with 0%nat. rewrite drop_0.
  etrans; [|apply (take_drop (Z.to_nat k) l)]. f_equal. etrans; [|apply (IH (drop (Z.to_nat k) l))].
  - f_equal. apply list_fmap_ext. intros i j _. cbn. rewrite !page_limited // drop_drop. do 2 f_equal. lia.
  - rewrite length_drop. lia.
Qed.
End pages.

(** ** Rows in the order of their identity *)

Lemma by_id_le {A} (a b : Z * A) : cmp_le by_id a b ↔ a.1 ≤ b.1.
Proof. rewrite /cmp_le /by_id. destruct (Z.compare_spec a.1 b.1); naive_solver lia. Qed.
#[global] Instance by_id_trans {A} : Transitive (cmp_le (@by_id A)).
Proof. intros a b c. rewrite !by_id_le. lia. Qed.
#[global] Instance by_id_total {A} : Total (cmp_le (@by_id A)).
Proof. intros a b. rewrite !by_id_le. lia. Qed.

Lemma sorted_ids {A} (l : list (Z * A)) : StronglySorted (cmp_le by_id) l → NoDup l.*1 → StronglySorted Z.lt l.*1.
Proof.
  induction 1 as [|a l _ IH Ha]; cbn; [constructor|]. intros [Hn Hl]%NoDup_cons. constructor; [by apply IH|].
  apply Forall_fmap. rewrite Forall_forall in Ha. rewrite Forall_forall. intros b Hb. cbn.
  pose proof (Ha b Hb) as Hle. rewrite by_id_le in Hle. assert (a.1 ≠ b.1); [|lia].
  intros E. apply Hn. rewrite E. by apply list_elem_of_fmap_2.
Qed.

(** A query by predicate: every matching row once, by ascending identity. *)
Lemma select_txs_spec P m :
  StronglySorted Z.lt (select_txs P by_id m).*1 ∧
  ∀ id r, (id, r) ∈ select_txs P by_id m ↔ transactions m !! id = Some r ∧ P id r = true.
Proof.
  split.
  - apply sorted_ids; [apply StronglySorted_merge_sort; apply _|].
    rewrite /select_txs SortFunc_perm. eapply sublist_NoDup; [apply (NoDup_fst_map_to_list (transactions m))|].
    apply sublist_fmap_fst, sublist_filter.
  - intros id r. rewrite /select_txs SortFunc_perm list_elem_of_filter elem_of_map_to_list /=. tauto.
Qed.

(** ** Names *)

(** The row carries the user's live name by a live edge. *)
Definition carries (n : Names) (userID owner : Z) (name : string) : Prop :=
  ∃ r e, n_rows n !! (userID, name) = Some r ∧ nm_IsDeleted r = false ∧
         n_edges n !! (owner, nm_ID r) = Some e ∧ ed_IsDeleted e = false.

Lemma attached_spec n owner u name : (u, name) ∈ attached n owner ↔ carries n u owner name.
Proof.
  rewrite /attached list_elem_of_omap /carries. split.
  - intros ([k r] & Hin & Hk). rewrite elem_of_map_to_list in Hin. cbn in Hk.
    destruct (nm_IsDeleted r) eqn:Hd; [done|]. cbn in Hk.
    destruct (n_edges n !! (owner, nm_ID r)) as [e|] eqn:He; [|done]. destruct (ed_IsDeleted e) eqn:Hed; [done|].
    cbn in Hk. simplify_eq. eauto 10.
  - intros (r & e & Hr & Hd & He & Hed). exists ((u, name), r). rewrite elem_of_map_to_list. split; [done|].
    cbn. by rewrite Hd He Hed.
Qed.
Lemma attached_NoDup n owner : NoDup (attached n owner).
Proof.
  eapply sublist_NoDup; [apply (NoDup_fst_map_to_list (n_rows n))|].
  rewrite /attached. induction (map_to_list (n_rows n)) as [|kr l IH]; cbn; [constructor|].
  destruct (negb (nm_IsDeleted kr.2) && _); cbn; [by apply sublist_skip|by apply sublist_cons].
Qed.

Lemma matching_spec n u names owner name :
  name ∈ matching n u names owner ↔ name ∈ names ∧ carries n u owner name.
Proof.
  rewrite /matching list_elem_of_fmap -attached_spec. split.
  - intros ([u' x] & -> & Hin). apply list_elem_of_filter in Hin as [[Hu Hx] Hin]. cbn in *. by subst u'.
  - intros [Hx Hc]. exists (u, name). split; [done|]. by apply list_elem_of_filter.
Qed.
Lemma matching_NoDup n u names owner : NoDup (matching n u names owner).
Proof.
  rewrite /matching. apply NoDup_fmap_2_strong; [|apply NoDup_filter, attached_NoDup].
  intros [a x] [b y] Ha Hb. apply list_elem_of_filter in Ha as [[Ha _] _]. apply list_elem_of_filter in Hb as [[Hb _] _].
  cbn in *. congruence.
Qed.

(** A duplicate-free list inside another is as long as it just when the other is
    duplicate-free and inside it. *)
Lemma same_length (l k : list string) :
  NoDup l → (∀ x, x ∈ l → x ∈ k) → length l = length k ↔ NoDup k ∧ ∀ x, x ∈ k → x ∈ l.
Proof.
  intros Hl Hs. split.
  - intros E. assert (Hp : l ≡ₚ k).
    { apply submseteq_length_Permutation; [by apply NoDup_submseteq|lia]. }
    split; [by rewrite -Hp|]. intros x. by rewrite Hp.
  - intros [Hk Hi]. apply Permutation_length. apply NoDup_Permutation; [done..|]. split; auto.
Qed.

Lemma nonempty_spec {A} (l : list A) : nonempty l = true ↔ ∃ x, x ∈ l.
Proof. destruct l as [|a l]; cbn; [set_solver|]. split; [|done]. intros _. exists a. by left. Qed.

(** The filter by names: ANY asks for one of them, ALL for every one, and a list that
    repeats a name matches nothing. *)
Lemma label_filter_spec n u names mode owner :
  labelFilterSubquery n u names mode owner = true ↔
  names = [] ∨
  (if isAllMode mode then NoDup names ∧ ∀ x, x ∈ names → carries n u owner x
   else ∃ x, x ∈ names ∧ carries n u owner x).
Proof.
  rewrite /labelFilterSubquery. destruct names as [|x0 names]; [tauto|]. set (ns := x0 :: names).
  assert (Hne : ns ≠ []) by done. destruct (isAllMode mode).
  - rewrite Nat.eqb_eq. rewrite same_length; [|apply NoDup_remove_dups|].
    + setoid_rewrite elem_of_remove_dups. setoid_rewrite matching_spec. naive_solver.
    + intros x. rewrite elem_of_remove_dups matching_spec. tauto.
  - rewrite nonempty_spec. setoid_rewrite matching_spec. naive_solver.
Qed.

(** ** ListTransactions *)

Definition with_page (k offset : Z) (f : ListTransactionsFilter) : ListTransactionsFilter :=
  mkTxFilter (tf_UserID f) (tf_Statuses f) (tf_TxIDs f) (tf_Labels f) (tf_LabelQueryMode f) k offset.

(** A transaction the filter asks for. *)
Definition wanted (n : Names) (f : ListTransactionsFilter) (id : Z) (r : TableTransaction) : Prop :=
  tx_UserID r = tf_UserID f ∧
  (tf_Statuses f = [] ∨ tx_Status r ∈ tf_Statuses f) ∧
  (good_txids (tf_TxIDs f) = [] ∨ ∃ raw, tx_TxID r = Some raw ∧ raw ∈ good_txids (tf_TxIDs f)) ∧
  (tf_Labels f = [] ∨
   if isAllMode (tf_LabelQueryMode f) then NoDup (tf_Labels f) ∧ ∀ x, x ∈ tf_Labels f → carries n (tf_UserID f) id x
   else ∃ x, x ∈ tf_Labels f ∧ carries n (tf_UserID f) id x).

Lemma status_in_spec sts r : tx_status_in sts r = true ↔ sts = [] ∨ tx_Status r ∈ sts.
Proof.
  rewrite /tx_status_in. destruct sts as [|s sts]; [tauto|]. rewrite /is_one_of bool_decide_eq_true. naive_solver.
Qed.
Lemma where_spec n f id r :
  buildTxWhere n (tf_UserID f) (tf_Statuses f) (tf_TxIDs f) (tf_Labels f) (tf_LabelQueryMode f) id r = true ↔
  wanted n f id r.
Proof.
  rewrite /buildTxWhere /wanted !andb_true_iff Z.eqb_eq status_in_spec label_filter_spec.
  assert (match good_txids (tf_TxIDs f) with [] => true | raws => tx_has raws r end = true ↔
          (good_txids (tf_TxIDs f) = [] ∨ ∃ raw, tx_TxID r = Some raw ∧ raw ∈ good_txids (tf_TxIDs f))) as ->; [|tauto].
  destruct (good_txids (tf_TxIDs f)) as [|x l]; [tauto|]. rewrite /tx_has.
  destruct (tx_TxID r) as [raw|]; [rewrite bool_decide_eq_true|]; naive_solver.
Qed.

(** Listing transactions page by page gives every transaction of the user that the
    filter asks for, once, by ascending identity, and every page reports how many there
    are: pages of any size tile the same list, a label filter in mode ALL asks for every
    label and otherwise for one, and txids that do not parse are ignored. *)
Theorem transaction_pages_complete f m k :
  ∃ l, StronglySorted Z.lt l.*1 ∧
    (∀ id r, (id, r) ∈ l ↔ transactions m !! id = Some r ∧ wanted (labels m) f id r) ∧
    ∃ pages, concat pages = l ∧ length pages = length l ∧
      ∀ i rows, pages !! i = Some rows →
        Transactions_ListTransactions (with_page (Z.of_nat (S k)) (Z.of_nat i * Z.of_nat (S k)) f) m =
        (Ret (rows, Z.of_nat (length l)), m).
Proof.
  set (size := Z.of_nat (S k)). assert (Hk : 0 < size) by lia.
  set (P := buildTxWhere (labels m) (tf_UserID f) (tf_Statuses f) (tf_TxIDs f) (tf_Labels f) (tf_LabelQueryMode f)).
  set (l := select_txs P by_id m). destruct (select_txs_spec P m) as [Hs Hin].
  exists l. split_and!; [done|intros id r; by rewrite Hin where_spec|].
  exists ((λ i, page size (Z.of_nat i * size) l) <$> seq 0 (length l)). split_and!.
  - apply pages_tile; [done|]. subst size. nia.
  - by rewrite length_fmap length_seq.
  - intros i rows Hi. rewrite list_lookup_fmap in Hi. apply fmap_Some in Hi as (j & Hj & ->).
    apply lookup_seq in Hj as [-> Hj].
    rewrite /Transactions_ListTransactions /listAndCount /gets /=. fold P l.
    by destruct l as [|x l']; [simpl in Hj; lia|].
Qed.

(** ** Spendability *)

(** A coin the store can hand out. *)
Definition claimable_coin (s : MemStore.Store) (op : Outpoint) : Prop :=
  ∃ u, coin s op = Some u ∧ free u ∧ u_Frozen u = false.

Section provider.
Context `{MapRange, BeefSdk, ToLib}.
Context (clk : nat → Time) (shared directInputBEEF : bool).

(** The answer about an outpoint: what the store would hand out; an error only when the
    store is closed. *)
Lemma spendable_spec txid vout p :
  (∃ b, outpointSpendable txid vout p = (Ret b, p) ∧
     (b = true ↔ ∃ t hash, txid = Some t ∧ NewHashFromHex t = Some hash ∧ claimable_coin (p_utxo p) (mkOutpoint hash vout))) ∨
  outpointSpendable txid vout p = (Err (UtxoErr ErrClosed), p) ∧ closed (p_utxo p) = true.
Proof.
  rewrite /outpointSpendable. destruct txid as [t|]; cbn; [|left; eexists; split; [done|naive_solver]].
  destruct (NewHashFromHex t) as [hash|] eqn:Ht; [|left; eexists; split; [done|naive_solver]].
  rewrite /try_ /utxo_call /zoom /MemStore.Get /guard_open /mbind /M_bind.
  assert (with_utxo (p_utxo p) p = p) as Hp by by destruct p. destruct (closed (p_utxo p)) eqn:Hc.
  { right. cbn. by rewrite Hp. }
  left. rewrite /claimable_coin /coin. destruct (rows (p_utxo p) !! mkOutpoint hash vout) as [r|] eqn:Hr; cbn; rewrite Hp.
  - eexists. split; [done|]. rewrite andb_true_iff bool_decide_eq_true negb_true_iff. split.
    + intros [Hf Hz]. exists t, hash. split_and!; [done..|]. exists (r_utxo r). by rewrite Hr.
    + intros (t' & h & [= <-] & Hh & u & Hu & Hf & Hz). rewrite Ht in Hh. simplify_eq. rewrite Hr in Hu. by simplify_eq/=.
  - eexists. split; [done|]. split; [done|]. intros (t' & h & [= <-] & Hh & u & Hu & _). rewrite Ht in Hh.
    simplify_eq. by rewrite Hr in Hu.
Qed.

(** ** RelinquishOutput *)

Lemma remove_one op s :
  closed s = false →
  MemStore.Remove [op] false s =
  (match coin s op ≫= remove_refusal op with Some e => Err (ErrBatchJoin [e]) | None => Ret () end,
   with_rows (match coin s op ≫= remove_refusal op with Some _ => rows s | None => delete op (rows s) end) s).
Proof.
  intros Hc. rewrite /MemStore.Remove /guard_open Hc /coin. cbn. destruct (rows s !! op) as [r|] eqn:Hr; cbn.
  - by destruct (remove_refusal op (r_utxo r)).
  - by rewrite delete_id.
Qed.
Lemma refusal_free op u : remove_refusal op u = None ↔ free u ∧ u_Frozen u = false.
Proof.
  rewrite /remove_refusal /free. destruct (u_SpentBy u); [naive_solver|]. case_decide; [naive_solver|].
  destruct (u_Frozen u); naive_solver.
Qed.

(** The rows RelinquishOutput takes out of their basket. *)
Definition relinquished (user : Z) (basket : string) (raw : Raw) (vout : Z) (m : Meta) (o : TableOutput) : Prop :=
  owns_outpoint user raw vout m o = true ∧ (basket = "" ∨ o_Basket o = Some basket).

Lemma RelinquishOutput_effect now user basket txid vout m m' :
  RelinquishOutput now user basket txid vout m = (Ret (), m') →
  ∃ raw, encTxID txid = Ret raw ∧ (∃ id o, outputs m !! id = Some o ∧ relinquished user basket raw vout m o) ∧
    ∀ id o, outputs m !! id = Some o →
      outputs m' !! id = Some (if decide (relinquished user basket raw vout m o)
                               then set_o_Basket None (set_o_UpdatedAt now o) else o).
Proof.
  rewrite /RelinquishOutput /lift. cbv [mbind M_bind]. destruct (encTxID txid) as [raw| |]; [|done..].
  rewrite /relinquish_in /update_outputs.
  set (P := λ (_ : Z) o, owns_outpoint user raw vout m o && bool_decide (basket = "" ∨ o_Basket o = Some basket)).
  assert (HP : ∀ id o, P id o = true ↔ relinquished user basket raw vout m o).
  { intros id o. by rewrite /P andb_true_iff bool_decide_eq_true. }
  intros Hr. exists raw. split; [done|]. revert Hr. case_match eqn:Hlt; [|done]. intros [= <-]. apply Z.ltb_lt in Hlt.
  change (0 < Z.of_nat (size (filter (λ kr : Z * TableOutput, P kr.1 kr.2 = true) (outputs m)))) in Hlt. split.
  - destruct (map_choose (filter (λ kr : Z * TableOutput, P kr.1 kr.2 = true) (outputs m))) as (id & o & Ho).
    { intros E. rewrite E map_size_empty in Hlt. lia. }
    apply map_lookup_filter_Some in Ho as [Ho HPo]. exists id, o. split; [done|]. by apply (HP id).
  - intros id o Ho. cbn. rewrite map_lookup_imap Ho. cbn. f_equal. specialize (HP id o). rewrite /P in HP.
    destruct (owns_outpoint user raw vout m o && _); case_decide; naive_solver.
Qed.

(** A successful RelinquishOutput takes the named outputs of the user out of their
    basket, at least one, and the coin leaves the inventory exactly when the store could
    hand it out: a coin that is reserved, spent or frozen at that moment stays in the
    coin store with its basket, where releasing it makes it claimable again. *)
Theorem relinquish_removes_free_only user args p p' :
  RelinquishOutput_ clk shared (Some user) args p = (Ret (), p') →
  ∃ txid vout hash raw,
    OutpointString_Get (rq_Output args) = Ret (txid, vout) ∧ NewHashFromHex txid = Some hash ∧ encTxID txid = Ret raw ∧
    (∃ id o, outputs (p_meta p) !! id = Some o ∧ relinquished user (rq_Basket args) raw vout (p_meta p) o) ∧
    (∀ id o, outputs (p_meta p) !! id = Some o → relinquished user (rq_Basket args) raw vout (p_meta p) o →
       ∃ o', outputs (p_meta p') !! id = Some o' ∧ o_Basket o' = None) ∧
    (claimable_coin (p_utxo p) (mkOutpoint hash vout) → coin (p_utxo p') (mkOutpoint hash vout) = None) ∧
    ∀ op, op ≠ mkOutpoint hash vout ∨ ¬ claimable_coin (p_utxo p) op → coin (p_utxo p') op = coin (p_utxo p) op.
Proof.
  rewrite /RelinquishOutput_ /userID. cbv [mbind M_bind mret M_ret].
  destruct (OutpointString_Get (rq_Output args)) as [[txid vout]| |]; [|done..].
  rewrite /Do. destruct (meta_closed (p_meta p)); [done|]. rewrite /meta_call /tick /meta_read /zoom. cbv [mbind M_bind]. cbn.
  destruct (RelinquishOutput (clk (p_ticks p)) user (rq_Basket args) txid vout (p_meta p)) as [[[]|e|] m'] eqn:Hm; [|done..].
  cbn. apply RelinquishOutput_effect in Hm as (raw & Hraw & Hone & Hall).
  destruct (NewHashFromHex txid) as [hash|] eqn:Hh; [|done]. remember (mkOutpoint hash vout) as op eqn:Hop0.
  intros Hr. exists txid, vout, hash, raw. rewrite -Hop0.
  assert (Hp : p_meta p' = m' ∧ closed (p_utxo p) = false ∧
    rows (p_utxo p') = match coin (p_utxo p) op ≫= remove_refusal op with Some _ => rows (p_utxo p) | None => delete op (rows (p_utxo p)) end).
  { revert Hr. rewrite /ignoring /utxo_call /zoom. cbn [p_utxo]. destruct (closed (p_utxo p)) eqn:Hc.
    - rewrite /MemStore.Remove /guard_open Hc. destruct shared; done.
    - rewrite remove_one //. cbn [p_utxo with_meta].
      destruct (coin (p_utxo p) op ≫= remove_refusal op); cbn; intros Hr; by simplify_eq. }
  clear Hr. destruct Hp as (<- & Hc & Hrows). split_and!; [done..| | |].
  - intros id o Ho Hrel. eexists. split; [by apply Hall|]. by destruct (decide (relinquished _ _ _ _ _ _)).
  - intros (u & Hu & Hf). rewrite /coin Hrows Hu. apply (refusal_free op) in Hf. cbn. by rewrite Hf lookup_delete_eq.
  - intros op' Hop. rewrite /coin Hrows. destruct (coin (p_utxo p) op ≫= remove_refusal op) eqn:E; [done|].
    destruct (decide (op' = op)) as [->|Hne]; [|by rewrite lookup_delete_ne].
    destruct Hop as [?|Hop]; [done|]. destruct (coin (p_utxo p) op) as [u|] eqn:Hu.
    + cbn in E. exfalso. apply Hop. exists u. by rewrite -(refusal_free op).
    + rewrite /coin in Hu. rewrite lookup_delete_eq. by destruct (rows (p_utxo p) !! op).
Qed.
End provider.
End QueriesProps.
