(* ===== verification/Accounts.v ===== *)
(** * Accounts: users, certificates, and the operator's reports

    [pkg/storage/users.go], [certificates.go] and [insights.go], with the basket seeding
    of [provider.go], over the tables of [Catalog]. *)
From Stdlib Require Import Ascii String.
From S2P Require Import Prelude UtxoTypes MemStore Statuses GoStrings Satoshi Primitives External Fee Config KnownTx Ledger Catalog.
From S2P Require Import Requests StatusUpdates Process Beef Create Queries.
Import GoStrings Encoding Primitives WdkStatus ArcadeStatus KnownTxRepo Ledger StatusUpdates Process BeefBuilder Create Requests Queries.
Local Open Scope string_scope.
Local Open Scope Z_scope.

Module Accounts.
Import Catalog.

Record AuthID := mkAuth { au_UserID : option Z; au_IdentityKey : string }.

(** ** Results *)

Record CertificateResult := mkCertResult {
  cs_Type : string;
  cs_Subject : string;
  cs_SerialNumber : string;
  cs_Certifier : string;
  cs_RevocationOutpoint : string;
  cs_Signature : string;
  cs_Fields : gmap string string;
  cs_Verifier : string;
}.

Record KnownTxRow := mkKnownTxRow {
  kr_TxID : string;
  kr_Status : string;
  kr_ArcadeStatus : string;
  kr_BlockHeight : option Z;
  kr_RejectReason : string;
  kr_UpdatedAtUnix : Z;
}.
Record TierState := mkTierState { ts_Tier : string; ts_ClaimableCount : Z; ts_ClaimableSats : Z }.
Record BasketState := mkBasketState {
  bs_Basket : string;
  bs_Tiers : list TierState;
  bs_ReservedCount : Z;
  bs_ReservedSats : Z;
}.
Record DegradedComponent := mkDegraded { dc_Component : string; dc_Basket : string; dc_Error : perror }.
Record StateReport := mkStateReport {
  sr_Baskets : list BasketState;
  sr_TxStatuses : option (gmap string Z);
  sr_ArcadeStatuses : option (gmap string Z);
  sr_Degraded : list DegradedComponent;
}.

Definition defaultKnownTxListLimit : Z := 200.
Definition clampListLimit (limit : Z) : Z :=
  if (limit <=? 0) || (1000 <? limit) then defaultKnownTxListLimit else limit.
(** [Unix()] of a time counted from year 1. *)
Definition Unix (t : Time) : Z := t / 1000000000 - 62135596800.
Definition toKnownTxRows (rows : list KnownTx) : list KnownTxRow :=
  (λ kt, mkKnownTxRow (kt_TxID kt) (kt_Status kt) (default "" (kt_ArcadeStatus kt)) (kt_BlockHeight kt)
           (default "" (kt_RejectReason kt)) (Unix (kt_UpdatedAt kt))) <$> rows.
Definition tierOrder : list Tier := [TierSending; TierUnproven; TierMined].
Definition Tier_String (t : Tier) : string :=
  if t =? TierSending then "sending" else if t =? TierUnproven then "unproven" else if t =? TierMined then "mined"
  else "Tier(" ++ string_of_list_ascii (FormatUint t) ++ ")".
Definition maxRawTxBatch : nat := 512.

(** Membership in [stringSet(in)]; no set filters nothing. *)
Definition in_set (l : list string) (s : string) : bool := match l with [] => true | _ => bool_decide (s ∈ l) end.
Definition cert_wanted (args : ListCertificatesArgs) (c : TableCertificate) : bool :=
  in_set (lc_Types args) (ce_Type c) && in_set (lc_Certifiers args) (ce_Certifier c) &&
  given (lc_SerialNumber args) (ce_SerialNumber c) && given (lc_Subject args) (ce_Subject c).

Section provider.
Context `{MapRange, Sdk}.
Context (clk : nat → Time) (shared : bool) (cfg : ProviderConfig) (storageIdentityKey : string).

(** ** Users *)

Definition on_cat {A} (f : Time → CM A) : PM A := meta_call clk (λ now, on_catalog (f now)).
Definition changeBasketConfig : BasketConfiguration :=
  mkBasketConfig BasketNameForChange (cb_NumberOfDesiredUTXOs (pc_changeBasket cfg))
    (cb_MinimumDesiredUTXOValue (pc_changeBasket cfg)).
Definition seed_one (userID : Z) (name : string) : PM () :=
  if decide (name = "") then mret () else on_cat (λ now, Baskets_FindOrCreate now userID name).
Definition seedBaskets (userID : Z) : PM () :=
  _ ← on_cat (λ now, Baskets_Upsert now userID changeBasketConfig true);
  if Config.Enabled (pc_utxoMgmt cfg) then
    let t := Config.um_Throughput (pc_utxoMgmt cfg) in
    _ ← seed_one userID (Config.PoolBasket t);
    seed_one userID (Config.ReserveBasket t)
  else mret ().
Definition SetActive (auth : option Z) (newActiveStorageIdentityKey : string) : PM () :=
  user ← userID auth;
  on_cat (λ now, SetActiveStorage now user newActiveStorageIdentityKey).
Definition FindOrInsertUser (identityKey : string) : PM (TableUser * bool) :=
  Do shared (
    '(u, isNew) ← on_cat (λ now, Users_FindOrInsertUser now identityKey);
    if (isNew : bool) then
      _ ← seedBaskets (us_UserID u);
      if bool_decide (storageIdentityKey ≠ "" ∧ us_ActiveStorage u = "") then
        _ ← on_cat (λ now, SetActiveStorage now (us_UserID u) storageIdentityKey);
        mret (set_us_ActiveStorage storageIdentityKey u, isNew)
      else mret (u, isNew)
    else mret (u, isNew)).

(** ** Certificates *)

Definition InsertCertificateAuth (auth : AuthID) (certificate : option TableCertificateX) : PM Z :=
  user ← userID (au_UserID auth);
  match certificate with
  | None => throw (Refused "nil certificate")
  | Some cx =>
      let c := cx_Certificate cx in
      if decide (ce_Subject c = au_IdentityKey auth) then
        on_cat (λ now, Certificates_Insert now (mkCert user (ce_Type c) (ce_SerialNumber c) (ce_Certifier c)
          (ce_Subject c) (ce_Verifier c) (ce_RevocationOutpoint c) (ce_Signature c) (ce_IsDeleted c) (ce_CreatedAt c)
          (ce_UpdatedAt c)) (cx_Fields cx))
      else throw ErrAuthorization
  end.
Definition RelinquishCertificate (auth : AuthID) (args : RelinquishCertificateArgs) : PM () :=
  user ← userID (au_UserID auth);
  on_cat (λ now, SoftDelete now user (rc_Type args) (rc_SerialNumber args) (rc_Certifier args)).
Definition certificateResult (kc : Z * TableCertificate) : PM CertificateResult :=
  let '(id, c) := kc in
  full ← meta_read (on_catalog (Certificates_FindByID id));
  let fields : gmap string string :=
    match full with
    | Some (_, fs) => foldl (λ (m : gmap string string) f, <[cf_FieldName f := cf_FieldValue f]> m) ∅ fs
    | None => ∅
    end in
  mret (mkCertResult (ce_Type c) (ce_Subject c) (ce_SerialNumber c) (ce_Certifier c) (ce_RevocationOutpoint c)
          (ce_Signature c) fields (default "" (ce_Verifier c))).
(** The total is the length of the list. *)
Definition ListCertificates (auth : AuthID) (args : ListCertificatesArgs) : PM (list CertificateResult) :=
  user ← userID (au_UserID auth);
  certs ← meta_read (on_catalog (ListForUser user));
  collect certificateResult (filter (λ kc : Z * TableCertificate, cert_wanted args kc.2 = true) certs).

(** ** Reports *)

Definition ListKnownTxByArcadeStatus (arcadeStatus : string) (limit : Z) : PM (list KnownTxRow) :=
  rows ← meta_read (known (ListByArcadeStatus arcadeStatus (clampListLimit limit))); mret (toKnownTxRows rows).
Definition ListKnownTxByStatus (status : string) (limit : Z) : PM (list KnownTxRow) :=
  rows ← meta_read (known (ListByStatus status (clampListLimit limit))); mret (toKnownTxRows rows).
Definition ListKnownTxRecent (limit : Z) : PM (list KnownTxRow) :=
  rows ← meta_read (known (ListRecent (clampListLimit limit))); mret (toKnownTxRows rows).

Definition reportUserID (auth : AuthID) : PM Z :=
  match au_UserID auth with
  | Some u => mret u
  | None =>
      if decide (au_IdentityKey auth = "") then throw ErrAuthorization
      else
        found ← meta_read (on_catalog (FindByIdentityKey (au_IdentityKey auth)));
        match found with Some u => mret (us_UserID u) | None => throw ErrAuthorization end
  end.
Definition basket_state (basket : string) (bal : Balance) : BasketState :=
  mkBasketState basket
    ((λ t, mkTierState (Tier_String t) (default 0 (b_ClaimableCount bal !! t)) (default 0 (b_Claimable bal !! t)))
       <$> tierOrder)
    (b_ReservedCount bal) (b_Reserved bal).
Definition add_degraded (d : DegradedComponent) (r : StateReport) : StateReport :=
  mkStateReport (sr_Baskets r) (sr_TxStatuses r) (sr_ArcadeStatuses r) (sr_Degraded r ++ [d])%list.
Fixpoint report_baskets (userID : Z) (baskets : list string) (r : StateReport) : PM StateReport :=
  match baskets with
  | [] => mret r
  | basket :: rest =>
      bal ← try_ (utxo_call (MemStore.Balance userID basket));
      report_baskets userID rest
        (match bal with
         | inl e => add_degraded (mkDegraded "balance" basket e) r
         | inr bal => mkStateReport (sr_Baskets r ++ [basket_state basket bal])%list (sr_TxStatuses r)
                        (sr_ArcadeStatuses r) (sr_Degraded r)
         end)
  end.
Definition StateReport_ (auth : AuthID) (baskets : list string) : PM StateReport :=
  user ← reportUserID auth;
  r ← report_baskets user baskets (mkStateReport [] None None []);
  t ← try_ (meta_read (CountByStatus user));
  let r := match t with
           | inr c => mkStateReport (sr_Baskets r) (Some c) (sr_ArcadeStatuses r) (sr_Degraded r)
           | inl e => add_degraded (mkDegraded "tx_statuses" "" e) r
           end in
  a ← try_ (meta_read (known CountByArcadeStatus));
  mret (match a with
        | inr c => mkStateReport (sr_Baskets r) (sr_TxStatuses r) (Some c) (sr_Degraded r)
        | inl e => add_degraded (mkDegraded "arcade_statuses" "" e) r
        end).

Fixpoint raw_batches (batches : list (list string)) (out : gmap string Bytes) : PM (gmap string Bytes) :=
  match batches with
  | [] => mret out
  | batch :: rest =>
      rows ← meta_read (known (FindByTxIDs batch));
      raw_batches rest (foldl (λ (out : gmap string Bytes) kt,
        if nonempty (kt_RawTx kt) then <[kt_TxID kt := kt_RawTx kt]> out else out) out rows)
  end.
Definition RawTxs (txids : list string) : PM (gmap string Bytes) :=
  raw_batches (chunks_of (length txids) maxRawTxBatch txids) ∅.
End provider.
End Accounts.
