(* ===== verification/Internalize.v ===== *)
(** * Internalize: crediting outputs of foreign transactions

    [pkg/storage/internalize.go] and the BEEF verifier of [pkg/storage/verifiers.go].
    [verifier] is the provider's BEEF verifier; [defaultBeefVerifier] is the one it has
    unless it is configured with another. *)
From Stdlib Require Import Ascii String.
From S2P Require Import Prelude UtxoTypes MemStore Statuses GoStrings Satoshi Primitives External Fee KnownTx Ledger Catalog.
From S2P Require Import Requests StatusUpdates Process Beef Create Validate Queries.
Import GoStrings Encoding Primitives WdkStatus ArcadeStatus KnownTxRepo Ledger StatusUpdates Process Random BeefBuilder Create Requests Queries.
Local Open Scope string_scope.
Local Open Scope Z_scope.

Module Internalize.

(** The plan for one output. *)
Record internalizedOutput := mkIntPlan {
  ip_vout : Z;
  ip_satoshis : Z;
  ip_lockingScript : Bytes;
  ip_basket : string;
  ip_change : bool;
  ip_outputType : string;
  ip_providedBy : string;
  ip_purpose : string;
  ip_derivationPrefix : option string;
  ip_derivationSuffix : option string;
  ip_senderIdentityKey : option string;
  ip_customInstructions : option string;
  ip_tags : list string;
}.

(** The plan of a validated output, and what it adds to the credit. *)
Definition plan_output (outputs : list (Z * option Bytes)) (o : InternalizeOutput) : outcome perror (internalizedOutput * Z) :=
  _ ← mapErr (λ _, Refused "invalid internalize output") (InternalizeOutput_Validate o);
  match outputs !! Z.to_nat (io_OutputIndex o) with
  | None => Err (Refused "output index out of range")
  | Some txo =>
      let ls := default [] txo.2 in
      let sats := i64 txo.1 in
      if decide (io_Protocol o = WalletPaymentProtocol) then
        match io_PaymentRemittance o with
        | None => Panic
        | Some pr =>
            Ret (mkIntPlan (io_OutputIndex o) sats ls BasketNameForChange true OutputTypeP2PKH ProvidedByStorage
                   ChangePurpose (Some (wp_DerivationPrefix pr)) (Some (wp_DerivationSuffix pr))
                   (Some (wp_SenderIdentityKey pr)) None [], sats)
        end
      else if decide (io_Protocol o = BasketInsertionProtocol) then
        match io_InsertionRemittance o with
        | None => Panic
        | Some ir =>
            Ret (mkIntPlan (io_OutputIndex o) sats ls (bi_Basket ir) false OutputTypeCustom ProvidedByYou
                   "" None None None (bi_CustomInstructions ir) (bi_Tags ir), 0)
        end
      else Err (Refused "unsupported internalize protocol")
  end.
Fixpoint planInternalizedOutputs (outputs : list (Z * option Bytes)) (os : list (option InternalizeOutput))
    (cumulative : Z) : outcome perror (list internalizedOutput * Z) :=
  match os with
  | [] => Ret ([], cumulative)
  | None :: rest => planInternalizedOutputs outputs rest cumulative
  | Some o :: rest =>
      '(plan, sats) ← plan_output outputs o;
      '(plans, total) ← planInternalizedOutputs outputs rest (i64 (cumulative + sats));
      Ret (plan :: plans, total)
  end.

Definition new_output (userID transactionID : Z) (plan : internalizedOutput) : NewOutput :=
  mkNewOutput userID transactionID (ip_vout plan) (ip_satoshis plan) (ip_lockingScript plan) (Some (ip_basket plan)) None
    (ip_change plan) (ip_outputType plan) (ip_providedBy plan) (ip_purpose plan) "" (ip_derivationPrefix plan)
    (ip_derivationSuffix plan) (ip_senderIdentityKey plan) (ip_customInstructions plan) (ip_tags plan).
Definition plan_mint (hash : Hash) (userID : Z) (tier : Tier) (plan : internalizedOutput) : UtxoTypes.Mint :=
  mkMint (mkOutpoint hash (ip_vout plan)) userID (ip_basket plan) (u64 (ip_satoshis plan)) DefaultP2PKHInputSize tier.

(** What a merkle path says: block height, block hash, path and root. *)
Record proof_cols := mkProofCols {
  pf_BlockHeight : option Z;
  pf_BlockHash : Bytes;
  pf_MerklePath : Bytes;
  pf_MerkleRoot : Bytes;
}.
Definition int_known (txid : string) (status : ProvenTxReqStatus) (mined : bool) (rawTx inputBEEF : Bytes) (pf : proof_cols) :
    KnownTx :=
  mkKnownTx txid status None 0 0 mined false None "" rawTx inputBEEF (pf_BlockHeight pf) (pf_BlockHash pf)
    (pf_MerklePath pf) (pf_MerkleRoot pf) [] None None None zeroTime zeroTime zeroTime.

Section internalize.
Context `{MapRange, Atomic : AtomicSdk}.
Context (clk : nat → Time) (shared : bool) (entropy : nat → Z → option Bytes).
Context (hdrs : option Headers) (verifier : Beef → bool → option bool).

Definition defaultBeefVerifier (h : Headers) (beef : Beef) (allowTxidOnly : bool) : option bool :=
  Beef_Verify (VerifyMerkleRoot h) beef allowTxidOnly.

Definition creditInternalizedOutput (userID transactionID : Z) (txid : string) (tier : Tier) (plan : internalizedOutput) : PM () :=
  _ ← meta_call clk (λ now, on_catalog (Catalog.Baskets_FindOrCreate now userID (ip_basket plan)));
  _ ← Outputs_Insert clk (new_output userID transactionID plan);
  match NewHashFromHex txid with
  | None => throw (BadTxID txid)
  | Some hash => mint_all clk [plan_mint hash userID tier plan]
  end.
Fixpoint credit_all (userID transactionID : Z) (txid : string) (tier : Tier) (plans : list internalizedOutput) : PM () :=
  match plans with
  | [] => mret ()
  | plan :: rest =>
      _ ← creditInternalizedOutput userID transactionID txid tier plan;
      credit_all userID transactionID txid tier rest
  end.

(** The header source is called without a nil check. *)
Definition proof_of_path (txidHash : Hash) (mp : MerklePath) : outcome perror proof_cols :=
  match hdrs with
  | None => Panic
  | Some h =>
      Ret (mkProofCols (Some (mp_BlockHeight mp))
             (match HeaderByHeight h (mp_BlockHeight mp) with Some hash => hash_bytes hash | None => [] end)
             (mp_Bytes mp)
             (match mp_ComputeRoot mp txidHash with Some root => hash_bytes root | None => [] end))
  end.
Definition int_statuses (mined : bool) : ProvenTxReqStatus * TxStatus * Tier :=
  if mined then (ProvenTxStatusCompleted, TxStatusCompleted, TierMined)
  else (ProvenTxStatusUnconfirmed, TxStatusUnproven, TierUnproven).

(** The unit of work. *)
Definition store_internalized (userID : Z) (args : InternalizeActionArgs) (txid reference : string) (tx : SourceTx)
    (mined : bool) (pf : proof_cols) (existing : list (Z * TableTransaction)) (plans : list internalizedOutput)
    (cumulative : Z) : PM () :=
  let '(ktxStatus, txStatus, tier) := int_statuses mined in
  _ ← ignoring is_skipped (meta_call clk (λ now,
        known (Upsert now (int_known txid ktxStatus mined (src_Bytes tx) (ia_Tx args) pf) [])));
  transactionID ←
    match existing with
    | (id, _) :: _ => _ ← attach_all clk (@on_labels) userID id (ia_Labels args); mret id
    | [] =>
        id ← Transactions_Insert clk (mkNewTx userID txStatus reference false cumulative (ia_Description args) None None
               (ia_Tx args) (ia_Labels args));
        _ ← meta_call clk (λ now, SetTxID now id txid);
        mret id
    end;
  credit_all userID transactionID txid tier plans.

(** [FindAtomicTransactionByHash], then [FindTransactionByHash]. *)
Definition find_atomic (beef : Beef) (txidHash : Hash) : option SourceTx :=
  match FindAtomicTransactionByHash beef txidHash with
  | Some tx => Some tx
  | None => FindTransactionByHash beef txidHash
  end.

Definition InternalizeAction (auth : option Z) (args : InternalizeActionArgs) : PM InternalizeActionResult :=
  user ← userID auth;
  '(beef, txidHash) ← refuse_none "parse atomic beef" (NewBeefFromAtomicBytes (ia_Tx args));
  ok ← refuse_none "verify beef" (verifier beef false);
  if negb (ok : bool) then throw (Refused "beef verification failed (bad merkle proof)")
  else
    tx ← refuse_none "atomic transaction not found in beef" (find_atomic beef txidHash);
    let txid := Hash_String txidHash in
    let mp := FindBumpByHash beef txidHash in
    let mined := bool_decide (is_Some mp) in
    '(plans, cumulative) ← lift (planInternalizedOutputs (src_Outputs tx) (ia_Outputs args) 0);
    reference ← Base64 entropy referenceLength;
    existing ← meta_read (Transactions_FindByTxID user txid);
    pf ← lift (match mp with
               | Some mp => proof_of_path txidHash mp
               | None => Ret (mkProofCols None [] [] [])
               end);
    _ ← Do shared (store_internalized user args txid reference tx mined pf existing plans cumulative);
    mret (mkIntResult true (nonempty existing) txid cumulative).
End internalize.
End Internalize.
