(* ===== verification/Sync.v ===== *)
(** * Sync: moving a user's metadata between storages

    [pkg/storage/sync.go].  A chunk carries the user, the baskets, the transactions and
    the outputs; the entities that are never filled are left out of the record.  The
    counters that only feed the log are left out. *)
From Stdlib Require Import Ascii String.
From S2P Require Import Prelude UtxoTypes MemStore Statuses GoStrings Satoshi Primitives External Fee KnownTx Ledger Catalog.
From S2P Require Import Requests StatusUpdates Process Beef Create Queries.
Import GoStrings Encoding Primitives WdkStatus ArcadeStatus KnownTxRepo Ledger StatusUpdates Process Random BeefBuilder Create Requests Queries.
Local Open Scope string_scope.
Local Open Scope Z_scope.

Module Sync.
Import Catalog.

Definition syncReferenceLength : Z := 12.
Definition SyncStatusUnknown : string := "unknown".

(** ** The wire *)

(** [wdk.TableTransaction]: identity, columns, and the txid as text. *)
Record SyncTx := mkSyncTx { st_TransactionID : Z; st_row : TableTransaction; st_TxID : option string }.
(** [wdk.TableOutput]: the basket travels as a number of the chunk. *)
Record SyncOutput := mkSyncOutput {
  so_OutputID : Z;
  so_row : TableOutput;
  so_TxID : option string;
  so_BasketID : option Z;
  so_Spendable : bool;
}.
Record SyncChunk := mkChunk {
  ch_FromStorageIdentityKey : string;
  ch_ToStorageIdentityKey : string;
  ch_UserIdentityKey : string;
  ch_User : option TableUser;
  ch_OutputBaskets : list (option TableOutputBasket);
  ch_Transactions : list (option SyncTx);
  ch_Outputs : list (option SyncOutput);
}.
Definition NewSyncChunk (from to user : string) : SyncChunk := mkChunk from to user None [] [] [].
Record ProcessSyncChunkResult := mkSyncResult {
  sy_Done : bool;
  sy_MaxUpdatedAt : option Time;
  sy_Updates : Z;
  sy_Inserts : Z;
}.

Definition sinceMatch (since : option Time) (updatedAt : Time) : bool :=
  match since with None => true | Some s => negb (updatedAt <? s) end.
Definition trackMax (maxT t : Time) : Time := if maxT <? t then t else maxT.

Section sync.
Context `{MapRange, Sdk}.
Context (clk : nat → Time) (shared : bool) (entropy : nat → Z → option Bytes) (storageIdentityKey : string).

Definition FindOrInsertSyncStateAuth (auth : option Z) (storageKey storageName : string) : PM (Z * TableSyncState * bool) :=
  user ← userID auth;
  found ← meta_read (on_catalog (FindByUserAndStorage user storageKey));
  match found with
  | Some s => mret (s, false)
  | None =>
      ref ← Base64 entropy syncReferenceLength;
      let ss := mkSyncState user storageKey storageName SyncStatusUnknown false ref "{}" None None None None zeroTime zeroTime in
      id ← meta_call clk (λ now, on_catalog (SyncState_Insert now ss));
      mret (id, ss, true)
  end.

(** ** The sending side *)

Definition number_basket (i : nat) (b : TableOutputBasket) : TableOutputBasket :=
  mkBasket (ob_Config b) (ob_CreatedAt b) (ob_UpdatedAt b) (ob_UserID b) (ob_IsDeleted b) (Z.of_nat i + 1).
Definition name_to_id (baskets : list TableOutputBasket) : gmap string Z :=
  foldl (λ (m : gmap string Z) b, <[bk_Name (ob_Config b) := ob_BasketID b]> m) ∅ baskets.
Definition wire_tx (kr : Z * TableTransaction) : SyncTx := mkSyncTx kr.1 kr.2 (tx_txid kr.2).
Definition wire_output (nameToID : gmap string Z) (row : OutputRow) : PM SyncOutput :=
  let o := or_row row in
  spendable ← (if o_Change o && bool_decide (is_Some (or_TxID row)) then outpointSpendable (or_TxID row) (o_Vout o)
               else mret false);
  mret (mkSyncOutput (or_OutputID row) o (or_TxID row) (o_Basket o ≫= λ b, nameToID !! b) spendable).
Definition GetSyncChunk (args : RequestSyncChunkArgs) : PM SyncChunk :=
  if bool_decide (storageIdentityKey ≠ "" ∧ rs_FromStorageIdentityKey args ≠ "" ∧
                  rs_FromStorageIdentityKey args ≠ storageIdentityKey)
  then throw (Refused "sync from-key is not this storage")
  else
    found ← meta_read (on_catalog (FindByIdentityKey (rs_IdentityKey args)));
    match found with
    | None => throw (Refused "sync unknown user")
    | Some user =>
        let uid := us_UserID user in
        baskets ← meta_read (on_catalog (Baskets_Find (mkFindBaskets (Some uid) None None None)));
        let baskets := imap number_basket baskets in
        '(txRows, _) ← meta_read (Transactions_ListActions uid [] [] None 0 0);
        '(outRows, _) ← meta_read (Outputs_ListOutputs (mkOutFilter uid "" [] None [] 0 0 false));
        outs ← collect (wire_output (name_to_id baskets))
                 (filter (λ row : OutputRow, sinceMatch (rs_Since args) (o_UpdatedAt (or_row row)) = true) outRows);
        mret (mkChunk (rs_FromStorageIdentityKey args) (rs_ToStorageIdentityKey args) (rs_IdentityKey args)
                (match rs_Since args with
                 | None => Some user
                 | Some s => if s <? us_UpdatedAt user then Some user else None
                 end)
                (Some <$> baskets)
                (Some ∘ wire_tx <$> filter (λ kr : Z * TableTransaction,
                   sinceMatch (rs_Since args) (tx_UpdatedAt kr.2) = true) txRows)
                (Some <$> outs))
    end.

(** ** The receiving side *)

(** The mint gate: a change coin that the source holds unspent and free. *)
Definition live_at_source (o : SyncOutput) : bool :=
  o_Change (so_row o) && bool_decide (is_Some (so_TxID o)) && so_Spendable o && bool_decide (o_SpentBy (so_row o) = None).
Definition synced_output (userID transactionID : Z) (basket : string) (spentBy : option Z) (o : TableOutput) : NewOutput :=
  mkNewOutput userID transactionID (o_Vout o) (o_Satoshis o) (o_LockingScript o) (Some basket) spentBy (o_Change o)
    (o_Type o) (o_ProvidedBy o) (o_Purpose o) (o_Description o) (o_DerivationPrefix o) (o_DerivationSuffix o)
    (o_SenderIdentityKey o) None [].
Definition applySyncedOutput (userID transactionID : Z) (basket : string) (spentBy : option Z) (o : SyncOutput) : PM bool :=
  let basket := basket_or_change basket in
  _ ← meta_call clk (λ now, on_catalog (Baskets_FindOrCreate now userID basket));
  _ ← Outputs_Insert clk (synced_output userID transactionID basket spentBy (so_row o));
  if negb (live_at_source o) then mret false
  else match so_TxID o ≫= NewHashFromHex with
       | None => mret false
       | Some hash =>
           _ ← mint_all clk [mkMint (mkOutpoint hash (o_Vout (so_row o))) userID basket (u64 (o_Satoshis (so_row o)))
                               DefaultP2PKHInputSize TierMined];
           mret true
       end.

Definition id_to_name (baskets : list (option TableOutputBasket)) : gmap Z string :=
  foldl (λ (m : gmap Z string) b, match b with Some b => <[ob_BasketID b := bk_Name (ob_Config b)]> m | None => m end)
    ∅ baskets.
Fixpoint sync_baskets (userID : Z) (baskets : list (option TableOutputBasket)) : PM () :=
  match baskets with
  | [] => mret ()
  | None :: rest => sync_baskets userID rest
  | Some b :: rest =>
      _ ← meta_call clk (λ now, on_catalog (Baskets_Upsert now userID (ob_Config b) true));
      sync_baskets userID rest
  end.

(** Old identity to new, for the rows inserted, with updates, inserts and watermark. *)
Record progress := mkProgress { pg_oldToNew : gmap Z Z; pg_Updates : Z; pg_Inserts : Z; pg_max : Time }.
Definition sync_tx (userID : Z) (g : progress) (t : SyncTx) : PM progress :=
  let r := st_row t in
  let mx := trackMax (pg_max g) (tx_UpdatedAt r) in
  found ← meta_read (FindByReference userID (tx_Reference r));
  match found with
  | Some _ => mret (mkProgress (pg_oldToNew g) (pg_Updates g + 1) (pg_Inserts g) mx)
  | None =>
      id ← Transactions_Insert clk (mkNewTx userID (tx_Status r) (tx_Reference r) (tx_IsOutgoing r) (tx_Satoshis r)
             (tx_Description r) (tx_Version r) (tx_LockTime r) (tx_InputBEEF r) []);
      _ ← match st_TxID t with Some txid => meta_call clk (λ now, SetTxID now id txid) | None => mret () end;
      mret (mkProgress (<[st_TransactionID t := id]> (pg_oldToNew g)) (pg_Updates g) (pg_Inserts g + 1) mx)
  end.
Fixpoint sync_txs (userID : Z) (g : progress) (ts : list (option SyncTx)) : PM progress :=
  match ts with
  | [] => mret g
  | None :: rest => sync_txs userID g rest
  | Some t :: rest => g' ← sync_tx userID g t; sync_txs userID g' rest
  end.

Definition output_basket (idToName : gmap Z string) (o : SyncOutput) : string :=
  match so_BasketID o ≫= λ id, idToName !! id with
  | Some name => if decide (name = "") then BasketNameForChange else name
  | None => BasketNameForChange
  end.
Definition sync_output (userID : Z) (idToName : gmap Z string) (g : progress) (o : SyncOutput) : PM progress :=
  let mx := trackMax (pg_max g) (o_UpdatedAt (so_row o)) in
  match pg_oldToNew g !! o_TransactionID (so_row o) with
  | None => mret (mkProgress (pg_oldToNew g) (pg_Updates g) (pg_Inserts g) mx)
  | Some newTxID =>
      let spentBy := o_SpentBy (so_row o) ≫= λ id, pg_oldToNew g !! id in
      _ ← applySyncedOutput userID newTxID (output_basket idToName o) spentBy o;
      mret (mkProgress (pg_oldToNew g) (pg_Updates g) (pg_Inserts g + 1) mx)
  end.
Fixpoint sync_outputs (userID : Z) (idToName : gmap Z string) (g : progress) (os : list (option SyncOutput)) : PM progress :=
  match os with
  | [] => mret g
  | None :: rest => sync_outputs userID idToName g rest
  | Some o :: rest => g' ← sync_output userID idToName g o; sync_outputs userID idToName g' rest
  end.

Definition ProcessSyncChunk (args : RequestSyncChunkArgs) (chunk : option SyncChunk) : PM ProcessSyncChunkResult :=
  match chunk with
  | None => mret (mkSyncResult true None 0 0)
  | Some c =>
      '(user, _) ← meta_call clk (λ now, on_catalog (Users_FindOrInsertUser now (rs_IdentityKey args)));
      g ← Do shared (
            _ ← sync_baskets (us_UserID user) (ch_OutputBaskets c);
            g ← sync_txs (us_UserID user) (mkProgress ∅ 0 0 zeroTime) (ch_Transactions c);
            sync_outputs (us_UserID user) (id_to_name (ch_OutputBaskets c)) g (ch_Outputs c));
      mret (mkSyncResult (negb (nonempty (ch_Transactions c)) && negb (nonempty (ch_Outputs c)))
              (if pg_max g =? zeroTime then None else Some (pg_max g)) (pg_Updates g) (pg_Inserts g))
  end.
End sync.
End Sync.
