(* ===== verification/SyncProps.v ===== *)
(** * SyncProps: what a chunk carries and what it builds

    The sender describes its coin inventory truthfully and changes nothing; the receiver
    adds coins that were spendable at the sender, and no others; into a storage that has
    seen none of the transactions, a full chunk brings every such coin. *)
From Stdlib Require Import Ascii String.
From S2P Require Import Prelude UtxoTypes MemStore StoreContract StoreReplay Statuses GoStrings Primitives KnownTx Ledger Catalog.
From S2P Require Import Requests StatusUpdates Abort ProviderLogic AbortProps Process ProcessCommit Beef Create CreateProps.
From S2P Require Import Queries QueriesProps Sync.
Import StoreContract WdkStatus KnownTxRepo Ledger StatusUpdates ProviderLogic Process Random Create CreateProps Requests Queries QueriesProps Sync.
Import Catalog.
Local Open Scope string_scope.
Local Open Scope Z_scope.

Module SyncProps.

(** ** Coins only appear *)

(** Every coin is as before, or was minted from one of the items [Q]. *)
Definition grows (Q : UtxoTypes.Mint → Prop) (s s' : MemStore.Store) : Prop :=
  ∀ op, coin s' op = coin s op ∨
        coin s op = None ∧ ∃ m now, Q m ∧ m_Outpoint m = op ∧ coin s' op = Some (minted m now).
#[global] Instance grows_preorder Q : PreOrder (grows Q).
Proof.
  split; [by intros s op; left|]. intros s1 s2 s3 H12 H23 op.
  destruct (H12 op) as [E|(Hn & m & now & Hm & Hop & E)], (H23 op) as [E'|(Hn' & E')].
  - left. congruence.
  - right. by rewrite -E.
  - right. rewrite E'. eauto 10.
  - congruence.
Qed.
Lemma grows_weaken (Q Q' : UtxoTypes.Mint → Prop) s s' : (∀ m, Q m → Q' m) → grows Q s s' → grows Q' s s'.
Proof. intros HQ H op. destruct (H op) as [?|(? & m & now & ? & ?)]; [by left|right; eauto 10]. Qed.
Lemma grows_keeps Q s s' op u : grows Q s s' → coin s op = Some u → coin s' op = Some u.
Proof. intros H Hu. destruct (H op) as [->|[? _]]; [done|congruence]. Qed.

Lemma Mint_grows clk ms s : grows (λ m, m ∈ ms) s (MemStore.Mint clk ms s).2.
Proof.
  intros op. destruct (Mint_refines clk ms s op) as [Hev _].
  change (evolves (CMint clk ms) op (coin s op) (coin (MemStore.Mint clk ms s).2 op)) in Hev.
  destruct (coin s op) as [u|] eqn:Hs.
  - left. by apply ProcessCommit.mint_keeps in Hev.
  - inversion Hev as [|? ? ? Hl Hrest]; subst; [by left|]. inversion Hl; subst.
    apply ProcessCommit.mint_keeps in Hrest. right. split; [done|]. eauto 10.
Qed.

Section mints.
Context (clk : nat → Time).
Lemma mint_all_utxo ms p : ∃ clk', p_utxo (mint_all clk ms p).2 = (MemStore.Mint clk' ms (p_utxo p)).2.
Proof.
  eexists. rewrite /mint_all. destruct (MemStore.Mint _ ms (p_utxo p)) as [[es me] s] eqn:E.
  instantiate (1 := (λ i, clk (p_ticks p + i)%nat)). rewrite E. by repeat case_match.
Qed.
Lemma mint_all_grows (Q : UtxoTypes.Mint → Prop) ms : (∀ m, m ∈ ms → Q m) → steps (on_utxo (grows Q)) (mint_all clk ms).
Proof.
  intros HQ p. rewrite /on_utxo. destruct (mint_all_utxo ms p) as [clk' ->]. eapply grows_weaken; [exact HQ|apply Mint_grows].
Qed.

(** A mint of one item that goes through leaves that coin, or has found it there. *)
Lemma mint_one_Ret m p p' :
  mint_all clk [m] p = (Ret (), p') →
  ∃ u, coin (p_utxo p') (m_Outpoint m) = Some u ∧
       u_UserID u = m_UserID m ∧ u_Basket u = m_Basket m ∧ u_Satoshis u = m_Satoshis m ∧
       (coin (p_utxo p) (m_Outpoint m) = None → ∃ now, u = minted m now).
Proof.
  rewrite /mint_all /MemStore.Mint. destruct (MemStore.closed (p_utxo p)); [done|]. cbn. rewrite /MemStore.mintOne.
  destruct (ValidateMint m); [done|]. destruct (MemStore.rows (p_utxo p) !! m_Outpoint m) as [r|] eqn:Hr.
  - case_bool_decide as Hb; [|done]. cbn. intros [= <-]. cbn. exists (MemStore.r_utxo r). rewrite /coin Hr.
    destruct_and?. split_and!; done.
  - cbn. intros [= <-]. cbn. rewrite /coin Hr lookup_insert_eq. eexists. split_and!; [done..|]. intros _. eexists. done.
Qed.
End mints.

Lemma steps_run {A} Ru (m : PM A) p o p' : steps (on_utxo Ru) m → m p = (o, p') → Ru (p_utxo p) (p_utxo p').
Proof. intros Hm E. specialize (Hm p). by rewrite E in Hm. Qed.

(** ** The sender *)

Section sender.
Context `{MapRange, Sdk}.
Context (storageIdentityKey : string).

(** The wire form of a listed row: its columns, and spendable just for a change coin the
    store could hand out now. *)
Definition wired (ids : gmap string Z) (s : MemStore.Store) (row : OutputRow) (o : SyncOutput) : Prop :=
  so_OutputID o = or_OutputID row ∧ so_row o = or_row row ∧ so_TxID o = or_TxID row ∧
  so_BasketID o = (o_Basket (or_row row) ≫= λ b, ids !! b) ∧
  (so_Spendable o = true ↔ o_Change (or_row row) = true ∧ ∃ t hash, or_TxID row = Some t ∧ NewHashFromHex t = Some hash ∧
     claimable_coin s (mkOutpoint hash (o_Vout (or_row row)))).

Lemma wire_output_Ret ids row p o p' :
  wire_output ids row p = (Ret o, p') → p' = p ∧ wired ids (p_utxo p) row o.
Proof.
  rewrite /wire_output. destruct (o_Change (or_row row)) eqn:Hc; cbn.
  - case_bool_decide as Ht.
    + intros (b & p1 & Hb & [= <- <-])%ProcessCommit.bind_Ret.
      destruct (spendable_spec (or_TxID row) (o_Vout (or_row row)) p) as [(b' & E & Hs)|[E _]]; rewrite E in Hb; [|done].
      simplify_eq. split; [done|]. split_and!; [done..|]. cbn. rewrite Hs. tauto.
    + intros [= <- <-]. split; [done|]. split_and!; [done..|]. cbn. split; [done|].
      intros (_ & t & h & E & _). rewrite E in Ht. destruct Ht. eauto.
  - intros [= <- <-]. split; [done|]. split_and!; [done..|]. cbn. rewrite Hc. split; [done|]. by intros [? _].
Qed.
Lemma collect_wire ids rows p outs p' :
  collect (wire_output ids) rows p = (Ret outs, p') → p' = p ∧ Forall2 (wired ids (p_utxo p)) rows outs.
Proof.
  revert outs. induction rows as [|row rows IH]; intros outs; cbn; [by intros [= <- <-]|].
  intros (o & p1 & [-> Ho]%wire_output_Ret & (os & p2 & Hos & [= <- <-])%ProcessCommit.bind_Ret)%ProcessCommit.bind_Ret.
  destruct (IH _ Hos) as [-> ?]. split; [done|]. by constructor.
Qed.

Lemma meta_read_Ret {A} (m : L A) p a p' :
  reads m → meta_read m p = (Ret a, p') → p' = p ∧ m (p_meta p) = (Ret a, p_meta p).
Proof.
  intros Hm. specialize (Hm (p_meta p)). rewrite /meta_read /zoom. destruct (m (p_meta p)) as [[x|e|] m'] eqn:E; cbn in *; try done.
  intros [= -> <-]. subst. split; [by destruct p|done].
Qed.
Lemma reads_catalog {A} (m : M Catalog meta_error A) : (∀ c, (m c).2 = c) → reads (on_catalog m).
Proof.
  intros Hm m0. rewrite /on_catalog /zoom. specialize (Hm (catalog m0)).
  destruct (m (catalog m0)) as [[] c]; cbn in *; subst; by destruct m0.
Qed.
Lemma reads_listActions uid sts ls mode k off : reads (Transactions_ListActions uid sts ls mode k off).
Proof. done. Qed.
Lemma reads_listOutputs f : reads (Outputs_ListOutputs f).
Proof. done. Qed.

Lemma listActions_all uid m :
  Transactions_ListActions uid [] [] None 0 0 m =
  (let l := select_txs (λ _ r, tx_UserID r =? uid) by_id m in Ret (l, Z.of_nat (length l)), m).
Proof.
  rewrite /Transactions_ListActions /listAndCount /gets. cbn.
  assert (select_txs (buildTxWhere (labels m) uid [] [] [] None) by_id m = select_txs (λ _ r, tx_UserID r =? uid) by_id m) as ->.
  { rewrite /select_txs. f_equal. apply list_filter_iff. intros [k r]. cbn. rewrite /buildTxWhere. cbn.
    by rewrite !andb_true_r. }
  destruct (select_txs _ _ _) as [|a l]; cbn; [done|]. by rewrite drop_0.
Qed.
Lemma listOutputs_all uid m :
  Outputs_ListOutputs (mkOutFilter uid "" [] None [] 0 0 false) m =
  (let l := select_outputs (λ _ o _, o_UserID o =? uid) m in Ret (l, Z.of_nat (length l)), m).
Proof.
  rewrite /Outputs_ListOutputs /gets. cbn.
  assert (select_outputs (outputs_where (tags m) (mkOutFilter uid "" [] None [] 0 0 false)) m
          = select_outputs (λ _ o _, o_UserID o =? uid) m) as ->.
  { rewrite /select_outputs. apply list_omap_ext. apply Forall2_same_length_lookup_2; [done|].
    intros i x y Hx Hy. simplify_eq. case_match; [|done]. rewrite /outputs_where. cbn.
    rewrite bool_decide_eq_true_2; [|by left]. by rewrite !andb_true_r. }
  destruct (select_outputs _ _) as [|a l]; cbn; [done|]. by rewrite drop_0.
Qed.

(** What a chunk says of the source. *)
Lemma GetSyncChunk_Ret args p c p' :
  GetSyncChunk storageIdentityKey args p = (Ret c, p') →
  p' = p ∧ ∃ user ids outs,
    us_IdentityKey user = rs_IdentityKey args ∧ (∃ k, users (catalog (p_meta p)) !! k = Some user) ∧
    ch_Transactions c = Some ∘ wire_tx <$> filter (λ kr : Z * TableTransaction, sinceMatch (rs_Since args) (tx_UpdatedAt kr.2) = true)
      (select_txs (λ _ r, tx_UserID r =? us_UserID user) by_id (p_meta p)) ∧
    ch_Outputs c = Some <$> outs ∧
    Forall2 (wired ids (p_utxo p)) (filter (λ row : OutputRow, sinceMatch (rs_Since args) (o_UpdatedAt (or_row row)) = true)
      (select_outputs (λ _ o _, o_UserID o =? us_UserID user) (p_meta p))) outs.
Proof.
  rewrite /GetSyncChunk. case_bool_decide; [done|].
  intros (found & p1 & [-> Hf]%meta_read_Ret & Hrest)%ProcessCommit.bind_Ret; [|by apply reads_catalog].
  destruct found as [user|]; [|done].
  apply ProcessCommit.bind_Ret in Hrest as (bs & p1 & [-> _]%meta_read_Ret & Hrest); [|by apply reads_catalog].
  apply ProcessCommit.bind_Ret in Hrest as ([txs nt] & p1 & [-> Htx]%meta_read_Ret & Hrest); [|apply reads_listActions].
  apply ProcessCommit.bind_Ret in Hrest as ([rows no] & p1 & [-> Hout]%meta_read_Ret & Hrest); [|apply reads_listOutputs].
  apply ProcessCommit.bind_Ret in Hrest as (outs & p1 & [-> Houts]%collect_wire & [= <- <-]).
  rewrite listActions_all in Htx. rewrite listOutputs_all in Hout. cbv zeta in Htx, Hout. simplify_eq. split; [done|].
  exists user. eexists _, outs. split_and!; [..|done|done|exact Houts].
  - revert Hf. rewrite /on_catalog /zoom /FindByIdentityKey /gets. cbn. intros [= Hf]. apply fmap_Some in Hf as ([k u] & Hh & ->).
    apply head_Some_elem_of in Hh. by apply list_elem_of_filter in Hh as [? _].
  - revert Hf. rewrite /on_catalog /zoom /FindByIdentityKey /gets. cbn. intros [= Hf]. apply fmap_Some in Hf as ([k u] & Hh & ->).
    apply head_Some_elem_of in Hh. apply list_elem_of_filter in Hh as [_ Hin]. apply elem_of_map_to_list in Hin. by exists k.
Qed.

Lemma select_outputs_spec P m row :
  row ∈ select_outputs P m ↔
  ∃ o t, outputs m !! or_OutputID row = Some o ∧ transactions m !! o_TransactionID o = Some t ∧
         P (or_OutputID row) o t = true ∧ row = mkOutputRow (or_OutputID row) o (tx_TxID t ≫= decTxIDPtr) [].
Proof.
  rewrite /select_outputs list_elem_of_omap. split.
  - intros ([id o] & Hin & E). rewrite SortFunc_perm elem_of_map_to_list in Hin. cbn in E.
    destruct (transactions m !! o_TransactionID o) as [t|] eqn:Ht; [|done]. destruct (P id o t) eqn:HP; [|done].
    simplify_eq/=. eauto 10.
  - intros (o & t & Ho & Ht & HP & E). exists (or_OutputID row, o).
    rewrite SortFunc_perm elem_of_map_to_list. split; [done|]. cbn. by rewrite Ht HP -E.
Qed.
End sender.

(** ** The receiver *)

Section receiver.
Context `{MapRange, Sdk}.
Context (clk : nat → Time) (shared : bool).

(** The mints of a list of wire outputs: those whose coin is live at the source. *)
Definition live_mint (os : list (option SyncOutput)) (m : UtxoTypes.Mint) : Prop :=
  ∃ o hash uid basket, Some o ∈ os ∧ live_at_source o = true ∧ so_TxID o ≫= NewHashFromHex = Some hash ∧
    m = mkMint (mkOutpoint hash (o_Vout (so_row o))) uid basket (u64 (o_Satoshis (so_row o))) DefaultP2PKHInputSize TierMined.

Lemma Outputs_Insert_grows Q o : steps (on_utxo (grows Q)) (Outputs_Insert clk o).
Proof.
  apply steps_bind; [apply usteps_call, _|]. intros id. apply steps_bind; [|intros; apply steps_ret].
  induction (no_Tags o) as [|x l IH]; cbn; [apply steps_ret|].
  apply steps_bind; [|done]. apply steps_bind; [apply usteps_call, _|]. intros. apply usteps_call, _.
Qed.
Lemma Transactions_Insert_grows Q t : steps (on_utxo (grows Q)) (Transactions_Insert clk t).
Proof.
  apply steps_bind; [apply usteps_call, _|]. intros id. apply steps_bind; [|intros; apply steps_ret].
  induction (nt_Labels t) as [|x l IH]; cbn; [apply steps_ret|].
  apply steps_bind; [|done]. apply steps_bind; [apply usteps_call, _|]. intros. apply usteps_call, _.
Qed.
Lemma applySyncedOutput_grows os uid txID basket spentBy o :
  Some o ∈ os → steps (on_utxo (grows (live_mint os))) (applySyncedOutput clk uid txID basket spentBy o).
Proof.
  intros Ho. apply steps_bind; [apply usteps_call, _|]. intros _. apply steps_bind; [apply Outputs_Insert_grows|]. intros _.
  destruct (live_at_source o) eqn:Hl; [|apply steps_ret]. cbn.
  destruct (so_TxID o ≫= NewHashFromHex) as [hash|] eqn:Hh; [|apply steps_ret].
  apply steps_bind; [|intros; apply steps_ret]. apply mint_all_grows. intros m ->%list_elem_of_singleton.
  by exists o, hash, uid, (basket_or_change basket).
Qed.
Lemma sync_outputs_grows all uid names g os :
  (∀ o, o ∈ os → o ∈ all) → steps (on_utxo (grows (live_mint all))) (sync_outputs clk uid names g os).
Proof.
  revert g. induction os as [|[o|] os IH]; intros g Hall; cbn; [apply steps_ret| |apply IH; set_solver].
  apply steps_bind; [|intros; apply IH; set_solver]. rewrite /sync_output. case_match; [|apply steps_ret].
  apply steps_bind; [apply applySyncedOutput_grows; set_solver|]. intros. apply steps_ret.
Qed.
Lemma sync_txs_grows Q uid g ts : steps (on_utxo (grows Q)) (sync_txs clk uid g ts).
Proof.
  revert g. induction ts as [|[t|] ts IH]; intros g; cbn; [apply steps_ret| |apply IH].
  apply steps_bind; [|intros; apply IH]. apply steps_bind; [apply usteps_read, _|]. intros [x|]; [apply steps_ret|].
  apply steps_bind; [apply Transactions_Insert_grows|]. intros id.
  apply steps_bind; [case_match; [apply usteps_call, _|apply steps_ret]|]. intros. apply steps_ret.
Qed.
Lemma sync_baskets_grows Q uid bs : steps (on_utxo (grows Q)) (sync_baskets clk uid bs).
Proof.
  induction bs as [|[b|] bs IH]; cbn; [apply steps_ret| |apply IH]. apply steps_bind; [apply usteps_call, _|done].
Qed.

(** However it ends, the receiver adds coins for live outputs of the chunk and leaves
    every other coin alone. *)
Lemma ProcessSyncChunk_grows args c :
  steps (on_utxo (grows (live_mint (ch_Outputs c)))) (ProcessSyncChunk clk shared args (Some c)).
Proof.
  apply steps_bind; [apply usteps_call, _|]. intros [user _]. apply steps_bind; [|intros; apply steps_ret].
  apply steps_Do. apply steps_bind; [apply sync_baskets_grows|]. intros _.
  apply steps_bind; [apply sync_txs_grows|]. intros g. by apply sync_outputs_grows.
Qed.

(** ** What success brings *)

Definition has_ref (m : Meta) (ref : string) : Prop := ∃ k r, transactions m !! k = Some r ∧ tx_Reference r = ref.

Lemma FindByReference_fresh uid ref m : ¬ has_ref m ref → FindByReference uid ref m = (Ret None, m).
Proof.
  intros Hn. rewrite /FindByReference /gets. destruct (head _) as [[k r]|] eqn:E; [|done]. destruct Hn.
  apply head_Some_elem_of in E. rewrite /select_txs SortFunc_perm list_elem_of_filter elem_of_map_to_list in E.
  destruct E as [[_ Href%bool_decide_eq_true]%andb_true_iff Hk]. by exists k, r.
Qed.
Lemma has_ref_same m m' ref : transactions m' = transactions m → has_ref m' ref → has_ref m ref.
Proof. rewrite /has_ref. by intros ->. Qed.
Lemma SetTxID_refs now id txid m ref : has_ref (SetTxID now id txid m).2 ref → has_ref m ref.
Proof.
  rewrite /SetTxID /lift. cbv [mbind M_bind]. destruct (encTxID txid) as [raw| |]; [|done..]. rewrite /update_txs.
  assert (∀ P : Z → TableTransaction → bool, has_ref (with_transactions (map_imap (λ id r, Some (if P id r
     then set_tx_TxID (Some raw) (set_tx_UpdatedAt now r) else r)) (transactions m)) m) ref → has_ref m ref) as Hgen.
  { intros P (k & r & Hk & Href). cbn in Hk. rewrite map_lookup_imap in Hk.
    destruct (transactions m !! k) as [r0|] eqn:E; [|done]. cbn in Hk. injection Hk as <-. exists k, r0.
    split; [done|]. by destruct (P k r0). }
  cbn. case_match; cbn; apply Hgen.
Qed.

(** A transaction unknown to the target is inserted and renumbered. *)
Lemma sync_tx_Ret uid g t p g' p' :
  sync_tx clk uid g t p = (Ret g', p') → ¬ has_ref (p_meta p) (tx_Reference (st_row t)) →
  (∃ id, pg_oldToNew g' = <[st_TransactionID t := id]> (pg_oldToNew g)) ∧
  ∀ ref, has_ref (p_meta p') ref → has_ref (p_meta p) ref ∨ ref = tx_Reference (st_row t).
Proof.
  rewrite /sync_tx. intros (found & p1 & Hf & Hrest)%ProcessCommit.bind_Ret Hn.
  rewrite /meta_read /zoom FindByReference_fresh // in Hf. cbn in Hf. injection Hf as <- <-.
  assert (with_meta (p_meta p) p = p) as Hp by by destruct p. rewrite Hp in Hrest. clear Hp.
  apply ProcessCommit.bind_Ret in Hrest as (id & p2 & (_ & _ & m & now & Hins & (_ & Htx & _))%Transactions_Insert_Ret & Hrest).
  assert (Hrefs : ∀ ref, has_ref (p_meta p2) ref → has_ref (p_meta p) ref ∨ ref = tx_Reference (st_row t)).
  { intros ref Href%(has_ref_same m); [|done]. revert Hins. rewrite /insert_tx. case_decide; [done|]. intros [= _ <-].
    destruct Href as (k & r & Hk & <-). cbn in Hk. rewrite lookup_insert_Some in Hk.
    destruct Hk as [[_ <-]|[_ Hk]]; [by right|]. left. by exists k, r. }
  apply ProcessCommit.bind_Ret in Hrest as ([] & p3 & Hset & [= <- <-]). split; [by eexists|].
  destruct (st_TxID t) as [txid|]; [|by injection Hset as <-]. intros ref Href. apply Hrefs.
  rewrite AbortProps.meta_call_eq in Hset. injection Hset as _ <-. cbn in Href. by eapply SetTxID_refs.
Qed.
Lemma sync_txs_Ret uid ts g p g' p' :
  sync_txs clk uid g ts p = (Ret g', p') →
  NoDup (tx_Reference ∘ st_row <$> omap id ts) →
  (∀ t, Some t ∈ ts → ¬ has_ref (p_meta p) (tx_Reference (st_row t))) →
  (∀ k, is_Some (pg_oldToNew g !! k) → is_Some (pg_oldToNew g' !! k)) ∧
  ∀ t, Some t ∈ ts → is_Some (pg_oldToNew g' !! st_TransactionID t).
Proof.
  revert g p. induction ts as [|[t|] ts IH]; intros g p; cbn.
  - intros [= <- <-] _ _. split; [done|]. set_solver.
  - intros (g1 & p1 & Ht & Hrest)%ProcessCommit.bind_Ret [Hnot Hnd]%NoDup_cons Hfresh.
    apply sync_tx_Ret in Ht as [[id Hg1] Hrefs]; [|by apply Hfresh; left].
    destruct (IH g1 p1 Hrest Hnd) as [Hkeep Hall].
    + intros t' Ht' Href. apply Hrefs in Href as [Href|Href]; [by eapply Hfresh; [right|]|].
      apply Hnot. rewrite -Href. apply list_elem_of_fmap. exists t'. split; [done|].
      apply list_elem_of_omap. by exists (Some t').
    + split.
      * intros k Hk. apply Hkeep. rewrite Hg1. apply lookup_insert_is_Some'. by right.
      * intros t' [E|Ht']%elem_of_cons; [|by apply Hall]. simplify_eq. apply Hkeep. rewrite Hg1 lookup_insert_eq. eauto.
  - intros Hr Hnd Hfresh. destruct (IH g p Hr Hnd) as [Hk Hall]; [set_solver|]. split; [done|]. set_solver.
Qed.

Lemma applySyncedOutput_Ret uid txID basket spentBy o hash p b p' :
  applySyncedOutput clk uid txID basket spentBy o p = (Ret b, p') →
  live_at_source o = true → so_TxID o ≫= NewHashFromHex = Some hash →
  ∃ u, coin (p_utxo p') (mkOutpoint hash (o_Vout (so_row o))) = Some u ∧ u_UserID u = uid ∧
       u_Satoshis u = u64 (o_Satoshis (so_row o)).
Proof.
  rewrite /applySyncedOutput. intros (x & p1 & _ & (y & p2 & _ & Hrest)%ProcessCommit.bind_Ret)%ProcessCommit.bind_Ret Hl Hh.
  rewrite Hl Hh in Hrest. cbn in Hrest.
  apply ProcessCommit.bind_Ret in Hrest as ([] & p3 & (u & Hu & Huid & _ & Hsat & _)%mint_one_Ret & [= _ <-]). eauto.
Qed.
Lemma sync_outputs_Ret uid names os g p g' p' o hash :
  sync_outputs clk uid names g os p = (Ret g', p') →
  Some o ∈ os → is_Some (pg_oldToNew g !! o_TransactionID (so_row o)) →
  live_at_source o = true → so_TxID o ≫= NewHashFromHex = Some hash →
  ∃ u, coin (p_utxo p') (mkOutpoint hash (o_Vout (so_row o))) = Some u ∧ u_UserID u = uid ∧
       u_Satoshis u = u64 (o_Satoshis (so_row o)).
Proof.
  intros Hr Ho Hk Hl Hh. revert g p Hr Hk. induction os as [|[x|] os IH]; intros g p; cbn; [set_solver| |].
  - intros (g1 & p1 & Hx & Hrest)%ProcessCommit.bind_Ret Hk. apply elem_of_cons in Ho as [E|Ho].
    + simplify_eq. rewrite /sync_output in Hx. destruct Hk as [newTx Hk]. rewrite Hk in Hx.
      apply ProcessCommit.bind_Ret in Hx as (b & p2 & Happ & [= <- <-]).
      destruct (applySyncedOutput_Ret _ _ _ _ _ _ _ _ _ Happ Hl Hh) as (u & Hu & ?). exists u. split; [|done].
      eapply grows_keeps; [|exact Hu]. eapply steps_run; [by apply (sync_outputs_grows os)|exact Hrest].
    + eapply (IH Ho); [exact Hrest|]. rewrite /sync_output in Hx. destruct (pg_oldToNew g !! o_TransactionID (so_row x)).
      * apply ProcessCommit.bind_Ret in Hx as (b & p2 & _ & [= <- _]). done.
      * by injection Hx as <- _.
  - intros Hr Hk. apply elem_of_cons in Ho as [E|Ho]; [done|]. by eapply IH.
Qed.
End receiver.

(** ** From one storage to another *)

Section both.
Context `{MapRange, Sdk}.
Context (key : string) (clk : nat → Time) (shared : bool).

(** A wire output of a chunk is a row of the source. *)
Lemma wired_row uid since ids m s outs o :
  Forall2 (wired ids s) (filter (λ row : OutputRow, sinceMatch since (o_UpdatedAt (or_row row)) = true)
    (select_outputs (λ _ o _, o_UserID o =? uid) m)) outs →
  o ∈ outs →
  ∃ row, outputs m !! so_OutputID o = Some (so_row o) ∧ o_UserID (so_row o) = uid ∧ wired ids s row o.
Proof.
  intros Hall (i & Ho)%list_elem_of_lookup. destruct (Forall2_lookup_r _ _ _ _ _ Hall Ho) as (row & Hrow & Hw).
  apply list_elem_of_lookup_2 in Hrow. apply list_elem_of_filter in Hrow as [_ Hrow]. apply select_outputs_spec in Hrow as (r & t & Hr & _ & Hu%Z.eqb_eq & E).
  exists row. pose proof Hw as (Hid & Hso & _). rewrite Hid Hso. destruct row as [k o' x l]. cbn in *.
  by injection E as -> _ _.
Qed.

(** C37: Sync never resurrects a coin.  Building a chunk changes nothing at the source.
    Processing it at a target, under any clock, store coupling and outcome, keeps every
    coin of the target as it is, and every coin it adds is free and mined and stands for
    a change output that the source ledger records as unspent and whose coin the source
    store could have handed out when the chunk was built: a coin that is spent, reserved
    or frozen at the source is not minted again elsewhere. *)
Theorem sync_never_resurrects args args' ps c ps' pt o pt' :
  GetSyncChunk key args ps = (Ret c, ps') →
  ProcessSyncChunk clk shared args' (Some c) pt = (o, pt') →
  ps' = ps ∧
  (∀ op u, coin (p_utxo pt) op = Some u → coin (p_utxo pt') op = Some u) ∧
  ∀ op u, coin (p_utxo pt) op = None → coin (p_utxo pt') op = Some u →
    free u ∧ u_Tier u = TierMined ∧ claimable_coin (p_utxo ps) op ∧
    ∃ id row, outputs (p_meta ps) !! id = Some row ∧ o_Change row = true ∧ o_SpentBy row = None ∧
      o_Vout row = Vout op ∧ u_Satoshis u = u64 (o_Satoshis row).
Proof.
  intros (-> & user & ids & outs & _ & _ & _ & Houts & Hw)%GetSyncChunk_Ret Hp.
  pose proof (steps_run _ _ _ _ _ (ProcessSyncChunk_grows clk shared args' c) Hp) as Hg.
  split; [done|]. split; [intros op u; by apply (grows_keeps (live_mint (ch_Outputs c)))|]. intros op u Hn Hu.
  destruct (Hg op) as [E|(_ & m & now & Hm & <- & E)]; [congruence|].
  destruct Hm as (so & hash & uid & basket & Hin & Hl & Hh & ->). rewrite E in Hu. injection Hu as <-.
  rewrite Houts list_elem_of_fmap in Hin. destruct Hin as (so' & [= <-] & Hin).
  destruct (wired_row _ _ _ _ _ _ _ Hw Hin) as (row & Hrow & _ & (_ & Hr & Ht & _ & Hs)).
  rewrite /live_at_source !andb_true_iff !bool_decide_eq_true in Hl. destruct Hl as (((Hc & _) & Hsp) & Hspent).
  apply Hs in Hsp as (_ & t & hash' & Ht' & Hh' & Hclaim). rewrite Ht Ht' in Hh. cbn in Hh. rewrite Hh in Hh'. simplify_eq.
  split_and!; [done|done|by rewrite Hr|]. by exists (so_OutputID so), (so_row so).
Qed.

(** A source as the insert paths leave it: references are unique (the schema's index),
    an output is inserted for the user of its transaction (the schema has two foreign
    keys, it does not tie them), and the catalog is well formed. *)
Record source_ok (m : Meta) : Prop := {
  ok_refs i j r r' : transactions m !! i = Some r → transactions m !! j = Some r' → tx_Reference r = tx_Reference r' → i = j;
  ok_owner id o t : outputs m !! id = Some o → transactions m !! o_TransactionID o = Some t → tx_UserID t = o_UserID o;
  ok_catalog : catalog_ok (catalog m);
}.

Lemma sorted_NoDup (l : list Z) : StronglySorted Z.lt l → NoDup l.
Proof.
  induction 1 as [|a l _ IH Ha]; constructor; [|done]. rewrite Forall_forall in Ha. intros Hin%Ha. lia.
Qed.
Lemma wire_txs_refs m P : source_ok m → NoDup (tx_Reference ∘ snd <$> select_txs P by_id m).
Proof.
  intros Hok. destruct (select_txs_spec P m) as [Hs Hin]. apply NoDup_fmap_2_strong.
  - intros [i r] [j r'] [Hi _]%Hin [Hj _]%Hin Href. cbn in Href. pose proof (ok_refs m Hok _ _ _ _ Hi Hj Href). by simplify_eq.
  - eapply NoDup_fmap_1, sorted_NoDup, Hs.
Qed.
Lemma filter_since_none {A} (f : A → Time) (l : list A) : filter (λ x, sinceMatch None (f x) = true) l = l.
Proof. induction l as [|x l IH]; [done|]. rewrite filter_cons_True //. by rewrite IH. Qed.
Lemma omap_wire (l : list (Z * TableTransaction)) : omap id (Some ∘ wire_tx <$> l) = wire_tx <$> l.
Proof. induction l as [|x l IH]; [done|]. cbn. by f_equal. Qed.

(** The user of the target: the one of that identity, or a new one. *)
Definition target_user (args : RequestSyncChunkArgs) (m : Meta) (tu : TableUser) : Prop :=
  ∃ now isNew, (Users_FindOrInsertUser now (rs_IdentityKey args) (catalog m)).1 = Ret (tu, isNew).

Lemma ProcessSyncChunk_Ret args c p r p' :
  ProcessSyncChunk clk shared args (Some c) p = (Ret r, p') →
  ∃ tu p1 p2 g p3 g', target_user args (p_meta p) tu ∧ transactions (p_meta p1) = transactions (p_meta p) ∧
    sync_baskets clk (us_UserID tu) (ch_OutputBaskets c) p1 = (Ret (), p2) ∧
    sync_txs clk (us_UserID tu) (mkProgress ∅ 0 0 zeroTime) (ch_Transactions c) p2 = (Ret g, p3) ∧
    sync_outputs clk (us_UserID tu) (id_to_name (ch_OutputBaskets c)) g (ch_Outputs c) p3 = (Ret g', p').
Proof.
  intros ([tu new] & p1 & Hu & (g' & p4 & Hdo & [= _ <-])%ProcessCommit.bind_Ret)%ProcessCommit.bind_Ret.
  rewrite AbortProps.meta_call_eq in Hu. rewrite /Do in Hdo. destruct (meta_closed (p_meta p1)); [done|].
  match type of Hdo with (match ?m with _ => _ end = _) => destruct m as [[x|e|] p5] eqn:E end; [|done..].
  injection Hdo as -> ->. apply ProcessCommit.bind_Ret in E as ([] & p2 & Hb & (g & p3 & Ht & Ho)%ProcessCommit.bind_Ret).
  exists tu, p1, p2, g, p3, g'. split_and!; [..|done|done|done].
  - injection Hu as Hret%mapErr_Ret _. revert Hret. rewrite /on_catalog /zoom.
    destruct (Users_FindOrInsertUser (clk (p_ticks p)) (rs_IdentityKey args) (catalog (p_meta p))) as [[]] eqn:E; [|done..].
    intros [= ->]. exists (clk (p_ticks p)), new. by rewrite E.
  - injection Hu as _ <-. cbn. rewrite /on_catalog /zoom. by case_match.
Qed.
Lemma sync_baskets_txs uid bs p o p' : sync_baskets clk uid bs p = (o, p') → transactions (p_meta p') = transactions (p_meta p).
Proof.
  revert p. induction bs as [|[b|] bs IH]; intros p; cbn; [by intros [= _ <-]| |apply IH].
  cbv [mbind M_bind]. rewrite AbortProps.meta_call_eq. cbn. intros ->%IH. done.
Qed.

(** C38: Sync moves the whole spendable inventory.  When a chunk built without a cut-off
    date is processed successfully at a storage that has none of its transactions, every
    unspent change output of the user whose coin the source could hand out has a coin
    with its value at the target, owned by the user of the request there. *)
Theorem sync_rebuilds_inventory args args' ps c ps' pt r pt' :
  source_ok (p_meta ps) → rs_Since args = None →
  GetSyncChunk key args ps = (Ret c, ps') →
  (∀ t, Some t ∈ ch_Transactions c → ¬ has_ref (p_meta pt) (tx_Reference (st_row t))) →
  ProcessSyncChunk clk shared args' (Some c) pt = (Ret r, pt') →
  ∃ tu, target_user args' (p_meta pt) tu ∧
  ∀ user id o t txid hash,
    users (catalog (p_meta ps)) !! o_UserID o = Some user → us_IdentityKey user = rs_IdentityKey args →
    outputs (p_meta ps) !! id = Some o → transactions (p_meta ps) !! o_TransactionID o = Some t →
    tx_TxID t ≫= decTxIDPtr = Some txid → NewHashFromHex txid = Some hash →
    o_Change o = true → o_SpentBy o = None → claimable_coin (p_utxo ps) (mkOutpoint hash (o_Vout o)) →
    ∃ u, coin (p_utxo pt') (mkOutpoint hash (o_Vout o)) = Some u ∧
         u_UserID u = us_UserID tu ∧ u_Satoshis u = u64 (o_Satoshis o).
Proof.
  intros Hok Hsince (-> & user & ids & outs & Hkey & (k & Hk) & Htx & Houts & Hw)%GetSyncChunk_Ret Hfresh Hp.
  rewrite Hsince in Htx, Hw. rewrite (filter_since_none (λ kr : Z * TableTransaction, tx_UpdatedAt kr.2)) in Htx.
  rewrite (filter_since_none (λ row, o_UpdatedAt (or_row row))) in Hw.
  destruct (ProcessSyncChunk_Ret _ _ _ _ _ Hp) as (tu & p1 & p2 & g & p3 & g' & Htu & Hsame & Hb & Ht & Ho).
  exists tu. split; [done|]. intros user' id o t txid hash Huser Hkey' Hrow Htr Htxid Hhash Hch Hsp Hclaim.
  assert (user' = user ∧ us_UserID user = o_UserID o) as [-> Huid].
  { pose proof (co_identity _ (ok_catalog _ Hok) _ _ _ _ Hk Huser ltac:(congruence)). simplify_eq.
    split; [done|]. by apply (co_user _ (ok_catalog _ Hok)). }
  assert (Hin : mkOutputRow id o (Some txid) [] ∈ select_outputs (λ _ o _, o_UserID o =? us_UserID user) (p_meta ps)).
  { apply select_outputs_spec. exists o, t. cbn. rewrite Htxid Huid Z.eqb_refl. done. }
  apply list_elem_of_lookup in Hin as (i & Hi). destruct (Forall2_lookup_l _ _ _ _ _ Hw Hi) as (so & Hso & (_ & Hr & Hst & _ & Hspd)).
  cbn in Hr, Hst, Hspd. apply list_elem_of_lookup_2 in Hso.
  apply (sync_txs_Ret clk) in Ht as [_ Hnew].
  - destruct (sync_outputs_Ret clk _ _ _ _ _ _ _ so hash Ho) as (u & Hu & ? & ?).
    + rewrite Houts. by apply list_elem_of_fmap_2.
    + rewrite Hr. apply (Hnew (wire_tx (o_TransactionID o, t))). rewrite Htx. apply list_elem_of_fmap.
      exists (o_TransactionID o, t). split; [done|]. apply (select_txs_spec _ (p_meta ps)). split; [done|].
      rewrite (ok_owner _ Hok _ _ _ Hrow Htr) Huid. apply Z.eqb_refl.
    + rewrite /live_at_source Hr Hst Hch Hsp. cbn. rewrite andb_true_r. apply Hspd. eauto 10.
    + by rewrite Hst.
    + rewrite Hr in Hu. exists u. split_and!; [done..|congruence].
  - rewrite Htx omap_wire -list_fmap_compose. by apply wire_txs_refs.
  - intros t' Ht' Href. apply (Hfresh t' Ht'). eapply has_ref_same; [|exact Href].
    etrans; [by eapply sync_baskets_txs|done].
Qed.
End both.
End SyncProps.
