(* ===== verification/InternalizeProps.v ===== *)
(** * InternalizeProps: what is credited, and on whose word

    A successful internalization stores exactly the requested outputs and their coins,
    once; a transaction counts as mined only on the word of the header source. *)
From Stdlib Require Import Ascii String.
From S2P Require Import Prelude UtxoTypes MemStore StoreContract Statuses GoStrings Primitives KnownTx Catalog Ledger.
From S2P Require Import Requests StatusUpdates Abort ProviderLogic AbortProps Process ProcessCommit Beef Create CreateProps.
From S2P Require Import Validate Queries QueriesProps Internalize Sync SyncProps.
Import StoreContract WdkStatus KnownTxRepo Ledger StatusUpdates ProviderLogic Process Random BeefBuilder Create CreateProps Requests Queries QueriesProps.
Import Internalize SyncProps.
Local Open Scope string_scope.
Local Open Scope Z_scope.

Module InternalizeProps.

Section rules.
Lemma refuse_none_Ret {A} what (o : option A) p a p' : refuse_none what o p = (Ret a, p') → o = Some a ∧ p' = p.
Proof. destruct o; [|done]. by intros [= -> ->]. Qed.
Lemma lift_Ret {A} (o : outcome perror A) p a p' : (lift o : PM A) p = (Ret a, p') → o = Ret a ∧ p' = p.
Proof. by intros [= -> ->]. Qed.
Lemma pure_Ret {A} (m : PM A) p a p' :
  pure_ m → m p = (Ret a, p') → p_meta p' = p_meta p ∧ p_utxo p' = p_utxo p.
Proof. intros Hm E. destruct (Hm p) as (?&?&_). by rewrite E in H, H0. Qed.
Lemma Do_runs {A} shared (m : PM A) p a p' : Do shared m p = (Ret a, p') → m p = (Ret a, p') ∧ meta_closed (p_meta p) = false.
Proof. rewrite /Do. destruct (meta_closed (p_meta p)); [done|]. by destruct (m p) as [[x|e|] q]. Qed.
End rules.

Section internalize.
Context `{MapRange, Atomic : AtomicSdk}.
Context (clk : nat → Time) (shared : bool) (entropy : nat → Z → option Bytes).
Context (hdrs : option Headers) (verifier : Beef → bool → option bool).

(** ** The plan *)

(** What the plan of an output takes from the transaction. *)
Definition planned (txOuts : list (Z * option Bytes)) (o : InternalizeOutput) (pl : internalizedOutput) : Prop :=
  ip_vout pl = io_OutputIndex o ∧
  (∃ sats ls, txOuts !! Z.to_nat (io_OutputIndex o) = Some (sats, ls) ∧ ip_satoshis pl = i64 sats ∧
              ip_lockingScript pl = default [] ls) ∧
  (io_Protocol o = WalletPaymentProtocol ∧ ip_change pl = true ∧ ip_basket pl = BasketNameForChange ∧
     (wp_SenderIdentityKey <$> io_PaymentRemittance o) = ip_senderIdentityKey pl ∨
   io_Protocol o = BasketInsertionProtocol ∧ ip_change pl = false ∧
     (bi_Basket <$> io_InsertionRemittance o) = Some (ip_basket pl)).
Lemma plan_output_Ret txOuts o pl sats : plan_output txOuts o = Ret (pl, sats) → planned txOuts o pl.
Proof.
  rewrite /plan_output. cbv [mbind outcome_bind]. destruct (mapErr _ _); [|done..].
  destruct (txOuts !! Z.to_nat (io_OutputIndex o)) as [[v ls]|] eqn:Ho; [|done]. case_decide as Hw.
  - destruct (io_PaymentRemittance o) as [pr|] eqn:Hp; [|done]. intros [= <- _]. split; [done|]. split; [eauto 10|].
    cbn. rewrite Hp. by left.
  - case_decide as Hb; [|done]. destruct (io_InsertionRemittance o) as [ir|] eqn:Hi; [|done]. intros [= <- _].
    split; [done|]. split; [eauto 10|]. cbn. rewrite Hi. by right.
Qed.
Lemma plans_Ret txOuts os n plans total :
  planInternalizedOutputs txOuts os n = Ret (plans, total) → Forall2 (planned txOuts) (omap id os) plans.
Proof.
  revert n plans total. induction os as [|[o|] os IH]; intros n plans total; cbn; [by intros [= <- _]| |apply IH].
  cbv [mbind outcome_bind]. destruct (plan_output txOuts o) as [[pl sats]| |] eqn:Hpl; [|done..].
  destruct (planInternalizedOutputs txOuts os _) as [[pls t]| |] eqn:Hrest; [|done..]. intros [= <- _].
  constructor; [by eapply plan_output_Ret|by eapply IH].
Qed.

(** ** Crediting *)

Definition row_credits (userID txID : Z) (pl : internalizedOutput) (r : TableOutput) : Prop :=
  o_UserID r = userID ∧ o_TransactionID r = txID ∧ o_Vout r = ip_vout pl ∧ o_Satoshis r = ip_satoshis pl ∧
  o_LockingScript r = ip_lockingScript pl ∧ o_Basket r = Some (ip_basket pl) ∧ o_Change r = ip_change pl ∧
  o_SpentBy r = None ∧ o_SenderIdentityKey r = ip_senderIdentityKey pl.
Definition coin_credits (userID : Z) (pl : internalizedOutput) (u : UTXO) : Prop :=
  u_UserID u = userID ∧ u_Basket u = ip_basket pl ∧ u_Satoshis u = u64 (ip_satoshis pl).
(** The coin of the outpoint [txid:vout] pays the plan's value to the user. *)
Definition coin_credited (txid : string) (userID : Z) (pl : internalizedOutput) (s : MemStore.Store) : Prop :=
  ∃ hash u, NewHashFromHex txid = Some hash ∧ coin s (mkOutpoint hash (ip_vout pl)) = Some u ∧ coin_credits userID pl u.

Lemma Outputs_Insert_fresh o p id p' :
  Outputs_Insert clk o p = (Ret id, p') →
  ∀ k r, outputs (p_meta p) !! k = Some r → o_TransactionID r = no_TransactionID o → o_Vout r ≠ no_Vout o.
Proof.
  intros (id'&p1&Hins&_)%ProcessCommit.bind_Ret k r Hk Htx Hv. rewrite AbortProps.meta_call_eq in Hins.
  injection Hins as Hret%mapErr_Ret _. revert Hret. rewrite /insert_output. case_match; [|done].
  case_decide as Hx; [done|]. destruct Hx. by exists k, r.
Qed.

Lemma credit_one_Ret userID txID txid tier pl p p' :
  creditInternalizedOutput clk userID txID txid tier pl p = (Ret (), p') →
  ∃ hash, NewHashFromHex txid = Some hash ∧
  known_txs (p_meta p') = known_txs (p_meta p) ∧ transactions (p_meta p') = transactions (p_meta p) ∧
  nextOutputID (p_meta p') = nextOutputID (p_meta p) + 1 ∧
  (∀ k r, outputs (p_meta p) !! k = Some r → o_TransactionID r = txID → o_Vout r ≠ ip_vout pl) ∧
  (∃ r, outputs (p_meta p') = <[nextOutputID (p_meta p) := r]> (outputs (p_meta p)) ∧ row_credits userID txID pl r) ∧
  (∃ u, coin (p_utxo p') (mkOutpoint hash (ip_vout pl)) = Some u ∧ coin_credits userID pl u) ∧
  grows (λ m, m = plan_mint hash userID tier pl) (p_utxo p) (p_utxo p').
Proof.
  rewrite /creditInternalizedOutput. intros (x & p1 & Hb & Hrest)%ProcessCommit.bind_Ret.
  apply ProcessCommit.bind_Ret in Hrest as (id & p2 & Hins & Hm).
  rewrite AbortProps.meta_call_eq in Hb. injection Hb as _ Hp1.
  assert (Hsame : known_txs (p_meta p1) = known_txs (p_meta p) ∧ transactions (p_meta p1) = transactions (p_meta p) ∧
    outputs (p_meta p1) = outputs (p_meta p) ∧ nextOutputID (p_meta p1) = nextOutputID (p_meta p) ∧ p_utxo p1 = p_utxo p).
  { rewrite -Hp1. cbn. rewrite /on_catalog /zoom. by case_match. }
  destruct Hsame as (Hk & Ht & Ho & Hn & Hu).
  pose proof (steps_run _ _ _ _ _ (Outputs_Insert_grows clk (λ _, False) _) Hins) as Hg.
  pose proof (Outputs_Insert_fresh _ _ _ _ Hins) as Hfresh. cbn in Hfresh.
  apply Outputs_Insert_Ret in Hins as (-> & Hnext & (Hk2 & Ht2 & _ & _) & now & Hout).
  destruct (NewHashFromHex txid) as [hash|]; [|done]. exists hash.
  pose proof (steps_run _ _ _ _ _ (mint_all_grows clk (λ m, m = plan_mint hash userID tier pl) _ (λ m H, proj1 (list_elem_of_singleton _ _) H)) Hm) as Hg2.
  destruct (mint_one_Ret clk _ _ _ Hm) as (u & Hcoin & Hc1 & Hc2 & Hc3 & _).
  assert (Hmeta : p_meta p' = p_meta p2).
  { revert Hm. rewrite /mint_all. destruct (MemStore.Mint _ _ _) as [[es me] s]. by repeat case_match; intros [= <-]. }
  rewrite Hmeta Hk2 Ht2 Hnext Hout Ho Hn. split_and!; try done.
  - by rewrite -Ho.
  - eexists. split; [done|]. done.
  - by exists u.
  - rewrite -Hu. etrans; [eapply grows_weaken, Hg; done|done].
Qed.

Lemma credit_all_Ret userID txID txid tier plans p p' :
  credit_all clk userID txID txid tier plans p = (Ret (), p') →
  known_txs (p_meta p') = known_txs (p_meta p) ∧ transactions (p_meta p') = transactions (p_meta p) ∧
  (∀ k, k < nextOutputID (p_meta p) → outputs (p_meta p') !! k = outputs (p_meta p) !! k) ∧
  (∀ k r pl, k < nextOutputID (p_meta p) → outputs (p_meta p) !! k = Some r → o_TransactionID r = txID →
     pl ∈ plans → o_Vout r ≠ ip_vout pl) ∧
  (∀ pl, pl ∈ plans → (∃ k r, nextOutputID (p_meta p) ≤ k ∧ outputs (p_meta p') !! k = Some r ∧ row_credits userID txID pl r) ∧
     coin_credited txid userID pl (p_utxo p')) ∧
  grows (λ m, ∃ pl hash, pl ∈ plans ∧ NewHashFromHex txid = Some hash ∧ m = plan_mint hash userID tier pl) (p_utxo p) (p_utxo p').
Proof.
  revert p. induction plans as [|pl plans IH]; intros p; cbn.
  { intros [= <-]. split_and!; try done; set_solver. }
  intros ([] & p1 & (h & Hh' & Hk & Ht & Hn & Hfresh & (r & Hout & Hrow) & (u & Hu & Hcu) & Hg)%credit_one_Ret & Hrest)%ProcessCommit.bind_Ret.
  destruct (IH p1 Hrest) as (Hk1 & Ht1 & Hold & Hdup & Hall & Hg1). rewrite Hn in Hold, Hdup, Hall.
  split_and!; [congruence|congruence| | | |].
  - intros k Hlt. rewrite Hold; [|lia]. rewrite Hout lookup_insert_ne //. lia.
  - intros k r' pl' Hlt Hr' Htx [->|Hin]%elem_of_cons; [by eapply Hfresh|]. eapply (Hdup k r'); [lia| |done|done].
    rewrite Hout lookup_insert_ne //. lia.
  - intros pl' [->|Hin]%elem_of_cons.
    + split; [|exists h, u; split_and!; [done|by eapply grows_keeps|done..]]. exists (nextOutputID (p_meta p)), r.
      split; [lia|]. split; [|done]. rewrite Hold; [|lia]. by rewrite Hout lookup_insert_eq.
    + destruct (Hall pl' Hin) as [(k & r' & Hk' & ?) ?]. split; [|done]. exists k, r'. split; [lia|done].
  - etrans; [eapply grows_weaken, Hg|eapply grows_weaken, Hg1]; [|set_solver]. intros m ->. exists pl, h. split; [left|done].
Qed.

(** ** The unit of work *)

Lemma Upsert_Ret kt p x p' :
  ignoring is_skipped (meta_call clk (λ now, known (Upsert now kt []))) p = (Ret x, p') →
  p_utxo p' = p_utxo p ∧ transactions (p_meta p') = transactions (p_meta p) ∧ outputs (p_meta p') = outputs (p_meta p) ∧
  nextOutputID (p_meta p') = nextOutputID (p_meta p) ∧
  ∃ raw r, encTxID (kt_TxID kt) = Ret raw ∧ known_txs (p_meta p') = <[raw := r]> (known_txs (p_meta p)) ∧
    kt_Status r = kt_Status kt ∧ kt_BlockHeight r = kt_BlockHeight kt ∧ kt_BlockHash r = kt_BlockHash kt ∧
    kt_MerklePath r = kt_MerklePath kt ∧ kt_MerkleRoot r = kt_MerkleRoot kt ∧ kt_RawTx r = kt_RawTx kt.
Proof.
  intros Hi. pose proof Hi as ->%ProcessCommit.ignoring_call. revert Hi. rewrite /ignoring AbortProps.meta_call_eq. cbn.
  rewrite /known /zoom /Upsert /lift. cbv [mbind M_bind]. destruct (encTxID (kt_TxID kt)) as [raw|e|] eqn:He; [| |done].
  2: { revert He. rewrite /encTxID. case_match; [done|]. by intros [= <-]. }
  rewrite /upsert_row. destruct (known_txs (p_meta p) !! raw) as [old|] eqn:Hold.
  - assert (not_skipped [] old = true) as -> by done. cbn. intros _. split_and!; try done. eexists raw, _. split_and!; done.
  - cbn. intros _. split_and!; try done. eexists raw, _. split_and!; done.
Qed.

Lemma SetTxID_Ret now id txid m m' :
  SetTxID now id txid m = (Ret (), m') →
  known_txs m' = known_txs m ∧ outputs m' = outputs m ∧ nextOutputID m' = nextOutputID m ∧
  ∃ raw, encTxID txid = Ret raw ∧ ∀ r, transactions m !! id = Some r → tx_TxID r = None →
    ∃ r', transactions m' !! id = Some r' ∧ tx_TxID r' = Some raw ∧ tx_UserID r' = tx_UserID r ∧ tx_Status r' = tx_Status r.
Proof.
  rewrite /SetTxID /lift. cbv [mbind M_bind]. destruct (encTxID txid) as [raw| |]; [|done..].
  rewrite /update_txs. case_match; [|done]. intros [= <-]. split_and!; [done..|].
  exists raw. split; [done|]. intros r Hr Hnone. cbn. rewrite map_lookup_imap Hr. cbn. rewrite Z.eqb_refl.
  rewrite bool_decide_eq_true_2; [|by left]. cbn. by eexists.
Qed.
Lemma by_txid_Ret userID txid m l :
  Transactions_FindByTxID userID txid m = (Ret l, m) →
  ∃ raw, encTxID txid = Ret raw ∧
    ∀ id r, (id, r) ∈ l ↔ transactions m !! id = Some r ∧ tx_UserID r = userID ∧ tx_TxID r = Some raw.
Proof.
  rewrite /Transactions_FindByTxID /lift. cbv [mbind M_bind]. destruct (encTxID txid) as [raw| |]; [|done..].
  intros [= <-]. exists raw. split; [done|]. intros id r.
  rewrite /select_txs SortFunc_perm list_elem_of_filter elem_of_map_to_list /= andb_true_iff Z.eqb_eq /tx_has.
  destruct (tx_TxID r) as [x|]; [rewrite bool_decide_eq_true list_elem_of_singleton|]; naive_solver.
Qed.

Lemma attach_labels_Ret userID id ls p x p' :
  attach_all clk (@on_labels) userID id ls p = (Ret x, p') →
  same_rows (p_meta p) (p_meta p') ∧ grows (λ _, False) (p_utxo p) (p_utxo p').
Proof.
  intros E. split.
  - pose proof (attach_all_rows clk (@on_labels) userID id ls on_labels_rows p) as Hs. by rewrite E in Hs.
  - eapply steps_run, E. clear E. induction ls as [|y ls IH]; cbn; [apply steps_ret|]. apply steps_bind; [|done].
    apply steps_bind; [apply usteps_call, _|]. intros. apply usteps_call, _.
Qed.

(** The transaction the outputs are filed under: the user's own row of this txid. *)
Definition filed (userID : Z) (raw : Raw) (m : Meta) (txID : Z) : Prop :=
  ∃ row, transactions m !! txID = Some row ∧ tx_UserID row = userID ∧ tx_TxID row = Some raw.

Lemma insert_filed userID txStatus reference total args txid raw p txID p' :
  encTxID txid = Ret raw →
  (id ← Transactions_Insert clk (mkNewTx userID txStatus reference false total (ia_Description args) None None
          (ia_Tx args) (ia_Labels args));
   _ ← meta_call clk (λ now, SetTxID now id txid);
   mret id) p = (Ret txID, p') →
  known_txs (p_meta p') = known_txs (p_meta p) ∧ outputs (p_meta p') = outputs (p_meta p) ∧
  nextOutputID (p_meta p') = nextOutputID (p_meta p) ∧ filed userID raw (p_meta p') txID ∧
  grows (λ _, False) (p_utxo p) (p_utxo p').
Proof.
  intros Hraw (id & p1 & Hins & Hrest)%ProcessCommit.bind_Ret.
  pose proof (steps_run _ _ _ _ _ (Transactions_Insert_grows clk (λ _, False) _) Hins) as Hg.
  apply Transactions_Insert_Ret in Hins as (Hid & _ & m & now & Hins & Hrows).
  apply ProcessCommit.bind_Ret in Hrest as ([] & p2 & Hset & [= <- <-]).
  rewrite AbortProps.meta_call_eq in Hset. injection Hset as Hret%mapErr_Ret <-. cbn.
  pose proof (surjective_pairing (SetTxID (clk (p_ticks p1)) id txid (p_meta p1))) as Hsp. rewrite Hret in Hsp.
  apply SetTxID_Ret in Hsp as (Hk & Ho & Hn & raw' & Hraw' & Hrow). assert (raw' = raw) as -> by congruence.
  destruct Hrows as (Hk1 & Ht1 & Ho1 & _ & _ & Hn1 & _). revert Hins. rewrite /insert_tx. case_decide; [done|].
  intros Hins. injection Hins as _ <-. cbn in *. rewrite -Hid in Ht1.
  destruct (Hrow (mkTx userID None txStatus reference None false total (ia_Description args) None None (ia_Tx args) now now))
    as (r' & Hr' & Hx & Hu & _); [by rewrite Ht1 lookup_insert_eq|done|].
  split_and!; [congruence|congruence|congruence| |done]. by exists r'.
Qed.

Lemma store_internalized_Ret userID args txid reference tx mined pf existing plans total p p' :
  Transactions_FindByTxID userID txid (p_meta p) = (Ret existing, p_meta p) →
  store_internalized clk userID args txid reference tx mined pf existing plans total p = (Ret (), p') →
  ∃ raw kt txID, encTxID txid = Ret raw ∧
    known_txs (p_meta p') = <[raw := kt]> (known_txs (p_meta p)) ∧
    kt_Status kt = (int_statuses mined).1.1 ∧ kt_BlockHeight kt = pf_BlockHeight pf ∧ kt_MerklePath kt = pf_MerklePath pf ∧
    kt_MerkleRoot kt = pf_MerkleRoot pf ∧
    filed userID raw (p_meta p') txID ∧ head existing.*1 = (if nonempty existing then Some txID else None) ∧
    (∀ k r pl, k < nextOutputID (p_meta p) → outputs (p_meta p) !! k = Some r → o_TransactionID r = txID →
       pl ∈ plans → o_Vout r ≠ ip_vout pl) ∧
    (∀ pl, pl ∈ plans → (∃ k r, outputs (p_meta p') !! k = Some r ∧ row_credits userID txID pl r) ∧
       coin_credited txid userID pl (p_utxo p')) ∧
    grows (λ m, ∃ pl hash, pl ∈ plans ∧ NewHashFromHex txid = Some hash ∧
             m = plan_mint hash userID (int_statuses mined).2 pl) (p_utxo p) (p_utxo p').
Proof.
  intros (raw & Hraw & Hex)%by_txid_Ret. rewrite /store_internalized.
  destruct (int_statuses mined) as [[ktxStatus txStatus] tier] eqn:Hst.
  intros (x & p1 & (Hu & Ht & Ho & Hn & raw' & kt & Hraw' & Hk & Hks & Hbh & _ & Hmp & Hmr & _)%Upsert_Ret & Hrest)%ProcessCommit.bind_Ret.
  assert (raw' = raw) as -> by (cbn in Hraw'; congruence).
  apply ProcessCommit.bind_Ret in Hrest as (txID & p2 & Htx & Hcredit).
  assert (known_txs (p_meta p2) = known_txs (p_meta p1) ∧ outputs (p_meta p2) = outputs (p_meta p1) ∧
    nextOutputID (p_meta p2) = nextOutputID (p_meta p1) ∧ filed userID raw (p_meta p2) txID ∧
    head existing.*1 = (if nonempty existing then Some txID else None) ∧
    grows (λ _, False) (p_utxo p1) (p_utxo p2)) as (Hk2 & Ho2 & Hn2 & Hfiled & Hhead & Hg2).
  { destruct existing as [|[id row] rest].
    - apply (insert_filed _ _ _ _ _ _ raw) in Htx as (?&?&?&?&?); [|done]. by split_and!.
    - apply ProcessCommit.bind_Ret in Htx as (y & p3 & [(Hk3 & Ht3 & Ho3 & _ & _ & Hn3 & _) Hg]%attach_labels_Ret & [= <- <-]).
      split_and!; try done. exists row. rewrite Ht3 Ht. apply Hex. left. }
  destruct (credit_all_Ret _ _ _ _ _ _ _ Hcredit) as (Hk3 & Ht3 & _ & Hdup & Hall & Hg3).
  rewrite Hn2 Hn Ho2 Ho in Hdup. exists raw, kt, txID. cbn in *. split_and!; try done.
  - congruence.
  - destruct Hfiled as (row & ? & ?). exists row. by rewrite Ht3.
  - intros pl Hpl. destruct (Hall pl Hpl) as [(k & r & _ & ?) ?]. split; [by exists k, r|done].
  - rewrite -Hu. etrans; [eapply grows_weaken, Hg2; done|done].
Qed.

(** ** The action *)

Lemma reads_by_txid user txid : reads (Transactions_FindByTxID user txid).
Proof. apply reads_enc. Qed.
Lemma pure_Base64_ n : pure_ (Base64 entropy n).
Proof. apply CreateProps.pure_Base64. Qed.

(** What the action did, when it succeeds. *)
Lemma InternalizeAction_Ret user args p r p' :
  InternalizeAction clk shared entropy hdrs verifier (Some user) args p = (Ret r, p') →
  ∃ beef hash tx plans total existing reference pf p1,
    NewBeefFromAtomicBytes (ia_Tx args) = Some (beef, hash) ∧ verifier beef false = Some true ∧ find_atomic beef hash = Some tx ∧
    Forall2 (planned (src_Outputs tx)) (omap id (ia_Outputs args)) plans ∧
    planInternalizedOutputs (src_Outputs tx) (ia_Outputs args) 0 = Ret (plans, total) ∧
    r = mkIntResult true (nonempty existing) (Hash_String hash) total ∧
    match FindBumpByHash beef hash with Some mp => proof_of_path hdrs hash mp | None => Ret (mkProofCols None [] [] []) end = Ret pf ∧
    p_meta p1 = p_meta p ∧ p_utxo p1 = p_utxo p ∧
    Transactions_FindByTxID user (Hash_String hash) (p_meta p1) = (Ret existing, p_meta p1) ∧
    store_internalized clk user args (Hash_String hash) reference tx (bool_decide (is_Some (FindBumpByHash beef hash))) pf
      existing plans total p1 = (Ret (), p').
Proof.
  rewrite /InternalizeAction. intros (u & p0 & [= <- <-] & Hr)%ProcessCommit.bind_Ret.
  apply ProcessCommit.bind_Ret in Hr as ([beef hash] & p0 & [Hbeef ->]%refuse_none_Ret & Hr).
  apply ProcessCommit.bind_Ret in Hr as (ok & p0 & [Hok ->]%refuse_none_Ret & Hr). destruct ok; [|done]. cbn in Hr.
  apply ProcessCommit.bind_Ret in Hr as (tx & p0 & [Htx ->]%refuse_none_Ret & Hr).
  apply ProcessCommit.bind_Ret in Hr as ([plans total] & p0 & [Hplans ->]%lift_Ret & Hr).
  apply ProcessCommit.bind_Ret in Hr as (reference & p1 & [Hm Hu]%pure_Ret & Hr); [|apply pure_Base64_].
  apply ProcessCommit.bind_Ret in Hr as (existing & p2 & [-> Hex]%meta_read_Ret & Hr); [|apply reads_by_txid].
  apply ProcessCommit.bind_Ret in Hr as (pf & p2 & [Hpf ->]%lift_Ret & Hr).
  apply ProcessCommit.bind_Ret in Hr as ([] & p2 & [Hst _]%Do_runs & [= <- <-]).
  exists beef, hash, tx, plans, total, existing, reference, pf, p1. split_and!; try done. by eapply plans_Ret.
Qed.

(** C39: Internalizing credits the requested outputs, with the values of the transaction,
    once.  When the call succeeds, the BEEF passed the verifier, and every requested
    output exists in the transaction, was not yet stored under the user's transaction,
    and now has an unspent row and a coin of the user worth what the transaction pays
    there.  The coin store gained coins for requested outputs of the user, in the tier
    of mined coins just when the BEEF proves the transaction, and nothing else changed
    there. *)
Theorem internalize_credits user args p r p' :
  InternalizeAction clk shared entropy hdrs verifier (Some user) args p = (Ret r, p') →
  ∃ beef hash tx raw txID,
    NewBeefFromAtomicBytes (ia_Tx args) = Some (beef, hash) ∧ verifier beef false = Some true ∧
    find_atomic beef hash = Some tx ∧ ir_TxID r = Hash_String hash ∧ encTxID (ir_TxID r) = Ret raw ∧
    filed user raw (p_meta p') txID ∧
    (∀ o, Some o ∈ ia_Outputs args → ∃ sats ls k row h u,
       src_Outputs tx !! Z.to_nat (io_OutputIndex o) = Some (sats, ls) ∧
       (∀ k' row', k' < nextOutputID (p_meta p) → outputs (p_meta p) !! k' = Some row' → o_TransactionID row' = txID →
          o_Vout row' ≠ io_OutputIndex o) ∧
       outputs (p_meta p') !! k = Some row ∧ o_UserID row = user ∧ o_TransactionID row = txID ∧
       o_Vout row = io_OutputIndex o ∧ o_Satoshis row = i64 sats ∧ o_SpentBy row = None ∧
       NewHashFromHex (ir_TxID r) = Some h ∧ coin (p_utxo p') (mkOutpoint h (io_OutputIndex o)) = Some u ∧
       u_UserID u = user ∧ u_Satoshis u = u64 (i64 sats)) ∧
    grows (λ m, m_UserID m = user ∧ m_Tier m = (if bool_decide (is_Some (FindBumpByHash beef hash)) then TierMined else TierUnproven) ∧
             ∃ o, Some o ∈ ia_Outputs args ∧ Vout (m_Outpoint m) = io_OutputIndex o ∧
                  NewHashFromHex (ir_TxID r) = Some (TxID (m_Outpoint m))) (p_utxo p) (p_utxo p').
Proof.
  intros (beef & hash & tx & plans & total & existing & reference & pf & p1 & Hbeef & Hv & Htx & Hplans & _ & -> & _ &
    Hm & Hu & Hex & Hst)%InternalizeAction_Ret.
  apply store_internalized_Ret in Hst as (raw & kt & txID & Hraw & _ & _ & _ & _ & _ & Hfiled & _ & Hdup & Hall & Hg); [|done].
  rewrite Hm in Hdup. rewrite Hu in Hg. exists beef, hash, tx, raw, txID. split_and!; try done.
  - intros o Ho. assert (o ∈ omap id (ia_Outputs args)) as Hin by (apply list_elem_of_omap; by exists (Some o)).
    apply list_elem_of_lookup in Hin as (i & Hi). destruct (Forall2_lookup_l _ _ _ _ _ Hplans Hi) as (pl & Hpl & Hv' & (sats & ls & Hso & Hs & _) & _).
    apply list_elem_of_lookup_2 in Hpl. destruct (Hall pl Hpl) as [(k & row & Hk & Hu1 & Hu2 & Hu3 & Hu4 & _ & _ & _ & Hu5 & _) (h & u & Hh & Hc & Hc1 & _ & Hc2)].
    rewrite Hv' in Hu3, Hc. rewrite Hs in Hu4, Hc2. exists sats, ls, k, row, h, u. split_and!; try done.
    intros k' row' Hlt Hr Ht. rewrite -Hv'. by eapply Hdup.
  - eapply grows_weaken, Hg. intros m (pl & h & Hpl & Hh & ->). split_and!; [done|by destruct (bool_decide _)|].
    apply list_elem_of_lookup in Hpl as (i & Hi). destruct (Forall2_lookup_r _ _ _ _ _ Hplans Hi) as (o & Ho & Hv' & _).
    apply list_elem_of_lookup_2 in Ho. apply list_elem_of_omap in Ho as ([o'|] & Ho & [= <-]). by exists o'.
Qed.
End internalize.

(** ** The trust anchor *)

Section anchor.
Context `{MapRange, Atomic : AtomicSdk}.
Context (clk : nat → Time) (shared : bool) (entropy : nat → Z → option Bytes) (h : Headers).

(** [Beef.Verify]: the root of every path of a verified BEEF is one the chain tracker
    confirms at the height of the path. *)
Definition VerifyLaw : Prop := ∀ roots beef only hash mp,
  Beef_Verify roots beef only = Some true → FindBumpByHash beef hash = Some mp →
  ∃ root, mp_ComputeRoot mp hash = Some root ∧ roots root (mp_BlockHeight mp) = Some true.

(** C40: Internalized proofs rest on the header source.  With the verifier a provider has
    by default, a successful internalization stores the transaction as completed only
    with a merkle root that the header source confirms at the height it stores.  Without
    a proof in the BEEF the stored row becomes unconfirmed and loses its proof columns,
    whatever it was before: the upsert is unconditional, so a second BEEF of a completed
    transaction takes its completion back. *)
Theorem internalize_anchored user args p r p' :
  VerifyLaw →
  InternalizeAction clk shared entropy (Some h) (defaultBeefVerifier h) (Some user) args p = (Ret r, p') →
  ∃ beef hash raw kt, NewBeefFromAtomicBytes (ia_Tx args) = Some (beef, hash) ∧ encTxID (ir_TxID r) = Ret raw ∧
    known_txs (p_meta p') = <[raw := kt]> (known_txs (p_meta p)) ∧
    match FindBumpByHash beef hash with
    | Some mp => kt_Status kt = ProvenTxStatusCompleted ∧ kt_BlockHeight kt = Some (mp_BlockHeight mp) ∧
                 ∃ root, mp_ComputeRoot mp hash = Some root ∧ VerifyMerkleRoot h root (mp_BlockHeight mp) = Some true ∧
                         kt_MerkleRoot kt = hash_bytes root
    | None => kt_Status kt = ProvenTxStatusUnconfirmed ∧ kt_BlockHeight kt = None ∧ kt_MerklePath kt = [] ∧ kt_MerkleRoot kt = []
    end.
Proof.
  intros Hlaw (beef & hash & tx & plans & total & existing & reference & pf & p1 & Hbeef & Hv & Htx & Hplans & _ & -> & Hpf &
    Hm & Hu & Hex & Hst)%InternalizeAction_Ret.
  apply store_internalized_Ret in Hst as (raw & kt & txID & Hraw & Hkt & Hks & Hbh & Hmp & Hmr & _); [|done].
  rewrite Hm in Hkt. exists beef, hash, raw, kt. split_and!; try done.
  destruct (FindBumpByHash beef hash) as [mp|] eqn:Hb; cbn in Hpf, Hks.
  - destruct (Hlaw _ _ _ _ _ Hv Hb) as (root & Hroot & Hok). rewrite Hroot in Hpf. injection Hpf as <-. cbn in *.
    split_and!; try done. by exists root.
  - injection Hpf as <-. by cbn in *.
Qed.
End anchor.
End InternalizeProps.
