(* ===== verification/TransferExample.v ===== *)
(** * TransferExample: coins that come and go

    The wallet of [CreateExample] relinquishes a coin, is synced into an empty storage,
    and a payment is internalized there. *)
From Stdlib Require Import Ascii String.
From S2P Require Import Prelude UtxoTypes MemStore StoreContract Statuses GoStrings Primitives KnownTx Catalog Ledger Requests.
From S2P Require Import StatusUpdates StatusUpdatesProps Process ProcessExample Beef Create CreateExample.
From S2P Require Import Validate Queries QueriesProps Internalize InternalizeProps Sync SyncProps.
Import StoreContract WdkStatus KnownTxRepo Ledger StatusUpdates StatusUpdatesExample Process ProcessExample Random CreateExample.
Import Requests Queries QueriesProps Internalize InternalizeProps Sync SyncProps.
Local Open Scope string_scope.
Local Open Scope Z_scope.

Module TransferExample.
Import Catalog.
#[local] Existing Instance sdk0.
#[local] Existing Instance range_canonical.
#[local] Existing Instance txsdk0.
#[local] Existing Instance beefsdk0.
#[local] Existing Instance tolib_std.

(** ** Relinquishing *)

Definition giveup : RelinquishOutputArgs := mkRelinquish "default" "ab01.0".
Definition p11 : Provider := (RelinquishOutput_ clk0 false (Some 7) giveup p8).2.

Lemma relinquish_removes_free_only_witness :
  claimable_coin (p_utxo p8) (mkOutpoint 43777 0) ∧ StoreContract.coin (p_utxo p11) (mkOutpoint 43777 0) = None.
Proof.
  assert (Hc : claimable_coin (p_utxo p8) (mkOutpoint 43777 0)) by (eexists; unfold free; split_and!; vm_compute; reflexivity).
  split; [exact Hc|].
  destruct (relinquish_removes_free_only clk0 false 7 giveup p8 p11) as (txid & vout & hash & raw & Hget & Hh & _ & _ & _ & Hgone & _).
  - vm_compute. reflexivity.
  - vm_compute in Hget. injection Hget as <- <-. vm_compute in Hh. injection Hh as <-. exact (Hgone Hc).
Defined.

(** ** Sync *)

Definition catalog7 : Catalog := mkCatalog {[ 7 := mkUser 7 "alice" "" 10 10 ]} ∅ ∅ ∅ ∅ 8 1 1.
Definition ps : Provider := mkProvider (with_catalog catalog7 meta0) utxo8 0.
Definition pt : Provider := mkProvider (mkMeta ∅ ∅ ∅ ∅ 1 1 false no_names no_names no_catalog) MemStore.New 0.
Definition request : RequestSyncChunkArgs := mkSyncArgs "here" "there" "alice" None 0 0.
Definition chunk : SyncChunk := match (GetSyncChunk "here" request ps).1 with Ret c => c | _ => NewSyncChunk "" "" "" end.
Definition pt' : Provider := (ProcessSyncChunk clk0 false request (Some chunk) pt).2.
Definition synced : ProcessSyncChunkResult :=
  match (ProcessSyncChunk clk0 false request (Some chunk) pt).1 with Ret r => r | _ => mkSyncResult false None 0 0 end.

Lemma chunk_run : GetSyncChunk "here" request ps = (Ret chunk, ps).
Proof. vm_compute. reflexivity. Qed.
Lemma sync_run : ProcessSyncChunk clk0 false request (Some chunk) pt = (Ret synced, pt').
Proof. vm_compute. reflexivity. Qed.
Lemma ps_ok : source_ok (p_meta ps).
Proof.
  split.
  - intros i j r r'. change (transactions (p_meta ps)) with (transactions meta0). rewrite /meta0 /=.
    by intros [[<- <-]|[_ [<- <-]%lookup_singleton_Some]]%lookup_insert_Some
      [[<- <-]|[_ [<- <-]%lookup_singleton_Some]]%lookup_insert_Some Href.
  - intros id o t. change (outputs (p_meta ps)) with (outputs meta0). rewrite {1}/meta0 /=.
    intros [<- <-]%lookup_singleton_Some. by intros [= <-].
  - split; cbn.
    + intros id u [<- <-]%lookup_singleton_Some. cbn. lia.
    + intros i j u v [<- _]%lookup_singleton_Some [<- _]%lookup_singleton_Some. done.
    + by intros k b ?%lookup_empty_Some.
    + by intros k b ?%lookup_empty_Some.
    + by intros i j b q ?%lookup_empty_Some.
    + by intros k b ?%lookup_empty_Some.
Qed.

Lemma sync_never_resurrects_witness :
  StoreContract.coin (p_utxo pt) (mkOutpoint 43777 0) = None ∧ claimable_coin (p_utxo ps) (mkOutpoint 43777 0).
Proof.
  split; [vm_compute; reflexivity|].
  destruct (sync_never_resurrects "here" clk0 false request request ps chunk ps pt (Ret synced) pt' chunk_run sync_run)
    as (_ & _ & Hnew).
  assert (Hu : is_Some (StoreContract.coin (p_utxo pt') (mkOutpoint 43777 0))) by (vm_compute; eexists; reflexivity).
  destruct Hu as [u Hu]. destruct (Hnew (mkOutpoint 43777 0) u eq_refl Hu) as (_ & _ & Hc & _). exact Hc.
Defined.

Lemma sync_rebuilds_inventory_witness :
  ∃ u, StoreContract.coin (p_utxo pt') (mkOutpoint 43777 0) = Some u ∧ u_Satoshis u = 900.
Proof.
  destruct (sync_rebuilds_inventory "here" clk0 false request request ps chunk ps pt synced pt' ps_ok eq_refl chunk_run)
    as (tu & _ & Hall).
  - intros t _ (k & r & Hk & _). discriminate Hk.
  - exact sync_run.
  - destruct (Hall (mkUser 7 "alice" "" 10 10) 1
      (mkOutput 7 1 0 900 [] (Some "default") None true "P2PKH" "storage" "change" "" None None None None 10 10)
      (mkTx 7 None TxStatusUnproven "ref1" (Some (key "ab01")) true (-20) "pay" None None ["b"%char] 10 10) "ab01" 43777)
      as (u & Hu & _ & Hs); try (vm_compute; reflexivity).
    + eexists; unfold free; split_and!; vm_compute; reflexivity.
    + exists u. split; [exact Hu|exact Hs].
Defined.

(** ** Internalizing *)

(** An atomic BEEF is about ab01, which pays 700 and is in block 100. *)
Definition atomic0 : AtomicSdk := {|
  NewBeefFromAtomicBytes := λ b, match b with [] => None | _ => Some ((), 43777) end;
  FindAtomicTransactionByHash := λ _ _, Some 700;
  FindBumpByHash := λ _ h, if h =? 43777 then Some [byte 100] else None;
  Beef_Verify := λ roots _ _, roots 43784 100;
|}.
#[local] Existing Instance atomic0.
Lemma verify_law0 : VerifyLaw.
Proof.
  intros roots beef only hash mp Hv. cbn in Hv |- *. destruct (Z.eqb_spec hash 43777) as [->|]; [|done]. intros [= <-].
  exists 43784. split; [done|]. exact Hv.
Qed.
Definition headers0 : Headers :=
  mkHeaders (λ root height, if height =? 100 then Some (root =? 43784) else None) (λ _, Some 4660).
Definition payment : InternalizeActionArgs :=
  mkIntArgs ["t"%char] [Some (mkIntOutput 0 WalletPaymentProtocol
    (Some (mkPayment "AAAA" "AAAA" "02aaaaaaaaaaaaaaaaaaaaaaaaaaaaaaaaaaaaaaaaaaaaaaaaaaaaaaaaaaaaaaaa")) None)] "a payment" [].
Abbreviation receive := (InternalizeAction clk0 false entropy0 (Some headers0) (defaultBeefVerifier headers0) (Some 7) payment pt).
Definition p12 : Provider := receive.2.
Definition received : InternalizeActionResult := mkIntResult true false "ab01" 700.
Lemma receive_run : receive = (Ret received, p12).
Proof. vm_compute. reflexivity. Qed.

Lemma internalize_credits_witness :
  ∃ h u, NewHashFromHex "ab01" = Some h ∧ StoreContract.coin (p_utxo p12) (mkOutpoint h 0) = Some u ∧ u_Satoshis u = 700.
Proof.
  destruct (internalize_credits clk0 false entropy0 (Some headers0) (defaultBeefVerifier headers0) 7 payment pt received p12 receive_run)
    as (beef & hash & tx & raw & txID & Hb & _ & Htx & _ & _ & _ & Hall & _).
  vm_compute in Hb. injection Hb as <- <-. vm_compute in Htx. injection Htx as <-.
  destruct (Hall _ ltac:(left)) as (sats & ls & k & row & h & u & Hs & _ & _ & _ & _ & _ & _ & _ & Hh & Hu & _ & Hv).
  vm_compute in Hs. injection Hs as <- _. exists h, u. split_and!; [exact Hh|exact Hu|exact Hv].
Defined.
Lemma internalize_anchored_witness :
  ∃ raw kt, encTxID "ab01" = Ret raw ∧ known_txs (p_meta p12) = <[raw := kt]> (known_txs (p_meta pt)) ∧
    kt_Status kt = ProvenTxStatusCompleted.
Proof.
  destruct (internalize_anchored clk0 false entropy0 headers0 7 payment pt received p12 verify_law0 receive_run)
    as (beef & hash & raw & kt & Hb & Hraw & Hk & Hm).
  vm_compute in Hb. injection Hb as <- <-. exists raw, kt. split_and!; [exact Hraw|exact Hk|apply Hm].
Defined.
End TransferExample.
