(* ===== verification/SqlDb.v ===== *)
(** * SqlDb: the table, the connection and the statements of the SQL coin store

    The schema of [pkg/utxostore/sqlstore/migrations], the dialect helpers and the
    lock-error retry of [internal/sqlkit], and the transaction discipline of
    [pkg/utxostore/sqlstore/sqlstore.go].

    A connection sees the committed rows overlaid with what its own transaction
    wrote.  Before each statement an [event] happens: other callers commit changes to
    rows this transaction holds no lock on, they may hold locks of their own, and the
    engine may refuse the statement.  A refused statement changes nothing; a rolled
    back transaction leaves what the others committed.  No more events means that the
    caller is alone.  The order in which an engine yields rows without an ORDER BY is
    unspecified, which is what the class [MapRange] says. *)
From S2P Require Import Prelude UtxoTypes.
Local Open Scope Z_scope.

Module SqlDb.

Inductive Engine := EnginePostgres | EngineSQLite.
#[global] Instance Engine_eq_dec : EqDecision Engine.
Proof. solve_decision. Defined.

(** ** Codecs *)

(** Nanoseconds from Go's zero time to the Unix epoch. *)
Definition unixEpoch : Time := 62135596800 * 1000000000.

(** [t.UnixMicro()] and [time.UnixMicro]; PostgreSQL's TIMESTAMPTZ has the same
    resolution, so both engines store the number of microseconds. *)
Definition UnixMicro (t : Time) : Z := (t - unixEpoch) / 1000.
Definition ofUnixMicro (x : Z) : Time := unixEpoch + 1000 * x.

Definition EncTime (t : Time) : Z := UnixMicro t.
Definition TsGet (x : option Z) : Time :=
  match x with Some i => ofUnixMicro i | None => zeroTime end.

(** ** The table *)

(** The columns of [utxos] beside its key [(txid, vout)]. *)
Record Row := mkRow {
  user_id : Z;
  basket : string;
  tier : Tier;
  satoshis : Z;
  input_size : Z;
  seq : Z;
  reserved_by : option string;
  reserved_at : option Z;
  spent_by : option Hash;
  frozen : bool;
  pinned : bool;
  created_at : Z;
}.
Abbreviation Table := (gmap Outpoint Row).

(** The SET clauses. *)
Definition SET_reserved (by_ : option string) (at_ : option Z) (r : Row) : Row :=
  mkRow (user_id r) (basket r) (tier r) (satoshis r) (input_size r) (seq r)
    by_ at_ (spent_by r) (frozen r) (pinned r) (created_at r).
Definition SET_spent_by (w : option Hash) (r : Row) : Row :=
  mkRow (user_id r) (basket r) (tier r) (satoshis r) (input_size r) (seq r)
    (reserved_by r) (reserved_at r) w (frozen r) (pinned r) (created_at r).
Definition SET_frozen (b : bool) (r : Row) : Row :=
  mkRow (user_id r) (basket r) (tier r) (satoshis r) (input_size r) (seq r)
    (reserved_by r) (reserved_at r) (spent_by r) b (pinned r) (created_at r).
Definition SET_pinned (b : bool) (r : Row) : Row :=
  mkRow (user_id r) (basket r) (tier r) (satoshis r) (input_size r) (seq r)
    (reserved_by r) (reserved_at r) (spent_by r) (frozen r) b (created_at r).
Definition SET_tier (t : Tier) (r : Row) : Row :=
  mkRow (user_id r) (basket r) t (satoshis r) (input_size r) (seq r)
    (reserved_by r) (reserved_at r) (spent_by r) (frozen r) (pinned r) (created_at r).

(** ** Connections *)

Record event := mkEvent {
  ev_peers : Table → Table;       (** what others commit *)
  ev_draws : Z;                   (** how many insertion numbers they drew *)
  ev_locked : Outpoint → bool;    (** the rows they hold locks on *)
  ev_fault : option error;        (** the engine's refusal of the statement *)
}.
Definition quiet : event := mkEvent id 0 (λ _, false) None.

Record Conn := mkConn {
  committed : Table;
  visible : Table;
  utxo_seq : Z;
  locks : gset Outpoint;
  in_tx : bool;
  single_writer : bool;
  events : list event;
}.

(** The rows this transaction holds stay as it sees them; the others are what is
    committed.  An open transaction of a single-writer database ([_txlock=immediate] of
    SQLite) keeps every other writer out. *)
Definition overlay (held : gset Outpoint) (mine theirs : Table) : Table :=
  filter (λ kr, kr.1 ∈ held) mine ∪ filter (λ kr, kr.1 ∉ held) theirs.

Definition arrive (c : Conn) : event * Conn :=
  match events c with
  | [] => (quiet, c)
  | e :: es =>
      if single_writer c && in_tx c then
        (e, mkConn (committed c) (visible c) (utxo_seq c) (locks c) (in_tx c) (single_writer c) es)
      else
        let theirs := overlay (locks c) (committed c) (ev_peers e (committed c)) in
        (e, mkConn theirs (overlay (locks c) (visible c) theirs) (utxo_seq c + ev_draws e)
              (locks c) (in_tx c) (single_writer c) es)
  end.

(** Outside a transaction every statement commits on its own. *)
Definition settle (c : Conn) : Conn :=
  if in_tx c then c
  else mkConn (visible c) (visible c) (utxo_seq c) ∅ false (single_writer c) (events c).

(** One statement: from the rows peers hold, the visible table and the counter to
    its result, the new table and counter, and the rows it locked. *)
Definition statement {A}
    (f : (Outpoint → bool) → Table → Z → A * (Table * Z * gset Outpoint)) : M Conn error A := λ c,
  let '(e, c1) := arrive c in
  match ev_fault e with
  | Some x => (Err x, c1)
  | None =>
      let '(a, (t, q, touched)) := f (ev_locked e) (visible c1) (utxo_seq c1) in
      (Ret a, settle (mkConn (committed c1) t q (locks c1 ∪ touched) (in_tx c1)
                       (single_writer c1) (events c1)))
  end.

(** Binding the arguments of a statement.  A value that its column or parameter cannot
    hold is refused by the driver before the statement runs, or by the cast of the
    statement's key relation: 32 bits with a sign for PostgreSQL's INTEGER, 64 bits with
    a sign for BIGINT and for SQLite. *)
Definition binding {A} (fits : bool) (m : M Conn error A) : M Conn error A :=
  if fits then m else throw (ErrBackend OutOfRange).
Definition int4 (x : Z) : bool := x <? 2 ^ 31.
Definition int8 (x : Z) : bool := x <? 2 ^ 63.

(** ** Statements *)

Section statements.
Context `{MapRange}.

Definition matching (P : Outpoint → Row → bool) (t : Table) : Table :=
  filter (λ kr, P kr.1 kr.2 = true) t.

(** [UPDATE utxos SET .. WHERE ..]: its RETURNING rows, whose number is RowsAffected. *)
Definition UPDATE (P : Outpoint → Row → bool) (g : Row → Row) : M Conn error (list (Outpoint * Row)) :=
  statement (λ _ t q,
    (range_map (g <$> matching P t),
     (map_imap (λ op r, Some (if P op r then g r else r)) t, q, dom (matching P t)))).

(** [DELETE FROM utxos WHERE ..]: RowsAffected. *)
Definition DELETE (P : Outpoint → Row → bool) : M Conn error Z :=
  statement (λ _ t q,
    (Z.of_nat (size (matching P t)),
     (filter (λ kr, P kr.1 kr.2 = false) t, q, dom (matching P t)))).

(** [SELECT ..], any query that takes no locks. *)
Definition SELECT {A} (query : Table → A) : M Conn error A :=
  statement (λ _ t q, (query t, (t, q, ∅))).

(** [SELECT .. WHERE txid=? AND vout=? FOR UPDATE]. *)
Definition SELECT_FOR_UPDATE (op : Outpoint) : M Conn error (option Row) :=
  statement (λ _ t q, (t !! op, (t, q, match t !! op with Some _ => {[op]} | None => ∅ end))).

Definition SELECT_one (op : Outpoint) : M Conn error (option Row) := SELECT (λ t, t !! op).
End statements.

(** [UPDATE utxo_seq SET val = val + 1 RETURNING val], and the IDENTITY column. *)
Definition draw_seq : M Conn error Z := statement (λ _ t q, (q + 1, (t, q + 1, ∅))).

(** [INSERT .. ON CONFLICT (txid, vout) DO NOTHING] with the schema's CHECK: the
    number of rows inserted, or the violation. *)
Definition INSERT_at (op : Outpoint) (row : Z → Row) (next : Z → Z) : M Conn error (option Z) :=
  statement (λ _ t q,
    let r := row (next q) in
    if satoshis r <=? 0 then (None, (t, next q, ∅))
    else match t !! op with
         | Some _ => (Some 0, (t, next q, ∅))
         | None => (Some 1, (<[op := r]> t, next q, {[op]}))
         end).

Definition INSERT (op : Outpoint) (row : Z → Row) (next : Z → Z) : M Conn error Z :=
  INSERT_at op row next ≫= λ n : option Z,
  match n with Some k => mret k | None => throw (ErrBackend CheckViolated) end.

(** ** Transactions and retries *)

(** [IsLockError]: 40001, 40P01, 55P03 of PostgreSQL, BUSY and LOCKED of SQLite. *)
Definition IsLockError (e : error) : bool :=
  match e with ErrBackend (LockConflict _) => true | _ => false end.

Definition maxLockRetries : nat := 3.

(** [left] more attempts are allowed after this one.  The wait between attempts is
    not modelled; what happens meanwhile is part of the next event. *)
Fixpoint retry_from {A} (left : nat) (fn : M Conn error A) : M Conn error A := λ c,
  match fn c with
  | (Err e, c') =>
      if IsLockError e then
        match left with O => (Err e, c') | S left' => retry_from left' fn c' end
      else (Err e, c')
  | r => r
  end.
Definition WithRetry {A} (fn : M Conn error A) : M Conn error A := retry_from maxLockRetries fn.

Definition set_tx (b : bool) (vis com : Table) (c : Conn) : Conn :=
  mkConn com vis (utxo_seq c) ∅ b (single_writer c) (events c).

Definition BeginTx : M Conn error () := λ c,
  let '(e, c1) := arrive c in
  match ev_fault e with
  | Some x => (Err x, c1)
  | None => (Ret (), set_tx true (committed c1) (committed c1) c1)
  end.
Definition Rollback (c : Conn) : Conn := set_tx false (committed c) (committed c) c.
Definition Commit : M Conn error () := λ c,
  let '(e, c1) := arrive c in
  match ev_fault e with
  | Some x => (Err x, Rollback c1)
  | None => (Ret (), set_tx false (visible c1) (visible c1) c1)
  end.

(** One attempt of [withTx]. *)
Definition transaction {A} (fn : M Conn error A) : M Conn error A := λ c,
  match BeginTx c with
  | (Ret _, c1) =>
      match fn c1 with
      | (Ret a, c2) =>
          match Commit c2 with
          | (Ret _, c3) => (Ret a, c3)
          | (Err e, c3) => (Err e, c3)
          | (Panic, c3) => (Panic, c3)
          end
      | (Err e, c2) => (Err e, Rollback c2)
      | (Panic, c2) => (Panic, Rollback c2)
      end
  | (Err e, c1) => (Err e, c1)
  | (Panic, c1) => (Panic, c1)
  end.

(** [withTx]: an ambient transaction is reused, and its owner ends it. *)
Definition withTx {A} (fn : M Conn error A) : M Conn error A := λ c,
  if in_tx c then fn c else WithRetry (transaction fn) c.

End SqlDb.
