(* ===== verification/SqlStore.v ===== *)
(** * SqlStore: the PostgreSQL and SQLite coin store

    [pkg/utxostore/sqlstore]: [ops_inventory.go], [ops_claim.go], [ops_spend.go] and
    the methods of [sqlstore.go], operation by operation and statement by statement,
    for both engines.  The dialect switch is the variable [engine].

    [clk i] is the i-th reading of the store's clock made by one call.  A result of
    type [option error] is a per-item refusal; a failing statement is an error of the
    monad, the code's [fatal]. *)
From S2P Require Import Prelude UtxoTypes SqlDb.
Import SqlDb.
Local Open Scope Z_scope.

Module SqlStore.

Record Store := mkStore { conn : Conn; closed : bool; ownsDB : bool }.

Definition with_conn (c : Conn) (s : Store) : Store := mkStore c (closed s) (ownsDB s).
Definition on_conn {A} (m : M Conn error A) : M Store error A := zoom conn with_conn id m.

(** [if s.isClosed() { return errClosed }] and [if err := validate; err != nil]. *)
Definition guard_open {A} (k : M Store error A) : M Store error A := λ s,
  if closed s then (Err ErrClosed, s) else k s.
Definition guard_valid {A} (v : option error) (k : M Store error A) : M Store error A :=
  match v with Some e => throw e | None => k end.

Definition batch_result (es : list error) : outcome error () :=
  match JoinBatch es with None => Ret () | Some e => Err e end.

(** ** Rows *)

(** [reservedBy.String]: NULL reads as the empty string. *)
Definition str (x : option string) : string := default "" x.

(** [scanUTXO]. *)
Definition scanUTXO (op : Outpoint) (r : Row) : UTXO :=
  mkUTXO op (user_id r) (basket r) (satoshis r) (input_size r) (tier r)
    (str (reserved_by r)) (TsGet (reserved_at r)) (spent_by r) (frozen r) (pinned r)
    (TsGet (Some (created_at r))).

(** [WHERE txid=? AND vout=?] and the key relation of the set-based statements: two
    arrays walked in step. *)
Definition at_op (op op' : Outpoint) : bool := bool_decide (op' = op).
Definition pairArgs (ops : list Outpoint) : list Hash * list Z := (TxID <$> ops, Vout <$> ops).
Definition unnest (args : list Hash * list Z) : list Outpoint := zip_with mkOutpoint args.1 args.2.
(** [k.vout::integer]. *)
Definition keys_fit (ops : list Outpoint) : bool := forallb (λ op, int4 (Vout op)) ops.
Definition pgKeyMatch (args : list Hash * list Z) (op' : Outpoint) : bool :=
  bool_decide (op' ∈ unnest args).

Definition is_null {A} (x : option A) : bool := match x with None => true | Some _ => false end.
Definition notPinned (r : Row) : bool := negb (pinned r).
Definition notFrozen (r : Row) : bool := negb (frozen r).

(** [guardAttempts]. *)
Definition guardAttempts : nat := 2.

(** [Health] and [Close]; closing an owned handle asks the driver. *)
Definition ping : M Conn error () := SELECT (λ _, ()).
Definition Health (checkLiveness : bool) : M Store error (Z * string * option error) := λ s,
  if closed s then (Ret (503, "closed", Some ErrClosed), s)
  else if checkLiveness then
    match ping (conn s) with
    | (Err e, c) => (Ret (503, "database unreachable", Some e), with_conn c s)
    | (_, c) => (Ret (200, "OK", None), with_conn c s)
    end
  else (Ret (200, "OK", None), s).

Definition Close : M Store error () := λ s,
  if closed s then (Ret (), s)
  else if ownsDB s then on_conn ping (mkStore (conn s) true (ownsDB s))
  else (Ret (), mkStore (conn s) true (ownsDB s)).

(** A spend of a batch with its position, and the [Err] slots by position. *)
Abbreviation item := (nat * SpendOp)%type.
Abbreviation slots := (gmap nat error).

Section store.
Context `{MapRange} (engine : Engine).

Abbreviation postgres := (bool_decide (engine = EnginePostgres)).

(** The [vout] column is an INTEGER, which is 32 bits with a sign on PostgreSQL only. *)
Definition key_fits (op : Outpoint) : bool := negb postgres || int4 (Vout op).

(** A loop over a batch that runs a statement or two per item. *)
Fixpoint for_each {A B} (f : A → M Conn error B) (l : list A) : M Conn error (list B) :=
  match l with
  | [] => mret []
  | x :: l' => y ← f x; ys ← for_each f l'; mret (y :: ys)
  end.

(** ** Inventory *)

Definition mint_row (created : Z) (m : UtxoTypes.Mint) (q : Z) : Row :=
  mkRow (m_UserID m) (m_Basket m) (m_Tier m) (m_Satoshis m) (m_InputSize m) q
    None None None false false created.

Definition insertMint (now : Time) (m : UtxoTypes.Mint) : M Conn error Z :=
  let created := EncTime now in
  match engine with
  | EngineSQLite =>
      q ← draw_seq;
      binding (int8 (m_Satoshis m)) (INSERT (m_Outpoint m) (λ _, mint_row created m q) id)
  | EnginePostgres =>
      binding (key_fits (m_Outpoint m) && int8 (m_Satoshis m) && int4 (m_InputSize m))
        (INSERT (m_Outpoint m) (mint_row created m) (λ q, q + 1))
  end.

Definition mintOne (now : Time) (m : UtxoTypes.Mint) : M Conn error () :=
  match ValidateMint m with
  | Some e => throw e
  | None =>
      n ← insertMint now m;
      if n =? 1 then mret ()
      else
        row ← SELECT_one (m_Outpoint m);
        match row with
        | None => throw (ErrBackend NoRows)
        | Some r =>
            if bool_decide (user_id r = m_UserID m ∧ basket r = m_Basket m ∧
                            satoshis r = m_Satoshis m ∧ input_size r = m_InputSize m)
            then mret () else throw (AlreadyExistsError (m_Outpoint m))
        end
  end.

(** The items' [Err] slots; [n] clock readings were made so far. *)
Fixpoint mint_loop (clk : nat → Time) (ms : list UtxoTypes.Mint) (n : nat) (c : Conn) :
    list (option error) * Conn :=
  match ms with
  | [] => ([], c)
  | m :: ms' =>
      let '(o, c') := mintOne (clk n) m c in
      let n' := match ValidateMint m with Some _ => n | None => S n end in
      let '(es, c'') := mint_loop clk ms' n' c' in
      ((match o with Err e => Some e | _ => None end) :: es, c'')
  end.

Definition count_failed (es : list (option error)) : Z := Z.of_nat (length (filter is_Some es)).

Definition Mint (clk : nat → Time) (ms : list UtxoTypes.Mint) (s : Store) :
    (list (option error) * option error) * Store :=
  if closed s then (((λ _, None) <$> ms, Some ErrClosed), s)
  else
    let '(es, c) := mint_loop clk ms 0 (conn s) in
    ((es, BatchCountErr (count_failed es) (Z.of_nat (length ms))), with_conn c s).

Definition Get (op : Outpoint) : M Store error UTXO :=
  guard_open $ on_conn $
    binding (key_fits op) (SELECT_one op) ≫= λ row,
    match row with
    | None => throw (NotFoundError op)
    | Some r => mret (scanUTXO op r)
    end.

(** The first statement on a key decides whether it can be bound; those that follow on
    the same key need not ask again.

    The verdict on a row the guarded DELETE did not match; [true] asks for a retry. *)
Definition classifyRemoveRefusal (op : Outpoint) : M Conn error (option error * bool) :=
  row ← SELECT_one op;
  match row with
  | None => mret (None, false)
  | Some r =>
      match spent_by r with
      | Some w => mret (Some (SpentError op w), false)
      | None =>
          if decide (str (reserved_by r) ≠ "")
          then mret (Some (ReservedError op (str (reserved_by r))), false)
          else if frozen r then mret (Some (FrozenError op), false)
          else mret (None, true)
      end
  end.

Fixpoint remove_attempts (n : nat) (op : Outpoint) : M Conn error (option error) :=
  match n with
  | O => mret (Some ErrContention)
  | S n' =>
      k ← DELETE (λ op' r, at_op op op' && is_null (reserved_by r) && is_null (spent_by r) && notFrozen r);
      if k =? 1 then mret None
      else
        classifyRemoveRefusal op ≫= λ '(classified, retry),
        if retry : bool then remove_attempts n' op else mret classified
  end.

Definition removeOne (force : bool) (op : Outpoint) : M Conn error (option error) :=
  binding (key_fits op)
    (if force then _ ← DELETE (λ op' _, at_op op op'); mret None
     else remove_attempts guardAttempts op).

Definition Remove (ops : list Outpoint) (force : bool) : M Store error () :=
  guard_open $ on_conn $
    es ← withTx (for_each (removeOne force) ops);
    lift (batch_result (omap id es)).

(** ** Claims *)

(** The claim candidates' predicate beside the value comparison. *)
Definition claimCandidate (sc : Scope) (r : Row) : bool :=
  bool_decide (user_id r = sc_UserID sc ∧ basket r = sc_Basket sc ∧ tier r = sc_Tier sc) &&
  is_null (reserved_by r) && is_null (spent_by r) && notFrozen r.

(** The three value comparisons. *)
Inductive claimShape := shapeSmallestSufficient | shapeLargestInsufficient | shapeExact.
Definition compares (sh : claimShape) (bound v : Z) : bool :=
  match sh with
  | shapeSmallestSufficient => bound <=? v
  | shapeLargestInsufficient => v <? bound
  | shapeExact => v =? bound
  end.

(** [ORDER BY satoshis, seq] and [ORDER BY satoshis DESC, seq DESC]. *)
Definition by_value (a b : Outpoint * Row) : comparison :=
  match Z.compare (satoshis a.2) (satoshis b.2) with
  | Eq => Z.compare (seq a.2) (seq b.2)
  | c => c
  end.
Definition by_value_desc (a b : Outpoint * Row) : comparison := by_value b a.
Definition order_of (sh : claimShape) : Outpoint * Row → Outpoint * Row → comparison :=
  match sh with shapeLargestInsufficient => by_value_desc | _ => by_value end.

(** The claim statements: PostgreSQL skips the rows that peers hold, SQLite has a
    single writer. *)
Definition candidates (locked : Outpoint → bool) (sh : claimShape) (sc : Scope) (bound limit : Z)
    (t : Table) : list (Outpoint * Row) :=
  slice_to limit (SortFunc (order_of sh)
    (filter (λ kr, claimCandidate sc kr.2 = true ∧ compares sh bound (satoshis kr.2) = true ∧
                   (postgres && locked kr.1) = false) (range_map t))).

Definition claimOnce (sh : claimShape) (sc : Scope) (bound limit : Z) (reservation : string)
    (now : Z) : M Conn error (list (Outpoint * Row)) :=
  binding (int8 bound) $ statement (λ locked t q,
    let cand := (candidates locked sh sc bound limit t).*1 in
    let g := SET_reserved (Some reservation) (Some now) in
    (range_map (g <$> matching (λ op _, bool_decide (op ∈ cand)) t),
     (map_imap (λ op r, Some (if bool_decide (op ∈ cand) then g r else r)) t, q,
      dom (matching (λ op _, bool_decide (op ∈ cand)) t)))).

(** A claim in an ambient transaction is not retried. *)
Definition runClaim (sh : claimShape) (sc : Scope) (bound limit : Z) (reservation : string)
    (now : Z) : M Conn error (list (Outpoint * Row)) := λ c,
  if in_tx c then claimOnce sh sc bound limit reservation now c
  else WithRetry (claimOnce sh sc bound limit reservation now) c.

Definition collect (rows : list (Outpoint * Row)) : list UTXO := (λ kr, scanUTXO kr.1 kr.2) <$> rows.

Definition ClaimSmallestSufficient (clk : nat → Time) (sc : Scope) (reservation : string)
    (minSats : Z) : M Store error (option UTXO) :=
  guard_open $ guard_valid (ValidateClaim sc reservation) $ on_conn $
    claimed ← runClaim shapeSmallestSufficient sc minSats 1 reservation (EncTime (clk 0%nat));
    mret (head (collect claimed)).

Definition ClaimLargestInsufficient (clk : nat → Time) (sc : Scope) (reservation : string)
    (capSats limit : Z) : M Store error (list UTXO) :=
  guard_open $ guard_valid (ValidateClaim sc reservation) $
    if limit <=? 0 then mret []
    else on_conn $
      claimed ← runClaim shapeLargestInsufficient sc capSats limit reservation (EncTime (clk 0%nat));
      mret (collect (SortFunc by_value_desc claimed)).

Definition by_seq (a b : Outpoint * Row) : comparison := Z.compare (seq a.2) (seq b.2).

Definition ClaimExact (clk : nat → Time) (sc : Scope) (reservation : string)
    (denomination count : Z) : M Store error (list UTXO) :=
  guard_open $ guard_valid (ValidateClaim sc reservation) $
    if count <=? 0 then mret []
    else on_conn $
      claimed ← runClaim shapeExact sc denomination count reservation (EncTime (clk 0%nat));
      mret (collect (SortFunc by_seq claimed)).

(** The contention probe: a plain read, no locks. *)
Definition claimableExists (sc : Scope) (sh : claimShape) (bound : Z) : M Conn error bool :=
  binding (int8 bound) $ SELECT (λ t, bool_decide (matching (λ _ r, claimCandidate sc r && compares sh bound (satoshis r)) t ≠ ∅)).

Definition ClaimableExists (sc : Scope) (minSats : Z) : M Store error bool :=
  guard_open $ guard_valid (ValidateScope sc) $
    on_conn (claimableExists sc shapeSmallestSufficient minSats).

(** ** Naming outpoints *)

(** [sortedDistinct]: the canonical lock order.  A txid is its bytes read as one
    number, most significant first. *)
Definition cmp_outpoint (a b : Outpoint) : comparison :=
  match Z.compare (TxID a) (TxID b) with Eq => Z.compare (Vout a) (Vout b) | c => c end.
Fixpoint distinct_from (seen : gset Outpoint) (ops : list Outpoint) : list Outpoint :=
  match ops with
  | [] => []
  | op :: ops' =>
      if decide (op ∈ seen) then distinct_from seen ops'
      else op :: distinct_from ({[op]} ∪ seen) ops'
  end.
Definition sortedDistinct (ops : list Outpoint) : list Outpoint :=
  SortFunc cmp_outpoint (distinct_from ∅ ops).

(** [inl]: refused; [inr b]: acceptable, to be stamped when [b]. *)
Definition classifyForReserve (userID : Z) (reservation : string) (op : Outpoint) :
    M Conn error (error + bool) :=
  row ← binding (key_fits op) (if postgres then SELECT_FOR_UPDATE op else SELECT_one op);
  match row with
  | None => mret (inl (NotFoundError op))
  | Some r =>
      if decide (user_id r ≠ userID) then mret (inl (NotFoundError op))
      else match spent_by r with
           | Some w => mret (inl (SpentError op w))
           | None =>
               if decide (str (reserved_by r) ≠ "" ∧ str (reserved_by r) ≠ reservation)
               then mret (inl (ReservedError op (str (reserved_by r))))
               else if frozen r then mret (inl (FrozenError op))
               else if decide (str (reserved_by r) = reservation) then mret (inr false)
               else mret (inr true)
           end
  end.

Fixpoint classify_all (userID : Z) (reservation : string) (ops : list Outpoint) :
    M Conn error (list error * list Outpoint) :=
  match ops with
  | [] => mret ([], [])
  | op :: ops' =>
      v ← classifyForReserve userID reservation op;
      '(es, st) ← classify_all userID reservation ops';
      mret (match v with
            | inl e => (e :: es, st)
            | inr true => (es, op :: st)
            | inr false => (es, st)
            end)
  end.

Definition stamp (userID : Z) (reservation : string) (ts : Z) (op : Outpoint) : M Conn error () :=
  rows ← UPDATE (λ op' r, at_op op op' && (user_id r =? userID) && is_null (reserved_by r) &&
                          is_null (spent_by r))
           (SET_reserved (Some reservation) (Some ts));
  if (length rows =? 1)%nat then mret () else throw (ErrBackend (BackendFailed 0)).

Definition ReserveOutpoints (clk : nat → Time) (userID : Z) (reservation : string)
    (ops : list Outpoint) : M Store error () :=
  guard_open $ guard_valid (ValidateReserveOutpoints reservation ops) $ on_conn $
    es ← withTx (
      '(es, toStamp) ← classify_all userID reservation (sortedDistinct ops);
      match es with
      | _ :: _ => mret es
      | [] => _ ← for_each (stamp userID reservation (EncTime (clk 0%nat))) toStamp; mret []
      end);
    lift (batch_result es).

(** ** Release and pin *)

Definition count_rows {A} (l : list A) : Z := Z.of_nat (length l).

(** A guarded UPDATE of the listed rows: one set-based statement on PostgreSQL, a loop
    of single-row statements on SQLite.  The result is the number of rows changed. *)
Definition update_all (ops : list Outpoint) (P : Row → bool) (g : Row → Row) : M Conn error Z :=
  if decide (length ops = 0%nat) then mret 0
  else if postgres then
    rows ← binding (keys_fit ops) (UPDATE (λ op' r, pgKeyMatch (pairArgs ops) op' && P r) g);
    mret (count_rows rows)
  else
    counts ← for_each (λ op, rows ← UPDATE (λ op' r, at_op op op' && P r) g; mret (count_rows rows)) ops;
    mret (foldr Z.add 0 counts).

Definition ReleaseReservation (userID : Z) (reservation : string) : M Store error Z :=
  guard_open $ guard_valid (ValidateReservation reservation) $ on_conn $
    withTx (rows ← UPDATE (λ _ r, (user_id r =? userID) && bool_decide (reserved_by r = Some reservation) &&
                             is_null (spent_by r) && notPinned r)
              (SET_reserved None None);
            mret (count_rows rows)).

Definition release_row (r : Row) : Row := SET_pinned false (SET_reserved None None r).

Definition ReleaseOutpoints (reservation : string) (ops : list Outpoint) : M Store error () :=
  guard_open $ guard_valid (ValidateReservation reservation) $ on_conn $
    withTx (_ ← update_all ops (λ r, bool_decide (reserved_by r = Some reservation) && is_null (spent_by r))
                  release_row;
            mret ()).

Definition setPinned (userID : Z) (reservation : string) (pinned : bool) : M Store error Z :=
  guard_open $ guard_valid (ValidateReservation reservation) $ on_conn $
    withTx (rows ← UPDATE (λ _ r, (user_id r =? userID) && bool_decide (reserved_by r = Some reservation) &&
                             is_null (spent_by r) && (if pinned then notPinned r else negb (notPinned r)))
              (SET_pinned pinned);
            mret (count_rows rows)).
Definition Pin (userID : Z) (reservation : string) : M Store error Z := setPinned userID reservation true.
Definition Unpin (userID : Z) (reservation : string) : M Store error Z := setPinned userID reservation false.

(** ** Spend *)

Definition spend_guard (force : bool) (reservation : string) (r : Row) : bool :=
  is_null (spent_by r) &&
  (force || (bool_decide (reserved_by r = Some reservation) && notFrozen r)).
Definition spend_row (w : Hash) (r : Row) : Row := SET_pinned false (SET_spent_by (Some w) r).

Definition spendUpdate (force : bool) (sp : SpendOp) : M Conn error Z :=
  rows ← UPDATE (λ op' r, at_op (sp_Outpoint sp) op' && spend_guard force (sp_Reservation sp) r)
           (spend_row (sp_SpendingTxID sp));
  mret (count_rows rows).

(** The verdict on a row the guarded write did not match; [true] asks for a retry. *)
Definition spend_verdict (force : bool) (sp : SpendOp) (row : option Row) : option error * bool :=
  match row with
  | None => (Some (NotFoundError (sp_Outpoint sp)), false)
  | Some r =>
      match spent_by r with
      | Some w =>
          if w =? sp_SpendingTxID sp then (None, false)
          else (Some (SpentError (sp_Outpoint sp) w), false)
      | None =>
          if negb force && frozen r then (Some (FrozenError (sp_Outpoint sp)), false)
          else if negb force && bool_decide (str (reserved_by r) ≠ sp_Reservation sp)
          then (Some (ReservedError (sp_Outpoint sp) (str (reserved_by r))), false)
          else (None, true)
      end
  end.

Definition classifySpendFailure (force : bool) (sp : SpendOp) : M Conn error (option error * bool) :=
  row ← SELECT_one (sp_Outpoint sp); mret (spend_verdict force sp row).

Fixpoint spend_attempts (n : nat) (force : bool) (sp : SpendOp) : M Conn error (option error) :=
  match n with
  | O => mret (Some ErrContention)
  | S n' =>
      k ← spendUpdate force sp;
      if k =? 1 then mret None
      else
        classifySpendFailure force sp ≫= λ '(classified, retry),
        if retry : bool then spend_attempts n' force sp else mret classified
  end.

Definition spendOne (force : bool) (sp : SpendOp) : M Conn error (option error) :=
  match ValidateSpend sp with
  | Some e => mret (Some e)
  | None => spend_attempts guardAttempts force sp
  end.

(** *** The set-based arm *)

Record spendGroup := mkGroup {
  sg_spendingTxID : Hash;
  sg_reservation : string;
  sg_ops : list item;
}.

Definition group_key (force : bool) (sp : SpendOp) : Hash * string :=
  (sp_SpendingTxID sp, if force then "" else sp_Reservation sp).

(** Appending an item to its group, or opening a new group at the end. *)
Fixpoint add_to_group (key : Hash * string) (x : item) (gs : list spendGroup) : list spendGroup :=
  match gs with
  | [] => [mkGroup key.1 key.2 [x]]
  | g :: gs' =>
      if decide ((sg_spendingTxID g, sg_reservation g) = key)
      then mkGroup (sg_spendingTxID g) (sg_reservation g) (sg_ops g ++ [x]) :: gs'
      else g :: add_to_group key x gs'
  end.
Definition groupSpends (force : bool) (spends : list item) : list spendGroup :=
  foldl (λ gs x, add_to_group (group_key force x.2) x gs) [] spends.

Definition outpoints (xs : list item) : list Outpoint := (λ x, sp_Outpoint x.2) <$> xs.

(** One guarded UPDATE per group; the items it did not match. *)
Definition write_group (force : bool) (g : spendGroup) : M Conn error (list item) :=
  rows ← binding (keys_fit (outpoints (sg_ops g)))
           (UPDATE (λ op' r, pgKeyMatch (pairArgs (outpoints (sg_ops g))) op' &&
                             spend_guard force (sg_reservation g) r)
              (spend_row (sg_spendingTxID g)));
  mret (filter (λ x, sp_Outpoint x.2 ∉ rows.*1) (sg_ops g)).
Definition spendWriteSet (force : bool) (spends : list item) : M Conn error (list item) :=
  misses ← for_each (write_group force) (groupSpends force spends); mret (concat misses).

(** One read for all misses: their slots, and the items to drive again. *)
Definition scanSpendStates (ops : list Outpoint) (t : Table) : Table :=
  matching (λ op _, pgKeyMatch (pairArgs ops) op) t.
Fixpoint classify_misses (force : bool) (state : Table) (misses : list item) (errs : slots) :
    list item * slots :=
  match misses with
  | [] => ([], errs)
  | x :: misses' =>
      let '(e, retry) := spend_verdict force x.2 (state !! sp_Outpoint x.2) in
      let errs' := match e with Some e => <[x.1 := e]> errs | None => errs end in
      let '(unresolved, errs'') := classify_misses force state misses' errs' in
      ((if retry : bool then [x] else []) ++ unresolved, errs'')
  end.
Definition classifySpendMisses (force : bool) (misses : list item) (errs : slots) :
    M Conn error (list item * slots) :=
  state ← SELECT (scanSpendStates (outpoints misses));
  mret (classify_misses force state misses errs).

(** [n] rounds over the items still open; those that never settle are contended. *)
Fixpoint spend_rounds (n : nat) (force : bool) (attempt : list item) (errs : slots) :
    M Conn error slots :=
  match n with
  | O => mret (foldl (λ errs x, <[x.1 := ErrContention]> errs) errs attempt)
  | S n' =>
      if decide (length attempt = 0%nat) then mret errs
      else
        misses ← spendWriteSet force attempt;
        if decide (length misses = 0%nat) then mret errs
        else
          '(unresolved, errs') ← classifySpendMisses force misses errs;
          if decide (length unresolved = 0%nat) then mret errs'
          else spend_rounds n' force unresolved errs'
  end.

Definition invalid_slots (items : list item) : slots :=
  foldl (λ errs x, match ValidateSpend x.2 with Some e => <[x.1 := e]> errs | None => errs end) ∅ items.

Definition spendSet (spends : list SpendOp) (force : bool) : M Conn error (list (option error)) :=
  let items := imap pair spends in
  let pending := filter (λ x, ValidateSpend x.2 = None) items in
  errs ← spend_rounds guardAttempts force pending (invalid_slots items);
  mret (imap (λ i _, errs !! i) spends).

(** The slots are reported when the call itself succeeds. *)
Definition Spend (spends : list SpendOp) (force : bool) (s : Store) :
    (list (option error) * option error) * Store :=
  if closed s then (((λ _, None) <$> spends, Some ErrClosed), s)
  else
    match withTx (if postgres then spendSet spends force else for_each (spendOne force) spends) (conn s) with
    | (Ret es, c) =>
        ((es, BatchCountErr (count_failed es) (Z.of_nat (length spends))), with_conn c s)
    | (Err e, c) => (((λ _, None) <$> spends, Some e), with_conn c s)
    | (Panic, c) => (((λ _, None) <$> spends, None), with_conn c s)
    end.

(** ** Unspend, promote, remove *)

Definition unspend_row (r : Row) : Row :=
  SET_pinned false (SET_reserved None None (SET_spent_by None r)).
Definition spent_is (w : Hash) (r : Row) : bool := bool_decide (spent_by r = Some w).

Definition Unspend (spendingTxID : Hash) (ops : list Outpoint) : M Store error Z :=
  guard_open $ on_conn $ withTx (update_all ops (spent_is spendingTxID) unspend_row).

Definition Promote (ops : list Outpoint) (to : Tier) : M Store error Z :=
  guard_open $
    if negb (Tier_Valid to) then throw (ErrInvalid (TargetTierInvalid to))
    else on_conn $ withTx (update_all ops (λ r, negb (tier r =? to)) (SET_tier to)).

Definition RemoveSpentBy (spendingTxID : Hash) : M Store error Z :=
  guard_open $ on_conn $ withTx (DELETE (λ _ r, spent_is spendingTxID r)).

(** *** RemoveByMintTx *)

Inductive mintVerdict := mintGone | mintRemoved | mintSpent | mintReserved.

(** The row read, when there is one, and the verdict. *)
Fixpoint mint_attempts (n : nat) (op : Outpoint) : M Conn error (option Row * mintVerdict) :=
  match n with
  | O => throw ErrContention
  | S n' =>
      row ← SELECT_one op;
      match row with
      | None => mret (None, mintGone)
      | Some r =>
          if negb (is_null (spent_by r)) then mret (Some r, mintSpent)
          else if decide (str (reserved_by r) ≠ "") then mret (Some r, mintReserved)
          else
            k ← DELETE (λ op' r, at_op op op' && is_null (reserved_by r) && is_null (spent_by r));
            if k =? 1 then mret (Some r, mintRemoved) else mint_attempts n' op
      end
  end.
Definition resolveMintRow (op : Outpoint) : M Conn error (option Row * mintVerdict) :=
  binding (key_fits op) (mint_attempts guardAttempts op).

(** The locals of the loop. *)
Record mint_scan := mkScan {
  scan_refs : gmap string ReservationRef;
  scan_refOrder : list string;
  scan_seenSpenders : gset Hash;
  scan_spenders : list Hash;
  scan_removed : list Outpoint;
}.

Definition extend_ref (op : Outpoint) (at_ : Time) (ref : ReservationRef) : ReservationRef :=
  mkRef (ref_Reservation ref) (ref_UserID ref)
    (if at_ <? ref_ReservedAt ref then at_ else ref_ReservedAt ref) (ref_Outpoints ref ++ [op]).

Definition report_row (op : Outpoint) (v : option Row * mintVerdict) (st : mint_scan) : mint_scan :=
  match v with
  | (_, mintGone) => st
  | (_, mintRemoved) =>
      mkScan (scan_refs st) (scan_refOrder st) (scan_seenSpenders st) (scan_spenders st)
        (scan_removed st ++ [op])
  | (Some r, mintSpent) =>
      match spent_by r with
      | Some w =>
          if decide (w ∈ scan_seenSpenders st) then st
          else mkScan (scan_refs st) (scan_refOrder st) ({[w]} ∪ scan_seenSpenders st)
                 (scan_spenders st ++ [w]) (scan_removed st)
      | None => st
      end
  | (Some r, mintReserved) =>
      let tok := str (reserved_by r) in
      let at_ := TsGet (reserved_at r) in
      match scan_refs st !! tok with
      | Some ref =>
          mkScan (<[tok := extend_ref op at_ ref]> (scan_refs st)) (scan_refOrder st)
            (scan_seenSpenders st) (scan_spenders st) (scan_removed st)
      | None =>
          mkScan (<[tok := extend_ref op at_ (mkRef tok (user_id r) at_ [])]> (scan_refs st))
            (scan_refOrder st ++ [tok]) (scan_seenSpenders st) (scan_spenders st) (scan_removed st)
      end
  | (None, _) => st
  end.

Fixpoint mint_ops_loop (ops : list Outpoint) (st : mint_scan) : M Conn error mint_scan :=
  match ops with
  | [] => mret st
  | op :: ops' => v ← resolveMintRow op; mint_ops_loop ops' (report_row op v st)
  end.

Definition report_of (st : mint_scan) : RemoveByMintReport :=
  mkReport (scan_removed st) (omap (λ token, scan_refs st !! token) (scan_refOrder st)) (scan_spenders st).

Definition RemoveByMintTx (mintTxID : Hash) (ops : list Outpoint) : M Store error RemoveByMintReport :=
  guard_open $ guard_valid (ValidateMintOutpoints mintTxID ops) $ on_conn $
    withTx (st ← mint_ops_loop ops (mkScan ∅ [] ∅ [] []); mret (report_of st)).

(** ** Holds *)

(** The outpoints without a row, in the caller's order. *)
Definition freeze_rows (ops : list Outpoint) (b : bool) : M Conn error (list error) :=
  if decide (length ops = 0%nat) then mret []
  else if postgres then
    found ← binding (keys_fit ops) (UPDATE (λ op' _, pgKeyMatch (pairArgs ops) op') (SET_frozen b));
    mret (NotFoundError <$> filter (λ op, op ∉ found.*1) ops)
  else
    es ← for_each (λ op, rows ← UPDATE (λ op' _, at_op op op') (SET_frozen b);
                         mret (if (length rows =? 0)%nat then Some (NotFoundError op) else None)) ops;
    mret (omap id es).

Definition setFrozen (ops : list Outpoint) (b : bool) : M Store error () :=
  guard_open $ on_conn $ es ← withTx (freeze_rows ops b); lift (batch_result es).
Definition Freeze (ops : list Outpoint) : M Store error () := setFrozen ops true.
Definition Unfreeze (ops : list Outpoint) : M Store error () := setFrozen ops false.

(** ** Queries *)

(** [COALESCE(SUM(CASE WHEN .. THEN x ELSE 0 END), 0)] over the rows of a group. *)
Definition sum_case (P : Row → bool) (x : Row → Z) (l : list Row) : Z :=
  foldr (λ r acc, (if P r then x r else 0) + acc) 0 l.

(** The result row of one tier. *)
Record tier_sums := mkSums {
  ts_tier : Tier; ts_claimable : Z; ts_reserved : Z; ts_claimable_count : Z; ts_reserved_count : Z;
}.
Definition is_claimable (r : Row) : bool := is_null (reserved_by r) && notFrozen r.
Definition is_reserved (r : Row) : bool := negb (is_null (reserved_by r)).
Definition sums_of (l : list Row) (t : Tier) : tier_sums :=
  let g := filter (λ r, tier r = t) l in
  mkSums t (sum_case is_claimable satoshis g) (sum_case is_reserved satoshis g)
    (sum_case is_claimable (λ _, 1) g) (sum_case is_reserved (λ _, 1) g).

Definition balance_query (userID : Z) (bskt : string) (t : Table) : list tier_sums :=
  let l := (range_map (matching (λ _ r, (user_id r =? userID) && bool_decide (basket r = bskt) &&
                                        is_null (spent_by r)) t)).*2 in
  sums_of l <$> remove_dups (tier <$> l).

(** What a sum can be scanned from: a numeric into a uint64, or SQLite's integer. *)
Definition sum_limit : Z := if postgres then 2 ^ 64 else 2 ^ 63.
Definition scannable (x : tier_sums) : bool :=
  (ts_claimable x <? sum_limit) && (ts_reserved x <? sum_limit).

Definition balance_step (b : UtxoTypes.Balance) (x : tier_sums) : UtxoTypes.Balance :=
  mkBalance
    (if 0 <? ts_claimable x then <[ts_tier x := ts_claimable x]> (b_Claimable b) else b_Claimable b)
    (u64 (b_Reserved b + ts_reserved x))
    (if 0 <? ts_claimable_count x then <[ts_tier x := ts_claimable_count x]> (b_ClaimableCount b)
     else b_ClaimableCount b)
    (b_ReservedCount b + ts_reserved_count x).

Definition Balance (userID : Z) (bskt : string) : M Store error UtxoTypes.Balance :=
  guard_open $ on_conn $
    rows ← SELECT (balance_query userID bskt);
    if forallb scannable rows then mret (foldl balance_step (mkBalance ∅ 0 ∅ 0) rows)
    else throw (ErrBackend OutOfRange).

(** *** Stale reservations *)

(** [MIN(..)] over the values that are not NULL. *)
Definition min_of (l : list Z) : option Z :=
  foldr (λ x acc, Some (match acc with Some y => x `min` y | None => x end)) None l.

(** A row of the inner aggregate. *)
Record stale_group := mkStale {
  sg_user : Z; sg_token : string; sg_oldest : Z; sg_min_seq : Z;
}.

Definition stale_row (includePinned : bool) (r : Row) : bool :=
  negb (is_null (reserved_by r)) && is_null (spent_by r) && (includePinned || notPinned r).
Definition stale_key (r : Row) : Z * string := (user_id r, str (reserved_by r)).

(** One group, if its oldest reservation is before the cutoff. *)
Definition aggregate (l : list Row) (cutoff : Z) (k : Z * string) : option stale_group :=
  let g := filter (λ r, stale_key r = k) l in
  match min_of (omap reserved_at g), min_of (seq <$> g) with
  | Some oldest, Some min_seq =>
      if oldest <? cutoff then Some (mkStale k.1 k.2 oldest min_seq) else None
  | _, _ => None
  end.

Definition cmp_stale (a b : stale_group) : comparison :=
  match Z.compare (sg_oldest a) (sg_oldest b) with
  | Eq => Z.compare (sg_min_seq a) (sg_min_seq b)
  | c => c
  end.
Definition cmp_joined (a b : stale_group * (Outpoint * Row)) : comparison :=
  match cmp_stale a.1 b.1 with
  | Eq => Z.compare (seq a.2.2) (seq b.2.2)
  | c => c
  end.

Definition stale_query (includePinned : bool) (cutoff limit : Z) (t : Table) :
    list (stale_group * (Outpoint * Row)) :=
  let us := range_map (matching (λ _ r, stale_row includePinned r) t) in
  let l := us.*2 in
  let gs := slice_to limit (SortFunc cmp_stale (omap (aggregate l cutoff) (remove_dups (stale_key <$> l)))) in
  SortFunc cmp_joined
    (u ← us; g ← filter (λ g, (sg_user g, sg_token g) = stale_key u.2) gs; [(g, u)]).

(** The scan: rows of one reservation are contiguous. *)
Definition scan_stale (refs : list ReservationRef) (gu : stale_group * (Outpoint * Row)) :
    list ReservationRef :=
  let '(g, (op, r)) := gu in
  match last refs with
  | Some cur =>
      if decide (ref_UserID cur = user_id r ∧ ref_Reservation cur = str (reserved_by r))
      then take (length refs - 1) refs ++
             [mkRef (ref_Reservation cur) (ref_UserID cur) (ref_ReservedAt cur) (ref_Outpoints cur ++ [op])]
      else refs ++ [mkRef (str (reserved_by r)) (user_id r) (TsGet (Some (sg_oldest g))) [op]]
  | None => [mkRef (str (reserved_by r)) (user_id r) (TsGet (Some (sg_oldest g))) [op]]
  end.

Definition findStaleReservations (olderThan : Time) (limit : Z) (includePinned : bool) :
    M Store error (list ReservationRef) :=
  guard_open $
    if limit <=? 0 then mret []
    else on_conn $
      rows ← SELECT (stale_query includePinned (EncTime olderThan) limit);
      mret (foldl scan_stale [] rows).
Definition FindStaleReservations (olderThan : Time) (limit : Z) : M Store error (list ReservationRef) :=
  findStaleReservations olderThan limit false.
Definition FindStaleReservationsIncludingPinned (olderThan : Time) (limit : Z) :
    M Store error (list ReservationRef) := findStaleReservations olderThan limit true.

End store.
End SqlStore.
