(* ===== verification/SqlLogic.v ===== *)
(** * SqlLogic: what the SQL store computes when it is alone

    [computes m f]: run by the only caller, the statements of [m] return [(f t).1] and
    leave [(f t).2] where [t] is the visible table.  The rules follow the shape of the
    operations; a transaction, its retries and the choice between ambient and own
    transactions disappear. *)
From S2P Require Import Prelude UtxoTypes SqlDb SqlStore.
Import SqlDb SqlStore.
Local Open Scope Z_scope.

Module SqlLogic.

(** ** Rows *)

(** A reservation has a token and a time, and a coin has a value. *)
Definition row_ok (r : Row) : Prop :=
  reserved_by r ≠ Some "" ∧ (is_Some (reserved_by r) → is_Some (reserved_at r)) ∧ 0 < satoshis r.
Definition table_ok (t : Table) : Prop := ∀ op r, t !! op = Some r → row_ok r.

(** No row is new or renumbered. *)
Definition seq_from (t t' : Table) : Prop :=
  ∀ op r', t' !! op = Some r' → ∃ r, t !! op = Some r ∧ seq r' = seq r.

#[global] Instance seq_from_preorder : PreOrder seq_from.
Proof.
  split; [by intros t op r' ?; exists r'|].
  intros t1 t2 t3 H1 H2 op r' (r2&(r1&?&?)%H1&?)%H2. exists r1. split; [done|congruence].
Qed.

Lemma row_ok_null r : row_ok r → str (reserved_by r) = "" → reserved_by r = None.
Proof. intros (Hr&_). rewrite /str. destruct (reserved_by r) as [x|]; simpl; congruence. Qed.

Lemma row_ok_token r tok : row_ok r → tok ≠ "" → str (reserved_by r) = tok ↔ reserved_by r = Some tok.
Proof. intros (Hr&_) Ht. rewrite /str. destruct (reserved_by r); simpl; naive_solver. Qed.

(** ** Arguments the engine can bind *)

Definition bindable (engine : Engine) (ops : list Outpoint) : Prop :=
  ∀ op, op ∈ ops → key_fits engine op = true.
Lemma bindable_keys ops : bindable EnginePostgres ops → keys_fit ops = true.
Proof.
  intros Hall. rewrite /keys_fit forallb_forall. intros op Hop%list_elem_of_In. by apply Hall in Hop.
Qed.

(** ** Being alone *)

Record alone (c : Conn) : Prop := {
  alone_events : events c = [];
  alone_idle : in_tx c = false → committed c = visible c ∧ locks c = ∅;
  alone_ok : table_ok (visible c);
}.

(** [c'] follows [c]: same transaction status and counter, table [t]. *)
Record after (c c' : Conn) (t : Table) : Prop := {
  after_alone : alone c';
  after_visible : visible c' = t;
  after_tx : in_tx c' = in_tx c;
  after_counter : utxo_seq c' = utxo_seq c;
  after_seqs : seq_from (visible c) t;
}.

Definition computes {A} (m : M Conn error A) (f : Table → A * Table) : Prop :=
  ∀ c, alone c → ∃ c', m c = (Ret (f (visible c)).1, c') ∧ after c c' (f (visible c)).2.

Lemma after_refl c : alone c → after c c (visible c).
Proof. by intros; constructor. Qed.

Lemma after_trans c c1 c2 t1 t2 : after c c1 t1 → after c1 c2 t2 → after c c2 t2.
Proof.
  intros [? <- ? ? ?] [? <- ? ? ?]. constructor; try done; try congruence. by etrans.
Qed.

Lemma computes_ret {A} (a : A) : computes (mret a) (λ t, (a, t)).
Proof. intros c Hc. exists c. split; [done|by apply after_refl]. Qed.

Lemma computes_binding {A} ok (m : M Conn error A) f : ok = true → computes m f → computes (binding ok m) f.
Proof. by intros ->. Qed.

Lemma computes_bind {A B} (m : M Conn error A) (k : A → M Conn error B) f h :
  computes m f → (∀ a, computes (k a) (h a)) →
  computes (m ≫= k) (λ t, h (f t).1 (f t).2).
Proof.
  intros Hm Hk c Hc. destruct (Hm c Hc) as (c1&He&Ha).
  destruct (Hk (f (visible c)).1 c1 (after_alone _ _ _ Ha)) as (c2&He2&Ha2).
  rewrite (after_visible _ _ _ Ha) in He2, Ha2.
  exists c2. split; [by rewrite /mbind /M_bind He|by eapply after_trans].
Qed.

(** Changing the description, when the table is known to be sound. *)
Lemma computes_ext {A} (m : M Conn error A) f f' :
  computes m f → (∀ t, table_ok t → f t = f' t) → computes m f'.
Proof.
  intros Hm Heq c Hc. destruct (Hm c Hc) as (c'&He&Ha). rewrite Heq in He, Ha; [|by apply alone_ok..].
  by exists c'.
Qed.

Lemma computes_if {A} (b : bool) (m1 m2 : M Conn error A) f1 f2 :
  computes m1 f1 → computes m2 f2 →
  computes (if b then m1 else m2) (λ t, if b then f1 t else f2 t).
Proof. by destruct b. Qed.

(** ** Statements *)

Lemma statement_alone {A} (f : (Outpoint → bool) → Table → Z → A * (Table * Z * gset Outpoint)) c a t q l :
  alone c → f (λ _, false) (visible c) (utxo_seq c) = (a, (t, q, l)) →
  ∃ c', statement f c = (Ret a, c') ∧ events c' = [] ∧ visible c' = t ∧ utxo_seq c' = q ∧
    in_tx c' = in_tx c ∧ (in_tx c' = false → committed c' = visible c' ∧ locks c' = ∅).
Proof.
  intros [He Hi _] Hf. rewrite /statement /arrive He /= Hf /settle /=.
  destruct (in_tx c) eqn:Htx; eexists; split_and!; simpl; done.
Qed.

Lemma computes_statement {A} f (h : Table → A * Table) (l : Table → gset Outpoint) :
  (∀ t q, f (λ _, false) t q = ((h t).1, ((h t).2, q, l t))) →
  (∀ t, table_ok t → table_ok (h t).2) → (∀ t, seq_from t (h t).2) →
  computes (statement f) h.
Proof.
  intros Hf Hok Hseq c Hc.
  destruct (statement_alone f c _ _ _ _ Hc (Hf (visible c) (utxo_seq c))) as (c'&?&?&Hv&?&?&?).
  exists c'. split; [done|]. constructor; try done. constructor; [done..|].
  rewrite Hv. apply Hok, alone_ok, Hc.
Qed.

Lemma computes_SELECT {A} (q : Table → A) : computes (SELECT q) (λ t, (q t, t)).
Proof. by apply (computes_statement _ _ (λ _, ∅)). Qed.

Lemma computes_SELECT_FOR_UPDATE op : computes (SELECT_FOR_UPDATE op) (λ t, (t !! op, t)).
Proof. by apply (computes_statement _ _ (λ t, match t !! op with Some _ => {[op]} | None => ∅ end)). Qed.

(** The table an UPDATE and a DELETE leave. *)
Definition updated (P : Outpoint → Row → bool) (g : Row → Row) (t : Table) : Table :=
  map_imap (λ op r, Some (if P op r then g r else r)) t.
Definition deleted (P : Outpoint → Row → bool) (t : Table) : Table :=
  filter (λ kr, P kr.1 kr.2 = false) t.

Lemma lookup_updated P g (t : Table) op :
  updated P g t !! op = (λ r, if P op r then g r else r) <$> t !! op.
Proof. rewrite /updated map_lookup_imap. by destruct (t !! op). Qed.

Lemma lookup_deleted P (t : Table) op :
  deleted P t !! op = (r ← t !! op; if P op r then None else Some r).
Proof.
  rewrite /deleted map_lookup_filter. destruct (t !! op) as [r|]; [|done].
  cbn. case_guard; destruct (P op r); naive_solver.
Qed.

Lemma lookup_matching P (t : Table) op :
  matching P t !! op = (r ← t !! op; if P op r then Some r else None).
Proof.
  rewrite /matching map_lookup_filter. destruct (t !! op) as [r|]; [|done].
  cbn. case_guard; destruct (P op r); naive_solver.
Qed.

Lemma updated_ok P g t :
  (∀ op r, P op r = true → row_ok r → row_ok (g r)) → table_ok t → table_ok (updated P g t).
Proof.
  intros Hg Ht op r. rewrite lookup_updated. destruct (t !! op) as [r0|] eqn:Hr; [|done].
  intros [= <-]. specialize (Ht op r0 Hr). destruct (P op r0) eqn:HP; eauto.
Qed.

Lemma updated_seq P g t : (∀ r, seq (g r) = seq r) → seq_from t (updated P g t).
Proof.
  intros Hg op r'. rewrite lookup_updated. destruct (t !! op) as [r|]; [|done].
  intros [= <-]. exists r. split; [done|]. by destruct (P op r).
Qed.

Lemma deleted_ok P t : table_ok t → table_ok (deleted P t).
Proof. intros Ht op r [? _]%map_lookup_filter_Some. by eapply Ht. Qed.

Lemma deleted_seq P t : seq_from t (deleted P t).
Proof. intros op r [? _]%map_lookup_filter_Some. by exists r. Qed.

Section statements.
Context `{MapRange}.

Lemma computes_UPDATE P g :
  (∀ op r, P op r = true → row_ok r → row_ok (g r)) → (∀ r, seq (g r) = seq r) →
  computes (UPDATE P g) (λ t, (range_map (g <$> matching P t), updated P g t)).
Proof.
  intros Hok Hseq. apply (computes_statement _ _ (λ t, dom (matching P t))); simpl; [done|..].
  - intros t. by apply updated_ok.
  - intros t. by apply updated_seq.
Qed.

Lemma computes_DELETE P :
  computes (DELETE P) (λ t, (Z.of_nat (size (matching P t)), deleted P t)).
Proof.
  apply (computes_statement _ _ (λ t, dom (matching P t))); simpl; [done|..].
  - intros t. apply deleted_ok.
  - intros t. apply deleted_seq.
Qed.
End statements.

(** ** Loops, retries, transactions *)

Fixpoint each {A B} (f : A → Table → B * Table) (l : list A) (t : Table) : list B * Table :=
  match l with
  | [] => ([], t)
  | x :: l' => let '(y, t1) := f x t in let '(ys, t2) := each f l' t1 in (y :: ys, t2)
  end.

Lemma computes_for_each {A B} (m : A → M Conn error B) f l :
  (∀ x, x ∈ l → computes (m x) (f x)) → computes (for_each m l) (each f l).
Proof.
  induction l as [|x l IH]; intros Hm; [apply computes_ret|].
  eapply computes_ext.
  - eapply (computes_bind _ _ (f x) (λ y t, (y :: (each f l t).1, (each f l t).2))); [apply Hm; left|].
    intros y. apply (computes_bind _ _ (each f l) (λ ys t, (y :: ys, t))).
    + apply IH. intros. apply Hm. by right.
    + intros ys. apply computes_ret.
  - intros t _. simpl. destruct (f x t) as [y t1]; simpl. by destruct (each f l t1).
Qed.

Lemma computes_WithRetry {A} (m : M Conn error A) f : computes m f → computes (WithRetry m) f.
Proof.
  intros Hm c Hc. destruct (Hm c Hc) as (c'&He&Ha). exists c'. split; [|done].
  rewrite /WithRetry /maxLockRetries /= He. done.
Qed.

Lemma computes_withTx {A} (m : M Conn error A) f : computes m f → computes (withTx m) f.
Proof.
  intros Hm c Hc. rewrite /withTx. destruct (in_tx c) eqn:Htx; [by apply Hm|].
  destruct (alone_idle _ Hc Htx) as [Hcom _]. pose proof (alone_events _ Hc) as Hev.
  set (c1 := set_tx true (committed c) (committed c) c).
  assert (alone c1) as Hc1.
  { constructor; simpl; [done|done|]. rewrite Hcom. apply alone_ok, Hc. }
  destruct (Hm c1 Hc1) as (c2&He&[[He2 Hi2 Hok2] Hv Ht Hq Hs]).
  change (visible c1) with (committed c) in *. rewrite Hcom in He, Hv, Hs.
  exists (set_tx false (visible c2) (visible c2) c2). split.
  - rewrite /WithRetry /maxLockRetries /retry_from /transaction /BeginTx /arrive Hev /=.
    fold c1. by rewrite He /Commit /arrive He2 /=.
  - constructor; simpl; [constructor; simpl|..]; try done; by rewrite ?Hv.
Qed.

(** A claim outside a transaction is retried, inside it is not; alone it does not matter. *)
Lemma computes_runClaim `{MapRange} engine sh sc bound limit tok now f :
  computes (claimOnce engine sh sc bound limit tok now) f →
  computes (runClaim engine sh sc bound limit tok now) f.
Proof.
  intros Hm c Hc. rewrite /runClaim. destruct (in_tx c); [by apply Hm|].
  by apply computes_WithRetry.
Qed.

End SqlLogic.
