(* ===== verification/SqlAgree.v ===== *)
(** * SqlAgree: SQL statements against loops over a map

    [agree t m]: the table [t] and the rows [m] of the in-memory store hold the same
    coins.  The lemmas turn a set-based statement, a loop of single-row statements and a
    Go loop over a map into the same description. *)
From S2P Require Import Prelude UtxoTypes MemStore SqlDb SqlStore SqlLogic.
Import SqlDb SqlStore SqlLogic.
Local Open Scope Z_scope.

Module SqlAgree.

(** ** Agreement *)

Definition agree (t : Table) (m : gmap Outpoint MemStore.row) : Prop :=
  ∀ op, scanUTXO op <$> t !! op = MemStore.r_utxo <$> m !! op.

Lemma agree_cases t m op :
  agree t m →
  (t !! op = None ∧ m !! op = None) ∨
  ∃ r mr, t !! op = Some r ∧ m !! op = Some mr ∧ MemStore.r_utxo mr = scanUTXO op r.
Proof.
  intros Ha. specialize (Ha op). destruct (t !! op) as [r|], (m !! op) as [mr|]; try done; [|by left].
  right. injection Ha as Ha. by exists r, mr.
Qed.

Lemma agree_dom t m : agree t m → dom t = dom m.
Proof.
  intros Ha. apply set_eq. intros op. rewrite !elem_of_dom.
  destruct (agree_cases t m op Ha) as [[-> ->]|(r&mr&->&->&_)]; [done|].
  split; by eexists.
Qed.

(** Both sides change the coin at every outpoint the same way. *)
Lemma agree_pointwise t m t' m' :
  agree t m →
  (∀ op, t !! op = None → m !! op = None → scanUTXO op <$> t' !! op = MemStore.r_utxo <$> m' !! op) →
  (∀ op r mr, t !! op = Some r → m !! op = Some mr → MemStore.r_utxo mr = scanUTXO op r →
     scanUTXO op <$> t' !! op = MemStore.r_utxo <$> m' !! op) →
  agree t' m'.
Proof.
  intros Ha H0 H1 op. destruct (agree_cases t m op Ha) as [[??]|(r&mr&?&?&?)]; eauto.
Qed.

(** Counting the same coins. *)
Lemma agree_size t m (P : Outpoint → Row → bool) (Q : Outpoint → MemStore.row → Prop)
    `{!∀ kr, Decision (Q kr.1 kr.2)} :
  agree t m →
  (∀ op r mr, t !! op = Some r → m !! op = Some mr → MemStore.r_utxo mr = scanUTXO op r →
     P op r = true ↔ Q op mr) →
  size (matching P t) = size (filter (λ kr, Q kr.1 kr.2) m).
Proof.
  intros Ha HPQ. rewrite -!size_dom. f_equal. apply set_eq. intros op. rewrite !elem_of_dom.
  rewrite lookup_matching map_lookup_filter.
  destruct (agree_cases t m op Ha) as [[Hr Hm]|(r&mr&Hr&Hm&He)]; rewrite Hr Hm /=; [naive_solver|].
  specialize (HPQ op r mr Hr Hm He). destruct (P op r); case_guard; naive_solver.
Qed.

Lemma range_map_length `{MapRange} {V} (m : gmap Outpoint V) : length (range_map m) = size m.
Proof. by rewrite range_map_perm length_map_to_list. Qed.

Lemma filter_ext_in {A} (P Q : A → Prop) `{!∀ x, Decision (P x), !∀ x, Decision (Q x)} (l : list A) :
  (∀ x, x ∈ l → P x ↔ Q x) → filter P l = filter Q l.
Proof.
  induction l as [|x l IH]; intros HPQ; [done|].
  assert (filter P l = filter Q l) as Hl by (apply IH; intros; apply HPQ; by right).
  destruct (decide (P x)) as [Hp|Hp].
  - rewrite !filter_cons_True ?Hl //. apply HPQ; [left|done].
  - rewrite !filter_cons_False ?Hl //. contradict Hp. by apply HPQ; [left|].
Qed.

Lemma elem_of_concat {A} (x : A) (ls : list (list A)) : x ∈ concat ls ↔ ∃ l, x ∈ l ∧ l ∈ ls.
Proof.
  induction ls as [|l ls IH]; simpl; [set_solver|]. rewrite elem_of_app IH. set_solver.
Qed.

(** ** A loop whose step cannot fire twice on one key is one set-based update *)

Section set_form.
Context {V : Type} (P : V → bool) (g : V → V) (Hstable : ∀ v, P v = true → P (g v) = false).
Implicit Types m : gmap Outpoint V.

Definition step (nm : Z * gmap Outpoint V) (op : Outpoint) : Z * gmap Outpoint V :=
  match nm.2 !! op with
  | Some v => if P v then (nm.1 + 1, <[op := g v]> nm.2) else nm
  | None => nm
  end.

Definition hits (ops : list Outpoint) m : gmap Outpoint V :=
  filter (λ kv, kv.1 ∈ ops ∧ P kv.2 = true) m.
Definition set_form (ops : list Outpoint) m : gmap Outpoint V :=
  map_imap (λ k v, Some (if bool_decide (k ∈ ops) && P v then g v else v)) m.

Lemma lookup_set_form ops m k :
  set_form ops m !! k = (λ v, if bool_decide (k ∈ ops) && P v then g v else v) <$> m !! k.
Proof. rewrite /set_form map_lookup_imap. by destruct (m !! k). Qed.

Lemma lookup_hits ops m k :
  hits ops m !! k = (v ← m !! k; if bool_decide (k ∈ ops) && P v then Some v else None).
Proof.
  rewrite /hits map_lookup_filter. destruct (m !! k) as [v|]; [|done]. simpl.
  case_bool_decide; destruct (P v); simpl.
  1: by rewrite option_guard_True. all: rewrite option_guard_False //; naive_solver.
Qed.

Lemma step_set_form op ops n m :
  set_form ops (step (n, m) op).2 = set_form (op :: ops) m ∧
  (step (n, m) op).1 + Z.of_nat (size (hits ops (step (n, m) op).2)) =
  n + Z.of_nat (size (hits (op :: ops) m)).
Proof.
  rewrite /step /=. destruct (m !! op) as [v|] eqn:Hv; [destruct (P v) eqn:HP|]; simpl.
  - assert (∀ k, hits (op :: ops) m !! k = <[op := v]> (hits ops (<[op := g v]> m)) !! k) as Hh.
    { intros k. rewrite lookup_hits. destruct (decide (k = op)) as [->|Hne].
      - rewrite lookup_insert_eq Hv /= HP bool_decide_true //. left.
      - rewrite lookup_insert_ne // lookup_hits lookup_insert_ne //.
        destruct (m !! k); simpl; [|done]. rewrite (bool_decide_ext (k ∈ op :: ops) (k ∈ ops)) //.
        set_solver. }
    apply map_eq in Hh as ->. split.
    + apply map_eq. intros k. rewrite !lookup_set_form. destruct (decide (k = op)) as [->|Hne].
      * rewrite lookup_insert_eq Hv /= HP (Hstable _ HP) andb_false_r bool_decide_true //. left.
      * rewrite lookup_insert_ne // (bool_decide_ext (k ∈ op :: ops) (k ∈ ops)) //. set_solver.
    + rewrite map_size_insert_None; [lia|]. rewrite lookup_hits lookup_insert_eq /=.
      by rewrite (Hstable _ HP) andb_false_r.
  - split.
    + apply map_eq. intros k. rewrite !lookup_set_form. destruct (decide (k = op)) as [->|Hne].
      * by rewrite Hv /= HP !andb_false_r.
      * rewrite (bool_decide_ext (k ∈ op :: ops) (k ∈ ops)) //. set_solver.
    + do 2 f_equal. f_equal. apply map_eq. intros k. rewrite !lookup_hits.
      destruct (decide (k = op)) as [->|Hne]; [by rewrite Hv /= HP !andb_false_r|].
      rewrite (bool_decide_ext (k ∈ op :: ops) (k ∈ ops)) //. set_solver.
  - split.
    + apply map_eq. intros k. rewrite !lookup_set_form. destruct (decide (k = op)) as [->|Hne].
      * by rewrite Hv.
      * rewrite (bool_decide_ext (k ∈ op :: ops) (k ∈ ops)) //. set_solver.
    + do 2 f_equal. f_equal. apply map_eq. intros k. rewrite !lookup_hits.
      destruct (decide (k = op)) as [->|Hne]; [by rewrite Hv|].
      rewrite (bool_decide_ext (k ∈ op :: ops) (k ∈ ops)) //. set_solver.
Qed.

Lemma foldl_step ops n m :
  foldl step (n, m) ops = (n + Z.of_nat (size (hits ops m)), set_form ops m).
Proof.
  revert n m. induction ops as [|op ops IH]; intros n m; simpl.
  - assert (hits [] m = ∅) as ->.
    { apply map_eq. intros k. rewrite lookup_hits lookup_empty. by destruct (m !! k). }
    rewrite map_size_empty Z.add_0_r. f_equal. apply map_eq. intros k. rewrite lookup_set_form.
    by destruct (m !! k).
  - destruct (step_set_form op ops n m) as [H1 H2]. destruct (step (n, m) op) as [n' m'].
    rewrite IH. simpl in *. by rewrite H1 H2.
Qed.
End set_form.

(** ** The statements of a batch *)

Lemma unnest_pairArgs ops : unnest (pairArgs ops) = ops.
Proof. rewrite /unnest /=. induction ops as [|[] ops IH]; simpl; by rewrite ?IH. Qed.

Lemma pgKeyMatch_eq ops op : pgKeyMatch (pairArgs ops) op = bool_decide (op ∈ ops).
Proof. by rewrite /pgKeyMatch unnest_pairArgs. Qed.

Lemma matching_ext P P' (t : Table) :
  (∀ op r, t !! op = Some r → P op r = P' op r) → matching P t = matching P' t.
Proof.
  intros HP. apply map_eq. intros op. rewrite !lookup_matching.
  destruct (t !! op) as [r|] eqn:Hr; [|done]. simpl. by rewrite HP.
Qed.

Lemma updated_ext P P' g (t : Table) :
  (∀ op r, t !! op = Some r → P op r = P' op r) → updated P g t = updated P' g t.
Proof.
  intros HP. apply map_eq. intros op. rewrite !lookup_updated.
  destruct (t !! op) as [r|] eqn:Hr; [|done]. simpl. by rewrite HP.
Qed.

Lemma deleted_ext P P' (t : Table) :
  (∀ op r, t !! op = Some r → P op r = P' op r) → deleted P t = deleted P' t.
Proof.
  intros HP. apply map_eq. intros op. rewrite !lookup_deleted.
  destruct (t !! op) as [r|] eqn:Hr; [|done]. simpl. by rewrite HP.
Qed.

(** What a statement on the row at [op] matches. *)
Lemma matching_at (P : Row → bool) op (t : Table) :
  matching (λ op' r, at_op op op' && P r) t =
  match t !! op with Some r => if P r then {[op := r]} else ∅ | None => ∅ end.
Proof.
  apply map_eq. intros k. rewrite lookup_matching /at_op. destruct (decide (k = op)) as [->|Hne].
  - rewrite bool_decide_true //. destruct (t !! op) as [r|]; [|by rewrite lookup_empty].
    simpl. destruct (P r); [by rewrite lookup_singleton_eq|by rewrite lookup_empty].
  - rewrite bool_decide_false //. trans (None : option Row); [by destruct (t !! k)|].
    destruct (t !! op) as [r|]; [destruct (P r)|]; by rewrite ?lookup_singleton_ne ?lookup_empty.
Qed.

Lemma updated_at (P : Row → bool) g op (t : Table) :
  updated (λ op' r, at_op op op' && P r) g t =
  match t !! op with Some r => if P r then <[op := g r]> t else t | None => t end.
Proof.
  apply map_eq. intros k. rewrite lookup_updated /at_op. destruct (decide (k = op)) as [->|Hne].
  - rewrite bool_decide_true //. destruct (t !! op) as [r|] eqn:Hr; [|by rewrite Hr].
    simpl. destruct (P r); [by rewrite lookup_insert_eq|by rewrite Hr].
  - rewrite bool_decide_false //. trans (t !! k); [by destruct (t !! k)|].
    destruct (t !! op) as [r|]; [destruct (P r)|]; by rewrite ?lookup_insert_ne.
Qed.

Lemma deleted_at (P : Row → bool) op (t : Table) :
  deleted (λ op' r, at_op op op' && P r) t =
  match t !! op with Some r => if P r then delete op t else t | None => t end.
Proof.
  apply map_eq. intros k. rewrite lookup_deleted /at_op. destruct (decide (k = op)) as [->|Hne].
  - rewrite bool_decide_true //. destruct (t !! op) as [r|] eqn:Hr; [|by rewrite Hr].
    simpl. destruct (P r); [by rewrite lookup_delete_eq|by rewrite Hr].
  - rewrite bool_decide_false //. trans (t !! k); [by destruct (t !! k)|].
    destruct (t !! op) as [r|]; [destruct (P r)|]; by rewrite ?lookup_delete_ne.
Qed.

Section updates.
Context `{MapRange} (engine : Engine).

(** The rows an UPDATE returns have the keys it matched. *)
Lemma returned_keys (g : Row → Row) (t : Table) : (range_map (g <$> t)).*1 ≡ₚ (map_to_list t).*1.
Proof.
  rewrite range_map_perm map_to_list_fmap -list_fmap_compose. by apply reflexive_eq, list_fmap_ext.
Qed.

Lemma returned_elem (g : Row → Row) (t : Table) op : op ∈ (range_map (g <$> t)).*1 ↔ is_Some (t !! op).
Proof.
  rewrite list_elem_of_fmap. split.
  - intros ([k r]&->&Hk). rewrite range_map_elem lookup_fmap in Hk.
    simpl. by destruct (t !! k); [eexists|].
  - intros [r Hr]. exists (op, g r). split; [done|]. by rewrite range_map_elem lookup_fmap Hr.
Qed.

Lemma count_at (P : Row → bool) (g : Row → Row) op (t : Table) :
  count_rows (range_map (g <$> matching (λ op' r, at_op op op' && P r) t)) =
  match t !! op with Some r => if P r then 1 else 0 | None => 0 end.
Proof.
  rewrite /count_rows range_map_length map_size_fmap matching_at.
  destruct (t !! op) as [r|]; [destruct (P r)|]; rewrite ?map_size_singleton ?map_size_empty //.
Qed.

Context (P : Row → bool) (g : Row → Row).
Context (Hstable : ∀ r, P r = true → P (g r) = false).
Context (Hok : ∀ r, P r = true → row_ok r → row_ok (g r)) (Hseq : ∀ r, seq (g r) = seq r).

Lemma matching_hits ops (t : Table) :
  matching (λ op' r, pgKeyMatch (pairArgs ops) op' && P r) t = hits P ops t.
Proof.
  apply map_eq. intros k. rewrite lookup_matching lookup_hits.
  destruct (t !! k); simpl; [|done]. by rewrite pgKeyMatch_eq.
Qed.

Lemma updated_set_form ops (t : Table) :
  updated (λ op' r, pgKeyMatch (pairArgs ops) op' && P r) g t = set_form P g ops t.
Proof.
  apply map_eq. intros k. rewrite lookup_updated lookup_set_form.
  destruct (t !! k); simpl; [|done]. by rewrite pgKeyMatch_eq.
Qed.

Definition update_at (op : Outpoint) (t : Table) : Z * Table :=
  (count_rows (range_map (g <$> matching (λ op' r, at_op op op' && P r) t)),
   updated (λ op' r, at_op op op' && P r) g t).

Lemma each_update_at ops n (t : Table) :
  (n + foldr Z.add 0 (each update_at ops t).1, (each update_at ops t).2) = foldl (step P g) (n, t) ops.
Proof.
  revert n t. induction ops as [|op ops IH]; intros n t; simpl; [by rewrite Z.add_0_r|].
  specialize (IH (n + (update_at op t).1) (update_at op t).2). revert IH.
  assert (step P g (n, t) op = (n + (update_at op t).1, (update_at op t).2)) as ->.
  { rewrite /step /update_at /= count_at updated_at.
    destruct (t !! op) as [r|]; [destruct (P r)|]; rewrite ?Z.add_0_r //. }
  intros <-. destruct (each update_at ops _) as [ys t2]; simpl. f_equal. lia.
Qed.

Lemma computes_UPDATE_at op :
  computes (rows ← UPDATE (λ op' r, at_op op op' && P r) g; mret (count_rows rows)) (update_at op).
Proof.
  eapply computes_ext.
  { eapply (computes_bind _ _ _ (λ rows t, (count_rows rows, t))); [|intros; apply computes_ret].
    apply computes_UPDATE; [|done]. intros op' r [_ HP]%andb_prop. by apply Hok. }
  done.
Qed.

(** The set-based statement and the loop of single-row statements compute the same. *)
Lemma computes_update_all ops :
  bindable engine ops →
  computes (update_all engine ops P g)
    (λ t, (Z.of_nat (size (hits P ops t)), set_form P g ops t)).
Proof.
  intros Hfit. rewrite /update_all. case_decide as Hops.
  { eapply computes_ext; [apply computes_ret|]. intros t _. simpl.
    apply nil_length_inv in Hops as ->. pose proof (foldl_step P g Hstable [] 0 t) as Hf. by simpl in Hf. }
  case_bool_decide as Heng.
  - eapply computes_ext.
    + eapply (computes_bind _ _ _ (λ rows t, (count_rows rows, t))); [|intros; apply computes_ret].
      apply computes_binding; [apply bindable_keys; by rewrite -Heng|].
      apply computes_UPDATE; [|done]. intros op' r [_ HP]%andb_prop. by apply Hok.
    + intros t _. simpl.
      by rewrite updated_set_form /count_rows range_map_length map_size_fmap matching_hits.
  - eapply computes_ext.
    + eapply (computes_bind _ _ _ (λ counts t, (foldr Z.add 0 counts, t))); [|intros; apply computes_ret].
      apply computes_for_each. intros op _. apply computes_UPDATE_at.
    + intros t _. simpl. pose proof (each_update_at ops 0 t) as He.
      by rewrite (foldl_step P g Hstable) Z.add_0_l in He.
Qed.
End updates.

(** The same update on both sides. *)
Lemma agree_set_form t m ops (P : Row → bool) g (p : MemStore.row → bool) h :
  agree t m →
  (∀ op r mr, t !! op = Some r → m !! op = Some mr → MemStore.r_utxo mr = scanUTXO op r →
     P r = p mr ∧ (P r = true → scanUTXO op (g r) = MemStore.r_utxo (h mr))) →
  agree (set_form P g ops t) (set_form p h ops m) ∧ size (hits P ops t) = size (hits p ops m).
Proof.
  intros Ha HP. split.
  - eapply agree_pointwise; [exact Ha|intros op Ht Hm|intros op r mr Hr Hm He];
      rewrite !lookup_set_form ?Ht ?Hr ?Hm //=.
    destruct (HP op r mr Hr Hm He) as [<- Hg].
    destruct (bool_decide _ && P r) eqn:E; f_equal; [|done].
    apply andb_prop in E as [_ E]. by apply Hg.
  - rewrite -(matching_hits P ops t).
    apply (agree_size t m _ (λ op mr, op ∈ ops ∧ p mr = true)); [done|].
    intros op r mr Hr Hm He. destruct (HP op r mr Hr Hm He) as [<- _].
    rewrite pgKeyMatch_eq andb_true_iff bool_decide_eq_true //.
Qed.

End SqlAgree.
