(* ===== verification/SqlRefine.v ===== *)
(** * SqlRefine: the SQL store and the in-memory store give the same answers

    [sim s ms]: the SQL store [s], used by one caller at a time, and the in-memory
    store [ms] hold the same coins, inserted in the same order.  Insertion numbers
    themselves differ: the SQL store also draws one for a mint that inserts nothing.
    For every operation the two stores return the same result and stay related. *)
From S2P Require Import Prelude UtxoTypes MemStore StoreContract StoreReplay SqlDb SqlStore SqlLogic SqlAgree.
Import StoreContract SqlDb SqlStore SqlLogic SqlAgree.
Local Open Scope Z_scope.

Module SqlRefine.

(** The resolution of a stored time. *)
Definition micro (t : Time) : Time := ofUnixMicro (UnixMicro t).

(** The rows of both stores were inserted in the same order. *)
Definition same_order (t : Table) (m : gmap Outpoint MemStore.row) : Prop :=
  ∀ op1 op2 r1 r2 mr1 mr2,
    t !! op1 = Some r1 → t !! op2 = Some r2 → m !! op1 = Some mr1 → m !! op2 = Some mr2 →
    seq r1 < seq r2 ↔ MemStore.r_seq mr1 < MemStore.r_seq mr2.

Record sim (s : Store) (ms : MemStore.Store) : Prop := {
  sim_alone : alone (conn s);
  sim_closed : closed s = MemStore.closed ms;
  sim_agree : agree (visible (conn s)) (MemStore.rows ms);
  sim_order : same_order (visible (conn s)) (MemStore.rows ms);
  sim_counter : ∀ op r, visible (conn s) !! op = Some r → seq r ≤ utxo_seq (conn s);
  sim_seqs : seqs_ok ms;
}.

(** An operation that inserts nothing keeps the stores related if it treats the coins
    alike. *)
Lemma sim_after `{MapRange} c s ms c' t :
  sim s ms → mints c = false → c ≠ CClose → after (conn s) c' t →
  agree t (MemStore.rows (exec c ms)) → sim (with_conn c' s) (exec c ms).
Proof.
  intros [Hal Hcl Hag Hor Hcnt Hsq] Hm Hc [Hal' Hv Htx Hq Hs] Hag'.
  assert (∀ op r, MemStore.rows (exec c ms) !! op = Some r →
    ∃ r0, MemStore.rows ms !! op = Some r0 ∧ MemStore.r_seq r = MemStore.r_seq r0) as Hback.
  { intros op r Hr. destruct (exec_coin_rel c ms op) as [_ Hk]. specialize (Hk Hm).
    rewrite Hr in Hk. destruct (MemStore.rows ms !! op) as [r0|]; [|done]. by exists r0. }
  constructor; simpl; rewrite ?Hv ?Hq.
  - done.
  - by rewrite Hcl StoreReplay.exec_closed.
  - done.
  - intros op1 op2 r1 r2 mr1 mr2 (r1'&?&->)%Hs (r2'&?&->)%Hs (m1'&?&->)%Hback (m2'&?&->)%Hback.
    by eapply Hor.
  - intros op r (r0&?%Hcnt&->)%Hs. done.
  - apply exec_seqs_ok; [by destruct c|done].
Qed.

(** ** Tactics *)

(** Changed rows stay well-formed. *)
Ltac row_okay := intros; unfold row_ok in *; simpl in *; naive_solver.

(** Both stores are closed, or the arguments are invalid, or the bodies run. *)
Ltac enter Hsim :=
  rewrite /guard_open /MemStore.guard_open (sim_closed _ _ Hsim);
  match type of Hsim with sim _ ?ms =>
    destruct (MemStore.closed ms) eqn:Hcl; [by split|] end.
Ltac enter_token Hsim :=
  enter Hsim;
  match goal with |- context [ValidateReservation ?tok] =>
    destruct (ValidateReservation tok) eqn:Hv; [by split|];
    pose proof (proj1 (ValidateReservation_None tok) Hv) as Htok end; simpl.
Ltac executes := simpl; unfold MemStore.guard_open, MemStore.guard_valid;
  repeat match goal with H : ?x = _ |- context [?x] => rewrite H end; reflexivity.

Section calls.
Context `{MapRange}.

(** Running the body of a method. *)
Lemma refine_call {A} (m : M Conn error A) f c s ms :
  sim s ms → mints c = false → c ≠ CClose → computes m f →
  agree (f (visible (conn s))).2 (MemStore.rows (exec c ms)) →
  ∃ c', on_conn m s = (Ret (f (visible (conn s))).1, with_conn c' s) ∧
    sim (with_conn c' s) (exec c ms).
Proof.
  intros Hsim Hm Hc Hcomp Hag. destruct (Hcomp (conn s)) as (c'&He&Ha); [apply Hsim|].
  exists c'. split; [by rewrite /on_conn /zoom He|]. by eapply sim_after.
Qed.

(** What it is for both stores to do the same. *)
Definition same {A} (o : outcome error A * Store) (o' : outcome error A * MemStore.Store) : Prop :=
  o.1 = o'.1 ∧ sim o.2 o'.2.

Lemma same_idle {A} (o : outcome error A) s ms : sim s ms → same (o, s) (o, ms).
Proof. done. Qed.

(** ** Single statements *)

Lemma computes_UPDATE_count P g :
  (∀ op r, P op r = true → row_ok r → row_ok (g r)) → (∀ r, seq (g r) = seq r) →
  computes (rows ← UPDATE P g; mret (count_rows rows))
    (λ t, (Z.of_nat (size (matching P t)), updated P g t)).
Proof.
  intros Hok Hseq. eapply computes_ext.
  { eapply (computes_bind _ _ _ (λ rows t, (count_rows rows, t))); [by apply computes_UPDATE|].
    intros. apply computes_ret. }
  intros t _. by rewrite /count_rows range_map_length map_size_fmap.
Qed.

(** An UPDATE and the loop of the in-memory store over all its rows. *)
Lemma agree_update_where t m (P : Row → bool) g (p : MemStore.row → bool) h :
  agree t m → table_ok t →
  (∀ op r mr, row_ok r → MemStore.r_utxo mr = scanUTXO op r →
     P r = p mr ∧ (P r = true → scanUTXO op (g r) = MemStore.r_utxo (h mr))) →
  agree (updated (λ _, P) g t) (update_where p h m).1 ∧
  Z.of_nat (size (matching (λ _, P) t)) = (update_where p h m).2.
Proof.
  intros Ha Hok HP. split.
  - eapply agree_pointwise; [exact Ha|intros op Ht Hm|intros op r mr Hr Hm He];
      rewrite lookup_updated lookup_update_where ?Ht ?Hr ?Hm //=.
    destruct (HP op r mr (Hok op r Hr) He) as [<- Hg]. destruct (P r); f_equal; auto.
  - rewrite /update_where /=. f_equal.
    apply (agree_size t m _ (λ _ mr, p mr = true)); [done|]. intros op r mr Hr Hm He.
    destruct (HP op r mr (Hok op r Hr) He) as [<- _]. done.
Qed.

Lemma heldBy_agree uid tok op r mr :
  tok ≠ "" → row_ok r → MemStore.r_utxo mr = scanUTXO op r →
  (user_id r =? uid) && bool_decide (reserved_by r = Some tok) && is_null (spent_by r) =
  MemStore.heldBy uid tok mr.
Proof.
  intros Htok Hr He. rewrite /MemStore.heldBy He /=. apply eq_bool_prop_intro.
  rewrite !Is_true_true !andb_true_iff !bool_decide_eq_true Z.eqb_eq (row_ok_token _ _ Hr Htok).
  destruct (spent_by r); naive_solver.
Qed.

(** Both stores are open and the call is the body [m]. *)
Lemma same_call {A} c (m : M Conn error A) f s ms (a : A) ms' :
  sim s ms → exec c ms = ms' → mints c = false → c ≠ CClose → computes m f →
  agree (f (visible (conn s))).2 (MemStore.rows ms') ∧ (f (visible (conn s))).1 = a →
  same (on_conn m s) (Ret a, ms').
Proof.
  intros Hsim <- Hm Hc Hcomp [Hag <-]. destruct (refine_call m f c s ms) as (c'&He&Hs); [done..|].
  by rewrite He.
Qed.

Lemma ReleaseReservation_same uid tok s ms :
  sim s ms → same (ReleaseReservation uid tok s) (MemStore.ReleaseReservation uid tok ms).
Proof.
  intros Hsim. rewrite /ReleaseReservation /MemStore.ReleaseReservation. enter_token Hsim.
  eapply (same_call (CReleaseReservation uid tok)); [done| |done|done| |].
  - rewrite /= /MemStore.ReleaseReservation. executes.
  - apply computes_withTx, computes_UPDATE_count; [row_okay|done].
  - eapply agree_update_where; [apply Hsim..|]. intros op r mr Hr He. simpl.
    by rewrite (heldBy_agree uid tok op r mr Htok Hr He) /notPinned He.
Qed.

Lemma setPinned_same uid tok b s ms :
  sim s ms → same (setPinned uid tok b s) (MemStore.setPinned uid tok b ms).
Proof.
  intros Hsim. rewrite /setPinned /MemStore.setPinned. enter_token Hsim.
  eapply (same_call (if b then CPin uid tok else CUnpin uid tok)); [done| |by destruct b|by destruct b| |].
  - destruct b; rewrite /= /MemStore.Pin /MemStore.Unpin /MemStore.setPinned; executes.
  - apply computes_withTx, computes_UPDATE_count; [row_okay|done].
  - eapply agree_update_where; [apply Hsim..|]. intros op r mr Hr He. simpl.
    rewrite (heldBy_agree uid tok op r mr Htok Hr He) /notPinned He /=.
    by destruct b, (pinned r).
Qed.

Lemma RemoveSpentBy_same w s ms :
  sim s ms → same (RemoveSpentBy w s) (MemStore.RemoveSpentBy w ms).
Proof.
  intros Hsim. rewrite /RemoveSpentBy /MemStore.RemoveSpentBy. enter Hsim.
  eapply (same_call (CRemoveSpentBy w)); [done| |done|done| |].
  - rewrite /= /MemStore.RemoveSpentBy. executes.
  - apply computes_withTx, computes_DELETE.
  - simpl. split.
    + eapply agree_pointwise; [apply Hsim|intros op Ht Hm|intros op r mr Hr Hm He];
        rewrite lookup_deleted (lookup_delete_where (MemStore.spentBy w)) ?Ht ?Hr ?Hm //=.
      rewrite /MemStore.spentBy He /spent_is /=. by case_bool_decide; rewrite /= ?He.
    + f_equal. apply (agree_size _ _ _ (λ _ mr, MemStore.spentBy w mr = true)); [apply Hsim|].
      intros op r mr Hr Hm He. by rewrite /MemStore.spentBy He.
Qed.

(** A batch: the call's result is made from the item errors. *)
Lemma same_batch {A B} c (m : M Conn error A) (k : A → outcome error B) f s ms (a : A) ms' :
  sim s ms → exec c ms = ms' → mints c = false → c ≠ CClose → computes m f →
  agree (f (visible (conn s))).2 (MemStore.rows ms') ∧ (f (visible (conn s))).1 = a →
  same (on_conn (x ← m; lift (k x)) s) (k a, ms').
Proof.
  intros Hsim <- Hm Hc Hcomp [Hag <-]. destruct (Hcomp (conn s)) as (c'&He&Ha); [apply Hsim|].
  rewrite /on_conn /zoom /mbind /M_bind He /lift. split; [by destruct (k _)|]. simpl.
  by eapply sim_after.
Qed.

(** ** Batches of outpoints *)

(** A batch of guarded updates against the counting loop of the in-memory store. *)
Lemma agree_batch t m ops (P : Row → bool) g (p : MemStore.row → bool) h loop :
  agree t m → table_ok t →
  (∀ mr, p mr = true → p (h mr) = false) →
  (∀ nm op, loop nm op = step p h nm op) →
  (∀ op r mr, row_ok r → MemStore.r_utxo mr = scanUTXO op r →
     P r = p mr ∧ (P r = true → scanUTXO op (g r) = MemStore.r_utxo (h mr))) →
  agree (set_form P g ops t) (foldl loop (0, m) ops).2 ∧
  Z.of_nat (size (hits P ops t)) = (foldl loop (0, m) ops).1.
Proof.
  intros Ha Hok Hst Hloop HP.
  assert (foldl loop (0, m) ops = foldl (step p h) (0, m) ops) as ->.
  { generalize (0, m). induction ops as [|op ops IH]; intros nm; simpl; [done|]. by rewrite Hloop IH. }
  rewrite (foldl_step p h Hst) Z.add_0_l /=.
  destruct (agree_set_form t m ops P g p h) as [? ->]; [done| |done].
  intros op r mr Hr Hm He. apply HP; [by eapply Hok|done].
Qed.

Lemma Unspend_same engine w ops s ms :
  bindable engine ops → sim s ms → same (Unspend engine w ops s) (MemStore.Unspend w ops ms).
Proof.
  intros Hfit Hsim. rewrite /Unspend /MemStore.Unspend. enter Hsim.
  destruct (foldl _ _ _) as [n m] eqn:Hf. 
  eapply (same_call (CUnspend w ops)); [done| |done|done| |].
  - rewrite /= /MemStore.Unspend. executes.
  - apply computes_withTx, computes_update_all; [..|done|done].
    + done.
    + row_okay.
  - simpl. pose proof (agree_batch (visible (conn s)) (MemStore.rows ms) ops (spent_is w) unspend_row
      (MemStore.spentBy w)
      (MemStore.map_utxo (set_pinned false ∘ MemStore.unreserve ∘ set_spentBy None))
      (MemStore.unspend_one w)) as Hb.
    rewrite Hf in Hb. apply Hb; [apply Hsim..| | |].
    + intros mr _. by rewrite /MemStore.spentBy bool_decide_false.
    + intros [n' m'] op. rewrite /step /MemStore.unspend_one /MemStore.spentBy /=.
      destruct (m' !! op); [|done]. by case_decide; [rewrite bool_decide_true|rewrite bool_decide_false].
    + intros op r mr Hr He. by rewrite /spent_is /MemStore.spentBy /= He.
Qed.

Lemma Promote_same engine ops to s ms :
  bindable engine ops → sim s ms → same (Promote engine ops to s) (MemStore.Promote ops to ms).
Proof.
  intros Hfit Hsim. rewrite /Promote /MemStore.Promote. enter Hsim.
  destruct (Tier_Valid to) eqn:Ht; [simpl|by split].
  destruct (foldl _ _ _) as [n m] eqn:Hf. 
  eapply (same_call (CPromote ops to)); [done| |done|done| |].
  - rewrite /= /MemStore.Promote. executes.
  - apply computes_withTx, computes_update_all; [..|done|done].
    + intros r _. by rewrite /= Z.eqb_refl.
    + row_okay.
  - simpl. pose proof (agree_batch (visible (conn s)) (MemStore.rows ms) ops
      (λ r, negb (tier r =? to)) (SET_tier to) (λ mr, negb (u_Tier (MemStore.r_utxo mr) =? to))
      (MemStore.map_utxo (set_tier to)) (MemStore.promote_one to)) as Hb.
    rewrite Hf in Hb. apply Hb; [apply Hsim..| | |].
    + intros mr _. by rewrite /= Z.eqb_refl.
    + intros [n' m'] op. rewrite /step /MemStore.promote_one /=.
      destruct (m' !! op); [|done]. by destruct (_ =? to).
    + intros op r mr Hr He. by rewrite /= He.
Qed.

Lemma ReleaseOutpoints_same engine tok ops s ms :
  bindable engine ops → sim s ms → same (ReleaseOutpoints engine tok ops s) (MemStore.ReleaseOutpoints tok ops ms).
Proof.
  intros Hfit Hsim. rewrite /ReleaseOutpoints /MemStore.ReleaseOutpoints. enter_token Hsim.
  set (p mr := bool_decide (u_ReservedBy (MemStore.r_utxo mr) = tok ∧ u_SpentBy (MemStore.r_utxo mr) = None)).
  set (h := MemStore.map_utxo (set_pinned false ∘ MemStore.unreserve)).
  eapply (same_call (CReleaseOutpoints tok ops)); [done| |done|done| |].
  - rewrite /= /MemStore.ReleaseOutpoints. executes.
  - apply computes_withTx.
    eapply (computes_bind _ _ _ (λ _ t, ((), t))); [|intros; apply computes_ret].
    apply computes_update_all; [done| |done|done]. row_okay.
  - split; [|done]. simpl.
    assert (foldl (MemStore.release_one tok) (MemStore.rows ms) ops =
            (foldl (step p h) (0, MemStore.rows ms) ops).2) as ->.
    { assert (∀ n m op, MemStore.release_one tok m op = (step p h (n, m) op).2) as Hone.
      { intros n m op. rewrite /MemStore.release_one /step /p /=. destruct (m !! op) as [mr|]; [|done].
        case_decide as Hd; [rewrite bool_decide_false|rewrite bool_decide_true]; try done; [tauto|].
        destruct (decide (u_ReservedBy (MemStore.r_utxo mr) = tok)),
          (decide (u_SpentBy (MemStore.r_utxo mr) = None)); tauto. }
      generalize 0. generalize (MemStore.rows ms). clear -Hone. induction ops as [|op ops IH]; intros m n; [done|].
      simpl. rewrite (Hone n). destruct (step p h (n, m) op) as [n' m']. apply IH. }
    eapply agree_batch; [apply Hsim..| |done|].
    + intros mr _. rewrite /p bool_decide_false //=. naive_solver.
    + intros op r mr Hr He. rewrite /p /h /= He. split; [|done].
      apply eq_bool_prop_intro. rewrite !Is_true_true andb_true_iff !bool_decide_eq_true /=.
      rewrite (row_ok_token _ _ Hr Htok). destruct (spent_by r); naive_solver.
Qed.

End calls.
End SqlRefine.

(** * SqlRefineOps: the operations with loops of guarded statements

    Freezing, removing, spending and reserving named outpoints, on both engines, against
    the in-memory store ([SqlRefine]). *)
Import StoreContract SqlDb SqlStore SqlLogic SqlAgree SqlRefine.
Local Open Scope Z_scope.

Module SqlRefineOps.

(** ** Freeze *)

Lemma frozen_loop_spec b ops (m : gmap Outpoint MemStore.row) :
  (MemStore.frozen_loop b ops m).1 = NotFoundError <$> filter (λ op, m !! op = None) ops ∧
  ∀ k, (MemStore.frozen_loop b ops m).2 !! k =
    if decide (k ∈ ops) then MemStore.map_utxo (set_frozen b) <$> m !! k else m !! k.
Proof.
  revert m. induction ops as [|op ops IH]; intros m; simpl; [done|].
  destruct (m !! op) as [mr|] eqn:Hr.
  - destruct (IH (<[op:=MemStore.map_utxo (set_frozen b) mr]> m)) as [IH1 IH2]. split.
    + rewrite IH1 filter_cons_False; [|by rewrite Hr]. f_equal. apply list_filter_iff.
      intros k. rewrite lookup_insert_None. split; [by intros [??]|].
      intros Hk. split; [done|]. intros ->. congruence.
    + intros k. rewrite IH2. destruct (decide (k = op)) as [->|Hne].
      * rewrite lookup_insert_eq Hr. rewrite [X in _ = X]decide_True; [|by left]. by case_decide; destruct mr.
      * rewrite lookup_insert_ne //. rewrite (decide_ext (k ∈ op :: ops) (k ∈ ops)) //. set_solver.
  - specialize (IH m) as [IH1 IH2]. destruct (MemStore.frozen_loop b ops m) as [es m'] eqn:Hf.
    simpl in *. split.
    + rewrite filter_cons_True //=. by rewrite IH1.
    + intros k. rewrite IH2. destruct (decide (k = op)) as [->|Hne].
      * rewrite Hr. by repeat case_decide.
      * rewrite (decide_ext (k ∈ op :: ops) (k ∈ ops)) //. set_solver.
Qed.

(** What freezing the rows one by one leaves. *)
Definition freeze_at (b : bool) (op : Outpoint) (t : Table) : option error * Table :=
  (if decide (t !! op = None) then Some (NotFoundError op) else None,
   updated (λ op' _, at_op op op') (SET_frozen b) t).
Definition frozen_all (b : bool) (ops : list Outpoint) (t : Table) : Table :=
  updated (λ op' _, bool_decide (op' ∈ ops)) (SET_frozen b) t.

Lemma each_freeze_at b ops t :
  omap id (each (freeze_at b) ops t).1 = NotFoundError <$> filter (λ op, t !! op = None) ops ∧
  (each (freeze_at b) ops t).2 = frozen_all b ops t.
Proof.
  revert t. induction ops as [|op ops IH]; intros t; simpl.
  { split; [done|]. apply map_eq. intros k. rewrite lookup_updated. by destruct (t !! k). }
  destruct (IH (updated (λ op' _, at_op op op') (SET_frozen b) t)) as [IH1 IH2].
  destruct (each _ ops _) as [es t2] eqn:He. simpl in *. split.
  - assert (filter (λ k, updated (λ op' _, at_op op op') (SET_frozen b) t !! k = None) ops =
            filter (λ k, t !! k = None) ops) as Hf.
    { apply list_filter_iff. intros k. rewrite lookup_updated. by destruct (t !! k). }
    rewrite Hf in IH1. case_decide as Hd; [rewrite filter_cons_True //|rewrite filter_cons_False //]; csimpl;
      by rewrite IH1.
  - rewrite IH2. apply map_eq. intros k. rewrite /frozen_all !lookup_updated /at_op.
    destruct (t !! k) as [r|]; simpl; [|done]. f_equal. destruct (decide (k = op)) as [->|Hne].
    + rewrite (bool_decide_true (op = op)) // (bool_decide_true (op ∈ op :: ops)); [|by left].
      by case_bool_decide.
    + rewrite (bool_decide_false (k = op)) //.
      rewrite (bool_decide_ext (k ∈ op :: ops) (k ∈ ops)) //. set_solver.
Qed.

Section ops.
Context `{MapRange} (engine : Engine).

(** The statements of setFrozen report the missing rows in order. *)
Lemma computes_freeze b ops :
  bindable engine ops →
  computes (freeze_rows engine ops b)
    (λ t, (NotFoundError <$> filter (λ op, t !! op = None) ops, frozen_all b ops t)).
Proof.
  intros Hfit. rewrite /freeze_rows. case_decide as Hops.
  { eapply computes_ext; [apply computes_ret|]. intros t _. apply nil_length_inv in Hops as ->.
    destruct (each_freeze_at b [] t) as [_ <-]. done. }
  case_bool_decide as Heng.
  - eapply computes_ext.
    { eapply (computes_bind _ _ _ (λ found t, (NotFoundError <$> filter (λ op, op ∉ found.*1) ops, t)));
        [|intros; apply computes_ret].
      apply computes_binding; [apply bindable_keys; by rewrite -Heng|]. apply computes_UPDATE; [row_okay|done]. }
    intros t _. simpl. f_equal.
    + f_equal. apply filter_ext_in. intros op Hop.
      rewrite returned_elem lookup_matching pgKeyMatch_eq bool_decide_true //.
      destruct (t !! op); simpl; [|naive_solver]. split; [|done]. intros Hn. by destruct Hn.
    + apply map_eq. intros k. rewrite /frozen_all !lookup_updated.
      destruct (t !! k); simpl; [|done]. by rewrite pgKeyMatch_eq.
  - eapply computes_ext.
    { eapply (computes_bind _ _ _ (λ es t, (omap id es, t))); [|intros; apply computes_ret].
      apply (computes_for_each _ (freeze_at b)). intros op _. eapply computes_ext.
      { eapply (computes_bind _ _ _
          (λ rows t, (if (length rows =? 0)%nat then Some (NotFoundError op) else None, t)));
          [apply computes_UPDATE; [row_okay|done]|intros; apply computes_ret]. }
      intros t _. rewrite /freeze_at /=. f_equal.
      rewrite range_map_length map_size_fmap.
      assert (matching (λ op' _, at_op op op') t = matching (λ op' r, at_op op op' && (λ _, true) r) t) as ->.
      { apply matching_ext. intros. by rewrite andb_true_r. }
      rewrite matching_at. destruct (t !! op).
      - by rewrite map_size_singleton.
      - by rewrite map_size_empty. }
    intros t _. destruct (each_freeze_at b ops t) as [-> ->]. done.
Qed.

Lemma setFrozen_same ops b s ms :
  bindable engine ops → sim s ms → same (setFrozen engine ops b s) (MemStore.setFrozen ops b ms).
Proof.
  intros Hfit Hsim. rewrite /setFrozen /MemStore.setFrozen. enter Hsim.
  destruct (frozen_loop_spec b ops (MemStore.rows ms)) as [Hes Hm].
  destruct (MemStore.frozen_loop b ops (MemStore.rows ms)) as [es m] eqn:Hf. simpl in Hes, Hm.
  eapply (same_batch (if b then CFreeze ops else CUnfreeze ops)); [done| |by destruct b|by destruct b| |].
  - destruct b; rewrite /= /MemStore.Freeze /MemStore.Unfreeze /MemStore.setFrozen; executes.
  - by apply computes_withTx, computes_freeze.
  - simpl. split.
    + eapply agree_pointwise; [apply Hsim|intros op Ht Hm'|intros op r mr Hr Hm' He];
        rewrite lookup_updated Hm ?Ht ?Hr ?Hm' //=; [by case_decide|].
      case_bool_decide; [rewrite decide_True //=|rewrite decide_False //=]; by rewrite He.
    + rewrite Hes. f_equal. apply list_filter_iff. intros op.
      by destruct (agree_cases _ _ op (sim_agree _ _ Hsim)) as [[-> ->]|(r&mr&->&->&_)].
Qed.

(** ** Remove *)

Definition remove1 (force : bool) (op : Outpoint) (t : Table) : option error * Table :=
  match t !! op with
  | None => (None, t)
  | Some r =>
      match (if force then None else MemStore.remove_refusal op (scanUTXO op r)) with
      | Some e => (Some e, t)
      | None => (None, delete op t)
      end
  end.

Definition removable (r : Row) : bool :=
  is_null (reserved_by r) && is_null (spent_by r) && notFrozen r.

Lemma computes_classifyRemove op :
  computes (classifyRemoveRefusal op) (λ t,
    (match t !! op with
     | None => (None, false)
     | Some r => let e := MemStore.remove_refusal op (scanUTXO op r) in (e, bool_decide (e = None))
     end, t)).
Proof.
  eapply computes_ext.
  { eapply (computes_bind _ _ _ (λ row t,
      (match row with
       | None => (None, false)
       | Some r => let e := MemStore.remove_refusal op (scanUTXO op r) in (e, bool_decide (e = None))
       end, t))); [apply computes_SELECT|].
    intros [r|]; [|apply computes_ret]. rewrite /MemStore.remove_refusal /=.
    destruct (spent_by r); [apply computes_ret|]. case_decide; [apply computes_ret|].
    destruct (frozen r); apply computes_ret. }
  done.
Qed.

Lemma removable_refusal op r :
  row_ok r → removable r = bool_decide (MemStore.remove_refusal op (scanUTXO op r) = None).
Proof.
  intros Hr. rewrite /removable /MemStore.remove_refusal /= /notFrozen.
  destruct (spent_by r); [by rewrite andb_false_r|]. case_decide as Hd.
  - destruct (reserved_by r); [done|]. by destruct Hd.
  - rewrite (row_ok_null r Hr Hd). by destruct (frozen r).
Qed.

Lemma delete_at_op P op t :
  (∀ op' r, P op' r = at_op op op' && removable r) →
  Z.of_nat (size (matching P t)) = match t !! op with Some r => if removable r then 1 else 0 | None => 0 end ∧
  deleted P t = match t !! op with Some r => if removable r then delete op t else t | None => t end.
Proof.
  intros HP. rewrite (matching_ext _ (λ op' r, at_op op op' && removable r)) //.
  rewrite (deleted_ext _ (λ op' r, at_op op op' && removable r)) //.
  rewrite matching_at deleted_at. split; [|done].
  destruct (t !! op) as [r|]; [destruct (removable r)|]; by rewrite ?map_size_singleton ?map_size_empty.
Qed.

Lemma computes_remove_attempts n op :
  ∃ f, computes (remove_attempts n op) f ∧
    (n ≠ 0%nat → ∀ t, table_ok t → f t = remove1 false op t).
Proof.
  induction n as [|n [f [IH _]]]; [eexists; split; [apply computes_ret|done]|].
  eexists. split.
  - simpl. eapply computes_bind; [apply computes_DELETE|]. intros k.
    eapply (computes_if (k =? 1) _ _ _ _); [apply computes_ret|].
    eapply (computes_bind _ _ _ (λ er t, if er.2 : bool then f t else (er.1, t)));
      [apply computes_classifyRemove|].
    intros [e []]; [apply IH|apply computes_ret].
  - intros _ t Ht. rewrite /remove1 /=.
    match goal with |- context [matching ?P t] => destruct (delete_at_op P op t) as [-> ->] end.
    { intros. by rewrite /removable !andb_assoc. }
    destruct (t !! op) as [r|] eqn:Hr; simpl; [|by rewrite Hr].
    rewrite (removable_refusal op r (Ht op r Hr)).
    case_bool_decide as Hn; simpl; [by rewrite Hn|]. rewrite Hr /=. rewrite bool_decide_false //.
    by destruct (MemStore.remove_refusal _ _).
Qed.

Lemma computes_removeOne force op :
  key_fits engine op = true → computes (removeOne engine force op) (remove1 force op).
Proof.
  intros Hfit. apply computes_binding; [done|]. destruct force.
  - eapply computes_ext.
    { eapply (computes_bind _ _ _ (λ _ t, (None, t))); [apply computes_DELETE|intros; apply computes_ret]. }
    intros t _. rewrite /remove1 /=. f_equal.
    rewrite (deleted_ext _ (λ op' r, at_op op op' && (λ _, true) r)); [|intros; by rewrite andb_true_r].
    rewrite deleted_at. by destruct (t !! op).
  - destruct (computes_remove_attempts guardAttempts op) as (f&Hf&He).
    eapply computes_ext; [exact Hf|]. intros t Ht. by apply He.
Qed.

Lemma remove1_agree force ops t m :
  agree t m →
  omap id (each (remove1 force) ops t).1 = (MemStore.remove_loop force ops m).1 ∧
  agree (each (remove1 force) ops t).2 (MemStore.remove_loop force ops m).2.
Proof.
  revert t m. induction ops as [|op ops IH]; intros t m Ha; simpl; [done|].
  destruct (remove1 force op t) as [e t1] eqn:H1. rewrite /remove1 in H1.
  destruct (agree_cases t m op Ha) as [[Ht Hm]|(r&mr&Ht&Hm&He)]; rewrite Ht in H1; rewrite Hm; simplify_eq.
  - specialize (IH t1 m Ha). by destruct (each (remove1 force) ops t1).
  - rewrite He. destruct (if force then None else _) eqn:Href; simplify_eq.
    + specialize (IH t1 m Ha). destruct (each (remove1 force) ops t1), (MemStore.remove_loop force ops m).
      csimpl in *. destruct IH as [IH1 IH2]. by rewrite IH1.
    + specialize (IH (delete op t) (delete op m)). destruct (each (remove1 force) ops _). csimpl in *.
      apply IH. intros k. destruct (decide (k = op)) as [->|]; [by rewrite !lookup_delete_eq|].
      by rewrite !lookup_delete_ne.
Qed.

Lemma Remove_same ops force s ms :
  bindable engine ops → sim s ms → same (Remove engine ops force s) (MemStore.Remove ops force ms).
Proof.
  intros Hfit Hsim. rewrite /Remove /MemStore.Remove. enter Hsim.
  destruct (remove1_agree force ops (visible (conn s)) (MemStore.rows ms)) as [Hes Hag]; [apply Hsim|].
  destruct (MemStore.remove_loop force ops (MemStore.rows ms)) as [es m] eqn:Hl. simpl in Hes, Hag.
  rewrite -Hes. eapply (same_batch (CRemove ops force) _ (λ es, batch_result (omap id es)));
    [done| |done|done| |].
  - rewrite /= /MemStore.Remove. executes.
  - apply computes_withTx, computes_for_each. intros. by apply computes_removeOne, Hfit.
  - done.
Qed.

(** ** RemoveByMintTx *)

Definition mint1 (op : Outpoint) (t : Table) : (option Row * mintVerdict) * Table :=
  match t !! op with
  | None => ((None, mintGone), t)
  | Some r =>
      if negb (is_null (spent_by r)) then ((Some r, mintSpent), t)
      else if decide (str (reserved_by r) ≠ "") then ((Some r, mintReserved), t)
      else ((Some r, mintRemoved), delete op t)
  end.

Lemma computes_resolveMintRow op :
  key_fits engine op = true → computes (resolveMintRow engine op) (mint1 op).
Proof.
  intros Hfit. apply computes_binding; [done|].
  intros c Hc. pose proof (alone_ok _ Hc) as Hok. rewrite /mint1 /guardAttempts.
  change (mint_attempts 2 op) with (
    SELECT_one op ≫= λ row,
    match row with
    | None => mret (None, mintGone)
    | Some r =>
        if negb (is_null (spent_by r)) then mret (Some r, mintSpent)
        else if decide (str (reserved_by r) ≠ "") then mret (Some r, mintReserved)
        else
          k ← DELETE (λ op' r, at_op op op' && is_null (reserved_by r) && is_null (spent_by r));
          if k =? 1 then mret (Some r, mintRemoved) else mint_attempts 1 op
    end).
  destruct (computes_SELECT (λ t, t !! op) c Hc) as (c1&He1&Ha1). simpl in He1, Ha1.
  rewrite /mbind /M_bind /SELECT_one He1. destruct (visible c !! op) as [r|] eqn:Hr; [|by exists c1].
  destruct (is_null (spent_by r)) eqn:Hsp; simpl; [|by exists c1].
  case_decide as Hres; [by exists c1|]. pose proof (row_ok_null r (Hok _ _ Hr) Hres) as Hnull.
  match goal with |- context [DELETE ?P] =>
    destruct (computes_DELETE P c1 (after_alone _ _ _ Ha1)) as (c2&He2&Ha2) end.
  rewrite (after_visible _ _ _ Ha1) in He2, Ha2. simpl in He2, Ha2.
  set (P := λ r, is_null (reserved_by r) && is_null (spent_by r)) in *.
  rewrite (matching_ext _ (λ op' r, at_op op op' && P r)) in He2; [|intros; by rewrite /P andb_assoc].
  rewrite (deleted_ext _ (λ op' r, at_op op op' && P r)) in Ha2; [|intros; by rewrite /P andb_assoc].
  rewrite matching_at Hr /P Hnull Hsp /= map_size_singleton in He2.
  rewrite deleted_at Hr /P Hnull Hsp /= in Ha2. rewrite He2 /=. exists c2. split; [done|].
  by eapply after_trans.
Qed.

Definition mint_step (st : mint_scan * Table) (op : Outpoint) : mint_scan * Table :=
  (report_row op (mint1 op st.2).1 st.1, (mint1 op st.2).2).

Lemma computes_mint_ops ops st :
  bindable engine ops → computes (mint_ops_loop engine ops st) (λ t, foldl mint_step (st, t) ops).
Proof.
  revert st. induction ops as [|op ops IH]; intros st Hfit; simpl; [apply computes_ret|].
  eapply computes_ext.
  { eapply (computes_bind _ _ _ (λ v t, foldl mint_step (report_row op v st, t) ops));
      [apply computes_resolveMintRow, Hfit; left|]. intros v. apply IH. intros ??. apply Hfit. by right. }
  done.
Qed.

(** The two scans go in step. *)
Definition scans (st : mint_scan * Table) (st' : MemStore.mint_scan) : Prop :=
  agree st.2 (MemStore.scan_rows st') ∧ scan_refs st.1 = MemStore.scan_refs st' ∧
  scan_refOrder st.1 = MemStore.scan_refOrder st' ∧
  scan_seenSpenders st.1 = MemStore.scan_seenSpenders st' ∧
  scan_spenders st.1 = MemStore.scan_spenders st' ∧ scan_removed st.1 = MemStore.scan_removed st'.

Lemma mint_step_scans st st' op :
  scans st st' → scans (mint_step st op) (MemStore.scan_mint st' op).
Proof.
  destruct st as [st t]. intros (Ha&H1&H2&H3&H4&H5). rewrite /mint_step /mint1 /MemStore.scan_mint /scans.
  simpl in *. destruct (agree_cases _ _ op Ha) as [[Ht Hm]|(r&mr&Ht&Hm&He)]; rewrite Ht Hm /=; [done|].
  rewrite He /=. destruct (spent_by r) as [w|] eqn:Hsp; simpl.
  { rewrite Hsp -H3. case_decide; simpl; by rewrite ?H1 ?H2 ?H3 ?H4 ?H5. }
  case_decide; simpl.
  - rewrite -H1. destruct (scan_refs st !! str (reserved_by r)) as [ref|]; simpl;
      by rewrite ?H1 ?H2 ?H3 ?H4 ?H5.
  - rewrite H1 H2 H3 H4 H5. split; [|done]. intros k.
    destruct (decide (k = op)) as [->|]; [by rewrite !lookup_delete_eq|by rewrite !lookup_delete_ne].
Qed.

Lemma mint_fold_scans ops st st' :
  scans st st' → scans (foldl mint_step st ops) (foldl MemStore.scan_mint st' ops).
Proof.
  revert st st'. induction ops as [|op ops IH]; intros st st' Hs; simpl; [done|].
  apply IH. by apply mint_step_scans.
Qed.

Lemma RemoveByMintTx_same w ops s ms :
  bindable engine ops → sim s ms → same (RemoveByMintTx engine w ops s) (MemStore.RemoveByMintTx w ops ms).
Proof.
  intros Hfit Hsim. rewrite /RemoveByMintTx /MemStore.RemoveByMintTx. enter Hsim.
  destruct (ValidateMintOutpoints w ops) eqn:Hv; [by split|]. simpl.
  destruct (mint_fold_scans ops (mkScan ∅ [] ∅ [] [], visible (conn s))
    (MemStore.mkScan (MemStore.rows ms) ∅ [] ∅ [] [])) as (Ha&H1&H2&_&H4&H5).
  { split; [apply Hsim|done]. }
  set (st' := foldl MemStore.scan_mint _ ops) in *.
  eapply (same_call (CRemoveByMintTx w ops)); [done| |done|done| |].
  - rewrite /= /MemStore.RemoveByMintTx. executes.
  - apply computes_withTx. eapply (computes_bind _ _ _ (λ st t, (report_of st, t)));
      [by apply computes_mint_ops|intros; apply computes_ret].
  - simpl. split; [done|]. by rewrite /report_of H1 H2 H4 H5.
Qed.

End ops.
End SqlRefineOps.
