(* ===== verification/SqlRefineSpend.v ===== *)
(** * SqlRefineSpend: recording spends, one by one and set-based

    SQLite records the spends of a batch in a loop; PostgreSQL groups them, writes each
    group with one statement and classifies all misses with one read.  Both compute
    what the in-memory store's loop computes, the second when no outpoint of the batch
    is claimed for two spenders or under two reservations. *)
From S2P Require Import Prelude UtxoTypes MemStore StoreContract SqlDb SqlStore SqlLogic SqlAgree SqlRefine.
Import StoreContract SqlDb SqlStore SqlLogic SqlAgree SqlRefine.
Local Open Scope Z_scope.

Module SqlRefineSpend.

(** ** One spend *)

Definition spend1 (force : bool) (sp : SpendOp) (t : Table) : option error * Table :=
  match ValidateSpend sp with
  | Some e => (Some e, t)
  | None =>
      match t !! sp_Outpoint sp with
      | Some r =>
          if spend_guard force (sp_Reservation sp) r
          then (None, <[sp_Outpoint sp := spend_row (sp_SpendingTxID sp) r]> t)
          else ((spend_verdict force sp (Some r)).1, t)
      | None => (Some (NotFoundError (sp_Outpoint sp)), t)
      end
  end.

(** The classifier asks for a retry exactly where the write would have matched. *)
Lemma verdict_retry force sp r :
  row_ok r → ValidateSpend sp = None →
  (spend_verdict force sp (Some r)).2 = spend_guard force (sp_Reservation sp) r.
Proof.
  rewrite /ValidateSpend /spend_guard /= /notFrozen => Hr Hv. case_decide as Ht; [done|].
  destruct (spent_by r) as [w|]; simpl; [by destruct (w =? _)|].
  destruct force; simpl; [done|]. destruct (frozen r); simpl; [by rewrite andb_false_r|].
  rewrite andb_true_r. pose proof (row_ok_token r _ Hr Ht) as Htok.
  case_bool_decide as H1; case_bool_decide as H2; simpl; try done; naive_solver.
Qed.

Lemma guard_verdict force sp r :
  row_ok r → ValidateSpend sp = None → spend_guard force (sp_Reservation sp) r = true →
  spend_verdict force sp (Some r) = (None, true).
Proof.
  intros Hr Hv Hg. pose proof (verdict_retry force sp r Hr Hv) as Hret. rewrite Hg in Hret.
  revert Hret. rewrite /spend_verdict. repeat case_match; naive_solver.
Qed.

Section one.
Context `{MapRange}.

Lemma computes_spendUpdate force sp :
  computes (spendUpdate force sp) (λ t,
    match t !! sp_Outpoint sp with
    | Some r => if spend_guard force (sp_Reservation sp) r
                then (1, <[sp_Outpoint sp := spend_row (sp_SpendingTxID sp) r]> t) else (0, t)
    | None => (0, t)
    end).
Proof.
  eapply computes_ext.
  { apply computes_UPDATE_at; [|done]. row_okay. }
  intros t _. rewrite /update_at count_at updated_at.
  by destruct (t !! sp_Outpoint sp) as [r|]; [destruct (spend_guard _ _ r)|].
Qed.

Lemma computes_spend_attempts n force sp :
  ValidateSpend sp = None →
  ∃ f, computes (spend_attempts n force sp) f ∧
    (n ≠ 0%nat → ∀ t, table_ok t → f t = spend1 force sp t).
Proof.
  intros Hv. induction n as [|n [f [IH _]]]; [eexists; split; [apply computes_ret|done]|].
  eexists. split.
  - simpl. eapply computes_bind; [apply computes_spendUpdate|]. intros k.
    eapply (computes_if (k =? 1) _ _ _ _); [apply computes_ret|].
    eapply (computes_bind _ _ (λ t, (spend_verdict force sp (t !! sp_Outpoint sp), t))
              (λ er t, if er.2 : bool then f t else (er.1, t))).
    + eapply computes_ext.
      { eapply (computes_bind _ _ _ (λ row t, (spend_verdict force sp row, t)));
          [apply computes_SELECT|intros; apply computes_ret]. }
      done.
    + intros [e []]; [apply IH|apply computes_ret].
  - intros _ t Ht. rewrite /spend1 Hv.
    destruct (t !! sp_Outpoint sp) as [r|] eqn:Hr; cbv beta iota; [|by rewrite /= Hr].
    destruct (spend_guard force (sp_Reservation sp) r) eqn:Hg; [done|]. simpl fst. simpl snd.
    cbv beta iota. simpl (0 =? 1). cbv iota. rewrite Hr.
    rewrite (verdict_retry force sp r (Ht _ _ Hr) Hv) Hg. done.
Qed.

Lemma computes_spendOne force sp : computes (spendOne force sp) (spend1 force sp).
Proof.
  rewrite /spendOne. destruct (ValidateSpend sp) eqn:Hv.
  { eapply computes_ext; [apply computes_ret|]. intros t _. by rewrite /spend1 Hv. }
  destruct (computes_spend_attempts guardAttempts force sp Hv) as (f&Hf&He).
  eapply computes_ext; [exact Hf|]. intros t Ht. by apply He.
Qed.
End one.

(** Against the loop of the in-memory store. *)
Lemma spend1_agree force sps t m :
  agree t m → table_ok t →
  (each (spend1 force) sps t).1 = (MemStore.spend_loop force sps m).1 ∧
  agree (each (spend1 force) sps t).2 (MemStore.spend_loop force sps m).2.
Proof.
  revert t m. induction sps as [|sp sps IH]; intros t m Ha Hok; simpl; [done|].
  assert ((spend1 force sp t).1 = (MemStore.spendOne force sp m).1 ∧
    agree (spend1 force sp t).2 (MemStore.spendOne force sp m).2 ∧
    table_ok (spend1 force sp t).2) as (He&Ha1&Hok1).
  { rewrite /spend1 /MemStore.spendOne. destruct (ValidateSpend sp) eqn:Hv; [done|].
    destruct (agree_cases t m (sp_Outpoint sp) Ha) as [[-> ->]|(r&mr&Hr&Hm&Heq)]; [done|].
    rewrite Hr Hm Heq /=. pose proof (Hok _ _ Hr) as Hrow.
    destruct (spend_guard force (sp_Reservation sp) r) eqn:Hg.
    - pose proof (guard_verdict force sp r Hrow Hv Hg) as Hvd. revert Hvd. rewrite /spend_verdict.
      destruct (spent_by r) as [w|] eqn:Hsp; [by destruct (w =? _)|].
      destruct (negb force && frozen r); [done|]. destruct (negb force && bool_decide _); [done|].
      intros _. split_and!; simpl; [done| |].
      + intros k. destruct (decide (k = sp_Outpoint sp)) as [->|Hne].
        * rewrite !lookup_insert_eq /= Heq. done.
        * rewrite !lookup_insert_ne //.
      + intros k r'. rewrite lookup_insert_Some. intros [[<- <-]|[? ?]]; [|by eapply Hok].
        clear -Hrow. row_okay.
    - pose proof (verdict_retry force sp r Hrow Hv) as Hvr. rewrite Hg in Hvr.
      revert Hvr. rewrite /spend_verdict. repeat case_match; naive_solver. }
  destruct (spend1 force sp t) as [e t1], (MemStore.spendOne force sp m) as [e' m1]; simpl in *.
  destruct (IH t1 m1 Ha1 Hok1) as [IH1 IH2].
  destruct (each (spend1 force) sps t1), (MemStore.spend_loop force sps m1); simpl in *.
  by rewrite He IH1.
Qed.

(** ** A batch without rivals: its verdicts can be read off the table it starts from *)

(** One outpoint, one spender and (under a guard) one reservation. *)
Definition one_claim (force : bool) (sps : list SpendOp) : Prop :=
  ∀ sp sp', sp ∈ sps → sp' ∈ sps → sp_Outpoint sp = sp_Outpoint sp' →
    group_key force sp = group_key force sp'.

(** The valid spend that names [k], and what the batch makes of a row. *)
Definition writer (sps : list SpendOp) (k : Outpoint) : option SpendOp :=
  head (filter (λ sp, ValidateSpend sp = None ∧ sp_Outpoint sp = k) sps).
Definition spend_cell (force : bool) (w : option SpendOp) (r : Row) : Row :=
  match w with
  | Some sp => if spend_guard force (sp_Reservation sp) r then spend_row (sp_SpendingTxID sp) r else r
  | None => r
  end.
Definition spend_all (force : bool) (sps : list SpendOp) (t : Table) : Table :=
  map_imap (λ k r, Some (spend_cell force (writer sps k) r)) t.

Lemma lookup_spend_all force sps t k :
  spend_all force sps t !! k = spend_cell force (writer sps k) <$> t !! k.
Proof. rewrite /spend_all map_lookup_imap. by destruct (t !! k). Qed.

Lemma guard_key force sp sp' r :
  group_key force sp = group_key force sp' →
  spend_guard force (sp_Reservation sp) r = spend_guard force (sp_Reservation sp') r.
Proof. rewrite /group_key /spend_guard. by destruct force; [|intros [= _ ->]]. Qed.

Lemma spent_guard force res w r : spend_guard force res (spend_row w r) = false.
Proof. done. Qed.

Lemma writer_Some sps k sp :
  writer sps k = Some sp → sp ∈ sps ∧ ValidateSpend sp = None ∧ sp_Outpoint sp = k.
Proof.
  rewrite /writer => Hh. assert (sp ∈ filter (λ sp, ValidateSpend sp = None ∧ sp_Outpoint sp = k) sps)
    as [??]%list_elem_of_filter; [|naive_solver].
  destruct (filter _ sps); [done|]. simplify_eq/=. left.
Qed.

Lemma writer_None sps k sp :
  writer sps k = None → sp ∈ sps → ValidateSpend sp = None → sp_Outpoint sp ≠ k.
Proof.
  rewrite /writer => Hh Hin Hv Hk. assert (sp ∈ filter (λ sp, ValidateSpend sp = None ∧ sp_Outpoint sp = k) sps)
    as Hel by by apply list_elem_of_filter.
  destruct (filter _ sps); [by apply not_elem_of_nil in Hel|done].
Qed.

(** The cell does not depend on which of the agreeing spends is named. *)
Lemma spend_cell_key force sp sp' r :
  group_key force sp = group_key force sp' →
  spend_cell force (Some sp) r = spend_cell force (Some sp') r.
Proof.
  intros Hk. rewrite /= (guard_key force sp sp' r Hk). rewrite /group_key in Hk.
  by injection Hk as -> _.
Qed.

Lemma spend_cell_same force sps sps' k r :
  one_claim force (sps ++ sps') → (∀ sp, ValidateSpend sp = None → sp ∈ sps ↔ sp ∈ sps') →
  spend_cell force (writer sps k) r = spend_cell force (writer sps' k) r.
Proof.
  intros Hone Hsame. destruct (writer sps k) as [sp|] eqn:H1, (writer sps' k) as [sp'|] eqn:H2; [..|done].
  - apply writer_Some in H1 as (?&?&?), H2 as (?&?&?). apply spend_cell_key, Hone; [set_solver..|congruence].
  - apply writer_Some in H1 as (Hin&?&?). apply Hsame in Hin; [|done]. exfalso. by apply (writer_None sps' k sp).
  - apply writer_Some in H2 as (Hin&?&?). apply Hsame in Hin; [|done]. exfalso. by apply (writer_None sps k sp').
Qed.

(** A later spend of the batch gets the verdict it would have had at the start. *)
Lemma spend1_stable force sp sp' t :
  table_ok t → (sp_Outpoint sp = sp_Outpoint sp' → group_key force sp = group_key force sp') →
  (spend1 force sp' (spend1 force sp t).2).1 = (spend1 force sp' t).1.
Proof.
  intros Hok Hk. rewrite {2}/spend1. destruct (ValidateSpend sp); [done|].
  destruct (t !! sp_Outpoint sp) as [r|] eqn:Hr; [|done].
  destruct (spend_guard force (sp_Reservation sp) r) eqn:Hg; [simpl|done].
  rewrite /spend1. destruct (ValidateSpend sp') eqn:Hv; [done|].
  destruct (decide (sp_Outpoint sp = sp_Outpoint sp')) as [Heq|Hne].
  - rewrite -Heq lookup_insert_eq Hr spent_guard -(guard_key force sp sp' r (Hk Heq)) Hg /=.
    specialize (Hk Heq). rewrite /group_key in Hk. injection Hk as -> _. by rewrite Z.eqb_refl.
  - rewrite lookup_insert_ne //. destruct (t !! sp_Outpoint sp') as [r'|]; [|done].
    by destruct (spend_guard force (sp_Reservation sp') r').
Qed.

Lemma spend1_ok force sp t : table_ok t → table_ok (spend1 force sp t).2.
Proof.
  intros Hok. rewrite /spend1. destruct (ValidateSpend sp); [done|].
  destruct (t !! sp_Outpoint sp) as [r|] eqn:Hr; [|done].
  destruct (spend_guard _ _ r); [|done]. intros k r'. simpl. rewrite lookup_insert_Some.
  intros [[<- <-]|[? ?]]; [|by eapply Hok]. pose proof (Hok _ _ Hr) as Hrow. clear -Hrow. row_okay.
Qed.

Lemma one_claim_cons force sp sps : one_claim force (sp :: sps) → one_claim force sps.
Proof. intros Hone ????. apply Hone; by right. Qed.

(** The first spend of a batch and the rest of it. *)
Lemma spend_all_cons force sp sps t :
  one_claim force (sp :: sps) →
  spend_all force sps (spend1 force sp t).2 = spend_all force (sp :: sps) t.
Proof.
  intros Hone. apply map_eq. intros k. rewrite !lookup_spend_all /spend1 /writer.
  destruct (ValidateSpend sp) as [e|] eqn:Hv; simpl.
  { rewrite filter_cons_False; [done|]. rewrite Hv. naive_solver. }
  destruct (decide (sp_Outpoint sp = k)) as [<-|Hne].
  - rewrite filter_cons_True //=. fold (writer sps (sp_Outpoint sp)).
    destruct (t !! sp_Outpoint sp) as [r|] eqn:Hr; [|by rewrite /= Hr].
    assert (spend_guard force (sp_Reservation sp) r = false →
      spend_cell force (writer sps (sp_Outpoint sp)) r = r) as Hcell.
    { intros Hg. destruct (writer sps (sp_Outpoint sp)) as [sp'|] eqn:Hw; [|done].
      apply writer_Some in Hw as (Hin&_&Heq). rewrite /= (guard_key force sp' sp).
      - by rewrite Hg.
      - apply Hone; [by right|by left|done]. }
    destruct (spend_guard force (sp_Reservation sp) r) eqn:Hg; simpl.
    + rewrite lookup_insert_eq /= Hg. f_equal. by destruct (writer _ _).
    + rewrite Hr /= Hg. f_equal. by apply Hcell.
  - rewrite filter_cons_False; [|naive_solver]. fold (writer sps k). f_equal.
    destruct (t !! sp_Outpoint sp) as [r|]; [|done].
    destruct (spend_guard _ _ r); [|done]. by rewrite /= lookup_insert_ne.
Qed.

Lemma each_spend1 force sps t :
  one_claim force sps → table_ok t →
  each (spend1 force) sps t = ((λ sp, (spend1 force sp t).1) <$> sps, spend_all force sps t).
Proof.
  revert t. induction sps as [|sp sps IH]; intros t Hone Hok; simpl.
  { f_equal. apply map_eq. intros k. rewrite lookup_spend_all. by destruct (t !! k). }
  pose proof (spend1_ok force sp t Hok) as Hok1. pose proof (spend_all_cons force sp sps t Hone) as Hcons.
  pose proof (λ sp' H, spend1_stable force sp sp' t Hok (Hone sp sp' (list_elem_of_here _ _) H)) as Hst.
  destruct (spend1 force sp t) as [e t1] eqn:H1. simpl in *.
  rewrite IH //; [|by eapply one_claim_cons]. simpl. f_equal; [|done]. f_equal.
  apply list_fmap_ext. intros i sp' Hi. apply Hst. right. by eapply list_elem_of_lookup_2.
Qed.

(** ** Groups *)

Definition key_of (g : spendGroup) : Hash * string := (sg_spendingTxID g, sg_reservation g).

Lemma add_to_group_perm key x gs :
  concat (sg_ops <$> add_to_group key x gs) ≡ₚ x :: concat (sg_ops <$> gs).
Proof.
  induction gs as [|g gs IH]; simpl; [done|]. case_decide; simpl.
  - rewrite -(assoc_L (++)). simpl. by rewrite -Permutation_middle.
  - rewrite IH. by rewrite Permutation_middle.
Qed.

Lemma add_to_group_keys key x gs :
  NoDup (key_of <$> gs) →
  NoDup (key_of <$> add_to_group key x gs) ∧
  (∀ k, k ∈ key_of <$> add_to_group key x gs ↔ k = key ∨ k ∈ key_of <$> gs).
Proof.
  induction gs as [|g gs IH]; simpl; intros Hnd.
  { destruct key. split; [apply NoDup_singleton|]. intros k. by rewrite elem_of_cons. }
  apply NoDup_cons in Hnd as [Hg Hnd]. specialize (IH Hnd) as [IH1 IH2]. case_decide as Hd; simpl.
  - split; [by apply NoDup_cons|]. intros k. rewrite !elem_of_cons -Hd /key_of /=. tauto.
  - split; [|intros k; rewrite !elem_of_cons IH2; tauto]. apply NoDup_cons. split; [|done]. rewrite IH2. intros [Hk|?]; [|done].
    by apply Hd.
Qed.

Definition keyed (force : bool) (g : spendGroup) : Prop :=
  ∀ x, x ∈ sg_ops g → group_key force x.2 = key_of g.

Lemma add_to_group_keyed force x gs :
  Forall (keyed force) gs → Forall (keyed force) (add_to_group (group_key force x.2) x gs).
Proof.
  induction gs as [|g gs IH]; simpl; intros Hgs.
  { apply Forall_singleton. by intros y ->%list_elem_of_singleton. }
  apply Forall_cons in Hgs as [Hg Hgs]. case_decide as Hd; apply Forall_cons; split; auto.
  intros y [Hy| ->%list_elem_of_singleton]%elem_of_app; [by apply Hg|]. by rewrite -Hd.
Qed.

Lemma groupSpends_spec force xs :
  concat (sg_ops <$> groupSpends force xs) ≡ₚ xs ∧
  NoDup (key_of <$> groupSpends force xs) ∧ Forall (keyed force) (groupSpends force xs).
Proof.
  rewrite /groupSpends. assert (∀ gs, NoDup (key_of <$> gs) → Forall (keyed force) gs →
    let gs' := foldl (λ gs x, add_to_group (group_key force x.2) x gs) gs xs in
    concat (sg_ops <$> gs') ≡ₚ concat (sg_ops <$> gs) ++ xs ∧
    NoDup (key_of <$> gs') ∧ Forall (keyed force) gs') as Hg.
  { induction xs as [|x xs IH]; intros gs Hnd Hk; simpl; [by rewrite app_nil_r|].
    destruct (add_to_group_keys (group_key force x.2) x gs Hnd) as [Hnd' _].
    destruct (IH _ Hnd' (add_to_group_keyed force x gs Hk)) as (Hp&?&?). split_and!; [|done..].
    rewrite Hp add_to_group_perm /=. by rewrite Permutation_middle. }
  destruct (Hg []) as (Hp&?&?); [constructor..|]. by split_and!; [rewrite Hp|..].
Qed.

(** ** The writes of all groups *)

(** An item whose row the write matches. *)
Definition hit (force : bool) (t : Table) (x : item) : Prop :=
  ∃ r, t !! sp_Outpoint x.2 = Some r ∧ spend_guard force (sp_Reservation x.2) r = true.
#[global] Instance hit_dec force t x : Decision (hit force t x).
Proof.
  rewrite /hit. destruct (t !! sp_Outpoint x.2) as [r|].
  - destruct (spend_guard force (sp_Reservation x.2) r) eqn:Hg; [left; by exists r|].
    right. intros (r'&[= <-]&?). congruence.
  - right. by intros (r'&?&_).
Defined.

Definition valid (x : item) : Prop := ValidateSpend x.2 = None.
Abbreviation spends_of xs := (snd <$> xs).

Section set_based.
Context `{MapRange}.

(** One group: the write spends what its items would have spent one by one. *)
Lemma computes_write_group force g :
  keyed force g → Forall valid (sg_ops g) → keys_fit (outpoints (sg_ops g)) = true →
  computes (write_group force g) (λ t,
    (filter (λ x, ¬ hit force t x) (sg_ops g), spend_all force (spends_of (sg_ops g)) t)).
Proof.
  intros Hk Hv Hfit. eapply computes_ext.
  { eapply (computes_bind _ _ _ (λ rows t, (filter (λ x, sp_Outpoint x.2 ∉ rows.*1) (sg_ops g), t)));
      [|intros; apply computes_ret]. apply computes_binding; [done|]. apply computes_UPDATE; [row_okay|done]. }
  intros t _. simpl. f_equal.
  - apply filter_ext_in. intros x Hx. rewrite returned_elem lookup_matching pgKeyMatch_eq /hit.
    rewrite bool_decide_true; [|by apply (list_elem_of_fmap_2' _ _ x)].
    assert (∀ r, spend_guard force (sg_reservation g) r = spend_guard force (sp_Reservation x.2) r) as Hres.
    { intros r. pose proof (Hk x Hx) as He. revert He. rewrite /group_key /key_of /spend_guard.
      by destruct force; [|intros [= _ ->]]. }
    apply not_iff_compat. destruct (t !! sp_Outpoint x.2) as [r|]; simpl; [rewrite Hres|].
    + destruct (spend_guard force (sp_Reservation x.2) r) eqn:Hg; [split; by eauto|].
      split; [by intros [??]|]. intros (r'&[= <-]&?). congruence.
    + split; [by intros [??]|by intros (?&?&_)].
  - apply map_eq. intros k. rewrite lookup_updated lookup_spend_all.
    destruct (t !! k) as [r|]; simpl; [|done]. f_equal. rewrite pgKeyMatch_eq.
    destruct (writer (spends_of (sg_ops g)) k) as [sp|] eqn:Hw; simpl.
    + apply writer_Some in Hw as ((x&->&Hx)%list_elem_of_fmap&_&Hop).
      rewrite bool_decide_true; [|rewrite -Hop; by apply (list_elem_of_fmap_2' _ _ x)]. simpl.
      pose proof (Hk x Hx) as He. revert He. rewrite /group_key /key_of /spend_guard.
      destruct force; [intros [= -> _]|intros [= -> ->]]; done.
    + rewrite bool_decide_false; [done|]. intros (x&->&Hx)%list_elem_of_fmap.
      eapply (writer_None _ _ x.2 Hw); [by apply list_elem_of_fmap_2| |done].
      rewrite ->Forall_forall in Hv. by apply Hv.
Qed.

End set_based.

(** Groups that share no outpoint do not see each other's writes. *)
Definition write1 (force : bool) (g : spendGroup) (t : Table) : list item * Table :=
  (filter (λ x, ¬ hit force t x) (sg_ops g), spend_all force (spends_of (sg_ops g)) t).
Abbreviation all_ops gs := (concat (sg_ops <$> gs)).

Lemma writer_app sps sps' k :
  writer (sps ++ sps') k = match writer sps k with Some sp => Some sp | None => writer sps' k end.
Proof. rewrite /writer filter_app. by destruct (filter _ sps). Qed.

Lemma spend_all_app force sps sps' t :
  (∀ sp sp', sp ∈ sps → sp' ∈ sps' → sp_Outpoint sp ≠ sp_Outpoint sp') →
  spend_all force sps' (spend_all force sps t) = spend_all force (sps ++ sps') t.
Proof.
  intros Hdis. apply map_eq. intros k. rewrite !lookup_spend_all writer_app.
  destruct (t !! k) as [r|]; simpl; [|done]. f_equal.
  destruct (writer sps k) as [sp|] eqn:Hw; [|done].
  destruct (writer sps' k) as [sp'|] eqn:Hw'; [|done].
  apply writer_Some in Hw as (?&_&?), Hw' as (?&_&?). destruct (Hdis sp sp'); congruence.
Qed.

Lemma spend_all_other force sps t k :
  (∀ sp, sp ∈ sps → sp_Outpoint sp ≠ k) → spend_all force sps t !! k = t !! k.
Proof.
  intros Hk. rewrite lookup_spend_all. destruct (writer sps k) as [sp|] eqn:Hw; [|by destruct (t !! k)].
  apply writer_Some in Hw as (?&_&?). by destruct (Hk sp).
Qed.

Lemma groups_disjoint force g gs :
  Forall (keyed force) (g :: gs) → NoDup (key_of <$> g :: gs) →
  one_claim force (spends_of (all_ops (g :: gs))) →
  ∀ sp sp', sp ∈ spends_of (sg_ops g) → sp' ∈ spends_of (all_ops gs) → sp_Outpoint sp ≠ sp_Outpoint sp'.
Proof.
  intros [Hg Hgs]%Forall_cons [Hnk _]%NoDup_cons Hone sp sp' (x&->&Hx)%list_elem_of_fmap
    (x'&->&Hx')%list_elem_of_fmap Heq.
  assert (group_key force x.2 = group_key force x'.2) as Hkey.
  { simpl in Hone. apply Hone; [..|done]; rewrite fmap_app elem_of_app;
      [left|right]; by apply list_elem_of_fmap_2. }
  apply elem_of_concat in Hx' as (ops&Hx'&(g'&->&Hg')%list_elem_of_fmap). apply Hnk.
  rewrite ->Forall_forall in Hgs. rewrite -(Hg x Hx) Hkey (Hgs g' Hg' x' Hx').
  by apply list_elem_of_fmap_2.
Qed.

Lemma each_write1 force gs t :
  Forall (keyed force) gs → NoDup (key_of <$> gs) → one_claim force (spends_of (all_ops gs)) →
  concat (each (write1 force) gs t).1 = filter (λ x, ¬ hit force t x) (all_ops gs) ∧
  (each (write1 force) gs t).2 = spend_all force (spends_of (all_ops gs)) t.
Proof.
  revert t. induction gs as [|g gs IH]; intros t Hk Hnd Hone; simpl.
  { split; [done|]. apply map_eq. intros k. by rewrite spend_all_other; [|set_solver]. }
  pose proof (groups_disjoint force g gs Hk Hnd Hone) as Hdis.
  apply Forall_cons in Hk as [Hg Hk]. apply NoDup_cons in Hnd as [Hng Hnd].
  destruct (IH (spend_all force (spends_of (sg_ops g)) t) Hk Hnd) as [IH1 IH2].
  { intros sp sp' H1 H2. simpl in Hone. apply Hone; rewrite fmap_app elem_of_app; by right. }
  destruct (each (write1 force) gs _) as [ms t2]; simpl in *. rewrite IH1 IH2. split.
  - rewrite filter_app. f_equal. apply filter_ext_in. intros x Hx. apply not_iff_compat.
    rewrite /hit spend_all_other //. intros sp Hsp. apply Hdis; [done|]. by apply list_elem_of_fmap_2.
  - rewrite fmap_app. by apply spend_all_app.
Qed.

Lemma computes_spendWriteSet `{MapRange} force xs :
  Forall valid xs → one_claim force (spends_of xs) → bindable EnginePostgres (outpoints xs) →
  computes (spendWriteSet force xs) (λ t,
    (filter (λ x, ¬ hit force t x) (all_ops (groupSpends force xs)), spend_all force (spends_of xs) t)).
Proof.
  intros Hv Hone Hfit. destruct (groupSpends_spec force xs) as (Hp&Hnd&Hk).
  assert (∀ x, x ∈ all_ops (groupSpends force xs) ↔ x ∈ xs) as Hin by (intros x; by rewrite Hp).
  assert (∀ sp, sp ∈ spends_of (all_ops (groupSpends force xs)) ↔ sp ∈ spends_of xs) as Hin'
    by (intros sp; by rewrite Hp).
  assert (one_claim force (spends_of (all_ops (groupSpends force xs)))) as Hone'.
  { intros sp sp' H1 H2. apply Hone; by apply Hin'. }
  eapply computes_ext.
  { eapply (computes_bind _ _ _ (λ ms t, (concat ms, t))); [|intros; apply computes_ret].
    apply (computes_for_each _ (write1 force)). intros g Hg. rewrite ->Forall_forall in Hk. rewrite ->Forall_forall in Hv.
    assert (∀ x, x ∈ sg_ops g → x ∈ xs) as Hsub.
    { intros x Hx. apply Hin, elem_of_concat. exists (sg_ops g). split; [done|]. by apply list_elem_of_fmap_2. }
    apply computes_write_group; [by apply Hk|by apply Forall_forall; auto|].
    apply bindable_keys. intros op (x&->&Hx)%list_elem_of_fmap. apply Hfit, (list_elem_of_fmap_2 (λ x : item, sp_Outpoint x.2)). auto. }
  intros t _. simpl. destruct (each_write1 force (groupSpends force xs) t) as [-> ->]; [done..|].
  f_equal. apply map_eq. intros k. rewrite !lookup_spend_all. destruct (t !! k); simpl; [|done].
  f_equal. apply spend_cell_same; [|auto]. intros sp sp' H1 H2. apply Hone; set_solver.
Qed.

(** ** Classifying the misses *)

Lemma classify_misses_spec force (state : Table) misses errs :
  NoDup misses.*1 →
  (∀ x, x ∈ misses → (spend_verdict force x.2 (state !! sp_Outpoint x.2)).2 = false) →
  (classify_misses force state misses errs).1 = [] ∧
  (∀ i, i ∉ misses.*1 → (classify_misses force state misses errs).2 !! i = errs !! i) ∧
  (∀ x, x ∈ misses → errs !! x.1 = None →
     (classify_misses force state misses errs).2 !! x.1 =
       (spend_verdict force x.2 (state !! sp_Outpoint x.2)).1).
Proof.
  revert errs. induction misses as [|x misses IH]; intros errs Hnd Hret; [by split_and!; [|..|set_solver]|].
  apply NoDup_cons in Hnd as [Hx Hnd]. pose proof (Hret x ltac:(left)) as Hx2. simpl.
  destruct (spend_verdict force x.2 (state !! sp_Outpoint x.2)) as [e retry] eqn:Hv.
  simpl in Hx2. subst retry. set (errs' := match e with Some e => <[x.1 := e]> errs | None => errs end).
  destruct (IH errs' Hnd) as (IH1&IH2&IH3); [intros; apply Hret; by right|].
  destruct (classify_misses force state misses errs') as [un errs'']; simpl in *. subst un. split_and!.
  - done.
  - intros i [Hi1 Hi2]%not_elem_of_cons. rewrite IH2 // /errs'. destruct e; [|done].
    by rewrite lookup_insert_ne.
  - intros y [->|Hy]%elem_of_cons Hn.
    + rewrite IH2 // Hv /errs' /=. destruct e; [by rewrite lookup_insert_eq|done].
    + apply IH3; [done|]. rewrite /errs'. destruct e; [|done]. rewrite lookup_insert_ne //.
      intros He. apply Hx. rewrite He. by apply list_elem_of_fmap_2.
Qed.

(** An item that is not hit keeps its row and is classified for good. *)
Lemma miss_settled force xs t x :
  table_ok t → one_claim force (spends_of xs) → x ∈ xs → valid x → ¬ hit force t x →
  spend_all force (spends_of xs) t !! sp_Outpoint x.2 = t !! sp_Outpoint x.2 ∧
  (spend_verdict force x.2 (t !! sp_Outpoint x.2)).2 = false ∧
  (spend_verdict force x.2 (t !! sp_Outpoint x.2)).1 = (spend1 force x.2 t).1.
Proof.
  intros Hok Hone Hx Hv Hmiss. rewrite /spend1 Hv lookup_spend_all.
  destruct (t !! sp_Outpoint x.2) as [r|] eqn:Hr; [|done].
  assert (spend_guard force (sp_Reservation x.2) r = false) as Hg.
  { destruct (spend_guard force (sp_Reservation x.2) r) eqn:Hg; [|done]. destruct Hmiss. by exists r. }
  rewrite Hg. split_and!; [|by rewrite verdict_retry; [|eapply Hok|]|done].
  simpl. f_equal. destruct (writer (spends_of xs) (sp_Outpoint x.2)) as [sp|] eqn:Hw; [|done].
  apply writer_Some in Hw as (Hsp&_&Heq). rewrite (spend_cell_key force sp x.2) /= ?Hg //.
  apply Hone; [done| |done]. by apply list_elem_of_fmap_2.
Qed.

Lemma hit_verdict force t x : table_ok t → valid x → hit force t x → (spend1 force x.2 t).1 = None.
Proof. intros Hok Hv (r&Hr&Hg). by rewrite /spend1 Hv Hr Hg. Qed.

(** The slots after one round over valid items. *)
Lemma computes_spend_rounds `{MapRange} force n xs errs :
  Forall valid xs → one_claim force (spends_of xs) → bindable EnginePostgres (outpoints xs) → NoDup xs.*1 →
  (∀ x, x ∈ xs → errs !! x.1 = None) →
  ∀ c, alone c → ∃ errs' c', spend_rounds (S n) force xs errs c = (Ret errs', c') ∧
    after c c' (spend_all force (spends_of xs) (visible c)) ∧
    (∀ x, x ∈ xs → errs' !! x.1 = (spend1 force x.2 (visible c)).1) ∧
    (∀ i, i ∉ xs.*1 → errs' !! i = errs !! i).
Proof.
  intros Hv Hone Hfit Hnd Hnone c Hc. set (t := visible c). pose proof (alone_ok _ Hc : table_ok t) as Hok.
  rewrite /spend_rounds -/spend_rounds. case_decide as Hl.
  { apply nil_length_inv in Hl as ->. exists errs, c. split_and!; [done| |set_solver|done].
    pose proof (after_refl c Hc) as Ha. replace (spend_all _ _ _) with (visible c); [done|].
    apply map_eq. intros k. by rewrite spend_all_other; [|set_solver]. }
  destruct (computes_spendWriteSet force xs Hv Hone Hfit c Hc) as (c1&He1&Ha1). fold t in He1, Ha1.
  destruct (groupSpends_spec force xs) as (Hp&_&_).
  set (misses := filter (λ x, ¬ hit force t x) (all_ops (groupSpends force xs))) in *.
  assert (∀ x, x ∈ misses ↔ ¬ hit force t x ∧ x ∈ xs) as Hmiss.
  { intros x. rewrite list_elem_of_filter. by rewrite Hp. }
  rewrite ->Forall_forall in Hv. rewrite /mbind /M_bind He1 /=. case_decide as Hlm.
  { apply nil_length_inv in Hlm. exists errs, c1. split_and!; [done|done| |done]. intros x Hx.
    rewrite Hnone // (hit_verdict force t x Hok (Hv x Hx)) //.
    apply dec_stable. intros Hh. assert (x ∈ misses) as Hin by by apply Hmiss.
    rewrite Hlm in Hin. by apply not_elem_of_nil in Hin. }
  destruct (computes_SELECT (scanSpendStates (outpoints misses)) c1 (after_alone _ _ _ Ha1)) as (c2&He2&Ha2).
  rewrite (after_visible _ _ _ Ha1) in He2, Ha2.
  rewrite /classifySpendMisses /mbind /M_bind He2 /=.
  set (state := scanSpendStates _ _).
  assert (∀ x, x ∈ misses → state !! sp_Outpoint x.2 = t !! sp_Outpoint x.2) as Hst.
  { intros x Hx. pose proof (proj1 (Hmiss x) Hx) as [Hn Hin].
    destruct (miss_settled force xs t x Hok Hone Hin (Hv x Hin) Hn) as [Hs _].
    rewrite /state /scanSpendStates lookup_matching pgKeyMatch_eq bool_decide_true.
    { rewrite Hs. by destruct (t !! _). }
    by apply (list_elem_of_fmap_2' _ _ x). }
  destruct (classify_misses_spec force state misses errs) as (Hun&Hout&Hin).
  { eapply sublist_NoDup; [|apply sublist_fmap_fst, sublist_filter]. by rewrite Hp. }
  { intros x Hx. rewrite Hst //. pose proof (proj1 (Hmiss x) Hx) as [Hn Hi].
    by apply (miss_settled force xs t x Hok Hone Hi (Hv x Hi) Hn). }
  destruct (classify_misses force state misses errs) as [un errs'] eqn:Hcl. simpl in Hun, Hout, Hin. subst un.
  simpl. exists errs', c2. split_and!; [done|by eapply after_trans| |].
  - intros x Hx. destruct (decide (hit force t x)) as [Hh|Hn].
    + rewrite Hout.
      * by rewrite Hnone // (hit_verdict force t x Hok (Hv x Hx)).
      * intros (y&Hy&Hym)%list_elem_of_fmap. apply Hmiss in Hym as [Hny Hyx].
        assert (x = y) as ->; [|done]. clear -Hnd Hx Hyx Hy.
        apply list_elem_of_lookup in Hx as [i Hi], Hyx as [j Hj].
        assert (i = j) as ->; [|congruence].
        eapply (NoDup_lookup xs.*1 i j x.1 Hnd); rewrite list_lookup_fmap; [by rewrite Hi|by rewrite Hj Hy].
    + rewrite Hin; [|by apply Hmiss|by apply Hnone]. rewrite Hst; [|by apply Hmiss].
      by apply (miss_settled force xs t x Hok Hone Hx (Hv x Hx) Hn).
  - intros i Hi. apply Hout. intros (x&->&Hx)%list_elem_of_fmap. apply Hmiss in Hx as [_ Hx].
    apply Hi. by apply list_elem_of_fmap_2.
Qed.

(** ** The whole batch *)

Lemma elem_of_items (sps : list SpendOp) i sp : (i, sp) ∈ imap pair sps ↔ sps !! i = Some sp.
Proof. rewrite elem_of_lookup_imap. naive_solver. Qed.

Lemma items_NoDup (sps : list SpendOp) : NoDup (imap pair sps).*1.
Proof.
  rewrite fmap_imap. apply NoDup_alt. intros i j k Hi Hj. rewrite !list_lookup_imap in Hi, Hj.
  destruct (sps !! i), (sps !! j); naive_solver.
Qed.

Lemma invalid_slots_lookup (xs : list item) (errs : slots) i :
  NoDup xs.*1 →
  foldl (λ errs x, match ValidateSpend x.2 with Some e => <[x.1 := e]> errs | None => errs end) errs xs !! i =
  match list_find (λ x, x.1 = i ∧ ValidateSpend x.2 ≠ None) xs with
  | Some (_, x) => ValidateSpend x.2
  | None => errs !! i
  end.
Proof.
  revert errs. induction xs as [|x xs IH]; intros errs Hnd; [done|]. apply NoDup_cons in Hnd as [Hx Hnd]. simpl.
  rewrite IH //. destruct (decide (x.1 = i ∧ ValidateSpend x.2 ≠ None)) as [[<- Hv]|Hn]; simpl.
  - destruct (list_find _ xs) as [[j y]|] eqn:Hf.
    + apply list_find_Some in Hf as (Hj&[Hy _]&_). destruct Hx. rewrite -Hy.
      apply list_elem_of_fmap_2. by eapply list_elem_of_lookup_2.
    + destruct (ValidateSpend x.2) eqn:Hv'; [by rewrite lookup_insert_eq|done].
  - destruct (list_find _ xs) as [[j y]|]; simpl; [done|].
    destruct (ValidateSpend x.2) eqn:Hv; [|done]. rewrite lookup_insert_ne //. naive_solver.
Qed.

Lemma computes_spendSet `{MapRange} force sps :
  one_claim force sps → bindable EnginePostgres (sp_Outpoint <$> sps) →
  computes (spendSet sps force) (each (spend1 force) sps).
Proof.
  intros Hone Hfit c Hc. rewrite each_spend1 //; [|apply alone_ok, Hc]. simpl.
  set (t := visible c). set (xs := filter (λ x, ValidateSpend x.2 = None) (imap pair sps)).
  assert (∀ x, x ∈ xs ↔ valid x ∧ sps !! x.1 = Some x.2) as Hxs.
  { intros [i sp]. by rewrite list_elem_of_filter elem_of_items. }
  assert (∀ sp, sp ∈ spends_of xs ↔ ValidateSpend sp = None ∧ sp ∈ sps) as Hsps.
  { intros sp. rewrite list_elem_of_fmap. split.
    - intros ([i sp']&->&[Hv Hi]%Hxs). split; [done|]. by eapply list_elem_of_lookup_2.
    - intros [Hv [i Hi]%list_elem_of_lookup]. exists (i, sp). split; [done|]. by apply Hxs. }
  pose proof (items_NoDup sps) as Hnd.
  assert (∀ i, invalid_slots (imap pair sps) !! i = sps !! i ≫= ValidateSpend) as Hinv.
  { intros i. rewrite /invalid_slots invalid_slots_lookup // lookup_empty.
    destruct (list_find _ _) as [[j [i' sp]]|] eqn:Hf.
    - apply list_find_Some in Hf as (Hj&[<- _]&_). apply list_elem_of_lookup_2, elem_of_items in Hj.
      by rewrite Hj.
    - destruct (sps !! i) as [sp|] eqn:Hi; simpl; [|done]. destruct (ValidateSpend sp) eqn:Hv; [|done].
      apply list_find_None in Hf. rewrite ->Forall_forall in Hf.
      destruct (Hf (i, sp)); [by apply elem_of_items|]. simpl. by rewrite Hv. }
  destruct (computes_spend_rounds force 1 xs (invalid_slots (imap pair sps))) with (c := c)
    as (errs&c'&He&Ha&Hin&Hout).
  - apply Forall_forall. intros x Hx. by apply Hxs.
  - intros sp sp' [_ H1]%Hsps [_ H2]%Hsps. by apply Hone.
  - intros op (x&->&[_ Hx]%Hxs)%list_elem_of_fmap. apply Hfit, list_elem_of_fmap_2. by eapply list_elem_of_lookup_2.
  - eapply sublist_NoDup; [exact Hnd|]. apply sublist_fmap_fst, sublist_filter.
  - intros x [Hv Hi]%Hxs. by rewrite Hinv Hi.
  - done.
  - exists c'. split.
    + rewrite /spendSet /mbind /M_bind. fold xs. rewrite He /mret /M_ret. do 2 f_equal.
      apply list_eq. intros i. rewrite list_lookup_imap list_lookup_fmap.
      destruct (sps !! i) as [sp|] eqn:Hi; simpl; [|done]. f_equal.
      destruct (ValidateSpend sp) as [e|] eqn:Hv.
      * rewrite Hout; [by rewrite Hinv Hi /= /spend1 Hv|].
        intros ([j sp']&->&[Hv' Hj]%Hxs)%list_elem_of_fmap. rewrite /valid /= in Hv' Hj. by simplify_eq/=.
      * apply (Hin (i, sp)). by apply Hxs.
    + replace (spend_all force sps t) with (spend_all force (spends_of xs) t); [done|].
      apply map_eq. intros k. rewrite !lookup_spend_all. destruct (t !! k) as [r|]; simpl; [|done]. f_equal.
      apply spend_cell_same.
      * intros sp sp' H1 H2. apply Hone; [revert H1|revert H2]; rewrite elem_of_app Hsps; tauto.
      * intros sp Hv. rewrite Hsps. tauto.
Qed.

(** ** The call *)

Lemma Spend_same `{MapRange} engine sps force s ms :
  sim s ms → (engine = EnginePostgres → one_claim force sps) → bindable engine (sp_Outpoint <$> sps) →
  (Spend engine sps force s).1 = (MemStore.Spend sps force ms).1 ∧
  sim (Spend engine sps force s).2 (MemStore.Spend sps force ms).2.
Proof.
  intros Hsim Hone Hfit. pose proof (sim_closed _ _ Hsim) as Hcl. rewrite /Spend /MemStore.Spend Hcl.
  destruct (MemStore.closed ms) eqn:Hopen; [done|].
  assert (computes (if bool_decide (engine = EnginePostgres) then spendSet sps force
                    else for_each (spendOne force) sps) (each (spend1 force) sps)) as Hcomp.
  { case_bool_decide; [by subst; apply computes_spendSet; auto|]. apply computes_for_each. intros.
    apply computes_spendOne. }
  apply computes_withTx in Hcomp. destruct (Hcomp (conn s)) as (c'&He&Ha); [apply Hsim|]. rewrite He.
  destruct (spend1_agree force sps (visible (conn s)) (MemStore.rows ms)) as [H1 H2]; [apply Hsim..|].
  destruct (MemStore.spend_loop force sps (MemStore.rows ms)) as [es m] eqn:Hl. simpl in *. rewrite H1.
  split; [done|]. assert (exec (CSpend sps force) ms = MemStore.with_rows m ms) as Hex.
  { by rewrite /= /MemStore.Spend Hopen Hl. }
  rewrite -Hex. eapply sim_after; [done..|]. by rewrite Hex.
Qed.

End SqlRefineSpend.
