(* ===== verification/SqlRefineClaim.v ===== *)
(** * SqlRefineClaim: reserving named coins and claiming coins

    [ReserveOutpoints] and the three claims of the SQL store against those of the
    in-memory store. *)
From S2P Require Import Prelude UtxoTypes MemStore StoreContract StoreProps StoreLifecycle SqlDb SqlStore SqlLogic SqlAgree SqlRefine.
Import StoreContract SqlDb SqlStore SqlLogic SqlAgree SqlRefine.
Local Open Scope Z_scope.

Module SqlRefineClaim.

(** ** ReserveOutpoints *)

(** The ruling on one row. *)
Definition verdict_at (uid : Z) (tok : string) (op : Outpoint) (t : Table) : error + bool :=
  match t !! op with
  | None => inl (NotFoundError op)
  | Some r =>
      if decide (user_id r ≠ uid) then inl (NotFoundError op)
      else match spent_by r with
           | Some w => inl (SpentError op w)
           | None =>
               if decide (str (reserved_by r) ≠ "" ∧ str (reserved_by r) ≠ tok)
               then inl (ReservedError op (str (reserved_by r)))
               else if frozen r then inl (FrozenError op)
               else if decide (str (reserved_by r) = tok) then inr false else inr true
           end
  end.

Fixpoint rulings (uid : Z) (tok : string) (ops : list Outpoint) (t : Table) : list error * list Outpoint :=
  match ops with
  | [] => ([], [])
  | op :: ops' =>
      let '(es, st) := rulings uid tok ops' t in
      match verdict_at uid tok op t with
      | inl e => (e :: es, st)
      | inr true => (es, op :: st)
      | inr false => (es, st)
      end
  end.

Lemma computes_classifyForReserve engine uid tok op :
  key_fits engine op = true →
  computes (classifyForReserve engine uid tok op) (λ t, (verdict_at uid tok op t, t)).
Proof.
  intros Hfit. eapply computes_ext.
  { eapply (computes_bind _ _ (λ t, (t !! op, t)) (λ row t,
      (match row with
       | None => inl (NotFoundError op)
       | Some r =>
           if decide (user_id r ≠ uid) then inl (NotFoundError op)
           else match spent_by r with
                | Some w => inl (SpentError op w)
                | None =>
                    if decide (str (reserved_by r) ≠ "" ∧ str (reserved_by r) ≠ tok)
                    then inl (ReservedError op (str (reserved_by r)))
                    else if frozen r then inl (FrozenError op)
                    else if decide (str (reserved_by r) = tok) then inr false else inr true
                end
       end, t))).
    - apply computes_binding; [done|]. case_bool_decide; [apply computes_SELECT_FOR_UPDATE|apply computes_SELECT].
    - intros [r|]; [|apply computes_ret]. repeat case_match; apply computes_ret. }
  done.
Qed.

Lemma computes_classify_all engine uid tok ops :
  bindable engine ops →
  computes (classify_all engine uid tok ops) (λ t, (rulings uid tok ops t, t)).
Proof.
  induction ops as [|op ops IH]; intros Hfit; simpl; [apply computes_ret|].
  specialize (IH ltac:(intros ??; apply Hfit; by right)). eapply computes_ext.
  { eapply (computes_bind _ _ _ (λ v t,
      (let '(es, st) := rulings uid tok ops t in
       match v with inl e => (e :: es, st) | inr true => (es, op :: st) | inr false => (es, st) end, t)));
      [apply computes_classifyForReserve, Hfit; left|]. intros v. eapply computes_ext.
    { eapply (computes_bind _ _ _ (λ est t,
        (match v with inl e => (e :: est.1, est.2) | inr true => (est.1, op :: est.2) | inr false => est end, t)));
        [apply IH|]. intros [es st]. destruct v as [|[]]; apply computes_ret. }
    intros t _. simpl. by destruct (rulings uid tok ops t), v as [|[]]. }
  intros t _. simpl. by destruct (rulings uid tok ops t), (verdict_at uid tok op t) as [|[]].
Qed.

(** A row to be stamped is free, and belongs to the caller. *)
Definition stampable (uid : Z) (t : Table) (op : Outpoint) : Prop :=
  ∃ r, t !! op = Some r ∧ user_id r = uid ∧ reserved_by r = None ∧ spent_by r = None.

Lemma rulings_stampable uid tok ops t op :
  table_ok t → op ∈ (rulings uid tok ops t).2 → op ∈ ops ∧ stampable uid t op.
Proof.
  intros Hok. induction ops as [|op' ops IH]; simpl; [set_solver|].
  destruct (rulings uid tok ops t) as [es st]. simpl in IH.
  destruct (verdict_at uid tok op' t) as [e|[]] eqn:Hv; simpl; [set_solver| |set_solver].
  intros [->|Hin]%elem_of_cons; [|set_solver]. split; [left|]. revert Hv. rewrite /verdict_at.
  destruct (t !! op') as [r|] eqn:Hr; [|done]. case_decide as Hu; [done|].
  destruct (spent_by r) eqn:Hs; [done|]. case_decide as Hd; [done|]. destruct (frozen r); [done|].
  case_decide; [done|]. intros _. exists r. split_and!; try done.
  apply row_ok_null; [by eapply Hok|]. destruct (decide (str (reserved_by r) = "")); naive_solver.
Qed.

Lemma rulings_NoDup uid tok ops t : NoDup ops → NoDup (rulings uid tok ops t).2.
Proof.
  induction ops as [|op ops IH]; simpl; intros Hnd; [constructor|]. apply NoDup_cons in Hnd as [Hop Hnd].
  assert (∀ op', op' ∈ (rulings uid tok ops t).2 → op' ∈ ops) as Hsub.
  { clear. induction ops as [|o ops IH]; simpl; [done|]. intros op'.
    destruct (rulings uid tok ops t), (verdict_at uid tok o t) as [|[]]; set_solver. }
  specialize (IH Hnd). destruct (rulings uid tok ops t); simpl in *.
  destruct (verdict_at uid tok op t) as [|[]]; simpl; try done. apply NoDup_cons. naive_solver.
Qed.

Section stamping.
Context `{MapRange} (uid : Z) (tok : string) (ts : Z).
Abbreviation mark := (SET_reserved (Some tok) (Some ts)).
Definition stamped (ops : list Outpoint) (t : Table) : Table :=
  updated (λ op _, bool_decide (op ∈ ops)) mark t.

(** Under the locks of the first phase every stamp matches its row. *)
Lemma run_stamps ops c :
  tok ≠ "" → alone c → NoDup ops → (∀ op, op ∈ ops → stampable uid (visible c) op) →
  ∃ us c', for_each (stamp uid tok ts) ops c = (Ret us, c') ∧ after c c' (stamped ops (visible c)).
Proof.
  intros Htok. revert c. induction ops as [|op ops IH]; intros c Hc Hnd Hst.
  { exists [], c. split; [done|]. pose proof (after_refl c Hc) as Ha.
    replace (stamped [] (visible c)) with (visible c); [done|].
    apply map_eq. intros k. rewrite lookup_updated. by destruct (visible c !! k). }
  apply NoDup_cons in Hnd as [Hop Hnd].
  destruct (Hst op) as (r&Hr&Hu&Hb&Hs); [left|].
  set (P := λ r, (user_id r =? uid) && is_null (reserved_by r) && is_null (spent_by r)).
  assert (P r = true) as HP by (rewrite /P Hu Hb Hs Z.eqb_refl //).
  destruct (computes_UPDATE (λ op' r, at_op op op' && (user_id r =? uid) && is_null (reserved_by r) &&
              is_null (spent_by r)) mark) with (c := c) as (c1&He&Ha); [|done|done|].
  { intros _ r' _. unfold row_ok. naive_solver. }
  rewrite (matching_ext _ (λ op' r, at_op op op' && P r)) in He; [|intros; by rewrite /P !andb_assoc].
  rewrite (updated_ext _ (λ op' r, at_op op op' && P r)) in Ha; [|intros; by rewrite /P !andb_assoc].
  simpl in He, Ha. rewrite matching_at Hr HP in He. rewrite updated_at Hr HP in Ha.
  destruct (IH c1 (after_alone _ _ _ Ha) Hnd) as (us&c'&He'&Ha').
  { intros op' Hop'. rewrite (after_visible _ _ _ Ha). destruct (Hst op') as (r'&?&?); [by right|].
    exists r'. rewrite lookup_insert_ne //. by intros ->. }
  exists (() :: us), c'. split.
  - simpl. rewrite /stamp /mbind /M_bind He range_map_length map_size_fmap map_size_singleton /=.
    by rewrite He'.
  - rewrite (after_visible _ _ _ Ha) in Ha'. pose proof (after_trans _ _ _ _ _ Ha Ha') as Hfin.
    replace (stamped (op :: ops) (visible c)) with (stamped ops (<[op:=mark r]> (visible c))); [done|].
    apply map_eq. intros k. rewrite !lookup_updated. destruct (decide (k = op)) as [->|Hne].
    + rewrite lookup_insert_eq Hr /= bool_decide_false // bool_decide_true //. left.
    + rewrite lookup_insert_ne // (bool_decide_ext (k ∈ op :: ops) (k ∈ ops)) //. set_solver.
Qed.

End stamping.
(** ** The canonical order *)

Lemma distinct_from_eq seen ops : distinct_from seen ops = MemStore.distinct_from seen ops.
Proof. revert seen. induction ops as [|op ops IH]; intros seen; simpl; [done|]. by rewrite !IH. Qed.

Lemma sortedDistinct_NoDup ops : NoDup (sortedDistinct ops).
Proof. rewrite /sortedDistinct SortFunc_perm distinct_from_eq. apply StoreLifecycle.distinct_from_NoDup. Qed.

Lemma sortedDistinct_elem ops op : op ∈ sortedDistinct ops ↔ op ∈ ops.
Proof.
  rewrite /sortedDistinct SortFunc_perm distinct_from_eq StoreLifecycle.distinct_from_elem. set_solver.
Qed.

Lemma distinct_from_id seen ops :
  NoDup ops → (∀ op, op ∈ ops → op ∉ seen) → MemStore.distinct_from seen ops = ops.
Proof.
  revert seen. induction ops as [|op ops IH]; intros seen Hnd Hs; simpl; [done|].
  apply NoDup_cons in Hnd as [Hop Hnd]. rewrite decide_False; [|apply Hs; left]. f_equal.
  apply IH; [done|]. intros op' Hop'. rewrite elem_of_union elem_of_singleton.
  intros [->|Hin]; [done|]. apply (Hs op'); [by right|done].
Qed.

Lemma sortedDistinct_nil ops : length (sortedDistinct ops) = 0%nat ↔ length ops = 0%nat.
Proof.
  split; intros Hl%nil_length_inv.
  - destruct ops as [|op ops]; [done|]. assert (op ∈ sortedDistinct (op :: ops)) as Hin
      by (apply sortedDistinct_elem; left). rewrite Hl in Hin. by apply not_elem_of_nil in Hin.
  - by rewrite Hl.
Qed.

(** ** The call *)

Lemma rulings_agree uid tok ops t m :
  agree t m → rulings uid tok ops t = MemStore.classify uid tok m ops.
Proof.
  intros Ha. induction ops as [|op ops IH]; simpl; [done|]. rewrite IH.
  destruct (MemStore.classify uid tok m ops) as [es st].
  rewrite /verdict_at /MemStore.reserve_verdict.
  destruct (agree_cases t m op Ha) as [[-> ->]|(r&mr&->&->&->)]; [done|]. simpl.
  case_decide; [done|]. destruct (spent_by r); [done|]. case_decide; [done|].
  destruct (frozen r); [done|]. by case_decide.
Qed.

Lemma stamped_agree tok ts ops t m :
  agree t m → agree (stamped tok ts ops t) (foldl (MemStore.stamp tok (ofUnixMicro ts)) m ops).
Proof.
  intros Ha. eapply agree_pointwise; [exact Ha|intros op Ht Hm|intros op r mr Hr Hm He];
    rewrite lookup_updated foldl_stamp_lookup ?Ht ?Hr ?Hm //=; [by case_decide|].
  case_bool_decide; [rewrite decide_True //=|rewrite decide_False //=]; by rewrite He.
Qed.

Section calls.
Context `{MapRange} (engine : Engine).

Definition reserve1 (uid : Z) (tok : string) (ts : Z) (ops : list Outpoint) (t : Table) :
    list error * Table :=
  match rulings uid tok ops t with
  | ([], st) => ([], stamped tok ts st t)
  | (es, _) => (es, t)
  end.

Lemma computes_reserve uid tok ts ops :
  tok ≠ "" → NoDup ops → bindable engine ops →
  computes ('(es, toStamp) ← classify_all engine uid tok ops;
            match es with
            | _ :: _ => mret es
            | [] => _ ← for_each (stamp uid tok ts) toStamp; mret []
            end) (reserve1 uid tok ts ops).
Proof.
  intros Htok Hnd Hfit c Hc. destruct (computes_classify_all engine uid tok ops Hfit c Hc) as (c1&He&Ha).
  pose proof (λ op, rulings_stampable uid tok ops (visible c) op (alone_ok _ Hc)) as Hst.
  pose proof (rulings_NoDup uid tok ops (visible c) Hnd) as Hnd'.
  rewrite /reserve1 /mbind /M_bind He /=. simpl in Ha.
  destruct (rulings uid tok ops (visible c)) as [[|e es] st] eqn:Hr; [|by exists c1].
  destruct (run_stamps uid tok ts st c1) as (us&c2&He2&Ha2); [done|by apply Ha|done| |].
  { intros op [_ Hop]%Hst. by rewrite (after_visible _ _ _ Ha). }
  rewrite He2. exists c2. split; [done|]. rewrite (after_visible _ _ _ Ha) in Ha2. by eapply after_trans.
Qed.

(** The in-memory store is given the outpoints in the canonical order. *)
Lemma ReserveOutpoints_same clk uid tok ops s ms :
  bindable engine ops → sim s ms →
  same (ReserveOutpoints engine clk uid tok ops s)
    (MemStore.ReserveOutpoints (λ _, micro (clk 0%nat)) uid tok (sortedDistinct ops) ms).
Proof.
  intros Hfit Hsim. rewrite /ReserveOutpoints /MemStore.ReserveOutpoints. enter Hsim.
  assert (ValidateReserveOutpoints tok (sortedDistinct ops) = ValidateReserveOutpoints tok ops) as Hval.
  { rewrite /ValidateReserveOutpoints. destruct (ValidateReservation tok); [done|].
    apply decide_ext, sortedDistinct_nil. }
  rewrite Hval. destruct (ValidateReserveOutpoints tok ops) eqn:Hv; [by split|]. simpl.
  assert (tok ≠ "") as Htok.
  { apply ValidateReservation_None. rewrite /ValidateReserveOutpoints in Hv. by destruct (ValidateReservation tok). }
  assert (MemStore.distinctOutpoints (sortedDistinct ops) = sortedDistinct ops) as Hdis.
  { apply distinct_from_id; [apply sortedDistinct_NoDup|set_solver]. }
  rewrite Hdis. pose proof (rulings_agree uid tok (sortedDistinct ops) _ _ (sim_agree _ _ Hsim)) as Hrul.
  pose proof (computes_withTx _ _ (computes_reserve uid tok (EncTime (clk 0%nat)) (sortedDistinct ops) Htok
    (sortedDistinct_NoDup ops) ltac:(intros op Hop; by apply Hfit, sortedDistinct_elem))) as Hcomp.
  destruct (MemStore.classify uid tok (MemStore.rows ms) (sortedDistinct ops)) as [es st] eqn:Hcls.
  set (c := CReserveOutpoints (λ _, micro (clk 0%nat)) uid tok (sortedDistinct ops)).
  assert (reserve1 uid tok (EncTime (clk 0%nat)) (sortedDistinct ops) (visible (conn s)) =
    match es with [] => ([], stamped tok (EncTime (clk 0%nat)) st (visible (conn s)))
    | _ => (es, visible (conn s)) end) as Hres.
  { rewrite /reserve1 Hrul. by destruct es. }
  destruct es as [|e es].
  - eapply (same_batch c _ batch_result _ _ _ []); [done| |done|done|exact Hcomp|].
    + rewrite /= /MemStore.ReserveOutpoints /MemStore.guard_open Hcl Hval /= Hdis Hcls. done.
    + rewrite Hres. split; [|done]. apply stamped_agree, Hsim.
  - eapply (same_batch c _ batch_result _ _ _ (e :: es)); [done| |done|done|exact Hcomp|].
    + rewrite /= /MemStore.ReserveOutpoints /MemStore.guard_open Hcl Hval /= Hdis Hcls. done.
    + rewrite Hres. split; [|done]. apply Hsim.
Qed.
End calls.

End SqlRefineClaim.

(** * SqlRefineSelect: the claims select the same coins

    Each claim statement orders its candidates by value and insertion number; the
    in-memory store sorts with a comparator or scans for the best.  The selected
    outpoints are the same, and the rows a statement returns in no particular order are
    brought back into that order. *)
Import StoreContract SqlDb SqlStore SqlLogic SqlAgree SqlRefine.
Local Open Scope Z_scope.

Module SqlRefineSelect.

(** ** Orders *)

Lemma by_value_le a b :
  cmp_le by_value a b ↔
  satoshis a.2 < satoshis b.2 ∨ satoshis a.2 = satoshis b.2 ∧ seq a.2 ≤ seq b.2.
Proof.
  rewrite /cmp_le /by_value. destruct (Z.compare_spec (satoshis a.2) (satoshis b.2)); [|naive_solver lia..].
  destruct (Z.compare_spec (seq a.2) (seq b.2)); naive_solver lia.
Qed.
Lemma by_value_desc_le a b : cmp_le by_value_desc a b ↔ cmp_le by_value b a.
Proof. done. Qed.
Lemma by_seq_le a b : cmp_le by_seq a b ↔ seq a.2 ≤ seq b.2.
Proof. rewrite /cmp_le /by_seq. destruct (Z.compare_spec (seq a.2) (seq b.2)); naive_solver lia. Qed.

#[global] Instance by_value_trans : Transitive (cmp_le by_value).
Proof. intros x y z. rewrite !by_value_le. lia. Qed.
#[global] Instance by_value_total : Total (cmp_le by_value).
Proof. intros x y. rewrite !by_value_le. lia. Qed.
#[global] Instance by_value_desc_trans : Transitive (cmp_le by_value_desc).
Proof. intros x y z. rewrite !by_value_desc_le !by_value_le. lia. Qed.
#[global] Instance by_value_desc_total : Total (cmp_le by_value_desc).
Proof. intros x y. rewrite !by_value_desc_le !by_value_le. lia. Qed.
#[global] Instance by_seq_trans : Transitive (cmp_le by_seq).
Proof. intros x y z. rewrite !by_seq_le. lia. Qed.
#[global] Instance by_seq_total : Total (cmp_le by_seq).
Proof. intros x y. rewrite !by_seq_le. lia. Qed.
#[global] Instance order_of_trans sh : Transitive (cmp_le (order_of sh)).
Proof. destruct sh; apply _. Qed.
#[global] Instance order_of_total sh : Total (cmp_le (order_of sh)).
Proof. destruct sh; apply _. Qed.

(** Two lists over the same keys whose orders agree are sorted into the same keys. *)
Lemma sorted_keys {V W} (cmp : Outpoint * V → Outpoint * V → comparison)
    (cmp' : Outpoint * W → Outpoint * W → comparison)
    `{!Transitive (cmp_le cmp), !Total (cmp_le cmp), !Transitive (cmp_le cmp'), !Total (cmp_le cmp')}
    (l : list (Outpoint * V)) (l' : list (Outpoint * W)) :
  l.*1 ≡ₚ l'.*1 →
  (∀ k1 k2 v1 v2 w1 w2, (k1, v1) ∈ l → (k2, v2) ∈ l → (k1, w1) ∈ l' → (k2, w2) ∈ l' →
     cmp_le cmp' (k1, w1) (k2, w2) → cmp_le cmp (k1, v1) (k2, v2)) →
  (∀ a b, a ∈ l → b ∈ l → cmp_le cmp a b → cmp_le cmp b a → a.1 = b.1) →
  NoDup l.*1 →
  (SortFunc cmp l).*1 = (SortFunc cmp' l').*1.
Proof.
  intros Hp Hagree Hanti Hnd.
  set (R k1 k2 := ∃ v1 v2, (k1, v1) ∈ l ∧ (k2, v2) ∈ l ∧ cmp_le cmp (k1, v1) (k2, v2)).
  assert (∀ k v1 v2, (k, v1) ∈ l → (k, v2) ∈ l → v1 = v2) as Hfun.
  { intros k v1 v2 [i Hi]%list_elem_of_lookup [j Hj]%list_elem_of_lookup.
    assert (i = j) as ->; [|congruence].
    eapply (NoDup_lookup l.*1 i j k Hnd); rewrite list_lookup_fmap; [by rewrite Hi|by rewrite Hj]. }
  assert (∀ k, k ∈ l.*1 ↔ ∃ v, (k, v) ∈ l) as Hkey.
  { intros k. rewrite list_elem_of_fmap. split; [intros ([? v]&->&?); by exists v|].
    intros [v ?]. by exists (k, v). }
  apply (StronglySorted_unique_strong R).
  - intros k1 k2 _ _ (v1&v2&H1&H2&Hle) (v2'&v1'&H2'&H1'&Hle').
    rewrite (Hfun _ _ _ H1' H1) (Hfun _ _ _ H2' H2) in Hle'.
    by apply (Hanti (k1, v1) (k2, v2)).
  - pose proof (StronglySorted_merge_sort (cmp_le cmp) l) as Hs. fold (SortFunc cmp l) in Hs.
    assert (∀ x, x ∈ SortFunc cmp l → x ∈ l) as Hin by (intros x; by rewrite SortFunc_perm).
    induction Hs as [|[k v] s Hs IH Hf]; simpl; [constructor|]. constructor.
    + apply IH. intros. apply Hin. by right.
    + apply Forall_fmap, Forall_forall. intros [k' v'] Hx. rewrite ->Forall_forall in Hf.
      exists v, v'. split_and!; [apply Hin; left|apply Hin; by right|by apply Hf].
  - pose proof (StronglySorted_merge_sort (cmp_le cmp') l') as Hs. fold (SortFunc cmp' l') in Hs.
    assert (∀ x, x ∈ SortFunc cmp' l' → x ∈ l') as Hin by (intros x; by rewrite SortFunc_perm).
    induction Hs as [|[k w] s Hs IH Hf]; simpl; [constructor|]. constructor.
    + apply IH. intros. apply Hin. by right.
    + apply Forall_fmap, Forall_forall. intros [k' w'] Hx. rewrite ->Forall_forall in Hf.
      assert (∀ k w, (k, w) ∈ l' → ∃ v, (k, v) ∈ l) as Hback.
      { intros k0 w0 H0. apply Hkey. rewrite Hp. by apply (list_elem_of_fmap_2' _ _ (k0, w0)). }
      assert ((k, w) ∈ l') as Hw by (apply Hin; left). assert ((k', w') ∈ l') as Hw' by (apply Hin; by right).
      destruct (Hback _ _ Hw) as [v Hv], (Hback _ _ Hw') as [v' Hv'].
      exists v, v'. split_and!; [done..|]. by eapply Hagree, Hf.
  - by rewrite !SortFunc_perm.
Qed.

Lemma fmap_slice_to {A B} (f : A → B) n (l : list A) : f <$> slice_to n l = slice_to n (f <$> l).
Proof. by rewrite /slice_to fmap_take length_fmap. Qed.

(** ** What a claim statement does *)

(** The rows are in the insertion order of [m], and no two of them are tied. *)
Record ordered (t : Table) (m : gmap Outpoint MemStore.row) : Prop := {
  ord_same : same_order t m;
  ord_inj : ∀ op1 op2 mr1 mr2, m !! op1 = Some mr1 → m !! op2 = Some mr2 →
    MemStore.r_seq mr1 = MemStore.r_seq mr2 → op1 = op2;
}.

Lemma sim_ordered s ms : sim s ms → ordered (visible (conn s)) (MemStore.rows ms).
Proof. intros Hsim. split; [apply Hsim|]. by destruct (sim_seqs _ _ Hsim) as (_&_&?). Qed.

Lemma ordered_le t m op1 op2 r1 r2 mr1 mr2 :
  ordered t m → t !! op1 = Some r1 → t !! op2 = Some r2 → m !! op1 = Some mr1 → m !! op2 = Some mr2 →
  seq r1 ≤ seq r2 ↔ MemStore.r_seq mr1 ≤ MemStore.r_seq mr2.
Proof.
  intros [Hs _] H1 H2 H3 H4. pose proof (Hs op2 op1 r2 r1 mr2 mr1 H2 H1 H4 H3). lia.
Qed.

Lemma ordered_inj t m op1 op2 r1 r2 :
  agree t m → ordered t m → t !! op1 = Some r1 → t !! op2 = Some r2 → seq r1 = seq r2 → op1 = op2.
Proof.
  intros Ha Ho H1 H2 He.
  destruct (agree_cases t m op1 Ha) as [[? _]|(?&mr1&?&Hm1&_)]; [congruence|].
  destruct (agree_cases t m op2 Ha) as [[? _]|(?&mr2&?&Hm2&_)]; [congruence|]. simplify_eq.
  pose proof (ordered_le t m op1 op2 _ _ mr1 mr2 Ho H1 H2 Hm1 Hm2).
  pose proof (ordered_le t m op2 op1 _ _ mr2 mr1 Ho H2 H1 Hm2 Hm1).
  eapply (ord_inj _ _ Ho); [done..|]. lia.
Qed.

Section select.
Context `{MapRange} (engine : Engine).

(** The candidates when nobody else holds a row. *)
Definition chosen (sh : claimShape) (sc : Scope) (bound limit : Z) (t : Table) : list (Outpoint * Row) :=
  candidates engine (λ _, false) sh sc bound limit t.

Definition claim1 (sh : claimShape) (sc : Scope) (bound limit : Z) (tok : string) (now : Z) (t : Table) :
    list (Outpoint * Row) * Table :=
  let ks := (chosen sh sc bound limit t).*1 in
  let g := SET_reserved (Some tok) (Some now) in
  (range_map (g <$> matching (λ op _, bool_decide (op ∈ ks)) t),
   updated (λ op _, bool_decide (op ∈ ks)) g t).

Lemma computes_claimOnce sh sc bound limit tok now :
  tok ≠ "" → bound < 2 ^ 63 →
  computes (claimOnce engine sh sc bound limit tok now) (claim1 sh sc bound limit tok now).
Proof.
  intros Htok Hb. apply computes_binding; [by apply Z.ltb_lt|]. eapply (computes_statement _ _ (λ t,
    dom (matching (λ op _, bool_decide (op ∈ (chosen sh sc bound limit t).*1)) t))); simpl.
  - done.
  - intros t Ht. apply updated_ok; [|done]. intros op r _. unfold row_ok. naive_solver.
  - intros t. by apply updated_seq.
Qed.

Lemma chosen_spec sh sc bound limit t :
  NoDup (chosen sh sc bound limit t).*1 ∧
  StronglySorted (cmp_le (order_of sh)) (chosen sh sc bound limit t) ∧
  ∀ op r, (op, r) ∈ chosen sh sc bound limit t →
    t !! op = Some r ∧ claimCandidate sc r = true ∧ compares sh bound (satoshis r) = true.
Proof.
  rewrite /chosen /candidates. set (Q := λ kr : Outpoint * Row, _ ∧ _ ∧ _).
  destruct (selection_spec t Q (order_of sh) limit) as [Hnd Hin]. split_and!; [done| |].
  - destruct (sort_slice_spec (order_of sh) limit (filter Q (range_map t))) as (rest&_&Hs&_).
    by apply StronglySorted_app in Hs as (_&?&_).
  - intros op r [Hr (?&?&_)]%Hin. done.
Qed.

(** The returned rows, put back into order. *)
Lemma returned_sorted cmp `{!Transitive (cmp_le cmp), !Total (cmp_le cmp)} g (sel : list (Outpoint * Row)) t m :
  agree t m → ordered t m → NoDup sel.*1 → (∀ op r, (op, r) ∈ sel → t !! op = Some r) →
  (∀ a b, cmp_le cmp (a.1, g a.2) (b.1, g b.2) ↔ cmp_le cmp a b) →
  (∀ a b, cmp_le cmp a b → cmp_le cmp b a → seq a.2 = seq b.2) →
  StronglySorted (cmp_le cmp) sel →
  SortFunc cmp (range_map (g <$> matching (λ op _, bool_decide (op ∈ sel.*1)) t)) = (λ kr, (kr.1, g kr.2)) <$> sel.
Proof.
  intros Ha Ho Hnd Hsel Hg Hanti Hs.
  set (l := range_map _).
  assert (∀ op r', (op, r') ∈ l ↔ ∃ r, (op, r) ∈ sel ∧ r' = g r) as Hl.
  { intros op r'. rewrite /l range_map_elem lookup_fmap lookup_matching. split.
    - destruct (t !! op) as [r|] eqn:Hr; [simpl|done]. case_bool_decide as Hin; [|done]. intros [= <-].
      apply list_elem_of_fmap in Hin as ([? r0]&->&Hin). pose proof (Hsel _ _ Hin). simpl in *. simplify_eq.
      by eexists.
    - intros (r&Hin&->). rewrite (Hsel _ _ Hin) /= bool_decide_true //.
      by apply (list_elem_of_fmap_2' _ _ (op, r)). }
  apply (StronglySorted_unique_strong (cmp_le cmp)).
  - intros [op1 r1] [op2 r2]. rewrite !SortFunc_perm. intros (s1&H1&->)%Hl Hel2.
    apply list_elem_of_fmap in Hel2 as ([op2' s2]&[= -> ->]&H2). intros Hle Hle'.
    pose proof (proj1 (Hg (op1, s1) (op2', s2)) Hle). pose proof (proj1 (Hg (op2', s2) (op1, s1)) Hle').
    assert (op1 = op2') as ->. { eapply (ordered_inj t m); [done|done|by apply Hsel|by apply Hsel|by apply (Hanti (op1, s1) (op2', s2))]. }
    pose proof (Hsel _ _ H1). pose proof (Hsel _ _ H2). by simplify_eq.
  - by apply StronglySorted_merge_sort.
  - clear -Hs Hg. induction Hs as [|a l Hl IH Hf]; simpl; constructor; [done|].
    apply Forall_fmap. eapply Forall_impl; [exact Hf|]. intros b Hb. by apply Hg.
  - rewrite SortFunc_perm. apply NoDup_Permutation.
    + apply range_map_NoDup.
    + eapply (NoDup_fmap_1 fst). rewrite -list_fmap_compose. by erewrite list_fmap_ext; [exact Hnd|].
    + intros [op r']. rewrite Hl list_elem_of_fmap. split.
      * intros (r&?&->). by exists (op, r).
      * intros ([op' r]&[= -> ->]&?). by exists r.
Qed.

End select.

(** ** The same coins *)

Lemma claimCandidate_agree sc op r mr :
  row_ok r → MemStore.r_utxo mr = scanUTXO op r → claimCandidate sc r = MemStore.claimable sc mr.
Proof.
  intros Hr He. rewrite /claimCandidate /MemStore.claimable He /= /notFrozen.
  apply eq_bool_prop_intro. rewrite !Is_true_true !andb_true_iff !bool_decide_eq_true.
  assert (is_null (reserved_by r) = true ↔ str (reserved_by r) = "") as ->.
  { split; [by destruct (reserved_by r)|]. by intros ->%row_ok_null. }
  destruct (spent_by r), (frozen r); naive_solver.
Qed.

Lemma keys_in {V} `{MapRange} (m : gmap Outpoint V) (Q : Outpoint * V → Prop) `{!∀ x, Decision (Q x)} k :
  k ∈ (filter Q (range_map m)).*1 ↔ ∃ v, m !! k = Some v ∧ Q (k, v).
Proof.
  rewrite list_elem_of_fmap. split.
  - intros ([? v]&->&[HQ Hin]%list_elem_of_filter). rewrite range_map_elem in Hin. by exists v.
  - intros (v&Hv&HQ). exists (k, v). split; [done|]. by rewrite list_elem_of_filter range_map_elem.
Qed.

Lemma keys_NoDup {V} `{MapRange} (m : gmap Outpoint V) (Q : Outpoint * V → Prop) `{!∀ x, Decision (Q x)} :
  NoDup (filter Q (range_map m)).*1.
Proof.
  eapply sublist_NoDup; [apply (range_map_NoDup_fst m)|]. apply sublist_fmap_fst, sublist_filter.
Qed.

Section same_coins.
Context `{MapRange} (engine : Engine) (t : Table) (m : gmap Outpoint MemStore.row).
Context (Ha : agree t m) (Ho : ordered t m) (Hok : table_ok t).
Context (sh : claimShape) (sc : Scope) (bound n : Z).

(** [Q] picks the same rows, [cmp'] orders them the same way. *)
Lemma chosen_same (Q : Outpoint * MemStore.row → Prop) `{!∀ x, Decision (Q x)} cmp'
    `{!Transitive (cmp_le cmp'), !Total (cmp_le cmp')} :
  (∀ op r mr, t !! op = Some r → m !! op = Some mr → MemStore.r_utxo mr = scanUTXO op r →
     Q (op, mr) ↔ claimCandidate sc r = true ∧ compares sh bound (satoshis r) = true) →
  (∀ op1 op2 mr1 mr2 r1 r2, t !! op1 = Some r1 → t !! op2 = Some r2 →
     m !! op1 = Some mr1 → m !! op2 = Some mr2 →
     MemStore.r_utxo mr1 = scanUTXO op1 r1 → MemStore.r_utxo mr2 = scanUTXO op2 r2 →
     Q (op1, mr1) → Q (op2, mr2) →
     cmp_le cmp' (op1, mr1) (op2, mr2) → cmp_le (order_of sh) (op1, r1) (op2, r2)) →
  (chosen engine sh sc bound n t).*1 = (slice_to n (SortFunc cmp' (filter Q (range_map m)))).*1.
Proof.
  intros HQ Hle. rewrite /chosen /candidates !fmap_slice_to. f_equal.
  set (Qt := λ kr : Outpoint * Row, _ ∧ _ ∧ _).
  assert (∀ k r mr, t !! k = Some r → m !! k = Some mr → MemStore.r_utxo mr = scanUTXO k r →
    Qt (k, r) ↔ Q (k, mr)) as HQQ.
  { intros k r mr Hr Hm He. rewrite (HQ k r mr) // /Qt /= andb_false_r. tauto. }
  assert (∀ k r, (k, r) ∈ filter Qt (range_map t) → t !! k = Some r ∧ Qt (k, r)) as Hint.
  { intros k r [? Hin]%list_elem_of_filter. by rewrite range_map_elem in Hin. }
  assert (∀ k mr, (k, mr) ∈ filter Q (range_map m) → m !! k = Some mr ∧ Q (k, mr)) as Hinm.
  { intros k r [? Hin]%list_elem_of_filter. by rewrite range_map_elem in Hin. }
  apply sorted_keys; try apply _.
  - apply NoDup_Permutation; [apply keys_NoDup..|]. intros k. rewrite !keys_in.
    destruct (agree_cases t m k Ha) as [[-> ->]|(r&mr&Hr&Hm&He)]; [naive_solver|]. rewrite Hr Hm. split.
    + intros (?&[= <-]&?). exists mr. split; [done|]. by apply (HQQ k r mr).
    + intros (?&[= <-]&?). exists r. split; [done|]. by apply (HQQ k r mr).
  - intros k1 k2 r1 r2 mr1 mr2 [Hr1 _]%Hint [Hr2 _]%Hint [Hm1 Hq1]%Hinm [Hm2 Hq2]%Hinm.
    destruct (agree_cases t m k1 Ha) as [[? _]|(?&?&?&?&?)]; [congruence|].
    destruct (agree_cases t m k2 Ha) as [[? _]|(?&?&?&?&?)]; [congruence|]. simplify_eq. by apply Hle.
  - intros [k1 r1] [k2 r2] [Hr1 _]%Hint [Hr2 _]%Hint H1 H2. simpl.
    eapply (ordered_inj t m); [done..|]. revert H1 H2.
    destruct sh; rewrite /= ?by_value_desc_le !by_value_le /=; lia.
  - apply keys_NoDup.
Qed.

(** A claim of the in-memory store whose clock stands still. *)
Lemma reserve_all_const now tok sel :
  (MemStore.reserve_all (λ _, now) 0 tok sel m).1 =
  (λ kr, set_reservation tok now (MemStore.r_utxo kr.2)) <$> sel.
Proof. rewrite reserve_all_utxos. apply list_eq. intros i. by rewrite list_lookup_imap list_lookup_fmap. Qed.

Lemma claimed_agree tok now (sel : list (Outpoint * MemStore.row)) ks :
  sel.*1 = ks → NoDup ks → (∀ op mr, (op, mr) ∈ sel → m !! op = Some mr) →
  agree (updated (λ op _, bool_decide (op ∈ ks)) (SET_reserved (Some tok) (Some now)) t)
    (MemStore.reserve_all (λ _, ofUnixMicro now) 0 tok sel m).2.
Proof.
  intros Hks Hnd Hsel. rewrite -Hks in Hnd.
  destruct (reserve_all_lookup (λ _, ofUnixMicro now) 0 tok sel m Hnd) as [Hout Hin].
  intros op. rewrite lookup_updated. destruct (decide (op ∈ ks)) as [Hop|Hop].
  - pose proof Hop as Hop'. rewrite -Hks in Hop'. apply list_elem_of_fmap in Hop' as ([? mr]&->&Hel). simpl in *.
    pose proof (Hsel _ _ Hel) as Hm. apply list_elem_of_lookup in Hel as [i Hi]. rewrite (Hin i _ _ Hi) /=.
    match goal with |- context [t !! ?o] =>
      destruct (agree_cases t m o Ha) as [[? ?]|(r&mr'&->&?&He)]; [congruence|] end.
    simplify_eq. rewrite /= bool_decide_true // He. done.
  - rewrite Hout; [|by rewrite Hks]. rewrite -(Ha op). destruct (t !! op); [|done]. by rewrite /= bool_decide_false.
Qed.

Lemma returned_agree tok now (sel : list (Outpoint * Row)) (selm : list (Outpoint * MemStore.row)) :
  sel.*1 = selm.*1 → (∀ op r, (op, r) ∈ sel → t !! op = Some r) →
  (∀ op mr, (op, mr) ∈ selm → m !! op = Some mr) →
  collect ((λ kr, (kr.1, SET_reserved (Some tok) (Some now) kr.2)) <$> sel) =
  (MemStore.reserve_all (λ _, ofUnixMicro now) 0 tok selm m).1.
Proof.
  rewrite reserve_all_const /collect. revert selm.
  induction sel as [|[op r] sel IH]; intros [|[op' mr] selm] Hk Hs Hm; try done; simpl in *.
  injection Hk as -> Hk. f_equal.
  - destruct (agree_cases t m op' Ha) as [[Hn _]|(r'&mr'&Hr'&Hm'&He)].
    { rewrite (Hs op' r) in Hn; [done|left]. }
    rewrite (Hs op' r) in Hr'; [|left]. rewrite (Hm op' mr) in Hm'; [|left]. simplify_eq. by rewrite He.
  - apply IH; [done|..]; intros; [apply Hs|apply Hm]; by right.
Qed.
End same_coins.

(** ** The calls *)

Section calls.
Context `{MapRange} (engine : Engine).

Lemma largest_order t m op1 op2 (r1 r2 : Row) mr1 mr2 :
  ordered t m → t !! op1 = Some r1 → t !! op2 = Some r2 → m !! op1 = Some mr1 → m !! op2 = Some mr2 →
  MemStore.r_utxo mr1 = scanUTXO op1 r1 → MemStore.r_utxo mr2 = scanUTXO op2 r2 →
  cmp_le MemStore.cmp_largest (op1, mr1) (op2, mr2) → cmp_le by_value_desc (op1, r1) (op2, r2).
Proof.
  intros Ho H1 H2 H3 H4 E1 E2. pose proof (ordered_le t m op2 op1 r2 r1 mr2 mr1 Ho H2 H1 H4 H3) as Hle.
  rewrite StoreProps.cmp_largest_le by_value_desc_le by_value_le /MemStore.sats /MemStore.kseq /= E1 E2 /=. lia.
Qed.

(** The body of the two multi-coin claims. *)
Lemma claim_many_same c sh sc tok x n now cmp (Q : Outpoint * MemStore.row → Prop) `{!∀ y, Decision (Q y)} cmp'
    `{!Transitive (cmp_le cmp), !Total (cmp_le cmp), !Transitive (cmp_le cmp'), !Total (cmp_le cmp')} s ms :
  sim s ms → tok ≠ "" → x < 2 ^ 63 → mints c = false → c ≠ CClose →
  let sel := slice_to n (SortFunc cmp' (filter Q (range_map (MemStore.rows ms)))) in
  let ra := MemStore.reserve_all (λ _, ofUnixMicro now) 0 tok sel (MemStore.rows ms) in
  exec c ms = MemStore.with_rows ra.2 ms →
  (chosen engine sh sc x n (visible (conn s))).*1 = sel.*1 →
  (∀ a b, cmp_le cmp (a.1, SET_reserved (Some tok) (Some now) a.2) (b.1, SET_reserved (Some tok) (Some now) b.2) ↔
     cmp_le cmp a b) →
  (∀ a b, cmp_le cmp a b → cmp_le cmp b a → seq a.2 = seq b.2) →
  StronglySorted (cmp_le cmp) (chosen engine sh sc x n (visible (conn s))) →
  same (on_conn (claimed ← runClaim engine sh sc x n tok now; mret (collect (SortFunc cmp claimed))) s)
    (Ret ra.1, MemStore.with_rows ra.2 ms).
Proof.
  intros Hsim Htok Hx63 Hc1 Hc2 sel ra Hex Hsel Hg Hanti Hsort.
  destruct (chosen_spec engine sh sc x n (visible (conn s))) as (Hnd&_&Hin).
  destruct (selection_spec (MemStore.rows ms) Q cmp' n) as [_ Hselm]. fold sel in Hselm.
  eapply (same_call c); [done|done|done|done| |].
  - eapply (computes_bind _ _ _ (λ claimed t, (collect (SortFunc cmp claimed), t)));
      [|intros; apply computes_ret]. by apply computes_runClaim, computes_claimOnce.
  - simpl. split.
    + apply claimed_agree; [apply Hsim|done|done|]. by intros op mr [? _]%Hselm.
    + rewrite (returned_sorted cmp _ _ _ (MemStore.rows ms)); [|apply Hsim|by apply sim_ordered|done|
        by intros op r (?&_)%Hin|done|done|done].
      apply (returned_agree (visible (conn s))); [apply Hsim|done| |]; [by intros op r (?&_)%Hin|].
      by intros op mr [? _]%Hselm.
Qed.

Ltac enter_claim Hsim :=
  enter Hsim;
  match goal with |- context [ValidateClaim ?sc ?tok] =>
    destruct (ValidateClaim sc tok) eqn:Hv; [by split|];
    pose proof (proj1 (proj1 (ValidateClaim_None sc tok) Hv)) as Htok end.

Lemma ClaimLargestInsufficient_same clk sc tok x n s ms :
  x < 2 ^ 63 → sim s ms →
  same (ClaimLargestInsufficient engine clk sc tok x n s)
    (MemStore.ClaimLargestInsufficient (λ _, micro (clk 0%nat)) sc tok x n ms).
Proof.
  intros Hx63 Hsim. rewrite /ClaimLargestInsufficient /MemStore.ClaimLargestInsufficient. enter_claim Hsim.
  rewrite /guard_valid /MemStore.guard_valid. destruct (n <=? 0) eqn:Hn; [by split|].
  rewrite (surjective_pairing (MemStore.reserve_all _ _ _ _ _)).
  apply (claim_many_same (CClaimLargestInsufficient (λ _, micro (clk 0%nat)) sc tok x n));
    [apply _..|done|done|done|done|done| | | | |].
  - rewrite /= /MemStore.ClaimLargestInsufficient /MemStore.guard_open Hcl Hv /= Hn.
    by rewrite (surjective_pairing (MemStore.reserve_all _ _ _ _ _)).
  - apply chosen_same; [apply Hsim|by apply sim_ordered|apply _..| |].
    + intros op r mr Hr Hm He. rewrite /= /MemStore.sats /= He /=.
      rewrite -(claimCandidate_agree sc op r mr); [|by eapply Hsim|done]. by rewrite Z.ltb_lt.
    + intros. eapply largest_order; [by apply sim_ordered|done..].
  - done.
  - intros a b. rewrite !by_value_desc_le !by_value_le. lia.
  - by destruct (chosen_spec engine shapeLargestInsufficient sc x n (visible (conn s))) as (_&?&_).
Qed.

Lemma ClaimExact_same clk sc tok x n s ms :
  x < 2 ^ 63 → sim s ms →
  same (ClaimExact engine clk sc tok x n s)
    (MemStore.ClaimExact (λ _, micro (clk 0%nat)) sc tok x n ms).
Proof.
  intros Hx63 Hsim. rewrite /ClaimExact /MemStore.ClaimExact. enter_claim Hsim.
  rewrite /guard_valid /MemStore.guard_valid. destruct (n <=? 0) eqn:Hn; [by split|].
  rewrite (surjective_pairing (MemStore.reserve_all _ _ _ _ _)).
  apply (claim_many_same (CClaimExact (λ _, micro (clk 0%nat)) sc tok x n));
    [apply _..|done|done|done|done|done| | | | |].
  - rewrite /= /MemStore.ClaimExact /MemStore.guard_open Hcl Hv /= Hn.
    by rewrite (surjective_pairing (MemStore.reserve_all _ _ _ _ _)).
  - apply chosen_same; [apply Hsim|by apply sim_ordered|apply _..| |].
    + intros op r mr Hr Hm He. rewrite /= /MemStore.sats /= He /=.
      rewrite -(claimCandidate_agree sc op r mr); [|by eapply Hsim|done]. by rewrite Z.eqb_eq.
    + intros op1 op2 mr1 mr2 r1 r2 Hr1 Hr2 Hm1 Hm2 He1 He2 [_ Hx1] [_ Hx2].
      rewrite StoreProps.cmp_seq_le by_value_le /MemStore.kseq /=. revert Hx1 Hx2.
      rewrite /MemStore.sats /= He1 He2 /=. intros Hx1 Hx2 Hle. right. split; [congruence|].
      by eapply (ordered_le _ _ op1 op2); [by apply sim_ordered|..].
  - done.
  - intros a b. rewrite !by_seq_le. lia.
  - destruct (chosen_spec engine shapeExact sc x n (visible (conn s))) as (_&Hs&Hin).
    revert Hs Hin. generalize (chosen engine shapeExact sc x n (visible (conn s))). clear.
    induction 1 as [|[op r] l Hs IH Hf]; intros Hin; constructor.
    + apply IH. intros. apply Hin. by right.
    + apply Forall_forall. intros [op' r'] Hl. rewrite ->Forall_forall in Hf. specialize (Hf _ Hl).
      rewrite by_seq_le. destruct (Hin op r) as (_&_&H1); [left|]. destruct (Hin op' r') as (_&_&H2); [by right|].
      revert Hf H1 H2. rewrite by_value_le /=. lia.
Qed.

Lemma slice_one {A} (l : list A) : slice_to 1 l = match l with [] => [] | a :: _ => [a] end.
Proof.
  destruct l as [|a l]; [done|]. rewrite /slice_to.
  assert (1 `min` Z.of_nat (length (a :: l)) = 1) as -> by (simpl; lia). by destruct l.
Qed.

(** The single row the first claim takes is the best fit. *)
Lemma chosen_smallest t m sc x :
  agree t m → ordered t m → table_ok t →
  (chosen engine shapeSmallestSufficient sc x 1 t = [] ∧
   ∀ op mr, m !! op = Some mr → ¬ StoreProps.eligible sc x (op, mr)) ∨
  (∃ op mr r, chosen engine shapeSmallestSufficient sc x 1 t = [(op, r)] ∧
     m !! op = Some mr ∧ t !! op = Some r ∧ StoreProps.eligible sc x (op, mr) ∧
     ∀ op' mr', m !! op' = Some mr' → StoreProps.eligible sc x (op', mr') →
       StoreProps.no_worse (op, mr) (op', mr')).
Proof.
  intros Ha Ho Hok. set (Q := λ kr : Outpoint * Row, claimCandidate sc kr.2 = true ∧
    (x <=? satoshis kr.2) = true ∧ (bool_decide (engine = EnginePostgres) && false) = false).
  set (l := SortFunc by_value (filter Q (range_map t))).
  assert (chosen engine shapeSmallestSufficient sc x 1 t = match l with [] => [] | a :: _ => [a] end) as ->
    by apply slice_one.
  assert (StronglySorted (cmp_le by_value) l) as Hs by (apply StronglySorted_merge_sort; apply _).
  assert (∀ kr, kr ∈ l → t !! kr.1 = Some kr.2) as Hin.
  { intros [k r]. rewrite /l SortFunc_perm. intros [_ Hr]%list_elem_of_filter. by rewrite range_map_elem in Hr. }
  assert (∀ op r mr, t !! op = Some r → m !! op = Some mr → (op, r) ∈ l ↔ StoreProps.eligible sc x (op, mr)) as Hel.
  { intros op r mr Hr Hm. rewrite /l SortFunc_perm list_elem_of_filter range_map_elem Hr /Q /= andb_false_r.
    destruct (agree_cases t m op Ha) as [[? _]|(?&?&?&?&He)]; [congruence|]. simplify_eq.
    rewrite /StoreProps.eligible /MemStore.sats /= He /= (claimCandidate_agree sc op r mr); [|by eapply Hok|done].
    rewrite Z.leb_le. tauto. }
  clearbody l. destruct l as [|[k r] l]; [left|right].
  - split; [done|]. intros op mr Hm He. destruct (agree_cases t m op Ha) as [[_ ?]|(r&?&Hr&?&_)]; [congruence|].
    apply (Hel op r mr Hr Hm) in He. by apply not_elem_of_nil in He.
  - assert (t !! k = Some r) as Hk by (apply (Hin (k, r)); left).
    destruct (agree_cases t m k Ha) as [[? _]|(?&mr&?&Hm&Hek)]; [congruence|]. simplify_eq.
    exists k, mr, r. split_and!; try done; [by apply (Hel k r mr Hk Hm); left|].
    intros op' mr' Hm' He'. destruct (agree_cases t m op' Ha) as [[_ ?]|(r'&?&Hr'&?&He)]; [congruence|].
    simplify_eq. apply (Hel op' r' mr' Hr' Hm') in He'.
    assert (cmp_le by_value (k, r) (op', r')) as Hle.
    { apply elem_of_cons in He' as [[= -> ->]|Hl]; [rewrite by_value_le; lia|].
      inversion Hs as [|? ? _ Hf]; subst. rewrite ->Forall_forall in Hf. by apply Hf. }
    pose proof (ordered_le t m k op' r r' mr mr' Ho Hk Hr' Hm Hm') as Hord. revert Hle.
    rewrite /StoreProps.no_worse by_value_le /MemStore.sats /MemStore.kseq /= Hek He /=. lia.
Qed.

Lemma claim1_none sh sc x n tok now t :
  chosen engine sh sc x n t = [] → claim1 engine sh sc x n tok now t = ([], t).
Proof.
  intros Hch. rewrite /claim1 Hch. f_equal.
  - apply nil_length_inv. rewrite range_map_length map_size_fmap.
    apply map_size_empty_iff, map_eq. intros k. rewrite lookup_matching lookup_empty. by destruct (t !! k).
  - apply map_eq. intros k. rewrite lookup_updated. by destruct (t !! k).
Qed.

Lemma claim1_single sh sc x n tok now t op r :
  chosen engine sh sc x n t = [(op, r)] → t !! op = Some r →
  let r' := SET_reserved (Some tok) (Some now) r in
  claim1 engine sh sc x n tok now t = ([(op, r')], <[op := r']> t).
Proof.
  intros Hch Hr r'. rewrite /claim1 Hch. f_equal.
  - apply Permutation_singleton_r. rewrite range_map_perm.
    match goal with |- map_to_list ?m ≡ₚ _ => assert (m = {[op := r']}) as -> end; [|by rewrite map_to_list_singleton].
    apply map_eq. intros k. rewrite lookup_fmap lookup_matching. destruct (decide (k = op)) as [->|Hne].
    + rewrite Hr /= bool_decide_true; [by rewrite lookup_singleton_eq|left].
    + rewrite lookup_singleton_ne //. rewrite bool_decide_false; [|set_solver]. by destruct (t !! k).
  - apply map_eq. intros k. rewrite lookup_updated. destruct (decide (k = op)) as [->|Hne].
    + rewrite Hr lookup_insert_eq /= bool_decide_true //. left.
    + rewrite lookup_insert_ne // bool_decide_false; [|set_solver]. by destruct (t !! k).
Qed.

Lemma ClaimSmallestSufficient_same clk sc tok x s ms :
  x < 2 ^ 63 → sim s ms →
  same (ClaimSmallestSufficient engine clk sc tok x s)
    (MemStore.ClaimSmallestSufficient (λ _, micro (clk 0%nat)) sc tok x ms).
Proof.
  intros Hx63 Hsim. set (now := EncTime (clk 0%nat)).
  pose proof (StoreProps.ClaimSmallestSufficient_spec (λ _, micro (clk 0%nat)) sc tok x ms) as Hspec.
  set (c := CClaimSmallestSufficient (λ _, micro (clk 0%nat)) sc tok x).
  rewrite /ClaimSmallestSufficient. destruct (MemStore.closed ms) eqn:Hop.
  { rewrite /MemStore.ClaimSmallestSufficient. enter Hsim. congruence. }
  destruct (ValidateClaim sc tok) eqn:Hv.
  { rewrite /MemStore.ClaimSmallestSufficient /guard_open /MemStore.guard_open (sim_closed _ _ Hsim) Hop Hv. by split. }
  pose proof (proj1 (proj1 (ValidateClaim_None sc tok) Hv)) as Htok. specialize (Hspec eq_refl eq_refl).
  rewrite /guard_open (sim_closed _ _ Hsim) Hop /=.
  assert (computes (claimed ← runClaim engine shapeSmallestSufficient sc x 1 tok now; mret (head (collect claimed)))
    (λ t, (head (collect (claim1 engine shapeSmallestSufficient sc x 1 tok now t).1),
           (claim1 engine shapeSmallestSufficient sc x 1 tok now t).2))) as Hcomp.
  { eapply (computes_bind _ _ _ (λ claimed t, (head (collect claimed), t)));
      [|intros; apply computes_ret]. by apply computes_runClaim, computes_claimOnce. }
  pose proof (sim_agree _ _ Hsim) as Ha. pose proof (sim_ordered _ _ Hsim) as Ho.
  destruct (chosen_smallest (visible (conn s)) (MemStore.rows ms) sc x Ha Ho) as [[Hch Hno]|(op&mr&r&Hch&Hm&Hr&He&Hb)];
    [apply Hsim| |]; destruct Hspec as [[Heq Hno']|(op'&mr'&Hm'&He'&Hb'&Heq)].
  - rewrite Heq. eapply (same_call c); [done|by rewrite /= Heq|done|done|exact Hcomp|].
    cbv beta. by rewrite claim1_none.
  - by destruct (Hno op' mr').
  - by destruct (Hno' op mr).
  - assert (op = op') as <-.
    { specialize (Hb _ _ Hm' He'). specialize (Hb' _ _ Hm He). rewrite /StoreProps.no_worse in Hb Hb'.
      eapply (ord_inj _ _ Ho); [done..|]. revert Hb Hb'. rewrite /MemStore.kseq /=. lia. }
    simplify_eq. destruct (agree_cases _ _ op Ha) as [[? _]|(?&?&?&?&Heo)]; [congruence|]. simplify_eq.
    rewrite Heq. eapply (same_call c); [done|by rewrite /= Heq|done|done|exact Hcomp|].
    cbv beta. rewrite (claim1_single _ _ _ _ _ _ _ op r Hch Hr) /=. split; [|by rewrite Heo].
    intros k. destruct (decide (k = op)) as [->|Hne]; [by rewrite !lookup_insert_eq /= Heo|].
    by rewrite !lookup_insert_ne // (Ha k).
Qed.
End calls.

End SqlRefineSelect.
