(* ===== verification/SqlRefineMint.v ===== *)
(** * SqlRefineMint: inserting coins, and the two stores over whole histories

    Mint against the in-memory store, and the refinement theorem for any sequence of
    calls. *)
From S2P Require Import Prelude UtxoTypes MemStore StoreContract StoreProps StoreReplay.
From S2P Require Import SqlDb SqlStore SqlLogic SqlAgree SqlRefine SqlRefineSpend SqlRefineClaim.
Import StoreContract SqlDb SqlStore SqlLogic SqlAgree SqlRefine SqlRefineOps SqlRefineSpend SqlRefineClaim SqlRefineSelect.
Local Open Scope Z_scope.

Module SqlRefineMint.

(** Still the only caller, with the counter at [q] and the table [t]. *)
Record stands (c c' : Conn) (q : Z) (t : Table) : Prop := {
  st_events : events c' = [];
  st_idle : in_tx c' = false → committed c' = visible c' ∧ locks c' = ∅;
  st_tx : in_tx c' = in_tx c;
  st_seq : utxo_seq c' = q;
  st_visible : visible c' = t;
}.

Lemma stands_alone c c' q t : stands c c' q t → table_ok t → alone c'.
Proof. intros [? ? ? ? Hv] Hok. by constructor; [..|rewrite Hv]. Qed.

Lemma INSERT_alone op row next c :
  alone c → 0 < satoshis (row (next (utxo_seq c))) →
  ∃ c', INSERT op row next c = (Ret (match visible c !! op with Some _ => 0 | None => 1 end), c') ∧
    stands c c' (next (utxo_seq c))
      (match visible c !! op with
       | Some _ => visible c | None => <[op := row (next (utxo_seq c))]> (visible c) end).
Proof.
  intros [He Hi _] Hs. rewrite /INSERT /INSERT_at /mbind /M_bind /statement /arrive He /=.
  destruct (Z.leb_spec (satoshis (row (next (utxo_seq c)))) 0); [lia|].
  destruct (visible c !! op); rewrite /settle /=; destruct (in_tx c) eqn:Htx; eexists; (split; [done|]);
    constructor; done.
Qed.

Section mint.
Context `{MapRange} (engine : Engine).

(** A coin that the schema's columns and its CHECK admit. *)
Definition storable (m : UtxoTypes.Mint) : Prop :=
  0 < m_Satoshis m < 2 ^ 63 ∧ key_fits engine (m_Outpoint m) = true ∧
  (engine = EnginePostgres → m_InputSize m < 2 ^ 31).

(** The statement inserts, or finds the row taken; a number is drawn either way. *)
Lemma insertMint_alone now m c :
  alone c → storable m →
  ∃ c', insertMint engine now m c =
      (Ret (match visible c !! m_Outpoint m with Some _ => 0 | None => 1 end), c') ∧
    stands c c' (utxo_seq c + 1)
      (match visible c !! m_Outpoint m with
       | Some _ => visible c
       | None => <[m_Outpoint m := mint_row (EncTime now) m (utxo_seq c + 1)]> (visible c)
       end).
Proof.
  intros Hc ([Hs Hs63]&Hkey&Hsize). rewrite /insertMint. destruct engine.
  - rewrite Hkey /int4 /int8 (proj2 (Z.ltb_lt _ _) Hs63) (proj2 (Z.ltb_lt _ _) (Hsize eq_refl)) /=.
    by apply (INSERT_alone (m_Outpoint m) (mint_row (EncTime now) m) (λ q, q + 1)).
  - destruct (statement_alone (λ _ t q, (q + 1, (t, q + 1, ∅ : gset Outpoint))) c
      (utxo_seq c + 1) (visible c) (utxo_seq c + 1) ∅ Hc eq_refl) as (c1&He1&Hev&Hv&Hq&Htx&Hi).
    assert (alone c1) as Hc1 by (constructor; [done|done|rewrite Hv; apply Hc]).
    rewrite /mbind /M_bind /draw_seq He1 /int8 (proj2 (Z.ltb_lt _ _) Hs63) /=.
    destruct (INSERT_alone (m_Outpoint m) (λ _, mint_row (EncTime now) m (utxo_seq c + 1)) id c1 Hc1) as (c'&He&[]);
      [done|]. rewrite Hv Hq in He st_seq0 st_visible0. exists c'. split; [done|].
    constructor; [done|done|congruence|done|done].
Qed.

(** The new row comes last in both stores. *)
Lemma sim_insert s ms c' op r mr :
  sim s ms → MemStore.rows ms !! op = None → visible (conn s) !! op = None →
  stands (conn s) c' (utxo_seq (conn s) + 1) (<[op := r]> (visible (conn s))) →
  row_ok r → seq r = utxo_seq (conn s) + 1 → MemStore.r_utxo mr = scanUTXO op r →
  MemStore.r_seq mr = MemStore.nextSeq ms + 1 → MemStore.nextSeq ms + 1 < 2 ^ 64 →
  sim (with_conn c' s)
    (MemStore.mkStore (<[op := mr]> (MemStore.rows ms)) (MemStore.nextSeq ms + 1) (MemStore.closed ms)).
Proof.
  intros [Hal Hcl Hag Hor Hcnt Hsq] Hm Ht Hst Hok Hseq Hu Hmseq Hfit. pose proof Hsq as (Hn&Hle&Hinj).
  pose proof (st_visible _ _ _ _ Hst) as Hv. pose proof (st_seq _ _ _ _ Hst) as Hq.
  constructor; simpl; rewrite ?Hv ?Hq.
  - eapply stands_alone; [exact Hst|]. intros k rk. rewrite lookup_insert_Some.
    intros [[<- <-]|[_ ?]]; [done|]. by eapply Hal.
  - done.
  - intros k. destruct (decide (k = op)) as [->|Hne]; [by rewrite !lookup_insert_eq /= Hu|].
    rewrite !lookup_insert_ne //.
  - intros op1 op2 r1 r2 mr1 mr2. rewrite !lookup_insert_Some.
    intros [[<- <-]|[Hne1 H1]] [[<- <-]|[Hne2 H2]] [[? <-]|[? H3]] [[? <-]|[? H4]]; try congruence.
    + lia.
    + apply Hcnt in H2. apply Hle in H4. lia.
    + apply Hcnt in H1. apply Hle in H3. lia.
    + by eapply Hor.
  - intros k rk. rewrite lookup_insert_Some. intros [[<- <-]|[_ ?%Hcnt]]; lia.
  - split_and!; simpl; [lia|lia| |].
    + intros k rk. rewrite lookup_insert_Some. intros [[<- <-]|[_ ?%Hle]]; lia.
    + intros op1 op2 m1 m2. rewrite !lookup_insert_Some.
      intros [[<- <-]|[Hne1 H1]] [[<- <-]|[Hne2 H2]]; [done| | |by eapply Hinj].
      * apply Hle in H2. lia.
      * apply Hle in H1. lia.
Qed.

Lemma sim_counter_grows s ms c' q :
  sim s ms → stands (conn s) c' q (visible (conn s)) → utxo_seq (conn s) ≤ q →
  sim (with_conn c' s) ms.
Proof.
  intros [Hal Hcl Hag Hor Hcnt Hsq] Hst Hq.
  constructor; simpl; rewrite ?(st_visible _ _ _ _ Hst) ?(st_seq _ _ _ _ Hst); try done.
  - eapply stands_alone; [exact Hst|apply Hal].
  - intros op r Hr%Hcnt. lia.
Qed.

Lemma mintOne_same now m s ms n :
  sim s ms → storable m → MemStore.nextSeq ms + 1 < 2 ^ 64 →
  let '(e, (_, ms')) := MemStore.mintOne (λ _, micro now) m n ms in
  ∃ c', (let '(o, c') := mintOne engine now m (conn s) in
         (match o with Err e => Some e | _ => None end, c')) = (e, c') ∧
    sim (with_conn c' s) ms'.
Proof.
  intros Hsim Hs Hfit. rewrite /mintOne /MemStore.mintOne.
  destruct (ValidateMint m) as [e|] eqn:Hv; [exists (conn s); by destruct s|].
  destruct (insertMint_alone now m (conn s)) as (c1&He&Hst); [apply Hsim|done|].
  rewrite /mbind /M_bind He.
  destruct (agree_cases _ _ (m_Outpoint m) (sim_agree _ _ Hsim)) as [[Ht Hm]|(r&mr&Ht&Hm&Heq)];
    rewrite Ht in Hst; rewrite Ht Hm /=.
  - exists c1. split; [done|]. rewrite /wrapU Z.mod_small.
    + apply (sim_insert s ms c1 _ _ _ Hsim Hm Ht Hst); simpl; try done.
      split_and!; [done|by intros [??]|apply Hs].
    + pose proof (sim_seqs _ _ Hsim) as (?&_). lia.
  - assert (alone c1) as Hc1 by (eapply stands_alone; [exact Hst|apply Hsim]).
    destruct (computes_SELECT (λ t, t !! m_Outpoint m) c1 Hc1) as (c2&He2&Ha2). simpl in He2, Ha2.
    rewrite /SELECT_one He2 (st_visible _ _ _ _ Hst) Ht. rewrite Heq /=.
    assert (sim (with_conn c2 s) ms) as Hsim2.
    { eapply sim_counter_grows; [exact Hsim| |].
      - destruct Ha2 as [[] Hv2 Htx Hq _]. constructor; [done|done| |done|].
        + rewrite Htx. apply (st_tx _ _ _ _ Hst).
        + rewrite Hv2. apply (st_visible _ _ _ _ Hst).
      - rewrite (st_seq _ _ _ _ Hst). lia. }
    case_bool_decide; by exists c2.
Qed.

Lemma mint_loop_same clk ms s mst n k :
  sim s mst → (∀ i, clk i = clk 0%nat) → Forall storable ms →
  MemStore.nextSeq mst + Z.of_nat (length ms) < 2 ^ 64 →
  (mint_loop engine clk ms n (conn s)).1 = (MemStore.mint_loop (λ _, micro (clk 0%nat)) ms k mst).1 ∧
  sim (with_conn (mint_loop engine clk ms n (conn s)).2 s)
    (MemStore.mint_loop (λ _, micro (clk 0%nat)) ms k mst).2.
Proof.
  intros Hsim Hclk. revert s mst n k Hsim. induction ms as [|m ms IH]; intros s mst n k Hsim Hsat Hfit; simpl.
  { split; [done|]. by destruct s. }
  apply Forall_cons in Hsat as [Hs Hsat]. simpl in Hfit.
  pose proof (mintOne_same (clk n) m s mst k Hsim Hs) as Hone. rewrite (Hclk n) in Hone |- *.
  pose proof (mintOne_seqs (λ _, micro (clk 0%nat)) m k mst (sim_seqs _ _ Hsim)) as Hseqs.
  destruct (MemStore.mintOne (λ _, micro (clk 0%nat)) m k mst) as [e [k' mst']].
  destruct Hone as (c'&Heq&Hsim'); [lia|]. destruct Hseqs as [_ Hn]; [lia|]. simpl in Hn.
  destruct (mintOne engine (clk 0%nat) m (conn s)) as [o c1]. injection Heq as He ->.
  specialize (IH (with_conn c' s) mst' (match ValidateMint m with Some _ => n | None => S n end) k' Hsim' Hsat).
  simpl in IH. destruct IH as [IH1 IH2]; [lia|].
  destruct (mint_loop engine clk ms _ c') as [es c2], (MemStore.mint_loop _ ms k' mst') as [es' mst2]; simpl in *.
  by rewrite He IH1.
Qed.

Lemma Mint_same clk ms s mst :
  sim s mst → (∀ i, clk i = clk 0%nat) → Forall storable ms →
  fits (CMint clk ms) mst →
  (Mint engine clk ms s).1 = (MemStore.Mint (λ _, micro (clk 0%nat)) ms mst).1 ∧
  sim (Mint engine clk ms s).2 (MemStore.Mint (λ _, micro (clk 0%nat)) ms mst).2.
Proof.
  intros Hsim Hclk Hsat Hfit. rewrite /Mint /MemStore.Mint (sim_closed _ _ Hsim).
  destruct (MemStore.closed mst); [done|].
  destruct (mint_loop_same clk ms s mst 0 0 Hsim Hclk Hsat Hfit) as [H1 H2].
  destruct (mint_loop engine clk ms 0 (conn s)), (MemStore.mint_loop _ ms 0 mst); simpl in *. by rewrite H1.
Qed.

End mint.
(** ** Calls and histories *)

(** What a call returns. *)
Inductive answer :=
| ABatch (slots : list (option error)) (e : option error)
| AUnit (o : outcome error ())
| ACount (o : outcome error Z)
| ACoin (o : outcome error (option UTXO))
| ACoins (o : outcome error (list UTXO))
| AReport (o : outcome error RemoveByMintReport).

Definition lift_answer {A S} (f : A → answer) (r : A * S) : answer * S := (f r.1, r.2).
Definition batch (r : list (option error) * option error) : answer := ABatch r.1 r.2.

Section histories.
Context `{MapRange}.

Definition mem_call (c : call) (s : MemStore.Store) : answer * MemStore.Store :=
  match c with
  | CMint clk ms => lift_answer batch (MemStore.Mint clk ms s)
  | CRemove ops force => lift_answer AUnit (MemStore.Remove ops force s)
  | CClaimSmallestSufficient clk sc tok x => lift_answer ACoin (MemStore.ClaimSmallestSufficient clk sc tok x s)
  | CClaimLargestInsufficient clk sc tok x n =>
      lift_answer ACoins (MemStore.ClaimLargestInsufficient clk sc tok x n s)
  | CClaimExact clk sc tok x n => lift_answer ACoins (MemStore.ClaimExact clk sc tok x n s)
  | CReserveOutpoints clk uid tok ops => lift_answer AUnit (MemStore.ReserveOutpoints clk uid tok ops s)
  | CReleaseReservation uid tok => lift_answer ACount (MemStore.ReleaseReservation uid tok s)
  | CReleaseOutpoints tok ops => lift_answer AUnit (MemStore.ReleaseOutpoints tok ops s)
  | CPin uid tok => lift_answer ACount (MemStore.Pin uid tok s)
  | CUnpin uid tok => lift_answer ACount (MemStore.Unpin uid tok s)
  | CSpend sps force => lift_answer batch (MemStore.Spend sps force s)
  | CUnspend w ops => lift_answer ACount (MemStore.Unspend w ops s)
  | CRemoveSpentBy w => lift_answer ACount (MemStore.RemoveSpentBy w s)
  | CPromote ops to => lift_answer ACount (MemStore.Promote ops to s)
  | CRemoveByMintTx w ops => lift_answer AReport (MemStore.RemoveByMintTx w ops s)
  | CFreeze ops => lift_answer AUnit (MemStore.Freeze ops s)
  | CUnfreeze ops => lift_answer AUnit (MemStore.Unfreeze ops s)
  | CClose => lift_answer AUnit (MemStore.Close s)
  end.

Definition sql_call (engine : Engine) (c : call) (s : Store) : answer * Store :=
  match c with
  | CMint clk ms => lift_answer batch (Mint engine clk ms s)
  | CRemove ops force => lift_answer AUnit (Remove engine ops force s)
  | CClaimSmallestSufficient clk sc tok x => lift_answer ACoin (ClaimSmallestSufficient engine clk sc tok x s)
  | CClaimLargestInsufficient clk sc tok x n =>
      lift_answer ACoins (ClaimLargestInsufficient engine clk sc tok x n s)
  | CClaimExact clk sc tok x n => lift_answer ACoins (ClaimExact engine clk sc tok x n s)
  | CReserveOutpoints clk uid tok ops => lift_answer AUnit (ReserveOutpoints engine clk uid tok ops s)
  | CReleaseReservation uid tok => lift_answer ACount (ReleaseReservation uid tok s)
  | CReleaseOutpoints tok ops => lift_answer AUnit (ReleaseOutpoints engine tok ops s)
  | CPin uid tok => lift_answer ACount (Pin uid tok s)
  | CUnpin uid tok => lift_answer ACount (Unpin uid tok s)
  | CSpend sps force => lift_answer batch (Spend engine sps force s)
  | CUnspend w ops => lift_answer ACount (Unspend engine w ops s)
  | CRemoveSpentBy w => lift_answer ACount (RemoveSpentBy w s)
  | CPromote ops to => lift_answer ACount (Promote engine ops to s)
  | CRemoveByMintTx w ops => lift_answer AReport (RemoveByMintTx engine w ops s)
  | CFreeze ops => lift_answer AUnit (Freeze engine ops s)
  | CUnfreeze ops => lift_answer AUnit (Unfreeze engine ops s)
  | CClose => lift_answer AUnit (Close s)
  end.

(** The call the in-memory store is compared on: one clock reading, at the resolution
    of the database, and named outpoints in the canonical order. *)
Definition as_mem (c : call) : call :=
  match c with
  | CMint clk ms => CMint (λ _, micro (clk 0%nat)) ms
  | CClaimSmallestSufficient clk sc tok x => CClaimSmallestSufficient (λ _, micro (clk 0%nat)) sc tok x
  | CClaimLargestInsufficient clk sc tok x n => CClaimLargestInsufficient (λ _, micro (clk 0%nat)) sc tok x n
  | CClaimExact clk sc tok x n => CClaimExact (λ _, micro (clk 0%nat)) sc tok x n
  | CReserveOutpoints clk uid tok ops => CReserveOutpoints (λ _, micro (clk 0%nat)) uid tok (sortedDistinct ops)
  | c => c
  end.

(** The calls on which the stores agree: the clock does not advance within one mint, a
    batch given to PostgreSQL has no two claims on one coin, and the values have a place
    in the schema: coins are positive, amounts below [2^63], and on PostgreSQL output
    indexes and input sizes below [2^31]. *)
Definition comparable (engine : Engine) (c : call) : Prop :=
  match c with
  | CMint clk ms => (∀ i, clk i = clk 0%nat) ∧ Forall (storable engine) ms
  | CClaimSmallestSufficient _ _ _ x | CClaimLargestInsufficient _ _ _ x _ | CClaimExact _ _ _ x _ => x < 2 ^ 63
  | CSpend sps force => (engine = EnginePostgres → one_claim force sps) ∧ bindable engine (sp_Outpoint <$> sps)
  | CRemove ops _ | CReserveOutpoints _ _ _ ops | CReleaseOutpoints _ ops | CUnspend _ ops | CPromote ops _
  | CRemoveByMintTx _ ops | CFreeze ops | CUnfreeze ops => bindable engine ops
  | _ => True
  end.

Lemma mem_call_exec c s : (mem_call c s).2 = exec c s.
Proof. by destruct c. Qed.

Lemma same_answer {A} (f : outcome error A → answer) (o : outcome error A * Store) o' :
  same o o' → (lift_answer f o).1 = (lift_answer f o').1 ∧ sim (lift_answer f o).2 (lift_answer f o').2.
Proof. intros [He Hs]. by rewrite /lift_answer /= He. Qed.

Lemma Close_same s ms : sim s ms → same (Close s) (MemStore.Close ms).
Proof.
  intros [Hal Hcl Hag Hor Hcnt Hsq]. rewrite /Close /MemStore.Close.
  destruct (closed s) eqn:Hc.
  { split; [done|]. constructor; try done. }
  destruct (ownsDB s); [|by split; [|constructor]].
  destruct (computes_SELECT (λ _, ()) (conn s) Hal) as (c'&He&[Ha' Hv' _ Hq' _]).
  rewrite /on_conn /zoom /ping /= He. split; [done|].
  constructor; simpl; rewrite ?Hv' ?Hq'; done.
Qed.

Lemma call_same engine c s ms :
  comparable engine c → sim s ms → fits c ms →
  (sql_call engine c s).1 = (mem_call (as_mem c) ms).1 ∧
  sim (sql_call engine c s).2 (mem_call (as_mem c) ms).2.
Proof.
  intros Hcmp Hsim Hfit. destruct c; simpl; try apply same_answer.
  - destruct Hcmp as [Hclk Hsat]. destruct (Mint_same engine clk ms0 s ms Hsim Hclk Hsat Hfit) as [H1 H2].
    by rewrite /lift_answer /= H1.
  - by apply Remove_same.
  - by apply ClaimSmallestSufficient_same.
  - by apply ClaimLargestInsufficient_same.
  - by apply ClaimExact_same.
  - by apply ReserveOutpoints_same.
  - by apply ReleaseReservation_same.
  - by apply ReleaseOutpoints_same.
  - by apply setPinned_same.
  - by apply setPinned_same.
  - destruct Hcmp as [Hone Hfits]. destruct (Spend_same engine sps force s ms Hsim Hone Hfits) as [H1 H2]. by rewrite /lift_answer /= H1.
  - by apply Unspend_same.
  - by apply RemoveSpentBy_same.
  - by apply Promote_same.
  - by apply RemoveByMintTx_same.
  - by apply setFrozen_same.
  - by apply setFrozen_same.
  - by apply (same_answer AUnit _ (MemStore.Close ms)), Close_same.
Qed.

(** Histories: the answers in order, and the store reached. *)
Fixpoint sql_history (engine : Engine) (cs : list call) (s : Store) : list answer * Store :=
  match cs with
  | [] => ([], s)
  | c :: cs' =>
      let '(a, s') := sql_call engine c s in
      let '(l, s'') := sql_history engine cs' s' in (a :: l, s'')
  end.
Fixpoint mem_history (cs : list call) (s : MemStore.Store) : list answer * MemStore.Store :=
  match cs with
  | [] => ([], s)
  | c :: cs' =>
      let '(a, s') := mem_call c s in
      let '(l, s'') := mem_history cs' s' in (a :: l, s'')
  end.

(** Number of coins a history mints at most. *)
Definition mint_count (c : call) : Z := match c with CMint _ ms => Z.of_nat (length ms) | _ => 0 end.
Definition total_mints (cs : list call) : Z := foldr (λ c acc, mint_count c + acc) 0 cs.

(** A freshly migrated database, on its own or inside a caller's transaction. *)
Definition fresh_conn (engine : Engine) (ambient : bool) : Conn :=
  mkConn ∅ ∅ 0 ∅ ambient (bool_decide (engine = EngineSQLite)) [].
Definition fresh_store (engine : Engine) (ambient owns : bool) : Store :=
  mkStore (fresh_conn engine ambient) false owns.

Lemma fresh_sim engine ambient owns : sim (fresh_store engine ambient owns) MemStore.New.
Proof.
  constructor; simpl.
  - constructor; simpl; [done|done|]. intros op r. by rewrite lookup_empty.
  - done.
  - intros op. by rewrite !lookup_empty.
  - intros ??????. by rewrite lookup_empty.
  - intros op r. by rewrite lookup_empty.
  - apply New_wf.
Qed.

Lemma mint_loop_nextSeq clk ms n s :
  seqs_ok s → MemStore.nextSeq s + Z.of_nat (length ms) < 2 ^ 64 →
  MemStore.nextSeq (MemStore.mint_loop clk ms n s).2 ≤ MemStore.nextSeq s + Z.of_nat (length ms).
Proof.
  revert n s. induction ms as [|m ms IH]; intros n s Hs Hfit; simpl in *; [lia|].
  destruct (mintOne_seqs clk m n s Hs) as [Hs' Hn]; [lia|].
  destruct (MemStore.mintOne clk m n s) as [e [n' s']]; simpl in *. specialize (IH n' s' Hs').
  destruct (MemStore.mint_loop clk ms n' s'); simpl in *. lia.
Qed.

Lemma exec_nextSeq_le c s :
  seqs_ok s → MemStore.nextSeq s + mint_count c < 2 ^ 64 →
  MemStore.nextSeq (exec c s) ≤ MemStore.nextSeq s + mint_count c.
Proof.
  intros Hs Hfit. destruct (mints c) eqn:Hm; [|rewrite exec_nextSeq //; destruct c; simpl in *; lia].
  destruct c; try done. simpl in *. rewrite /MemStore.Mint. destruct (MemStore.closed s); [simpl; lia|].
  pose proof (mint_loop_nextSeq clk ms 0 s Hs Hfit). by destruct (MemStore.mint_loop clk ms 0 s).
Qed.

Lemma history_same engine cs s ms :
  sim s ms → Forall (comparable engine) cs → MemStore.nextSeq ms + total_mints cs < 2 ^ 64 →
  (sql_history engine cs s).1 = (mem_history (as_mem <$> cs) ms).1 ∧
  sim (sql_history engine cs s).2 (mem_history (as_mem <$> cs) ms).2.
Proof.
  revert s ms. induction cs as [|c cs IH]; intros s ms Hsim Hcmp Hfit; csimpl; [done|].
  apply Forall_cons in Hcmp as [Hc Hcmp]. simpl in Hfit.
  assert (∀ cs, 0 ≤ total_mints cs) as Hpos.
  { induction cs0 as [|[] cs0 IHc]; simpl in *; lia. }
  specialize (Hpos cs). assert (mint_count (as_mem c) = mint_count c) as Hmc by by destruct c.
  assert (fits c ms) as Hfits by (destruct c; simpl in *; [lia|done..]).
  destruct (call_same engine c s ms Hc Hsim Hfits) as [Ha Hs].
  pose proof (exec_nextSeq_le (as_mem c) ms (sim_seqs _ _ Hsim)) as Hn. rewrite -mem_call_exec Hmc in Hn.
  destruct (sql_call engine c s) as [a s'], (mem_call (as_mem c) ms) as [a' ms']; simpl in *.
  destruct (IH s' ms' Hs Hcmp) as [IH1 IH2]; [lia|].
  destruct (sql_history engine cs s'), (mem_history (as_mem <$> cs) ms'). simpl in *. by rewrite Ha IH1.
Qed.
End histories.

End SqlRefineMint.
