(* ===== verification/SqlRaces.v ===== *)
(** * SqlRaces: the SQL store while other callers use the database

    [L op] says how the coin at [op] may change at the hands of the other callers.
    [obeys own m]: whatever they commit between the statements of [m], and whichever
    statement the engine refuses, the coin at [op] changes only by steps of [own op] and
    of [L op]; what a rolled back transaction did is gone, what the others did is not. *)
From S2P Require Import Prelude UtxoTypes MemStore StoreContract StoreLifecycle SqlDb SqlStore SqlLogic SqlAgree SqlRefineSpend SqlRefineClaim SqlRefineMint.
Import StoreContract SqlDb SqlStore.
Local Open Scope Z_scope.

Module SqlRaces.

Definition coin_at (t : Table) (op : Outpoint) : option UTXO := scanUTXO op <$> t !! op.

Abbreviation coin_rels := (Outpoint → relation (option UTXO)).

(** Off the rows a transaction holds it sees what is committed. *)
Record coherent (c : Conn) : Prop := {
  coh_view : ∀ op, op ∉ locks c → visible c !! op = committed c !! op;
  coh_idle : in_tx c = false → locks c = ∅;
}.

Lemma lookup_overlay held (mine theirs : Table) op :
  overlay held mine theirs !! op = if decide (op ∈ held) then mine !! op else theirs !! op.
Proof.
  rewrite /overlay lookup_union !map_lookup_filter. case_decide as Hop.
  - trans (mine !! op ∪ None); [|by destruct (mine !! op)]. f_equal.
    + destruct (mine !! op); simpl; [|done]. by rewrite option_guard_True.
    + destruct (theirs !! op); simpl; [|done]. rewrite option_guard_False; [done|]. by intros ?.
  - trans (None ∪ theirs !! op); [|by destruct (theirs !! op)]. f_equal.
    + destruct (mine !! op); simpl; [|done]. by rewrite option_guard_False.
    + destruct (theirs !! op); simpl; [|done]. by rewrite option_guard_True.
Qed.

Lemma coherent_idle c : coherent c → in_tx c = false → visible c = committed c.
Proof.
  intros [Hv Hi] Htx. apply map_eq. intros op. apply Hv. by rewrite Hi.
Qed.

Section races.
Context (L : coin_rels).

Definition legal (es : list event) : Prop :=
  Forall (λ e, ∀ t op, rtc (L op) (coin_at t op) (coin_at (ev_peers e t) op)) es.

Definition either (own : coin_rels) : coin_rels := λ op o o', own op o o' ∨ L op o o'.

Record moves (own : coin_rels) (c c' : Conn) : Prop := {
  mv_coherent : coherent c';
  mv_legal : legal (events c');
  mv_tx : in_tx c' = in_tx c;
  mv_writer : single_writer c' = single_writer c;
  mv_visible : ∀ op, rtc (either own op) (coin_at (visible c) op) (coin_at (visible c') op);
  mv_committed : in_tx c = true →
    ∀ op, rtc (L op) (coin_at (committed c) op) (coin_at (committed c') op);
}.

Definition obeys (own : coin_rels) {A} (m : M Conn error A) : Prop :=
  ∀ c, coherent c → legal (events c) → moves own c (m c).2.

Lemma either_L own op o o' : rtc (L op) o o' → rtc (either own op) o o'.
Proof. apply rtc_subrel. intros ???. by right. Qed.
Lemma either_own own op o o' : rtc (own op) o o' → rtc (either own op) o o'.
Proof. apply rtc_subrel. intros ???. by left. Qed.

Lemma moves_refl own c : coherent c → legal (events c) → moves own c c.
Proof. intros. by constructor. Qed.

Lemma moves_trans own c1 c2 c3 : moves own c1 c2 → moves own c2 c3 → moves own c1 c3.
Proof.
  intros [? ? Ht ? Hv Hc] [? ? Ht' ? Hv' Hc']. constructor; [done|done|congruence|congruence| |].
  - intros op. etrans; [apply Hv|apply Hv'].
  - intros Htx op. etrans; [by apply Hc|]. apply Hc'. congruence.
Qed.

Lemma moves_mono (own own' : coin_rels) c c' :
  (∀ op o o', own op o o' → own' op o o') → moves own c c' → moves own' c c'.
Proof.
  intros Ho [? ? ? ? Hv ?]. constructor; try done. intros op. eapply rtc_subrel; [|apply Hv].
  intros ?? [?|?]; [left|right]; auto.
Qed.

(** A call that fails outside a transaction has done nothing itself. *)
Definition nobody : coin_rels := λ _ _ _, False.
Definition own_of (own : coin_rels) {A} (c : Conn) (o : outcome error A) : coin_rels :=
  if in_tx c then own else match o with Ret _ => own | _ => nobody end.
Definition moves_out (own : coin_rels) {A} (c : Conn) (r : outcome error A * Conn) : Prop :=
  moves (own_of own c r.1) c r.2.

Lemma moves_out_moves own {A} c (r : outcome error A * Conn) : moves_out own c r → moves own c r.2.
Proof. apply moves_mono. intros op o o'. rewrite /own_of. destruct (in_tx c); [done|]. by destruct r.1. Qed.

Lemma moves_nobody own {A} c (r : outcome error A * Conn) : moves nobody c r.2 → moves_out own c r.
Proof. by apply moves_mono. Qed.

(** ** Statements *)

(** What the others do before a statement. *)
Lemma arrive_moves own c :
  coherent c → legal (events c) →
  moves own c (arrive c).2 ∧
  (∀ op, rtc (L op) (coin_at (committed c) op) (coin_at (committed (arrive c).2) op)) ∧
  (∀ op, op ∈ locks c → visible (arrive c).2 !! op = visible c !! op) ∧ locks (arrive c).2 = locks c.
Proof.
  intros [Hv Hi] Hl. rewrite /arrive. destruct (events c) as [|e es] eqn:He; simpl.
  { split_and!; try done. by apply moves_refl; [|rewrite He]. }
  apply Forall_cons in Hl as [Hp Hl].
  destruct (single_writer c && in_tx c); simpl.
  { by split_and!. }
  assert (∀ op, rtc (L op) (coin_at (committed c) op)
    (coin_at (overlay (locks c) (committed c) (ev_peers e (committed c))) op)) as Hcom.
  { intros op. rewrite /coin_at lookup_overlay. case_decide; [done|]. apply Hp. }
  split_and!; [|done| |done].
  - constructor; simpl; [constructor; simpl|done|done|done| |done].
    + intros op Hop. by rewrite lookup_overlay decide_False.
    + done.
    + intros op. rewrite /coin_at lookup_overlay. case_decide as Hop; [done|].
      rewrite (Hv op Hop). by apply either_L, Hcom.
  - intros op Hop. by rewrite lookup_overlay decide_True.
Qed.

Lemma statement_out own {A} c
    (f : (Outpoint → bool) → Table → Z → A * (Table * Z * gset Outpoint)) :
  coherent c → legal (events c) →
  (∀ lk q a t' q' l, f lk (visible (arrive c).2) q = (a, (t', q', l)) →
     (∀ op, op ∉ l → t' !! op = visible (arrive c).2 !! op) ∧
     ∀ op, rtc (own op) (coin_at (visible (arrive c).2) op) (coin_at t' op)) →
  moves_out own c (statement f c).
Proof.
  intros Hc Hl Hf. destruct (arrive_moves nobody c Hc Hl) as (Hmv&Hcom&_&_).
  rewrite /statement. destruct (arrive c) as [e c1]. simpl in *.
  destruct (ev_fault e) as [x|]; [by apply moves_nobody|]. destruct Hmv as [Hc1 Hl1 Htx1 Hw1 Hv1 Hcm1].
  destruct (f (ev_locked e) (visible c1) (utxo_seq c1)) as [a [[t q] l]] eqn:Hfe. simpl.
  destruct (Hf _ _ _ _ _ _ Hfe) as [Hout Hown].
  assert (∀ op, rtc (either own op) (coin_at (visible c) op) (coin_at t op)) as Hpath.
  { intros op. etrans; [|by apply either_own, Hown]. eapply rtc_subrel; [|apply Hv1].
    intros ?? [[]|?]. by right. }
  rewrite /settle /moves_out /own_of /=. 
  assert ((if in_tx c then own else own) = own) as -> by by destruct (in_tx c).
  destruct (in_tx c1) eqn:Htx; simpl.
  - constructor; simpl; [constructor; simpl|done|congruence|done|done|done].
    + intros op [Hop1 Hop2]%not_elem_of_union. rewrite Hout //. by apply Hc1.
    + congruence.
  - constructor; simpl; [by constructor|done|congruence|done|done|congruence].
Qed.

Lemma statement_moves own {A} c
    (f : (Outpoint → bool) → Table → Z → A * (Table * Z * gset Outpoint)) :
  coherent c → legal (events c) →
  (∀ lk q a t' q' l, f lk (visible (arrive c).2) q = (a, (t', q', l)) →
     (∀ op, op ∉ l → t' !! op = visible (arrive c).2 !! op) ∧
     ∀ op, rtc (own op) (coin_at (visible (arrive c).2) op) (coin_at t' op)) →
  moves own c (statement f c).2.
Proof. intros. by apply moves_out_moves, statement_out. Qed.

Lemma obeys_statement own {A}
    (f : (Outpoint → bool) → Table → Z → A * (Table * Z * gset Outpoint)) :
  (∀ lk t q a t' q' l, f lk t q = (a, (t', q', l)) →
     (∀ op, op ∉ l → t' !! op = t !! op) ∧ ∀ op, rtc (own op) (coin_at t op) (coin_at t' op)) →
  obeys own (statement f).
Proof. intros Hf c Hc Hl. apply statement_moves; [done..|]. intros. by eapply Hf. Qed.

Lemma obeys_ret own {A} (a : A) : obeys own (mret a).
Proof. intros c Hc Hl. by apply moves_refl. Qed.
Lemma obeys_throw own {A} (e : error) : obeys own (throw (A := A) e).
Proof. intros c Hc Hl. by apply moves_refl. Qed.
Lemma obeys_binding own {A} ok (m : M Conn error A) : obeys own m → obeys own (binding ok m).
Proof. intros Hm. destruct ok; [done|apply obeys_throw]. Qed.
Lemma obeys_lift own {A} (o : outcome error A) : obeys own (lift o).
Proof. intros c Hc Hl. by apply moves_refl. Qed.

Lemma obeys_bind own {A B} (m : M Conn error A) (k : A → M Conn error B) :
  obeys own m → (∀ a, obeys own (k a)) → obeys own (m ≫= k).
Proof.
  intros Hm Hk c Hc Hl. specialize (Hm c Hc Hl). rewrite /mbind /M_bind.
  destruct (m c) as [[a|e|] c1]; simpl in *; [|done..].
  eapply moves_trans; [exact Hm|]. apply Hk; apply Hm.
Qed.

(** What a computation returns, when it returns. *)
Definition yields {A} (m : M Conn error A) (Q : A → Prop) : Prop := ∀ c a c', m c = (Ret a, c') → Q a.

Lemma yields_ret {A} (a : A) (Q : A → Prop) : Q a → yields (mret a) Q.
Proof. by intros ? c a' c' [= -> ->]. Qed.

Lemma yields_bind {A B} (m : M Conn error A) (k : A → M Conn error B) Q R :
  yields m Q → (∀ a, Q a → yields (k a) R) → yields (m ≫= k) R.
Proof.
  intros Hm Hk c b c'. rewrite /mbind /M_bind. destruct (m c) as [[a|e|] c1] eqn:He; [|done..].
  apply Hk. by eapply Hm.
Qed.

Lemma yields_any {A} (m : M Conn error A) : yields m (λ _, True).
Proof. done. Qed.

Lemma yields_for_each {A B} (m : A → M Conn error B) (Q : A → B → Prop) l :
  (∀ x, x ∈ l → yields (m x) (Q x)) → yields (for_each m l) (Forall2 Q l).
Proof.
  induction l as [|x l IH]; intros Hm; [by apply yields_ret|].
  eapply yields_bind; [apply Hm; left|]. intros y Hy. eapply yields_bind; [apply IH; intros; apply Hm; by right|].
  intros ys Hys. apply yields_ret. by constructor.
Qed.

Lemma obeys_bind_yields own {A B} (m : M Conn error A) (k : A → M Conn error B) Q :
  obeys own m → yields m Q → (∀ a, Q a → obeys own (k a)) → obeys own (m ≫= k).
Proof.
  intros Hm HQ Hk c Hc Hl. specialize (Hm c Hc Hl). rewrite /mbind /M_bind.
  destruct (m c) as [[a|e|] c1] eqn:He; simpl in *; [|done..].
  eapply moves_trans; [exact Hm|]. apply Hk; [by eapply HQ|apply Hm..].
Qed.

Lemma obeys_if own {A} (b : bool) (m1 m2 : M Conn error A) :
  obeys own m1 → obeys own m2 → obeys own (if b then m1 else m2).
Proof. by destruct b. Qed.

Lemma obeys_for_each own {A B} (m : A → M Conn error B) l :
  (∀ x, x ∈ l → obeys own (m x)) → obeys own (for_each m l).
Proof.
  induction l as [|x l IH]; intros Hm; [apply obeys_ret|]. apply obeys_bind; [apply Hm; left|].
  intros y. apply obeys_bind; [|intros; apply obeys_ret]. apply IH. intros. apply Hm. by right.
Qed.

(** ** Transactions *)

Lemma retry_out own {A} (m : M Conn error A) n c :
  (∀ c, coherent c → legal (events c) → moves_out own c (m c)) →
  coherent c → legal (events c) → moves_out own c (retry_from n m c).
Proof.
  intros Hm. revert c. induction n as [|n IH]; intros c Hc Hl; specialize (Hm c Hc Hl) as Hmc; simpl;
    destruct (m c) as [[a|e|] c1]; simpl in *; try done; destruct (IsLockError e); try done.
  pose proof (moves_out_moves _ _ _ Hmc) as Hmv. specialize (IH c1 (mv_coherent _ _ _ Hmv) (mv_legal _ _ _ Hmv)).
  rewrite /moves_out /own_of (mv_tx _ _ _ Hmv) in IH. eapply moves_trans; [|exact IH].
  revert Hmc. rewrite /moves_out /own_of. destruct (in_tx c); [done|]. by apply moves_mono.
Qed.

Lemma obeys_retry own {A} (m : M Conn error A) n : obeys own m → obeys own (retry_from n m).
Proof.
  intros Hm. induction n as [|n IH]; intros c Hc Hl; specialize (Hm c Hc Hl) as Hmc; simpl;
    destruct (m c) as [[a|e|] c1]; simpl in *; try done; destruct (IsLockError e); try done.
  eapply moves_trans; [exact Hmc|]. apply IH; apply Hmc.
Qed.

Lemma rollback_moves own c0 c :
  in_tx c0 = false → coherent c0 → coherent c → legal (events c) → single_writer c = single_writer c0 →
  (∀ op, rtc (L op) (coin_at (committed c0) op) (coin_at (committed c) op)) →
  moves own c0 (Rollback c).
Proof.
  intros Htx Hc0 Hc Hl Hw Hcom. constructor; simpl; [by constructor|done|done|done| |congruence].
  intros op. rewrite (coherent_idle c0 Hc0 Htx). apply either_L, Hcom.
Qed.

(** In an open transaction, of a single-writer database or not. *)
Definition obeys_in (sw : bool) (own : coin_rels) {A} (m : M Conn error A) : Prop :=
  ∀ c, in_tx c = true → single_writer c = sw → coherent c → legal (events c) → moves own c (m c).2.

Lemma obeys_obeys_in sw own {A} (m : M Conn error A) : obeys own m → obeys_in sw own m.
Proof. intros Hm c _ _. apply Hm. Qed.

Lemma transaction_out own {A} (m : M Conn error A) c :
  obeys_in (single_writer c) own m → in_tx c = false → coherent c → legal (events c) →
  moves_out own c (transaction m c).
Proof.
  intros Hm Htx Hc Hl. rewrite /transaction /BeginTx.
  destruct (arrive_moves nobody c Hc Hl) as (Hmv&Hcom&_&Hlk). destruct (arrive c) as [e c1]. simpl in *.
  destruct (ev_fault e) as [x|]; [by apply moves_nobody|]. pose proof Hmv as [Hc1 Hl1 Htx1 Hw1 Hv1 _].
  set (c2 := set_tx true (committed c1) (committed c1) c1).
  assert (coherent c2) as Hc2 by by constructor.
  specialize (Hm c2 eq_refl Hw1 Hc2 Hl1). destruct (m c2) as [[a|x|] c3]; simpl in *.
  - pose proof Hm as [Hc3 Hl3 Htx3 Hw3 Hv3 Hcm3]. rewrite /Commit. simpl in Hw3.
    destruct (arrive_moves own c3 Hc3 Hl3) as (Hmv4&Hcom4&_&_). destruct (arrive c3) as [e' c4]. simpl in *.
    pose proof (mv_writer _ _ _ Hmv4). destruct (ev_fault e') as [y|]; simpl.
    + apply moves_nobody, rollback_moves; [done..|apply Hmv4|apply Hmv4|congruence|]. intros op. etrans; [apply Hcom|].
      etrans; [by apply Hcm3|apply Hcom4].
    + rewrite /moves_out /own_of Htx. constructor; simpl; [by constructor|apply Hmv4|done|congruence| |congruence].
      intros op. rewrite (coherent_idle c Hc Htx). etrans; [apply either_L, Hcom|].
      etrans; [apply Hv3|apply Hmv4].
  - pose proof (mv_writer _ _ _ Hm). apply moves_nobody, rollback_moves; [done..|apply Hm|apply Hm|simpl in *; congruence|].
    intros op. etrans; [apply Hcom|]. by apply Hm.
  - pose proof (mv_writer _ _ _ Hm). apply moves_nobody, rollback_moves; [done..|apply Hm|apply Hm|simpl in *; congruence|].
    intros op. etrans; [apply Hcom|]. by apply Hm.
Qed.

Lemma transaction_ret own {A} (m : M Conn error A) c a c' :
  obeys_in (single_writer c) own m → coherent c → legal (events c) → transaction m c = (Ret a, c') →
  ∃ c1 c2, coherent c1 ∧ legal (events c1) ∧ m c1 = (Ret a, c2) ∧
    ∀ op, rtc (L op) (coin_at (visible c2) op) (coin_at (visible c') op).
Proof.
  intros Hm Hc Hl. rewrite /transaction /BeginTx.
  destruct (arrive_moves nobody c Hc Hl) as (Hmv&Hcom&_&Hlk). destruct (arrive c) as [e c1]. simpl in *.
  destruct (ev_fault e) as [x|]; [done|]. pose proof Hmv as [Hc1 Hl1 Htx1 Hw1 Hv1 _].
  set (c2 := set_tx true (committed c1) (committed c1) c1).
  assert (coherent c2) as Hc2 by by constructor. specialize (Hm c2 eq_refl Hw1 Hc2 Hl1).
  destruct (m c2) as [[b|x|] c3] eqn:He; [|done..]. simpl in Hm. rewrite /Commit.
  destruct (arrive_moves nobody c3 (mv_coherent _ _ _ Hm) (mv_legal _ _ _ Hm)) as (Hmv4&_&_&_).
  destruct (arrive c3) as [e' c4]. destruct (ev_fault e'); [done|]. intros [= -> <-].
  exists c2, c3. split_and!; [done..|]. intros op. simpl in *. eapply rtc_subrel; [|apply Hmv4]. by intros ?? [[]|].
Qed.

Lemma withTx_out own {A} (m : M Conn error A) c :
  obeys_in (single_writer c) own m → coherent c → legal (events c) → moves_out own c (withTx m c).
Proof.
  intros Hm Hc Hl. rewrite /withTx. destruct (in_tx c) eqn:Htx.
  { rewrite /moves_out /own_of Htx. by apply Hm. }
  rewrite /WithRetry. generalize maxLockRetries as n. intros n. revert c Hm Hc Hl Htx.
  induction n as [|n IH]; intros c Hm Hc Hl Htx; simpl;
    pose proof (transaction_out own m c Hm Htx Hc Hl) as Hmv;
    destruct (transaction m c) as [[a|e|] c1]; simpl in *; try done; destruct (IsLockError e); try done.
  rewrite /moves_out /own_of Htx /= in Hmv. specialize (IH c1). rewrite (mv_writer _ _ _ Hmv) in IH.
  specialize (IH Hm (mv_coherent _ _ _ Hmv) (mv_legal _ _ _ Hmv)). rewrite (mv_tx _ _ _ Hmv) in IH.
  specialize (IH Htx). rewrite /moves_out /own_of (mv_tx _ _ _ Hmv) in IH.
  eapply moves_trans; [|exact IH]. by eapply moves_mono; [|exact Hmv].
Qed.

(** A successful transaction is one run of its body, with what the others commit before
    and after. *)
Lemma withTx_ret own {A} (m : M Conn error A) c a c' :
  obeys_in (single_writer c) own m → coherent c → legal (events c) → withTx m c = (Ret a, c') →
  ∃ c1 c2, coherent c1 ∧ legal (events c1) ∧ m c1 = (Ret a, c2) ∧
    ∀ op, rtc (L op) (coin_at (visible c2) op) (coin_at (visible c') op).
Proof.
  intros Hm Hc Hl. rewrite /withTx. destruct (in_tx c) eqn:Htx; [by exists c, c'|].
  rewrite /WithRetry. generalize maxLockRetries as n. intros n. revert c Hm Hc Hl Htx.
  induction n as [|n IH]; intros c Hm Hc Hl Htx; simpl;
    pose proof (transaction_out own m c Hm Htx Hc Hl) as Hmv; pose proof (transaction_ret own m c a c' Hm Hc Hl) as Hr;
    destruct (transaction m c) as [[b|e|] c1]; try done; try (by intros [= -> ->]; apply Hr);
    destruct (IsLockError e); try done.
  rewrite /moves_out /own_of Htx /= in Hmv. apply IH; [by rewrite (mv_writer _ _ _ Hmv)|apply Hmv..|].
  by rewrite (mv_tx _ _ _ Hmv).
Qed.

Lemma withTx_moves own {A} (m : M Conn error A) c :
  obeys_in (single_writer c) own m → coherent c → legal (events c) → moves own c (withTx m c).2.
Proof. intros. by apply moves_out_moves, withTx_out. Qed.

Lemma obeys_withTx own {A} (m : M Conn error A) : obeys own m → obeys own (withTx m).
Proof. intros Hm c Hc Hl. apply withTx_moves; [|done..]. intros c' _ _. apply Hm. Qed.

(** ** The statements of the store *)

Section statements.
Context `{MapRange} (own : coin_rels).

Lemma obeys_SELECT {A} (q : Table → A) : obeys own (SELECT q).
Proof. apply obeys_statement. intros lk t c a t' q' l [= <- <- <- <-]. done. Qed.

Lemma obeys_SELECT_FOR_UPDATE op : obeys own (SELECT_FOR_UPDATE op).
Proof. apply obeys_statement. intros lk t c a t' q' l [= <- <- <- <-]. done. Qed.

Lemma UPDATE_moves P g c :
  coherent c → legal (events c) →
  (∀ op r, visible (arrive c).2 !! op = Some r → P op r = true →
     own op (Some (scanUTXO op r)) (Some (scanUTXO op (g r)))) →
  moves own c (UPDATE P g c).2.
Proof.
  intros Hc Hl HP. apply statement_moves; [done..|]. set (t := visible (arrive c).2) in *.
  intros lk q a t' q' l [= <- <- <- <-].
  assert (∀ op, map_imap (λ op r, Some (if P op r then g r else r)) t !! op =
    (λ r, if P op r then g r else r) <$> t !! op) as Hlk.
  { intros op. rewrite map_lookup_imap. by destruct (t !! op). }
  split; intros op.
  - intros Hop. rewrite Hlk. destruct (t !! op) as [r|] eqn:Hr; [|done]. simpl.
    destruct (P op r) eqn:HPr; [|done]. destruct Hop. apply elem_of_dom. exists r.
    by rewrite /matching map_lookup_filter Hr /= option_guard_True.
  - rewrite /coin_at Hlk. destruct (t !! op) as [r|] eqn:Hr; [|done]. simpl.
    destruct (P op r) eqn:HPr; [|done]. by apply rtc_once, HP.
Qed.

Lemma obeys_UPDATE P g :
  (∀ op r, P op r = true → own op (Some (scanUTXO op r)) (Some (scanUTXO op (g r)))) →
  obeys own (UPDATE P g).
Proof. intros HP c Hc Hl. apply UPDATE_moves; auto. Qed.

Lemma obeys_DELETE P :
  (∀ op r, P op r = true → own op (Some (scanUTXO op r)) None) → obeys own (DELETE P).
Proof.
  intros HP. apply obeys_statement. intros lk t q a t' q' l [= <- <- <- <-].
  assert (∀ op, filter (λ kr, P kr.1 kr.2 = false) t !! op =
    r ← t !! op; if P op r then None else Some r) as Hlk.
  { intros op. rewrite map_lookup_filter. destruct (t !! op) as [r|]; [|done]. simpl.
    destruct (P op r); [by rewrite option_guard_False|by rewrite option_guard_True]. }
  split; intros op.
  - intros Hop. rewrite Hlk. destruct (t !! op) as [r|] eqn:Hr; [|done]. simpl.
    destruct (P op r) eqn:HPr; [|done]. destruct Hop. apply elem_of_dom. exists r.
    by rewrite /matching map_lookup_filter Hr /= option_guard_True.
  - rewrite /coin_at Hlk. destruct (t !! op) as [r|]; [|done]. simpl.
    destruct (P op r) eqn:HPr; [|done]. by apply rtc_once, HP.
Qed.

Lemma obeys_INSERT op row next :
  (∀ q, own op None (Some (scanUTXO op (row q)))) → obeys own (INSERT op row next).
Proof.
  intros Hrow. apply obeys_bind; [|intros []; [apply obeys_ret|apply obeys_throw]].
  apply obeys_statement. intros lk t q a t' q' l Hf. simpl in Hf.
  destruct (satoshis (row (next q)) <=? 0); [by simplify_eq|].
  destruct (t !! op) eqn:Hr; simplify_eq; [done|]. split; intros k.
  - intros Hk. rewrite lookup_insert_ne //. set_solver.
  - rewrite /coin_at. destruct (decide (k = op)) as [->|Hne]; [|by rewrite lookup_insert_ne].
    rewrite lookup_insert_eq Hr. apply rtc_once, Hrow.
Qed.

Lemma obeys_draw : obeys own draw_seq.
Proof. apply obeys_statement. intros lk t c a t' q' l [= <- <- <- <-]. done. Qed.
End statements.

End races.
End SqlRaces.

(** * SqlRaceOps: every call of the SQL store keeps the coins' lifecycle, races included

    For each operation, on both engines: its statements change a coin only by steps the
    store's documentation allows for the call ([StoreContract.lifecycle]). *)
Import StoreContract SqlDb SqlStore SqlRaces SqlAgree SqlRefineSpend SqlRefineSelect SqlRefineMint.
Local Open Scope Z_scope.

Module SqlRaceOps.

(** Runs through the code: sequencing, branches and reads. *)
Ltac obeying :=
  repeat first
    [ apply obeys_ret | apply obeys_throw | apply obeys_lift | apply obeys_SELECT
    | apply obeys_SELECT_FOR_UPDATE | apply obeys_draw | apply obeys_binding
    | apply obeys_bind; [|intro] | case_match ].

Ltac conditions :=
  repeat match goal with
  | H : _ && _ = true |- _ => apply andb_prop in H as [??]
  | H : bool_decide _ = true |- _ => apply bool_decide_eq_true in H
  | H : (_ =? _) = true |- _ => apply Z.eqb_eq in H
  | H : at_op _ _ = true |- _ => apply bool_decide_eq_true in H
  | H : is_null ?x = true |- _ =>
      let E := fresh "E" in destruct x eqn:E; [discriminate H|clear H]
  end.

Lemma candidate_free sc r op :
  claimCandidate sc r = true →
  in_scope sc (scanUTXO op r) ∧ free (scanUTXO op r) ∧ u_Frozen (scanUTXO op r) = false.
Proof.
  rewrite /claimCandidate /notFrozen => Hc. conditions. rewrite /in_scope /free /= /str E E0.
  destruct (frozen r); [done|]. naive_solver.
Qed.

Section ops.
Context `{MapRange} (L : coin_rels) (engine : Engine).

Lemma obeys_mintOne clk ms now m :
  m ∈ ms → obeys L (lifecycle (CMint clk ms)) (mintOne engine now m).
Proof.
  intros Hm. rewrite /mintOne. destruct (ValidateMint m) eqn:Hv; [apply obeys_throw|].
  apply obeys_bind; [|intros n; obeying].
  rewrite /insertMint. destruct engine; [|apply obeys_bind; [apply obeys_draw|intros k]];
    (apply obeys_binding, obeys_INSERT; intros q; by apply (lc_mint clk ms m (TsGet (Some (EncTime now))))).
Qed.

Lemma obeys_removeOne ops force op :
  op ∈ ops → obeys L (lifecycle (CRemove ops force)) (removeOne engine force op).
Proof.
  intros Hop. apply obeys_binding. destruct force.
  - apply obeys_bind; [|intros; apply obeys_ret]. apply obeys_DELETE. intros op' r HP. conditions.
    subst op'. apply lc_remove; [done|by left].
  - generalize guardAttempts. intros n. induction n as [|n IH]; simpl; [apply obeys_ret|].
    apply obeys_bind.
    + apply obeys_DELETE. intros op' r HP. conditions. subst op'. apply lc_remove; [done|right].
      rewrite /free /= /str E E0. split; [done|]. match goal with H : notFrozen r = true |- _ => revert H end.
      rewrite /notFrozen. by destruct (frozen r).
    + intros k. destruct (k =? 1); [apply obeys_ret|]. apply obeys_bind.
      * rewrite /classifyRemoveRefusal. obeying.
      * intros [e []]; [done|apply obeys_ret].
Qed.

Lemma candidates_in lk sh sc bound n (t : Table) op r :
  (op, r) ∈ candidates engine lk sh sc bound n t →
  t !! op = Some r ∧ claimCandidate sc r = true ∧ compares sh bound (satoshis r) = true ∧
  (engine = EnginePostgres → lk op = false).
Proof.
  rewrite /candidates. set (Q := λ kr : Outpoint * Row, _ ∧ _ ∧ _).
  destruct (selection_spec t Q (order_of sh) n) as [_ Hin]. intros [Hr (?&?&Hlk)]%Hin. split_and!; try done.
  intros ->. by rewrite bool_decide_true in Hlk.
Qed.

(** The three claims, whichever rows the engine skips. *)
Lemma claimOnce_out c sh sc bound n tok now (P : Z → Prop) c0 :
  claim_of c = Some (sc, tok, P) → tok ≠ "" → (∀ v, compares sh bound v = true → P v) →
  coherent c0 → legal L (events c0) →
  moves_out L (lifecycle c) c0 (claimOnce engine sh sc bound n tok now c0).
Proof.
  intros Hc Htok HP Hc0 Hl. rewrite /claimOnce /binding.
  destruct (int8 bound); [|by apply moves_refl]. apply statement_out; [done..|]. set (t := visible (arrive c0).2).
  intros lk q a t' q' l [= <- <- <- <-].
  set (cand := (candidates engine lk sh sc bound n t).*1).
  assert (∀ op, map_imap (λ op r, Some (if bool_decide (op ∈ cand)
      then SET_reserved (Some tok) (Some now) r else r)) t !! op =
    (λ r, if bool_decide (op ∈ cand) then SET_reserved (Some tok) (Some now) r else r) <$> t !! op) as Hlk.
  { intros op. rewrite map_lookup_imap. by destruct (t !! op). }
  split; intros op.
  - intros Hop. rewrite Hlk. destruct (t !! op) as [r|] eqn:Hr; [|done]. simpl.
    case_bool_decide as Hin; [|done]. destruct Hop. apply elem_of_dom. exists r.
    rewrite /matching map_lookup_filter Hr /= option_guard_True //. by apply bool_decide_eq_true.
  - rewrite /coin_at Hlk. destruct (t !! op) as [r|] eqn:Hr; [|done]. simpl.
    case_bool_decide as Hin; [|done]. apply list_elem_of_fmap in Hin as ([op' r']&->&Hin).
    apply candidates_in in Hin as (Hr'&Hcand&Hcmp&_). simpl in *. simplify_eq.
    apply (candidate_free _ _ op') in Hcand as (?&?&?). apply rtc_once.
    by apply (lc_claim c sc tok P op' (scanUTXO op' r) (TsGet (Some now))); try apply HP.
Qed.

Lemma obeys_update_all c ops (P : Row → bool) g :
  (∀ op r, op ∈ ops → P r = true → lifecycle c op (Some (scanUTXO op r)) (Some (scanUTXO op (g r)))) →
  obeys L (lifecycle c) (update_all engine ops P g).
Proof.
  intros HP. rewrite /update_all. case_decide; [apply obeys_ret|]. case_bool_decide.
  - apply obeys_bind; [|intros; apply obeys_ret]. apply obeys_binding, obeys_UPDATE. intros op r Hc. conditions.
    apply HP; [|done]. match goal with H : pgKeyMatch _ _ = true |- _ => revert H end.
    by rewrite pgKeyMatch_eq bool_decide_eq_true.
  - apply obeys_bind; [|intros; apply obeys_ret]. apply obeys_for_each. intros op Hop.
    apply obeys_bind; [|intros; apply obeys_ret]. apply obeys_UPDATE. intros op' r Hc. conditions.
    subst op'. by apply HP.
Qed.

Lemma obeys_freeze ops (b : bool) :
  obeys L (lifecycle (if b then CFreeze ops else CUnfreeze ops)) (freeze_rows engine ops b).
Proof.
  rewrite /freeze_rows. case_decide; [apply obeys_ret|]. case_bool_decide.
  - apply obeys_bind; [|intros; apply obeys_ret]. apply obeys_binding, obeys_UPDATE. intros op r Hc.
    rewrite pgKeyMatch_eq bool_decide_eq_true in Hc. by destruct b; constructor.
  - apply obeys_bind; [|intros; apply obeys_ret]. apply obeys_for_each. intros op Hop.
    apply obeys_bind; [|intros; apply obeys_ret]. apply obeys_UPDATE. intros op' r Hc. conditions.
    subst op'. by destruct b; constructor.
Qed.

(** Spending: the guard of the write is the lifecycle's. *)
Lemma spend_guard_step sps force sp r :
  sp ∈ sps → ValidateSpend sp = None → spend_guard force (sp_Reservation sp) r = true →
  lifecycle (CSpend sps force) (sp_Outpoint sp) (Some (scanUTXO (sp_Outpoint sp) r))
    (Some (scanUTXO (sp_Outpoint sp) (spend_row (sp_SpendingTxID sp) r))).
Proof.
  intros Hsp Hv. rewrite /spend_guard => Hg. conditions. apply (lc_spend sps sp force); [done|done|].
  destruct force; [by left|right]. simpl in *. conditions. rewrite /ValidateSpend in Hv.
  match goal with H : reserved_by r = _ |- _ => rewrite /= H /= end.
  match goal with H : notFrozen r = true |- _ => revert H end. rewrite /notFrozen.
  destruct (frozen r); [done|]. by case_decide.
Qed.

Lemma obeys_spendOne sps force sp :
  sp ∈ sps → obeys L (lifecycle (CSpend sps force)) (spendOne force sp).
Proof.
  intros Hsp. rewrite /spendOne. destruct (ValidateSpend sp) eqn:Hv; [apply obeys_ret|].
  generalize guardAttempts. intros n. induction n as [|n IH]; simpl; [apply obeys_ret|].
  apply obeys_bind.
  - apply obeys_bind; [|intros; apply obeys_ret]. apply obeys_UPDATE. intros op r Hc. conditions.
    subst op. by apply spend_guard_step.
  - intros k. destruct (k =? 1); [apply obeys_ret|]. apply obeys_bind; [rewrite /classifySpendFailure; obeying|].
    intros [e []]; [done|apply obeys_ret].
Qed.

Lemma obeys_write_group sps force g :
  keyed force g →
  (∀ x, x ∈ sg_ops g → x.2 ∈ sps ∧ ValidateSpend x.2 = None) →
  obeys L (lifecycle (CSpend sps force)) (write_group force g).
Proof.
  intros Hk Hin. apply obeys_bind; [|intros; apply obeys_ret]. apply obeys_binding, obeys_UPDATE. intros op r Hc. conditions.
  match goal with H : pgKeyMatch _ _ = true |- _ => revert H end.
  rewrite pgKeyMatch_eq bool_decide_eq_true. intros (x&->&Hx)%list_elem_of_fmap.
  destruct (Hin x Hx) as [Hsp Hv]. pose proof (Hk x Hx) as Hkey. revert Hkey.
  rewrite /group_key /key_of. intros [= Hw Hr]. rewrite -Hw. apply spend_guard_step; try done.
  match goal with H : spend_guard _ _ _ = true |- _ => revert H end. rewrite -Hr /spend_guard.
  by destruct force.
Qed.

Lemma obeys_spendWriteSet sps force xs :
  (∀ x, x ∈ xs → x.2 ∈ sps ∧ ValidateSpend x.2 = None) →
  obeys L (lifecycle (CSpend sps force)) (spendWriteSet force xs).
Proof.
  intros Hxs. apply obeys_bind; [|intros; apply obeys_ret]. apply obeys_for_each. intros g Hg.
  destruct (groupSpends_spec force xs) as (Hperm&_&Hk). apply obeys_write_group.
  - rewrite ->Forall_forall in Hk. by apply Hk.
  - intros x Hx. apply Hxs. rewrite -Hperm. apply elem_of_concat. exists (sg_ops g).
    split; [done|]. by apply list_elem_of_fmap_2.
Qed.

(** The items left open are items of the batch. *)
Lemma yields_spendWriteSet force xs : yields (spendWriteSet force xs) (λ misses, ∀ x, x ∈ misses → x ∈ xs).
Proof.
  destruct (groupSpends_spec force xs) as (Hperm&_&_). eapply yields_bind.
  { apply (yields_for_each _ (λ g misses, ∀ x, x ∈ misses → x ∈ sg_ops g)). intros g Hg.
    eapply yields_bind; [apply yields_any|]. intros rs _. apply yields_ret. intros x.
    rewrite list_elem_of_filter. by intros [_ ?]. }
  intros ms Hms. apply yields_ret. intros x (l&Hx&Hl)%elem_of_concat. rewrite -Hperm.
  apply list_elem_of_lookup in Hl as [i Hi]. destruct (Forall2_lookup_r _ _ _ _ _ Hms Hi) as (g&Hg&Hsub).
  apply elem_of_concat. exists (sg_ops g). split; [by apply Hsub|].
  apply list_elem_of_fmap_2. by eapply list_elem_of_lookup_2.
Qed.

Lemma classify_misses_in force st misses errs x :
  x ∈ (classify_misses force st misses errs).1 → x ∈ misses.
Proof.
  revert errs. induction misses as [|y misses IH]; intros errs; simpl; [done|].
  destruct (spend_verdict force y.2 (st !! sp_Outpoint y.2)) as [e retry].
  specialize (IH (match e with Some e => <[y.1 := e]> errs | None => errs end)).
  destruct (classify_misses force st misses _) as [u errs']. simpl in *.
  rewrite elem_of_app elem_of_cons. intros [Hx|Hx]; [|by right; apply IH].
  left. destruct retry; [by apply list_elem_of_singleton in Hx|by apply elem_of_nil in Hx].
Qed.

Lemma obeys_spend_rounds sps force n xs errs :
  (∀ x, x ∈ xs → x.2 ∈ sps ∧ ValidateSpend x.2 = None) →
  obeys L (lifecycle (CSpend sps force)) (spend_rounds n force xs errs).
Proof.
  revert xs errs. induction n as [|n IH]; intros xs errs Hxs; [apply obeys_ret|]. simpl.
  case_decide; [apply obeys_ret|]. eapply obeys_bind_yields; [by apply obeys_spendWriteSet|apply yields_spendWriteSet|].
  intros misses Hms. simpl. case_decide; [apply obeys_ret|].
  eapply (obeys_bind_yields _ _ _ _ (λ ue, ∀ x, x ∈ ue.1 → x ∈ misses)).
  - rewrite /classifySpendMisses. obeying.
  - eapply yields_bind; [apply yields_any|]. intros st _. apply yields_ret. intros x. apply classify_misses_in.
  - intros [un errs'] Hun. case_decide; [apply obeys_ret|]. apply IH. intros x Hx. auto.
Qed.

Lemma obeys_spend_body sps force sw :
  obeys_in L sw (lifecycle (CSpend sps force))
    (if bool_decide (engine = EnginePostgres) then spendSet sps force
     else for_each (spendOne force) sps).
Proof.
  apply obeys_obeys_in, obeys_if.
  - apply obeys_bind; [|intros; apply obeys_ret]. apply obeys_spend_rounds. intros x.
    rewrite list_elem_of_filter. intros [Hv (i&y&->&Hy)%elem_of_lookup_imap]. split; [|done].
    by eapply list_elem_of_lookup_2.
  - apply obeys_for_each. intros. by apply obeys_spendOne.
Qed.

Lemma obeys_mint_attempts w ops n op :
  op ∈ ops → TxID op = w → obeys L (lifecycle (CRemoveByMintTx w ops)) (mint_attempts n op).
Proof.
  intros Hop Hw. induction n as [|n IH]; simpl; [apply obeys_throw|].
  apply obeys_bind; [apply obeys_SELECT|]. intros [r|]; [|apply obeys_ret].
  apply obeys_if; [apply obeys_ret|]. case_decide; [apply obeys_ret|].
  apply obeys_bind; [|intros k; by apply obeys_if; [apply obeys_ret|]].
  apply obeys_DELETE. intros op' r' HP. conditions. subst op'. apply lc_remove_mint; [done..|].
  by rewrite /free /= /str E E0.
Qed.

Lemma obeys_mint_ops w all ops st :
  (∀ op, op ∈ ops → op ∈ all ∧ TxID op = w) →
  obeys L (lifecycle (CRemoveByMintTx w all)) (mint_ops_loop engine ops st).
Proof.
  revert st. induction ops as [|op ops IH]; intros st Hin; simpl; [apply obeys_ret|].
  destruct (Hin op) as [??]; [left|]. apply obeys_bind; [by apply obeys_binding, obeys_mint_attempts|].
  intros v. apply IH. intros. apply Hin. by right.
Qed.
End ops.
End SqlRaceOps.
