(* ===== verification/SqlRaceCalls.v ===== *)
(** * SqlRaceCalls: reserving named coins under races, and the calls together

    [ReserveOutpoints] reads the named rows and stamps them afterwards: between the two,
    PostgreSQL's row locks or SQLite's single writer keep the rows as they were read. *)
From S2P Require Import Prelude UtxoTypes MemStore StoreContract StoreLifecycle SqlDb SqlStore SqlRaces.
From S2P Require Import SqlLogic SqlAgree SqlRefineClaim SqlRefineMint SqlRaces.
Import StoreContract SqlDb SqlStore SqlRaces SqlRefineClaim SqlRefineMint SqlRaceOps.
Local Open Scope Z_scope.

Module SqlRaceCalls.

(** No other caller can change the row. *)
Definition protected (c : Conn) (op : Outpoint) : Prop :=
  in_tx c = true ∧ (single_writer c = true ∨ op ∈ locks c).
Definition unfrozen (c : Conn) (op : Outpoint) : Prop :=
  protected c op ∧ ∀ r, visible c !! op = Some r → frozen r = false.

Lemma arrive_protected c op :
  protected c op → protected (arrive c).2 op ∧ visible (arrive c).2 !! op = visible c !! op.
Proof.
  intros [Htx Hop]. rewrite /arrive. destruct (events c) as [|e es]; [done|]. rewrite Htx andb_true_r.
  destruct (single_writer c) eqn:Hsw; simpl; [by split; [split; [|left]|]|].
  destruct Hop as [?|Hop]; [done|]. split; [by split; [|right]|]. by rewrite lookup_overlay decide_True.
Qed.

(** Statements that freeze nothing. *)
Definition thaw_free {A} (f : (Outpoint → bool) → Table → Z → A * (Table * Z * gset Outpoint)) : Prop :=
  ∀ lk t q op r', (f lk t q).2.1.1 !! op = Some r' → ∃ r, t !! op = Some r ∧ frozen r' = frozen r.

Definition keeps {A} (m : M Conn error A) : Prop :=
  ∀ c, in_tx c = true → in_tx (m c).2 = true ∧ single_writer (m c).2 = single_writer c ∧
    ∀ op, unfrozen c op → unfrozen (m c).2 op.

Lemma thaws_statement {A} (f : (Outpoint → bool) → Table → Z → A * (Table * Z * gset Outpoint)) :
  thaw_free f → keeps (statement f).
Proof.
  intros Hf c Htx. rewrite /statement.
  assert (in_tx (arrive c).2 = true ∧ single_writer (arrive c).2 = single_writer c) as [Htx1 Hsw1].
  { rewrite /arrive. destruct (events c); [done|]. by destruct (single_writer c && in_tx c). }
  assert (∀ op, unfrozen c op → unfrozen (arrive c).2 op) as Hun.
  { intros op [[Hp Hv]%arrive_protected Hr]. split; [done|]. by rewrite Hv. }
  destruct (arrive c) as [e c1]. simpl in *. destruct (ev_fault e); [done|].
  specialize (Hf (ev_locked e) (visible c1) (utxo_seq c1)).
  destruct (f (ev_locked e) (visible c1) (utxo_seq c1)) as [a [[t q] l]]. simpl in *.
  rewrite /settle /= Htx1 /=. split_and!; [done..|]. intros op [[_ Hp] Hr]%Hun. split; simpl.
  - split; [done|]. destruct Hp; [by left|right]. set_solver.
  - intros r' (r&Hr1&->)%Hf. by apply Hr.
Qed.

Lemma thaws_ret {A} (a : A) : keeps (mret a).
Proof. done. Qed.
Lemma thaws_throw {A} (e : error) : keeps (throw (A := A) e).
Proof. done. Qed.

Lemma thaws_bind {A B} (m : M Conn error A) (k : A → M Conn error B) :
  keeps m → (∀ a, keeps (k a)) → keeps (m ≫= k).
Proof.
  intros Hm Hk c Htx. destruct (Hm c Htx) as (H1&H2&H3). rewrite /mbind /M_bind.
  destruct (m c) as [[a|e|] c1]; simpl in *; [|done..].
  destruct (Hk a c1 H1) as (?&?&?). split_and!; [done|congruence|auto].
Qed.

Section reserve.
Context `{MapRange} (L : coin_rels) (engine : Engine).

Lemma keeps_read op :
  keeps (binding (key_fits engine op) (if bool_decide (engine = EnginePostgres) then SELECT_FOR_UPDATE op else SELECT_one op)).
Proof. destruct (key_fits engine op); [|apply thaws_throw]. simpl. case_bool_decide; apply thaws_statement; intros lk t q op' r' Hr; by exists r'. Qed.

Lemma keeps_classify uid tok op : keeps (classifyForReserve engine uid tok op).
Proof.
  apply thaws_bind; [apply keeps_read|]. intros [r|]; [|apply thaws_ret].
  repeat (case_match; try apply thaws_ret).
Qed.

Lemma keeps_stamp uid tok ts op : keeps (stamp uid tok ts op).
Proof.
  apply thaws_bind; [|intros; case_match; [apply thaws_ret|apply thaws_throw]].
  apply thaws_statement. intros lk t q op' r'. simpl. rewrite map_lookup_imap.
  destruct (t !! op') as [r|]; simpl; [|done]. intros [= <-]. exists r. split; [done|]. by case_match.
Qed.

(** A row classified as free to take is protected, and not frozen. *)
Lemma classify_unfrozen uid tok op c c' :
  in_tx c = true → (engine = EngineSQLite → single_writer c = true) →
  classifyForReserve engine uid tok op c = (Ret (inr true), c') → unfrozen c' op.
Proof.
  intros Htx Hsw. rewrite /classifyForReserve /mbind /M_bind. destruct (key_fits engine op); [simpl|done].
  assert (∀ row c1, (if bool_decide (engine = EnginePostgres) then SELECT_FOR_UPDATE op else SELECT_one op) c
    = (Ret row, c1) → row = visible c1 !! op ∧ (is_Some row → protected c1 op)) as Hread.
  { assert (in_tx (arrive c).2 = true ∧ single_writer (arrive c).2 = single_writer c) as [Htx1 Hsw1].
    { rewrite /arrive. destruct (events c); [done|]. by destruct (single_writer c && in_tx c). }
    intros row c1. case_bool_decide as He; rewrite /SELECT_FOR_UPDATE /SELECT_one /SELECT /statement;
      destruct (arrive c) as [e c2]; destruct (ev_fault e); try done; simpl in *;
      rewrite /settle /= Htx1; intros [= <- <-]; (split; [done|]); intros [r Hr]; (split; [done|]).
    - right. simpl. rewrite Hr. set_solver.
    - left. simpl. rewrite Hsw1. apply Hsw. by destruct engine. }
  destruct ((if bool_decide (engine = EnginePostgres) then SELECT_FOR_UPDATE op else SELECT_one op) c)
    as [[[r|]|e|] c1] eqn:Hr; try done. destruct (Hread _ _ eq_refl) as [Hv Hp].
  clear Hr Hread. rewrite /mret /M_ret. case_decide; [by intros [= ]|]. destruct (spent_by r); [by intros [= ]|].
  case_decide; [by intros [= ]|]. destruct (frozen r) eqn:Hfr; [by intros [= ]|].
  case_decide; [by intros [= ]|]. intros [= <-].
  split; [by apply Hp|]. intros r'. rewrite -Hv. by intros [= <-].
Qed.

Lemma classify_all_unfrozen uid tok ops c es st c' :
  in_tx c = true → (engine = EngineSQLite → single_writer c = true) →
  classify_all engine uid tok ops c = (Ret (es, st), c') →
  in_tx c' = true ∧ ∀ op, op ∈ st → op ∈ ops ∧ unfrozen c' op.
Proof.
  revert c es st c'. induction ops as [|op ops IH]; intros c es st c' Htx Hsw; simpl.
  { intros [= <- <- <-]. split; [done|]. by intros op ?%elem_of_nil. }
  rewrite {1}/mbind /M_bind. pose proof (keeps_classify uid tok op c Htx) as (Htx1&Hsw1&_).
  destruct (classifyForReserve engine uid tok op c) as [[v|e|] c1] eqn:Hcl; try done. simpl in *.
  rewrite /mbind /M_bind. destruct (classify_all engine uid tok ops c1) as [[[es1 st1]|e|] c2] eqn:Hall; try done.
  intros [= Hv <-]. destruct (IH _ _ _ _ Htx1 (λ E, eq_trans Hsw1 (Hsw E)) Hall) as [Htx2 Hst].
  split; [done|]. intros k Hk.
  assert (k ∈ st1 ∨ k = op ∧ v = inr true) as [Hk1|[-> ->]].
  { destruct v as [e|[]]; simplify_eq; [by left| |by left]. apply elem_of_cons in Hk as [->|Hk]; [by right|by left]. }
  - destruct (Hst k Hk1). split; [by right|done].
  - split; [left|]. assert (keeps (classify_all engine uid tok ops)) as Hkeep.
    { clear. induction ops as [|op' ops IH]; [apply thaws_ret|]. apply thaws_bind; [apply keeps_classify|].
      intros v. apply thaws_bind; [done|]. intros [??]. apply thaws_ret. }
    destruct (Hkeep c1 Htx1) as (_&_&Hun). rewrite Hall in Hun. by apply Hun, (classify_unfrozen uid tok op c).
Qed.

Lemma stamp_moves clk uid tok ops ts op c :
  op ∈ ops → tok ≠ "" → coherent c → legal L (events c) → unfrozen c op →
  moves L (lifecycle (CReserveOutpoints clk uid tok ops)) c (stamp uid tok ts op c).2.
Proof.
  intros Hop Htok Hc Hl [Hp Hun]. destruct (arrive_protected c op Hp) as [_ Hv].
  rewrite /stamp /mbind /M_bind.
  set (up := UPDATE _ _ c).
  assert (moves L (lifecycle (CReserveOutpoints clk uid tok ops)) c up.2) as Hmv.
  { apply UPDATE_moves; [done..|]. intros op' r Hr HP. conditions. subst op'.
    apply (lc_reserve clk uid tok ops op (scanUTXO op r) (TsGet (Some ts))); try done.
    - by rewrite /free /= /str E E0.
    - simpl. apply Hun. by rewrite -Hv. }
  destruct up as [[rs|e|] c1]; [|done..]. by case_match.
Qed.

Lemma stamps_moves clk uid tok ops ts st c :
  (∀ op, op ∈ st → op ∈ ops ∧ unfrozen c op) → tok ≠ "" → in_tx c = true → coherent c → legal L (events c) →
  moves L (lifecycle (CReserveOutpoints clk uid tok ops)) c (for_each (stamp uid tok ts) st c).2.
Proof.
  intros Hst Htok. revert c Hst. induction st as [|op st IH]; intros c Hst Htx Hc Hl; simpl; [by apply moves_refl|].
  destruct (Hst op) as [Hop Hun]; [left|]. pose proof (stamp_moves clk uid tok ops ts op c Hop Htok Hc Hl Hun) as Hmv.
  destruct (keeps_stamp uid tok ts op c Htx) as (Htx1&_&Hk). rewrite {1}/mbind /M_bind.
  destruct (stamp uid tok ts op c) as [[[]|e|] c1]; simpl in *; [|done..].
  eapply moves_trans; [exact Hmv|]. rewrite {1}/mbind /M_bind.
  assert (moves L (lifecycle (CReserveOutpoints clk uid tok ops)) c1 (for_each (stamp uid tok ts) st c1).2) as Hm1.
  { apply IH; [|done|apply Hmv..]. intros k Hk'. destruct (Hst k); [by right|]. auto. }
  by destruct (for_each (stamp uid tok ts) st c1) as [[?|?|] ?].
Qed.

Lemma obeys_in_reserve clk uid tok ops ts sw :
  tok ≠ "" → (engine = EngineSQLite → sw = true) →
  obeys_in L sw (lifecycle (CReserveOutpoints clk uid tok ops))
    ('(es, toStamp) ← classify_all engine uid tok (sortedDistinct ops);
     match es with
     | _ :: _ => mret es
     | [] => _ ← for_each (stamp uid tok ts) toStamp; mret []
     end).
Proof.
  intros Htok Hsw c Htx Hw Hc Hl. set (own := lifecycle _).
  assert (moves L own c (classify_all engine uid tok (sortedDistinct ops) c).2) as Hcl.
  { revert c Htx Hw Hc Hl. generalize (sortedDistinct ops) as l. intros l c _ _. revert c.
    change (obeys L own (classify_all engine uid tok l)). clear. induction l as [|op l IH]; simpl; [apply obeys_ret|].
    apply obeys_bind; [rewrite /classifyForReserve; obeying|]. intros v. apply obeys_bind; [done|].
    intros [??]. apply obeys_ret. }
  rewrite {1}/mbind /M_bind.
  destruct (classify_all engine uid tok (sortedDistinct ops) c) as [[[es st]|e|] c1] eqn:Hall; [|done..].
  simpl in Hcl. destruct es; [|done].
  destruct (classify_all_unfrozen uid tok (sortedDistinct ops) c [] st c1) as [Htx1 Hst]; [done| |done|].
  { intros E. rewrite Hw. auto. }
  eapply moves_trans; [exact Hcl|]. rewrite /mbind /M_bind.
  assert (moves L own c1 (for_each (stamp uid tok ts) st c1).2) as Hm.
  { apply stamps_moves; [|done|done|apply Hcl..]. intros op [Hop ?]%Hst. split; [|done].
    by rewrite sortedDistinct_elem in Hop. }
  by destruct (for_each (stamp uid tok ts) st c1) as [[?|?|] ?].
Qed.
End reserve.

(** ** The calls together *)

(** The answers that report a failure of the database. *)
Definition engine_failed {A} (o : outcome error A) : bool :=
  match o with Err (ErrBackend _) => true | _ => false end.
Definition call_failed (a : answer) : bool :=
  match a with
  | ABatch _ (Some (ErrBackend _)) => true
  | ABatch _ _ => false
  | AUnit o => engine_failed o
  | ACount o => engine_failed o
  | ACoin o => engine_failed o
  | ACoins o => engine_failed o
  | AReport o => engine_failed o
  end.

Section calls.
Context `{MapRange} (L : coin_rels) (engine : Engine).

(** What the call itself did to the coins: nothing, when the engine failed it outside a
    transaction of the caller. *)
Definition own_steps (c : call) (s : Store) (failed : bool) : coin_rels :=
  if failed && negb (in_tx (conn s)) then nobody else lifecycle c.
Definition calls_move {A} (c : call) (s : Store) (r : outcome error A * Store) : Prop :=
  moves L (own_steps c s (engine_failed r.1)) (conn s) (conn r.2).

Lemma calls_move_refl {A} c s (o : outcome error A) :
  coherent (conn s) → legal L (events (conn s)) → calls_move c s (o, s).
Proof. intros. by apply moves_refl. Qed.

Lemma guard_open_moves {A} c (k : M Store error A) s :
  coherent (conn s) → legal L (events (conn s)) →
  (closed s = false → calls_move c s (k s)) → calls_move c s (guard_open k s).
Proof. intros. rewrite /guard_open. destruct (closed s); [by apply calls_move_refl|auto]. Qed.

Lemma guard_valid_moves {A} c v (k : M Store error A) s :
  coherent (conn s) → legal L (events (conn s)) →
  (v = None → calls_move c s (k s)) → calls_move c s (guard_valid v k s).
Proof. intros. destruct v; [by apply calls_move_refl|by auto]. Qed.

Lemma own_of_steps c s {A} (o o' : outcome error A) c' :
  moves L (own_of (lifecycle c) (conn s) o) (conn s) c' → (o' = o ∨ engine_failed o' = false) →
  moves L (own_steps c s (engine_failed o')) (conn s) c'.
Proof.
  intros Hm Ho. eapply moves_mono; [|exact Hm]. intros op x y. rewrite /own_of /own_steps.
  destruct (in_tx (conn s)); simpl; [by rewrite andb_false_r|]. rewrite andb_true_r.
  destruct Ho as [->| ->]; by destruct o.
Qed.

Lemma on_conn_moves {A} c (m : M Conn error A) s :
  moves_out L (lifecycle c) (conn s) (m (conn s)) → calls_move c s (on_conn m s).
Proof.
  rewrite /on_conn /zoom /calls_move /moves_out. destruct (m (conn s)) as [o c1]; simpl.
  intros Hm. pose proof (own_of_steps c s o o c1 Hm (or_introl eq_refl)) as Hs.
  by destruct o as [?|?|].
Qed.

(** The end of a call works on what the statements returned. *)
Lemma on_conn_bind_moves {A B} c (m : M Conn error A) (k : A → outcome error B) s :
  (∀ a, engine_failed (k a) = false) → moves_out L (lifecycle c) (conn s) (m (conn s)) →
  calls_move c s (on_conn (m ≫= λ a, lift (k a)) s).
Proof.
  intros Hk. rewrite /on_conn /zoom /calls_move /moves_out /mbind /M_bind /lift.
  destruct (m (conn s)) as [[a|e|] c1]; simpl.
  - intros Hm. specialize (Hk a). destruct (k a) as [?|?|]; simpl in *;
      (eapply moves_mono; [|exact Hm]); intros op x y; rewrite /own_of /own_steps ?Hk /=;
      by destruct (in_tx (conn s)).
  - intros Hm. eapply moves_mono; [|exact Hm]. intros op x y. rewrite /own_of /own_steps.
    destruct (in_tx (conn s)); [by rewrite andb_false_r|done].
  - intros Hm. eapply moves_mono; [|exact Hm]. intros op x y. rewrite /own_of /own_steps /=. by destruct (in_tx (conn s)).
Qed.

Lemma mint_loop_moves clk all ms n c :
  (∀ m, m ∈ ms → m ∈ all) → coherent c → legal L (events c) →
  moves L (lifecycle (CMint clk all)) c (mint_loop engine clk ms n c).2.
Proof.
  revert n c. induction ms as [|m ms IH]; intros n c Hin Hc Hl; simpl; [by apply moves_refl|].
  pose proof (obeys_mintOne L engine clk all (clk n) m (Hin m (list_elem_of_here _ _)) c Hc Hl) as Hm.
  destruct (mintOne engine (clk n) m c) as [o c1]. simpl in Hm.
  set (n' := match ValidateMint m with Some _ => n | None => S n end).
  assert (moves L (lifecycle (CMint clk all)) c1 (mint_loop engine clk ms n' c1).2) as Hms.
  { apply IH; [|apply Hm..]. intros. apply Hin. by right. }
  destruct (mint_loop engine clk ms n' c1) as [es c2]. by eapply moves_trans.
Qed.

Lemma mint_call_moves clk ms s :
  coherent (conn s) → legal L (events (conn s)) →
  moves L (own_steps (CMint clk ms) s (call_failed (batch (Mint engine clk ms s).1))) (conn s)
    (conn (Mint engine clk ms s).2).
Proof.
  intros Hc Hl. rewrite /Mint. destruct (closed s); [by apply moves_refl|].
  pose proof (mint_loop_moves clk ms ms 0 (conn s) (λ _ x, x) Hc Hl) as Hm.
  destruct (mint_loop engine clk ms 0 (conn s)) as [es c1]; simpl in *.
  rewrite /own_steps /BatchCountErr. by destruct (_ =? 0).
Qed.

Lemma claim_call_moves {A} c sh sc bound n tok now P (f : list (Outpoint * Row) → A) s :
  claim_of c = Some (sc, tok, P) → (∀ v, compares sh bound v = true → P v) → tok ≠ "" →
  coherent (conn s) → legal L (events (conn s)) →
  calls_move c s (on_conn (claimed ← runClaim engine sh sc bound n tok now; mret (f claimed)) s).
Proof.
  intros Hc HP Ht Hco Hl. apply (on_conn_bind_moves c _ (λ a, Ret (f a))); [done|]. rewrite /runClaim.
  assert (∀ c', coherent c' → legal L (events c') →
    moves_out L (lifecycle c) c' (claimOnce engine sh sc bound n tok now c')) as Hone.
  { intros. by eapply claimOnce_out. }
  destruct (in_tx (conn s)); [auto|]. by apply retry_out.
Qed.

Lemma tx_call_moves {A} c (m : M Conn error A) s :
  obeys L (lifecycle c) m → coherent (conn s) → legal L (events (conn s)) →
  calls_move c s (on_conn (withTx m) s).
Proof. intros Hm Hc Hl. apply on_conn_moves, withTx_out; [|done..]. intros c' _ _. apply Hm. Qed.

Lemma batch_result_fine es : engine_failed (batch_result es) = false.
Proof. by destruct es. Qed.

Lemma tx_batch_moves {A} c (m : M Conn error A) (k : A → list error) s :
  obeys_in L (single_writer (conn s)) (lifecycle c) m → coherent (conn s) → legal L (events (conn s)) →
  calls_move c s (on_conn (es ← withTx m; lift (batch_result (k es))) s).
Proof.
  intros. apply (on_conn_bind_moves c _ (λ es, batch_result (k es))); [intros; apply batch_result_fine|].
  by apply withTx_out.
Qed.

Lemma obeys_release uid tok :
  tok ≠ "" → obeys L (lifecycle (CReleaseReservation uid tok))
    (UPDATE (λ _ r, (user_id r =? uid) && bool_decide (reserved_by r = Some tok) &&
                    is_null (spent_by r) && notPinned r) (SET_reserved None None)).
Proof.
  intros Htok. apply obeys_UPDATE. intros op r HP. conditions.
  match goal with X : reserved_by r = _ |- _ => rename X into Hr end.
  apply (lc_release uid tok op (scanUTXO op r)); [done| |].
  - by rewrite /held /= Hr E.
  - simpl. match goal with X : notPinned r = true |- _ => revert X end. rewrite /notPinned. by destruct (pinned r).
Qed.

Lemma obeys_setPinned uid tok (b : bool) :
  tok ≠ "" → obeys L (lifecycle (if b then CPin uid tok else CUnpin uid tok))
    (UPDATE (λ _ r, (user_id r =? uid) && bool_decide (reserved_by r = Some tok) &&
                    is_null (spent_by r) && (if b then notPinned r else negb (notPinned r))) (SET_pinned b)).
Proof.
  intros Htok. apply obeys_UPDATE. intros op r HP. conditions.
  match goal with X : reserved_by r = _ |- _ => rename X into Hr end.
  destruct b; [apply (lc_pin uid tok op (scanUTXO op r))|apply (lc_unpin uid tok op (scanUTXO op r))];
    try done; by rewrite /held /= Hr E.
Qed.

Lemma obeys_release_ops tok ops :
  tok ≠ "" → obeys L (lifecycle (CReleaseOutpoints tok ops))
    (update_all engine ops (λ r, bool_decide (reserved_by r = Some tok) && is_null (spent_by r)) release_row).
Proof.
  intros Htok. apply obeys_update_all. intros op r Hop HP. conditions.
  match goal with X : reserved_by r = _ |- _ => rename X into Hr end.
  apply (lc_release_op tok ops op (scanUTXO op r)); [done..| |done]. by rewrite /= Hr.
Qed.

Lemma obeys_unspend w ops :
  obeys L (lifecycle (CUnspend w ops)) (update_all engine ops (spent_is w) unspend_row).
Proof.
  apply obeys_update_all. intros op r Hop HP%bool_decide_eq_true. by apply (lc_unspend w ops op (scanUTXO op r)).
Qed.

Lemma obeys_promote ops to :
  Tier_Valid to = true →
  obeys L (lifecycle (CPromote ops to)) (update_all engine ops (λ r, negb (tier r =? to)) (SET_tier to)).
Proof.
  intros Hto. apply obeys_update_all. intros op r Hop _. by apply (lc_promote ops to op (scanUTXO op r)).
Qed.

Lemma spend_call_moves sps force s :
  coherent (conn s) → legal L (events (conn s)) →
  moves L (own_steps (CSpend sps force) s (call_failed (batch (Spend engine sps force s).1))) (conn s)
    (conn (Spend engine sps force s).2).
Proof.
  intros Hc Hl. rewrite /Spend. destruct (closed s); [by apply moves_refl|].
  pose proof (withTx_out L _ _ (conn s) (obeys_spend_body L engine sps force _) Hc Hl) as Hm. revert Hm.
  rewrite /moves_out. destruct (withTx _ (conn s)) as [[es|e|] c1]; intros Hm; simpl.
  - eapply moves_mono; [|exact Hm]. intros op x y. rewrite /own_of /own_steps /BatchCountErr.
    destruct (_ =? 0); simpl; by destruct (in_tx (conn s)).
  - eapply moves_mono; [|exact Hm]. intros op x y. rewrite /own_of /own_steps.
    destruct (in_tx (conn s)); [by rewrite andb_false_r|done].
  - eapply moves_mono; [|exact Hm]. intros op x y. rewrite /own_of /own_steps /=. by destruct (in_tx (conn s)).
Qed.

(** Past the guards of a call. *)
Ltac past_guards :=
  apply guard_open_moves; [done..|intros _];
  try (apply guard_valid_moves; [done..|];
       first [intros [? _]%ValidateClaim_None | intros ?%ValidateReservation_None | intro]).

(** Every call of the store. *)
Lemma sql_call_moves c s :
  (engine = EngineSQLite → single_writer (conn s) = true) →
  coherent (conn s) → legal L (events (conn s)) →
  moves L (own_steps c s (call_failed (sql_call engine c s).1)) (conn s) (conn (sql_call engine c s).2).
Proof.
  intros Hsw Hc Hl. destruct c; simpl.
  - by apply mint_call_moves.
  - past_guards. apply (tx_batch_moves _ _ (omap id)); [|done..]. apply obeys_obeys_in, obeys_for_each. intros. by apply obeys_removeOne.
  - past_guards. eapply claim_call_moves; [done| |done..]. intros v. simpl. lia.
  - past_guards. case_match; [by apply moves_refl|].
    eapply claim_call_moves; [done| |done..]. intros v. simpl. lia.
  - past_guards. case_match; [by apply moves_refl|].
    eapply claim_call_moves; [done| |done..]. intros v. simpl. lia.
  - past_guards. apply (tx_batch_moves _ _ id); [|done..]. apply obeys_in_reserve; [|done].
    rewrite -ValidateReservation_None. revert select (ValidateReserveOutpoints _ _ = None).
    rewrite /ValidateReserveOutpoints. by destruct (ValidateReservation tok).
  - past_guards. apply tx_call_moves; [|done..]. apply obeys_bind; [|intros; apply obeys_ret].
    by apply obeys_release.
  - past_guards. apply tx_call_moves; [|done..]. apply obeys_bind; [|intros; apply obeys_ret].
    by apply obeys_release_ops.
  - past_guards. apply tx_call_moves; [|done..]. apply obeys_bind; [|intros; apply obeys_ret].
    by apply (obeys_setPinned userID tok true).
  - past_guards. apply tx_call_moves; [|done..]. apply obeys_bind; [|intros; apply obeys_ret].
    by apply (obeys_setPinned userID tok false).
  - by apply spend_call_moves.
  - past_guards. apply tx_call_moves; [|done..]. apply obeys_unspend.
  - past_guards. apply tx_call_moves; [|done..]. apply obeys_DELETE. intros op r HP%bool_decide_eq_true.
    by apply lc_remove_spent.
  - past_guards. destruct (Tier_Valid to) eqn:Hto; simpl; [|by apply calls_move_refl].
    apply tx_call_moves; [|done..]. by apply obeys_promote.
  - past_guards. apply tx_call_moves; [|done..]. apply obeys_bind; [|intros; apply obeys_ret].
    apply obeys_mint_ops. intros op Hop. split; [done|]. by eapply ValidateMintOutpoints_None.
  - past_guards. apply (tx_batch_moves _ _ id); [|done..]. apply obeys_obeys_in, (obeys_freeze L engine ops true).
  - past_guards. apply (tx_batch_moves _ _ id); [|done..]. apply obeys_obeys_in, (obeys_freeze L engine ops false).
  - rewrite /Close. destruct (closed s); [by apply moves_refl|]. destruct (ownsDB s); [|by apply moves_refl].
    apply (on_conn_moves CClose ping (mkStore (conn s) true true)). apply statement_out; [done..|].
    intros lk q a t' q' l [= <- <- <- <-]. done.
Qed.
End calls.
End SqlRaceCalls.
