(* ===== verification/SqlVerdicts.v ===== *)
(** * SqlVerdicts: what a call of the SQL store reports is true, races included

    A spend slot without an error means that the spend is on record when the call
    returns; a coin a claim returns is in the table under the claimer's token and was
    free when the statement ran. *)
From S2P Require Import Prelude UtxoTypes MemStore StoreContract SqlDb SqlStore SqlRaces.
From S2P Require Import SqlLogic SqlAgree SqlRefineSpend SqlRefineClaim SqlRaces.
Import StoreContract SqlDb SqlStore SqlRaces SqlAgree SqlRefineSpend SqlRaceOps.
Local Open Scope Z_scope.

Module SqlVerdicts.

(** ** No statement panics *)

Definition never_panics {A} (m : M Conn error A) : Prop := ∀ c, (m c).1 ≠ Panic.

Lemma never_panics_statement {A} (f : (Outpoint → bool) → Table → Z → A * (Table * Z * gset Outpoint)) :
  never_panics (statement f).
Proof.
  intros c. rewrite /statement. destruct (arrive c) as [e c1]. destruct (ev_fault e); [done|].
  by destruct (f _ _ _) as [? [[??] ?]].
Qed.

Lemma never_panics_bind {A B} (m : M Conn error A) (k : A → M Conn error B) :
  never_panics m → (∀ a, never_panics (k a)) → never_panics (m ≫= k).
Proof.
  intros Hm Hk c. specialize (Hm c). rewrite /mbind /M_bind. destruct (m c) as [[a|e|] c1]; try done. apply Hk.
Qed.

Lemma never_panics_ret {A} (a : A) : never_panics (mret a).
Proof. done. Qed.

Lemma never_panics_for_each {A B} (m : A → M Conn error B) l :
  (∀ x, never_panics (m x)) → never_panics (for_each m l).
Proof.
  intros Hm. induction l as [|x l IH]; [done|]. apply never_panics_bind; [done|]. intros y.
  by apply never_panics_bind.
Qed.

Lemma never_panics_withTx {A} (m : M Conn error A) : never_panics m → never_panics (withTx m).
Proof.
  intros Hm c. rewrite /withTx. destruct (in_tx c); [apply Hm|].
  assert (never_panics (transaction m)) as Ht.
  { intros c0. rewrite /transaction /BeginTx. destruct (arrive c0) as [e c1]. destruct (ev_fault e); [done|].
    specialize (Hm (set_tx true (committed c1) (committed c1) c1)).
    destruct (m _) as [[a|x|] c2]; try done. rewrite /Commit. destruct (arrive c2) as [e' c3]. by destruct (ev_fault e'). }
  rewrite /WithRetry. generalize maxLockRetries as n. intros n. revert c. induction n as [|n IH]; intros c; simpl;
    specialize (Ht c); destruct (transaction m c) as [[a|x|] c1]; try done; by destruct (IsLockError x).
Qed.

Lemma never_panics_binding {A} ok (m : M Conn error A) : never_panics m → never_panics (binding ok m).
Proof. by destruct ok. Qed.

Ltac panic_free :=
  repeat first [ apply never_panics_ret | apply never_panics_binding | apply never_panics_statement
               | apply never_panics_for_each; intro | apply never_panics_bind; [|intro] | case_match ].

Lemma spend_rounds_panics `{MapRange} n force xs errs : never_panics (spend_rounds n force xs errs).
Proof.
  revert xs errs. induction n as [|n IH]; intros xs errs; simpl; [panic_free|]. case_decide; [panic_free|].
  apply never_panics_bind; [rewrite /spendWriteSet /write_group; panic_free|]. intros misses.
  case_decide; [panic_free|]. apply never_panics_bind; [rewrite /classifySpendMisses; panic_free|].
  intros [un errs']. case_decide; [panic_free|]. apply IH.
Qed.

Lemma spend_body_panics `{MapRange} engine sps force :
  never_panics (if bool_decide (engine = EnginePostgres) then spendSet sps force else for_each (spendOne force) sps).
Proof.
  case_bool_decide.
  - apply never_panics_bind; [apply spend_rounds_panics|]. intros. apply never_panics_ret.
  - apply never_panics_for_each. intros sp. rewrite /spendOne. destruct (ValidateSpend sp); [apply never_panics_ret|].
    generalize guardAttempts. intros n. induction n as [|n IH]; simpl; [apply never_panics_ret|].
    apply never_panics_bind; [rewrite /spendUpdate; panic_free|]. intros k. destruct (k =? 1); [apply never_panics_ret|].
    apply never_panics_bind; [rewrite /classifySpendFailure; panic_free|]. intros [cl []]; [done|apply never_panics_ret].
Qed.

(** ** Spends on record *)

Definition spent_coin (w : Hash) (o : option UTXO) : Prop := ∃ u, o = Some u ∧ u_SpentBy u = Some w.
(** Nobody undoes, rewrites or removes one of these spends once it is recorded. *)
Definition keeps_spends (sps : list SpendOp) (R : coin_rels) : Prop :=
  ∀ sp o o', sp ∈ sps → R (sp_Outpoint sp) o o' →
    spent_coin (sp_SpendingTxID sp) o → spent_coin (sp_SpendingTxID sp) o'.
Definition recorded (c : Conn) (sp : SpendOp) : Prop :=
  spent_coin (sp_SpendingTxID sp) (coin_at (visible c) (sp_Outpoint sp)).

Lemma keeps_spends_spend sps force : keeps_spends sps (lifecycle (CSpend sps force)).
Proof. intros sp o o' _ Hl (u&->&Hu). inversion Hl; simplify_eq/=; congruence. Qed.

Lemma keeps_spends_rtc sps R sp o o' :
  keeps_spends sps R → sp ∈ sps → rtc (R (sp_Outpoint sp)) o o' →
  spent_coin (sp_SpendingTxID sp) o → spent_coin (sp_SpendingTxID sp) o'.
Proof. intros HR Hsp. induction 1; eauto. Qed.

Section spends.
Context `{MapRange} (L : coin_rels) (sps : list SpendOp) (HL : keeps_spends sps L) (force : bool).
Abbreviation own := (lifecycle (CSpend sps force)).

Lemma moves_recorded c c' sp : sp ∈ sps → moves L own c c' → recorded c sp → recorded c' sp.
Proof.
  intros Hsp Hm. eapply (keeps_spends_rtc sps (either L own)); [|done|apply Hm].
  intros sp' o o' Hin [Ho|Ho]; [by apply (keeps_spends_spend sps force sp')|by apply (HL sp')].
Qed.

(** A statement's rows, and the table it leaves. *)
Lemma UPDATE_returns P g c rs c' :
  UPDATE P g c = (Ret rs, c') →
  ∀ op r', (op, r') ∈ rs → visible c' !! op = Some r' ∧ ∃ r, P op r = true ∧ r' = g r.
Proof.
  rewrite /UPDATE /statement. destruct (arrive c) as [e c1]. destruct (ev_fault e); [done|].
  intros [= <- <-] op r'. rewrite range_map_elem lookup_fmap fmap_Some.
  intros (r&[Hr HP]%map_lookup_filter_Some&->). simpl in HP. split; [|by exists r].
  rewrite /settle. destruct (in_tx _); simpl; by rewrite map_lookup_imap Hr /= HP.
Qed.

Lemma SELECT_returns {A} (q : Table → A) c a c' : SELECT q c = (Ret a, c') → a = q (visible c').
Proof.
  rewrite /SELECT /statement. destruct (arrive c) as [e c1]. destruct (ev_fault e); [done|].
  intros [= <- <-]. rewrite /settle. by destruct (in_tx _).
Qed.

Lemma verdict_recorded sp c :
  spend_verdict force sp (visible c !! sp_Outpoint sp) = (None, false) → recorded c sp.
Proof.
  rewrite /spend_verdict /recorded /coin_at. destruct (visible c !! sp_Outpoint sp) as [r|]; [|done].
  destruct (spent_by r) as [w|] eqn:Hw.
  - destruct (Z.eqb_spec w (sp_SpendingTxID sp)) as [->|]; [|done]. intros _. by exists (scanUTXO (sp_Outpoint sp) r).
  - destruct (negb force && frozen r); [done|]. by destruct (negb force && bool_decide _).
Qed.

Lemma spendUpdate_recorded sp c k c' : spendUpdate force sp c = (Ret k, c') → k = 1 → recorded c' sp.
Proof.
  rewrite /spendUpdate. set (P := λ op' r, _). set (g := spend_row _). rewrite /mbind /M_bind.
  destruct (UPDATE P g c) as [[rs|e|] c1] eqn:Hup; [|done..]. intros [= <- <-] Hk.
  rewrite /count_rows in Hk. destruct rs as [|[op r'] [|]]; simpl in Hk; [lia| |lia].
  destruct (UPDATE_returns _ _ _ _ _ Hup op r') as (Hv&r&HP&->); [left|]. rewrite /P in HP. conditions. subst op.
  exists (scanUTXO (sp_Outpoint sp) (g r)). by rewrite /coin_at Hv.
Qed.

Lemma spend_attempts_recorded n sp c c' :
  spend_attempts n force sp c = (Ret None, c') → recorded c' sp.
Proof.
  revert c. induction n as [|n IH]; intros c; simpl; [done|]. rewrite {1}/mbind /M_bind.
  destruct (spendUpdate force sp c) as [[k|e|] c1] eqn:Hup; [|done..].
  destruct (Z.eqb_spec k 1) as [Hk|_].
  - intros [= <-]. by eapply spendUpdate_recorded.
  - rewrite /classifySpendFailure {1}/mbind /M_bind {1}/mbind /M_bind.
    destruct (SELECT_one (sp_Outpoint sp) c1) as [[row|e|] c2] eqn:Hrow; [|done..].
    apply SELECT_returns in Hrow as ->. simpl.
    destruct (spend_verdict force sp (visible c2 !! sp_Outpoint sp)) as [cl retry] eqn:Hv.
    destruct retry; [apply IH|]. intros [= -> <-]. by apply verdict_recorded.
Qed.

Lemma spendOne_recorded sp c c' : spendOne force sp c = (Ret None, c') → recorded c' sp.
Proof. rewrite /spendOne. destruct (ValidateSpend sp); [done|]. apply spend_attempts_recorded. Qed.

Lemma spend_loop_recorded l c es c' :
  (∀ sp, sp ∈ l → sp ∈ sps) → coherent c → legal L (events c) →
  for_each (spendOne force) l c = (Ret es, c') →
  ∀ i sp, l !! i = Some sp → es !! i = Some None → recorded c' sp.
Proof.
  revert c es. induction l as [|sp l IH]; intros c es Hin Hc Hl; simpl; [done|].
  rewrite {1}/mbind /M_bind. pose proof (obeys_spendOne L sps force sp (Hin sp (list_elem_of_here _ _)) c Hc Hl) as Hm.
  destruct (spendOne force sp c) as [[e|e|] c1] eqn:H1; [|done..]. simpl in Hm. rewrite {1}/mbind /M_bind.
  assert (moves L own c1 (for_each (spendOne force) l c1).2) as Hm2.
  { apply obeys_for_each; [|apply Hm..]. intros x Hx. apply obeys_spendOne, Hin. by right. }
  destruct (for_each (spendOne force) l c1) as [[es'|?|] c2] eqn:H2; [|done..]. intros [= <- <-].
  intros [|i] sp' Hsp Hes; simpl in *; simplify_eq.
  - apply (moves_recorded c1 c2); [apply Hin; left|done|]. by eapply spendOne_recorded.
  - eapply (IH c1 es'); [|apply Hm..|done|done|done]. intros. apply Hin. by right.
Qed.

(** *** The set-based arm *)

Definition pending (xs : list item) : Prop := ∀ x, x ∈ xs → x.2 ∈ sps ∧ ValidateSpend x.2 = None.

Lemma write_group_recorded g c misses c' :
  keyed force g → write_group force g c = (Ret misses, c') →
  ∀ x, x ∈ sg_ops g → x ∈ misses ∨ recorded c' x.2.
Proof.
  intros Hk. rewrite /write_group /binding. set (P := λ op' r, _). rewrite /mbind /M_bind.
  destruct (keys_fit (outpoints (sg_ops g))); [|done].
  destruct (UPDATE P _ c) as [[rs|e|] c1] eqn:Hup; [|done..]. intros [= <- <-] x Hx.
  destruct (decide (sp_Outpoint x.2 ∈ rs.*1)) as [Hin|Hin]; [right|left; by apply list_elem_of_filter].
  apply list_elem_of_fmap in Hin as ([op r']&Hop&Hr). destruct (UPDATE_returns _ _ _ _ _ Hup op r' Hr) as (Hv&r&_&->).
  simpl in Hop. subst op. specialize (Hk x Hx). rewrite /group_key /key_of in Hk. injection Hk as Hw _.
  exists (scanUTXO (sp_Outpoint x.2) (spend_row (sg_spendingTxID g) r)). rewrite /coin_at Hv. by rewrite Hw.
Qed.

Lemma write_groups_recorded gs c misses c' :
  Forall (keyed force) gs → pending (concat (sg_ops <$> gs)) → coherent c → legal L (events c) →
  for_each (write_group force) gs c = (Ret misses, c') →
  ∀ x, x ∈ concat (sg_ops <$> gs) → x ∈ concat misses ∨ recorded c' x.2.
Proof.
  revert c misses. induction gs as [|g gs IH]; intros c misses Hk Hp Hc Hl; simpl.
  { by intros [= <- <-] x ?%elem_of_nil. }
  apply Forall_cons in Hk as [Hg Hk]. simpl in Hp. rewrite {1}/mbind /M_bind.
  assert (pending (sg_ops g) ∧ pending (concat (sg_ops <$> gs))) as [Hpg Hpgs].
  { split; intros x Hx; apply Hp, elem_of_app; auto. }
  pose proof (obeys_write_group L sps force g Hg Hpg c Hc Hl) as Hm.
  destruct (write_group force g c) as [[ms|e|] c1] eqn:H1; [|done..]. simpl in Hm. rewrite {1}/mbind /M_bind.
  assert (moves L own c1 (for_each (write_group force) gs c1).2) as Hm2.
  { apply obeys_for_each; [|apply Hm..]. intros g' Hg'. apply obeys_write_group.
    - rewrite ->Forall_forall in Hk. by apply Hk.
    - intros x Hx. apply Hpgs, elem_of_concat. exists (sg_ops g'). split; [done|]. by apply list_elem_of_fmap_2. }
  destruct (for_each (write_group force) gs c1) as [[mss|?|] c2] eqn:H2; [|done..]. intros [= <- <-] x.
  simpl. rewrite !elem_of_app. intros [Hx|Hx].
  - destruct (write_group_recorded g c ms c1 Hg H1 x Hx); [by left; left|right].
    apply (moves_recorded c1 c2); [by apply Hpg|done..].
  - destruct (IH c1 mss Hk Hpgs (mv_coherent _ _ _ _ Hm) (mv_legal _ _ _ _ Hm) H2 x Hx); [left; by right|by right].
Qed.

Lemma spendWriteSet_recorded xs c misses c' :
  pending xs → coherent c → legal L (events c) → spendWriteSet force xs c = (Ret misses, c') →
  ∀ x, x ∈ xs → x ∈ misses ∨ recorded c' x.2.
Proof.
  intros Hp Hc Hl. destruct (groupSpends_spec force xs) as (Hperm&_&Hk). rewrite /spendWriteSet /mbind /M_bind.
  destruct (for_each (write_group force) (groupSpends force xs) c) as [[ms|?|] c1] eqn:H1; [|done..].
  intros [= <- <-] x Hx. apply (write_groups_recorded (groupSpends force xs) c ms c1); [done| |done..|].
  - intros y. rewrite Hperm. apply Hp.
  - by rewrite Hperm.
Qed.

Lemma classify_misses_recorded misses errs c :
  let '(un, errs') := classify_misses force (scanSpendStates (outpoints misses) (visible c)) misses errs in
  (∀ i, is_Some (errs !! i) → is_Some (errs' !! i)) ∧
  ∀ x, x ∈ misses → x ∈ un ∨ is_Some (errs' !! x.1) ∨ recorded c x.2.
Proof.
  assert (∀ x, x ∈ misses → scanSpendStates (outpoints misses) (visible c) !! sp_Outpoint x.2 =
    visible c !! sp_Outpoint x.2) as Hst.
  { intros x Hx. rewrite /scanSpendStates /matching map_lookup_filter.
    destruct (visible c !! sp_Outpoint x.2); [|done]. simpl. rewrite option_guard_True //.
    rewrite pgKeyMatch_eq bool_decide_eq_true. apply list_elem_of_fmap. by exists x. }
  revert Hst. generalize (scanSpendStates (outpoints misses) (visible c)) as st. intros st.
  revert errs. induction misses as [|x misses IH]; intros errs Hst; simpl.
  { split; [done|]. by intros x ?%elem_of_nil. }
  pose proof (verdict_recorded x.2 c) as Hrec. rewrite -(Hst x (list_elem_of_here _ _)) in Hrec.
  destruct (spend_verdict force x.2 (st !! sp_Outpoint x.2)) as [e retry].
  set (errs1 := match e with Some e => <[x.1 := e]> errs | None => errs end).
  specialize (IH errs1). destruct (classify_misses force st misses errs1) as [un errs'].
  destruct IH as [Hk Hx]; [intros; apply Hst; by right|]. split.
  - intros i Hi. apply Hk. rewrite /errs1. destruct e; [|done]. destruct (decide (i = x.1)) as [->|].
    + rewrite lookup_insert_eq. by eexists.
    + by rewrite lookup_insert_ne.
  - intros y [->|Hy]%elem_of_cons.
    + destruct retry; [left; left|]. destruct e as [e|]; [|by right; right; apply Hrec].
      right; left. apply Hk. rewrite /errs1 lookup_insert_eq. by eexists.
    + destruct (Hx y Hy); [left; apply elem_of_app; by right|by right].
Qed.

Lemma contended_slots (xs : list item) (errs : slots) (i : nat) :
  is_Some (errs !! i) ∨ i ∈ xs.*1 →
  is_Some (foldl (λ errs (x : item), <[x.1 := ErrContention]> errs) errs xs !! i).
Proof.
  revert errs. induction xs as [|x xs IH]; intros errs; simpl.
  { by intros [?|?%elem_of_nil]. }
  rewrite elem_of_cons. intros Hi. apply IH. destruct (decide (i = x.1)) as [->|Hne].
  - left. rewrite lookup_insert_eq. by eexists.
  - rewrite lookup_insert_ne //. naive_solver.
Qed.

Lemma spend_rounds_recorded n xs errs c errs' c' :
  pending xs → coherent c → legal L (events c) → spend_rounds n force xs errs c = (Ret errs', c') →
  (∀ i, is_Some (errs !! i) → is_Some (errs' !! i)) ∧
  ∀ x, x ∈ xs → is_Some (errs' !! x.1) ∨ recorded c' x.2.
Proof.
  revert xs errs c. induction n as [|n IH]; intros xs errs c Hp Hc Hl; simpl.
  { intros [= <- <-]. split; [intros; apply contended_slots; by left|].
    intros x Hx. left. apply contended_slots. right. by apply list_elem_of_fmap_2. }
  case_decide as Hnil. { intros [= <- <-]. split; [done|]. destruct xs; [|done]. by intros x ?%elem_of_nil. }
  rewrite {1}/mbind /M_bind. pose proof (obeys_spendWriteSet L sps force xs Hp c Hc Hl) as Hm.
  destruct (spendWriteSet force xs c) as [[misses|e|] c1] eqn:Hw; [|done..]. simpl in Hm.
  pose proof (spendWriteSet_recorded xs c misses c1 Hp Hc Hl Hw) as Hrec.
  pose proof (yields_spendWriteSet force xs c misses c1 Hw) as Hsub.
  case_decide as Hmnil.
  { intros [= <- <-]. split; [done|]. destruct misses; [|done]. intros x Hx. right.
    by destruct (Hrec x Hx) as [?%elem_of_nil|]. }
  rewrite {1}/mbind /M_bind {1}/classifySpendMisses {1}/mbind /M_bind.
  pose proof (obeys_SELECT L own (scanSpendStates (outpoints misses)) c1 (mv_coherent _ _ _ _ Hm) (mv_legal _ _ _ _ Hm)) as Hm2.
  destruct (SELECT (scanSpendStates (outpoints misses)) c1) as [[st|?|] c2] eqn:Hsel; [|done..].
  apply SELECT_returns in Hsel as ->. simpl in Hm2 |- *.
  pose proof (classify_misses_recorded misses errs c2) as Hcl.
  pose proof (classify_misses_in force (scanSpendStates (outpoints misses) (visible c2)) misses errs) as Hin.
  destruct (classify_misses force (scanSpendStates (outpoints misses) (visible c2)) misses errs) as [un errs1].
  destruct Hcl as [Hk Hx]. simpl in Hin.
  assert (∀ x, x ∈ xs → x ∈ un ∨ is_Some (errs1 !! x.1) ∨ recorded c2 x.2) as Hall.
  { intros x Hin'. destruct (Hrec x Hin') as [Hxm|Hr]; [by apply Hx|right; right].
    apply (moves_recorded c1 c2); [by apply Hp|done..]. }
  case_decide as Hunil.
  { intros [= <- <-]. split; [done|]. destruct un; [|done].
    intros x [?%elem_of_nil|?]%Hall; done. }
  assert (pending un) as Hpu by (intros x Hxu; auto).
  pose proof (obeys_spend_rounds L sps force n un errs1 Hpu c2 (mv_coherent _ _ _ _ Hm2) (mv_legal _ _ _ _ Hm2)) as Hm3.
  intros Hrun. destruct (IH un errs1 c2 Hpu (mv_coherent _ _ _ _ Hm2) (mv_legal _ _ _ _ Hm2) Hrun) as [Hk' Hx'].
  rewrite Hrun in Hm3. split; [auto|]. intros x Hin'.
  destruct (Hall x Hin') as [Hxu|[Hs|Hr]]; [by apply Hx'|left; auto|right].
  apply (moves_recorded c2 c'); [by apply Hp|done..].
Qed.

Lemma invalid_slots_some items (i : nat) (sp : SpendOp) :
  (i, sp) ∈ items → ValidateSpend sp ≠ None → is_Some (invalid_slots items !! i).
Proof.
  rewrite /invalid_slots. set (f := λ (errs : slots) (x : item), _).
  assert (∀ l errs, is_Some (errs !! i) ∨ (i, sp) ∈ l ∧ ValidateSpend sp ≠ None → is_Some (foldl f errs l !! i)) as Hf.
  { induction l as [|x l IH]; intros errs Hi; simpl; [by destruct Hi as [?|[?%elem_of_nil _]]|].
    apply IH. rewrite elem_of_cons in Hi. destruct Hi as [Hi|[[<-|Hi] Hv]]; [left|left|by right].
    - rewrite /f. destruct (ValidateSpend x.2); [|done]. destruct (decide (i = x.1)) as [->|].
      + rewrite lookup_insert_eq. by eexists.
      + by rewrite lookup_insert_ne.
    - rewrite /f /=. destruct (ValidateSpend sp); [|done]. rewrite lookup_insert_eq. by eexists. }
  intros. apply Hf. by right.
Qed.

Lemma spendSet_recorded c es c' :
  coherent c → legal L (events c) → spendSet sps force c = (Ret es, c') →
  ∀ i sp, sps !! i = Some sp → es !! i = Some None → recorded c' sp.
Proof.
  intros Hc Hl. rewrite /spendSet /mbind /M_bind. set (items := imap pair sps).
  set (pend := filter _ items).
  assert (pending pend) as Hp.
  { intros x. rewrite list_elem_of_filter. intros [Hv (i&y&->&Hy)%elem_of_lookup_imap]. split; [|done].
    by eapply list_elem_of_lookup_2. }
  destruct (spend_rounds guardAttempts force pend (invalid_slots items) c) as [[errs|?|] c1] eqn:Hr; [|done..].
  destruct (spend_rounds_recorded _ _ _ _ _ _ Hp Hc Hl Hr) as [Hk Hx]. intros [= <- <-] i sp Hsp.
  rewrite list_lookup_imap Hsp /=. intros [= Hnone].
  assert ((i, sp) ∈ items) as Hin. { apply elem_of_lookup_imap. by exists i, sp. }
  destruct (decide (ValidateSpend sp = None)) as [Hv|Hv].
  - destruct (Hx (i, sp)) as [Hs|?]; [by apply list_elem_of_filter| |done]. rewrite /= Hnone in Hs. by destruct Hs.
  - destruct (Hk i); [by eapply invalid_slots_some|]. congruence.
Qed.

Lemma spend_body_recorded engine c es c' :
  coherent c → legal L (events c) →
  (if bool_decide (engine = EnginePostgres) then spendSet sps force else for_each (spendOne force) sps) c
    = (Ret es, c') →
  ∀ i sp, sps !! i = Some sp → es !! i = Some None → recorded c' sp.
Proof.
  intros Hc Hl. case_bool_decide; [by apply spendSet_recorded|]. by apply (spend_loop_recorded sps).
Qed.

(** A slot without error is a recorded spend, whatever the others did meanwhile. *)
Lemma Spend_recorded engine s es e s' :
  coherent (conn s) → legal L (events (conn s)) → Spend engine sps force s = ((es, e), s') →
  e = BatchCountErr (count_failed es) (Z.of_nat (length sps)) →
  ∀ i sp, sps !! i = Some sp → es !! i = Some None → recorded (conn s') sp.
Proof.
  intros Hc Hl. rewrite /Spend.
  assert (∀ e, Some e ≠ BatchCountErr (count_failed ((λ _, None) <$> sps)) (Z.of_nat (length sps))) as Hfatal.
  { intros x. rewrite /count_failed. assert (filter is_Some ((λ _ : SpendOp, @None error) <$> sps) = []) as ->; [|done].
    clear. induction sps as [|? l IH]; [done|]. simpl. by rewrite filter_cons_False; [|intros []]. }
  destruct (closed s). { intros [= <- <- <-] He. by apply Hfatal in He. }
  set (body := if bool_decide (engine = EnginePostgres) then _ else _).
  pose proof (withTx_ret L own body (conn s)) as Hret.
  assert (never_panics (withTx body)) as Hnp. { apply never_panics_withTx, spend_body_panics. }
  specialize (Hnp (conn s)). destruct (withTx body (conn s)) as [[es1|e1|] c1]; [..|done].
  - intros [= <- <- <-] _ i sp Hsp Hes.
    destruct (Hret es1 c1) as (c2&c3&Hc2&Hl2&Hb&Hafter); [|done..|]; [by apply obeys_spend_body|].
    eapply keeps_spends_rtc; [exact HL|by eapply list_elem_of_lookup_2|apply Hafter|]. by eapply spend_body_recorded.
  - intros [= <- <- <-] He. by apply Hfatal in He.
Qed.
End spends.

(** ** Claims *)

Section claims.
Context `{MapRange} (L : coin_rels) (engine : Engine).

(** What one returned row says: it is in the table now, and was a candidate at the
    statement, which the others' changes led up to. *)
Definition claimed_row (sh : claimShape) (sc : Scope) (bound : Z) (tok : string) (now : Z) (c c' : Conn)
    (op : Outpoint) (r' : Row) : Prop :=
  visible c' !! op = Some r' ∧
  ∃ r, rtc (L op) (coin_at (visible c) op) (Some (scanUTXO op r)) ∧ claimCandidate sc r = true ∧
    compares sh bound (satoshis r) = true ∧ r' = SET_reserved (Some tok) (Some now) r.

Lemma claimOnce_returns sh sc bound n tok now c rs c' :
  coherent c → legal L (events c) → claimOnce engine sh sc bound n tok now c = (Ret rs, c') →
  NoDup rs.*1 ∧ ∀ op r', (op, r') ∈ rs → claimed_row sh sc bound tok now c c' op r'.
Proof.
  intros Hc Hl. rewrite /claimOnce /binding /statement. destruct (int8 bound); [|done].
  destruct (arrive_moves L nobody c Hc Hl) as (Hmv&_&_&_).
  destruct (arrive c) as [e c1]. destruct (ev_fault e); [done|]. intros [= <- <-]. simpl in Hmv.
  split; [apply range_map_NoDup_fst|]. intros op r'. rewrite range_map_elem lookup_fmap fmap_Some.
  intros (r&[Hr Hin]%map_lookup_filter_Some&->). simpl in Hin.
  pose proof Hin as ([op' r2]&->&Hcand)%bool_decide_eq_true%list_elem_of_fmap.
  apply candidates_in in Hcand as (Hr2&Hcand&Hcmp&_). simpl in *. simplify_eq. split.
  - rewrite /settle. destruct (in_tx _); simpl; by rewrite map_lookup_imap Hr /= Hin.
  - exists r. split_and!; [|done..]. pose proof (mv_visible _ _ _ _ Hmv op') as Hp. rewrite {2}/coin_at Hr in Hp.
    eapply rtc_subrel; [|exact Hp]. by intros ?? [[]|].
Qed.

Lemma retry_claim_returns sh sc bound k n tok now c rs c' :
  coherent c → legal L (events c) → in_tx c = false →
  retry_from k (claimOnce engine sh sc bound n tok now) c = (Ret rs, c') →
  NoDup rs.*1 ∧ ∀ op r', (op, r') ∈ rs → claimed_row sh sc bound tok now c c' op r'.
Proof.
  revert c. induction k as [|k IH]; intros c Hc Hl Htx; simpl;
    pose proof (λ rs c', claimOnce_returns sh sc bound n tok now c rs c' Hc Hl) as Hone.
  - destruct (claimOnce engine sh sc bound n tok now c) as [[a|e|] c1]; [|by destruct (IsLockError e)|done].
    intros [= <- <-]. by apply Hone.
  - assert (moves_out L (λ _ _ _, True) c (claimOnce engine sh sc bound n tok now c)) as Hmv.
    { rewrite /claimOnce /binding. destruct (int8 bound); [|by apply moves_refl].
      apply statement_out; [done..|]. intros lk q a t' q' l [= <- <- <- <-]. split; [|intros; by apply rtc_once].
      intros op Hop. rewrite map_lookup_imap. destruct (visible _ !! op) as [r|] eqn:Hr; [|done]. simpl.
      case_bool_decide as Hin; [|done]. destruct Hop. apply elem_of_dom. exists r.
      rewrite /matching map_lookup_filter Hr /= option_guard_True //. by apply bool_decide_eq_true. }
    destruct (claimOnce engine sh sc bound n tok now c) as [[a|e|] c1]; [by intros [= <- <-]; apply Hone| |done].
    destruct (IsLockError e); [|done]. rewrite /moves_out /own_of Htx /= in Hmv. intros Hr.
    destruct (IH c1) as [Hnd Hrow]; [apply Hmv..|by rewrite (mv_tx _ _ _ _ Hmv)|done|].
    split; [done|]. intros op r' Hin. destruct (Hrow op r' Hin) as (Hv&r&Hp&?&?&?). split; [done|]. exists r.
    split_and!; [|done..]. etrans; [|exact Hp]. eapply rtc_subrel; [|apply (mv_visible _ _ _ _ Hmv)]. by intros ?? [[]|].
Qed.

Lemma runClaim_returns sh sc bound n tok now c rs c' :
  coherent c → legal L (events c) → runClaim engine sh sc bound n tok now c = (Ret rs, c') →
  NoDup rs.*1 ∧ ∀ op r', (op, r') ∈ rs → claimed_row sh sc bound tok now c c' op r'.
Proof.
  intros Hc Hl. rewrite /runClaim. destruct (in_tx c) eqn:Htx; [by apply claimOnce_returns|].
  by apply retry_claim_returns.
Qed.
End claims.
End SqlVerdicts.
