(* ===== verification/SqlProps.v ===== *)
(** * SqlProps: the SQL coin store is the in-memory store, and keeps its word under races

    Alone, both engines answer every history of comparable calls as the in-memory store
    does and hold the same coins.  Among other callers, every call changes a coin only
    as the store's documentation allows, a call the database failed has changed nothing,
    an acknowledged spend is on record, and a claimed coin was free. *)
From S2P Require Import Prelude UtxoTypes MemStore StoreContract StoreProps SqlDb SqlStore SqlRaces.
From S2P Require Import SqlLogic SqlAgree SqlRefine SqlRefineSpend SqlRefineMint SqlRaces SqlRaceCalls SqlVerdicts.
Import StoreContract StoreExample SqlDb SqlStore SqlRaces SqlAgree SqlRefine SqlRefineSpend SqlRefineMint.
Import SqlRaceOps SqlRaceCalls SqlVerdicts.
Local Open Scope Z_scope.

Module SqlProps.

(** The coins a call hands out. *)
Definition handed (a : answer) : list UTXO :=
  match a with
  | ACoin (Ret (Some u)) => [u]
  | ACoins (Ret us) => us
  | _ => []
  end.

(** ** Lemmas *)

Lemma sim_coin s ms op : sim s ms → coin_at (visible (conn s)) op = coin ms op.
Proof.
  intros Hs. rewrite /coin_at /coin. pose proof (sim_agree _ _ Hs op) as Ha.
  destruct (visible (conn s) !! op), (MemStore.rows ms !! op); simpl in *; naive_solver.
Qed.

Lemma sublist_map {A B} (f : A → B) l k : sublist l k → sublist (f <$> l) (f <$> k).
Proof. induction 1; csimpl; by constructor. Qed.

Section claims.
Context `{MapRange} (L : coin_rels) (engine : Engine).

(** What the theorem on claims says of one coin. *)
Definition claimed_free (sc : Scope) (tok : string) (P : Z → Prop) (c c' : Conn) (u : UTXO) : Prop :=
  coin_at (visible c') (u_Outpoint u) = Some u ∧ u_ReservedBy u = tok ∧
  ∃ u0, rtc (L (u_Outpoint u)) (coin_at (visible c) (u_Outpoint u)) (Some u0) ∧
    in_scope sc u0 ∧ free u0 ∧ u_Frozen u0 = false ∧ P (u_Satoshis u0) ∧
    u = set_reservation tok (u_ReservedAt u) u0.

Lemma claimed_row_free sh sc bound tok now P c c' op r :
  (∀ v, compares sh bound v = true → P v) →
  claimed_row L sh sc bound tok now c c' op r → claimed_free sc tok P c c' (scanUTXO op r).
Proof.
  intros HP (Hv&r0&Hp&Hcand&Hcmp&->). apply (candidate_free _ _ op) in Hcand as (?&?&?).
  split_and!; [by rewrite /coin_at Hv|done|]. exists (scanUTXO op r0). split_and!; try done. by apply HP.
Qed.

Definition claims_ok {A} (g : A → list UTXO) (sc : Scope) (tok : string) (P : Z → Prop) (s : Store)
    (r : outcome error A * Store) : Prop :=
  ∀ a, r.1 = Ret a →
    NoDup (u_Outpoint <$> g a) ∧ ∀ u, u ∈ g a → claimed_free sc tok P (conn s) (conn r.2) u.

Lemma claims_ok_nil {A} (g : A → list UTXO) sc tok P s a s' : g a = [] → claims_ok g sc tok P s (Ret a, s').
Proof. intros Hg a' [= <-]. rewrite Hg. split; [constructor|]. by intros u ?%elem_of_nil. Qed.

Lemma claim_answer {A} sh sc bound n tok now P (f : list (Outpoint * Row) → A) (g : A → list UTXO) s :
  (∀ v, compares sh bound v = true → P v) →
  (∀ rs, ∃ rs', Permutation rs rs' ∧ sublist (g (f rs)) (collect rs')) →
  coherent (conn s) → legal L (events (conn s)) →
  claims_ok g sc tok P s (on_conn (claimed ← runClaim engine sh sc bound n tok now; mret (f claimed)) s).
Proof.
  intros HP Hg Hc Hl a. rewrite /on_conn /zoom /mbind /M_bind.
  pose proof (runClaim_returns L engine sh sc bound n tok now (conn s)) as Hret.
  destruct (runClaim engine sh sc bound n tok now (conn s)) as [[rs|?|] c1]; [|done..]. intros [= <-].
  destruct (Hret rs c1 Hc Hl eq_refl) as [Hnd Hrow]. destruct (Hg rs) as (rs'&Hperm&Hsub).
  assert (u_Outpoint <$> collect rs' = rs'.*1) as Hops.
  { rewrite /collect -list_fmap_compose. by apply list_fmap_ext; intros ? [??]. }
  split.
  - eapply sublist_NoDup; [|by apply sublist_map]. rewrite Hops. by rewrite -Hperm.
  - intros u Hu. eapply elem_of_sublist in Hsub; [|exact Hu].
    apply list_elem_of_fmap in Hsub as ([op r]&->&Hin). rewrite -Hperm in Hin.
    eapply claimed_row_free; [done|]. by apply Hrow.
Qed.

Lemma collect_sorted cmp rs : ∃ rs', Permutation rs rs' ∧ sublist (collect (SortFunc cmp rs)) (collect rs').
Proof. exists (SortFunc cmp rs). split; [|done]. symmetry. apply SortFunc_perm. Qed.

Lemma claim_smallest_ok clk sc tok x s :
  coherent (conn s) → legal L (events (conn s)) →
  claims_ok (λ o : option UTXO, option_list o) sc tok (λ v, x ≤ v) s (ClaimSmallestSufficient engine clk sc tok x s).
Proof.
  intros Hc Hl. rewrite /ClaimSmallestSufficient /guard_open. destruct (closed s); [done|].
  destruct (ValidateClaim sc tok); [done|]. simpl. apply (claim_answer shapeSmallestSufficient); [|..|done|done].
  - intros v. simpl. lia.
  - intros rs. exists rs. split; [done|]. destruct (collect rs) as [|u us]; [constructor|]. simpl. by apply sublist_skip, sublist_nil_l.
Qed.

Lemma claim_largest_ok clk sc tok x n s :
  coherent (conn s) → legal L (events (conn s)) →
  claims_ok id sc tok (λ v, v < x) s (ClaimLargestInsufficient engine clk sc tok x n s).
Proof.
  intros Hc Hl. rewrite /ClaimLargestInsufficient /guard_open. destruct (closed s); [done|].
  destruct (ValidateClaim sc tok); [done|]. simpl. destruct (n <=? 0); [by apply claims_ok_nil|].
  apply (claim_answer shapeLargestInsufficient); [|..|done|done].
  - intros v. simpl. lia.
  - intros rs. apply collect_sorted.
Qed.

Lemma claim_exact_ok clk sc tok x n s :
  coherent (conn s) → legal L (events (conn s)) →
  claims_ok id sc tok (λ v, v = x) s (ClaimExact engine clk sc tok x n s).
Proof.
  intros Hc Hl. rewrite /ClaimExact /guard_open. destruct (closed s); [done|].
  destruct (ValidateClaim sc tok); [done|]. simpl. destruct (n <=? 0); [by apply claims_ok_nil|].
  apply (claim_answer shapeExact); [|..|done|done].
  - intros v. simpl. lia.
  - intros rs. apply collect_sorted.
Qed.

Lemma handed_ok {A} (f : outcome error A → answer) (g : A → list UTXO) sc tok P s r :
  (∀ a, handed (f (Ret a)) = g a) → (∀ e, handed (f (Err e)) = []) → handed (f Panic) = [] →
  claims_ok g sc tok P s r →
  NoDup (u_Outpoint <$> handed (f r.1)) ∧
  ∀ u, u ∈ handed (f r.1) → claimed_free sc tok P (conn s) (conn r.2) u.
Proof.
  intros H1 H2 H3 Hok. destruct r as [[a|e|] s']; simpl.
  - rewrite H1. by apply Hok.
  - rewrite H2. split; [constructor|]. by intros u ?%elem_of_nil.
  - rewrite H3. split; [constructor|]. by intros u ?%elem_of_nil.
Qed.
End claims.

(** ** The properties *)

(** C5: both SQL engines are the in-memory store, on comparable calls.  Every history of
    comparable calls on a freshly migrated database that nobody else uses, on its own or
    inside a caller's transaction, returns call by call the answers of the in-memory
    store, errors, counts, reports and coins in order included, and leaves the same
    coins.  Comparable calls have one clock reading per mint, coins of positive value
    that the schema's columns hold (amounts below 2^63, and on PostgreSQL output indexes
    and input sizes below 2^31) and, for PostgreSQL's grouped write, no two spenders of
    one coin in a batch; the in-memory store is given the clock at the database's
    resolution and the named outpoints in lock order. *)
Theorem sql_histories_agree `{MapRange} engine ambient owns cs :
  Forall (comparable engine) cs → total_mints cs < 2 ^ 64 →
  let '(answers, s) := sql_history engine cs (fresh_store engine ambient owns) in
  let '(answers', ms) := mem_history (as_mem <$> cs) MemStore.New in
  answers = answers' ∧ ∀ op, coin_at (visible (conn s)) op = coin ms op.
Proof.
  intros Hcs Hfit. destruct (history_same engine cs _ _ (fresh_sim engine ambient owns) Hcs) as [Ha Hs]; [done|].
  destruct (sql_history engine cs _) as [answers s], (mem_history _ _) as [answers' ms].
  split; [done|]. intros op. by apply sim_coin.
Qed.

(** C6: races.  Whatever other callers commit between the statements of a call, whichever
    rows they lock and whichever statement, BEGIN or COMMIT the engine refuses, each coin
    changes only by the steps the store documents for this call and by the others' own
    steps; if the call reports a failure of the database outside a caller's transaction,
    only the others changed anything. *)
Theorem sql_calls_interleave `{MapRange} (L : coin_rels) engine c s :
  (engine = EngineSQLite → single_writer (conn s) = true) →
  coherent (conn s) → legal L (events (conn s)) →
  let '(a, s') := sql_call engine c s in
  ∀ op, rtc (if call_failed a && negb (in_tx (conn s)) then L op
             else λ o o', lifecycle c op o o' ∨ L op o o')
          (coin_at (visible (conn s)) op) (coin_at (visible (conn s')) op).
Proof.
  intros Hsw Hc Hl. pose proof (sql_call_moves L engine c s Hsw Hc Hl) as Hm.
  destruct (sql_call engine c s) as [a s']. intros op. pose proof (mv_visible _ _ _ _ Hm op) as Hp.
  rewrite /own_steps in Hp. simpl in Hp. destruct (call_failed a && negb (in_tx (conn s))); [|done].
  eapply rtc_subrel; [|exact Hp]. by intros ?? [[]|].
Qed.

(** C7: an acknowledged spend is on record.  When Spend reports item results, then each
    item without an error is recorded with that very spender when the call returns,
    whatever others commit meanwhile, provided nobody undoes or removes that very spend
    during the call (others' spends may be undone). *)
Theorem sql_spend_acks_recorded `{MapRange} (L : coin_rels) engine sps force s es e s' :
  keeps_spends sps L → coherent (conn s) → legal L (events (conn s)) →
  Spend engine sps force s = ((es, e), s') →
  e = BatchCountErr (count_failed es) (Z.of_nat (length sps)) →
  ∀ i sp, sps !! i = Some sp → es !! i = Some None →
    ∃ u, coin_at (visible (conn s')) (sp_Outpoint sp) = Some u ∧ u_SpentBy u = Some (sp_SpendingTxID sp).
Proof. intros HL Hc Hl Hs He i sp Hsp Hes. by eapply (Spend_recorded L sps HL force). Qed.

(** C8: claims hand out free coins.  The coins a claim returns are distinct, are in the
    table as returned, under the claimer's token, and each was, after what others
    committed before the statement, a free unfrozen coin of the scope with a value the
    claim asks for. *)
Theorem sql_claims_hand_out_free `{MapRange} (L : coin_rels) engine c sc tok P s :
  claim_of c = Some (sc, tok, P) → coherent (conn s) → legal L (events (conn s)) →
  let '(a, s') := sql_call engine c s in
  NoDup (u_Outpoint <$> handed a) ∧ ∀ u, u ∈ handed a → claimed_free L sc tok P (conn s) (conn s') u.
Proof.
  intros Hc Hco Hl. destruct c; try done; simpl in Hc; injection Hc as <- <- <-.
  - apply (handed_ok L ACoin (λ o : option UTXO, option_list o)); [by intros []|done|done|]. by apply claim_smallest_ok.
  - apply (handed_ok L ACoins id); [done..|]. by apply claim_largest_ok.
  - apply (handed_ok L ACoins id); [done..|]. by apply claim_exact_ok.
Qed.

(** ** Instances *)

(** Two coins of user 7, reserved under ["t1"], on either engine. *)
Definition noon (n : nat) : Time := unixEpoch.
Definition opening : list call :=
  [CMint noon [mint_of op1 1000; mint_of op2 500; mint_of op3 700]; CReserveOutpoints noon 7 "t1" [op2; op1]].
Definition opened (engine : Engine) : Store :=
  (sql_history (H := range_canonical) engine opening (fresh_store engine false true)).2.

(** a batch in which two transactions claim one coin is ruled differently by the two
    engines: SQLite's loop gives the coin to the earlier item, PostgreSQL's grouped write
    to the item of the group that appeared first. *)
Theorem grouped_spend_order_differs :
  let sps := [mkSpendOp op1 "t1" 98; mkSpendOp op2 "t1" 99; mkSpendOp op2 "t1" 98] in
  (Spend (H := range_canonical) EngineSQLite sps false (opened EngineSQLite)).1 =
    ([None; None; Some (SpentError op2 99)], Some (ErrBatchCount 1 3)) ∧
  (Spend (H := range_canonical) EnginePostgres sps false (opened EnginePostgres)).1 =
    ([None; Some (SpentError op2 98); None], Some (ErrBatchCount 1 3)).
Proof. vm_compute. done. Qed.

(** A coin of value zero passes the validation of Mint and is stored by the in-memory
    store, but the schema of both SQL engines refuses it. *)
Theorem worthless_coin_refused (engine : Engine) :
  let m := mint_of op1 0 in
  ValidateMint m = None ∧
  (MemStore.Mint noon [m] MemStore.New).1 = ([None], None) ∧
  (Mint engine noon [m] (fresh_store engine false true)).1 =
    ([Some (ErrBackend CheckViolated)], Some (ErrBatchCount 1 1)).
Proof. by destruct engine. Qed.

(** An output index of [2^31] or more passes the validation too; the in-memory store and
    SQLite keep the coin, PostgreSQL's INTEGER column does not. *)
Theorem large_index_refused :
  let m := mint_of (mkOutpoint 1 (2 ^ 31)) 10 in
  (MemStore.Mint noon [m] MemStore.New).1 = ([None], None) ∧
  (Mint EngineSQLite noon [m] (fresh_store EngineSQLite false true)).1 = ([None], None) ∧
  (Mint EnginePostgres noon [m] (fresh_store EnginePostgres false true)).1 =
    ([Some (ErrBackend OutOfRange)], Some (ErrBatchCount 1 1)).
Proof. by vm_compute. Qed.

Lemma sql_histories_agree_witness :
  (sql_history (H := range_canonical) EnginePostgres (opening ++ [CPin 7 "t1"]) (fresh_store EnginePostgres false true)).1 =
    [ABatch [None; None; None] None; AUnit (Ret ()); ACount (Ret 2)].
Proof.
  pose proof (sql_histories_agree (H := range_canonical) EnginePostgres false true (opening ++ [CPin 7 "t1"])) as Hs.
  destruct (sql_history EnginePostgres _ _) as [answers s]. simpl fst.
  destruct (mem_history _ _) as [answers' ms] eqn:Hm. destruct Hs as [-> _].
  - rewrite !Forall_cons. split_and!; try done.
    + split; [done|]. rewrite !Forall_cons. split_and!; try done; (split; [simpl; lia|done]).
    + intros op [->| ->%list_elem_of_singleton]%elem_of_cons; done.
  - vm_compute. reflexivity.
  - change answers' with ((answers', ms).1). rewrite -Hm. vm_compute. reflexivity.
Defined.

(** Between two statements another caller freezes [op3]. *)
Definition freeze_op3 : event :=
  mkEvent (λ t, map_imap (λ op r, Some (if bool_decide (op = op3) then SET_frozen true r else r)) t) 0
    (λ _, false) None.
Definition freezing : coin_rels := λ op o o', lifecycle (CFreeze [op3]) op o o'.
Definition among (engine : Engine) (es : list event) : Store :=
  let c := conn (opened engine) in
  mkStore (mkConn (committed c) (visible c) (utxo_seq c) ∅ false (single_writer c) es) false true.

Lemma freeze_legal es : Forall (λ e, e = freeze_op3 ∨ ev_peers e = id) es → legal freezing es.
Proof.
  intros Hes. eapply Forall_impl; [exact Hes|]. intros e [-> | ->] t op; [|done].
  rewrite /coin_at /= map_lookup_imap. destruct (t !! op) as [r|]; [|done]. simpl.
  case_bool_decide as Hop; [|done]. subst op. apply rtc_once.
  apply (lc_freeze [op3] op3 (scanUTXO op3 r)). left.
Qed.

Lemma among_coherent engine es : coherent (conn (among engine es)).
Proof. constructor; [|done]. intros op _. by destruct engine; vm_compute. Qed.

(** The peer freezes [op3] before the claim's statement, so the claim finds nothing. *)
Lemma sql_calls_interleave_witness :
  let c := CClaimSmallestSufficient noon sc0 "t2" 1 in
  let s := among EnginePostgres [freeze_op3] in
  (sql_call (H := range_canonical) EnginePostgres c s).1 = ACoin (Ret None) ∧
  rtc (λ o o', lifecycle c op3 o o' ∨ freezing op3 o o') (coin_at (visible (conn s)) op3)
    (coin_at (visible (conn (sql_call (H := range_canonical) EnginePostgres c s).2)) op3).
Proof.
  cbv zeta. split; [vm_compute; reflexivity|].
  pose proof (sql_calls_interleave (H := range_canonical) freezing EnginePostgres
    (CClaimSmallestSufficient noon sc0 "t2" 1) (among EnginePostgres [freeze_op3])
    ltac:(done) (among_coherent _ _) ltac:(apply freeze_legal; by constructor; [left|])) as Hr.
  destruct (sql_call _ _ _) as [a s'] eqn:Hs. specialize (Hr op3). simpl snd.
  assert (call_failed a = false) as Ha.
  { change a with ((a, s').1). rewrite -Hs. vm_compute. reflexivity. }
  rewrite Ha in Hr. exact Hr.
Defined.

Lemma freezing_keeps sps : keeps_spends sps freezing.
Proof. intros sp o o' _ Hl (u&->&Hu). inversion Hl; simplify_eq/=. by eexists. Qed.

(** A spend with a refused first attempt and a peer's freeze in between. *)
Lemma sql_spend_acks_recorded_witness :
  let s := among EngineSQLite [mkEvent id 0 (λ _, false) (Some (ErrBackend (LockConflict 5))); freeze_op3] in
  let r := Spend (H := range_canonical) EngineSQLite [mkSpendOp op1 "t1" 98; mkSpendOp op3 "t1" 98] false s in
  r.1 = ([None; Some (FrozenError op3)], Some (ErrBatchCount 1 2)) ∧
  ∃ u, coin_at (visible (conn r.2)) op1 = Some u ∧ u_SpentBy u = Some 98.
Proof.
  cbv zeta. split; [vm_compute; reflexivity|].
  set (s := among _ _). set (sps := [mkSpendOp op1 "t1" 98; mkSpendOp op3 "t1" 98]).
  apply (sql_spend_acks_recorded (H := range_canonical) freezing EngineSQLite sps false s
    [None; Some (FrozenError op3)] (Some (ErrBatchCount 1 2)) _ (freezing_keeps sps) (among_coherent _ _)
    ltac:(apply freeze_legal; constructor; [by right|by constructor; [left|]])
    ltac:(vm_compute; reflexivity) ltac:(reflexivity) 0%nat (mkSpendOp op1 "t1" 98)); reflexivity.
Defined.

Lemma sql_claims_hand_out_free_witness :
  let s := among EngineSQLite [] in
  let '(a, s') := sql_call (H := range_canonical) EngineSQLite (CClaimExact noon sc0 "t2" 700 3) s in
  (u_Outpoint <$> handed a) = [op3] ∧
  ∀ u, u ∈ handed a → claimed_free freezing sc0 "t2" (λ v, v = 700) (conn s) (conn s') u.
Proof.
  cbv zeta. pose proof (sql_claims_hand_out_free (H := range_canonical) freezing EngineSQLite
    (CClaimExact noon sc0 "t2" 700 3) sc0 "t2" (λ v, v = 700) (among EngineSQLite []) eq_refl
    (among_coherent _ _) (freeze_legal [] (Forall_nil_2 _))) as Hr.
  destruct (sql_call _ _ _) as [a s'] eqn:Hs. split; [|apply Hr].
  change a with ((a, s').1). rewrite -Hs. vm_compute. reflexivity.
Defined.
End SqlProps.
