(* ===== verification/AeroDb.v ===== *)
(** * AeroDb: the server, the keys and the records of the Aerospike coin store

    [pkg/utxostore/aerostore/keys.go] and the record codec of [aerostore.go], over what
    the package says it relies on of the Aerospike server and its client: a command on
    one record is atomic; [Operate] applies its operations if the record exists and the
    filter expression of its policy is true, and reports KEY_NOT_FOUND or FILTERED_OUT
    otherwise; comparing an absent bin is unknown, and unknown is not true; a write of an
    unknown value with EvalNoFail is skipped; a query visits records one by one.

    Before each command an [event] happens: other processes write records, other
    goroutines use the claim cache, and the command may fail, before or after the server
    carried it out (a reply that is lost).  No more events means that the caller is
    alone. *)
From Stdlib Require Import Ascii String.
From S2P Require Import Prelude UtxoTypes GoStrings.
Import GoStrings.
Local Open Scope string_scope.
Local Open Scope Z_scope.

Module AeroDb.

(** ** Keys *)

Definition bucketCount : Z := 64.
(** [bits.Len64(sats) - 1]. *)
Definition bucketOf (sats : Z) : Z := if sats =? 0 then 0 else Z.log2 sats.

(** [strconv.FormatInt(n, 10)]. *)
Definition FormatInt (n : Z) : text := if n <? 0 then "-"%char :: FormatUint (- n) else FormatUint n.
Definition bar : ascii := "|".
Definition claimKeyFor (userID : Z) (basket : string) (tier : Tier) (bucket : Z) : string :=
  string_of_list_ascii (FormatInt userID ++ [bar] ++ list_ascii_of_string basket ++ [bar] ++
    FormatInt tier ++ [bar] ++ FormatInt bucket).
Definition invKeyFor (userID : Z) (basket : string) : string :=
  string_of_list_ascii (FormatInt userID ++ [bar] ++ list_ascii_of_string basket).

(** ** Records *)

Inductive bin :=
| binTxID | binVout | binUserID | binBasket | binTier | binSats | binInpSize | binResBy | binResAt
| binSpentBy | binFrozen | binPinned | binCreated | binClaimKey | binInvKey.
Definition bin_index (b : bin) : nat :=
  match b with
  | binTxID => 0 | binVout => 1 | binUserID => 2 | binBasket => 3 | binTier => 4 | binSats => 5
  | binInpSize => 6 | binResBy => 7 | binResAt => 8 | binSpentBy => 9 | binFrozen => 10
  | binPinned => 11 | binCreated => 12 | binClaimKey => 13 | binInvKey => 14
  end.

(** A blob is its length and its bytes read as one number. *)
Inductive value := VInt (z : Z) | VStr (s : string) | VBlob (len : Z) (h : Hash).
Definition value_eqb (v w : value) : bool :=
  match v, w with
  | VInt a, VInt b => a =? b
  | VStr a, VStr b => String.eqb a b
  | VBlob n a, VBlob m b => (n =? m) && (a =? b)
  | _, _ => false
  end.
Definition Hash_blob (h : Hash) : value := VBlob 32 h.

Definition record := bin → option value.
Definition put (b : bin) (v : option value) (r : record) : record := λ b',
  if (bin_index b =? bin_index b')%nat then v else r b'.

(** ** Expressions and operations *)

Inductive expr :=
| ExpBinExists (b : bin)
| ExpNot (e : expr)
| ExpAnd (es : list expr)
| ExpOr (es : list expr)
| ExpEq (b : bin) (v : value)
| ExpGreaterEq (b : bin) (z : Z)
| ExpLess (b : bin) (z : Z).

(** [None] is unknown. *)
Definition and3 (a b : option bool) : option bool :=
  match a, b with
  | Some false, _ | _, Some false => Some false
  | Some true, Some true => Some true
  | _, _ => None
  end.
Definition or3 (a b : option bool) : option bool :=
  match a, b with
  | Some true, _ | _, Some true => Some true
  | Some false, Some false => Some false
  | _, _ => None
  end.
Definition int_bin (r : record) (b : bin) : option Z :=
  match r b with Some (VInt z) => Some z | _ => None end.

Fixpoint eval (e : expr) (r : record) : option bool :=
  match e with
  | ExpBinExists b => Some (match r b with Some _ => true | None => false end)
  | ExpNot e => negb <$> eval e r
  | ExpAnd es => (fix go es := match es with [] => Some true | e :: es => and3 (eval e r) (go es) end) es
  | ExpOr es => (fix go es := match es with [] => Some false | e :: es => or3 (eval e r) (go es) end) es
  | ExpEq b v => (λ w, value_eqb w v) <$> r b
  | ExpGreaterEq b z => (λ w, z <=? w) <$> int_bin r b
  | ExpLess b z => (λ w, w <? z) <$> int_bin r b
  end.
Definition holds (e : expr) (r : record) : bool :=
  match eval e r with Some true => true | _ => false end.

(** [ExpCond]: the value of the first test that is true; an unknown test, an unknown
    value ([None]) and the end of the ladder are unknown. *)
Fixpoint ExpCond (ladder : list (expr * option value)) (r : record) : option value :=
  match ladder with
  | [] => None
  | (test, v) :: rest =>
      match eval test r with Some true => v | Some false => ExpCond rest r | None => None end
  end.

Inductive operation :=
| PutOp (b : bin) (v : value)
| removeBinOp (b : bin)
| ExpWriteOp (b : bin) (ladder : list (expr * option value)).
Definition apply_op (o : operation) (r : record) : record :=
  match o with
  | PutOp b v => put b (Some v) r
  | removeBinOp b => put b None r
  | ExpWriteOp b ladder => match ExpCond ladder r with Some v => put b (Some v) r | None => r end
  end.
Definition apply_ops (ops : list operation) (r : record) : record := foldl (λ r o, apply_op o r) r ops.

(** ** The claim cache, as data *)

(** A row a probe returned, with the key it was found under. *)
Record candidate := mkCand { c_key : Outpoint; c_rec : record; c_sats : Z }.
Record claimBucket := mkBucket {
  cb_id : nat; cb_cands : list candidate; cb_probedEmpty : bool; cb_probedAt : Time; cb_gen : Z }.
(** [cc_lru]: the most recently used first.  [cc_next] names the next bucket made, so
    that a bucket that was evicted and one made later under its key differ. *)
Record claimCache := mkCache {
  cc_refill : Z; cc_maxBuckets : Z; cc_emptyTTL : Z;
  cc_buckets : gmap string claimBucket; cc_lru : list string; cc_next : nat }.
Definition newClaimCache (refill maxBuckets emptyTTL : Z) : claimCache :=
  mkCache refill maxBuckets emptyTTL ∅ [] 0.

(** ** The connection *)

Abbreviation Table := (gmap Outpoint record).

Record event := mkEvent {
  ev_peers : Table → Table;                 (** what other processes write *)
  ev_goroutines : claimCache → claimCache;  (** what other goroutines do to the cache *)
  ev_busy : bool;                           (** another goroutine refills the bucket *)
  ev_fault : option (bool * backend_error); (** the command fails; [true]: it took effect *)
}.
Definition quiet : event := mkEvent id id false None.

Record Conn := mkConn {
  recs : Table; cache : option claimCache; ticks : nat; events : list event }.
Abbreviation AM A := (M Conn error A).

Definition arrive (c : Conn) : event * Conn :=
  match events c with
  | [] => (quiet, c)
  | e :: es => (e, mkConn (ev_peers e (recs c)) (ev_goroutines e <$> cache c) (ticks c) es)
  end.
Definition with_recs (t : Table) (c : Conn) : Conn := mkConn t (cache c) (ticks c) (events c).
Definition with_cache (cc : option claimCache) (c : Conn) : Conn := mkConn (recs c) cc (ticks c) (events c).

(** A command that reads or writes records. *)
Definition command {A} (f : Table → A * Table) : AM A := λ c,
  let '(e, c1) := arrive c in
  let '(a, t) := f (recs c1) in
  match ev_fault e with
  | Some (true, x) => (Err (ErrBackend x), with_recs t c1)
  | Some (false, x) => (Err (ErrBackend x), c1)
  | None => (Ret a, with_recs t c1)
  end.

Inductive result := Done | FILTERED_OUT | KEY_NOT_FOUND.
(** [Operate] with UPDATE_ONLY; [None] is a policy without a filter. *)
Definition Operate (filter : option expr) (key : Outpoint) (ops : list operation) : AM result :=
  command (λ t,
    match t !! key with
    | None => (KEY_NOT_FOUND, t)
    | Some r =>
        if match filter with Some e => holds e r | None => true end
        then (Done, <[key := apply_ops ops r]> t) else (FILTERED_OUT, t)
    end).
(** [PutBins] with CREATE_ONLY; [false] is KEY_EXISTS. *)
Definition PutBins (key : Outpoint) (r : record) : AM bool :=
  command (λ t, match t !! key with Some _ => (false, t) | None => (true, <[key := r]> t) end).
Definition Get (key : Outpoint) : AM (option record) := command (λ t, (t !! key, t)).
(** [Delete]: the existed flag, or FILTERED_OUT. *)
Inductive deletion := Existed (b : bool) | DeleteFiltered.
Definition Delete (filter : option expr) (key : Outpoint) : AM deletion :=
  command (λ t,
    match t !! key with
    | None => (Existed false, t)
    | Some r =>
        if match filter with Some e => holds e r | None => true end
        then (Existed true, delete key t) else (DeleteFiltered, t)
    end).

(** [ctx.Err()]: a canceled context is a fault here. *)
Definition check_ctx : AM () := command (λ t, ((), t)).

(** A query: the records of the set are visited in an unspecified order, each as it is
    when its turn comes, until [max] were found ([None]: no limit). *)
Fixpoint visit (sel : expr) (keys : list Outpoint) (max : option nat) : AM (list (Outpoint * record)) :=
  match keys, max with
  | [], _ | _, Some O => mret []
  | key :: keys, max =>
      found ← Get key;
      match found with
      | Some r =>
          if holds sel r
          then rest ← visit sel keys (pred <$> max); mret ((key, r) :: rest)
          else visit sel keys max
      | None => visit sel keys max
      end
  end.
Definition streamQuery `{MapRange} (sel : expr) (max : option nat) : AM (list (Outpoint * record)) :=
  _ ← check_ctx;
  keys ← gets (λ c, (range_map (recs c)).*1);
  visit sel keys max.

(** ** The clock *)

(** Nanoseconds from Go's zero time to the Unix epoch. *)
Definition unixEpoch : Time := 62135596800 * 1000000000.
Definition UnixMilli (t : Time) : Z := (t - unixEpoch) / 1000000.
Definition msToTime (ms : Z) : Time := unixEpoch + 1000000 * ms.

Definition now (clk : nat → Time) : AM Time := λ c,
  (Ret (clk (ticks c)), mkConn (recs c) (cache c) (S (ticks c)) (events c)).
Definition nowMillis (clk : nat → Time) : AM Z := t ← now clk; mret (UnixMilli t).

(** ** The codec *)

Definition asInt64 (v : option value) : option Z :=
  match v with Some (VInt z) => Some z | _ => None end.
Definition asString (v : option value) : string :=
  match v with Some (VStr s) => s | _ => "" end.
Definition int_or_0 (v : option value) : Z := default 0 (asInt64 v).
Definition u8 (z : Z) : Z := z mod 2 ^ 8.

Definition recordToUTXO (b : record) : outcome error UTXO :=
  match b binTxID with
  | Some (VBlob n txid) =>
      if negb (n =? 32) then Err (ErrBackend (BackendFailed 0))
      else
        match asInt64 (b binVout) with
        | None => Err (ErrBackend (BackendFailed 0))
        | Some vout =>
            let resBy := asString (b binResBy) in
            Ret (mkUTXO (mkOutpoint txid (u32 vout)) (int_or_0 (b binUserID)) (asString (b binBasket))
              (u64 (int_or_0 (b binSats))) (u32 (int_or_0 (b binInpSize))) (u8 (int_or_0 (b binTier)))
              resBy
              (if decide (resBy = "") then zeroTime
               else match asInt64 (b binResAt) with Some at_ => msToTime at_ | None => zeroTime end)
              (match b binSpentBy with Some (VBlob 32 w) => Some w | _ => None end)
              (negb (int_or_0 (b binFrozen) =? 0)) (negb (int_or_0 (b binPinned) =? 0))
              (msToTime (int_or_0 (b binCreated))))
        end
  | _ => Err (ErrBackend (BackendFailed 0))
  end.

(** The bins of a fresh coin. *)
Definition mint_bins (created : Z) (m : UtxoTypes.Mint) : record := λ b,
  match b with
  | binTxID => Some (Hash_blob (TxID (m_Outpoint m)))
  | binVout => Some (VInt (Vout (m_Outpoint m)))
  | binUserID => Some (VInt (m_UserID m))
  | binBasket => Some (VStr (m_Basket m))
  | binTier => Some (VInt (m_Tier m))
  | binSats => Some (VInt (i64 (m_Satoshis m)))
  | binInpSize => Some (VInt (m_InputSize m))
  | binCreated => Some (VInt created)
  | binClaimKey => Some (VStr (claimKeyFor (m_UserID m) (m_Basket m) (m_Tier m) (bucketOf (m_Satoshis m))))
  | binInvKey => Some (VStr (invKeyFor (m_UserID m) (m_Basket m)))
  | _ => None
  end.

(** ** Opening *)

(** What the server answers: whether it is reached; its configuration of the namespace,
    if it gave one and it knows the namespace; its edition; which indexes it builds. *)
Record server := mkServer {
  sv_reachable : bool; sv_namespace : option (option text); sv_edition : option text; sv_builds : bin → bool }.
Inductive open_error :=
| ConnectFailed | InfoFailed | NamespaceNotFound | NoDefaultTTL | DefaultTTLNotZero (ttl : text)
| IndexFailed (b : bin).

Definition default_ttl : text := list_ascii_of_string "default-ttl=".
Definition CutPrefix (s prefix : text) : option text :=
  if has_prefix prefix s then Some (drop (length prefix) s) else None.
Fixpoint first_ttl (kvs : list text) : option text :=
  match kvs with
  | [] => None
  | kv :: rest => match CutPrefix kv default_ttl with Some v => Some v | None => first_ttl rest end
  end.
Definition validateDefaultTTL (raw : text) : option open_error :=
  match first_ttl (Split ";"%char raw) with
  | None => Some NoDefaultTTL
  | Some ttl => if decide (ttl = ["0"%char]) then None else Some (DefaultTTLNotZero ttl)
  end.
Definition checkFundSafety (sv : server) : option open_error :=
  match sv_namespace sv with
  | None => Some InfoFailed
  | Some None => Some NamespaceNotFound
  | Some (Some raw) => validateDefaultTTL raw
  end.
(** [resolveDurableDeletes]: whether deletes carry a tombstone. *)
Definition resolveDurableDeletes (forced : option bool) (sv : server) : bool :=
  match forced with
  | Some b => b
  | None => match sv_edition sv with
            | Some e => Contains (ToLower e) (list_ascii_of_string "enterprise")
            | None => false
            end
  end.
Definition indexSpecs : list bin := [binClaimKey; binInvKey; binResBy; binResAt].
Definition ensureIndexes (sv : server) : option open_error :=
  IndexFailed <$> head (filter (λ b, sv_builds sv b = false) indexSpecs).
End AeroDb.
