(* ===== verification/AeroStore.v ===== *)
(** * AeroStore: the Aerospike coin store

    [pkg/utxostore/aerostore]: the claim cache ([claim_cache.go]), the claims and
    reservations ([ops_claim.go]), spends ([ops_spend.go]), the inventory
    ([ops_inventory.go]), the queries ([query.go]) and the helpers of [aerostore.go],
    command by command on a connection of [AeroDb].

    [clk] is the store's clock, read by number.  A result of type [option error] is a
    per-item refusal; a failing command is an error of the monad, the code's [fatal].  A
    loop without a structural measure takes fuel and panics when it runs out; the
    theorems show that no run does. *)
From Stdlib Require Import Ascii String.
From S2P Require Import Prelude UtxoTypes GoStrings AeroDb.
Import AeroDb.
Local Open Scope string_scope.
Local Open Scope Z_scope.

Module AeroStore.

Definition claimSample : Z := 16.
Definition casBudget : Z := 8.
Definition casAttempts : nat := 2.
Definition defaultClaimCacheSize : Z := 512.
Definition defaultClaimCacheBuckets : Z := 1024.
Definition defaultClaimCacheEmptyTTL : Z := 1000000000.
Definition allTiers : list Tier := [TierSending; TierUnproven; TierMined].

Record Store := mkStore { conn : Conn; closed : bool }.
Definition with_conn (c : Conn) (s : Store) : Store := mkStore c (closed s).
Definition on_conn {A} (m : AM A) : M Store error A := zoom conn with_conn id m.
Definition guard_open {A} (k : M Store error A) : M Store error A := λ s,
  if closed s then (Err ErrClosed, s) else k s.
Definition guard_valid {A} (v : option error) (k : M Store error A) : M Store error A :=
  match v with Some e => throw e | None => k end.
Definition batch_result (es : list error) : outcome error () :=
  match JoinBatch es with None => Ret () | Some e => Err e end.
(** The error of a computation as a value. *)
Definition attempt {A} (m : AM A) : AM (error + A) := λ c,
  match m c with
  | (Ret a, c') => (Ret (inr a), c')
  | (Err e, c') => (Ret (inl e), c')
  | (Panic, c') => (Panic, c')
  end.
Definition out_of_fuel {A} : AM A := λ c, (Panic, c).

(** ** Opening *)

Record config := mkConfig {
  cf_durableDeletes : option bool; cf_claimCacheSize : Z; cf_claimCacheBuckets : Z; cf_claimCacheEmptyTTL : Z }.
Definition default_config : config :=
  mkConfig None defaultClaimCacheSize defaultClaimCacheBuckets defaultClaimCacheEmptyTTL.
Definition WithDurableDeletes (on : bool) (c : config) : config :=
  mkConfig (Some on) (cf_claimCacheSize c) (cf_claimCacheBuckets c) (cf_claimCacheEmptyTTL c).
Definition WithClaimCache (n : Z) (c : config) : config :=
  mkConfig (cf_durableDeletes c) n (cf_claimCacheBuckets c) (cf_claimCacheEmptyTTL c).
Definition WithClaimCacheBuckets (n : Z) (c : config) : config :=
  mkConfig (cf_durableDeletes c) (cf_claimCacheSize c) n (cf_claimCacheEmptyTTL c).
Definition WithClaimCacheEmptyTTL (d : Z) (c : config) : config :=
  mkConfig (cf_durableDeletes c) (cf_claimCacheSize c) (cf_claimCacheBuckets c) d.

Definition cache_of (cfg : config) : option claimCache :=
  if 0 <? cf_claimCacheSize cfg
  then Some (newClaimCache (cf_claimCacheSize cfg) (cf_claimCacheBuckets cfg) (cf_claimCacheEmptyTTL cfg))
  else None.
(** The store on the records [t] of the set, with what will happen while it runs, and
    whether its deletes carry a tombstone. *)
Definition New (opts : list (config → config)) (sv : server) (t : Table) (es : list event) :
    open_error + Store * bool :=
  let cfg := foldl (λ c opt, opt c) default_config opts in
  if negb (sv_reachable sv) then inl ConnectFailed
  else match checkFundSafety sv with
       | Some e => inl e
       | None =>
           match ensureIndexes sv with
           | Some e => inl e
           | None =>
               inr (mkStore (mkConn t (cache_of cfg) 0 es) false, resolveDurableDeletes (cf_durableDeletes cfg) sv)
           end
       end.

(** ** The claim cache *)

(** A section under the locks of the cache; the flag says whether another goroutine
    holds the refill token. *)
Definition section {A} (f : bool → claimCache → A * claimCache) : AM A := λ c,
  let '(e, c1) := arrive c in
  match cache c1 with
  | None => (Panic, c1)
  | Some cc => let '(a, cc') := f (ev_busy e) cc in (Ret a, with_cache (Some cc') c1)
  end.

Definition set_buckets (bs : gmap string claimBucket) (lru : list string) (next : nat) (cc : claimCache) : claimCache :=
  mkCache (cc_refill cc) (cc_maxBuckets cc) (cc_emptyTTL cc) bs lru next.

Definition evictLocked (cc : claimCache) : claimCache :=
  if 0 <? cc_maxBuckets cc then
    let n := Z.to_nat (cc_maxBuckets cc) in
    set_buckets (foldr delete (cc_buckets cc) (drop n (cc_lru cc))) (take n (cc_lru cc)) (cc_next cc) cc
  else cc.
(** [claimCache.bucket]. *)
Definition bucket (claimKey : string) (cc : claimCache) : claimBucket * claimCache :=
  match cc_buckets cc !! claimKey with
  | Some b =>
      (b, set_buckets (cc_buckets cc) (claimKey :: filter (λ k, k ≠ claimKey) (cc_lru cc)) (cc_next cc) cc)
  | None =>
      let b := mkBucket (cc_next cc) [] false zeroTime 0 in
      (b, evictLocked (set_buckets (<[claimKey := b]> (cc_buckets cc)) (claimKey :: cc_lru cc) (S (cc_next cc)) cc))
  end.
(** A change of the bucket the caller holds; one that was evicted meanwhile is changed
    for its holder only. *)
Definition on_bucket {A} (claimKey : string) (b : claimBucket) (f : claimBucket → A * claimBucket)
    (cc : claimCache) : (A * claimBucket) * claimCache :=
  match cc_buckets cc !! claimKey with
  | Some cur =>
      if (cb_id cur =? cb_id b)%nat then
        let '(a, b') := f cur in
        ((a, b'), set_buckets (<[claimKey := b']> (cc_buckets cc)) (cc_lru cc) (cc_next cc) cc)
      else (f b, cc)
  | None => (f b, cc)
  end.
Definition markClaimable (claimKey : string) (cc : claimCache) : claimCache :=
  match cc_buckets cc !! claimKey with
  | None => cc
  | Some b =>
      set_buckets (<[claimKey := mkBucket (cb_id b) (cb_cands b) false (cb_probedAt b) (u64 (cb_gen b + 1))]>
                     (cc_buckets cc)) (cc_lru cc) (cc_next cc) cc
  end.

Definition knownEmptyLocked (t : Time) (ttl : Z) (b : claimBucket) : bool :=
  cb_probedEmpty b && (length (cb_cands b) =? 0)%nat && (0 <? ttl) && (Sub t (cb_probedAt b) <? ttl).

(** The index of the candidate a pull takes: the first match, or the preferred one. *)
Fixpoint best_index (pred : Z → bool) (prefer : option (Z → Z → bool)) (i : nat) (l : list candidate)
    (best : option (nat * Z)) : option nat :=
  match l with
  | [] => fst <$> best
  | c :: l' =>
      if negb (pred (c_sats c)) then best_index pred prefer (S i) l' best
      else match best, prefer with
           | None, None => Some i
           | None, Some _ => best_index pred prefer (S i) l' (Some (i, c_sats c))
           | Some (_, s), Some p =>
               best_index pred prefer (S i) l' (if p (c_sats c) s then Some (i, c_sats c) else best)
           | Some _, None => best_index pred prefer (S i) l' best
           end
  end.
(** The last candidate takes the place of the one that leaves. *)
Definition swap_remove (i : nat) (l : list candidate) : list candidate :=
  match last l with Some x => take (length l - 1) (<[i := x]> l) | None => [] end.
Fixpoint pull (pred : Z → bool) (prefer : option (Z → Z → bool)) (want : nat) (l : list candidate) :
    list candidate * list candidate :=
  match want with
  | O => ([], l)
  | S want =>
      match best_index pred prefer 0 l None with
      | None => ([], l)
      | Some i =>
          match l !! i with
          | None => ([], l)
          | Some c => let '(out, rest) := pull pred prefer want (swap_remove i l) in (c :: out, rest)
          end
      end
  end.
Definition pullLocked (pred : Z → bool) (prefer : option (Z → Z → bool)) (want : Z) (b : claimBucket) :
    list candidate * claimBucket :=
  let '(out, rest) := pull pred prefer (Z.to_nat want) (cb_cands b) in
  (out, mkBucket (cb_id b) rest (cb_probedEmpty b) (cb_probedAt b) (cb_gen b)).

Definition sampleSize (want : Z) : Z := if want <? claimSample then claimSample else want.
(** Equal amounts, whose order [sort.Slice] leaves open, stay as they were probed. *)
Definition by_preference (prefer : Z → Z → bool) (a b : candidate) : comparison :=
  if prefer (c_sats a) (c_sats b) then Lt else if prefer (c_sats b) (c_sats a) then Gt else Eq.
Definition preferredMatches (cands : list candidate) (pred : Z → bool) (prefer : option (Z → Z → bool))
    (want : Z) : list candidate :=
  let out := filter (λ c, pred (c_sats c) = true) cands in
  let out := match prefer with Some p => SortFunc (by_preference p) out | None => out end in
  slice_to want out.

Section store.
Context `{MapRange} (clk : nat → Time).

Definition probe (claimKey : string) (valueFilter : option expr) (maxRecords : Z) : AM (list candidate) :=
  found ← streamQuery (ExpAnd (ExpEq binClaimKey (VStr claimKey) :: option_list valueFilter))
            (Some (Z.to_nat maxRecords));
  mret ((λ kr, mkCand kr.1 kr.2 (u64 (int_or_0 (kr.2 binSats)))) <$> found).

(** What the holder of the refill token does with the outcome of its probe. *)
Definition refreshed (g : Z) (t : Time) (probed : list candidate) (b : claimBucket) : claimBucket :=
  match probed with
  | _ :: _ => mkBucket (cb_id b) probed false (cb_probedAt b) (cb_gen b)
  | [] =>
      if cb_gen b =? g then mkBucket (cb_id b) [] true t (cb_gen b)
      else mkBucket (cb_id b) [] (cb_probedEmpty b) (cb_probedAt b) (cb_gen b)
  end.

(** The candidates, and whether the bucket holds no claimable coin at all. *)
Definition refillAndPull (claimKey : string) (b : claimBucket) (pred : Z → bool)
    (prefer : option (Z → Z → bool)) (want : Z) : AM (list candidate * bool) :=
  '(busy, g, ttl, refill) ← section (λ busy cc,
     let '((g, _), cc') := on_bucket claimKey b (λ b, (cb_gen b, b)) cc in
     ((busy, g, cc_emptyTTL cc, cc_refill cc), cc'));
  if (busy : bool) then
    _ ← check_ctx;
    t ← now clk;
    '((out, known), _) ← section (λ _, on_bucket claimKey b (λ b,
       let '(out, b') := pullLocked pred prefer want b in ((out, knownEmptyLocked t ttl b'), b')));
    mret (out, known)
  else
    probed ← attempt (probe claimKey None refill);
    match probed with
    | inl e =>
        _ ← section (λ _, on_bucket claimKey b (pullLocked pred prefer want));
        throw e
    | inr probed =>
        t ← (if decide (length probed = 0%nat) then now clk else mret zeroTime);
        '(out, _) ← section (λ _, on_bucket claimKey b (λ b, pullLocked pred prefer want (refreshed g t probed b)));
        mret (out, bool_decide (length probed = 0%nat))
    end.

Definition filteredProbe (claimKey : string) (valueFilter : expr) (pred : Z → bool)
    (prefer : option (Z → Z → bool)) (want : Z) : AM (list candidate) :=
  cands ← probe claimKey (Some valueFilter) (sampleSize want);
  mret (preferredMatches cands pred prefer want).

Definition take_cands (claimKey : string) (valueFilter : expr) (pred : Z → bool)
    (prefer : option (Z → Z → bool)) (want : Z) : AM (list candidate) :=
  if want <=? 0 then mret []
  else
    _ ← check_ctx;
    b ← section (λ _, bucket claimKey);
    t ← now clk;
    '((out, known), b) ← section (λ _ cc, on_bucket claimKey b (λ b,
       let '(out, b') := pullLocked pred prefer want b in
       ((out, knownEmptyLocked t (cc_emptyTTL cc) b'), b')) cc);
    if (want <=? Z.of_nat (length out)) || known then mret out
    else
      '(more, empty) ← refillAndPull claimKey b pred prefer (want - Z.of_nat (length out));
      if bool_decide (length (out ++ more) ≠ 0%nat) || empty then mret (out ++ more)%list
      else filteredProbe claimKey valueFilter pred prefer want.

(** [claimCands]: from the cache, or from a probe when there is none. *)
Definition claimCands (claimKey : string) (valueFilter : expr) (pred : Z → bool)
    (prefer : option (Z → Z → bool)) (want : Z) : AM (list candidate) :=
  enabled ← gets (λ c, match cache c with Some _ => true | None => false end);
  if (enabled : bool) then take_cands claimKey valueFilter pred prefer want
  else
    cands ← probe claimKey (Some valueFilter) (sampleSize want);
    mret (preferredMatches cands pred prefer want).

Definition note (claimKey : string) : AM () := λ c,
  match cache c with
  | None => (Ret (), c)
  | Some _ => section (λ _ cc, ((), markClaimable claimKey cc)) c
  end.
Definition noteClaimable (userID : Z) (basket : string) (tier : Tier) (sats : Z) : AM () :=
  note (claimKeyFor userID basket tier (bucketOf sats)).
Definition noteClaimableAllTiers (userID : Z) (basket : string) (sats : Z) : AM () :=
  foldr (λ t m, _ ← noteClaimable userID basket t sats; m) (mret ()) allTiers.

(** ** Records *)

Definition of_record (r : record) : AM UTXO := lift (recordToUTXO r).

Inductive deleteResult := deleteRemoved | deleteGuardLost | deleteAbsent.
Definition deleteRecordGuarded (op : Outpoint) (guard : option expr) : AM deleteResult :=
  r ← Delete guard op;
  mret (match r with
        | Existed true => deleteRemoved
        | Existed false => deleteAbsent
        | DeleteFiltered => deleteGuardLost
        end).

Definition restoreClaimKeyOp (skipWhen : expr) (u : UTXO) : operation :=
  ExpWriteOp binClaimKey
    ((skipWhen, None) ::
     ((λ t, (ExpEq binTier (VInt t),
             Some (VStr (claimKeyFor (u_UserID u) (u_Basket u) t (bucketOf (u_Satoshis u)))))) <$> allTiers)).

(** ** Claims *)

Definition reserve_ops (reservation : string) (nowMs : Z) : list operation :=
  [PutOp binResBy (VStr reservation); PutOp binResAt (VInt nowMs); removeBinOp binClaimKey].
Definition reserve (c : candidate) (claimKey reservation : string) (nowMs : Z) : AM (option UTXO) :=
  r ← Operate (Some (ExpEq binClaimKey (VStr claimKey))) (c_key c)
        (reserve_ops reservation nowMs);
  match r with
  | Done => u ← of_record (c_rec c); mret (Some (set_reservation reservation (msToTime nowMs) u))
  | _ => mret None
  end.

(** The candidates in turn: the coin won, or the losses so far. *)
Fixpoint first_won (claimKey reservation : string) (cands : list candidate) (losses : Z) : AM (UTXO + Z) :=
  match cands with
  | [] => mret (inr losses)
  | c :: cands =>
      ms ← nowMillis clk;
      won ← reserve c claimKey reservation ms;
      match won with
      | Some u => mret (inl u)
      | None =>
          if casBudget <=? losses + 1 then throw ErrContention
          else first_won claimKey reservation cands (losses + 1)
      end
  end.
Fixpoint smallest_in (fuel : nat) (claimKey reservation : string) (minSats losses : Z) : AM (UTXO + Z) :=
  match fuel with
  | O => out_of_fuel
  | S fuel =>
      cands ← claimCands claimKey (ExpGreaterEq binSats (i64 minSats)) (λ sats, minSats <=? sats) (Some Z.ltb) 1;
      match cands with
      | [] => mret (inr losses)
      | _ =>
          r ← first_won claimKey reservation cands losses;
          match r with
          | inl u => mret (inl u)
          | inr losses => smallest_in fuel claimKey reservation minSats losses
          end
      end
  end.
Fixpoint walk_up (sc : Scope) (reservation : string) (minSats : Z) (buckets : list Z) (losses : Z) :
    AM (option UTXO) :=
  match buckets with
  | [] => if 0 <? losses then throw ErrContention else mret None
  | b :: buckets =>
      _ ← check_ctx;
      r ← smallest_in (S (Z.to_nat casBudget)) (claimKeyFor (sc_UserID sc) (sc_Basket sc) (sc_Tier sc) b)
            reservation minSats losses;
      match r with
      | inl u => mret (Some u)
      | inr losses => walk_up sc reservation minSats buckets losses
      end
  end.
(** The buckets from [b] up. *)
Definition from_bucket (b : Z) : list Z := seqZ b (bucketCount - b).
Definition ClaimSmallestSufficient (sc : Scope) (reservation : string) (minSats : Z) :
    M Store error (option UTXO) :=
  guard_open $ guard_valid (ValidateClaim sc reservation) $ on_conn $
    walk_up sc reservation minSats (from_bucket (bucketOf minSats)) 0.

(** One batch of candidates for a claim of several: what is claimed then, the losses and
    whether a candidate was won.  [budget]: losing too often with nothing won gives up. *)
Fixpoint claim_batch (budget : bool) (claimKey reservation : string) (limit : Z) (cands : list candidate)
    (claimed : list UTXO) (losses : Z) (progressed : bool) : AM (list UTXO * Z * bool) :=
  match cands with
  | [] => mret (claimed, losses, progressed)
  | c :: cands =>
      if limit <=? Z.of_nat (length claimed) then mret (claimed, losses, progressed)
      else
        ms ← nowMillis clk;
        won ← reserve c claimKey reservation ms;
        match won with
        | Some u => claim_batch budget claimKey reservation limit cands (claimed ++ [u])%list losses true
        | None =>
            if budget && (casBudget <=? losses + 1) && (length claimed =? 0)%nat then throw ErrContention
            else claim_batch budget claimKey reservation limit cands claimed (losses + 1) progressed
        end
  end.
Fixpoint largest_in (fuel : nat) (claimKey reservation : string) (capSats limit : Z)
    (claimed : list UTXO) (losses : Z) : AM (list UTXO * Z) :=
  if limit <=? Z.of_nat (length claimed) then mret (claimed, losses)
  else
    match fuel with
    | O => out_of_fuel
    | S fuel =>
        cands ← claimCands claimKey (ExpLess binSats (i64 capSats)) (λ sats, sats <? capSats) (Some Z.gtb)
                  (limit - Z.of_nat (length claimed));
        match cands with
        | [] => mret (claimed, losses)
        | _ =>
            '(claimed, losses, progressed) ← claim_batch true claimKey reservation limit cands claimed losses false;
            if (progressed : bool) then largest_in fuel claimKey reservation capSats limit claimed losses
            else mret (claimed, losses)
        end
    end.
Fixpoint walk_down (sc : Scope) (reservation : string) (capSats limit : Z) (buckets : list Z)
    (claimed : list UTXO) (losses : Z) : AM (list UTXO * Z) :=
  match buckets with
  | [] => mret (claimed, losses)
  | b :: buckets =>
      if limit <=? Z.of_nat (length claimed) then mret (claimed, losses)
      else
        _ ← check_ctx;
        '(claimed, losses) ← largest_in (S (Z.to_nat limit))
            (claimKeyFor (sc_UserID sc) (sc_Basket sc) (sc_Tier sc) b) reservation capSats limit claimed losses;
        walk_down sc reservation capSats limit buckets claimed losses
  end.
(** The buckets from [b] down. *)
Definition down_from (b : Z) : list Z := reverse (seqZ 0 (b + 1)).
Definition contended (claimed : list UTXO) (losses : Z) : AM (list UTXO) :=
  if (length claimed =? 0)%nat && (0 <? losses) then throw ErrContention else mret claimed.
Definition ClaimLargestInsufficient (sc : Scope) (reservation : string) (capSats limit : Z) :
    M Store error (list UTXO) :=
  guard_open $ guard_valid (ValidateClaim sc reservation) $
    if (limit <=? 0) || (capSats =? 0) then mret []
    else on_conn $
      '(claimed, losses) ← walk_down sc reservation capSats limit (down_from (bucketOf (capSats - 1))) [] 0;
      contended claimed losses.

Fixpoint exact_in (fuel : nat) (claimKey reservation : string) (denomination count : Z)
    (claimed : list UTXO) (losses : Z) : AM (list UTXO * Z) :=
  if count <=? Z.of_nat (length claimed) then mret (claimed, losses)
  else
    match fuel with
    | O => out_of_fuel
    | S fuel =>
        _ ← check_ctx;
        cands ← claimCands claimKey (ExpEq binSats (VInt (i64 denomination))) (λ sats, sats =? denomination)
                  None (count - Z.of_nat (length claimed));
        match cands with
        | [] => mret (claimed, losses)
        | _ =>
            '(claimed, losses, progressed) ← claim_batch false claimKey reservation count cands claimed losses false;
            if (progressed : bool) then exact_in fuel claimKey reservation denomination count claimed losses
            else mret (claimed, losses)
        end
    end.
Definition ClaimExact (sc : Scope) (reservation : string) (denomination count : Z) :
    M Store error (list UTXO) :=
  guard_open $ guard_valid (ValidateClaim sc reservation) $
    if count <=? 0 then mret []
    else on_conn $
      '(claimed, losses) ← exact_in (S (Z.to_nat count))
         (claimKeyFor (sc_UserID sc) (sc_Basket sc) (sc_Tier sc) (bucketOf denomination))
         reservation denomination count [] 0;
      contended claimed losses.

(** ** Release and pin *)

(** What a loop did so far with the error that stopped it, [return n, err]. *)
Definition counted {A} (n : Z) (m : AM A) (k : A → AM (Z * option error)) : AM (Z * option error) :=
  r ← attempt m;
  match r with inl e => mret (n, Some e) | inr a => k a end.
Definition tally (n : Z) (ok : bool) : Z := if ok then n + 1 else n.

(** A loop over a batch. *)
Fixpoint for_each {A B} (f : A → AM B) (l : list A) : AM (list B) :=
  match l with
  | [] => mret []
  | x :: l => y ← f x; ys ← for_each f l; mret (y :: ys)
  end.
(** A loop that counts what it changed. *)
Fixpoint count_each {A} (f : A → AM bool) (l : list A) (n : Z) : AM (Z * option error) :=
  match l with
  | [] => mret (n, None)
  | x :: l => counted n (f x) (λ ok, count_each f l (tally n ok))
  end.

Definition reserved_by (reservation : string) : expr := ExpEq binResBy (VStr reservation).
Definition spent_by (w : Hash) : expr := ExpEq binSpentBy (Hash_blob w).
Definition unspent : expr := ExpNot (ExpBinExists binSpentBy).
Definition unpinned : expr := ExpNot (ExpBinExists binPinned).
Definition owned_by (userID : Z) : expr := ExpEq binUserID (VInt userID).
Definition is_done (r : result) : bool := match r with Done => true | _ => false end.

Definition release_guard (reservation : string) (overridePin : bool) : expr :=
  ExpAnd ([reserved_by reservation; unspent] ++ if overridePin then [] else [unpinned])%list.
Definition release_ops (u : UTXO) (overridePin : bool) : list operation :=
  ([removeBinOp binResBy; removeBinOp binResAt] ++ (if overridePin then [removeBinOp binPinned] else []) ++
   [restoreClaimKeyOp (ExpBinExists binFrozen) u])%list.
Definition releaseRow (u : UTXO) (reservation : string) (overridePin : bool) : AM bool :=
  r ← Operate (Some (release_guard reservation overridePin)) (u_Outpoint u) (release_ops u overridePin);
  match r with
  | Done => _ ← noteClaimableAllTiers (u_UserID u) (u_Basket u) (u_Satoshis u); mret true
  | _ => mret false
  end.

(** The rows a query finds, decoded. *)
Fixpoint decode_all (rs : list (Outpoint * record)) : AM (list UTXO) :=
  match rs with
  | [] => mret []
  | kr :: rs => u ← of_record kr.2; us ← decode_all rs; mret (u :: us)
  end.
Definition found_coins (sel : expr) : AM (list UTXO) := found ← streamQuery sel None; decode_all found.

Definition ReleaseReservation (userID : Z) (reservation : string) : M Store error (Z * option error) :=
  guard_open $ guard_valid (ValidateReservation reservation) $ on_conn $
    rows ← found_coins (ExpAnd [reserved_by reservation; owned_by userID; unspent; unpinned]);
    count_each (λ u, _ ← check_ctx; releaseRow u reservation false) rows 0.

Definition pinState (pinned : bool) : expr := if pinned then unpinned else ExpBinExists binPinned.
Definition pinOp (pinned : bool) : operation :=
  if pinned then PutOp binPinned (VInt 1) else removeBinOp binPinned.
Definition setPinnedRow (op : Outpoint) (reservation : string) (pinned : bool) : AM bool :=
  r ← Operate (Some (ExpAnd [reserved_by reservation; unspent; pinState pinned])) op [pinOp pinned];
  mret (is_done r).
Definition setPinned (userID : Z) (reservation : string) (pinned : bool) : M Store error (Z * option error) :=
  guard_open $ guard_valid (ValidateReservation reservation) $ on_conn $
    rows ← found_coins (ExpAnd [reserved_by reservation; owned_by userID; unspent; pinState pinned]);
    count_each (λ op, _ ← check_ctx; setPinnedRow op reservation pinned) (u_Outpoint <$> rows) 0.
Definition Pin (userID : Z) (reservation : string) : M Store error (Z * option error) :=
  setPinned userID reservation true.
Definition Unpin (userID : Z) (reservation : string) : M Store error (Z * option error) :=
  setPinned userID reservation false.

Fixpoint release_named (reservation : string) (ops : list Outpoint) : AM () :=
  match ops with
  | [] => mret ()
  | op :: ops =>
      found ← AeroDb.Get op;
      match found with
      | None => release_named reservation ops
      | Some r =>
          u ← of_record r;
          if decide (u_ReservedBy u ≠ reservation ∨ u_SpentBy u ≠ None) then release_named reservation ops
          else _ ← releaseRow u reservation true; release_named reservation ops
      end
  end.
Definition ReleaseOutpoints (reservation : string) (ops : list Outpoint) : M Store error () :=
  guard_open $ guard_valid (ValidateReservation reservation) $ on_conn $ release_named reservation ops.

(** ** Reserving named outpoints *)

Fixpoint distinct_from (seen : gset Outpoint) (ops : list Outpoint) : list Outpoint :=
  match ops with
  | [] => []
  | op :: ops' =>
      if decide (op ∈ seen) then distinct_from seen ops' else op :: distinct_from ({[op]} ∪ seen) ops'
  end.
Definition distinctOutpoints (ops : list Outpoint) : list Outpoint := distinct_from ∅ ops.

(** [inl]: refused; [inr (u, satisfied)]. *)
Definition reserve_verdict (op : Outpoint) (userID : Z) (reservation : string) (row : UTXO) : error + UTXO * bool :=
  if decide (u_UserID row ≠ userID) then inl (NotFoundError op)
  else match u_SpentBy row with
       | Some w => inl (SpentError op w)
       | None =>
           if decide (u_ReservedBy row ≠ "" ∧ u_ReservedBy row ≠ reservation)
           then inl (ReservedError op (u_ReservedBy row))
           else if u_Frozen row then inl (FrozenError op)
           else inr (row, bool_decide (u_ReservedBy row = reservation))
       end.
Definition classifyForReserve (op : Outpoint) (userID : Z) (reservation : string) : AM (error + UTXO * bool) :=
  found ← AeroDb.Get op;
  match found with
  | None => mret (inl (NotFoundError op))
  | Some r => row ← of_record r; mret (reserve_verdict op userID reservation row)
  end.
Definition casReserveOutpoint (u : UTXO) (userID : Z) (reservation : string) (nowMs : Z) : AM bool :=
  r ← Operate (Some (ExpAnd [ExpBinExists binClaimKey; owned_by userID])) (u_Outpoint u)
        (reserve_ops reservation nowMs);
  mret (is_done r).
(** [inl]: refused; [inr (Some u)]: this call reserved the row. *)
Definition reserveOutpointOne (op : Outpoint) (userID : Z) (reservation : string) (nowMs : Z) :
    AM (error + option UTXO) :=
  v ← classifyForReserve op userID reservation;
  match v with
  | inl e => mret (inl e)
  | inr (_, true) => mret (inr None)
  | inr (u, false) =>
      ok ← casReserveOutpoint u userID reservation nowMs;
      if (ok : bool) then mret (inr (Some (set_reservation reservation (msToTime nowMs) u)))
      else
        v ← classifyForReserve op userID reservation;
        match v with
        | inl e => mret (inl e)
        | inr (_, true) => mret (inr None)
        | inr (_, false) => throw ErrContention
        end
  end.
Fixpoint undoReserveOutpoints (won : list UTXO) (reservation : string) : AM () :=
  match won with
  | [] => mret ()
  | u :: won => _ ← attempt (releaseRow u reservation false); undoReserveOutpoints won reservation
  end.
Fixpoint reserve_all (userID : Z) (reservation : string) (nowMs : Z) (ops : list Outpoint)
    (itemErrs : list error) (won : list UTXO) : AM (list error * list UTXO) :=
  match ops with
  | [] => mret (itemErrs, won)
  | op :: ops =>
      v ← attempt (reserveOutpointOne op userID reservation nowMs);
      match v with
      | inl fatal => _ ← undoReserveOutpoints won reservation; throw fatal
      | inr (inl e) => reserve_all userID reservation nowMs ops (itemErrs ++ [e])%list won
      | inr (inr u) => reserve_all userID reservation nowMs ops itemErrs (won ++ option_list u)%list
      end
  end.
Definition ReserveOutpoints (userID : Z) (reservation : string) (ops : list Outpoint) : M Store error () :=
  guard_open $ guard_valid (ValidateReserveOutpoints reservation ops) $ on_conn $
    ms ← nowMillis clk;
    '(itemErrs, won) ← reserve_all userID reservation ms (distinctOutpoints ops) [] [];
    match itemErrs with
    | [] => mret ()
    | _ => _ ← undoReserveOutpoints won reservation; lift (batch_result itemErrs)
    end.

(** ** Spend *)

Definition spend_filter (sp : SpendOp) (force : bool) : expr :=
  if force then ExpOr [unspent; spent_by (sp_SpendingTxID sp)]
  else ExpAnd [reserved_by (sp_Reservation sp); unspent; ExpNot (ExpBinExists binFrozen)].
Definition spend_ops (sp : SpendOp) (force : bool) : list operation :=
  ([PutOp binSpentBy (Hash_blob (sp_SpendingTxID sp)); removeBinOp binInvKey; removeBinOp binPinned] ++
   if force then [removeBinOp binClaimKey] else [])%list.

(** The verdict and whether to try again. *)
Definition spend_verdict (sp : SpendOp) (force : bool) (u : UTXO) : option error * bool :=
  match u_SpentBy u with
  | Some w =>
      if w =? sp_SpendingTxID sp then (None, false) else (Some (SpentError (sp_Outpoint sp) w), false)
  | None =>
      if negb force && u_Frozen u then (Some (FrozenError (sp_Outpoint sp)), false)
      else if negb force && bool_decide (u_ReservedBy u ≠ sp_Reservation sp)
      then (Some (ReservedError (sp_Outpoint sp) (u_ReservedBy u)), false)
      else (None, true)
  end.
Definition classifySpendFailure (sp : SpendOp) (force : bool) : AM (option error * bool) :=
  found ← AeroDb.Get (sp_Outpoint sp);
  match found with
  | None => mret (Some (NotFoundError (sp_Outpoint sp)), false)
  | Some r => u ← of_record r; mret (spend_verdict sp force u)
  end.
Definition spendFallbackError (sp : SpendOp) (force : bool) : AM error :=
  found ← AeroDb.Get (sp_Outpoint sp);
  match found with
  | None => mret (NotFoundError (sp_Outpoint sp))
  | Some r =>
      if force then mret ErrContention
      else u ← of_record r; mret (ReservedError (sp_Outpoint sp) (u_ReservedBy u))
  end.
Fixpoint spend_attempts (n : nat) (sp : SpendOp) (force : bool) : AM (option error) :=
  match n with
  | O => e ← spendFallbackError sp force; mret (Some e)
  | S n =>
      r ← Operate (Some (spend_filter sp force)) (sp_Outpoint sp) (spend_ops sp force);
      match r with
      | Done => mret None
      | _ =>
          '(classified, retry) ← classifySpendFailure sp force;
          if (retry : bool) then spend_attempts n sp force else mret classified
      end
  end.
(** The error of an item, a failing command's included. *)
Definition item_error (m : AM (option error)) : AM (option error) :=
  r ← attempt m; mret (match r with inl e => Some e | inr v => v end).
Definition spendOne (force : bool) (sp : SpendOp) : AM (option error) :=
  match ValidateSpend sp with
  | Some e => mret (Some e)
  | None => item_error (spend_attempts casAttempts sp force)
  end.
Definition count_failed (es : list (option error)) : Z := Z.of_nat (length (filter is_Some es)).
(** The items' [Err] slots and the error returned. *)
Definition Spend (spends : list SpendOp) (force : bool) : M Store error (list (option error) * option error) :=
  guard_open $ on_conn $
    es ← for_each (spendOne force) spends;
    mret (es, BatchCountErr (count_failed es) (Z.of_nat (length spends))).

Definition unspend_ops (u : UTXO) : list operation :=
  [removeBinOp binSpentBy; removeBinOp binResBy; removeBinOp binResAt; removeBinOp binPinned;
   PutOp binInvKey (VStr (invKeyFor (u_UserID u) (u_Basket u)));
   restoreClaimKeyOp (ExpBinExists binFrozen) u].
Definition unspendOne (spendingTxID : Hash) (op : Outpoint) : AM bool :=
  found ← AeroDb.Get op;
  match found with
  | None => mret false
  | Some r =>
      u ← of_record r;
      if decide (u_SpentBy u ≠ Some spendingTxID) then mret false
      else
        r ← Operate (Some (spent_by spendingTxID)) op (unspend_ops u);
        match r with
        | Done => _ ← noteClaimableAllTiers (u_UserID u) (u_Basket u) (u_Satoshis u); mret true
        | _ => mret false
        end
  end.
Definition Unspend (spendingTxID : Hash) (ops : list Outpoint) : M Store error (Z * option error) :=
  guard_open $ on_conn $ count_each (unspendOne spendingTxID) ops 0.

Definition is_removed (r : deleteResult) : bool := match r with deleteRemoved => true | _ => false end.
Definition RemoveSpentBy (spendingTxID : Hash) : M Store error (Z * option error) :=
  guard_open $ on_conn $
    rows ← found_coins (spent_by spendingTxID);
    count_each (λ op, _ ← check_ctx; res ← deleteRecordGuarded op (Some (spent_by spendingTxID)); mret (is_removed res))
      (u_Outpoint <$> rows) 0.

(** ** Inventory *)

Definition same_identity (u : UTXO) (m : UtxoTypes.Mint) : bool :=
  bool_decide (u_UserID u = m_UserID m ∧ u_Basket u = m_Basket m ∧
               u_Satoshis u = m_Satoshis m ∧ u_InputSize u = m_InputSize m).
Definition mint_row (m : UtxoTypes.Mint) : AM (option error) :=
  ms ← nowMillis clk;
  created ← PutBins (m_Outpoint m) (mint_bins ms m);
  if (created : bool) then
    _ ← noteClaimable (m_UserID m) (m_Basket m) (m_Tier m) (m_Satoshis m); mret None
  else
    found ← AeroDb.Get (m_Outpoint m);
    match found with
    | None => mret (Some (ErrBackend NoRows))
    | Some r =>
        u ← of_record r;
        mret (if same_identity u m then None else Some (AlreadyExistsError (m_Outpoint m)))
    end.
Definition mintOne (m : UtxoTypes.Mint) : AM (option error) :=
  match ValidateMint m with
  | Some e => mret (Some e)
  | None => item_error (mint_row m)
  end.
Definition Mint (mints : list UtxoTypes.Mint) : M Store error (list (option error) * option error) :=
  guard_open $ on_conn $
    es ← for_each mintOne mints;
    mret (es, BatchCountErr (count_failed es) (Z.of_nat (length mints))).

Definition Get (op : Outpoint) : M Store error UTXO :=
  guard_open $ on_conn $
    found ← AeroDb.Get op;
    match found with None => throw (NotFoundError op) | Some r => of_record r end.

Definition phantomFilter : expr := ExpAnd [ExpNot (ExpBinExists binResBy); unspent].
Definition removableFilter : expr :=
  ExpAnd [ExpNot (ExpBinExists binResBy); unspent; ExpNot (ExpBinExists binFrozen)].
Definition remove_refusal (op : Outpoint) (u : UTXO) : option error :=
  match u_SpentBy u with
  | Some w => Some (SpentError op w)
  | None =>
      if decide (u_ReservedBy u ≠ "") then Some (ReservedError op (u_ReservedBy u))
      else if u_Frozen u then Some (FrozenError op) else None
  end.
Fixpoint remove_attempts (n : nat) (op : Outpoint) : AM (option error) :=
  match n with
  | O => mret (Some ErrContention)
  | S n =>
      found ← AeroDb.Get op;
      match found with
      | None => mret None
      | Some r =>
          u ← of_record r;
          match remove_refusal op u with
          | Some e => mret (Some e)
          | None =>
              res ← deleteRecordGuarded op (Some removableFilter);
              match res with deleteGuardLost => remove_attempts n op | _ => mret None end
          end
      end
  end.
Definition removeOne (force : bool) (op : Outpoint) : AM (option error) :=
  if force then item_error (_ ← deleteRecordGuarded op None; mret None)
  else item_error (remove_attempts casAttempts op).
Definition Remove (ops : list Outpoint) (force : bool) : M Store error () :=
  guard_open $ on_conn $
    es ← for_each (removeOne force) ops; lift (batch_result (omap id es)).

Definition freeze_ops : list operation := [PutOp binFrozen (VInt 1); removeBinOp binClaimKey].
Definition freezeOne (op : Outpoint) : AM (option error) :=
  item_error (
    r ← Operate None op freeze_ops;
    mret (match r with Done => None | _ => Some (NotFoundError op) end)).
Definition Freeze (ops : list Outpoint) : M Store error () :=
  guard_open $ on_conn $ es ← for_each freezeOne ops; lift (batch_result (omap id es)).

Definition unfreeze_ops (u : UTXO) : list operation :=
  [removeBinOp binFrozen;
   restoreClaimKeyOp (ExpOr [ExpBinExists binResBy; ExpBinExists binSpentBy]) u].
Definition unfreezeOne (op : Outpoint) : AM (option error) :=
  item_error (
    found ← AeroDb.Get op;
    match found with
    | None => mret (Some (NotFoundError op))
    | Some r =>
        u ← of_record r;
        r ← Operate None op (unfreeze_ops u);
        match r with
        | Done => _ ← noteClaimableAllTiers (u_UserID u) (u_Basket u) (u_Satoshis u); mret None
        | _ => mret (Some (NotFoundError op))
        end
    end).
Definition Unfreeze (ops : list Outpoint) : M Store error () :=
  guard_open $ on_conn $ es ← for_each unfreezeOne ops; lift (batch_result (omap id es)).

Definition promote_ops (u : UTXO) (to : Tier) : list operation :=
  [PutOp binTier (VInt to);
   ExpWriteOp binClaimKey
     [(ExpBinExists binClaimKey,
       Some (VStr (claimKeyFor (u_UserID u) (u_Basket u) to (bucketOf (u_Satoshis u)))))]].
Definition promoteOne (to : Tier) (op : Outpoint) : AM bool :=
  found ← AeroDb.Get op;
  match found with
  | None => mret false
  | Some r =>
      u ← of_record r;
      if u_Tier u =? to then mret false
      else
        r ← Operate None op (promote_ops u to);
        match r with
        | Done => _ ← noteClaimable (u_UserID u) (u_Basket u) to (u_Satoshis u); mret true
        | _ => mret false
        end
  end.
Definition Promote (ops : list Outpoint) (to : Tier) : M Store error (Z * option error) :=
  guard_open $
    guard_valid (if Tier_Valid to then None else Some (ErrInvalid (TargetTierInvalid to))) $
    on_conn $ count_each (promoteOne to) ops 0.

(** *** RemoveByMintTx *)

(** The row kept, or whether the row was removed. *)
Fixpoint remove_mint_attempts (n : nat) (op : Outpoint) : AM (option UTXO * bool) :=
  match n with
  | O => throw ErrContention
  | S n =>
      found ← AeroDb.Get op;
      match found with
      | None => mret (None, false)
      | Some r =>
          u ← of_record r;
          if decide (u_SpentBy u ≠ None ∨ u_ReservedBy u ≠ "") then mret (Some u, false)
          else
            res ← deleteRecordGuarded op (Some phantomFilter);
            match res with
            | deleteRemoved => mret (None, true)
            | deleteAbsent => mret (None, false)
            | deleteGuardLost => remove_mint_attempts n op
            end
      end
  end.
Definition removeMintTxOp (op : Outpoint) : AM (option UTXO * bool) := remove_mint_attempts casAttempts op.

(** The locals of the loop. *)
Record mint_scan := mkScan {
  reservedRefs : gmap string ReservationRef;
  refOrder : list string;
  seenSpenders : gset Hash;
  report : RemoveByMintReport;
}.
Definition with_ref (ref : ReservationRef) (order : list string) (st : mint_scan) : mint_scan :=
  mkScan (<[ref_Reservation ref := ref]> (reservedRefs st)) order (seenSpenders st) (report st).
Definition extend_ref (op : Outpoint) (at_ : Time) (ref : ReservationRef) : ReservationRef :=
  mkRef (ref_Reservation ref) (ref_UserID ref)
    (if at_ <? ref_ReservedAt ref then at_ else ref_ReservedAt ref) (ref_Outpoints ref ++ [op])%list.
(** A survivor is spent or reserved, so that the code's last branch is not taken. *)
Definition report_row (op : Outpoint) (v : option UTXO * bool) (st : mint_scan) : mint_scan :=
  let rep := report st in
  match v with
  | (_, true) =>
      mkScan (reservedRefs st) (refOrder st) (seenSpenders st)
        (mkReport (rep_Removed rep ++ [op])%list (rep_AlreadyReserved rep) (rep_AlreadySpentBy rep))
  | (None, false) => st
  | (Some u, false) =>
      match u_SpentBy u with
      | Some w =>
          if decide (w ∈ seenSpenders st) then st
          else mkScan (reservedRefs st) (refOrder st) ({[w]} ∪ seenSpenders st)
                 (mkReport (rep_Removed rep) (rep_AlreadyReserved rep) (rep_AlreadySpentBy rep ++ [w])%list)
      | None =>
          let at_ := u_ReservedAt u in
          match reservedRefs st !! u_ReservedBy u with
          | Some ref => with_ref (extend_ref op at_ ref) (refOrder st) st
          | None =>
              with_ref (extend_ref op at_ (mkRef (u_ReservedBy u) (u_UserID u) at_ []))
                (refOrder st ++ [u_ReservedBy u])%list st
          end
      end
  end.
(** The scan with the error that stopped it. *)
Fixpoint mint_ops_loop (ops : list Outpoint) (st : mint_scan) : AM (mint_scan * option error) :=
  match ops with
  | [] => mret (st, None)
  | op :: ops =>
      v ← attempt (removeMintTxOp op);
      match v with
      | inl e => mret (st, Some e)
      | inr v => mint_ops_loop ops (report_row op v st)
      end
  end.
Definition with_refs (st : mint_scan) : RemoveByMintReport :=
  mkReport (rep_Removed (report st))
    (rep_AlreadyReserved (report st) ++ omap (λ token, reservedRefs st !! token) (refOrder st))%list
    (rep_AlreadySpentBy (report st)).
Definition RemoveByMintTx (mintTxID : Hash) (ops : list Outpoint) :
    M Store error (RemoveByMintReport * option error) :=
  guard_open $ guard_valid (ValidateMintOutpoints mintTxID ops) $ on_conn $
    '(st, e) ← mint_ops_loop ops (mkScan ∅ [] ∅ (mkReport [] [] []));
    mret (match e with None => (with_refs st, None) | Some _ => (report st, e) end).

(** ** Queries *)

Definition emptyBalance : UtxoTypes.Balance := mkBalance ∅ 0 ∅ 0.
Definition balance_step (b : UtxoTypes.Balance) (u : UTXO) : UtxoTypes.Balance :=
  match u_SpentBy u with
  | Some _ => b
  | None =>
      if decide (u_ReservedBy u ≠ "")
      then mkBalance (b_Claimable b) (u64 (b_Reserved b + u_Satoshis u)) (b_ClaimableCount b)
             (i64 (b_ReservedCount b + 1))
      else if negb (u_Frozen u)
      then mkBalance
             (<[u_Tier u := u64 (default 0 (b_Claimable b !! u_Tier u) + u_Satoshis u)]> (b_Claimable b))
             (b_Reserved b)
             (<[u_Tier u := i64 (default 0 (b_ClaimableCount b !! u_Tier u) + 1)]> (b_ClaimableCount b))
             (b_ReservedCount b)
      else b
  end.
Definition Balance (userID : Z) (basket : string) : M Store error UtxoTypes.Balance :=
  guard_open $ on_conn $
    rows ← found_coins (ExpEq binInvKey (VStr (invKeyFor userID basket)));
    mret (foldl balance_step emptyBalance rows).

(** *** Stale reservations *)

Abbreviation token := (Z * string)%type.
(** The locals of phase A: the oldest reservation per token, and the tokens as they
    were found. *)
Definition stale_step (st : gmap token Z * list token) (u : UTXO) : gmap token Z * list token :=
  let '(oldest, order) := st in
  if decide (u_ReservedBy u = "") then st
  else
    let k := (u_UserID u, u_ReservedBy u) in
    let at_ := UnixMilli (u_ReservedAt u) in
    match oldest !! k with
    | None => (<[k := at_]> oldest, (order ++ [k])%list)
    | Some cur => if at_ <? cur then (<[k := at_]> oldest, order) else st
    end.
Definition by_age (oldest : gmap token Z) (a b : token) : comparison :=
  Z.compare (default 0 (oldest !! a)) (default 0 (oldest !! b)).
Definition pin_filter (includePinned : bool) : list expr := if includePinned then [] else [unpinned].
Definition membership_step (ref : ReservationRef) (u : UTXO) : ReservationRef :=
  mkRef (ref_Reservation ref) (ref_UserID ref)
    (if (ref_ReservedAt ref =? zeroTime) || (u_ReservedAt u <? ref_ReservedAt ref)
     then u_ReservedAt u else ref_ReservedAt ref)
    (ref_Outpoints ref ++ [u_Outpoint u])%list.
Definition reservationMembership (userID : Z) (reservation : string) (includePinned : bool) :
    AM ReservationRef :=
  rows ← found_coins (ExpAnd ([reserved_by reservation; owned_by userID; unspent] ++ pin_filter includePinned)%list);
  mret (foldl membership_step (mkRef reservation userID zeroTime []) rows).
Definition findStale (olderThan : Time) (limit : Z) (includePinned : bool) :
    M Store error (list ReservationRef) :=
  guard_open $
    let cutoff := UnixMilli olderThan in
    if (limit <=? 0) || (cutoff <=? 0) then mret []
    else on_conn $
      rows ← found_coins (ExpAnd ([ExpGreaterEq binResAt 0; ExpLess binResAt cutoff; unspent] ++
                                  pin_filter includePinned)%list);
      let '(oldest, order) := foldl stale_step (∅, []) rows in
      refs ← for_each (λ k, reservationMembership k.1 k.2 includePinned)
               (slice_to limit (SortFunc (by_age oldest) order));
      mret (filter (λ ref, ref_Outpoints ref ≠ []) refs).
Definition FindStaleReservations (olderThan : Time) (limit : Z) : M Store error (list ReservationRef) :=
  findStale olderThan limit false.
Definition FindStaleReservationsIncludingPinned (olderThan : Time) (limit : Z) :
    M Store error (list ReservationRef) := findStale olderThan limit true.

(** ** Health and Close *)

Definition Health (connected checkLiveness : bool) : M Store error (Z * string * option error) := λ s,
  if closed s then (Ret (503, "closed", Some ErrClosed), s)
  else if negb connected then (Ret (503, "not connected", Some (ErrBackend (BackendFailed 0))), s)
  else if checkLiveness then
    match check_ctx (conn s) with
    | (Err e, c) => (Ret (503, "backend unreachable", Some e), with_conn c s)
    | (_, c) => (Ret (200, "OK", None), with_conn c s)
    end
  else (Ret (200, "OK", None), s).
Definition Close : M Store error () := λ s, (Ret (), mkStore (conn s) true).

End store.
End AeroStore.
