(* ===== verification/AeroLogic.v ===== *)
(** * AeroLogic: the records of the Aerospike store as coins

    [encode u] is the record the store keeps for the coin [u]: the claim key is there
    exactly while the coin is claimable, the inventory key while it is unspent.  Each
    filter expression the store uses decides a condition on the coin, and each of its
    writes is the encoding of a changed coin. *)
From Stdlib Require Import Ascii String.
From S2P Require Import Prelude UtxoTypes GoStrings Fee MemStore StoreContract AeroDb AeroStore.
Import GoStrings StoreContract AeroDb AeroStore.
Local Open Scope string_scope.
Local Open Scope Z_scope.

Module AeroLogic.

(** ** Keys *)

Lemma digits_no_bar s : forallb is_digit s = true → bar ∉ s.
Proof.
  intros Hs Hb. rewrite forallb_forall in Hs. specialize (Hs bar). rewrite -list_elem_of_In in Hs.
  by specialize (Hs Hb).
Qed.
Lemma FormatUint_inj n m : 0 ≤ n < 2 ^ 64 → 0 ≤ m < 2 ^ 64 → FormatUint n = FormatUint m → n = m.
Proof.
  intros Hn Hm E. apply (f_equal (value_from 0)) in E. rewrite /FormatUint !format_value /= in E; [done|lia..].
Qed.
Lemma FormatInt_pos n : 0 ≤ n → FormatInt n = FormatUint n.
Proof. intros Hn. rewrite /FormatInt. by destruct (Z.ltb_spec n 0); [lia|]. Qed.
Lemma FormatInt_no_bar n : 0 ≤ n → bar ∉ FormatInt n.
Proof. intros Hn. rewrite FormatInt_pos //. by apply digits_no_bar, format_digits. Qed.
Lemma FormatInt_inj n m : 0 ≤ n < 2 ^ 64 → 0 ≤ m < 2 ^ 64 → FormatInt n = FormatInt m → n = m.
Proof. intros Hn Hm. rewrite !FormatInt_pos; [|lia..]. by apply FormatUint_inj. Qed.

Lemma split_first (x : ascii) a a' b b' :
  x ∉ a → x ∉ a' → (a ++ x :: b = a' ++ x :: b')%list → a = a' ∧ b = b'.
Proof.
  revert a'. induction a as [|y a IH]; intros [|y' a'] Ha Ha' E; simplify_eq/=.
  - done.
  - by destruct Ha'; left.
  - by destruct Ha; left.
  - apply not_elem_of_cons in Ha as [_ Ha]. apply not_elem_of_cons in Ha' as [_ Ha'].
    by destruct (IH a' Ha Ha') as [-> ->].
Qed.
Lemma split_last (x : ascii) a a' b b' :
  x ∉ b → x ∉ b' → (a ++ x :: b = a' ++ x :: b')%list → a = a' ∧ b = b'.
Proof.
  intros Hb Hb' E. pose proof (cut_last_app x a b Hb) as H1. rewrite E cut_last_app // in H1. by injection H1.
Qed.
Lemma text_inj s s' : list_ascii_of_string s = list_ascii_of_string s' → s = s'.
Proof. intros E. by rewrite -(string_of_list_ascii_of_string s) E string_of_list_ascii_of_string. Qed.
Lemma string_inj t t' : string_of_list_ascii t = string_of_list_ascii t' → t = t'.
Proof. intros E. by rewrite -(list_ascii_of_string_of_list_ascii t) E list_ascii_of_string_of_list_ascii. Qed.

(** The four parts of a claim key can be read back, bars in basket names included: a
    user, a tier and a bucket are numbers. *)
Lemma claimKeyFor_inj u b t k u' b' t' k' :
  0 ≤ u < 2 ^ 64 → 0 ≤ u' < 2 ^ 64 → 0 ≤ t < 2 ^ 64 → 0 ≤ t' < 2 ^ 64 → 0 ≤ k < 2 ^ 64 → 0 ≤ k' < 2 ^ 64 →
  claimKeyFor u b t k = claimKeyFor u' b' t' k' → u = u' ∧ b = b' ∧ t = t' ∧ k = k'.
Proof.
  intros Hu Hu' Ht Ht' Hk Hk' E%string_inj. rewrite /= in E.
  apply split_first in E as [E1 E]; [|apply FormatInt_no_bar; lia..].
  assert (∀ x y z : text, (x ++ bar :: y ++ bar :: z)%list = ((x ++ bar :: y) ++ bar :: z)%list) as Hassoc.
  { intros. by rewrite -app_assoc. }
  rewrite !Hassoc in E.
  apply split_last in E as [E E4]; [|apply FormatInt_no_bar; lia..].
  apply split_last in E as [E2 E3]; [|apply FormatInt_no_bar; lia..].
  split_and!; [by apply FormatInt_inj|by apply text_inj|by apply FormatInt_inj|by apply FormatInt_inj].
Qed.
Lemma invKeyFor_inj u b u' b' :
  0 ≤ u < 2 ^ 64 → 0 ≤ u' < 2 ^ 64 → invKeyFor u b = invKeyFor u' b' → u = u' ∧ b = b'.
Proof.
  intros Hu Hu' E%string_inj. apply split_first in E as [E1 E]; [|apply FormatInt_no_bar; lia..].
  split; [by apply FormatInt_inj|by apply text_inj].
Qed.

Lemma bucketOf_range s : 0 ≤ s < 2 ^ 64 → 0 ≤ bucketOf s < bucketCount.
Proof.
  intros Hs. rewrite /bucketOf /bucketCount. destruct (Z.eqb_spec s 0); [lia|].
  split; [apply Z.log2_nonneg|]. apply Z.log2_lt_pow2; lia.
Qed.
Lemma bucketOf_mono s s' : 0 ≤ s ≤ s' → bucketOf s ≤ bucketOf s'.
Proof.
  intros Hs. rewrite /bucketOf. destruct (Z.eqb_spec s 0).
  - destruct (Z.eqb_spec s' 0); [lia|]. apply Z.log2_nonneg.
  - destruct (Z.eqb_spec s' 0); [lia|]. apply Z.log2_le_mono. lia.
Qed.

(** ** Coins and their records *)

Definition same (r r' : record) : Prop := ∀ b, r b = r' b.
#[global] Instance same_equiv : Equivalence same.
Proof.
  split; [done| |].
  - intros r r' Hr b. by rewrite Hr.
  - intros r1 r2 r3 H1 H2 b. by rewrite H1.
Qed.

Definition claimable (u : UTXO) : bool :=
  bool_decide (u_ReservedBy u = "") && bool_decide (u_SpentBy u = None) && negb (u_Frozen u).
Definition key_of (u : UTXO) : string :=
  claimKeyFor (u_UserID u) (u_Basket u) (u_Tier u) (bucketOf (u_Satoshis u)).

Definition encode (u : UTXO) : record := λ b,
  match b with
  | binTxID => Some (Hash_blob (TxID (u_Outpoint u)))
  | binVout => Some (VInt (Vout (u_Outpoint u)))
  | binUserID => Some (VInt (u_UserID u))
  | binBasket => Some (VStr (u_Basket u))
  | binTier => Some (VInt (u_Tier u))
  | binSats => Some (VInt (i64 (u_Satoshis u)))
  | binInpSize => Some (VInt (u_InputSize u))
  | binResBy => if decide (u_ReservedBy u = "") then None else Some (VStr (u_ReservedBy u))
  | binResAt => if decide (u_ReservedBy u = "") then None else Some (VInt (UnixMilli (u_ReservedAt u)))
  | binSpentBy => Hash_blob <$> u_SpentBy u
  | binFrozen => if u_Frozen u then Some (VInt 1) else None
  | binPinned => if u_Pinned u then Some (VInt 1) else None
  | binCreated => Some (VInt (UnixMilli (u_CreatedAt u)))
  | binClaimKey => if claimable u then Some (VStr (key_of u)) else None
  | binInvKey =>
      match u_SpentBy u with None => Some (VStr (invKeyFor (u_UserID u) (u_Basket u))) | Some _ => None end
  end.

(** A time the store can represent. *)
Definition on_ms (t : Time) : Prop := msToTime (UnixMilli t) = t.
Lemma UnixMilli_msToTime ms : UnixMilli (msToTime ms) = ms.
Proof. rewrite /UnixMilli /msToTime. replace (unixEpoch + 1000000 * ms - unixEpoch) with (ms * 1000000) by lia. by apply Z.div_mul. Qed.
Lemma on_ms_msToTime ms : on_ms (msToTime ms).
Proof. by rewrite /on_ms UnixMilli_msToTime. Qed.

(** What a coin of the store satisfies: its fields are in the range of their Go types,
    and a pinned coin is reserved and unspent. *)
Record fit (u : UTXO) : Prop := {
  fit_vout : 0 ≤ Vout (u_Outpoint u) < 2 ^ 32;
  fit_user : 0 < u_UserID u < 2 ^ 63;
  fit_sats : 0 ≤ u_Satoshis u < 2 ^ 64;
  fit_size : 0 ≤ u_InputSize u < 2 ^ 32;
  fit_tier : Tier_Valid (u_Tier u) = true;
  fit_created : on_ms (u_CreatedAt u);
  fit_reserved : if decide (u_ReservedBy u = "") then u_ReservedAt u = zeroTime else on_ms (u_ReservedAt u);
  fit_pinned : u_Pinned u = true → u_ReservedBy u ≠ "" ∧ u_SpentBy u = None;
}.

Lemma u64_of_i64 x : 0 ≤ x < 2 ^ 64 → u64 (i64 x) = x.
Proof.
  intros Hx. rewrite /wrapS /wrapU. rewrite Zminus_mod_idemp_l.
  replace (x + 2 ^ (64 - 1) - 2 ^ (64 - 1)) with x by lia. by apply Z.mod_small.
Qed.

Lemma recordToUTXO_encode u : fit u → recordToUTXO (encode u) = Ret u.
Proof.
  intros [[? ?] ? ? [? ?] Ht Hc Hr _]. rewrite /recordToUTXO /= u64_of_i64 // Hc.
  assert (0 ≤ u_Tier u < 2 ^ 8).
  { move: Ht. rewrite /Tier_Valid /TierSending /TierMined. lia. }
  rewrite /u8 /wrapU !Z.mod_small //. destruct u as [[] ? ? ? ? ? rb ra sb fr pi ca]; simpl in *.
  do 2 f_equal.
  - by case_decide.
  - destruct (decide (rb = "")) as [->|Hn]; simpl; [done|]. by rewrite decide_False.
  - by destruct sb.
  - by destruct fr.
  - by destruct pi.
Qed.

Lemma recordToUTXO_same r r' : same r r' → recordToUTXO r = recordToUTXO r'.
Proof.
  intros Hr. rewrite /recordToUTXO (Hr binTxID).
  destruct (r' binTxID) as [[| |n txid]|]; try done. destruct (negb (n =? 32)); [done|].
  rewrite (Hr binVout). destruct (asInt64 (r' binVout)); [|done].
  by rewrite (Hr binUserID) (Hr binBasket) (Hr binSats) (Hr binInpSize) (Hr binTier) (Hr binResBy)
    (Hr binResAt) (Hr binSpentBy) (Hr binFrozen) (Hr binPinned) (Hr binCreated).
Qed.

(** ** Expressions *)

Lemma eval_same : ∀ e r r', same r r' → eval e r = eval e r'.
Proof.
  fix IH 1. intros [b|e|es|es|b v|b z|b z] r r' Hr; cbn [eval].
  - by rewrite Hr.
  - by rewrite (IH e r r' Hr).
  - induction es as [|e es IHes]; [done|]. by rewrite (IH e r r' Hr) IHes.
  - induction es as [|e es IHes]; [done|]. by rewrite (IH e r r' Hr) IHes.
  - by rewrite Hr.
  - by rewrite /int_bin Hr.
  - by rewrite /int_bin Hr.
Qed.
Lemma holds_same e r r' : same r r' → holds e r = holds e r'.
Proof. intros Hr. by rewrite /holds (eval_same e r r' Hr). Qed.
Lemma ExpCond_same l r r' : same r r' → ExpCond l r = ExpCond l r'.
Proof. intros Hr. induction l as [|[t v] l IH]; [done|]. cbn [ExpCond]. by rewrite (eval_same t r r' Hr) IH. Qed.
Lemma put_same b v r r' : same r r' → same (put b v r) (put b v r').
Proof. intros Hr b'. rewrite /put. by case_match. Qed.
Lemma apply_op_same o r r' : same r r' → same (apply_op o r) (apply_op o r').
Proof.
  intros Hr. destruct o as [b v|b|b l]; cbn [apply_op]; [by apply put_same..|].
  rewrite (ExpCond_same l r r' Hr). case_match; [by apply put_same|done].
Qed.
Lemma apply_ops_same ops r r' : same r r' → same (apply_ops ops r) (apply_ops ops r').
Proof.
  rewrite /apply_ops. revert r r'. induction ops as [|o ops IH]; intros r r' Hr; [done|].
  by apply IH, apply_op_same.
Qed.

Lemma holds_and e es r : holds (ExpAnd (e :: es)) r = holds e r && holds (ExpAnd es) r.
Proof.
  rewrite /holds. change (eval (ExpAnd (e :: es)) r) with (and3 (eval e r) (eval (ExpAnd es) r)).
  by destruct (eval e r) as [[]|], (eval (ExpAnd es) r) as [[]|].
Qed.
Lemma holds_and_true e es r :
  holds (ExpAnd (e :: es)) r = true ↔ holds e r = true ∧ holds (ExpAnd es) r = true.
Proof. by rewrite holds_and andb_true_iff. Qed.
Lemma holds_and_nil r : holds (ExpAnd []) r = true.
Proof. done. Qed.
Lemma holds_or e es r : holds (ExpOr (e :: es)) r = holds e r || holds (ExpOr es) r.
Proof.
  rewrite /holds. change (eval (ExpOr (e :: es)) r) with (or3 (eval e r) (eval (ExpOr es) r)).
  by destruct (eval e r) as [[]|], (eval (ExpOr es) r) as [[]|].
Qed.
Lemma holds_or_true e es r :
  holds (ExpOr (e :: es)) r = true ↔ holds e r = true ∨ holds (ExpOr es) r = true.
Proof. by rewrite holds_or orb_true_iff. Qed.
Lemma holds_or_nil r : holds (ExpOr []) r = false.
Proof. done. Qed.
Lemma holds_exists b r : holds (ExpBinExists b) r = bool_decide (is_Some (r b)).
Proof. rewrite /holds /=. destruct (r b); by [rewrite bool_decide_true|rewrite bool_decide_false; [|by intros []]]. Qed.
Lemma holds_absent b r : holds (ExpNot (ExpBinExists b)) r = bool_decide (r b = None).
Proof. rewrite /holds /=. by destruct (r b). Qed.
Lemma value_eqb_spec v w : value_eqb v w = true ↔ v = w.
Proof.
  destruct v, w; simpl; try (split; [done|congruence]).
  - rewrite Z.eqb_eq. split; congruence.
  - rewrite String.eqb_eq. split; congruence.
  - rewrite andb_true_iff !Z.eqb_eq. split; [by intros [-> ->]|by intros [= -> ->]].
Qed.
Lemma holds_eq b v r : holds (ExpEq b v) r = true ↔ r b = Some v.
Proof.
  rewrite /holds /=. destruct (r b) as [w|]; simpl; [|done].
  destruct (value_eqb w v) eqn:E.
  - apply value_eqb_spec in E as ->. done.
  - split; [done|]. intros [= ->]. by rewrite (proj2 (value_eqb_spec v v) eq_refl) in E.
Qed.

(** *** What the filters decide of a coin *)

Lemma claim_expression_spec u : claimable u = true ↔ free u ∧ u_Frozen u = false.
Proof. rewrite /claimable /free !andb_true_iff !bool_decide_eq_true negb_true_iff. tauto. Qed.

Lemma encode_claimKey u k : encode u binClaimKey = Some (VStr k) ↔ claimable u = true ∧ key_of u = k.
Proof. simpl. destruct (claimable u); naive_solver. Qed.
Lemma holds_claimKey u k :
  holds (ExpEq binClaimKey (VStr k)) (encode u) = true ↔ claimable u = true ∧ key_of u = k.
Proof. by rewrite holds_eq encode_claimKey. Qed.
Lemma holds_has_claimKey u : holds (ExpBinExists binClaimKey) (encode u) = claimable u.
Proof. rewrite holds_exists /=. destruct (claimable u); [done|]. by rewrite bool_decide_false; [|intros []]. Qed.
Lemma holds_reserved_by u tok : tok ≠ "" → holds (reserved_by tok) (encode u) = true ↔ u_ReservedBy u = tok.
Proof. intros Ht. rewrite holds_eq /=. case_decide; split; congruence. Qed.
Lemma holds_spent_by u w : holds (spent_by w) (encode u) = true ↔ u_SpentBy u = Some w.
Proof. rewrite holds_eq /=. destruct (u_SpentBy u); simpl; rewrite /Hash_blob; split; congruence. Qed.
Lemma holds_owned_by u uid : holds (owned_by uid) (encode u) = true ↔ u_UserID u = uid.
Proof. rewrite holds_eq /=. split; congruence. Qed.
Lemma holds_unspent u : holds unspent (encode u) = true ↔ u_SpentBy u = None.
Proof. rewrite holds_absent bool_decide_eq_true /=. by destruct (u_SpentBy u). Qed.
Lemma holds_unpinned u : holds unpinned (encode u) = true ↔ u_Pinned u = false.
Proof. rewrite holds_absent bool_decide_eq_true /=. by destruct (u_Pinned u). Qed.
Lemma holds_pinned u : holds (ExpBinExists binPinned) (encode u) = true ↔ u_Pinned u = true.
Proof. rewrite holds_exists bool_decide_eq_true /=. destruct (u_Pinned u); split; try done. Qed.
Lemma holds_unfrozen u : holds (ExpNot (ExpBinExists binFrozen)) (encode u) = true ↔ u_Frozen u = false.
Proof. rewrite holds_absent bool_decide_eq_true /=. by destruct (u_Frozen u). Qed.
Lemma holds_unreserved u : holds (ExpNot (ExpBinExists binResBy)) (encode u) = true ↔ u_ReservedBy u = "".
Proof. rewrite holds_absent bool_decide_eq_true /=. by case_decide. Qed.

(** *** The writes *)

Lemma restore_writes skip v r t b :
  r binTier = Some (VInt t) → Tier_Valid t = true → eval skip r = Some b →
  same (apply_op (restoreClaimKeyOp skip v) r)
    (if b then r else
     put binClaimKey (Some (VStr (claimKeyFor (u_UserID v) (u_Basket v) t (bucketOf (u_Satoshis v))))) r).
Proof.
  intros Ht Hv Hb. rewrite /restoreClaimKeyOp /allTiers. cbn -[claimKeyFor]. rewrite Hb. destruct b; [done|].
  rewrite Ht. cbn -[claimKeyFor]. move: Hv. rewrite /Tier_Valid /TierSending /TierUnproven /TierMined => Hv.
  destruct (Z.eqb_spec t 1) as [->|]; [done|]. destruct (Z.eqb_spec t 2) as [->|]; [done|].
  destruct (Z.eqb_spec t 3) as [->|]; [done|]. lia.
Qed.

(** One identity. *)
Record identity := mkId { id_user : Z; id_basket : string; id_sats : Z; id_size : Z }.
Definition ident_of (u : UTXO) : identity := mkId (u_UserID u) (u_Basket u) (u_Satoshis u) (u_InputSize u).

(** Bin by bin. *)
Ltac bins := intros []; cbn -[claimKeyFor invKeyFor]; try reflexivity.

Lemma write_reserve tok ms u :
  tok ≠ "" →
  same (apply_ops (reserve_ops tok ms) (encode u)) (encode (set_reservation tok (msToTime ms) u)).
Proof.
  intros Ht. bins.
  - by rewrite decide_False.
  - by rewrite decide_False // UnixMilli_msToTime.
  - by rewrite /claimable /= bool_decide_false.
Qed.

Lemma apply_ops_app ops ops' r : apply_ops (ops ++ ops')%list r = apply_ops ops' (apply_ops ops r).
Proof. apply foldl_app. Qed.

Lemma fit_unreserve u : fit u → fit (set_pinned false (MemStore.unreserve u)).
Proof. intros []. by constructor. Qed.

(** A list of writes ending in a restored claim key. *)
Lemma write_restore ops skip v u u' b :
  fit u' → ident_of v = ident_of u' →
  same (apply_ops ops (encode u)) (put binClaimKey None (encode u')) →
  eval skip (put binClaimKey None (encode u')) = Some b → claimable u' = negb b →
  same (apply_ops (ops ++ [restoreClaimKeyOp skip v])%list (encode u)) (encode u').
Proof.
  intros Hf [= Hu Hb Hs _] Hsame He Hc. rewrite apply_ops_app. cbn [apply_ops foldl].
  rewrite (restore_writes _ v _ (u_Tier u') b); [|by rewrite Hsame|by destruct Hf|by rewrite (eval_same _ _ _ Hsame)].
  destruct b.
  - rewrite Hsame. bins. by rewrite Hc.
  - rewrite (put_same _ _ _ _ Hsame). bins. by rewrite Hc Hu Hb Hs.
Qed.

Lemma write_release v tok o u :
  fit u → ident_of v = ident_of u → tok ≠ "" → u_ReservedBy u = tok → u_SpentBy u = None →
  (o = false → u_Pinned u = false) →
  same (apply_ops (release_ops v o) (encode u)) (encode (set_pinned false (MemStore.unreserve u))).
Proof.
  intros Hf Hid Ht Hr Hsp Hp. rewrite /release_ops app_assoc.
  apply (write_restore _ _ _ _ _ (u_Frozen u)); [by apply fit_unreserve|done| | |].
  - destruct o; bins; rewrite ?Hsp //.
    + by rewrite /claimable Hr bool_decide_false.
    + by rewrite Hp.
    + by rewrite /claimable Hr bool_decide_false.
  - cbn. by destruct (u_Frozen u).
  - by rewrite /claimable /= Hsp.
Qed.

Lemma write_pin b u :
  same (apply_ops [pinOp b] (encode u)) (encode (set_pinned b u)).
Proof. destruct b; bins. Qed.

Lemma write_spend sp (force : bool) u :
  fit u → u_SpentBy u = None ∨ u_SpentBy u = Some (sp_SpendingTxID sp) ∧ force = true →
  (force = false → u_ReservedBy u ≠ "") →
  same (apply_ops (spend_ops sp force) (encode u))
    (encode (set_pinned false (set_spentBy (Some (sp_SpendingTxID sp)) u))).
Proof.
  intros _ _ Hr. destruct force; bins.
  - by rewrite /claimable /= andb_false_r.
  - by rewrite /claimable /= bool_decide_false; [|by apply Hr].
Qed.

Lemma write_unspend v w u :
  fit u → ident_of v = ident_of u → u_SpentBy u = Some w →
  same (apply_ops (unspend_ops v) (encode u))
    (encode (set_pinned false (MemStore.unreserve (set_spentBy None u)))).
Proof.
  intros Hf Hid Hw. rewrite /unspend_ops.
  change [?a; ?b; ?c; ?d; ?e; ?f] with ([a; b; c; d; e] ++ [f])%list.
  apply (write_restore _ _ _ _ _ (u_Frozen u)); [by destruct Hf; constructor|done| | |done].
  - bins; [|by injection Hid as -> ->]. by rewrite /claimable Hw andb_false_r.
  - cbn. by destruct (u_Frozen u).
Qed.

Lemma write_freeze u : same (apply_ops freeze_ops (encode u)) (encode (set_frozen true u)).
Proof. bins. by rewrite /claimable /= andb_false_r. Qed.

Lemma fit_set_frozen b u : fit u → fit (set_frozen b u).
Proof. intros []. by constructor. Qed.
Lemma write_unfreeze v u :
  fit u → ident_of v = ident_of u →
  same (apply_ops (unfreeze_ops v) (encode u)) (encode (set_frozen false u)).
Proof.
  intros Hf Hid. destruct (claimable u) eqn:Hc.
  - (* The coin is claimable and stays so. *)
    assert (set_frozen false u = u) as ->.
    { apply claim_expression_spec in Hc as [_ Hc]. destruct u; simpl in *. by subst. }
    apply claim_expression_spec in Hc as [[Hr Hs] Hfr]. rewrite /unfreeze_ops.
    change [?a; ?b] with ([a] ++ [b])%list. rewrite apply_ops_app. cbn [apply_ops foldl].
    rewrite (restore_writes _ v _ (u_Tier u) false); [|done|by destruct Hf|].
    + injection Hid as Hu Hb Hs' _. bins; rewrite ?Hfr //.
      by rewrite (proj2 (claim_expression_spec u)) // Hu Hb Hs'.
    + cbn. by rewrite Hr Hs.
  - rewrite /unfreeze_ops. change [?a; ?b] with ([a] ++ [b])%list.
    apply (write_restore _ _ _ _ _ (negb (claimable (set_frozen false u)))); [by apply fit_set_frozen|done| | |].
    + bins. by rewrite Hc.
    + cbn. rewrite /claimable /=. destruct (decide (u_ReservedBy u = "")) as [Hr|Hr].
      * rewrite (bool_decide_true (_ = "")) //. by destruct (u_SpentBy u).
      * rewrite (bool_decide_false (_ = "")) //.
    + by rewrite negb_involutive.
Qed.

Lemma write_promote v to u :
  ident_of v = ident_of u → same (apply_ops (promote_ops v to) (encode u)) (encode (set_tier to u)).
Proof.
  intros [= Hu Hb Hs _]. rewrite /promote_ops. cbn -[claimKeyFor encode]. rewrite /put /=.
  change (claimable (set_tier to u)) with (claimable u).
  destruct (claimable u) eqn:Hc; bins; change (claimable (set_tier to u)) with (claimable u); rewrite Hc // Hu Hb Hs //.
Qed.

Lemma mint_encoded ms m :
  same (mint_bins ms m) (encode (minted m (msToTime ms))).
Proof. bins. by rewrite UnixMilli_msToTime. Qed.
End AeroLogic.
