(* ===== verification/AeroRaces.v ===== *)
(** * AeroRaces: the Aerospike store while others use the set

    [ident op] is the identity of the coin at [op], owner, basket, value and input size:
    an output of a transaction has one, and nobody records another.  [L op] says how the
    coin at [op] may change at the hands of the others.  [runs own P m Q]: started in a
    good state with [P], whatever the others do between the commands of [m] and whichever
    command fails, with its effect or without, the records stay the encodings of coins,
    each coin changes only by steps of [own] and of [L], [m] does not panic, and a result
    satisfies [Q]. *)
From Stdlib Require Import Ascii String.
From S2P Require Import Prelude UtxoTypes MemStore StoreContract AeroDb AeroStore AeroLogic.
Import StoreContract AeroDb AeroStore AeroLogic.
Local Open Scope string_scope.
Local Open Scope Z_scope.

Module AeroRaces.

Abbreviation coin_rels := (Outpoint → relation (option UTXO)).

Definition decoded (r : record) : option UTXO :=
  match recordToUTXO r with Ret u => Some u | _ => None end.
Definition coin_at (t : Table) (op : Outpoint) : option UTXO := t !! op ≫= decoded.

Section races.
Context (ident : Outpoint → identity) (L own : coin_rels).

Record fit_at (op : Outpoint) (u : UTXO) : Prop := {
  at_op : u_Outpoint u = op;
  at_fit : fit u;
  at_ident : ident_of u = ident op;
}.
Definition represents (op : Outpoint) (r : record) (u : UTXO) : Prop := fit_at op u ∧ same r (encode u).
Definition wf (t : Table) : Prop := ∀ op r, t !! op = Some r → ∃ u, represents op r u.

(** A candidate is a row that was claimable under the key of its bucket. *)
Definition cand_ok (key : string) (c : candidate) : Prop :=
  ∃ u, represents (c_key c) (c_rec c) u ∧ claimable u = true ∧ key_of u = key ∧ c_sats c = u_Satoshis u.
Definition bucket_ok (key : string) (b : claimBucket) : Prop := Forall (cand_ok key) (cb_cands b).
Definition cache_ok (cc : claimCache) : Prop :=
  ∀ key b, cc_buckets cc !! key = Some b → bucket_ok key b.

Definition legal (es : list event) : Prop :=
  Forall (λ e,
    (∀ t, wf t → wf (ev_peers e t) ∧ ∀ op, rtc (L op) (coin_at t op) (coin_at (ev_peers e t) op)) ∧
    (∀ cc, cache_ok cc → cache_ok (ev_goroutines e cc))) es.
Record good (c : Conn) : Prop := {
  good_wf : wf (recs c);
  good_cache : ∀ cc, cache c = Some cc → cache_ok cc;
  good_legal : legal (events c);
}.

Definition either : coin_rels := λ op o o', own op o o' ∨ L op o o'.
Record step (c c' : Conn) : Prop := {
  st_coins : ∀ op, rtc (either op) (coin_at (recs c) op) (coin_at (recs c') op);
  st_cache : is_Some (cache c) ↔ is_Some (cache c');
}.

Definition runs {A} (P : Conn → Prop) (m : AM A) (Q : A → Conn → Prop) : Prop := ∀ c,
  good c → P c →
  let '(o, c') := m c in
  good c' ∧ step c c' ∧ match o with Ret a => Q a c' | Err _ => True | Panic => False end.
Definition stable (F : Conn → Prop) : Prop := ∀ c c', step c c' → F c → F c'.
Definition anywhere (c : Conn) : Prop := True.
Abbreviation yields m Q := (runs anywhere m (λ a _, Q a)).
Abbreviation safe m := (runs anywhere m (λ _ _, True)).

(** ** Coins *)

Lemma represents_decoded op r u : represents op r u → decoded r = Some u.
Proof. intros [[_ Hf _] Hs]. by rewrite /decoded (recordToUTXO_same _ _ Hs) recordToUTXO_encode. Qed.
Lemma represents_coin t op r u : t !! op = Some r → represents op r u → coin_at t op = Some u.
Proof. intros Hr Hu. rewrite /coin_at Hr /=. by eapply represents_decoded. Qed.
Lemma wf_coin t op u : wf t → coin_at t op = Some u → ∃ r, t !! op = Some r ∧ represents op r u.
Proof.
  intros Ht. rewrite /coin_at. destruct (t !! op) as [r|] eqn:Hr; [|done]. simpl. intros Hd.
  destruct (Ht op r Hr) as [u' Hu]. exists r. split; [done|]. rewrite (represents_decoded _ _ _ Hu) in Hd. by simplify_eq.
Qed.
Lemma coin_at_ne (t t' : Table) op : t !! op = t' !! op → coin_at t op = coin_at t' op.
Proof. intros Hop. by rewrite /coin_at Hop. Qed.
Lemma wf_insert t op r u : wf t → represents op r u → wf (<[op := r]> t).
Proof.
  intros Ht Hu op' r'. destruct (decide (op' = op)) as [->|].
  - rewrite lookup_insert_eq. intros [= <-]. by exists u.
  - rewrite lookup_insert_ne //. apply Ht.
Qed.
Lemma wf_delete t op : wf t → wf (delete op t).
Proof. intros Ht op' r' [_ Hr]%lookup_delete_Some. by apply Ht. Qed.

Lemma rtc_keeps {A} (R : relation A) (S : A → Prop) x y :
  rtc R x y → (∀ x y, R x y → S x → S y) → S x → S y.
Proof. intros Hr HS. induction Hr; eauto. Qed.

Lemma step_refl c : step c c.
Proof. by constructor. Qed.
Lemma step_trans c1 c2 c3 : step c1 c2 → step c2 c3 → step c1 c3.
Proof. intros [H1 H2] [H3 H4]. constructor; [|by rewrite H2]. intros op. etrans; [apply H1|apply H3]. Qed.

Lemma either_peers op o o' : rtc (L op) o o' → rtc (either op) o o'.
Proof. apply rtc_subrel. intros ???. by right. Qed.
Lemma either_self op o o' : rtc (own op) o o' → rtc (either op) o o'.
Proof. apply rtc_subrel. intros ???. by left. Qed.

(** ** Rules *)

Lemma runs_ret {A} P (a : A) (Q : A → Conn → Prop) : (∀ c, P c → Q a c) → runs P (mret a) Q.
Proof. intros HQ c Hg HP. split_and!; [done|apply step_refl|by apply HQ]. Qed.
Lemma runs_throw {A} P e (Q : A → Conn → Prop) : runs P (throw e) Q.
Proof. intros c Hg HP. split_and!; [done|apply step_refl|done]. Qed.
Lemma runs_bind {A B} P (m : AM A) (k : A → AM B) Q R :
  runs P m Q → (∀ a, runs (Q a) (k a) R) → runs P (m ≫= k) R.
Proof.
  intros Hm Hk c Hg HP. specialize (Hm c Hg HP). rewrite /mbind /M_bind.
  destruct (m c) as [[a|e|] c1]; destruct Hm as (Hg1&Hs1&HQ); [|by split_and!|done].
  specialize (Hk a c1 Hg1 HQ). destruct (k a c1) as [o c2]. destruct Hk as (?&?&?).
  split_and!; [done|by eapply step_trans|done].
Qed.
Lemma runs_conseq {A} (P P' : Conn → Prop) (m : AM A) (Q Q' : A → Conn → Prop) :
  (∀ c, P' c → P c) → (∀ a c, Q a c → Q' a c) → runs P m Q → runs P' m Q'.
Proof.
  intros HP HQ Hm c Hg HP'. specialize (Hm c Hg (HP _ HP')). destruct (m c) as [[a|e|] c1]; naive_solver.
Qed.
Lemma runs_frame {A} F P (m : AM A) Q :
  stable F → runs P m Q → runs (λ c, P c ∧ F c) m (λ a c, Q a c ∧ F c).
Proof.
  intros HF Hm c Hg [HP HFc]. specialize (Hm c Hg HP). destruct (m c) as [[a|e|] c1]; naive_solver.
Qed.
Lemma runs_attempt {A} P (m : AM A) Q :
  runs P m Q → runs P (attempt m) (λ r c, match r with inr a => Q a c | inl _ => True end).
Proof.
  intros Hm c Hg HP. specialize (Hm c Hg HP). rewrite /attempt. by destruct (m c) as [[a|e|] c1].
Qed.
(** The state in which a result was given is at hand. *)
Lemma runs_pre {A} (P : Conn → Prop) (m : AM A) Q (φ : Prop) : (φ → runs P m Q) → runs (λ c, P c ∧ φ) m Q.
Proof. intros Hm c Hg [HP Hφ]. by apply Hm. Qed.

Lemma runs_lift {A} P (o : outcome error A) (Q : A → Conn → Prop) :
  o ≠ Panic → (∀ a c, o = Ret a → P c → Q a c) → runs P (lift o) Q.
Proof. intros Ho HQ c Hg HP. rewrite /lift. split_and!; [done|apply step_refl|]. destruct o; naive_solver. Qed.

Lemma arrive_good c :
  good c → good (arrive c).2 ∧ step c (arrive c).2.
Proof.
  intros [Hw Hc Hl]. rewrite /arrive. destruct (events c) as [|e es] eqn:He.
  { split; [constructor; [done..|by rewrite He]|apply step_refl]. }
  apply Forall_cons in Hl as [[Hp Hgo] Hl]. destruct (Hp _ Hw) as [Hw' Hp']. split; simpl.
  - constructor; simpl; [done| |done]. intros cc. destruct (cache c) as [cc0|] eqn:Hcc; [|done].
    intros [= <-]. by apply Hgo, Hc.
  - constructor; simpl; [intros op; by apply either_peers|by rewrite fmap_is_Some].
Qed.

(** What the others cannot break. *)
Definition settled (F : Conn → Prop) : Prop := ∀ c, good c → F c → F (arrive c).2.
Lemma stable_settled F : stable F → settled F.
Proof. intros HF c Hg. by apply HF, arrive_good. Qed.

Lemma runs_command {A} (f : Table → A * Table) P (Q : A → Conn → Prop) :
  settled P →
  (∀ c, good c → P c → let '(a, t) := f (recs c) in
     wf t ∧ (∀ op, rtc (own op) (coin_at (recs c) op) (coin_at t op)) ∧ Q a (with_recs t c)) →
  runs P (command f) Q.
Proof.
  intros HP Hf c Hg HPc. rewrite /command. destruct (arrive_good c Hg) as [Hg1 Hs1].
  specialize (HP c Hg HPc). destruct (arrive c) as [e c1]. simpl in *. specialize (Hf c1 Hg1 HP).
  destruct (f (recs c1)) as [a t]. destruct Hf as (Hw&Ho&HQ).
  assert (good (with_recs t c1)) by by destruct Hg1; constructor.
  assert (step c (with_recs t c1)).
  { eapply step_trans; [done|]. constructor; [|done]. intros op. by apply either_self. }
  by destruct (ev_fault e) as [[[] x]|].
Qed.

Lemma runs_section {A} (f : bool → claimCache → A * claimCache) (Q : A → Prop) :
  (∀ busy cc, cache_ok cc → let '(a, cc') := f busy cc in cache_ok cc' ∧ Q a) →
  runs (λ c, is_Some (cache c)) (section f) (λ a _, Q a).
Proof.
  intros Hf c Hg Hc. rewrite /section. destruct (arrive_good c Hg) as [Hg1 Hs1].
  destruct (arrive c) as [e c1]. simpl in *. apply (st_cache _ _ Hs1) in Hc as [cc Hcc]. rewrite Hcc.
  specialize (Hf (ev_busy e) cc (good_cache _ Hg1 _ Hcc)). destruct (f (ev_busy e) cc) as [a cc'].
  destruct Hf as [Hok HQ]. split_and!; [| |done].
  - destruct Hg1. constructor; simpl; [done| |done]. by intros ? [= <-].
  - eapply step_trans; [done|]. constructor; simpl; [done|]. by rewrite Hcc.
Qed.

Lemma stable_anywhere : stable anywhere.
Proof. done. Qed.
Lemma stable_cached : stable (λ c, is_Some (cache c)).
Proof. intros c c' Hs. apply (st_cache _ _ Hs). Qed.

Lemma safe_weaken {A} P (m : AM A) (Q : A → Prop) : yields m Q → runs P m (λ a _, Q a).
Proof. by apply runs_conseq. Qed.
Lemma runs_anywhere {A} P (m : AM A) Q : runs anywhere m Q → runs P m Q.
Proof. by apply runs_conseq. Qed.
Lemma runs_keep {A} F (m : AM A) Q :
  stable F → runs anywhere m Q → runs F m (λ a c, Q a c ∧ F c).
Proof.
  intros HF Hm. pose proof (runs_frame F anywhere m Q HF Hm) as Hf. intros c Hg HFc. by apply (Hf c Hg).
Qed.
(** Sequencing of results without a state. *)
Lemma yields_then {A B} (m : AM A) (k : A → AM B) (Q : A → Prop) R :
  yields m Q → (∀ a, Q a → yields (k a) R) → yields (m ≫= k) R.
Proof.
  intros Hm Hk. eapply runs_bind; [exact Hm|]. intros a c Hg Ha. by apply (Hk a Ha c Hg).
Qed.
Lemma safe_bind {A B} (m : AM A) (k : A → AM B) (R : B → Prop) :
  safe m → (∀ a, yields (k a) R) → yields (m ≫= k) R.
Proof. intros Hm Hk. eapply yields_then; [exact Hm|]. by intros a _. Qed.
Lemma safe_any {A} (m : AM A) Q : runs anywhere m Q → safe m.
Proof. by apply runs_conseq. Qed.

Lemma safe_now clk : safe (now clk).
Proof. intros c [] _. split_and!; [by constructor|by constructor|done]. Qed.
Lemma safe_nowMillis clk : safe (nowMillis clk).
Proof. apply safe_bind; [apply safe_now|]. intros. by apply runs_ret. Qed.
Lemma safe_read {A} (q : Table → A) : safe (command (λ t, (q t, t))).
Proof. apply runs_command; [done|]. intros c [] _. done. Qed.
Lemma safe_check_ctx : safe check_ctx.
Proof. apply safe_read. Qed.
Lemma safe_gets {A} (q : Conn → A) : safe (gets q).
Proof. intros c Hg _. split_and!; [done|apply step_refl|done]. Qed.
Lemma yields_Get op : yields (AeroDb.Get op) (λ o, ∀ r, o = Some r → ∃ u, represents op r u).
Proof. apply runs_command; [done|]. intros c [Hw _ _] _. split_and!; [done..|]. intros r. apply Hw. Qed.
Lemma runs_of_record {P} op r u : represents op r u → runs P (of_record r) (λ v _, v = u).
Proof.
  intros [[_ Hf _] Hs]. apply runs_lift.
  - by rewrite (recordToUTXO_same _ _ Hs) recordToUTXO_encode.
  - intros v c Hv _. rewrite (recordToUTXO_same _ _ Hs) recordToUTXO_encode // in Hv. by injection Hv.
Qed.

(** ** Writes *)

Definition passes (flt : option expr) (u : UTXO) : Prop :=
  match flt with Some e => holds e (encode u) = true | None => True end.

(** A write that is a change of the coin. *)
Definition changes (key : Outpoint) (ops : list operation) (u u' : UTXO) : Prop :=
  fit_at key u' ∧ same (apply_ops ops (encode u)) (encode u') ∧ rtc (own key) (Some u) (Some u').

Lemma coins_insert t key r' u u' :
  coin_at t key = Some u → rtc (own key) (Some u) (Some u') → represents key r' u' →
  ∀ op, rtc (own op) (coin_at t op) (coin_at (<[key := r']> t) op).
Proof.
  intros Hu Hs Hr op. destruct (decide (op = key)) as [->|].
  - rewrite Hu (represents_coin (<[key := r']> t) key r' u') //. by rewrite lookup_insert_eq.
  - by rewrite (coin_at_ne t (<[key := r']> t) op) // lookup_insert_ne.
Qed.

Lemma runs_Operate P flt key ops (Q : result → Conn → Prop) :
  settled P →
  (∀ c u, good c → P c → coin_at (recs c) key = Some u → fit_at key u → passes flt u →
     ∃ u', changes key ops u u' ∧
       ∀ t, coin_at t key = Some u' → (∀ op, op ≠ key → t !! op = recs c !! op) → Q Done (with_recs t c)) →
  (∀ c, P c → Q FILTERED_OUT c ∧ Q KEY_NOT_FOUND c) →
  runs P (Operate flt key ops) Q.
Proof.
  intros HP Hw Hn. apply runs_command; [done|]. intros c Hg HPc. pose proof (good_wf _ Hg) as Hwf.
  assert (with_recs (recs c) c = c) as Hid by by destruct c.
  destruct (recs c !! key) as [r|] eqn:Hr; simpl.
  2:{ split_and!; [done|done|]. rewrite Hid. by apply Hn. }
  destruct (Hwf _ _ Hr) as [u Hu]. pose proof (represents_coin _ _ _ _ Hr Hu) as Hc. destruct Hu as [Hf Hs].
  assert ((match flt with Some e => holds e r | None => true end) = true ↔ passes flt u) as Hp.
  { destruct flt as [e|]; simpl; [|done]. by rewrite (holds_same e _ _ Hs). }
  destruct (match flt with Some e => holds e r | None => true end).
  - destruct (Hw c u Hg HPc Hc Hf) as (u'&(Hf'&Hs'&Hown)&HQ); [by apply Hp|].
    assert (represents key (apply_ops ops r) u') as Hr'.
    { split; [done|]. by rewrite (apply_ops_same _ _ _ Hs). }
    split_and!.
    + by eapply wf_insert.
    + by eapply coins_insert.
    + apply HQ; [eapply represents_coin; [apply lookup_insert_eq|done]|]. intros. by rewrite lookup_insert_ne.
  - split_and!; [done|done|]. rewrite Hid. by apply Hn.
Qed.

Lemma safe_Operate flt key ops :
  (∀ u, fit_at key u → passes flt u → ∃ u', changes key ops u u') → safe (Operate flt key ops).
Proof.
  intros Hw. apply runs_Operate; [done| |done]. intros c u _ _ _ Hf Hp. destruct (Hw u Hf Hp) as [u' Hu].
  by exists u'.
Qed.

Lemma safe_Delete flt key :
  (∀ u, fit_at key u → passes flt u → own key (Some u) None) → safe (Delete flt key).
Proof.
  intros Hw. apply runs_command; [done|]. intros c Hg _. pose proof (good_wf _ Hg) as Hwf.
  destruct (recs c !! key) as [r|] eqn:Hr; simpl; [|done].
  destruct (Hwf _ _ Hr) as [u Hu]. pose proof (represents_coin _ _ _ _ Hr Hu) as Hc. destruct Hu as [Hf Hs].
  assert ((match flt with Some e => holds e r | None => true end) = true → passes flt u) as Hp.
  { destruct flt as [e|]; simpl; [|done]. by rewrite (holds_same e _ _ Hs). }
  destruct (match flt with Some e => holds e r | None => true end); [|done].
  split_and!; [by apply wf_delete| |done]. intros op. destruct (decide (op = key)) as [->|].
  - rewrite Hc /coin_at lookup_delete_eq. apply rtc_once, Hw; [done|by apply Hp].
  - by rewrite (coin_at_ne (recs c) (delete key (recs c)) op) // lookup_delete_ne.
Qed.

Lemma safe_PutBins key r u :
  represents key r u → own key None (Some u) → safe (PutBins key r).
Proof.
  intros Hu Hown. apply runs_command; [done|]. intros c Hg _. pose proof (good_wf _ Hg) as Hwf.
  destruct (recs c !! key) as [r'|] eqn:Hr; simpl; [done|].
  split_and!; [by eapply wf_insert| |done]. intros op. destruct (decide (op = key)) as [->|].
  - rewrite {1}/coin_at Hr (represents_coin (<[key := r]> (recs c)) key r u) ?lookup_insert_eq //. by apply rtc_once.
  - by rewrite (coin_at_ne (recs c) (<[key := r]> (recs c)) op) // lookup_insert_ne.
Qed.

(** ** Queries *)

(** A row a query gave, as it was when it was visited. *)
Definition row_ok (sel : expr) (kr : Outpoint * record) : Prop :=
  ∃ u, represents kr.1 kr.2 u ∧ holds sel (encode u) = true.

Lemma yields_visit sel keys max : yields (visit sel keys max) (Forall (row_ok sel)).
Proof.
  revert max. induction keys as [|key keys IH]; intros max; cbn [visit]; [by apply runs_ret|].
  assert (yields (found ← AeroDb.Get key;
    match found with
    | Some r => if holds sel r then rest ← visit sel keys (pred <$> max); mret ((key, r) :: rest) else visit sel keys max
    | None => visit sel keys max
    end) (Forall (row_ok sel))) as Hv.
  { eapply yields_then; [apply yields_Get|]. intros [r|] Hr; [|apply IH].
    destruct (Hr r eq_refl) as [u Hu]. destruct (holds sel r) eqn:Hs; [|apply IH].
    eapply yields_then; [apply IH|]. intros rest Hrest. apply runs_ret. intros _ _. constructor; [|done].
    exists u. split; [done|]. by rewrite -(holds_same sel _ _ (proj2 Hu)). }
  destruct max as [[|n]|]; [by apply runs_ret|exact Hv..].
Qed.

Section query.
Context `{MapRange}.
Lemma yields_streamQuery sel max : yields (streamQuery sel max) (Forall (row_ok sel)).
Proof.
  apply safe_bind; [apply safe_check_ctx|]. intros _. apply safe_bind; [apply safe_gets|]. intros keys.
  apply yields_visit.
Qed.

Definition coin_ok (sel : expr) (u : UTXO) : Prop := fit_at (u_Outpoint u) u ∧ holds sel (encode u) = true.
Lemma yields_decode_all sel rs :
  Forall (row_ok sel) rs → yields (decode_all rs) (Forall (coin_ok sel)).
Proof.
  induction 1 as [|[key r] rs (u&Hu&Hh) Hrs IH]; [by apply runs_ret|]. cbn [decode_all].
  eapply yields_then; [by eapply runs_of_record|]. intros ? ->. eapply yields_then; [exact IH|].
  intros us Hus. apply runs_ret. intros _ _. constructor; [|done]. split; [|done].
  destruct Hu as [Hf _]. by rewrite (at_op _ _ Hf).
Qed.
Lemma yields_found_coins sel : yields (found_coins sel) (Forall (coin_ok sel)).
Proof. eapply yields_then; [apply yields_streamQuery|]. apply yields_decode_all. Qed.
End query.

(** ** The claim cache *)

Lemma cache_ok_insert key b cc lru next :
  bucket_ok key b → cache_ok cc → cache_ok (set_buckets (<[key := b]> (cc_buckets cc)) lru next cc).
Proof.
  intros Hb Hcc k b'. simpl. destruct (decide (k = key)) as [->|].
  - rewrite lookup_insert_eq. by intros [= <-].
  - rewrite lookup_insert_ne //. apply Hcc.
Qed.
Lemma cache_ok_evict cc : cache_ok cc → cache_ok (evictLocked cc).
Proof.
  intros Hcc. rewrite /evictLocked. case_match; [|done]. intros k b. simpl.
  generalize (drop (Z.to_nat (cc_maxBuckets cc)) (cc_lru cc)). intros l.
  induction l as [|x l IH]; simpl; [apply Hcc|]. by intros [_ Hb%IH]%lookup_delete_Some.
Qed.
Lemma bucket_yields key cc :
  cache_ok cc → let '(b, cc') := bucket key cc in cache_ok cc' ∧ bucket_ok key b.
Proof.
  intros Hcc. rewrite /bucket. destruct (cc_buckets cc !! key) as [b|] eqn:Hb.
  - split; [done|by apply Hcc].
  - assert (bucket_ok key (mkBucket (cc_next cc) [] false zeroTime 0)) by constructor.
    split; [|done]. by apply cache_ok_evict, cache_ok_insert.
Qed.
Lemma on_bucket_yields {A} key b (f : claimBucket → A * claimBucket) (Q : A → Prop) cc :
  bucket_ok key b → (∀ b, bucket_ok key b → bucket_ok key (f b).2 ∧ Q (f b).1) → cache_ok cc →
  let '((a, b'), cc') := on_bucket key b f cc in cache_ok cc' ∧ Q a ∧ bucket_ok key b'.
Proof.
  intros Hb Hf Hcc. rewrite /on_bucket.
  assert (let '((a, b'), cc') := (f b, cc) in cache_ok cc' ∧ Q a ∧ bucket_ok key b').
  { destruct (Hf b Hb). destruct (f b). done. }
  destruct (cc_buckets cc !! key) as [cur|] eqn:Hcur; [|done]. destruct (cb_id cur =? cb_id b)%nat; [|done].
  destruct (Hf cur (Hcc _ _ Hcur)) as [Hb' HQ]. destruct (f cur) as [a b']. split_and!; [|done|done].
  by apply cache_ok_insert.
Qed.
Lemma markClaimable_ok key cc : cache_ok cc → cache_ok (markClaimable key cc).
Proof.
  intros Hcc. rewrite /markClaimable. destruct (cc_buckets cc !! key) as [b|] eqn:Hb; [|done].
  apply cache_ok_insert; [|done]. by apply Hcc in Hb.
Qed.

Lemma best_index_pred pr prefer l i best j :
  best_index pr prefer i l best = Some j →
  (∃ s, best = Some (j, s)) ∨ ∃ n c, j = (i + n)%nat ∧ l !! n = Some c ∧ pr (c_sats c) = true.
Proof.
  revert i best. induction l as [|c l IH]; intros i best; simpl.
  { destruct best as [[b s]|]; simpl; [|done]. intros [= ->]. by left; eexists. }
  assert (∀ best', best_index pr prefer (S i) l best' = Some j →
    (∃ s, best' = Some (j, s)) ∨ ∃ n c', j = (i + n)%nat ∧ (c :: l) !! n = Some c' ∧ pr (c_sats c') = true) as Hl.
  { intros best' [?|(n&c'&->&Hn&Hp)]%IH; [by left|]. right. exists (S n), c'. split_and!; [lia|done|done]. }
  destruct (pr (c_sats c)) eqn:Hp; simpl; [|apply Hl].
  assert (∃ n c', i = (i + n)%nat ∧ (c :: l) !! n = Some c' ∧ pr (c_sats c') = true) as Hi.
  { exists 0%nat, c. split_and!; [lia|done|done]. }
  destruct best as [[b s]|], prefer as [p|].
  - intros Hb. apply Hl in Hb as [[s' Hs]|?]; [|by right]. destruct (p (c_sats c) s); [|by left; eexists].
    injection Hs as -> _. by right.
  - apply Hl.
  - intros [[s' [= -> _]]|?]%Hl; by right.
  - intros [= ->]. by right.
Qed.
Lemma swap_remove_subseteq i l c : c ∈ swap_remove i l → c ∈ l.
Proof.
  rewrite /swap_remove. destruct (last l) as [x|] eqn:Hx; [|by intros ?%elem_of_nil].
  intros Hc. assert (c ∈ <[i:=x]> l) as [j Hj]%list_elem_of_lookup.
  { eapply elem_of_sublist; [exact Hc|apply sublist_take]. }
  destruct (decide (i = j)) as [->|].
  - apply list_lookup_insert_Some in Hj as [(_&->&_)|(?&_)]; [|done]. apply last_Some in Hx as [l' ->].
    apply elem_of_app. right. left.
  - rewrite list_lookup_insert_ne // in Hj. by eapply list_elem_of_lookup_2.
Qed.
Lemma pull_spec (P : candidate → Prop) pr prefer want l :
  Forall P l → let '(out, rest) := pull pr prefer want l in
  Forall (λ c, P c ∧ pr (c_sats c) = true) out ∧ Forall P rest.
Proof.
  revert l. induction want as [|want IH]; intros l Hl; cbn [pull]; [done|].
  destruct (best_index pr prefer 0 l None) as [j|] eqn:Hj; [|done].
  destruct (best_index_pred _ _ _ _ _ _ Hj) as [[? ?]|(n&c&->&Hn&Hp)]; [done|]. simpl. rewrite Hn.
  assert (Forall P (swap_remove n l)) as Hs.
  { apply Forall_forall. intros x Hx%swap_remove_subseteq. by eapply Forall_forall in Hl. }
  specialize (IH _ Hs). destruct (pull pr prefer want (swap_remove n l)) as [out rest].
  destruct IH as [? ?]. split; [|done]. constructor; [|done]. split; [|done]. exact (Forall_lookup_1 _ _ _ _ Hl Hn).
Qed.

Definition picked (key : string) (pr : Z → bool) (c : candidate) : Prop := cand_ok key c ∧ pr (c_sats c) = true.
Lemma pullLocked_spec key pr prefer want b :
  bucket_ok key b →
  bucket_ok key (pullLocked pr prefer want b).2 ∧ Forall (picked key pr) (pullLocked pr prefer want b).1.
Proof.
  intros Hb. rewrite /pullLocked. pose proof (pull_spec (cand_ok key) pr prefer (Z.to_nat want) _ Hb) as Hp.
  destruct (pull pr prefer (Z.to_nat want) (cb_cands b)) as [out rest]. by destruct Hp.
Qed.
Lemma preferredMatches_spec key cands pr prefer want :
  Forall (cand_ok key) cands → Forall (picked key pr) (preferredMatches cands pr prefer want).
Proof.
  intros Hc. rewrite /preferredMatches. apply Forall_forall. intros c Hin%slice_to_subseteq.
  assert (c ∈ filter (λ c, pr (c_sats c) = true) cands) as [Hp Hc']%list_elem_of_filter.
  { destruct prefer; [|done]. by rewrite SortFunc_perm in Hin. }
  split; [|done]. by eapply Forall_forall in Hc.
Qed.

Section claims.
Context `{MapRange} (clk : nat → Time).

Lemma yields_probe key flt max : yields (probe key flt max) (Forall (cand_ok key)).
Proof.
  eapply yields_then; [apply yields_streamQuery|]. intros found Hf. apply runs_ret. intros _ _.
  apply Forall_fmap. eapply Forall_impl; [exact Hf|]. intros [op r] (u&Hu&Hh).
  rewrite holds_and_true holds_claimKey in Hh. destruct Hh as [[Hc Hk] _].
  exists u. split_and!; [done..|]. simpl. destruct Hu as [[_ Hf' _] Hs]. simpl in Hs. rewrite Hs /=.
  apply u64_of_i64, Hf'.
Qed.

(** The rest of a claim runs with the cache it found. *)
Abbreviation cached m Q := (runs (λ c, is_Some (cache c)) m (λ a _, Q a)).
Lemma cached_bind {A B} (m : AM A) (k : A → AM B) (Q : A → Prop) (R : B → Prop) :
  cached m Q → (∀ a, Q a → cached (k a) R) → cached (m ≫= k) R.
Proof.
  intros Hm Hk. eapply runs_bind.
  - eapply runs_conseq; [|done|]; [|apply (runs_frame _ _ _ _ stable_cached Hm)]. done.
  - intros a c Hg [HQ Hc]. by apply (Hk a HQ c Hg).
Qed.
Lemma cached_yields {A} (m : AM A) (Q : A → Prop) : yields m Q → cached m Q.
Proof. by apply runs_conseq. Qed.
Lemma cached_attempt {A} (m : AM A) (Q : A → Prop) :
  cached m Q → cached (attempt m) (λ r, match r with inr a => Q a | inl _ => True end).
Proof. apply runs_attempt. Qed.

Lemma cached_pull key b pr prefer want :
  bucket_ok key b →
  cached (section (λ _, on_bucket key b (pullLocked pr prefer want)))
    (λ r, Forall (picked key pr) r.1 ∧ bucket_ok key r.2).
Proof.
  intros Hb. apply runs_section. intros busy cc Hcc.
  pose proof (on_bucket_yields key b (pullLocked pr prefer want) (Forall (picked key pr)) cc Hb
    (pullLocked_spec key pr prefer want) Hcc) as Ho.
  by destruct (on_bucket key b (pullLocked pr prefer want) cc) as [[a b'] cc'].
Qed.

Lemma refreshed_ok key g t probed b :
  Forall (cand_ok key) probed → bucket_ok key b → bucket_ok key (refreshed g t probed b).
Proof. intros Hp Hb. rewrite /refreshed. destruct probed; [|done]. case_match; constructor. Qed.

Lemma cached_refillAndPull key b pr prefer want :
  bucket_ok key b →
  cached (refillAndPull clk key b pr prefer want) (λ r, Forall (picked key pr) r.1).
Proof.
  intros Hb. apply (cached_bind _ _ (λ _, True)).
  { apply runs_section. intros busy cc Hcc.
    pose proof (on_bucket_yields key b (λ b, (cb_gen b, b)) (λ _, True) cc Hb
      (λ b Hb, conj Hb I) Hcc) as Ho.
    by destruct (on_bucket key b _ cc) as [[g b'] cc']; destruct Ho. }
  intros [[[busy g] ttl] refill] _. destruct busy.
  - eapply cached_bind; [apply cached_yields, safe_check_ctx|]. intros _ _.
    eapply cached_bind; [apply cached_yields, safe_now|]. intros t _.
    eapply (cached_bind _ _ (λ r, Forall (picked key pr) r.1.1)).
    { apply runs_section. intros _ cc Hcc.
      pose proof (on_bucket_yields key b (λ b, let '(out, b') := pullLocked pr prefer want b in
        ((out, knownEmptyLocked t ttl b'), b')) (λ a, Forall (picked key pr) a.1) cc Hb) as Ho.
      destruct (on_bucket key b _ cc) as [[a b'] cc']. destruct Ho as (?&?&?); [|done|done].
      intros b0 Hb0. destruct (pullLocked_spec key pr prefer want b0 Hb0).
      by destruct (pullLocked pr prefer want b0). }
    intros [[out known] b'] Ho. by apply runs_ret.
  - eapply cached_bind; [apply cached_attempt, cached_yields, yields_probe|].
    intros [e|probed] Hp.
    + eapply cached_bind; [by apply cached_pull|]. intros _ _. apply runs_throw.
    + apply (cached_bind _ _ (λ _, True)).
      { apply cached_yields. case_decide; [apply safe_now|by apply runs_ret]. }
      intros t _. eapply (cached_bind _ _ (λ r, Forall (picked key pr) r.1)).
      { apply runs_section. intros _ cc Hcc.
        pose proof (on_bucket_yields key b (λ b, pullLocked pr prefer want (refreshed g t probed b))
          (Forall (picked key pr)) cc Hb) as Ho.
        destruct (on_bucket key b _ cc) as [[a b'] cc']. destruct Ho as (?&?&?); [|done|done].
        intros b0 Hb0. apply (pullLocked_spec key pr prefer want). by apply refreshed_ok. }
      intros [out b'] Ho. by apply runs_ret.
Qed.

Lemma yields_filteredProbe key flt pr prefer want :
  yields (filteredProbe key flt pr prefer want) (Forall (picked key pr)).
Proof.
  eapply yields_then; [apply yields_probe|]. intros cands Hc. apply runs_ret. intros _ _.
  by apply preferredMatches_spec.
Qed.

Lemma cached_take_cands key flt pr prefer want :
  cached (take_cands clk key flt pr prefer want) (Forall (picked key pr)).
Proof.
  rewrite /take_cands. destruct (want <=? 0); [by apply runs_ret|].
  eapply cached_bind; [apply cached_yields, safe_check_ctx|]. intros _ _.
  eapply (cached_bind _ _ (bucket_ok key)).
  { apply runs_section. intros _ cc. apply bucket_yields. }
  intros b Hb. eapply cached_bind; [apply cached_yields, safe_now|]. intros t _.
  eapply (cached_bind _ _ (λ r, Forall (picked key pr) r.1.1 ∧ bucket_ok key r.2)).
  { apply runs_section. intros _ cc Hcc.
    pose proof (on_bucket_yields key b (λ b, let '(out, b') := pullLocked pr prefer want b in
      ((out, knownEmptyLocked t (cc_emptyTTL cc) b'), b')) (λ a, Forall (picked key pr) a.1) cc Hb) as Ho.
    destruct (on_bucket key b _ cc) as [[a b'] cc']. destruct Ho as (?&?&?); [|done|done].
    intros b0 Hb0. destruct (pullLocked_spec key pr prefer want b0 Hb0).
    by destruct (pullLocked pr prefer want b0). }
  intros [[out known] b'] [Ho Hb']. simpl in *. case_match; [by apply runs_ret|].
  eapply cached_bind; [by apply cached_refillAndPull|]. intros [more empty] Hm. simpl in Hm.
  case_match; [|apply cached_yields, yields_filteredProbe]. apply runs_ret. intros _ _. by apply Forall_app.
Qed.

Lemma yields_claimCands key flt pr prefer want :
  yields (claimCands clk key flt pr prefer want) (Forall (picked key pr)).
Proof.
  rewrite /claimCands. eapply (runs_bind _ _ _ (λ b c, b = true → is_Some (cache c))).
  { intros c Hg _. split_and!; [done|apply step_refl|]. simpl. destruct (cache c); by [|intros]. }
  intros [] c Hg Hc; [by apply cached_take_cands; [|apply Hc]|].
  eapply (yields_then _ _ (Forall (cand_ok key))); [apply yields_probe| |done|done]. intros cands Hcs. apply runs_ret.
  intros _ _. by apply preferredMatches_spec.
Qed.

Lemma safe_note key : safe (note key).
Proof.
  intros c Hg _. rewrite /note. destruct (cache c) as [cc|] eqn:Hc.
  - apply (runs_section (λ _ cc, ((), markClaimable key cc)) (λ _, True)); [|done|by rewrite Hc].
    intros _ cc' Hok. split; [by apply markClaimable_ok|done].
  - split_and!; [done|apply step_refl|done].
Qed.
Lemma safe_noteAll uid basket sats : safe (noteClaimableAllTiers uid basket sats).
Proof.
  rewrite /noteClaimableAllTiers. induction allTiers as [|t l IH]; simpl; [by apply runs_ret|].
  apply safe_bind; [apply safe_note|]. intros _. exact IH.
Qed.
End claims.
End races.
End AeroRaces.

(** * AeroRaceOps: every operation keeps the coins' lifecycle, races included *)
Module AeroRaceOps.
Import AeroRaces.

(** What a refused ReserveOutpoints takes back: its own fresh reservations. *)
Inductive undo : call → coin_rels :=
| undo_reserve clk uid tok ops op u :
    op ∈ ops → tok ≠ "" → u_ReservedBy u = tok → u_SpentBy u = None → u_Pinned u = false →
    undo (CReserveOutpoints clk uid tok ops) op (Some u) (Some (MemStore.unreserve u)).
Definition own_steps (c : call) : coin_rels := λ op o o', lifecycle c op o o' ∨ undo c op o o'.

(** Mints in range of their Go types that name the coins' identities. *)
Definition mint_ident (m : UtxoTypes.Mint) : identity :=
  mkId (m_UserID m) (m_Basket m) (m_Satoshis m) (m_InputSize m).
Record mint_typed (ident : Outpoint → identity) (m : UtxoTypes.Mint) : Prop := {
  mt_vout : 0 ≤ Vout (m_Outpoint m) < 2 ^ 32;
  mt_user : m_UserID m < 2 ^ 63;
  mt_sats : 0 ≤ m_Satoshis m < 2 ^ 64;
  mt_size : 0 ≤ m_InputSize m < 2 ^ 32;
  mt_ident : mint_ident m = ident (m_Outpoint m);
}.
Definition typed (ident : Outpoint → identity) (c : call) : Prop :=
  match c with
  | CMint _ ms => Forall (mint_typed ident) ms
  | CClaimSmallestSufficient _ sc _ x => sc_UserID sc < 2 ^ 63 ∧ 0 ≤ x < 2 ^ 64
  | CClaimLargestInsufficient _ sc _ x _ => sc_UserID sc < 2 ^ 63 ∧ 0 ≤ x < 2 ^ 64
  | CClaimExact _ sc _ x _ => sc_UserID sc < 2 ^ 63 ∧ 0 ≤ x < 2 ^ 64
  | _ => True
  end.

Lemma set_pinned_same u b : u_Pinned u = b → set_pinned b u = u.
Proof. by destruct u; simpl; intros ->. Qed.

Section ops.
Context `{MapRange} (ident : Outpoint → identity) (L : coin_rels).
Abbreviation fit_at := (fit_at ident).
Abbreviation coin_ok := (coin_ok ident).
Abbreviation runs := (runs ident L).
Abbreviation yields own m Q := (runs own anywhere m (λ a _, Q a)).
Abbreviation safe own m := (runs own anywhere m (λ _ _, True)).

Lemma safe_ret own {A} (a : A) : safe own (mret a).
Proof. by apply runs_ret. Qed.
Lemma safe_for_each own {A B} (f : A → AM B) l :
  (∀ x, x ∈ l → safe own (f x)) → safe own (for_each f l).
Proof.
  induction l as [|x l IH]; intros Hf; [apply safe_ret|]. apply safe_bind; [apply Hf; left|]. intros y.
  apply safe_bind; [apply IH; intros; apply Hf; by right|]. intros. apply safe_ret.
Qed.
Lemma yields_attempt own {A} (m : AM A) (Q : A → Prop) :
  yields own m Q → yields own (attempt m) (λ r, match r with inr a => Q a | inl _ => True end).
Proof. apply runs_attempt. Qed.
Lemma safe_attempt own {A} (m : AM A) : safe own m → safe own (attempt m).
Proof. intros Hm. eapply safe_any, runs_attempt, Hm. Qed.
Lemma safe_count_each own {A} (f : A → AM bool) l n :
  (∀ x, x ∈ l → safe own (f x)) → safe own (count_each f l n).
Proof.
  revert n. induction l as [|x l IH]; intros n Hf; [apply safe_ret|].
  apply safe_bind; [by apply safe_attempt, Hf; left|]. intros [e|ok]; [apply safe_ret|].
  apply IH. intros. apply Hf. by right.
Qed.
Lemma safe_item_error own m : safe own m → safe own (item_error m).
Proof. intros Hm. apply safe_bind; [by apply safe_attempt|]. intros. apply safe_ret. Qed.

(** ** Reservations *)

Lemma fit_at_reserve op u tok ms :
  fit_at op u → u_SpentBy u = None → tok ≠ "" → fit_at op (set_reservation tok (msToTime ms) u).
Proof.
  intros [<- [] Hi] Hs Ht. constructor; [done| |done]. constructor; try done.
  simpl. rewrite decide_False //. apply on_ms_msToTime.
Qed.
Lemma fit_at_unreserve op u : fit_at op u → fit_at op (set_pinned false (MemStore.unreserve u)).
Proof. intros [<- Hf Hi]. constructor; [done|by apply fit_unreserve|done]. Qed.

Lemma fit_at_pin op u b :
  fit_at op u → u_ReservedBy u ≠ "" → u_SpentBy u = None → fit_at op (set_pinned b u).
Proof. intros [<- [] Hi] Hr Hs. constructor; [done| |done]. by constructor. Qed.
Lemma fit_at_unspend op u :
  fit_at op u → fit_at op (set_pinned false (MemStore.unreserve (set_spentBy None u))).
Proof. intros [<- [] Hi]. constructor; [done| |done]. by constructor. Qed.
Lemma fit_at_tier op u to : fit_at op u → Tier_Valid to = true → fit_at op (set_tier to u).
Proof. intros [<- [] Hi] Ht. constructor; [done| |done]. by constructor. Qed.

(** Either release: the row's own identity restores its key. *)
Lemma safe_releaseRow own v tok (o : bool) :
  fit_at (u_Outpoint v) v → tok ≠ "" →
  (∀ u, fit_at (u_Outpoint v) u → u_ReservedBy u = tok → u_SpentBy u = None → (o = false → u_Pinned u = false) →
     own (u_Outpoint v) (Some u) (Some (set_pinned false (MemStore.unreserve u)))) →
  safe own (releaseRow v tok o).
Proof.
  intros Hv Ht Hown. apply safe_bind.
  - apply safe_Operate. intros u Hu Hp. exists (set_pinned false (MemStore.unreserve u)).
    simpl in Hp. rewrite /release_guard in Hp. cbn [app] in Hp.
    rewrite !holds_and_true holds_reserved_by // holds_unspent in Hp. destruct Hp as (Hr&Hs&Hp).
    assert (o = false → u_Pinned u = false) as Hpin.
    { intros ->. rewrite holds_and_true holds_unpinned in Hp. apply Hp. }
    split_and!; [by apply fit_at_unreserve| |by apply rtc_once, Hown].
    apply (write_release v tok); [by destruct Hu|by rewrite (at_ident _ _ _ Hv) (at_ident _ _ _ Hu)|done..].
  - intros []; [|apply safe_ret..]. apply safe_bind; [apply safe_noteAll|]. intros. apply safe_ret.
Qed.

Lemma safe_ReleaseReservation uid tok n :
  tok ≠ "" →
  safe (own_steps (CReleaseReservation uid tok))
    (rows ← found_coins (ExpAnd [reserved_by tok; owned_by uid; unspent; unpinned]);
     count_each (λ u, _ ← check_ctx; releaseRow u tok false) rows n).
Proof.
  intros Ht. eapply yields_then; [apply yields_found_coins|]. intros rows Hrows.
  apply safe_count_each. intros v Hv. apply safe_bind; [apply safe_check_ctx|]. intros _.
  eapply Forall_forall in Hrows as [Hf Hh]; [|exact Hv].
  rewrite !holds_and_true holds_owned_by in Hh. destruct Hh as (_&Hu&_).
  apply safe_releaseRow; [done|done|]. intros u Hfu Hr Hs Hp. left. rewrite set_pinned_same; [|by apply Hp].
  apply lc_release; [done| |by apply Hp]. split_and!; [|done|done].
  destruct Hfu as [_ _ Hi]. destruct Hf as [_ _ Hi']. rewrite -Hi' in Hi. by injection Hi as -> _ _ _.
Qed.

(** A row read by key: the coin that was there. *)
Lemma yields_row own {A} op (k : option record → AM A) (R : A → Prop) :
  yields own (k None) R →
  (∀ r u, fit_at op u → decoded r = Some u → (∀ {B} (f : UTXO → AM B) Q, yields own (f u) Q → yields own (u ← of_record r; f u) Q) →
     yields own (k (Some r)) R) →
  yields own (found ← AeroDb.Get op; k found) R.
Proof.
  intros Hn Hs. eapply yields_then; [apply yields_Get|]. intros [r|] Hr; [|done].
  destruct (Hr r eq_refl) as [u Hu]. apply (Hs r u); [apply Hu|by eapply represents_decoded|].
  intros B f Q Hf. eapply yields_then; [by eapply runs_of_record|]. by intros ? ->.
Qed.

Lemma safe_ReleaseOutpoints tok all ops :
  tok ≠ "" → (∀ op, op ∈ ops → op ∈ all) →
  safe (own_steps (CReleaseOutpoints tok all)) (release_named tok ops).
Proof.
  intros Ht. induction ops as [|op ops IH]; intros Hall; [apply safe_ret|]. cbn [release_named].
  assert (safe (own_steps (CReleaseOutpoints tok all)) (release_named tok ops)) as Hrest.
  { apply IH. intros. apply Hall. by right. }
  apply (yields_row _ op); [done|]. intros r v Hv _ Hrec. apply Hrec. case_decide as Hd; [done|].
  apply safe_bind; [|done]. destruct Hv as [<- Hfv Hiv] eqn:Hv'. clear Hv'.
  apply safe_releaseRow; [by constructor|done|]. intros u Hu Hr Hs _. left. apply lc_release_op; [apply Hall; left|done..].
Qed.

Lemma safe_setPinnedRow uid tok (b : bool) op :
  tok ≠ "" →
  (∀ u, fit_at op u → u_UserID u = uid) →
  safe (own_steps (if b then CPin uid tok else CUnpin uid tok)) (setPinnedRow op tok b).
Proof.
  intros Ht Hu. apply safe_bind; [|intros; apply safe_ret]. apply safe_Operate. intros u Hf Hp. simpl in Hp.
  rewrite !holds_and_true holds_reserved_by // holds_unspent in Hp. destruct Hp as (Hr&Hs&_).
  exists (set_pinned b u). split_and!; [by apply fit_at_pin; rewrite ?Hr|apply write_pin|].
  - apply rtc_once. left. destruct b; [apply lc_pin|apply lc_unpin]; try done; (split_and!; [by apply Hu|done..]).
Qed.

(** The owner of a coin is part of its identity. *)
Lemma same_owner op u v : fit_at op u → fit_at op v → u_UserID u = u_UserID v.
Proof. intros [_ _ Hi] [_ _ Hi']. rewrite -Hi' in Hi. by injection Hi. Qed.
Lemma same_sats op u v : fit_at op u → fit_at op v → u_Satoshis u = u_Satoshis v.
Proof. intros [_ _ Hi] [_ _ Hi']. rewrite -Hi' in Hi. by injection Hi. Qed.
Lemma same_ident op u v : fit_at op u → fit_at op v → ident_of u = ident_of v.
Proof. intros [_ _ Hi] [_ _ Hi']. congruence. Qed.

Lemma safe_setPinned uid tok (b : bool) n :
  tok ≠ "" →
  safe (own_steps (if b then CPin uid tok else CUnpin uid tok))
    (rows ← found_coins (ExpAnd [reserved_by tok; owned_by uid; unspent; pinState b]);
     count_each (λ op, _ ← check_ctx; setPinnedRow op tok b) (u_Outpoint <$> rows) n).
Proof.
  intros Ht. eapply yields_then; [apply yields_found_coins|]. intros rows Hrows.
  apply safe_count_each. intros op (v&->&Hv)%list_elem_of_fmap. apply safe_bind; [apply safe_check_ctx|]. intros _.
  eapply Forall_forall in Hrows as [Hf Hh]; [|exact Hv].
  rewrite !holds_and_true holds_owned_by in Hh. destruct Hh as (_&Hu&_).
  apply safe_setPinnedRow; [done|]. intros u Hfu. rewrite -Hu. by eapply same_owner.
Qed.

(** ** Naming outpoints *)

Lemma distinct_outpoints_in seen ops op : op ∈ distinct_from seen ops → op ∈ ops.
Proof.
  revert seen. induction ops as [|x ops IH]; intros seen; simpl; [done|].
  case_decide; [intros Hop%IH; by right|]. intros [->|Hop%IH]%elem_of_cons; [left|by right].
Qed.

Section reserve.
Context (call_clk : nat → Time) (uid : Z) (tok : string) (all : list Outpoint) (Htok : tok ≠ "").
Abbreviation mine := (own_steps (CReserveOutpoints call_clk uid tok all)).

(** A row this call reserved, as it remembers it. *)
Definition won_ok (u : UTXO) : Prop := fit_at (u_Outpoint u) u ∧ u_Outpoint u ∈ all.

Lemma yields_classify op :
  yields mine (classifyForReserve op uid tok)
    (λ v, ∀ u sat, v = inr (u, sat) → fit_at op u ∧ u_UserID u = uid ∧ u_SpentBy u = None).
Proof.
  apply (yields_row _ op); [by apply runs_ret|]. intros r u Hu _ Hrec. apply Hrec. apply runs_ret.
  intros _ _ u' sat. rewrite /reserve_verdict. case_decide; [done|].
  destruct (u_SpentBy u) eqn:Hs; [done|]. case_decide; [done|]. destruct (u_Frozen u); [done|].
  intros [= <- _]. done.
Qed.

Lemma yields_reserveOne op ms :
  op ∈ all → yields mine (reserveOutpointOne op uid tok ms) (λ v, ∀ u, v = inr (Some u) → won_ok u).
Proof.
  intros Hop. eapply yields_then; [apply yields_classify|]. intros [e|[u []]] Hv; [by apply runs_ret..|].
  destruct (Hv u false eq_refl) as (Hf&Hu&Hs). destruct Hf as [Hop' Hfu Hi].
  apply safe_bind.
  - apply safe_bind; [|intros; apply safe_ret]. apply safe_Operate. intros u1 Hf1 Hp. simpl in Hp.
    rewrite !holds_and_true holds_has_claimKey holds_owned_by claim_expression_spec in Hp.
    destruct Hp as ([[Hr1 Hs1] Hfr1]&Hu1&_).
    exists (set_reservation tok (msToTime ms) u1). split_and!; [by apply fit_at_reserve|by apply write_reserve|].
    rewrite Hop'. apply rtc_once. left. by apply lc_reserve.
  - intros []; [apply runs_ret; intros _ _ ? [= <-]|].
    + split; [|by rewrite /= Hop']. rewrite /= Hop'. by apply fit_at_reserve.
    + eapply yields_then; [apply yields_classify|]. intros [e|[? []]] _; [by apply runs_ret..|apply runs_throw].
Qed.

Lemma safe_undo won : Forall won_ok won → safe mine (undoReserveOutpoints won tok).
Proof.
  induction 1 as [|v won [Hv Hin] _ IH]; [apply safe_ret|]. apply safe_bind; [|intros; exact IH].
  apply safe_attempt, safe_releaseRow; [done..|]. intros u Hu Hr Hs Hp. right.
  rewrite set_pinned_same; [|by apply Hp]. apply undo_reserve; auto.
Qed.

Lemma yields_reserve_all ms ops errs won :
  (∀ op, op ∈ ops → op ∈ all) → Forall won_ok won →
  yields mine (reserve_all uid tok ms ops errs won) (λ r, Forall won_ok r.2).
Proof.
  revert errs won. induction ops as [|op ops IH]; intros errs won Hall Hwon; [by apply runs_ret|].
  cbn [reserve_all]. eapply yields_then; [apply yields_attempt, (yields_reserveOne op ms); apply Hall; left|].
  intros [e|[e|u]] Hv.
  - apply safe_bind; [by apply safe_undo|]. intros. apply runs_throw.
  - apply IH; [|done]. intros. apply Hall. by right.
  - apply IH; [intros; apply Hall; by right|]. apply Forall_app. split; [done|].
    destruct u as [u|]; simpl; [|constructor]. constructor; [by apply Hv|constructor].
Qed.

Lemma safe_ReserveOutpoints clk ops :
  (∀ op, op ∈ ops → op ∈ all) →
  safe mine (ms ← nowMillis clk;
    '(itemErrs, won) ← reserve_all uid tok ms (distinctOutpoints ops) [] [];
    match itemErrs with
    | [] => mret ()
    | _ => _ ← undoReserveOutpoints won tok; lift (batch_result itemErrs)
    end).
Proof.
  intros Hall. apply safe_bind; [apply safe_nowMillis|]. intros ms.
  eapply yields_then; [apply yields_reserve_all; [|constructor]|].
  { intros op Hop%distinct_outpoints_in. by apply Hall. }
  intros [[|e errs] won] Hwon; [apply safe_ret|]. apply safe_bind; [by apply safe_undo|]. intros _.
  apply runs_lift; [|done]. by rewrite /batch_result.
Qed.
End reserve.

(** ** Spends *)

Definition spent_is (op : Outpoint) (w : Hash) (o : option UTXO) : Prop := ∃ u, o = Some u ∧ u_SpentBy u = Some w.
Definition recorded (sp : SpendOp) (c : Conn) : Prop :=
  spent_is (sp_Outpoint sp) (sp_SpendingTxID sp) (coin_at (recs c) (sp_Outpoint sp)).

Section spend.
Context (sps : list SpendOp) (force : bool).
Abbreviation mine := (own_steps (CSpend sps force)).

Lemma spend_changes sp u :
  sp ∈ sps → sp_Reservation sp ≠ "" → fit_at (sp_Outpoint sp) u → passes (Some (spend_filter sp force)) u →
  changes ident mine (sp_Outpoint sp) (spend_ops sp force) u
    (set_pinned false (set_spentBy (Some (sp_SpendingTxID sp)) u)).
Proof.
  intros Hsp Ht Hf Hp. assert (fit u) as Hfit by by destruct Hf.
  assert (fit_at (sp_Outpoint sp) (set_pinned false (set_spentBy (Some (sp_SpendingTxID sp)) u))).
  { destruct Hf as [Hop [] Hi]. constructor; [done| |done]. by constructor. }
  simpl in Hp. rewrite /spend_filter in Hp. destruct force eqn:Hforce.
  - rewrite !holds_or_true holds_unspent holds_spent_by holds_or_nil in Hp. destruct Hp as [Hs|[Hs|]]; [|..|done].
    + split_and!; [done|apply write_spend; naive_solver|]. apply rtc_once. left. apply lc_spend; [done|done|by left].
    + split_and!; [done|apply write_spend; naive_solver|].
      assert (set_pinned false (set_spentBy (Some (sp_SpendingTxID sp)) u) = u) as ->; [|done].
      assert (u_Pinned u = false). { destruct (u_Pinned u) eqn:E; [|done]. apply Hfit in E as [_ E]. congruence. }
      destruct u; simpl in *; by subst.
  - rewrite !holds_and_true holds_reserved_by // holds_unspent holds_unfrozen in Hp. destruct Hp as (Hr&Hs&Hfr&_).
    split_and!; [done|apply write_spend; [done|by left|by rewrite Hr]|].
    apply rtc_once. left. apply lc_spend; [done|done|by right].
Qed.

Lemma runs_Get_state own op :
  runs own anywhere (AeroDb.Get op) (λ o c, o = recs c !! op ∧ ∀ r, o = Some r → ∃ u, represents ident op r u).
Proof.
  apply runs_command; [done|]. intros c [Hw _ _] _. split_and!; [done..|done|]. intros r Hr. by apply Hw.
Qed.

Context (keeps : ∀ op w o o', L op o o' → spent_is op w o → spent_is op w o').

Lemma stable_recorded sp : stable L mine (recorded sp).
Proof.
  intros c c' [Hs _]. apply (rtc_keeps _ (spent_is (sp_Outpoint sp) (sp_SpendingTxID sp)) _ _ (Hs _)).
  intros o o' [[Hl|Hu]|Hl]; [| |by apply keeps].
  - intros (u&->&Hw). inversion Hl; simplify_eq/=; congruence.
  - by inversion Hu.
Qed.

Lemma runs_classifySpend sp :
  runs mine anywhere (classifySpendFailure sp force) (λ v c, v = (None, false) → recorded sp c).
Proof.
  eapply runs_bind; [apply runs_Get_state|]. intros [r|]; [|by apply runs_ret].
  intros c Hg [Hr Hu]. destruct (Hu r eq_refl) as [u Hru].
  pose proof (represents_coin _ _ _ _ _ (eq_sym Hr) Hru) as Hc.
  rewrite /mbind /M_bind /of_record /lift (recordToUTXO_same _ _ (proj2 Hru)) recordToUTXO_encode; [|apply Hru].
  split_and!; [done|apply step_refl|]. rewrite /spend_verdict. destruct (u_SpentBy u) as [w|] eqn:Hs.
  - destruct (Z.eqb_spec w (sp_SpendingTxID sp)) as [->|]; [|done]. intros _. by exists u.
  - repeat case_match; done.
Qed.

Lemma runs_spend_attempts sp n :
  sp ∈ sps → sp_Reservation sp ≠ "" →
  runs mine anywhere (spend_attempts n sp force) (λ e c, e = None → recorded sp c).
Proof.
  intros Hsp Ht. induction n as [|n IH]; cbn [spend_attempts].
  - apply (runs_bind _ _ _ _ _ _ (λ _ _, True)); [|intros; by apply runs_ret].
    eapply safe_bind; [eapply safe_any, yields_Get|].
    intros found. destruct found as [r|]; [|by apply runs_ret]. destruct force; [by apply runs_ret|].
    apply safe_bind; [|intros; by apply runs_ret]. apply runs_lift; [|done].
    rewrite /recordToUTXO. repeat case_match; done.
  - apply (runs_bind _ _ _ _ _ _ (λ r c, r = Done → recorded sp c)).
    { apply runs_Operate; [done| |done]. intros c u Hg _ Hc Hf Hp. eexists. split; [by apply spend_changes|].
      intros t Ht' _ _. rewrite /recorded /=. by eexists. }
    intros []; [apply runs_ret; intros c Hc _; by apply Hc| |];
      (apply runs_anywhere; eapply runs_bind; [apply runs_classifySpend|]; intros [e []];
       [by apply runs_anywhere|apply runs_ret; intros c Hc ->; by apply Hc]).
Qed.

Lemma runs_spendOne sp :
  sp ∈ sps → runs mine anywhere (spendOne force sp) (λ e c, e = None → recorded sp c).
Proof.
  intros Hsp. rewrite /spendOne /ValidateSpend. case_decide as Ht; [by apply runs_ret|].
  eapply runs_bind; [apply runs_attempt, (runs_spend_attempts sp casAttempts Hsp Ht)|].
  intros [e|v]; by apply runs_ret.
Qed.

Definition all_recorded (l : list SpendOp) (es : list (option error)) (c : Conn) : Prop :=
  ∀ i sp, l !! i = Some sp → es !! i = Some None → recorded sp c.

Lemma runs_spend_each l :
  (∀ sp, sp ∈ l → sp ∈ sps) → runs mine anywhere (for_each (spendOne force) l) (λ es c, all_recorded l es c).
Proof.
  induction l as [|sp l IH]; intros Hl; [by apply runs_ret|]. cbn [for_each].
  eapply runs_bind; [apply runs_spendOne, Hl; left|]. intros e.
  apply (runs_bind _ _ _ _ _ _ (λ es c, all_recorded l es c ∧ (e = None → recorded sp c))).
  - apply (runs_keep _ _ _ (λ c, e = None → recorded sp c)).
    + intros c c' Hs Hr ->. by eapply stable_recorded, Hr.
    + apply IH. intros. apply Hl. by right.
  - intros es. apply runs_ret. intros c [Ha He] [|i] sp' Hsp' Hes; simplify_eq/=; [by apply He|by eapply Ha].
Qed.
End spend.

Lemma safe_unspendOne w ops op :
  op ∈ ops → safe (own_steps (CUnspend w ops)) (unspendOne w op).
Proof.
  intros Hop. apply (yields_row _ op); [apply safe_ret|]. intros r v Hv _ Hrec. apply Hrec.
  case_decide; [apply safe_ret|]. apply safe_bind.
  - apply safe_Operate. intros u Hu Hp. simpl in Hp. rewrite holds_spent_by in Hp.
    exists (set_pinned false (MemStore.unreserve (set_spentBy None u))). split_and!.
    + by apply fit_at_unspend.
    + apply (write_unspend v w); [by destruct Hu|by eapply same_ident|done].
    + apply rtc_once. left. by apply lc_unspend.
  - intros []; [|apply safe_ret..]. apply safe_bind; [apply safe_noteAll|]. intros. apply safe_ret.
Qed.

Lemma safe_deleteGuarded own op flt :
  (∀ u, fit_at op u → passes flt u → own op (Some u) None) → safe own (deleteRecordGuarded op flt).
Proof. intros Hd. apply safe_bind; [by apply safe_Delete|]. intros. apply safe_ret. Qed.

Lemma safe_RemoveSpentBy w n :
  safe (own_steps (CRemoveSpentBy w))
    (rows ← found_coins (spent_by w);
     count_each (λ op, _ ← check_ctx; res ← deleteRecordGuarded op (Some (spent_by w)); mret (is_removed res))
       (u_Outpoint <$> rows) n).
Proof.
  apply safe_bind; [eapply safe_any, yields_found_coins|]. intros rows. apply safe_count_each. intros op _.
  apply safe_bind; [apply safe_check_ctx|]. intros _. apply safe_bind; [|intros; apply safe_ret].
  apply safe_deleteGuarded. intros u _ Hp. simpl in Hp. rewrite holds_spent_by in Hp. left. by apply lc_remove_spent.
Qed.

(** ** Inventory *)

Lemma fit_minted m ms : ValidateMint m = None → mint_typed ident m → fit_at (m_Outpoint m) (minted m (msToTime ms)).
Proof.
  intros (?&?&?)%ValidateMint_None [? ? ? ? Hi]. constructor; [done| |done].
  constructor; simpl; try done. apply on_ms_msToTime.
Qed.

Lemma safe_mintOne call_clk clk all m :
  m ∈ all → mint_typed ident m → safe (own_steps (CMint call_clk all)) (mintOne clk m).
Proof.
  intros Hm Ht. rewrite /mintOne. destruct (ValidateMint m) eqn:Hv; [apply safe_ret|].
  apply safe_item_error. apply safe_bind; [apply safe_nowMillis|]. intros ms.
  apply safe_bind.
  - eapply safe_PutBins; [split; [by apply fit_minted|apply mint_encoded]|]. left. by apply lc_mint.
  - intros []; [apply safe_bind; [apply safe_note|]; intros; apply safe_ret|].
    apply (yields_row _ (m_Outpoint m)); [apply safe_ret|]. intros r v Hv' _ Hrec. apply Hrec. apply safe_ret.
Qed.

Lemma safe_removeOne ops (force : bool) op :
  op ∈ ops → safe (own_steps (CRemove ops force)) (removeOne force op).
Proof.
  intros Hop. destruct force; apply safe_item_error.
  { apply safe_bind; [|intros; apply safe_ret]. apply safe_deleteGuarded. intros u _ _. left.
    apply lc_remove; [done|by left]. }
  induction casAttempts as [|n IH]; cbn [remove_attempts]; [apply safe_ret|].
  apply (yields_row _ op); [apply safe_ret|]. intros r v Hv _ Hrec. apply Hrec.
  destruct (remove_refusal op v); [apply safe_ret|]. apply safe_bind.
  - apply safe_deleteGuarded. intros u _ Hp. simpl in Hp. rewrite /removableFilter in Hp.
    rewrite !holds_and_true holds_unreserved holds_unspent holds_unfrozen in Hp. destruct Hp as (?&?&?&_).
    left. apply lc_remove; [done|]. by right.
  - intros []; [apply safe_ret|exact IH|apply safe_ret].
Qed.

Lemma fit_at_frozen op u b : fit_at op u → fit_at op (set_frozen b u).
Proof. intros [<- Hf Hi]. constructor; [done|by apply fit_set_frozen|done]. Qed.

Lemma safe_freezeOne ops op : op ∈ ops → safe (own_steps (CFreeze ops)) (freezeOne op).
Proof.
  intros Hop. apply safe_item_error. apply safe_bind; [|intros; apply safe_ret]. apply safe_Operate. intros u Hu _.
  exists (set_frozen true u). split_and!; [by apply fit_at_frozen|apply write_freeze|].
  apply rtc_once. left. by apply lc_freeze.
Qed.
Lemma safe_unfreezeOne ops op : op ∈ ops → safe (own_steps (CUnfreeze ops)) (unfreezeOne op).
Proof.
  intros Hop. apply safe_item_error. apply (yields_row _ op); [apply safe_ret|]. intros r v Hv _ Hrec. apply Hrec.
  apply safe_bind.
  - apply safe_Operate. intros u Hu _. exists (set_frozen false u). split_and!; [by apply fit_at_frozen| |].
    + apply write_unfreeze; [by destruct Hu|by eapply same_ident].
    + apply rtc_once. left. by apply lc_unfreeze.
  - intros []; [|apply safe_ret..]. apply safe_bind; [apply safe_noteAll|]. intros. apply safe_ret.
Qed.

Lemma safe_promoteOne ops to op :
  op ∈ ops → Tier_Valid to = true → safe (own_steps (CPromote ops to)) (promoteOne to op).
Proof.
  intros Hop Hto. apply (yields_row _ op); [apply safe_ret|]. intros r v Hv _ Hrec. apply Hrec.
  destruct (u_Tier v =? to); [apply safe_ret|]. apply safe_bind.
  - apply safe_Operate. intros u Hu _. exists (set_tier to u). split_and!.
    + by apply fit_at_tier.
    + apply write_promote. by eapply same_ident.
    + apply rtc_once. left. by apply lc_promote.
  - intros []; [|apply safe_ret..]. apply safe_bind; [apply safe_note|]. intros. apply safe_ret.
Qed.

Lemma safe_removeMintTxOp w ops op :
  op ∈ ops → TxID op = w → safe (own_steps (CRemoveByMintTx w ops)) (removeMintTxOp op).
Proof.
  intros Hop Hw. rewrite /removeMintTxOp.
  induction casAttempts as [|n IH]; cbn [remove_mint_attempts]; [apply runs_throw|].
  apply (yields_row _ op); [apply safe_ret|]. intros r v Hv _ Hrec. apply Hrec.
  case_decide; [apply safe_ret|]. apply safe_bind.
  - apply safe_deleteGuarded. intros u _ Hp. simpl in Hp. rewrite /phantomFilter in Hp.
    rewrite !holds_and_true holds_unreserved holds_unspent in Hp. destruct Hp as (?&?&_).
    left. by apply lc_remove_mint.
  - intros []; [apply safe_ret|exact IH|apply safe_ret].
Qed.
Lemma safe_mint_ops_loop w all ops st :
  (∀ op, op ∈ ops → op ∈ all ∧ TxID op = w) →
  safe (own_steps (CRemoveByMintTx w all)) (mint_ops_loop ops st).
Proof.
  revert st. induction ops as [|op ops IH]; intros st Hops; cbn [mint_ops_loop]; [apply safe_ret|].
  apply safe_bind; [apply safe_attempt, safe_removeMintTxOp; apply Hops; left|].
  intros [e|v]; [apply safe_ret|]. apply IH. intros. apply Hops. by right.
Qed.
End ops.
End AeroRaceOps.
