(* ===== verification/AeroProps.v ===== *)
(** * AeroProps: the Aerospike coin store keeps the contract of the stores

    Among other processes and goroutines, with commands that fail before or after the
    server carried them out, every call changes a coin only as the store's documentation
    allows and keeps the claim index exact; claims hand out coins that were free;
    acknowledged spends are on record; named coins are reserved all or, when no command
    fails, not at all.  Alone, an empty answer of a claim means that there is no such
    coin: the cache of empty buckets hides nothing. *)
From Stdlib Require Import Ascii String.
From S2P Require Import Prelude UtxoTypes MemStore StoreContract StoreProps AeroDb AeroStore AeroLogic AeroRaces.
Import StoreContract AeroDb AeroStore AeroLogic AeroRaces AeroRaceOps.
Local Open Scope string_scope.
Local Open Scope Z_scope.

Module AeroClaims.

Definition nobody : coin_rels := λ _ _ _, False.

Section claim_loops.
Context `{MapRange} (ident : Outpoint → identity) (L own : coin_rels) (clk : nat → Time).
Abbreviation runs := (runs ident L).

(** A computation that writes no record keeps what the others cannot break. *)
Lemma runs_reads {A} (m : AM A) (Q : A → Prop) F :
  runs nobody anywhere m (λ a _, Q a) → stable L nobody F → runs own F m (λ a c, Q a ∧ F c).
Proof.
  intros Hm HF c Hg HFc. specialize (Hm c Hg I). destruct (m c) as [o c']. destruct Hm as (Hg'&Hs&HQ).
  split_and!; [done| |].
  - destruct Hs as [Hc Hca]. constructor; [|done]. intros op. eapply rtc_subrel; [|apply Hc].
    intros ?? [[]|?]. by right.
  - destruct o; [|done..]. split; [done|]. by eapply HF.
Qed.

(** [S claimed]: what is known once [claimed] are won. *)
Context (sc : Scope) (tok : string) (pr : Z → bool) (S : list UTXO → Conn → Prop).
Abbreviation key b := (claimKeyFor (sc_UserID sc) (sc_Basket sc) (sc_Tier sc) b).
Context (S_stable : ∀ l, stable L nobody (S l)).
Context (reserves : ∀ b claimed cand ms,
  0 ≤ b < bucketCount → picked ident (key b) pr cand →
  runs own (S claimed) (reserve cand (key b) tok ms)
    (λ r c, match r with Some u => S (claimed ++ [u])%list c | None => S claimed c end)).

Lemma runs_nowMillis l : runs own (S l) (nowMillis clk) (λ _, S l).
Proof.
  eapply runs_conseq; [done| |apply (runs_reads _ (λ _, True) (S l)); [apply safe_nowMillis|apply S_stable]].
  by intros a c [_ ?].
Qed.
Lemma runs_check_ctx l : runs own (S l) check_ctx (λ _, S l).
Proof.
  eapply runs_conseq; [done| |apply (runs_reads _ (λ _, True) (S l)); [apply safe_check_ctx|apply S_stable]].
  by intros a c [_ ?].
Qed.
Lemma runs_claimCands l b flt prefer want :
  runs own (S l) (claimCands clk (key b) flt pr prefer want)
    (λ cands c, S l c ∧ Forall (picked ident (key b) pr) cands).
Proof.
  eapply runs_conseq; [done| |apply (runs_reads _ (Forall (picked ident (key b) pr)) (S l));
    [apply yields_claimCands|apply S_stable]].
  by intros a c [? ?].
Qed.

Lemma runs_first_won b cands losses :
  0 ≤ b < bucketCount → Forall (picked ident (key b) pr) cands → 0 ≤ losses < casBudget →
  runs own (S []) (first_won clk (key b) tok cands losses)
    (λ r c, match r with
            | inl u => S [u] c
            | inr losses' => S [] c ∧ losses' = losses + Z.of_nat (length cands) ∧ losses' < casBudget
            end).
Proof.
  intros Hb Hc. revert losses. induction Hc as [|cand cands Hcand Hc IH]; intros losses Hl; cbn [first_won].
  { apply runs_ret. intros c Hs. simpl. split_and!; [done|lia|lia]. }
  eapply runs_bind; [apply runs_nowMillis|]. intros ms.
  eapply runs_bind; [by apply (reserves b [])|]. intros [u|]; simpl; [by apply runs_ret|].
  destruct (Z.leb_spec casBudget (losses + 1)); [apply runs_throw|].
  eapply runs_conseq; [done| |apply IH; lia]. intros [u|losses'] c; [done|]. intros (?&?&?).
  split_and!; [done|simpl length; lia|done].
Qed.

Lemma runs_smallest_in fuel b minSats losses :
  pr = (λ sats, minSats <=? sats) →
  0 ≤ b < bucketCount → 0 ≤ losses < casBudget → casBudget - losses < Z.of_nat fuel →
  runs own (S []) (smallest_in clk fuel (key b) tok minSats losses)
    (λ r c, match r with inl u => S [u] c | inr losses' => S [] c ∧ 0 ≤ losses' < casBudget end).
Proof.
  intros Hpr Hb. revert losses. induction fuel as [|fuel IH]; intros losses Hl Hf; [lia|]. cbn [smallest_in].
  rewrite -Hpr. eapply runs_bind; [apply runs_claimCands|]. intros cands. apply runs_pre. intros Hc.
  destruct cands as [|cand cands]; [by apply runs_ret|].
  eapply runs_bind; [by apply runs_first_won|]. intros [u|losses']; [by apply runs_ret|].
  intros c Hg (HS&Hl'&Hb'). simpl length in Hl'. apply IH; [lia|lia|done|done].
Qed.

Lemma runs_walk_up minSats buckets losses :
  pr = (λ sats, minSats <=? sats) → Forall (λ b, 0 ≤ b < bucketCount) buckets → 0 ≤ losses < casBudget →
  runs own (S []) (walk_up clk sc tok minSats buckets losses) (λ o, S (option_list o)).
Proof.
  intros Hpr Hbs. revert losses. induction Hbs as [|b buckets Hb Hbs IH]; intros losses Hl; cbn [walk_up].
  { destruct (0 <? losses); [apply runs_throw|by apply runs_ret]. }
  eapply runs_bind; [apply (runs_check_ctx [])|]. intros [].
  eapply runs_bind; [apply runs_smallest_in; [done|done|done|]|].
  { clear -Hl. change casBudget with 8 in *. lia. }
  intros [u|losses']; [by apply runs_ret|]. intros c Hg [HS Hl']. by apply IH.
Qed.

Lemma runs_claim_batch budget b limit cands claimed losses progressed :
  0 ≤ b < bucketCount → Forall (picked ident (key b) pr) cands → 0 ≤ losses →
  runs own (S claimed) (claim_batch clk budget (key b) tok limit cands claimed losses progressed)
    (λ '(claimed', losses', pg) c, S claimed' c ∧ 0 ≤ losses' ∧ (length claimed ≤ length claimed')%nat ∧
       (pg = true → progressed = true ∨ (length claimed < length claimed')%nat)).
Proof.
  intros Hb Hc. revert claimed losses progressed.
  induction Hc as [|cand cands Hcand Hc IH]; intros claimed losses pg Hl; cbn [claim_batch].
  { apply runs_ret. intros c HS. split_and!; [done|done|lia|by left]. }
  destruct (limit <=? Z.of_nat (length claimed)).
  { apply runs_ret. intros c HS. split_and!; [done|done|lia|by left]. }
  eapply runs_bind; [apply (runs_nowMillis claimed)|]. intros ms. eapply runs_bind; [by apply (reserves b)|]. intros [u|].
  - eapply runs_conseq; [done| |apply IH; lia]. intros [[claimed' losses'] pg'] c (?&?&Hle&_).
    rewrite length_app /= in Hle. split_and!; [done|done|lia|intros _; right; lia].
  - destruct (budget && _ && _); [apply runs_throw|].
    eapply runs_conseq; [done| |apply IH; lia]. done.
Qed.

Lemma runs_largest_in fuel b capSats limit claimed losses :
  pr = (λ sats, sats <? capSats) → 0 ≤ b < bucketCount → 0 ≤ losses →
  limit - Z.of_nat (length claimed) < Z.of_nat fuel →
  runs own (S claimed) (largest_in clk fuel (key b) tok capSats limit claimed losses)
    (λ r c, S r.1 c ∧ 0 ≤ r.2).
Proof.
  intros Hpr Hb. revert claimed losses.
  induction fuel as [|fuel IH]; intros claimed losses Hl Hf; cbn [largest_in].
  { rewrite (proj2 (Z.leb_le _ _)); [|lia]. by apply runs_ret. }
  destruct (Z.leb_spec limit (Z.of_nat (length claimed))); [by apply runs_ret|].
  rewrite -Hpr. eapply runs_bind; [apply runs_claimCands|]. intros cands. apply runs_pre. intros Hc.
  destruct cands as [|cand cands]; [by apply runs_ret|].
  eapply runs_bind; [by apply runs_claim_batch|]. intros [[claimed' losses'] []] c Hg (HS&Hl'&_&Hp).
  - destruct (Hp eq_refl); [done|]. apply IH; [done|lia|done|done].
  - by apply (runs_ret _ _ _ (S claimed')).
Qed.

Lemma runs_walk_down capSats limit buckets claimed losses :
  pr = (λ sats, sats <? capSats) → Forall (λ b, 0 ≤ b < bucketCount) buckets → 0 ≤ losses →
  runs own (S claimed) (walk_down clk sc tok capSats limit buckets claimed losses) (λ r c, S r.1 c).
Proof.
  intros Hpr Hbs. revert claimed losses.
  induction Hbs as [|b buckets Hb Hbs IH]; intros claimed losses Hl; cbn [walk_down]; [by apply runs_ret|].
  destruct (limit <=? Z.of_nat (length claimed)); [by apply runs_ret|].
  eapply runs_bind; [apply (runs_check_ctx claimed)|]. intros [].
  eapply runs_bind; [apply runs_largest_in; [done|done|done|lia]|].
  intros [claimed' losses'] c Hg [HS Hl']. by apply IH.
Qed.

Lemma runs_exact_in fuel b denomination count claimed losses :
  pr = (λ sats, sats =? denomination) → 0 ≤ b < bucketCount → 0 ≤ losses →
  count - Z.of_nat (length claimed) < Z.of_nat fuel →
  runs own (S claimed) (exact_in clk fuel (key b) tok denomination count claimed losses) (λ r c, S r.1 c).
Proof.
  intros Hpr Hb. revert claimed losses.
  induction fuel as [|fuel IH]; intros claimed losses Hl Hf; cbn [exact_in].
  { rewrite (proj2 (Z.leb_le _ _)); [|lia]. by apply runs_ret. }
  destruct (Z.leb_spec count (Z.of_nat (length claimed))); [by apply runs_ret|].
  eapply runs_bind; [apply (runs_check_ctx claimed)|]. intros [].
  rewrite -Hpr. eapply runs_bind; [apply runs_claimCands|]. intros cands. apply runs_pre. intros Hc.
  destruct cands as [|cand cands]; [by apply runs_ret|].
  eapply runs_bind; [by apply runs_claim_batch|]. intros [[claimed' losses'] []] c Hg (HS&Hl'&_&Hp).
  - destruct (Hp eq_refl); [done|]. apply IH; [done|lia|done|done].
  - by apply (runs_ret _ _ _ (S claimed')).
Qed.

Lemma runs_contended claimed losses : runs own (S claimed) (contended claimed losses) (λ l, S l).
Proof. rewrite /contended. case_match; [apply runs_throw|by apply runs_ret]. Qed.
End claim_loops.

(** ** Winning a candidate *)

Definition set_created (t : Time) (u : UTXO) : UTXO :=
  mkUTXO (u_Outpoint u) (u_UserID u) (u_Basket u) (u_Satoshis u) (u_InputSize u) (u_Tier u)
    (u_ReservedBy u) (u_ReservedAt u) (u_SpentBy u) (u_Frozen u) (u_Pinned u) t.

(** The others do not take back what [tok] holds. *)
Definition leaves (tok : string) (L : coin_rels) : Prop :=
  ∀ op u o, L op (Some u) o → u_ReservedBy u = tok → ∃ u', o = Some u' ∧ u_ReservedBy u' = tok.

Section winning.
Context `{MapRange} (ident : Outpoint → identity) (L : coin_rels).
Context (c : call) (sc : Scope) (tok : string) (P : Z → Prop) (pr : Z → bool).
Context (Hcall : claim_of c = Some (sc, tok, P)) (Hpr : ∀ v, pr v = true → P v).
Context (Htok : tok ≠ "") (Huser : 0 < sc_UserID sc < 2 ^ 63) (Htier : Tier_Valid (sc_Tier sc) = true).
Abbreviation key b := (claimKeyFor (sc_UserID sc) (sc_Basket sc) (sc_Tier sc) b).
Abbreviation runs := (runs ident L).

Lemma tier_range t : Tier_Valid t = true → 0 ≤ t < 2 ^ 64.
Proof. rewrite /Tier_Valid /TierSending /TierMined. lia. Qed.

Lemma key_scope u b : fit u → 0 ≤ b < bucketCount → key_of u = key b → in_scope sc u ∧ bucketOf (u_Satoshis u) = b.
Proof.
  intros Hf Hb Hk. pose proof (fit_user _ Hf). pose proof (fit_sats _ Hf) as Hs%bucketOf_range.
  rewrite /bucketCount in Hb, Hs. apply claimKeyFor_inj in Hk as (?&?&?&?); try lia.
  - done.
  - apply tier_range, Hf.
  - by apply tier_range.
Qed.

(** Whatever the others did since the probe, a row that still has the key is the coin
    the candidate was. *)
Lemma won_coin b cand u :
  0 ≤ b < bucketCount → picked ident (key b) pr cand → fit_at ident (c_key cand) u →
  holds (ExpEq binClaimKey (VStr (key b))) (encode u) = true →
  in_scope sc u ∧ free u ∧ u_Frozen u = false ∧ P (u_Satoshis u) ∧
  decoded (c_rec cand) = Some (set_created (default zeroTime (u_CreatedAt <$> decoded (c_rec cand))) u).
Proof.
  intros Hb [(v&Hv&Hcv&Hkv&Hsats) Hpv] Hu [Hc Hk]%holds_claimKey.
  pose proof (same_ident ident _ _ _ Hu (proj1 Hv)) as Hid. rewrite (represents_decoded _ _ _ _ Hv).
  destruct Hv as [[Hop Hfv _] _]. destruct Hu as [Hop' Hfu _].
  apply claim_expression_spec in Hc as [[Hr Hs] Hfr]. apply claim_expression_spec in Hcv as [[Hrv Hsv] Hfrv].
  destruct (key_scope u b Hfu Hb Hk) as [Hsc _], (key_scope v b Hfv Hb Hkv) as [Hscv _].
  injection Hid as Hi1 Hi2 Hi3 Hi4. split_and!; [done|done|done|..].
  - apply Hpr. by rewrite Hi3 -Hsats.
  - pose proof (fit_reserved _ Hfu) as Hra. pose proof (fit_reserved _ Hfv) as Hrav.
    rewrite decide_True // in Hra. rewrite decide_True // in Hrav.
    assert (∀ x, fit x → u_ReservedBy x = "" → u_Pinned x = false) as Hpin.
    { intros x Hx Hxr. destruct (u_Pinned x) eqn:E; [|done]. by apply Hx in E as [? _]. }
    pose proof (Hpin u Hfu Hr). pose proof (Hpin v Hfv Hrv). destruct Hsc as (_&_&Ht), Hscv as (_&_&Htv).
    destruct u, v; simpl in *. by subst.
Qed.

(** The coin a claim takes. *)
Definition claims_coin (u : UTXO) : Prop := in_scope sc u ∧ free u ∧ u_Frozen u = false ∧ P (u_Satoshis u).

Lemma runs_reserve (S : Conn → Prop) (S' : UTXO → Conn → Prop) b cand ms :
  stable L nobody S → 0 ≤ b < bucketCount → picked ident (key b) pr cand →
  (∀ c0 u t created, S c0 → u_Outpoint u = c_key cand → coin_at (recs c0) (c_key cand) = Some u → claims_coin u →
     coin_at t (c_key cand) = Some (set_reservation tok (msToTime ms) u) →
     (∀ op, op ≠ c_key cand → t !! op = recs c0 !! op) →
     S' (set_created created (set_reservation tok (msToTime ms) u)) (with_recs t c0)) →
  runs (own_steps c) S (reserve cand (key b) tok ms)
    (λ r c', match r with Some u => S' u c' | None => S c' end).
Proof.
  intros HS Hb Hcand Hwon.
  apply (runs_bind _ _ _ _ _ _ (λ r c', match r with
    | Done => ∀ v, decoded (c_rec cand) = Some v → S' (set_reservation tok (msToTime ms) v) c'
    | _ => S c' end)).
  - apply runs_Operate; [by apply (stable_settled _ _ nobody)| |done].
    intros c0 u Hg Hc0 Hu Hf Hp. destruct (won_coin b cand u Hb Hcand Hf Hp) as (Hsc&Hfree&Hfr&HP&Hdec).
    exists (set_reservation tok (msToTime ms) u). split.
    + split_and!; [by apply fit_at_reserve; [|apply Hfree|]|by apply write_reserve|].
      apply rtc_once. left. by eapply lc_claim.
    + intros t Ht Hne v Hv. rewrite Hdec in Hv. injection Hv as <-.
      apply (Hwon c0 u t); [done|by destruct Hf|done|done|done|done].
  - intros []; [|by apply runs_ret..]. destruct Hcand as [(v&Hv&_) _].
    intros c0 Hg HS'. pose proof (runs_of_record ident L (own_steps c) (P := λ c, c = c0) _ _ _ Hv) as Hr.
    eapply (runs_bind _ _ _ (λ c, c = c0) _ _ (λ v' c', v' = v ∧ c' = c0)); [| |done|done].
    + rewrite /of_record. apply runs_lift.
      * rewrite (recordToUTXO_same _ _ (proj2 Hv)) recordToUTXO_encode //; apply Hv.
      * intros v' c' Hv' ->. split; [|done].
        rewrite (recordToUTXO_same _ _ (proj2 Hv)) recordToUTXO_encode in Hv'; [|apply Hv]. by injection Hv'.
    + intros v'. apply runs_ret. intros c' [-> ->]. apply HS'. by eapply represents_decoded.
Qed.

(** ** What a claim knows of the coins it won *)

Context (c0 : Conn).

(** [u] was a free coin of the scope when it was taken, others changed it before that and
    since then. *)
Definition claimed_free (c' : Conn) (u : UTXO) : Prop :=
  ∃ u0, rtc (L (u_Outpoint u)) (coin_at (recs c0) (u_Outpoint u)) (Some u0) ∧ claims_coin u0 ∧
    u = set_created (u_CreatedAt u) (set_reservation tok (u_ReservedAt u) u0) ∧
    rtc (L (u_Outpoint u)) (Some (set_reservation tok (u_ReservedAt u) u0)) (coin_at (recs c') (u_Outpoint u)).
Record won (claimed : list UTXO) (c' : Conn) : Prop := {
  won_distinct : NoDup (u_Outpoint <$> claimed);
  won_others : ∀ op, op ∉ u_Outpoint <$> claimed → rtc (L op) (coin_at (recs c0) op) (coin_at (recs c') op);
  won_free : ∀ u, u ∈ claimed → claimed_free c' u;
}.

Lemma step_nobody c1 c2 op : step L nobody c1 c2 → rtc (L op) (coin_at (recs c1) op) (coin_at (recs c2) op).
Proof. intros [Hs _]. eapply rtc_subrel; [|apply Hs]. by intros ?? [[]|]. Qed.
Lemma won_stable claimed : stable L nobody (won claimed).
Proof.
  intros c1 c2 Hs [Hd Ho Hf]. constructor; [done|..].
  - intros op Hop. etrans; [by apply Ho|by apply step_nobody].
  - intros u Hu. destruct (Hf u Hu) as (u0&?&?&?&?). exists u0. split_and!; [done..|].
    etrans; [done|by apply step_nobody].
Qed.

(** A coin that was won is held. *)
Lemma claimed_held c' u : leaves tok L → claimed_free c' u →
  ∃ v, coin_at (recs c') (u_Outpoint u) = Some v ∧ u_ReservedBy v = tok.
Proof.
  intros HL (u0&_&_&_&Hp).
  apply (rtc_keeps _ (λ o, ∃ v, o = Some v ∧ u_ReservedBy v = tok) _ _ Hp); [|by eexists].
  intros o o' Hl (v&->&Hv). by eapply HL.
Qed.

Lemma won_more claimed b cand ms :
  leaves tok L → 0 ≤ b < bucketCount → picked ident (key b) pr cand →
  runs (own_steps c) (won claimed) (reserve cand (key b) tok ms)
    (λ r c', match r with Some u => won (claimed ++ [u])%list c' | None => won claimed c' end).
Proof.
  intros HL Hb Hcand. apply (runs_reserve (won claimed) (λ u, won (claimed ++ [u])%list)); [apply won_stable|done|done|].
  intros c1 u t created Hw Hop Hu Hcl Ht Hne.
  assert (c_key cand ∉ u_Outpoint <$> claimed) as Hnew.
  { intros (v&Hv1&Hv2)%list_elem_of_fmap. destruct (claimed_held c1 v HL) as (w&Hw1&Hw2); [by apply Hw|].
    rewrite -Hv1 Hu in Hw1. injection Hw1 as <-. destruct Hcl as (_&[Hr _]&_). congruence. }
  destruct Hw as [Hd Ho Hf].
  assert (∀ op, op ≠ c_key cand → coin_at t op = coin_at (recs c1) op) as Hsame.
  { intros op Hop'. by apply coin_at_ne, Hne. }
  constructor; simpl.
  - rewrite fmap_app. apply NoDup_app. split_and!; [done| |apply NoDup_singleton].
    intros x Hx Hx'. apply list_elem_of_singleton in Hx' as ->. simpl in Hx. by rewrite Hop in Hx.
  - intros op. rewrite fmap_app not_elem_of_app /= Hop. intros [Hop1 Hop2].
    rewrite Hsame; [by apply Ho|]. intros ->. apply Hop2. left.
  - intros v [Hv|Hv]%elem_of_app.
    + destruct (Hf v Hv) as (u0&?&?&?&?). exists u0. split_and!; [done..|].
      rewrite /= Hsame //. intros E. apply Hnew. rewrite -E. by apply list_elem_of_fmap_2.
    + apply list_elem_of_singleton in Hv as ->. exists u. simpl. rewrite Hop Ht. split_and!; [|done|done|done].
      rewrite -Hu. by apply Ho.
Qed.
End winning.
End AeroClaims.

(** * AeroCalls: the calls of the store together *)
Module AeroCalls.
Import AeroClaims.

Inductive answer :=
| ABatch (r : outcome error (list (option error) * option error))
| AUnit (o : outcome error ())
| ACount (o : outcome error (Z * option error))
| ACoin (o : outcome error (option UTXO))
| ACoins (o : outcome error (list UTXO))
| AReport (o : outcome error (RemoveByMintReport * option error)).
Definition panicked (a : answer) : bool :=
  match a with
  | ABatch Panic | AUnit Panic | ACount Panic | ACoin Panic | ACoins Panic | AReport Panic => true
  | _ => false
  end.
(** The coins a call hands out. *)
Definition handed (a : answer) : list UTXO :=
  match a with ACoin (Ret o) => option_list o | ACoins (Ret us) => us | _ => [] end.

Definition returns {A B} (f : A → B) (r : A * Store) : B * Store := (f r.1, r.2).
Definition aero_call `{MapRange} (c : call) (s : Store) : answer * Store :=
  match c with
  | CMint clk ms => returns ABatch (Mint clk ms s)
  | CRemove ops force => returns AUnit (Remove ops force s)
  | CClaimSmallestSufficient clk sc tok x => returns ACoin (ClaimSmallestSufficient clk sc tok x s)
  | CClaimLargestInsufficient clk sc tok x n => returns ACoins (ClaimLargestInsufficient clk sc tok x n s)
  | CClaimExact clk sc tok x n => returns ACoins (ClaimExact clk sc tok x n s)
  | CReserveOutpoints clk uid tok ops => returns AUnit (ReserveOutpoints clk uid tok ops s)
  | CReleaseReservation uid tok => returns ACount (ReleaseReservation uid tok s)
  | CReleaseOutpoints tok ops => returns AUnit (ReleaseOutpoints tok ops s)
  | CPin uid tok => returns ACount (Pin uid tok s)
  | CUnpin uid tok => returns ACount (Unpin uid tok s)
  | CSpend sps force => returns ABatch (Spend sps force s)
  | CUnspend w ops => returns ACount (Unspend w ops s)
  | CRemoveSpentBy w => returns ACount (RemoveSpentBy w s)
  | CPromote ops to => returns ACount (Promote ops to s)
  | CRemoveByMintTx w ops => returns AReport (RemoveByMintTx w ops s)
  | CFreeze ops => returns AUnit (Freeze ops s)
  | CUnfreeze ops => returns AUnit (Unfreeze ops s)
  | CClose => returns AUnit (Close s)
  end.

Section calls.
Context `{MapRange} (ident : Outpoint → identity) (L : coin_rels).
Abbreviation runs := (runs ident L).
Abbreviation safe own m := (runs own anywhere m (λ _ _, True)).

(** An operation on the store: [runs] of what it does with the connection. *)
Definition runs_store {A} (own : coin_rels) (P : Conn → Prop) (m : M Store error A) (Q : A → Conn → Prop) : Prop :=
  ∀ s, good ident L (conn s) → P (conn s) →
  let '(o, s') := m s in
  good ident L (conn s') ∧ step L own (conn s) (conn s') ∧
  match o with Ret a => Q a (conn s') | Err _ => True | Panic => False end.

Lemma store_open {A} own P (k : M Store error A) Q : runs_store own P k Q → runs_store own P (guard_open k) Q.
Proof.
  intros Hk s Hg HP. rewrite /guard_open. destruct (closed s); [|by apply Hk].
  split_and!; [done|apply step_refl|done].
Qed.
Lemma store_valid {A} own P v (k : M Store error A) Q :
  (v = None → runs_store own P k Q) → runs_store own P (guard_valid v k) Q.
Proof.
  intros Hk. destruct v; [|by apply Hk]. intros s Hg HP. split_and!; [done|apply step_refl|done].
Qed.
Lemma store_ret {A} own P (a : A) (Q : A → Conn → Prop) : (∀ c, P c → Q a c) → runs_store own P (mret a) Q.
Proof. intros HQ s Hg HP. split_and!; [done|apply step_refl|by apply HQ]. Qed.
Lemma store_conn {A} own P (m : AM A) Q : runs own P m Q → runs_store own P (on_conn m) Q.
Proof.
  intros Hm s Hg HP. specialize (Hm (conn s) Hg HP). rewrite /on_conn /zoom. destruct (m (conn s)) as [o c'].
  destruct Hm as (?&?&?). by destruct o.
Qed.
Lemma store_safe {A} own P (m : AM A) : safe own m → runs_store own P (on_conn m) (λ _ _, True).
Proof. intros Hm. apply store_conn. by apply runs_anywhere. Qed.

Lemma answer_ok {A} own (m : M Store error A) (f : outcome error A → answer) s Q :
  runs_store own anywhere m Q → good ident L (conn s) →
  (∀ o, panicked (f o) = match o with Panic => true | _ => false end) →
  let '(a, s') := returns f (m s) in
  good ident L (conn s') ∧ step L own (conn s) (conn s') ∧ panicked a = false.
Proof.
  intros Hm Hg Hf. specialize (Hm s Hg I). rewrite /returns. destruct (m s) as [o s']. destruct Hm as (?&?&?).
  split_and!; [done|done|]. simpl. rewrite Hf. by destruct o.
Qed.

Lemma safe_batch own {A} (f : A → AM (option error)) l :
  (∀ x, x ∈ l → safe own (f x)) → safe own (es ← for_each f l; lift (batch_result (omap id es))).
Proof.
  intros Hf. apply safe_bind; [by apply safe_for_each|]. intros es. apply runs_lift; [|done].
  rewrite /batch_result. by destruct (JoinBatch _).
Qed.

(** ** Claims *)

Lemma from_bucket_range b : 0 ≤ b → Forall (λ b, 0 ≤ b < bucketCount) (from_bucket b).
Proof. intros Hb. apply Forall_forall. intros x Hx%elem_of_seqZ. lia. Qed.
Lemma down_from_range b : b < bucketCount → Forall (λ b, 0 ≤ b < bucketCount) (down_from b).
Proof. intros Hb. apply Forall_forall. intros x Hx. apply elem_of_reverse, elem_of_seqZ in Hx. lia. Qed.

Section claim_calls.
Context (own : coin_rels) (clk : nat → Time) (sc : Scope) (tok : string) (S : list UTXO → Conn → Prop).
Context (S_stable : ∀ l, stable L nobody (S l)).
(** Candidates with the values a claim accepts are won as [S] says. *)
Definition reserving (pr : Z → bool) : Prop := ∀ b claimed cand ms,
  ValidateClaim sc tok = None → 0 ≤ b < bucketCount →
  picked ident (claimKeyFor (sc_UserID sc) (sc_Basket sc) (sc_Tier sc) b) pr cand →
  runs own (S claimed) (reserve cand (claimKeyFor (sc_UserID sc) (sc_Basket sc) (sc_Tier sc) b) tok ms)
    (λ r c, match r with Some u => S (claimed ++ [u])%list c | None => S claimed c end).

Lemma store_smallest minSats :
  0 ≤ minSats < 2 ^ 64 → reserving (λ sats, minSats <=? sats) →
  runs_store own (S []) (ClaimSmallestSufficient clk sc tok minSats) (λ o, S (option_list o)).
Proof.
  intros Hm Hres. apply store_open, store_valid. intros Hv. apply store_conn.
  apply (runs_walk_up _ _ _ _ _ _ (λ sats, minSats <=? sats)); [done|by intros; apply Hres|done| |done].
  apply from_bucket_range. apply bucketOf_range in Hm. lia.
Qed.
Lemma store_largest capSats limit :
  0 ≤ capSats < 2 ^ 64 → reserving (λ sats, sats <? capSats) →
  runs_store own (S []) (ClaimLargestInsufficient clk sc tok capSats limit) S.
Proof.
  intros Hm Hres. apply store_open, store_valid. intros Hv.
  destruct ((limit <=? 0) || (capSats =? 0)) eqn:Hz; [by apply store_ret|]. apply orb_false_iff in Hz as [_ Hz].
  apply store_conn. eapply runs_bind.
  - apply (runs_walk_down _ _ _ _ _ _ (λ sats, sats <? capSats)); [done|by intros; apply Hres|done| |done].
    apply down_from_range. apply bucketOf_range. lia.
  - intros [claimed losses]. by apply runs_contended.
Qed.
Lemma store_exact denomination count :
  0 ≤ denomination < 2 ^ 64 → reserving (λ sats, sats =? denomination) →
  runs_store own (S []) (ClaimExact clk sc tok denomination count) S.
Proof.
  intros Hm Hres. apply store_open, store_valid. intros Hv.
  destruct (count <=? 0); [by apply store_ret|]. apply store_conn. eapply runs_bind.
  - apply (runs_exact_in _ _ _ _ _ _ (λ sats, sats =? denomination)); [done|by intros; apply Hres|done| |done|].
    + by apply bucketOf_range.
    + simpl length. lia.
  - intros [claimed losses]. by apply runs_contended.
Qed.
End claim_calls.

Lemma reserving_any c sc tok P (pr : Z → bool) :
  claim_of c = Some (sc, tok, P) → (∀ v, pr v = true → P v) → sc_UserID sc < 2 ^ 63 →
  reserving (own_steps c) sc tok (λ _ _, True) pr.
Proof.
  intros Hc Hpr Hu b claimed cand ms Hv Hb Hp. apply ValidateClaim_None in Hv as [Ht (?&?&?)%ValidateScope_None].
  by apply (runs_reserve ident L c sc tok P pr Hc Hpr) with (S := λ _, True) (S' := λ _ _, True).
Qed.
Lemma reserving_won c sc tok P (pr : Z → bool) c0 :
  leaves tok L → claim_of c = Some (sc, tok, P) → (∀ v, pr v = true → P v) → sc_UserID sc < 2 ^ 63 →
  reserving (own_steps c) sc tok (won L sc tok P c0) pr.
Proof.
  intros HL Hc Hpr Hu b claimed cand ms Hv Hb Hp. apply ValidateClaim_None in Hv as [Ht (?&?&?)%ValidateScope_None].
  by apply (won_more ident L c sc tok P pr).
Qed.

(** ** Every call *)

Lemma call_steps c s :
  typed ident c → good ident L (conn s) →
  let '(a, s') := aero_call c s in
  good ident L (conn s') ∧ step L (own_steps c) (conn s) (conn s') ∧ panicked a = false.
Proof.
  intros Ht Hg. destruct c; simpl.
  - eapply (answer_ok _ _ ABatch); [|done|by intros []]. apply store_open, store_safe.
    apply safe_bind; [|intros; apply safe_ret]. apply safe_for_each. intros m Hm. apply safe_mintOne; [done|].
    by eapply Forall_forall in Ht.
  - eapply (answer_ok _ _ AUnit); [|done|by intros []]. apply store_open, store_safe, safe_batch.
    intros. by apply safe_removeOne.
  - destruct Ht. eapply (answer_ok _ _ ACoin); [|done|by intros []].
    apply (store_smallest _ _ _ _ (λ _ _, True)); [done|done|]. eapply reserving_any; [done| |done]. simpl. lia.
  - destruct Ht. eapply (answer_ok _ _ ACoins); [|done|by intros []].
    apply (store_largest _ _ _ _ (λ _ _, True)); [done|done|]. eapply reserving_any; [done| |done]. simpl. lia.
  - destruct Ht. eapply (answer_ok _ _ ACoins); [|done|by intros []].
    apply (store_exact _ _ _ _ (λ _ _, True)); [done|done|]. eapply reserving_any; [done| |done]. simpl. lia.
  - eapply (answer_ok _ _ AUnit); [|done|by intros []]. apply store_open, store_valid. intros Hv. apply store_safe.
    apply safe_ReserveOutpoints; [|done]. intros ->. by rewrite /ValidateReserveOutpoints in Hv.
  - eapply (answer_ok _ _ ACount); [|done|by intros []].
    apply store_open, store_valid. intros Hv%ValidateReservation_None. by apply store_safe, safe_ReleaseReservation.
  - eapply (answer_ok _ _ AUnit); [|done|by intros []].
    apply store_open, store_valid. intros Hv%ValidateReservation_None. by apply store_safe, safe_ReleaseOutpoints.
  - eapply (answer_ok _ _ ACount); [|done|by intros []].
    apply store_open, store_valid. intros Hv%ValidateReservation_None. by apply store_safe, (safe_setPinned ident L userID tok true).
  - eapply (answer_ok _ _ ACount); [|done|by intros []].
    apply store_open, store_valid. intros Hv%ValidateReservation_None. by apply store_safe, (safe_setPinned ident L userID tok false).
  - eapply (answer_ok _ _ ABatch); [|done|by intros []]. apply store_open, store_safe.
    apply safe_bind; [|intros; apply safe_ret]. apply safe_for_each. intros sp Hsp. by eapply safe_any, runs_spendOne.
  - eapply (answer_ok _ _ ACount); [|done|by intros []]. apply store_open, store_safe, safe_count_each.
    intros. by apply safe_unspendOne.
  - eapply (answer_ok _ _ ACount); [|done|by intros []]. apply store_open, store_safe, safe_RemoveSpentBy.
  - eapply (answer_ok _ _ ACount); [|done|by intros []]. apply store_open, store_valid. intros Hv.
    destruct (Tier_Valid to) eqn:Hto; [|done]. apply store_safe, safe_count_each. intros. by apply safe_promoteOne.
  - eapply (answer_ok _ _ AReport); [|done|by intros []]. apply store_open, store_valid. intros Hv.
    apply store_safe. apply safe_bind; [|intros [st e]; apply safe_ret]. apply safe_mint_ops_loop.
    intros op Hop. split; [done|]. by eapply ValidateMintOutpoints_None.
  - eapply (answer_ok _ _ AUnit); [|done|by intros []]. apply store_open, store_safe, safe_batch.
    intros. by apply safe_freezeOne.
  - eapply (answer_ok _ _ AUnit); [|done|by intros []]. apply store_open, store_safe, safe_batch.
    intros. by apply safe_unfreezeOne.
  - split_and!; [done|apply step_refl|done].
Qed.
End calls.
End AeroCalls.

(** * AeroAlone: the cache of empty buckets hides no coin

    For a process that has the set to itself: a bucket marked as probed empty holds no
    claimable coin.  [holds_but K c]: so it is for every bucket whose key is not in [K];
    an operation that makes coins claimable marks the buckets of [K] afterwards. *)
Module AeroAlone.
Import AeroClaims AeroCalls.

Section alone.
Context `{MapRange} (ident : Outpoint → identity).

(** No coin can be claimed under [k]. *)
Definition absent (k : string) (t : Table) : Prop :=
  ∀ op u, coin_at t op = Some u → claimable u = true → key_of u ≠ k.
Definition bucket_true (t : Table) (k : string) (b : claimBucket) : Prop :=
  cb_probedEmpty b = true → cb_cands b = [] ∧ absent k t.
Definition cache_true (K : list string) (t : Table) (cc : claimCache) : Prop :=
  ∀ k b, cc_buckets cc !! k = Some b → k ∉ K → bucket_true t k b.
Record holds_but (K : list string) (c : Conn) : Prop := {
  hb_alone : events c = [];
  hb_wf : wf ident (recs c);
  hb_cache : ∀ cc, cache c = Some cc → cache_ok ident cc;
  hb_refill : ∀ cc, cache c = Some cc → 0 < cc_refill cc;
  hb_true : ∀ cc, cache c = Some cc → cache_true K (recs c) cc;
}.
Abbreviation settled := (holds_but []).

(** Ends with [Q], or settled. *)
Definition calm {A} (P : Conn → Prop) (m : AM A) (Q : A → Conn → Prop) : Prop :=
  ∀ c, P c → wp m Q (λ _, settled) settled c.

Lemma calm_self_ret {A} P (a : A) (Q : A → Conn → Prop) : (∀ c, P c → Q a c) → calm P (mret a) Q.
Proof. intros HQ c HP. by apply HQ. Qed.
Lemma calm_self_throw {A} (P : Conn → Prop) e (Q : A → Conn → Prop) : (∀ c, P c → settled c) → calm P (throw e) Q.
Proof. intros HP c Hc. by apply HP. Qed.
Lemma calm_self_bind {A B} P (m : AM A) (k : A → AM B) Q R :
  calm P m Q → (∀ a, calm (Q a) (k a) R) → calm P (m ≫= k) R.
Proof.
  intros Hm Hk c HP. apply wp_bind. eapply wp_mono; [by apply Hm| |done|done]. intros a c' HQ. by apply Hk.
Qed.
Lemma calm_conseq {A} (P P' : Conn → Prop) (m : AM A) (Q Q' : A → Conn → Prop) :
  (∀ c, P' c → P c) → (∀ a c, Q a c → Q' a c) → calm P m Q → calm P' m Q'.
Proof. intros HP HQ Hm c Hc. eapply wp_mono; [apply Hm, HP, Hc|apply HQ|done|done]. Qed.
Lemma calm_pre {A} (P : Conn → Prop) (m : AM A) Q (φ : Prop) : (φ → calm P m Q) → calm (λ c, P c ∧ φ) m Q.
Proof. intros Hm c [HP Hφ]. by apply Hm. Qed.
Lemma calm_attempt {A} P (m : AM A) Q :
  calm P m Q → calm P (attempt m) (λ r c, match r with inr a => Q a c | inl _ => settled c end).
Proof. intros Hm c HP. specialize (Hm c HP). rewrite /wp /attempt in Hm |- *. by destruct (m c) as [[] ?]. Qed.
Lemma calm_lift {A} P (o : outcome error A) (Q : A → Conn → Prop) :
  o ≠ Panic → (∀ c, P c → settled c) → (∀ a c, o = Ret a → P c → Q a c) → calm P (lift o) Q.
Proof. intros Ho HP HQ c Hc. apply wp_lift. destruct o; auto. Qed.

(** Facts about results that hold in any company hold alone. *)
Lemma holds_good K c : holds_but K c → good ident nobody c.
Proof. intros [He Hw Hc _ _]. constructor; [done|done|]. rewrite He. constructor. Qed.
Lemma calm_and {A} P own (m : AM A) Q (R : A → Prop) :
  (∀ c, P c → ∃ K, holds_but K c) →
  runs ident nobody own anywhere m (λ a _, R a) → calm P m Q → calm P m (λ a c, Q a c ∧ R a).
Proof.
  intros HP Hr Hm c Hc. specialize (Hm c Hc). destruct (HP c Hc) as [K HK].
  specialize (Hr c (holds_good _ _ HK) I). rewrite /wp in Hm |- *.
  destruct (m c) as [[a|e|] c']; naive_solver.
Qed.

Lemma arrive_alone c : events c = [] → arrive c = (quiet, c).
Proof. intros He. by rewrite /arrive He. Qed.

(** ** Reads *)

Definition reads {A} (m : AM A) (Q : A → Table → Prop) : Prop :=
  ∀ c, events c = [] → wf ident (recs c) → ∃ a, m c = (Ret a, c) ∧ Q a (recs c).
Lemma reads_ret {A} (a : A) (Q : A → Table → Prop) : (∀ t, Q a t) → reads (mret a) Q.
Proof. intros HQ c _ _. by exists a. Qed.
Lemma reads_bind {A B} (m : AM A) (k : A → AM B) Q R :
  reads m Q → (∀ a, reads (k a) (λ b t, Q a t → R b t)) → reads (m ≫= k) R.
Proof.
  intros Hm Hk c He Hw. destruct (Hm c He Hw) as (a&Ha&HQ). destruct (Hk a c He Hw) as (b&Hb&HR).
  exists b. rewrite /mbind /M_bind Ha. by auto.
Qed.
Lemma reads_query {A} (q : Table → A) : reads (command (λ t, (q t, t))) (λ a t, a = q t).
Proof. intros c He _. exists (q (recs c)). rewrite /command (arrive_alone c He) /=. by destruct c. Qed.
Lemma reads_check_ctx : reads check_ctx (λ _ _, True).
Proof. intros c He Hw. destruct (reads_query (λ _, ()) c He Hw) as ([]&Hc&_). by exists (). Qed.
Lemma calm_reads {A} K (m : AM A) Q :
  reads m Q → calm (holds_but K) m (λ a c, holds_but K c ∧ Q a (recs c)).
Proof. intros Hm c Hc. destruct (Hm c) as (a&Ha&HQ); [by destruct Hc..|]. by rewrite /wp Ha. Qed.

Definition found (sel : expr) (keys : list Outpoint) (rs : list (Outpoint * record)) (t : Table) : Prop :=
  rs = [] → ∀ op u, op ∈ keys → coin_at t op = Some u → holds sel (encode u) = false.
Lemma reads_visit sel keys max : max ≠ Some 0%nat → reads (visit sel keys max) (found sel keys).
Proof.
  intros Hm. induction keys as [|key keys IH]; cbn [visit].
  { apply reads_ret. by intros t _ op u ?%elem_of_nil. }
  assert (∀ max, reads (visit sel keys max) (λ _ _, True)) as Hany.
  { clear. induction keys as [|key keys IH]; intros max; cbn [visit]; [by apply reads_ret|].
    assert (reads (found ← AeroDb.Get key;
      match found with
      | Some r => if holds sel r then rest ← visit sel keys (pred <$> max); mret ((key, r) :: rest) else visit sel keys max
      | None => visit sel keys max
      end) (λ _ _, True)); [|by destruct max as [[|]|]; [apply reads_ret|..]].
    eapply reads_bind; [apply reads_query|]. intros [r|]; [|by intros c He Hw; destruct (IH max c He Hw) as (a&?&_); exists a].
    destruct (holds sel r); [|by intros c He Hw; destruct (IH max c He Hw) as (a&?&_); exists a].
    eapply reads_bind; [apply IH|]. intros. by apply reads_ret. }
  assert (reads (found ← AeroDb.Get key;
    match found with
    | Some r => if holds sel r then rest ← visit sel keys (pred <$> max); mret ((key, r) :: rest) else visit sel keys max
    | None => visit sel keys max
    end) (found sel (key :: keys))) as Hv; [|by destruct max as [[|]|]].
  eapply reads_bind; [apply reads_query|]. intros [r|].
  - destruct (holds sel r) eqn:Hh.
    + eapply reads_bind; [apply Hany|]. intros rest. by apply reads_ret.
    + intros c He Hw. destruct (IH c He Hw) as (rs&Hrs&Hf). exists rs. split; [done|]. intros Hr Hnil op u.
      intros [->|Hop]%elem_of_cons Hu; [|by eapply Hf].
      destruct (wf_coin ident _ _ _ Hw Hu) as (r'&Hr'&Hrep). rewrite -Hr in Hr'. injection Hr' as <-.
      by rewrite -(holds_same sel _ _ (proj2 Hrep)).
  - intros c He Hw. destruct (IH c He Hw) as (rs&Hrs&Hf). exists rs. split; [done|]. intros Hr Hnil op u.
    intros [->|Hop]%elem_of_cons Hu; [|by eapply Hf]. by rewrite /coin_at -Hr in Hu.
Qed.
Lemma reads_streamQuery sel max :
  max ≠ Some 0%nat →
  reads (streamQuery sel max) (λ rs t, rs = [] → ∀ op u, coin_at t op = Some u → holds sel (encode u) = false).
Proof.
  intros Hm. eapply reads_bind; [apply reads_check_ctx|]. intros _ c He Hw.
  destruct (reads_visit sel (range_map (recs c)).*1 max Hm c He Hw) as (rs&Hrs&Hf). exists rs. split; [done|].
  intros _ Hnil op u Hu. apply (Hf Hnil op u); [|done]. destruct (wf_coin ident _ _ _ Hw Hu) as (r&Hr&_).
  apply list_elem_of_fmap. exists (op, r). split; [done|]. by apply range_map_elem.
Qed.
Lemma reads_decode sel rs : Forall (row_ok ident sel) rs → reads (decode_all rs) (λ _ _, True).
Proof.
  induction 1 as [|[op r] rs (u&[[_ Hf _] Hs]&_) _ IH]; cbn [decode_all]; [by apply reads_ret|].
  eapply (reads_bind _ _ (λ _ _, True)).
  - intros c _ _. exists u. by rewrite /of_record /lift (recordToUTXO_same _ _ Hs) recordToUTXO_encode.
  - intros v. eapply reads_bind; [exact IH|]. intros us. by apply reads_ret.
Qed.

Lemma calm_Get K op :
  calm (holds_but K) (AeroDb.Get op)
    (λ o c, holds_but K c ∧ ∀ r, o = Some r → ∃ u, represents ident op r u).
Proof.
  eapply calm_conseq; [done| |apply (calm_reads K _ _ (reads_query (λ t, t !! op)))].
  intros o c [Hc ->]. split; [done|]. intros r Hr. by apply Hc.
Qed.
Lemma calm_row {A} op (k : option record → AM A) R :
  calm settled (k None) R →
  (∀ r u, fit_at ident op u → (∀ {B} (f : UTXO → AM B) Q, calm settled (f u) Q → calm settled (u ← of_record r; f u) Q) →
     calm settled (k (Some r)) R) →
  calm settled (o ← AeroDb.Get op; k o) R.
Proof.
  intros Hn Hs. eapply calm_self_bind; [apply calm_Get|]. intros [r|]; [|apply (calm_conseq settled _ _ R R); [by intros c []|done|exact Hn]].
  apply calm_pre. intros Hr. destruct (Hr r eq_refl) as [u Hu]. apply (Hs r u); [apply Hu|].
  intros B f Q Hf c Hc. rewrite /wp /mbind /M_bind /of_record /lift (recordToUTXO_same _ _ (proj2 Hu)).
  rewrite recordToUTXO_encode; [|apply Hu]. by apply Hf.
Qed.
Lemma calm_check_ctx K : calm (holds_but K) check_ctx (λ _, holds_but K).
Proof. eapply calm_conseq; [done| |apply calm_reads, reads_check_ctx]. by intros ? c [? _]. Qed.
Lemma calm_now clk K : calm (holds_but K) (now clk) (λ _, holds_but K).
Proof. intros c []. by constructor. Qed.
Lemma calm_nowMillis clk K : calm (holds_but K) (nowMillis clk) (λ _, holds_but K).
Proof. eapply calm_self_bind; [apply calm_now|]. intros t. by apply calm_self_ret. Qed.
Lemma calm_found_coins sel :
  calm settled (found_coins sel) (λ rows c, settled c ∧ Forall (coin_ok ident sel) rows).
Proof.
  apply (calm_and _ nobody); [by eexists|apply yields_found_coins|]. eapply calm_self_bind.
  - apply (calm_and _ nobody); [by eexists|apply (yields_streamQuery ident nobody nobody sel None)|].
    eapply calm_conseq; [done| |apply calm_reads, reads_streamQuery; done]. intros rs c [Hc _]. exact Hc.
  - intros rs. apply calm_pre. intros Hrs.
    eapply calm_conseq; [done| |apply calm_reads, (reads_decode sel), Hrs]. by intros us c [? _].
Qed.

(** ** Writes *)

(** What can be claimed afterwards could be claimed before, or has a key of [K]. *)
Definition appears (K : list string) (t t' : Table) : Prop :=
  ∀ op u', coin_at t' op = Some u' → claimable u' = true →
    key_of u' ∈ K ∨ ∃ u, coin_at t op = Some u ∧ claimable u = true ∧ key_of u = key_of u'.

Lemma holds_write K t c :
  settled c → wf ident t → appears K (recs c) t → holds_but K (with_recs t c).
Proof.
  intros [He Hw Hc Hr Ht] Hw' Ha. constructor; [done|done|done|done|]. intros cc Hcc k b Hb Hk Hp.
  destruct (Ht cc Hcc k b Hb) as [Hn Hab]; [apply not_elem_of_nil|done|]. split; [done|].
  intros op u' Hu' Hcl Hkey. destruct (Ha op u' Hu' Hcl) as [Hin|(u&Hu&Hcu&Hku)]; [congruence|].
  by apply (Hab op u Hu Hcu); congruence.
Qed.

(** A write that makes the coin claimable only under keys of [K]. *)
Definition marks (K : list string) (key : Outpoint) (ops : list operation) (u u' : UTXO) : Prop :=
  fit_at ident key u' ∧ same (apply_ops ops (encode u)) (encode u') ∧
  (claimable u' = true → key_of u' ∈ K ∨ claimable u = true ∧ key_of u = key_of u').

Lemma calm_Operate K flt key ops :
  (∀ u, fit_at ident key u → passes flt u → ∃ u', marks K key ops u u') →
  calm settled (Operate flt key ops) (λ r, holds_but (if is_done r then K else [])).
Proof.
  intros Hw c Hc. rewrite /wp /Operate /command (arrive_alone c (hb_alone _ _ Hc)).
  pose proof (hb_wf _ _ Hc) as Hwf. assert (with_recs (recs c) c = c) as Hid by by destruct c.
  destruct (recs c !! key) as [r|] eqn:Hr; simpl; [|by rewrite Hid].
  destruct (Hwf _ _ Hr) as [u Hu]. pose proof (represents_coin _ _ _ _ _ Hr Hu) as Hcoin. destruct Hu as [Hf Hs].
  assert ((match flt with Some e => holds e r | None => true end) = true → passes flt u) as Hp.
  { destruct flt as [e|]; simpl; [|done]. by rewrite (holds_same e _ _ Hs). }
  destruct (match flt with Some e => holds e r | None => true end); simpl; [|by rewrite Hid].
  destruct (Hw u Hf (Hp eq_refl)) as (u'&Hf'&Hs'&Hcl).
  assert (represents ident key (apply_ops ops r) u') as Hr'.
  { split; [done|]. by rewrite (apply_ops_same _ _ _ Hs). }
  apply holds_write; [done|by eapply wf_insert|]. intros op v Hv Hcv. destruct (decide (op = key)) as [->|].
  - rewrite (represents_coin ident (<[key := apply_ops ops r]> (recs c)) key (apply_ops ops r) u') ?lookup_insert_eq // in Hv.
    injection Hv as <-. destruct (Hcl Hcv) as [?|[? ?]]; [by left|]. right. by exists u.
  - right. exists v. split; [|done]. rewrite -Hv. apply coin_at_ne. by rewrite lookup_insert_ne.
Qed.
(** Nothing becomes claimable. *)
Lemma calm_Operate_quiet flt key ops :
  (∀ u, fit_at ident key u → passes flt u → ∃ u', marks [] key ops u u') →
  calm settled (Operate flt key ops) (λ _, settled).
Proof.
  intros Hw. eapply calm_conseq; [done| |by apply (calm_Operate [])]. by intros [].
Qed.

Lemma calm_Delete flt key : calm settled (Delete flt key) (λ _, settled).
Proof.
  intros c Hc. rewrite /wp /Delete /command (arrive_alone c (hb_alone _ _ Hc)).
  pose proof (hb_wf _ _ Hc) as Hwf. assert (with_recs (recs c) c = c) as Hid by by destruct c.
  destruct (recs c !! key) as [r|] eqn:Hr; simpl; [|by rewrite Hid].
  destruct (match flt with Some e => holds e r | None => true end); simpl; [|by rewrite Hid].
  apply holds_write; [done|by apply wf_delete|]. intros op v Hv Hcv. right. exists v. split; [|done].
  rewrite /coin_at in Hv |- *. destruct (decide (op = key)) as [->|]; [by rewrite lookup_delete_eq in Hv|].
  by rewrite lookup_delete_ne in Hv.
Qed.

Lemma calm_PutBins key r u :
  represents ident key r u → claimable u = true →
  calm settled (PutBins key r) (λ b, holds_but (if b then [key_of u] else [])).
Proof.
  intros Hu Hcl c Hc. rewrite /wp /PutBins /command (arrive_alone c (hb_alone _ _ Hc)).
  pose proof (hb_wf _ _ Hc) as Hwf. assert (with_recs (recs c) c = c) as Hid by by destruct c.
  destruct (recs c !! key) as [r'|] eqn:Hr; simpl; [by rewrite Hid|].
  apply holds_write; [done|by eapply wf_insert|]. intros op v Hv Hcv. destruct (decide (op = key)) as [->|].
  - rewrite (represents_coin ident (<[key := r]> (recs c)) key r u) ?lookup_insert_eq // in Hv.
    injection Hv as <-. left. left.
  - right. exists v. split; [|done]. rewrite -Hv. apply coin_at_ne. by rewrite lookup_insert_ne.
Qed.

(** ** Marking *)

Lemma calm_note k K : calm (holds_but (k :: K)) (note k) (λ _, holds_but K).
Proof.
  intros c [He Hw Hc Hr Ht]. rewrite /wp /note. destruct (cache c) as [cc|] eqn:Hcc.
  2:{ constructor; [done|done|..]; by rewrite Hcc. }
  rewrite /section (arrive_alone c He) Hcc. constructor; simpl; [done|done|..].
  { intros ? [= <-]. by apply markClaimable_ok, Hc. }
  { intros ? [= <-]. rewrite /markClaimable. specialize (Hr cc eq_refl). by case_match. }
  intros ? [= <-] k' b. rewrite /markClaimable. destruct (cc_buckets cc !! k) as [b0|] eqn:Hb0; simpl.
  - destruct (decide (k' = k)) as [->|Hne].
    + rewrite lookup_insert_eq. by intros [= <-].
    + rewrite lookup_insert_ne //. intros Hb Hk. apply (Ht cc eq_refl k' b Hb). by apply not_elem_of_cons.
  - intros Hb Hk. apply (Ht cc eq_refl k' b Hb). apply not_elem_of_cons. split; [congruence|done].
Qed.

(** The keys of a coin in every tier. *)
Definition keys_of (v : UTXO) : list string :=
  (λ t, claimKeyFor (u_UserID v) (u_Basket v) t (bucketOf (u_Satoshis v))) <$> allTiers.
Lemma calm_noteAll v :
  calm (holds_but (keys_of v)) (noteClaimableAllTiers (u_UserID v) (u_Basket v) (u_Satoshis v)) (λ _, settled).
Proof.
  rewrite /keys_of /noteClaimableAllTiers. induction allTiers as [|t l IH]; csimpl; [by apply calm_self_ret|].
  eapply calm_self_bind; [apply calm_note|]. intros []. exact IH.
Qed.
Lemma key_of_keys op u v : fit_at ident op u → fit_at ident op v → key_of u ∈ keys_of v.
Proof.
  intros Hu Hv. pose proof (same_ident ident _ _ _ Hu Hv) as [= Hi1 Hi2 Hi3 _].
  rewrite /key_of Hi1 Hi2 Hi3 /keys_of. apply list_elem_of_fmap. exists (u_Tier u). split; [done|].
  pose proof (fit_tier _ (at_fit _ _ _ Hu)) as Ht. move: Ht. rewrite /Tier_Valid /TierSending /TierMined /allTiers /TierUnproven => Ht.
  assert (u_Tier u = 1 ∨ u_Tier u = 2 ∨ u_Tier u = 3) as [->|[->| ->]] by lia; rewrite !elem_of_cons; tauto.
Qed.

(** ** The operations *)

Abbreviation easy m := (calm settled m (λ _, settled)).

Lemma easy_bind {A B} (m : AM A) (k : A → AM B) : easy m → (∀ a, easy (k a)) → easy (m ≫= k).
Proof. apply calm_self_bind. Qed.
Lemma easy_for_each {A B} (f : A → AM B) l : (∀ x, x ∈ l → easy (f x)) → easy (for_each f l).
Proof.
  induction l as [|x l IH]; intros Hf; cbn [for_each]; [by apply calm_self_ret|].
  eapply calm_self_bind; [apply Hf; left|]. intros y. eapply calm_self_bind; [apply IH; intros; apply Hf; by right|].
  intros ys. by apply calm_self_ret.
Qed.
Lemma easy_attempt {A} (m : AM A) : easy m → easy (attempt m).
Proof. intros Hm c Hc. eapply wp_mono; [exact (calm_attempt _ _ _ Hm c Hc)| |done|done]. by intros []. Qed.
Lemma easy_item_error m : easy m → easy (item_error m).
Proof. intros Hm. eapply calm_self_bind; [by apply easy_attempt|]. intros r. by apply calm_self_ret. Qed.
Lemma easy_count_each {A} (f : A → AM bool) l n : (∀ x, x ∈ l → easy (f x)) → easy (count_each f l n).
Proof.
  revert n. induction l as [|x l IH]; intros n Hf; cbn [count_each]; [by apply calm_self_ret|].
  eapply calm_self_bind; [by apply easy_attempt, Hf; left|]. intros [e|ok]; [by apply calm_self_ret|].
  apply IH. intros. apply Hf. by right.
Qed.
Lemma easy_batch {A} (f : A → AM (option error)) l :
  (∀ x, x ∈ l → easy (f x)) → easy (es ← for_each f l; lift (batch_result (omap id es))).
Proof.
  intros Hf. eapply calm_self_bind; [by apply easy_for_each|]. intros es. apply calm_lift; [|done|done].
  rewrite /batch_result. by destruct (JoinBatch _).
Qed.

(** A restoring write followed by its marks. *)
Lemma easy_restore {A} op flt ops v (a b : A) :
  (∀ u, fit_at ident op u → passes flt u → ∃ u', marks (keys_of v) op ops u u') →
  easy (r ← Operate flt op ops;
        match r with
        | Done => _ ← noteClaimableAllTiers (u_UserID v) (u_Basket v) (u_Satoshis v); mret a
        | _ => mret b
        end).
Proof.
  intros Hw. eapply calm_self_bind; [by apply (calm_Operate (keys_of v))|]. intros []; simpl; [|by apply calm_self_ret..].
  eapply calm_self_bind; [apply calm_noteAll|]. intros []. by apply calm_self_ret.
Qed.

Lemma easy_releaseRow v tok (o : bool) : fit_at ident (u_Outpoint v) v → tok ≠ "" → easy (releaseRow v tok o).
Proof.
  intros Hv Ht. apply easy_restore. intros u Hu Hp. exists (set_pinned false (MemStore.unreserve u)).
  simpl in Hp. rewrite /release_guard in Hp. cbn [app] in Hp.
  rewrite !holds_and_true holds_reserved_by // holds_unspent in Hp. destruct Hp as (Hr&Hs&Hp).
  pose proof (fit_at_unreserve ident _ _ Hu) as Hu'. split_and!; [done| |by left; eapply key_of_keys].
  apply (write_release v tok); [by destruct Hu|by eapply same_ident|done..|].
  intros ->. rewrite holds_and_true holds_unpinned in Hp. apply Hp.
Qed.

Lemma easy_ReleaseReservation uid tok n :
  tok ≠ "" →
  easy (rows ← found_coins (ExpAnd [reserved_by tok; owned_by uid; unspent; unpinned]);
        count_each (λ u, _ ← check_ctx; releaseRow u tok false) rows n).
Proof.
  intros Ht. eapply calm_self_bind; [apply calm_found_coins|]. intros rows. apply calm_pre. intros Hrows.
  apply easy_count_each. intros v Hv. eapply calm_self_bind; [apply calm_check_ctx|]. intros [].
  apply easy_releaseRow; [|done]. by eapply Forall_forall in Hrows as [Hf _].
Qed.
Lemma easy_release_named tok ops : tok ≠ "" → easy (release_named tok ops).
Proof.
  intros Ht. induction ops as [|op ops IH]; cbn [release_named]; [by apply calm_self_ret|].
  apply (calm_row op); [done|]. intros r v Hv Hrec. apply Hrec. case_decide; [done|].
  apply easy_bind; [|intros; exact IH]. apply easy_releaseRow; [|done]. destruct Hv as [<- ? ?]. by constructor.
Qed.
Lemma easy_setPinned uid tok (b : bool) n :
  tok ≠ "" →
  easy (rows ← found_coins (ExpAnd [reserved_by tok; owned_by uid; unspent; pinState b]);
        count_each (λ op, _ ← check_ctx; setPinnedRow op tok b) (u_Outpoint <$> rows) n).
Proof.
  intros Ht. eapply calm_self_bind; [apply calm_found_coins|]. intros rows. apply calm_pre. intros _.
  apply easy_count_each. intros op _. eapply calm_self_bind; [apply calm_check_ctx|]. intros [].
  apply easy_bind; [|intros r; by apply calm_self_ret]. apply calm_Operate_quiet. intros u Hu Hp. simpl in Hp.
  rewrite !holds_and_true holds_reserved_by // holds_unspent in Hp. destruct Hp as (Hr&Hs&_).
  exists (set_pinned b u). split_and!; [apply fit_at_pin; [done|by rewrite Hr|done]|apply write_pin|by right].
Qed.

Lemma reserved_unclaimable tok at_ u : tok ≠ "" → claimable (set_reservation tok at_ u) = false.
Proof. intros Ht. by rewrite /claimable /= bool_decide_false. Qed.
Lemma easy_casReserve u uid tok ms : tok ≠ "" → easy (casReserveOutpoint u uid tok ms).
Proof.
  intros Ht. apply easy_bind; [|intros r; by apply calm_self_ret]. apply calm_Operate_quiet. intros u1 Hu1 Hp. simpl in Hp.
  rewrite !holds_and_true holds_has_claimKey claim_expression_spec in Hp. destruct Hp as ([[_ Hs] _]&_).
  exists (set_reservation tok (msToTime ms) u1).
  split_and!; [by apply fit_at_reserve|by apply write_reserve|by rewrite reserved_unclaimable].
Qed.
Lemma calm_reserveOne op uid tok ms :
  tok ≠ "" → calm settled (reserveOutpointOne op uid tok ms)
    (λ v c, settled c ∧ ∀ u, v = inr (Some u) → fit_at ident (u_Outpoint u) u).
Proof.
  intros Ht. apply (calm_and _ (own_steps (CReserveOutpoints (λ _, 0) uid tok [op]))); [by eexists|..].
  { eapply runs_conseq; [done| |apply yields_reserveOne; [done|left]]. intros v c Hv u Hu. by apply Hv. }
  assert (∀ {A} (k : error + UTXO * bool → AM A), (∀ v, easy (k v)) → easy (v ← classifyForReserve op uid tok; k v)) as Hcl.
  { intros A k Hk. eapply (calm_self_bind _ _ _ (λ _, settled)); [|done]. apply (calm_row op); [by apply calm_self_ret|].
    intros r u Hu Hrec. apply Hrec. by apply calm_self_ret. }
  apply Hcl. intros [e|[u []]]; [by apply calm_self_ret..|]. eapply calm_self_bind; [by apply easy_casReserve|].
  intros []; [by apply calm_self_ret|]. apply Hcl. intros [e|[? []]]; [by apply calm_self_ret..|by apply calm_self_throw].
Qed.
Lemma easy_undo won tok :
  tok ≠ "" → Forall (λ u, fit_at ident (u_Outpoint u) u) won → easy (undoReserveOutpoints won tok).
Proof.
  intros Ht. induction 1 as [|v won Hv _ IH]; cbn [undoReserveOutpoints]; [by apply calm_self_ret|].
  apply easy_bind; [by apply easy_attempt, easy_releaseRow|]. intros _. exact IH.
Qed.
Lemma calm_reserve_all uid tok ms ops errs won :
  tok ≠ "" → Forall (λ u, fit_at ident (u_Outpoint u) u) won →
  calm settled (reserve_all uid tok ms ops errs won)
    (λ r c, settled c ∧ Forall (λ u, fit_at ident (u_Outpoint u) u) r.2).
Proof.
  intros Ht. revert errs won. induction ops as [|op ops IH]; intros errs won Hwon; cbn [reserve_all]; [by apply calm_self_ret|].
  eapply calm_self_bind; [by apply calm_attempt, calm_reserveOne|]. intros [e|[e|u]].
  - eapply calm_self_bind; [by apply easy_undo|]. intros []. by apply calm_self_throw.
  - apply calm_pre. intros _. by apply IH.
  - apply calm_pre. intros Hu. apply IH. apply Forall_app. split; [done|].
    destruct u as [u|]; simpl; [|constructor]. constructor; [by apply Hu|constructor].
Qed.
Lemma easy_ReserveOutpoints clk uid tok ops :
  tok ≠ "" →
  easy (ms ← nowMillis clk;
    '(itemErrs, won) ← reserve_all uid tok ms (distinctOutpoints ops) [] [];
    match itemErrs with
    | [] => mret ()
    | _ => _ ← undoReserveOutpoints won tok; lift (batch_result itemErrs)
    end).
Proof.
  intros Ht. eapply calm_self_bind; [apply calm_nowMillis|]. intros ms.
  eapply calm_self_bind; [apply calm_reserve_all; [done|constructor]|]. intros [[|e errs] won]; apply calm_pre; intros Hw.
  - by apply calm_self_ret.
  - eapply calm_self_bind; [by apply easy_undo|]. intros []. by apply calm_lift.
Qed.

Lemma easy_spendOne (force : bool) sp : easy (spendOne force sp).
Proof.
  rewrite /spendOne /ValidateSpend. case_decide as Ht; [by apply calm_self_ret|]. apply easy_item_error.
  induction casAttempts as [|n IH]; cbn [spend_attempts].
  - apply easy_bind; [|intros; by apply calm_self_ret]. apply (calm_row (sp_Outpoint sp)); [by apply calm_self_ret|].
    intros r u Hu Hrec. destruct force; [by apply calm_self_ret|]. apply Hrec. by apply calm_self_ret.
  - apply easy_bind.
    { apply calm_Operate_quiet. intros u Hu Hp.
      destruct (spend_changes ident [sp] force sp u) as (Hf&Hs&_); [left|done|done|done|].
      exists (set_pinned false (set_spentBy (Some (sp_SpendingTxID sp)) u)). split_and!; [done|done|].
      by rewrite /claimable /= andb_false_r. }
    intros r. assert (easy ('(classified, retry) ← classifySpendFailure sp force;
      if (retry : bool) then spend_attempts n sp force else mret classified)) as Hc; [|by destruct r; [apply calm_self_ret|..]].
    apply easy_bind; [|by intros [e []]; [|apply calm_self_ret]]. apply (calm_row (sp_Outpoint sp)); [by apply calm_self_ret|].
    intros r' u Hu Hrec. apply Hrec. by apply calm_self_ret.
Qed.

Lemma easy_unspendOne w op : easy (unspendOne w op).
Proof.
  apply (calm_row op); [by apply calm_self_ret|]. intros r v Hv Hrec. apply Hrec. case_decide; [by apply calm_self_ret|].
  apply easy_restore. intros u Hu Hp. simpl in Hp. rewrite holds_spent_by in Hp.
  exists (set_pinned false (MemStore.unreserve (set_spentBy None u))). pose proof (fit_at_unspend ident _ _ Hu) as Hu'.
  split_and!; [done|apply (write_unspend v w); [by destruct Hu|by eapply same_ident|done]|by left; eapply key_of_keys].
Qed.
Lemma easy_delete op flt : easy (deleteRecordGuarded op flt).
Proof. apply easy_bind; [apply calm_Delete|]. intros. by apply calm_self_ret. Qed.
Lemma easy_RemoveSpentBy w n :
  easy (rows ← found_coins (spent_by w);
     count_each (λ op, _ ← check_ctx; res ← deleteRecordGuarded op (Some (spent_by w)); mret (is_removed res))
       (u_Outpoint <$> rows) n).
Proof.
  eapply calm_self_bind; [apply calm_found_coins|]. intros rows. apply calm_pre. intros _. apply easy_count_each.
  intros op _. apply easy_bind; [apply calm_check_ctx|]. intros _. apply easy_bind; [apply easy_delete|].
  intros. by apply calm_self_ret.
Qed.

Lemma easy_mintOne clk m : mint_typed ident m → easy (mintOne clk m).
Proof.
  intros Ht. rewrite /mintOne. destruct (ValidateMint m) eqn:Hv; [by apply calm_self_ret|]. apply easy_item_error.
  eapply calm_self_bind; [apply calm_nowMillis|]. intros ms.
  eapply calm_self_bind; [eapply calm_PutBins; [split; [by apply fit_minted|apply mint_encoded]|done]|].
  intros []; simpl.
  - eapply calm_self_bind; [apply calm_note|]. intros []. by apply calm_self_ret.
  - apply (calm_row (m_Outpoint m)); [by apply calm_self_ret|]. intros r v Hv' Hrec. apply Hrec. by apply calm_self_ret.
Qed.
Lemma easy_removeOne (force : bool) op : easy (removeOne force op).
Proof.
  destruct force; apply easy_item_error.
  { apply easy_bind; [apply easy_delete|]. intros. by apply calm_self_ret. }
  induction casAttempts as [|n IH]; cbn [remove_attempts]; [by apply calm_self_ret|].
  apply (calm_row op); [by apply calm_self_ret|]. intros r v Hv Hrec. apply Hrec.
  destruct (remove_refusal op v); [by apply calm_self_ret|]. apply easy_bind; [apply easy_delete|].
  by intros []; [apply calm_self_ret| |apply calm_self_ret].
Qed.
Lemma easy_freezeOne op : easy (freezeOne op).
Proof.
  apply easy_item_error, easy_bind; [|intros; by apply calm_self_ret]. apply calm_Operate_quiet. intros u Hu _.
  exists (set_frozen true u). split_and!; [by apply fit_at_frozen|apply write_freeze|].
  by rewrite /claimable /= andb_false_r.
Qed.
Lemma easy_unfreezeOne op : easy (unfreezeOne op).
Proof.
  apply easy_item_error. apply (calm_row op); [by apply calm_self_ret|]. intros r v Hv Hrec. apply Hrec.
  apply easy_restore. intros u Hu _. exists (set_frozen false u). pose proof (fit_at_frozen ident _ _ false Hu) as Hu'.
  split_and!; [done|apply write_unfreeze; [by destruct Hu|by eapply same_ident]|by left; eapply key_of_keys].
Qed.
Lemma easy_promoteOne to op : Tier_Valid to = true → easy (promoteOne to op).
Proof.
  intros Hto. apply (calm_row op); [by apply calm_self_ret|]. intros r v Hv Hrec. apply Hrec.
  destruct (u_Tier v =? to); [by apply calm_self_ret|].
  eapply calm_self_bind; [apply (calm_Operate [claimKeyFor (u_UserID v) (u_Basket v) to (bucketOf (u_Satoshis v))])|].
  - intros u Hu _. exists (set_tier to u). pose proof (same_ident ident _ _ _ Hu Hv) as Hid.
    split_and!; [by apply fit_at_tier|by apply write_promote|]. intros _. left. injection Hid as Hi1 Hi2 Hi3 _.
    rewrite /key_of /= Hi1 Hi2 Hi3. left.
  - intros []; simpl; [|by apply calm_self_ret..]. eapply calm_self_bind; [apply calm_note|]. intros []. by apply calm_self_ret.
Qed.
Lemma easy_mint_ops_loop ops st : easy (mint_ops_loop ops st).
Proof.
  revert st. induction ops as [|op ops IH]; intros st; cbn [mint_ops_loop]; [by apply calm_self_ret|].
  apply easy_bind; [|by intros [e|v]; [apply calm_self_ret|]]. apply easy_attempt. rewrite /removeMintTxOp.
  induction casAttempts as [|n IHn]; cbn [remove_mint_attempts]; [by apply calm_self_throw|].
  apply (calm_row op); [by apply calm_self_ret|]. intros r v Hv Hrec. apply Hrec. case_decide; [by apply calm_self_ret|].
  apply easy_bind; [apply easy_delete|]. by intros []; [apply calm_self_ret| |apply calm_self_ret].
Qed.

(** ** Claims *)

(** The records are [t], and the cache is on. *)
Definition here (t : Table) (c : Conn) : Prop := settled c ∧ recs c = t.
Definition cached_here (t : Table) (c : Conn) : Prop := here t c ∧ is_Some (cache c).

Lemma calm_section {A} t (f : bool → claimCache → A * claimCache) (Q : A → Prop) :
  (∀ cc, cache_ok ident cc → 0 < cc_refill cc → cache_true [] t cc →
     let '(a, cc') := f false cc in
     cache_ok ident cc' ∧ cc_refill cc' = cc_refill cc ∧ cache_true [] t cc' ∧ Q a) →
  calm (cached_here t) (section f) (λ a c, cached_here t c ∧ Q a).
Proof.
  intros Hf c [[[He Hw Hc Hr Ht] <-] [cc Hcc]]. rewrite /wp /section (arrive_alone c He) Hcc. simpl.
  specialize (Hf cc (Hc cc Hcc) (Hr cc Hcc) (Ht cc Hcc)). destruct (f false cc) as [a cc'].
  destruct Hf as (Hok&Hrf&Htr&HQ). split; [|done]. split; [split; [|done]|done].
  constructor; simpl; [done|done|by intros ? [= <-]| |by intros ? [= <-]].
  intros ? [= <-]. rewrite Hrf. by apply Hr.
Qed.

Lemma cache_true_insert t k b cc lru next :
  bucket_true t k b → cache_true [] t cc → cache_true [] t (set_buckets (<[k := b]> (cc_buckets cc)) lru next cc).
Proof.
  intros Hb Hcc k' b'. simpl. destruct (decide (k' = k)) as [->|].
  - rewrite lookup_insert_eq. by intros [= <-].
  - rewrite lookup_insert_ne //. apply Hcc.
Qed.
Lemma evict_refill cc : cc_refill (evictLocked cc) = cc_refill cc.
Proof. rewrite /evictLocked. by case_match. Qed.
Lemma evict_true t cc : cache_true [] t cc → cache_true [] t (evictLocked cc).
Proof.
  intros Hcc. rewrite /evictLocked. case_match; [|done]. intros k b. simpl.
  generalize (drop (Z.to_nat (cc_maxBuckets cc)) (cc_lru cc)). intros l.
  induction l as [|x l IH]; simpl; [apply Hcc|]. intros [_ Hb]%lookup_delete_Some. by apply IH.
Qed.
Lemma bucket_true_yields t k cc :
  cache_true [] t cc →
  let '(b, cc') := bucket k cc in cc_refill cc' = cc_refill cc ∧ cache_true [] t cc' ∧ bucket_true t k b.
Proof.
  intros Hcc. rewrite /bucket. destruct (cc_buckets cc !! k) as [b|] eqn:Hb.
  - split_and!; [done|done|]. apply (Hcc k b Hb), not_elem_of_nil.
  - split_and!; [by rewrite evict_refill|by apply evict_true, cache_true_insert|done].
Qed.
Lemma on_bucket_true {A} t k b (f : claimBucket → A * claimBucket) (Q : A → Prop) cc :
  bucket_true t k b → (∀ b, bucket_true t k b → bucket_true t k (f b).2 ∧ Q (f b).1) → cache_true [] t cc →
  let '((a, b'), cc') := on_bucket k b f cc in
  cc_refill cc' = cc_refill cc ∧ cache_true [] t cc' ∧ Q a ∧ bucket_true t k b'.
Proof.
  intros Hb Hf Hcc. rewrite /on_bucket.
  assert (let '((a, b'), cc') := (f b, cc) in
    cc_refill cc' = cc_refill cc ∧ cache_true [] t cc' ∧ Q a ∧ bucket_true t k b').
  { destruct (Hf b Hb). destruct (f b). done. }
  destruct (cc_buckets cc !! k) as [cur|] eqn:Hcur; [|done]. destruct (cb_id cur =? cb_id b)%nat; [|done].
  destruct (Hf cur (Hcc _ _ Hcur (not_elem_of_nil _))) as [Hb' HQ]. destruct (f cur) as [a b'].
  split_and!; [done|by apply cache_true_insert|done|done].
Qed.

Lemma pull_nil pr prefer n : pull pr prefer n [] = ([], []).
Proof. by destruct n. Qed.
Lemma pull_true t k pr prefer want b : bucket_true t k b → bucket_true t k (pullLocked pr prefer want b).2.
Proof.
  intros Hb. rewrite /pullLocked. destruct (pull pr prefer (Z.to_nat want) (cb_cands b)) as [out rest] eqn:Hp.
  intros He. simpl in He. destruct (Hb He) as [Hn Ha]. split; [|done]. rewrite Hn pull_nil in Hp. by injection Hp as _ <-.
Qed.
Lemma refreshed_true t k g now_ probed b :
  (probed = [] → absent k t) → bucket_true t k b → bucket_true t k (refreshed g now_ probed b).
Proof.
  intros Hp Hb. rewrite /refreshed. destruct probed as [|x l]; [|done]. case_match; intros _; by auto.
Qed.
Lemma known_absent t k now_ ttl b : bucket_true t k b → knownEmptyLocked now_ ttl b = true → absent k t.
Proof. intros Hb Hk. rewrite /knownEmptyLocked !andb_true_iff in Hk. destruct Hk as [[[Hp _] _] _]. by apply Hb. Qed.

(** A read with the records at hand. *)
Lemma calm_here {A} t (m : AM A) Q : reads m Q → calm (cached_here t) m (λ a c, cached_here t c ∧ Q a t).
Proof.
  intros Hm c [[Hc <-] Hs]. destruct (Hm c) as (a&Ha&HQ); [by destruct Hc..|]. by rewrite /wp Ha.
Qed.
Lemma calm_here_now clk t : calm (cached_here t) (now clk) (λ _, cached_here t).
Proof. intros c [[[] ?] ?]. split; [split; [by constructor|done]|done]. Qed.
Lemma calm_on_bucket {A} t k b (f : claimCache → claimBucket → A * claimBucket) (Q : A → Prop) :
  bucket_ok ident k b → bucket_true t k b →
  (∀ cc b, bucket_ok ident k b → bucket_ok ident k (f cc b).2) →
  (∀ cc b, bucket_true t k b → bucket_true t k (f cc b).2 ∧ Q (f cc b).1) →
  calm (cached_here t) (section (λ _ cc, on_bucket k b (f cc) cc))
    (λ r c, cached_here t c ∧ Q r.1 ∧ bucket_ok ident k r.2 ∧ bucket_true t k r.2).
Proof.
  intros Hb Ht Hf1 Hf2. apply (calm_section t _ (λ r, Q r.1 ∧ bucket_ok ident k r.2 ∧ bucket_true t k r.2)).
  intros cc Hcc Hr Hct.
  pose proof (on_bucket_yields ident k b (f cc) (λ _, True) cc Hb (λ b Hb, conj (Hf1 cc b Hb) I) Hcc) as H1.
  pose proof (on_bucket_true t k b (f cc) Q cc Ht (Hf2 cc) Hct) as H2.
  destruct (on_bucket k b (f cc) cc) as [[a b'] cc']. destruct H1 as (?&_&?), H2 as (?&?&?&?). done.
Qed.

(** No coin of value [pr] can be claimed under [key]. *)
Definition none_in (key : string) (pr : Z → bool) (t : Table) : Prop :=
  ∀ op u, coin_at t op = Some u → claimable u = true → key_of u = key → pr (u_Satoshis u) = false.
(** The server's filter decides the predicate, for values the server stores as they are. *)
Definition exact (flt : expr) (pr : Z → bool) : Prop :=
  ∀ u, u_Satoshis u < 2 ^ 63 → fit u → holds flt (encode u) = pr (u_Satoshis u).
Context (small : ∀ op, id_sats (ident op) < 2 ^ 63).

Lemma fit_small op u : fit_at ident op u → u_Satoshis u < 2 ^ 63.
Proof. intros [_ _ Hi]. pose proof (small op) as Hs. by rewrite -Hi in Hs. Qed.
Lemma absent_none key pr t : absent key t → none_in key pr t.
Proof. intros Ha op u Hu Hc Hk. by destruct (Ha op u Hu Hc). Qed.

Lemma reads_probe key flt n :
  0 < n →
  reads (probe key flt n) (λ cands t, cands = [] → ∀ op u, coin_at t op = Some u → claimable u = true → key_of u = key →
    match flt with None => False | Some e => holds e (encode u) = false end).
Proof.
  intros Hn. eapply reads_bind; [apply reads_streamQuery|]. { intros [= Hz]. lia. }
  intros rs. apply reads_ret. intros t Hf Hnil op u Hu Hc Hk.
  assert (rs = []) as Hrs by by destruct rs. specialize (Hf Hrs op u Hu).
  rewrite holds_and in Hf. rewrite (proj2 (holds_claimKey u key)) // in Hf. simpl in Hf.
  destruct flt as [e|]; simpl in Hf; [|done]. rewrite holds_and holds_and_nil andb_true_r in Hf. done.
Qed.
Lemma probe_filtered key e pr n :
  exact e pr → runs ident nobody nobody anywhere (probe key (Some e) n) (λ cands _, Forall (λ c, pr (c_sats c) = true) cands).
Proof.
  intros He. eapply yields_then; [apply yields_streamQuery|]. intros found Hf. apply runs_ret. intros _ _.
  apply Forall_fmap. eapply Forall_impl; [exact Hf|]. intros [op r] (u&[Hfit Hs]&Hh). simpl in *.
  rewrite !holds_and_true in Hh. destruct Hh as (_&Hh&_). pose proof (fit_small _ _ Hfit). destruct Hfit as [_ Hfit _].
  rewrite He // in Hh. rewrite (Hs binSats) /= u64_of_i64 //. apply Hfit.
Qed.

Lemma sampleSize_pos want : 0 < sampleSize want.
Proof. rewrite /sampleSize /claimSample. case_match; lia. Qed.

Lemma matches_nil pr prefer want cands :
  0 < want → preferredMatches cands pr prefer want = [] → Forall (λ c, pr (c_sats c) = true) cands → cands = [].
Proof.
  intros Hw Hn Hc. destruct cands as [|c cands]; [done|]. exfalso.
  apply Forall_cons in Hc as [Hp _]. rewrite /preferredMatches /slice_to in Hn.
  set (l := match prefer with Some p => _ | None => _ end) in Hn.
  assert (c ∈ l) as Hin.
  { subst l. destruct prefer; [rewrite SortFunc_perm|]; apply list_elem_of_filter; (split; [done|left]). }
  destruct l as [|x l]; [by apply elem_of_nil in Hin|]. simpl length in Hn.
  replace (Z.to_nat (want `min` Z.of_nat (S (length l)))) with (S (Z.to_nat (want `min` Z.of_nat (S (length l)) - 1))) in Hn by lia.
  done.
Qed.

(** A probe with the value filter, in the state it is made in. *)
Lemma calm_filtered (P : Conn → Prop) t key e pr prefer want :
  (∀ c, P c → here t c) → exact e pr → 0 < want →
  calm P (cands ← probe key (Some e) (sampleSize want); mret (preferredMatches cands pr prefer want))
    (λ cands c, P c ∧ (cands = [] → none_in key pr t)).
Proof.
  intros HP He Hw.
  eapply (calm_self_bind _ _ _ (λ cands c, (P c ∧ (cands = [] → none_in key pr t)) ∧ Forall (λ c, pr (c_sats c) = true) cands)).
  - apply (calm_and _ nobody); [|by apply probe_filtered|].
    { intros c [Hc _]%HP. by eexists. }
    intros c Hc. destruct (HP c Hc) as [Hs Ht].
    destruct (reads_probe key (Some e) (sampleSize want) (sampleSize_pos want) c) as (cands&Ha&HQ); [by destruct Hs..|].
    rewrite /wp Ha. split; [done|]. intros Hnil op u Hu Hcl Hk. rewrite -Ht in Hu.
    rewrite -(HQ Hnil op u Hu Hcl Hk). destruct (wf_coin ident _ _ _ (hb_wf _ _ Hs) Hu) as (r&_&Hf&_).
    symmetry. apply He; [by eapply fit_small|apply Hf].
  - intros cands. apply calm_self_ret. intros c [[Hc Hn] Hall]. split; [done|]. intros Hm.
    apply Hn. by eapply matches_nil.
Qed.

Lemma pull_marked t key b pr prefer want ttl now_ :
  bucket_true t key b →
  bucket_true t key (pullLocked pr prefer want b).2 ∧
  (knownEmptyLocked now_ ttl (pullLocked pr prefer want b).2 = true → absent key t).
Proof. intros Hb%(pull_true t key pr prefer want). split; [done|]. by apply known_absent. Qed.

(** With nobody about, the refill token is free; an empty probe settles the bucket. *)
Lemma calm_refill clk t key b pr prefer want :
  bucket_ok ident key b → bucket_true t key b →
  calm (cached_here t) (refillAndPull clk key b pr prefer want)
    (λ r c, cached_here t c ∧ (r.2 = true → absent key t)).
Proof.
  intros Hb Ht.
  eapply (calm_self_bind _ _ _ (λ r c, cached_here t c ∧ r.1.1.1 = false ∧ 0 < r.2)).
  { apply (calm_section t _ (λ r, r.1.1.1 = false ∧ 0 < r.2)). intros cc Hcc Hr Hct.
    pose proof (on_bucket_yields ident key b (λ b, (cb_gen b, b)) (λ _, True) cc Hb (λ b Hb, conj Hb I) Hcc) as H1.
    pose proof (on_bucket_true t key b (λ b, (cb_gen b, b)) (λ _, True) cc Ht (λ b Hb, conj Hb I) Hct) as H2.
    destruct (on_bucket key b _ cc) as [[g b'] cc']. destruct H1 as (?&_&_), H2 as (?&?&_&_). done. }
  intros [[[busy g] ttl] refill]. apply calm_pre. simpl. intros [-> Hrefill].
  eapply (calm_self_bind _ _ _ (λ r c, cached_here t c ∧ ∀ probed, r = inr probed → Forall (cand_ok ident key) probed ∧ (probed = [] → absent key t))).
  { intros c Hc. pose proof Hc as [[Hs Ht'] _].
    destruct (reads_probe key None refill Hrefill c) as (probed&Ha&HQ); [by destruct Hs..|].
    pose proof (yields_probe ident nobody nobody key None refill c (holds_good _ _ Hs) I) as H2.
    rewrite Ha in H2. destruct H2 as (_&_&H2). rewrite /wp /attempt Ha. split; [done|]. intros ? [= <-].
    split; [done|]. intros Hnil op u Hu Hcl Hk. rewrite -Ht' in Hu. by eapply HQ. }
  intros [e|probed]; apply calm_pre; intros Hp.
  { eapply calm_self_bind; [apply (calm_on_bucket t key b (λ _, pullLocked pr prefer want) (λ _, True) Hb Ht)|].
    - intros _ b0 Hb0. by apply (pullLocked_spec ident key pr prefer want).
    - intros _ b0 Hb0. split; [by apply pull_true|done].
    - intros r. apply calm_self_throw. by intros c [[[? _] _] _]. }
  destruct (Hp probed eq_refl) as [Hok Habs].
  eapply (calm_self_bind _ _ _ (λ _, cached_here t)).
  { case_decide; [apply calm_here_now|by apply calm_self_ret]. }
  intros now_. eapply calm_self_bind.
  - apply (calm_on_bucket t key b (λ _ b, pullLocked pr prefer want (refreshed g now_ probed b)) (λ _, True) Hb Ht).
    + intros _ b0 Hb0. apply (pullLocked_spec ident key pr prefer want). by apply refreshed_ok.
    + intros _ b0 Hb0. split; [|done]. by apply pull_true, refreshed_true.
  - intros [out b']. apply calm_self_ret. intros c (Hc&_). split; [done|]. simpl. intros Hn%bool_decide_eq_true.
    apply Habs. by destruct probed.
Qed.

Lemma calm_take clk t key e pr prefer want :
  exact e pr → 0 < want →
  calm (cached_here t) (take_cands clk key e pr prefer want)
    (λ cands c, cached_here t c ∧ (cands = [] → none_in key pr t)).
Proof.
  intros He Hw. rewrite /take_cands. destruct (Z.leb_spec want 0); [lia|].
  eapply calm_self_bind; [apply (calm_here t), reads_check_ctx|]. intros []. apply calm_pre. intros _.
  eapply (calm_self_bind _ _ _ (λ b c, cached_here t c ∧ bucket_ok ident key b ∧ bucket_true t key b)).
  { apply (calm_section t _ (λ b, bucket_ok ident key b ∧ bucket_true t key b)). intros cc Hcc Hr Hct.
    pose proof (bucket_yields ident key cc Hcc) as H1. pose proof (bucket_true_yields t key cc Hct) as H2.
    destruct (bucket key cc) as [b cc']. destruct H1, H2 as (?&?&?). done. }
  intros b. apply calm_pre. intros [Hb Ht]. eapply calm_self_bind; [apply calm_here_now|]. intros now_.
  eapply calm_self_bind.
  { apply (calm_on_bucket t key b (λ cc b, let '(out, b') := pullLocked pr prefer want b in
      ((out, knownEmptyLocked now_ (cc_emptyTTL cc) b'), b')) (λ a, a.2 = true → absent key t) Hb Ht).
    - intros cc b0 Hb0. destruct (pullLocked_spec ident key pr prefer want b0 Hb0) as [? _].
      by destruct (pullLocked pr prefer want b0).
    - intros cc b0 Hb0. destruct (pull_marked t key b0 pr prefer want (cc_emptyTTL cc) now_ Hb0).
      by destruct (pullLocked pr prefer want b0). }
  intros [[out known] b']. simpl. apply calm_pre. intros (Hk&Hb'&Ht').
  destruct ((want <=? Z.of_nat (length out)) || known) eqn:Hd.
  { apply calm_self_ret. intros c Hc. split; [done|]. intros ->. apply absent_none, Hk.
    apply orb_true_iff in Hd as [Hd|Hd]; [|done]. apply Z.leb_le in Hd. simpl in Hd. lia. }
  eapply calm_self_bind; [by apply calm_refill|]. intros [more empty]. apply calm_pre. intros Hempty. simpl in Hempty.
  destruct (bool_decide _ || empty) eqn:Hd'.
  - apply calm_self_ret. intros c Hc. split; [done|]. intros Hn. apply orb_true_iff in Hd' as [Hd'|Hd'].
    + apply bool_decide_eq_true in Hd'. by rewrite Hn in Hd'.
    + by apply absent_none, Hempty.
  - apply (calm_filtered _ t); [by intros c []|done|done].
Qed.

Lemma calm_claimCands clk t key e pr prefer want :
  exact e pr → 0 < want →
  calm (here t) (claimCands clk key e pr prefer want) (λ cands c, here t c ∧ (cands = [] → none_in key pr t)).
Proof.
  intros He Hw c Hc. rewrite /claimCands. apply wp_bind. rewrite /wp /=. destruct (cache c) as [cc|] eqn:Hcc.
  - apply (calm_conseq (cached_here t) (cached_here t) _ (λ cands c, cached_here t c ∧ (cands = [] → none_in key pr t)));
      [done| |by apply calm_take|by split; [|rewrite Hcc]]. by intros cands c' [[? _] ?].
  - by apply (calm_filtered (here t) t).
Qed.

(** A candidate that is lost changes nothing. *)
Lemma calm_reserve t cand key tok ms :
  tok ≠ "" →
  calm (here t) (reserve cand key tok ms) (λ r c, match r with None => here t c | Some _ => settled c end).
Proof.
  intros Htok c [Hs Ht]. apply wp_bind. set (cas := Operate _ _ _).
  assert (easy cas) as Hq.
  { apply calm_Operate_quiet. intros u Hu Hp. simpl in Hp. rewrite holds_claimKey claim_expression_spec in Hp.
    destruct Hp as [[[_ Hsp] _] _]. exists (set_reservation tok (msToTime ms) u).
    split_and!; [by apply fit_at_reserve|by apply write_reserve|by rewrite reserved_unclaimable]. }
  assert ((cas c).1 ≠ Ret Done → recs (cas c).2 = t) as Hsame.
  { rewrite /cas /Operate /command (arrive_alone c (hb_alone _ _ Hs)) -Ht. simpl.
    destruct (recs c !! c_key cand); [|done]. by destruct (holds _ _). }
  specialize (Hq c Hs). rewrite /wp in Hq |- *. destruct (cas c) as [[[]|e|] c']; try done; simpl in *.
  - by rewrite /mbind /M_bind /of_record /lift; destruct (recordToUTXO (c_rec cand)).
  - by split; [|apply Hsame].
  - by split; [|apply Hsame].
Qed.

Section loops.
Context (clk : nat → Time) (sc : Scope) (tok : string) (Htok : tok ≠ "").
Abbreviation key b := (claimKeyFor (sc_UserID sc) (sc_Basket sc) (sc_Tier sc) b).

Lemma here_settled t c : here t c → settled c.
Proof. by intros []. Qed.
Lemma calm_here_nowMillis t : calm (here t) (nowMillis clk) (λ _, here t).
Proof. intros c [[] ?]. split; [by constructor|done]. Qed.
Lemma calm_here_ctx t : calm (here t) check_ctx (λ _, here t).
Proof. intros c [Hs Ht]. destruct (reads_check_ctx c) as (a&Ha&_); [by destruct Hs..|]. by rewrite /wp Ha. Qed.

Lemma calm_first_won t k cands losses :
  calm (here t) (first_won clk k tok cands losses)
    (λ r c, match r with
            | inl _ => settled c
            | inr losses' => here t c ∧ losses' = losses + Z.of_nat (length cands)
            end).
Proof.
  revert losses. induction cands as [|cand cands IH]; intros losses; cbn [first_won].
  { apply calm_self_ret. intros c Hc. simpl. split; [done|lia]. }
  eapply calm_self_bind; [apply calm_here_nowMillis|]. intros ms. eapply calm_self_bind; [by apply calm_reserve|].
  intros [u|]; [by apply calm_self_ret|]. case_match; [apply calm_self_throw, here_settled|].
  eapply calm_conseq; [done| |apply IH]. intros [u|losses'] c; [done|]. intros [? ->]. split; [done|]. simpl length. lia.
Qed.

Lemma calm_smallest t fuel k minSats losses :
  exact (ExpGreaterEq binSats (i64 minSats)) (λ v, minSats <=? v) → 0 ≤ losses →
  calm (here t) (smallest_in clk fuel k tok minSats losses)
    (λ r c, match r with
            | inl _ => settled c
            | inr losses' => here t c ∧ losses ≤ losses' ∧ (losses' = 0 → none_in k (λ v, minSats <=? v) t)
            end).
Proof.
  intros He. revert losses. induction fuel as [|fuel IH]; intros losses Hl; cbn [smallest_in].
  { intros c Hc. by apply here_settled in Hc. }
  eapply calm_self_bind; [by apply calm_claimCands|]. intros cands. apply calm_pre. intros Hn.
  destruct cands as [|cand cands]; [apply calm_self_ret; intros c Hc; split_and!; [done|lia|auto]|].
  eapply calm_self_bind; [apply calm_first_won|]. intros [u|losses']; [by apply calm_self_ret|].
  apply calm_pre. simpl length. intros ->. eapply calm_conseq; [done| |apply IH; lia].
  intros [u|losses'] c; [done|]. intros (?&?&?). split_and!; [done|lia|lia].
Qed.

Lemma calm_walk_up t minSats buckets losses :
  exact (ExpGreaterEq binSats (i64 minSats)) (λ v, minSats <=? v) → 0 ≤ losses →
  calm (here t) (walk_up clk sc tok minSats buckets losses)
    (λ o c, settled c ∧ (o = None → losses = 0 ∧ ∀ b, b ∈ buckets → none_in (key b) (λ v, minSats <=? v) t)).
Proof.
  intros He. revert losses. induction buckets as [|b buckets IH]; intros losses Hl; cbn [walk_up].
  { destruct (Z.ltb_spec 0 losses); [apply calm_self_throw, here_settled|]. apply calm_self_ret. intros c [Hc _].
    split; [done|]. intros _. split; [lia|]. by intros b ?%elem_of_nil. }
  eapply calm_self_bind; [apply calm_here_ctx|]. intros []. eapply calm_self_bind; [by apply calm_smallest|].
  intros [u|losses']; [by apply calm_self_ret|]. apply calm_pre. intros [Hle Hn].
  eapply calm_conseq; [done| |apply IH; lia]. intros o c [Hc Ho]. split; [done|]. intros Hnone.
  destruct (Ho Hnone) as [-> Hb]. split; [lia|]. intros b' [->|Hb']%elem_of_cons; [by apply Hn|by apply Hb].
Qed.

(** Until something is claimed the records are [t]. *)
Definition pend (t : Table) (claimed : list UTXO) (c : Conn) : Prop := settled c ∧ (claimed = [] → recs c = t).
Lemma pend_settled t claimed c : pend t claimed c → settled c.
Proof. by intros []. Qed.
Lemma pend_nil t c : pend t [] c → here t c.
Proof. intros [? Hr]. split; [done|by apply Hr]. Qed.
Lemma app_one_ne {A} (l : list A) x : (l ++ [x])%list ≠ [].
Proof. by destruct l. Qed.

Lemma calm_claim_batch t budget k limit cands claimed losses pg :
  0 ≤ losses →
  calm (pend t claimed) (claim_batch clk budget k tok limit cands claimed losses pg)
    (λ '(claimed', losses', _) c, pend t claimed' c ∧ losses ≤ losses' ∧
       (claimed' = [] → claimed = [] ∧ (0 < limit → losses + Z.of_nat (length cands) ≤ losses'))).
Proof.
  revert claimed losses pg. induction cands as [|cand cands IH]; intros claimed losses pg Hl; cbn [claim_batch].
  { apply calm_self_ret. intros c Hc. simpl. split_and!; [done|lia|]. intros. split; [done|lia]. }
  destruct (Z.leb_spec limit (Z.of_nat (length claimed))) as [Hlim|Hlim].
  { apply calm_self_ret. intros c Hc. split_and!; [done|lia|]. intros ->. split; [done|]. simpl in Hlim. lia. }
  assert (∀ ms, calm (pend t claimed) (reserve cand k tok ms)
    (λ r c, match r with None => pend t claimed c | Some u => settled c end)) as Hres.
  { intros ms c [Hc Hr]. destruct (decide (claimed = [])) as [->|Hne].
    - apply (calm_conseq (here t) (here t) _ (λ r c, match r with None => here t c | Some _ => settled c end));
        [done| |by apply calm_reserve|split; [done|by apply Hr]]. intros [u|] c'; [done|]. by intros [].
    - apply (calm_conseq (here (recs c)) (here (recs c)) _ (λ r c', match r with None => here (recs c) c' | Some _ => settled c' end));
        [done| |by apply calm_reserve|done]. intros [u|] c'; [done|]. intros [? _]. by split. }
  eapply (calm_self_bind _ _ _ (λ _, pend t claimed)).
  { intros c [[] ?]. split; [by constructor|done]. }
  intros ms. eapply calm_self_bind; [apply Hres|]. intros [u|].
  - eapply calm_conseq; [| |apply IH, Hl].
    + intros c Hc. split; [done|]. by intros ?%app_one_ne.
    + intros [[claimed' losses'] pg'] c (?&?&Hn). split_and!; [done|done|]. intros [?%app_one_ne _]%Hn. done.
  - case_match; [apply calm_self_throw, pend_settled|]. eapply calm_conseq; [done| |apply IH; lia].
    intros [[claimed' losses'] pg'] c (?&?&Hn). split_and!; [done|lia|]. intros [? Hx]%Hn. split; [done|].
    intros ?%Hx. simpl length. lia.
Qed.

Lemma calm_pend_cands t k e pr prefer want claimed :
  exact e pr → 0 < want →
  calm (pend t claimed) (claimCands clk k e pr prefer want)
    (λ cands c, pend t claimed c ∧ (cands = [] → claimed = [] → none_in k pr t)).
Proof.
  intros He Hw c [Hc Hr].
  apply (calm_conseq (here (recs c)) (here (recs c)) _ (λ cands c', here (recs c) c' ∧ (cands = [] → none_in k pr (recs c))));
    [done| |by apply calm_claimCands|done]. intros cands c' [[Hc' Ht] Hn]. split; [split; [done|]|].
  - intros Hnil. rewrite Ht. by apply Hr.
  - intros Hcands Hnil. rewrite -(Hr Hnil). by apply Hn.
Qed.

(** What a batch loop says once it stops. *)
Definition drained (t : Table) (claimed : list UTXO) (losses : Z) (r : list UTXO * Z) (φ : Prop) (c : Conn) : Prop :=
  pend t r.1 c ∧ losses ≤ r.2 ∧ (r.1 = [] → claimed = [] ∧ (r.2 = 0 → φ)).

Lemma drained_full t limit claimed losses φ :
  0 < limit → limit ≤ Z.of_nat (length claimed) →
  calm (pend t claimed) (mret (claimed, losses)) (λ r, drained t claimed losses r φ).
Proof. intros Hl Hf. apply calm_self_ret. intros c Hc. split_and!; [done|simpl; lia|]. simpl. intros ->. simpl in Hf. lia. Qed.
(** After a batch: on with the loop, or stop if it won nothing. *)
Lemma drained_batch t claimed losses claimed' losses' φ (pg : bool) (m : AM (list UTXO * Z)) :
  0 ≤ losses → losses ≤ losses' → (claimed' = [] → claimed = [] ∧ losses < losses') →
  calm (pend t claimed') m (λ r, drained t claimed' losses' r φ) →
  calm (pend t claimed') (if pg then m else mret (claimed', losses')) (λ r, drained t claimed losses r φ).
Proof.
  intros Hl Hle Hnil Hm. destruct pg.
  - eapply calm_conseq; [exact (λ c Hc, Hc)| |exact Hm]. intros r c (Hp&Hle'&Hr). split_and!; [done|lia|].
    intros Hr0. destruct (Hr Hr0) as [Hc0 _]. destruct (Hnil Hc0) as [-> Hx]. split; [done|lia].
  - apply calm_self_ret. intros c Hc. split_and!; [done|simpl; lia|]. simpl. intros Hc0. destruct (Hnil Hc0) as [-> Hx].
    split; [done|lia].
Qed.

Lemma calm_largest t fuel k capSats limit claimed losses :
  exact (ExpLess binSats (i64 capSats)) (λ v, v <? capSats) → 0 < limit → 0 ≤ losses →
  calm (pend t claimed) (largest_in clk fuel k tok capSats limit claimed losses)
    (λ r, drained t claimed losses r (none_in k (λ v, v <? capSats) t)).
Proof.
  intros He Hlim. revert claimed losses.
  induction fuel as [|fuel IH]; intros claimed losses Hl; cbn [largest_in];
    (destruct (Z.leb_spec limit (Z.of_nat (length claimed))); [by eapply drained_full|]).
  { intros c Hc. by apply pend_settled in Hc. }
  eapply calm_self_bind; [apply (calm_pend_cands t); [done|lia]|]. intros cands. apply calm_pre. intros Hn.
  destruct cands as [|cand cands].
  { apply calm_self_ret. intros c Hc. split_and!; [done|simpl; lia|]. simpl. auto. }
  eapply calm_self_bind; [by apply calm_claim_batch|]. intros [[claimed' losses'] pg]. apply calm_pre. intros [Hle Hnil].
  apply (drained_batch t claimed losses claimed' losses'); [done|lia| |apply IH; lia].
  intros Hc0. destruct (Hnil Hc0) as [-> Hx]. split; [done|]. specialize (Hx Hlim). simpl length in Hx. lia.
Qed.

Lemma calm_walk_down t capSats limit buckets claimed losses :
  exact (ExpLess binSats (i64 capSats)) (λ v, v <? capSats) → 0 < limit → 0 ≤ losses →
  calm (pend t claimed) (walk_down clk sc tok capSats limit buckets claimed losses)
    (λ r, drained t claimed losses r (∀ b, b ∈ buckets → none_in (key b) (λ v, v <? capSats) t)).
Proof.
  intros He Hlim. revert claimed losses. induction buckets as [|b buckets IH]; intros claimed losses Hl; cbn [walk_down].
  { apply calm_self_ret. intros c Hc. split_and!; [done|simpl; lia|]. simpl. intros. split; [done|]. by intros _ b ?%elem_of_nil. }
  destruct (Z.leb_spec limit (Z.of_nat (length claimed))) as [Hf|Hf].
  { apply calm_self_ret. intros c Hc. split_and!; [done|simpl; lia|]. simpl. intros ->. simpl in Hf. lia. }
  eapply (calm_self_bind _ _ _ (λ _, pend t claimed)).
  { intros c [Hs Ht]. destruct (reads_check_ctx c) as (a&Ha&_); [by destruct Hs..|]. by rewrite /wp Ha. }
  intros []. eapply calm_self_bind; [by apply calm_largest|]. intros [claimed' losses'].
  intros c (Hp&Hle&Hr). simpl in Hle, Hr. eapply wp_mono; [apply IH; [lia|exact Hp]| |done|done].
  intros r c' (Hp'&Hle'&Hr'). split_and!; [done|lia|]. intros Hr0. destruct (Hr' Hr0) as [Hc0 Hφ].
  destruct (Hr Hc0) as [-> Hn]. split; [done|]. intros Hz b' [->|Hb']%elem_of_cons; [apply Hn; lia|by apply Hφ].
Qed.

Lemma calm_exact t fuel k denomination count claimed losses :
  exact (ExpEq binSats (VInt (i64 denomination))) (λ v, v =? denomination) → 0 < count → 0 ≤ losses →
  calm (pend t claimed) (exact_in clk fuel k tok denomination count claimed losses)
    (λ r, drained t claimed losses r (none_in k (λ v, v =? denomination) t)).
Proof.
  intros He Hlim. revert claimed losses.
  induction fuel as [|fuel IH]; intros claimed losses Hl; cbn [exact_in];
    (destruct (Z.leb_spec count (Z.of_nat (length claimed))); [by eapply drained_full|]).
  { intros c Hc. by apply pend_settled in Hc. }
  eapply (calm_self_bind _ _ _ (λ _, pend t claimed)).
  { intros c [Hs Ht]. destruct (reads_check_ctx c) as (a&Ha&_); [by destruct Hs..|]. by rewrite /wp Ha. }
  intros []. eapply calm_self_bind; [apply (calm_pend_cands t); [done|lia]|]. intros cands. apply calm_pre. intros Hn.
  destruct cands as [|cand cands].
  { apply calm_self_ret. intros c Hc. split_and!; [done|simpl; lia|]. simpl. auto. }
  eapply calm_self_bind; [by apply calm_claim_batch|]. intros [[claimed' losses'] pg]. apply calm_pre. intros [Hle Hnil].
  apply (drained_batch t claimed losses claimed' losses'); [done|lia| |apply IH; lia].
  intros Hc0. destruct (Hnil Hc0) as [-> Hx]. split; [done|]. specialize (Hx Hlim). simpl length in Hx. lia.
Qed.
End loops.

(** ** The filters *)

Lemma i64_small v : 0 ≤ v < 2 ^ 63 → i64 v = v.
Proof. intros Hv. rewrite /wrapS Z.mod_small; lia. Qed.
Lemma exact_ge x : 0 ≤ x < 2 ^ 63 → exact (ExpGreaterEq binSats (i64 x)) (λ v, x <=? v).
Proof.
  intros Hx u Hu Hf. rewrite /holds /= !i64_small //; [by destruct (x <=? u_Satoshis u)|]. pose proof (fit_sats _ Hf). lia.
Qed.
Lemma exact_lt x : 0 ≤ x < 2 ^ 63 → exact (ExpLess binSats (i64 x)) (λ v, v <? x).
Proof.
  intros Hx u Hu Hf. rewrite /holds /= !i64_small //; [by destruct (u_Satoshis u <? x)|]. pose proof (fit_sats _ Hf). lia.
Qed.
Lemma exact_eq x : 0 ≤ x < 2 ^ 63 → exact (ExpEq binSats (VInt (i64 x))) (λ v, v =? x).
Proof.
  intros Hx u Hu Hf. rewrite /holds /= !i64_small //; [by destruct (u_Satoshis u =? x)|]. pose proof (fit_sats _ Hf). lia.
Qed.

(** ** The calls *)

Definition calm_store {A} (P : Conn → Prop) (m : M Store error A) (Q : A → Conn → Prop) : Prop := ∀ s,
  P (conn s) →
  match m s with (Ret a, s') => Q a (conn s') | (_, s') => settled (conn s') end.
Lemma calm_open {A} (P : Conn → Prop) (k : M Store error A) Q :
  (∀ c, P c → settled c) → calm_store P k Q → calm_store P (guard_open k) Q.
Proof. intros HP Hk s Hs. rewrite /guard_open. destruct (closed s); [by apply HP|by apply Hk]. Qed.
Lemma calm_valid {A} (P : Conn → Prop) v (k : M Store error A) Q :
  (∀ c, P c → settled c) → (v = None → calm_store P k Q) → calm_store P (guard_valid v k) Q.
Proof. intros HP Hk. destruct v; [|by apply Hk]. intros s Hs. by apply HP. Qed.
Lemma calm_conn {A} P (m : AM A) Q : calm P m Q → calm_store P (on_conn m) Q.
Proof.
  intros Hm s Hs. specialize (Hm (conn s) Hs). rewrite /wp /on_conn /zoom in Hm |- *. by destruct (m (conn s)) as [[] ?].
Qed.
Lemma easy_open {A} (k : M Store error A) :
  calm_store settled k (λ _, settled) → calm_store settled (guard_open k) (λ _, settled).
Proof. by apply calm_open. Qed.
Lemma easy_valid {A} v (k : M Store error A) :
  (v = None → calm_store settled k (λ _, settled)) → calm_store settled (guard_valid v k) (λ _, settled).
Proof. by apply calm_valid. Qed.
Lemma calm_answer {A} (m : M Store error A) (f : outcome error A → answer) s :
  calm_store settled m (λ _, settled) → settled (conn s) → settled (conn (returns f (m s)).2).
Proof. intros Hm Hs. specialize (Hm s Hs). rewrite /returns. by destruct (m s) as [[] ?]. Qed.

(** What a claim that comes back empty says of the records it started from. *)
Lemma claim_smallest_alone clk sc tok x t :
  0 ≤ x < 2 ^ 63 →
  calm_store (here t) (ClaimSmallestSufficient clk sc tok x)
    (λ o c, settled c ∧ (o = None → ∀ b, b ∈ from_bucket (bucketOf x) →
       none_in (claimKeyFor (sc_UserID sc) (sc_Basket sc) (sc_Tier sc) b) (λ v, x <=? v) t)).
Proof.
  intros Hx. apply calm_open, calm_valid; [apply here_settled..|]. intros [Ht _]%ValidateClaim_None. apply calm_conn.
  eapply calm_conseq; [done| |apply (calm_walk_up clk sc tok Ht); [by apply exact_ge|done]].
  intros o c [? Ho]. split; [done|]. intros Hn. by apply Ho.
Qed.
Lemma contended_nil t r φ :
  calm (drained t [] 0 r φ) (contended r.1 r.2) (λ l c, settled c ∧ (l = [] → φ)).
Proof.
  rewrite /contended. intros c (Hp&Hle&Hr). apply pend_settled in Hp.
  destruct r as [[|u l] losses]; simpl in *; [|by split].
  destruct (Z.ltb_spec 0 losses); [done|]. split; [done|]. intros _. apply Hr; [done|lia].
Qed.
Lemma claim_largest_alone clk sc tok x n t :
  0 < x < 2 ^ 63 → 0 < n →
  calm_store (here t) (ClaimLargestInsufficient clk sc tok x n)
    (λ l c, settled c ∧ (l = [] → ∀ b, b ∈ down_from (bucketOf (x - 1)) →
       none_in (claimKeyFor (sc_UserID sc) (sc_Basket sc) (sc_Tier sc) b) (λ v, v <? x) t)).
Proof.
  intros Hx Hn. apply calm_open, calm_valid; [apply here_settled..|]. intros [Ht _]%ValidateClaim_None.
  rewrite (proj2 (orb_false_iff _ _)); [|split; [apply Z.leb_gt; lia|apply Z.eqb_neq; lia]].
  apply calm_conn. eapply (calm_self_bind _ _ _ (λ r, drained t [] 0 r _)).
  - eapply calm_conseq; [|exact (λ r c Hc, Hc)|apply (calm_walk_down clk sc tok Ht); [apply exact_lt; lia|done|done]].
    intros c [? ?]. by split.
  - intros [claimed losses]. apply contended_nil.
Qed.
Lemma claim_exact_alone clk sc tok x n t :
  0 ≤ x < 2 ^ 63 → 0 < n →
  calm_store (here t) (ClaimExact clk sc tok x n)
    (λ l c, settled c ∧ (l = [] →
       none_in (claimKeyFor (sc_UserID sc) (sc_Basket sc) (sc_Tier sc) (bucketOf x)) (λ v, v =? x) t)).
Proof.
  intros Hx Hn. apply calm_open, calm_valid; [apply here_settled..|]. intros [Ht _]%ValidateClaim_None.
  rewrite (proj2 (Z.leb_gt _ _)) //. apply calm_conn. eapply (calm_self_bind _ _ _ (λ r, drained t [] 0 r _)).
  - eapply calm_conseq; [|exact (λ r c Hc, Hc)|apply (calm_exact clk tok Ht); [by apply exact_eq|done|done]].
    intros c [? ?]. by split.
  - intros [claimed losses]. apply contended_nil.
Qed.

(** Amounts fit the server's signed integers, as the code assumes of satoshis. *)
Definition bounded (c : call) : Prop :=
  match c with
  | CClaimSmallestSufficient _ _ _ x | CClaimLargestInsufficient _ _ _ x _ | CClaimExact _ _ _ x _ => 0 ≤ x < 2 ^ 63
  | _ => True
  end.

Lemma calm_ret_store {A} (P : Conn → Prop) (a : A) (Q : A → Conn → Prop) :
  (∀ c, P c → Q a c) → calm_store P (mret a) Q.
Proof. intros HQ s Hs. by apply HQ. Qed.
Lemma claim_settled {A} (m : M Store error A) Q :
  (∀ t, calm_store (here t) m (λ a c, settled c ∧ Q t a)) → calm_store settled m (λ _, settled).
Proof. intros Hm s Hs. specialize (Hm (recs (conn s)) s (conj Hs eq_refl)). destruct (m s) as [[] ?]; [by destruct Hm|done..]. Qed.

Lemma call_settled c s :
  typed ident c → bounded c → settled (conn s) → settled (conn (aero_call c s).2).
Proof.
  intros Ht Hb Hs. destruct c; cbn [aero_call]; try (apply calm_answer; [|done]).
  - apply easy_open, calm_conn, easy_bind; [|intros; by apply calm_self_ret]. apply easy_for_each. intros m Hm.
    apply easy_mintOne. by eapply Forall_forall in Ht.
  - apply easy_open, calm_conn, easy_batch. intros. apply easy_removeOne.
  - eapply claim_settled. intros t. by apply claim_smallest_alone.
  - destruct (Z.leb_spec limit 0); [|destruct (Z.eqb_spec capSats 0)].
    + apply easy_open, easy_valid. intros _. rewrite (proj2 (Z.leb_le limit 0)) //. by apply calm_ret_store.
    + subst. apply easy_open, easy_valid. intros _. rewrite orb_true_r. by apply calm_ret_store.
    + eapply claim_settled. intros t. apply claim_largest_alone; [simpl in Hb; lia|done].
  - destruct (Z.leb_spec count 0).
    + apply easy_open, easy_valid. intros _. rewrite (proj2 (Z.leb_le count 0)) //. by apply calm_ret_store.
    + eapply claim_settled. intros t. by apply claim_exact_alone.
  - apply easy_open, easy_valid. intros Hv. apply calm_conn, easy_ReserveOutpoints. intros ->.
    by rewrite /ValidateReserveOutpoints in Hv.
  - apply easy_open, easy_valid. intros Hv%ValidateReservation_None. by apply calm_conn, easy_ReleaseReservation.
  - apply easy_open, easy_valid. intros Hv%ValidateReservation_None. by apply calm_conn, easy_release_named.
  - apply easy_open, easy_valid. intros Hv%ValidateReservation_None. by apply calm_conn, easy_setPinned.
  - apply easy_open, easy_valid. intros Hv%ValidateReservation_None. by apply calm_conn, easy_setPinned.
  - apply easy_open, calm_conn, easy_bind; [|intros; by apply calm_self_ret]. apply easy_for_each. intros. apply easy_spendOne.
  - apply easy_open, calm_conn, easy_count_each. intros. apply easy_unspendOne.
  - apply easy_open, calm_conn, easy_RemoveSpentBy.
  - apply easy_open, easy_valid. intros Hv. destruct (Tier_Valid to) eqn:Hto; [|done].
    apply calm_conn, easy_count_each. intros. by apply easy_promoteOne.
  - apply easy_open, easy_valid. intros _. apply calm_conn, easy_bind; [apply easy_mint_ops_loop|].
    intros [st e]. by apply calm_self_ret.
  - apply easy_open, calm_conn, easy_batch. intros. apply easy_freezeOne.
  - apply easy_open, calm_conn, easy_batch. intros. apply easy_unfreezeOne.
  - by intros s0 Hs0.
Qed.

(** A process alone with a set of coins. *)
Inductive alone : Store → Prop :=
| alone_opened opts sv t s durable :
    wf ident t → New opts sv t [] = inr (s, durable) → alone s
| alone_called c s : alone s → typed ident c → bounded c → alone (aero_call c s).2.

Lemma alone_settled s : alone s → settled (conn s).
Proof.
  induction 1 as [opts sv t s durable Hw Hn|]; [|by apply call_settled].
  rewrite /New in Hn. destruct (negb (sv_reachable sv)); [done|]. destruct (checkFundSafety sv); [done|].
  destruct (ensureIndexes sv); [done|]. injection Hn as <- _. constructor; simpl; [done|done|..];
    rewrite /cache_of; intros cc; (destruct (0 <? _) eqn:Hz; [|done]); intros [= <-].
  - by intros k b.
  - by apply Z.ltb_lt in Hz.
  - by intros k b.
Qed.

(** Empty-handed: the call found nothing. *)
Definition empty_handed (a : answer) : Prop := a = ACoin (Ret None) ∨ a = ACoins (Ret []).
(** The claim asks for something. *)
Definition asks (c : call) : Prop :=
  match c with
  | CClaimLargestInsufficient _ _ _ x n => 0 < x ∧ 0 < n
  | CClaimExact _ _ _ _ n => 0 < n
  | _ => True
  end.
Lemma in_scope_key sc u : in_scope sc u →
  key_of u = claimKeyFor (sc_UserID sc) (sc_Basket sc) (sc_Tier sc) (bucketOf (u_Satoshis u)).
Proof. intros (Hu&Hb&Ht). by rewrite /key_of Hu Hb Ht. Qed.

Lemma empty_claim c sc tok P s op u :
  settled (conn s) → claim_of c = Some (sc, tok, P) → bounded c → asks c → empty_handed (aero_call c s).1 →
  coin_at (recs (conn s)) op = Some u → in_scope sc u → free u → u_Frozen u = false → ¬ P (u_Satoshis u).
Proof.
  intros Hs Hc Hb Ha He Hu Hsc Hfree Hfr HP.
  assert (claimable u = true) as Hcl by by apply claim_expression_spec.
  pose proof (in_scope_key sc u Hsc) as Hk.
  destruct (wf_coin ident _ _ _ (hb_wf _ _ Hs) Hu) as (r&_&Hfit&_). pose proof (fit_small _ _ Hfit) as Hsm.
  assert (0 ≤ u_Satoshis u < 2 ^ 64) as Hr by apply Hfit. pose proof (bucketOf_range _ Hr) as Hbr.
  destruct c; try done; injection Hc as <- <- <-; simpl in He, HP, Hb, Ha.
  - pose proof (claim_smallest_alone clk sc0 tok0 minSats _ Hb s (conj Hs eq_refl)) as Hx.
    destruct (ClaimSmallestSufficient _ _ _ _ s) as [o s']. destruct He as [[= ->]|]; [|done]. destruct Hx as [_ Hx].
    pose proof (bucketOf_mono minSats (u_Satoshis u)).
    specialize (Hx eq_refl (bucketOf (u_Satoshis u)) ltac:(apply elem_of_seqZ; lia) op u Hu Hcl Hk). simpl in Hx. lia.
  - pose proof (claim_largest_alone clk sc0 tok0 capSats limit (recs (conn s)) ltac:(lia) (proj2 Ha) s (conj Hs eq_refl)) as Hx.
    destruct (ClaimLargestInsufficient _ _ _ _ _ s) as [o s']. destruct He as [|[= ->]]; [done|]. destruct Hx as [_ Hx].
    pose proof (bucketOf_mono (u_Satoshis u) (capSats - 1)).
    specialize (Hx eq_refl (bucketOf (u_Satoshis u)) ltac:(apply elem_of_reverse, elem_of_seqZ; lia) op u Hu Hcl Hk). simpl in Hx. lia.
  - pose proof (claim_exact_alone clk sc0 tok0 denomination count (recs (conn s)) Hb Ha s (conj Hs eq_refl)) as Hx.
    destruct (ClaimExact _ _ _ _ _ s) as [o s']. destruct He as [|[= ->]]; [done|]. destruct Hx as [_ Hx].
    rewrite HP in Hk. specialize (Hx eq_refl op u Hu Hcl Hk). simpl in Hx. lia.
Qed.
End alone.
End AeroAlone.

(** * AeroReserve: reserving named coins

    Among other processes.  [ff] says that no command fails. *)
Module AeroReserve.
Import AeroClaims AeroAlone.

(** The others leave alone what [tok] holds. *)
Definition private (tok : string) (L : coin_rels) : Prop :=
  ∀ op u o, L op (Some u) o → u_ReservedBy u = tok → o = Some u.
Lemma private_rtc tok L op u o : private tok L → rtc (L op) (Some u) o → u_ReservedBy u = tok → o = Some u.
Proof.
  intros HL Hr Hu. remember (Some u) as x eqn:Hx. induction Hr as [|x y z Hxy _ IH]; [done|]. subst x.
  pose proof (HL _ _ _ Hxy Hu) as ->. by apply IH.
Qed.

Lemma distinct_from_spec seen ops :
  NoDup (distinct_from seen ops) ∧ ∀ op, op ∈ distinct_from seen ops ↔ op ∈ ops ∧ op ∉ seen.
Proof.
  revert seen. induction ops as [|x ops IH]; intros seen; simpl.
  { split; [constructor|]. intros op. by rewrite elem_of_nil; tauto. }
  case_decide as Hx.
  - destruct (IH seen) as [? Hin]. split; [done|]. intros op. rewrite Hin elem_of_cons. naive_solver.
  - destruct (IH ({[x]} ∪ seen)) as [Hnd Hin]. split.
    + constructor; [|done]. rewrite Hin. set_solver.
    + intros op. rewrite !elem_of_cons Hin. destruct (decide (op = x)) as [->|]; set_solver.
Qed.

(** No command fails. *)
Definition faultless (e : event) : bool := match ev_fault e with None => true | Some _ => false end.
Lemma all_faultless es : Forall (λ e, ev_fault e = None) es ↔ forallb faultless es = true.
Proof.
  induction es as [|e es IH]; simpl; [by split; [|constructor]|]. rewrite Forall_cons IH andb_true_iff /faultless.
  destruct (ev_fault e); naive_solver.
Qed.

Section reserve.
Context (ident : Outpoint → identity) (L : coin_rels) (ff : bool).

Record calm (c : Conn) : Prop := {
  calm_wf : wf ident (recs c);
  calm_legal : legal ident L (events c);
  calm_ff : ff = true → Forall (λ e, ev_fault e = None) (events c);
}.
Lemma arrive_calm c :
  calm c → calm (arrive c).2 ∧ (∀ op, rtc (L op) (coin_at (recs c) op) (coin_at (recs (arrive c).2) op)) ∧
    (ff = true → ev_fault (arrive c).1 = None).
Proof.
  intros [Hw Hl Hf]. rewrite /arrive. destruct (events c) as [|e es] eqn:He.
  { split_and!; [by constructor; rewrite ?He|done|done]. }
  apply Forall_cons in Hl as [[Hp _] Hl]. destruct (Hp _ Hw) as [Hw' Hp']. split_and!; [|done|].
  - constructor; [done|done|]. intros E. by apply Hf, Forall_cons in E as [_ ?].
  - intros E. by apply Hf, Forall_cons in E as [? _].
Qed.

(** Never panics; returns with [Q], or fails, with [X] if no command fails. *)
Definition sure {A} (P : Conn → Prop) (m : AM A) (Q : A → Conn → Prop) (X : Conn → Prop) : Prop :=
  ∀ c, P c → wp m Q (λ _ c, ff = true → X c) (λ _, False) c.
Lemma sure_ret {A} P (a : A) (Q : A → Conn → Prop) X : (∀ c, P c → Q a c) → sure P (mret a) Q X.
Proof. intros HQ c HP. by apply HQ. Qed.
Lemma sure_throw {A} P e (Q : A → Conn → Prop) (X : Conn → Prop) : (∀ c, P c → X c) → sure P (throw e) Q X.
Proof. intros HX c HP _. by apply HX. Qed.
Lemma sure_bind {A B} P (m : AM A) (k : A → AM B) Q R X :
  sure P m Q X → (∀ a, sure (Q a) (k a) R X) → sure P (m ≫= k) R X.
Proof. intros Hm Hk c HP. apply wp_bind. eapply wp_mono; [by apply Hm| |done|done]. intros a c' HQ. by apply Hk. Qed.
Lemma sure_pre {A} (P : Conn → Prop) (m : AM A) Q X (φ : Prop) : (φ → sure P m Q X) → sure (λ c, P c ∧ φ) m Q X.
Proof. intros Hm c [HP Hφ]. by apply Hm. Qed.
Lemma sure_conseq {A} (P P' : Conn → Prop) (m : AM A) (Q Q' : A → Conn → Prop) X :
  (∀ c, P' c → P c) → (∀ a c, Q a c → Q' a c) → sure P m Q X → sure P' m Q' X.
Proof. intros HP HQ Hm c Hc. eapply wp_mono; [apply Hm, HP, Hc|apply HQ|done|done]. Qed.
Lemma sure_attempt {A} P (m : AM A) Q X Y :
  sure P m Q X → sure P (attempt m) (λ r c, match r with inr a => Q a c | inl _ => ff = true → X c end) Y.
Proof. intros Hm c HP. specialize (Hm c HP). rewrite /wp /attempt in Hm |- *. by destruct (m c) as [[] ?]. Qed.

(** What holds here and holds after whatever the others do. *)
Definition lasting (P : Conn → Prop) : Prop := ∀ c, P c → calm c ∧ P (arrive c).2.

Lemma sure_command {A} (f : Table → A * Table) P (Q : A → Conn → Prop) X :
  lasting P → (∀ c, P c → let '(a, t) := f (recs c) in Q a (with_recs t c)) → sure P (command f) Q X.
Proof.
  intros HP Hf c Hc. destruct (HP c Hc) as [Hcalm Hc1]. destruct (arrive_calm c Hcalm) as (_&_&Hff).
  rewrite /wp /command. destruct (arrive c) as [e c1]. simpl in *. specialize (Hf c1 Hc1).
  destruct (f (recs c1)) as [a t]. destruct (ev_fault e) as [[[] x]|]; [..|done]; intros E; by apply Hff in E.
Qed.

(** The coins of [c] except at [op], where there is [u]. *)
Definition now_at (c : Conn) (op : Outpoint) (u : UTXO) (c' : Conn) : Prop :=
  calm c' ∧ coin_at (recs c') op = Some u ∧ ∀ op', op' ≠ op → coin_at (recs c') op' = coin_at (recs c) op'.

Lemma sure_Operate P e key ops (Q : result → Conn → Prop) X :
  lasting P →
  (∀ c u, P c → coin_at (recs c) key = Some u → fit_at ident key u → holds e (encode u) = true →
     ∃ u', fit_at ident key u' ∧ same (apply_ops ops (encode u)) (encode u') ∧ ∀ c', now_at c key u' c' → Q Done c') →
  (∀ c r, P c → r ≠ Done → (∀ u, coin_at (recs c) key = Some u → holds e (encode u) = true → False) → Q r c) →
  sure P (Operate (Some e) key ops) Q X.
Proof.
  intros HP Hw Hn. apply sure_command; [done|]. intros c Hc. destruct (HP c Hc) as [[Hwf Hl Hff] _].
  assert (with_recs (recs c) c = c) as Hid by by destruct c.
  destruct (recs c !! key) as [r|] eqn:Hr.
  2:{ rewrite Hid. apply Hn; [done..|]. intros u. by rewrite /coin_at Hr. }
  destruct (Hwf _ _ Hr) as [u Hu]. pose proof (represents_coin _ _ _ _ _ Hr Hu) as Hcu. destruct Hu as [Hf Hs].
  rewrite (holds_same e _ _ Hs). destruct (holds e (encode u)) eqn:Hh.
  - destruct (Hw c u Hc Hcu Hf Hh) as (u'&Hf'&Hs'&HQ). apply HQ.
    assert (represents ident key (apply_ops ops r) u') as Hr'.
    { split; [done|]. by rewrite (apply_ops_same _ _ _ Hs). }
    split_and!; simpl.
    + constructor; [by eapply wf_insert|done|done].
    + eapply represents_coin; [apply lookup_insert_eq|done].
    + intros op' Hne. apply coin_at_ne. by rewrite lookup_insert_ne.
  - rewrite Hid. apply Hn; [done..|]. intros u'. rewrite Hcu. intros [= <-]. congruence.
Qed.

Lemma sure_note (P : Conn → Prop) k X :
  lasting P → (∀ c cc, P c → P (with_cache cc c)) → sure P (note k) (λ _, P) X.
Proof.
  intros HP Hcc c Hc. destruct (HP c Hc) as [_ Hc1]. rewrite /wp /note. destruct (cache c) as [cc|] eqn:E; [|done].
  rewrite /section. assert (is_Some (cache (arrive c).2)) as [cc1 E1].
  { rewrite /arrive. destruct (events c); simpl; rewrite E; by eexists. }
  destruct (arrive c) as [e c1]. simpl in *. rewrite E1. by apply Hcc.
Qed.
Lemma sure_noteAll (P : Conn → Prop) uid basket sats X :
  lasting P → (∀ c cc, P c → P (with_cache cc c)) → sure P (noteClaimableAllTiers uid basket sats) (λ _, P) X.
Proof.
  intros HP Hcc. rewrite /noteClaimableAllTiers. induction allTiers as [|x l IH]; simpl; [by apply sure_ret|].
  eapply sure_bind; [by apply sure_note|]. intros []. exact IH.
Qed.

Section named.
Context (t0 : Table) (uid : Z) (tok : string) (ms : Z) (Htok : tok ≠ "") (HL : private tok L).

(** A coin this call took: it could be claimed, and is reserved now. *)
Definition taken (c : Conn) (u : UTXO) : Prop :=
  fit_at ident (u_Outpoint u) u ∧
  ∃ u0, rtc (L (u_Outpoint u)) (coin_at t0 (u_Outpoint u)) (Some u0) ∧ fit_at ident (u_Outpoint u) u0 ∧
    claimable u0 = true ∧ coin_at (recs c) (u_Outpoint u) = Some (set_reservation tok (msToTime ms) u0).
(** The token holds this coin. *)
Definition kept (c : Conn) (op : Outpoint) : Prop := ∃ u, coin_at (recs c) op = Some u ∧ held uid tok u.
Record mine (won : list UTXO) (hs : list Outpoint) (c : Conn) : Prop := {
  mine_calm : calm c;
  mine_distinct : NoDup (u_Outpoint <$> won);
  mine_others : ∀ op, op ∉ u_Outpoint <$> won → rtc (L op) (coin_at t0 op) (coin_at (recs c) op);
  mine_taken : ∀ u, u ∈ won → taken c u;
  mine_kept : ∀ op, op ∈ hs → kept c op;
}.

Lemma mine_lasting won hs : lasting (mine won hs).
Proof.
  intros c Hm. split; [apply Hm|]. destruct Hm as [Hc Hd Ho Ht Hk]. destruct (arrive_calm c Hc) as (Hc'&Hr&_).
  constructor; [done|done|..].
  - intros op Hop. etrans; [by apply Ho|apply Hr].
  - intros u Hu. destruct (Ht u Hu) as (Hf&u0&?&?&?&Hcu). split; [done|]. exists u0. split_and!; [done..|].
    specialize (Hr (u_Outpoint u)). rewrite Hcu in Hr. by apply (private_rtc _ _ _ _ _ HL Hr).
  - intros op Hop. destruct (Hk op Hop) as (u&Hu&Hheld). exists u. split; [|done].
    specialize (Hr op). rewrite Hu in Hr. apply (private_rtc _ _ _ _ _ HL Hr), Hheld.
Qed.
Lemma mine_cache won hs c cc : mine won hs c → mine won hs (with_cache cc c).
Proof. intros [[] ? ? ? ?]. by constructor. Qed.
Lemma mine_less won hs hs' c : (∀ op, op ∈ hs' → op ∈ hs) → mine won hs c → mine won hs' c.
Proof. intros Hs []. constructor; auto. Qed.

Lemma kept_elsewhere c op u c' op' : now_at c op u c' → op' ≠ op → kept c op' → kept c' op'.
Proof. intros (_&_&Hne) Ho (v&Hv&?). exists v. by rewrite Hne. Qed.

Lemma mine_more won hs u u0 c c' :
  mine won hs c → u_Outpoint u ∉ u_Outpoint <$> won → coin_at (recs c) (u_Outpoint u) = Some u0 →
  fit_at ident (u_Outpoint u) u → fit_at ident (u_Outpoint u) u0 → claimable u0 = true → u_UserID u0 = uid →
  u_Outpoint u ∉ hs →
  now_at c (u_Outpoint u) (set_reservation tok (msToTime ms) u0) c' →
  mine (won ++ [u])%list (u_Outpoint u :: hs) c'.
Proof.
  intros [Hcalm Hd Ho Ht Hk] Hnew Hu Hf Hf0 Hc Huid Hhs Hnow. pose proof Hnow as (Hcalm'&Hu'&Hne).
  pose proof Hc as [[_ Hs] _]%claim_expression_spec. constructor; [done|..].
  - rewrite fmap_app. apply NoDup_app. split_and!; [done| |apply NoDup_singleton].
    intros x Hx Hx'. by apply list_elem_of_singleton in Hx' as ->.
  - intros op. rewrite fmap_app not_elem_of_app /=. intros [Hop1 Hop2].
    rewrite Hne; [by apply Ho|]. intros ->. apply Hop2. left.
  - intros v [Hv|Hv]%elem_of_app.
    + destruct (Ht v Hv) as (Hfv&v0&?&?&?&Hcv). split; [done|]. exists v0. split_and!; [done..|]. rewrite Hne //.
      intros E. apply Hnew. rewrite -E. by apply list_elem_of_fmap_2.
    + apply list_elem_of_singleton in Hv as ->. split; [done|]. exists u0. split_and!; [|done..]. rewrite -Hu. by apply Ho.
  - intros op [->|Hop]%elem_of_cons; [by exists (set_reservation tok (msToTime ms) u0)|].
    apply (kept_elsewhere c _ _ _ op Hnow); [|by apply Hk]. by intros ->.
Qed.

(** What a look at a named row tells, when it was taken. *)
Lemma sure_classify won hs op X :
  sure (mine won hs) (classifyForReserve op uid tok)
    (λ v c, mine won hs c ∧ match v with
       | inl _ => True
       | inr (u, sat) => fit_at ident op u ∧ u_SpentBy u = None ∧ (sat = true → kept c op)
       end) X.
Proof.
  eapply (sure_bind _ _ _ (λ o c, mine won hs c ∧ o = recs c !! op)).
  { apply sure_command; [apply mine_lasting|]. intros c Hm. split; [by destruct c|done]. }
  intros o c [Hm ->]. destruct (recs c !! op) as [r|] eqn:Hr; [|done].
  destruct (calm_wf _ (mine_calm _ _ _ Hm) _ _ Hr) as [u Hu]. apply wp_bind.
  rewrite /wp /of_record /lift (recordToUTXO_same _ _ (proj2 Hu)) recordToUTXO_encode; [|apply Hu]. split; [done|].
  rewrite /reserve_verdict. destruct (decide (u_UserID u ≠ uid)) as [|Huid]; [done|]. apply dec_stable in Huid.
  destruct (u_SpentBy u) eqn:Hs; [done|]. destruct (decide _); [done|]. destruct (u_Frozen u); [done|].
  split_and!; [apply Hu|done|]. intros Hres%bool_decide_eq_true. exists u. split; [|done].
  by eapply represents_coin.
Qed.

Lemma sure_reserveOne won hs op :
  op ∉ u_Outpoint <$> won → op ∉ hs →
  sure (mine won hs) (reserveOutpointOne op uid tok ms)
    (λ v c, match v with
            | inl _ => mine won hs c
            | inr None => mine won (op :: hs) c
            | inr (Some u) => mine (won ++ [u])%list (op :: hs) c ∧ u_Outpoint u = op
            end) (mine won hs).
Proof.
  intros Hop Hhs. assert (∀ c, mine won hs c → kept c op → mine won (op :: hs) c) as Hadd.
  { intros c [] Hk. constructor; try done. intros op' [->|?]%elem_of_cons; auto. }
  eapply sure_bind; [apply sure_classify|]. intros [e|[u []]].
  { apply sure_ret. by intros c [? _]. }
  { apply sure_ret. intros c (?&_&_&Hk). by apply Hadd; [|apply Hk]. }
  intros c (Hm&Hf&Hs&_). revert c Hm. change (sure (mine won hs) (ok ← casReserveOutpoint u uid tok ms;
    if ok : bool then mret (inr (Some (set_reservation tok (msToTime ms) u)))
    else v ← classifyForReserve op uid tok;
         match v with
         | inl e => mret (inl e)
         | inr (_, true) => mret (inr None)
         | inr (_, false) => throw ErrContention
         end)
    (λ v c, match v with
            | inl _ => mine won hs c
            | inr None => mine won (op :: hs) c
            | inr (Some u) => mine (won ++ [u])%list (op :: hs) c ∧ u_Outpoint u = op
            end) (mine won hs)).
  pose proof (at_op _ _ _ Hf) as Hopu.
  eapply (sure_bind _ _ _ (λ ok c, if ok : bool then mine (won ++ [set_reservation tok (msToTime ms) u])%list (op :: hs) c
    else mine won hs c)).
  - eapply (sure_bind _ _ _ (λ r c, match r with Done => mine (won ++ [set_reservation tok (msToTime ms) u])%list (op :: hs) c
      | _ => mine won hs c end)); [|intros []; by apply sure_ret].
    rewrite Hopu. apply sure_Operate; [apply mine_lasting| |by intros c [] ? ?].
    intros c u0 Hm Hu0 Hf0. rewrite !holds_and_true holds_has_claimKey holds_owned_by. intros (Hc0&Huid&_).
    pose proof Hc0 as [[_ Hs0] _]%claim_expression_spec.
    exists (set_reservation tok (msToTime ms) u0). split_and!; [by apply fit_at_reserve|by apply write_reserve|].
    intros c' Hnow. assert (u_Outpoint (set_reservation tok (msToTime ms) u) = op) as Ho by done.
    rewrite -{1}Ho. apply (mine_more won hs _ u0 c); rewrite ?Ho; try done. by apply fit_at_reserve.
  - intros []; [apply sure_ret; intros c Hm; by split|]. eapply sure_bind; [apply sure_classify|].
    intros [e|[u' []]]; [apply sure_ret; by intros c [? _]| |apply sure_throw; by intros c [? _]].
    apply sure_ret. intros c (?&_&_&Hk). by apply Hadd; [|apply Hk].
Qed.

Lemma taken_back u0 op : fit_at ident op u0 → claimable u0 = true →
  MemStore.unreserve (set_reservation tok (msToTime ms) u0) = u0 ∧ u_Pinned u0 = false.
Proof.
  intros [_ Hfit _] [[Hr Hs] Hf]%claim_expression_spec.
  pose proof (fit_reserved _ Hfit) as Ha. rewrite decide_True // in Ha. split.
  - destruct u0; simpl in *; by subst.
  - destruct (u_Pinned u0) eqn:E; [|done]. by apply Hfit in E as [? _].
Qed.

(** Handing one coin back. *)
Lemma sure_release u won X :
  sure (mine (u :: won) []) (releaseRow u tok false) (λ _, mine won []) X.
Proof.
  eapply (sure_bind _ _ _ (λ r, mine won [])).
  - apply sure_Operate; [apply mine_lasting|..].
    + intros c v [Hcalm Hd Ho Ht _] Hv Hfv _. destruct (Ht u (list_elem_of_here _ _)) as (Hf&u0&Hr0&Hf0&Hc0&Hcu).
      rewrite Hcu in Hv. injection Hv as <-. destruct (taken_back u0 _ Hf0 Hc0) as [Hback Hp].
      pose proof Hc0 as [[_ Hs] _]%claim_expression_spec. exists u0.
      assert (set_pinned false (MemStore.unreserve (set_reservation tok (msToTime ms) u0)) = u0) as Hpin.
      { by rewrite Hback; apply set_pinned_same. }
      split_and!; [done| |].
      * rewrite -{2}Hpin. apply (write_release u tok); [by destruct Hfv|by eapply same_ident|done..].
      * intros c' (Hcalm'&Hat&Hne). csimpl in Hd. apply NoDup_cons in Hd as [Hnew Hd].
        constructor; [done|done|..|by intros op ?%elem_of_nil].
        -- intros op Hop. destruct (decide (op = u_Outpoint u)) as [->|Hop']; [by rewrite Hat|].
           rewrite Hne //. apply Ho. csimpl. by apply not_elem_of_cons.
        -- intros v Hv. destruct (Ht v (list_elem_of_further _ _ _ Hv)) as (?&v0&?&?&?&?). split; [done|].
           exists v0. split_and!; [done..|]. rewrite Hne //. intros E. apply Hnew. rewrite -E. by apply list_elem_of_fmap_2.
    + intros c r [_ _ _ Ht _] _ Hno. destruct (Ht u (list_elem_of_here _ _)) as (_&u0&_&Hf0&Hc0&Hcu).
      destruct (taken_back u0 _ Hf0 Hc0) as [_ Hp]. pose proof Hc0 as [[_ Hs] _]%claim_expression_spec.
      exfalso. apply (Hno _ Hcu). rewrite /release_guard. cbn [app].
      by rewrite !holds_and_true holds_reserved_by // holds_unspent holds_unpinned.
  - intros r. assert (sure (mine won []) (_ ← noteClaimableAllTiers (u_UserID u) (u_Basket u) (u_Satoshis u); mret true)
      (λ _, mine won []) X) as Hnote.
    { eapply sure_bind; [apply sure_noteAll; [apply mine_lasting|intros; by apply mine_cache]|]. intros []. by apply sure_ret. }
    destruct r; [exact Hnote|by apply sure_ret..].
Qed.

(** Handing all back; with a failing command some may stay reserved. *)
Lemma note_all_no_panic uid' basket sats c : (noteClaimableAllTiers uid' basket sats c).1 ≠ Panic.
Proof.
  rewrite /noteClaimableAllTiers. revert c. induction allTiers as [|t l IH]; intros c; [done|].
  cbn [foldr]. rewrite /mbind /M_bind /noteClaimable /note. destruct (cache c) as [cc|] eqn:E; [|apply IH]. rewrite /section.
  assert (is_Some (cache (arrive c).2)) as [cc1 E1] by (rewrite /arrive; destruct (events c); simpl; rewrite E; by eexists).
  destruct (arrive c) as [e c1]. simpl in E1. rewrite E1. apply IH.
Qed.
Lemma command_no_panic {A} (f : Table → A * Table) c : (command f c).1 ≠ Panic.
Proof. rewrite /command. destruct (arrive c) as [e c1], (f (recs c1)). by destruct (ev_fault e) as [[[] ?]|]. Qed.
Lemma releaseRow_no_panic u c : (releaseRow u tok false c).1 ≠ Panic.
Proof.
  rewrite /releaseRow /mbind /M_bind. set (g := Operate _ _ _). pose proof (command_no_panic _ c : (g c).1 ≠ Panic) as Hg.
  destruct (g c) as [[[]|e|] c1]; [|done..]. pose proof (note_all_no_panic (u_UserID u) (u_Basket u) (u_Satoshis u) c1) as Hn.
  by destruct (noteClaimableAllTiers _ _ _ c1) as [[] c2].
Qed.
Lemma undo_no_panic won c : (undoReserveOutpoints won tok c).1 ≠ Panic.
Proof.
  revert c. induction won as [|u won IH]; intros c; cbn [undoReserveOutpoints]; [done|].
  rewrite {1}/mbind /M_bind /attempt. pose proof (releaseRow_no_panic u c) as Hr.
  destruct (releaseRow u tok false c) as [[b|e|] c1]; [apply IH..|done].
Qed.
Lemma sure_undo won X :
  sure (λ c, ff = true → mine won [] c) (undoReserveOutpoints won tok) (λ _ c, ff = true → mine [] [] c) X.
Proof.
  destruct (decide (ff = true)) as [Hff|Hff].
  - intros c Hm. specialize (Hm Hff). revert c Hm. induction won as [|u won IH]; cbn [undoReserveOutpoints]; [by apply sure_ret|].
    intros c Hm. apply wp_bind.
    eapply wp_mono; [apply (sure_attempt _ _ _ (mine won []) X (sure_release u won _) c Hm)| |done|done].
    intros [e|b] c' Hc'; apply IH; auto.
  - intros c _. pose proof (undo_no_panic won c) as Hn. rewrite /wp. by destruct (undoReserveOutpoints won tok c) as [[] c1].
Qed.

Lemma sure_reserve_all ops errs won hs :
  NoDup ops → (∀ op, op ∈ ops → op ∉ u_Outpoint <$> won ∧ op ∉ hs) → (∀ u, u ∈ won → u_Outpoint u ∈ hs) →
  sure (mine won hs) (reserve_all uid tok ms ops errs won)
    (λ '(errs', won') c, ∃ hs', mine won' hs' c ∧ (errs ≠ [] → errs' ≠ []) ∧
       (∀ op, op ∈ u_Outpoint <$> won' → op ∈ ops ∨ op ∈ u_Outpoint <$> won) ∧
       (errs' = [] → ∀ op, op ∈ ops ∨ op ∈ hs → op ∈ hs')) (mine [] []).
Proof.
  revert errs won hs. induction ops as [|op ops IH]; intros errs won hs Hnd Hnew Hwh; cbn [reserve_all].
  { apply sure_ret. intros c Hm. exists hs. split_and!; [done|done|by right|]. by intros _ op [?%elem_of_nil|?]. }
  apply NoDup_cons in Hnd as [Hop Hnd]. destruct (Hnew op ltac:(left)) as [Hop1 Hop2].
  assert (∀ op', op' ∈ ops → op' ∉ u_Outpoint <$> won ∧ op' ∉ op :: hs) as Hnew'.
  { intros op' Hop'. destruct (Hnew op' ltac:(by right)). split; [done|]. rewrite elem_of_cons. naive_solver. }
  eapply sure_bind; [apply sure_attempt, sure_reserveOne; done|]. intros [e|[e|[u|]]].
  - eapply (sure_bind _ _ _ (λ _ c, ff = true → mine [] [] c)).
    + eapply sure_conseq; [| |apply sure_undo]; [|done]. intros c Hc E. apply (mine_less _ hs); [by intros ? ?%elem_of_nil|auto].
    + intros []. intros c Hc E. auto.
  - eapply sure_conseq; [exact (λ c Hc, Hc)| |apply IH; [done|intros; apply Hnew; by right|done]].
    intros [errs' won'] c (hs'&Hm&Hne&Hin&Hall). exists hs'. split_and!; [done|intros _; apply Hne, app_one_ne| |].
    + intros op' [?|?]%Hin; [left; by right|by right].
    + intros ->. by destruct (Hne (app_one_ne _ _)).
  - apply sure_pre. intros Hu. eapply sure_conseq; [exact (λ c Hc, Hc)| |apply IH; [done|..]].
    + intros [errs' won'] c (hs'&Hm&Hne&Hin&Hall). exists hs'. rewrite fmap_app /= Hu in Hin. split_and!; [done|done|..].
      * intros op' [?|[?|Hx]%elem_of_app]%Hin; [left; by right|by right|].
        apply list_elem_of_singleton in Hx as ->. left. left.
      * intros He op' Hop'. apply (Hall He). rewrite elem_of_cons in Hop'. rewrite elem_of_cons. tauto.
    + intros op' Hop'. destruct (Hnew' op' Hop'). split; [|done]. rewrite fmap_app /= Hu. apply not_elem_of_app. split; [done|].
      intros Hx. by apply list_elem_of_singleton in Hx as ->.
    + intros v [Hv|Hv]%elem_of_app; [right; by apply Hwh|]. apply list_elem_of_singleton in Hv as ->. rewrite Hu. left.
  - simpl option_list. rewrite app_nil_r. eapply sure_conseq; [exact (λ c Hc, Hc)| |apply IH; [done|done|]].
    + intros [errs' won'] c (hs'&Hm&Hne&Hin&Hall). exists hs'. split_and!; [done|done|..].
      * intros op' [?|?]%Hin; [left; by right|by right].
      * intros He op' Hop'. apply (Hall He). rewrite elem_of_cons in Hop'. rewrite elem_of_cons. tauto.
    + intros v Hv. right. by apply Hwh.
Qed.

(** The whole call. *)
Lemma reserve_named ops c :
  calm c → recs c = t0 →
  wp ('(itemErrs, won) ← reserve_all uid tok ms (distinctOutpoints ops) [] [];
      match itemErrs with
      | [] => mret ()
      | _ => _ ← undoReserveOutpoints won tok; lift (batch_result itemErrs)
      end)
    (λ _ c', (∀ op, op ∈ ops → kept c' op) ∧
       (∀ op, op ∉ ops → rtc (L op) (coin_at t0 op) (coin_at (recs c') op)) ∧
       (∀ op u, coin_at t0 op = Some u → u_ReservedBy u = tok → coin_at (recs c') op = Some u))
    (λ _ c', ff = true → ∀ op, rtc (L op) (coin_at t0 op) (coin_at (recs c') op)) (λ _, False) c.
Proof.
  intros Hcalm Ht. destruct (distinct_from_spec ∅ ops) as [Hnd Hin].
  assert (mine [] [] c) as Hm.
  { constructor; [done|constructor|by rewrite Ht|by intros ? ?%elem_of_nil..]. }
  apply wp_bind. eapply wp_mono; [apply (sure_reserve_all (distinctOutpoints ops) [] [] [] Hnd)| | |done]; [|by intros ? ?%elem_of_nil|exact Hm|..].
  { intros op _. split; apply not_elem_of_nil. }
  - intros [errs won] c1 (hs&Hm1&_&Hwon&Hall). destruct errs as [|e errs].
    + destruct Hm1 as [_ _ Ho Htk Hk]. split_and!.
      * intros op Hop. apply Hk, Hall; [done|]. left. apply Hin. set_solver.
      * intros op Hop. apply Ho. intros [Hx|?%elem_of_nil]%Hwon; [|done]. apply Hop. by apply Hin in Hx as [? _].
      * intros op u Hu Hr. destruct (decide (op ∈ u_Outpoint <$> won)) as [(v&->&Hv)%list_elem_of_fmap|Hn].
        -- destruct (Htk v Hv) as (_&u0&Hrtc&_&[[Hf _] _]%claim_expression_spec&_). rewrite Hu in Hrtc.
           apply (private_rtc _ _ _ _ _ HL) in Hrtc as [= ->]; [|done]. congruence.
        -- specialize (Ho op Hn). rewrite Hu in Ho. by apply (private_rtc _ _ _ _ _ HL Ho).
    + apply wp_bind. eapply wp_mono; [apply (sure_undo won (mine [] []) c1)| |intros ? c2 Hm2 Hff op|done].
      * intros _. by apply (mine_less _ hs); [intros ? ?%elem_of_nil|].
      * intros ? c2 Hm2 Hff op. apply (mine_others _ _ _ (Hm2 Hff)), not_elem_of_nil.
      * apply (mine_others _ _ _ (Hm2 Hff)), not_elem_of_nil.
  - intros e c1 Hm1 Hff op. apply (mine_others _ _ _ (Hm1 Hff)), not_elem_of_nil.
Qed.
End named.

End reserve.
End AeroReserve.

(** * AeroProps: the properties *)
Module AeroProps.
Import AeroClaims AeroCalls AeroAlone AeroReserve StoreExample.

Section claim_answers.
Context `{MapRange} (ident : Outpoint → identity) (L : coin_rels).

Lemma aero_claim_answer {A} own (m : M Store error A) (f : outcome error A → answer) (g : A → list UTXO) S s :
  runs_store ident L own (S []) m (λ a, S (g a)) → good ident L (conn s) → S [] (conn s) →
  (∀ a, handed (f (Ret a)) = g a) → (∀ e, handed (f (Err e)) = []) →
  handed (f (m s).1) = [] ∨ S (handed (f (m s).1)) (conn (m s).2).
Proof.
  intros Hm Hg HS Hr He. specialize (Hm s Hg HS). destruct (m s) as [[a|e|] s']; simpl; [|by left|].
  - right. rewrite Hr. apply Hm.
  - by destruct Hm as (_&_&?).
Qed.
Lemma won_at_start sc tok P c : won L sc tok P c [] c.
Proof. constructor; [constructor|done|by intros u ?%elem_of_nil]. Qed.
End claim_answers.

(** C9: races. With one value, owner and basket per outpoint: whatever other processes
    write between the commands of a call, whatever other goroutines do to the claim
    cache, and whichever command fails, carried out by the server or not, each coin
    changes only by the steps the store documents for this call, or the undoing of this
    call's own reservations, and by the others' own steps; the call does not panic; and
    every record is afterwards the encoding of a coin, so that a coin is in the claim
    index exactly while it can be claimed, under its live tier. *)
Theorem aero_calls_interleave `{MapRange} ident (L : coin_rels) c s :
  typed ident c → good ident L (conn s) →
  let '(a, s') := aero_call c s in
  panicked a = false ∧
  (∀ op, rtc (λ o o', lifecycle c op o o' ∨ undo c op o o' ∨ L op o o')
           (coin_at (recs (conn s)) op) (coin_at (recs (conn s')) op)) ∧
  (∀ op r, recs (conn s') !! op = Some r →
     ∃ u, coin_at (recs (conn s')) op = Some u ∧ fit_at ident op u ∧ ∀ b, r b = encode u b).
Proof.
  intros Ht Hg. pose proof (call_steps ident L c s Ht Hg) as Hc. destruct (aero_call c s) as [a s'].
  destruct Hc as ([Hw _ _]&[Hs _]&Hp). split_and!; [done|..].
  - intros op. eapply rtc_subrel; [|apply Hs]. intros ?? [[?|?]|?]; auto.
  - intros op r Hr. destruct (Hw op r Hr) as [u Hu]. exists u. split; [by eapply represents_coin|]. apply Hu.
Qed.

(** C10: claims hand out free coins.  Among others that do not take back what the claimer's
    token holds, the coins a claim returns are distinct and still held under the token
    when it returns, and each was, after what others did before the compare-and-set, a
    free unfrozen coin of the scope with a value the claim asks for, returned as it was
    then except for the time of its creation, which the cached snapshot gives. *)
Theorem aero_claims_hand_out_free `{MapRange} ident (L : coin_rels) c sc tok P s :
  claim_of c = Some (sc, tok, P) → typed ident c → leaves tok L → good ident L (conn s) →
  let '(a, s') := aero_call c s in
  NoDup (u_Outpoint <$> handed a) ∧
  ∀ u, u ∈ handed a → claimed_free L sc tok P (conn s) (conn s') u ∧
    ∃ v, coin_at (recs (conn s')) (u_Outpoint u) = Some v ∧ u_ReservedBy v = tok.
Proof.
  intros Hc Ht HL Hg.
  assert (handed (aero_call c s).1 = [] ∨ won L sc tok P (conn s) (handed (aero_call c s).1) (conn (aero_call c s).2)) as Hw.
  { pose (own := own_steps c). destruct c; try done; injection Hc as <- <- <-; destruct Ht; cbn [aero_call].
    - apply (aero_claim_answer ident L own _ ACoin option_list); [|done|apply won_at_start|done|done].
      apply store_smallest; [apply won_stable|done|]. apply reserving_won; [done|done| |done]. simpl. lia.
    - apply (aero_claim_answer ident L own _ ACoins id); [|done|apply won_at_start|done|done].
      apply store_largest; [apply won_stable|done|]. apply reserving_won; [done|done| |done]. simpl. lia.
    - apply (aero_claim_answer ident L own _ ACoins id); [|done|apply won_at_start|done|done].
      apply store_exact; [apply won_stable|done|]. apply reserving_won; [done|done| |done]. simpl. lia. }
  destruct (aero_call c s) as [a s']. simpl in Hw. destruct Hw as [->|[Hd _ Hf]].
  - split; [constructor|]. by intros u ?%elem_of_nil.
  - split; [done|]. intros u Hu. split; [by apply Hf|]. by eapply claimed_held, Hf.
Qed.


(** C12: an empty answer is the truth.  For a process that has the set to itself, from its
    opening on and with any configuration of the cache: if a claim comes back with
    nothing, then no free unfrozen coin of its scope has a value it asks for; neither a
    bucket remembered as empty nor a stale or limited sample hides a coin. *)
Theorem aero_empty_claim_complete `{MapRange} ident c sc tok P s :
  (∀ op, id_sats (ident op) < 2 ^ 63) → alone ident s →
  claim_of c = Some (sc, tok, P) → bounded c → asks c → empty_handed (aero_call c s).1 →
  ∀ op u, coin_at (recs (conn s)) op = Some u → in_scope sc u → free u → u_Frozen u = false → ¬ P (u_Satoshis u).
Proof. intros Hsm Ha Hc Hb Hk He op u Hu ???. by eapply (empty_claim ident Hsm); first [by eapply alone_settled|done]. Qed.

(** C13: named outpoints, within the bounds of the backend.  Among other processes that
    leave alone what the token holds: ReserveOutpoints does not panic; if it succeeds,
    every named coin is the user's, reserved under the token and unspent, unnamed coins
    changed only by what others did, and coins the token already held are untouched; if
    it is refused and no command failed, every coin has changed only by what others did,
    so nothing stays reserved.  A failing command may leave coins reserved, which is the
    bound the code documents. *)
Theorem aero_reserve_all_or_nothing ident L clk uid tok ops s o s' :
  good ident L (conn s) → private tok L → ReserveOutpoints clk uid tok ops s = (o, s') →
  let coins s op := coin_at (recs (conn s)) op in
  match o with
  | Ret _ =>
      (∀ op, op ∈ ops → ∃ u, coins s' op = Some u ∧ held uid tok u) ∧
      (∀ op, op ∉ ops → rtc (L op) (coins s op) (coins s' op)) ∧
      (∀ op u, coins s op = Some u → u_ReservedBy u = tok → coins s' op = Some u)
  | Err _ =>
      Forall (λ e, ev_fault e = None) (events (conn s)) → ∀ op, rtc (L op) (coins s op) (coins s' op)
  | Panic => False
  end.
Proof.
  intros Hg HL. rewrite /ReserveOutpoints /guard_open. destruct (closed s); [by intros [= <- <-]|].
  destruct (ValidateReserveOutpoints tok ops) eqn:Hv; [by intros [= <- <-]|].
  assert (tok ≠ "") as Htok by (intros ->; by rewrite /ValidateReserveOutpoints in Hv).
  rewrite /= /on_conn /zoom. set (c := mkConn (recs (conn s)) (cache (conn s)) (S (ticks (conn s))) (events (conn s))).
  set (ms := UnixMilli (clk (ticks (conn s)))). set (ff := forallb faultless (events (conn s))).
  assert (calm ident L ff c) as Hcalm.
  { constructor; [apply Hg..|]. intros E. by apply all_faultless. }
  pose proof (reserve_named ident L ff (recs (conn s)) uid tok ms Htok HL ops c Hcalm eq_refl) as Hr.
  rewrite /wp /nowMillis /now /mbind /M_bind /= in Hr |- *. fold ms. fold c.
  destruct (reserve_all uid tok ms (distinctOutpoints ops) [] [] c) as [[[errs won]|e|] c1]; simpl in Hr |- *; [|..|done].
  - destruct errs as [|e errs]; simpl in Hr |- *; [by intros [= <- <-]|].
    destruct (undoReserveOutpoints won tok c1) as [[[]|e'|] c2]; simpl in Hr |- *; [..|done];
      intros [= <- <-] Hff%all_faultless; by apply Hr.
  - intros [= <- <-] Hff%all_faultless. by apply Hr.
Qed.

(** ** Instances *)

(** Three coins of user 7 in a set of its own. *)
Definition ident_ex (op : Outpoint) : identity :=
  mkId 7 "default" (if decide (op = op1) then 1000 else if decide (op = op2) then 500 else 700) DefaultP2PKHInputSize.
Definition sv_ex : server :=
  mkServer true (Some (Some (list_ascii_of_string "ns_cluster_size=1;default-ttl=0"))) None (λ _, true).
Definition noon (n : nat) : Time := unixEpoch + 1000000000 * (1 + Z.of_nat n).
Definition opened : Store :=
  match New [] sv_ex ∅ [] with inr (s, _) => s | inl _ => mkStore (mkConn ∅ None 0 []) true end.
Definition minting : call := CMint noon [mint_of op1 1000; mint_of op2 500; mint_of op3 700].
Definition stocked : Store := (aero_call (H := range_canonical) minting opened).2.
Definition reserving_two : call := CReserveOutpoints noon 7 "t1" [op2; op1].
Definition reserved : Store := (aero_call (H := range_canonical) reserving_two stocked).2.

Lemma opened_alone : alone (H := range_canonical) ident_ex opened.
Proof. by apply (alone_opened ident_ex [] sv_ex ∅ opened false). Qed.
Lemma minting_typed : typed ident_ex minting.
Proof. rewrite /minting /= !Forall_cons. split_and!; [constructor; simpl; done || lia..|done]. Qed.
Lemma stocked_alone : alone (H := range_canonical) ident_ex stocked.
Proof. apply alone_called; [apply opened_alone|apply minting_typed|done]. Qed.
Lemma reserved_alone : alone (H := range_canonical) ident_ex reserved.
Proof. by apply alone_called; [apply stocked_alone|..]. Qed.

(** The store among others. *)
Definition among (s : Store) (es : list event) : Store :=
  mkStore (mkConn (recs (conn s)) (cache (conn s)) (ticks (conn s)) es) false.
(** Another process freezes [op3]; the command that follows may fail. *)
Definition freeze_op3 (fault : option (bool * backend_error)) : event :=
  mkEvent (λ t, match t !! op3 with Some r => <[op3 := apply_ops freeze_ops r]> t | None => t end) id false fault.
Definition freezing : coin_rels := λ op o o', lifecycle (CFreeze [op3]) op o o'.

Lemma peer_freeze_legal es : Forall (λ e, ∃ fault, e = freeze_op3 fault) es → legal ident_ex freezing es.
Proof.
  intros Hes. eapply Forall_impl; [exact Hes|]. intros e [fault ->]. split; [|done]. intros t Hw. simpl.
  destruct (t !! op3) as [r|] eqn:Hr; [|done]. destruct (Hw _ _ Hr) as [u Hu].
  assert (represents ident_ex op3 (apply_ops freeze_ops r) (set_frozen true u)) as Hu'.
  { destruct Hu as [Hf Hs]. split; [by apply fit_at_frozen|]. rewrite (apply_ops_same _ _ _ Hs). apply write_freeze. }
  split; [by eapply wf_insert|]. intros op. destruct (decide (op = op3)) as [->|].
  - rewrite (represents_coin _ _ _ _ _ Hr Hu) (represents_coin ident_ex _ op3 (apply_ops freeze_ops r) _ (lookup_insert_eq _ _ _) Hu').
    apply rtc_once, lc_freeze. left.
  - by rewrite (coin_at_ne t (<[op3 := apply_ops freeze_ops r]> t) op) // lookup_insert_ne.
Qed.
Lemma among_good s fault : alone (H := range_canonical) ident_ex s → good ident_ex freezing (conn (among s [freeze_op3 fault])).
Proof.
  intros [He Hw Hc Hr Ht]%alone_settled; [|by intros; simpl; repeat case_decide].
  constructor; [done|done|]. apply peer_freeze_legal. by repeat constructor; exists fault.
Qed.

(** The best fit is frozen before the probe: the claim takes the other coin. *)
Lemma aero_calls_interleave_witness :
  let c := CClaimSmallestSufficient noon sc0 "t2" 600 in
  let s := among stocked [freeze_op3 None] in
  (u_Outpoint <$> handed (aero_call (H := range_canonical) c s).1) = [op1] ∧
  panicked (aero_call (H := range_canonical) c s).1 = false.
Proof.
  cbv zeta. split; [vm_compute; reflexivity|].
  pose proof (aero_calls_interleave (H := range_canonical) ident_ex freezing (CClaimSmallestSufficient noon sc0 "t2" 600)
    (among stocked [freeze_op3 None]) ltac:(simpl; lia) (among_good _ _ stocked_alone)) as Hr.
  destruct (aero_call _ _) as [a s']. apply Hr.
Defined.

Lemma freezing_leaves tok : leaves tok freezing.
Proof. intros op u o Hl Hr. inversion Hl; simplify_eq/=. by eexists. Qed.

Lemma aero_claims_hand_out_free_witness :
  let c := CClaimLargestInsufficient noon sc0 "t2" 2000 5 in
  let s := among stocked [freeze_op3 None] in
  (u_Outpoint <$> handed (aero_call (H := range_canonical) c s).1) = [op1; op2] ∧
  NoDup (u_Outpoint <$> handed (aero_call (H := range_canonical) c s).1).
Proof.
  cbv zeta. split; [vm_compute; reflexivity|].
  pose proof (aero_claims_hand_out_free (H := range_canonical) ident_ex freezing
    (CClaimLargestInsufficient noon sc0 "t2" 2000 5) sc0 "t2" (λ v, v < 2000) (among stocked [freeze_op3 None])
    eq_refl ltac:(simpl; lia) (freezing_leaves _) (among_good _ _ stocked_alone)) as Hr.
  destruct (aero_call _ _) as [a s']. apply Hr.
Defined.


(** Nothing of 800 or more is left after [op1] was reserved. *)
Lemma aero_empty_claim_complete_witness :
  let c := CClaimSmallestSufficient noon sc0 "t2" 800 in
  (aero_call (H := range_canonical) c reserved).1 = ACoin (Ret None) ∧
  ∃ u, coin_at (recs (conn reserved)) op3 = Some u ∧ free u ∧ ¬ 800 ≤ u_Satoshis u.
Proof.
  cbv zeta. split; [vm_compute; reflexivity|]. eexists. split; [vm_compute; reflexivity|]. split; [done|].
  apply (aero_empty_claim_complete (H := range_canonical) ident_ex (CClaimSmallestSufficient noon sc0 "t2" 800) sc0 "t2"
    (λ v, 800 ≤ v) reserved ltac:(intros; simpl; repeat case_decide; lia) reserved_alone eq_refl ltac:(simpl; lia) I
    ltac:(left; vm_compute; reflexivity) op3); done.
Defined.

(** Another process takes [op3] under ["t9"] while it can be claimed. *)
Definition take_op3 : event :=
  mkEvent (λ t, match t !! op3 with
                | Some r => if holds (ExpBinExists binClaimKey) r then <[op3 := apply_ops (reserve_ops "t9" 5) r]> t else t
                | None => t
                end) id false None.
Definition taking : coin_rels := λ op o o',
  ∃ u, o = Some u ∧ claimable u = true ∧ o' = Some (set_reservation "t9" (msToTime 5) u).
Lemma taking_private tok : tok ≠ "" → private tok taking.
Proof. intros Ht op u o (u'&[= <-]&[[Hr _] _]%claim_expression_spec&_) E. by rewrite -E in Ht. Qed.
Lemma take_legal : legal ident_ex taking [take_op3].
Proof.
  constructor; [|constructor]. split; [|done]. intros t Hw. simpl. destruct (t !! op3) as [r|] eqn:Hr; [|done].
  destruct (Hw _ _ Hr) as [u Hu]. pose proof Hu as [Hf Hs]. rewrite (holds_same _ _ _ Hs) holds_has_claimKey.
  destruct (claimable u) eqn:Hc; [|done]. pose proof Hc as [[_ Hsp] _]%claim_expression_spec.
  assert (represents ident_ex op3 (apply_ops (reserve_ops "t9" 5) r) (set_reservation "t9" (msToTime 5) u)) as Hu'.
  { split; [by apply fit_at_reserve|]. rewrite (apply_ops_same _ _ _ Hs). by apply write_reserve. }
  split; [by eapply wf_insert|]. intros op. destruct (decide (op = op3)) as [->|].
  - rewrite (represents_coin _ _ _ _ _ Hr Hu) (represents_coin ident_ex _ op3 _ _ (lookup_insert_eq _ _ _) Hu').
    apply rtc_once. by exists u.
  - by rewrite (coin_at_ne t (<[op3 := apply_ops (reserve_ops "t9" 5) r]> t) op) // lookup_insert_ne.
Qed.

(** [op2] is free, [op1] is held by another token and [op3] is taken meanwhile: the
    call hands [op2] back. *)
Lemma aero_reserve_all_or_nothing_witness :
  let s := among (aero_call (H := range_canonical) (CReserveOutpoints noon 7 "t9" [op1]) stocked).2 [take_op3] in
  let r := ReserveOutpoints noon 7 "t2" [op2; op1; op3; op2] s in
  r.1 = Err (ErrBatchJoin [ReservedError op1 "t9"; ReservedError op3 "t9"]) ∧
  ∀ op, rtc (taking op) (coin_at (recs (conn s)) op) (coin_at (recs (conn r.2)) op).
Proof.
  cbv zeta. split; [vm_compute; reflexivity|].
  assert (alone (H := range_canonical) ident_ex (aero_call (H := range_canonical) (CReserveOutpoints noon 7 "t9" [op1]) stocked).2) as Ha.
  { by apply alone_called; [apply stocked_alone|..]. }
  apply alone_settled in Ha; [|by intros; simpl; repeat case_decide].
  set (s := among _ _).
  assert (good ident_ex taking (conn s)) as Hg by (destruct Ha; constructor; [done|done|apply take_legal]).
  exact (aero_reserve_all_or_nothing ident_ex taking noon 7 "t2" [op2; op1; op3; op2] s
    (Err (ErrBatchJoin [ReservedError op1 "t9"; ReservedError op3 "t9"]))
    (ReserveOutpoints noon 7 "t2" [op2; op1; op3; op2] s).2 Hg (taking_private "t2" ltac:(done)) ltac:(vm_compute; reflexivity)
    ltac:(by repeat constructor)).
Defined.
End AeroProps.
